(* ===== verification/_CoqProject ===== *)
-Q . S2P
Prelude.v
Codec.v
Core.v
Disk.v
Mvcc.v
Oracle.v
ValueLog.v
WalRecord.v
Memtable.v
Bloom.v
SSTable.v
SSTableRead.v
SSTableImage.v
Compaction.v
Manifest.v
WalEngine.v
WalScan.v
WalVisit.v
WalInvariant.v
WalRefine.v
WalRecover.v
WalExport.v
WalHazards.v
KeyedOp.v
Backup.v
StateHash.v
Pitr.v
Recovery.v
Txn.v
TxnCorrect.v
Independent.v
Sequencer.v
CrossShard.v
Consensus.v
RaftProtocol.v
RaftSafety.v
RaftWire.v
RaftNode.v
RaftDurable.v
RaftSim.v
RaftCluster.v
RaftHazards.v
Replica.v
BigEndian.v
Uint256.v
SqlKeys.v
SqlRow.v
ColumnBlock.v
SqlCatalog.v
SeededRandom.v
Scheduler.v
SimBus.v
StableSort.v
History.v
Linearizable.v
TxnCheckers.v
TxnHarness.v
Conformance.v
Json.v
Protocol.v
Database.v
Server.v
ServerCorrect.v
Auth.v
Calendar.v
SqlText.v
Admin.v
PgWire.v
PgRaft.v
RaftWireB.v
RaftNodeB.v
RaftSimB.v
RaftClusterB.v
RaftHazardsB.v
