(* ===== verification/Prelude.v ===== *)
(** * Lockstep: storage, transactions, consensus, server, runtime and checkers, verified

    Lockstep (src/) is a deterministic distributed database.  This library
    models its storage layer (src/storage), the simulated disk it runs on
    (src/providers/sim/SimDisk.hpp), the one-shot transaction executors built on
    it and the cross-shard order they consume (src/txn, the sequencer), both
    Raft implementations (src/consensus/.../raft_a and raft_b), the storage forms of the SQL
    layer (src/query/.../sql: keys, rows, column blocks, 256-bit integers, JSON and the
    catalog), the query database, the protocol server and the PostgreSQL front ends (src/query,
    src/providers/prod), the access policy and administration of a node, the runtime the system is simulated on (src/core: scheduler, futures,
    tasks; src/providers/sim: network and random source) and the checkers its test
    harness judges runs with (src/harness, and those of src/txn and src/consensus),
    and proves them correct
    from the bytes on a device up to strict serializability of a batch of
    transactions and agreement of a cluster on its committed log.

    ** How the program is put together

    A [WalEngine] accepts puts and deletes, gives each the next sequence number,
    appends a record to a write-ahead log on a device and inserts the version in
    a memtable.  A memtable above its threshold is flushed to an immutable
    SSTable (blocks, sparse index, Bloom filter, footer, each with a CRC)
    installed by a record of an append-only manifest; enough tables of one size
    are merged by a compaction that drops versions no reader can see.  Large
    values may live in a value log and be replaced by pointers.  Reads merge the
    memtable and the tables at a snapshot.  After a crash [recover] folds the
    manifest, loads the tables and replays the log.  Backup, point-in-time
    recovery, the replica hash and the offline diagnostics are clients of the
    engine or of its formats.  The executor runs a globally ordered batch of
    transactions against any engine and reports what each read and wrote; a
    second executor, written independently, recomputes every read from a log of
    writes.  A batch's order comes from the sequencer, which merges the committed
    logs of the shards epoch by epoch; cross-shard commit keeps a transaction once
    all its shards have it.  Each shard's log is agreed by a Raft group: a
    [RaftNodeA] exchanges framed messages, wakes on a timer, and hands records of
    its term, vote, log, snapshots and configurations to a persist worker, from
    which it recovers after a power loss; [RaftNodeB] is a second implementation of the
    same interface, with formats of its own.  SQL sits on top: the catalog gives each
    table an id, rows and index entries become keys and values of the engine under
    prefixes made from that id, and queries scan ranges of those keys.

    Clients speak a framed binary protocol to a server: it submits named operations as
    transactions, answers a repeated key from a table, applies the write-set of each
    commit to a store of its own, from which it serves typed queries at the prefix their
    level names, and withholds the answers to a burst of puts until one sync covers them.

    In production a daemon runs a Raft node, a pump that applies its committed log to a
    SQL engine, an administration port with metrics, and a PostgreSQL listener that runs
    reads locally and submits writes to Raft, answering each once it has been applied; a
    policy file maps principals to roles, and a gate asks it about every request.

    All of it runs on one thread: coroutines wait in a ready queue or on timers of a
    virtual clock, and a scheduler resumes them in an order that the seed of a run
    determines.  In a simulated run the network is a bus on that scheduler which
    delays, duplicates, drops and partitions messages as its random source says.  The
    harness records what clients saw as a history of operations, samples the nodes of
    a cluster, and hands both to checkers; a differential harness generates batches
    of transactions from a seed and compares an executor with the serial oracle.

    ** Files

    - [Prelude] (this file): bytes, fixed-width integers, keys and the list
      lemmas every component shares; tactics and hint databases.
    - [Codec]: storage/Codec.hpp and Format.hpp: little-endian integers, the
      table-driven CRC-32, stream headers.
    - [Core]: core/Error.hpp, core/IRandom.hpp: errors, and a random source as a
      tape of draws.
    - [Disk]: sim/SimDisk.hpp: append, read, sync, crash, bit rot.
    - [Mvcc]: versions, histories and the engine contract of storage/Engine.hpp
      as the classes [EngineOps] (operations) and [EngineSpec] (laws).
    - [Oracle]: storage/Oracle.hpp, the reference engine; an [EngineSpec].
    - [ValueLog], [WalRecord], [Memtable], [Bloom]: the value log, the log
      record codec, the memtable and the Bloom filter.
    - [SSTable], [SSTableRead], [SSTableImage]: builder, reader and loader of
      tables; exactness of reads; the image round trip and damage detection.
    - [Compaction], [Manifest]: [compact_merge] and the manifest records.
    - [WalEngine]: every operation of the engine class as a function in a state
      monad over the engine's fields and its devices.
    - [WalScan], [WalVisit], [WalInvariant], [WalRefine]: the two scans, the
      engine invariant, and the refinement of the engine contract ([wal_spec],
      an [EngineSpec]).
    - [WalRecover], [WalExport], [WalHazards]: recovery after a crash, the
      op-log export and branches, and executions outside the hypotheses of the
      refinement.
    - [KeyedOp], [Backup], [StateHash], [Pitr], [Recovery]: the codec of a
      replicated operation, logical backups, replica hashes, archives and the
      offline walks.
    - [Txn], [TxnCorrect]: the transaction types, the strict serial oracle and
      the deterministic executor, and their agreement.
    - [Independent]: txn/IndependentExecutor.hpp and its agreement with the first
      executor.
    - [Sequencer], [CrossShard]: consensus/sequencer/Sequencer.hpp and
      txn/CrossShard.hpp.
    - [Consensus]: the types of consensus/ConsensusNode.hpp.
    - [RaftProtocol], [RaftSafety]: the abstract protocol (servers, messages,
      ghost ballots and elections) as a step relation, and its invariant.
    - [RaftWire]: the message and record codecs of RaftNodeA.hpp.
    - [RaftNode]: the state of [RaftNodeA] and every operation of the class.
    - [RaftDurable]: the record stream against replay; what a power loss keeps.
    - [RaftSim], [RaftCluster]: each operation of [RaftNode] is a sequence of
      steps of [RaftProtocol]; a cluster of nodes with their devices and network,
      and its safety.
    - [RaftHazards]: runs outside the bounds of [RaftCluster].
    - [RaftWireB], [RaftNodeB]: RaftNodeB.hpp: the message and record codecs with replay, and
      every operation of the class.
    - [RaftSimB], [RaftClusterB], [RaftHazardsB]: its operations as steps of the same
      [RaftProtocol] together with the records they queue; a cluster and its safety; runs
      outside the bounds.
    - [BigEndian]: big-endian integers and lexicographic order.
    - [Uint256]: query/sql/Uint256.hpp: four 64-bit limbs.
    - [SqlKeys], [SqlRow]: query/sql/Catalog.hpp: the storage keys of every kind;
      row and column values and their decoders.
    - [ColumnBlock]: query/sql/ColumnBlock.hpp: chunks of a columnar table.
    - [SqlCatalog]: the class [Catalog] of Catalog.hpp, and its recovery in
      Engine.hpp.
    - [Calendar], [SqlText]: Catalog.hpp: dates and times; the text and storage forms of
      the logical types.
    - [StableSort]: sorting lemmas shared by [Json] and the checkers.
    - [Json]: query/sql/Json.hpp: the parser and the canonical form.
    - [Protocol]: query/wire/Protocol.hpp: the frames of the client protocol.
    - [Database]: query/Query.hpp and query/Database.hpp: queries, their planner and the
      store of committed write-sets, over any [EngineSpec].
    - [Server], [ServerCorrect]: query/wire/Server.hpp; the abstract server it refines.
    - [Auth]: prod/ProdAuth.hpp, the flags of lockstepd.cpp and the gate of
      ProdServerNode.hpp on [Server].
    - [Admin]: the administration records and requests of prod/ProdConsensusNode.hpp and
      the metrics of prod/ProdMetrics.hpp.
    - [Replica]: the apply pump of prod/ProdConsensusNode.hpp on [RaftCluster].
    - [PgWire]: query/wire/PgWire.hpp: messages, parameters and the session.
    - [PgRaft]: prod/ProdPgRaftServer.hpp, with the SQL machine of lockstepd.cpp on
      [Replica].
    - [SeededRandom]: sim/SeededRandom.hpp: splitmix64 and bounded draws.
    - [Scheduler]: core/Scheduler.hpp, Future.hpp, Task.hpp, ReadyQueue.hpp and
      Trace.hpp; a coroutine is an arbitrary program of turns.
    - [SimBus]: sim/detail/SimBus.hpp and SimNetwork.hpp, with its delivery
      coroutines on [Scheduler].
    - [History]: harness/History.hpp, Checker.hpp, CheckerRunner.hpp and the
      checkers Integrity, Durability and SessionMonotonic.
    - [Linearizable]: harness/checkers/Linearizable.hpp against linearizability.
    - [TxnCheckers], [TxnHarness]: txn/Checkers.hpp and txn/DiffHarness.hpp.
    - [Conformance]: consensus/Observation.hpp, ConformanceCheckers.hpp,
      CrossCheck.hpp and the sampling of ClusterDriver.hpp.

    ** Conventions

    A w-bit unsigned integer is a [Z]; where the code can wrap, [u32] or [u64]
    is written out, and each theorem that needs no wrap has the bound among its
    hypotheses ([msg_wf], [rec_wf] and [fits] for Raft, [msg_ok] and [rec_ok] for the second
    implementation).  [kCap] bounds the length of a history such that no sequence
    number and no table id reaches 2^64.  [std::byte] and [char] are [byte]; a
    key or a value is a list of bytes; a position in a buffer is a suffix or an
    index, as in the code.  A [std::map] is an association list in key order,
    because its iteration order is part of the formats.  A fallible operation
    returns an [option] or the code's [Error].

    A coroutine is awaited to completion before the next one starts: its
    [co_await]s are the binds of the monad [M].  Every random draw of a device
    (torn append, io fault, lying sync) is read from a tape, and the theorems
    quantify over tapes, so they cover every seed and fault configuration.  A
    disk factory (the [IDiskFactory] of WalEngine.hpp, whose implementations
    decide what reclaiming a device does) is a class parameter.

    Fuel: a decode loop takes the length of its buffer, since every iteration
    consumes at least a header; the merge and cursor loops take the number of
    entries; a batch takes (transactions) * (max_retry + 1) turns, and
    [TxnCorrect] shows the queue is empty after them; Raft's replay takes the
    length of the device plus one, since a record has at least its header; the
    linearizability search takes the number of operations left, and its binary
    search the size of the visited set plus one.  Exactness theorems are equalities,
    so a loop that stopped early would contradict them.  The loops of the scheduler
    and the rejection loop of a bounded draw need not end for every program or state
    the types allow: they return an option, theorems about their results hold for
    every fuel that gives one, and [run_until_backstop] and [uniform_unbiased] say
    when one does.

    ** What the theorems show

    - Formats.  CRC-32 is the bit-serial CRC and detects every burst of four
      bytes.  The log, manifest, keyed-operation, pointer and table decoders
      accept exactly what their encoders write; truncated or damaged input
      yields the intact prefix or a rejection.
    - Device.  A crash leaves a prefix of what was written, unless a sync that
      lied is followed by another sync.
    - Engine.  The memtable, the Bloom filter, the sparse index and the merge
      lose no version a reader can see; flushes, compactions and failed installs
      are invisible; the engine answers as the oracle after any run, under any
      faults; both scans agree; branches are isolated; an export is the whole
      log or a refusal.
    - Durability.  What was synced is recovered, and what is recovered is a
      prefix of what was committed.
    - Clients.  Backup and archive restore what was saved and refuse damaged
      images whole; equal replicas never raise an alarm.
    - Transactions.  The executor over the real engine returns the oracle's
      result; every read is at the prefix its level promises; every transaction
      is decided exactly once; the two executors agree on every batch.
    - Global order.  The merge is the one sorted list of the sealed entries and
      only grows; a cross-shard transaction is placed once, exactly when all its
      shards committed it.
    - Consensus.  One leader per term, log matching, agreement on committed
      prefixes and leader completeness, for the code's own handlers, codecs,
      snapshots and recovery; a recovered node holds everything it synced.  Both
      implementations refine one protocol, so each of these holds for both.
    - SQL storage.  Key order is value order, so ranges of keys are ranges of
      values; every scan range holds exactly the keys of its table, column, index
      or kind; index lookups are exact; rows, projections and column chunks read
      back what was stored; 256-bit arithmetic is exact and flags every overflow;
      table ids are not reused within a session.  Civil dates and day numbers are in
      bijection over the whole proleptic calendar; a literal that is rendered reads back,
      and a decimal is parsed exactly or refused.
    - Server.  The receive loop refines a log of submissions and a table of answers: each
      key takes effect once, a query reads exactly the prefix its level promises, refused
      and damaged frames have no effect, no acknowledgement outruns its sync and none is
      lost, and a transfer conserves the total.  Frames decode to what was encoded.  Equal
      JSON documents, and only these, have equal canonical bytes.
    - Front ends.  The replicas' machines are prefixes of one another and a pump applies
      exactly the committed log; the reply to a replicated write is the result of the
      committed command at its index, sent once it is applied; no bytes make the listener
      submit or run what the user's level does not allow.  A PostgreSQL session does not depend on how the
      stream is cut, and nothing runs before the password is accepted.  A policy file
      means what it says and the gate fails closed; an administration client reads back
      what the node did.
    - Runtime.  A window of virtual time fires every timer due in it, in order, and
      no other; consecutive windows compose; a ready coroutine is resumed after
      exactly those before it; the step limit ends every run.  The network delivers
      every copy it accepted or drops it at a partition, invents and reorders none,
      and a partition cuts exactly the links across it.  The random source has full
      period and its bounded draws end and are unbiased.
    - Checkers.  The linearizability checker accepts exactly the histories that have
      a legal order, whatever the number of keys, or says it is undecided; what it
      accepts passes the provenance checkers; the session checker implies
      read-your-writes; the recorder yields the completed operations in order.  The
      executor passes every checker on every generated workload, and a cluster of
      [RaftCluster] passes the conformance checkers however it is sampled.

    The engine theorems are for inline values and the default read watermark,
    and the recovery theorem is for recovery from the log; [WalHazards] holds
    executions that leave these bounds and lose data, and says why.  The cluster
    theorems are for a fixed membership, devices without faults, power losses of
    nodes whose records are synced, and snapshots that do not shorten the log of
    the node that adopts them; [RaftHazards] and [RaftHazardsB] hold runs that break agreement when
    one of the last two bounds is dropped.

    ** What is not modelled, and the plan

    Interleavings of several engine tasks at their awaits, and the frame and
    shared-state pools below the scheduler; the cluster theorems use a network that
    loses, repeats and reorders every message, which covers [SimBus], instead of
    running the nodes on it; a change of membership during a run of a cluster (its
    operations are modelled); the SQL engine and its
    parser (the server's SQL engine is a parameter);
    SCRAM authentication, the client stub, the MCP server, the query drivers, the
    production disk, network and reactor and the command line tools (operating-system I/O); of the test
    machinery, the text of verdicts, the broken executors, the seed burner and the
    coroutines of the cluster driver. *)

From Stdlib Require Import ZArith Lia Sorting.Sorted.
From Stdlib Require Export ZifyBool ZifyNat.
From Stdlib Require Strings.Byte.
From stdpp Require Import base list numbers.

#[global] Open Scope Z_scope.

(** ** Bytes

    [std::byte] and [char] are both modelled by [byte]; [Zb] is the unsigned
    value ([std::to_integer<std::uint8_t>], [static_cast<unsigned char>]) and
    [bZ] the narrowing cast ([static_cast<std::byte>]), which keeps the low
    eight bits. *)

Abbreviation byte := Byte.byte.

Definition Zb (b : byte) : Z := Z.of_N (Byte.to_N b).

Definition bZ (z : Z) : byte :=
  match Byte.of_N (Z.to_N (z mod 256)) with
  | Some b => b
  | None => Byte.x00
  end.

(** Machine widths: the value a [std::uint32_t] or [std::uint64_t] holds after
    an assignment from an integer. *)

Definition u32 (z : Z) : Z := z mod 2 ^ 32.
Definition u64 (z : Z) : Z := z mod 2 ^ 64.

(** [Zlen l] is [l.size()] as an integer. *)
Definition Zlen {A} (l : list A) : Z := Z.of_nat (length l).

Lemma Zb_range b : 0 <= Zb b < 256.
Proof.
  unfold Zb. pose proof (Byte.to_N_bounded b). lia.
Qed.

Lemma Zb_bZ z : Zb (bZ z) = z mod 256.
Proof.
  unfold Zb, bZ.
  assert (Hr : 0 <= z mod 256 < 256) by (apply Z.mod_pos_bound; lia).
  destruct (Byte.of_N (Z.to_N (z mod 256))) as [b|] eqn:E.
  - apply Byte.to_of_N in E. rewrite E. lia.
  - apply Byte.of_N_None_iff in E. lia.
Qed.

Lemma bZ_Zb b : bZ (Zb b) = b.
Proof.
  unfold bZ. rewrite Z.mod_small by apply Zb_range.
  unfold Zb. rewrite N2Z.id, Byte.of_to_N. reflexivity.
Qed.

Lemma Zb_inj a b : Zb a = Zb b -> a = b.
Proof. intros H. rewrite <- (bZ_Zb a), <- (bZ_Zb b), H. reflexivity. Qed.

Lemma u32_range z : 0 <= u32 z < 2 ^ 32.
Proof. apply Z.mod_pos_bound. lia. Qed.

Lemma u64_range z : 0 <= u64 z < 2 ^ 64.
Proof. apply Z.mod_pos_bound. lia. Qed.

Lemma u32_id z : 0 <= z < 2 ^ 32 -> u32 z = z.
Proof. apply Z.mod_small. Qed.

Lemma u64_id z : 0 <= z < 2 ^ 64 -> u64 z = z.
Proof. apply Z.mod_small. Qed.

Lemma Zlen_nonneg {A} (l : list A) : 0 <= Zlen l.
Proof. unfold Zlen. lia. Qed.

Lemma Zlen_app {A} (l k : list A) : Zlen (l ++ k) = Zlen l + Zlen k.
Proof. unfold Zlen. rewrite length_app. lia. Qed.

#[global] Instance byte_eq_dec : EqDecision byte := Byte.byte_eq_dec.

Lemma take_add_split {A} (n m : nat) (l : list A) :
  take (n + m) l = take n l ++ take m (drop n l).
Proof.
  revert l; induction n as [|n IH]; intros [|x l]; cbn; [done..|by rewrite take_nil|].
  by rewrite IH.
Qed.

(** ** Keys

    [std::string] as an opaque byte string.  [operator<] compares the bytes as
    unsigned characters, then the lengths. *)

Fixpoint key_ltb (a b : list byte) : bool :=
  match a, b with
  | _, [] => false
  | [], _ :: _ => true
  | x :: a', y :: b' =>
      if Zb x <? Zb y then true
      else if Zb y <? Zb x then false
      else key_ltb a' b'
  end.

Fixpoint key_eqb (a b : list byte) : bool :=
  match a, b with
  | [], [] => true
  | x :: a', y :: b' => Byte.eqb x y && key_eqb a' b'
  | _, _ => false
  end.

Definition key_leb (a b : list byte) : bool := negb (key_ltb b a).

Lemma key_eqb_eq a b : key_eqb a b = true <-> a = b.
Proof.
  revert b; induction a as [|x a IH]; intros [|y b]; cbn; try easy.
  rewrite andb_true_iff, IH.
  split.
  - intros [H ->]. apply Byte.byte_dec_bl in H. by subst.
  - intros [= -> ->]. split; [|done]. by apply Byte.byte_dec_lb.
Qed.

Lemma key_eqb_refl a : key_eqb a a = true.
Proof. by apply key_eqb_eq. Qed.

Lemma key_eqb_neq a b : key_eqb a b = false <-> a <> b.
Proof. rewrite <- key_eqb_eq. destruct (key_eqb a b); naive_solver. Qed.

Lemma key_eqb_spec a b : reflect (a = b) (key_eqb a b).
Proof.
  destruct (key_eqb a b) eqn:E; constructor;
    [by apply key_eqb_eq | by apply key_eqb_neq].
Qed.

Lemma key_eqb_sym a b : key_eqb a b = key_eqb b a.
Proof. destruct (key_eqb_spec a b), (key_eqb_spec b a); congruence. Qed.

Lemma key_ltb_irrefl a : key_ltb a a = false.
Proof. induction a; cbn; [done|]. by rewrite Z.ltb_irrefl. Qed.

Lemma key_ltb_trans a b c :
  key_ltb a b = true -> key_ltb b c = true -> key_ltb a c = true.
Proof.
  revert b c; induction a as [|x a IH]; intros [|y b] [|z c]; cbn; try easy.
  destruct (Zb x <? Zb y) eqn:Exy, (Zb y <? Zb z) eqn:Eyz,
    (Zb y <? Zb x) eqn:Eyx, (Zb z <? Zb y) eqn:Ezy,
    (Zb x <? Zb z) eqn:Exz, (Zb z <? Zb x) eqn:Ezx; try easy; try lia.
  apply IH.
Qed.

Lemma key_ltb_total a b : key_ltb a b = false -> key_ltb b a = false -> a = b.
Proof.
  revert b; induction a as [|x a IH]; intros [|y b]; cbn; try easy.
  destruct (Zb x <? Zb y) eqn:Exy, (Zb y <? Zb x) eqn:Eyx; try easy.
  intros H1 H2. f_equal; [apply Zb_inj; lia | by apply IH].
Qed.

Lemma key_ltb_asym a b : key_ltb a b = true -> key_ltb b a = false.
Proof.
  intros H. destruct (key_ltb b a) eqn:E; [|done].
  pose proof (key_ltb_trans _ _ _ H E) as F. by rewrite key_ltb_irrefl in F.
Qed.

Lemma key_ltb_neq a b : key_ltb a b = true -> a <> b.
Proof. intros H ->. by rewrite key_ltb_irrefl in H. Qed.

(** The three-way case analysis every ordered structure uses. *)
Lemma key_trichotomy a b : key_ltb a b = true \/ a = b \/ key_ltb b a = true.
Proof.
  destruct (key_ltb a b) eqn:E1; [by left|].
  destruct (key_ltb b a) eqn:E2; [by right; right|].
  right; left. by apply key_ltb_total.
Qed.

Lemma key_leb_le a b : key_leb a b = true <-> key_ltb a b = true \/ a = b.
Proof.
  unfold key_leb. split.
  - destruct (key_trichotomy a b) as [H|[H|H]]; rewrite ?H; naive_solver.
  - intros [H| ->]; [by rewrite (key_ltb_asym _ _ H)|by rewrite key_ltb_irrefl].
Qed.

Lemma key_leb_refl a : key_leb a a = true.
Proof. apply key_leb_le. by right. Qed.

Lemma key_leb_false a b : key_leb a b = false <-> key_ltb b a = true.
Proof. unfold key_leb. destruct (key_ltb b a); naive_solver. Qed.

Lemma key_leb_trans a b c :
  key_leb a b = true -> key_leb b c = true -> key_leb a c = true.
Proof.
  rewrite !key_leb_le. intros [H1| ->] [H2| ->]; eauto using key_ltb_trans.
Qed.

Lemma key_lt_le_trans a b c :
  key_ltb a b = true -> key_leb b c = true -> key_ltb a c = true.
Proof. rewrite key_leb_le. intros ? [?| ->]; eauto using key_ltb_trans. Qed.

Lemma key_le_lt_trans a b c :
  key_leb a b = true -> key_ltb b c = true -> key_ltb a c = true.
Proof. rewrite key_leb_le. intros [?| ->] ?; eauto using key_ltb_trans. Qed.

Lemma key_ltb_nil_r a : key_ltb a [] = false.
Proof. by destruct a. Qed.

Definition key_lt (a b : list byte) : Prop := key_ltb a b = true.

#[global] Instance key_lt_trans : Transitive key_lt.
Proof. intros a b c. apply key_ltb_trans. Qed.

#[global] Instance key_lt_strict : StrictOrder key_lt.
Proof.
  split; [|apply _]. intros a H. unfold key_lt in H.
  by rewrite key_ltb_irrefl in H.
Qed.

Create HintDb lockstep.
Create Rewrite HintDb lockstep.
#[export] Hint Resolve key_eqb_refl key_ltb_irrefl key_leb_refl
  Zb_range u32_range u64_range Zlen_nonneg : lockstep.
#[export] Hint Resolve key_ltb_trans key_leb_trans key_lt_le_trans
  key_le_lt_trans : lockstep.
#[export] Hint Rewrite @Zlen_app @length_app Zb_bZ bZ_Zb key_eqb_refl
  key_ltb_irrefl key_leb_refl : lockstep.
