(* ===== verification/Codec.v ===== *)
(** Codec: the serialisation primitives every on-disk format shares
    (storage/Codec.hpp) and the stream headers (storage/Format.hpp).

    [Crc32] is the table-driven CRC of [Crc32::compute]; [put_u32], [put_u64],
    [get_u32], [get_u64] are the little-endian helpers.  An append such as
    [put_u32(out, v)] is modelled by the bytes it pushes, so the caller writes
    [out ++ put_u32 v]; a pointer [p] into a buffer is the suffix of the buffer
    that starts there.  Reads past the end of a buffer never happen in the
    code (each is guarded by a length test), so the total functions here give
    zero bytes there. *)

From Stdlib Require Import ZArith Lia.
From stdpp Require Import base list numbers.
From S2P Require Import Prelude.

(** [p[i]] *)
Definition byte_at (p : list byte) (i : nat) : Z := Zb (nth i p Byte.x00).

Definition put_u32 (v : Z) : list byte :=
  [ bZ (Z.land v 0xFF);
    bZ (Z.land (Z.shiftr v 8) 0xFF);
    bZ (Z.land (Z.shiftr v 16) 0xFF);
    bZ (Z.land (Z.shiftr v 24) 0xFF) ].

Definition put_u64 (v : Z) : list byte :=
  map (fun i => bZ (Z.land (Z.shiftr v (8 * Z.of_nat i)) 0xFF)) (seq 0 8).

Definition get_u32 (p : list byte) : Z :=
  Z.lor (Z.lor (Z.lor (byte_at p 0) (Z.shiftl (byte_at p 1) 8))
               (Z.shiftl (byte_at p 2) 16))
        (Z.shiftl (byte_at p 3) 24).

Definition get_u64 (p : list byte) : Z :=
  fold_left (fun v i => Z.lor v (Z.shiftl (byte_at p i) (8 * Z.of_nat i)))
            (seq 0 8) 0.

(** ** Little-endian integers

    [le_bytes] and [le_val] are the width-generic reference of the four
    helpers; the lemmas about the helpers are corollaries. *)

Fixpoint le_bytes (n : nat) (v : Z) : list byte :=
  match n with
  | O => []
  | S n' => bZ v :: le_bytes n' (v / 256)
  end.

Fixpoint le_val (l : list byte) : Z :=
  match l with
  | [] => 0
  | b :: l' => Zb b + 256 * le_val l'
  end.

Lemma length_le_bytes n v : length (le_bytes n v) = n.
Proof. revert v; induction n; intros; cbn; auto. Qed.

Lemma le_val_bytes n v : le_val (le_bytes n v) = v mod 256 ^ Z.of_nat n.
Proof.
  revert v; induction n as [|n IH]; intros v; cbn [le_bytes le_val].
  - by rewrite Z.mod_1_r.
  - rewrite IH, Zb_bZ, Nat2Z.inj_succ, Z.pow_succ_r by lia.
    rewrite Z.rem_mul_r; lia.
Qed.

Lemma le_val_range l : 0 <= le_val l < 256 ^ Z.of_nat (length l).
Proof.
  induction l as [|b l IH]; cbn [le_val length].
  - change (256 ^ Z.of_nat 0) with 1. lia.
  - rewrite Nat2Z.inj_succ, Z.pow_succ_r by lia. pose proof (Zb_range b). lia.
Qed.

Lemma le_bytes_val l : le_bytes (length l) (le_val l) = l.
Proof.
  induction l as [|b l IH]; cbn [le_val length le_bytes]; [done|].
  pose proof (Zb_range b).
  replace ((Zb b + 256 * le_val l) / 256) with (le_val l).
  - rewrite IH. f_equal. apply Zb_inj. rewrite Zb_bZ.
    rewrite Z.mul_comm, Z.mod_add, Z.mod_small; lia.
  - rewrite Z.mul_comm, Z.div_add, Z.div_small; lia.
Qed.

Lemma lor_shiftl_add a b n :
  0 <= n -> 0 <= a < 2 ^ n -> Z.lor a (Z.shiftl b n) = a + b * 2 ^ n.
Proof.
  intros Hn Ha. rewrite <- Z.shiftl_mul_pow2 by done.
  assert (Hz : Z.land a (Z.shiftl b n) = 0).
  { apply Z.bits_inj'. intros i Hi. rewrite Z.land_spec, Z.bits_0.
    destruct (Z.lt_ge_cases i n) as [Hlt|Hge].
    - rewrite Z.shiftl_spec_low by done. apply andb_false_r.
    - rewrite <- (Z.mod_small a (2 ^ n)) by done.
      rewrite Z.mod_pow2_bits_high by lia. done. }
  rewrite <- Z.lxor_lor by done. by rewrite Z.add_nocarry_lxor.
Qed.

Lemma byte_at_app_l p r i : (i < length p)%nat -> byte_at (p ++ r) i = byte_at p i.
Proof. intros H. unfold byte_at. by rewrite app_nth1. Qed.

Lemma byte_at_range p i : 0 <= byte_at p i < 256.
Proof. apply Zb_range. Qed.

Lemma byte_at_drop p n i : byte_at (drop n p) i = byte_at p (n + i).
Proof.
  unfold byte_at. f_equal. revert p; induction n as [|n IH]; intros p; [done|].
  destruct p; cbn; [by destruct i|apply IH].
Qed.

Lemma land_ff v : Z.land v 0xFF = v mod 256.
Proof. change 0xFF with (Z.ones 8). by rewrite Z.land_ones by lia. Qed.

Lemma bZ_land v : bZ (Z.land v 0xFF) = bZ v.
Proof. apply Zb_inj. rewrite land_ff, !Zb_bZ, Z.mod_mod; lia. Qed.

Lemma bZ_land_shift v k :
  0 <= k -> bZ (Z.land (Z.shiftr v k) 0xFF) = bZ (v / 2 ^ k).
Proof. intros Hk. by rewrite bZ_land, Z.shiftr_div_pow2. Qed.

Lemma put_u32_le v : put_u32 v = le_bytes 4 v.
Proof.
  unfold put_u32. cbn [le_bytes]. rewrite bZ_land, !bZ_land_shift by lia.
  rewrite !Z.div_div by lia. reflexivity.
Qed.

Lemma put_u64_le v : put_u64 v = le_bytes 8 v.
Proof.
  unfold put_u64. cbn [le_bytes seq map]. rewrite !bZ_land_shift by lia.
  rewrite !Z.div_div by lia. cbn. rewrite Z.div_1_r. reflexivity.
Qed.

Ltac byte_ranges p :=
  pose proof (byte_at_range p 0); pose proof (byte_at_range p 1);
  pose proof (byte_at_range p 2); pose proof (byte_at_range p 3);
  pose proof (byte_at_range p 4); pose proof (byte_at_range p 5);
  pose proof (byte_at_range p 6); pose proof (byte_at_range p 7).

Lemma get_u32_sum p :
  get_u32 p = byte_at p 0 + byte_at p 1 * 2 ^ 8 + byte_at p 2 * 2 ^ 16
              + byte_at p 3 * 2 ^ 24.
Proof.
  unfold get_u32. byte_ranges p.
  rewrite (lor_shiftl_add (byte_at p 0)) by lia.
  rewrite !(lor_shiftl_add (_ + _)) by lia. lia.
Qed.

Lemma get_u64_sum p :
  get_u64 p = byte_at p 0 + byte_at p 1 * 2 ^ 8 + byte_at p 2 * 2 ^ 16
              + byte_at p 3 * 2 ^ 24 + byte_at p 4 * 2 ^ 32 + byte_at p 5 * 2 ^ 40
              + byte_at p 6 * 2 ^ 48 + byte_at p 7 * 2 ^ 56.
Proof.
  unfold get_u64. cbn [seq fold_left]. byte_ranges p.
  rewrite Z.lor_0_l. change (8 * Z.of_nat 0) with 0. rewrite Z.shiftl_0_r.
  change (8 * Z.of_nat 1) with 8. change (8 * Z.of_nat 2) with 16.
  change (8 * Z.of_nat 3) with 24. change (8 * Z.of_nat 4) with 32.
  change (8 * Z.of_nat 5) with 40. change (8 * Z.of_nat 6) with 48.
  change (8 * Z.of_nat 7) with 56.
  rewrite (lor_shiftl_add (byte_at p 0)) by lia.
  rewrite !(lor_shiftl_add (_ + _)) by lia. lia.
Qed.

Lemma get_u32_range p : 0 <= get_u32 p < 2 ^ 32.
Proof. rewrite get_u32_sum. byte_ranges p. lia. Qed.

Lemma get_u64_range p : 0 <= get_u64 p < 2 ^ 64.
Proof. rewrite get_u64_sum. byte_ranges p. lia. Qed.

Lemma get_u32_le l r : length l = 4%nat -> get_u32 (l ++ r) = le_val l.
Proof.
  intros H. do 4 (destruct l as [|? l]; [done|]). destruct l; [|done].
  rewrite get_u32_sum. unfold byte_at. cbn [nth app le_val]. lia.
Qed.

Lemma get_u64_le l r : length l = 8%nat -> get_u64 (l ++ r) = le_val l.
Proof.
  intros H. do 8 (destruct l as [|? l]; [done|]). destruct l; [|done].
  rewrite get_u64_sum. unfold byte_at. cbn [nth app le_val]. lia.
Qed.

Lemma length_put_u32 v : length (put_u32 v) = 4%nat.
Proof. done. Qed.

Lemma length_put_u64 v : length (put_u64 v) = 8%nat.
Proof. done. Qed.

Lemma get_put_u32 v r : get_u32 (put_u32 v ++ r) = u32 v.
Proof. rewrite get_u32_le by done. by rewrite put_u32_le, le_val_bytes. Qed.

Lemma get_put_u64 v r : get_u64 (put_u64 v ++ r) = u64 v.
Proof. rewrite get_u64_le by done. by rewrite put_u64_le, le_val_bytes. Qed.

Lemma put_get_u32 p : (4 <= length p)%nat -> put_u32 (get_u32 p) = take 4 p.
Proof.
  intros H. rewrite <- (take_drop 4 p) at 1.
  rewrite get_u32_le by (rewrite length_take; lia).
  rewrite put_u32_le.
  replace 4%nat with (length (take 4 p)) at 1 by (rewrite length_take; lia).
  apply le_bytes_val.
Qed.

Lemma put_get_u64 p : (8 <= length p)%nat -> put_u64 (get_u64 p) = take 8 p.
Proof.
  intros H. rewrite <- (take_drop 8 p) at 1.
  rewrite get_u64_le by (rewrite length_take; lia).
  rewrite put_u64_le.
  replace 8%nat with (length (take 8 p)) at 1 by (rewrite length_take; lia).
  apply le_bytes_val.
Qed.

Lemma get_u32_app p r : (4 <= length p)%nat -> get_u32 (p ++ r) = get_u32 p.
Proof. intros. rewrite !get_u32_sum, !byte_at_app_l by lia. done. Qed.

Lemma get_u64_app p r : (8 <= length p)%nat -> get_u64 (p ++ r) = get_u64 p.
Proof. intros. rewrite !get_u64_sum, !byte_at_app_l by lia. done. Qed.

Lemma put_u32_u32 v : put_u32 (u32 v) = put_u32 v.
Proof.
  rewrite !put_u32_le, <- (le_bytes_val (le_bytes 4 v)), length_le_bytes.
  by rewrite le_val_bytes.
Qed.

Lemma get_put_u32_nil v : get_u32 (put_u32 v) = u32 v.
Proof. rewrite <- (app_nil_r (put_u32 v)). apply get_put_u32. Qed.

Lemma get_put_u64_nil v : get_u64 (put_u64 v) = u64 v.
Proof. rewrite <- (app_nil_r (put_u64 v)). apply get_put_u64. Qed.

#[export] Hint Rewrite length_put_u32 length_put_u64 get_put_u32 get_put_u64
  get_put_u32_nil get_put_u64_nil : lockstep.

Lemma drop_put_u32 n m v r : n = (4 + m)%nat -> drop n (put_u32 v ++ r) = drop m r.
Proof. by intros ->. Qed.

Lemma drop_put_u64 n m v r : n = (8 + m)%nat -> drop n (put_u64 v ++ r) = drop m r.
Proof. by intros ->. Qed.

Lemma drop_one {A} n m (x : A) r : n = (1 + m)%nat -> drop n ([x] ++ r) = drop m r.
Proof. by intros ->. Qed.

(** [skip_fields] moves a constant-offset pointer over the fixed-width fields
    at the front of an encoded buffer. *)
Ltac skip_field :=
  match goal with
  | |- context [drop ?n (put_u32 ?v ++ ?r)] =>
      let b := eval compute in (4 <=? n)%nat in
      lazymatch b with
      | true => let m := eval compute in (n - 4)%nat in
                rewrite (drop_put_u32 n m v r eq_refl)
      end
  | |- context [drop ?n (put_u64 ?v ++ ?r)] =>
      let b := eval compute in (8 <=? n)%nat in
      lazymatch b with
      | true => let m := eval compute in (n - 8)%nat in
                rewrite (drop_put_u64 n m v r eq_refl)
      end
  | |- context [drop ?n ([?x] ++ ?r)] =>
      let b := eval compute in (1 <=? n)%nat in
      lazymatch b with
      | true => let m := eval compute in (n - 1)%nat in
                rewrite (drop_one n m x r eq_refl)
      end
  end.

Ltac skip_fields :=
  repeat skip_field; rewrite ?drop_0, ?get_put_u32, ?get_put_u64,
    ?get_put_u32_nil, ?get_put_u64_nil.
#[export] Hint Resolve get_u32_range get_u64_range byte_at_range : lockstep.

(** ** CRC32 *)
Module Crc32.

(** One of the eight inner iterations that build a table entry. *)
Definition table_step (c : Z) : Z :=
  if Z.testbit c 0 then Z.lxor 0xEDB88320 (Z.shiftr c 1) else Z.shiftr c 1.

Definition table_entry (i : Z) : Z := Nat.iter 8 table_step i.

Definition table : list Z := map (fun i => table_entry (Z.of_nat i)) (seq 0 256).

(** The body of the loop of [compute]: index the table with the low byte of
    the register xor the input byte. *)
Definition update (crc : Z) (b : byte) : Z :=
  let idx := Z.lxor (Z.land crc 0xFF) (Zb b) in
  Z.lxor (Z.shiftr crc 8) (nth (Z.to_nat idx) table 0).

Definition compute (data : list byte) : Z :=
  Z.lxor (fold_left update data 0xFFFFFFFF) 0xFFFFFFFF.

(** The bit-serial definition of the same reflected CRC, the reference the
    table-driven routine optimises. *)
Definition bit_step (crc : Z) (b : byte) : Z := Nat.iter 8 table_step (Z.lxor crc (Zb b)).

Definition compute_bitwise (data : list byte) : Z :=
  Z.lxor (fold_left bit_step data 0xFFFFFFFF) 0xFFFFFFFF.

Example check_value :
  compute (map bZ [0x31;0x32;0x33;0x34;0x35;0x36;0x37;0x38;0x39]) = 0xCBF43926.
Proof. vm_compute. reflexivity. Qed.

(** *** The table routine computes the bit-serial CRC *)

Lemma table_step_lxor x y : table_step (Z.lxor x y) = Z.lxor (table_step x) (table_step y).
Proof.
  unfold table_step. rewrite Z.lxor_spec, Z.shiftr_lxor.
  destruct (Z.testbit x 0), (Z.testbit y 0); cbn [xorb];
    apply Z.bits_inj'; intros i Hi; rewrite !Z.lxor_spec;
    destruct (Z.testbit 0xEDB88320 i), (Z.testbit (Z.shiftr x 1) i),
      (Z.testbit (Z.shiftr y 1) i); reflexivity.
Qed.

Lemma iter_lxor n x y :
  Nat.iter n table_step (Z.lxor x y) =
  Z.lxor (Nat.iter n table_step x) (Nat.iter n table_step y).
Proof.
  induction n as [|n IH]; [done|]. rewrite !Nat.iter_succ. by rewrite IH, table_step_lxor.
Qed.

Lemma table_step_shiftl h k :
  0 <= k -> table_step (Z.shiftl h (Z.succ k)) = Z.shiftl h k.
Proof.
  intros Hk. unfold table_step. rewrite Z.shiftl_spec_low by lia.
  apply Z.bits_inj'. intros i Hi. rewrite Z.shiftr_spec, !Z.shiftl_spec by lia.
  f_equal. lia.
Qed.

Lemma iter_shiftl n h : Nat.iter n table_step (Z.shiftl h (Z.of_nat n)) = h.
Proof.
  induction n as [|n IH].
  - cbn. apply Z.shiftl_0_r.
  - rewrite Nat.iter_succ_r, Nat2Z.inj_succ, table_step_shiftl by lia. exact IH.
Qed.

Lemma lxor_shiftl_add a b n :
  0 <= n -> 0 <= a < 2 ^ n -> Z.lxor a (Z.shiftl b n) = a + b * 2 ^ n.
Proof.
  intros Hn Ha. rewrite <- Z.shiftl_mul_pow2 by done.
  rewrite Z.add_nocarry_lxor; [done|].
  apply Z.bits_inj'. intros i Hi. rewrite Z.land_spec, Z.bits_0.
  destruct (Z.lt_ge_cases i n) as [Hlt|Hge].
  - rewrite Z.shiftl_spec_low by done. apply andb_false_r.
  - rewrite <- (Z.mod_small a (2 ^ n)) by done.
    rewrite Z.mod_pow2_bits_high by lia. done.
Qed.

Lemma land_ff_range v : 0 <= Z.land v 0xFF < 256.
Proof. rewrite land_ff. apply Z.mod_pos_bound. lia. Qed.

Lemma split_low v : v = Z.lxor (Z.land v 0xFF) (Z.shiftl (Z.shiftr v 8) 8).
Proof.
  rewrite lxor_shiftl_add; [|lia|apply land_ff_range].
  rewrite land_ff, Z.shiftr_div_pow2 by lia. change (2 ^ 8) with 256.
  rewrite (Z.div_mod v 256) at 1 by lia. lia.
Qed.

Lemma lxor_bound a b k :
  0 <= k -> 0 <= a < 2 ^ k -> 0 <= b < 2 ^ k -> 0 <= Z.lxor a b < 2 ^ k.
Proof.
  intros Hk [Ha1 Ha2] [Hb1 Hb2].
  assert (0 <= Z.lxor a b) by (by apply Z.lxor_nonneg).
  split; [done|]. apply Z.bounded_iff_bits_nonneg; [done..|].
  intros l Hl. rewrite Z.lxor_spec.
  apply Z.bounded_iff_bits_nonneg with (l := l) in Ha2; [|done..].
  apply Z.bounded_iff_bits_nonneg with (l := l) in Hb2; [|done..].
  by rewrite Ha2, Hb2.
Qed.

Lemma nth_table idx : 0 <= idx < 256 -> nth (Z.to_nat idx) table 0 = table_entry idx.
Proof.
  intros H. unfold table.
  rewrite nth_indep with (d' := table_entry (Z.of_nat 0))
    by (rewrite length_map, length_seq; lia).
  rewrite (map_nth (fun i => table_entry (Z.of_nat i))), seq_nth by lia.
  f_equal. lia.
Qed.

Lemma update_bit_step crc b : update crc b = bit_step crc b.
Proof.
  unfold update, bit_step.
  assert (Hr : 0 <= Z.lxor (Z.land crc 0xFF) (Zb b) < 2 ^ 8)
    by (apply lxor_bound; [lia|apply land_ff_range|apply Zb_range]).
  rewrite nth_table by exact Hr.
  rewrite (split_low crc) at 3. rewrite Z.lxor_assoc, (Z.lxor_comm (Z.shiftl _ _)).
  rewrite <- Z.lxor_assoc, iter_lxor.
  pose proof (iter_shiftl 8 (Z.shiftr crc 8)) as H8.
  change (Z.of_nat 8) with 8 in H8. rewrite H8. apply Z.lxor_comm.
Qed.

Lemma fold_update data crc : fold_left update data crc = fold_left bit_step data crc.
Proof.
  revert crc; induction data as [|b data IH]; intros crc; cbn; [done|].
  by rewrite update_bit_step, IH.
Qed.

(** *** Sensitivity of the checksum *)

Lemma table_step_range x : 0 <= x < 2 ^ 32 -> 0 <= table_step x < 2 ^ 32.
Proof.
  intros H. unfold table_step.
  assert (0 <= Z.shiftr x 1 < 2 ^ 32).
  { rewrite Z.shiftr_div_pow2 by lia. change (2 ^ 1) with 2.
    split; [apply Z.div_pos; lia|apply Z.div_lt_upper_bound; lia]. }
  destruct (Z.testbit x 0); [|done]. apply lxor_bound; lia.
Qed.

(** The top bit of a step tells whether the polynomial was xored in, so the
    step loses nothing. *)
Lemma table_step_inj x y :
  0 <= x < 2 ^ 32 -> 0 <= y < 2 ^ 32 -> table_step x = table_step y -> x = y.
Proof.
  intros Hx Hy E.
  assert (Htop : forall z, 0 <= z < 2 ^ 32 -> Z.testbit (Z.shiftr z 1) 31 = false).
  { intros z [Hz1 Hz2]. rewrite Z.shiftr_spec by lia.
    by apply (Z.bounded_iff_bits_nonneg 32 z); try lia. }
  assert (Hb : Z.testbit x 0 = Z.testbit y 0).
  { apply (f_equal (fun z => Z.testbit z 31)) in E. unfold table_step in E.
    destruct (Z.testbit x 0), (Z.testbit y 0); try done;
      rewrite Z.lxor_spec in E; rewrite !Htop in E by done; discriminate E. }
  assert (Hs : Z.shiftr x 1 = Z.shiftr y 1).
  { unfold table_step in E. rewrite <- Hb in E. destruct (Z.testbit x 0); [|done].
    apply (f_equal (Z.lxor 0xEDB88320)) in E.
    by rewrite <- !Z.lxor_assoc, !Z.lxor_nilpotent, !Z.lxor_0_l in E. }
  apply Z.bits_inj'. intros i Hi. destruct (Z.eq_dec i 0) as [->|Hne]; [done|].
  apply (f_equal (fun z => Z.testbit z (i - 1))) in Hs.
  rewrite !Z.shiftr_spec in Hs by lia. by replace (i - 1 + 1) with i in Hs by lia.
Qed.

Lemma iter_range n x : 0 <= x < 2 ^ 32 -> 0 <= Nat.iter n table_step x < 2 ^ 32.
Proof. intros H. induction n; [done|]. rewrite Nat.iter_succ. auto using table_step_range. Qed.

Lemma iter_inj n x y :
  0 <= x < 2 ^ 32 -> 0 <= y < 2 ^ 32 ->
  Nat.iter n table_step x = Nat.iter n table_step y -> x = y.
Proof.
  intros Hx Hy. induction n as [|n IH]; [done|].
  rewrite !Nat.iter_succ. intros E. apply table_step_inj in E; auto using iter_range.
Qed.

(** A run of bytes enters the register as one little-endian word. *)
Lemma fold_bit_step_word l s :
  fold_left bit_step l s = Nat.iter (8 * length l) table_step (Z.lxor s (le_val l)).
Proof.
  revert s; induction l as [|b l IH]; intros s.
  - cbn. by rewrite Z.lxor_0_r.
  - cbn [fold_left length le_val]. rewrite IH.
    rewrite Nat.mul_succ_r, Nat.add_comm.
    replace (8 + 8 * length l)%nat with (8 * length l + 8)%nat by lia.
    rewrite Nat.iter_add. f_equal.
    unfold bit_step. rewrite (Z.mul_comm 256). change 256 with (2 ^ 8).
    rewrite <- lxor_shiftl_add; [|lia|apply Zb_range].
    rewrite <- Z.lxor_assoc, (iter_lxor 8 (Z.lxor s (Zb b))).
    change (Z.shiftl (le_val l) 8) with (Z.shiftl (le_val l) (Z.of_nat 8)).
    by rewrite iter_shiftl.
Qed.

Lemma bit_step_range s b : 0 <= s < 2 ^ 32 -> 0 <= bit_step s b < 2 ^ 32.
Proof.
  intros H. apply iter_range, lxor_bound; [lia|done|].
  pose proof (Zb_range b). lia.
Qed.

Lemma fold_bit_step_range l s :
  0 <= s < 2 ^ 32 -> 0 <= fold_left bit_step l s < 2 ^ 32.
Proof. revert s; induction l; intros s H; cbn [fold_left]; auto using bit_step_range. Qed.

Lemma lxor_cancel_l s x y : Z.lxor s x = Z.lxor s y -> x = y.
Proof.
  intros E. apply (f_equal (Z.lxor s)) in E.
  by rewrite <- !Z.lxor_assoc, !Z.lxor_nilpotent, !Z.lxor_0_l in E.
Qed.

Lemma bit_step_inj_state s t b :
  0 <= s < 2 ^ 32 -> 0 <= t < 2 ^ 32 -> bit_step s b = bit_step t b -> s = t.
Proof.
  intros Hs Ht E. pose proof (Zb_range b).
  apply iter_inj in E; [|apply lxor_bound; lia..].
  rewrite !(Z.lxor_comm _ (Zb b)) in E. by apply lxor_cancel_l in E.
Qed.

Lemma fold_bit_step_inj_state l s t :
  0 <= s < 2 ^ 32 -> 0 <= t < 2 ^ 32 ->
  fold_left bit_step l s = fold_left bit_step l t -> s = t.
Proof.
  revert s t; induction l as [|b l IH]; intros s t Hs Ht; cbn [fold_left]; [done|].
  intros E. apply IH in E; auto using bit_step_range.
  by apply bit_step_inj_state in E.
Qed.

Lemma fold_bit_step_inj_word w v s :
  length w = length v -> (length w <= 4)%nat -> 0 <= s < 2 ^ 32 ->
  fold_left bit_step w s = fold_left bit_step v s -> w = v.
Proof.
  intros Hl Hw Hs E. rewrite !fold_bit_step_word, Hl in E.
  assert (Hr : forall l, (length l <= 4)%nat -> 0 <= le_val l < 2 ^ 32).
  { intros l Hl4. pose proof (le_val_range l).
    assert (256 ^ Z.of_nat (length l) <= 256 ^ 4) by (apply Z.pow_le_mono_r; lia).
    change (2 ^ 32) with (256 ^ 4). lia. }
  apply iter_inj in E; [|apply lxor_bound; [lia|done|apply Hr; lia]..].
  apply lxor_cancel_l in E.
  rewrite <- (le_bytes_val w), <- (le_bytes_val v). congruence.
Qed.

Lemma compute_range l : 0 <= compute l < 2 ^ 32.
Proof.
  unfold compute. apply lxor_bound; [lia| |lia].
  rewrite fold_update. apply fold_bit_step_range. lia.
Qed.

(** Two buffers that differ only inside one window of at most four bytes have
    different checksums: every burst of up to 32 bits is detected. *)
Lemma compute_window p w v q :
  length w = length v -> (length w <= 4)%nat -> w <> v ->
  compute (p ++ w ++ q) <> compute (p ++ v ++ q).
Proof.
  intros Hl Hw Hne E. apply Hne. unfold compute in E.
  rewrite !fold_update, !fold_left_app, !(Z.lxor_comm _ 0xFFFFFFFF) in E.
  apply lxor_cancel_l in E.
  assert (Hp : 0 <= fold_left bit_step p 0xFFFFFFFF < 2 ^ 32)
    by (apply fold_bit_step_range; lia).
  apply fold_bit_step_inj_state in E; [|by apply fold_bit_step_range..].
  by apply fold_bit_step_inj_word in E.
Qed.

(** A buffer followed by its own checksum leaves a register that does not
    depend on the buffer, so damage to a framed block is detected wherever it
    lies, the stored checksum included. *)
Lemma framed_compute buf :
  compute (buf ++ put_u32 (compute buf)) =
  Z.lxor (Nat.iter 32 table_step 0xFFFFFFFF) 0xFFFFFFFF.
Proof.
  unfold compute at 1. f_equal. rewrite fold_left_app, !fold_update.
  rewrite (fold_bit_step_word (put_u32 _)), length_put_u32.
  change (8 * 4)%nat with 32%nat. f_equal.
  rewrite put_u32_le, le_val_bytes. change (256 ^ Z.of_nat 4) with (2 ^ 32).
  rewrite Z.mod_small by apply compute_range.
  unfold compute. rewrite fold_update, <- Z.lxor_assoc, Z.lxor_nilpotent.
  apply Z.lxor_0_l.
Qed.

Lemma framed_window buf buf' p w v q :
  length w = length v -> (length w <= 4)%nat -> w <> v ->
  buf ++ put_u32 (compute buf) = p ++ w ++ q ->
  buf' ++ put_u32 (compute buf') = p ++ v ++ q -> False.
Proof.
  intros Hl Hw Hne E E'. apply (compute_window p w v q Hl Hw Hne).
  by rewrite <- E, <- E', !framed_compute.
Qed.

(** The table-driven routine computes the bit-serial CRC-32 on every
    buffer. *)
Theorem crc32_table_correct data : compute data = compute_bitwise data.
Proof. unfold compute, compute_bitwise. by rewrite fold_update. Qed.

(** Any corruption confined to four consecutive bytes changes the
    checksum. *)
Theorem crc32_detects_burst p w v q :
  length w = length v -> (length w <= 4)%nat -> w <> v ->
  compute (p ++ w ++ q) <> compute (p ++ v ++ q).
Proof. apply compute_window. Qed.

Lemma crc32_detects_burst_witness :
  compute ([Byte.x00] ++ [Byte.x01; Byte.x02] ++ [Byte.x03]) <> compute ([Byte.x00] ++ [Byte.x01; Byte.x06] ++ [Byte.x03]).
Proof. apply (crc32_detects_burst [Byte.x00] [Byte.x01; Byte.x02] [Byte.x01; Byte.x06] [Byte.x03]); [done|cbn; lia|done]. Defined.

End Crc32.

(** ** Stream headers (Format.hpp) *)
Module Format.

Definition kSstableVersion : Z := 1.
Definition kManifestVersion : Z := 1.
Definition kWalStreamVersion : Z := 1.
Definition kVlogStreamVersion : Z := 1.
Definition kStreamHeaderBytes : nat := 8.

Definition put_stream_header (magic version : Z) : list byte :=
  put_u32 magic ++ put_u32 version.

Definition check_stream_header (image : list byte) (magic expect : Z) : bool :=
  if (length image <? kStreamHeaderBytes)%nat then false
  else if negb (get_u32 image =? magic) then false
  else get_u32 (drop 4 image) =? expect.

End Format.
