(* ===== verification/Core.v ===== *)
(** Core: the error type every interface completes with (core/Error.hpp) and
    the random draws the simulated providers consume (core/IRandom.hpp).

    A provider asks its [IRandom] for coin flips and bounded integers.  The
    model takes the outcomes as an input, a tape with one entry per call, so a
    theorem quantified over tapes covers every seed and every fault
    configuration; the empty tape is the run in which no fault occurs. *)

From Stdlib Require Import ZArith Lia String.
From stdpp Require Import base list numbers.
From S2P Require Import Prelude.
#[local] Open Scope string_scope.
#[local] Open Scope list_scope.
#[local] Open Scope Z_scope.

Inductive ErrorCode :=
  | Ok | Cancelled | Timeout | NotFound | Unavailable | IoFault | Corruption
  | InvalidArgument | Unknown.

#[global] Instance ErrorCode_eq_dec : EqDecision ErrorCode.
Proof. solve_decision. Defined.

Record Error := mkError { code : ErrorCode; detail : string }.

(** A default-constructed [Error]. *)
Definition ok_error : Error := mkError Ok "".

Definition err_ok (e : Error) : bool :=
  match code e with Ok => true | _ => false end.

(** ** Random draws *)

Abbreviation rng := (list Z).

Definition draw (r : rng) : Z * rng :=
  match r with
  | [] => (0, [])
  | z :: r' => (z, r')
  end.

(** [IRandom::chance]: the outcome of the coin flip. *)
Definition chance (r : rng) : bool * rng :=
  let '(z, r') := draw r in (negb (z =? 0), r').

(** [IRandom::uniform_range]: a value of the closed range. *)
Definition uniform_range (lo hi : Z) (r : rng) : Z * rng :=
  let '(z, r') := draw r in
  (if hi <=? lo then lo else lo + z mod (hi - lo + 1), r').

Lemma uniform_range_bounds lo hi r :
  lo <= hi -> lo <= (uniform_range lo hi r).1 <= hi.
Proof.
  intros H. unfold uniform_range. destruct (draw r) as [z r']. cbn.
  destruct (hi <=? lo) eqn:E; [lia|].
  pose proof (Z.mod_pos_bound z (hi - lo + 1)). lia.
Qed.
