(* ===== verification/Disk.v ===== *)
(** Disk: the simulated append-structured device of
    providers/sim/SimDisk.hpp behind the core/IDisk.hpp interface.

    A device keeps three byte images: [durable] survives a crash, [lying] was
    acknowledged by a lying sync and is lost, [staged] was appended and never
    synced.  Operations are modelled as awaited to completion, so an append's
    effect is visible when it returns; the latency draw is kept because it
    advances the random source, the virtual clock and the trace are not
    modelled. *)

From Stdlib Require Import ZArith Lia String.
From stdpp Require Import base list numbers.
From S2P Require Import Prelude Core.
#[local] Open Scope string_scope.
#[local] Open Scope list_scope.
#[local] Open Scope Z_scope.

Record disk := mkDisk {
  durable : list byte;
  lying : list byte;
  staged : list byte;
  rotted_offsets : list nat;
  crashed : bool
}.

Definition empty_disk : disk := mkDisk [] [] [] [] false.

Definition latency_min : Z := 1.
Definition latency_max : Z := 4.

Definition draw_latency (r : rng) : Z * rng := uniform_range latency_min latency_max r.

Definition logical_len (d : disk) : nat :=
  List.length (durable d) + List.length (lying d) + List.length (staged d).

(** The observable image: the bytes [byte_at] enumerates. *)
Definition image_of (d : disk) : list byte := (durable d ++ lying d ++ staged d).

Definition append (data : list byte) (r : rng) (d : disk) : Error * nat * disk * rng :=
  let off := logical_len d in
  let '(io_fault, r) := chance r in
  let '(kept, r) :=
    if negb io_fault && (1 <? List.length data)%nat then
      let '(torn, r) := chance r in
      if torn then
        let '(k, r) := uniform_range 1 (Zlen data - 1) r in (Z.to_nat k, r)
      else (List.length data, r)
    else (List.length data, r) in
  let '(_, r) := draw_latency r in
  if io_fault then (mkError IoFault "sim injected append io-fault", off, d, r)
  else
    (ok_error, off,
     mkDisk (durable d) (lying d) (staged d ++ take kept data) (rotted_offsets d) (crashed d),
     r).

Definition fill_read (at_ want : nat) (d : disk) : Error * list byte :=
  let total := logical_len d in
  if ((total <? at_) || (total <? at_ + want))%nat
  then (mkError NotFound "sim read past end-of-device", [])
  else if existsb (fun r => (at_ <=? r)%nat && (r <? at_ + want)%nat) (rotted_offsets d)
  then (mkError Corruption "sim bit-rot on read", [])
  else (ok_error, take want (drop at_ (image_of d))).

Definition read (at_ want : nat) (r : rng) (d : disk) : Error * list byte * rng :=
  let '(io_fault, r) := chance r in
  let '(_, r) := draw_latency r in
  if io_fault then (mkError IoFault "sim injected read io-fault", [], r)
  else let '(e, bs) := fill_read at_ want d in (e, bs, r).

Definition sync (r : rng) (d : disk) : Error * disk * rng :=
  let '(lies, r) :=
    if negb (List.length (staged d) =? 0)%nat then chance r else (false, r) in
  let '(_, r) := draw_latency r in
  let '(promoted, r) :=
    if lies then
      let '(k, r) := uniform_range 0 (Zlen (staged d) - 1) r in (Z.to_nat k, r)
    else (List.length (staged d), r) in
  (ok_error,
   mkDisk (durable d ++ take promoted (staged d))
          (lying d ++ drop promoted (staged d))
          [] (rotted_offsets d) (crashed d),
   r).

Definition crash (d : disk) : disk :=
  mkDisk (durable d) [] [] (rotted_offsets d) true.

Definition flip (b : byte) : byte := bZ (Z.lxor (Zb b) 0xFF).

Definition maybe_bit_rot (r : rng) (d : disk) : disk * rng :=
  if (List.length (durable d) =? 0)%nat then (d, r)
  else
    let '(rot, r) := chance r in
    if negb rot then (d, r)
    else
      let '(k, r) := uniform_range 0 (Zlen (durable d) - 1) r in
      let idx := Z.to_nat k in
      (mkDisk (alter flip idx (durable d)) (lying d) (staged d)
              (rotted_offsets d ++ [idx]) (crashed d), r).

Definition recover (r : rng) (d : disk) : disk * rng :=
  maybe_bit_rot r (mkDisk (durable d) (lying d) (staged d) (rotted_offsets d) false).

Definition corrupt_region (off len : nat) (d : disk) : disk :=
  mkDisk (imap (fun i b => if ((off <=? i) && (i <? off + len))%nat then flip b else b) (durable d))
         (lying d) (staged d) (rotted_offsets d) (crashed d).

Definition truncate_durable (keep : nat) (d : disk) : disk :=
  mkDisk (take keep (durable d)) (lying d) (staged d) (rotted_offsets d) (crashed d).

(** ** What each operation does to the three images *)

Lemma append_spec data r d e off d' r' :
  append data r d = (e, off, d', r') ->
  off = logical_len d /\ durable d' = durable d /\ lying d' = lying d /\
  rotted_offsets d' = rotted_offsets d /\
  exists k, staged d' = staged d ++ take k data.
Proof.
  unfold append. destruct (chance r) as [io r1].
  destruct (if negb io && _ then _ else _) as [kept r2].
  destruct (draw_latency r2) as [lat r3].
  destruct io; intros [= <- <- <- <-]; (split_and!; [done..|]).
  - exists 0%nat. by rewrite take_0, app_nil_r.
  - by exists kept.
Qed.

(** With no fault drawn the whole buffer is staged. *)
Lemma append_honest data d :
  append data [] d =
  (ok_error, logical_len d,
   mkDisk (durable d) (lying d) (staged d ++ data) (rotted_offsets d) (crashed d), []).
Proof.
  unfold append, chance, draw_latency, uniform_range. cbn [draw negb Z.eqb andb].
  destruct (1 <? List.length data)%nat; cbn [negb Z.eqb]; by rewrite take_ge.
Qed.

Lemma sync_spec r d e d' r' :
  sync r d = (e, d', r') ->
  e = ok_error /\ staged d' = [] /\ rotted_offsets d' = rotted_offsets d /\
  exists p, durable d' = durable d ++ take p (staged d) /\
            lying d' = lying d ++ drop p (staged d).
Proof.
  unfold sync.
  destruct (if negb _ then chance r else _) as [lies r1].
  destruct (draw_latency r1) as [lat r2].
  destruct (if lies then _ else _) as [promoted r3].
  intros [= <- <- <-]. split_and!; [done..|]. by exists promoted.
Qed.

Lemma sync_honest d :
  sync [] d =
  (ok_error, mkDisk (durable d ++ staged d) (lying d) [] (rotted_offsets d) (crashed d), []).
Proof.
  unfold sync. destruct (negb _); cbn;
    rewrite take_ge, drop_ge, app_nil_r by lia; done.
Qed.

Lemma length_image d : List.length (image_of d) = logical_len d.
Proof. unfold image_of, logical_len. rewrite !length_app. lia. Qed.

(** A read without faults returns the bytes it covers. *)
Lemma read_honest d off n :
  rotted_offsets d = [] -> (off + n <= logical_len d)%nat ->
  read off n [] d = (ok_error, take n (drop off (image_of d)), []).
Proof.
  intros Hr Hle. unfold read, fill_read, chance, draw_latency, uniform_range.
  cbn [draw negb Z.eqb]. rewrite Hr. cbn [existsb].
  rewrite !(proj2 (Nat.ltb_ge _ _)) by lia. done.
Qed.

(** Reading the whole durable image back after a crash. *)
Lemma read_whole d n :
  rotted_offsets d = [] -> n = logical_len d ->
  read 0 n [] d = (ok_error, image_of d, []).
Proof.
  intros Hr ->. rewrite read_honest by (done || lia).
  rewrite drop_0, take_ge; [done|]. rewrite length_image. lia.
Qed.

(** ** Crash exposes a prefix of the write stream

    [step] runs the device beside the stream of bytes it accepted since the
    last crash.  A sync step is taken on a device that has not lied since. *)

Inductive step : disk * list byte -> disk * list byte -> Prop :=
  | step_append data r d w e off d' r' :
      append data r d = (e, off, d', r') ->
      step (d, w) (d', w ++ drop (List.length (staged d)) (staged d'))
  | step_sync r d w e d' r' :
      lying d = [] -> sync r d = (e, d', r') -> step (d, w) (d', w)
  | step_crash d w : step (d, w) (crash d, durable d).

Inductive reachable : disk * list byte -> Prop :=
  | reach_init : reachable (empty_disk, [])
  | reach_step s s' : reachable s -> step s s' -> reachable s'.

Lemma reachable_image s : reachable s -> image_of s.1 = s.2.
Proof.
  induction 1 as [|s s' _ IH Hst]; [done|].
  destruct Hst as [data r d w e off d' r' Ha|r d w e d' r' Hl Hs|d w];
    cbn [fst snd] in *; subst.
  - apply append_spec in Ha as (_ & Hd & Hl & _ & k & Hs).
    unfold image_of. rewrite Hd, Hl, Hs, drop_app_length. by rewrite <- !app_assoc.
  - apply sync_spec in Hs as (_ & Hst & _ & p & Hd & Hly).
    unfold image_of. rewrite Hst, Hd, Hly, Hl, app_nil_r, <- app_assoc. cbn.
    by rewrite take_drop.
  - unfold image_of. cbn. by rewrite app_nil_r.
Qed.

(** On a device that is not synced again after a lying sync, a crash
    leaves exactly a prefix of the bytes it accepted, in write order, whatever
    torn writes, io faults and lies were drawn. *)
Theorem crash_exposes_prefix d w :
  reachable (d, w) -> image_of (crash d) `prefix_of` w.
Proof.
  intros H. apply reachable_image in H. cbn in H. subst w.
  unfold image_of. cbn. rewrite app_nil_r. by apply prefix_app_r.
Qed.

(** Two bytes appended, a sync that promotes one of them, a third byte. *)
Lemma crash_exposes_prefix_witness :
  image_of (crash (mkDisk [Byte.x00] [Byte.x01] [Byte.x02] [] false))
    `prefix_of` [Byte.x00; Byte.x01; Byte.x02].
Proof.
  apply crash_exposes_prefix.
  eapply reach_step; [eapply reach_step; [eapply reach_step; [apply reach_init|]|]|].
  - by apply (step_append [Byte.x00; Byte.x01] [] empty_disk [] ok_error 0
                 (mkDisk [] [] [Byte.x00; Byte.x01] [] false) []).
  - by apply (step_sync [1; 0; 1] (mkDisk [] [] [Byte.x00; Byte.x01] [] false)
                 [Byte.x00; Byte.x01] ok_error (mkDisk [Byte.x00] [Byte.x01] [] [] false) []).
  - by apply (step_append [Byte.x02] [] (mkDisk [Byte.x00] [Byte.x01] [] [] false)
                 [Byte.x00; Byte.x01] ok_error 2
                 (mkDisk [Byte.x00] [Byte.x01] [Byte.x02] [] false) []).
Defined.

(** The tapes of the three operations below: an honest append, a sync that
    promotes nothing, an honest append and an honest sync. *)
Definition lie_then_sync (a b : list byte) : disk :=
  let '(_, _, d, _) := append a [] empty_disk in
  let '(_, d, _) := sync [1; 0; 0] d in
  let '(_, _, d, _) := append b [] d in
  let '(_, d, _) := sync [] d in d.

(** After a lying sync, a later honest sync promotes the newer bytes
    ahead of the older lying ones: the observable image is no longer the write
    stream, and a crash keeps the newer bytes while losing the older. *)
Theorem lying_sync_reorders a b :
  a <> [] ->
  image_of (lie_then_sync a b) = b ++ a /\
  image_of (crash (lie_then_sync a b)) = b.
Proof.
  intros Ha. unfold lie_then_sync. rewrite append_honest.
  assert (Hs : forall d, staged d <> [] ->
    sync [1; 0; 0] d = (ok_error, mkDisk (durable d) (lying d ++ staged d) []
                                    (rotted_offsets d) (crashed d), [])).
  { intros d Hd. unfold sync, chance, draw_latency, uniform_range.
    destruct (staged d) as [|x l]; [done|]. cbn [List.length Nat.eqb negb draw Z.eqb].
    rewrite Z.mod_0_l by (unfold Zlen; cbn; lia). rewrite Z.add_0_r.
    destruct (_ <=? 0); cbn; by rewrite app_nil_r. }
  rewrite Hs by done. cbn [durable lying staged rotted_offsets crashed empty_disk app].
  rewrite append_honest, sync_honest.
  unfold image_of, crash. cbn. by rewrite !app_nil_r.
Qed.

Lemma lying_sync_reorders_witness :
  image_of (lie_then_sync [Byte.x61] [Byte.x62]) = [Byte.x62; Byte.x61] /\
  image_of (crash (lie_then_sync [Byte.x61] [Byte.x62])) = [Byte.x62].
Proof. by apply (lying_sync_reorders [Byte.x61] [Byte.x62]). Defined.
