(* ===== verification/Mvcc.v ===== *)
(** Mvcc: the version model and the engine contract of storage/Engine.hpp.

    [entry] is one committed MVCC version (the decoded form shared by the
    memtable, the SSTables and the WAL).  The reference reading of a set of
    versions is [newest]: the version of a key with the greatest sequence number
    not above the snapshot.  The abstract state of an engine is its committed
    history, a list of [op]s; the commit sequence number of an operation is its
    position in the history counted from one, and [spec_get] replays the prefix
    a snapshot names.  [EngineOps]/[EngineSpec] state what an implementation of
    the [Engine] interface promises its clients. *)

From Stdlib Require Import ZArith Lia Sorting.Sorted.
From stdpp Require Import base list numbers.
From S2P Require Import Prelude Core.

(** Engine.hpp: [Key], [Value] are opaque byte strings, [Seq] a [uint64]. *)
Abbreviation Key := (list byte).
Abbreviation Value := (list byte).

Definition kNoSeq : Z := 0.

Record Range := mkRange { lo : Key; hi : Key; hi_unbounded : bool }.

(** SSTable.hpp [SstEntry]. *)
Record entry := Entry {
  e_key : Key;
  e_value : Value;
  e_seq : Z;
  e_tomb : bool;
  e_vlog : bool
}.

(** The half-open range test every scan uses. *)
Definition in_range (r : Range) (k : Key) : bool :=
  negb (key_ltb k (lo r)) && (hi_unbounded r || key_ltb k (hi r)).

(** ** The newest visible version *)

Definition matches (k : Key) (at_ : Z) (e : entry) : bool :=
  key_eqb (e_key e) k && (e_seq e <=? at_).

(** A candidate replaces the held version when its sequence is not smaller. *)
Definition better (acc : option entry) (e : entry) : option entry :=
  match acc with
  | Some b => if e_seq b <=? e_seq e then Some e else Some b
  | None => Some e
  end.

Definition merge_hit (acc h : option entry) : option entry :=
  match h with Some e => better acc e | None => acc end.

Definition newest (k : Key) (at_ : Z) (es : list entry) : option entry :=
  fold_left better (List.filter (matches k at_) es) None.

Definition visible (o : option entry) : option Value :=
  match o with
  | Some e => if e_tomb e then None else Some (e_value e)
  | None => None
  end.

(** Two versions of one key with one sequence number are the same version. *)
Definition consistent (es : list entry) : Prop :=
  forall e e', In e es -> In e' es -> e_key e = e_key e' -> e_seq e = e_seq e' -> e = e'.

Lemma fold_better_acc l acc :
  fold_left better l acc = merge_hit acc (fold_left better l None).
Proof.
  revert acc; induction l as [|e l IH]; intros acc; cbn [fold_left]; [done|].
  rewrite (IH (better acc e)), (IH (better None e)).
  destruct (fold_left better l None) as [m|]; cbn; [|done].
  destruct acc as [b|]; cbn; [|by destruct (e_seq e <=? e_seq m)].
  destruct (e_seq b <=? e_seq e) eqn:E1, (e_seq e <=? e_seq m) eqn:E2; cbn;
    rewrite ?E1, ?E2; try done.
  - destruct (e_seq b <=? e_seq m) eqn:E3; [done|lia].
  - destruct (e_seq b <=? e_seq m) eqn:E3; [lia|done].
Qed.

Lemma newest_app k at_ es es' :
  newest k at_ (es ++ es') = merge_hit (newest k at_ es) (newest k at_ es').
Proof.
  unfold newest. rewrite filter_app, fold_left_app. apply fold_better_acc.
Qed.

Lemma fold_better_some l acc e :
  fold_left better l acc = Some e ->
  (In e l \/ acc = Some e) /\
  (forall x, In x l \/ acc = Some x -> e_seq x <= e_seq e).
Proof.
  revert acc; induction l as [|a l IH]; intros acc; cbn [fold_left].
  - intros ->. split; [by right|]. intros x [[]|[= ->]]. lia.
  - intros H. apply IH in H as [H1 H2]. unfold better in *. split.
    + destruct H1 as [H1|H1]; [by left; right|].
      destruct acc as [b|]; [destruct (e_seq b <=? e_seq a)|];
        simplify_eq; try (by left; left); by right.
    + intros x [[->|Hx]|Hx].
      * destruct acc as [b|]; [|apply H2; by right].
        destruct (e_seq b <=? e_seq x) eqn:E; [apply H2; by right|].
        specialize (H2 b (or_intror eq_refl)). lia.
      * apply H2; by left.
      * subst acc. destruct (e_seq x <=? e_seq a) eqn:E.
        -- specialize (H2 a (or_intror eq_refl)). lia.
        -- apply H2. by right.
Qed.

Lemma fold_better_none l acc :
  fold_left better l acc = None <-> l = [] /\ acc = None.
Proof.
  revert acc; induction l as [|a l IH]; intros acc; cbn [fold_left]; [naive_solver|].
  rewrite IH. unfold better. destruct acc as [b|]; [destruct (_ <=? _)|]; naive_solver.
Qed.

Lemma newest_some k at_ es e :
  newest k at_ es = Some e ->
  In e es /\ matches k at_ e = true /\
  (forall x, In x es -> matches k at_ x = true -> e_seq x <= e_seq e).
Proof.
  intros H. apply fold_better_some in H as [[H1|H1] H2]; [|done].
  apply filter_In in H1 as [H1 Hm]. repeat split; [done..|].
  intros x Hx Hmx. apply H2. left. by apply filter_In.
Qed.

Lemma newest_none k at_ es :
  newest k at_ es = None <-> (forall x, In x es -> matches k at_ x = false).
Proof.
  unfold newest. rewrite fold_better_none. split.
  - intros [H _] x Hx. destruct (matches k at_ x) eqn:E; [|done].
    exfalso. eapply in_nil. rewrite <- H. by apply filter_In.
  - intros H. split; [|done].
    destruct (List.filter _ es) as [|x l] eqn:E; [done|].
    assert (In x (List.filter (matches k at_) es)) as Hx by (rewrite E; by left).
    apply filter_In in Hx as [Hx Hm]. by rewrite H in Hm.
Qed.

Lemma matches_true k at_ e :
  matches k at_ e = true <-> e_key e = k /\ e_seq e <= at_.
Proof. unfold matches. rewrite andb_true_iff, key_eqb_eq, Z.leb_le. done. Qed.

Lemma newest_intro k at_ es e :
  consistent es -> In e es -> matches k at_ e = true ->
  (forall x, In x es -> matches k at_ x = true -> e_seq x <= e_seq e) ->
  newest k at_ es = Some e.
Proof.
  intros Hc Hin Hm Hmax. destruct (newest k at_ es) as [e'|] eqn:E.
  - apply newest_some in E as (Hin' & Hm' & Hmax'). f_equal.
    apply Hc; [done..| |].
    + apply matches_true in Hm as [-> _]. by apply matches_true in Hm' as [-> _].
    + specialize (Hmax _ Hin' Hm'). specialize (Hmax' _ Hin Hm). lia.
  - rewrite newest_none in E. by rewrite E in Hm.
Qed.

(** Reads depend only on which versions are present. *)
Lemma newest_ext k at_ es es' :
  consistent es' -> (forall e, In e es <-> In e es') ->
  newest k at_ es = newest k at_ es'.
Proof.
  intros Hc Heq. destruct (newest k at_ es) as [e|] eqn:E.
  - apply newest_some in E as (H1 & H2 & H3). symmetry.
    apply newest_intro; [done|by apply Heq|done|].
    intros x Hx. apply H3. by apply Heq.
  - symmetry. apply newest_none. rewrite newest_none in E.
    intros x Hx. apply E. by apply Heq.
Qed.

Lemma merge_hit_none_l h : merge_hit None h = h.
Proof. by destruct h. Qed.

Lemma merge_hit_assoc a b c : merge_hit (merge_hit a b) c = merge_hit a (merge_hit b c).
Proof.
  destruct a as [a|], b as [b|], c as [c|]; cbn; try done; repeat (case_match; cbn); try done; lia.
Qed.

Lemma consistent_incl es es' :
  consistent es' -> (forall e, In e es -> In e es') -> consistent es.
Proof. intros Hc Hi e e' H1 H2. apply Hc; auto. Qed.

(** ** Key-ordered association lists: the contents of a [std::map<Key, T>] or
    of a vector kept sorted by key. *)

Section key_sorted.
Context {A : Type}.
Implicit Types l : list (Key * A).

Definition pair_lt (a b : Key * A) : Prop := key_lt a.1 b.1.
Definition key_sorted l : Prop := StronglySorted pair_lt l.

Fixpoint assoc (k : Key) l : option A :=
  match l with
  | [] => None
  | (k', a) :: l' => if key_eqb k' k then Some a else assoc k l'
  end.

Lemma key_sorted_cons_inv k a l :
  key_sorted ((k, a) :: l) ->
  key_sorted l /\ (forall k' a', In (k', a') l -> key_ltb k k' = true).
Proof.
  intros H. apply StronglySorted_inv in H as [H1 H2]. split; [done|].
  intros k' a' Hin. rewrite List.Forall_forall in H2. apply (H2 _ Hin).
Qed.

Lemma key_sorted_cons k a l :
  key_sorted l -> (forall k' a', In (k', a') l -> key_ltb k k' = true) ->
  key_sorted ((k, a) :: l).
Proof.
  intros H1 H2. constructor; [done|]. apply List.Forall_forall.
  intros [k' a'] Hin. by apply (H2 k' a').
Qed.

Lemma assoc_in k a l : assoc k l = Some a -> In (k, a) l.
Proof.
  induction l as [|[k' a'] l IH]; cbn; [done|].
  destruct (key_eqb_spec k' k) as [->|]; [|by auto].
  intros [= ->]. by left.
Qed.

Lemma assoc_sorted k a l : key_sorted l -> assoc k l = Some a <-> In (k, a) l.
Proof.
  intros Hs. split; [apply assoc_in|].
  induction l as [|[k' a'] l IH]; cbn; [done|].
  apply key_sorted_cons_inv in Hs as [Hs Hlt].
  intros [[= -> ->]|Hin]; [by rewrite key_eqb_refl|].
  destruct (key_eqb_spec k' k) as [->|]; [|by auto].
  specialize (Hlt _ _ Hin). by rewrite key_ltb_irrefl in Hlt.
Qed.

Lemma assoc_none k l : assoc k l = None <-> (forall a, ~ In (k, a) l).
Proof.
  induction l as [|[k' a'] l IH]; cbn; [naive_solver|].
  destruct (key_eqb_spec k' k) as [->|Hne].
  - split; [done|]. intros H. exfalso. apply (H a'). by left.
  - rewrite IH. split; intros H a; specialize (H a); intuition congruence.
Qed.

(** A key-sorted list is determined by its elements. *)
Lemma key_sorted_ext l l' :
  key_sorted l -> key_sorted l' -> (forall k a, In (k, a) l <-> In (k, a) l') -> l = l'.
Proof.
  revert l'; induction l as [|[k a] l IH]; intros [|[k' a'] l'] Hs Hs' Heq.
  - done.
  - exfalso. apply (Heq k' a'). by left.
  - exfalso. apply (Heq k a). by left.
  - apply key_sorted_cons_inv in Hs as [Hs Hlt].
    apply key_sorted_cons_inv in Hs' as [Hs' Hlt'].
    assert (E : (k, a) = (k', a')).
    { destruct (proj1 (Heq k a) (or_introl eq_refl)) as [E|Hin]; [done|].
      destruct (proj2 (Heq k' a') (or_introl eq_refl)) as [E|Hin']; [done|].
      specialize (Hlt _ _ Hin'). specialize (Hlt' _ _ Hin).
      apply key_ltb_asym in Hlt. congruence. }
    injection E as -> ->. f_equal. apply IH; [done..|].
    intros q b. split; intros Hin.
    + destruct (proj1 (Heq q b) (or_intror Hin)) as [[= -> ->]|]; [|done].
      specialize (Hlt _ _ Hin). by rewrite key_ltb_irrefl in Hlt.
    + destruct (proj2 (Heq q b) (or_intror Hin)) as [[= -> ->]|]; [|done].
      specialize (Hlt' _ _ Hin). by rewrite key_ltb_irrefl in Hlt'.
Qed.

(** [map\[key\].push_back(v)] on a map of vectors: the walk to the first key
    not below [key], an insertion there when the key is new. *)
Fixpoint map_push (key : Key) (v : A) (m : list (Key * list A)) : list (Key * list A) :=
  match m with
  | [] => [(key, [v])]
  | (k, vs) :: rest =>
      if key_ltb k key then (k, vs) :: map_push key v rest
      else if key_eqb k key then (k, vs ++ [v]) :: rest
      else (key, [v]) :: (k, vs) :: rest
  end.
End key_sorted.

Lemma map_push_in {A} key (v : A) m k vs :
  In (k, vs) (map_push key v m) -> k = key \/ In (k, vs) m.
Proof.
  induction m as [|[k' vs'] m IH]; cbn.
  - intros [[= <- <-]|[]]. by left.
  - destruct (key_ltb k' key); [|destruct (key_eqb_spec k' key) as [->|]]; cbn;
      (intros [E|H]; [injection E as <- <-|]); auto. apply IH in H. tauto.
Qed.

Lemma map_push_sorted {A} key (v : A) m : key_sorted m -> key_sorted (map_push key v m).
Proof.
  induction m as [|[k vs] m IH]; cbn; intros Hs.
  - apply key_sorted_cons; [constructor|done].
  - apply key_sorted_cons_inv in Hs as [Hs Hlt].
    destruct (key_ltb k key) eqn:E; [|destruct (key_eqb_spec k key) as [->|Hne]].
    + apply key_sorted_cons; [by apply IH|]. intros k' a' Hin.
      apply map_push_in in Hin as [->|Hin]; [done|]. by eapply Hlt.
    + by apply key_sorted_cons.
    + assert (key_ltb key k = true) as Hk.
      { destruct (key_trichotomy k key) as [?|[?|?]]; congruence. }
      apply key_sorted_cons; [by apply key_sorted_cons|].
      intros k' a' [[= <- <-]|Hin]; [done|].
      specialize (Hlt _ _ Hin). by eapply key_ltb_trans.
Qed.

Lemma map_push_assoc {A} key (v : A) m k :
  key_sorted m ->
  default [] (assoc k (map_push key v m)) =
  default [] (assoc k m) ++ (if key_eqb key k then [v] else []).
Proof.
  induction m as [|[k' vs] m IH]; cbn; intros Hs.
  - by destruct (key_eqb key k).
  - apply key_sorted_cons_inv in Hs as [Hs Hlt].
    destruct (key_ltb k' key) eqn:E; [|destruct (key_eqb_spec k' key) as [->|Hne]]; cbn.
    + destruct (key_eqb_spec k' k) as [->|]; [|by apply IH]. cbn.
      apply key_ltb_neq in E. rewrite (proj2 (key_eqb_neq key k)) by congruence.
      by rewrite app_nil_r.
    + destruct (key_eqb key k); cbn; [done|]. by rewrite app_nil_r.
    + destruct (key_eqb_spec key k) as [->|Hk].
      * rewrite (proj2 (key_eqb_neq k' k)) by done.
        assert (assoc k m = None) as ->; [|done].
        apply assoc_none. intros a Hin. specialize (Hlt _ _ Hin). congruence.
      * by rewrite app_nil_r.
Qed.

(** ** Committed histories *)

Inductive op := Put (k : Key) (v : Value) | Del (k : Key).

Definition op_key (o : op) : Key := match o with Put k _ => k | Del k => k end.
Definition op_value (o : op) : option Value :=
  match o with Put _ v => Some v | Del _ => None end.

(** The value of a key after a run of operations. *)
Definition replay_key (k : Key) (h : list op) : option Value :=
  fold_left (fun acc o => if key_eqb (op_key o) k then op_value o else acc) h None.

(** Reading as of a snapshot replays the operations it covers. *)
Definition spec_get (h : list op) (k : Key) (at_ : Z) : option Value :=
  replay_key k (take (Z.to_nat at_) h).

Definition spec_scan (h : list op) (r : Range) (at_ : Z) (l : list (Key * Value)) : Prop :=
  key_sorted l /\
  (forall k v, In (k, v) l <-> in_range r k = true /\ spec_get h k at_ = Some v).

Definition op_entry (s : Z) (o : op) : entry :=
  match o with
  | Put k v => Entry k v s false false
  | Del k => Entry k [] s true false
  end.

Fixpoint hist_from (s : Z) (h : list op) : list entry :=
  match h with
  | [] => []
  | o :: h' => op_entry s o :: hist_from (s + 1) h'
  end.

(** The versions a history creates: commit sequences 1, 2, 3, ... *)
Definition hist_entries (h : list op) : list entry := hist_from 1 h.

Lemma replay_key_app k h h' :
  replay_key k (h ++ h') =
  fold_left (fun acc o => if key_eqb (op_key o) k then op_value o else acc) h'
            (replay_key k h).
Proof. apply fold_left_app. Qed.

Lemma spec_scan_unique h r at_ l l' :
  spec_scan h r at_ l -> spec_scan h r at_ l' -> l = l'.
Proof.
  intros [H1 H2] [H1' H2']. apply key_sorted_ext; [done..|].
  intros k v. by rewrite H2, H2'.
Qed.

Lemma op_entry_key s o : e_key (op_entry s o) = op_key o.
Proof. by destruct o. Qed.

Lemma op_entry_seq s o : e_seq (op_entry s o) = s.
Proof. by destruct o. Qed.

Lemma op_entry_visible s o : visible (Some (op_entry s o)) = op_value o.
Proof. by destruct o. Qed.

Lemma hist_from_app s h h' :
  hist_from s (h ++ h') = hist_from s h ++ hist_from (s + Zlen h) h'.
Proof.
  revert s; induction h as [|o h IH]; intros s; cbn.
  - f_equal. unfold Zlen. cbn. lia.
  - rewrite IH. do 3 f_equal. unfold Zlen. cbn [length]. lia.
Qed.

Lemma hist_entries_snoc h o :
  hist_entries (h ++ [o]) = hist_entries h ++ [op_entry (Zlen h + 1) o].
Proof. unfold hist_entries. rewrite hist_from_app. cbn. do 3 f_equal. lia. Qed.

Lemma hist_from_in s h e :
  In e (hist_from s h) <-> exists i o, h !! i = Some o /\ e = op_entry (s + Z.of_nat i) o.
Proof.
  revert s; induction h as [|o h IH]; intros s; cbn.
  - split; [done|]. intros (i & o & H & _). by rewrite lookup_nil in H.
  - rewrite IH. split.
    + intros [<-|(i & o' & H & ->)].
      * exists 0%nat, o. split; [done|]. f_equal. lia.
      * exists (S i), o'. split; [done|]. f_equal. lia.
    + intros ([|i] & o' & H & ->); cbn in H.
      * left. simplify_eq. f_equal. lia.
      * right. exists i, o'. split; [done|]. f_equal. lia.
Qed.

Lemma hist_from_seq s h e : In e (hist_from s h) -> s <= e_seq e < s + Zlen h.
Proof.
  intros H. apply hist_from_in in H as (i & o & H & ->).
  apply lookup_lt_Some in H. rewrite op_entry_seq. unfold Zlen. lia.
Qed.

Lemma hist_from_inj s h e e' :
  In e (hist_from s h) -> In e' (hist_from s h) -> e_seq e = e_seq e' -> e = e'.
Proof.
  intros H H' E. apply hist_from_in in H as (i & o & H & ->).
  apply hist_from_in in H' as (j & o' & H' & ->). rewrite !op_entry_seq in E.
  assert (i = j) by lia. by simplify_eq.
Qed.

Lemma hist_consistent h : consistent (hist_entries h).
Proof. intros e e' H H' _ E. by eapply hist_from_inj. Qed.

Lemma hist_seq_pos h e : In e (hist_entries h) -> 1 <= e_seq e <= Zlen h.
Proof. intros H. apply hist_from_seq in H. lia. Qed.

(** Reading the versions of a history at a snapshot replays its prefix. *)
Lemma newest_hist h k at_ :
  0 <= at_ -> visible (newest k at_ (hist_entries h)) = spec_get h k at_.
Proof.
  intros Hat. unfold spec_get.
  induction h as [|o h IH] using rev_ind.
  - cbn. by rewrite take_nil.
  - rewrite hist_entries_snoc, newest_app. unfold newest at 2. cbn [List.filter].
    destruct (matches k at_ (op_entry (Zlen h + 1) o)) eqn:Em.
    + apply matches_true in Em as [Ek Es].
      rewrite op_entry_key in Ek. rewrite op_entry_seq in Es.
      rewrite take_ge by (rewrite length_app; cbn; unfold Zlen in Es; lia).
      rewrite replay_key_app. cbn. rewrite Ek, key_eqb_refl.
      destruct (newest k at_ (hist_entries h)) as [b|] eqn:En; cbn.
      * apply newest_some in En as (Hin & _ & _). apply hist_seq_pos in Hin.
        rewrite op_entry_seq. destruct (e_seq b <=? Zlen h + 1) eqn:E; [|lia].
        apply op_entry_visible.
      * apply op_entry_visible.
    + cbn [fold_left merge_hit]. rewrite IH.
      unfold matches in Em. rewrite op_entry_key, op_entry_seq in Em.
      destruct (Z_le_gt_dec (Zlen h + 1) at_) as [Hle|Hgt].
      * rewrite !take_ge by (rewrite ?length_app; cbn; unfold Zlen in Hle; lia).
        rewrite replay_key_app. cbn.
        destruct (key_eqb (op_key o) k) eqn:Ek; [|done].
        cbn in Em. lia.
      * rewrite take_app_le by (unfold Zlen in Hgt; lia). done.
Qed.

(** ** The engine interface *)

Class EngineOps (E : Type) := {
  eput : Key -> Value -> E -> Z * E;
  edel : Key -> E -> Z * E;
  eget : Key -> Z -> E -> option Value;
  esnapshot : E -> Z;
  escan : Range -> Z -> E -> list (Key * Value);
  esync : E -> Error * E
}.

Definition kMaxSeq : Z := 2 ^ 64 - 1.

(** What an engine promises: [repr e h] says that [e] holds the committed
    history [h]; commits extend it and return the next sequence number, reads
    answer from it.  [capacity] is the number of commits the implementation's
    machine-width counters allow. *)
Class EngineSpec (E : Type) `{EngineOps E} := {
  repr : E -> list op -> Prop;
  capacity : Z;
  capacity_le : capacity <= kMaxSeq;
  put_spec e h k v :
    repr e h -> Zlen h < capacity ->
    (eput k v e).1 = Zlen h + 1 /\ repr (eput k v e).2 (h ++ [Put k v]);
  del_spec e h k :
    repr e h -> Zlen h < capacity ->
    (edel k e).1 = Zlen h + 1 /\ repr (edel k e).2 (h ++ [Del k]);
  get_spec e h k at_ : repr e h -> 0 <= at_ -> eget k at_ e = spec_get h k at_;
  snapshot_spec e h : repr e h -> esnapshot e = Zlen h;
  scan_spec e h r at_ : repr e h -> 0 <= at_ -> spec_scan h r at_ (escan r at_ e);
  sync_keeps e h : repr e h -> repr (esync e).2 h
}.

(** Two engines holding one history answer every read alike. *)
Lemma engines_agree {E F : Type} `{EngineSpec E} `{EngineSpec F} (e : E) (f : F) h r k at_ :
  repr e h -> repr f h -> 0 <= at_ ->
  eget k at_ e = eget k at_ f /\ escan r at_ e = escan r at_ f /\
  esnapshot e = esnapshot f.
Proof.
  intros He Hf Hat. split; [|split].
  - by rewrite (get_spec e h), (get_spec f h).
  - eapply spec_scan_unique; by apply scan_spec.
  - by rewrite (snapshot_spec e h), (snapshot_spec f h).
Qed.

(** ** Clients of the interface *)

(** Committing a list of operations in order. *)
Definition ecommit {E} `{EngineOps E} (e : E) (o : op) : E :=
  match o with Put k v => (eput k v e).2 | Del k => (edel k e).2 end.

Definition erun {E} `{EngineOps E} (h : list op) (e : E) : E := fold_left ecommit h e.

Lemma erun_repr {E} `{EngineSpec E} h' : forall (e : E) h,
  repr e h -> Zlen (h ++ h') <= capacity -> repr (erun h' e) (h ++ h').
Proof.
  induction h' as [|o h' IH]; intros e h He Hc; [by rewrite app_nil_r|].
  rewrite cons_middle, app_assoc in *. cbn [erun fold_left]. apply IH; [|done].
  assert (Hl : Zlen h < capacity).
  { rewrite !Zlen_app in Hc. change (Zlen [o]) with 1 in Hc. pose proof (Zlen_nonneg h'). lia. }
  destruct o as [k v|k]; cbn [ecommit]; [by apply put_spec|by apply del_spec].
Qed.

(** The commits that store a list of pairs. *)
Definition puts (kvs : list (Key * Value)) : list op := map (fun kv => Put kv.1 kv.2) kvs.

(** A snapshot of a history covers the same operations in every extension. *)
Lemma spec_get_app h h' k at_ : at_ <= Zlen h -> spec_get (h ++ h') k at_ = spec_get h k at_.
Proof. intros Hat. unfold spec_get. by rewrite take_app_le by (unfold Zlen in Hat; lia). Qed.
