(* ===== verification/Oracle.v ===== *)
(** Oracle: the in-memory reference engine of storage/Oracle.hpp.

    [keys_] is a vector of keys in order, each with its versions in commit
    order.  The oracle holds no promise state that outlives a call (its futures
    are ready at once), so an operation is a function of the state. *)

From Stdlib Require Import ZArith Lia Sorting.Sorted.
From stdpp Require Import base list numbers.
From S2P Require Import Prelude Core Mvcc.

Module Oracle.

Record Version := mkVersion { seq : Z; value : Value; tombstone : bool }.

Record t := mk { keys_ : list (Key * list Version); last_seq_ : Z }.

Definition empty : t := mk [] kNoSeq.

(** [versions_for] then [push_back]: the walk to the first key not below
    [key], an insertion there when the key is new. *)
Definition versions_push (key : Key) (v : Version) (keys : list (Key * list Version))
  : list (Key * list Version) := map_push key v keys.

Definition commit (key : Key) (v : Value) (tomb : bool) (o : t) : Z * t :=
  let s := u64 (last_seq_ o + 1) in
  (s, mk (versions_push key (mkVersion s v tomb) (keys_ o)) s).

Definition put (key : Key) (v : Value) (o : t) : Z * t := commit key v false o.
Definition del (key : Key) (o : t) : Z * t := commit key [] true o.

Definition find (key : Key) (o : t) : option (list Version) := assoc key (keys_ o).

(** The loop of [lookup]: ascending walk that stops at the first version the
    snapshot does not cover. *)
Fixpoint walk (at_ : Z) (newest : option Version) (vs : list Version) : option Version :=
  match vs with
  | [] => newest
  | v :: vs' => if seq v <=? at_ then walk at_ (Some v) vs' else newest
  end.

Definition lookup (key : Key) (at_ : Z) (o : t) : option Value :=
  match find key o with
  | None => None
  | Some vs =>
      match walk at_ None vs with
      | None => None
      | Some v => if tombstone v then None else Some (value v)
      end
  end.

Definition get (key : Key) (at_ : Z) (o : t) : option Value := lookup key at_ o.

Definition snapshot (o : t) : Z := last_seq_ o.

Definition sync (o : t) : Error * t := (ok_error, o).

Fixpoint scan_loop (r : Range) (at_ : Z) (o : t) (keys : list (Key * list Version))
  : list (Key * Value) :=
  match keys with
  | [] => []
  | (k, _) :: rest =>
      if key_ltb k (lo r) then scan_loop r at_ o rest
      else if negb (hi_unbounded r) && negb (key_ltb k (hi r)) then scan_loop r at_ o rest
      else
        match lookup k at_ o with
        | Some v => (k, v) :: scan_loop r at_ o rest
        | None => scan_loop r at_ o rest
        end
  end.

Definition scan (r : Range) (at_ : Z) (o : t) : list (Key * Value) :=
  scan_loop r at_ o (keys_ o).

#[global] Instance ops : EngineOps t := {
  eput := put;
  edel := del;
  eget := get;
  esnapshot := snapshot;
  escan := scan;
  esync := sync
}.

(** ** Representation

    The versions of a key are exactly its operations of the history, in
    order. *)

Definition version_of (e : entry) : Version := mkVersion (e_seq e) (e_value e) (e_tomb e).

Definition key_versions (k : Key) (h : list op) : list Version :=
  map version_of (List.filter (fun e => key_eqb (e_key e) k) (hist_entries h)).

Record rep (o : t) (h : list op) : Prop := {
  rep_sorted : key_sorted (keys_ o);
  rep_versions : forall k, default [] (assoc k (keys_ o)) = key_versions k h;
  rep_last : last_seq_ o = Zlen h
}.

Lemma key_versions_snoc k h o :
  key_versions k (h ++ [o]) =
  key_versions k h ++
  (if key_eqb (op_key o) k then [version_of (op_entry (Zlen h + 1) o)] else []).
Proof.
  unfold key_versions. rewrite hist_entries_snoc, filter_app, map_app. cbn.
  rewrite op_entry_key. by destruct (key_eqb (op_key o) k).
Qed.

(** The walk over an ascending version list finds the newest covered one. *)
Lemma walk_app at_ acc vs v :
  (forall w, In w vs -> seq w < seq v) ->
  walk at_ acc (vs ++ [v]) = if seq v <=? at_ then Some v else walk at_ acc vs.
Proof.
  revert acc; induction vs as [|w vs IH]; intros acc H; cbn; [by destruct (_ <=? _)|].
  destruct (seq w <=? at_) eqn:E.
  - apply IH. intros. apply H. by right.
  - specialize (H w (or_introl eq_refl)). destruct (seq v <=? at_) eqn:E'; [lia|done].
Qed.

Lemma walk_newest k at_ h :
  walk at_ None (key_versions k h) = option_map version_of (newest k at_ (hist_entries h)).
Proof.
  induction h as [|o h IH] using rev_ind; [done|].
  rewrite key_versions_snoc, hist_entries_snoc, newest_app.
  unfold newest at 2. cbn [List.filter].
  unfold matches. rewrite op_entry_key, op_entry_seq.
  destruct (key_eqb (op_key o) k); cbn [andb]; [|rewrite app_nil_r; exact IH].
  rewrite walk_app.
  - cbn. rewrite op_entry_seq. destruct (Zlen h + 1 <=? at_) eqn:E; [|exact IH].
    cbn. destruct (newest k at_ (hist_entries h)) as [b|] eqn:En; [|done].
    apply newest_some in En as (Hin & _). apply hist_seq_pos in Hin.
    cbn. rewrite op_entry_seq. destruct (e_seq b <=? Zlen h + 1) eqn:E'; [done|lia].
  - intros w Hw. apply in_map_iff in Hw as (e & <- & Hin).
    apply filter_In in Hin as [Hin _]. apply hist_seq_pos in Hin.
    cbn. rewrite op_entry_seq. lia.
Qed.

Lemma lookup_spec o h k at_ :
  rep o h -> 0 <= at_ -> lookup k at_ o = spec_get h k at_.
Proof.
  intros [Hs Hv Hl] Hat. rewrite <- newest_hist by done.
  unfold lookup, find. specialize (Hv k). pose proof (walk_newest k at_ h) as Hw.
  destruct (assoc k (keys_ o)) as [vs|]; cbn in Hv.
  - subst vs. rewrite Hw. destruct (newest k at_ (hist_entries h)) as [e|]; done.
  - rewrite <- Hv in Hw. cbn in Hw. by destruct (newest k at_ (hist_entries h)).
Qed.

Lemma scan_loop_in r at_ o keys k v :
  In (k, v) (scan_loop r at_ o keys) <->
  (exists vs, In (k, vs) keys) /\ in_range r k = true /\ lookup k at_ o = Some v.
Proof.
  induction keys as [|[k' vs'] keys IH]; cbn; [naive_solver|].
  assert (Hr : in_range r k' = negb (key_ltb k' (lo r)) &&
                 negb (negb (hi_unbounded r) && negb (key_ltb k' (hi r)))).
  { unfold in_range. by destruct (hi_unbounded r), (key_ltb k' (hi r)). }
  assert (Hex : (exists vs, (k', vs') = (k, vs) \/ In (k, vs) keys) <->
                k' = k \/ exists vs, In (k, vs) keys) by naive_solver.
  rewrite Hex. clear Hex.
  assert (Hskip : in_range r k' = false \/ lookup k' at_ o = None ->
    ((exists vs, In (k, vs) keys) /\ in_range r k = true /\ lookup k at_ o = Some v <->
     (k' = k \/ exists vs, In (k, vs) keys) /\ in_range r k = true /\ lookup k at_ o = Some v)).
  { intros Hf. split; [tauto|].
    intros ([->|Hin] & H1 & H2); [destruct Hf; congruence|tauto]. }
  destruct (key_ltb k' (lo r)); cbn in Hr; [rewrite IH; tauto|].
  destruct (negb (hi_unbounded r) && _); cbn in Hr; [rewrite IH; tauto|].
  destruct (lookup k' at_ o) as [v'|] eqn:El; cbn; rewrite IH; [|tauto].
  split.
  - intros [[= -> ->]|?]; tauto.
  - intros ([->|Hin] & H1 & H2); [left; congruence|tauto].
Qed.

Lemma scan_loop_sorted r at_ o keys :
  key_sorted keys -> key_sorted (scan_loop r at_ o keys).
Proof.
  induction keys as [|[k vs] keys IH]; cbn; intros Hs; [constructor|].
  apply key_sorted_cons_inv in Hs as [Hs Hlt].
  destruct (key_ltb k (lo r)); [by apply IH|].
  destruct (negb (hi_unbounded r) && _); [by apply IH|].
  destruct (lookup k at_ o) as [v|]; [|by apply IH].
  apply key_sorted_cons; [by apply IH|]. intros k' a' Hin.
  apply scan_loop_in in Hin as ((vs' & Hin) & _). by eapply Hlt.
Qed.

Lemma lookup_in_keys o k at_ v :
  lookup k at_ o = Some v -> exists vs, In (k, vs) (keys_ o).
Proof.
  unfold lookup, find. destruct (assoc k (keys_ o)) as [vs|] eqn:E; [|done].
  intros _. exists vs. by apply assoc_in.
Qed.

Lemma commit_rep o h p :
  rep o h -> Zlen h < kMaxSeq ->
  let r := commit (op_key p) (default [] (op_value p))
                  (match p with Put _ _ => false | Del _ => true end) o in
  r.1 = Zlen h + 1 /\ rep r.2 (h ++ [p]).
Proof.
  intros [Hs Hv Hl] Hm. pose proof (Zlen_nonneg h).
  unfold commit. rewrite Hl, u64_id by (unfold kMaxSeq in Hm; lia).
  cbn [fst snd]. split; [done|]. split; cbn [keys_ last_seq_].
  - by apply map_push_sorted.
  - intros k. unfold versions_push. rewrite map_push_assoc, Hv, key_versions_snoc by done.
    by destruct p.
  - by rewrite Zlen_app.
Qed.

Lemma rep_empty : rep empty [].
Proof. split; [constructor|done|done]. Qed.

#[global] Program Instance spec : EngineSpec t := { repr := rep; capacity := kMaxSeq }.
Next Obligation. done. Qed.
Next Obligation. intros o h k v. apply (commit_rep o h (Put k v)). Qed.
Next Obligation. intros o h k. apply (commit_rep o h (Del k)). Qed.
Next Obligation. intros. by apply lookup_spec. Qed.
Next Obligation. intros o h [_ _ H]. exact H. Qed.
Next Obligation.
  intros o h r at_ Hr Hat. split.
  - apply scan_loop_sorted, Hr.
  - intros k v. cbn. unfold scan. rewrite scan_loop_in, (lookup_spec o h) by done.
    split; [naive_solver|]. intros [H1 H2]. split; [|done].
    eapply lookup_in_keys. by rewrite (lookup_spec o h).
Qed.
Next Obligation. done. Qed.

(** Running a history on the empty oracle. *)
Definition apply_op (o : t) (p : op) : t :=
  match p with Put k v => (put k v o).2 | Del k => (del k o).2 end.

Definition run (h : list op) : t := fold_left apply_op h empty.

Lemma run_rep h : Zlen h <= kMaxSeq -> rep (run h) h.
Proof.
  induction h as [|p h IH] using rev_ind; intros Hm; [apply rep_empty|].
  unfold run. rewrite fold_left_app. cbn. rewrite Zlen_app in Hm.
  assert (Hm' : Zlen h < kMaxSeq) by (unfold Zlen at 2 in Hm; cbn in Hm; lia).
  specialize (IH ltac:(lia)). destruct p as [k v|k]; cbn.
  - apply (commit_rep (run h) h (Put k v)); done.
  - apply (commit_rep (run h) h (Del k)); done.
Qed.

(** After any run of puts and deletes, the oracle answers a read at every
    snapshot with the value the key had after the operations the snapshot
    covers, a scan with exactly the live pairs of the range in key order, and
    its snapshot is the number of commits. *)
Theorem oracle_correct h k r at_ :
  Zlen h <= kMaxSeq -> 0 <= at_ ->
  get k at_ (run h) = spec_get h k at_ /\
  spec_scan h r at_ (scan r at_ (run h)) /\
  snapshot (run h) = Zlen h.
Proof.
  intros Hm Hat. pose proof (run_rep h Hm) as Hr. split_and!.
  - exact (get_spec (run h) h k at_ Hr Hat).
  - exact (scan_spec (run h) h r at_ Hr Hat).
  - exact (snapshot_spec (run h) h Hr).
Qed.

Lemma oracle_correct_witness :
  let h := [Put [Byte.x61] [Byte.x01]; Del [Byte.x61]; Put [Byte.x62] [Byte.x02]] in
  get [Byte.x61] 1 (run h) = Some [Byte.x01] /\
  spec_scan h (mkRange [] [] true) 1 (scan (mkRange [] [] true) 1 (run h)) /\
  snapshot (run h) = 3.
Proof.
  apply (oracle_correct [Put [Byte.x61] [Byte.x01]; Del [Byte.x61]; Put [Byte.x62] [Byte.x02]] [Byte.x61] (mkRange [] [] true) 1);
    by vm_compute.
Defined.

End Oracle.
