(* ===== verification/ValueLog.v ===== *)
(** ValueLog: the append-only log of large values (storage/ValueLog.hpp).

    A separated value is written once as a CRC-framed record; the rest of the
    engine stores a fixed 24-byte pointer to it. *)

From Stdlib Require Import ZArith Lia.
From stdpp Require Import base list numbers.
From S2P Require Import Prelude Codec Mvcc.

Definition kDefaultValueThreshold : nat := 256.
Definition kVlogMagic : Z := 0x474C564C.
Definition kVlogRecordHeaderBytes : nat := 8.
Definition kVlogCrcBytes : nat := 4.
Definition kVlogPtrBytes : nat := 24.

Record VlogPtr := mkVlogPtr { value_off : Z; vlen : Z; crc : Z; gen : Z }.

Definition vlogptr_encode (p : VlogPtr) : list byte :=
  put_u64 (value_off p) ++ put_u32 (vlen p) ++ put_u32 (crc p) ++ put_u64 (gen p).

Definition vlogptr_decode (bs : list byte) : option VlogPtr :=
  if negb (length bs =? kVlogPtrBytes)%nat then None
  else Some (mkVlogPtr (get_u64 bs) (get_u32 (drop 8 bs)) (get_u32 (drop 12 bs))
                       (get_u64 (drop 16 bs))).

Definition encode_vlog_record (v : Value) (base_off g : Z) : list byte * VlogPtr :=
  let buf := put_u32 kVlogMagic ++ put_u32 (u32 (Zlen v)) ++ v in
  let c := Crc32.compute buf in
  (buf ++ put_u32 c,
   mkVlogPtr (u64 (base_off + Z.of_nat kVlogRecordHeaderBytes)) (u32 (Zlen v)) c g).

Definition vlog_deref (image : list byte) (ptr : VlogPtr) : option Value :=
  if value_off ptr <? Z.of_nat kVlogRecordHeaderBytes then None
  else
    let rec_off := value_off ptr - Z.of_nat kVlogRecordHeaderBytes in
    let rec_end := u64 (rec_off + Z.of_nat kVlogRecordHeaderBytes + vlen ptr
                        + Z.of_nat kVlogCrcBytes) in
    if Zlen image <? rec_end then None
    else
      let p := drop (Z.to_nat rec_off) image in
      if negb (get_u32 p =? kVlogMagic) then None
      else
        let l := get_u32 (drop 4 p) in
        if negb (l =? vlen ptr) then None
        else
          let crc_off := (kVlogRecordHeaderBytes + Z.to_nat (vlen ptr))%nat in
          let want := get_u32 (drop crc_off p) in
          let got := Crc32.compute (take crc_off p) in
          if negb (want =? got) || negb (want =? crc ptr) then None
          else Some (take (Z.to_nat (vlen ptr)) (drop kVlogRecordHeaderBytes p)).

(** A pointer a 64-bit field holds. *)
Definition ptr_wf (p : VlogPtr) : Prop :=
  0 <= value_off p < 2 ^ 64 /\ 0 <= vlen p < 2 ^ 32 /\ 0 <= crc p < 2 ^ 32 /\
  0 <= gen p < 2 ^ 64.

Lemma length_vlogptr_encode p : length (vlogptr_encode p) = kVlogPtrBytes.
Proof. done. Qed.

Lemma vlogptr_decode_encode p : ptr_wf p -> vlogptr_decode (vlogptr_encode p) = Some p.
Proof.
  intros (H1 & H2 & H3 & H4). destruct p as [o l c g]; cbn [value_off vlen crc gen] in *.
  unfold vlogptr_decode. rewrite length_vlogptr_encode. cbn [negb Nat.eqb kVlogPtrBytes].
  unfold vlogptr_encode. cbn [value_off vlen crc gen].
  skip_fields. by rewrite !u32_id, !u64_id.
Qed.

Lemma vlogptr_decode_some bs p :
  vlogptr_decode bs = Some p -> ptr_wf p /\ bs = vlogptr_encode p.
Proof.
  unfold vlogptr_decode. destruct (length bs =? kVlogPtrBytes)%nat eqn:E; [|done].
  apply Nat.eqb_eq in E. unfold kVlogPtrBytes in E. intros [= <-]. split.
  - unfold ptr_wf. cbn [value_off vlen crc gen]. auto with lockstep.
  - unfold vlogptr_encode. cbn [value_off vlen crc gen].
    rewrite !put_get_u64, !put_get_u32 by (rewrite ?length_drop; lia).
    do 24 (destruct bs as [|? bs]; [done|]). by destruct bs.
Qed.

Lemma vlog_record_length v base g :
  length (encode_vlog_record v base g).1 =
  (kVlogRecordHeaderBytes + length v + kVlogCrcBytes)%nat.
Proof.
  unfold encode_vlog_record, kVlogRecordHeaderBytes, kVlogCrcBytes. cbn [fst].
  rewrite !length_app, !length_put_u32. lia.
Qed.

Lemma vlog_ptr_wf v base g :
  Zlen v < 2 ^ 32 -> 0 <= g < 2 ^ 64 -> ptr_wf (encode_vlog_record v base g).2.
Proof.
  intros Hv Hg. unfold ptr_wf. cbn [encode_vlog_record snd value_off vlen crc gen].
  split_and!; try lia; try apply u64_range; try apply u32_range; apply Crc32.compute_range.
Qed.

Lemma vlog_deref_encode pre v post base g :
  base = Zlen pre -> Zlen v < 2 ^ 32 -> Zlen pre + Zlen v + 12 < 2 ^ 64 ->
  vlog_deref (pre ++ (encode_vlog_record v base g).1 ++ post)
             (encode_vlog_record v base g).2 = Some v.
Proof.
  intros -> Hv Hb. pose proof (Zlen_nonneg pre). pose proof (Zlen_nonneg v).
  unfold vlog_deref, encode_vlog_record. cbn [fst snd value_off vlen crc].
  set (buf := put_u32 kVlogMagic ++ put_u32 (u32 (Zlen v)) ++ v).
  unfold kVlogRecordHeaderBytes, kVlogCrcBytes.
  rewrite (u32_id (Zlen v)) by lia. rewrite u64_id by lia.
  replace (Zlen pre + Z.of_nat 8 - Z.of_nat 8) with (Zlen pre) by lia.
  rewrite u64_id by lia.
  destruct (_ <? Z.of_nat 8) eqn:E1; [lia|].
  assert (Hbuf : length buf = (8 + length v)%nat)
    by (unfold buf; rewrite !length_app; cbn; lia).
  destruct (Zlen _ <? _) eqn:E2.
  { apply Z.ltb_lt in E2. unfold Zlen in E2.
    rewrite !length_app, Hbuf, length_put_u32 in E2. lia. }
  replace (Z.to_nat (Zlen pre)) with (length pre) by (unfold Zlen; lia).
  rewrite drop_app_length.
  rewrite <- app_assoc.
  assert (Hm : get_u32 (buf ++ put_u32 (Crc32.compute buf) ++ post) = kVlogMagic).
  { unfold buf. rewrite <- !app_assoc, get_put_u32. by rewrite u32_id. }
  rewrite Hm, Z.eqb_refl. cbn [negb].
  assert (Hl : get_u32 (drop 4 (buf ++ put_u32 (Crc32.compute buf) ++ post)) = Zlen v).
  { unfold buf. rewrite <- !app_assoc. skip_fields.
    rewrite (u32_id (u32 _)) by apply u32_range. apply u32_id. lia. }
  rewrite Hl, Z.eqb_refl. cbn [negb].
  replace (8 + Z.to_nat (Zlen v))%nat with (length buf) by (unfold Zlen; lia).
  rewrite drop_app_length, take_app_length, get_put_u32.
  rewrite u32_id by apply Crc32.compute_range. rewrite !Z.eqb_refl. cbn [negb orb].
  f_equal. unfold buf. rewrite <- !app_assoc. skip_fields.
  unfold Zlen. by rewrite Nat2Z.id, take_app_length.
Qed.

Lemma vlog_deref_sound image ptr v :
  value_off ptr + vlen ptr + 4 < 2 ^ 64 -> 0 <= vlen ptr ->
  vlog_deref image ptr = Some v ->
  exists pre post,
    image = pre ++ (encode_vlog_record v (Zlen pre) (gen ptr)).1 ++ post /\
    Zlen v = vlen ptr /\ Zlen pre + 8 = value_off ptr /\
    Crc32.compute (put_u32 kVlogMagic ++ put_u32 (Zlen v) ++ v) = crc ptr.
Proof.
  intros Hov Hnn. unfold vlog_deref, kVlogRecordHeaderBytes, kVlogCrcBytes.
  destruct (value_off ptr <? Z.of_nat 8) eqn:E1; [done|].
  rewrite u64_id by lia. destruct (Zlen image <? _) eqn:E2; [done|].
  set (n := Z.to_nat (value_off ptr - Z.of_nat 8)). set (p := drop n image).
  destruct (get_u32 p =? kVlogMagic) eqn:E3; [|done]. cbn [negb].
  destruct (get_u32 (drop 4 p) =? vlen ptr) eqn:E4; [|done]. cbn [negb].
  set (l := Z.to_nat (vlen ptr)).
  destruct (get_u32 (drop (8 + l) p) =? Crc32.compute (take (8 + l) p)) eqn:E5; [|done].
  destruct (get_u32 (drop (8 + l) p) =? crc ptr) eqn:E6; [|done].
  cbn [negb orb]. intros [= <-].
  assert (Hp : (8 + l + 4 <= length p)%nat).
  { unfold p. rewrite length_drop. unfold Zlen in E2. lia. }
  apply Z.eqb_eq in E3, E4, E5, E6.
  assert (Hlen : length (take l (drop 8 p)) = l)
    by (rewrite length_take, length_drop; lia).
  assert (Hz : Zlen (take l (drop 8 p)) = vlen ptr) by (unfold Zlen; lia).
  assert (Hbuf : put_u32 kVlogMagic ++ put_u32 (vlen ptr) ++ take l (drop 8 p) = take (8 + l) p).
  { rewrite <- E3, <- E4, !put_get_u32 by (rewrite ?length_drop; lia).
    change (8 + l)%nat with (4 + (4 + l))%nat.
    by rewrite !take_add_split, drop_drop. }
  exists (take n image), (drop (8 + l + 4) p). split_and!.
  - unfold encode_vlog_record. cbn [fst]. rewrite Hz, u32_id, Hbuf by
      (rewrite <- E4; apply get_u32_range).
    rewrite <- E5, put_get_u32 by (rewrite length_drop; lia).
    rewrite <- take_add_split, take_drop. unfold p. by rewrite take_drop.
  - done.
  - unfold Zlen. rewrite length_take. unfold n. unfold Zlen in E2. lia.
  - by rewrite Hz, Hbuf, <- E5, E6.
Qed.

(** Storing a value and dereferencing its pointer gives the value back,
    wherever the record lies in the log, and the pointer survives its 24-byte
    encoding. *)
Theorem vlog_roundtrip pre v post g :
  Zlen v < 2 ^ 32 -> Zlen pre + Zlen v + 12 < 2 ^ 64 -> 0 <= g < 2 ^ 64 ->
  let '(rec, ptr) := encode_vlog_record v (Zlen pre) g in
  vlog_deref (pre ++ rec ++ post) ptr = Some v /\
  vlogptr_decode (vlogptr_encode ptr) = Some ptr.
Proof.
  intros H1 H2 H3. destruct (encode_vlog_record v (Zlen pre) g) as [rec ptr] eqn:E. split.
  - pose proof (vlog_deref_encode pre v post (Zlen pre) g) as H.
    rewrite E in H. by apply H.
  - apply vlogptr_decode_encode. pose proof (vlog_ptr_wf v (Zlen pre) g) as H.
    rewrite E in H. by apply H.
Qed.

Lemma vlog_roundtrip_witness :
  let '(rec, ptr) := encode_vlog_record [Byte.x61; Byte.x62] (Zlen [Byte.x00]) 7 in
  vlog_deref ([Byte.x00] ++ rec ++ [Byte.x01]) ptr = Some [Byte.x61; Byte.x62] /\
  vlogptr_decode (vlogptr_encode ptr) = Some ptr.
Proof. apply (vlog_roundtrip [Byte.x00] [Byte.x61; Byte.x62] [Byte.x01] 7); vm_compute; done. Defined.

(** A dereference never fabricates: when it yields a value, the image
    holds, at the offset the pointer names, exactly the record an append of
    that value writes, and the record's checksum is the pointer's. *)
Theorem vlog_deref_exact image ptr v :
  value_off ptr + vlen ptr + 4 < 2 ^ 64 -> 0 <= vlen ptr ->
  vlog_deref image ptr = Some v ->
  exists pre post,
    image = pre ++ (encode_vlog_record v (Zlen pre) (gen ptr)).1 ++ post /\
    Zlen v = vlen ptr /\ Zlen pre + 8 = value_off ptr /\
    Crc32.compute (put_u32 kVlogMagic ++ put_u32 (Zlen v) ++ v) = crc ptr.
Proof. apply vlog_deref_sound. Qed.

Lemma vlog_deref_exact_witness :
  let img := (encode_vlog_record [Byte.x61] 0 7).1 in
  let ptr := (encode_vlog_record [Byte.x61] 0 7).2 in
  exists pre post,
    img = pre ++ (encode_vlog_record [Byte.x61] (Zlen pre) (gen ptr)).1 ++ post /\
    Zlen [Byte.x61] = vlen ptr /\ Zlen pre + 8 = value_off ptr /\
    Crc32.compute (put_u32 kVlogMagic ++ put_u32 (Zlen [Byte.x61]) ++ [Byte.x61]) = crc ptr.
Proof.
  apply (vlog_deref_exact (encode_vlog_record [Byte.x61] 0 7).1
           (encode_vlog_record [Byte.x61] 0 7).2 [Byte.x61]); vm_compute; done.
Defined.
