(* ===== verification/WalRecord.v ===== *)
(** WalRecord: the write-ahead log's record format and its decoder
    (storage/WalEngine.hpp, [WalRecord], [encode_record], [try_decode]).

    The decoder is the single integrity gate of recovery.  [try_decode_iff]
    says it accepts exactly the encoder's output: a record decodes if and only
    if the bytes at that point are the encoding of that record.  The rest of
    the file draws the consequences for whole logs: truncation at any byte and
    corruption of a window of bytes leave the longest intact prefix. *)

From Stdlib Require Import ZArith Lia.
From stdpp Require Import base list numbers.
From S2P Require Import Prelude Codec Mvcc.

Record WalRecord := mkWalRecord {
  r_seq : Z;
  r_key : Key;
  r_value : Value;
  r_tombstone : bool;
  r_vlog : bool
}.

Definition kWalMagic : Z := 0x4C57414C.
Definition kWalStreamMagic : Z := 0x4C57534D.
Definition kWalHeaderBytes : nat := 21.
Definition kWalCrcBytes : nat := 4.

Definition record_type (r : WalRecord) : Z :=
  if r_tombstone r then 1 else if r_vlog r then 2 else 0.

(** The bytes the trailing CRC covers. *)
Definition record_payload (r : WalRecord) : list byte :=
  put_u32 kWalMagic ++ [bZ (record_type r)] ++ put_u64 (r_seq r) ++
  put_u32 (u32 (Zlen (r_key r))) ++ put_u32 (u32 (Zlen (r_value r))) ++
  r_key r ++ r_value r.

Definition encode_record (r : WalRecord) : list byte :=
  let buf := record_payload r in
  buf ++ put_u32 (Crc32.compute buf).

(** [None] is [ok=false]; otherwise the record and the bytes consumed. *)
Definition try_decode (image : list byte) (pos : nat) : option (WalRecord * nat) :=
  let avail := Z.of_nat (length image) - Z.of_nat pos in
  if avail <? Z.of_nat (kWalHeaderBytes + kWalCrcBytes) then None
  else
    let p := drop pos image in
    if negb (get_u32 p =? kWalMagic) then None
    else
      let type := byte_at p 4 in
      if 2 <? type then None
      else
        let seq := get_u64 (drop 5 p) in
        let klen := get_u32 (drop 13 p) in
        let vlen := get_u32 (drop 17 p) in
        let body := u64 (klen + vlen) in
        let total := u64 (Z.of_nat kWalHeaderBytes + body + Z.of_nat kWalCrcBytes) in
        if avail <? total then None
        else
          let record_bytes := (kWalHeaderBytes + Z.to_nat body)%nat in
          let want := get_u32 (drop record_bytes p) in
          let got := Crc32.compute (take record_bytes p) in
          if negb (want =? got) then None
          else
            Some (mkWalRecord seq
                    (take (Z.to_nat klen) (drop kWalHeaderBytes p))
                    (take (Z.to_nat vlen) (drop (kWalHeaderBytes + Z.to_nat klen) p))
                    (type =? 1) (type =? 2),
                  Z.to_nat total).

(** ** Exactness *)

(** A record the fixed-width fields can hold; a tombstone is not a pointer. *)
Record record_wf (r : WalRecord) : Prop := {
  wf_seq : 0 <= r_seq r < 2 ^ 64;
  wf_key : Zlen (r_key r) < 2 ^ 32;
  wf_value : Zlen (r_value r) < 2 ^ 32;
  wf_flags : r_tombstone r = true -> r_vlog r = false
}.

Lemma length_record_payload r :
  length (record_payload r) = (21 + length (r_key r) + length (r_value r))%nat.
Proof. unfold record_payload. rewrite !length_app. cbn. lia. Qed.

Lemma length_encode_record r :
  length (encode_record r) = (25 + length (r_key r) + length (r_value r))%nat.
Proof. unfold encode_record. rewrite length_app, length_record_payload. cbn. lia. Qed.

Lemma record_type_range r : 0 <= record_type r <= 2.
Proof. unfold record_type. destruct (r_tombstone r), (r_vlog r); lia. Qed.

(** *** The header fields of an encoded record *)
Section fields.
Context (r : WalRecord) (tail : list byte) (Hwf : record_wf r).

Lemma payload_split :
  record_payload r ++ tail =
  put_u32 kWalMagic ++ [bZ (record_type r)] ++ put_u64 (r_seq r) ++
  put_u32 (u32 (Zlen (r_key r))) ++ put_u32 (u32 (Zlen (r_value r))) ++
  r_key r ++ r_value r ++ tail.
Proof. unfold record_payload. by rewrite <- !app_assoc. Qed.

Lemma payload_magic : get_u32 (record_payload r ++ tail) = kWalMagic.
Proof. rewrite payload_split, get_put_u32. apply u32_id. unfold kWalMagic. lia. Qed.

Lemma payload_type : byte_at (record_payload r ++ tail) 4 = record_type r.
Proof.
  rewrite payload_split. pose proof (record_type_range r).
  change (byte_at _ 4) with (Zb (bZ (record_type r))).
  rewrite Zb_bZ. apply Z.mod_small. lia.
Qed.

Lemma payload_seq : get_u64 (drop 5 (record_payload r ++ tail)) = r_seq r.
Proof. rewrite payload_split. skip_fields. apply u64_id, Hwf. Qed.

Lemma payload_klen : get_u32 (drop 13 (record_payload r ++ tail)) = Zlen (r_key r).
Proof.
  rewrite payload_split. skip_fields. rewrite (u32_id (u32 _)) by apply u32_range.
  apply u32_id. split; [apply Zlen_nonneg|apply Hwf].
Qed.

Lemma payload_vlen : get_u32 (drop 17 (record_payload r ++ tail)) = Zlen (r_value r).
Proof.
  rewrite payload_split. skip_fields. rewrite (u32_id (u32 _)) by apply u32_range.
  apply u32_id. split; [apply Zlen_nonneg|apply Hwf].
Qed.

Lemma payload_body : drop 21 (record_payload r ++ tail) = r_key r ++ r_value r ++ tail.
Proof. rewrite payload_split. skip_fields. done. Qed.
End fields.

Lemma record_type_flags r :
  record_wf r ->
  mkWalRecord (r_seq r) (r_key r) (r_value r) (record_type r =? 1) (record_type r =? 2) = r.
Proof.
  intros [_ _ _ Hf]. destruct r as [s k v t g]; cbn in *. unfold record_type. cbn.
  destruct t, g; try done. by specialize (Hf eq_refl).
Qed.

Lemma try_decode_encode pre r post :
  record_wf r ->
  try_decode (pre ++ encode_record r ++ post) (length pre) =
  Some (r, length (encode_record r)).
Proof.
  intros Hwf. pose proof (record_type_range r) as Ht.
  pose proof (Zlen_nonneg (r_key r)). pose proof (Zlen_nonneg (r_value r)).
  pose proof (wf_key r Hwf). pose proof (wf_value r Hwf).
  unfold try_decode. rewrite drop_app_length.
  rewrite !length_app, length_encode_record.
  unfold kWalHeaderBytes, kWalCrcBytes.
  destruct (_ <? Z.of_nat (21 + 4)) eqn:E1; [lia|].
  unfold encode_record. rewrite <- app_assoc.
  set (tail := put_u32 (Crc32.compute (record_payload r)) ++ post).
  rewrite payload_magic, payload_type, payload_seq, payload_klen, payload_vlen by done.
  rewrite Z.eqb_refl. cbn [negb].
  destruct (2 <? record_type r) eqn:E2; [lia|].
  rewrite (u64_id (Zlen (r_key r) + Zlen (r_value r))) by lia. rewrite u64_id by lia.
  destruct (_ <? Z.of_nat 21 + _ + _) eqn:E3; [unfold Zlen in *; lia|].
  replace (21 + Z.to_nat (Zlen (r_key r) + Zlen (r_value r)))%nat
    with (length (record_payload r)) by (rewrite length_record_payload; unfold Zlen; lia).
  rewrite drop_app_length, take_app_length. unfold tail at 1. rewrite get_put_u32.
  rewrite u32_id by apply Crc32.compute_range. rewrite Z.eqb_refl. cbn [negb].
  rewrite <- drop_drop, payload_body.
  replace (Z.to_nat (Zlen (r_key r))) with (length (r_key r)) by (unfold Zlen; lia).
  replace (Z.to_nat (Zlen (r_value r))) with (length (r_value r)) by (unfold Zlen; lia).
  rewrite drop_app_length, !take_app_length, record_type_flags by done.
  do 2 f_equal. unfold Zlen. lia.
Qed.

Lemma take_one_byte_at p i :
  (i < length p)%nat -> take 1 (drop i p) = [bZ (byte_at p i)].
Proof.
  revert i; induction p as [|x p IH]; intros [|i] H; cbn in H; try lia.
  - cbn. rewrite take_0. unfold byte_at. cbn. by rewrite bZ_Zb.
  - cbn [drop]. rewrite IH by lia. done.
Qed.

(** The record read from the fields of a buffer has the buffer's bytes as its
    payload. *)
Lemma fields_payload p kl vl :
  get_u32 p = kWalMagic -> byte_at p 4 <= 2 ->
  kl = get_u32 (drop 13 p) -> vl = get_u32 (drop 17 p) -> 21 + kl + vl <= Z.of_nat (length p) ->
  record_payload (mkWalRecord (get_u64 (drop 5 p)) (take (Z.to_nat kl) (drop 21 p))
    (take (Z.to_nat vl) (drop (21 + Z.to_nat kl) p)) (byte_at p 4 =? 1) (byte_at p 4 =? 2)) =
  take (21 + Z.to_nat (kl + vl)) p.
Proof.
  intros Hm Hb -> -> Hl.
  pose proof (get_u32_range (drop 13 p)) as Hk. pose proof (get_u32_range (drop 17 p)) as Hv.
  set (kl := get_u32 (drop 13 p)) in *. set (vl := get_u32 (drop 17 p)) in *.
  set (key := take (Z.to_nat kl) (drop 21 p)).
  set (val := take (Z.to_nat vl) (drop (21 + Z.to_nat kl) p)).
  assert (Hlk : Zlen key = kl) by (unfold Zlen, key; rewrite length_take, length_drop; lia).
  assert (Hlv : Zlen val = vl) by (unfold Zlen, val; rewrite length_take, length_drop; lia).
  assert (Hty : record_type (mkWalRecord (get_u64 (drop 5 p)) key val
                  (byte_at p 4 =? 1) (byte_at p 4 =? 2)) = byte_at p 4).
  { pose proof (byte_at_range p 4). unfold record_type. cbn [r_tombstone r_vlog].
    destruct (byte_at p 4 =? 1) eqn:?, (byte_at p 4 =? 2) eqn:?; lia. }
  unfold record_payload. rewrite Hty. cbn [r_seq r_key r_value].
  rewrite Hlk, Hlv, !u32_id by done. unfold kl at 1, vl at 1.
  rewrite <- Hm, !put_get_u32, put_get_u64 by (rewrite ?length_drop; lia).
  rewrite <- take_one_byte_at by lia. unfold key, val.
  replace (21 + Z.to_nat (kl + vl))%nat
    with (4 + (1 + (8 + (4 + (4 + (Z.to_nat kl + Z.to_nat vl))))))%nat by lia.
  by rewrite !take_add_split, !drop_drop.
Qed.

Lemma try_decode_sound image pos r n :
  try_decode image pos = Some (r, n) ->
  record_wf r /\ n = length (encode_record r) /\ take n (drop pos image) = encode_record r.
Proof.
  unfold try_decode, kWalHeaderBytes, kWalCrcBytes.
  destruct (_ <? Z.of_nat (21 + 4)) eqn:E1; [done|].
  set (p := drop pos image).
  destruct (get_u32 p =? kWalMagic) eqn:E2; [|done]. cbn [negb].
  destruct (2 <? byte_at p 4) eqn:E3; [done|].
  pose proof (get_u32_range (drop 13 p)) as Hk. pose proof (get_u32_range (drop 17 p)) as Hv.
  set (kl := get_u32 (drop 13 p)) in *. set (vl := get_u32 (drop 17 p)) in *.
  rewrite (u64_id (kl + vl)) by lia. rewrite u64_id by lia.
  destruct (_ <? Z.of_nat 21 + _ + _) eqn:E4; [done|].
  set (rb := (21 + Z.to_nat (kl + vl))%nat).
  destruct (get_u32 (drop rb p) =? Crc32.compute (take rb p)) eqn:E5; [|done]. cbn [negb].
  assert (Hp : Zlen p = Z.of_nat (length image) - Z.of_nat pos)
    by (unfold p, Zlen; rewrite length_drop; lia).
  rewrite <- Hp in *. unfold Zlen in Hp, E1, E4. clear Hp.
  apply Z.eqb_eq in E2, E5.
  set (key := take (Z.to_nat kl) (drop 21 p)).
  set (val := take (Z.to_nat vl) (drop (21 + Z.to_nat kl) p)).
  intros Heq. apply (inj Some) in Heq. apply pair_equal_spec in Heq as [<- <-].
  assert (Hlk : Zlen key = kl)
    by (unfold Zlen, key; rewrite length_take, length_drop; lia).
  assert (Hlv : Zlen val = vl)
    by (unfold Zlen, val; rewrite length_take, length_drop; lia).
  assert (Hpay : record_payload (mkWalRecord (get_u64 (drop 5 p)) key val
                  (byte_at p 4 =? 1) (byte_at p 4 =? 2)) = take rb p)
    by (apply fields_payload; done || lia).
  assert (Hn : Z.to_nat (Z.of_nat 21 + (kl + vl) + Z.of_nat 4) = (rb + 4)%nat) by lia.
  split_and!.
  - split; cbn [r_seq r_key r_value r_tombstone r_vlog].
    + apply get_u64_range.
    + change (Zlen key < 2 ^ 32). lia.
    + change (Zlen val < 2 ^ 32). lia.
    + intros Ht%Z.eqb_eq. by rewrite Ht.
  - unfold encode_record. rewrite Hpay, length_app, length_take, length_put_u32. lia.
  - unfold encode_record. rewrite Hpay, Hn, take_add_split, <- E5.
    by rewrite put_get_u32 by (rewrite length_drop; lia).
Qed.

Lemma try_decode_short image pos r n :
  try_decode image pos = Some (r, n) -> (25 <= n)%nat /\ (pos + n <= length image)%nat.
Proof.
  intros H. apply try_decode_sound in H as (Hwf & Hn & Ht).
  rewrite length_encode_record in Hn. apply (f_equal length) in Ht.
  rewrite length_take, length_drop, length_encode_record in Ht. lia.
Qed.

(** A record cut short does not decode. *)
Lemma try_decode_truncated pre r k :
  (k < length (encode_record r))%nat ->
  record_wf r -> try_decode (pre ++ take k (encode_record r)) (length pre) = None.
Proof.
  intros Hk Hwf. destruct (try_decode _ _) as [[r' n]|] eqn:E; [|done]. exfalso.
  pose proof (try_decode_short _ _ _ _ E) as [_ Hlen].
  apply try_decode_sound in E as (Hwf' & Hn & Ht).
  rewrite drop_app_length in Ht. rewrite length_app, length_take in Hlen.
  assert (Hpre : encode_record r = encode_record r' ++ drop n (encode_record r)).
  { rewrite <- Ht, take_take. rewrite Nat.min_l by lia. by rewrite take_drop. }
  pose proof (try_decode_encode [] r [] Hwf) as H1.
  pose proof (try_decode_encode [] r' (drop n (encode_record r)) Hwf') as H2.
  cbn [app length] in H1, H2. rewrite app_nil_r in H1. rewrite <- Hpre in H2.
  assert (length (encode_record r) = length (encode_record r')) by congruence. lia.
Qed.

(** ** Whole logs *)

Definition encode_log (rs : list WalRecord) : list byte := concat (map encode_record rs).

(** Decoding front to back until the first record that fails: the records
    with their offsets. *)
Fixpoint decode_run (fuel : nat) (image : list byte) (pos : nat) : list (WalRecord * nat) :=
  match fuel with
  | O => []
  | S fuel' =>
      if (pos <? length image)%nat then
        match try_decode image pos with
        | Some (r, n) => (r, pos) :: decode_run fuel' image (pos + n)
        | None => []
        end
      else []
  end.

Definition decoded (image : list byte) (pos : nat) : list WalRecord :=
  map fst (decode_run (length image) image pos).

(** The records that lie wholly within the first [k] bytes of a log. *)
Fixpoint whole (k : nat) (rs : list WalRecord) : list WalRecord :=
  match rs with
  | [] => []
  | r :: rs' =>
      if (length (encode_record r) <=? k)%nat
      then r :: whole (k - length (encode_record r)) rs' else []
  end.

Lemma encode_log_app rs rs' : encode_log (rs ++ rs') = encode_log rs ++ encode_log rs'.
Proof. unfold encode_log. by rewrite map_app, concat_app. Qed.

Lemma encode_log_length rs : (25 * length rs <= length (encode_log rs))%nat.
Proof.
  induction rs as [|r rs IH]; [done|].
  change (encode_log (r :: rs)) with (encode_record r ++ encode_log rs).
  rewrite length_app, length_encode_record. cbn [length]. lia.
Qed.

(** A run of intact records followed by bytes that do not decode. *)
Lemma decode_run_log fuel pre rs bad :
  Forall record_wf rs ->
  (bad = [] \/ try_decode (pre ++ encode_log rs ++ bad) (length pre + length (encode_log rs)) = None) ->
  (length rs < fuel)%nat ->
  map fst (decode_run fuel (pre ++ encode_log rs ++ bad) (length pre)) = rs.
Proof.
  revert pre fuel; induction rs as [|r rs IH]; intros pre fuel Hwf Hbad Hf;
    destruct fuel as [|fuel]; try (cbn in Hf; lia); cbn [decode_run].
  - cbn [encode_log map concat app] in *. change (length (encode_log [])) with 0%nat in Hbad.
    rewrite Nat.add_0_r in Hbad. destruct Hbad as [->| ->].
    + rewrite app_nil_r, Nat.ltb_irrefl. done.
    + by destruct (_ <? _)%nat.
  - inversion Hwf as [|? ? Hr Hrs]; subst.
    change (encode_log (r :: rs)) with (encode_record r ++ encode_log rs) in *.
    rewrite <- app_assoc in *.
    rewrite try_decode_encode by done.
    pose proof (length_encode_record r).
    destruct (length pre <? _)%nat eqn:E; [|rewrite !length_app in E; lia].
    cbn [map fst]. f_equal.
    replace (length pre + length (encode_record r))%nat
      with (length (pre ++ encode_record r)) by (rewrite length_app; lia).
    rewrite app_assoc. apply IH; [done| |cbn in Hf; lia].
    rewrite <- app_assoc. rewrite !length_app in *. by rewrite <- Nat.add_assoc.
Qed.

Lemma take_encode_log k rs :
  take k (encode_log rs) = encode_log rs \/
  exists r j, (j < length (encode_record r))%nat /\
    whole k rs ++ [r] `prefix_of` rs /\
    take k (encode_log rs) = encode_log (whole k rs) ++ take j (encode_record r).
Proof.
  revert k; induction rs as [|r rs IH]; intros k.
  - left. apply take_nil.
  - change (encode_log (r :: rs)) with (encode_record r ++ encode_log rs). cbn [whole].
    destruct (_ <=? k)%nat eqn:E.
    + destruct (IH (k - length (encode_record r))%nat) as [Heq|(r' & j & Hj & Hp & Heq)].
      * left. rewrite take_app_ge by lia. by rewrite Heq.
      * right. exists r', j. split_and!; [done|cbn; by apply prefix_cons|].
        rewrite take_app_ge by lia. rewrite Heq.
        change (encode_log (r :: ?l)) with (encode_record r ++ encode_log l).
        by rewrite app_assoc.
    + right. exists r, k. split_and!; [lia|cbn; apply prefix_cons, prefix_nil|].
      change (encode_log []) with (@nil byte). by rewrite take_app_le by lia.
Qed.

Lemma whole_all k rs : (length (encode_log rs) <= k)%nat -> whole k rs = rs.
Proof.
  revert k; induction rs as [|r rs IH]; intros k H; cbn [whole]; [done|].
  change (encode_log (r :: rs)) with (encode_record r ++ encode_log rs) in H.
  rewrite length_app in H. destruct (_ <=? k)%nat eqn:E; [|lia]. f_equal. apply IH. lia.
Qed.

Lemma whole_prefix k rs : whole k rs `prefix_of` rs.
Proof.
  revert k; induction rs as [|r rs IH]; intros k; cbn [whole]; [done|].
  destruct (_ <=? k)%nat; [by apply prefix_cons|apply prefix_nil].
Qed.

Lemma prefix_Forall {A} (P : A -> Prop) l l' : l `prefix_of` l' -> Forall P l' -> Forall P l.
Proof. intros [m ->]. rewrite Forall_app. tauto. Qed.

(** Decoding a log cut at an arbitrary byte. *)
Lemma decode_truncated fuel pre rs k :
  Forall record_wf rs -> (length (whole k rs) < fuel)%nat ->
  map fst (decode_run fuel (pre ++ take k (encode_log rs)) (length pre)) = whole k rs.
Proof.
  intros Hwf Hf.
  destruct (take_encode_log k rs) as [Heq|(r & j & Hj & Hp & Heq)].
  - rewrite Heq. assert (Hw : whole k rs = rs).
    { apply whole_all. apply (f_equal length) in Heq. rewrite length_take in Heq. lia. }
    rewrite Hw in *. rewrite <- (app_nil_r (encode_log rs)).
    apply decode_run_log; auto.
  - rewrite Heq. pose proof (prefix_Forall _ _ _ Hp Hwf) as Hwf'.
    apply Forall_app in Hwf' as [Hwf1 Hwf2]. inversion_clear Hwf2.
    apply decode_run_log; [done| |done]. right.
    rewrite app_assoc, <- length_app. by apply try_decode_truncated.
Qed.

(** Damage inside one window of at most four bytes of a record, the length
    fields (bytes 13 to 20) apart. *)
Record damaged (r : WalRecord) (c : list byte) : Prop := {
  dmg_pre : list byte;
  dmg_old : list byte;
  dmg_new : list byte;
  dmg_post : list byte;
  dmg_record : encode_record r = dmg_pre ++ dmg_old ++ dmg_post;
  dmg_image : c = dmg_pre ++ dmg_new ++ dmg_post;
  dmg_len : length dmg_old = length dmg_new;
  dmg_window : (length dmg_old <= 4)%nat;
  dmg_neq : dmg_old <> dmg_new;
  dmg_lengths : (length dmg_pre + length dmg_old <= 13 \/ 21 <= length dmg_pre)%nat
}.

Lemma drop_window (p w v q : list byte) n m :
  length w = length v -> (length p + length w <= n \/ n + m <= length p)%nat ->
  take m (drop n (p ++ w ++ q)) = take m (drop n (p ++ v ++ q)).
Proof.
  intros Hl [H|H].
  - rewrite !app_assoc, !drop_app_ge by (rewrite length_app; lia).
    by rewrite !length_app, Hl.
  - rewrite !drop_app_le by lia. rewrite !take_app_le by (rewrite length_drop; lia). done.
Qed.

Lemma get_u32_take p : get_u32 p = get_u32 (take 4 p).
Proof.
  do 4 (destruct p as [|? p]; [done|]). done.
Qed.

Lemma damaged_not_decoded pre r c post :
  record_wf r -> damaged r c -> try_decode (pre ++ c ++ post) (length pre) = None.
Proof.
  intros Hwf [p w v q Er Ec Hl Hw Hne Hlf].
  destruct (try_decode _ _) as [[r' n]|] eqn:E; [|done]. exfalso.
  pose proof (try_decode_short _ _ _ _ E) as [_ Hlen].
  apply try_decode_sound in E as (Hwf' & Hn & Ht). rewrite drop_app_length in Ht.
  assert (Hcl : length c = length (encode_record r))
    by (rewrite Er, Ec, !length_app; lia).
  (* the length fields of the two records agree *)
  assert (Hfield : forall i, (i = 13 \/ i = 17)%nat ->
    get_u32 (drop i (encode_record r' ++ drop n (c ++ post))) =
    get_u32 (drop i (encode_record r ++ post))).
  { intros i Hi. rewrite <- Ht, take_drop, Er, Ec, <- !app_assoc.
    rewrite get_u32_take, (get_u32_take (drop i (p ++ w ++ _))). f_equal.
    symmetry. apply drop_window; [done|]. lia. }
  assert (Hk : Zlen (r_key r') = Zlen (r_key r)).
  { specialize (Hfield 13%nat (or_introl eq_refl)). unfold encode_record in Hfield.
    by rewrite <- !app_assoc, !payload_klen in Hfield. }
  assert (Hv : Zlen (r_value r') = Zlen (r_value r)).
  { specialize (Hfield 17%nat (or_intror eq_refl)). unfold encode_record in Hfield.
    by rewrite <- !app_assoc, !payload_vlen in Hfield. }
  assert (Hnl : n = length c).
  { rewrite Hn, Hcl, !length_encode_record. unfold Zlen in Hk, Hv. lia. }
  rewrite Hnl, take_app_length in Ht.
  apply (Crc32.framed_window (record_payload r) (record_payload r') p w v q); try done.
  by rewrite <- Ec, Ht.
Qed.

Lemma decode_damaged fuel pre rs r c post :
  Forall record_wf rs -> record_wf r -> damaged r c -> (length rs < fuel)%nat ->
  map fst (decode_run fuel (pre ++ encode_log rs ++ c ++ post) (length pre)) = rs.
Proof.
  intros Hrs Hr Hd Hf. apply decode_run_log; [done| |done]. right.
  rewrite app_assoc, <- length_app. by apply (damaged_not_decoded _ r).
Qed.

(** The decoder accepts exactly what the encoder writes: it returns a
    record and a length if and only if the record is well formed and its
    encoding, of that length, lies at that offset. *)
Theorem wal_decode_exact image pos r n :
  try_decode image pos = Some (r, n) <->
  record_wf r /\ n = length (encode_record r) /\ encode_record r `prefix_of` drop pos image.
Proof.
  split.
  - intros H. apply try_decode_sound in H as (Hwf & Hn & Ht). split_and!; [done..|].
    rewrite <- Ht. apply prefix_take.
  - intros (Hwf & -> & [post Hpost]).
    assert (Hp : (pos <= length image)%nat).
    { apply (f_equal length) in Hpost.
      rewrite length_drop, length_app, length_encode_record in Hpost. lia. }
    rewrite <- (take_drop pos image), Hpost.
    replace pos with (length (take pos image)) at 2 by (rewrite length_take; lia).
    by apply try_decode_encode.
Qed.

(** Cutting a log at any byte loses only the records the cut reaches:
    decoding what is left yields exactly the records that lie wholly before
    the cut. *)
Theorem wal_truncation_prefix rs k :
  Forall record_wf rs ->
  decoded (take k (encode_log rs)) 0 = whole k rs /\ whole k rs `prefix_of` rs.
Proof.
  intros Hwf. split; [|apply whole_prefix]. unfold decoded.
  set (fuel := length (take k (encode_log rs))).
  destruct (decide (whole k rs = [])) as [He|He].
  - rewrite He. destruct (decide (fuel = 0%nat)) as [Hz|Hz]; [by rewrite Hz|].
    rewrite <- He. apply (decode_truncated fuel [] rs k Hwf). rewrite He. cbn. lia.
  - apply (decode_truncated fuel [] rs k Hwf).
    assert (Hl : (25 * length (whole k rs) <= fuel)%nat).
    { destruct (take_encode_log k rs) as [Heq|(r & j & Hj & Hp & Heq)].
      - unfold fuel. rewrite Heq. rewrite whole_all; [apply encode_log_length|].
        apply (f_equal length) in Heq. rewrite length_take in Heq. lia.
      - unfold fuel. rewrite Heq, length_app.
        pose proof (encode_log_length (whole k rs)). lia. }
    destruct (whole k rs); [done|]. cbn [length] in *. lia.
Qed.

Definition demo_record (s : Z) : WalRecord :=
  mkWalRecord s [Byte.x6b] [Byte.x76; Byte.x31] false false.

Lemma wal_truncation_prefix_witness :
  decoded (take 40 (encode_log [demo_record 1; demo_record 2])) 0 = [demo_record 1].
Proof.
  assert (Hwf : Forall record_wf [demo_record 1; demo_record 2])
    by (repeat constructor; cbn; lia || done).
  exact (proj1 (wal_truncation_prefix [demo_record 1; demo_record 2] 40 Hwf)).
Defined.

(** When one record of a log is damaged inside any window of four bytes
    (outside its two length fields), decoding stops right before it: exactly
    the records in front of it are returned, whatever follows. *)
Theorem wal_corruption_stops rs r c post :
  Forall record_wf rs -> record_wf r -> damaged r c ->
  decoded (encode_log rs ++ c ++ post) 0 = rs.
Proof.
  intros Hrs Hr Hd. unfold decoded.
  apply (decode_damaged _ [] rs r c post); [done..|].
  pose proof (encode_log_length rs). destruct Hd as [p w v q Er Ec Hl Hw Hne _].
  pose proof (length_encode_record r) as Hlen. rewrite Er, !length_app in Hlen.
  rewrite !length_app, Ec, !length_app. lia.
Qed.

Definition damaged_record : list byte :=
  take 23 (encode_record (demo_record 2)) ++ [Byte.x58] ++ drop 24 (encode_record (demo_record 2)).

Lemma wal_corruption_stops_witness :
  decoded (encode_log [demo_record 1] ++ damaged_record ++ encode_log [demo_record 3]) 0
  = [demo_record 1].
Proof.
  apply (wal_corruption_stops [demo_record 1] (demo_record 2)).
  - repeat constructor; cbn; lia || done.
  - split; cbn; lia || done.
  - apply (Build_damaged _ _ (take 23 (encode_record (demo_record 2))) [Byte.x31] [Byte.x58]
             (drop 24 (encode_record (demo_record 2))));
      [vm_compute; reflexivity|vm_compute; reflexivity|reflexivity|cbn; lia|discriminate|right; vm_compute; lia].
Defined.
