(* ===== verification/Memtable.v ===== *)
(** Memtable: the in-memory version store (storage/WalEngine.hpp, [Memtable]).

    [map_] is the contents of the ordered map, in key order; each key has its
    versions in commit order.  A [Hit] with [covered=false] is [None]. *)

From Stdlib Require Import ZArith Lia Sorting.Sorted.
From stdpp Require Import base list numbers.
From S2P Require Import Prelude Mvcc.

Module Memtable.

Record Version := mkVersion { seq : Z; value : Value; tombstone : bool; vlog : bool }.

Record t := mk {
  map_ : list (Key * list Version);
  total_versions_ : nat;
  flushable_versions_ : nat;
  resident_ : byte -> bool;
  any_resident_ : bool
}.

Definition empty : t := mk [] 0 0 (fun _ => false) false.

Definition is_resident (key : Key) (m : t) : bool :=
  any_resident_ m && match key with [] => false | b :: _ => resident_ m b end.

Definition set_resident_byte (b : byte) (m : t) : t :=
  mk (map_ m) (total_versions_ m) (flushable_versions_ m)
     (fun c => if Byte.eqb c b then true else resident_ m c) true.

(** [map_.empty() || map_.rbegin()->first < key]: the key sorts after
    everything present. *)
Definition sorts_last (key : Key) (m : list (Key * list Version)) : bool :=
  match list.last m with
  | None => true
  | Some (k, _) => key_ltb k key
  end.

Definition insert (key : Key) (s : Z) (v : Value) (tomb vl : bool) (m : t) : t :=
  let ver := mkVersion s v tomb vl in
  let map' := if sorts_last key (map_ m) then map_ m ++ [(key, [ver])]
              else map_push key ver (map_ m) in
  mk map' (S (total_versions_ m))
     (if negb (is_resident key m) then S (flushable_versions_ m) else flushable_versions_ m)
     (resident_ m) (any_resident_ m).

Fixpoint walk (at_ : Z) (newest : option Version) (vs : list Version) : option Version :=
  match vs with
  | [] => newest
  | v :: vs' => if seq v <=? at_ then walk at_ (Some v) vs' else newest
  end.

Definition hit_from (vs : list Version) (at_ : Z) : option Version := walk at_ None vs.

Definition lookup_hit (key : Key) (at_ : Z) (m : t) : option Version :=
  match assoc key (map_ m) with
  | None => None
  | Some vs => hit_from vs at_
  end.

Definition lookup (key : Key) (at_ : Z) (m : t) : option Value :=
  match lookup_hit key at_ m with
  | None => None
  | Some h => if tombstone h then None else Some (value h)
  end.

Definition clear (m : t) : t := mk [] 0 0 (resident_ m) (any_resident_ m).

(** The number of versions of the keys that satisfy a test. *)
Definition vcount (f : Key -> bool) (m : list (Key * list Version)) : nat :=
  list_sum (map (fun p => if f p.1 then length p.2 else 0%nat) m).

(** The erase loop's test. *)
Definition flushable_key (m : t) (key : Key) : bool :=
  match key with [] => true | b :: _ => negb (resident_ m b) end.

Definition erase_flushable (m : t) : t :=
  if negb (any_resident_ m) then clear m
  else
    mk (List.filter (fun p => negb (flushable_key m p.1)) (map_ m))
       (total_versions_ m - vcount (flushable_key m) (map_ m)) 0
       (resident_ m) (any_resident_ m).

Definition version_count (m : t) : nat := total_versions_ m.
Definition flushable_version_count (m : t) : nat := flushable_versions_ m.

(** ** Contents as versions *)

Definition entry_of (k : Key) (v : Version) : entry :=
  Entry k (value v) (seq v) (tombstone v) (vlog v).

Definition entries_of (p : Key * list Version) : list entry := map (entry_of p.1) p.2.

Definition entries (m : t) : list entry := concat (map entries_of (map_ m)).

Definition ascending (vs : list Version) : Prop := StronglySorted (fun a b => seq a < seq b) vs.

Record wf (m : t) : Prop := {
  wf_sorted : key_sorted (map_ m);
  wf_ascending : forall k vs, In (k, vs) (map_ m) -> ascending vs;
  wf_total : total_versions_ m = vcount (fun _ => true) (map_ m);
  wf_flushable : flushable_versions_ m = vcount (fun k => negb (is_resident k m)) (map_ m)
}.

Lemma map_push_last key v m :
  key_sorted m -> sorts_last key m = true -> map_push key v m = m ++ [(key, [v])].
Proof.
  induction m as [|[k vs] m IH]; intros Hs Hl; [done|]. cbn [map_push app].
  pose proof (key_sorted_cons_inv _ _ _ Hs) as [Hs' Hlt].
  assert (Hk : key_ltb k key = true).
  { unfold sorts_last in Hl. destruct m as [|p m]; [done|].
    destruct (list.last ((k, vs) :: p :: m)) as [[kl vl]|] eqn:El; [|by apply last_None in El].
    change (list.last ((k, vs) :: p :: m)) with (list.last (p :: m)) in El.
    apply last_Some in El as [m' El].
    assert (Hin : In (kl, vl) (p :: m)) by (rewrite El; apply in_or_app; right; by left).
    specialize (Hlt _ _ Hin). by eapply key_ltb_trans. }
  rewrite Hk. f_equal. apply IH; [done|]. unfold sorts_last in *. by destruct m.
Qed.

(** The append fast path is the ordinary insertion. *)
Lemma insert_map key s v tomb vl m :
  key_sorted (map_ m) ->
  map_ (insert key s v tomb vl m) = map_push key (mkVersion s v tomb vl) (map_ m).
Proof.
  intros Hs. unfold insert. cbn [map_].
  destruct (sorts_last key (map_ m)) eqn:E; [|done]. by rewrite map_push_last.
Qed.

Lemma vcount_cons f k vs m :
  vcount f ((k, vs) :: m) = ((if f k then length vs else 0) + vcount f m)%nat.
Proof. done. Qed.

Lemma vcount_push (f : Key -> bool) key v (m : list (Key * list Version)) :
  vcount f (map_push key v m) = (vcount f m + if f key then 1 else 0)%nat.
Proof.
  induction m as [|[k vs] m IH]; cbn [map_push].
  - rewrite vcount_cons. destruct (f key); cbn; lia.
  - destruct (key_ltb k key); [|destruct (key_eqb_spec k key) as [->|]];
      rewrite !vcount_cons, ?IH, ?length_app; cbn [length];
      destruct (f key); try destruct (f k); lia.
Qed.

Lemma ascending_snoc vs v :
  ascending vs -> (forall w, In w vs -> seq w < seq v) -> ascending (vs ++ [v]).
Proof.
  induction vs as [|w vs IH]; intros Ha Hlt; cbn.
  - repeat constructor.
  - apply StronglySorted_inv in Ha as [Ha Hf]. constructor.
    + apply IH; [done|]. intros; apply Hlt; by right.
    + rewrite List.Forall_forall in *. intros x Hx. apply in_app_or in Hx as [Hx|[<-|[]]].
      * by apply Hf.
      * apply Hlt. by left.
Qed.

Lemma insert_wf key s v tomb vl m :
  wf m ->
  (forall vs w, assoc key (map_ m) = Some vs -> In w vs -> seq w < s) ->
  wf (insert key s v tomb vl m).
Proof.
  intros [Hs Ha Ht Hf] Hnew. split.
  - rewrite insert_map by done. by apply map_push_sorted.
  - intros k vs Hin. rewrite insert_map in Hin by done.
    pose proof (map_push_sorted key (mkVersion s v tomb vl) _ Hs) as Hs'.
    apply assoc_sorted in Hin; [|done].
    pose proof (map_push_assoc key (mkVersion s v tomb vl) (map_ m) k Hs) as Hp.
    rewrite Hin in Hp. cbn in Hp. subst vs.
    destruct (assoc k (map_ m)) as [vs|] eqn:E; cbn.
    + assert (Hasc : ascending vs) by (eapply Ha, assoc_sorted; done).
      destruct (key_eqb_spec key k) as [->|]; [|by rewrite app_nil_r].
      apply ascending_snoc; [done|]. intros w Hw. by apply (Hnew vs).
    + destruct (key_eqb key k); repeat constructor.
  - rewrite insert_map by done. unfold insert. cbn [total_versions_].
    rewrite vcount_push, Ht. lia.
  - rewrite insert_map by done.
    change (fun k => negb (is_resident k (insert key s v tomb vl m)))
      with (fun k => negb (is_resident k m)).
    rewrite vcount_push, <- Hf. unfold insert. cbn [flushable_versions_].
    destruct (negb (is_resident key m)); lia.
Qed.

Lemma empty_wf : wf empty.
Proof. split; [constructor|done|done|done]. Qed.

(** ** Reading *)

Lemma walk_spec at_ vs acc :
  ascending vs -> (forall a w, acc = Some a -> In w vs -> seq a < seq w) ->
  match walk at_ acc vs with
  | Some v => (In v vs /\ seq v <= at_ \/ acc = Some v) /\
              (forall w, In w vs -> seq w <= at_ -> seq w <= seq v)
  | None => acc = None /\ (forall w, In w vs -> at_ < seq w)
  end.
Proof.
  revert acc; induction vs as [|v vs IH]; intros acc Ha Hacc; cbn [walk].
  - destruct acc; split; auto; done.
  - apply StronglySorted_inv in Ha as [Ha Hf]. rewrite List.Forall_forall in Hf.
    destruct (seq v <=? at_) eqn:E.
    + specialize (IH (Some v) Ha). destruct (walk at_ (Some v) vs) as [x|].
      * destruct IH as [[[H1 H1']|[= ->]] H2].
        -- intros a w [= <-]. apply Hf.
        -- split; [left; split; [by right|done]|].
           intros w [->|Hw] Hle; [|by apply H2]. specialize (Hf _ H1). lia.
        -- split; [left; split; [by left|lia]|].
           intros w [->|Hw] Hle; [lia|by apply H2].
      * destruct IH as [IH _]; [|done]. intros a w [= <-]. apply Hf.
    + destruct acc as [a|].
      * split; [by right|]. intros w [->|Hw] Hle; [lia|].
        specialize (Hf _ Hw). lia.
      * split; [done|]. intros w [->|Hw]; [lia|]. specialize (Hf _ Hw). lia.
Qed.

Lemma in_entries e m :
  In e (entries m) <->
  exists k vs v, In (k, vs) (map_ m) /\ In v vs /\ e = entry_of k v.
Proof.
  unfold entries. rewrite in_concat. split.
  - intros (l & Hl & He). apply in_map_iff in Hl as ([k vs] & <- & Hin).
    apply in_map_iff in He as (v & <- & Hv). eauto 10.
  - intros (k & vs & v & Hin & Hv & ->). exists (entries_of (k, vs)). split.
    + apply in_map_iff. eauto.
    + apply in_map_iff. eauto.
Qed.

Lemma ascending_inj vs v w : ascending vs -> In v vs -> In w vs -> seq v = seq w -> v = w.
Proof.
  intros Ha. induction vs as [|x vs IH]; [done|].
  apply StronglySorted_inv in Ha as [Ha Hf]. rewrite List.Forall_forall in Hf.
  intros [->|Hv] [->|Hw] E; [done| | |by apply IH].
  - specialize (Hf _ Hw). lia.
  - specialize (Hf _ Hv). lia.
Qed.

Lemma entries_consistent m : wf m -> consistent (entries m).
Proof.
  intros [Hs Ha _ _] e e' He He' Hk Hseq.
  apply in_entries in He as (k & vs & v & Hin & Hv & ->).
  apply in_entries in He' as (k' & vs' & v' & Hin' & Hv' & ->).
  cbn in Hk, Hseq. subst k'.
  apply assoc_sorted in Hin; [|done]. apply assoc_sorted in Hin'; [|done].
  simplify_eq. apply assoc_sorted in Hin; [|done].
  by rewrite (ascending_inj vs v v' (Ha _ _ Hin)).
Qed.

(** A lookup finds the newest covered version of the table's contents. *)
Lemma lookup_hit_newest k at_ m :
  wf m -> option_map (entry_of k) (lookup_hit k at_ m) = newest k at_ (entries m).
Proof.
  intros Hwf. pose proof (entries_consistent m Hwf) as Hc. destruct Hwf as [Hs Ha _ _].
  unfold lookup_hit, hit_from. destruct (assoc k (map_ m)) as [vs|] eqn:E.
  - apply assoc_sorted in E; [|done].
    pose proof (walk_spec at_ vs None (Ha _ _ E) ltac:(done)) as Hw.
    destruct (walk at_ None vs) as [v|]; cbn.
    + destruct Hw as [[[Hv Hle]|] Hmax]; [|done]. symmetry. apply newest_intro; [done|..].
      * apply in_entries. eauto 10.
      * apply matches_true. done.
      * intros x Hx Hm. apply in_entries in Hx as (k' & vs' & w & Hin & Hw & ->).
        apply matches_true in Hm as [Hk Hm]. cbn in *. subst k'.
        apply assoc_sorted in Hin; [|done]. apply assoc_sorted in E; [|done].
        simplify_eq. by apply Hmax.
    + destruct Hw as [_ Hw]. symmetry. apply newest_none. intros x Hx.
      destruct (matches k at_ x) eqn:Em; [|done]. exfalso.
      apply in_entries in Hx as (k' & vs' & w & Hin & Hw' & ->).
      apply matches_true in Em as [Hk Hm]. cbn in *. subst k'.
      apply assoc_sorted in Hin; [|done]. apply assoc_sorted in E; [|done].
      simplify_eq. specialize (Hw _ Hw'). lia.
  - cbn. symmetry. apply newest_none. intros x Hx.
    destruct (matches k at_ x) eqn:Em; [|done]. exfalso.
    apply in_entries in Hx as (k' & vs' & w & Hin & Hw' & ->).
    apply matches_true in Em as [Hk Hm]. cbn in *. subst k'.
    rewrite assoc_none in E. by apply (E vs').
Qed.

Lemma insert_entries key s v tomb vl m e :
  wf m ->
  In e (entries (insert key s v tomb vl m)) <->
  e = Entry key v s tomb vl \/ In e (entries m).
Proof.
  intros [Hs _ _ _]. rewrite !in_entries. rewrite insert_map by done.
  pose proof (map_push_sorted key (mkVersion s v tomb vl) _ Hs) as Hs'.
  assert (Hassoc : forall k, default [] (assoc k (map_push key (mkVersion s v tomb vl) (map_ m)))
    = default [] (assoc k (map_ m)) ++ (if key_eqb key k then [mkVersion s v tomb vl] else []))
    by (intros; by apply map_push_assoc).
  assert (Hin : forall (mm : list (Key * list Version)) k w, key_sorted mm ->
    (exists vs, In (k, vs) mm /\ In w vs) <-> In w (default [] (assoc k mm))).
  { intros mm k w Hmm. split.
    - intros (vs & H1 & H2). apply assoc_sorted in H1; [|done]. by rewrite H1.
    - intros H. destruct (assoc k mm) as [vs|] eqn:E; [|done].
      exists vs. split; [by apply assoc_sorted|done]. }
  split.
  - intros (k & vs & w & H1 & H2 & ->).
    assert (H : In w (default [] (assoc k (map_push key (mkVersion s v tomb vl) (map_ m)))))
      by (apply Hin; eauto).
    rewrite Hassoc in H. apply in_app_or in H as [H|H].
    + right. apply Hin in H as (vs' & H3 & H4); [|done]. eauto 10.
    + left. destruct (key_eqb_spec key k) as [->|]; [|done]. by destruct H as [<-|[]].
  - intros [->|(k & vs & w & H1 & H2 & ->)].
    + assert (H : In (mkVersion s v tomb vl)
        (default [] (assoc key (map_push key (mkVersion s v tomb vl) (map_ m)))))
        by (rewrite Hassoc, key_eqb_refl; apply in_or_app; right; by left).
      apply Hin in H as (vs & H3 & H4); [|done]. by exists key, vs, (mkVersion s v tomb vl).
    + assert (H : In w (default [] (assoc k (map_push key (mkVersion s v tomb vl) (map_ m))))).
      { rewrite Hassoc. apply in_or_app. left. apply Hin; eauto. }
      apply Hin in H as (vs' & H3 & H4); [|done]. by exists k, vs', w.
Qed.

(** ** Selective flush *)

(** The versions a flush takes: every key outside the resident namespaces. *)
Definition flush_entries (m : t) : list entry :=
  concat (map entries_of (List.filter (fun p => negb (is_resident p.1 m)) (map_ m))).

Lemma filter_entries_in (f : Key -> bool) (l : list (Key * list Version)) e :
  In e (concat (map entries_of (List.filter (fun p => f p.1) l))) <->
  In e (concat (map entries_of l)) /\ f (e_key e) = true.
Proof.
  induction l as [|[k vs] l IH]; cbn [List.filter map concat]; [naive_solver|].
  assert (Hk : forall x, In x (entries_of (k, vs)) -> e_key x = k).
  { intros x Hx. apply in_map_iff in Hx as (v & <- & _). done. }
  cbn [fst]. destruct (f k) eqn:E; cbn [map concat]; rewrite !in_app_iff, IH.
  - split; [|tauto]. intros [H|H]; [|tauto]. rewrite (Hk _ H), E. tauto.
  - split; [tauto|]. intros [[H|H] Hf]; [|tauto]. rewrite (Hk _ H) in Hf. congruence.
Qed.

Lemma flush_entries_in e m :
  In e (flush_entries m) <-> In e (entries m) /\ is_resident (e_key e) m = false.
Proof.
  unfold flush_entries, entries.
  rewrite (filter_entries_in (fun k => negb (is_resident k m))). by rewrite negb_true_iff.
Qed.

Lemma flushable_resident m k :
  any_resident_ m = true -> flushable_key m k = negb (is_resident k m).
Proof. intros H. unfold flushable_key, is_resident. rewrite H. by destruct k. Qed.

Lemma erase_flushable_in e m :
  In e (entries (erase_flushable m)) <-> In e (entries m) /\ is_resident (e_key e) m = true.
Proof.
  unfold erase_flushable. destruct (any_resident_ m) eqn:Ea; cbn [negb].
  - unfold entries. cbn [map_].
    rewrite (filter_entries_in (fun k => negb (flushable_key m k))).
    rewrite flushable_resident by done. by rewrite negb_involutive.
  - split; [done|]. intros [_ H]. unfold is_resident in H. by rewrite Ea in H.
Qed.

Lemma vcount_filter f m :
  vcount (fun _ => true) (List.filter (fun p => negb (f p.1)) m) =
  (vcount (fun _ => true) m - vcount f m)%nat /\ (vcount f m <= vcount (fun _ => true) m)%nat.
Proof.
  induction m as [|[k vs] m [IH1 IH2]]; [done|]. cbn [List.filter fst].
  rewrite !vcount_cons. destruct (f k); cbn [negb]; rewrite ?vcount_cons; lia.
Qed.

Lemma vcount_none f m :
  (forall k vs, In (k, vs) m -> f k = false) -> vcount f m = 0%nat.
Proof.
  induction m as [|[k vs] m IH]; intros H; [done|].
  rewrite vcount_cons, (H k vs (or_introl eq_refl)), IH; [done|].
  intros k' vs' Hin. apply (H k' vs'). by right.
Qed.

Lemma key_sorted_filter {A} (f : Key * A -> bool) (l : list (Key * A)) :
  key_sorted l -> key_sorted (List.filter f l).
Proof.
  induction l as [|[k a] l IH]; intros Hs; cbn; [done|].
  apply key_sorted_cons_inv in Hs as [Hs Hlt].
  destruct (f (k, a)); [|by apply IH]. apply key_sorted_cons; [by apply IH|].
  intros k' a' Hin. apply filter_In in Hin as [Hin _]. by eapply Hlt.
Qed.

Lemma erase_flushable_wf m : wf m -> wf (erase_flushable m).
Proof.
  intros [Hs Ha Ht Hf]. unfold erase_flushable.
  destruct (any_resident_ m) eqn:Ea; cbn [negb]; split; cbn [map_ total_versions_ flushable_versions_];
    try done; try constructor.
  - by apply key_sorted_filter.
  - intros k vs Hin. apply filter_In in Hin as [Hin _]. by eapply Ha.
  - rewrite (proj1 (vcount_filter (flushable_key m) (map_ m))). by rewrite Ht.
  - symmetry. apply vcount_none. intros k vs Hin. apply filter_In in Hin as [_ Hin].
    cbn in Hin. rewrite flushable_resident in Hin by done.
    rewrite negb_involutive in Hin. unfold is_resident in *. cbn [any_resident_ resident_].
    rewrite Ea in Hin. by rewrite Hin.
Qed.

Lemma clear_wf m : wf (clear m).
Proof. split; [constructor|done|done|done]. Qed.

(** Every insertion keeps the table well formed (keys in order, each
    key's versions ascending, both running counters exact) when the new
    sequence is above the key's versions, and a lookup then returns the newest
    version the snapshot covers. *)
Theorem memtable_insert_lookup key s v tomb vl m k at_ :
  wf m ->
  (forall vs w, assoc key (map_ m) = Some vs -> In w vs -> seq w < s) ->
  let m' := insert key s v tomb vl m in
  wf m' /\
  option_map (entry_of k) (lookup_hit k at_ m') =
  (if matches k at_ (Entry key v s tomb vl) then Some (Entry key v s tomb vl)
   else option_map (entry_of k) (lookup_hit k at_ m)).
Proof.
  intros Hwf Hnew m'.
  assert (Hwf' : wf m') by (by apply insert_wf).
  split; [done|]. rewrite !lookup_hit_newest by done.
  pose proof (entries_consistent m' Hwf') as Hc.
  assert (Hset : newest k at_ (entries m') =
                 newest k at_ (entries m ++ [Entry key v s tomb vl])).
  { symmetry. apply newest_ext; [done|]. intros e. rewrite in_app_iff.
    unfold m'. rewrite insert_entries by done. cbn. intuition congruence. }
  rewrite Hset, newest_app. unfold newest at 2. cbn [List.filter].
  destruct (matches k at_ (Entry key v s tomb vl)) eqn:Em; [|done]. cbn.
  destruct (newest k at_ (entries m)) as [b|] eqn:En; [|done].
  apply newest_some in En as (Hin & Hm & _).
  apply matches_true in Hm as [Hbk _]. apply matches_true in Em as [Hk _]. cbn in Hk.
  apply in_entries in Hin as (k' & vs & w & Hin & Hw & ->). cbn in Hbk. subst.
  apply assoc_sorted in Hin; [|by apply Hwf]. specialize (Hnew vs w Hin Hw).
  cbn. destruct (seq w <=? s) eqn:E; [done|lia].
Qed.

(** A selective flush splits the table: the versions it serialises and
    the versions it keeps are exactly the flushable and the resident ones, the
    table stays well formed and the flushable counter returns to zero. *)
Theorem selective_flush_partition m e :
  wf m ->
  (In e (entries m) <-> In e (flush_entries m) \/ In e (entries (erase_flushable m))) /\
  ~ (In e (flush_entries m) /\ In e (entries (erase_flushable m))) /\
  wf (erase_flushable m) /\ flushable_version_count (erase_flushable m) = 0%nat.
Proof.
  intros Hwf. rewrite flush_entries_in, erase_flushable_in. split_and!.
  - destruct (is_resident (e_key e) m); intuition congruence.
  - intros [[_ H1] [_ H2]]. congruence.
  - by apply erase_flushable_wf.
  - unfold erase_flushable. by destruct (any_resident_ m).
Qed.

Definition demo : t :=
  insert [Byte.x42] 2 [Byte.x02] false false
    (insert [Byte.x61] 1 [Byte.x01] false false (set_resident_byte Byte.x42 empty)).

Lemma demo_wf : wf demo.
Proof.
  unfold demo. apply insert_wf.
  - apply insert_wf; [split; [constructor|done..]|by intros].
  - intros vs w H. vm_compute in H. discriminate H.
Qed.

Lemma memtable_insert_lookup_witness :
  option_map (entry_of [Byte.x61])
    (lookup_hit [Byte.x61] 9 (insert [Byte.x61] 3 [] true false demo)) =
  Some (Entry [Byte.x61] [] 3 true false).
Proof.
  assert (Hnew : forall vs w, assoc [Byte.x61] (map_ demo) = Some vs -> In w vs -> seq w < 3).
  { intros vs w H Hw. vm_compute in H. injection H as <-. destruct Hw as [<-|[]]. done. }
  exact (proj2 (memtable_insert_lookup [Byte.x61] 3 [] true false demo [Byte.x61] 9 demo_wf Hnew)).
Defined.

Lemma selective_flush_partition_witness :
  wf (erase_flushable demo) /\ flushable_version_count (erase_flushable demo) = 0%nat.
Proof.
  exact (proj2 (proj2 (selective_flush_partition demo (Entry [] [] 0 false false) demo_wf))).
Defined.

End Memtable.
