(* ===== verification/Bloom.v ===== *)
(** Bloom: the per-table Bloom filter of storage/SSTable.hpp ([BloomFilter]).

    Double hashing over two 64-bit hashes of the key bytes.  The property the
    read path relies on is that a key added at build time is never reported
    absent. *)

From Stdlib Require Import ZArith Lia.
From stdpp Require Import base list numbers.
From S2P Require Import Prelude Codec Mvcc.

Module BloomFilter.

Record t := mk { nbits_ : Z; nhash_ : Z; bits_ : list byte }.

(** The default-constructed filter. *)
Definition empty : t := mk 0 0 [].

Definition hash_step (ab : Z * Z) (c : byte) : Z * Z :=
  let '(a, b) := ab in
  (u64 (Z.lxor a (Zb c) * 0x100000001B3), u64 (Z.lxor b (Zb c) * 0xCBF29CE484222325)).

Definition hash_pair (key : Key) : Z * Z :=
  let '(a, b) := fold_left hash_step key (0xCBF29CE484222325, 0x100000001B3) in
  let a := Z.lxor a (Z.shiftr a 33) in
  let a := u64 (a * 0xFF51AFD7ED558CCD) in
  let a := Z.lxor a (Z.shiftr a 33) in
  let b := Z.lxor b (Z.shiftr b 29) in
  let b := u64 (b * 0xC2B2AE3D27D4EB4F) in
  let b := Z.lxor b (Z.shiftr b 32) in
  (a, Z.lor b 1).

(** The bit positions of a key, in probe order. *)
Definition position (bf : t) (key : Key) (i : Z) : Z :=
  let '(h1, h2) := hash_pair key in u64 (h1 + u64 (i * h2)) mod nbits_ bf.

Definition positions (bf : t) (key : Key) : list Z :=
  map (fun i => position bf key (Z.of_nat i)) (seq 0 (Z.to_nat (nhash_ bf))).

Definition set_bit (bits : list byte) (pos : Z) : list byte :=
  alter (fun b => bZ (Z.lor (Zb b) (Z.shiftl 1 (Z.land pos 7)))) (Z.to_nat (Z.shiftr pos 3)) bits.

Definition get_bit (bits : list byte) (pos : Z) : bool :=
  negb (Z.land (byte_at bits (Z.to_nat (Z.shiftr pos 3))) (Z.shiftl 1 (Z.land pos 7)) =? 0).

Definition add (bf : t) (key : Key) : t :=
  mk (nbits_ bf) (nhash_ bf) (fold_left set_bit (positions bf key) (bits_ bf)).

Definition bits_per_key : Z := 10.

Definition build (keys : list Key) : t :=
  let nbits := u32 (u32 (Zlen keys) * bits_per_key) in
  let nbits := if nbits <? 64 then 64 else nbits in
  let bf := mk nbits 7 (repeat Byte.x00 (Z.to_nat (u32 (nbits + 7) / 8))) in
  fold_left add keys bf.

Definition maybe_contains (bf : t) (key : Key) : bool :=
  if nbits_ bf =? 0 then true
  else forallb (get_bit (bits_ bf)) (positions bf key).

Definition encode (bf : t) : list byte :=
  put_u32 (nbits_ bf) ++ put_u32 (nhash_ bf) ++ bits_ bf.

Definition decode (p : list byte) : option t :=
  if (length p <? 8)%nat then None
  else
    let nb := get_u32 p in
    let nh := get_u32 (drop 4 p) in
    let want := Z.to_nat ((nb + 7) / 8) in
    if (length p - 8 <? want)%nat || (nb =? 0) || (nh =? 0) then None
    else Some (mk nb nh (take want (drop 8 p))).

(** ** No false negatives *)

Lemma land_7 pos : Z.land pos 7 = pos mod 8.
Proof. change 7 with (Z.ones 3). by rewrite Z.land_ones by lia. Qed.

Lemma get_bit_testbit bits pos :
  get_bit bits pos = Z.testbit (byte_at bits (Z.to_nat (Z.shiftr pos 3))) (pos mod 8).
Proof.
  unfold get_bit. rewrite land_7. set (x := byte_at _ _).
  assert (Hn : 0 <= pos mod 8) by (apply Z.mod_pos_bound; lia).
  destruct (Z.testbit x (pos mod 8)) eqn:E.
  - apply negb_true_iff, Z.eqb_neq. intros H.
    apply (f_equal (fun z => Z.testbit z (pos mod 8))) in H.
    rewrite Z.land_spec, E, Z.shiftl_spec, Z.sub_diag, Z.bits_0 in H by done.
    done.
  - apply negb_false_iff, Z.eqb_eq. apply Z.bits_inj'. intros i Hi.
    rewrite Z.land_spec, Z.bits_0.
    destruct (Z.eq_dec i (pos mod 8)) as [->|Hne]; [by rewrite E|].
    rewrite Z.shiftl_spec by done.
    destruct (Z.lt_ge_cases i (pos mod 8)).
    + rewrite (Z.testbit_neg_r 1) by lia. apply andb_false_r.
    + rewrite (Z.bits_above_log2 1); [apply andb_false_r|lia|cbn; lia].
Qed.

Lemma byte_at_alter (f : byte -> byte) i j bits :
  (i < length bits)%nat ->
  byte_at (alter f i bits) j = if decide (j = i) then Zb (f (nth i bits Byte.x00)) else byte_at bits j.
Proof.
  intros Hi. unfold byte_at. rewrite !nth_lookup.
  destruct (decide (j = i)) as [->|Hne].
  - rewrite list_lookup_alter_eq. destruct (lookup_lt_is_Some_2 bits i Hi) as [x Hx].
    by rewrite Hx.
  - by rewrite list_lookup_alter_ne by congruence.
Qed.

Lemma set_bit_length bits pos : length (set_bit bits pos) = length bits.
Proof. apply length_alter. Qed.

Lemma zb_or_testbit b n i :
  0 <= n < 8 ->
  0 <= i -> Z.testbit (Zb (bZ (Z.lor (Zb b) (Z.shiftl 1 n)))) i = Z.testbit (Zb b) i || (i =? n).
Proof.
  intros Hn Hi. rewrite Zb_bZ. change 256 with (2 ^ 8).
  destruct (Z.lt_ge_cases i 8) as [Hlt|Hge].
  - rewrite Z.mod_pow2_bits_low by done. rewrite Z.lor_spec, Z.shiftl_spec by done.
    f_equal. destruct (i =? n) eqn:E.
    + apply Z.eqb_eq in E. subst. by rewrite Z.sub_diag.
    + destruct (Z.lt_ge_cases i n).
      * apply Z.testbit_neg_r. lia.
      * apply Z.bits_above_log2; [lia|cbn; lia].
  - rewrite Z.mod_pow2_bits_high by lia.
    rewrite (Z.bits_above_log2 (Zb b)).
    + cbn. symmetry. apply Z.eqb_neq. lia.
    + apply Zb_range.
    + pose proof (Zb_range b). destruct (Z.eq_dec (Zb b) 0) as [->|]; [cbn; lia|].
      apply Z.log2_lt_pow2; [lia|]. apply Z.lt_le_trans with 256; [lia|].
      change 256 with (2 ^ 8). by apply Z.pow_le_mono_r.
Qed.

Definition in_bits (bits : list byte) (pos : Z) : Prop :=
  0 <= pos /\ (Z.to_nat (Z.shiftr pos 3) < length bits)%nat.

Lemma set_bit_get bits p q :
  in_bits bits p -> 0 <= q ->
  get_bit (set_bit bits p) q = get_bit bits q || (q =? p).
Proof.
  intros [Hp Hlen] Hq. rewrite !get_bit_testbit. unfold set_bit.
  rewrite byte_at_alter by done. rewrite land_7.
  assert (Hp8 : 0 <= p mod 8 < 8) by (apply Z.mod_pos_bound; lia).
  assert (Hq8 : 0 <= q mod 8 < 8) by (apply Z.mod_pos_bound; lia).
  rewrite !Z.shiftr_div_pow2 in * by lia. change (2 ^ 3) with 8 in *.
  pose proof (Z.div_mod p 8 ltac:(lia)). pose proof (Z.div_mod q 8 ltac:(lia)).
  assert (0 <= p / 8) by (apply Z.div_pos; lia).
  assert (0 <= q / 8) by (apply Z.div_pos; lia).
  destruct (decide (Z.to_nat (q / 8) = Z.to_nat (p / 8))) as [E|E].
  - rewrite zb_or_testbit by lia. unfold byte_at. rewrite E. f_equal.
    destruct (q mod 8 =? p mod 8) eqn:E1, (q =? p) eqn:E2; lia.
  - destruct (q =? p) eqn:E2; [|by rewrite orb_false_r].
    apply Z.eqb_eq in E2. subst. done.
Qed.

Lemma fold_set_bit bits ps q :
  Forall (in_bits bits) ps -> 0 <= q ->
  get_bit (fold_left set_bit ps bits) q = get_bit bits q || existsb (fun p => q =? p) ps.
Proof.
  revert bits; induction ps as [|p ps IH]; intros bits Hf Hq; cbn; [by rewrite orb_false_r|].
  inversion_clear Hf as [|? ? Hp Hps]. rewrite IH; [|apply List.Forall_forall|done].
  - rewrite set_bit_get by done. by rewrite orb_assoc.
  - intros x Hx. rewrite List.Forall_forall in Hps. destruct (Hps x Hx) as [? ?].
    split; [done|]. by rewrite set_bit_length.
Qed.

Lemma fold_set_bit_length bits ps : length (fold_left set_bit ps bits) = length bits.
Proof. revert bits; induction ps; intros; cbn; [done|]. by rewrite IHps, set_bit_length. Qed.

(** The filter's bit vector covers all its positions. *)
Definition sized (bf : t) : Prop := 0 < nbits_ bf /\ nbits_ bf <= 8 * Zlen (bits_ bf).

Lemma positions_in_bits bf key : sized bf -> Forall (in_bits (bits_ bf)) (positions bf key).
Proof.
  intros [Hn Hs]. unfold positions. apply List.Forall_forall. intros p Hp.
  apply in_map_iff in Hp as (i & <- & _). unfold position.
  destruct (hash_pair key) as [h1 h2].
  pose proof (Z.mod_pos_bound (u64 (h1 + u64 (Z.of_nat i * h2))) (nbits_ bf) Hn) as Hr.
  split; [lia|]. rewrite Z.shiftr_div_pow2 by lia. change (2 ^ 3) with 8.
  assert (u64 (h1 + u64 (Z.of_nat i * h2)) mod nbits_ bf / 8 < Zlen (bits_ bf))
    by (apply Z.div_lt_upper_bound; lia).
  unfold Zlen in *. lia.
Qed.

Lemma add_sized bf key : sized bf -> sized (add bf key).
Proof. unfold sized, add, Zlen. cbn. by rewrite fold_set_bit_length. Qed.

Lemma positions_add bf k key : positions (add bf k) key = positions bf key.
Proof. done. Qed.

Definition contains_all (bf : t) (key : Key) : Prop :=
  forallb (get_bit (bits_ bf)) (positions bf key) = true.

Lemma positions_nonneg bf key : sized bf -> Forall (fun p => 0 <= p) (positions bf key).
Proof.
  intros H. pose proof (positions_in_bits bf key H) as Hf.
  rewrite List.Forall_forall in *. intros p Hp. by apply Hf.
Qed.

Lemma add_contains bf k key :
  sized bf -> contains_all bf key \/ k = key -> contains_all (add bf k) key.
Proof.
  intros Hs H. unfold contains_all. rewrite positions_add. apply forallb_forall.
  intros q Hq. cbn [add bits_].
  pose proof (positions_nonneg bf key Hs) as Hnn. rewrite List.Forall_forall in Hnn.
  rewrite fold_set_bit; [|by apply positions_in_bits|by apply Hnn].
  apply orb_true_iff. destruct H as [H| ->].
  - left. unfold contains_all in H. rewrite forallb_forall in H. by apply H.
  - right. apply existsb_exists. exists q. split; [done|apply Z.eqb_refl].
Qed.

Lemma fold_add_contains keys bf key :
  sized bf -> contains_all bf key \/ In key keys ->
  contains_all (fold_left add keys bf) key /\ sized (fold_left add keys bf).
Proof.
  revert bf; induction keys as [|k keys IH]; intros bf Hs H; cbn.
  - split; [|done]. by destruct H.
  - apply IH; [by apply add_sized|].
    destruct H as [H|[H|H]]; [left|left|by right]; apply add_contains; auto.
Qed.

(** The capacity a filter of [n] keys needs from its 32-bit size arithmetic. *)
Definition capacity_ok (n : Z) : Prop := u32 (u32 n * bits_per_key) + 7 < 2 ^ 32.

Lemma build_sized keys :
  capacity_ok (Zlen keys) ->
  forall key, In key keys -> contains_all (build keys) key /\ sized (build keys).
Proof.
  intros Hc key Hin. unfold build. apply fold_add_contains; [|by right].
  unfold capacity_ok in Hc. pose proof (u32_range (u32 (Zlen keys) * bits_per_key)) as Hr.
  set (nb := if _ <? 64 then 64 else _).
  assert (Hnb : 64 <= nb /\ nb + 7 < 2 ^ 32) by (unfold nb; destruct (_ <? 64) eqn:E; lia).
  unfold sized, Zlen. cbn [nbits_ bits_]. rewrite repeat_length, u32_id by lia.
  pose proof (Z.div_mod (nb + 7) 8 ltac:(lia)).
  pose proof (Z.mod_pos_bound (nb + 7) 8 ltac:(lia)).
  rewrite Z2Nat.id by (apply Z.div_pos; lia). lia.
Qed.

Lemma build_contains keys key :
  capacity_ok (Zlen keys) -> In key keys -> maybe_contains (build keys) key = true.
Proof.
  intros Hc Hin. unfold maybe_contains. destruct (_ =? 0); [done|].
  by apply build_sized.
Qed.

Lemma fold_add_params keys bf :
  nbits_ (fold_left add keys bf) = nbits_ bf /\ nhash_ (fold_left add keys bf) = nhash_ bf /\
  length (bits_ (fold_left add keys bf)) = length (bits_ bf).
Proof.
  revert bf; induction keys as [|k keys IH]; intros bf; cbn; [done|].
  destruct (IH (add bf k)) as (-> & -> & ->). cbn. by rewrite fold_set_bit_length.
Qed.

(** ** Serialisation *)

Lemma decode_encode_build keys :
  capacity_ok (Zlen keys) -> decode (encode (build keys)) = Some (build keys).
Proof.
  intros Hc. unfold capacity_ok in Hc.
  pose proof (u32_range (u32 (Zlen keys) * bits_per_key)) as Hr.
  unfold build. set (nb := if _ <? 64 then 64 else _).
  assert (Hnb : 64 <= nb /\ nb + 7 < 2 ^ 32) by (unfold nb; destruct (_ <? 64) eqn:E; lia).
  destruct (fold_add_params keys (mk nb 7 (repeat Byte.x00 (Z.to_nat (u32 (nb + 7) / 8)))))
    as (Hn & Hh & Hl).
  destruct (fold_left add keys _) as [nb' nh' bits]. cbn [nbits_ nhash_ bits_] in *. subst nb' nh'.
  rewrite repeat_length, u32_id in Hl by lia.
  unfold decode, encode. cbn [nbits_ nhash_ bits_].
  rewrite !length_app, !length_put_u32.
  rewrite (proj2 (Nat.ltb_ge _ 8)) by lia.
  skip_fields. rewrite !u32_id by lia. rewrite Hl.
  rewrite (proj2 (Nat.ltb_ge _ (Z.to_nat ((nb + 7) / 8)))) by lia.
  rewrite (proj2 (Z.eqb_neq nb 0)) by lia. cbn [orb Z.eqb].
  do 2 f_equal. apply take_ge. lia.
Qed.

(** The filter built over a table's keys never reports one of them
    absent, and it survives serialisation unchanged. *)
Theorem bloom_no_false_negative keys key :
  capacity_ok (Zlen keys) -> In key keys ->
  maybe_contains (build keys) key = true /\
  exists bf, decode (encode (build keys)) = Some bf /\ maybe_contains bf key = true.
Proof.
  intros Hc Hin. split; [by apply build_contains|].
  exists (build keys). split; [by apply decode_encode_build|by apply build_contains].
Qed.

Lemma bloom_no_false_negative_witness :
  maybe_contains (build [[Byte.x61]; [Byte.x62; Byte.x63]]) [Byte.x62; Byte.x63] = true.
Proof.
  refine (proj1 (bloom_no_false_negative [[Byte.x61]; [Byte.x62; Byte.x63]] _ _ _)).
  - vm_compute. done.
  - right. left. reflexivity.
Defined.

End BloomFilter.
