(* ===== verification/SSTable.v ===== *)
(** SSTable: the immutable sorted run of versions a flush writes
    (storage/SSTable.hpp): builder, loader and reader.

    [SSTableBuilder.build] lays out data blocks, a sparse index, the Bloom
    filter and a footer, each framed with a CRC; [SSTableLoader.parse] checks
    and decodes such an image; [SSTableReader] seeks through the decoded
    index.  A byte position inside a buffer is a suffix of the buffer, and the
    decode loops run on fuel bounded by the buffer's length: every iteration
    consumes a header. *)

From Stdlib Require Import ZArith Lia Sorting.Sorted.
From Stdlib Require Import (notations) String.
From stdpp Require Import base list numbers.
From S2P Require Import Prelude Codec Core Disk Mvcc Bloom.

Definition kSstMagic : Z := 0x4C535354.
Definition kSstFooterBytes : nat := 52.
Definition kBlockCrcBytes : nat := 4.
Definition kSstTargetBlockBytes : nat := 256.

Record IndexRec := mkIndexRec { ix_off : Z; ix_len : Z; first_key : Key }.

(** ** Builder *)
Module SSTableBuilder.

Definition entry_flags (e : entry) : Z :=
  Z.lor (if e_tomb e then 1 else 0) (if e_vlog e then 2 else 0).

Definition encode_entry (e : entry) : list byte :=
  put_u32 (u32 (Zlen (e_key e))) ++ put_u32 (u32 (Zlen (e_value e))) ++
  put_u64 (e_seq e) ++ [bZ (entry_flags e)] ++ e_key e ++ e_value e.

(** The framed bytes of a block and the length recorded for them. *)
Definition write_block (payload : list byte) : list byte :=
  payload ++ put_u32 (Crc32.compute payload).

Definition framed_len (payload : list byte) : Z :=
  u32 (Zlen payload + Z.of_nat kBlockCrcBytes).

Definition entry_size (e : entry) : nat :=
  (4 + 4 + 8 + 1 + length (e_key e) + length (e_value e))%nat.

(** The inner packing loop: the entries of one block, its payload and the
    entries left. *)
Fixpoint pack (payload : list byte) (es : list entry) : list entry * list byte * list entry :=
  match es with
  | [] => ([], payload, [])
  | e :: es' =>
      if negb (length payload =? 0)%nat
         && (kSstTargetBlockBytes <? length payload + entry_size e)%nat
      then ([], payload, es)
      else
        let '(blk, p, rest) := pack (payload ++ encode_entry e) es' in
        (e :: blk, p, rest)
  end.

(** The outer loop: the image so far and one index record per block. *)
Fixpoint pack_blocks (fuel : nat) (out : list byte) (es : list entry)
  : list byte * list (IndexRec * list entry) :=
  match fuel, es with
  | S fuel', e :: _ =>
      let '(blk, payload, rest) := pack [] es in
      let '(out', bs) := pack_blocks fuel' (out ++ write_block payload) rest in
      (out', (mkIndexRec (Zlen out) (framed_len payload) (e_key e), blk) :: bs)
  | _, _ => (out, [])
  end.

Definition push_distinct (keys : list Key) (e : entry) : list Key :=
  match list.last keys with
  | Some k => if key_eqb k (e_key e) then keys else keys ++ [e_key e]
  | None => keys ++ [e_key e]
  end.

Definition distinct_keys (es : list entry) : list Key := fold_left push_distinct es [].

Definition min_seq_step (m : Z) (e : entry) : Z :=
  if (m =? kNoSeq) || (e_seq e <? m) then e_seq e else m.

Definition max_seq_step (m : Z) (e : entry) : Z := if m <? e_seq e then e_seq e else m.

Definition encode_index_rec (r : IndexRec) : list byte :=
  put_u64 (ix_off r) ++ put_u32 (ix_len r) ++ put_u32 (u32 (Zlen (first_key r))) ++ first_key r.

Record result := mkResult {
  bytes : list byte;
  min_seq : Z;
  max_seq : Z;
  blocks : list (list entry);
  block_offs : list Z;
  block_lens : list Z;
  bloom : BloomFilter.t
}.

Definition footer_body (index_off index_len bloom_off bloom_len mn mx : Z) : list byte :=
  put_u64 index_off ++ put_u32 index_len ++ put_u64 bloom_off ++ put_u32 bloom_len ++
  put_u64 mn ++ put_u64 mx ++ put_u32 Format.kSstableVersion ++ put_u32 kSstMagic.

Definition build (es : list entry) : result :=
  let keys := distinct_keys es in
  let mn := fold_left min_seq_step es kNoSeq in
  let mx := fold_left max_seq_step es kNoSeq in
  let '(out, bs) := pack_blocks (length es) [] es in
  let index_payload := concat (map (fun b => encode_index_rec b.1) bs) in
  let index_off := Zlen out in
  let out := out ++ write_block index_payload in
  let bf := BloomFilter.build keys in
  let bloom_payload := BloomFilter.encode bf in
  let bloom_off := Zlen out in
  let out := out ++ write_block bloom_payload in
  let footer := footer_body index_off (framed_len index_payload)
                            bloom_off (framed_len bloom_payload) mn mx in
  mkResult (out ++ footer ++ put_u32 (Crc32.compute footer)) mn mx
           (map snd bs) (map (fun b => ix_off b.1) bs) (map (fun b => ix_len b.1) bs) bf.

End SSTableBuilder.

(** ** Reader *)
Module SSTableReader.

Record t := mk {
  min_seq : Z;
  max_seq : Z;
  sstable_id : Z;
  index_ : list IndexRec;
  blocks_ : list (list entry);
  bloom_ : BloomFilter.t
}.

Definition first_key_at (r : t) (b : nat) : Key :=
  first_key (nth b (index_ r) (mkIndexRec 0 0 [])).

(** [seek_block]: binary search for the last block whose first key is not
    above [key]; [-1] when there is none. *)
Fixpoint seek_loop (fuel : nat) (r : t) (key : Key) (lo hi ans : Z) : Z :=
  match fuel with
  | O => ans
  | S fuel' =>
      if lo <=? hi then
        let mid := lo + (hi - lo) / 2 in
        if key_leb (first_key_at r (Z.to_nat mid)) key
        then seek_loop fuel' r key (mid + 1) hi mid
        else seek_loop fuel' r key lo (mid - 1) ans
      else ans
  end.

Definition seek_block (r : t) (key : Key) : Z :=
  seek_loop (S (length (index_ r))) r key 0 (Zlen (index_ r) - 1) (-1).

(** Back up over the blocks that start with [key]. *)
Fixpoint back_up (r : t) (key : Key) (lo : nat) : nat :=
  match lo with
  | O => O
  | S lo' => if key_eqb (first_key_at r lo') key then back_up r key lo' else lo
  end.

Definition run_start (r : t) (key : Key) (blk : nat) : nat :=
  let lo := back_up r key blk in
  match lo with
  | O => O
  | S lo' => if key_ltb (first_key_at r lo') key then lo' else lo
  end.

(** One block of [lookup]: [hit.seq] starts at [kNoSeq]. *)
Definition hit_seq (h : option entry) : Z :=
  match h with Some e => e_seq e | None => kNoSeq end.

Definition scan_block_step (key : Key) (at_ : Z) (hit : option entry) (e : entry) : option entry :=
  if negb (key_eqb (e_key e) key) then hit
  else if (e_seq e <=? at_) && (hit_seq hit <=? e_seq e) then Some e
  else hit.

Definition scan_block_for_key (key : Key) (at_ : Z) (blk : list entry) (hit : option entry)
  : option entry :=
  fold_left (scan_block_step key at_) blk hit.

(** The forward scan over blocks from [b]. *)
Fixpoint scan_blocks (r : t) (key : Key) (at_ : Z) (b : nat) (blks : list (list entry))
    (hit : option entry) : option entry :=
  match blks with
  | [] => hit
  | blk :: blks' =>
      if key_ltb key (first_key_at r b) then hit
      else scan_blocks r key at_ (S b) blks' (scan_block_for_key key at_ blk hit)
  end.

Definition lookup (r : t) (key : Key) (at_ : Z) : option entry :=
  if negb (BloomFilter.maybe_contains (bloom_ r) key) then None
  else
    let blk := seek_block r key in
    if blk <? 0 then None
    else
      let lo := run_start r key (Z.to_nat blk) in
      scan_blocks r key at_ lo (drop lo (blocks_ r)) None.

(** The block where a scan from [lo] starts. *)
Definition scan_start_block (r : t) (lo : Key) : nat :=
  match lo with
  | [] => O
  | _ =>
      if (length (blocks_ r) =? 0)%nat then O
      else
        let blk := seek_block r lo in
        if blk <? 0 then O else run_start r lo (Z.to_nat blk)
  end.

(** The entries of one block a scan accepts, stopping at the first key past
    the upper bound. *)
Fixpoint scan_block_range (rg : Range) (at_ : Z) (blk : list entry) : list entry :=
  match blk with
  | [] => []
  | e :: blk' =>
      if at_ <? e_seq e then scan_block_range rg at_ blk'
      else if key_ltb (e_key e) (lo rg) then scan_block_range rg at_ blk'
      else if negb (hi_unbounded rg) && negb (key_ltb (e_key e) (hi rg)) then []
      else e :: scan_block_range rg at_ blk'
  end.

Fixpoint scan_range_blocks (r : t) (rg : Range) (at_ : Z) (b : nat) (blks : list (list entry))
  : list entry :=
  match blks with
  | [] => []
  | blk :: blks' =>
      if negb (hi_unbounded rg) && negb (key_ltb (first_key_at r b) (hi rg)) then []
      else scan_block_range rg at_ blk ++ scan_range_blocks r rg at_ (S b) blks'
  end.

Definition scan_into_start (r : t) (lo : Key) : nat :=
  match lo with
  | [] => O
  | _ => let blk := seek_block r lo in
         if blk <? 0 then O else run_start r lo (Z.to_nat blk)
  end.

Definition scan_into (r : t) (rg : Range) (at_ : Z) : list entry :=
  let b0 := scan_into_start r (lo rg) in
  scan_range_blocks r rg at_ b0 (drop b0 (blocks_ r)).

Definition collect_entries (r : t) : list entry := concat (blocks_ r).

Definition entry_count (r : t) : nat := list_sum (map length (blocks_ r)).

(** Whole-table key bounds. *)
Definition table_first_key (r : t) : option Key :=
  match List.find (fun b => negb (length b =? 0)%nat) (blocks_ r) with
  | Some (e :: _) => Some (e_key e)
  | _ => None
  end.

Definition table_last_key (r : t) : option Key :=
  match List.find (fun b => negb (length b =? 0)%nat) (rev (blocks_ r)) with
  | Some b => option_map e_key (list.last b)
  | None => None
  end.

(** [adopt_built]: the reader of a table the engine has just built. *)
Definition adopt_index (offs lens : list Z) (blks : list (list entry)) : list IndexRec :=
  map (fun '(o, (l, b)) =>
         mkIndexRec o l (match b with e :: _ => e_key e | [] => [] end))
      (combine offs (combine lens blks)).

Definition adopt_built (b : SSTableBuilder.result) (id : Z) : t :=
  mk (SSTableBuilder.min_seq b) (SSTableBuilder.max_seq b) id
     (adopt_index (SSTableBuilder.block_offs b) (SSTableBuilder.block_lens b)
                  (SSTableBuilder.blocks b))
     (SSTableBuilder.blocks b) (SSTableBuilder.bloom b).

End SSTableReader.

(** ** Loader *)
Module SSTableLoader.

(** A framed block [off, off + len).  The code computes [off + len] in 64 bits;
    the offsets it passes come from CRC-protected records, and for those the
    sum does not wrap. *)
Definition read_block (image : list byte) (off len : Z) : option (list byte) :=
  if len <? Z.of_nat kBlockCrcBytes then None
  else
    let end_ := u64 (off + len) in
    if Zlen image <? end_ then None
    else
      let p := drop (Z.to_nat off) image in
      let plen := Z.to_nat (len - Z.of_nat kBlockCrcBytes) in
      let want := get_u32 (drop plen p) in
      let got := Crc32.compute (take plen p) in
      if negb (want =? got) then None else Some (take plen p).

Fixpoint parse_index (fuel : nat) (p : list byte) : option (list IndexRec) :=
  match p with
  | [] => Some []
  | _ =>
      match fuel with
      | O => None
      | S fuel' =>
          if (length p <? 16)%nat then None
          else
            let off := get_u64 p in
            let len := get_u32 (drop 8 p) in
            let klen := Z.to_nat (get_u32 (drop 12 p)) in
            let q := drop 16 p in
            if (length q <? klen)%nat then None
            else
              match parse_index fuel' (drop klen q) with
              | Some rs => Some (mkIndexRec off len (take klen q) :: rs)
              | None => None
              end
      end
  end.

Fixpoint decode_data_block (fuel : nat) (p : list byte) : option (list entry) :=
  match p with
  | [] => Some []
  | _ =>
      match fuel with
      | O => None
      | S fuel' =>
          if (length p <? 17)%nat then None
          else
            let klen := get_u32 p in
            let vlen := get_u32 (drop 4 p) in
            let s := get_u64 (drop 8 p) in
            let flags := byte_at p 16 in
            let q := drop 17 p in
            let body := Z.to_nat (u64 (klen + vlen)) in
            if (length q <? body)%nat then None
            else
              let e := Entry (take (Z.to_nat klen) q)
                             (take (Z.to_nat vlen) (drop (Z.to_nat klen) q)) s
                             (Z.testbit flags 0) (Z.testbit flags 1) in
              match decode_data_block fuel' (drop body q) with
              | Some es => Some (e :: es)
              | None => None
              end
      end
  end.

Fixpoint read_data_blocks (image : list byte) (index : list IndexRec)
  : option (list (list entry)) :=
  match index with
  | [] => Some []
  | r :: index' =>
      match read_block image (ix_off r) (ix_len r) with
      | None => None
      | Some dp =>
          match decode_data_block (length dp) dp with
          | None => None
          | Some es =>
              match read_data_blocks image index' with
              | Some bs => Some (es :: bs)
              | None => None
              end
          end
      end
  end.

Definition parse (image : list byte) (id : Z) : option SSTableReader.t :=
  let n := length image in
  if (n <? kSstFooterBytes)%nat then None
  else
    let f := drop (n - kSstFooterBytes) image in
    if negb (get_u32 (drop 44 f) =? kSstMagic) then None
    else if negb (get_u32 (drop 48 f) =? Crc32.compute (take (kSstFooterBytes - 4) f)) then None
    else if negb (get_u32 (drop 40 f) =? Format.kSstableVersion) then None
    else
      let index_off := get_u64 f in
      let index_len := get_u32 (drop 8 f) in
      let bloom_off := get_u64 (drop 12 f) in
      let bloom_len := get_u32 (drop 20 f) in
      match read_block image index_off index_len with
      | None => None
      | Some ip =>
          match parse_index (length ip) ip with
          | None => None
          | Some index =>
              match read_block image bloom_off bloom_len with
              | None => None
              | Some bp =>
                  match BloomFilter.decode bp with
                  | None => None
                  | Some bf =>
                      match read_data_blocks image index with
                      | None => None
                      | Some blocks =>
                          Some (SSTableReader.mk (get_u64 (drop 24 f)) (get_u64 (drop 32 f))
                                                 id index blocks bf)
                      end
                  end
              end
          end
      end.

(** [load]: read the image the manifest names from a disk and parse it. *)
Definition load (d : disk) (sst_len : Z) (id : Z) (r : rng) : Error * option SSTableReader.t * rng :=
  let short := mkError Corruption "sstable: empty/short image"%string in
  if sst_len <? Z.of_nat kSstFooterBytes then (short, None, r)
  else
    let '(re, image, r) := read 0 (Z.to_nat sst_len) r d in
    if negb (err_ok re) then (re, None, r)
    else
      match parse image id with
      | Some rd => (ok_error, Some rd, r)
      | None => (short, None, r)
      end.

End SSTableLoader.
