(* ===== verification/SSTableRead.v ===== *)
(** SSTableRead: the sparse-index read path of an SSTable is exact.

    [reader_wf] is what the builder establishes and the loader preserves:
    the decoded blocks hold one (key, sequence)-ascending run, the index names
    each block's first key, and the Bloom filter knows every key.  Under it
    [lookup] returns the newest visible version of the whole table and
    [scan_into] the full filter of the table, although both visit only the
    blocks the index names. *)

From Stdlib Require Import ZArith Lia Sorting.Sorted.
From stdpp Require Import base list numbers.
From S2P Require Import Prelude Codec Core Disk Mvcc Bloom SSTable.

(** ** Sorted runs of versions *)

Definition ver_lt (a b : entry) : Prop :=
  key_ltb (e_key a) (e_key b) = true \/ (e_key a = e_key b /\ e_seq a < e_seq b).

Definition sorted_run (es : list entry) : Prop := StronglySorted ver_lt es.

#[global] Instance ver_lt_trans : Transitive ver_lt.
Proof.
  intros a b c [H1|[H1 H2]] [H3|[H3 H4]]; unfold ver_lt.
  - left. by eapply key_ltb_trans.
  - left. by rewrite <- H3.
  - left. by rewrite H1.
  - right. split; [congruence|lia].
Qed.

Lemma ver_lt_irrefl a : ~ ver_lt a a.
Proof. intros [H|[_ H]]; [by rewrite key_ltb_irrefl in H|lia]. Qed.

Lemma ver_lt_key a b : ver_lt a b -> key_leb (e_key a) (e_key b) = true.
Proof. intros [H|[H _]]; apply key_leb_le; auto. Qed.

Lemma sorted_run_app_inv l l' a b :
  sorted_run (l ++ l') -> In a l -> In b l' -> ver_lt a b.
Proof.
  induction l as [|x l IH]; cbn; intros Hs Ha Hb; [done|].
  apply StronglySorted_inv in Hs as [Hs Hf]. rewrite List.Forall_forall in Hf.
  destruct Ha as [->|Ha]; [|by apply IH]. apply Hf, in_or_app. by right.
Qed.

Lemma sorted_run_app_l l l' : sorted_run (l ++ l') -> sorted_run l.
Proof.
  induction l as [|x l IH]; cbn; intros Hs; [constructor|].
  apply StronglySorted_inv in Hs as [Hs Hf]. constructor; [by apply IH|].
  rewrite List.Forall_forall in *. intros y Hy. apply Hf, in_or_app. by left.
Qed.

Lemma sorted_run_app_r l l' : sorted_run (l ++ l') -> sorted_run l'.
Proof.
  induction l as [|x l IH]; cbn; intros Hs; [done|].
  apply StronglySorted_inv in Hs as [Hs _]. by apply IH.
Qed.

Lemma sorted_run_consistent es : sorted_run es -> consistent es.
Proof.
  induction es as [|x es IH]; intros Hs e e' He He' Hk Hq; [done|].
  apply StronglySorted_inv in Hs as [Hs Hf]. rewrite List.Forall_forall in Hf.
  destruct He as [->|He], He' as [->|He']; [done| | |by apply IH].
  - destruct (Hf _ He') as [H|[_ H]]; [|lia]. by rewrite Hk, key_ltb_irrefl in H.
  - destruct (Hf _ He) as [H|[_ H]]; [|lia]. by rewrite Hk, key_ltb_irrefl in H.
Qed.

(** ** Well-formed readers *)

Import SSTableReader.

Definition block_first (b : list entry) : Key :=
  match b with e :: _ => e_key e | [] => [] end.

Record reader_wf (r : t) : Prop := {
  rw_index : map first_key (index_ r) = map block_first (blocks_ r);
  rw_nonempty : forall b, In b (blocks_ r) -> b <> [];
  rw_sorted : sorted_run (collect_entries r);
  rw_bloom : forall e, In e (collect_entries r) ->
               BloomFilter.maybe_contains (bloom_ r) (e_key e) = true;
  rw_seq : forall e, In e (collect_entries r) -> 0 <= e_seq e;
  rw_max : forall e, In e (collect_entries r) -> e_seq e <= max_seq r
}.

Section reader.
Context (r : t) (Hwf : reader_wf r).

Notation n := (length (blocks_ r)).
Notation fk := (first_key_at r).
Notation before b := (concat (take b (blocks_ r))).
Notation from b := (concat (drop b (blocks_ r))).

Lemma index_length : length (index_ r) = n.
Proof. by rewrite <- (length_map first_key), (rw_index r Hwf), length_map. Qed.

Lemma entries_split b : collect_entries r = before b ++ from b.
Proof. unfold collect_entries. by rewrite <- concat_app, take_drop. Qed.

Lemma from_head b :
  (b < n)%nat -> exists e es, from b = e :: es /\ e_key e = fk b.
Proof.
  intros Hb. destruct (lookup_lt_is_Some_2 (blocks_ r) b Hb) as [blk Hblk].
  rewrite (drop_S _ _ _ Hblk). cbn [concat].
  destruct blk as [|e es].
  { exfalso. eapply (rw_nonempty r Hwf); [|done].
    apply list_elem_of_In. by eapply list_elem_of_lookup_2. }
  exists e, (es ++ concat (drop (S b) (blocks_ r))). split; [done|].
  unfold first_key_at.
  replace (first_key (nth b (index_ r) (mkIndexRec 0 0 [])))
    with (nth b (map first_key (index_ r)) []) by exact (map_nth first_key _ (mkIndexRec 0 0 []) _).
  rewrite (rw_index r Hwf).
  rewrite (map_nth block_first _ []), nth_lookup, Hblk. done.
Qed.

Lemma before_le b e : (b < n)%nat -> In e (before b) -> key_leb (e_key e) (fk b) = true.
Proof.
  intros Hb He. destruct (from_head b Hb) as (x & xs & Hx & <-).
  apply ver_lt_key. pose proof (rw_sorted r Hwf) as Hs. rewrite (entries_split b) in Hs.
  eapply sorted_run_app_inv; [done..|]. rewrite Hx. by left.
Qed.

Lemma from_ge b e : (b < n)%nat -> In e (from b) -> key_leb (fk b) (e_key e) = true.
Proof.
  intros Hb He. destruct (from_head b Hb) as (x & xs & Hx & <-).
  pose proof (rw_sorted r Hwf) as Hs. rewrite (entries_split b) in Hs.
  apply sorted_run_app_r in Hs. rewrite Hx in *.
  apply StronglySorted_inv in Hs as [_ Hf]. rewrite List.Forall_forall in Hf.
  destruct He as [->|He]; [apply key_leb_refl|]. by apply ver_lt_key, Hf.
Qed.

Lemma fk_mono b b' : (b <= b')%nat -> (b' < n)%nat -> key_leb (fk b) (fk b') = true.
Proof.
  intros Hle Hb'. destruct (from_head b' Hb') as (x & xs & Hx & <-).
  apply from_ge; [lia|]. replace (drop b (blocks_ r)) with
    (take (b' - b) (drop b (blocks_ r)) ++ drop b' (blocks_ r)).
  - rewrite concat_app, Hx. apply in_or_app. right. by left.
  - replace b' with (b + (b' - b))%nat at 2 by lia. rewrite <- drop_drop. apply take_drop.
Qed.

(** *** The binary search *)

Lemma seek_loop_spec key fuel lo hi ans :
  0 <= lo -> hi < Z.of_nat n -> -1 <= ans -> ans = lo - 1 ->
  hi - lo + 1 < Z.of_nat fuel ->
  (forall b, (Z.of_nat b < lo) -> key_leb (fk b) key = true) ->
  (forall b, hi < Z.of_nat b -> (b < n)%nat -> key_ltb key (fk b) = true) ->
  lo <= hi + 1 ->
  let a := seek_loop fuel r key lo hi ans in
  -1 <= a < Z.of_nat n /\
  (forall b, Z.of_nat b <= a -> key_leb (fk b) key = true) /\
  (forall b, a < Z.of_nat b -> (b < n)%nat -> key_ltb key (fk b) = true).
Proof.
  revert lo hi ans; induction fuel as [|fuel IH];
    intros lo hi ans Hlo Hhi Hans Ha Hf Hlow Hhigh Hle; cbn [seek_loop]; [lia|].
  destruct (lo <=? hi) eqn:E.
  - pose proof (Z.div_mod (hi - lo) 2 ltac:(lia)).
    pose proof (Z.mod_pos_bound (hi - lo) 2 ltac:(lia)).
    set (mid := lo + (hi - lo) / 2).
    assert (Hmid : lo <= mid <= hi) by (unfold mid; lia).
    destruct (key_leb (fk (Z.to_nat mid)) key) eqn:Ek.
    + apply IH; try lia; [|done]. intros b Hb.
      eapply key_leb_trans; [|exact Ek]. apply fk_mono; lia.
    + apply IH; try lia; [done|]. intros b Hb Hbn.
      apply key_leb_false in Ek. eapply key_lt_le_trans; [exact Ek|].
      apply fk_mono; lia.
  - split; [lia|]. split; [intros b Hb; apply Hlow; lia|].
    intros b Hb. apply Hhigh. lia.
Qed.

Lemma seek_block_spec key :
  let a := seek_block r key in
  -1 <= a < Z.of_nat n /\
  (forall b, Z.of_nat b <= a -> key_leb (fk b) key = true) /\
  (forall b, a < Z.of_nat b -> (b < n)%nat -> key_ltb key (fk b) = true).
Proof.
  unfold seek_block. apply seek_loop_spec; unfold Zlen; rewrite ?index_length; try lia.
Qed.

(** *** The start of a key's run of versions *)

Lemma back_up_spec key b :
  (back_up r key b <= b)%nat /\
  (back_up r key b = O \/ fk (back_up r key b - 1) <> key).
Proof.
  induction b as [|b IH]; cbn [back_up]; [auto|].
  destruct (key_eqb_spec (fk b) key) as [E|E]; [split; [lia|apply IH]|].
  split; [lia|]. right. by rewrite Nat.sub_0_r || replace (S b - 1)%nat with b by lia.
Qed.

(** Every entry before the run's start is below the key. *)
Lemma run_start_spec key blk :
  (blk < n)%nat -> (forall b, (b <= blk)%nat -> key_leb (fk b) key = true) ->
  (run_start r key blk <= blk)%nat /\
  forall e, In e (before (run_start r key blk)) -> key_ltb (e_key e) key = true.
Proof.
  intros Hb Hle. unfold run_start. destruct (back_up_spec key blk) as [H1 H2].
  destruct (back_up r key blk) as [|lo']; [split; [lia|done]|].
  destruct H2 as [|H2]; [done|]. rewrite Nat.sub_succ, Nat.sub_0_r in H2.
  assert (Hlt : key_ltb (fk lo') key = true).
  { specialize (Hle lo' ltac:(lia)). apply key_leb_le in Hle as [?|?]; done. }
  rewrite Hlt. split; [lia|]. intros e He.
  eapply key_le_lt_trans; [|exact Hlt]. apply before_le; [lia|done].
Qed.

(** *** Point lookups *)

Lemma fold_step_skip key at_ es hit :
  (forall e, In e es -> e_key e <> key) ->
  fold_left (scan_block_step key at_) es hit = hit.
Proof.
  revert hit; induction es as [|e es IH]; intros hit H; cbn [fold_left]; [done|].
  rewrite IH by (intros; apply H; by right). unfold scan_block_step.
  by rewrite (proj2 (key_eqb_neq _ _) (H e (or_introl eq_refl))).
Qed.

Lemma fold_step_newest key at_ es hit :
  (forall e, In e es -> 0 <= e_seq e) ->
  (forall e, hit = Some e -> 0 <= e_seq e) ->
  fold_left (scan_block_step key at_) es hit =
  fold_left better (List.filter (matches key at_) es) hit.
Proof.
  revert hit; induction es as [|e es IH]; intros hit H Hh; cbn [fold_left List.filter]; [done|].
  assert (He : 0 <= e_seq e) by (apply H; by left).
  assert (Hstep : scan_block_step key at_ hit e =
                  if matches key at_ e then better hit e else hit).
  { unfold scan_block_step, matches, hit_seq, better, kNoSeq.
    destruct (key_eqb _ _); cbn; [|done].
    destruct (e_seq e <=? at_); cbn; [|done].
    destruct hit as [h|]; [done|].
    destruct (0 <=? e_seq e) eqn:E; [done|lia]. }
  rewrite Hstep. destruct (matches key at_ e); cbn [fold_left].
  - apply IH; [intros; apply H; by right|]. intros x. unfold better.
    destruct hit as [h|]; [destruct (_ <=? _)|]; intros [= <-]; auto.
  - apply IH; [intros; apply H; by right|done].
Qed.

Lemma scan_blocks_all key at_ b hit :
  scan_blocks r key at_ b (drop b (blocks_ r)) hit =
  fold_left (scan_block_step key at_) (from b) hit.
Proof.
  remember (drop b (blocks_ r)) as blks eqn:E.
  revert b hit E; induction blks as [|blk blks IH]; intros b hit E; [done|].
  cbn [scan_blocks concat].
  assert (Hb : (b < n)%nat).
  { destruct (decide (b < n)%nat); [done|]. by rewrite drop_ge in E by lia. }
  assert (E' : blks = drop (S b) (blocks_ r)).
  { rewrite <- Nat.add_1_r, <- drop_drop. by rewrite <- E. }
  destruct (key_ltb key (fk b)) eqn:Ek.
  - change (blk ++ concat blks) with (concat (blk :: blks)). rewrite E.
    symmetry. apply fold_step_skip. intros e He Heq.
    apply from_ge in He; [|done]. rewrite Heq in He. unfold key_leb in He. by rewrite Ek in He.
  - unfold scan_block_for_key. rewrite fold_left_app. by apply IH.
Qed.

Lemma no_bloom_no_entry key e :
  BloomFilter.maybe_contains (bloom_ r) key = false ->
  In e (collect_entries r) -> e_key e <> key.
Proof. intros H Hin <-. by rewrite (rw_bloom r Hwf) in H. Qed.

Lemma fold_step_from key at_ b :
  (forall e, In e (before b) -> e_key e <> key) ->
  fold_left (scan_block_step key at_) (from b) None = newest key at_ (collect_entries r).
Proof.
  intros H. unfold newest. rewrite <- fold_step_newest; [|apply (rw_seq r Hwf)|done].
  by rewrite (entries_split b), fold_left_app, (fold_step_skip _ _ (before b)).
Qed.

Lemma lookup_newest key at_ : lookup r key at_ = newest key at_ (collect_entries r).
Proof.
  unfold lookup. destruct (BloomFilter.maybe_contains _ key) eqn:Ebf; cbn [negb].
  2:{ symmetry. apply newest_none. intros x Hx. unfold matches.
      by rewrite (proj2 (key_eqb_neq _ _) (no_bloom_no_entry _ _ Ebf Hx)). }
  pose proof (seek_block_spec key) as (Ha & Hlow & Hhigh). destruct (_ <? 0) eqn:E0.
  - symmetry. apply newest_none. intros x Hx. unfold matches.
    destruct (blocks_ r) as [|b0 bs] eqn:Eb; [by unfold collect_entries in Hx; rewrite Eb in Hx|].
    assert (Hx0 : key_leb (fk 0) (e_key x) = true).
    { apply from_ge; rewrite Eb; [cbn; lia|]. unfold collect_entries in Hx. by rewrite Eb in Hx. }
    specialize (Hhigh 0%nat ltac:(lia) ltac:(cbn; lia)).
    rewrite (proj2 (key_eqb_neq _ _)); [done|]. intros E.
    rewrite E in Hx0. unfold key_leb in Hx0. by rewrite Hhigh in Hx0.
  - destruct (run_start_spec key (Z.to_nat (seek_block r key))) as [Hrs Hbef];
      [lia|intros b Hb; apply Hlow; lia|].
    rewrite scan_blocks_all. apply fold_step_from. intros e He E.
    specialize (Hbef e He). by rewrite E, key_ltb_irrefl in Hbef.
Qed.

(** *** Range scans *)

Definition accept (rg : Range) (at_ : Z) (e : entry) : bool :=
  (e_seq e <=? at_) && in_range rg (e_key e).

Lemma filter_accept_below rg at_ es :
  (forall e, In e es -> key_ltb (e_key e) (lo rg) = true) ->
  List.filter (accept rg at_) es = [].
Proof.
  intros H. induction es as [|e es IH]; [done|]. cbn [List.filter].
  unfold accept at 1, in_range. rewrite (H e (or_introl eq_refl)). cbn [negb andb].
  rewrite andb_false_r. apply IH. intros; apply H; by right.
Qed.

Lemma filter_accept_above rg at_ es :
  hi_unbounded rg = false ->
  (forall e, In e es -> key_leb (hi rg) (e_key e) = true) ->
  List.filter (accept rg at_) es = [].
Proof.
  intros Hu H. induction es as [|e es IH]; [done|]. cbn [List.filter].
  unfold accept at 1, in_range. specialize (H e (or_introl eq_refl)) as He.
  unfold key_leb in He. rewrite Hu. apply negb_true_iff in He. rewrite He.
  cbn [orb]. rewrite !andb_false_r. apply IH. intros; apply H; by right.
Qed.

Lemma scan_block_range_filter rg at_ es :
  sorted_run es -> scan_block_range rg at_ es = List.filter (accept rg at_) es.
Proof.
  induction es as [|e es IH]; intros Hs; [done|].
  pose proof Hs as Hs0. apply StronglySorted_inv in Hs as [Hs Hf].
  cbn [scan_block_range List.filter]. unfold accept at 1, in_range.
  destruct (at_ <? e_seq e) eqn:E1; [replace (e_seq e <=? at_) with false by lia; by apply IH|].
  replace (e_seq e <=? at_) with true by lia. cbn [andb].
  destruct (key_ltb (e_key e) (lo rg)) eqn:E2; cbn [negb andb]; [by apply IH|].
  destruct (hi_unbounded rg) eqn:Eu; cbn [negb andb orb]; [f_equal; by apply IH|].
  destruct (key_ltb (e_key e) (hi rg)) eqn:E3; cbn [negb andb]; [f_equal; by apply IH|].
  symmetry. apply filter_accept_above; [done|]. intros x Hx.
  rewrite List.Forall_forall in Hf. eapply key_leb_trans; [|apply ver_lt_key, Hf, Hx].
  unfold key_leb. by rewrite E3.
Qed.

Lemma scan_range_blocks_all rg at_ b :
  scan_range_blocks r rg at_ b (drop b (blocks_ r)) = List.filter (accept rg at_) (from b).
Proof.
  remember (drop b (blocks_ r)) as blks eqn:E.
  revert b E; induction blks as [|blk blks IH]; intros b E; [done|].
  cbn [scan_range_blocks concat].
  assert (Hb : (b < n)%nat).
  { destruct (decide (b < n)%nat); [done|]. by rewrite drop_ge in E by lia. }
  assert (E' : blks = drop (S b) (blocks_ r)).
  { rewrite <- Nat.add_1_r, <- drop_drop. by rewrite <- E. }
  destruct (negb (hi_unbounded rg) && negb (key_ltb (fk b) (hi rg))) eqn:Ek.
  - apply andb_true_iff in Ek as [Eu Ek]. apply negb_true_iff in Eu, Ek.
    change (blk ++ concat blks) with (concat (blk :: blks)). rewrite E.
    symmetry. apply filter_accept_above; [done|]. intros e He.
    eapply key_leb_trans; [|by apply from_ge]. unfold key_leb. by rewrite Ek.
  - rewrite filter_app, <- (IH (S b) E'). f_equal. apply scan_block_range_filter.
    pose proof (rw_sorted r Hwf) as Hs. rewrite (entries_split b), <- E in Hs.
    apply sorted_run_app_r in Hs. cbn [concat] in Hs. by apply sorted_run_app_l in Hs.
Qed.

Lemma scan_into_filter rg at_ :
  scan_into r rg at_ = List.filter (accept rg at_) (collect_entries r).
Proof.
  unfold scan_into. rewrite scan_range_blocks_all.
  set (b0 := scan_into_start r (lo rg)).
  rewrite (entries_split b0), filter_app, (filter_accept_below rg at_ (before b0)); [done|].
  unfold b0, scan_into_start. destruct (lo rg) as [|c l]; [done|].
  pose proof (seek_block_spec (c :: l)) as (Ha & Hlow & _).
  destruct (_ <? 0) eqn:E0; [done|]. apply run_start_spec; [lia|].
  intros b Hb. apply Hlow. lia.
Qed.

(** The block a cursor over keys from [lo] starts at leaves nothing behind. *)
Lemma scan_start_block_before lo_ e :
  In e (before (scan_start_block r lo_)) -> key_ltb (e_key e) lo_ = true.
Proof.
  unfold scan_start_block. destruct lo_ as [|c l]; [done|].
  destruct (_ =? 0)%nat; [done|].
  pose proof (seek_block_spec (c :: l)) as (Ha & Hlow & _).
  destruct (_ <? 0) eqn:E0; [done|]. apply run_start_spec; [lia|].
  intros b Hb. apply Hlow. lia.
Qed.
End reader.
