(* ===== verification/SSTableImage.v ===== *)
(** SSTableImage: the loader inverts the builder.

    [build] lays the run out in framed blocks; [parse] checks every frame and
    decodes.  The reader [parse] returns on a built image is the one
    [adopt_built] installs without reading the bytes back, and it is
    well-formed, so the read theorems of [SSTableRead] apply to both. *)

From Stdlib Require Import ZArith Lia Sorting.Sorted.
From stdpp Require Import base list numbers.
From S2P Require Import Prelude Codec Core Disk Mvcc Bloom SSTable SSTableRead.

Import SSTableBuilder SSTableLoader.

(** An entry whose fields fit their widths. *)
Definition entry_fits (e : entry) : Prop :=
  0 <= e_seq e < 2 ^ 64 /\ Zlen (e_key e) < 2 ^ 32 /\ Zlen (e_value e) < 2 ^ 32.

Definition block_payload (blk : list entry) : list byte := concat (map encode_entry blk).

(** ** Packing *)

Lemma length_encode_entry e : length (encode_entry e) = entry_size e.
Proof. unfold encode_entry, entry_size. rewrite !length_app. cbn. lia. Qed.

Lemma pack_spec es : forall payload blk p rest,
  pack payload es = (blk, p, rest) ->
  es = blk ++ rest /\ p = payload ++ block_payload blk /\
  (payload = [] -> es <> [] -> blk <> []).
Proof.
  induction es as [|e es IH]; intros payload blk p rest; cbn [pack].
  - intros [= <- <- <-]. split; [done|]. split; [|done]. cbn. by rewrite app_nil_r.
  - destruct (_ && _) eqn:E.
    + intros [= <- <- <-]. split; [done|]. split; [cbn; by rewrite app_nil_r|].
      intros ->. done.
    + destruct (pack _ es) as [[blk' p'] rest'] eqn:Ep. intros [= <- <- <-].
      apply IH in Ep as (-> & -> & _). split; [done|]. split; [|done].
      unfold block_payload. cbn. by rewrite <- app_assoc.
Qed.

(** What the packing loop leaves in the image. *)
Definition framed_blocks (blks : list (list entry)) : list byte :=
  concat (map (fun b => write_block (block_payload b)) blks).

(** The records of the index, given the offset of the first block. *)
Fixpoint index_at (off : Z) (blks : list (list entry)) : list (IndexRec * list entry) :=
  match blks with
  | [] => []
  | b :: blks' =>
      (mkIndexRec off (framed_len (block_payload b)) (block_first b), b)
        :: index_at (off + Zlen (write_block (block_payload b))) blks'
  end.

Lemma pack_blocks_spec fuel : forall out es out' bs,
  (length es <= fuel)%nat -> pack_blocks fuel out es = (out', bs) ->
  concat (map snd bs) = es /\ (forall b, In b (map snd bs) -> b <> []) /\
  out' = out ++ framed_blocks (map snd bs) /\ bs = index_at (Zlen out) (map snd bs).
Proof.
  induction fuel as [|fuel IH]; intros out es out' bs Hf; cbn [pack_blocks].
  - destruct es; [|cbn in Hf; lia]. intros [= <- <-]. cbn. by rewrite app_nil_r.
  - destruct es as [|e es]; [intros [= <- <-]; cbn; by rewrite app_nil_r|].
    destruct (pack [] (e :: es)) as [[blk p] rest] eqn:Ep.
    destruct (pack_blocks fuel _ rest) as [out1 bs1] eqn:Eb. intros [= <- <-].
    apply pack_spec in Ep as (Hes & -> & Hne).
    specialize (Hne eq_refl ltac:(done)). destruct blk as [|x blk]; [done|].
    cbn [app] in Hes. injection Hes as -> ->.
    apply IH in Eb as (<- & Hbs & -> & Hix).
    2:{ cbn [length] in Hf. rewrite length_app in Hf. lia. }
    cbn [app map snd concat index_at]. split; [done|].
    split; [intros b [<-|Hb]; [done|by apply Hbs]|].
    split; [cbn; by rewrite <- app_assoc|]. f_equal.
    rewrite Zlen_app in Hix. exact Hix.
Qed.

(** ** Distinct keys *)

Lemma push_distinct_in keys e k :
  In k (push_distinct keys e) <-> In k keys \/ k = e_key e.
Proof.
  unfold push_distinct. destruct (list.last keys) as [l|] eqn:E.
  - destruct (key_eqb_spec l (e_key e)) as [->|].
    + split; [by left|]. intros [? | ->]; [done|].
      apply last_Some in E as [l' ->]. apply in_or_app. right. by left.
    + rewrite in_app_iff. cbn. split; intros [|]; naive_solver.
  - rewrite in_app_iff. cbn. split; intros [|]; naive_solver.
Qed.

Lemma fold_push_distinct es keys k :
  In k (fold_left push_distinct es keys) <-> In k keys \/ In k (map e_key es).
Proof.
  revert keys; induction es as [|e es IH]; intros keys; cbn [fold_left map]; [cbn; naive_solver|].
  rewrite IH, push_distinct_in. cbn. naive_solver.
Qed.

Lemma distinct_keys_in es e : In e es -> In (e_key e) (distinct_keys es).
Proof. intros H. apply fold_push_distinct. right. by apply in_map. Qed.

Lemma fold_push_distinct_length es keys :
  (length (fold_left push_distinct es keys) <= length keys + length es)%nat.
Proof.
  revert keys; induction es as [|e es IH]; intros keys; cbn [fold_left length]; [lia|].
  specialize (IH (push_distinct keys e)).
  assert (length (push_distinct keys e) <= S (length keys))%nat; [|lia].
  unfold push_distinct. destruct (list.last keys); [destruct (key_eqb _ _)|];
    rewrite ?length_app; cbn; lia.
Qed.

(** ** Frames *)

Lemma length_write_block p : Zlen (write_block p) = Zlen p + 4.
Proof. unfold write_block. rewrite Zlen_app. done. Qed.

Lemma read_block_frame a p c :
  Zlen (a ++ write_block p ++ c) < 2 ^ 32 ->
  read_block (a ++ write_block p ++ c) (Zlen a) (framed_len p) = Some p.
Proof.
  intros Hlen. rewrite !Zlen_app, length_write_block in Hlen.
  pose proof (Zlen_nonneg a). pose proof (Zlen_nonneg p). pose proof (Zlen_nonneg c).
  unfold read_block, framed_len, kBlockCrcBytes. rewrite u32_id by lia.
  rewrite (proj2 (Z.ltb_ge _ _)) by lia. rewrite u64_id by lia.
  rewrite !Zlen_app, length_write_block.
  rewrite (proj2 (Z.ltb_ge _ _)) by lia.
  replace (Z.to_nat (Zlen a)) with (length a) by (unfold Zlen; lia).
  rewrite drop_app_length.
  replace (Z.to_nat (Zlen p + Z.of_nat 4 - Z.of_nat 4)) with (length p) by (unfold Zlen; lia).
  unfold write_block. rewrite <- app_assoc.
  rewrite drop_app_length, take_app_length, get_put_u32.
  rewrite u32_id by apply Crc32.compute_range. by rewrite Z.eqb_refl.
Qed.

(** ** Decoding *)

Lemma entry_flags_bits e :
  Z.testbit (Zb (bZ (entry_flags e))) 0 = e_tomb e /\
  Z.testbit (Zb (bZ (entry_flags e))) 1 = e_vlog e.
Proof. unfold entry_flags. by destruct (e_tomb e), (e_vlog e). Qed.

Lemma decode_entry_step fuel e tail :
  entry_fits e ->
  decode_data_block (S fuel) (encode_entry e ++ tail) =
  match decode_data_block fuel tail with Some es => Some (e :: es) | None => None end.
Proof.
  intros (Hs & Hk & Hv). pose proof (Zlen_nonneg (e_key e)). pose proof (Zlen_nonneg (e_value e)).
  assert (Hl : length (encode_entry e ++ tail) =
               (17 + length (e_key e) + length (e_value e) + length tail)%nat).
  { rewrite length_app, length_encode_entry. unfold entry_size. lia. }
  cbn [decode_data_block]. destruct (encode_entry e ++ tail) as [|b0 p0] eqn:Ep; [cbn in Hl; lia|].
  rewrite <- Ep in *. clear Ep b0 p0. rewrite Hl.
  rewrite (proj2 (Nat.ltb_ge _ 17)) by lia.
  unfold encode_entry. rewrite <- !app_assoc.
  match goal with |- context [byte_at ?p 16] =>
    replace (byte_at p 16) with (Zb (bZ (entry_flags e))) by done end.
  destruct (entry_flags_bits e) as [-> ->].
  skip_fields. rewrite !(u32_id (u32 _)) by apply u32_range.
  rewrite (u32_id (Zlen (e_key e))), (u32_id (Zlen (e_value e))), !u64_id by lia.
  replace (Z.to_nat (Zlen (e_key e) + Zlen (e_value e)))
    with (length (e_key e ++ e_value e)) by (rewrite length_app; unfold Zlen; lia).
  rewrite (proj2 (Nat.ltb_ge _ _)) by (rewrite !length_app; lia).
  replace (Z.to_nat (Zlen (e_key e))) with (length (e_key e)) by (unfold Zlen; lia).
  replace (Z.to_nat (Zlen (e_value e))) with (length (e_value e)) by (unfold Zlen; lia).
  rewrite take_app_length, drop_app_length, take_app_length.
  rewrite (app_assoc (e_key e)), drop_app_length. by destruct e.
Qed.

Lemma decode_block_payload blk fuel :
  Forall entry_fits blk -> (length blk <= fuel)%nat ->
  decode_data_block fuel (block_payload blk) = Some blk.
Proof.
  unfold block_payload. revert fuel; induction blk as [|e blk IH]; intros fuel Hf Hl.
  - by destruct fuel.
  - inversion_clear Hf. cbn [length] in Hl. destruct fuel as [|fuel]; [lia|].
    cbn [map concat]. rewrite decode_entry_step by done. rewrite IH by (done || lia). done.
Qed.

Lemma block_payload_length blk : (length blk <= length (block_payload blk))%nat.
Proof.
  unfold block_payload. induction blk as [|e blk IH]; cbn [map concat length]; [lia|].
  rewrite length_app, length_encode_entry. unfold entry_size. lia.
Qed.

Definition rec_fits (r : IndexRec) : Prop :=
  0 <= ix_off r < 2 ^ 64 /\ 0 <= ix_len r < 2 ^ 32 /\ Zlen (first_key r) < 2 ^ 32.

Lemma length_encode_index_rec r : length (encode_index_rec r) = (16 + length (first_key r))%nat.
Proof. unfold encode_index_rec. rewrite !length_app. cbn. lia. Qed.

Lemma parse_index_step fuel r tail :
  rec_fits r ->
  parse_index (S fuel) (encode_index_rec r ++ tail) =
  match parse_index fuel tail with Some rs => Some (r :: rs) | None => None end.
Proof.
  intros (Ho & Hl & Hk). pose proof (Zlen_nonneg (first_key r)).
  assert (Hlen : length (encode_index_rec r ++ tail) =
                 (16 + length (first_key r) + length tail)%nat)
    by (rewrite length_app, length_encode_index_rec; lia).
  cbn [parse_index]. destruct (encode_index_rec r ++ tail) as [|b0 p0] eqn:Ep; [cbn in Hlen; lia|].
  rewrite <- Ep in *. clear Ep b0 p0. rewrite Hlen.
  rewrite (proj2 (Nat.ltb_ge _ 16)) by lia.
  unfold encode_index_rec. rewrite <- !app_assoc. skip_fields.
  rewrite !(u32_id (u32 _)) by apply u32_range.
  rewrite (u32_id (Zlen _)), (u32_id (ix_len r)), !u64_id by lia.
  replace (Z.to_nat (Zlen (first_key r))) with (length (first_key r)) by (unfold Zlen; lia).
  rewrite (proj2 (Nat.ltb_ge _ _)) by (rewrite length_app; lia).
  rewrite take_app_length, drop_app_length. by destruct r.
Qed.

Lemma parse_index_encode rs fuel :
  Forall rec_fits rs -> (length rs <= fuel)%nat ->
  parse_index fuel (concat (map encode_index_rec rs)) = Some rs.
Proof.
  revert fuel; induction rs as [|r rs IH]; intros fuel Hf Hl; [by destruct fuel|].
  inversion_clear Hf. cbn [length] in Hl. destruct fuel as [|fuel]; [lia|].
  cbn [map concat]. rewrite parse_index_step by done. rewrite IH by (done || lia). done.
Qed.

Lemma index_payload_length rs : (length rs <= length (concat (map encode_index_rec rs)))%nat.
Proof.
  induction rs as [|r rs IH]; cbn [map concat length]; [lia|].
  rewrite length_app, length_encode_index_rec. lia.
Qed.

(** ** The whole image *)

Lemma read_data_blocks_frames blks : forall a c,
  Zlen (a ++ framed_blocks blks ++ c) < 2 ^ 32 -> Forall (Forall entry_fits) blks ->
  read_data_blocks (a ++ framed_blocks blks ++ c) (map fst (index_at (Zlen a) blks)) = Some blks.
Proof.
  induction blks as [|b blks IH]; intros a c Hlen Hf; [done|].
  inversion_clear Hf as [|? ? Hb Hbs].
  unfold framed_blocks in *. cbn [index_at map fst concat read_data_blocks ix_off ix_len] in *.
  rewrite <- app_assoc in *.
  rewrite read_block_frame by exact Hlen.
  rewrite decode_block_payload; [|done|apply block_payload_length].
  rewrite (app_assoc a), <- Zlen_app. rewrite IH; [done| |done].
  by rewrite <- app_assoc.
Qed.

Definition index_payload (blks : list (list entry)) : list byte :=
  concat (map encode_index_rec (map fst (index_at 0 blks))).

(** The image [build] writes, as a function of the packed blocks. *)
Definition body_of (blks : list (list entry)) (bf : BloomFilter.t) : list byte :=
  framed_blocks blks ++ write_block (index_payload blks) ++ write_block (BloomFilter.encode bf).

Definition footer_of (blks : list (list entry)) (bf : BloomFilter.t) (mn mx : Z) : list byte :=
  footer_body (Zlen (framed_blocks blks)) (framed_len (index_payload blks))
    (Zlen (framed_blocks blks ++ write_block (index_payload blks)))
    (framed_len (BloomFilter.encode bf)) mn mx.

Lemma build_image es :
  exists blks,
    SSTableBuilder.blocks (build es) = blks /\ concat blks = es /\
    (forall b, In b blks -> b <> []) /\
    combine (block_offs (build es)) (combine (block_lens (build es)) blks) =
      map (fun b => (ix_off b.1, (ix_len b.1, b.2))) (index_at 0 blks) /\
    let bf := bloom (build es) in
    bf = BloomFilter.build (distinct_keys es) /\
    bytes (build es) =
      body_of blks bf ++ footer_of blks bf (min_seq (build es)) (max_seq (build es)) ++
      put_u32 (Crc32.compute (footer_of blks bf (min_seq (build es)) (max_seq (build es)))).
Proof.
  unfold build. destruct (pack_blocks (length es) [] es) as [out bs] eqn:Ep.
  apply pack_blocks_spec in Ep as (Hc & Hne & Hout & Hix); [|lia].
  cbn [app] in Hout. change (Zlen []) with 0 in Hix.
  exists (map snd bs). cbn [SSTableBuilder.blocks block_offs block_lens bloom bytes min_seq max_seq].
  split; [done|]. split; [done|]. split; [done|]. split; [|split; [done|]].
  - rewrite <- Hix. clear. induction bs as [|[r b] bs IH]; [done|]. cbn. by rewrite IH.
  - assert (Hip : concat (map (fun b => encode_index_rec b.1) bs) = index_payload (map snd bs)).
    { unfold index_payload. rewrite <- Hix. by rewrite map_map. }
    rewrite Hip, Hout. unfold body_of, footer_of. by rewrite <- !app_assoc.
Qed.

Lemma length_footer a b c d mn mx : length (footer_body a b c d mn mx) = 48%nat.
Proof. done. Qed.

Section footer.
Context (pre : list byte) (io il bo bl mn mx : Z).
Context (Hio : 0 <= io < 2 ^ 64) (Hil : 0 <= il < 2 ^ 32)
        (Hbo : 0 <= bo < 2 ^ 64) (Hbl : 0 <= bl < 2 ^ 32)
        (Hmn : 0 <= mn < 2 ^ 64) (Hmx : 0 <= mx < 2 ^ 64).

Notation foot := (footer_body io il bo bl mn mx).
Notation image := (pre ++ foot ++ put_u32 (Crc32.compute foot)).

(** A sound footer is accepted, and the fields read back. *)
Lemma parse_footer id :
  parse image id =
  match read_block image io il with
  | None => None
  | Some ip =>
      match parse_index (length ip) ip with
      | None => None
      | Some index =>
          match read_block image bo bl with
          | None => None
          | Some bp =>
              match BloomFilter.decode bp with
              | None => None
              | Some bf =>
                  match read_data_blocks image index with
                  | None => None
                  | Some blocks => Some (SSTableReader.mk mn mx id index blocks bf)
                  end
              end
          end
      end
  end.
Proof.
  unfold parse.
  assert (Hlen : length image = (length pre + 52)%nat)
    by (rewrite !length_app, length_footer, length_put_u32; lia).
  rewrite Hlen. unfold kSstFooterBytes.
  rewrite (proj2 (Nat.ltb_ge _ _)) by lia.
  replace (length pre + 52 - 52)%nat with (length pre) by lia. rewrite drop_app_length.
  change (52 - 4)%nat with (length foot). rewrite take_app_length.
  replace 48%nat with (length foot) by done. rewrite drop_app_length.
  rewrite <- (app_nil_r (put_u32 (Crc32.compute foot))), get_put_u32.
  rewrite (u32_id (Crc32.compute _)) by apply Crc32.compute_range.
  rewrite app_nil_r.
  assert (Hf : forall tl, get_u32 (drop 44 (foot ++ tl)) = kSstMagic /\
               get_u32 (drop 40 (foot ++ tl)) = Format.kSstableVersion /\
               get_u64 (foot ++ tl) = io /\ get_u32 (drop 8 (foot ++ tl)) = il /\
               get_u64 (drop 12 (foot ++ tl)) = bo /\ get_u32 (drop 20 (foot ++ tl)) = bl /\
               get_u64 (drop 24 (foot ++ tl)) = mn /\ get_u64 (drop 32 (foot ++ tl)) = mx).
  { intros tl. unfold footer_body. rewrite <- !app_assoc. skip_fields.
    rewrite ?u64_id, ?u32_id by (unfold kSstMagic, Format.kSstableVersion; lia). done. }
  destruct (Hf (put_u32 (Crc32.compute foot))) as (-> & -> & -> & -> & -> & -> & -> & ->).
  rewrite !Z.eqb_refl. done.
Qed.
End footer.

(** ** Bounds that follow from the image's length *)

Lemma entry_in_payload b e :
  In e b -> Zlen (e_key e) + Zlen (e_value e) + 17 <= Zlen (block_payload b).
Proof.
  unfold block_payload. induction b as [|x b IH]; [done|]. intros H. cbn [map concat].
  rewrite Zlen_app. pose proof (Zlen_nonneg (concat (map encode_entry b))).
  assert (Hx : Zlen (encode_entry x) = Zlen (e_key x) + Zlen (e_value x) + 17).
  { unfold Zlen at 1. rewrite length_encode_entry. unfold entry_size, Zlen. lia. }
  pose proof (Zlen_nonneg (e_key x)). pose proof (Zlen_nonneg (e_value x)).
  destruct H as [->|H]; [|apply IH in H]; lia.
Qed.

Lemma payload_in_frames blks b :
  In b blks -> Zlen (block_payload b) + 4 <= Zlen (framed_blocks blks).
Proof.
  unfold framed_blocks. induction blks as [|x blks IH]; [done|]. intros H. cbn [map concat].
  rewrite Zlen_app, length_write_block.
  pose proof (Zlen_nonneg (concat (map (fun b => write_block (block_payload b)) blks))).
  pose proof (Zlen_nonneg (block_payload x)). destruct H as [->|H]; [|apply IH in H]; lia.
Qed.

Lemma entries_in_frames blks : 17 * Zlen (concat blks) <= Zlen (framed_blocks blks).
Proof.
  unfold framed_blocks. induction blks as [|b blks IH]; [done|]. cbn [map concat].
  rewrite !Zlen_app, length_write_block.
  assert (17 * Zlen b <= Zlen (block_payload b)); [|lia].
  unfold block_payload. induction b as [|e b IHb]; [done|]. cbn [map concat].
  rewrite Zlen_app. unfold Zlen at 2. rewrite length_encode_entry. unfold entry_size.
  change (e :: b) with ([e] ++ b). rewrite Zlen_app. change (Zlen [e]) with 1. lia.
Qed.

Lemma index_at_fits blks : forall off,
  0 <= off -> off + Zlen (framed_blocks blks) < 2 ^ 32 ->
  Forall rec_fits (map fst (index_at off blks)).
Proof.
  induction blks as [|b blks IH]; intros off Ho Hl; [constructor|].
  unfold framed_blocks in *. cbn [map concat] in Hl. rewrite Zlen_app in Hl.
  pose proof (Zlen_nonneg (concat (map (fun b => write_block (block_payload b)) blks))).
  pose proof (Zlen_nonneg (block_payload b)). rewrite length_write_block in Hl.
  cbn [index_at map fst]. constructor.
  - repeat split; cbn [ix_off ix_len first_key]; try lia; try apply u32_range.
    destruct b as [|e b]; cbn [block_first]; [done|].
    pose proof (entry_in_payload (e :: b) e (or_introl eq_refl)).
    pose proof (Zlen_nonneg (e_value e)). lia.
  - rewrite length_write_block. apply IH; lia.
Qed.

Lemma max_seq_range es m :
  0 <= m < 2 ^ 64 -> Forall (fun e => 0 <= e_seq e < 2 ^ 64) es ->
  0 <= fold_left max_seq_step es m < 2 ^ 64.
Proof.
  revert m; induction es as [|e es IH]; intros m Hm Hf; cbn [fold_left]; [done|].
  inversion_clear Hf. apply IH; [|done]. unfold max_seq_step. destruct (_ <? _); lia.
Qed.

Lemma min_seq_range es m :
  0 <= m < 2 ^ 64 -> Forall (fun e => 0 <= e_seq e < 2 ^ 64) es ->
  0 <= fold_left min_seq_step es m < 2 ^ 64.
Proof.
  revert m; induction es as [|e es IH]; intros m Hm Hf; cbn [fold_left]; [done|].
  inversion_clear Hf. apply IH; [|done]. unfold min_seq_step. destruct (_ || _); lia.
Qed.

Lemma build_seq_range es :
  Forall (fun e => 0 <= e_seq e < 2 ^ 64) es ->
  0 <= min_seq (build es) < 2 ^ 64 /\ 0 <= max_seq (build es) < 2 ^ 64.
Proof.
  intros H. unfold build. destruct (pack_blocks _ _ _). cbn [min_seq max_seq]. split.
  - apply min_seq_range; [unfold kNoSeq; lia|done].
  - apply max_seq_range; [unfold kNoSeq; lia|done].
Qed.

Lemma small_capacity n : 0 <= n -> 17 * n < 2 ^ 32 -> BloomFilter.capacity_ok n.
Proof.
  intros H0 Hn. unfold BloomFilter.capacity_ok, BloomFilter.bits_per_key.
  rewrite (u32_id n), u32_id by lia. lia.
Qed.

(** The hypothesis every use of a built table shares: its image is addressable
    by the 32-bit lengths of the format, its sequences by 64 bits. *)
Definition image_ok (es : list entry) : Prop :=
  Zlen (bytes (build es)) < 2 ^ 32 /\ Forall (fun e => 0 <= e_seq e < 2 ^ 64) es.

Lemma image_ok_frames es :
  image_ok es ->
  17 * Zlen es < 2 ^ 32 /\
  Zlen (framed_blocks (SSTableBuilder.blocks (build es))) < 2 ^ 32.
Proof.
  intros [Hl _]. destruct (build_image es) as (blks & -> & Hc & _ & _ & _ & Hb).
  rewrite Hb in Hl. unfold body_of in Hl. rewrite !Zlen_app in Hl.
  pose proof (entries_in_frames blks) as He. rewrite Hc in He.
  match type of Hl with ?a + (?b + ?c) + (?d + ?e) < _ =>
    assert (0 <= b /\ 0 <= c /\ 0 <= d /\ 0 <= e) by (repeat split; apply Zlen_nonneg) end.
  lia.
Qed.

Lemma small_run_capacity es :
  17 * Zlen es < 2 ^ 32 -> BloomFilter.capacity_ok (Zlen (distinct_keys es)).
Proof.
  intros H. apply small_capacity; [apply Zlen_nonneg|].
  pose proof (fold_push_distinct_length es []) as Hd.
  unfold Zlen, distinct_keys in *. cbn [length] in Hd. lia.
Qed.

Lemma image_ok_capacity es :
  image_ok es -> BloomFilter.capacity_ok (Zlen (distinct_keys es)).
Proof. intros H. by apply small_run_capacity, image_ok_frames. Qed.

Lemma image_ok_fits es :
  image_ok es -> Forall (Forall entry_fits) (SSTableBuilder.blocks (build es)).
Proof.
  intros H. pose proof (image_ok_frames es H) as [_ Hfr]. destruct H as [_ Hs].
  destruct (build_image es) as (blks & Hbl & Hc & _). rewrite Hbl in *.
  apply List.Forall_forall. intros b Hb. apply List.Forall_forall. intros e He.
  apply payload_in_frames in Hb as Hp. apply entry_in_payload in He as Hq.
  pose proof (Zlen_nonneg (e_key e)). pose proof (Zlen_nonneg (e_value e)).
  repeat split; try lia; rewrite List.Forall_forall in Hs; apply Hs; rewrite <- Hc;
    apply in_concat; eauto.
Qed.

Lemma adopt_index_eq es id :
  SSTableReader.index_ (SSTableReader.adopt_built (build es) id) =
  map fst (index_at 0 (SSTableBuilder.blocks (build es))).
Proof.
  destruct (build_image es) as (blks & Hbl & _ & _ & Hcomb & _).
  unfold SSTableReader.adopt_built, SSTableReader.adopt_index. cbn [SSTableReader.index_].
  rewrite Hbl, Hcomb, map_map. clear. generalize 0.
  induction blks as [|b blks IH]; intros off; [done|]. cbn [index_at map fst snd ix_off ix_len].
  rewrite IH. done.
Qed.

Lemma parse_index_payload blks :
  Zlen (framed_blocks blks) < 2 ^ 32 ->
  parse_index (length (index_payload blks)) (index_payload blks) =
  Some (map fst (index_at 0 blks)).
Proof.
  intros H. unfold index_payload at 2. apply parse_index_encode; [|apply index_payload_length].
  apply index_at_fits; lia.
Qed.

Lemma build_collect es id :
  SSTableReader.collect_entries (SSTableReader.adopt_built (build es) id) = es.
Proof.
  destruct (build_image es) as (blks & Hbl & Hc & _). unfold SSTableReader.collect_entries.
  cbn [SSTableReader.adopt_built SSTableReader.blocks_]. by rewrite Hbl.
Qed.

(** The three regions of an image, read back. *)
Lemma image_reads blks bf tail :
  let image := body_of blks bf ++ tail in
  Zlen image < 2 ^ 32 -> Forall (Forall entry_fits) blks ->
  read_block image (Zlen (framed_blocks blks)) (framed_len (index_payload blks))
    = Some (index_payload blks) /\
  read_block image (Zlen (framed_blocks blks ++ write_block (index_payload blks)))
             (framed_len (BloomFilter.encode bf)) = Some (BloomFilter.encode bf) /\
  read_data_blocks image (map fst (index_at 0 blks)) = Some blks.
Proof.
  intros image Hlen Hf. unfold image, body_of in *. rewrite <- !app_assoc in *.
  split; [by apply read_block_frame|]. split.
  - rewrite (app_assoc (framed_blocks blks)) in *. by apply read_block_frame.
  - by apply (read_data_blocks_frames blks []).
Qed.

(** *** The loader returns the reader the builder installs *)
Lemma parse_build es id :
  image_ok es -> parse (bytes (build es)) id = Some (SSTableReader.adopt_built (build es) id).
Proof.
  intros H. pose proof (image_ok_frames es H) as [_ Hfr].
  pose proof (image_ok_capacity es H) as Hcap. pose proof (image_ok_fits es H) as Hfits.
  pose proof (adopt_index_eq es id) as Hix. pose proof (build_seq_range es (proj2 H)) as [Hmn Hmx].
  destruct H as [Hlen _].
  destruct (build_image es) as (blks & Hbl & _ & _ & _ & Hbf & Himg). rewrite Hbl in *.
  rewrite Himg in *. pose proof (image_reads _ _ _ Hlen Hfits) as (H1 & H2 & H3).
  assert (Hpre : Zlen (framed_blocks blks ++ write_block (index_payload blks)) < 2 ^ 32).
  { unfold body_of in Hlen. rewrite (app_assoc (framed_blocks blks)), <- app_assoc, Zlen_app in Hlen.
    match type of Hlen with _ + Zlen ?x < _ => pose proof (Zlen_nonneg x) end. lia. }
  unfold footer_of in *. rewrite parse_footer; try apply u32_range; try done;
    try (split; [apply Zlen_nonneg|lia]).
  rewrite H1, parse_index_payload, H2, Hbf, BloomFilter.decode_encode_build by done.
  rewrite <- Hbf, H3, <- Hix. unfold SSTableReader.adopt_built.
  cbn [SSTableReader.index_]. by rewrite Hbl.
Qed.

Lemma max_seq_covers es m :
  m <= fold_left max_seq_step es m /\
  forall e, In e es -> e_seq e <= fold_left max_seq_step es m.
Proof.
  revert m; induction es as [|x es IH]; intros m; cbn [fold_left]; [split; [lia|done]|].
  destruct (IH (max_seq_step m x)) as [H1 H2]. unfold max_seq_step at 1 in H1.
  split; [destruct (m <? e_seq x) eqn:E; lia|].
  intros e [->|He]; [destruct (m <? e_seq e) eqn:E; lia|by apply H2].
Qed.

Lemma max_seq_bound es e : In e es -> e_seq e <= max_seq (build es).
Proof.
  intros He. unfold build. destruct (pack_blocks _ _ _). by apply max_seq_covers.
Qed.

(** *** The installed reader is well-formed *)
Lemma adopt_reader_wf es id :
  BloomFilter.capacity_ok (Zlen (distinct_keys es)) -> sorted_run es ->
  (forall e, In e es -> 0 <= e_seq e) -> reader_wf (SSTableReader.adopt_built (build es) id).
Proof.
  intros Hcap Hs Hpos. pose proof (adopt_index_eq es id) as Hix.
  destruct (build_image es) as (blks & Hbl & Hc & Hne & _ & Hbf & _). rewrite Hbl in *.
  constructor; rewrite ?build_collect; [| |done| |done|].
  - rewrite Hix. cbn [SSTableReader.adopt_built SSTableReader.blocks_]. rewrite Hbl. clear.
    generalize 0. induction blks as [|b blks IH]; intros off; [done|]. cbn. by rewrite IH.
  - cbn [SSTableReader.adopt_built SSTableReader.blocks_]. by rewrite Hbl.
  - intros e He. cbn [SSTableReader.adopt_built SSTableReader.bloom_]. rewrite Hbf.
    apply BloomFilter.build_contains; [done|]. by apply distinct_keys_in.
  - intros e He. by apply max_seq_bound.
Qed.

Lemma build_reader_wf es id :
  image_ok es -> sorted_run es -> reader_wf (SSTableReader.adopt_built (build es) id).
Proof.
  intros Hok Hs. apply adopt_reader_wf; [by apply image_ok_capacity|done|].
  intros e He. destruct Hok as [_ Hr]. rewrite List.Forall_forall in Hr. by apply Hr.
Qed.

(** ** Damage

    [close] relates two buffers of one length that differ at most inside one
    window of four bytes; a slice of close buffers is close, and two close
    frames that both check are equal. *)

Definition close (x y : list byte) : Prop :=
  exists p w v q, x = p ++ w ++ q /\ y = p ++ v ++ q /\
                  length w = length v /\ (length w <= 4)%nat.

Definition slice (off n : nat) (l : list byte) : list byte := take n (drop off l).

Definition framed (x : list byte) : Prop := exists b, x = write_block b.

Lemma close_length x y : close x y -> length x = length y.
Proof. intros (p & w & v & q & -> & -> & H & _). rewrite !length_app. lia. Qed.

Lemma slice_app off n l k :
  slice off n (l ++ k) = slice off n l ++ slice (off - length l) (n - length (drop off l)) k.
Proof. unfold slice. by rewrite skipn_app, firstn_app. Qed.

Lemma close_slice off n x y : close x y -> close (slice off n x) (slice off n y).
Proof.
  intros (p & w & v & q & -> & -> & Hl & H4). rewrite !slice_app.
  rewrite !length_drop, Hl.
  eexists _, _, _, _. split; [reflexivity|]. split; [reflexivity|].
  unfold slice. rewrite !length_take, !length_drop. lia.
Qed.

Lemma close_framed x y : close x y -> framed x -> framed y -> x = y.
Proof.
  intros (p & w & v & q & Hx & Hy & Hl & H4) [b Hb] [b' Hb'].
  destruct (list_eq_dec Byte.byte_eq_dec w v) as [->|Hne]; [congruence|].
  exfalso. eapply (Crc32.framed_window b b' p w v q); try done.
  - by rewrite <- Hx, Hb.
  - by rewrite <- Hy, Hb'.
Qed.

(** A block that [read_block] accepts is a frame. *)
Lemma framed_slice l n :
  length l = (n + 4)%nat -> get_u32 (drop n l) = Crc32.compute (take n l) -> l = write_block (take n l).
Proof.
  intros Hl Hg. unfold write_block. rewrite <- Hg.
  rewrite put_get_u32 by (rewrite length_drop; lia).
  rewrite (take_ge (drop n l)) by (rewrite length_drop; lia). by rewrite take_drop.
Qed.

Lemma read_block_framed image off len b :
  0 <= off -> 0 <= len -> off + len <= Zlen image -> Zlen image < 2 ^ 32 ->
  read_block image off len = Some b ->
  slice (Z.to_nat off) (Z.to_nat len) image = write_block b.
Proof.
  intros Ho Hl Hi Hlen. unfold read_block, kBlockCrcBytes, slice. rewrite u64_id by lia.
  destruct (len <? Z.of_nat 4) eqn:E; [done|]. destruct (Zlen image <? off + len) eqn:E1; [done|].
  set (p := drop _ image). set (n := Z.to_nat (len - Z.of_nat 4)).
  destruct (_ =? _) eqn:Ec; cbn [negb]; [|done]. intros [= <-]. apply Z.eqb_eq in Ec.
  assert (Hp : length p = (length image - Z.to_nat off)%nat) by apply length_drop.
  replace (take n p) with (take n (take (Z.to_nat len) p)) in *
    by (rewrite take_take; f_equal; lia).
  apply framed_slice; [rewrite length_take; unfold Zlen in *; lia|].
  rewrite <- Ec. rewrite <- (take_drop (Z.to_nat len) p) at 2.
  rewrite drop_app_le by (rewrite length_take; unfold Zlen in *; lia).
  rewrite get_u32_app; [done|]. rewrite length_drop, length_take. unfold Zlen in *. lia.
Qed.

Lemma write_block_inj b b' : write_block b = write_block b' -> b = b'.
Proof.
  intros E. assert (Hl : length b = length b').
  { apply (f_equal length) in E. unfold write_block in E. rewrite !length_app in E. cbn in E. lia. }
  by apply app_inj_1 in E as [E _].
Qed.

Lemma read_block_close x y off len b b' :
  close x y -> 0 <= off -> 0 <= len -> off + len <= Zlen x -> Zlen x < 2 ^ 32 ->
  read_block x off len = Some b -> read_block y off len = Some b' ->
  b' = b /\ slice (Z.to_nat off) (Z.to_nat len) y = write_block b.
Proof.
  intros Hc Ho Hl Hi Hn Hx Hy. pose proof (close_length x y Hc) as Hxy.
  apply read_block_framed in Hx; [|done..].
  apply read_block_framed in Hy; [|unfold Zlen in *; lia..].
  assert (E : write_block b = write_block b').
  { rewrite <- Hx, <- Hy. apply close_framed; [by apply close_slice| |].
    - rewrite Hx. by eexists.
    - rewrite Hy. by eexists. }
  split; [symmetry; by apply write_block_inj|]. congruence.
Qed.

(** The form the whole-image argument uses: the frame of [x] at [a]. *)
Lemma read_block_close_at a p c y b' :
  close (a ++ write_block p ++ c) y -> Zlen (a ++ write_block p ++ c) < 2 ^ 32 ->
  read_block y (Zlen a) (framed_len p) = Some b' ->
  b' = p /\ slice (length a) (length (write_block p)) y = write_block p.
Proof.
  intros Hc Hn Hy. pose proof (read_block_frame a p c Hn) as Hx.
  rewrite !Zlen_app, length_write_block in Hn.
  pose proof (Zlen_nonneg a). pose proof (Zlen_nonneg p). pose proof (Zlen_nonneg c).
  assert (Hf : framed_len p = Zlen (write_block p)).
  { unfold framed_len, kBlockCrcBytes. rewrite u32_id by lia. by rewrite length_write_block. }
  rewrite Hf in *. pose proof (length_write_block p).
  destruct (read_block_close (a ++ write_block p ++ c) y (Zlen a) (Zlen (write_block p)) p b')
    as [-> Hs]; rewrite ?Zlen_app; try done; try lia.
  split; [done|]. unfold Zlen in Hs. by rewrite !Nat2Z.id in Hs.
Qed.

Lemma slice_add o m n l : slice o (m + n) l = slice o m l ++ slice (o + m) n l.
Proof. unfold slice. by rewrite take_add_split, drop_drop. Qed.

Lemma data_blocks_close blks : forall a c y bs',
  close (a ++ framed_blocks blks ++ c) y -> Zlen (a ++ framed_blocks blks ++ c) < 2 ^ 32 ->
  read_data_blocks y (map fst (index_at (Zlen a) blks)) = Some bs' ->
  slice (length a) (length (framed_blocks blks)) y = framed_blocks blks.
Proof.
  induction blks as [|b blks IH]; intros a c y bs' Hc Hn; [done|].
  unfold framed_blocks in *. cbn [index_at map fst concat read_data_blocks ix_off ix_len].
  cbn [map concat] in Hc, Hn. rewrite <- app_assoc in Hc, Hn.
  destruct (read_block y _ _) as [dp|] eqn:Er; [|done].
  destruct (decode_data_block _ dp); [|done].
  destruct (read_data_blocks y _) as [bs|] eqn:Ed; [|done]. intros _.
  apply (read_block_close_at _ _ _ _ _ Hc Hn) in Er as [_ Hs].
  rewrite length_app, slice_add, Hs. f_equal.
  rewrite app_assoc in Hc, Hn. rewrite <- Zlen_app in Ed.
  specialize (IH _ _ _ _ Hc Hn Ed). by rewrite length_app in IH.
Qed.

Lemma parse_footer_framed y id r :
  (52 <= length y)%nat -> parse y id = Some r -> framed (slice (length y - 52) 52 y).
Proof.
  intros Hl. unfold parse, kSstFooterBytes. rewrite (proj2 (Nat.ltb_ge _ _)) by lia.
  set (f := drop _ y). destruct (_ =? kSstMagic); [|done]. cbn [negb].
  destruct (_ =? Crc32.compute _) eqn:E; [|done]. intros _. apply Z.eqb_eq in E.
  exists (take 48 f). assert (Hf : length f = 52%nat) by (unfold f; rewrite length_drop; lia).
  unfold slice. fold f. rewrite take_ge by lia. apply (framed_slice f 48); [done|exact E].
Qed.

(** The footer of a loaded close image is the original's. *)
Lemma footer_close pre foot y id r :
  length foot = 48%nat -> close (pre ++ write_block foot) y -> parse y id = Some r ->
  exists pre', y = pre' ++ write_block foot /\ length pre' = length pre.
Proof.
  intros Hf Hc Hp. pose proof (close_length _ _ Hc) as Hly.
  assert (Hfl : length (write_block foot) = 52%nat)
    by (unfold write_block; rewrite length_app, Hf; done).
  rewrite length_app, Hfl in Hly.
  assert (Hfy : framed (slice (length pre) 52 y)).
  { replace (length pre) with (length y - 52)%nat by lia. apply (parse_footer_framed y id r); [lia|done]. }
  assert (Hx : slice (length pre) 52 (pre ++ write_block foot) = write_block foot).
  { unfold slice. rewrite drop_app_length. apply take_ge. lia. }
  pose proof (close_framed _ _ (close_slice (length pre) 52 _ _ Hc)) as Hcl. rewrite Hx in Hcl.
  exists (take (length pre) y). split; [|rewrite length_take; lia].
  rewrite Hcl; [|by eexists|done]. unfold slice.
  rewrite (take_ge (drop _ y)) by (rewrite length_drop; lia). by rewrite take_drop.
Qed.

(** The body regions of a loaded close image are the original's. *)
Lemma body_close blks bf tail y ip bp bs :
  close (body_of blks bf ++ tail) y -> Zlen (body_of blks bf ++ tail) < 2 ^ 32 ->
  read_block y (Zlen (framed_blocks blks)) (framed_len (index_payload blks)) = Some ip ->
  read_block y (Zlen (framed_blocks blks ++ write_block (index_payload blks)))
             (framed_len (BloomFilter.encode bf)) = Some bp ->
  read_data_blocks y (map fst (index_at 0 blks)) = Some bs ->
  take (length (body_of blks bf)) y = body_of blks bf.
Proof.
  intros Hc Hn Hi Hb Hd. unfold body_of in *. rewrite <- !app_assoc in Hc, Hn.
  apply (read_block_close_at _ _ _ _ _ Hc Hn) in Hi as [_ Hi].
  apply (data_blocks_close blks [] _ _ _ Hc Hn) in Hd. cbn [length] in Hd.
  rewrite (app_assoc (framed_blocks blks)) in Hc, Hn.
  apply (read_block_close_at _ _ _ _ _ Hc Hn) in Hb as [_ Hb].
  rewrite length_app in Hb.
  change (take ?n y) with (slice 0 n y). rewrite !length_app, !slice_add.
  rewrite Hd. cbn [Nat.add]. by rewrite Hi, Hb.
Qed.

(** A loaded image that differs from a built one in at most one four-byte
    window does not differ at all. *)
Lemma close_parse es y id r :
  image_ok es -> close (bytes (build es)) y -> parse y id = Some r -> y = bytes (build es).
Proof.
  intros Hok Hc Hp. pose proof (image_ok_frames es Hok) as [_ Hfr].
  pose proof (build_seq_range es (proj2 Hok)) as [Hmn Hmx]. destruct Hok as [Hlen _].
  destruct (build_image es) as (blks & Hbl & _ & _ & _ & _ & Himg). rewrite Hbl in *.
  rewrite Himg in *.
  destruct (footer_close _ _ _ _ _ (length_footer _ _ _ _ _ _) Hc Hp) as (pre & Hy & Hpl).
  assert (Hpre : Zlen (framed_blocks blks ++ write_block (index_payload blks)) < 2 ^ 32).
  { unfold body_of in Hlen. rewrite (app_assoc (framed_blocks blks)), <- app_assoc, Zlen_app in Hlen.
    match type of Hlen with _ + Zlen ?x < _ => pose proof (Zlen_nonneg x) end. lia. }
  unfold footer_of in Hy. set (foot := footer_body _ _ _ _ _ _) in Hy.
  assert (Hy' : y = pre ++ foot ++ put_u32 (Crc32.compute foot)) by exact Hy.
  rewrite Hy' in Hp. unfold foot in Hp.
  rewrite parse_footer in Hp; try apply u32_range; try done; try (split; [apply Zlen_nonneg|lia]).
  fold foot in Hp. rewrite <- Hy' in Hp.
  destruct (read_block y (Zlen (framed_blocks blks)) _) as [ip|] eqn:E1; [|done].
  assert (Hc1 := Hc). unfold body_of in Hc1. rewrite <- !app_assoc in Hc1.
  assert (Hn1 := Hlen). unfold body_of in Hn1. rewrite <- !app_assoc in Hn1.
  destruct (read_block_close_at _ _ _ _ _ Hc1 Hn1 E1) as [-> _].
  rewrite parse_index_payload in Hp by done.
  destruct (read_block y (Zlen (_ ++ _)) _) as [bp|] eqn:E2; [|done].
  destruct (BloomFilter.decode bp); [|done].
  destruct (read_data_blocks y _) as [bs|] eqn:E3; [|done].
  pose proof (body_close _ _ _ _ _ _ _ Hc Hlen E1 E2 E3) as Hb.
  rewrite Hy in Hb |- *. rewrite <- Hpl, take_app_length in Hb. by rewrite Hb.
Qed.

(** Corruption of a table's image confined to four consecutive bytes,
    wherever it lies (a data block, the index, the Bloom filter, the footer or
    across two of them), makes the loader reject the table. *)
Theorem sst_damage_rejected es p w v q id :
  image_ok es -> bytes (build es) = p ++ w ++ q ->
  length w = length v -> (length w <= 4)%nat -> w <> v ->
  parse (p ++ v ++ q) id = None.
Proof.
  intros Hok Hb Hl H4 Hne. destruct (parse (p ++ v ++ q) id) as [r|] eqn:E; [|done].
  exfalso. apply Hne. apply (close_parse es) in E; [|done|by exists p, w, v, q].
  rewrite Hb in E. apply app_inv_head in E. by apply app_inv_tail in E.
Qed.

(** The loader accepts every image the builder writes and recovers exactly
    the reader [adopt_built] installs without re-reading the bytes. *)
Theorem sst_roundtrip es id :
  image_ok es -> parse (bytes (build es)) id = Some (SSTableReader.adopt_built (build es) id).
Proof. apply parse_build. Qed.

(** C25: on a loaded table a point lookup through the Bloom filter, the sparse
    index and the back-up over spilled blocks returns the newest version of the
    key not above the snapshot, and a range scan returns, in order, every
    version of the run inside the range and not above the snapshot. *)
Theorem sst_reads_exact es id r :
  image_ok es -> sorted_run es -> parse (bytes (build es)) id = Some r ->
  (forall k at_, SSTableReader.lookup r k at_ = newest k at_ es) /\
  (forall rg at_, SSTableReader.scan_into r rg at_ = List.filter (accept rg at_) es).
Proof.
  intros Hok Hs. rewrite parse_build by done. intros [= <-].
  pose proof (build_reader_wf es id Hok Hs) as Hwf. split; intros.
  - rewrite lookup_newest by done. by rewrite build_collect.
  - rewrite scan_into_filter by done. by rewrite build_collect.
Qed.

Definition sample_run : list entry :=
  [Entry [Byte.x61] [Byte.x31] 1 false false;
   Entry [Byte.x61] [] 3 true false;
   Entry [Byte.x62] [Byte.x32; Byte.x33] 2 false false].

Lemma sample_image_ok : image_ok sample_run.
Proof.
  split; [vm_compute; reflexivity|].
  repeat constructor; cbn; lia.
Qed.

Lemma sample_sorted : sorted_run sample_run.
Proof.
  unfold sorted_run, sample_run.
  repeat first [apply SSorted_nil | apply SSorted_cons | apply List.Forall_nil | apply List.Forall_cons];
    unfold ver_lt; cbn; solve [by left | right; split; [done|lia]].
Qed.

Lemma sst_damage_rejected_witness :
  parse (take 17 (bytes (build sample_run)) ++ [Byte.x00] ++ drop 18 (bytes (build sample_run))) 7
  = None.
Proof.
  apply (sst_damage_rejected sample_run _ [nth 17 (bytes (build sample_run)) Byte.x00]).
  - apply sample_image_ok.
  - vm_compute. reflexivity.
  - reflexivity.
  - cbn. lia.
  - vm_compute. intros H. discriminate H.
Defined.

Lemma sst_roundtrip_witness :
  parse (bytes (build sample_run)) 7 = Some (SSTableReader.adopt_built (build sample_run) 7).
Proof. apply (sst_roundtrip sample_run 7), sample_image_ok. Defined.

Lemma sst_reads_exact_witness :
  SSTableReader.lookup (SSTableReader.adopt_built (build sample_run) 7) [Byte.x61] 2
  = Some (Entry [Byte.x61] [Byte.x31] 1 false false).
Proof.
  destruct (sst_reads_exact sample_run 7 (SSTableReader.adopt_built (build sample_run) 7))
    as [H _].
  - apply sample_image_ok.
  - apply sample_sorted.
  - vm_compute. reflexivity.
  - rewrite H. vm_compute. reflexivity.
Defined.
