(* ===== verification/Compaction.v ===== *)
(** Compaction: the k-way merge with version garbage collection
    ([compact_merge] of storage/SSTable.hpp).

    The inputs are the decoded runs of the tables being merged and the
    watermark, the oldest snapshot still readable.  [std::sort] is modelled by
    insertion sort on (key, sequence): versions equal under the comparator are
    identical copies, so the order [std::sort] leaves them in does not show. *)

From Stdlib Require Import ZArith Lia Sorting.Sorted.
From stdpp Require Import base list numbers.
From S2P Require Import Prelude Codec Core Disk Mvcc Bloom SSTable SSTableRead.

(** ** The code *)

(** The comparator of step (2). *)
Definition ver_ltb (a b : entry) : bool :=
  if negb (key_eqb (e_key a) (e_key b)) then key_ltb (e_key a) (e_key b)
  else e_seq a <? e_seq b.

Fixpoint sort_insert (e : entry) (es : list entry) : list entry :=
  match es with
  | [] => [e]
  | x :: es' => if ver_ltb x e then x :: sort_insert e es' else e :: es
  end.

Definition sort_entries (es : list entry) : list entry := fold_right sort_insert [] es.

Definition same_version (a b : entry) : bool :=
  key_eqb (e_key a) (e_key b) && (e_seq a =? e_seq b).

(** Step (3): [uniq] grows at the back. *)
Definition push_uniq (uniq : list entry) (e : entry) : list entry :=
  match list.last uniq with
  | Some u => if same_version u e then uniq else uniq ++ [e]
  | None => uniq ++ [e]
  end.

Definition dedup (es : list entry) : list entry := fold_left push_uniq es [].

(** The versions [i, j) of the key at the front, and the rest. *)
Fixpoint span_key (k : Key) (es : list entry) : list entry * list entry :=
  match es with
  | [] => ([], [])
  | e :: es' =>
      if key_eqb (e_key e) k
      then let '(vs, rest) := span_key k es' in (e :: vs, rest)
      else ([], es)
  end.

(** The number of leading versions at or below the watermark: [floor + 1]. *)
Fixpoint floor_count (w : Z) (vs : list entry) : nat :=
  match vs with
  | e :: vs' => if e_seq e <=? w then S (floor_count w vs') else O
  | [] => O
  end.

Definition gc_key (w : Z) (vs : list entry) : list entry :=
  match floor_count w vs with
  | O => vs
  | S fl =>
      let drop_lone_tombstone :=
        match vs !! fl with
        | Some e => e_tomb e && (S fl =? length vs)%nat
        | None => false
        end in
      if drop_lone_tombstone then [] else drop fl vs
  end.

Fixpoint gc_groups (fuel : nat) (w : Z) (es : list entry) : list entry :=
  match fuel, es with
  | S fuel', e :: _ =>
      let '(vs, rest) := span_key (e_key e) es in
      gc_key w vs ++ gc_groups fuel' w rest
  | _, _ => []
  end.

Definition compact_merge (runs : list (list entry)) (watermark : Z) : list entry :=
  let uniq := dedup (sort_entries (concat runs)) in
  gc_groups (length uniq) watermark uniq.

(** ** Sorting and deduplication *)

Definition ver_le (a b : entry) : Prop := ver_ltb b a = false.

Lemma ver_ltb_lt a b : ver_ltb a b = true <-> ver_lt a b.
Proof.
  unfold ver_ltb, ver_lt. destruct (key_eqb_spec (e_key a) (e_key b)) as [E|E]; cbn [negb].
  - rewrite E, key_ltb_irrefl, Z.ltb_lt. naive_solver.
  - naive_solver.
Qed.

Lemma ver_le_cases a b :
  ver_le a b <-> ver_lt a b \/ (e_key a = e_key b /\ e_seq a = e_seq b).
Proof.
  unfold ver_le. split.
  - intros H. destruct (key_trichotomy (e_key a) (e_key b)) as [Hk|[Hk|Hk]].
    + by left; left.
    + destruct (Z.lt_trichotomy (e_seq a) (e_seq b)) as [Hs|[Hs|Hs]].
      * left. by right.
      * by right.
      * assert (ver_ltb b a = true) as Hb by (apply ver_ltb_lt; right; done). congruence.
    + assert (ver_ltb b a = true) as Hb by (apply ver_ltb_lt; by left). congruence.
  - intros H. destruct (ver_ltb b a) eqn:E; [|done]. apply ver_ltb_lt in E.
    destruct H as [H|[Hk Hs]].
    + exfalso. eapply ver_lt_irrefl. by etransitivity.
    + destruct E as [E|[_ E]]; [|lia]. by rewrite Hk, key_ltb_irrefl in E.
Qed.

#[global] Instance ver_le_trans : Transitive ver_le.
Proof.
  intros a b c. rewrite !ver_le_cases. intros [H1|[Hk1 Hs1]] [H2|[Hk2 Hs2]].
  - left. by etransitivity.
  - left. destruct H1 as [H1|[? ?]]; [left; by rewrite <- Hk2|right; split; [congruence|lia]].
  - left. destruct H2 as [H2|[? ?]]; [left; by rewrite Hk1|right; split; [congruence|lia]].
  - right. split; [congruence|lia].
Qed.

Lemma sort_insert_in e es x : In x (sort_insert e es) <-> x = e \/ In x es.
Proof.
  induction es as [|y es IH]; cbn; [naive_solver|].
  destruct (ver_ltb y e); cbn; [rewrite IH|]; naive_solver.
Qed.

Lemma sort_insert_sorted e es :
  StronglySorted ver_le es -> StronglySorted ver_le (sort_insert e es).
Proof.
  induction es as [|y es IH]; cbn; intros Hs; [repeat constructor|].
  pose proof (StronglySorted_inv Hs) as [Hs' Hf]. rewrite List.Forall_forall in Hf.
  destruct (ver_ltb y e) eqn:E.
  - constructor; [by apply IH|]. apply List.Forall_forall. intros x Hx.
    apply sort_insert_in in Hx as [->|Hx]; [|by apply Hf].
    apply ver_le_cases. left. by apply ver_ltb_lt.
  - constructor; [done|]. apply List.Forall_forall. intros x [<-|Hx]; [done|].
    transitivity y; [done|by apply Hf].
Qed.

Lemma sort_entries_spec es :
  StronglySorted ver_le (sort_entries es) /\ forall x, In x (sort_entries es) <-> In x es.
Proof.
  induction es as [|e es [IH1 IH2]]; cbn; [split; [constructor|done]|].
  split; [by apply sort_insert_sorted|]. intros x. rewrite sort_insert_in, IH2. naive_solver.
Qed.

Lemma sorted_run_snoc es e :
  sorted_run es -> (forall x, In x es -> ver_lt x e) -> sorted_run (es ++ [e]).
Proof.
  unfold sorted_run. induction es as [|x es IH]; cbn; intros Hs Hlt; [repeat constructor|].
  apply StronglySorted_inv in Hs as [Hs Hf]. constructor; [apply IH; auto|].
  apply Forall_app. split; [done|]. constructor; [|constructor]. apply Hlt. by left.
Qed.

Lemma sorted_run_last_max es u x :
  sorted_run es -> list.last es = Some u -> In x es -> x = u \/ ver_lt x u.
Proof.
  intros Hs Hl Hx. apply last_Some in Hl as [l ->].
  apply in_app_iff in Hx as [Hx|[->|[]]]; [|by left]. right.
  eapply sorted_run_app_inv; [done..|]. by left.
Qed.

(** Deduplication of a sorted list of consistent versions leaves a run. *)
Lemma fold_push_uniq es : forall uniq,
  StronglySorted ver_le es -> consistent (uniq ++ es) -> sorted_run uniq ->
  (forall x y, In x uniq -> In y es -> ver_le x y) ->
  sorted_run (fold_left push_uniq es uniq) /\
  forall x, In x (fold_left push_uniq es uniq) <-> In x uniq \/ In x es.
Proof.
  induction es as [|e es IH]; intros uniq Hs Hc Hu Hle; cbn [fold_left].
  - split; [done|]. intros x. cbn. tauto.
  - apply StronglySorted_inv in Hs as [Hs Hf]. rewrite List.Forall_forall in Hf.
    assert (Hadd : forall x, In x (push_uniq uniq e) <-> In x uniq \/ x = e).
    { intros x. unfold push_uniq. destruct (list.last uniq) as [u|] eqn:El.
      2:{ rewrite in_app_iff. cbn. intuition. }
      destruct (same_version u e) eqn:E; [|rewrite in_app_iff; cbn; intuition].
      split; [by left|]. intros [? | ->]; [done|].
      apply last_Some in El as [l ->]. unfold same_version in E.
      apply andb_true_iff in E as [Ek Es]. apply key_eqb_eq in Ek. apply Z.eqb_eq in Es.
      assert (u = e) as <-; [|apply in_app_iff; right; by left].
      apply Hc; [| |done..]; rewrite !in_app_iff; cbn; tauto. }
    assert (Hrun : sorted_run (push_uniq uniq e)).
    { unfold push_uniq. destruct (list.last uniq) as [u|] eqn:El.
      2:{ apply sorted_run_snoc; [done|]. apply last_None in El as ->. done. }
      destruct (same_version u e) eqn:E; [done|]. apply sorted_run_snoc; [done|].
      assert (Hue : ver_lt u e).
      { assert (Hin : In u uniq) by (apply last_Some in El as [l ->]; apply in_app_iff; right; by left).
        specialize (Hle u e Hin (or_introl eq_refl)). apply ver_le_cases in Hle as [?|[Hk Hq]]; [done|].
        unfold same_version in E. rewrite Hk, Hq, key_eqb_refl, Z.eqb_refl in E. done. }
      intros x Hx. destruct (sorted_run_last_max _ _ _ Hu El Hx) as [->|]; [done|].
      by etransitivity. }
    destruct (IH (push_uniq uniq e) Hs) as [H1 H2]; [|done| |].
    + eapply consistent_incl; [exact Hc|]. intros x. rewrite !in_app_iff, Hadd. cbn. intuition.
    + intros x y Hx Hy. apply Hadd in Hx as [Hx| ->]; [apply Hle; [done|by right]|by apply Hf].
    + split; [done|]. intros x. rewrite H2, Hadd. cbn. intuition.
Qed.

Lemma uniq_spec es :
  consistent es ->
  sorted_run (dedup (sort_entries es)) /\ forall x, In x (dedup (sort_entries es)) <-> In x es.
Proof.
  intros Hc. destruct (sort_entries_spec es) as [Hs Hin].
  destruct (fold_push_uniq (sort_entries es) []) as [H1 H2]; [done| |constructor|done|].
  - eapply consistent_incl; [exact Hc|]. intros x. cbn. apply Hin.
  - split; [done|]. intros x. unfold dedup. rewrite H2, Hin. cbn. tauto.
Qed.

(** ** Garbage collection of one key *)

Lemma floor_count_le w vs : (floor_count w vs <= length vs)%nat.
Proof. induction vs as [|e vs IH]; cbn; [lia|]. destruct (_ <=? _); lia. Qed.

Lemma floor_count_at w vs fl e :
  floor_count w vs = S fl -> vs !! fl = Some e -> e_seq e <= w.
Proof.
  revert fl; induction vs as [|x vs IH]; intros fl; cbn; [done|].
  destruct (e_seq x <=? w) eqn:E; [|done]. intros [= Hf].
  destruct fl as [|fl]; cbn; [intros [= ->]; lia|]. by apply IH.
Qed.

Lemma gc_key_in w vs x : In x (gc_key w vs) -> In x vs.
Proof.
  unfold gc_key. destruct (floor_count w vs) as [|fl]; [done|].
  destruct (match vs !! fl with Some _ => _ | None => _ end); [done|].
  rewrite <- (take_drop fl vs) at 2. rewrite in_app_iff. by right.
Qed.

Lemma sorted_run_drop n es : sorted_run es -> sorted_run (drop n es).
Proof. intros H. apply (sorted_run_app_r (take n es)). by rewrite take_drop. Qed.

Lemma gc_key_sorted w vs : sorted_run vs -> sorted_run (gc_key w vs).
Proof.
  intros H. unfold gc_key. destruct (floor_count w vs) as [|fl]; [done|].
  destruct (match vs !! fl with Some _ => _ | None => _ end); [constructor|].
  by apply sorted_run_drop.
Qed.

(** The two readings a collected key may have. *)
Definition reads_kept (k : Key) (at_ : Z) (out input : list entry) : Prop :=
  newest k at_ out = newest k at_ input \/
  (newest k at_ out = None /\ exists e, newest k at_ input = Some e /\ e_tomb e = true).

Lemma newest_floor k at_ vs fl e :
  sorted_run vs -> (forall x, In x vs -> e_key x = k) ->
  vs !! fl = Some e -> e_seq e <= at_ ->
  newest k at_ vs = newest k at_ (drop fl vs).
Proof.
  intros Hs Hk Hfl Hat. rewrite <- (take_drop fl vs) at 1. rewrite newest_app.
  assert (Hin : In e (drop fl vs)) by (rewrite (drop_S _ _ _ Hfl); by left).
  assert (Hm : matches k at_ e = true).
  { apply matches_true. split; [|done]. apply Hk. rewrite <- (take_drop fl vs), in_app_iff. by right. }
  destruct (newest k at_ (drop fl vs)) as [b|] eqn:Eb.
  2:{ rewrite newest_none in Eb. by rewrite Eb in Hm. }
  apply newest_some in Eb as (Hb & _ & Hmax). specialize (Hmax e Hin Hm).
  cbn. destruct (newest k at_ (take fl vs)) as [a|] eqn:Ea; [|done].
  cbn. apply newest_some in Ea as (Ha & _ & _).
  rewrite <- (take_drop fl vs) in Hs.
  assert (ver_lt a e) as Hae by (eapply sorted_run_app_inv; done).
  destruct Hae as [Hlt|[_ Hlt]].
  - exfalso. apply key_ltb_neq in Hlt. apply Hlt.
    rewrite (Hk a), (Hk e); [done| |]; rewrite <- (take_drop fl vs), in_app_iff; auto.
  - destruct (e_seq a <=? e_seq b) eqn:E; [done|lia].
Qed.

Lemma gc_key_reads k w at_ vs :
  sorted_run vs -> (forall x, In x vs -> e_key x = k) -> w <= at_ ->
  reads_kept k at_ (gc_key w vs) vs.
Proof.
  intros Hs Hk Hat. unfold gc_key. destruct (floor_count w vs) as [|fl] eqn:Ef; [by left|].
  pose proof (floor_count_le w vs) as Hle. rewrite Ef in Hle.
  destruct (lookup_lt_is_Some_2 vs fl Hle) as [e He]. rewrite He.
  pose proof (floor_count_at _ _ _ _ Ef He) as Hew.
  pose proof (newest_floor k at_ vs fl e Hs Hk He ltac:(lia)) as Hn.
  destruct (e_tomb e && (S fl =? length vs)%nat) eqn:Ed; [|by left].
  apply andb_true_iff in Ed as [Ht Hl]. apply Nat.eqb_eq in Hl.
  right. split; [done|]. exists e. split; [|done]. rewrite Hn.
  rewrite (drop_S _ _ _ He), drop_ge by lia. unfold newest. cbn [List.filter].
  replace (matches k at_ e) with true; [done|]. symmetry. apply matches_true.
  split; [|lia]. apply Hk. rewrite <- (take_drop fl vs), in_app_iff. right.
  rewrite (drop_S _ _ _ He). by left.
Qed.

(** ** All keys *)

Lemma span_key_spec k es vs rest :
  span_key k es = (vs, rest) ->
  es = vs ++ rest /\ (forall x, In x vs -> e_key x = k) /\
  (forall e es', rest = e :: es' -> e_key e <> k).
Proof.
  revert vs rest; induction es as [|e es IH]; intros vs rest; cbn.
  - intros [= <- <-]. naive_solver.
  - destruct (key_eqb_spec (e_key e) k) as [Ek|Ek].
    + destruct (span_key k es) as [vs' rest'] eqn:E. intros [= <- <-].
      destruct (IH _ _ eq_refl) as (-> & H1 & H2). split; [done|]. split; [|done].
      intros x [<-|Hx]; [done|by apply H1].
    + intros [= <- <-]. naive_solver.
Qed.

(** The front group of a run, and that the rest holds only greater keys. *)
Lemma span_front e es vs rest :
  sorted_run (e :: es) -> span_key (e_key e) (e :: es) = (vs, rest) ->
  e :: es = vs ++ rest /\ (forall x, In x vs -> e_key x = e_key e) /\
  (forall x, In x rest -> key_ltb (e_key e) (e_key x) = true) /\
  (length rest <= length es)%nat.
Proof.
  intros Hs E. apply span_key_spec in E as (Heq & Hvs & Hr). split; [done|]. split; [done|].
  destruct vs as [|v vs].
  { cbn in Heq. subst rest. exfalso. by apply (Hr e es). }
  injection Heq as -> ->. split; [|rewrite length_app; lia]. intros x Hx.
  assert (Hall : forall y, In y rest -> e_key y <> e_key v).
  { destruct rest as [|e' es']; [done|]. specialize (Hr _ _ eq_refl).
    assert (Hve : ver_lt v e').
    { apply StronglySorted_inv in Hs as [_ Hf]. rewrite List.Forall_forall in Hf.
      apply Hf, in_app_iff. right. by left. }
    destruct Hve as [Hve|[? _]]; [|congruence]. intros y [<-|Hy]; [done|]. intros E.
    change (v :: vs ++ e' :: es') with ((v :: vs) ++ e' :: es') in Hs.
    apply sorted_run_app_r in Hs. apply StronglySorted_inv in Hs as [_ Hf].
    rewrite List.Forall_forall in Hf. specialize (Hf _ Hy). apply ver_lt_key in Hf.
    rewrite E in Hf. unfold key_leb in Hf. by rewrite Hve in Hf. }
  apply StronglySorted_inv in Hs as [_ Hf]. rewrite List.Forall_forall in Hf.
  destruct (Hf x) as [?|[? _]]; [apply in_app_iff; by right|done|].
  exfalso. by apply (Hall x Hx).
Qed.

Lemma gc_groups_in fuel w es x : In x (gc_groups fuel w es) -> In x es.
Proof.
  revert es; induction fuel as [|fuel IH]; intros es; cbn; [done|].
  destruct es as [|e es]; [done|]. destruct (span_key (e_key e) (e :: es)) as [vs rest] eqn:E.
  apply span_key_spec in E as (-> & _). rewrite !in_app_iff.
  intros [H|H]; [left; by eapply gc_key_in|right; by apply IH].
Qed.

Lemma newest_other k at_ es : (forall x, In x es -> e_key x <> k) -> newest k at_ es = None.
Proof.
  intros H. apply newest_none. intros x Hx. unfold matches.
  by rewrite (proj2 (key_eqb_neq _ _) (H x Hx)).
Qed.

Lemma reads_kept_app k at_ o i o' i' :
  reads_kept k at_ o i -> newest k at_ o' = None -> newest k at_ i' = None ->
  reads_kept k at_ (o ++ o') (i ++ i').
Proof. intros H H1 H2. unfold reads_kept. by rewrite !newest_app, H1, H2. Qed.

Lemma gc_groups_reads fuel w at_ k es :
  (length es <= fuel)%nat -> sorted_run es -> w <= at_ ->
  reads_kept k at_ (gc_groups fuel w es) es.
Proof.
  revert es; induction fuel as [|fuel IH]; intros es Hf Hs Hat.
  { destruct es; [by left|cbn in Hf; lia]. }
  destruct es as [|e es]; [by left|]. cbn [gc_groups].
  destruct (span_key (e_key e) (e :: es)) as [vs rest] eqn:E.
  destruct (span_front _ _ _ _ Hs E) as (Heq & Hvs & Hrest & Hlen).
  cbn [length] in Hf. rewrite Heq in *. assert (Hne : forall x, In x rest -> e_key x <> e_key e).
  { intros x Hx Ex. specialize (Hrest x Hx). by rewrite Ex, key_ltb_irrefl in Hrest. }
  destruct (list_eq_dec Byte.byte_eq_dec k (e_key e)) as [->|Hk].
  - apply reads_kept_app.
    + apply gc_key_reads; [by eapply sorted_run_app_l|done..].
    + apply newest_other. intros x Hx. by apply Hne, (gc_groups_in fuel w).
    + by apply newest_other.
  - unfold reads_kept. rewrite !newest_app.
    rewrite (newest_other k at_ vs), (newest_other k at_ (gc_key w vs)), !merge_hit_none_l.
    + apply IH; [lia|by eapply sorted_run_app_r|done].
    + intros x Hx. apply gc_key_in in Hx. rewrite (Hvs x Hx). congruence.
    + intros x Hx. rewrite (Hvs x Hx). congruence.
Qed.

Lemma sorted_run_app l l' :
  sorted_run l -> sorted_run l' -> (forall a b, In a l -> In b l' -> ver_lt a b) ->
  sorted_run (l ++ l').
Proof.
  unfold sorted_run. induction l as [|x l IH]; cbn; intros H1 H2 H; [done|].
  apply StronglySorted_inv in H1 as [H1 Hf]. constructor; [apply IH; auto|].
  apply Forall_app. split; [done|]. apply List.Forall_forall. intros y Hy. apply H; [by left|done].
Qed.

Lemma gc_groups_sorted fuel w es : sorted_run es -> sorted_run (gc_groups fuel w es).
Proof.
  revert es; induction fuel as [|fuel IH]; intros es Hs; cbn [gc_groups]; [constructor|].
  destruct es as [|e es]; [constructor|].
  destruct (span_key (e_key e) (e :: es)) as [vs rest] eqn:E.
  apply span_key_spec in E as (Heq & _). rewrite Heq in Hs.
  apply sorted_run_app.
  - apply gc_key_sorted. by eapply sorted_run_app_l.
  - apply IH. by eapply sorted_run_app_r.
  - intros a b Ha Hb. eapply sorted_run_app_inv; [done|by eapply gc_key_in|by eapply gc_groups_in].
Qed.

(** With nothing at or below the watermark, nothing is dropped. *)
Lemma gc_groups_keep fuel w es :
  (length es <= fuel)%nat -> sorted_run es -> (forall x, In x es -> w < e_seq x) ->
  gc_groups fuel w es = es.
Proof.
  revert es; induction fuel as [|fuel IH]; intros es Hf Hs Hw.
  { destruct es; [done|cbn in Hf; lia]. }
  destruct es as [|e es]; [done|]. cbn [gc_groups].
  destruct (span_key (e_key e) (e :: es)) as [vs rest] eqn:E.
  destruct (span_front _ _ _ _ Hs E) as (Heq & _ & _ & Hlen). cbn [length] in Hf.
  assert (Hw0 := Hw). rewrite Heq in Hs, Hw |- *.
  rewrite (IH rest); [|lia|by eapply sorted_run_app_r|intros x Hx; apply Hw, in_app_iff; by right].
  f_equal. unfold gc_key. destruct vs as [|v vs]; [done|].
  cbn [floor_count]. specialize (Hw v (or_introl eq_refl)).
  destruct (e_seq v <=? w) eqn:Ew; [lia|done].
Qed.

Lemma compact_merge_sorted runs w :
  consistent (concat runs) -> sorted_run (compact_merge runs w).
Proof. intros Hc. apply gc_groups_sorted. by apply uniq_spec. Qed.

Lemma compact_merge_in runs w x :
  consistent (concat runs) -> In x (compact_merge runs w) -> In x (concat runs).
Proof. intros Hc H. apply gc_groups_in in H. by apply (uniq_spec (concat runs) Hc). Qed.

Lemma compact_merge_reads runs w k at_ :
  consistent (concat runs) -> w <= at_ ->
  reads_kept k at_ (compact_merge runs w) (concat runs).
Proof.
  intros Hc Hat. destruct (uniq_spec (concat runs) Hc) as [Hs Hin].
  unfold reads_kept. rewrite <- (newest_ext k at_ (dedup (sort_entries (concat runs))) (concat runs)) by done.
  by apply gc_groups_reads.
Qed.

Lemma compact_merge_keep runs w :
  consistent (concat runs) -> (forall x, In x (concat runs) -> w < e_seq x) ->
  forall x, In x (compact_merge runs w) <-> In x (concat runs).
Proof.
  intros Hc Hw x. destruct (uniq_spec (concat runs) Hc) as [Hs Hin].
  unfold compact_merge. rewrite gc_groups_keep; [apply Hin|done..|].
  intros y Hy. by apply Hw, Hin.
Qed.

(** C16: the merge of any consistent set of runs is a sorted run of versions
    taken from the inputs, and no snapshot at or above the watermark sees a
    difference: it reads the same version of every key, or a key whose newest
    version was a tombstone and is now absent. *)
Theorem compaction_preserves_reads runs watermark :
  consistent (concat runs) ->
  sorted_run (compact_merge runs watermark) /\
  (forall x, In x (compact_merge runs watermark) -> In x (concat runs)) /\
  (forall k at_, watermark <= at_ ->
     reads_kept k at_ (compact_merge runs watermark) (concat runs) /\
     visible (newest k at_ (compact_merge runs watermark)) = visible (newest k at_ (concat runs))).
Proof.
  intros Hc. split; [by apply compact_merge_sorted|].
  split; [intros x; by apply compact_merge_in|]. intros k at_ Hat.
  pose proof (compact_merge_reads runs watermark k at_ Hc Hat) as H. split; [done|].
  destruct H as [->|(-> & e & -> & Ht)]; [done|]. cbn. by rewrite Ht.
Qed.

Lemma compaction_preserves_reads_witness :
  visible (newest [Byte.x61] 9 (compact_merge
     [[Entry [Byte.x61] [Byte.x31] 1 false false]; [Entry [Byte.x61] [Byte.x32] 4 false false]] 5))
  = Some [Byte.x32].
Proof.
  destruct (compaction_preserves_reads
    [[Entry [Byte.x61] [Byte.x31] 1 false false]; [Entry [Byte.x61] [Byte.x32] 4 false false]] 5)
    as (_ & _ & H).
  - intros e e' [<-|[<-|[]]] [<-|[<-|[]]] _ Hs; solve [reflexivity | discriminate Hs].
  - destruct (H [Byte.x61] 9 ltac:(lia)) as [_ ->]. vm_compute. reflexivity.
Defined.
