(* ===== verification/Manifest.v ===== *)
(** Manifest: the records of the append-only install and compaction log
    (storage/SSTable.hpp, [encode_manifest] to [decode_manifest]).

    Three kinds share one format family: a magic word, an entry number, the
    kind's payload and a CRC over all of it. *)

From Stdlib Require Import ZArith Lia.
From stdpp Require Import base list numbers.
From S2P Require Import Prelude Codec Mvcc.

Definition kManMagic : Z := 0x4C4D414E.
Definition kManObsoleteMagic : Z := 0x4D42534F.
Definition kManWalTruncMagic : Z := 0x4D52544C.
Definition kManStreamMagic : Z := 0x4D4E5453.
Definition kManRecordBytes : nat := 48.
Definition kManAuxRecordBytes : nat := 24.

Inductive ManifestKind := Install | Obsolete | WalTrunc.

Record ManifestRecord := mkManifestRecord {
  m_kind : ManifestKind;
  m_entry_no : Z;
  m_sstable_id : Z;
  m_sst_len : Z;
  m_min_seq : Z;
  m_max_seq : Z;
  m_wal_trunc_seq : Z
}.

Definition with_crc (buf : list byte) : list byte := buf ++ put_u32 (Crc32.compute buf).

Definition encode_manifest (r : ManifestRecord) : list byte :=
  with_crc (put_u32 kManMagic ++ put_u64 (m_entry_no r) ++ put_u64 (m_sstable_id r) ++
            put_u64 (m_sst_len r) ++ put_u64 (m_min_seq r) ++ put_u64 (m_max_seq r)).

Definition encode_manifest_obsolete (entry_no sstable_id : Z) : list byte :=
  with_crc (put_u32 kManObsoleteMagic ++ put_u64 entry_no ++ put_u64 sstable_id).

Definition encode_manifest_wal_trunc (entry_no wal_trunc_seq : Z) : list byte :=
  with_crc (put_u32 kManWalTruncMagic ++ put_u64 entry_no ++ put_u64 wal_trunc_seq).

(** [ManifestDecode]: the record and the bytes consumed, or not ok.  [p] is
    the image from [pos] on. *)
Definition decode_manifest (image : list byte) (pos : nat) : option (ManifestRecord * nat) :=
  let p := drop pos image in
  let avail := (length image - pos)%nat in
  if (avail <? 4)%nat then None
  else
    let magic := get_u32 p in
    if magic =? kManMagic then
      if (avail <? kManRecordBytes)%nat then None
      else
        let body := (kManRecordBytes - 4)%nat in
        if negb (get_u32 (drop body p) =? Crc32.compute (take body p)) then None
        else Some (mkManifestRecord Install (get_u64 (drop 4 p)) (get_u64 (drop 12 p))
                     (get_u64 (drop 20 p)) (get_u64 (drop 28 p)) (get_u64 (drop 36 p)) kNoSeq,
                   kManRecordBytes)
    else if (magic =? kManObsoleteMagic) || (magic =? kManWalTruncMagic) then
      if (avail <? kManAuxRecordBytes)%nat then None
      else
        let body := (kManAuxRecordBytes - 4)%nat in
        if negb (get_u32 (drop body p) =? Crc32.compute (take body p)) then None
        else
          let payload := get_u64 (drop 12 p) in
          Some (if magic =? kManObsoleteMagic
                then mkManifestRecord Obsolete (get_u64 (drop 4 p)) payload 0 kNoSeq kNoSeq kNoSeq
                else mkManifestRecord WalTrunc (get_u64 (drop 4 p)) 0 0 kNoSeq kNoSeq payload,
                kManAuxRecordBytes)
    else None.

(** ** Exactness *)

(** The bytes of a record of any kind. *)
Definition encode_any (r : ManifestRecord) : list byte :=
  match m_kind r with
  | Install => encode_manifest r
  | Obsolete => encode_manifest_obsolete (m_entry_no r) (m_sstable_id r)
  | WalTrunc => encode_manifest_wal_trunc (m_entry_no r) (m_wal_trunc_seq r)
  end.

Definition is_u64 (z : Z) : Prop := 0 <= z < 2 ^ 64.

(** The fields a kind carries fit 64 bits; the ones it does not are zero. *)
Definition man_wf (r : ManifestRecord) : Prop :=
  is_u64 (m_entry_no r) /\
  match m_kind r with
  | Install => is_u64 (m_sstable_id r) /\ is_u64 (m_sst_len r) /\ is_u64 (m_min_seq r) /\
               is_u64 (m_max_seq r) /\ m_wal_trunc_seq r = 0
  | Obsolete => is_u64 (m_sstable_id r) /\ m_sst_len r = 0 /\ m_min_seq r = 0 /\
                m_max_seq r = 0 /\ m_wal_trunc_seq r = 0
  | WalTrunc => is_u64 (m_wal_trunc_seq r) /\ m_sst_len r = 0 /\ m_min_seq r = 0 /\
                m_max_seq r = 0 /\ m_sstable_id r = 0
  end.

Lemma with_crc_check (body : list byte) tail :
  get_u32 (drop (length body) (with_crc body ++ tail)) =
  Crc32.compute (take (length body) (with_crc body ++ tail)).
Proof.
  unfold with_crc. rewrite <- app_assoc, drop_app_length, take_app_length, get_put_u32.
  apply u32_id, Crc32.compute_range.
Qed.

(** One kind of an encoded record: its magic selects the branch, the length and
    CRC tests pass, and the fields read back. *)
Ltac decode_kind magic len :=
  match goal with |- context [with_crc ?b] =>
    set (body := b);
    replace (length (with_crc body)) with len by done;
    rewrite (proj2 (Nat.ltb_ge _ 4)) by lia;
    assert (Hm : forall tl, get_u32 (with_crc body ++ tl) = magic) by done;
    rewrite Hm; cbn [Z.eqb Pos.eqb orb magic kManMagic kManObsoleteMagic kManWalTruncMagic];
    unfold kManRecordBytes, kManAuxRecordBytes;
    rewrite (proj2 (Nat.ltb_ge _ len)) by lia;
    change (len - 4)%nat with (length body);
    rewrite with_crc_check, Z.eqb_refl; cbn [negb];
    unfold body, with_crc; rewrite <- !app_assoc; skip_fields
  end.

Lemma decode_manifest_encode pre r tail :
  man_wf r ->
  decode_manifest (pre ++ encode_any r ++ tail) (length pre) = Some (r, length (encode_any r)).
Proof.
  intros Hwf. unfold decode_manifest. rewrite drop_app_length, length_app.
  replace (length pre + length (encode_any r ++ tail) - length pre)%nat
    with (length (encode_any r ++ tail)) by lia.
  rewrite length_app. destruct r as [kind en id len mn mx wt]. unfold man_wf, is_u64 in Hwf.
  destruct kind; cbn [m_kind m_entry_no m_sstable_id m_sst_len m_min_seq m_max_seq m_wal_trunc_seq]
    in Hwf; unfold encode_any, encode_manifest, encode_manifest_obsolete, encode_manifest_wal_trunc;
    cbn [m_kind m_entry_no m_sstable_id m_sst_len m_min_seq m_max_seq m_wal_trunc_seq].
  - decode_kind kManMagic 48%nat. rewrite !u64_id by lia. do 3 f_equal. unfold kNoSeq. lia.
  - decode_kind kManObsoleteMagic 24%nat. rewrite !u64_id by lia.
    destruct Hwf as (_ & _ & -> & -> & -> & ->). done.
  - decode_kind kManWalTruncMagic 24%nat. rewrite !u64_id by lia.
    destruct Hwf as (_ & _ & -> & -> & -> & ->). done.
Qed.

(** The fields of a checked record rebuild its bytes. *)
Lemma rebuild_install p :
  (48 <= length p)%nat -> get_u32 p = kManMagic ->
  get_u32 (drop 44 p) = Crc32.compute (take 44 p) ->
  take 48 p = encode_manifest (mkManifestRecord Install (get_u64 (drop 4 p)) (get_u64 (drop 12 p))
                (get_u64 (drop 20 p)) (get_u64 (drop 28 p)) (get_u64 (drop 36 p)) kNoSeq).
Proof.
  intros Hl Hm Hc. unfold encode_manifest, with_crc.
  cbn [m_entry_no m_sstable_id m_sst_len m_min_seq m_max_seq].
  rewrite <- Hm, put_get_u32, !put_get_u64 by (rewrite ?length_drop; lia).
  assert (E : take 4 p ++ take 8 (drop 4 p) ++ take 8 (drop 12 p) ++ take 8 (drop 20 p) ++
              take 8 (drop 28 p) ++ take 8 (drop 36 p) = take 44 p).
  { change 44%nat with (4 + (8 + (8 + (8 + (8 + 8)))))%nat. by rewrite !take_add_split, !drop_drop. }
  rewrite E, <- Hc, put_get_u32 by (rewrite length_drop; lia).
  change 48%nat with (44 + 4)%nat. apply take_add_split.
Qed.

Lemma rebuild_aux magic p :
  (24 <= length p)%nat -> get_u32 p = magic ->
  get_u32 (drop 20 p) = Crc32.compute (take 20 p) ->
  take 24 p = with_crc (put_u32 magic ++ put_u64 (get_u64 (drop 4 p)) ++ put_u64 (get_u64 (drop 12 p))).
Proof.
  intros Hl Hm Hc. unfold with_crc.
  rewrite <- Hm, put_get_u32, !put_get_u64 by (rewrite ?length_drop; lia).
  assert (E : take 4 p ++ take 8 (drop 4 p) ++ take 8 (drop 12 p) = take 20 p).
  { change 20%nat with (4 + (8 + 8))%nat. by rewrite !take_add_split, !drop_drop. }
  rewrite E, <- Hc, put_get_u32 by (rewrite length_drop; lia).
  change 24%nat with (20 + 4)%nat. apply take_add_split.
Qed.

Lemma decode_manifest_inv pre rest r n :
  decode_manifest (pre ++ rest) (length pre) = Some (r, n) ->
  man_wf r /\ n = length (encode_any r) /\ take n rest = encode_any r.
Proof.
  unfold decode_manifest. rewrite drop_app_length, length_app.
  replace (length pre + length rest - length pre)%nat with (length rest) by lia.
  unfold kManRecordBytes, kManAuxRecordBytes.
  destruct (length rest <? 4)%nat; [done|].
  destruct (get_u32 rest =? kManMagic) eqn:Em.
  - destruct (length rest <? 48)%nat eqn:El; [done|]. apply Nat.ltb_ge in El.
    destruct (_ =? Crc32.compute _) eqn:Ec; cbn [negb]; [|done]. intros H.
    apply (inj Some), pair_equal_spec in H as [<- <-]. apply Z.eqb_eq in Em, Ec. split; [|split; [done|by apply rebuild_install]].
    repeat split; apply get_u64_range.
  - destruct (_ || _) eqn:Eo; [|done].
    destruct (length rest <? 24)%nat eqn:El; [done|]. apply Nat.ltb_ge in El.
    destruct (_ =? Crc32.compute _) eqn:Ec; cbn [negb]; [|done]. intros H.
    apply (inj Some), pair_equal_spec in H as [<- <-]. apply Z.eqb_eq in Ec.
    destruct (get_u32 rest =? kManObsoleteMagic) eqn:Eb; cbn [orb] in Eo.
    + apply Z.eqb_eq in Eb. split; [|split; [done|by apply rebuild_aux]].
      repeat split; apply get_u64_range.
    + apply Z.eqb_eq in Eo. split; [|split; [done|by apply rebuild_aux]].
      repeat split; apply get_u64_range.
Qed.

(** The manifest decoder accepts at a position exactly the bytes of an
    encoded record of one of the three kinds, and returns that record and its
    length; everything else (a short tail, an unknown magic, a damaged CRC) it
    refuses. *)
Theorem manifest_decode_exact pre rest r n :
  decode_manifest (pre ++ rest) (length pre) = Some (r, n) <->
  man_wf r /\ n = length (encode_any r) /\ exists tail, rest = encode_any r ++ tail.
Proof.
  split.
  - intros H. apply decode_manifest_inv in H as (Hwf & -> & Ht). split; [done|]. split; [done|].
    exists (drop (length (encode_any r)) rest). by rewrite <- Ht at 1; rewrite take_drop.
  - intros (Hwf & -> & tail & ->). by apply decode_manifest_encode.
Qed.
