(* ===== verification/WalEngine.v ===== *)
(** WalEngine: the storage engine (storage/WalEngine.hpp, [class WalEngine]).

    The state is the engine's fields and the devices it talks to.  Every
    coroutine is modelled as awaited to completion before the next one starts:
    its [co_await]s become binds of the state monad [M], its [co_return]s the
    leaves of the conditionals.  The devices are simulated disks driven by one
    tape of random draws, so torn appends, io faults and lying syncs happen
    wherever the tape says. *)

From Stdlib Require Import ZArith Lia.
From Stdlib Require Import (notations) String.
From stdpp Require Import base list numbers gmap.
From S2P Require Import Prelude Codec Core Disk Mvcc ValueLog WalRecord Memtable Bloom SSTable.
From S2P Require Import Compaction Manifest.
#[local] Open Scope Z_scope.

Module WalEngine.

(** ** Devices *)

Record io := mkIo { wal : disk; man : disk; fac : gmap Z disk; tape : rng }.

(** [IDiskFactory::reclaim]: the interface's default keeps the backing; an
    implementation may free it. *)
Class IDiskFactory := reclaim : Z -> gmap Z disk -> gmap Z disk.

Definition default_factory : IDiskFactory := fun _ f => f.

(** [disk_for]: created on first request. *)
Definition disk_for (id : Z) (f : gmap Z disk) : disk := default empty_disk (f !! id).

(** ** Engine fields *)

Record Cfg := mkCfg {
  has_lsm : bool;              (* manifest_disk_ and factory_ are present *)
  flush_threshold_ : nat;
  compaction_trigger_ : nat;
  cdc_retain_from_ : Z;
  value_threshold_ : nat;
  vlog_base_id_ : Z
}.

Record Lsm := mkLsm {
  sstables_ : list SSTableReader.t;
  next_sstable_id_ : Z;
  manifest_tip_ : Z;
  manifest_started_ : bool;
  wal_trunc_seq_ : Z;
  obsoleted_ids_ : list Z
}.

Record Vlog := mkVlog {
  vlog_gen_ : Z;
  vlog_len_ : Z;
  vlog_gen_counter_ : Z;
  reclaimed_vlog_ids_ : list Z
}.

Record engine := mkEngine {
  cfg : Cfg;
  mem_ : Memtable.t;
  last_seq_ : Z;
  wal_started_ : bool;
  read_watermark_ : Z;
  lsm : Lsm;
  vl : Vlog
}.

Definition kDefaultVlogBaseId : Z := 2 ^ 32.
Definition kVlogReadRetries : nat := 32.

Definition init_lsm : Lsm := mkLsm [] 0 0 false kNoSeq [].
Definition init_vlog : Vlog := mkVlog kDefaultVlogBaseId 0 0 [].

(** The two constructors. *)
Definition wal_only : engine :=
  mkEngine (mkCfg false 0 0 0 0 kDefaultVlogBaseId) Memtable.empty kNoSeq false kNoSeq
           init_lsm init_vlog.

Definition lsm_engine (flush_threshold : nat) : engine :=
  mkEngine (mkCfg true flush_threshold 0 0 0 kDefaultVlogBaseId) Memtable.empty kNoSeq false kNoSeq
           init_lsm init_vlog.

(** ** Field updates *)

Definition upd_cfg (f : Cfg -> Cfg) (e : engine) : engine :=
  mkEngine (f (cfg e)) (mem_ e) (last_seq_ e) (wal_started_ e) (read_watermark_ e) (lsm e) (vl e).
Definition upd_mem (f : Memtable.t -> Memtable.t) (e : engine) : engine :=
  mkEngine (cfg e) (f (mem_ e)) (last_seq_ e) (wal_started_ e) (read_watermark_ e) (lsm e) (vl e).
Definition set_last_seq (s : Z) (e : engine) : engine :=
  mkEngine (cfg e) (mem_ e) s (wal_started_ e) (read_watermark_ e) (lsm e) (vl e).
Definition set_wal_started (b : bool) (e : engine) : engine :=
  mkEngine (cfg e) (mem_ e) (last_seq_ e) b (read_watermark_ e) (lsm e) (vl e).
Definition set_watermark (w : Z) (e : engine) : engine :=
  mkEngine (cfg e) (mem_ e) (last_seq_ e) (wal_started_ e) w (lsm e) (vl e).
Definition upd_lsm (f : Lsm -> Lsm) (e : engine) : engine :=
  mkEngine (cfg e) (mem_ e) (last_seq_ e) (wal_started_ e) (read_watermark_ e) (f (lsm e)) (vl e).
Definition upd_vl (f : Vlog -> Vlog) (e : engine) : engine :=
  mkEngine (cfg e) (mem_ e) (last_seq_ e) (wal_started_ e) (read_watermark_ e) (lsm e) (f (vl e)).

Definition set_sstables (ss : list SSTableReader.t) (l : Lsm) : Lsm :=
  mkLsm ss (next_sstable_id_ l) (manifest_tip_ l) (manifest_started_ l) (wal_trunc_seq_ l)
        (obsoleted_ids_ l).
Definition set_next_id (n : Z) (l : Lsm) : Lsm :=
  mkLsm (sstables_ l) n (manifest_tip_ l) (manifest_started_ l) (wal_trunc_seq_ l)
        (obsoleted_ids_ l).
Definition set_tip (n : Z) (l : Lsm) : Lsm :=
  mkLsm (sstables_ l) (next_sstable_id_ l) n (manifest_started_ l) (wal_trunc_seq_ l)
        (obsoleted_ids_ l).
Definition set_man_started (b : bool) (l : Lsm) : Lsm :=
  mkLsm (sstables_ l) (next_sstable_id_ l) (manifest_tip_ l) b (wal_trunc_seq_ l)
        (obsoleted_ids_ l).
Definition set_trunc (s : Z) (l : Lsm) : Lsm :=
  mkLsm (sstables_ l) (next_sstable_id_ l) (manifest_tip_ l) (manifest_started_ l) s
        (obsoleted_ids_ l).
Definition push_obsolete (id : Z) (l : Lsm) : Lsm :=
  mkLsm (sstables_ l) (next_sstable_id_ l) (manifest_tip_ l) (manifest_started_ l)
        (wal_trunc_seq_ l) (obsoleted_ids_ l ++ [id]).

Definition set_vlog_len (n : Z) (v : Vlog) : Vlog :=
  mkVlog (vlog_gen_ v) n (vlog_gen_counter_ v) (reclaimed_vlog_ids_ v).
Definition set_gen_counter (n : Z) (v : Vlog) : Vlog :=
  mkVlog (vlog_gen_ v) (vlog_len_ v) n (reclaimed_vlog_ids_ v).
Definition push_reclaimed (g : Z) (v : Vlog) : Vlog :=
  mkVlog (vlog_gen_ v) (vlog_len_ v) (vlog_gen_counter_ v) (reclaimed_vlog_ids_ v ++ [g]).

(** ** Configuration calls *)

Definition set_compaction_trigger (n : nat) : engine -> engine :=
  upd_cfg (fun c => mkCfg (has_lsm c) (flush_threshold_ c) n (cdc_retain_from_ c)
                          (value_threshold_ c) (vlog_base_id_ c)).

Definition set_cdc_retain_from (h : Z) : engine -> engine :=
  upd_cfg (fun c => mkCfg (has_lsm c) (flush_threshold_ c) (compaction_trigger_ c) h
                          (value_threshold_ c) (vlog_base_id_ c)).

Definition set_keep_resident_prefixes (prefixes : list byte) : engine -> engine :=
  upd_mem (fun m => fold_left (fun m b => Memtable.set_resident_byte b m) prefixes m).

Definition set_value_log (threshold : nat) (base_id : Z) (e : engine) : engine :=
  let e := upd_cfg (fun c => mkCfg (has_lsm c) (flush_threshold_ c) (compaction_trigger_ c)
                                   (cdc_retain_from_ c) threshold base_id) e in
  upd_vl (fun v => if vlog_gen_ v <? base_id
                   then mkVlog base_id (vlog_len_ v) (vlog_gen_counter_ v) (reclaimed_vlog_ids_ v)
                   else v) e.

Definition set_read_watermark (w : Z) (e : engine) : engine :=
  let w := if last_seq_ e <? w then last_seq_ e else w in
  if read_watermark_ e <? w then set_watermark w e else e.

Definition value_log_active (e : engine) : bool :=
  (0 <? value_threshold_ (cfg e))%nat && has_lsm (cfg e).

(** ** The state monad *)

Abbreviation state := (engine * io)%type.

Definition M (A : Type) : Type := state -> A * state.

#[global] Instance M_ret : MRet M := fun A a s => (a, s).
#[global] Instance M_bind : MBind M := fun A B k m s => let '(a, s') := m s in k a s'.

Definition gets {A} (f : engine -> A) : M A := fun s => (f s.1, s).
Definition modify (f : engine -> engine) : M unit := fun s => (tt, (f s.1, s.2)).
Definition when (b : bool) (m : M unit) : M unit := if b then m else mret tt.

(** The device calls. *)
Definition wal_append (bs : list byte) : M Error := fun '(e, w) =>
  let '(err, _, d, r) := append bs (tape w) (wal w) in (err, (e, mkIo d (man w) (fac w) r)).
Definition wal_sync : M Error := fun '(e, w) =>
  let '(err, d, r) := sync (tape w) (wal w) in (err, (e, mkIo d (man w) (fac w) r)).
Definition wal_read (n : nat) : M (Error * list byte) := fun '(e, w) =>
  let '(err, bs, r) := read 0 n (tape w) (wal w) in
  ((err, bs), (e, mkIo (wal w) (man w) (fac w) r)).
Definition man_append (bs : list byte) : M Error := fun '(e, w) =>
  let '(err, _, d, r) := append bs (tape w) (man w) in (err, (e, mkIo (wal w) d (fac w) r)).
Definition man_sync : M Error := fun '(e, w) =>
  let '(err, d, r) := sync (tape w) (man w) in (err, (e, mkIo (wal w) d (fac w) r)).
Definition man_read (n : nat) : M (Error * list byte) := fun '(e, w) =>
  let '(err, bs, r) := read 0 n (tape w) (man w) in
  ((err, bs), (e, mkIo (wal w) (man w) (fac w) r)).
Definition fac_append (id : Z) (bs : list byte) : M Error := fun '(e, w) =>
  let '(err, _, d, r) := append bs (tape w) (disk_for id (fac w)) in
  (err, (e, mkIo (wal w) (man w) (<[id := d]> (fac w)) r)).
Definition fac_sync (id : Z) : M Error := fun '(e, w) =>
  let '(err, d, r) := sync (tape w) (disk_for id (fac w)) in
  (err, (e, mkIo (wal w) (man w) (<[id := d]> (fac w)) r)).
Definition fac_read (id : Z) (off n : nat) : M (Error * list byte) := fun '(e, w) =>
  let '(err, bs, r) := read off n (tape w) (disk_for id (fac w)) in
  ((err, bs), (e, mkIo (wal w) (man w) (fac w) r)).
Definition fac_load (id len : Z) : M (Error * option SSTableReader.t) := fun '(e, w) =>
  let '(err, rd, r) := SSTableLoader.load (disk_for id (fac w)) len id (tape w) in
  ((err, rd), (e, mkIo (wal w) (man w) (fac w) r)).
Definition fac_reclaim `{IDiskFactory} (id : Z) : M unit := fun '(e, w) =>
  (tt, (e, mkIo (wal w) (man w) (reclaim id (fac w)) (tape w))).

(** ** Value-log dereference *)

(** The bounded retry of a transient read fault. *)
Fixpoint read_retry (attempts : nat) (id : Z) (off n : nat) (last : Error * list byte)
  : M (Error * list byte) :=
  match attempts with
  | O => mret last
  | S k =>
      res ← fac_read id off n;
      if err_ok res.1 || negb (bool_decide (code res.1 = IoFault)) then mret res
      else read_retry k id off n res
  end.

Definition deref_value (ptr_bytes : Value) : M (option Value) :=
  lsm_mode ← gets (fun e => has_lsm (cfg e));
  match (if lsm_mode : bool then vlogptr_decode ptr_bytes else None) with
  | None => mret None
  | Some ptr =>
      if value_off ptr <? Z.of_nat kVlogRecordHeaderBytes then mret None
      else
        let rec_off := Z.to_nat (value_off ptr - Z.of_nat kVlogRecordHeaderBytes) in
        let rec_len := (kVlogRecordHeaderBytes + Z.to_nat (vlen ptr) + kVlogCrcBytes)%nat in
        res ← read_retry kVlogReadRetries (gen ptr) rec_off rec_len (ok_error, []);
        if negb (err_ok res.1) then mret None
        else
          let local := mkVlogPtr (Z.of_nat kVlogRecordHeaderBytes) (vlen ptr) (crc ptr) (gen ptr) in
          mret (vlog_deref res.2 local)
  end.

(** [sstable_vlog_pointers_resolve]. *)
Fixpoint verify_vlog (es : list entry) : M bool :=
  match es with
  | [] => mret true
  | e :: es' =>
      if negb (e_vlog e) then verify_vlog es'
      else
        v ← deref_value (e_value e);
        match v with
        | None => mret false
        | Some _ => verify_vlog es'
        end
  end.

(** ** Point reads *)

(** One source of [get_task]: it replaces the best version when its sequence
    is not smaller. *)
Definition get_best (key : Key) (at_ : Z) (e : engine) : option entry :=
  let mh := option_map (Memtable.entry_of key) (Memtable.lookup_hit key at_ (mem_ e)) in
  fold_left (fun acc sst => merge_hit acc (SSTableReader.lookup sst key at_))
            (sstables_ (lsm e)) (merge_hit None mh).

Definition get (key : Key) (at_ : Z) : M (option Value) :=
  best ← gets (get_best key at_);
  match best with
  | None => mret None
  | Some b =>
      if e_tomb b then mret None
      else if e_vlog b then deref_value (e_value b)
      else mret (Some (e_value b))
  end.

Definition snapshot : M Z := gets last_seq_.

(** ** Durability barrier *)

Definition sync_task : M Error :=
  g ← gets (fun e => vlog_gen_ (vl e));
  ve ← fac_sync g;
  we ← wal_sync;
  mret (if err_ok ve then we else ve).

Definition sync : M Error :=
  active ← gets value_log_active;
  if negb active then wal_sync else sync_task.

(** ** Range reads *)

(** The merged view is key-ascending; a [ScanBest] is the winning version
    ([present] is always set on an element of the vector). *)
Abbreviation merged_t := (list (Key * entry)).

(** The slot [lower_bound] finds: replace on an equal key when the sequence is
    not smaller, else insert before the first greater key. *)
Fixpoint offer_at (k : Key) (x : entry) (merged : merged_t) : merged_t :=
  match merged with
  | [] => [(k, x)]
  | (k', y) :: rest =>
      if key_ltb k' k then (k', y) :: offer_at k x rest
      else if key_eqb k' k then
        (k', if e_seq y <=? e_seq x then x else y) :: rest
      else (k, x) :: (k', y) :: rest
  end.

Definition offer (merged : merged_t) (k : Key) (x : entry) : merged_t :=
  match list.last merged with
  | None => merged ++ [(k, x)]
  | Some (kb, _) => if key_ltb kb k then merged ++ [(k, x)] else offer_at k x merged
  end.

Fixpoint ascending_run (run : merged_t) : bool :=
  match run with
  | (k, _) :: (((k', _) :: _) as rest) => key_ltb k k' && ascending_run rest
  | _ => true
  end.

(** The two-way merge: on an equal key the incoming run wins on [seq >=]. *)
Fixpoint merge_runs (merged : merged_t) : merged_t -> merged_t :=
  match merged with
  | [] => fun run => run
  | (k, x) :: merged' =>
      fix inner (run : merged_t) : merged_t :=
        match run with
        | [] => (k, x) :: merged'
        | (k', y) :: run' =>
            if key_ltb k k' then (k, x) :: merge_runs merged' run
            else if key_ltb k' k then (k', y) :: inner run'
            else (if e_seq x <=? e_seq y then (k', y) else (k, x)) :: merge_runs merged' run'
        end
  end.

Definition fold_run (merged : merged_t) (run : merged_t) : merged_t :=
  if negb (ascending_run run) then fold_left (fun m p => offer m p.1 p.2) run merged
  else
    match run with
    | [] => merged
    | (k0, _) :: _ =>
        match list.last merged with
        | None => merged ++ run
        | Some (kb, _) => if key_ltb kb k0 then merged ++ run else merge_runs merged run
        end
    end.

(** The memtable walk from [lower_bound(range.lo)]. *)
Fixpoint offer_mem (rg : Range) (at_ : Z) (merged : merged_t)
    (m : list (Key * list Memtable.Version)) : merged_t :=
  match m with
  | [] => merged
  | (k, vs) :: m' =>
      if negb (hi_unbounded rg) && negb (key_ltb k (hi rg)) then merged
      else
        let merged :=
          match Memtable.hit_from vs at_ with
          | Some h => offer merged k (Memtable.entry_of k h)
          | None => merged
          end in
        offer_mem rg at_ merged m'
  end.

(** [std::map::lower_bound]. *)
Fixpoint lower_bound {A} (k : Key) (m : list (Key * A)) : list (Key * A) :=
  match m with
  | [] => []
  | (k', a) :: m' => if key_ltb k' k then lower_bound k m' else m
  end.

Definition sst_run (rg : Range) (at_ : Z) (sst : SSTableReader.t) : merged_t :=
  map (fun e => (e_key e, e))
      (SSTableReader.scan_into sst
         (mkRange (lo rg) (if hi_unbounded rg then [] else hi rg) (hi_unbounded rg)) at_).

Definition build_scan_merged (rg : Range) (at_ : Z) (e : engine) : merged_t :=
  fold_left (fun merged sst => fold_run merged (sst_run rg at_ sst)) (sstables_ (lsm e))
            (offer_mem rg at_ [] (lower_bound (lo rg) (Memtable.map_ (mem_ e)))).

(** The materialise loop of [scan_task]. *)
Fixpoint materialise (merged : merged_t) : M (list (Key * Value)) :=
  match merged with
  | [] => mret []
  | (k, x) :: rest =>
      if e_tomb x then materialise rest
      else if e_vlog x then
        v ← deref_value (e_value x);
        out ← materialise rest;
        mret (match v with Some v => (k, v) :: out | None => out end)
      else
        out ← materialise rest;
        mret ((k, e_value x) :: out)
  end.

Definition scan (rg : Range) (at_ : Z) : M (list (Key * Value)) :=
  merged ← gets (build_scan_merged rg at_);
  materialise merged.

(** ** The streaming scan ([scan_visit]) *)

Definition in_hi (rg : Range) (k : Key) : bool := hi_unbounded rg || key_ltb k (hi rg).

(** [advance_mem]: the cursor's current version and the iterator after it. *)
Fixpoint advance_mem (rg : Range) (at_ : Z) (m : list (Key * list Memtable.Version))
  : option entry * list (Key * list Memtable.Version) :=
  match m with
  | [] => (None, [])
  | (k, vs) :: m' =>
      if negb (in_hi rg k) then (None, m)
      else
        match Memtable.hit_from vs at_ with
        | None => advance_mem rg at_ m'
        | Some best => (Some (Memtable.entry_of k best), m')
        end
  end.

(** The rest of one key's run of versions, which may span blocks: the last
    version not above the snapshot, and the entries after the run.  A cursor
    position (block, index) is the list of entries from there on: the empty
    blocks it steps over do not show. *)
Fixpoint gather_run (k : Key) (at_ : Z) (best : option entry) (es : list entry)
  : option entry * list entry :=
  match es with
  | [] => (best, [])
  | e :: es' =>
      if key_eqb (e_key e) k
      then gather_run k at_ (if e_seq e <=? at_ then Some e else best) es'
      else (best, es)
  end.

Fixpoint advance_sst (fuel : nat) (rg : Range) (at_ : Z) (es : list entry)
  : option entry * list entry :=
  match fuel with
  | O => (None, es)
  | S fuel' =>
      match es with
      | [] => (None, [])
      | e :: es' =>
          if key_ltb (e_key e) (lo rg) then advance_sst fuel' rg at_ es'
          else if negb (in_hi rg (e_key e)) then (None, es)
          else
            let '(best, rest) := gather_run (e_key e) at_ None es in
            match best with
            | None => advance_sst fuel' rg at_ rest
            | Some b => (Some b, rest)
            end
      end
  end.

(** A live cursor holds its current version and the position after it. *)
Record cursors := mkCursors {
  mcur : option entry * list (Key * list Memtable.Version);
  scs : list (option entry * list entry)
}.

Definition min_key_of (acc : option Key) (c : option entry) : option Key :=
  match c, acc with
  | None, _ => acc
  | Some e, None => Some (e_key e)
  | Some e, Some k => if key_ltb (e_key e) k then Some (e_key e) else acc
  end.

Definition holds (k : Key) (c : option entry) : bool :=
  match c with Some e => key_eqb (e_key e) k | None => false end.

(** The winner among the sources at the minimum key: the highest sequence, a
    tie going to the later source. *)
Definition winner (k : Key) (c : cursors) : option entry :=
  fold_left (fun win sc => if holds k sc.1 then merge_hit win sc.1 else win) (scs c)
            (if holds k (mcur c).1 then (mcur c).1 else None).

(** The k-way merge; [None] when a surviving version is a value-log pointer. *)
Fixpoint visit_loop (fuel : nat) (rg : Range) (at_ : Z) (c : cursors)
  : option (list (Key * Value)) :=
  match fuel with
  | O => Some []
  | S fuel' =>
      match fold_left (fun acc sc => min_key_of acc sc.1) (scs c) (min_key_of None (mcur c).1) with
      | None => Some []
      | Some k =>
          match winner k c with
          | None => Some []
          | Some win =>
              if e_vlog win && negb (e_tomb win) then None
              else
                let c' :=
                  mkCursors
                    (if holds k (mcur c).1 then advance_mem rg at_ (mcur c).2 else mcur c)
                    (map (fun sc => if holds k sc.1
                                    then advance_sst (S (length sc.2)) rg at_ sc.2 else sc)
                         (scs c)) in
                match visit_loop fuel' rg at_ c' with
                | None => None
                | Some out =>
                    Some (if e_tomb win then out else (e_key win, e_value win) :: out)
                end
          end
      end
  end.

(** [scan_visit]: the pairs the callback is called on, or [None] for the
    [false] result that makes the caller fall back to [scan]. *)
Definition scan_visit (rg : Range) (at_ : Z) (e : engine) : option (list (Key * Value)) :=
  if value_log_active e then None
  else
    let m := lower_bound (lo rg) (Memtable.map_ (mem_ e)) in
    let start := map (fun sst => concat (drop (SSTableReader.scan_start_block sst (lo rg))
                                              (SSTableReader.blocks_ sst)))
                     (sstables_ (lsm e)) in
    let c := mkCursors (advance_mem rg at_ m)
                       (map (fun es => advance_sst (S (length es)) rg at_ es) start) in
    let fuel := S (length m + list_sum (map (fun es => length es) start)) in
    visit_loop fuel rg at_ c.

(** ** Manifest appends *)

(** [take_manifest_header] and the append of what it returns. *)
Definition append_manifest_header : M unit :=
  started ← gets (fun e => manifest_started_ (lsm e));
  if started : bool then mret tt
  else
    modify (upd_lsm (set_man_started true));;
    _ ← man_append (Format.put_stream_header kManStreamMagic Format.kManifestVersion);
    mret tt.

(** One manifest record: [++manifest_tip_], the header, append and sync, the
    number rolled back when either fails. *)
Definition commit_manifest (encode : Z -> list byte) : M bool :=
  tip ← gets (fun e => manifest_tip_ (lsm e));
  let entry_no := u64 (tip + 1) in
  modify (upd_lsm (set_tip entry_no));;
  append_manifest_header;;
  me ← man_append (encode entry_no);
  if negb (err_ok me) then
    modify (upd_lsm (set_tip (u64 (entry_no - 1))));; mret false
  else
    mse ← man_sync;
    if negb (err_ok mse) then
      modify (upd_lsm (set_tip (u64 (entry_no - 1))));; mret false
    else mret true.

(** Write a built image to a fresh table device and install it; [None] on any
    failure. *)
Definition install_built (built : SSTableBuilder.result) : M (option SSTableReader.t) :=
  id ← gets (fun e => next_sstable_id_ (lsm e));
  modify (upd_lsm (set_next_id (u64 (id + 1))));;
  ae ← fac_append id (SSTableBuilder.bytes built);
  if negb (err_ok ae) then mret None
  else
    se ← fac_sync id;
    if negb (err_ok se) then mret None
    else
      installed ← commit_manifest (fun n =>
        encode_manifest (mkManifestRecord Install n id (Zlen (SSTableBuilder.bytes built))
                           (SSTableBuilder.min_seq built) (SSTableBuilder.max_seq built) kNoSeq));
      if installed : bool then mret (Some (SSTableReader.adopt_built built id)) else mret None.

(** ** Flush *)

Definition flush_memtable : M unit :=
  entries ← gets (fun e => Memtable.flush_entries (mem_ e));
  if (length entries =? 0)%nat then mret tt
  else
    rd ← install_built (SSTableBuilder.build entries);
    match rd with
    | None => mret tt
    | Some reader =>
        modify (upd_lsm (fun l => set_sstables (sstables_ l ++ [reader]) l));;
        modify (upd_mem Memtable.erase_flushable)
    end.

Definition do_flush : M unit :=
  skip ← gets (fun e => negb (has_lsm (cfg e)) || (length (Memtable.map_ (mem_ e)) =? 0)%nat);
  if skip : bool then mret tt
  else
    sync_vlog ← gets (fun e => value_log_active e && (0 <? vlog_len_ (vl e)));
    g ← gets (fun e => vlog_gen_ (vl e));
    if sync_vlog : bool then
      vse ← fac_sync g;
      if negb (err_ok vse) then mret tt else flush_memtable
    else flush_memtable.

(** ** Compaction *)

(** [rfind("!t", 0) == 0]. *)
Definition has_topic_prefix (k : Key) : bool :=
  match k with a :: b :: _ => Byte.eqb a Byte.x21 && Byte.eqb b Byte.x74 | _ => false end.

Definition is_topic_segment (t : SSTableReader.t) : bool :=
  match SSTableReader.table_first_key t, SSTableReader.table_last_key t with
  | Some l, Some h => has_topic_prefix l && has_topic_prefix h
  | _, _ => false
  end.

Fixpoint bucket_loop (fuel n b : nat) : nat :=
  match fuel with
  | O => b
  | S fuel' => if (1 <? n)%nat then bucket_loop fuel' (Nat.div2 n) (S b) else b
  end.

Definition bucket_of (n : nat) : nat := bucket_loop n n 0.

(** [++bucket_counts\[b\]] on the ordered map. *)
Fixpoint bump (b : nat) (counts : list (nat * nat)) : list (nat * nat) :=
  match counts with
  | [] => [(b, 1%nat)]
  | (b', c) :: rest =>
      if (b' <? b)%nat then (b', c) :: bump b rest
      else if (b' =? b)%nat then (b', S c) :: rest
      else (b, 1%nat) :: (b', c) :: rest
  end.

Definition table_bucket (t : SSTableReader.t) : nat := bucket_of (SSTableReader.entry_count t).

(** The smallest crowded size class. *)
Definition chosen_bucket (trigger : nat) (ssts : list SSTableReader.t) : option nat :=
  let counts := fold_left (fun cs t => if is_topic_segment t then cs else bump (table_bucket t) cs)
                          ssts [] in
  option_map fst (List.find (fun bc => (trigger <=? bc.2)%nat) counts).

Definition compaction_inputs (b : nat) (ssts : list SSTableReader.t) : list SSTableReader.t :=
  List.filter (fun t => negb (is_topic_segment t || negb (table_bucket t =? b)%nat)) ssts.

Definition covered_max_of (inputs : list SSTableReader.t) : Z :=
  fold_left (fun m t => if m <? SSTableReader.max_seq t then SSTableReader.max_seq t else m)
            inputs kNoSeq.

Definition gc_watermark_of (e : engine) : Z :=
  if (0 <? cdc_retain_from_ (cfg e)) && (cdc_retain_from_ (cfg e) <=? read_watermark_ e)
  then cdc_retain_from_ (cfg e) - 1
  else read_watermark_ e.

(** The generations the surviving pointers refer to, in order of appearance. *)
Definition push_gen (gens : list Z) (e : entry) : list Z :=
  if negb (e_vlog e) then gens
  else
    match vlogptr_decode (e_value e) with
    | None => gens
    | Some p => if existsb (fun g => g =? gen p) gens then gens else gens ++ [gen p]
    end.

(** The rewrite loop: the entries re-pointed, and whether an old pointer was
    kept. *)
Fixpoint rewrite_entries (fresh_gen fresh_len : Z) (merged : list entry)
  : M (list entry * bool) :=
  match merged with
  | [] => mret ([], false)
  | e :: rest =>
      if negb (e_vlog e) then
        res ← rewrite_entries fresh_gen fresh_len rest;
        mret (e :: res.1, res.2)
      else
        v ← deref_value (e_value e);
        match v with
        | None =>
            res ← rewrite_entries fresh_gen fresh_len rest;
            mret (e :: res.1, true)
        | Some v =>
            let enc := encode_vlog_record v fresh_len fresh_gen in
            ae ← fac_append fresh_gen enc.1;
            if negb (err_ok ae) then
              res ← rewrite_entries fresh_gen fresh_len rest;
              mret (e :: res.1, true)
            else
              res ← rewrite_entries fresh_gen (u64 (fresh_len + Zlen enc.1)) rest;
              mret (Entry (e_key e) (vlogptr_encode enc.2) (e_seq e) (e_tomb e) (e_vlog e) :: res.1,
                    res.2)
        end
  end.

(** [rewrite_vlog_for_compaction]: the re-pointed entries and the generations
    that may be reclaimed. *)
Definition rewrite_vlog_for_compaction (merged : list entry) : M (list entry * list Z) :=
  if negb (existsb e_vlog merged) then mret (merged, [])
  else
    let old_gens := fold_left push_gen merged [] in
    base ← gets (fun e => vlog_base_id_ (cfg e));
    n ← gets (fun e => vlog_gen_counter_ (vl e));
    modify (upd_vl (set_gen_counter (u64 (n + 1))));;
    let fresh_gen := u64 (base + u64 (n + 1)) in
    res ← rewrite_entries fresh_gen 0 merged;
    fse ← fac_sync fresh_gen;
    if negb (err_ok fse) then mret (res.1, [])
    else
      active ← gets (fun e => vlog_gen_ (vl e));
      mret (res.1, if res.2 : bool then [] else List.filter (fun g => negb (g =? active)) old_gens).

(** The obsolete records, one per input. *)
Fixpoint append_obsolete (ids : list Z) : M bool :=
  match ids with
  | [] => mret true
  | oid :: ids' =>
      ok ← commit_manifest (fun n => encode_manifest_obsolete n oid);
      if ok : bool then append_obsolete ids' else mret false
  end.

Definition is_input (ids : list Z) (t : SSTableReader.t) : bool :=
  existsb (fun oid => SSTableReader.sstable_id t =? oid) ids.

Section factory.
Context `{Hfac : IDiskFactory}.

(** The live-set swap: each table of the merge is recorded and reclaimed. *)
Fixpoint swap_tables (ids : list Z) (ssts : list SSTableReader.t) : M (list SSTableReader.t) :=
  match ssts with
  | [] => mret []
  | t :: ssts' =>
      if is_input ids t then
        modify (upd_lsm (push_obsolete (SSTableReader.sstable_id t)));;
        fac_reclaim (SSTableReader.sstable_id t);;
        swap_tables ids ssts'
      else
        kept ← swap_tables ids ssts';
        mret (t :: kept)
  end.

Fixpoint reclaim_generations (gens : list Z) : M unit :=
  match gens with
  | [] => mret tt
  | g :: gens' =>
      modify (upd_vl (push_reclaimed g));;
      fac_reclaim g;;
      reclaim_generations gens'
  end.

Definition swap_live_set (ids : list Z) (reader : option SSTableReader.t) (gens : list Z) : M unit :=
  ssts ← gets (fun e => sstables_ (lsm e));
  kept ← swap_tables ids ssts;
  modify (upd_lsm (set_sstables (kept ++ option_list reader)));;
  reclaim_generations gens.

Definition obsolete_and_truncate (ids : list Z) (reader : option SSTableReader.t)
    (covered_max : Z) (gens : list Z) : M unit :=
  ok ← append_obsolete ids;
  if negb ok then mret tt
  else
    truncates ← gets (fun e => (wal_trunc_seq_ (lsm e) <? covered_max)
                                 && negb (Memtable.any_resident_ (mem_ e)));
    if truncates : bool then
      ok ← commit_manifest (fun n => encode_manifest_wal_trunc n covered_max);
      if negb ok then mret tt
      else
        modify (upd_lsm (set_trunc covered_max));;
        swap_live_set ids reader gens
    else swap_live_set ids reader gens.

Definition compact_tables (inputs : list SSTableReader.t) : M unit :=
  w ← gets gc_watermark_of;
  let covered_max := covered_max_of inputs in
  let ids := map SSTableReader.sstable_id inputs in
  let merged := compact_merge (map SSTableReader.collect_entries inputs) w in
  active ← gets value_log_active;
  res ← (if active : bool then rewrite_vlog_for_compaction merged else mret (merged, []));
  if (length res.1 =? 0)%nat then obsolete_and_truncate ids None covered_max res.2
  else
    rd ← install_built (SSTableBuilder.build res.1);
    match rd with
    | None => mret tt
    | Some reader => obsolete_and_truncate ids (Some reader) covered_max res.2
    end.

Definition do_compact : M unit :=
  skip ← gets (fun e => negb (has_lsm (cfg e)) || (length (sstables_ (lsm e)) <? 2)%nat);
  if skip : bool then mret tt
  else
    chosen ← gets (fun e => chosen_bucket (compaction_trigger_ (cfg e)) (sstables_ (lsm e)));
    match chosen with
    | None => mret tt
    | Some b =>
        inputs ← gets (fun e => compaction_inputs b (sstables_ (lsm e)));
        if (length inputs <? 2)%nat then mret tt else compact_tables inputs
    end.

(** ** Commits *)

(** The separation of a large value: what the engine stores for it. *)
Definition separate_value (value : Value) (tombstone : bool) : M (Value * bool) :=
  sep ← gets (fun e => negb tombstone && value_log_active e
                         && (value_threshold_ (cfg e) <? length value)%nat);
  if negb sep then mret (value, false)
  else
    g ← gets (fun e => vlog_gen_ (vl e));
    base ← gets (fun e => vlog_len_ (vl e));
    let enc := encode_vlog_record value base g in
    ve ← fac_append g enc.1;
    if err_ok ve then
      modify (upd_vl (set_vlog_len (u64 (base + Zlen enc.1))));;
      mret (vlogptr_encode enc.2, true)
    else mret (value, false).

Definition append_wal_header : M unit :=
  started ← gets wal_started_;
  if started : bool then mret tt
  else
    modify (set_wal_started true);;
    _ ← wal_append (Format.put_stream_header kWalStreamMagic Format.kWalStreamVersion);
    mret tt.

(** The flush and compaction a commit may run before it returns. *)
Definition maintain : M unit :=
  over ← gets (fun e => (0 <? flush_threshold_ (cfg e))%nat
                          && (flush_threshold_ (cfg e)
                              <? Memtable.flushable_version_count (mem_ e))%nat);
  if negb over then mret tt
  else
    do_flush;;
    crowded ← gets (fun e => (2 <=? compaction_trigger_ (cfg e))%nat
                              && (compaction_trigger_ (cfg e) <=? length (sstables_ (lsm e)))%nat);
    if crowded : bool then do_compact else mret tt.

Definition commit_task (seq : Z) (key : Key) (value : Value) (tombstone : bool) : M unit :=
  st ← separate_value value tombstone;
  append_wal_header;;
  _ ← wal_append (encode_record (mkWalRecord seq key st.1 tombstone st.2));
  modify (upd_mem (Memtable.insert key seq st.1 tombstone st.2));;
  maintain.

Definition commit (key : Key) (value : Value) (tombstone : bool) : M Z :=
  last ← gets last_seq_;
  let seq := u64 (last + 1) in
  modify (set_last_seq seq);;
  commit_task seq key value tombstone;;
  mret seq.

Definition put (key : Key) (value : Value) : M Z := commit key value false.
Definition del (key : Key) : M Z := commit key [] true.

(** ** Recovery *)

Record LiveRec := mkLiveRec { lr_id : Z; lr_len : Z; lr_max_seq : Z }.

Definition apply_manifest (live : list LiveRec) (r : ManifestRecord) : M (list LiveRec) :=
  match m_kind r with
  | Install =>
      next ← gets (fun e => next_sstable_id_ (lsm e));
      when (next <? u64 (m_sstable_id r + 1))
        (modify (upd_lsm (set_next_id (u64 (m_sstable_id r + 1)))));;
      mret (live ++ [mkLiveRec (m_sstable_id r) (m_sst_len r) (m_max_seq r)])
  | Obsolete =>
      let gone := List.filter (fun lr => lr_id lr =? m_sstable_id r) live in
      fold_right (fun lr (k : M unit) =>
                    modify (upd_lsm (push_obsolete (lr_id lr)));; fac_reclaim (lr_id lr);; k)
                 (mret tt) gone;;
      mret (List.filter (fun lr => negb (lr_id lr =? m_sstable_id r)) live)
  | WalTrunc =>
      cur ← gets (fun e => wal_trunc_seq_ (lsm e));
      when (cur <? m_wal_trunc_seq r) (modify (upd_lsm (set_trunc (m_wal_trunc_seq r))));;
      mret live
  end.

(** The manifest fold: stop at the first undecodable record or gap.  The code
    sets [expect_entry] to one before the loop and does not advance it. *)
Fixpoint fold_manifest (fuel : nat) (image : list byte) (pos : nat) (expect : Z)
    (live : list LiveRec) : M (list LiveRec) :=
  match fuel with
  | O => mret live
  | S fuel' =>
      if (pos <? length image)%nat then
        match decode_manifest image pos with
        | None => mret live
        | Some (r, n) =>
            if negb (m_entry_no r =? expect) then mret live
            else
              live ← apply_manifest live r;
              modify (upd_lsm (set_tip (m_entry_no r)));;
              fold_manifest fuel' image (pos + n) expect live
        end
      else mret live
  end.

(** Read and fold the manifest; an unknown stream version folds nothing. *)
Definition recover_manifest (manifest_len : nat) : M (list LiveRec) :=
  lsm_mode ← gets (fun e => has_lsm (cfg e));
  if negb ((0 <? manifest_len)%nat && lsm_mode) then mret []
  else
    res ← man_read manifest_len;
    if negb (err_ok res.1) then mret []
    else
      let image := res.2 in
      modify (upd_lsm (set_man_started (0 <? length image)%nat));;
      let pos :=
        if (Format.kStreamHeaderBytes <=? length image)%nat && (get_u32 image =? kManStreamMagic)
        then if Format.check_stream_header image kManStreamMagic Format.kManifestVersion
             then Format.kStreamHeaderBytes else length image
        else O in
      fold_manifest (length image) image pos 1 [].

(** Load the surviving tables in install order; the first rejected one stops.
    The result is the greatest sequence loaded. *)
Fixpoint load_tables (live : list LiveRec) (loaded_max : Z) : M Z :=
  match live with
  | [] => mret loaded_max
  | lr :: live' =>
      res ← fac_load (lr_id lr) (lr_len lr);
      match res.2 with
      | None => mret loaded_max
      | Some reader =>
          if negb (err_ok res.1) then mret loaded_max
          else
            active ← gets value_log_active;
            resolved ← (if active : bool
                        then verify_vlog (SSTableReader.collect_entries reader) else mret true);
            if negb resolved then mret loaded_max
            else
              last ← gets last_seq_;
              when (last <? SSTableReader.max_seq reader)
                (modify (set_last_seq (SSTableReader.max_seq reader)));;
              modify (upd_lsm (fun l => set_sstables (sstables_ l ++ [reader]) l));;
              load_tables live' (if loaded_max <? SSTableReader.max_seq reader
                                 then SSTableReader.max_seq reader else loaded_max)
      end
  end.

(** The WAL replay loop. *)
Fixpoint replay (fuel : nat) (image : list byte) (pos : nat) (expect : Z) : M unit :=
  match fuel with
  | O => mret tt
  | S fuel' =>
      if (pos <? length image)%nat then
        match try_decode image pos with
        | None => mret tt
        | Some (r, n) =>
            trunc ← gets (fun e => wal_trunc_seq_ (lsm e));
            if r_seq r <=? trunc then replay fuel' image (pos + n) expect
            else if negb (r_seq r =? expect) then mret tt
            else
              resolved ← (if r_vlog r then
                            v ← deref_value (r_value r);
                            mret (match v with Some _ => true | None => false end)
                          else mret true);
              if negb resolved then mret tt
              else
                modify (upd_mem (Memtable.insert (r_key r) (r_seq r) (r_value r)
                                   (r_tombstone r) (r_vlog r)));;
                last ← gets last_seq_;
                when (last <? r_seq r) (modify (set_last_seq (r_seq r)));;
                replay fuel' image (pos + n) (u64 (expect + 1))
        end
      else mret tt
  end.

(** The decode-and-replay half of recovery, once the WAL image is read. *)
Definition replay_wal (image : list byte) : M unit :=
  modify (upd_mem Memtable.clear);;
  modify (set_wal_started (0 <? length image)%nat);;
  trunc ← gets (fun e => wal_trunc_seq_ (lsm e));
  if (Format.kStreamHeaderBytes <=? length image)%nat && (get_u32 image =? kWalStreamMagic) then
    if negb (Format.check_stream_header image kWalStreamMagic Format.kWalStreamVersion)
    then modify (upd_mem Memtable.clear)
    else replay (length image) image Format.kStreamHeaderBytes (u64 (trunc + 1))
  else replay (length image) image 0 (u64 (trunc + 1)).

Definition reset_for_recovery (e : engine) : engine :=
  let e := mkEngine (cfg e) (Memtable.clear (mem_ e)) kNoSeq (wal_started_ e) (read_watermark_ e)
             (mkLsm [] 0 0 (manifest_started_ (lsm e)) kNoSeq []) (vl e) in
  if value_log_active e then
    upd_vl (fun v => let n := u64 (vlog_gen_counter_ v + 1) in
                     mkVlog (u64 (vlog_base_id_ (cfg e) + n)) 0 n (reclaimed_vlog_ids_ v)) e
  else e.

(** [recover_task]; [recover] is the case of an empty manifest. *)
Definition recover_lsm (durable_len manifest_len : nat) : M Error :=
  modify reset_for_recovery;;
  live ← recover_manifest manifest_len;
  loaded_max ← load_tables live kNoSeq;
  trunc ← gets (fun e => wal_trunc_seq_ (lsm e));
  when (loaded_max <? trunc) (modify (upd_lsm (set_trunc loaded_max)));;
  res ← (if (0 <? durable_len)%nat then wal_read durable_len else mret (ok_error, []));
  (if negb (err_ok res.1) then modify (upd_mem Memtable.clear) else replay_wal res.2);;
  mret ok_error.

Definition recover (durable_len : nat) : M Error := recover_lsm durable_len 0.

Definition force_flush : M Error := do_flush;; mret ok_error.
Definition force_compact : M Error := do_compact;; mret ok_error.

End factory.

(** ** Op-log export *)

(** [std::sort] by sequence. *)
Fixpoint seq_insert (e : entry) (es : list entry) : list entry :=
  match es with
  | [] => [e]
  | x :: es' => if e_seq x <? e_seq e then x :: seq_insert e es' else e :: es
  end.

Definition seq_sort (es : list entry) : list entry := fold_right seq_insert [] es.

(** The versions [export_ops_task] gathers. *)
Definition exported (from_seq : Z) (include_flushed : bool) (e : engine) : list entry :=
  (if include_flushed : bool then
     concat (map (fun sst => if SSTableReader.max_seq sst <? from_seq then []
                             else List.filter (fun x => negb (e_seq x <? from_seq))
                                              (SSTableReader.collect_entries sst))
                 (sstables_ (lsm e)))
   else []) ++
  List.filter (fun x => negb (e_seq x <? from_seq)) (Memtable.entries (mem_ e)).

(** The completeness test: front, back and count of the sorted versions. *)
Definition complete_run (s0 last : Z) (ops : list entry) : bool :=
  match ops, list.last ops with
  | x :: _, Some y =>
      (e_seq x =? s0) && (e_seq y =? last) && (Zlen ops =? u64 (last - s0 + 1))
  | _, _ => false
  end.

(** The dereference pass: the operations inline, or the failure. *)
Fixpoint inline_ops (ops : list entry) : M (option (list entry)) :=
  match ops with
  | [] => mret (Some [])
  | x :: ops' =>
      if e_vlog x then
        v ← deref_value (e_value x);
        match v with
        | None => mret None
        | Some v =>
            rest ← inline_ops ops';
            mret (option_map (cons (Entry (e_key x) v (e_seq x) (e_tomb x) false)) rest)
        end
      else
        rest ← inline_ops ops';
        mret (option_map (cons x) rest)
  end.

Definition cdc_incomplete : Error :=
  mkError Corruption "cdc: op-log incomplete (compacted past the cursor)".
Definition pitr_incomplete : Error :=
  mkError Corruption "pitr: op-log incomplete (flushed/truncated) — archive before flush".
Definition pitr_dangling : Error :=
  mkError Corruption "pitr: vlog value did not resolve (dangling pointer)".

Definition export_ops (from_seq : Z) (include_flushed : bool) : M (Error * list entry) :=
  ops ← gets (fun e => seq_sort (exported from_seq include_flushed e));
  last ← gets last_seq_;
  let s0 := if from_seq <? 1 then 1 else from_seq in
  if (s0 <=? last) && negb (complete_run s0 last ops)
  then mret (if include_flushed : bool then cdc_incomplete else pitr_incomplete, [])
  else
    res ← inline_ops (if s0 <=? last then ops else []);
    mret (match res with Some out => (ok_error, out) | None => (pitr_dangling, []) end).

(** ** Branches *)

(** [fork_branch]: [None] for the refusal while the value log is active. *)
Definition fork_branch (flush_threshold : nat) (e : engine) : option engine :=
  if value_log_active e then None
  else
    let b := lsm_engine flush_threshold in
    let mem := fold_left (fun m x => Memtable.insert (e_key x) (e_seq x) (e_value x)
                                       (e_tomb x) (e_vlog x) m)
                         (Memtable.entries (mem_ e)) (mem_ b) in
    Some (mkEngine (mkCfg true flush_threshold (compaction_trigger_ (cfg e))
                          (cdc_retain_from_ (cfg e)) 0 kDefaultVlogBaseId)
                   mem (last_seq_ e) false kNoSeq
                   (mkLsm (sstables_ (lsm e)) (next_sstable_id_ (lsm e)) 0 false kNoSeq [])
                   init_vlog).

(** ** Metrics *)

Definition live_version_count (e : engine) : nat :=
  Memtable.version_count (mem_ e) +
  list_sum (map SSTableReader.entry_count (sstables_ (lsm e))).

End WalEngine.
