(* ===== verification/WalScan.v ===== *)
(** WalScan: the range-scan merge of the engine computes the newest visible
    version of every key.

    A merged view is a key-sorted association list.  [offer], the linear merge
    and the pure append all have one meaning: the entry held for a key becomes
    the better of what was held and what is offered. *)

From Stdlib Require Import ZArith Lia Sorting.Sorted.
From stdpp Require Import base list numbers gmap.
From S2P Require Import Prelude Codec Core Disk Mvcc ValueLog WalRecord Memtable Bloom SSTable.
From S2P Require Import SSTableRead Compaction Manifest WalEngine.
Import WalEngine.

(** ** Offering one entry *)

Lemma offer_at_spec k x m :
  key_sorted m ->
  key_sorted (offer_at k x m) /\
  (forall k' y, In (k', y) (offer_at k x m) -> k' = k \/ exists z, In (k', z) m) /\
  forall q, assoc q (offer_at k x m) = if key_eqb k q then better (assoc q m) x else assoc q m.
Proof.
  induction m as [|[k' y] m IH]; cbn [offer_at]; intros Hs.
  - split; [apply key_sorted_cons; [constructor|done]|]. split.
    + intros k' y [[= -> ->]|[]]. by left.
    + intros q. cbn. by destruct (key_eqb k q).
  - pose proof (key_sorted_cons_inv _ _ _ Hs) as [Hs' Hlt].
    destruct (IH Hs') as (IH1 & IH2 & IH3).
    destruct (key_ltb k' k) eqn:E; [|destruct (key_eqb_spec k' k) as [->|Hne]].
    + split_and!.
      * apply key_sorted_cons; [done|]. intros q z Hq.
        apply IH2 in Hq as [->|[z' Hz]]; [done|by eapply Hlt].
      * intros q z [[= -> ->]|Hq]; [right; exists z; by left|].
        apply IH2 in Hq as [->|[z' Hz]]; [by left|right; exists z'; by right].
      * intros q. cbn [assoc]. destruct (key_eqb_spec k' q) as [->|]; [|apply IH3].
        apply key_ltb_neq in E. by rewrite (proj2 (key_eqb_neq k q)) by congruence.
    + split_and!.
      * by apply key_sorted_cons.
      * intros q z [[= <- _]|Hq]; [by left|right; exists z; by right].
      * intros q. cbn [assoc]. destruct (key_eqb k q); [|done]. cbn. by destruct (_ <=? _).
    + assert (Hk : key_ltb k k' = true).
      { destruct (key_trichotomy k k') as [?|[?|?]]; congruence. }
      split_and!.
      * apply key_sorted_cons; [done|]. intros q z [[= <- _]|Hq]; [done|].
        eapply key_ltb_trans; [exact Hk|by eapply Hlt].
      * intros q z [[= -> _]|Hq]; [by left|right; by exists z].
      * intros q. change (assoc q ((k, x) :: (k', y) :: m))
          with (if key_eqb k q then Some x else assoc q ((k', y) :: m)).
        destruct (key_eqb_spec k q) as [->|]; [|done].
        assert (assoc q ((k', y) :: m) = None) as ->; [|done].
        apply assoc_none. intros a [[= -> ->]|Hq]; [by rewrite key_ltb_irrefl in Hk|].
        specialize (Hlt _ _ Hq). apply key_ltb_asym in Hlt. congruence.
Qed.

(** On a sorted view a key above the last is appended. *)
Lemma offer_at_last k x m :
  (forall k' y, In (k', y) m -> key_ltb k' k = true) -> offer_at k x m = m ++ [(k, x)].
Proof.
  induction m as [|[k' y] m IH]; intros H; [done|]. cbn.
  rewrite (H k' y) by (by left). rewrite IH; [done|]. intros q z Hq. apply (H q z). by right.
Qed.

Lemma last_below {A} (m : list (Key * A)) kb b k :
  key_sorted m -> list.last m = Some (kb, b) -> key_ltb kb k = true ->
  forall k' y, In (k', y) m -> key_ltb k' k = true.
Proof.
  intros Hs Hl Hk k' y Hin. apply last_Some in Hl as [l ->].
  apply in_app_iff in Hin as [Hin|[[= <- _]|[]]]; [|done].
  eapply key_ltb_trans; [|exact Hk]. induction l as [|[q z] l IH]; [done|].
  apply key_sorted_cons_inv in Hs as [Hs Hlt]. destruct Hin as [[= -> ->]|Hin]; [|by apply IH].
  eapply (Hlt kb b). apply in_app_iff. right. by left.
Qed.

Lemma offer_offer_at m k x : key_sorted m -> offer m k x = offer_at k x m.
Proof.
  intros Hs. unfold offer. destruct (list.last m) as [[kb b]|] eqn:El.
  - destruct (key_ltb kb k) eqn:E; [|done]. symmetry. apply offer_at_last. by eapply last_below.
  - apply last_None in El as ->. done.
Qed.

Lemma offer_sorted m k x : key_sorted m -> key_sorted (offer m k x).
Proof. intros H. rewrite offer_offer_at by done. by apply offer_at_spec. Qed.

Lemma offer_assoc m k x q :
  key_sorted m -> assoc q (offer m k x) = if key_eqb k q then better (assoc q m) x else assoc q m.
Proof. intros H. rewrite offer_offer_at by done. by apply offer_at_spec. Qed.

(** ** Folding a run *)

(** The best of a run for one key. *)
Definition run_best (q : Key) (run : merged_t) : option entry :=
  fold_left better (map snd (List.filter (fun p => key_eqb p.1 q) run)) None.

Lemma run_best_sorted q run : key_sorted run -> run_best q run = assoc q run.
Proof.
  unfold run_best. induction run as [|[k x] run IH]; intros Hs; [done|].
  apply key_sorted_cons_inv in Hs as [Hs Hlt]. cbn [List.filter fst assoc].
  destruct (key_eqb_spec k q) as [->|]; [|by apply IH]. cbn [map snd fold_left better].
  replace (List.filter _ run) with (@nil (Key * entry)); [done|]. symmetry.
  clear IH Hs. induction run as [|[k' y] run IH]; [done|]. cbn [List.filter fst].
  specialize (Hlt k' y (or_introl eq_refl)) as Hk. apply key_ltb_neq in Hk.
  rewrite (proj2 (key_eqb_neq k' q)) by congruence. apply IH. intros. eapply Hlt. by right.
Qed.

Lemma fold_offers run m :
  key_sorted m ->
  key_sorted (fold_left (fun m p => offer m p.1 p.2) run m) /\
  forall q, assoc q (fold_left (fun m p => offer m p.1 p.2) run m) =
            merge_hit (assoc q m) (run_best q run).
Proof.
  revert m; induction run as [|[k x] run IH]; intros m Hs; cbn [fold_left].
  - split; [done|]. intros q. done.
  - destruct (IH (offer m k x)) as [H1 H2]; [by apply offer_sorted|].
    split; [done|]. intros q. cbn [fst snd]. rewrite H2, offer_assoc by done.
    unfold run_best. cbn [List.filter fst]. destruct (key_eqb k q); [|done].
    cbn [map snd fold_left]. etransitivity; [symmetry; apply fold_better_acc|].
    apply (fold_better_acc (x :: _)).
Qed.

Lemma ascending_run_sorted run : ascending_run run = true -> key_sorted run.
Proof.
  induction run as [|[k x] run IH]; intros H; [constructor|].
  destruct run as [|[k' y] run]; [apply key_sorted_cons; [constructor|done]|].
  cbn [ascending_run] in H. apply andb_true_iff in H as [H1 H2].
  specialize (IH H2). apply key_sorted_cons; [done|].
  pose proof (key_sorted_cons_inv _ _ _ IH) as [_ Hlt].
  intros q z [[= <- _]|Hq]; [done|]. eapply key_ltb_trans; [exact H1|by eapply Hlt].
Qed.

Lemma assoc_below {A} (m : list (Key * A)) q :
  (forall k y, In (k, y) m -> key_ltb q k = true) -> assoc q m = None.
Proof.
  intros H. apply assoc_none. intros a Ha. specialize (H _ _ Ha). by rewrite key_ltb_irrefl in H.
Qed.

Lemma merge_runs_cons k x m k' y run :
  merge_runs ((k, x) :: m) ((k', y) :: run) =
  if key_ltb k k' then (k, x) :: merge_runs m ((k', y) :: run)
  else if key_ltb k' k then (k', y) :: merge_runs ((k, x) :: m) run
  else (if e_seq x <=? e_seq y then (k', y) else (k, x)) :: merge_runs m run.
Proof. done. Qed.

Lemma merge_runs_in m : forall run k x,
  In (k, x) (merge_runs m run) -> In (k, x) m \/ In (k, x) run.
Proof.
  induction m as [|[k x] m IHm]; intros run; [by right|].
  induction run as [|[k' y] run IHr]; intros q z; [by left|]. rewrite merge_runs_cons.
  destruct (key_ltb k k'); [|destruct (key_ltb k' k)].
  - intros [Hq|Hq]; [left; by left|]. apply IHm in Hq as [Hq|Hq]; [left; by right|by right].
  - intros [Hq|Hq]; [right; by left|]. apply IHr in Hq as [Hq|Hq]; [by left|right; by right].
  - intros [Hq|Hq]; [destruct (_ <=? _); [right|left]; by left|].
    apply IHm in Hq as [Hq|Hq]; [left|right]; by right.
Qed.

Lemma merge_runs_sorted m : forall run,
  key_sorted m -> key_sorted run -> key_sorted (merge_runs m run).
Proof.
  induction m as [|[k x] m IHm]; intros run Hm Hr; [done|].
  pose proof (key_sorted_cons_inv _ _ _ Hm) as [Hm' Hltm].
  induction run as [|[k' y] run IHr]; [done|].
  pose proof (key_sorted_cons_inv _ _ _ Hr) as [Hr' Hltr]. rewrite merge_runs_cons.
  destruct (key_ltb k k') eqn:E1; [|destruct (key_ltb k' k) eqn:E2].
  - apply key_sorted_cons; [by apply IHm|].
    intros q z Hq. apply merge_runs_in in Hq as [Hq|[[= <- _]|Hq]]; [by eapply Hltm|done|].
    eapply key_ltb_trans; [exact E1|by eapply Hltr].
  - apply key_sorted_cons; [by apply IHr|].
    intros q z Hq. apply merge_runs_in in Hq as [[[= <- _]|Hq]|Hq]; [done| |by eapply Hltr].
    eapply key_ltb_trans; [exact E2|by eapply Hltm].
  - pose proof (key_ltb_total _ _ E1 E2) as <-. destruct (e_seq x <=? e_seq y);
      (apply key_sorted_cons; [by apply IHm|]; intros q z Hq;
       apply merge_runs_in in Hq as [Hq|Hq]; [by eapply Hltm|by eapply Hltr]).
Qed.

(** The keys and the contents of the linear merge. *)
Lemma merge_runs_spec m : forall run,
  key_sorted m -> key_sorted run ->
  key_sorted (merge_runs m run) /\
  forall q, assoc q (merge_runs m run) = merge_hit (assoc q m) (assoc q run).
Proof.
  intros run Hm Hr. split; [by apply merge_runs_sorted|]. revert run Hm Hr.
  induction m as [|[k x] m IHm]; intros run Hm Hr q; [by rewrite merge_hit_none_l|].
  pose proof (key_sorted_cons_inv _ _ _ Hm) as [Hm' Hltm].
  induction run as [|[k' y] run IHr]; [done|].
  pose proof (key_sorted_cons_inv _ _ _ Hr) as [Hr' Hltr]. rewrite merge_runs_cons.
  destruct (key_ltb k k') eqn:E1; [|destruct (key_ltb k' k) eqn:E2].
  - cbn [assoc]. destruct (key_eqb_spec k q) as [->|]; [|by apply IHm].
    rewrite (proj2 (key_eqb_neq k' q)) by (apply key_ltb_neq in E1; congruence).
    rewrite (assoc_below run q); [done|]. intros q' z Hq.
    eapply key_ltb_trans; [exact E1|by eapply Hltr].
  - change (assoc q ((k', y) :: merge_runs ((k, x) :: m) run)) with
      (if key_eqb k' q then Some y else assoc q (merge_runs ((k, x) :: m) run)).
    rewrite (IHr Hr'). cbn [assoc]. destruct (key_eqb_spec k' q) as [->|]; [|done].
    rewrite (proj2 (key_eqb_neq k q)) by (apply key_ltb_neq in E2; congruence).
    rewrite (assoc_below m q); [done|]. intros q' z Hq.
    eapply key_ltb_trans; [exact E2|by eapply Hltm].
  - pose proof (key_ltb_total _ _ E1 E2) as <-.
    assert (Hhd : (if e_seq x <=? e_seq y then (k, y) else (k, x)) =
                  (k, if e_seq x <=? e_seq y then y else x)) by (by destruct (_ <=? _)).
    rewrite Hhd. cbn [assoc]. destruct (key_eqb_spec k q) as [->|]; [|by apply IHm].
    cbn. by destruct (_ <=? _).
Qed.

Lemma assoc_app {A} (m r : list (Key * A)) q :
  assoc q (m ++ r) = match assoc q m with Some a => Some a | None => assoc q r end.
Proof. induction m as [|[k a] m IH]; [done|]. cbn. destruct (key_eqb k q); [done|exact IH]. Qed.

Lemma key_sorted_app {A} (m r : list (Key * A)) :
  key_sorted m -> key_sorted r ->
  (forall k x k' y, In (k, x) m -> In (k', y) r -> key_ltb k k' = true) -> key_sorted (m ++ r).
Proof.
  induction m as [|[k x] m IH]; cbn; intros Hm Hr H; [done|].
  apply key_sorted_cons_inv in Hm as [Hm Hlt]. apply key_sorted_cons.
  - apply IH; [done..|]. intros k1 x1 k2 y2 H1 H2. eapply H; [by right|done].
  - intros k' a' Hin. apply in_app_iff in Hin as [Hin|Hin]; [by eapply Hlt|].
    eapply H; [by left|done].
Qed.

Lemma fold_run_spec m run :
  key_sorted m ->
  key_sorted (fold_run m run) /\
  forall q, assoc q (fold_run m run) = merge_hit (assoc q m) (run_best q run).
Proof.
  intros Hm. unfold fold_run. destruct (ascending_run run) eqn:Ea; cbn [negb].
  2:{ by apply fold_offers. }
  apply ascending_run_sorted in Ea. destruct run as [|[k0 x0] run]; [done|].
  set (r := (k0, x0) :: run) in *.
  assert (Happ : (forall k x k' y, In (k, x) m -> In (k', y) r -> key_ltb k k' = true) ->
    key_sorted (m ++ r) /\
    forall q, assoc q (m ++ r) = merge_hit (assoc q m) (run_best q r)).
  { intros H. split; [by apply key_sorted_app|]. intros q.
    rewrite assoc_app, run_best_sorted by done.
    destruct (assoc q m) as [a|] eqn:E; [|by rewrite merge_hit_none_l].
    apply assoc_in in E. rewrite (assoc_below r q); [done|]. intros k y Hk. by eapply H. }
  destruct (list.last m) as [[kb b]|] eqn:El.
  - destruct (key_ltb kb k0) eqn:Eb.
    + apply Happ. intros k x k' y Hk Hk'.
      assert (H0 : key_ltb k k0 = true) by exact (last_below m kb b k0 Hm El Eb k x Hk).
      destruct Hk' as [[= <- _]|Hk']; [done|].
      apply key_sorted_cons_inv in Ea as [_ Hlt]. eapply key_ltb_trans; [exact H0|by eapply Hlt].
    + destruct (merge_runs_spec m r Hm Ea) as (H1 & H2). split; [done|].
      intros q. by rewrite H2, run_best_sorted.
  - apply last_None in El as ->. by apply Happ.
Qed.

(** ** The memtable walk *)

Lemma lower_bound_spec {A} lo_ (m : list (Key * A)) :
  key_sorted m ->
  key_sorted (lower_bound lo_ m) /\
  (forall k a, In (k, a) (lower_bound lo_ m) -> key_ltb k lo_ = false /\ In (k, a) m) /\
  forall q, assoc q (lower_bound lo_ m) = if key_ltb q lo_ then None else assoc q m.
Proof.
  induction m as [|[k a] m IH]; cbn [lower_bound]; intros Hs.
  { split_and!; [constructor|done|]. intros q. by destruct (key_ltb q lo_). }
  pose proof (key_sorted_cons_inv _ _ _ Hs) as [Hs' Hlt].
  destruct (key_ltb k lo_) eqn:E.
  - destruct (IH Hs') as (H1 & H2 & H3). split_and!; [done| |].
    + intros q b Hq. apply H2 in Hq as [? ?]. split; [done|by right].
    + intros q. rewrite H3. cbn [assoc]. destruct (key_ltb q lo_) eqn:Eq; [done|].
      destruct (key_eqb_spec k q) as [->|]; [congruence|done].
  - assert (Hge : forall q b, In (q, b) ((k, a) :: m) -> key_ltb q lo_ = false).
    { intros q b [[= <- _]|Hq]; [done|]. specialize (Hlt _ _ Hq).
      destruct (key_ltb q lo_) eqn:Eq; [|done].
      rewrite (key_ltb_trans _ _ _ Hlt Eq) in E. done. }
    split_and!; [done| |].
    + intros q b Hq. split; [by eapply Hge|done].
    + intros q. destruct (key_ltb q lo_) eqn:Eq; [|done]. apply assoc_none. intros b Hb.
      apply Hge in Hb. congruence.
Qed.

(** The version of a key the memtable offers. *)
Definition mem_hit (at_ : Z) (q : Key) (m : list (Key * list Memtable.Version)) : option entry :=
  match assoc q m with
  | Some vs => option_map (Memtable.entry_of q) (Memtable.hit_from vs at_)
  | None => None
  end.

Lemma offer_mem_spec rg at_ m : forall merged,
  key_sorted m -> key_sorted merged ->
  key_sorted (offer_mem rg at_ merged m) /\
  forall q, assoc q (offer_mem rg at_ merged m) =
            merge_hit (assoc q merged) (if in_hi rg q then mem_hit at_ q m else None).
Proof.
  induction m as [|[k vs] m IH]; intros merged Hs Hm; cbn [offer_mem].
  { split; [done|]. intros q. unfold mem_hit. cbn. by destruct (in_hi rg q). }
  pose proof (key_sorted_cons_inv _ _ _ Hs) as [Hs' Hlt].
  destruct (negb (hi_unbounded rg) && negb (key_ltb k (hi rg))) eqn:Eh.
  - apply andb_true_iff in Eh as [Eu Ek]. apply negb_true_iff in Eu, Ek.
    split; [done|]. intros q. destruct (in_hi rg q) eqn:Eq; [|done].
    unfold in_hi in Eq. rewrite Eu in Eq. cbn in Eq. unfold mem_hit.
    rewrite (proj2 (assoc_none q ((k, vs) :: m))); [done|]. intros a [[= -> _]|Ha]; [congruence|].
    specialize (Hlt _ _ Ha). rewrite (key_ltb_trans _ _ _ Hlt Eq) in Ek. done.
  - assert (Hin : in_hi rg k = true).
    { unfold in_hi. destruct (hi_unbounded rg), (key_ltb k (hi rg)); done. }
    set (merged' := match Memtable.hit_from vs at_ with Some h => _ | None => _ end).
    assert (Hm' : key_sorted merged').
    { unfold merged'. destruct (Memtable.hit_from vs at_); [by apply offer_sorted|done]. }
    destruct (IH merged' Hs' Hm') as [H1 H2]. split; [done|]. intros q. rewrite H2.
    unfold mem_hit. cbn [assoc]. destruct (key_eqb_spec k q) as [->|Hne].
    + rewrite Hin, (assoc_below m q) by (intros; by eapply Hlt).
      unfold merged'. destruct (Memtable.hit_from vs at_) as [h|]; [|done].
      cbn [option_map]. rewrite offer_assoc, key_eqb_refl by done. done.
    + f_equal. unfold merged'. destruct (Memtable.hit_from vs at_) as [h|]; [|done].
      rewrite offer_assoc by done. by rewrite (proj2 (key_eqb_neq k q)).
Qed.

(** ** The whole merge *)

Definition tables (e : engine) : list SSTableReader.t := sstables_ (lsm e).

Definition all_entries (e : engine) : list entry :=
  Memtable.entries (mem_ e) ++ concat (map SSTableReader.collect_entries (tables e)).

Record reads_wf (e : engine) : Prop := {
  rwf_mem : Memtable.wf (mem_ e);
  rwf_tables : forall t, In t (tables e) -> reader_wf t
}.

Lemma mem_hit_newest e q at_ :
  Memtable.wf (mem_ e) ->
  mem_hit at_ q (Memtable.map_ (mem_ e)) = newest q at_ (Memtable.entries (mem_ e)).
Proof.
  intros H. rewrite <- Memtable.lookup_hit_newest by done.
  unfold mem_hit, Memtable.lookup_hit. by destruct (assoc q _).
Qed.

Lemma in_range_split rg q : in_range rg q = negb (key_ltb q (lo rg)) && in_hi rg q.
Proof. done. Qed.

Lemma filter_filter {A} (f g : A -> bool) l :
  List.filter f (List.filter g l) = List.filter (fun x => g x && f x) l.
Proof.
  induction l as [|x l IH]; [done|]. cbn. destruct (g x); cbn; [|done].
  destruct (f x); by rewrite IH.
Qed.

(** One table's run offers its newest visible version of each key in range. *)
Lemma sst_run_best rg at_ t q :
  reader_wf t ->
  run_best q (sst_run rg at_ t) =
  if in_range rg q then newest q at_ (SSTableReader.collect_entries t) else None.
Proof.
  intros Hwf. unfold run_best, sst_run. rewrite scan_into_filter by done.
  generalize (SSTableReader.collect_entries t) as es. intros es. set (rg' := mkRange _ _ _).
  assert (Hacc : forall e, accept rg' at_ e = (e_seq e <=? at_) && in_range rg (e_key e)).
  { intros e. unfold accept, in_range. cbn. by destruct (hi_unbounded rg). }
  assert (Hf : map snd (List.filter (fun p : Key * entry => key_eqb p.1 q)
                 (map (fun e => (e_key e, e)) (List.filter (accept rg' at_) es))) =
               List.filter (fun e => accept rg' at_ e && key_eqb (e_key e) q) es).
  { rewrite <- filter_filter. generalize (List.filter (accept rg' at_) es). clear.
    induction l as [|e l IH]; [done|]. cbn. destruct (key_eqb (e_key e) q); cbn; by rewrite IH. }
  rewrite Hf. unfold newest. destruct (in_range rg q) eqn:Er.
  - f_equal. apply filter_ext. intros e. rewrite Hacc. unfold matches.
    destruct (key_eqb_spec (e_key e) q) as [->|]; [|by rewrite andb_false_r].
    rewrite Er. by destruct (_ <=? _).
  - replace (List.filter _ es) with (@nil entry); [done|]. symmetry.
    clear Hf. induction es as [|e es' IH]; [done|]. cbn. rewrite Hacc.
    destruct (key_eqb_spec (e_key e) q) as [->|]; [|rewrite andb_false_r; exact IH].
    rewrite Er, andb_false_r. exact IH.
Qed.

Lemma fold_tables_spec rg at_ ts : forall merged,
  key_sorted merged -> (forall t, In t ts -> reader_wf t) ->
  key_sorted (fold_left (fun m t => fold_run m (sst_run rg at_ t)) ts merged) /\
  forall q, assoc q (fold_left (fun m t => fold_run m (sst_run rg at_ t)) ts merged) =
            merge_hit (assoc q merged)
              (if in_range rg q
               then newest q at_ (concat (map SSTableReader.collect_entries ts)) else None).
Proof.
  induction ts as [|t ts IH]; intros merged Hm Hts; cbn [fold_left map concat].
  { split; [done|]. intros q. by destruct (in_range rg q). }
  destruct (fold_run_spec merged (sst_run rg at_ t) Hm) as [H1 H2].
  destruct (IH _ H1) as [H3 H4]; [intros; apply Hts; by right|].
  split; [done|]. intros q. rewrite H4, H2, sst_run_best by (apply Hts; by left).
  destruct (in_range rg q); [|done]. by rewrite newest_app, merge_hit_assoc.
Qed.

Lemma build_scan_merged_spec rg at_ e :
  reads_wf e ->
  key_sorted (build_scan_merged rg at_ e) /\
  forall q, assoc q (build_scan_merged rg at_ e) =
            if in_range rg q then newest q at_ (all_entries e) else None.
Proof.
  intros [Hmem Htab]. unfold build_scan_merged.
  destruct (lower_bound_spec (lo rg) (Memtable.map_ (mem_ e))) as (L1 & L2 & L3); [apply Hmem|].
  destruct (offer_mem_spec rg at_ _ [] L1 ltac:(constructor)) as [M1 M2].
  destruct (fold_tables_spec rg at_ (sstables_ (lsm e)) _ M1 Htab) as [T1 T2].
  split; [done|]. intros q. rewrite T2, M2, merge_hit_none_l.
  unfold all_entries, tables. rewrite newest_app, in_range_split, <- mem_hit_newest by done.
  unfold mem_hit. rewrite L3. destruct (key_ltb q (lo rg)); cbn [negb andb].
  - by destruct (in_hi rg q).
  - by destruct (in_hi rg q).
Qed.

(** ** Point reads *)

Lemma get_best_newest k at_ e : reads_wf e -> get_best k at_ e = newest k at_ (all_entries e).
Proof.
  intros [Hmem Htab]. unfold get_best, all_entries. fold (tables e).
  rewrite merge_hit_none_l, newest_app, Memtable.lookup_hit_newest by done.
  generalize (newest k at_ (Memtable.entries (mem_ e))).
  revert Htab. generalize (tables e) as ts. induction ts as [|t ts IH]; intros Ht acc; [done|].
  cbn [fold_left map concat]. rewrite newest_app, lookup_newest by (apply Ht; by left).
  rewrite IH by (intros; apply Ht; by right). apply merge_hit_assoc.
Qed.

(** ** The pairs a merged view shows *)

(** [materialise] without value-log pointers. *)
Definition live_pairs (merged : merged_t) : list (Key * Value) :=
  omap (fun p => if e_tomb p.2 then None else Some (p.1, e_value p.2)) merged.

Lemma live_pairs_in m k v :
  In (k, v) (live_pairs m) <-> exists x, In (k, x) m /\ e_tomb x = false /\ e_value x = v.
Proof.
  unfold live_pairs. induction m as [|[q y] m IH]; cbn.
  { split; [done|]. by intros (x & [] & _). }
  destruct (e_tomb y) eqn:E; cbn; rewrite IH.
  { split.
    - intros (x & ? & ? & ?). exists x. auto.
    - intros (x & [[= -> ->]|Hx] & Ht & <-); [congruence|by exists x]. }
  split.
  - intros [[= -> <-]|(x & ? & ? & ?)]; [exists y; auto|exists x; auto].
  - intros (x & [[= -> ->]|Hx] & Ht & <-); [by left|right; by exists x].
Qed.

Lemma live_pairs_sorted m : key_sorted m -> key_sorted (live_pairs m).
Proof.
  induction m as [|[k x] m IH]; cbn; intros Hs; [constructor|].
  apply key_sorted_cons_inv in Hs as [Hs Hlt].
  destruct (e_tomb x); cbn; [by apply IH|]. apply key_sorted_cons; [by apply IH|].
  intros q v Hq. apply live_pairs_in in Hq as (y & Hy & _). by eapply Hlt.
Qed.

Lemma materialise_inline m s :
  (forall k x, In (k, x) m -> e_vlog x = false) -> materialise m s = (live_pairs m, s).
Proof.
  induction m as [|[k x] m IH]; intros H; [done|]. cbn [materialise live_pairs omap list_omap fst snd].
  specialize (IH ltac:(intros; eapply H; by right)).
  rewrite (H k x) by (by left). destruct (e_tomb x); [exact IH|].
  unfold mbind, M_bind. rewrite IH. done.
Qed.

(** A merged view that holds the newest visible versions shows the
    specification's scan. *)
Lemma live_pairs_visible m (f : Key -> option entry) k v :
  key_sorted m -> (forall q, assoc q m = f q) ->
  In (k, v) (live_pairs m) <-> visible (f k) = Some v.
Proof.
  intros Hs Hf. rewrite live_pairs_in, <- Hf. split.
  - intros (x & Hx & Ht & <-). apply assoc_sorted in Hx; [|done]. rewrite Hx. cbn. by rewrite Ht.
  - intros H. destruct (assoc k m) as [x|] eqn:E; [|done]. cbn in H.
    destruct (e_tomb x) eqn:Et; [done|]. injection H as <-. exists x.
    split; [by apply assoc_sorted|done].
Qed.
