(* ===== verification/WalVisit.v ===== *)
(** WalVisit: the streaming scan agrees with the materialising one.

    Each cursor of [scan_visit] walks a view: the list of versions its source
    offers, one per key, in key order.  Advancing a cursor takes the view's
    tail, and the k-way loop is a merge of the views. *)

From Stdlib Require Import ZArith Lia Sorting.Sorted.
From stdpp Require Import base list numbers gmap.
From S2P Require Import Prelude Codec Core Disk Mvcc ValueLog WalRecord Memtable Bloom SSTable.
From S2P Require Import SSTableRead Compaction Manifest WalEngine WalScan.
Import WalEngine.

(** ** Views *)

Definition keyed (es : list entry) : list (Key * entry) := map (fun e => (e_key e, e)) es.

(** What a view offers for a key. *)
Definition vassoc (q : Key) (es : list entry) : option entry := assoc q (keyed es).

Definition view_sorted (es : list entry) : Prop := key_sorted (keyed es).

Lemma view_sorted_cons e es :
  view_sorted (e :: es) <->
  view_sorted es /\ forall x, In x es -> key_ltb (e_key e) (e_key x) = true.
Proof.
  unfold view_sorted. cbn. split.
  - intros H. apply key_sorted_cons_inv in H as [H1 H2]. split; [done|]. intros x Hx.
    eapply H2. by apply (in_map (fun e => (e_key e, e))).
  - intros [H1 H2]. apply key_sorted_cons; [done|]. intros k a Hin.
    apply in_map_iff in Hin as (x & [= <- <-] & Hx). by apply H2.
Qed.

Lemma vassoc_cons q e es : vassoc q (e :: es) = if key_eqb (e_key e) q then Some e else vassoc q es.
Proof. done. Qed.

Lemma vassoc_below q es : (forall x, In x es -> key_ltb q (e_key x) = true) -> vassoc q es = None.
Proof.
  intros H. apply assoc_below. intros k y Hin. apply in_map_iff in Hin as (x & [= <- <-] & Hx).
  by apply H.
Qed.

Lemma vassoc_some q es e : vassoc q es = Some e -> In e es /\ e_key e = q.
Proof.
  induction es as [|x es IH]; [done|]. rewrite vassoc_cons.
  destruct (key_eqb_spec (e_key x) q) as [Hk|]; [intros [= ->]; split; [by left|done]|].
  intros H. apply IH in H as [? ?]. split; [by right|done].
Qed.

Section views.
Context (rg : Range) (at_ : Z).

(** The versions the memtable cursor visits. *)
Fixpoint mem_view (m : list (Key * list Memtable.Version)) : list entry :=
  match m with
  | [] => []
  | (k, vs) :: m' =>
      if negb (in_hi rg k) then []
      else match Memtable.hit_from vs at_ with
           | None => mem_view m'
           | Some best => Memtable.entry_of k best :: mem_view m'
           end
  end.

Lemma advance_mem_view m :
  mem_view m = match advance_mem rg at_ m with
               | (Some e, rest) => e :: mem_view rest
               | (None, _) => []
               end.
Proof.
  induction m as [|[k vs] m IH]; cbn; [done|].
  destruct (in_hi rg k); cbn; [|done]. by destruct (Memtable.hit_from vs at_).
Qed.

Lemma mem_view_in m x : In x (mem_view m) -> exists vs, In (e_key x, vs) m.
Proof.
  induction m as [|[k vs] m IH]; cbn; [done|].
  destruct (in_hi rg k); cbn; [|done].
  destruct (Memtable.hit_from vs at_) as [b|]; cbn.
  - intros [<-|H]; [exists vs; by left|]. apply IH in H as [vs' ?]. exists vs'. by right.
  - intros H. apply IH in H as [vs' ?]. exists vs'. by right.
Qed.

Lemma mem_view_spec m :
  key_sorted m ->
  view_sorted (mem_view m) /\
  forall q, vassoc q (mem_view m) = if in_hi rg q then mem_hit at_ q m else None.
Proof.
  induction m as [|[k vs] m IH]; cbn [mem_view]; intros Hs.
  { split; [constructor|]. intros q. by destruct (in_hi rg q). }
  pose proof (key_sorted_cons_inv _ _ _ Hs) as [Hs' Hlt]. destruct (IH Hs') as [H1 H2].
  destruct (in_hi rg k) eqn:Ek; cbn [negb].
  - assert (Hskip : forall q, q <> k -> mem_hit at_ q ((k, vs) :: m) = mem_hit at_ q m).
    { intros q Hq. unfold mem_hit. cbn [assoc]. by rewrite (proj2 (key_eqb_neq k q)). }
    assert (Hno : mem_hit at_ k m = None).
    { unfold mem_hit. rewrite (assoc_below m k); [done|]. intros; by eapply Hlt. }
    assert (Hk : mem_hit at_ k ((k, vs) :: m) =
                 option_map (Memtable.entry_of k) (Memtable.hit_from vs at_)).
    { unfold mem_hit. cbn [assoc]. by rewrite key_eqb_refl. }
    destruct (Memtable.hit_from vs at_) as [b|] eqn:Eh.
    + split.
      * apply view_sorted_cons. split; [done|]. intros x Hx.
        apply mem_view_in in Hx as [vs' Hx]. by eapply Hlt.
      * intros q. rewrite vassoc_cons. cbn [Memtable.entry_of e_key].
        destruct (key_eqb_spec k q) as [<-|Hne]; [by rewrite Ek, Hk|].
        rewrite H2. rewrite Hskip by congruence. done.
    + split; [done|]. intros q. rewrite H2.
      destruct (key_eqb_spec k q) as [<-|Hne]; [by rewrite Ek, Hk, Hno|].
      by rewrite Hskip by congruence.
  - split; [constructor|]. intros q. destruct (in_hi rg q) eqn:Eq; [|done].
    unfold in_hi in *. destruct (hi_unbounded rg); [done|]. cbn in *.
    unfold mem_hit. rewrite (proj2 (assoc_none q ((k, vs) :: m))); [done|].
    intros a [[= -> _]|Ha]; [congruence|]. specialize (Hlt _ _ Ha).
    rewrite (key_ltb_trans _ _ _ Hlt Eq) in Ek. done.
Qed.

(** The versions a table cursor visits. *)
Fixpoint sst_view_fuel (fuel : nat) (es : list entry) : list entry :=
  match fuel with
  | O => []
  | S fuel' =>
      match es with
      | [] => []
      | e :: es' =>
          if key_ltb (e_key e) (lo rg) then sst_view_fuel fuel' es'
          else if negb (in_hi rg (e_key e)) then []
          else
            let '(best, rest) := gather_run (e_key e) at_ None es in
            match best with
            | None => sst_view_fuel fuel' rest
            | Some b => b :: sst_view_fuel fuel' rest
            end
      end
  end.

Lemma gather_run_length k best es : (length (gather_run k at_ best es).2 <= length es)%nat.
Proof.
  revert best; induction es as [|e es IH]; intros best; cbn; [done|].
  destruct (key_eqb (e_key e) k); cbn; [|done]. etransitivity; [apply IH|lia].
Qed.

Lemma gather_run_front e es best rest :
  gather_run (e_key e) at_ None (e :: es) = (best, rest) -> (length rest <= length es)%nat.
Proof.
  cbn. rewrite key_eqb_refl. intros E.
  pose proof (gather_run_length (e_key e) (if e_seq e <=? at_ then Some e else None) es) as H.
  by rewrite E in H.
Qed.

Lemma sst_view_enough f f' es :
  (length es <= f)%nat -> (length es <= f')%nat -> sst_view_fuel f es = sst_view_fuel f' es.
Proof.
  revert f' es; induction f as [|f IH]; intros f' es Hf Hf'.
  { destruct es; [|cbn in Hf; lia]. by destruct f'. }
  destruct f' as [|f']; [destruct es; [done|cbn in Hf'; lia]|].
  destruct es as [|e es]; [done|]. cbn [sst_view_fuel]. cbn [length] in Hf, Hf'.
  destruct (key_ltb (e_key e) (lo rg)); [apply IH; lia|].
  destruct (negb (in_hi rg (e_key e))); [done|].
  destruct (gather_run (e_key e) at_ None (e :: es)) as [best rest] eqn:E.
  apply gather_run_front in E. destruct best; [f_equal|]; apply IH; lia.
Qed.

Definition sst_view (es : list entry) : list entry := sst_view_fuel (length es) es.

Lemma advance_sst_view fuel es :
  (length es < fuel)%nat ->
  sst_view es = match advance_sst fuel rg at_ es with
                | (Some e, rest) => e :: sst_view rest
                | (None, _) => []
                end.
Proof.
  revert es; induction fuel as [|fuel IH]; intros es Hf; [lia|].
  destruct es as [|e es]; [done|]. cbn [length] in Hf.
  unfold sst_view at 1. cbn [length sst_view_fuel advance_sst].
  destruct (key_ltb (e_key e) (lo rg)); [apply IH; lia|].
  destruct (negb (in_hi rg (e_key e))); [done|].
  destruct (gather_run (e_key e) at_ None (e :: es)) as [best rest] eqn:E.
  apply gather_run_front in E.
  rewrite (sst_view_enough (length es) (length rest) rest) by lia.
  destruct best; [done|]. apply IH. lia.
Qed.
End views.

(** ** Table views are exact *)

Lemma gather_run_span k at_ es best :
  gather_run k at_ best es =
  let '(vs, rest) := span_key k es in
  (fold_left (fun b e => if e_seq e <=? at_ then Some e else b) vs best, rest).
Proof.
  revert best; induction es as [|e es IH]; intros best; cbn; [done|].
  destruct (key_eqb (e_key e) k); [|done]. rewrite IH.
  by destruct (span_key k es) as [vs rest].
Qed.

(** The last version not above the snapshot is the newest. *)
Lemma last_visible_newest k at_ vs acc :
  sorted_run vs -> (forall x, In x vs -> e_key x = k) ->
  (forall b x, acc = Some b -> In x vs -> e_seq b <= e_seq x) ->
  fold_left (fun b e => if e_seq e <=? at_ then Some e else b) vs acc =
  fold_left better (List.filter (matches k at_) vs) acc.
Proof.
  revert acc; induction vs as [|v vs IH]; intros acc Hs Hk Hacc; [done|].
  apply StronglySorted_inv in Hs as [Hs Hf]. rewrite List.Forall_forall in Hf.
  cbn [fold_left List.filter]. unfold matches at 1.
  rewrite (Hk v (or_introl eq_refl)), key_eqb_refl. cbn [andb].
  assert (Hlt : forall x, In x vs -> e_seq v < e_seq x).
  { intros x Hx. destruct (Hf x Hx) as [H|[_ H]]; [|done].
    rewrite (Hk v), (Hk x), key_ltb_irrefl in H; [done|by right|by left]. }
  destruct (e_seq v <=? at_) eqn:E; cbn [fold_left].
  - rewrite IH; [|done|intros; apply Hk; by right|].
    + f_equal. destruct acc as [b|]; [|done]. cbn.
      specialize (Hacc b v eq_refl (or_introl eq_refl)).
      destruct (e_seq b <=? e_seq v) eqn:Eb; [done|lia].
    + intros b x [= <-] Hx. specialize (Hlt x Hx). lia.
  - apply IH; [done|intros; apply Hk; by right|]. intros b x Hb Hx. apply Hacc; [done|by right].
Qed.

Section sst_view.
Context (rg : Range) (at_ : Z).

Lemma sst_view_in fuel es x :
  In x (sst_view_fuel rg at_ fuel es) -> In x es.
Proof.
  revert es; induction fuel as [|fuel IH]; intros es; cbn [sst_view_fuel]; [done|].
  destruct es as [|e es]; [done|].
  destruct (key_ltb (e_key e) (lo rg)); [intros H; right; by apply IH|].
  destruct (negb (in_hi rg (e_key e))); [done|].
  rewrite gather_run_span. destruct (span_key (e_key e) (e :: es)) as [vs rest] eqn:Es.
  apply span_key_spec in Es as (Heq & _). rewrite Heq.
  assert (Hbest : forall b acc,
    fold_left (fun b e => if e_seq e <=? at_ then Some e else b) vs acc = Some b ->
    In b vs \/ acc = Some b).
  { clear. induction vs as [|v vs IH]; cbn; intros b acc; [by right|]. intros H.
    apply IH in H as [H|H]; [left; by right|]. destruct (e_seq v <=? at_); [|by right].
    injection H as ->. left. by left. }
  destruct (fold_left _ vs None) as [b|] eqn:Eb.
  - intros [<-|H]; [|apply in_app_iff; right; by apply IH].
    apply Hbest in Eb as [H|H]; [apply in_app_iff; by left|done].
  - intros H. apply in_app_iff. right. by apply IH.
Qed.

(** Past the upper bound of the range a sorted run holds no key of it. *)
Lemma newest_past_hi e es q :
  sorted_run (e :: es) -> in_hi rg (e_key e) = false -> in_range rg q = true ->
  newest q at_ (e :: es) = None.
Proof.
  intros Hs Eh Er. pose proof (StronglySorted_inv Hs) as [_ Hfa]. rewrite List.Forall_forall in Hfa.
  apply newest_other. intros x Hx <-. rewrite in_range_split in Er.
  apply andb_true_iff in Er as [_ Er]. unfold in_hi in *.
  destruct (hi_unbounded rg); [done|]. cbn in *.
  assert (Hle : key_leb (e_key e) (e_key x) = true).
  { destruct Hx as [->|Hx]; [apply key_leb_refl|]. by apply ver_lt_key, Hfa. }
  by rewrite (key_le_lt_trans _ _ _ Hle Er) in Eh.
Qed.

(** Reading a run whose front holds one key and whose rest is above it. *)
Lemma newest_front k vs rest :
  (forall x, In x vs -> e_key x = k) -> (forall x, In x rest -> key_ltb k (e_key x) = true) ->
  (forall x, In x rest -> e_key x <> k) /\
  (forall q, q <> k -> newest q at_ (vs ++ rest) = newest q at_ rest) /\
  newest k at_ (vs ++ rest) = newest k at_ vs.
Proof.
  intros Hvs Hrest.
  assert (Hne : forall x, In x rest -> e_key x <> k).
  { intros x Hx Ex. specialize (Hrest x Hx). by rewrite Ex, key_ltb_irrefl in Hrest. }
  split_and!; [done| |].
  - intros q Hq. rewrite newest_app, (newest_other q at_ vs), merge_hit_none_l; [done|].
    intros x Hx. rewrite (Hvs x Hx). congruence.
  - by rewrite newest_app, (newest_other k at_ rest) by done.
Qed.

Lemma sst_view_fuel_spec fuel es :
  (length es <= fuel)%nat -> sorted_run es ->
  view_sorted (sst_view_fuel rg at_ fuel es) /\
  forall q, vassoc q (sst_view_fuel rg at_ fuel es) =
            if in_range rg q then newest q at_ es else None.
Proof.
  revert es; induction fuel as [|fuel IH]; intros es Hf Hs.
  { destruct es; [|cbn in Hf; lia]. split; [constructor|]. intros q. by destruct (in_range rg q). }
  destruct es as [|e es].
  { split; [constructor|]. intros q. by destruct (in_range rg q). }
  cbn [sst_view_fuel]. cbn [length] in Hf.
  pose proof (StronglySorted_inv Hs) as [Hs' Hfa]. rewrite List.Forall_forall in Hfa.
  destruct (key_ltb (e_key e) (lo rg)) eqn:El.
  - destruct (IH es ltac:(lia) Hs') as [H1 H2]. split; [done|]. intros q. rewrite H2.
    destruct (in_range rg q) eqn:Er; [|done]. change (e :: es) with ([e] ++ es).
    rewrite newest_app, (newest_other q at_ [e]), merge_hit_none_l; [done|].
    intros x [<-|[]] <-. unfold in_range in Er. by rewrite El in Er.
  - destruct (in_hi rg (e_key e)) eqn:Eh; cbn [negb].
    2:{ split; [constructor|]. intros q. destruct (in_range rg q) eqn:Er; [|done].
        symmetry. by apply newest_past_hi. }
    rewrite gather_run_span. destruct (span_key (e_key e) (e :: es)) as [vs rest] eqn:Es.
    destruct (span_front _ _ _ _ Hs Es) as (Heq & Hvs & Hrest & Hlen).
    rewrite Heq in Hs |- *.
    rewrite (last_visible_newest (e_key e)); [|by eapply sorted_run_app_l|done|done].
    destruct (IH rest ltac:(lia)) as [H1 H2]; [by eapply sorted_run_app_r|].
    assert (Hin : in_range rg (e_key e) = true) by (by rewrite in_range_split, El).
    destruct (newest_front (e_key e) vs rest Hvs Hrest) as (Hne & Hq1 & Hq2).
    fold (newest (e_key e) at_ vs).
    destruct (newest (e_key e) at_ vs) as [b|] eqn:Eb.
    + apply newest_some in Eb as (Hb & _ & _).
      assert (Hbk : e_key b = e_key e) by (by apply Hvs).
      split.
      * apply view_sorted_cons. split; [done|]. intros x Hx. rewrite Hbk.
        apply Hrest. by eapply sst_view_in.
      * intros q. rewrite vassoc_cons, Hbk. destruct (key_eqb_spec (e_key e) q) as [<-|Hk].
        -- by rewrite Hin, Hq2.
        -- rewrite H2. by rewrite Hq1 by congruence.
    + split; [done|]. intros q. rewrite H2.
      destruct (key_eqb_spec (e_key e) q) as [<-|Hk].
      * rewrite Hin, Hq2. by apply newest_other.
      * by rewrite Hq1 by congruence.
Qed.

Lemma sst_view_spec es :
  sorted_run es ->
  view_sorted (sst_view rg at_ es) /\
  forall q, vassoc q (sst_view rg at_ es) = if in_range rg q then newest q at_ es else None.
Proof. by apply sst_view_fuel_spec. Qed.
End sst_view.

(** ** The k-way merge *)

Section merge.
Context (rg : Range) (at_ : Z).

Definition mview (c : cursors) : list entry :=
  option_list (mcur c).1 ++ mem_view rg at_ (mcur c).2.
Definition sview (sc : option entry * list entry) : list entry :=
  option_list sc.1 ++ sst_view rg at_ sc.2.

(** The views of all sources, in offer order; a cursor that is not live has
    nothing left. *)
Definition views (c : cursors) : list (list entry) := mview c :: map sview (scs c).

Definition settled (c : cursors) : Prop :=
  ((mcur c).1 = None -> mem_view rg at_ (mcur c).2 = []) /\
  (forall sc, In sc (scs c) -> sc.1 = None -> sst_view rg at_ sc.2 = []).

(** What all the views together hold for a key. *)
Definition total (q : Key) (vs : list (list entry)) : option entry :=
  fold_left (fun acc v => merge_hit acc (vassoc q v)) vs None.

Lemma fold_total q vs acc :
  fold_left (fun acc v => merge_hit acc (vassoc q v)) vs acc = merge_hit acc (total q vs).
Proof.
  unfold total. revert acc; induction vs as [|v vs IH]; intros acc; [done|].
  cbn [fold_left]. rewrite IH, (IH (merge_hit None _)), merge_hit_none_l. apply merge_hit_assoc.
Qed.

Lemma total_cons q v vs : total q (v :: vs) = merge_hit (vassoc q v) (total q vs).
Proof. unfold total at 1. cbn [fold_left]. by rewrite fold_total, merge_hit_none_l. Qed.

Lemma total_some q vs e : total q vs = Some e -> exists v, In v vs /\ In e v /\ e_key e = q.
Proof.
  revert e; induction vs as [|v vs IH]; intros e; [done|]. rewrite total_cons. intros H.
  assert (vassoc q v = Some e \/ total q vs = Some e) as [H1|H1].
  { destruct (vassoc q v), (total q vs); cbn in H; [case_match|..]; naive_solver. }
  - apply vassoc_some in H1 as [? ?]. exists v. split; [by left|done].
  - apply IH in H1 as (v' & ? & ? & ?). exists v'. split; [by right|done].
Qed.

Lemma total_none q vs : (forall v, In v vs -> vassoc q v = None) -> total q vs = None.
Proof.
  intros H. destruct (total q vs) as [e|] eqn:E; [|done]. exfalso.
  apply total_some in E as (v & Hv & He & Hk). specialize (H v Hv).
  unfold vassoc in H. rewrite assoc_none in H. apply (H e). rewrite <- Hk.
  by apply (in_map (fun e => (e_key e, e))).
Qed.

(** *** The minimum key and the winner *)

Definition heads (c : cursors) : list (option entry) := (mcur c).1 :: map fst (scs c).

Definition min_key (c : cursors) : option Key :=
  fold_left (fun acc sc => min_key_of acc sc.1) (scs c) (min_key_of None (mcur c).1).

Lemma min_key_heads c : min_key c = fold_left min_key_of (heads c) None.
Proof.
  unfold min_key, heads. cbn [fold_left].
  generalize (min_key_of None (mcur c).1) as acc. induction (scs c) as [|sc l IH]; intros acc; [done|].
  cbn. apply IH.
Qed.

(** [k] is the least of the candidates [acc] and [h]. *)
Lemma min_key_of_spec acc h :
  match min_key_of acc h with
  | None => acc = None /\ h = None
  | Some k => (acc = Some k \/ exists e, h = Some e /\ e_key e = k) /\
              (forall k', acc = Some k' -> key_leb k k' = true) /\
              (forall e, h = Some e -> key_leb k (e_key e) = true)
  end.
Proof.
  unfold min_key_of. destruct h as [e|], acc as [q|]; cbn; [|naive_solver auto with lockstep..].
  destruct (key_ltb (e_key e) q) eqn:E; split_and!.
  - right. by exists e.
  - intros k' [= <-]. apply key_leb_le. by left.
  - intros x [= <-]. apply key_leb_refl.
  - by left.
  - intros k' [= <-]. apply key_leb_refl.
  - intros x [= <-]. unfold key_leb. by rewrite E.
Qed.

Lemma fold_min_key l acc :
  match fold_left min_key_of l acc with
  | None => acc = None /\ forall h, In h l -> h = None
  | Some k => (acc = Some k \/ exists e, In (Some e) l /\ e_key e = k) /\
              (forall k', acc = Some k' -> key_leb k k' = true) /\
              (forall e, In (Some e) l -> key_leb k (e_key e) = true)
  end.
Proof.
  revert acc; induction l as [|h l IH]; intros acc; cbn [fold_left].
  { destruct acc as [k|]; [|done]. split_and!; [by left|intros k' [= ->]; apply key_leb_refl|done]. }
  specialize (IH (min_key_of acc h)). pose proof (min_key_of_spec acc h) as Hm.
  destruct (fold_left min_key_of l (min_key_of acc h)) as [k|].
  - destruct IH as (H1 & H2 & H3). destruct (min_key_of acc h) as [m|].
    + specialize (H2 m eq_refl). destruct Hm as (M1 & M2 & M3). split_and!.
      * destruct H1 as [[= ->]|(x & Hx & Hk)]; [|right; exists x; split; [by right|done]].
        destruct M1 as [M1|(x & Hx & Hk)]; [by left|right; exists x; split; [by left|done]].
      * intros k' Hk'. eapply key_leb_trans; [exact H2|by apply M2].
      * intros x [Hx|Hx]; [|by apply H3]. eapply key_leb_trans; [exact H2|by apply M3].
    + destruct Hm as [-> ->]. destruct H1 as [|(x & Hx & Hk)]; [done|]. split_and!; [|done|].
      * right. exists x. split; [by right|done].
      * intros y [?|Hy]; [done|by apply H3].
  - destruct IH as [H1 H2]. rewrite H1 in Hm. destruct Hm as [-> ->]. split; [done|].
    intros h [<-|Hh]; [done|by apply H2].
Qed.

(** *** One source of one round *)

Lemma source_step k cur rest :
  view_sorted (option_list cur ++ rest) -> (cur = None -> rest = []) ->
  (forall e, cur = Some e -> key_leb k (e_key e) = true) ->
  let v := option_list cur ++ rest in
  let v' := if holds k cur then rest else v in
  vassoc k v = (if holds k cur then cur else None) /\
  view_sorted v' /\ vassoc k v' = None /\
  (forall q, q <> k -> vassoc q v' = vassoc q v) /\
  (forall x, In x v' -> In x v) /\
  (length v' + (if holds k cur then 1 else 0) = length v)%nat.
Proof.
  intros Hs Hn Hle. destruct cur as [e|]; cbn [holds] in *; cbn zeta.
  2:{ rewrite Hn by done. split_and!; [done|constructor|done..]. }
  change (option_list (Some e) ++ rest) with (e :: rest) in *.
  specialize (Hle e eq_refl). apply view_sorted_cons in Hs as [Hs Hlt].
  destruct (key_eqb_spec (e_key e) k) as [<-|Hne].
  - split_and!.
    + by rewrite vassoc_cons, key_eqb_refl.
    + done.
    + by apply vassoc_below.
    + intros q Hq. rewrite vassoc_cons. by rewrite (proj2 (key_eqb_neq (e_key e) q)) by congruence.
    + by right.
    + cbn. lia.
  - assert (Hk : vassoc k (e :: rest) = None).
    { apply vassoc_below. apply key_leb_le in Hle as [Hle|Hle]; [|congruence].
      intros x [<-|Hx]; [done|]. eapply key_ltb_trans; [exact Hle|by apply Hlt]. }
    split_and!; try done; try lia. apply view_sorted_cons. by split.
Qed.

Lemma advance_mem_settled m :
  let c := advance_mem rg at_ m in
  option_list c.1 ++ mem_view rg at_ c.2 = mem_view rg at_ m /\
  (c.1 = None -> mem_view rg at_ c.2 = []).
Proof.
  cbn zeta. pose proof (advance_mem_view rg at_ m) as Hv.
  assert (Hn : forall r, advance_mem rg at_ m = (None, r) -> mem_view rg at_ r = []).
  { clear Hv. induction m as [|[k vs] m IH]; cbn; intros r.
    - intros [= <-]. done.
    - destruct (in_hi rg k) eqn:E; cbn; [|intros [= <-]; cbn; by rewrite E].
      destruct (Memtable.hit_from vs at_); [done|]. apply IH. }
  destruct (advance_mem rg at_ m) as [[e|] r]; cbn in *; [done|].
  rewrite Hv, (Hn r) by done. done.
Qed.

Lemma advance_sst_settled es :
  let c := advance_sst (S (length es)) rg at_ es in
  option_list c.1 ++ sst_view rg at_ c.2 = sst_view rg at_ es /\
  (c.1 = None -> sst_view rg at_ c.2 = []).
Proof.
  cbn zeta. pose proof (advance_sst_view rg at_ (S (length es)) es ltac:(lia)) as Hv.
  assert (Hn : forall fuel l r, (length l < fuel)%nat ->
    advance_sst fuel rg at_ l = (None, r) -> sst_view rg at_ r = []).
  { clear. induction fuel as [|fuel IH]; intros l r Hf; [lia|].
    destruct l as [|e l]; cbn [advance_sst length] in *; [intros [= <-]; done|].
    destruct (key_ltb (e_key e) (lo rg)) eqn:El; [apply IH; lia|].
    destruct (negb (in_hi rg (e_key e))) eqn:Eh.
    - intros [= <-]. unfold sst_view. cbn [length sst_view_fuel]. by rewrite El, Eh.
    - destruct (gather_run (e_key e) at_ None (e :: l)) as [[b|] rest] eqn:Eg; [done|].
      apply gather_run_front in Eg. apply IH. lia. }
  destruct (advance_sst _ rg at_ es) as [[e|] r] eqn:E; cbn [fst snd]; [by rewrite Hv|].
  rewrite Hv, (Hn _ _ _ (Nat.lt_succ_diag_r _) E). done.
Qed.

(** *** The whole round *)

Record loop_inv (c : cursors) : Prop := {
  li_settled : settled c;
  li_sorted : forall v, In v (views c) -> view_sorted v;
  li_inline : forall v x, In v (views c) -> In x v -> e_vlog x = false
}.

Definition advance_all (k : Key) (c : cursors) : cursors :=
  mkCursors (if holds k (mcur c).1 then advance_mem rg at_ (mcur c).2 else mcur c)
            (map (fun sc => if holds k sc.1
                            then advance_sst (S (length sc.2)) rg at_ sc.2 else sc) (scs c)).

(** The views after a round: the holders of the key lose their head. *)
Lemma advance_all_views k c :
  settled c ->
  settled (advance_all k c) /\
  mview (advance_all k c) =
    (if holds k (mcur c).1 then mem_view rg at_ (mcur c).2 else mview c) /\
  map sview (scs (advance_all k c)) =
    map (fun sc => if holds k sc.1 then sst_view rg at_ sc.2 else sview sc) (scs c).
Proof.
  intros [S1 S2]. split_and!.
  - split; cbn [advance_all mcur scs].
    + destruct (holds k (mcur c).1); [apply advance_mem_settled|done].
    + intros sc Hsc. apply in_map_iff in Hsc as (sc0 & <- & Hin).
      destruct (holds k sc0.1); [apply advance_sst_settled|by apply S2].
  - unfold mview at 1, advance_all. cbn [mcur].
    destruct (holds k (mcur c).1); [apply advance_mem_settled|done].
  - cbn [advance_all scs]. rewrite map_map. apply map_ext. intros sc.
    destruct (holds k sc.1); [apply advance_sst_settled|done].
Qed.

(** The facts a round gives about each source, in the notation of
    [source_step]. *)
Definition round_facts (k : Key) (cur : option entry) (v v' : list entry) : Prop :=
  vassoc k v = (if holds k cur then cur else None) /\
  view_sorted v' /\ vassoc k v' = None /\
  (forall q, q <> k -> vassoc q v' = vassoc q v) /\
  (forall x, In x v' -> In x v) /\
  (length v' + (if holds k cur then 1 else 0) = length v)%nat.

Lemma round_sources k c :
  loop_inv c -> (forall e, In (Some e) (heads c) -> key_leb k (e_key e) = true) ->
  round_facts k (mcur c).1 (mview c) (mview (advance_all k c)) /\
  Forall2 (fun sc v' => round_facts k sc.1 (sview sc) v') (scs c)
          (map sview (scs (advance_all k c))).
Proof.
  intros [[S1 S2] Hs _] Hle.
  destruct (advance_all_views k c (conj S1 S2)) as (_ & -> & ->). split.
  - apply source_step; [|done|].
    + apply (Hs (mview c)). by left.
    + intros e He. apply Hle. left. done.
  - assert (Hs' : forall sc, In sc (scs c) -> view_sorted (sview sc)).
    { intros sc Hin. apply Hs. right. by apply in_map. }
    assert (Hle' : forall sc e, In sc (scs c) -> sc.1 = Some e -> key_leb k (e_key e) = true).
    { intros sc e Hin He. apply Hle. right. rewrite <- He. by apply in_map. }
    clear Hs Hle S1. induction (scs c) as [|sc l IH]; [constructor|]. cbn [map]. constructor.
    + apply source_step.
      * apply Hs'. by left.
      * intros. apply S2; [by left|done].
      * intros e He. apply (Hle' sc); [by left|done].
    + apply IH.
      * intros x Hx. apply S2. by right.
      * intros x Hx. apply Hs'. by right.
      * intros x e Hx. apply Hle'. by right.
Qed.

Lemma winner_total k c :
  loop_inv c -> (forall e, In (Some e) (heads c) -> key_leb k (e_key e) = true) ->
  winner k c = total k (views c).
Proof.
  intros Hi Hle. destruct (round_sources k c Hi Hle) as [(Hm & _) Hf].
  unfold winner, views. rewrite total_cons, Hm, <- fold_total.
  generalize (if holds k (mcur c).1 then (mcur c).1 else None) as acc.
  revert Hf. generalize (map sview (scs (advance_all k c))) as vs'.
  induction (scs c) as [|sc l IH]; intros vs' Hf acc; [done|].
  inversion Hf as [|? v' ? vs'' (Hv & _) Hf']; subst. cbn [fold_left map]. rewrite Hv.
  rewrite (IH vs'' Hf'). f_equal. by destruct (holds k sc.1).
Qed.

Definition size (c : cursors) : nat := list_sum (map length (views c)).

Lemma forall2_sizes k l vs :
  Forall2 (fun sc v' => round_facts k sc.1 (sview sc) v') l vs ->
  (list_sum (map length vs) + list_sum (map (fun sc => if holds k sc.1 then 1 else 0) l)
   = list_sum (map length (map sview l)))%nat.
Proof.
  induction 1 as [|sc v' l vs (_ & _ & _ & _ & _ & H) _ IH]; [done|].
  cbn [map list_sum foldr]. unfold list_sum in *. cbn. lia.
Qed.

Lemma round_size k c :
  loop_inv c -> (forall e, In (Some e) (heads c) -> key_leb k (e_key e) = true) ->
  (exists e, In (Some e) (heads c) /\ e_key e = k) ->
  (size (advance_all k c) < size c)%nat.
Proof.
  intros Hi Hle (e & He & Hk). destruct (round_sources k c Hi Hle) as [(_ & _ & _ & _ & _ & Hm) Hf].
  apply forall2_sizes in Hf. unfold size, views. cbn [map list_sum foldr].
  assert (Hpos : (0 < (if holds k (mcur c).1 then 1 else 0) +
                   list_sum (map (fun sc => if holds k sc.1 then 1 else 0) (scs c)))%nat).
  { destruct He as [He|He].
    - rewrite He. cbn [holds]. rewrite Hk, key_eqb_refl. lia.
    - apply in_map_iff in He as (sc & Hsc & Hin).
      assert (1 <= list_sum (map (fun sc => if holds k sc.1 then 1 else 0) (scs c)))%nat; [|lia].
      clear - Hsc Hin Hk. induction (scs c) as [|x l IH]; [done|].
      cbn [map list_sum foldr]. destruct Hin as [->|Hin]; [|specialize (IH Hin); unfold list_sum in *; lia].
      rewrite Hsc. cbn [holds]. rewrite Hk, key_eqb_refl. lia. }
  unfold list_sum in *. lia.
Qed.

Lemma forall2_views_in k l vs v' :
  Forall2 (fun sc v' => round_facts k sc.1 (sview sc) v') l vs -> In v' vs ->
  exists sc, In sc l /\ round_facts k sc.1 (sview sc) v'.
Proof.
  induction 1 as [|sc w l vs Hr _ IH]; [done|]. intros [->|Hin].
  - exists sc. split; [by left|done].
  - destruct (IH Hin) as (sc' & ? & ?). exists sc'. split; [by right|done].
Qed.

Lemma round_inv k c :
  loop_inv c -> (forall e, In (Some e) (heads c) -> key_leb k (e_key e) = true) ->
  loop_inv (advance_all k c).
Proof.
  intros Hi Hle. destruct (round_sources k c Hi Hle) as [Hm Hf]. destruct Hi as [Hset _ Hin].
  destruct (advance_all_views k c Hset) as (Hset' & _ & _).
  assert (Hv : forall v', In v' (views (advance_all k c)) ->
               view_sorted v' /\ exists v, In v (views c) /\ forall x, In x v' -> In x v).
  { intros v' [<-|Hv'].
    - destruct Hm as (_ & ? & _ & _ & ? & _). split; [done|]. exists (mview c). split; [by left|done].
    - destruct (forall2_views_in k _ _ v' Hf Hv') as (sc & Hsc & (_ & ? & _ & _ & ? & _)).
      split; [done|]. exists (sview sc). split; [right; by apply in_map|done]. }
  split; [done| |].
  - intros v' Hv'. by apply Hv.
  - intros v' x Hv' Hx. destruct (Hv v' Hv') as (_ & v & Hv1 & Hv2). eapply Hin; [exact Hv1|auto].
Qed.

(** A round removes the key from the views and nothing else. *)
Lemma round_total k c q :
  loop_inv c -> (forall e, In (Some e) (heads c) -> key_leb k (e_key e) = true) ->
  total q (views (advance_all k c)) = if key_eqb k q then None else total q (views c).
Proof.
  intros Hi Hle. destruct (round_sources k c Hi Hle) as [Hm Hf].
  destruct (key_eqb_spec k q) as [<-|Hne].
  - apply total_none. intros v' [<-|Hv']; [apply Hm|].
    destruct (forall2_views_in k _ _ v' Hf Hv') as (sc & _ & (_ & _ & H & _)). done.
  - unfold views. rewrite !total_cons. destruct Hm as (_ & _ & _ & -> & _); [|congruence].
    f_equal. clear -Hf Hne. induction Hf as [|sc v' l vs (_ & _ & _ & H & _) _ IH]; [done|].
    cbn [map]. rewrite !total_cons, IH, H by congruence. done.
Qed.

Lemma views_heads c v :
  settled c -> In v (views c) -> v = [] \/ exists e, In (Some e) (heads c) /\ In e v.
Proof.
  intros [S1 S2] [<-|Hv].
  - unfold mview. destruct (mcur c).1 as [e|] eqn:E.
    + right. exists e. split; [left; done|]. by left.
    + left. rewrite S1 by done. done.
  - apply in_map_iff in Hv as (sc & <- & Hin). unfold sview. destruct sc.1 as [e|] eqn:E.
    + right. exists e. split; [right; rewrite <- E; by apply in_map|]. by left.
    + left. rewrite S2 by done. done.
Qed.

Lemma winner_holder k c e :
  In (Some e) (heads c) -> e_key e = k -> winner k c <> None.
Proof.
  unfold winner, heads. intros He Hk.
  assert (Hh : holds k (Some e) = true) by (cbn; rewrite Hk; apply key_eqb_refl).
  assert (Hgen : forall l acc, (acc <> None \/ In (Some e) (map fst l)) ->
    fold_left (fun win (sc : option entry * list entry) =>
      if holds k sc.1 then merge_hit win sc.1 else win) l acc <> None).
  { induction l as [|sc l IH]; intros acc H; cbn [fold_left]; [by destruct H|].
    apply IH. destruct H as [H|[H|H]]; [left|left|by right].
    - destruct (holds k sc.1); [|done]. destruct sc.1 as [x|], acc as [a|]; cbn; try done.
      by destruct (_ <=? _).
    - rewrite H, Hh. destruct acc; cbn; [by destruct (_ <=? _)|done]. }
  apply Hgen. destruct He as [He|He]; [left|by right]. rewrite He, Hh. done.
Qed.

(** No view holds a key below the minimum. *)
Lemma view_key_above k c w x q :
  loop_inv c -> (forall e, In (Some e) (heads c) -> key_leb k (e_key e) = true) ->
  In w (views c) -> In x w -> e_key x = q -> k <> q -> key_ltb k q = true.
Proof.
  intros Hi Hle Hw Hx Hq Hne. assert (Hkx : key_leb k (e_key x) = true).
  { destruct (views_heads c w (li_settled c Hi) Hw) as [->|(e & He & Hew)]; [done|].
    destruct Hi as [[S1 S2] Hs _]. specialize (Hs w Hw).
    assert (Hd : forall cur rest, (cur = None -> rest = []) ->
      (forall e, cur = Some e -> key_leb k (e_key e) = true) ->
      view_sorted (option_list cur ++ rest) -> In x (option_list cur ++ rest) ->
      key_leb k (e_key x) = true).
    { intros [e0|] rest Hr Hc Hs0 Hx0; [|by rewrite Hr in Hx0].
      change (option_list (Some e0) ++ rest) with (e0 :: rest) in *.
      apply view_sorted_cons in Hs0 as [_ Hlt]. specialize (Hc e0 eq_refl).
      destruct Hx0 as [->|Hx0]; [done|]. eapply key_leb_trans; [exact Hc|].
      apply key_leb_le. left. by apply Hlt. }
    destruct Hw as [<-|Hw].
    - eapply Hd; [exact S1| |exact Hs|exact Hx]. intros e0 He0. apply Hle. left. done.
    - apply in_map_iff in Hw as (sc & <- & Hin).
      eapply Hd; [by apply S2| |exact Hs|exact Hx].
      intros e0 He0. apply Hle. right. rewrite <- He0. by apply in_map. }
  rewrite Hq in Hkx. apply key_leb_le in Hkx as [?|?]; done.
Qed.

Lemma visit_loop_spec fuel c :
  loop_inv c -> (size c < fuel)%nat ->
  exists out, visit_loop fuel rg at_ c = Some out /\ key_sorted out /\
    forall q v, In (q, v) out <-> visible (total q (views c)) = Some v.
Proof.
  revert c; induction fuel as [|fuel IH]; intros c Hi Hf; [lia|]. cbn [visit_loop].
  fold (min_key c). rewrite min_key_heads.
  pose proof (fold_min_key (heads c) None) as Hm.
  destruct (fold_left min_key_of (heads c) None) as [k|].
  2:{ destruct Hm as [_ Hm]. exists []. split; [done|]. split; [constructor|]. intros q v.
      rewrite total_none; [done|]. intros w Hw.
      destruct (views_heads c w (li_settled c Hi) Hw) as [->|(e & He & _)]; [done|].
      by specialize (Hm _ He). }
  destruct Hm as ([?|Hex] & _ & Hle); [done|].
  rewrite winner_total by done.
  destruct (total k (views c)) as [win|] eqn:Et.
  2:{ exfalso. destruct Hex as (e & He & Hk).
      pose proof (winner_total k c Hi Hle) as Hw. rewrite Et in Hw.
      eapply winner_holder; [exact He|exact Hk|exact Hw]. }
  destruct (total_some _ _ _ Et) as (v0 & Hv0 & Hin0 & Hkw).
  rewrite (li_inline c Hi v0 win Hv0 Hin0). cbn [andb].
  change (mkCursors _ _) with (advance_all k c).
  pose proof (round_size k c Hi Hle Hex) as Hsz.
  destruct (IH (advance_all k c)) as (out & -> & Hso & Hout); [by apply round_inv|lia|].
  eexists. split; [reflexivity|].
  assert (Hmem : forall q v, In (q, v) out <-> k <> q /\ visible (total q (views c)) = Some v).
  { intros q v. rewrite Hout, round_total by done.
    destruct (key_eqb_spec k q); naive_solver. }
  destruct (e_tomb win) eqn:Ew.
  - split; [done|]. intros q v. rewrite Hmem. split; [tauto|]. intros H. split; [|done].
    intros <-. rewrite Et in H. cbn in H. by rewrite Ew in H.
  - rewrite Hkw. split.
    + apply key_sorted_cons; [done|]. intros q v Hq. apply Hmem in Hq as [Hne Hq].
      destruct (total q (views c)) as [x|] eqn:Ex; [|done].
      destruct (total_some _ _ _ Ex) as (w & Hw & Hxw & Hxq).
      eapply (view_key_above k c); eauto.
    + intros q v. cbn [In]. rewrite Hmem. split.
      * intros [[= <- <-]|[_ H]]; [|done]. rewrite Et. cbn. by rewrite Ew.
      * intros H. destruct (decide (k = q)) as [<-|Hne]; [|by right].
        left. rewrite Et in H. cbn in H. rewrite Ew in H. congruence.
Qed.
End merge.

(** ** [scan_visit] *)

Lemma start_view rg at_ t q :
  reader_wf t ->
  let es := concat (drop (SSTableReader.scan_start_block t (lo rg)) (SSTableReader.blocks_ t)) in
  view_sorted (sst_view rg at_ es) /\
  vassoc q (sst_view rg at_ es) =
    (if in_range rg q then newest q at_ (SSTableReader.collect_entries t) else None) /\
  (forall x, In x (sst_view rg at_ es) -> In x (SSTableReader.collect_entries t)).
Proof.
  intros Hwf es.
  set (b := SSTableReader.scan_start_block t (lo rg)) in *.
  assert (Hsplit : SSTableReader.collect_entries t =
                   concat (take b (SSTableReader.blocks_ t)) ++ es)
    by (apply entries_split).
  assert (Hs : sorted_run es).
  { pose proof (rw_sorted t Hwf) as H. rewrite Hsplit in H. by apply sorted_run_app_r in H. }
  destruct (sst_view_spec rg at_ es Hs) as [H1 H2]. split; [done|]. split.
  - rewrite H2. destruct (in_range rg q) eqn:Er; [|done].
    rewrite Hsplit, newest_app, (newest_other q at_ (concat (take b _))), merge_hit_none_l; [done|].
    intros x Hx <-. apply (scan_start_block_before t Hwf (lo rg)) in Hx.
    unfold in_range in Er. by rewrite Hx in Er.
  - intros x Hx. rewrite Hsplit. apply in_app_iff. right. by eapply sst_view_in.
Qed.

Lemma mem_view_start rg at_ e :
  Memtable.wf (mem_ e) ->
  let m := lower_bound (lo rg) (Memtable.map_ (mem_ e)) in
  view_sorted (mem_view rg at_ m) /\
  forall q, vassoc q (mem_view rg at_ m) =
            if in_range rg q then newest q at_ (Memtable.entries (mem_ e)) else None.
Proof.
  intros Hwf m. destruct (lower_bound_spec (lo rg) (Memtable.map_ (mem_ e))) as (L1 & _ & L3);
    [apply Hwf|].
  destruct (mem_view_spec rg at_ m L1) as [H1 H2]. split; [done|]. intros q. rewrite H2.
  rewrite in_range_split, <- mem_hit_newest by done. unfold mem_hit, m. rewrite L3.
  by destruct (key_ltb q (lo rg)), (in_hi rg q).
Qed.

Lemma mem_view_length rg at_ m : (length (mem_view rg at_ m) <= length m)%nat.
Proof.
  induction m as [|[k vs] m IH]; cbn; [lia|]. destruct (negb (in_hi rg k)); cbn; [lia|].
  destruct (Memtable.hit_from vs at_); cbn; lia.
Qed.

Lemma sst_view_length rg at_ es : (length (sst_view rg at_ es) <= length es)%nat.
Proof.
  unfold sst_view. generalize (length es) at 1 as fuel. intros fuel.
  revert es; induction fuel as [|fuel IH]; intros es; cbn [sst_view_fuel length]; [lia|].
  destruct es as [|e es]; cbn [length]; [done|].
  destruct (key_ltb (e_key e) (lo rg)); [specialize (IH es); lia|].
  destruct (negb (in_hi rg (e_key e))); [cbn; lia|].
  destruct (gather_run (e_key e) at_ None (e :: es)) as [best rest] eqn:E.
  apply gather_run_front in E. specialize (IH rest).
  destruct best; cbn [length]; lia.
Qed.

(** The cursors [scan_visit] starts with. *)
Definition start_entries (rg : Range) (t : SSTableReader.t) : list entry :=
  concat (drop (SSTableReader.scan_start_block t (lo rg)) (SSTableReader.blocks_ t)).

Definition start_cursors (rg : Range) (at_ : Z) (e : engine) : cursors :=
  mkCursors (advance_mem rg at_ (lower_bound (lo rg) (Memtable.map_ (mem_ e))))
            (map (fun es => advance_sst (S (length es)) rg at_ es)
                 (map (start_entries rg) (tables e))).

Lemma start_views rg at_ e :
  settled rg at_ (start_cursors rg at_ e) /\
  views rg at_ (start_cursors rg at_ e) =
    mem_view rg at_ (lower_bound (lo rg) (Memtable.map_ (mem_ e))) ::
    map (fun t => sst_view rg at_ (start_entries rg t)) (tables e).
Proof.
  split; [split|]; cbn [start_cursors mcur scs].
  - apply advance_mem_settled.
  - intros sc Hsc. apply in_map_iff in Hsc as (es & <- & _). apply advance_sst_settled.
  - unfold views, mview. cbn [start_cursors mcur scs]. f_equal; [apply advance_mem_settled|].
    rewrite !map_map. apply map_ext. intros t. apply advance_sst_settled.
Qed.

Lemma start_size rg at_ e :
  (size rg at_ (start_cursors rg at_ e) <=
   length (lower_bound (lo rg) (Memtable.map_ (mem_ e))) +
   list_sum (map (fun es => length es) (map (start_entries rg) (tables e))))%nat.
Proof.
  unfold size. rewrite (proj2 (start_views rg at_ e)). cbn [map list_sum foldr].
  pose proof (mem_view_length rg at_ (lower_bound (lo rg) (Memtable.map_ (mem_ e)))).
  assert (list_sum (map length (map (fun t => sst_view rg at_ (start_entries rg t)) (tables e))) <=
          list_sum (map (fun es => length es) (map (start_entries rg) (tables e))))%nat.
  { rewrite !map_map. induction (tables e) as [|t ts IH]; [done|]. cbn [map list_sum foldr].
    pose proof (sst_view_length rg at_ (start_entries rg t)). unfold list_sum in *. lia. }
  unfold list_sum in *. lia.
Qed.

Lemma start_total rg at_ e q :
  reads_wf e ->
  total q (views rg at_ (start_cursors rg at_ e)) =
  if in_range rg q then newest q at_ (all_entries e) else None.
Proof.
  intros [Hmem Htab]. rewrite (proj2 (start_views rg at_ e)), total_cons.
  rewrite (proj2 (mem_view_start rg at_ e Hmem)).
  assert (Ht : total q (map (fun t => sst_view rg at_ (start_entries rg t)) (tables e)) =
               if in_range rg q
               then newest q at_ (concat (map SSTableReader.collect_entries (tables e))) else None).
  { induction (tables e) as [|t ts IH]; cbn [map concat]; [by destruct (in_range rg q)|].
    rewrite total_cons, IH by (intros; apply Htab; by right).
    destruct (start_view rg at_ t q) as (_ & Hv & _); [apply Htab; by left|].
    unfold start_entries. rewrite Hv. destruct (in_range rg q); [by rewrite newest_app|done]. }
  rewrite Ht. unfold all_entries. rewrite newest_app. by destruct (in_range rg q).
Qed.

Lemma cursors_inv rg at_ e :
  reads_wf e -> (forall x, In x (all_entries e) -> e_vlog x = false) ->
  loop_inv rg at_ (start_cursors rg at_ e).
Proof.
  intros [Hmem Htab] Hin. destruct (start_views rg at_ e) as [Hset Hv].
  destruct (mem_view_start rg at_ e Hmem) as [Hms Hma].
  split; [done| |]; rewrite Hv.
  - intros v [<-|Hv']; [done|]. apply in_map_iff in Hv' as (t & <- & Ht).
    apply (start_view rg at_ t []). by apply Htab.
  - intros v x [<-|Hv'] Hx.
    + apply Hin. unfold all_entries. apply in_app_iff. left.
      assert (Hk : vassoc (e_key x) (mem_view rg at_ (lower_bound (lo rg) (Memtable.map_ (mem_ e)))) = Some x).
      { apply assoc_sorted; [done|]. by apply (in_map (fun e => (e_key e, e))). }
      rewrite Hma in Hk. destruct (in_range rg (e_key x)); [|done].
      by apply newest_some in Hk as (? & _).
    + apply in_map_iff in Hv' as (t & <- & Ht). apply Hin. unfold all_entries.
      apply in_app_iff. right. apply in_concat. exists (SSTableReader.collect_entries t).
      split; [by apply in_map|]. apply (start_view rg at_ t []); [by apply Htab|exact Hx].
Qed.

Lemma scan_visit_spec rg at_ e :
  reads_wf e -> value_log_active e = false -> (forall x, In x (all_entries e) -> e_vlog x = false) ->
  exists out, scan_visit rg at_ e = Some out /\ key_sorted out /\
    forall q v, In (q, v) out <->
                in_range rg q = true /\ visible (newest q at_ (all_entries e)) = Some v.
Proof.
  intros Hwf Hv Hin. unfold scan_visit. rewrite Hv. fold (tables e).
  set (fuel := S _). change (mkCursors _ _) with (start_cursors rg at_ e).
  destruct (visit_loop_spec rg at_ fuel (start_cursors rg at_ e)) as (out & Ho & Hs & Hi).
  - by apply cursors_inv.
  - pose proof (start_size rg at_ e). unfold fuel.
    change (map (fun sst : SSTableReader.t => _) (tables e)) with (map (start_entries rg) (tables e)).
    lia.
  - exists out. split; [exact Ho|]. split; [done|]. intros q v. rewrite Hi, start_total by done.
    destruct (in_range rg q); naive_solver.
Qed.
