(* ===== verification/WalInvariant.v ===== *)
(** WalInvariant: flushes and compactions are invisible, commits extend the
    history.

    [Inv h] says that the memtable and the live tables together hold exactly
    the versions of the history [h], whatever the devices did: the tape of
    faults is arbitrary.  It is stated for an engine whose values are inline
    (no value log) and whose read watermark is the default zero, so that no
    version is garbage.  Table ids are fresh as long as the 64-bit id counter
    has room; a commit uses at most two of them. *)

From Stdlib Require Import ZArith Lia Sorting.Sorted.
From stdpp Require Import base list numbers gmap.
From S2P Require Import Prelude Codec Core Disk Mvcc ValueLog WalRecord Memtable Bloom SSTable.
From S2P Require Import SSTableRead SSTableImage Compaction Manifest WalEngine WalScan.
Import WalEngine.

(** ** Triples over the engine's fields; the devices are arbitrary *)

Definition triple {A} (P : engine -> Prop) (m : M A) (Q : A -> engine -> Prop) : Prop :=
  forall s, P s.1 -> Q (m s).1 (m s).2.1.

Lemma triple_bind {A B} P (m : M A) R (k : A -> M B) Q :
  triple P m R -> (forall a, triple (R a) (k a) Q) -> triple P (m ≫= k) Q.
Proof.
  intros H1 H2 s Hs. specialize (H1 s Hs). unfold mbind, M_bind.
  destruct (m s) as [a s']. cbn in H1. exact (H2 a s' H1).
Qed.

Lemma triple_ret {A} (P : engine -> Prop) (a : A) (Q : A -> engine -> Prop) :
  (forall e, P e -> Q a e) -> triple P (mret a) Q.
Proof. intros H s Hs. apply H, Hs. Qed.

Lemma triple_gets {A} (P : engine -> Prop) (f : engine -> A) :
  triple P (gets f) (fun a e => P e /\ a = f e).
Proof. intros s Hs. done. Qed.

Lemma triple_modify (P : engine -> Prop) (f : engine -> engine) (Q : unit -> engine -> Prop) :
  (forall e, P e -> Q tt (f e)) -> triple P (modify f) Q.
Proof. intros H s Hs. apply H, Hs. Qed.

Lemma triple_conseq {A} (P P' : engine -> Prop) (m : M A) (Q Q' : A -> engine -> Prop) :
  triple P m Q -> (forall e, P' e -> P e) -> (forall a e, Q a e -> Q' a e) -> triple P' m Q'.
Proof. intros H HP HQ s Hs. apply HQ, H, HP, Hs. Qed.

Lemma bind_gets {A B} (f : engine -> A) (k : A -> M B) s : (gets f ≫= k) s = k (f s.1) s.
Proof. done. Qed.

Lemma bind_ret {A B} (a : A) (k : A -> M B) s : (mret a ≫= k) s = k a s.
Proof. done. Qed.

Lemma bind_run {A B} (m : M A) (k : A -> M B) s a s' : m s = (a, s') -> (m ≫= k) s = k a s'.
Proof. intros H. unfold mbind, M_bind. by rewrite H. Qed.

Lemma bind_modify {B} (f : engine -> engine) (k : unit -> M B) s :
  (modify f ≫= k) s = k tt (f s.1, s.2).
Proof. done. Qed.

(** A computation that touches only the devices. *)
Definition io_only {A} (m : M A) : Prop := forall s, (m s).2.1 = s.1.

Lemma triple_io {A} P (m : M A) : io_only m -> triple P m (fun _ e => P e).
Proof. intros H s Hs. by rewrite H. Qed.

Lemma io_wal_append bs : io_only (wal_append bs).
Proof. intros [e w]. unfold wal_append. by destruct (append _ _ _) as [[[? ?] ?] ?]. Qed.
Lemma io_wal_sync : io_only wal_sync.
Proof. intros [e w]. unfold wal_sync. by destruct (Disk.sync _ _) as [[? ?] ?]. Qed.
Lemma io_man_append bs : io_only (man_append bs).
Proof. intros [e w]. unfold man_append. by destruct (append _ _ _) as [[[? ?] ?] ?]. Qed.
Lemma io_man_sync : io_only man_sync.
Proof. intros [e w]. unfold man_sync. by destruct (Disk.sync _ _) as [[? ?] ?]. Qed.
Lemma io_fac_append id bs : io_only (fac_append id bs).
Proof. intros [e w]. unfold fac_append. by destruct (append _ _ _) as [[[? ?] ?] ?]. Qed.
Lemma io_fac_sync id : io_only (fac_sync id).
Proof. intros [e w]. unfold fac_sync. by destruct (Disk.sync _ _) as [[? ?] ?]. Qed.
Lemma io_fac_reclaim `{IDiskFactory} id : io_only (fac_reclaim id).
Proof. intros [e w]. done. Qed.

#[export] Hint Resolve io_wal_append io_wal_sync io_man_append io_man_sync io_fac_append
  io_fac_sync io_fac_reclaim : lockstep.

(** Step over a device call, a read of a field, or an update. *)
Ltac step_io := eapply triple_bind; [apply triple_io; auto with lockstep|cbn beta; intros ?].
Ltac step_gets x := eapply triple_bind; [apply triple_gets|cbn beta; intros x].
Ltac step_modify P := eapply triple_bind with (R := fun _ => P); [apply triple_modify|cbn beta; intros _].

(** ** The invariant *)

(** The commits the 32-bit sizes of a table's Bloom filter allow. *)
Definition kCap : Z := 2 ^ 27.

Record Inv (L : Z) (h : list op) (b : Z) (c : Cfg) (m : Memtable.t) (l w : Z)
    (ts : list SSTableReader.t) (nx : Z) : Prop := {
  i_last : l = L;
  i_mem : Memtable.wf m;
  i_tables : forall t, In t ts -> reader_wf t;
  i_entries : forall x, In x (Memtable.entries m ++ concat (map SSTableReader.collect_entries ts))
                        <-> In x (hist_entries h);
  i_inline : (0 <? value_threshold_ c)%nat && has_lsm c = false;
  i_watermark : w = 0;
  i_cap : Zlen h <= kCap;
  i_ids : NoDup (map SSTableReader.sstable_id ts);
  i_fresh : forall t, In t ts -> 0 <= SSTableReader.sstable_id t < nx;
  i_room : 0 <= nx /\ nx + b + 2 * (kCap - Zlen h) < 2 ^ 64
}.

Section invariant.
Context `{Hfac : IDiskFactory} (L : Z).

Definition inv (h : list op) (b : Z) (e : engine) : Prop :=
  Inv L h b (cfg e) (mem_ e) (last_seq_ e) (read_watermark_ e) (tables e)
      (next_sstable_id_ (lsm e)).

Lemma inv_weaken h b b' e : b' <= b -> inv h b e -> inv h b' e.
Proof. intros Hb [? ? ? ? ? ? ? ? ? ?]. constructor; try done. lia. Qed.

Lemma inv_entries h b e x : inv h b e -> In x (all_entries e) <-> In x (hist_entries h).
Proof. intros H. apply (i_entries _ _ _ _ _ _ _ _ _ H). Qed.

Lemma inv_reads_wf h b e : inv h b e -> reads_wf e.
Proof. intros H. split; [apply (i_mem _ _ _ _ _ _ _ _ _ H)|apply (i_tables _ _ _ _ _ _ _ _ _ H)]. Qed.

Lemma hist_inline h x : In x (hist_entries h) -> e_vlog x = false.
Proof. intros H. apply hist_from_in in H as (i & o & _ & ->). by destruct o. Qed.

(** ** Runs drawn from a history *)

Lemma sorted_run_nodup es : sorted_run es -> NoDup es.
Proof.
  induction es as [|e es IH]; intros Hs; [constructor|].
  apply StronglySorted_inv in Hs as [Hs Hf]. rewrite List.Forall_forall in Hf.
  constructor; [|by apply IH]. rewrite list_elem_of_In. intros H. by eapply ver_lt_irrefl, Hf.
Qed.

Lemma length_hist_entries h : length (hist_entries h) = length h.
Proof. unfold hist_entries. generalize 1. induction h; intros z; cbn; [done|]. by rewrite IHh. Qed.

Lemma hist_run_reader h es id :
  sorted_run es -> (forall x, In x es -> In x (hist_entries h)) -> Zlen h <= kCap ->
  reader_wf (SSTableReader.adopt_built (SSTableBuilder.build es) id).
Proof.
  intros Hs Hin Hcap. apply adopt_reader_wf; [|done|].
  - apply small_run_capacity. unfold kCap in Hcap.
    assert (length es <= length h)%nat; [|unfold Zlen in *; lia].
    rewrite <- length_hist_entries. apply NoDup_incl_length; [|done].
    apply NoDup_ListNoDup. by apply sorted_run_nodup.
  - intros x Hx. apply Hin, hist_seq_pos in Hx. lia.
Qed.

(** A key-sorted memtable slice is a run. *)
Lemma mem_entries_sorted m :
  key_sorted m -> (forall k vs, In (k, vs) m -> Memtable.ascending vs) ->
  sorted_run (concat (map Memtable.entries_of m)).
Proof.
  induction m as [|[k vs] m IH]; intros Hs Ha; cbn [map concat]; [constructor|].
  pose proof (key_sorted_cons_inv _ _ _ Hs) as [Hs' Hlt].
  apply sorted_run_app.
  - specialize (Ha k vs (or_introl eq_refl)). unfold Memtable.entries_of. cbn [fst snd].
    clear -Ha. induction vs as [|v vs IH]; [constructor|].
    apply StronglySorted_inv in Ha as [Ha Hf]. rewrite List.Forall_forall in Hf.
    cbn [map]. constructor; [by apply IH|]. apply List.Forall_forall. intros x Hx.
    apply in_map_iff in Hx as (v' & <- & Hv'). right. split; [done|]. by apply Hf.
  - apply IH; [done|]. intros. eapply Ha. by right.
  - intros a b Ha' Hb. apply in_map_iff in Ha' as (v & <- & _).
    apply in_concat in Hb as (l & Hl & Hb). apply in_map_iff in Hl as ([k' vs'] & <- & Hin).
    apply in_map_iff in Hb as (v' & <- & _). left. by eapply Hlt.
Qed.

Lemma flush_entries_sorted m : Memtable.wf m -> sorted_run (Memtable.flush_entries m).
Proof.
  intros [Hs Ha _ _]. apply mem_entries_sorted.
  - by apply Memtable.key_sorted_filter.
  - intros k vs Hin. apply filter_In in Hin as [Hin _]. by eapply Ha.
Qed.

(** ** Manifest records and installs *)

(** A predicate that does not read the manifest's bookkeeping. *)
Definition manifest_blind (P : engine -> Prop) : Prop :=
  (forall e n, P e -> P (upd_lsm (set_tip n) e)) /\
  (forall e b, P e -> P (upd_lsm (set_man_started b) e)).

Lemma triple_header P : manifest_blind P -> triple P append_manifest_header (fun _ => P).
Proof.
  intros [_ HP]. unfold append_manifest_header. step_gets started.
  destruct started; [apply triple_ret; naive_solver|].
  step_modify P; [intros e [He _]; by apply HP|]. step_io. by apply triple_ret.
Qed.

Lemma triple_commit_manifest P enc :
  manifest_blind P -> triple P (commit_manifest enc) (fun _ => P).
Proof.
  intros HP. pose proof HP as [Htip _]. unfold commit_manifest. step_gets tip.
  step_modify P; [intros e [He _]; by apply Htip|].
  eapply triple_bind; [by apply triple_header|cbn beta; intros _].
  step_io. destruct (negb (err_ok a)).
  - step_modify P; [intros e He; by apply Htip|]. by apply triple_ret.
  - step_io. destruct (negb (err_ok a0)); [|by apply triple_ret].
    step_modify P; [intros e He; by apply Htip|]. by apply triple_ret.
Qed.

Lemma inv_blind h b : manifest_blind (inv h b).
Proof. split; intros e ? H; exact H. Qed.

(** An install uses up one id and leaves the memtable alone; a returned reader
    is the built one under an id that no live table has. *)
Definition installed (h : list op) (b : Z) (m : Memtable.t) (ts : list SSTableReader.t)
    (built : SSTableBuilder.result) (rd : option SSTableReader.t) (e : engine) : Prop :=
  inv h b e /\ mem_ e = m /\ tables e = ts /\
  match rd with
  | None => True
  | Some r => exists id, r = SSTableReader.adopt_built built id /\
                0 <= id < next_sstable_id_ (lsm e) /\
                (forall t, In t ts -> SSTableReader.sstable_id t < id)
  end.

Lemma triple_install h b m ts built :
  1 <= b ->
  triple (fun e => inv h b e /\ mem_ e = m /\ tables e = ts) (install_built built)
         (installed h (b - 1) m ts built).
Proof.
  intros Hb. unfold install_built. step_gets nid.
  set (P := fun e => installed h (b - 1) m ts built
                       (Some (SSTableReader.adopt_built built nid)) e).
  assert (HP : forall e, P e -> installed h (b - 1) m ts built None e)
    by (intros e (? & ? & ? & _); done).
  step_modify P.
  { intros e [(He & Hm & Ht) ->].
    pose proof He as [? ? ? ? ? ? Hc ? Hf [Hn Hr]]. unfold P, installed, inv in *.
    set (nx := next_sstable_id_ (lsm e)) in *.
    change (next_sstable_id_ (lsm (upd_lsm (set_next_id (u64 (nx + 1))) e))) with (u64 (nx + 1)).
    rewrite u64_id by lia. split_and!; [|done|done|exists nx; split_and!; [done|lia|lia|]].
    - constructor; try done; [|lia]. intros t Hin. specialize (Hf t Hin). lia.
    - intros t Hin. subst ts. by apply Hf. }
  assert (Hbl : manifest_blind P) by (split; intros e ? H; exact H).
  step_io. destruct (negb (err_ok a)); [by apply triple_ret|].
  step_io. destruct (negb (err_ok a0)); [by apply triple_ret|].
  eapply triple_bind; [by apply triple_commit_manifest|].
  intros [|]; cbn beta; by apply triple_ret.
Qed.

(** ** Flush *)

(** Adding a table of versions that leave the memtable. *)
Lemma inv_push_table h b e r m' :
  inv h b e -> reader_wf r -> 0 <= SSTableReader.sstable_id r < next_sstable_id_ (lsm e) ->
  (forall t, In t (tables e) -> SSTableReader.sstable_id t < SSTableReader.sstable_id r) ->
  Memtable.wf m' ->
  (forall x, In x (Memtable.entries (mem_ e)) <->
             In x (SSTableReader.collect_entries r) \/ In x (Memtable.entries m')) ->
  inv h b (upd_mem (fun _ => m') (upd_lsm (fun l => set_sstables (sstables_ l ++ [r]) l) e)).
Proof.
  intros [Hla Hm Ht He Hi Hw Hc Hn Hf Hr] Hwf Hid Hlt Hm' Hpart.
  unfold inv. cbn [upd_mem upd_lsm cfg mem_ read_watermark_ lsm next_sstable_id_ set_sstables].
  change (tables (upd_mem _ _)) with (tables e ++ [r]). constructor; try done.
  - intros t Hin. apply in_app_iff in Hin as [Hin|[<-|[]]]; [by apply Ht|done].
  - intros x. rewrite map_app, concat_app. rewrite <- He, !in_app_iff, Hpart. cbn.
    rewrite app_nil_r. tauto.
  - rewrite map_app. apply NoDup_app. split; [done|]. split; [|apply NoDup_singleton].
    intros id Hin Hin'. apply list_elem_of_In, in_map_iff in Hin as (t & <- & Hin).
    cbn in Hin'. apply list_elem_of_singleton in Hin'. specialize (Hlt t Hin). lia.
  - intros t Hin. apply in_app_iff in Hin as [Hin|[<-|[]]]; [by apply Hf|done].
Qed.

Lemma triple_flush_memtable h b :
  1 <= b -> triple (inv h b) flush_memtable (fun _ => inv h (b - 1)).
Proof.
  intros Hb s Hs. pose proof (i_mem _ _ _ _ _ _ _ _ _ Hs) as Hmem.
  set (m := mem_ s.1). set (ts := tables s.1). fold m in Hmem.
  assert (Htr : triple (fun e => inv h b e /\ mem_ e = m /\ tables e = ts) flush_memtable
                       (fun _ => inv h (b - 1))); [|by apply Htr].
  unfold flush_memtable. step_gets entries.
  destruct (length entries =? 0)%nat.
  { apply triple_ret. intros e [(He & _) _]. eapply inv_weaken; [|exact He]. lia. }
  apply triple_conseq with (P := fun e => (inv h b e /\ mem_ e = m /\ tables e = ts) /\
                                          entries = Memtable.flush_entries m)
    (Q := fun _ => inv h (b - 1)); [|intros e [(? & Hm & ?) ->]; by rewrite Hm|done].
  intros s0 [Hs0 ->]. revert s0 Hs0.
  change (triple (fun e => inv h b e /\ mem_ e = m /\ tables e = ts)
    (install_built (SSTableBuilder.build (Memtable.flush_entries m)) ≫= fun rd =>
       match rd with
       | Some reader => modify (upd_lsm (fun l => set_sstables (sstables_ l ++ [reader]) l));;
                        modify (upd_mem Memtable.erase_flushable)
       | None => mret tt
       end) (fun _ => inv h (b - 1))).
  eapply triple_bind; [by apply triple_install|]. intros [r|]; cbn beta.
  2:{ apply triple_ret. intros e (He & _). done. }
  intros s1 (He & Hm & Ht & id & -> & Hid & Hlt). cbn.
  pose proof He as [_ _ _ Hent _ _ Hc _ _ _]. rewrite Hm in Hent.
  set (r := SSTableReader.adopt_built _ id) in *.
  assert (Hr : SSTableReader.collect_entries r = Memtable.flush_entries m) by apply build_collect.
  change (inv h (b - 1) (upd_mem (fun _ => Memtable.erase_flushable (mem_ s1.1))
            (upd_lsm (fun l => set_sstables (sstables_ l ++ [r]) l) s1.1))).
  rewrite Hm. apply inv_push_table; try done.
  - apply (hist_run_reader h); [by apply flush_entries_sorted| |done].
    intros x Hx. apply Hent, in_app_iff. left.
    by apply Memtable.flush_entries_in in Hx as [? _].
  - by rewrite Ht.
  - by apply Memtable.erase_flushable_wf.
  - intros x. rewrite Hr, Hm, Memtable.flush_entries_in, Memtable.erase_flushable_in.
    destruct (Memtable.is_resident (e_key x) m); intuition congruence.
Qed.

Lemma inv_inactive h b e : inv h b e -> value_log_active e = false.
Proof. intros H. exact (i_inline _ _ _ _ _ _ _ _ _ H). Qed.

Lemma triple_do_flush h b : 1 <= b -> triple (inv h b) do_flush (fun _ => inv h (b - 1)).
Proof.
  intros Hb. assert (Hw : forall e, inv h b e -> inv h (b - 1) e)
    by (intros e; apply inv_weaken; lia).
  unfold do_flush. step_gets skip. destruct skip; [apply triple_ret; naive_solver|].
  step_gets sync_vlog. step_gets g. destruct sync_vlog.
  - intros s [[[Hs _] Hv] _]. rewrite (inv_inactive _ _ _ Hs) in Hv. done.
  - eapply triple_conseq; [by apply triple_flush_memtable|naive_solver|done].
Qed.

(** ** Compaction *)

(** With the default watermark a merge keeps every version of its inputs. *)
Lemma merged_entries h b e inputs :
  inv h b e -> (forall t, In t inputs -> In t (tables e)) ->
  let runs := map SSTableReader.collect_entries inputs in
  sorted_run (compact_merge runs 0) /\
  (forall x, In x (compact_merge runs 0) <-> In x (concat runs)) /\
  (forall x, In x (concat runs) -> In x (hist_entries h)).
Proof.
  intros [_ _ _ He _ _ _ _ _ _] Hin runs.
  assert (Hh : forall x, In x (concat runs) -> In x (hist_entries h)).
  { intros x Hx. apply He, in_app_iff. right. apply in_concat in Hx as (l & Hl & Hx).
    apply in_map_iff in Hl as (t & <- & Ht). apply in_concat.
    exists (SSTableReader.collect_entries t). split; [apply in_map; auto|done]. }
  assert (Hc : consistent (concat runs)) by (eapply consistent_incl; [apply hist_consistent|done]).
  split; [by apply compact_merge_sorted|]. split; [|done].
  apply compact_merge_keep; [done|]. intros x Hx. apply Hh, hist_seq_pos in Hx. lia.
Qed.

Lemma is_input_iff inputs ts t :
  NoDup (map SSTableReader.sstable_id ts) -> In t ts -> (forall x, In x inputs -> In x ts) ->
  is_input (map SSTableReader.sstable_id inputs) t = true <-> In t inputs.
Proof.
  intros Hn Ht Hsub. unfold is_input. rewrite existsb_exists. split.
  - intros (id & Hid & E). apply Z.eqb_eq in E. apply in_map_iff in Hid as (t' & <- & Hin).
    assert (t = t') as ->; [|done].
    apply NoDup_ListNoDup in Hn. specialize (Hsub _ Hin). clear -Hn Ht Hsub E.
    induction ts as [|x ts IH]; [done|]. cbn in Hn. apply NoDup_cons_iff in Hn as [Hx Hn].
    destruct Ht as [->|Ht], Hsub as [->|Hs]; [done| | |by apply IH].
    + exfalso. apply Hx. rewrite E. by apply in_map.
    + exfalso. apply Hx. rewrite <- E. by apply in_map.
  - intros Hin. exists (SSTableReader.sstable_id t). split; [by apply in_map|apply Z.eqb_refl].
Qed.

Section compaction.

Lemma swap_tables_spec ids ts s :
  (swap_tables ids ts s).1 = List.filter (fun t => negb (is_input ids t)) ts /\
  (forall P, (forall e n, P e -> P (upd_lsm (push_obsolete n) e)) ->
             P s.1 -> P (swap_tables ids ts s).2.1).
Proof.
  revert s; induction ts as [|t ts IH]; intros s; cbn [swap_tables List.filter]; [done|].
  destruct (is_input ids t); cbn [negb].
  - unfold mbind, M_bind, modify, fac_reclaim. destruct s as [e w]. cbn.
    set (s' := (_, _) : state). destruct (IH s') as [H1 H2]. split; [done|].
    intros P HP Hp. apply H2; [done|]. by apply HP.
  - unfold mbind, M_bind, mret, M_ret. specialize (IH s).
    destruct (swap_tables ids ts s) as [kept s']. cbn in *. destruct IH as [-> H2]. done.
Qed.

Lemma triple_reclaim_generations P gens :
  (forall e g, P e -> P (upd_vl (push_reclaimed g) e)) ->
  triple P (reclaim_generations gens) (fun _ => P).
Proof.
  intros HP. induction gens as [|g gens IH]; cbn [reclaim_generations]; [by apply triple_ret|].
  step_modify P; [intros; by apply HP|]. step_io. exact IH.
Qed.

(** The state in which the live set is swapped: the output of the merge is
    installed (or there is none) under a fresh id. *)
Definition swap_ready (h : list op) (b : Z) (inputs : list SSTableReader.t)
    (reader : option SSTableReader.t) (e : engine) : Prop :=
  inv h b e /\ (forall t, In t inputs -> In t (tables e)) /\
  (forall x, In x (concat (map SSTableReader.collect_entries (option_list reader))) <->
             In x (concat (map SSTableReader.collect_entries inputs))) /\
  match reader with
  | None => True
  | Some r => reader_wf r /\ 0 <= SSTableReader.sstable_id r < next_sstable_id_ (lsm e) /\
              (forall t, In t (tables e) -> SSTableReader.sstable_id t < SSTableReader.sstable_id r)
  end.

Lemma in_kept inputs ts x :
  NoDup (map SSTableReader.sstable_id ts) -> (forall t, In t inputs -> In t ts) ->
  In x (concat (map SSTableReader.collect_entries ts)) <->
  In x (concat (map SSTableReader.collect_entries
                  (List.filter (fun t => negb (is_input (map SSTableReader.sstable_id inputs) t)) ts)))
  \/ In x (concat (map SSTableReader.collect_entries inputs)).
Proof.
  intros Hn Hsub. rewrite !in_concat. split.
  - intros (l & Hl & Hx). apply in_map_iff in Hl as (t & <- & Ht).
    destruct (is_input (map SSTableReader.sstable_id inputs) t) eqn:E.
    + apply (is_input_iff inputs ts t Hn Ht Hsub) in E. right.
      exists (SSTableReader.collect_entries t). split; [by apply in_map|done].
    + left. exists (SSTableReader.collect_entries t). split; [|done].
      apply in_map, filter_In. by rewrite E.
  - intros [(l & Hl & Hx)|(l & Hl & Hx)]; apply in_map_iff in Hl as (t & <- & Ht);
      exists (SSTableReader.collect_entries t); (split; [apply in_map|done]).
    + by apply filter_In in Ht as [? _].
    + by apply Hsub.
Qed.

Lemma inv_swap h b inputs reader e :
  swap_ready h b inputs reader e ->
  inv h b (upd_lsm (set_sstables
    (List.filter (fun t => negb (is_input (map SSTableReader.sstable_id inputs) t)) (tables e)
     ++ option_list reader)) e).
Proof.
  intros ([Hla Hm Ht He Hi Hw Hc Hn Hf Hr] & Hsub & Hmerge & Hrd). set (kept := List.filter _ _).
  assert (Hkin : forall t, In t kept -> In t (tables e))
    by (intros t Hin; by apply filter_In in Hin as [? _]).
  unfold inv. change (tables (upd_lsm _ e)) with (kept ++ option_list reader).
  cbn [upd_lsm cfg mem_ read_watermark_ lsm next_sstable_id_ set_sstables]. constructor; try done.
  - intros t Hin. apply in_app_iff in Hin as [Hin|Hin]; [auto|].
    destruct reader as [r|]; [|done]. destruct Hin as [<-|[]]. apply Hrd.
  - intros x. rewrite <- He, !in_app_iff. rewrite map_app, concat_app, in_app_iff, Hmerge.
    by rewrite (in_kept inputs (tables e)).
  - rewrite map_app. apply NoDup_app. split_and!.
    + apply NoDup_ListNoDup. apply NoDup_ListNoDup in Hn. unfold kept. clear -Hn.
      induction (tables e) as [|t ts IH]; [constructor|]. cbn in Hn |- *.
      apply NoDup_cons_iff in Hn as [Hx Hn]. destruct (negb _); [|by apply IH].
      constructor; [|by apply IH]. intros Hin. apply Hx. apply in_map_iff in Hin as (t' & <- & Hin).
      apply filter_In in Hin as [Hin _]. by apply in_map.
    + intros id Hin Hin'. apply list_elem_of_In, in_map_iff in Hin as (t & <- & Hin).
      destruct reader as [r|]; [|by apply not_elem_of_nil in Hin'].
      apply list_elem_of_singleton in Hin'. destruct Hrd as (_ & _ & Hlt).
      specialize (Hlt t (Hkin t Hin)). lia.
    + destruct reader as [r|]; [apply NoDup_singleton|constructor].
  - intros t Hin. apply in_app_iff in Hin as [Hin|Hin]; [auto|].
    destruct reader as [r|]; [|done]. destruct Hin as [<-|[]]. apply Hrd.
Qed.

Lemma triple_swap_live_set h b inputs reader gens :
  triple (swap_ready h b inputs reader)
         (swap_live_set (map SSTableReader.sstable_id inputs) reader gens) (fun _ => inv h b).
Proof.
  unfold swap_live_set. set (ids := map SSTableReader.sstable_id inputs).
  intros s Hs. unfold gets, mbind at 1, M_bind at 1. cbn [fst snd].
  destruct (swap_tables_spec ids (sstables_ (lsm s.1)) s) as [H1 H2].
  unfold mbind at 1, M_bind at 1. destruct (swap_tables ids (sstables_ (lsm s.1)) s) as [kept s1].
  cbn [fst snd] in H1, H2. subst kept.
  assert (Hs1 : swap_ready h b inputs reader s1.1 /\ tables s1.1 = tables s.1).
  { apply (H2 (fun e => swap_ready h b inputs reader e /\ tables e = tables s.1));
      [|split; [exact Hs|done]].
    intros e n [He Ht]. split; [exact He|exact Ht]. }
  destruct Hs1 as [Hs1 Ht].
  assert (Htr : triple (fun e => inv h b e) (reclaim_generations gens) (fun _ => inv h b))
    by (apply triple_reclaim_generations; intros e g He; exact He).
  unfold mbind, M_bind, modify. apply Htr. cbn [fst]. fold (tables s.1). rewrite <- Ht.
  by apply inv_swap.
Qed.

Lemma swap_ready_blind h b inputs reader : manifest_blind (swap_ready h b inputs reader).
Proof. split; intros e ? H; exact H. Qed.

Lemma triple_obsolete_and_truncate h b inputs reader covered gens :
  triple (swap_ready h b inputs reader)
         (obsolete_and_truncate (map SSTableReader.sstable_id inputs) reader covered gens)
         (fun _ => inv h b).
Proof.
  unfold obsolete_and_truncate. set (P := swap_ready h b inputs reader).
  assert (Hbl : manifest_blind P) by apply swap_ready_blind.
  assert (HP : forall e, P e -> inv h b e) by (intros e [He _]; done).
  eapply triple_bind with (R := fun _ => P).
  { generalize (map SSTableReader.sstable_id inputs) as ids. induction ids as [|oid ids IH];
      cbn [append_obsolete]; [by apply triple_ret|].
    eapply triple_bind; [by apply triple_commit_manifest|]. intros [|]; cbn beta;
      [exact IH|by apply triple_ret]. }
  intros ok. destruct (negb ok); [by apply triple_ret|]. step_gets trunc. destruct trunc.
  - eapply triple_bind with (R := fun _ => P).
    { eapply triple_conseq; [by apply triple_commit_manifest|naive_solver|done]. }
    intros ok'. destruct (negb ok'); [by apply triple_ret|].
    step_modify P; [intros e He; exact He|]. apply triple_swap_live_set.
  - eapply triple_conseq; [apply triple_swap_live_set|intros e [He _]; exact He|done].
Qed.

Lemma triple_compact_tables h b inputs :
  1 <= b ->
  triple (fun e => inv h b e /\ forall t, In t inputs -> In t (tables e))
         (compact_tables inputs) (fun _ => inv h (b - 1)).
Proof.
  intros Hb s [Hs Hsub]. unfold compact_tables.
  set (m := mem_ s.1). set (ts := tables s.1).
  destruct (merged_entries h b s.1 inputs Hs Hsub) as (Hrun & Hmin & Hhist).
  set (runs := map SSTableReader.collect_entries inputs) in *.
  pose proof (i_cap _ _ _ _ _ _ _ _ _ Hs) as Hcap.
  assert (Hw : gc_watermark_of s.1 = 0).
  { unfold gc_watermark_of. rewrite (i_watermark _ _ _ _ _ _ _ _ _ Hs).
    destruct (0 <? cdc_retain_from_ (cfg s.1)) eqn:E1; [|done].
    destruct (cdc_retain_from_ (cfg s.1) <=? 0) eqn:E2; [lia|done]. }
  pose proof (inv_inactive _ _ _ Hs) as Hact.
  rewrite !bind_gets, Hw, Hact, bind_ret. cbn [fst snd].
  set (merged := compact_merge runs 0) in *.
  destruct (length merged =? 0)%nat eqn:El.
  - apply (triple_obsolete_and_truncate h (b - 1) inputs None).
    split_and!; [eapply inv_weaken; [|exact Hs]; lia|exact Hsub| |done].
    intros x. fold runs. rewrite <- Hmin. apply Nat.eqb_eq in El.
    by destruct merged.
  - assert (Htr : triple (fun e => inv h b e /\ mem_ e = m /\ tables e = ts)
      (install_built (SSTableBuilder.build merged) ≫= fun rd =>
         match rd with
         | Some reader => obsolete_and_truncate (map SSTableReader.sstable_id inputs)
                            (Some reader) (covered_max_of inputs) []
         | None => mret tt
         end) (fun _ => inv h (b - 1))); [|by apply Htr].
    eapply triple_bind; [by apply triple_install|]. intros [r|]; cbn beta.
    2:{ apply triple_ret. intros e (He & _). done. }
    eapply triple_conseq; [apply (triple_obsolete_and_truncate h (b - 1))| |done].
    intros e (He & Hm & Ht & id & -> & Hid & Hlt).
    split; [done|]. split; [by rewrite Ht|]. split.
    + intros x. set (r := SSTableReader.adopt_built _ id).
      change (concat (map SSTableReader.collect_entries (option_list (Some r))))
        with (SSTableReader.collect_entries r ++ []).
      unfold r. rewrite build_collect, app_nil_r. apply Hmin.
    + cbn [SSTableReader.adopt_built SSTableReader.sstable_id]. rewrite Ht.
      split_and!; [|lia|lia|done].
      apply (hist_run_reader h); [done| |done]. intros x Hx. by apply Hhist, Hmin.
Qed.

Lemma triple_do_compact h b : 1 <= b -> triple (inv h b) do_compact (fun _ => inv h (b - 1)).
Proof.
  intros Hb. assert (Hw : forall e, inv h b e -> inv h (b - 1) e)
    by (intros e; apply inv_weaken; lia).
  unfold do_compact. step_gets skip. destruct skip; [apply triple_ret; naive_solver|].
  step_gets chosen. destruct chosen as [bk|]; [|apply triple_ret; naive_solver].
  step_gets inputs. destruct (length inputs <? 2)%nat; [apply triple_ret; naive_solver|].
  eapply triple_conseq; [by apply (triple_compact_tables h b)| |done].
  intros e [[[He _] _] ->]. split; [done|]. intros t Ht. by apply filter_In in Ht as [? _].
Qed.

Lemma triple_maintain h b : 2 <= b -> triple (inv h b) maintain (fun _ => inv h 0).
Proof.
  intros Hb. assert (Hw : forall b' e, 0 <= b' -> inv h b' e -> inv h 0 e)
    by (intros b' e Hb'; apply inv_weaken; lia).
  unfold maintain. step_gets over. destruct (negb over).
  { apply triple_ret. intros e [He _]. eapply Hw; [|exact He]. lia. }
  eapply triple_bind with (R := fun _ => inv h (b - 1)).
  { eapply triple_conseq; [apply (triple_do_flush h b); lia|intros e [He _]; exact He|done]. }
  intros _. step_gets crowded. destruct crowded.
  - eapply triple_conseq; [apply (triple_do_compact h (b - 1)); lia|intros e [He _]; exact He|].
    intros ? e He. eapply Hw; [|exact He]. lia.
  - apply triple_ret. intros e [He _]. eapply Hw; [|exact He]. lia.
Qed.

(** ** Commits *)

(** The operation a commit performs. *)
Definition commit_op (key : Key) (value : Value) (tombstone : bool) : op :=
  if tombstone then Del key else Put key value.

Lemma inv_insert h e key value (tombstone : bool) :
  inv h 0 e -> Zlen h < kCap -> (tombstone = true -> value = []) ->
  inv (h ++ [commit_op key value tombstone]) 2
      (upd_mem (Memtable.insert key (Zlen h + 1) value tombstone false) e).
Proof.
  intros [Hla Hm Ht He Hi Hw Hc Hn Hf Hr] Hcap Hv.
  assert (Hop : op_entry (Zlen h + 1) (commit_op key value tombstone) =
                Entry key value (Zlen h + 1) tombstone false).
  { destruct tombstone; cbn; [by rewrite Hv|done]. }
  assert (Hnew : forall x, In x (Memtable.entries (mem_ e)) -> e_seq x < Zlen h + 1).
  { intros x Hx. assert (In x (hist_entries h)) as H by (apply He, in_app_iff; by left).
    apply hist_seq_pos in H. lia. }
  assert (Hl : Zlen (h ++ [commit_op key value tombstone]) = Zlen h + 1)
    by (rewrite Zlen_app; done).
  unfold inv. change (tables (upd_mem _ e)) with (tables e).
  cbn [upd_mem cfg mem_ read_watermark_ lsm]. constructor; try done; rewrite ?Hl; try lia.
  - apply Memtable.insert_wf; [done|]. intros vs v Hvs Hin.
    specialize (Hnew (Memtable.entry_of key v)). cbn in Hnew. apply Hnew.
    apply Memtable.in_entries. exists key, vs, v. split; [by apply assoc_in|done].
  - intros x. rewrite hist_entries_snoc, Hop, !in_app_iff, <- He, Memtable.insert_entries by done.
    rewrite in_app_iff. cbn. intuition.
Qed.

Lemma commit_inv h key value (tombstone : bool) s :
  L = Zlen h + 1 -> inv h 0 (set_last_seq L s.1) -> last_seq_ s.1 = Zlen h -> Zlen h < kCap ->
  (tombstone = true -> value = []) ->
  let r := commit key value tombstone s in
  r.1 = L /\ inv (h ++ [commit_op key value tombstone]) 0 r.2.1.
Proof.
  intros HL Hs Hlast Hcap Hv r. unfold r, commit. rewrite bind_gets, Hlast, <- HL.
  pose proof (Zlen_nonneg h). rewrite u64_id by (unfold kCap in Hcap; lia).
  rewrite bind_modify. set (h' := h ++ [_]).
  assert (Htr : triple (inv h 0) (commit_task L key value tombstone) (fun _ => inv h' 0)).
  2:{ specialize (Htr (set_last_seq L s.1, s.2) Hs). unfold mbind, M_bind.
      destruct (commit_task _ _ _ _ _) as [[] s']. done. }
  unfold commit_task.
  eapply triple_bind with (R := fun st e => inv h 0 e /\ st = (value, false)).
  { unfold separate_value. step_gets sep. destruct sep; cbn [negb].
    - intros s0 [Hs0 Hsep]. rewrite (inv_inactive _ _ _ Hs0), andb_false_r in Hsep. done.
    - apply triple_ret. naive_solver. }
  intros st. eapply triple_bind with (R := fun _ e => inv h 0 e /\ st = (value, false)).
  { unfold append_wal_header. step_gets started. destruct started; [apply triple_ret; naive_solver|].
    step_modify (fun e => inv h 0 e /\ st = (value, false)); [intros e [He _]; exact He|].
    step_io. by apply triple_ret. }
  intros _. step_io. step_modify (inv h' 2); [|by apply triple_maintain].
  intros e [He ->]. cbn [fst snd]. rewrite HL. by apply inv_insert.
Qed.
End compaction.
End invariant.
