(* ===== verification/WalRefine.v ===== *)
(** WalRefine: the engine implements the [Engine] contract.

    The instance [wal_spec] discharges the interface for an engine with inline
    values and the default watermark, on devices that may fail in any way the
    simulated disk can; the theorems compare it with the reference oracle. *)

From Stdlib Require Import ZArith Lia Sorting.Sorted.
From stdpp Require Import base list numbers gmap.
From S2P Require Import Prelude Codec Core Disk Mvcc Oracle ValueLog WalRecord Memtable Bloom SSTable.
From S2P Require Import SSTableRead SSTableImage Compaction Manifest WalEngine WalScan WalVisit WalInvariant.
Import WalEngine.

Section refinement.
Context `{Hfac : IDiskFactory}.

Instance wal_ops : EngineOps state := {
  eput := put;
  edel := del;
  eget k at_ s := (get k at_ s).1;
  esnapshot s := (snapshot s).1;
  escan r at_ s := (scan r at_ s).1;
  esync := WalEngine.sync
}.

Definition wal_repr (s : state) (h : list op) : Prop := inv (Zlen h) h 0 s.1.

(** Reads of a represented state. *)
Lemma repr_newest s h k at_ :
  wal_repr s h -> newest k at_ (all_entries s.1) = newest k at_ (hist_entries h).
Proof.
  intros Hs. apply newest_ext; [apply hist_consistent|]. intros x. by eapply inv_entries.
Qed.

Lemma newest_inline h k at_ x : newest k at_ (hist_entries h) = Some x -> e_vlog x = false.
Proof. intros H. apply newest_some in H as (H & _). by eapply hist_inline. Qed.

(** A read leaves the devices and the engine alone. *)
Lemma get_repr s h k at_ :
  wal_repr s h -> get k at_ s = (visible (newest k at_ (hist_entries h)), s).
Proof.
  intros Hs. unfold get. rewrite bind_gets, get_best_newest by (by eapply inv_reads_wf).
  rewrite (repr_newest s h) by done.
  destruct (newest k at_ (hist_entries h)) as [b|] eqn:E; [|done].
  rewrite (newest_inline _ _ _ _ E). cbn [visible]. by destruct (e_tomb b).
Qed.

Lemma scan_repr s h rg at_ :
  wal_repr s h ->
  scan rg at_ s = (live_pairs (build_scan_merged rg at_ s.1), s) /\
  key_sorted (live_pairs (build_scan_merged rg at_ s.1)) /\
  forall k v, In (k, v) (live_pairs (build_scan_merged rg at_ s.1)) <->
              in_range rg k = true /\ visible (newest k at_ (hist_entries h)) = Some v.
Proof.
  intros Hs. destruct (build_scan_merged_spec rg at_ s.1) as [H1 H2]; [by eapply inv_reads_wf|].
  split_and!.
  - unfold scan. rewrite bind_gets. apply materialise_inline. intros k x Hin.
    apply assoc_sorted in Hin; [|done]. rewrite H2 in Hin. destruct (in_range rg k); [|done].
    rewrite (repr_newest s h) in Hin by done. by eapply newest_inline.
  - by apply live_pairs_sorted.
  - intros k v. rewrite live_pairs_visible; [|done|exact H2]. cbn beta.
    rewrite (repr_newest s h) by done. destruct (in_range rg k); naive_solver.
Qed.

Lemma commit_repr s h key value (tombstone : bool) :
  wal_repr s h -> Zlen h < kCap -> (tombstone = true -> value = []) ->
  (commit key value tombstone s).1 = Zlen h + 1 /\
  wal_repr (commit key value tombstone s).2 (h ++ [commit_op key value tombstone]).
Proof.
  intros Hs Hc Hv. pose proof (i_last _ _ _ _ _ _ _ _ _ Hs) as Hl.
  destruct (commit_inv (Zlen h + 1) h key value tombstone s eq_refl) as [H1 H2]; try done.
  - destruct Hs. by constructor.
  - split; [done|]. unfold wal_repr. by rewrite Zlen_app.
Qed.

(** A barrier touches the devices only. *)
Lemma sync_repr s h : wal_repr s h -> wal_repr (WalEngine.sync s).2 h.
Proof.
  intros Hs. unfold WalEngine.sync. rewrite bind_gets. rewrite (inv_inactive _ _ _ _ Hs).
  destruct s as [e w]. cbn [negb]. unfold wal_sync.
  destruct (Disk.sync (tape w) (wal w)) as [[? ?] ?]. exact Hs.
Qed.

Program Instance wal_spec : EngineSpec state := {
  repr := wal_repr; capacity := kCap
}.
Next Obligation. done. Qed.
Next Obligation. intros s h k v Hs Hc. by apply (commit_repr s h k v false). Qed.
Next Obligation. intros s h k Hs Hc. by apply (commit_repr s h k [] true). Qed.
Next Obligation. intros s h k at_ Hs Hat. cbn. rewrite (get_repr s h) by done. by apply newest_hist. Qed.
Next Obligation. intros s h Hs. exact (i_last _ _ _ _ _ _ _ _ _ Hs). Qed.
Next Obligation.
  intros s h r at_ Hs Hat. cbn. destruct (scan_repr s h r at_ Hs) as (-> & H1 & H2).
  split; [done|]. intros k v. cbn [fst]. rewrite H2. by rewrite newest_hist.
Qed.
Next Obligation. intros s h Hs. by apply sync_repr. Qed.

(** ** Running a history *)

Definition apply_op (s : state) (o : op) : state :=
  match o with Put k v => (put k v s).2 | Del k => (del k s).2 end.

Definition run_ops (h : list op) (s : state) : state := fold_left apply_op h s.

Lemma run_ops_repr s h h' :
  wal_repr s h -> Zlen (h ++ h') <= kCap -> wal_repr (run_ops h' s) (h ++ h').
Proof.
  revert s h; induction h' as [|o h' IH]; intros s h Hs Hc; [by rewrite app_nil_r|].
  rewrite cons_middle, app_assoc in *. cbn [run_ops fold_left]. apply IH; [|done].
  assert (Hl : Zlen h < kCap).
  { rewrite !Zlen_app in Hc. change (Zlen [o]) with 1 in Hc. pose proof (Zlen_nonneg h'). lia. }
  destruct o as [k v|k]; cbn.
  - by apply (commit_repr s h k v false).
  - by apply (commit_repr s h k [] true).
Qed.

(** A newly constructed engine, under any settings but the value log and the
    read watermark. *)
Record fresh (e : engine) : Prop := {
  f_mem : Memtable.map_ (mem_ e) = [];
  f_mwf : Memtable.wf (mem_ e);
  f_last : last_seq_ e = 0;
  f_tables : tables e = [];
  f_watermark : read_watermark_ e = 0;
  f_inline : value_log_active e = false;
  f_next : next_sstable_id_ (lsm e) = 0;
  f_started : wal_started_ e = false
}.

Lemma fresh_inv e : fresh e -> inv 0 [] 0 e.
Proof.
  intros [Hm Hw Hl Ht Hr Hi Hn _]. unfold inv. rewrite Ht, Hn, Hr, Hl.
  constructor; try done.
  - intros x. unfold Memtable.entries. rewrite Hm. done.
  - constructor.
Qed.

(** Configuration calls keep an engine fresh. *)
Lemma resident_fresh bs e : fresh e -> fresh (set_keep_resident_prefixes bs e).
Proof.
  intros [Hm Hw Hl Ht Hr Hi Hn Hst].
  assert (Hmem : Memtable.map_ (mem_ (set_keep_resident_prefixes bs e)) = [] /\
                 Memtable.wf (mem_ (set_keep_resident_prefixes bs e))).
  { cbn [set_keep_resident_prefixes upd_mem mem_]. revert Hm Hw. generalize (mem_ e).
    induction bs as [|b bs IH]; intros m Hm Hw; [done|]. cbn [fold_left]. apply IH; [done|].
    destruct Hw as [H1 H2 H3 H4]. split; cbn [Memtable.set_resident_byte Memtable.map_
      Memtable.total_versions_ Memtable.flushable_versions_]; [done|done|done|].
    rewrite H4, Hm. done. }
  destruct Hmem. by split.
Qed.

Lemma lsm_fresh threshold trigger retain bs :
  fresh (set_keep_resident_prefixes bs
           (set_cdc_retain_from retain (set_compaction_trigger trigger (lsm_engine threshold)))).
Proof. apply resident_fresh. split; try done. apply Memtable.empty_wf. Qed.

Lemma wal_only_fresh : fresh wal_only.
Proof. split; try done. apply Memtable.empty_wf. Qed.

End refinement.

#[export] Existing Instances wal_ops wal_spec.

(** ** Properties *)

(** C2: refinement.  After any run of puts and deletes, for every flush
    threshold, compaction trigger, retention horizon and resident namespaces,
    and whatever torn appends, io faults and lying syncs the devices draw, the
    engine answers every get, scan and snapshot exactly as the reference oracle
    does: flushes, compactions, the Bloom filters, the sparse indexes and
    failed installs never show. *)
Theorem wal_engine_refines_oracle `{IDiskFactory} threshold trigger retain residents w h k rg at_ :
  Zlen h <= kCap -> 0 <= at_ ->
  let e := set_keep_resident_prefixes residents
             (set_cdc_retain_from retain (set_compaction_trigger trigger (lsm_engine threshold))) in
  let s := run_ops h (e, w) in
  (get k at_ s).1 = Oracle.get k at_ (Oracle.run h) /\
  (scan rg at_ s).1 = Oracle.scan rg at_ (Oracle.run h) /\
  (snapshot s).1 = Oracle.snapshot (Oracle.run h).
Proof.
  intros Hc Hat e s.
  assert (Hs : wal_repr s h).
  { apply (run_ops_repr (e, w) [] h); [|done]. apply fresh_inv, lsm_fresh. }
  assert (Ho : Oracle.rep (Oracle.run h) h)
    by (apply Oracle.run_rep; unfold kCap, kMaxSeq in *; lia).
  exact (@engines_agree state Oracle.t wal_ops wal_spec Oracle.ops Oracle.spec
           s (Oracle.run h) h rg k at_ Hs Ho Hat).
Qed.

(** A commit of a put or a delete on a state that holds a history returns
    the next sequence number and yields a state that holds the history extended
    by it, whatever the devices do during the append and the flush and
    compaction it may run. *)
Theorem commit_extends_history `{IDiskFactory} s h k v :
  wal_repr s h -> Zlen h < kCap ->
  ((put k v s).1 = Zlen h + 1 /\ wal_repr (put k v s).2 (h ++ [Put k v])) /\
  ((del k s).1 = Zlen h + 1 /\ wal_repr (del k s).2 (h ++ [Del k])).
Proof.
  intros Hs Hc. split; [by apply (commit_repr s h k v false)|by apply (commit_repr s h k [] true)].
Qed.

(** C24: maintenance is invisible.  A flush or a compaction, forced on any state
    that holds a history and has a table id left, leaves every get, scan and
    snapshot unchanged, whether its device writes succeed or fail. *)
Theorem maintenance_invisible `{IDiskFactory} s h k rg at_ :
  wal_repr s h -> next_sstable_id_ (lsm s.1) + 2 * (kCap - Zlen h) + 1 < 2 ^ 64 -> 0 <= at_ ->
  forall s', s' = (force_flush s).2 \/ s' = (force_compact s).2 ->
  (get k at_ s').1 = (get k at_ s).1 /\ (scan rg at_ s').1 = (scan rg at_ s).1 /\
  (snapshot s').1 = (snapshot s).1.
Proof.
  intros Hs Hroom Hat s' Hs'.
  assert (H1 : inv (Zlen h) h 1 s.1) by (destruct Hs; constructor; try done; lia).
  assert (Hr : wal_repr s' h).
  { destruct Hs' as [->| ->].
    - pose proof (triple_do_flush (Zlen h) h 1 ltac:(lia) s H1) as H2.
      unfold wal_repr, force_flush, mbind, M_bind. destruct (do_flush s) as [[] s1]. exact H2.
    - pose proof (triple_do_compact (Zlen h) h 1 ltac:(lia) s H1) as H2.
      unfold wal_repr, force_compact, mbind, M_bind. destruct (do_compact s) as [[] s1]. exact H2. }
  exact (@engines_agree state state wal_ops wal_spec wal_ops wal_spec s' s h rg k at_ Hr Hs Hat).
Qed.

(** The streaming scan never falls back on inline values, and it visits
    exactly the pairs the materialising scan returns, in the same order. *)
Theorem scan_visit_agrees `{IDiskFactory} s h rg at_ :
  wal_repr s h -> scan_visit rg at_ s.1 = Some (scan rg at_ s).1.
Proof.
  intros Hs. destruct (scan_repr s h rg at_ Hs) as (-> & H1 & H2). cbn [fst].
  destruct (scan_visit_spec rg at_ s.1) as (out & -> & H3 & H4).
  - by eapply inv_reads_wf.
  - by eapply inv_inactive.
  - intros x Hx. eapply hist_inline. by eapply inv_entries.
  - f_equal. apply key_sorted_ext; [done..|]. intros k v. rewrite H2, H4.
    by rewrite (repr_newest s h).
Qed.

(** ** Witnesses

    An engine that flushes every second version and merges every second table,
    on devices whose draws tear the first append and make a later sync lie. *)
Definition demo_ops : list op :=
  [Put [Byte.x61] [Byte.x01]; Put [Byte.x62] [Byte.x02]; Del [Byte.x61];
   Put [Byte.x63] [Byte.x03]; Put [Byte.x62] [Byte.x04]].

Definition demo_engine : engine :=
  set_keep_resident_prefixes []
    (set_cdc_retain_from 0 (set_compaction_trigger 2 (lsm_engine 2))).

Definition demo_io (draws : rng) : io := mkIo empty_disk empty_disk ∅ draws.

Definition demo_state : state :=
  @run_ops default_factory demo_ops (demo_engine, demo_io [0; 1; 0; 0; 0; 0; 1; 2]).

Lemma demo_repr : wal_repr demo_state demo_ops.
Proof. apply (run_ops_repr _ [] demo_ops); [apply fresh_inv, lsm_fresh|by vm_compute]. Qed.

Lemma wal_engine_refines_oracle_witness :
  length (sstables_ (lsm demo_state.1)) = 1%nat /\
  let rg := mkRange [] [] true in
  (@get [Byte.x62] 5 demo_state).1 = Oracle.get [Byte.x62] 5 (Oracle.run demo_ops) /\
  (scan rg 5 demo_state).1 = Oracle.scan rg 5 (Oracle.run demo_ops) /\
  (snapshot demo_state).1 = Oracle.snapshot (Oracle.run demo_ops).
Proof.
  split; [by vm_compute|].
  apply (@wal_engine_refines_oracle default_factory 2 2 0 []
           (demo_io [0; 1; 0; 0; 0; 0; 1; 2]) demo_ops [Byte.x62] (mkRange [] [] true) 5);
    by vm_compute.
Defined.

Lemma commit_extends_history_witness :
  ((@put default_factory [Byte.x61] [] demo_state).1 = 6 /\
   wal_repr (@put default_factory [Byte.x61] [] demo_state).2 (demo_ops ++ [Put [Byte.x61] []])) /\
  ((@del default_factory [Byte.x61] demo_state).1 = 6 /\
   wal_repr (@del default_factory [Byte.x61] demo_state).2 (demo_ops ++ [Del [Byte.x61]])).
Proof.
  apply (@commit_extends_history default_factory demo_state demo_ops [Byte.x61] []);
    [apply demo_repr|by vm_compute].
Defined.

Lemma maintenance_invisible_witness :
  let s' := (@force_compact default_factory demo_state).2 in
  (get [Byte.x61] 1 s').1 = (get [Byte.x61] 1 demo_state).1 /\
  (scan (mkRange [] [] true) 1 s').1 = (scan (mkRange [] [] true) 1 demo_state).1 /\
  (snapshot s').1 = (snapshot demo_state).1.
Proof.
  apply (@maintenance_invisible default_factory demo_state demo_ops [Byte.x61] (mkRange [] [] true) 1);
    [apply demo_repr|by vm_compute..|by right].
Defined.

Lemma scan_visit_agrees_witness :
  scan_visit (mkRange [] [] true) 5 demo_state.1 = Some (scan (mkRange [] [] true) 5 demo_state).1.
Proof. apply (@scan_visit_agrees default_factory demo_state demo_ops), demo_repr. Defined.
