(* ===== verification/WalRecover.v ===== *)
(** WalRecover: crash recovery from the write-ahead log.

    On an honest device the log holds the stream header and one record per
    commit, flushes and compactions included; recovery of any cut of that
    stream rebuilds a state that holds a prefix of the history. *)

From Stdlib Require Import ZArith Lia Sorting.Sorted.
From stdpp Require Import base list numbers gmap.
From S2P Require Import Prelude Codec Core Disk Mvcc Oracle ValueLog WalRecord Memtable Bloom SSTable.
From S2P Require Import SSTableRead SSTableImage Compaction Manifest WalEngine WalScan WalVisit WalInvariant WalRefine.
Import WalEngine.

(** ** The log of a history *)

Definition op_record (s : Z) (o : op) : WalRecord :=
  match o with
  | Put k v => mkWalRecord s k v false false
  | Del k => mkWalRecord s k [] true false
  end.

Fixpoint records_from (s : Z) (h : list op) : list WalRecord :=
  match h with
  | [] => []
  | o :: h' => op_record s o :: records_from (s + 1) h'
  end.

Definition wal_header : list byte :=
  Format.put_stream_header kWalStreamMagic Format.kWalStreamVersion.

(** The byte stream a history leaves in the log. *)
Definition wal_stream (h : list op) : list byte :=
  match h with
  | [] => []
  | _ => wal_header ++ encode_log (records_from 1 h)
  end.

(** An operation whose key and value lengths fit the record's fields. *)
Definition op_fits (o : op) : Prop :=
  Zlen (op_key o) < 2 ^ 32 /\ Zlen (default [] (op_value o)) < 2 ^ 32.

Lemma records_from_app s h h' :
  records_from s (h ++ h') = records_from s h ++ records_from (s + Zlen h) h'.
Proof.
  revert s; induction h as [|o h IH]; intros s; cbn [records_from app].
  - f_equal. unfold Zlen. cbn. lia.
  - rewrite IH. do 3 f_equal. unfold Zlen. cbn [length]. lia.
Qed.

Lemma length_records_from s h : length (records_from s h) = length h.
Proof. revert s; induction h; intros; cbn; auto. Qed.

Lemma wal_stream_snoc h o :
  wal_stream (h ++ [o]) =
  wal_stream h ++ (match h with [] => wal_header | _ => [] end) ++
  encode_record (op_record (Zlen h + 1) o).
Proof.
  unfold wal_stream. destruct (h ++ [o]) eqn:E; [by destruct h|]. rewrite <- E.
  rewrite records_from_app, encode_log_app.
  replace (encode_log (records_from (1 + Zlen h) [o]))
    with (encode_record (op_record (Zlen h + 1) o)).
  - destruct h; [done|]. by rewrite <- app_assoc.
  - unfold encode_log. cbn [records_from map concat]. rewrite app_nil_r. do 2 f_equal. lia.
Qed.

Lemma records_wf s h :
  1 <= s -> s + Zlen h <= 2 ^ 64 -> Forall op_fits h -> Forall record_wf (records_from s h).
Proof.
  revert s; induction h as [|o h IH]; intros s Hs Hl Hf; cbn [records_from]; [constructor|].
  inversion_clear Hf as [|? ? Ho Hh]. pose proof (Zlen_nonneg h).
  replace (Zlen (o :: h)) with (1 + Zlen h) in Hl by (unfold Zlen; cbn [length]; lia).
  constructor; [|apply IH; [lia|lia|done]].
  destruct Ho as [Hk Hv]. destruct o; split; cbn in *; try done; lia.
Qed.

(** ** Replay *)

Definition replay_one (e : engine) (r : WalRecord) : engine :=
  let e := upd_mem (Memtable.insert (r_key r) (r_seq r) (r_value r) (r_tombstone r) (r_vlog r)) e in
  if last_seq_ e <? r_seq r then set_last_seq (r_seq r) e else e.

Lemma replay_one_trunc e r : wal_trunc_seq_ (lsm (replay_one e r)) = wal_trunc_seq_ (lsm e).
Proof. unfold replay_one. by destruct (_ <? _). Qed.

(** Replaying decoded inline records that continue the sequence. *)
Lemma replay_records fuel image : forall pos s h e w,
  map fst (decode_run fuel image pos) = records_from s h ->
  wal_trunc_seq_ (lsm e) < s -> 0 <= s -> s + Zlen h < 2 ^ 64 ->
  replay fuel image pos s (e, w) = (tt, (fold_left replay_one (records_from s h) e, w)).
Proof.
  induction fuel as [|fuel IH]; intros pos s h e w Hd Ht Hs Hl; cbn [decode_run replay] in *.
  { destruct h; [done|discriminate]. }
  destruct (pos <? length image)%nat; [|destruct h; [done|discriminate]].
  destruct (try_decode image pos) as [[r n]|]; [|destruct h; [done|discriminate]].
  destruct h as [|o h]; [discriminate|]. cbn [map fst records_from] in Hd. injection Hd as -> Hd.
  assert (Hr : r_seq (op_record s o) = s /\ r_vlog (op_record s o) = false) by (by destruct o).
  destruct Hr as [Hseq Hvl]. rewrite bind_gets, Hseq, Hvl.
  pose proof (Zlen_nonneg h).
  replace (Zlen (o :: h)) with (1 + Zlen h) in Hl by (unfold Zlen; cbn [length]; lia).
  rewrite (proj2 (Z.leb_gt _ _)) by (cbn; lia). rewrite Z.eqb_refl. cbn [negb].
  rewrite bind_ret. cbn [negb]. rewrite bind_modify, bind_gets. cbn [fst snd records_from fold_left].
  rewrite u64_id by lia.
  set (e1 := upd_mem _ e). unfold when.
  assert (Hstep : forall e', e' = replay_one e (op_record s o) ->
    replay fuel image (pos + n) (s + 1) (e', w) =
    (tt, (fold_left replay_one (records_from (s + 1) h) e', w))).
  { intros e' ->. apply IH; [done| |lia|lia]. rewrite replay_one_trunc. lia. }
  assert (Hone : replay_one e (op_record s o) =
                 if last_seq_ e1 <? s then set_last_seq s e1 else e1) by (by destruct o).
  destruct (last_seq_ e1 <? s); [rewrite bind_modify|rewrite bind_ret]; cbn [fst snd];
    (rewrite Hstep by (by rewrite Hone); by rewrite Hone).
Qed.

Lemma inv_relabel L L' h b e : inv L h b e -> inv L' h b (set_last_seq L' e).
Proof. intros []. by constructor. Qed.

Lemma replay_inv h : forall h0 e,
  inv (Zlen h0) h0 0 e -> Zlen (h0 ++ h) <= kCap ->
  inv (Zlen (h0 ++ h)) (h0 ++ h) 0 (fold_left replay_one (records_from (Zlen h0 + 1) h) e).
Proof.
  induction h as [|o h IH]; intros h0 e He Hc; cbn [records_from fold_left]; [by rewrite app_nil_r|].
  rewrite cons_middle, app_assoc in *.
  assert (Hl : Zlen h0 < kCap).
  { rewrite !Zlen_app in Hc. change (Zlen [o]) with 1 in Hc. pose proof (Zlen_nonneg h). lia. }
  assert (Hs : Zlen (h0 ++ [o]) = Zlen h0 + 1) by (rewrite Zlen_app; done).
  specialize (IH (h0 ++ [o]) (replay_one e (op_record (Zlen h0 + 1) o))).
  rewrite Hs in IH. apply IH; [|done].
  pose proof (i_last _ _ _ _ _ _ _ _ _ He) as Hlast. unfold replay_one.
  assert (Hseq : r_seq (op_record (Zlen h0 + 1) o) = Zlen h0 + 1) by (by destruct o).
  rewrite Hseq. set (e1 := upd_mem _ e).
  change (last_seq_ e1) with (last_seq_ e). rewrite Hlast, (proj2 (Z.ltb_lt _ _)) by lia.
  apply (inv_relabel (Zlen h0)). apply (inv_weaken _ _ 2 0); [lia|].
  unfold e1. destruct o as [k v|k]; cbn [op_record r_key r_value r_tombstone r_vlog r_seq].
  - by apply (inv_insert (Zlen h0) h0 e k v false).
  - by apply (inv_insert (Zlen h0) h0 e k [] true).
Qed.

(** ** Recovery of a cut stream *)

Lemma records_prefix s h rs :
  rs `prefix_of` records_from s h -> rs = records_from s (take (length rs) h).
Proof.
  revert s rs; induction h as [|o h IH]; intros s rs Hp; cbn [records_from] in Hp.
  - apply prefix_nil_inv in Hp as ->. done.
  - destruct rs as [|r rs]; [done|]. destruct Hp as [tl Hp]. cbn in Hp.
    injection Hp as <- Hp. cbn [length take records_from]. f_equal. apply IH. by exists tl.
Qed.

Lemma whole_app_ge k a b :
  (length (encode_log a) <= k)%nat -> whole k (a ++ b) = a ++ whole (k - length (encode_log a)) b.
Proof.
  revert k; induction a as [|r a IH]; intros k Hk; cbn [app whole]; [cbn; by rewrite Nat.sub_0_r|].
  change (encode_log (r :: a)) with (encode_record r ++ encode_log a) in *.
  rewrite length_app in *. rewrite (proj2 (Nat.leb_le _ _)) by lia. rewrite IH by lia.
  do 3 f_equal. lia.
Qed.

(** The part of a history whose records lie within the first [k] bytes. *)
Definition survivors (k : nat) (h : list op) : list op :=
  take (length (whole (k - Format.kStreamHeaderBytes) (records_from 1 h))) h.

Lemma survivors_prefix k h : survivors k h `prefix_of` h.
Proof. apply prefix_take. Qed.

Lemma survivors_records k h :
  records_from 1 (survivors k h) = whole (k - Format.kStreamHeaderBytes) (records_from 1 h).
Proof. symmetry. apply records_prefix, whole_prefix. Qed.

(** What was in the stream before the cut survives. *)
Lemma survivors_durable k h1 h2 :
  (length (wal_stream h1) <= k)%nat -> h1 `prefix_of` survivors k (h1 ++ h2).
Proof.
  intros Hk. unfold survivors. rewrite records_from_app. destruct h1 as [|o h1]; [apply prefix_nil|].
  set (rs := records_from 1 (o :: h1)).
  assert (Hl : (length (encode_log rs) <= k - Format.kStreamHeaderBytes)%nat).
  { unfold wal_stream in Hk. rewrite length_app in Hk. change (length wal_header) with 8%nat in Hk.
    unfold Format.kStreamHeaderBytes. fold rs in Hk. lia. }
  rewrite whole_app_ge by done. rewrite length_app.
  replace (length rs) with (length (o :: h1)) by (symmetry; apply length_records_from).
  rewrite take_app_ge by lia. by apply prefix_app_r.
Qed.

Lemma survivors_short k h : (k < 8)%nat -> survivors k h = [].
Proof.
  intros Hk. unfold survivors, Format.kStreamHeaderBytes.
  replace (k - 8)%nat with 0%nat by lia.
  destruct h as [|o h]; [done|]. cbn [records_from whole].
  pose proof (length_encode_record (op_record 1 o)).
  rewrite (proj2 (Nat.leb_gt _ _)) by lia. done.
Qed.

(** The state recovery replays into. *)
Record blank (e : engine) : Prop := {
  bl_tables : tables e = [];
  bl_trunc : wal_trunc_seq_ (lsm e) = 0;
  bl_last : last_seq_ e = 0;
  bl_next : next_sstable_id_ (lsm e) = 0;
  bl_inline : value_log_active e = false;
  bl_watermark : read_watermark_ e = 0
}.

Lemma blank_inv e : blank e -> inv 0 [] 0 (upd_mem Memtable.clear e).
Proof.
  intros [Ht _ Hl Hn Hi Hw]. unfold inv. change (tables (upd_mem _ e)) with (tables e).
  cbn [upd_mem cfg mem_ last_seq_ read_watermark_ lsm]. rewrite Ht, Hl, Hn, Hw. constructor; try done.
  - apply Memtable.clear_wf.
  - constructor.
Qed.

Lemma replay_short fuel image pos x s :
  (length image < 25)%nat -> replay fuel image pos x s = (tt, s).
Proof.
  intros Hl. destruct fuel as [|fuel]; cbn [replay]; [done|].
  destruct (pos <? length image)%nat; [|done].
  replace (try_decode image pos) with (@None (WalRecord * nat)); [done|]. symmetry.
  unfold try_decode, kWalHeaderBytes, kWalCrcBytes.
  rewrite (proj2 (Z.ltb_lt _ _)) by lia. done.
Qed.

Lemma take_stream k h :
  (8 <= k)%nat -> h <> [] ->
  take k (wal_stream h) = wal_header ++ take (k - 8) (encode_log (records_from 1 h)).
Proof.
  intros Hk Hh. unfold wal_stream. destruct h as [|o h]; [done|].
  rewrite take_app_ge by (change (length wal_header) with 8%nat; lia). done.
Qed.

(** Decoding the cut stream yields the records of the surviving history. *)
Lemma decode_cut k h :
  (8 <= k)%nat -> h <> [] -> Zlen h <= kCap -> Forall op_fits h ->
  let image := take k (wal_stream h) in
  map fst (decode_run (length image) image 8) = records_from 1 (survivors k h).
Proof.
  intros Hk Hh Hc Hfit image.
  assert (Himg : image = wal_header ++ take (k - 8) (encode_log (records_from 1 h)))
    by (by apply take_stream).
  rewrite survivors_records. unfold Format.kStreamHeaderBytes. rewrite Himg at 2.
  apply (decode_truncated (length image) wal_header).
  - apply records_wf; [lia|unfold kCap in Hc; lia|done].
  - rewrite Himg, length_app. change (length wal_header) with 8%nat.
    destruct (take_encode_log (k - 8) (records_from 1 h)) as [Heq|(r & j & _ & _ & Heq)].
    + rewrite Heq. pose proof (encode_log_length (records_from 1 h)).
      pose proof (prefix_length _ _ (whole_prefix (k - 8) (records_from 1 h))). lia.
    + rewrite Heq, length_app.
      pose proof (encode_log_length (whole (k - 8) (records_from 1 h))). lia.
Qed.

Lemma replay_wal_cut k h e w :
  blank e -> Zlen h <= kCap -> Forall op_fits h ->
  exists e', replay_wal (take k (wal_stream h)) (e, w) = (tt, (e', w)) /\
             inv (Zlen (survivors k h)) (survivors k h) 0 e'.
Proof.
  intros He Hc Hfit. set (image := take k (wal_stream h)). unfold replay_wal.
  rewrite !bind_modify, bind_gets. cbn [fst snd].
  set (e1 := set_wal_started _ (upd_mem Memtable.clear e)).
  assert (He1 : inv 0 [] 0 e1) by exact (blank_inv e He).
  change (wal_trunc_seq_ (lsm e1)) with (wal_trunc_seq_ (lsm e)). rewrite (bl_trunc e He).
  change (u64 (0 + 1)) with 1.
  destruct (decide ((8 <= k)%nat /\ h <> [])) as [[Hk Hh]|Hk].
  - assert (Himg : image = wal_header ++ take (k - 8) (encode_log (records_from 1 h)))
      by (by apply take_stream).
    assert (Hlen : (8 <= length image)%nat) by (rewrite Himg, length_app; change (length wal_header) with 8%nat; lia).
    unfold Format.kStreamHeaderBytes. rewrite (proj2 (Nat.leb_le _ _)) by lia.
    assert (Hmag : get_u32 image = kWalStreamMagic) by (by rewrite Himg).
    assert (Hchk : Format.check_stream_header image kWalStreamMagic Format.kWalStreamVersion = true).
    { unfold Format.check_stream_header, Format.kStreamHeaderBytes.
      rewrite (proj2 (Nat.ltb_ge _ _)) by lia. rewrite Hmag, Himg. done. }
    rewrite Hmag, Z.eqb_refl, Hchk. cbn [andb negb].
    set (h' := survivors k h) in *.
    assert (Hl' : Zlen h' <= kCap).
    { unfold Zlen in *. pose proof (prefix_length _ _ (survivors_prefix k h)). fold h' in H. lia. }
    assert (Hdec : map fst (decode_run (length image) image 8) = records_from 1 h')
      by (by apply decode_cut).
    eexists. split.
    + apply replay_records; [exact Hdec| |lia|unfold kCap in Hl'; lia].
      change (wal_trunc_seq_ (lsm e1)) with (wal_trunc_seq_ (lsm e)). rewrite (bl_trunc e He). lia.
    + apply (replay_inv h' [] e1); [exact He1|done].
  - assert (Hs : survivors k h = []).
    { destruct (decide (k < 8)%nat); [by apply survivors_short|].
      destruct h; [|exfalso; apply Hk; split; [lia|done]]. unfold survivors. apply take_nil. }
    assert (Hlen : (length image < 8)%nat).
    { unfold image. rewrite length_take. destruct (decide (k < 8)%nat); [lia|].
      destruct h; [cbn; lia|]. exfalso; apply Hk; split; [lia|done]. }
    unfold Format.kStreamHeaderBytes. rewrite (proj2 (Nat.leb_gt _ _)) by lia. cbn [andb].
    rewrite replay_short by lia. exists e1. rewrite Hs. split; [done|exact He1].
Qed.

(** A restart: the value log off and the watermark at its default. *)
Definition restartable (e : engine) : Prop :=
  value_log_active e = false /\ read_watermark_ e = 0.

Lemma reset_blank e : restartable e -> blank (reset_for_recovery e).
Proof.
  intros [Hv Hw]. unfold reset_for_recovery.
  set (e0 := mkEngine _ _ _ _ _ _ _).
  change (value_log_active e0) with (value_log_active e). rewrite Hv. by split.
Qed.

Lemma wal_read_honest e w n :
  tape w = [] -> rotted_offsets (wal w) = [] -> n = logical_len (wal w) ->
  wal_read n (e, w) = ((ok_error, image_of (wal w)), (e, mkIo (wal w) (man w) (fac w) [])).
Proof. intros Ht Hr Hn. unfold wal_read. by rewrite Ht, read_whole. Qed.

Lemma recover_cut `{IDiskFactory} k h e w :
  restartable e -> Zlen h <= kCap -> Forall op_fits h ->
  image_of (wal w) = take k (wal_stream h) -> rotted_offsets (wal w) = [] -> tape w = [] ->
  exists s', recover (logical_len (wal w)) (e, w) = (ok_error, s') /\
             wal_repr s' (survivors k h).
Proof.
  intros He Hc Hf Himg Hrot Htape.
  pose proof (reset_blank e He) as Hb. set (e0 := reset_for_recovery e) in *.
  set (n := logical_len (wal w)).
  assert (Hlen : n = length (take k (wal_stream h))) by (rewrite <- Himg, length_image; done).
  unfold recover, recover_lsm. rewrite bind_modify. cbn [fst snd]. fold e0.
  rewrite (bind_run _ _ _ [] (e0, w)) by done.
  cbn [load_tables]. rewrite bind_ret, bind_gets. cbn [fst snd].
  rewrite (bl_trunc e0 Hb). change (kNoSeq <? 0) with false. cbn [when]. rewrite bind_ret.
  assert (Hread : exists w', (if (0 <? n)%nat then wal_read n else mret (ok_error, [])) (e0, w) =
                             ((ok_error, take k (wal_stream h)), (e0, w'))).
  { destruct (0 <? n)%nat eqn:En.
    - eexists. rewrite wal_read_honest, Himg by done. done.
    - exists w. replace (take k (wal_stream h)) with (@nil byte); [done|].
      symmetry. apply nil_length_inv. lia. }
  destruct Hread as [w' Hread]. rewrite (bind_run _ _ _ _ _ Hread).
  cbn [fst snd err_ok code ok_error negb].
  destruct (replay_wal_cut k h e0 w' Hb Hc Hf) as (e' & Hr & Hinv).
  rewrite (bind_run _ _ _ _ _ Hr). exists (e', w'). split; [done|exact Hinv].
Qed.

(** ** The log of an honest run *)

(** A computation that leaves the WAL alone and draws no fault. *)
Definition wal_quiet {A} (m : M A) : Prop := forall s,
  tape s.2 = [] ->
  tape (m s).2.2 = [] /\ wal (m s).2.2 = wal s.2 /\ wal_started_ (m s).2.1 = wal_started_ s.1.

Lemma bind_bind {A B C} (m : M A) (f : A -> M B) (g : B -> M C) s :
  ((m ≫= f) ≫= g) s = (m ≫= fun a => f a ≫= g) s.
Proof. unfold mbind, M_bind. by destruct (m s). Qed.

Lemma quiet_bind {A B} (m : M A) (k : A -> M B) :
  wal_quiet m -> (forall a, wal_quiet (k a)) -> wal_quiet (m ≫= k).
Proof.
  intros Hm Hk s Ht. unfold mbind, M_bind. destruct (Hm s Ht) as (H1 & H2 & H3).
  destruct (m s) as [a s']. cbn in H1, H2, H3. destruct (Hk a s' H1) as (H4 & H5 & H6).
  split_and!; congruence.
Qed.

Lemma quiet_ret {A} (a : A) : wal_quiet (mret a).
Proof. intros s Ht. done. Qed.
Lemma quiet_gets {A} (f : engine -> A) : wal_quiet (gets f).
Proof. intros s Ht. done. Qed.
Lemma quiet_upd_lsm f : wal_quiet (modify (upd_lsm f)).
Proof. intros s Ht. done. Qed.
Lemma quiet_upd_mem f : wal_quiet (modify (upd_mem f)).
Proof. intros s Ht. done. Qed.
Lemma quiet_upd_vl f : wal_quiet (modify (upd_vl f)).
Proof. intros s Ht. done. Qed.
Lemma quiet_man_append bs : wal_quiet (man_append bs).
Proof. intros [e w] Ht. cbn in Ht. unfold man_append. rewrite Ht, append_honest. done. Qed.
Lemma quiet_man_sync : wal_quiet man_sync.
Proof. intros [e w] Ht. cbn in Ht. unfold man_sync. rewrite Ht, sync_honest. done. Qed.
Lemma quiet_fac_append id bs : wal_quiet (fac_append id bs).
Proof. intros [e w] Ht. cbn in Ht. unfold fac_append. rewrite Ht, append_honest. done. Qed.
Lemma quiet_fac_sync id : wal_quiet (fac_sync id).
Proof. intros [e w] Ht. cbn in Ht. unfold fac_sync. rewrite Ht, sync_honest. done. Qed.
Lemma quiet_fac_reclaim `{IDiskFactory} id : wal_quiet (fac_reclaim id).
Proof. intros [e w] Ht. done. Qed.
Lemma quiet_fac_read id off n : wal_quiet (fac_read id off n).
Proof.
  intros [e w] Ht. cbn in Ht. unfold fac_read, read, chance, draw_latency, uniform_range. rewrite Ht.
  cbn [draw]. cbn [negb Z.eqb]. by destruct (fill_read off n _).
Qed.

Create HintDb quiet.
#[local] Hint Resolve quiet_bind quiet_ret quiet_gets quiet_upd_lsm quiet_upd_mem quiet_upd_vl quiet_man_append quiet_man_sync
  quiet_fac_append quiet_fac_sync quiet_fac_reclaim quiet_fac_read : quiet.

(** Walk through a computation's binds, conditionals and matches. *)
Ltac quiet :=
  repeat first
    [ progress auto with quiet
    | apply quiet_bind; [|intros ?]
    | match goal with
      | |- wal_quiet (if ?b then _ else _) => destruct b
      | |- wal_quiet (match ?x with _ => _ end) => destruct x
      end ].

Section quiet.
Context `{Hfac : IDiskFactory}.

Lemma quiet_header : wal_quiet append_manifest_header.
Proof. unfold append_manifest_header. quiet. Qed.
Lemma quiet_commit_manifest enc : wal_quiet (commit_manifest enc).
Proof. pose proof quiet_header. unfold commit_manifest. quiet. Qed.
Lemma quiet_install b : wal_quiet (install_built b).
Proof. pose proof quiet_commit_manifest. unfold install_built. quiet. Qed.
Lemma quiet_do_flush : wal_quiet do_flush.
Proof. pose proof quiet_install. unfold do_flush, flush_memtable. quiet. Qed.

Lemma quiet_read_retry n id off len last : wal_quiet (read_retry n id off len last).
Proof. revert last; induction n; intros last; cbn [read_retry]; quiet. Qed.
Lemma quiet_deref p : wal_quiet (deref_value p).
Proof. pose proof quiet_read_retry. unfold deref_value. quiet. Qed.
Lemma quiet_rewrite_entries g n es : wal_quiet (rewrite_entries g n es).
Proof.
  pose proof quiet_deref. revert n; induction es; intros n; cbn [rewrite_entries]; quiet.
Qed.
Lemma quiet_rewrite es : wal_quiet (rewrite_vlog_for_compaction es).
Proof. pose proof quiet_rewrite_entries. unfold rewrite_vlog_for_compaction. quiet. Qed.
Lemma quiet_append_obsolete ids : wal_quiet (append_obsolete ids).
Proof. pose proof quiet_commit_manifest. induction ids; cbn [append_obsolete]; quiet. Qed.
Lemma quiet_swap_tables ids ts : wal_quiet (swap_tables ids ts).
Proof. induction ts; cbn [swap_tables]; quiet. Qed.
Lemma quiet_reclaim_generations gens : wal_quiet (reclaim_generations gens).
Proof. induction gens; cbn [reclaim_generations]; quiet. Qed.
Lemma quiet_obsolete ids rd cm gens : wal_quiet (obsolete_and_truncate ids rd cm gens).
Proof.
  pose proof quiet_append_obsolete. pose proof quiet_commit_manifest.
  pose proof quiet_swap_tables. pose proof quiet_reclaim_generations.
  unfold obsolete_and_truncate, swap_live_set. quiet.
Qed.
Lemma quiet_do_compact : wal_quiet do_compact.
Proof.
  pose proof quiet_rewrite. pose proof quiet_install. pose proof quiet_obsolete.
  unfold do_compact, compact_tables. quiet.
Qed.
Lemma quiet_maintain : wal_quiet maintain.
Proof. pose proof quiet_do_flush. pose proof quiet_do_compact. unfold maintain. quiet. Qed.
End quiet.

(** The log of a state reached without faults: [d] of it is durable, the rest
    staged. *)
Record honest_log (h : list op) (d : list byte) (s : state) : Prop := {
  hl_tape : tape s.2 = [];
  hl_started : wal_started_ s.1 = match h with [] => false | _ => true end;
  hl_durable : durable (wal s.2) = d;
  hl_lying : lying (wal s.2) = [];
  hl_rotted : rotted_offsets (wal s.2) = [];
  hl_image : d ++ staged (wal s.2) = wal_stream h
}.

Lemma quiet_honest {A} (m : M A) h d s : wal_quiet m -> honest_log h d s -> honest_log h d (m s).2.
Proof.
  intros Hm [H1 H2 H3 H4 H5 H6]. destruct (Hm s H1) as (Q1 & Q2 & Q3).
  split; rewrite ?Q1, ?Q2, ?Q3; done.
Qed.

Lemma wal_append_honest e w bs :
  tape w = [] ->
  wal_append bs (e, w) =
  (ok_error, (e, mkIo (mkDisk (durable (wal w)) (lying (wal w)) (staged (wal w) ++ bs)
                              (rotted_offsets (wal w)) (crashed (wal w)))
                      (man w) (fac w) [])).
Proof. intros Ht. unfold wal_append. by rewrite Ht, append_honest. Qed.

(** The header goes in front of the first record only. *)
Lemma append_header_honest (h : list op) e w :
  tape w = [] -> wal_started_ e = match h with [] => false | _ => true end ->
  append_wal_header (e, w) =
  (tt, (set_wal_started true e,
        mkIo (mkDisk (durable (wal w)) (lying (wal w))
                (staged (wal w) ++ match h with [] => wal_header | _ => [] end)
                (rotted_offsets (wal w)) (crashed (wal w))) (man w) (fac w) [])).
Proof.
  intros Ht Hs. unfold append_wal_header. rewrite bind_gets. cbn [fst]. rewrite Hs.
  destruct h as [|o h].
  - rewrite bind_modify. cbn [fst snd]. rewrite (bind_run _ _ _ _ _ (wal_append_honest _ _ _ Ht)).
    done.
  - rewrite app_nil_r. destruct e, w as [d mn fc tp]. cbn in *. subst. by destruct d.
Qed.

Section honest.
Context `{Hfac : IDiskFactory}.

Lemma commit_honest h d s key value (tombstone : bool) :
  wal_repr s h -> honest_log h d s -> Zlen h < kCap -> (tombstone = true -> value = []) ->
  honest_log (h ++ [commit_op key value tombstone]) d (commit key value tombstone s).2.
Proof.
  intros Hs [H1 H2 H3 H4 H5 H6] Hc Hv. destruct s as [e w]. cbn [fst snd] in *.
  pose proof (i_last _ _ _ _ _ _ _ _ _ Hs) as Hlast. cbn [fst] in Hlast.
  pose proof (Zlen_nonneg h). unfold commit. rewrite bind_gets. cbn [fst]. rewrite Hlast.
  rewrite u64_id by (unfold kCap in Hc; lia). rewrite bind_modify. cbn [fst snd].
  set (e1 := set_last_seq (Zlen h + 1) e). unfold commit_task.
  assert (Hsep : separate_value value tombstone (e1, w) = ((value, false), (e1, w))).
  { unfold separate_value. rewrite bind_gets. cbn [fst].
    change (value_log_active e1) with (value_log_active e).
    assert (Hina : value_log_active e = false) by exact (inv_inactive _ _ _ _ Hs).
    rewrite Hina, andb_false_r. done. }
  rewrite bind_bind, (bind_run _ _ _ _ _ Hsep), bind_bind.
  rewrite (bind_run _ _ _ _ _ (append_header_honest h e1 w H1 H2)), bind_bind.
  erewrite bind_run by (apply wal_append_honest; reflexivity). rewrite bind_bind, bind_modify.
  cbn [fst snd wal man fac durable lying staged rotted_offsets crashed].
  unfold mbind, M_bind. set (s1 := (_, _) : state).
  assert (Hs1 : honest_log (h ++ [commit_op key value tombstone]) d s1).
  { split; cbn [s1 fst snd tape wal durable lying staged rotted_offsets]; try done.
    - by destruct h.
    - rewrite wal_stream_snoc, <- H6, <- !app_assoc. do 4 f_equal.
      destruct tombstone; cbn; [by rewrite Hv|done]. }
  pose proof (quiet_honest maintain _ d s1 quiet_maintain Hs1) as Hq.
  destruct (maintain s1) as [[] s2]. exact Hq.
Qed.

Lemma run_ops_honest h' : forall h d s,
  wal_repr s h -> honest_log h d s -> Zlen (h ++ h') <= kCap ->
  honest_log (h ++ h') d (run_ops h' s).
Proof.
  induction h' as [|o h' IH]; intros h d s Hs Hh Hc; [by rewrite app_nil_r|].
  rewrite cons_middle, app_assoc in *. cbn [run_ops fold_left].
  assert (Hl : Zlen h < kCap).
  { rewrite !Zlen_app in Hc. change (Zlen [o]) with 1 in Hc. pose proof (Zlen_nonneg h'). lia. }
  destruct o as [k v|k]; apply IH; try done.
  - by apply (commit_repr s h k v false).
  - by apply (commit_honest h d s k v false).
  - by apply (commit_repr s h k [] true).
  - by apply (commit_honest h d s k [] true).
Qed.

Lemma sync_wal s h :
  wal_repr s h -> WalEngine.sync s = wal_sync s.
Proof.
  intros Hs. unfold WalEngine.sync. rewrite bind_gets. by rewrite (inv_inactive _ _ _ _ Hs).
Qed.

(** A faultless barrier makes the whole log durable. *)
Lemma sync_honest_log s h d :
  wal_repr s h -> honest_log h d s ->
  wal_repr (WalEngine.sync s).2 h /\ honest_log h (wal_stream h) (WalEngine.sync s).2.
Proof.
  intros Hs [H1 H2 H3 H4 H5 H6]. rewrite (sync_wal s h) by done. destruct s as [e w].
  cbn [fst snd] in *. unfold wal_sync. rewrite H1, sync_honest. cbn [snd].
  split; [exact Hs|]. split; cbn; try done.
  - by rewrite H3.
  - by rewrite app_nil_r.
Qed.

(** A barrier that may lie leaves a cut of the log past what was durable. *)
Lemma sync_cut s h d t :
  wal_repr s h -> honest_log h d s ->
  let s' := (WalEngine.sync (s.1, mkIo (wal s.2) (man s.2) (fac s.2) t)).2 in
  exists k, (length d <= k)%nat /\ rotted_offsets (wal s'.2) = [] /\
            durable (wal s'.2) = take k (wal_stream h).
Proof.
  intros Hs [H1 H2 H3 H4 H5 H6] s'. unfold s'. rewrite (sync_wal _ h) by exact Hs.
  unfold wal_sync. cbn [tape wal]. destruct (Disk.sync t (wal s.2)) as [[er d'] r'] eqn:E.
  apply sync_spec in E as (_ & _ & Hr & p & Hd & _). cbn [snd wal].
  exists (length d + p)%nat. split; [lia|]. split; [congruence|].
  rewrite Hd, H3, <- H6, take_app_ge by lia.
  by replace (length d + p - length d)%nat with p by lia.
Qed.
End honest.

(** C5: durability and prefix.  Commit [h1], sync, commit [h2] (each commit with
    the flushes and compactions it triggers) on devices without faults, then
    sync on a device that may lie about any part of it, and crash.  Recovery
    from what the log's device kept succeeds and yields a state holding a
    prefix of the history that contains every commit of [h1]. *)
Theorem wal_crash_recovery `{IDiskFactory} e e' mn fc mn' fc' h1 h2 t :
  fresh e -> restartable e' -> Zlen (h1 ++ h2) <= kCap -> Forall op_fits (h1 ++ h2) ->
  let s1 := (WalEngine.sync (run_ops h1 (e, mkIo empty_disk mn fc []))).2 in
  let s2 := run_ops h2 s1 in
  let s3 := (WalEngine.sync (s2.1, mkIo (wal s2.2) (man s2.2) (fac s2.2) t)).2 in
  let d := crash (wal s3.2) in
  exists s' h', WalEngine.recover (logical_len d) (e', mkIo d mn' fc' []) = (ok_error, s') /\
    wal_repr s' h' /\ h1 `prefix_of` h' /\ h' `prefix_of` (h1 ++ h2).
Proof.
  intros He He' Hc Hf s1 s2 s3 d.
  assert (Hc1 : Zlen h1 <= kCap) by (rewrite Zlen_app in Hc; pose proof (Zlen_nonneg h2); lia).
  assert (H0 : wal_repr (e, mkIo empty_disk mn fc []) []) by (by apply fresh_inv).
  assert (Hl0 : honest_log [] [] (e, mkIo empty_disk mn fc [])) by (split; done || apply He).
  pose proof (run_ops_repr _ [] h1 H0 Hc1) as R1.
  pose proof (run_ops_honest h1 [] [] _ H0 Hl0 Hc1) as L1.
  destruct (sync_honest_log _ _ _ R1 L1) as [R2 L2]. fold s1 in R2, L2.
  pose proof (run_ops_repr s1 h1 h2 R2 Hc) as R3. fold s2 in R3.
  pose proof (run_ops_honest h2 h1 _ s1 R2 L2 Hc) as L3. fold s2 in L3.
  destruct (sync_cut s2 _ _ t R3 L3) as (k & Hk & Hrot & Hdur). fold s3 in Hrot, Hdur.
  destruct (recover_cut k (h1 ++ h2) e' (mkIo d mn' fc' [])) as (s' & Hrec & Hrep); try done.
  { unfold d, image_of. cbn. by rewrite !app_nil_r. }
  exists s', (survivors k (h1 ++ h2)). split_and!; [done|done| |apply survivors_prefix].
  by apply survivors_durable.
Qed.

(** Two synced commits, a third one and a sync that promotes five bytes of its
    record: recovery keeps the two. *)
Lemma wal_crash_recovery_witness :
  let F := default_factory in
  let h1 := [Put [Byte.x61] [Byte.x01]; Put [Byte.x62] [Byte.x02]] in
  let h2 := [Del [Byte.x61]] in
  let s1 := (WalEngine.sync (@run_ops F h1 (demo_engine, mkIo empty_disk empty_disk ∅ []))).2 in
  let s2 := @run_ops F h2 s1 in
  let s3 := (WalEngine.sync (s2.1, mkIo (wal s2.2) (man s2.2) (fac s2.2) [1; 0; 5])).2 in
  let d := crash (wal s3.2) in
  exists s' h', @WalEngine.recover F (logical_len d) (demo_engine, mkIo d empty_disk ∅ []) =
                (ok_error, s') /\
    wal_repr s' h' /\ h1 `prefix_of` h' /\ h' `prefix_of` (h1 ++ h2).
Proof.
  apply (@wal_crash_recovery default_factory demo_engine demo_engine empty_disk ∅ empty_disk ∅
           [Put [Byte.x61] [Byte.x01]; Put [Byte.x62] [Byte.x02]] [Del [Byte.x61]] [1; 0; 5]).
  - apply lsm_fresh.
  - done.
  - by vm_compute.
  - repeat constructor.
Defined.
