(* ===== verification/WalExport.v ===== *)
(** WalExport: the op-log export and copy-on-write branches
    (storage/WalEngine.hpp, [export_ops_task] and [fork_branch]).

    The export gathers versions from the memtable, and for a changefeed from
    the tables, and accepts them on a front, back and count test; it is shown
    that the test admits exactly the complete log.  A branch shares the
    parent's table readers and copies its memtable. *)

From Stdlib Require Import ZArith Lia Sorting.Sorted.
From stdpp Require Import base list numbers gmap sorting.
From S2P Require Import Prelude Codec Core Disk Mvcc Oracle ValueLog WalRecord Memtable Bloom SSTable.
From S2P Require Import SSTableRead SSTableImage Compaction Manifest WalEngine WalScan WalVisit WalInvariant WalRefine.
Import WalEngine.

(** ** Sorting by sequence *)

Definition seq_le (a b : entry) : Prop := e_seq a <= e_seq b.

Lemma seq_insert_perm e es : seq_insert e es ≡ₚ e :: es.
Proof.
  induction es as [|x es IH]; [done|]. cbn [seq_insert]. destruct (e_seq x <? e_seq e); [|done].
  rewrite IH. apply Permutation_swap.
Qed.

Lemma seq_sort_perm es : seq_sort es ≡ₚ es.
Proof. induction es as [|e es IH]; [done|]. cbn. by rewrite seq_insert_perm, IH. Qed.

Lemma seq_insert_sorted e es :
  StronglySorted seq_le es -> StronglySorted seq_le (seq_insert e es).
Proof.
  induction 1 as [|x es Hs IH Hf]; cbn [seq_insert]; [repeat constructor|].
  unfold seq_le in *. destruct (e_seq x <? e_seq e) eqn:E; constructor; try done.
  - rewrite seq_insert_perm. constructor; [lia|done].
  - by constructor.
  - constructor; [lia|]. eapply Forall_impl; [exact Hf|]. cbn. lia.
Qed.

Lemma seq_sort_sorted es : StronglySorted seq_le (seq_sort es).
Proof. induction es; cbn; [constructor|]. by apply seq_insert_sorted. Qed.

(** ** The log from a sequence on *)

Definition log_start (from : Z) : Z := if from <? 1 then 1 else from.

Definition log_from (from : Z) (h : list op) : list entry :=
  hist_from (log_start from) (drop (Z.to_nat (log_start from - 1)) h).

Lemma hist_from_sorted s h : StronglySorted seq_le (hist_from s h).
Proof.
  revert s; induction h as [|o h IH]; intros s; cbn [hist_from]; constructor; [done|].
  apply List.Forall_forall. intros x Hx. apply hist_from_seq in Hx.
  unfold seq_le. rewrite op_entry_seq. lia.
Qed.

Lemma hist_from_nodup s h : NoDup (hist_from s h).
Proof.
  revert s; induction h as [|o h IH]; intros s; cbn [hist_from]; constructor; [|done].
  rewrite list_elem_of_In. intros Hx. apply hist_from_seq in Hx. rewrite op_entry_seq in Hx. lia.
Qed.

Lemma log_start_ge from : 1 <= log_start from.
Proof. unfold log_start. destruct (from <? 1) eqn:E; lia. Qed.

Lemma length_hist_from s h : length (hist_from s h) = length h.
Proof. revert s; induction h as [|o h IH]; intros s; cbn; [done|]. by rewrite IH. Qed.

Lemma Zlen_log_from from h :
  Zlen (log_from from h) = Z.max 0 (Zlen h - log_start from + 1).
Proof.
  pose proof (log_start_ge from). unfold log_from, Zlen.
  rewrite length_hist_from, length_drop. lia.
Qed.

Lemma log_from_in from h x :
  In x (log_from from h) <-> In x (hist_entries h) /\ negb (e_seq x <? from) = true.
Proof.
  pose proof (log_start_ge from). unfold log_from, hist_entries.
  set (n := Z.to_nat (log_start from - 1)).
  assert (Hfr : In x (hist_from 1 h) -> negb (e_seq x <? from) = true <-> log_start from <= e_seq x).
  { intros Hx. apply hist_from_seq in Hx. unfold log_start.
    destruct (from <? 1) eqn:E; destruct (e_seq x <? from) eqn:E2; cbn; lia || naive_solver lia. }
  destruct (Z_lt_le_dec (Zlen h) (Z.of_nat n)) as [Hlt|Hge].
  - rewrite drop_ge by (unfold Zlen in Hlt; lia). split; [done|]. intros [Hx Hf].
    apply Hfr in Hf; [|done]. apply hist_from_seq in Hx. lia.
  - assert (Hsplit : hist_from 1 h = hist_from 1 (take n h) ++ hist_from (log_start from) (drop n h)).
    { rewrite <- (take_drop n h) at 1. rewrite hist_from_app. do 2 f_equal.
      unfold Zlen in *. rewrite length_take. lia. }
    rewrite Hsplit in *. split.
    + intros Hx. assert (Hin : In x (hist_from 1 (take n h) ++ hist_from (log_start from) (drop n h)))
        by (apply in_or_app; by right). split; [done|]. apply Hfr; [done|].
      apply hist_from_seq in Hx. lia.
    + intros [Hin Hf]. apply Hfr in Hf; [|done]. apply in_app_or in Hin as [Hin|]; [|done].
      apply hist_from_seq in Hin. unfold Zlen in *. rewrite length_take in Hin. lia.
Qed.

Lemma log_from_complete from h :
  log_start from <= Zlen h -> Zlen h < 2 ^ 64 ->
  complete_run (log_start from) (Zlen h) (log_from from h) = true.
Proof.
  intros Hle Hb. pose proof (log_start_ge from) as Hs. pose proof (Zlen_log_from from h) as Hlen.
  assert (Hu : u64 (Zlen h - log_start from + 1) = Zlen h - log_start from + 1)
    by (apply u64_id; lia).
  destruct (log_from from h) as [|x xs] eqn:E; [unfold Zlen in *; cbn in Hlen; lia|].
  destruct (exists_last (l := x :: xs)) as (l & y & Hl); [done|].
  assert (El : list.last (x :: xs) = Some y) by (rewrite Hl; apply last_snoc).
  unfold complete_run. rewrite El, Hu, Hlen. unfold log_from in E.
  set (s := log_start from) in *. set (n := Z.to_nat (s - 1)) in *.
  assert (Hx : e_seq x = s).
  { destruct (drop n h) as [|o d]; [done|]. cbn [hist_from] in E. simplify_eq. apply op_entry_seq. }
  assert (Hy : e_seq y = Zlen h).
  { destruct (exists_last (l := drop n h)) as (d & o & Hd); [intros Hd; by rewrite Hd in E|].
    rewrite Hd, hist_from_app in E. cbn [hist_from] in E. rewrite Hl in E.
    apply app_inj_tail in E as [_ <-]. rewrite op_entry_seq.
    apply (f_equal Zlen) in Hd. rewrite Zlen_app in Hd. change (Zlen [o]) with 1 in Hd.
    unfold Zlen in *. rewrite length_drop in Hd. lia. }
  rewrite Hx, Hy, !Z.eqb_refl. cbn. lia.
Qed.

(** ** What the export gathers *)

Lemma exported_in from b s h x :
  wal_repr s h -> In x (exported from b s.1) -> In x (log_from from h).
Proof.
  intros Hs Hx. apply log_from_in. rewrite <- (inv_entries _ _ _ _ _ Hs).
  unfold exported, all_entries in *. apply in_app_or in Hx as [Hx|Hx].
  - destruct b; [|done]. apply in_concat in Hx as (l & Hl & Hx).
    apply in_map_iff in Hl as (t & <- & Ht).
    destruct (SSTableReader.max_seq t <? from); [done|]. apply filter_In in Hx as [Hx Hf].
    split; [|done]. apply in_or_app; right. apply in_concat. eexists. split; [|exact Hx].
    apply in_map_iff. eauto.
  - apply filter_In in Hx as [Hx Hf]. split; [apply in_or_app; by left|done].
Qed.

Lemma exported_all from s h x :
  wal_repr s h -> In x (log_from from h) -> In x (exported from true s.1).
Proof.
  intros Hs Hx. apply log_from_in in Hx as [Hx Hf]. rewrite <- (inv_entries _ _ _ _ _ Hs) in Hx.
  unfold exported, all_entries in *. apply in_or_app. apply in_app_or in Hx as [Hx|Hx].
  - right. by apply filter_In.
  - left. apply in_concat in Hx as (l & Hl & Hx). apply in_map_iff in Hl as (t & <- & Ht).
    apply in_concat. eexists. split; [apply in_map_iff; by exists t|]. cbn.
    pose proof (rw_max t (i_tables _ _ _ _ _ _ _ _ _ Hs t Ht) x Hx).
    destruct (SSTableReader.max_seq t <? from) eqn:E; [lia|]. by apply filter_In.
Qed.

Lemma exported_mem_nodup from s h : wal_repr s h -> NoDup (exported from false s.1).
Proof.
  intros Hs. unfold exported. cbn [app]. apply NoDup_ListNoDup, List.NoDup_filter, NoDup_ListNoDup.
  apply sorted_run_nodup. destruct (i_mem _ _ _ _ _ _ _ _ _ Hs). by apply mem_entries_sorted.
Qed.

(** A gathered run as long as the log is the log, up to order. *)
Lemma exported_perm from b s h :
  wal_repr s h -> length (exported from b s.1) = length (log_from from h) ->
  exported from b s.1 ≡ₚ log_from from h.
Proof.
  intros Hs Hlen. pose proof (fun x => exported_in from b s h x Hs) as Hin.
  assert (Hlog : List.NoDup (log_from from h)) by apply NoDup_ListNoDup, hist_from_nodup.
  apply NoDup_Permutation_bis; [|lia|done]. destruct b.
  - eapply NoDup_incl_NoDup; [exact Hlog|lia|]. intros x. by apply exported_all.
  - apply NoDup_ListNoDup. by eapply exported_mem_nodup.
Qed.

Lemma seq_sort_log from es h : es ≡ₚ log_from from h -> seq_sort es = log_from from h.
Proof.
  intros Hp. eapply (StronglySorted_unique_strong seq_le).
  - intros x y Hx Hy H1 H2. unfold seq_le in *. rewrite list_elem_of_In in *.
    rewrite seq_sort_perm, Hp in Hx. apply log_from_in in Hx as [Hx _], Hy as [Hy _].
    eapply hist_from_inj; [exact Hx|exact Hy|lia].
  - apply seq_sort_sorted.
  - apply hist_from_sorted.
  - by rewrite seq_sort_perm.
Qed.

Lemma inline_ops_inline es s :
  (forall x, In x es -> e_vlog x = false) -> inline_ops es s = (Some es, s).
Proof.
  induction es as [|x es IH]; intros Hv; [done|]. cbn [inline_ops].
  rewrite (Hv x) by (by left). rewrite (bind_run _ _ _ _ _ (IH (fun y Hy => Hv y (or_intror Hy)))).
  done.
Qed.

Lemma log_from_inline from h x : In x (log_from from h) -> e_vlog x = false.
Proof. rewrite log_from_in. intros [Hx _]. by eapply hist_inline. Qed.

(** ** The export *)

Definition refusal (include_flushed : bool) : Error :=
  if include_flushed then cdc_incomplete else pitr_incomplete.

(** The export, whether it gathers the whole log or not. *)
Lemma export_ops_spec s h from include_flushed :
  wal_repr s h ->
  (exported from include_flushed s.1 ≡ₚ log_from from h /\
   export_ops from include_flushed s = ((ok_error, log_from from h), s)) \/
  (~ exported from include_flushed s.1 ≡ₚ log_from from h /\
   export_ops from include_flushed s = ((refusal include_flushed, []), s)).
Proof.
  intros Hs. unfold export_ops. rewrite bind_gets, bind_gets.
  pose proof (i_last _ _ _ _ _ _ _ _ _ Hs) as ->. fold (log_start from).
  assert (Hcap : Zlen h < 2 ^ 64)
    by (pose proof (i_cap _ _ _ _ _ _ _ _ _ Hs); unfold kCap in *; lia).
  assert (Hret : forall m : M (Error * list entry),
    m = (res ← inline_ops (log_from from h);
         mret (match res with Some out => (ok_error, out) | None => (pitr_dangling, []) end)) ->
    m s = ((ok_error, log_from from h), s)).
  { intros m ->. rewrite (bind_run _ _ _ _ _ (inline_ops_inline _ s (log_from_inline from h))). done. }
  pose proof (log_start_ge from). pose proof (Zlen_log_from from h) as Hlen.
  set (es := exported from include_flushed s.1) in *.
  assert (Hcount : Zlen (seq_sort es) = Zlen es) by (unfold Zlen; by rewrite seq_sort_perm).
  destruct (log_start from <=? Zlen h) eqn:E; cbn [andb].
  - destruct (complete_run (log_start from) (Zlen h) (seq_sort es)) eqn:Ec; cbn [negb].
    + left. assert (Hp : es ≡ₚ log_from from h).
      { apply exported_perm; [done|]. unfold complete_run in Ec. destruct (seq_sort es); [done|].
        destruct (list.last _); [|done]. rewrite !andb_true_iff in Ec. destruct Ec as [_ Ec].
        rewrite u64_id in Ec by lia. unfold es, Zlen in *. lia. }
      split; [done|]. apply Hret. by rewrite (seq_sort_log from es h Hp).
    + right. split; [|by destruct include_flushed]. intros Hp.
      rewrite (seq_sort_log from es h Hp), log_from_complete in Ec; [done|lia|done].
  - left. assert (Hnil : log_from from h = [])
      by (destruct (log_from from h); [done|unfold Zlen in *; cbn in Hlen; lia]).
    split; [|apply Hret; by rewrite Hnil].
    assert (Hes : forall x, ~ In x es).
    { intros x Hx. apply (exported_in from include_flushed s h x Hs) in Hx. by rewrite Hnil in Hx. }
    rewrite Hnil. destruct es as [|x es']; [done|]. destruct (Hes x). by left.
Qed.

(** The export is exact or refuses.  On a state that holds a history, an
    export from any sequence changes nothing and returns the whole log from
    there on, in commit order, exactly when the gathered versions are that log;
    in every other case it returns the refusal and no operation.  The front,
    back and count test therefore never lets a log with a hole through. *)
Theorem export_ops_exact s h from include_flushed :
  wal_repr s h ->
  (exported from include_flushed s.1 ≡ₚ log_from from h /\
   export_ops from include_flushed s = ((ok_error, log_from from h), s)) \/
  (~ exported from include_flushed s.1 ≡ₚ log_from from h /\
   export_ops from include_flushed s = ((refusal include_flushed, []), s)).
Proof. apply export_ops_spec. Qed.

Lemma export_ops_exact_witness :
  export_ops 3 true demo_state = ((ok_error, log_from 3 demo_ops), demo_state) /\
  (export_ops 1 false demo_state).1 = (pitr_incomplete, []).
Proof.
  split.
  - destruct (export_ops_exact demo_state demo_ops 3 true demo_repr) as [[_ H]|[H _]]; [done|].
    destruct H. apply exported_perm; [apply demo_repr|by vm_compute].
  - by vm_compute.
Defined.

(** ** Branches *)

Definition copy_version (m : Memtable.t) (x : entry) : Memtable.t :=
  Memtable.insert (e_key x) (e_seq x) (e_value x) (e_tomb x) (e_vlog x) m.

(** Copying a run into a memtable whose versions all precede it. *)
Lemma copy_run es : forall m,
  Memtable.wf m -> sorted_run es ->
  (forall x y, In x (Memtable.entries m) -> In y es -> ver_lt x y) ->
  Memtable.wf (fold_left copy_version es m) /\
  forall x, In x (Memtable.entries (fold_left copy_version es m)) <->
            In x (Memtable.entries m) \/ In x es.
Proof.
  induction es as [|e es IH]; intros m Hm Hs Hlt; cbn [fold_left]; [split; [done|]; cbn [In]; tauto|].
  apply StronglySorted_inv in Hs as [Hs Hf]. rewrite List.Forall_forall in Hf.
  assert (He : Entry (e_key e) (e_value e) (e_seq e) (e_tomb e) (e_vlog e) = e) by (by destruct e).
  assert (Hin : forall x, In x (Memtable.entries (copy_version m e)) <->
                          x = e \/ In x (Memtable.entries m)).
  { intros x. unfold copy_version. by rewrite Memtable.insert_entries, He. }
  destruct (IH (copy_version m e)) as [H1 H2]; [|done| |].
  - apply Memtable.insert_wf; [done|]. intros vs v Ha Hv.
    assert (Hx : In (Memtable.entry_of (e_key e) v) (Memtable.entries m)).
    { apply Memtable.in_entries. apply assoc_sorted in Ha; [eauto 10|apply Hm]. }
    destruct (Hlt _ e Hx) as [Hk|[_ Hk]]; [by left| |exact Hk].
    cbn in Hk. by rewrite key_ltb_irrefl in Hk.
  - intros x y Hx Hy. apply Hin in Hx as [->|Hx]; [by apply Hf|]. apply Hlt; [done|by right].
  - split; [done|]. intros x. rewrite H2, Hin. cbn [In]. naive_solver.
Qed.

Lemma fork_repr s h threshold b w :
  wal_repr s h -> fork_branch threshold s.1 = Some b -> wal_repr (b, w) h.
Proof.
  intros Hs Hb. unfold fork_branch in Hb. destruct (value_log_active s.1); [done|].
  injection Hb as <-. destruct Hs as [Hl Hm Ht He Hi Hw Hc Hid Hfr Hr].
  destruct (copy_run (Memtable.entries (mem_ s.1)) Memtable.empty) as [H1 H2];
    [apply Memtable.empty_wf| |done|].
  { apply mem_entries_sorted; apply Hm. }
  constructor; try done. intros x. rewrite <- He.
  change (mem_ (_, w).1) with (fold_left copy_version (Memtable.entries (mem_ s.1)) Memtable.empty).
  rewrite !in_app_iff, H2. split; [intros [[[]|]|]; tauto|tauto].
Qed.

(** Every read of a state is the read of a history. *)
Definition answers (s : engine * io) (h : list op) : Prop :=
  forall k at_, 0 <= at_ -> (get k at_ s).1 = spec_get h k at_.

Lemma repr_answers s h : wal_repr s h -> answers s h.
Proof. intros Hs k at_ Hat. rewrite (get_repr _ h) by done. by apply newest_hist. Qed.

(** Branch isolation.  A branch forked from a state that holds a history
    exists, and after the parent and the branch each run commits of their own,
    on devices of their own, each answers every read with its own history: the
    common prefix is shared and neither sees the other's writes, although they
    share table readers and the parent may compact them away. *)
Theorem fork_branch_isolated `{IDiskFactory} s h threshold w hp hb :
  wal_repr s h -> Zlen (h ++ hp) <= kCap -> Zlen (h ++ hb) <= kCap ->
  exists b, fork_branch threshold s.1 = Some b /\
    answers (run_ops hp s) (h ++ hp) /\ answers (run_ops hb (b, w)) (h ++ hb).
Proof.
  intros Hs Hp Hb.
  assert (Hact : value_log_active s.1 = false) by exact (inv_inactive _ _ _ _ Hs).
  destruct (fork_branch threshold s.1) as [b|] eqn:E;
    [|unfold fork_branch in E; by rewrite Hact in E].
  exists b. pose proof (fork_repr s h threshold b w Hs E) as Hf.
  split_and!; [done|apply repr_answers; by apply run_ops_repr..].
Qed.

Lemma fork_branch_isolated_witness :
  exists b, fork_branch 1 demo_state.1 = Some b /\
    answers (@run_ops default_factory [Put [Byte.x61] [Byte.x07]] demo_state)
            (demo_ops ++ [Put [Byte.x61] [Byte.x07]]) /\
    answers (@run_ops default_factory [Put [Byte.x62] [Byte.x08]] (b, demo_io []))
            (demo_ops ++ [Put [Byte.x62] [Byte.x08]]).
Proof.
  apply (@fork_branch_isolated default_factory demo_state demo_ops 1 (demo_io [])
           [Put [Byte.x61] [Byte.x07]] [Put [Byte.x62] [Byte.x08]]);
    [apply demo_repr|by vm_compute..].
Defined.
