(* ===== verification/WalHazards.v ===== *)
(** WalHazards: executions of the engine (storage/WalEngine.hpp) outside the
    hypotheses of the refinement and recovery theorems.

    The refinement holds for inline values and the default watermark, and
    recovery is shown for the log.  The executions below are the reasons: the
    manifest fold stops after its first record, the value log's write position
    is not the device's after a restart or a torn append, and a merge of some
    of the tables drops a tombstone that still shadows a table outside it. *)

From Stdlib Require Import ZArith Lia.
From stdpp Require Import base list numbers gmap.
From S2P Require Import Prelude Codec Core Disk Mvcc ValueLog WalRecord Memtable Bloom SSTable.
From S2P Require Import SSTableRead SSTableImage Compaction Manifest WalEngine WalScan WalVisit WalInvariant WalRefine.
Import WalEngine.

(** ** The manifest fold *)

Lemma encode_any_length r : (0 < length (encode_any r))%nat.
Proof. unfold encode_any. destruct (m_kind r); apply Nat.ltb_lt; reflexivity. Qed.

(** What recovery makes of one manifest record. *)
Definition fold_one `{IDiskFactory} (r : ManifestRecord) (live : list LiveRec) : M (list LiveRec) :=
  live ← apply_manifest live r;
  modify (upd_lsm (set_tip (m_entry_no r)));;
  mret live.

(** Recovery folds the first manifest record only.  In a manifest whose
    records carry the entry numbers 1, 2, ..., the fold applies record 1 and
    stops at record 2, because the entry number it expects stays 1: no later
    install, obsolete or WAL-truncate record takes effect. *)
Theorem manifest_fold_stops `{IDiskFactory} pre r1 r2 tail live s :
  man_wf r1 -> man_wf r2 -> m_entry_no r1 = 1 -> m_entry_no r2 = 2 ->
  let image := pre ++ encode_any r1 ++ encode_any r2 ++ tail in
  fold_manifest (length image) image (length pre) 1 live s = fold_one r1 live s.
Proof.
  intros H1 H2 E1 E2 image. pose proof (encode_any_length r1). pose proof (encode_any_length r2).
  assert (Hlen : length image = (length pre + length (encode_any r1) + length (encode_any r2) +
                                 length tail)%nat) by (unfold image; rewrite !length_app; lia).
  destruct (length image) as [|[|n]] eqn:Ei; [lia|lia|]. cbn [fold_manifest].
  rewrite Ei, (proj2 (Nat.ltb_lt _ _)) by lia.
  assert (D1 : decode_manifest image (length pre) = Some (r1, length (encode_any r1)))
    by (by apply decode_manifest_encode).
  assert (D2 : decode_manifest image (length pre + length (encode_any r1)) =
               Some (r2, length (encode_any r2))).
  { unfold image. rewrite app_assoc, <- length_app. by apply decode_manifest_encode. }
  rewrite D1, E1. cbn [Z.eqb Pos.eqb negb]. rewrite (proj2 (Nat.ltb_lt _ _)) by lia.
  rewrite D2, E2. cbn [Z.eqb Pos.eqb negb]. unfold fold_one. by rewrite E1.
Qed.

(** The install of a table of three entries, then its WAL truncation. *)
Lemma manifest_fold_stops_witness :
  let r1 := mkManifestRecord Install 1 0 200 1 3 0 in
  let r2 := mkManifestRecord WalTrunc 2 0 0 0 0 3 in
  let image := encode_any r1 ++ encode_any r2 in
  let s := (demo_engine, demo_io []) in
  @fold_manifest default_factory (length image) image 0 1 [] s =
  ([mkLiveRec 0 200 3], (upd_lsm (set_tip 1) (upd_lsm (set_next_id 1) demo_engine), demo_io [])).
Proof.
  apply (@manifest_fold_stops default_factory [] (mkManifestRecord Install 1 0 200 1 3 0)
           (mkManifestRecord WalTrunc 2 0 0 0 0 3) [] [] (demo_engine, demo_io []));
    by repeat split.
Defined.

(** ** Executions *)

(** A power cut: every device keeps its durable bytes. *)
Definition crash_all (w : io) : io :=
  mkIo (crash (wal w)) (crash (man w)) (crash <$> fac w) [].

(** A restart: a newly constructed engine recovers from the devices. *)
Definition restart `{IDiskFactory} (e : engine) (s : state) : Error * state :=
  let w := crash_all s.2 in recover_lsm (logical_len (wal w)) (logical_len (man w)) (e, w).

Definition pair_of (b : byte) : Value := [b; b].

(** Every second version a flush, every second table a merge, values above one
    byte in the value log. *)
Definition vlog_engine : engine :=
  set_value_log 1 kDefaultVlogBaseId (set_compaction_trigger 2 (lsm_engine 1)).

Definition before_restart : state :=
  (sync (@run_ops default_factory
           [Put [Byte.x61] (pair_of Byte.x01); Put [Byte.x62] (pair_of Byte.x02);
            Put [Byte.x63] (pair_of Byte.x03); Put [Byte.x64] (pair_of Byte.x04)]
           (vlog_engine, demo_io []))).2.

Definition after_restart : state := (@restart default_factory vlog_engine before_restart).2.

(** The write generation is reused after a restart.  On faultless devices,
    four synced commits survive a crash; the recovered engine starts its value
    log at the generation the compaction before the crash wrote, at offset
    zero, and the next acknowledged large put cannot be read back. *)
Example vlog_generation_reused :
  (get [Byte.x64] 4 after_restart).1 = Some (pair_of Byte.x04) /\
  vlog_gen_ (vl after_restart.1) = kDefaultVlogBaseId + 1 /\
  vlog_len_ (vl after_restart.1) = 0 /\
  (0 < logical_len (disk_for (kDefaultVlogBaseId + 1) (fac after_restart.2)))%nat /\
  let '(seq, s) := @put default_factory [Byte.x65] (pair_of Byte.x05) after_restart in
  seq = 5 /\ (get [Byte.x65] 5 s).1 = None.
Proof. vm_compute. split_and!; reflexivity || lia. Qed.

(** A torn value-log append displaces the values after it.  The first put's
    value-log append is torn and acknowledged; the second put meets no fault,
    and its value cannot be read back from the running engine, because the
    write position advances by the whole record. *)
Example vlog_torn_append_displaces :
  let '(_, s1) := @put default_factory [Byte.x61] (pair_of Byte.x01)
                    (set_value_log 1 kDefaultVlogBaseId (lsm_engine 8), demo_io [0; 1; 2]) in
  let '(seq, s2) := @put default_factory [Byte.x62] (pair_of Byte.x02)
                      (s1.1, mkIo (wal s1.2) (man s1.2) (fac s1.2) []) in
  seq = 2 /\ (get [Byte.x62] 2 s2).1 = None.
Proof. by vm_compute. Qed.

(** Four keys in one table, a delete and a put in two small ones, every
    snapshot up to the sixth commit released. *)
Definition partly_merged : state :=
  let flush s := (force_flush s).2 in
  let s := flush (@run_ops default_factory
             [Put [Byte.x61] [Byte.x01]; Put [Byte.x62] [Byte.x02];
              Put [Byte.x63] [Byte.x03]; Put [Byte.x64] [Byte.x04]]
             (set_compaction_trigger 2 (lsm_engine 8), demo_io [])) in
  let s := flush (@run_ops default_factory [Del [Byte.x61]] s) in
  let s := flush (@run_ops default_factory [Put [Byte.x65] [Byte.x05]] s) in
  (set_read_watermark 6 s.1, s.2).

(** A merge of some of the tables resurrects a deleted key.  The size-tiered
    choice leaves out the table that holds the key's old version, the merge
    drops the tombstone below the watermark, and a read at the current snapshot
    changes from absent to the old value. *)
Example partial_merge_resurrects :
  (get [Byte.x61] 6 partly_merged).1 = None /\
  (get [Byte.x61] 6 (@force_compact default_factory partly_merged).2).1 = Some [Byte.x01].
Proof. by vm_compute. Qed.
