(* ===== verification/KeyedOp.v ===== *)
(** KeyedOp: the keyed operation carried inside a replicated consensus value
    (storage/KeyedOp.hpp). *)

From Stdlib Require Import ZArith Lia.
From stdpp Require Import base list numbers.
From S2P Require Import Prelude Codec Mvcc.

Record KeyedOp := mkKeyedOp { ko_del : bool; ko_key : Key; ko_value : Value }.

Definition encode_keyed_op (op : KeyedOp) : list byte :=
  let klen := u32 (Zlen (ko_key op)) in
  [if ko_del op then Byte.x01 else Byte.x00] ++
  [bZ (Z.land klen 0xFF); bZ (Z.land (Z.shiftr klen 8) 0xFF);
   bZ (Z.land (Z.shiftr klen 16) 0xFF); bZ (Z.land (Z.shiftr klen 24) 0xFF)] ++
  ko_key op ++ (if ko_del op then [] else ko_value op).

(** [None] where the code returns false. *)
Definition decode_keyed_op (v : list byte) : option KeyedOp :=
  if (length v <? 5)%nat then None
  else
    let type := byte_at v 0 in
    if 1 <? type then None
    else
      let klen := Z.lor (Z.lor (Z.lor (byte_at v 1) (Z.shiftl (byte_at v 2) 8))
                               (Z.shiftl (byte_at v 3) 16)) (Z.shiftl (byte_at v 4) 24) in
      if Zlen v <? 5 + klen then None
      else
        let del := type =? 1 in
        let key := take (Z.to_nat klen) (drop 5 v) in
        let value := drop (5 + Z.to_nat klen) v in
        if del && negb (length value =? 0)%nat then None
        else Some (mkKeyedOp del key value).

Definition keyed_op_wf (op : KeyedOp) : Prop :=
  Zlen (ko_key op) < 2 ^ 32 /\ (ko_del op = true -> ko_value op = []).

(** The length bytes are the little-endian encoding of the shared codec. *)
Lemma encode_put op :
  encode_keyed_op op =
  [if ko_del op then Byte.x01 else Byte.x00] ++ put_u32 (u32 (Zlen (ko_key op))) ++
  ko_key op ++ (if ko_del op then [] else ko_value op).
Proof. unfold encode_keyed_op, put_u32. done. Qed.

Lemma decode_get b rest :
  (4 <= length rest)%nat ->
  decode_keyed_op (b :: rest) =
  if 1 <? Zb b then None
  else if Zlen rest <? 4 + get_u32 rest then None
  else
    let klen := Z.to_nat (get_u32 rest) in
    let value := drop (4 + klen) rest in
    if (Zb b =? 1) && negb (length value =? 0)%nat then None
    else Some (mkKeyedOp (Zb b =? 1) (take klen (drop 4 rest)) value).
Proof.
  intros Hl. unfold decode_keyed_op. rewrite (proj2 (Nat.ltb_ge _ _)) by (cbn; lia).
  change (byte_at (b :: rest) 0) with (Zb b). destruct (1 <? Zb b); [done|].
  change (Z.lor _ (Z.shiftl (byte_at (b :: rest) 4) 24)) with (get_u32 rest).
  replace (Zlen (b :: rest) <? 5 + get_u32 rest) with (Zlen rest <? 4 + get_u32 rest)
    by (unfold Zlen; cbn [length]; destruct (_ <? _) eqn:E; symmetry; lia).
  done.
Qed.

Lemma decode_inv v op :
  decode_keyed_op v = Some op -> keyed_op_wf op /\ v = encode_keyed_op op.
Proof.
  destruct v as [|b rest]; [done|]. intros H.
  assert (Hl : (4 <= length rest)%nat).
  { unfold decode_keyed_op in H. destruct (length (b :: rest) <? 5)%nat eqn:E; [done|]. cbn in E. lia. }
  rewrite decode_get in H by done. pose proof (get_u32_range rest) as Hr.
  destruct (1 <? Zb b) eqn:Eb; [done|]. destruct (Zlen rest <? _) eqn:Er; [done|].
  cbv zeta in H. set (klen := Z.to_nat (get_u32 rest)) in *. set (val := drop (4 + klen) rest) in *.
  destruct ((Zb b =? 1) && negb (length val =? 0)%nat) eqn:Ev; [done|]. injection H as <-.
  assert (Hkl : length (take klen (drop 4 rest)) = klen).
  { rewrite length_take, length_drop. unfold Zlen, klen in *. lia. }
  unfold keyed_op_wf. rewrite encode_put. cbn [ko_del ko_key ko_value].
  assert (Hz : Zlen (take klen (drop 4 rest)) = get_u32 rest)
    by (unfold Zlen; rewrite Hkl; unfold klen; lia).
  assert (Hval : (Zb b =? 1) = true -> val = []).
  { intros E1. rewrite E1 in Ev. apply negb_false_iff, Nat.eqb_eq in Ev. by apply nil_length_inv. }
  rewrite Hz. split; [split; [lia|done]|].
  rewrite u32_id, put_get_u32 by lia.
  assert (Hb : b = if Zb b =? 1 then Byte.x01 else Byte.x00).
  { pose proof (Zb_range b). apply Zb_inj. destruct (Zb b =? 1) eqn:E1; cbn; lia. }
  assert (Hv : val = if Zb b =? 1 then [] else val) by (destruct (Zb b =? 1); auto).
  rewrite <- Hv, <- Hb. cbn [app]. f_equal.
  rewrite <- (take_drop 4 rest) at 1. f_equal.
  rewrite <- (take_drop klen (drop 4 rest)) at 1. f_equal. unfold val. by rewrite drop_drop.
Qed.

Lemma decode_encode op : keyed_op_wf op -> decode_keyed_op (encode_keyed_op op) = Some op.
Proof.
  intros [Hk Hd]. rewrite encode_put. pose proof (Zlen_nonneg (ko_key op)).
  rewrite u32_id by lia. cbn [app].
  rewrite decode_get by (rewrite !length_app, length_put_u32; lia).
  rewrite get_put_u32, u32_id by lia.
  assert (Hb : Zb (if ko_del op then Byte.x01 else Byte.x00) = if ko_del op then 1 else 0)
    by (by destruct (ko_del op)).
  rewrite Hb, (proj2 (Z.ltb_ge _ _)) by (destruct (ko_del op); lia).
  rewrite (proj2 (Z.ltb_ge _ _))
    by (unfold Zlen; rewrite !length_app, length_put_u32; unfold Zlen; lia).
  replace (Z.to_nat (Zlen (ko_key op))) with (length (ko_key op)) by (unfold Zlen; lia). cbv zeta.
  rewrite (Nat.add_comm 4), <- drop_drop.
  change 4%nat with (length (put_u32 (Zlen (ko_key op)))). rewrite drop_drop, Nat.add_comm.
  rewrite <- drop_drop, !drop_app_length, take_app_length.
  destruct op as [[] k v]; cbn [ko_del ko_key ko_value] in *; [by rewrite Hd|done].
Qed.

(** The keyed-operation codec is exact: a committed value decodes to an
    operation exactly when it is that operation's encoding, so every replica
    reads one mutation from one value and refuses every other byte string. *)
Theorem keyed_op_exact v op :
  decode_keyed_op v = Some op <-> keyed_op_wf op /\ v = encode_keyed_op op.
Proof.
  split; [apply decode_inv|]. intros [Hwf ->]. by apply decode_encode.
Qed.
