(* ===== verification/Backup.v ===== *)
(** Backup: logical backup and restore over the engine interface
    (storage/Backup.hpp).

    A backup is a header and the live pairs of one snapshot, framed and
    protected by one CRC.  The definitions are clients of [EngineOps]; the
    theorems use only [EngineSpec], so they hold for a backup taken from any
    engine and restored into any other. *)

From Stdlib Require Import ZArith Lia Sorting.Sorted.
From Stdlib Require Import (notations) String.
From stdpp Require Import base list numbers.
From S2P Require Import Prelude Codec Core Disk Mvcc Oracle.
#[local] Open Scope Z_scope.

Definition kBackupHeaderBytes : nat := 28.
Definition kBackupVersion : Z := 1.

Definition backup_magic : list byte := [Byte.x4c; Byte.x53; Byte.x42; Byte.x31].

Definition backup_magic_ok (p : list byte) : bool := key_eqb (take 4 p) backup_magic.

Definition full_range : Range := mkRange [] [] true.

(** One framed record. *)
Definition encode_kv (kv : Key * Value) : list byte :=
  put_u32 (u32 (Zlen kv.1)) ++ put_u32 (u32 (Zlen kv.2)) ++ kv.1 ++ kv.2.

Definition backup_payload (kvs : list (Key * Value)) : list byte := concat (map encode_kv kvs).

Definition backup_header (at_ : Z) (payload : list byte) : list byte :=
  backup_magic ++ put_u32 kBackupVersion ++ put_u64 at_ ++ put_u64 (Zlen payload) ++
  put_u32 (Crc32.compute payload).

Definition build_backup_image {E} `{EngineOps E} (src : E) (at_ : Z) : list byte :=
  let payload := backup_payload (escan full_range at_ src) in
  backup_header at_ payload ++ payload.

(** ** Validation *)

Definition bad_magic : Error := mkError Corruption "backup: bad magic".
Definition bad_version : Error := mkError InvalidArgument "backup: unsupported version".
Definition bad_length : Error := mkError Corruption "backup: truncated image".
Definition bad_crc : Error := mkError Corruption "backup: CRC mismatch (torn/corrupt backup)".
Definition bad_header : Error := mkError Corruption "backup: truncated record header".
Definition bad_record : Error := mkError Corruption "backup: truncated record".

(** [span::subspan]; [None] where its precondition fails and the behaviour is
    undefined. *)
Definition subspan (l : list byte) (off : nat) (count : Z) : option (list byte) :=
  if Zlen l <? Z.of_nat off + count then None else Some (take (Z.to_nat count) (drop off l)).

(** The framing loop of [validate_image]. *)
Fixpoint validate_records (fuel : nat) (p : list byte) : Error :=
  match fuel, p with
  | _, [] => ok_error
  | O, _ => ok_error
  | S fuel', _ =>
      if (length p <? 8)%nat then bad_header
      else
        let klen := Z.to_nat (get_u32 p) in
        let vlen := Z.to_nat (get_u32 (drop 4 p)) in
        let q := drop 8 p in
        if (length q <? klen + vlen)%nat then bad_record
        else validate_records fuel' (drop (klen + vlen) q)
  end.

(** [validate_image]; the length test adds in 64 bits. *)
Definition validate_image (image : list byte) : option Error :=
  if (length image <? kBackupHeaderBytes)%nat || negb (backup_magic_ok image) then Some bad_magic
  else if negb (get_u32 (drop 4 image) =? kBackupVersion) then Some bad_version
  else
    let payload_len := get_u64 (drop 16 image) in
    let want_crc := get_u32 (drop 24 image) in
    if Zlen image <? u64 (Z.of_nat kBackupHeaderBytes + payload_len) then Some bad_length
    else
      match subspan image kBackupHeaderBytes payload_len with
      | None => None
      | Some payload =>
          if negb (Crc32.compute payload =? want_crc) then Some bad_crc
          else Some (validate_records (length payload) payload)
      end.

(** ** Restore *)

(** The replay loop after validation: no bounds are tested again. *)
Fixpoint replay_records {E} `{EngineOps E} (fuel : nat) (p : list byte) (dst : E) : E :=
  match fuel, p with
  | _, [] => dst
  | O, _ => dst
  | S fuel', _ =>
      let klen := Z.to_nat (get_u32 p) in
      let vlen := Z.to_nat (get_u32 (drop 4 p)) in
      let q := drop 8 p in
      replay_records fuel' (drop (klen + vlen) q)
        (eput (take klen q) (take vlen (drop klen q)) dst).2
  end.

(** [None] where validation is undefined. *)
Definition apply_backup_image {E} `{EngineOps E} (image : list byte) (dst : E)
  : option (Error * E) :=
  match validate_image image with
  | None => None
  | Some e =>
      if negb (err_ok e) then Some (e, dst)
      else
        let payload_len := get_u64 (drop 16 image) in
        match subspan image kBackupHeaderBytes payload_len with
        | None => None
        | Some payload => Some (esync (replay_records (length payload) payload dst))
        end
  end.

(** ** The device path *)

Definition backup_task {E} `{EngineOps E} (src : E) (at_ : Z) (r : rng) (out : disk)
  : Error * disk * rng :=
  let image := build_backup_image src at_ in
  let '(ae, _, out, r) := append image r out in
  if negb (err_ok ae) then (ae, out, r) else Disk.sync r out.

(** The loop of [restore_task]: the bounds are tested record by record, while
    the earlier records are already applied. *)
Fixpoint restore_records {E} `{EngineOps E} (fuel : nat) (p : list byte) (dst : E) : Error * E :=
  match fuel, p with
  | _, [] => esync dst
  | O, _ => esync dst
  | S fuel', _ =>
      if (length p <? 8)%nat then (bad_header, dst)
      else
        let klen := Z.to_nat (get_u32 p) in
        let vlen := Z.to_nat (get_u32 (drop 4 p)) in
        let q := drop 8 p in
        if (length q <? klen + vlen)%nat then (bad_record, dst)
        else restore_records fuel' (drop (klen + vlen) q)
               (eput (take klen q) (take vlen (drop klen q)) dst).2
  end.

Definition restore_task {E} `{EngineOps E} (r : rng) (input : disk) (dst : E) : Error * E * rng :=
  let '(e, hdr, r) := read 0 kBackupHeaderBytes r input in
  if negb (err_ok e) then (e, dst, r)
  else if negb (backup_magic_ok hdr) then (bad_magic, dst, r)
  else if negb (get_u32 (drop 4 hdr) =? kBackupVersion) then (bad_version, dst, r)
  else
    let payload_len := get_u64 (drop 16 hdr) in
    let want_crc := get_u32 (drop 24 hdr) in
    let '(e, payload, r) :=
      if 0 <? payload_len then read kBackupHeaderBytes (Z.to_nat payload_len) r input
      else (ok_error, [], r) in
    if negb (err_ok e) then (e, dst, r)
    else if negb (Crc32.compute payload =? want_crc) then (bad_crc, dst, r)
    else let '(e, dst) := restore_records (length payload) payload dst in (e, dst, r).

(** ** The framing *)

Definition kv_fits (kv : Key * Value) : Prop := Zlen kv.1 < 2 ^ 32 /\ Zlen kv.2 < 2 ^ 32.

Lemma encode_kv_fields kv tail :
  kv_fits kv ->
  let p := encode_kv kv ++ tail in
  Z.to_nat (get_u32 p) = length kv.1 /\ Z.to_nat (get_u32 (drop 4 p)) = length kv.2 /\
  drop 8 p = kv.1 ++ kv.2 ++ tail /\ (8 <= length p)%nat.
Proof.
  intros [H1 H2] p. unfold p, encode_kv. pose proof (Zlen_nonneg kv.1). pose proof (Zlen_nonneg kv.2).
  rewrite <- !app_assoc. skip_fields. rewrite !u32_id; rewrite ?u32_id; try lia.
  unfold Zlen in *. rewrite !Nat2Z.id, !length_app, !length_put_u32. split_and!; done || lia.
Qed.

(** Each loop steps over one framed record. *)
Lemma validate_encoded kv tail fuel :
  kv_fits kv -> validate_records (S fuel) (encode_kv kv ++ tail) = validate_records fuel tail.
Proof.
  intros Hf. destruct (encode_kv_fields kv tail Hf) as (Hk & Hv & Hd & Hl).
  set (p := encode_kv kv ++ tail) in *. destruct p as [|b p'] eqn:Ep; [cbn in Hl; lia|].
  cbn [validate_records]. rewrite Hk, Hv, Hd, (proj2 (Nat.ltb_ge _ _)) by done.
  rewrite (proj2 (Nat.ltb_ge _ _)) by (rewrite !length_app; lia).
  rewrite app_assoc, drop_app_ge by (rewrite length_app; lia).
  by rewrite length_app, Nat.sub_diag.
Qed.

Lemma length_encode_kv kv : (8 <= length (encode_kv kv))%nat.
Proof. unfold encode_kv. rewrite !length_app, !length_put_u32. lia. Qed.

Lemma validate_payload kvs fuel :
  Forall kv_fits kvs -> (length (backup_payload kvs) <= fuel)%nat ->
  validate_records fuel (backup_payload kvs) = ok_error.
Proof.
  intros Hf. revert fuel. induction Hf as [|kv kvs Hkv _ IH]; intros fuel Hl; [by destruct fuel|].
  unfold backup_payload in *. cbn [map concat] in *. rewrite length_app in Hl.
  pose proof (length_encode_kv kv). destruct fuel as [|fuel]; [lia|].
  rewrite validate_encoded by done. apply IH. lia.
Qed.

Section replay.
Context {E : Type} `{HE : EngineSpec E}.

Lemma replay_encoded kv tail fuel (dst : E) :
  kv_fits kv ->
  replay_records (S fuel) (encode_kv kv ++ tail) dst =
  replay_records fuel tail (eput kv.1 kv.2 dst).2.
Proof.
  intros Hf. destruct (encode_kv_fields kv tail Hf) as (Hk & Hv & Hd & Hl).
  set (p := encode_kv kv ++ tail) in *. destruct p as [|b p'] eqn:Ep; [cbn in Hl; lia|].
  cbn [replay_records]. rewrite Hk, Hv, Hd. rewrite take_app_length, drop_app_length.
  rewrite take_app_length, app_assoc, drop_app_ge by (rewrite length_app; lia).
  by rewrite length_app, Nat.sub_diag.
Qed.

Lemma replay_payload kvs : forall fuel (dst : E),
  Forall kv_fits kvs -> (length (backup_payload kvs) <= fuel)%nat ->
  replay_records fuel (backup_payload kvs) dst = erun (puts kvs) dst.
Proof.
  induction kvs as [|kv kvs IH]; intros fuel dst Hf Hl; [by destruct fuel|].
  apply Forall_cons_1 in Hf as [Hkv Hf].
  unfold backup_payload in *. cbn [map concat] in *. rewrite length_app in Hl.
  pose proof (length_encode_kv kv). destruct fuel as [|fuel]; [lia|].
  rewrite replay_encoded, IH by (done || lia). done.
Qed.

(** The device loop agrees with the validated replay on a framed payload. *)
Lemma restore_payload fuel p (dst : E) :
  (length p <= fuel)%nat -> validate_records fuel p = ok_error ->
  restore_records fuel p dst = esync (replay_records fuel p dst).
Proof.
  revert p dst; induction fuel as [|fuel IH]; intros [|b p] dst Hl Hv; try done.
  cbn [validate_records restore_records replay_records] in *.
  destruct (length (b :: p) <? 8)%nat eqn:E1; [done|].
  destruct (length (drop 8 (b :: p)) <? _)%nat eqn:E2; [done|].
  apply IH; [|done]. rewrite !length_drop. cbn in *. lia.
Qed.
End replay.

(** ** Reading the header of a built image *)

Section header.
Context (at_ : Z) (payload : list byte).
Hypothesis Hlen : Zlen payload < 2 ^ 64 - 28.

Notation image := (backup_header at_ payload ++ payload).

Lemma length_header : length (backup_header at_ payload) = 28%nat.
Proof. unfold backup_header. rewrite !length_app, !length_put_u32, !length_put_u64. done. Qed.

Lemma header_version tail : get_u32 (drop 4 (backup_header at_ payload ++ tail)) = kBackupVersion.
Proof.
  unfold backup_header. rewrite <- !app_assoc.
  change (drop 4 (backup_magic ++ ?r)) with r. by rewrite get_put_u32.
Qed.

Lemma header_len tail : get_u64 (drop 16 (backup_header at_ payload ++ tail)) = Zlen payload.
Proof.
  unfold backup_header. rewrite <- !app_assoc.
  change (drop 16 (backup_magic ++ ?r)) with (drop 12 r). skip_fields.
  apply u64_id. pose proof (Zlen_nonneg payload). lia.
Qed.

Lemma header_crc tail :
  get_u32 (drop 24 (backup_header at_ payload ++ tail)) = Crc32.compute payload.
Proof.
  unfold backup_header. rewrite <- !app_assoc.
  change (drop 24 (backup_magic ++ ?r)) with (drop 20 r). skip_fields.
  apply u32_id, Crc32.compute_range.
Qed.

(** What validation does after a sound header in front of [p]. *)
Lemma validate_header p :
  length p = length payload ->
  validate_image (backup_header at_ payload ++ p) =
  Some (if negb (Crc32.compute p =? Crc32.compute payload) then bad_crc
        else validate_records (length p) p).
Proof.
  intros Hp. pose proof (Zlen_nonneg payload) as Hz. unfold validate_image.
  rewrite header_version, header_len, header_crc, Z.eqb_refl.
  rewrite (proj2 (Nat.ltb_ge _ _)) by (rewrite length_app, length_header; unfold kBackupHeaderBytes; lia).
  replace (backup_magic_ok _) with true by done. cbn [orb negb].
  change (Z.of_nat kBackupHeaderBytes) with 28. rewrite u64_id by lia.
  assert (Hl : Zlen (backup_header at_ payload ++ p) = 28 + Zlen payload)
    by (unfold Zlen in *; rewrite length_app, length_header; lia).
  unfold subspan. change (Z.of_nat kBackupHeaderBytes) with 28. rewrite Hl, Z.ltb_irrefl.
  rewrite drop_app_ge, length_header, Nat.sub_diag, drop_0 by (rewrite length_header; done).
  rewrite take_ge by (unfold Zlen; lia). by destruct (negb _).
Qed.
End header.

(** ** Committing the pairs of a scan *)

Lemma puts_replay k kvs : forall acc,
  key_sorted kvs ->
  fold_left (fun acc o => if key_eqb (op_key o) k then op_value o else acc) (puts kvs) acc =
  match assoc k kvs with Some v => Some v | None => acc end.
Proof.
  induction kvs as [|[k' v'] kvs IH]; intros acc Hs; [done|].
  pose proof (key_sorted_cons_inv _ _ _ Hs) as [Hs' Hlt].
  cbn [puts map fold_left op_key op_value fst snd assoc]. fold (puts kvs). rewrite IH by done.
  destruct (key_eqb_spec k' k) as [->|Hne]; cbn.
  - destruct (assoc k kvs) as [v|] eqn:E; [|done].
    apply assoc_sorted in E; [|done]. apply Hlt in E. by rewrite key_ltb_irrefl in E.
  - done.
Qed.

Lemma puts_scan kvs : key_sorted kvs -> spec_scan (puts kvs) full_range (Zlen kvs) kvs.
Proof.
  intros Hs. split; [done|]. intros k v. unfold spec_get.
  rewrite take_ge by (unfold puts, Zlen; rewrite length_map; lia).
  unfold replay_key. rewrite puts_replay by done. rewrite <- (assoc_sorted k v kvs) by done.
  replace (in_range full_range k) with true by (unfold in_range; cbn; by rewrite key_ltb_nil_r).
  destruct (assoc k kvs); naive_solver.
Qed.

(** ** Properties *)

(** The backup of a snapshot fits the stream's fields and the target. *)
Record backup_ok {E F} `{EngineOps E} `{EngineSpec F} (src : E) (at_ : Z) : Prop := {
  bo_kvs : Forall kv_fits (escan full_range at_ src);
  bo_len : Zlen (backup_payload (escan full_range at_ src)) < 2 ^ 64 - 28;
  bo_cap : Zlen (escan full_range at_ src) <= capacity (E := F)
}.
Arguments backup_ok {E} F {_ _ _} src at_.

Section restore.
Context {E F : Type} `{HE : EngineSpec E} `{HF : EngineSpec F}.
Context (src : E) (h : list op) (at_ : Z) (dst : F).
Hypothesis Hsrc : repr src h.
Hypothesis Hat : 0 <= at_.
Hypothesis Hok : backup_ok F src at_.

Notation kvs := (escan full_range at_ src).

(** The restored engine. *)
Definition restored : Error * F := esync (erun (puts kvs) dst).

Lemma apply_built : apply_backup_image (build_backup_image src at_) dst = Some restored.
Proof.
  destruct Hok as [Hf Hl _]. unfold apply_backup_image, build_backup_image.
  rewrite validate_header, Z.eqb_refl, validate_payload by done. cbn [negb err_ok ok_error code].
  rewrite header_len by done. unfold subspan. change (Z.of_nat kBackupHeaderBytes) with 28.
  assert (Hl2 : Zlen (backup_header at_ (backup_payload kvs) ++ backup_payload kvs) =
                28 + Zlen (backup_payload kvs))
    by (unfold Zlen; rewrite length_app, length_header; lia).
  rewrite Hl2, Z.ltb_irrefl. rewrite drop_app_ge, length_header, Nat.sub_diag, drop_0
    by (rewrite length_header; done).
  rewrite take_ge by (unfold Zlen; lia). by rewrite replay_payload.
Qed.

Lemma restored_scan :
  repr dst [] -> escan full_range (esnapshot restored.2) restored.2 = kvs.
Proof.
  intros Hd. pose proof (scan_spec src h full_range at_ Hsrc Hat) as Hscan.
  assert (Hr : repr restored.2 (puts kvs)).
  { apply sync_keeps. apply (erun_repr (puts kvs) dst [] Hd). destruct Hok as [_ _ Hc].
    cbn [app]. unfold puts, Zlen in *. by rewrite length_map. }
  rewrite (snapshot_spec _ _ Hr).
  replace (Zlen (puts kvs)) with (Zlen kvs) by (unfold puts, Zlen; by rewrite length_map).
  eapply spec_scan_unique; [apply scan_spec; [exact Hr|apply Zlen_nonneg]|].
  apply puts_scan, Hscan.
Qed.

(** The device path reads the same header and payload. *)
Lemma restore_built d :
  image_of d = build_backup_image src at_ -> rotted_offsets d = [] ->
  restore_task [] d dst = (restored.1, restored.2, []).
Proof.
  intros Himg Hrot. destruct Hok as [Hf Hl _]. set (p := backup_payload kvs) in *.
  pose proof (length_header at_ p) as Hh.
  assert (Hlog : logical_len d = (28 + length p)%nat)
    by (rewrite <- length_image, Himg; unfold build_backup_image; fold p; by rewrite length_app, Hh).
  unfold restore_task. rewrite read_honest by (done || rewrite Hlog; unfold kBackupHeaderBytes; lia).
  rewrite Himg. unfold build_backup_image. fold p. rewrite drop_0.
  rewrite take_app_le, take_ge by (rewrite Hh; done). cbn [err_ok ok_error code negb].
  replace (backup_magic_ok (backup_header at_ p)) with true by done. cbn [negb].
  rewrite <- (app_nil_r (backup_header at_ p)). rewrite header_version, header_len, header_crc by done.
  rewrite Z.eqb_refl. cbn [negb].
  assert (Hread : (if 0 <? Zlen p then read kBackupHeaderBytes (Z.to_nat (Zlen p)) [] d
                   else (ok_error, [], [])) = (ok_error, p, [])).
  { destruct (0 <? Zlen p) eqn:E0.
    - rewrite read_honest by (done || rewrite Hlog; unfold kBackupHeaderBytes, Zlen; lia).
      rewrite Himg. unfold build_backup_image. fold p.
      rewrite drop_app_ge, Hh, Nat.sub_diag, drop_0, take_ge by (rewrite ?Hh; unfold Zlen; done || lia).
      done.
    - assert (p = []) as ->; [|done]. destruct p; [done|]. unfold Zlen in E0. cbn in E0. lia. }
  rewrite Hread. cbn [err_ok ok_error code negb]. rewrite Z.eqb_refl. cbn [negb].
  unfold p. rewrite restore_payload by (done || by apply validate_payload).
  rewrite replay_payload by done. change (esync (erun (puts kvs) dst)) with restored. by destruct restored.
Qed.
End restore.

(** Backup and restore round-trip.  The image of any engine's snapshot is
    accepted, and restoring it into any fresh engine, from memory or from a
    device that wrote it faultlessly and crashed, yields the engine's own sync
    result and a state whose live pairs are exactly the pairs of the
    snapshot. *)
Theorem backup_roundtrip {E F} `{EngineSpec E} `{EngineSpec F} (src : E) h at_ (dst : F) :
  repr src h -> 0 <= at_ -> repr dst [] -> backup_ok F src at_ ->
  exists err dst' d,
    apply_backup_image (build_backup_image src at_) dst = Some (err, dst') /\
    backup_task src at_ [] empty_disk = (ok_error, d, []) /\
    restore_task [] (crash d) dst = (err, dst', []) /\
    escan full_range (esnapshot dst') dst' = escan full_range at_ src.
Proof.
  intros Hs Hat Hd Hok. exists (restored src at_ dst).1, (restored src at_ dst).2.
  eexists. split_and!.
  - rewrite apply_built by done. by destruct (restored src at_ dst).
  - unfold backup_task. rewrite append_honest. cbn [err_ok ok_error code negb]. apply sync_honest.
  - apply restore_built; [done| |done]. unfold image_of. cbn. by rewrite app_nil_r.
  - by eapply restored_scan.
Qed.

(** A damaged backup is refused whole.  A truncated image, or one whose
    payload differs from what was written inside one window of at most four
    bytes, is rejected with an error and the target is untouched. *)
Theorem backup_rejects_damage {E F} `{EngineOps E} `{EngineSpec F} (src : E) at_ (dst : F) :
  backup_ok F src at_ ->
  let image := build_backup_image src at_ in
  (forall n, (n < length image)%nat ->
     exists err, apply_backup_image (take n image) dst = Some (err, dst) /\ err_ok err = false) /\
  (forall p w v q, backup_payload (escan full_range at_ src) = p ++ w ++ q ->
     length w = length v -> (length w <= 4)%nat -> w <> v ->
     apply_backup_image (backup_header at_ (p ++ w ++ q) ++ p ++ v ++ q) dst = Some (bad_crc, dst)).
Proof.
  intros [_ Hl _] image. set (pl := backup_payload (escan full_range at_ src)) in *. split.
  - intros n Hn. unfold image, build_backup_image in *. fold pl in Hn |- *.
    rewrite length_app, (length_header at_ pl) in Hn. unfold apply_backup_image, validate_image.
    destruct (Nat.lt_ge_cases n 28) as [Hlt|Hge].
    + rewrite (proj2 (Nat.ltb_lt _ _)) by (rewrite length_take, length_app, (length_header at_ pl);
        unfold kBackupHeaderBytes; lia). by exists bad_magic.
    + rewrite take_app_ge, (length_header at_ pl) by (rewrite (length_header at_ pl); lia).
      set (t := take (n - 28) pl). rewrite header_version, header_len by done.
      assert (Ht : (length t < length pl)%nat) by (unfold t; rewrite length_take; lia).
      rewrite (proj2 (Nat.ltb_ge _ _))
        by (rewrite length_app, (length_header at_ pl); unfold kBackupHeaderBytes; lia).
      replace (backup_magic_ok _) with true by done. cbn [orb negb]. rewrite Z.eqb_refl. cbn [negb].
      change (Z.of_nat kBackupHeaderBytes) with 28. pose proof (Zlen_nonneg pl).
      rewrite u64_id by lia. rewrite (proj2 (Z.ltb_lt _ _)); [by exists bad_length|].
      unfold Zlen in *. rewrite length_app, (length_header at_ pl). lia.
  - intros p w v q Epl Hw H4 Hne. unfold apply_backup_image. rewrite <- Epl in *.
    rewrite validate_header; [|done|rewrite Epl, !length_app; lia].
    pose proof (Crc32.compute_window p w v q Hw H4 Hne) as Hc. rewrite <- Epl in Hc.
    rewrite (proj2 (Z.eqb_neq _ _)) by congruence. done.
Qed.

(** ** Witnesses *)

Definition demo_source : Oracle.t :=
  Oracle.run [Put [Byte.x61] [Byte.x01]; Put [Byte.x62] [Byte.x02]; Del [Byte.x61]].

Lemma demo_backup_ok : backup_ok Oracle.t demo_source 2.
Proof. split; [by repeat constructor|by vm_compute..]. Qed.

Lemma backup_roundtrip_witness :
  exists err (dst' : Oracle.t) d,
    apply_backup_image (build_backup_image demo_source 2) Oracle.empty = Some (err, dst') /\
    backup_task demo_source 2 [] empty_disk = (ok_error, d, []) /\
    restore_task [] (crash d) Oracle.empty = (err, dst', []) /\
    escan full_range (esnapshot dst') dst' = escan full_range 2 demo_source.
Proof.
  apply (backup_roundtrip demo_source
           [Put [Byte.x61] [Byte.x01]; Put [Byte.x62] [Byte.x02]; Del [Byte.x61]] 2 Oracle.empty).
  - by apply Oracle.run_rep; vm_compute.
  - done.
  - apply Oracle.rep_empty.
  - apply demo_backup_ok.
Defined.

Lemma backup_rejects_damage_witness :
  exists err, apply_backup_image (take 30 (build_backup_image demo_source 2)) Oracle.empty =
              Some (err, Oracle.empty) /\ err_ok err = false.
Proof.
  apply (proj1 (backup_rejects_damage demo_source 2 Oracle.empty demo_backup_ok) 30%nat).
  vm_compute. lia.
Defined.

(** ** Divergences *)

(** A header whose payload length wraps the 64-bit length test. *)
Definition wrapping_image : list byte :=
  backup_magic ++ put_u32 kBackupVersion ++ put_u64 0 ++ put_u64 (2 ^ 64 - 28) ++ put_u32 0.

(** The length test passes on a wrapped sum and the span that follows is
    undefined. *)
Example validate_image_wraps : validate_image wrapping_image = None.
Proof. by vm_compute. Qed.

(** A payload with a sound CRC, one whole record and a torn one. *)
Definition half_framed : list byte := encode_kv ([Byte.x61], [Byte.x01]) ++ [Byte.x00; Byte.x00].

Definition half_framed_image : list byte := backup_header 0 half_framed ++ half_framed.

(** The in-memory path refuses it and leaves the target alone; the device path
    reports the error after the first record is committed. *)
Example restore_task_applies_prefix :
  apply_backup_image half_framed_image Oracle.empty = Some (bad_header, Oracle.empty) /\
  let '(err, dst, _) := restore_task [] (mkDisk half_framed_image [] [] [] false) Oracle.empty in
  err = bad_header /\ escan full_range 1 dst = [([Byte.x61], [Byte.x01])].
Proof. by vm_compute. Qed.
