(* ===== verification/StateHash.v ===== *)
(** StateHash: the cross-replica keyspace hash (storage/StateHash.hpp).

    A replica's fingerprint is the payload CRC and length of its backup image.
    The comparison raises an alarm exactly on a fingerprint mismatch; replicas
    that applied one history never differ, and a replica whose keyspace
    differs in one short run of bytes always does. *)

From Stdlib Require Import ZArith Lia.
From stdpp Require Import base list numbers.
From S2P Require Import Prelude Codec Core Disk Mvcc Oracle Backup.

Record KeyspaceHash := mkKeyspaceHash { kh_crc : Z; kh_at : Z; kh_payload_len : Z }.

Definition keyspace_hash {E} `{EngineOps E} (e : E) (at_ : Z) : KeyspaceHash :=
  let image := build_backup_image e at_ in
  if (kBackupHeaderBytes <=? length image)%nat
  then mkKeyspaceHash (get_u32 (drop 24 image)) at_ (get_u64 (drop 16 image))
  else mkKeyspaceHash 0 at_ 0.

Record ReplicaHash := mkReplicaHash { rh_node : list byte; rh_hash : KeyspaceHash }.

Record HashDivergence := mkHashDivergence {
  hd_ref : nat;
  hd_other : nat;
  hd_ref_node : list byte;
  hd_other_node : list byte;
  hd_ref_crc : Z;
  hd_other_crc : Z;
  hd_at : Z
}.

Definition hash_differs (ref o : ReplicaHash) : bool :=
  negb (kh_crc (rh_hash o) =? kh_crc (rh_hash ref)) ||
  negb (kh_payload_len (rh_hash o) =? kh_payload_len (rh_hash ref)).

Fixpoint scan_replicas (ref : ReplicaHash) (i : nat) (rs : list ReplicaHash)
  : option HashDivergence :=
  match rs with
  | [] => None
  | o :: rs' =>
      if hash_differs ref o
      then Some (mkHashDivergence 0 i (rh_node ref) (rh_node o) (kh_crc (rh_hash ref))
                   (kh_crc (rh_hash o)) (kh_at (rh_hash ref)))
      else scan_replicas ref (S i) rs'
  end.

Definition find_hash_divergence (replicas : list ReplicaHash) : option HashDivergence :=
  match replicas with
  | ref :: o :: rs => scan_replicas ref 1 (o :: rs)
  | _ => None
  end.

(** ** The comparison *)

Lemma scan_replicas_none ref i rs :
  scan_replicas ref i rs = None <-> forall o, In o rs -> hash_differs ref o = false.
Proof.
  revert i; induction rs as [|o rs IH]; intros i; cbn [scan_replicas]; [done|].
  destruct (hash_differs ref o) eqn:E.
  - split; [done|]. intros H. specialize (H o (or_introl eq_refl)). congruence.
  - rewrite IH. cbn [In]. naive_solver.
Qed.

Lemma find_none ref rs :
  find_hash_divergence (ref :: rs) = None <-> forall o, In o rs -> hash_differs ref o = false.
Proof. destruct rs as [|o rs]; [done|]. apply (scan_replicas_none ref 1 (o :: rs)). Qed.

(** ** Fingerprints of engines *)

Lemma keyspace_hash_eq {E} `{EngineOps E} (e : E) at_ :
  let payload := backup_payload (escan full_range at_ e) in
  Zlen payload < 2 ^ 64 - 28 ->
  keyspace_hash e at_ = mkKeyspaceHash (Crc32.compute payload) at_ (Zlen payload).
Proof.
  intros payload Hl. unfold keyspace_hash, build_backup_image. fold payload.
  rewrite header_crc, header_len, length_app, length_header by done. done.
Qed.

Definition report {E} `{EngineOps E} (at_ : Z) (replica : list byte * E) : ReplicaHash :=
  mkReplicaHash replica.1 (keyspace_hash replica.2 at_).

(** The corrupt check.  Replicas that hold one committed history, whatever
    engine each runs, never raise an alarm; and when the live pairs of some
    replica differ from the first one's in one window of at most four encoded
    bytes, the check does raise one. *)
Theorem corrupt_check {E} `{EngineSpec E} at_ (n0 : list byte) (e0 : E) reps :
  0 <= at_ ->
  (forall h, (forall ne, In ne ((n0, e0) :: reps) -> repr ne.2 h) ->
     find_hash_divergence (map (report at_) ((n0, e0) :: reps)) = None) /\
  (forall ne p w v q, In ne reps ->
     backup_payload (escan full_range at_ e0) = p ++ w ++ q ->
     backup_payload (escan full_range at_ ne.2) = p ++ v ++ q ->
     Zlen (p ++ w ++ q) < 2 ^ 64 - 28 ->
     length w = length v -> (length w <= 4)%nat -> w <> v ->
     find_hash_divergence (map (report at_) ((n0, e0) :: reps)) <> None).
Proof.
  intros Hat. split.
  - intros h Hr. apply find_none. intros o Ho. apply in_map_iff in Ho as ([n e] & <- & Hin).
    assert (E1 : escan full_range at_ e = escan full_range at_ e0).
    { eapply spec_scan_unique; (apply (scan_spec _ h); [|done]);
        [apply (Hr (n, e)); by right|apply (Hr (n0, e0)); by left]. }
    unfold hash_differs, report, keyspace_hash, build_backup_image. cbn [rh_hash fst snd].
    rewrite E1. by rewrite !Z.eqb_refl.
  - intros [n e] p w v q Hin E0 E1 Hl Hw H4 Hne Hnone. cbn [snd] in E1.
    pose proof (proj1 (find_none _ _) Hnone (report at_ (n, e))
                  (in_map (report at_) reps (n, e) Hin)) as Hd.
    assert (Hl' : Zlen (p ++ v ++ q) < 2 ^ 64 - 28)
      by (unfold Zlen in *; rewrite !length_app in *; lia).
    unfold hash_differs, report in Hd. cbn [rh_hash fst snd] in Hd.
    rewrite !keyspace_hash_eq in Hd by (by rewrite ?E0, ?E1).
    rewrite E0, E1 in Hd. cbn [kh_crc] in Hd. apply orb_false_iff in Hd as [Hd _].
    apply negb_false_iff, Z.eqb_eq in Hd. by eapply Crc32.compute_window.
Qed.

Lemma corrupt_check_witness :
  let clean := Oracle.run [Put [Byte.x61] [Byte.x01]] in
  let rotten := Oracle.run [Put [Byte.x61] [Byte.x03]] in
  find_hash_divergence (map (report 1) [([], clean); ([], clean)]) = None /\
  find_hash_divergence (map (report 1) [([], clean); ([], rotten)]) <> None.
Proof.
  split.
  - apply (corrupt_check 1 [] (Oracle.run [Put [Byte.x61] [Byte.x01]])
             [([], Oracle.run [Put [Byte.x61] [Byte.x01]])]) with (h := [Put [Byte.x61] [Byte.x01]]);
      [done|]. intros ne [<-|[<-|[]]]; by apply Oracle.run_rep.
  - eapply (corrupt_check 1 [] (Oracle.run [Put [Byte.x61] [Byte.x01]])
             [([], Oracle.run [Put [Byte.x61] [Byte.x03]])])
      with (p := take 9 (backup_payload [([Byte.x61], [Byte.x01])])) (w := [Byte.x01])
           (v := [Byte.x03]) (q := []);
      [done|by left|by vm_compute|by vm_compute|by vm_compute|done|cbn; lia|done].
Defined.
