(* ===== verification/Pitr.v ===== *)
(** Pitr: point-in-time recovery archives (storage/Pitr.hpp).

    An archive is the exported op-log of a [WalEngine] with one CRC; a restore
    validates all of it (CRC, framing, contiguous sequences, count) and then
    commits the operations up to the target into any engine. *)

From Stdlib Require Import ZArith Lia Sorting.Sorted.
From Stdlib Require Import (notations) String.
From stdpp Require Import base list numbers gmap.
From S2P Require Import Prelude Codec Core Disk Mvcc Oracle Memtable SSTable Manifest WalEngine WalScan.
From S2P Require Import WalInvariant WalRefine WalRecover WalExport Backup.
Import WalEngine.
#[local] Open Scope Z_scope.

Definition kPitrHeaderBytes : nat := 44.
Definition kPitrVersion : Z := 1.
Definition kPitrRecordHeaderBytes : nat := 17.

Definition pitr_magic : list byte := [Byte.x4c; Byte.x57; Byte.x41; Byte.x31].

Definition pitr_magic_ok (p : list byte) : bool := key_eqb (take 4 p) pitr_magic.

Definition op_type (x : entry) : byte := if e_tomb x then Byte.x01 else Byte.x00.
Definition op_body (x : entry) : Value := if e_tomb x then [] else e_value x.

Definition encode_op (x : entry) : list byte :=
  put_u64 (e_seq x) ++ [op_type x] ++ put_u32 (u32 (Zlen (e_key x))) ++
  put_u32 (u32 (Zlen (op_body x))) ++ e_key x ++ op_body x.

Definition archive_payload (ops : list entry) : list byte := concat (map encode_op ops).

Definition first_seq (ops : list entry) : Z := match ops with [] => 0 | x :: _ => e_seq x end.
Definition last_seq (ops : list entry) : Z :=
  match list.last ops with None => 0 | Some x => e_seq x end.

Definition archive_header (from_seq to_seq count : Z) (payload : list byte) : list byte :=
  pitr_magic ++ put_u32 kPitrVersion ++ put_u64 from_seq ++ put_u64 to_seq ++ put_u64 count ++
  put_u64 (Zlen payload) ++ put_u32 (Crc32.compute payload).

Definition build_archive_image (ops : list entry) : list byte :=
  let payload := archive_payload ops in
  archive_header (first_seq ops) (last_seq ops) (Zlen ops) payload ++ payload.

(** ** Validation *)

Definition pitr_bad_magic : Error := mkError Corruption "pitr: bad magic".
Definition pitr_bad_version : Error := mkError InvalidArgument "pitr: unsupported version".
Definition pitr_truncated : Error := mkError Corruption "pitr: truncated image".
Definition pitr_bad_crc : Error := mkError Corruption "pitr: CRC mismatch (torn/corrupt archive)".
Definition pitr_bad_header : Error := mkError Corruption "pitr: truncated record header".
Definition pitr_bad_type : Error := mkError Corruption "pitr: bad record type".
Definition pitr_bad_record : Error := mkError Corruption "pitr: truncated record".
Definition pitr_gap : Error := mkError Corruption "pitr: non-contiguous op Seq".
Definition pitr_bad_count : Error := mkError Corruption "pitr: record count mismatch".
Definition pitr_bad_to : Error := mkError Corruption "pitr: to_seq mismatch".
Definition pitr_beyond : Error := mkError InvalidArgument "pitr: target beyond archive".

(** The record loop: the error, or the count and the last sequence seen. *)
Fixpoint validate_ops (fuel : nat) (p : list byte) (from seen prev : Z) : Error + Z * Z :=
  match fuel, p with
  | _, [] => inr (seen, prev)
  | O, _ => inr (seen, prev)
  | S fuel', _ =>
      if (length p <? kPitrRecordHeaderBytes)%nat then inl pitr_bad_header
      else
        let seq := get_u64 p in
        let type := byte_at p 8 in
        let klen := Z.to_nat (get_u32 (drop 9 p)) in
        let vlen := Z.to_nat (get_u32 (drop 13 p)) in
        if 1 <? type then inl pitr_bad_type
        else
          let q := drop kPitrRecordHeaderBytes p in
          if (length q <? klen + vlen)%nat then inl pitr_bad_record
          else
            let want := if seen =? 0 then from else u64 (prev + 1) in
            if negb (seq =? want) then inl pitr_gap
            else validate_ops fuel' (drop (klen + vlen) q) from (u64 (seen + 1)) seq
  end.

(** [None] where the span is undefined, as in the backup. *)
Definition validate_archive_image (image : list byte) : option Error :=
  if (length image <? kPitrHeaderBytes)%nat || negb (pitr_magic_ok image) then Some pitr_bad_magic
  else if negb (get_u32 (drop 4 image) =? kPitrVersion) then Some pitr_bad_version
  else
    let from_seq := get_u64 (drop 8 image) in
    let to_seq := get_u64 (drop 16 image) in
    let count := get_u64 (drop 24 image) in
    let payload_len := get_u64 (drop 32 image) in
    let want_crc := get_u32 (drop 40 image) in
    if Zlen image <? u64 (Z.of_nat kPitrHeaderBytes + payload_len) then Some pitr_truncated
    else
      match subspan image kPitrHeaderBytes payload_len with
      | None => None
      | Some payload =>
          if negb (Crc32.compute payload =? want_crc) then Some pitr_bad_crc
          else
            Some match validate_ops (length payload) payload from_seq 0 0 with
                 | inl e => e
                 | inr (seen, prev) =>
                     if negb (seen =? count) then pitr_bad_count
                     else if negb (seen =? 0) && negb (prev =? to_seq) then pitr_bad_to
                     else ok_error
                 end
      end.

(** ** Restore *)

Fixpoint replay_ops {E} `{EngineOps E} (fuel : nat) (p : list byte) (target : Z) (dst : E) : E :=
  match fuel, p with
  | _, [] => dst
  | O, _ => dst
  | S fuel', _ =>
      let seq := get_u64 p in
      let type := byte_at p 8 in
      let klen := Z.to_nat (get_u32 (drop 9 p)) in
      let vlen := Z.to_nat (get_u32 (drop 13 p)) in
      let q := drop kPitrRecordHeaderBytes p in
      let key := take klen q in
      let val := take vlen (drop klen q) in
      if target <? seq then dst
      else
        replay_ops fuel' (drop (klen + vlen) q) target
          (if type =? 1 then (edel key dst).2 else (eput key val dst).2)
  end.

Definition apply_archive_image {E} `{EngineOps E} (image : list byte) (target : Z) (dst : E)
  : option (Error * E) :=
  match validate_archive_image image with
  | None => None
  | Some e =>
      if negb (err_ok e) then Some (e, dst)
      else
        let to_seq := get_u64 (drop 16 image) in
        let payload_len := get_u64 (drop 32 image) in
        if to_seq <? target then Some (pitr_beyond, dst)
        else
          match subspan image kPitrHeaderBytes payload_len with
          | None => None
          | Some payload => Some (esync (replay_ops (length payload) payload target dst))
          end
  end.

(** [archive_bytes_task]: [None] where the output buffer is left alone. *)
Definition archive_bytes (from_seq : Z) : M (Error * option (list byte)) :=
  res ← export_ops from_seq false;
  mret (if negb (err_ok res.1) then (res.1, None)
        else (ok_error, Some (build_archive_image res.2))).

(** [archive_task]: the same image on a device. *)
Definition archive_task (from_seq : Z) (r : rng) (out : disk) (s : state) : Error * disk * rng :=
  let res := (export_ops from_seq false s).1 in
  if negb (err_ok res.1) then (res.1, out, r)
  else
    let '(ae, _, out, r) := append (build_archive_image res.2) r out in
    if negb (err_ok ae) then (ae, out, r) else Disk.sync r out.

(** [restore_task]: the header, then the payload it names. *)
Definition restore_archive {E} `{EngineOps E} (r : rng) (input : disk) (target : Z) (dst : E)
  : option (Error * E) * rng :=
  let '(e, hdr, r) := read 0 kPitrHeaderBytes r input in
  if negb (err_ok e) then (Some (e, dst), r)
  else if negb (pitr_magic_ok hdr) then (Some (pitr_bad_magic, dst), r)
  else if negb (get_u32 (drop 4 hdr) =? kPitrVersion) then (Some (pitr_bad_version, dst), r)
  else
    let payload_len := get_u64 (drop 32 hdr) in
    let '(e, payload, r) :=
      if 0 <? payload_len then read kPitrHeaderBytes (Z.to_nat payload_len) r input
      else (ok_error, [], r) in
    if negb (err_ok e) then (Some (e, dst), r)
    else (apply_archive_image (hdr ++ payload) target dst, r).

(** ** The framing *)

Definition op_ok (x : entry) : Prop :=
  0 <= e_seq x < 2 ^ 64 /\ Zlen (e_key x) < 2 ^ 32 /\ Zlen (e_value x) < 2 ^ 32.

Lemma encode_op_fields x tail :
  op_ok x ->
  let p := encode_op x ++ tail in
  get_u64 p = e_seq x /\ byte_at p 8 = (if e_tomb x then 1 else 0) /\
  Z.to_nat (get_u32 (drop 9 p)) = length (e_key x) /\
  Z.to_nat (get_u32 (drop 13 p)) = length (op_body x) /\
  drop 17 p = e_key x ++ op_body x ++ tail /\ (17 <= length p)%nat.
Proof.
  intros (Hs & Hk & Hv) p. unfold p, encode_op. rewrite <- !app_assoc.
  assert (Hb : Zlen (op_body x) < 2 ^ 32)
    by (unfold op_body; destruct (e_tomb x); [done|exact Hv]).
  pose proof (Zlen_nonneg (e_key x)). pose proof (Zlen_nonneg (op_body x)).
  assert (Ht : byte_at (put_u64 (e_seq x) ++ [op_type x] ++
             put_u32 (u32 (Zlen (e_key x))) ++ put_u32 (u32 (Zlen (op_body x))) ++
             e_key x ++ op_body x ++ tail) 8 = if e_tomb x then 1 else 0).
  { change 8%nat with (8 + 0)%nat. rewrite <- byte_at_drop.
    change 8%nat with (length (put_u64 (e_seq x))) at 1. rewrite drop_app_length.
    unfold op_type. by destruct (e_tomb x). }
  rewrite Ht. skip_fields. rewrite !u32_id, u64_id; rewrite ?u32_id; try lia.
  unfold Zlen. rewrite !Nat2Z.id, !length_app, length_put_u64, !length_put_u32.
  split_and!; done || (cbn; lia).
Qed.

Lemma length_encode_op x : (17 <= length (encode_op x))%nat.
Proof.
  unfold encode_op. rewrite !length_app, length_put_u64, !length_put_u32. cbn [length]. lia.
Qed.

(** Each loop steps over one framed operation. *)
Lemma validate_encoded_op x tail fuel from seen prev :
  op_ok x -> e_seq x = (if seen =? 0 then from else u64 (prev + 1)) ->
  validate_ops (S fuel) (encode_op x ++ tail) from seen prev =
  validate_ops fuel tail from (u64 (seen + 1)) (e_seq x).
Proof.
  intros Hx Hw. destruct (encode_op_fields x tail Hx) as (Hs & Ht & Hk & Hv & Hd & Hl).
  set (p := encode_op x ++ tail) in *. destruct p as [|b p'] eqn:Ep; [cbn in Hl; lia|].
  cbn [validate_ops]. unfold kPitrRecordHeaderBytes.
  rewrite Hs, Ht, Hk, Hv, Hd, (proj2 (Nat.ltb_ge _ _)) by done.
  rewrite (proj2 (Z.ltb_ge _ _)) by (destruct (e_tomb x); lia).
  rewrite (proj2 (Nat.ltb_ge _ _)) by (rewrite !length_app; lia).
  rewrite <- Hw, Z.eqb_refl. cbn [negb].
  rewrite app_assoc, drop_app_ge by (rewrite length_app; lia).
  by rewrite length_app, Nat.sub_diag.
Qed.

Definition op_of (x : entry) : op :=
  if e_tomb x then Del (e_key x) else Put (e_key x) (e_value x).

Lemma replay_encoded_op {E} `{EngineOps E} x tail fuel target (dst : E) :
  op_ok x ->
  replay_ops (S fuel) (encode_op x ++ tail) target dst =
  if target <? e_seq x then dst else replay_ops fuel tail target (ecommit dst (op_of x)).
Proof.
  intros Hx. destruct (encode_op_fields x tail Hx) as (Hs & Ht & Hk & Hv & Hd & Hl).
  set (p := encode_op x ++ tail) in *. destruct p as [|b p'] eqn:Ep; [cbn in Hl; lia|].
  cbn [replay_ops]. unfold kPitrRecordHeaderBytes. rewrite Hs, Ht, Hk, Hv, Hd.
  destruct (target <? e_seq x); [done|].
  rewrite take_app_length, drop_app_length, take_app_length.
  rewrite app_assoc, drop_app_ge by (rewrite length_app; lia).
  rewrite length_app, Nat.sub_diag. f_equal. unfold op_of, op_body.
  by destruct (e_tomb x).
Qed.

(** ** A contiguous run *)

Lemma archive_payload_cons x es : archive_payload (x :: es) = encode_op x ++ archive_payload es.
Proof. done. Qed.

Lemma validate_run h : forall fuel from s seen prev,
  Forall op_ok (hist_from s h) -> s = (if seen =? 0 then from else u64 (prev + 1)) ->
  0 <= seen -> 0 <= s -> s + Zlen h < 2 ^ 64 -> seen + Zlen h < 2 ^ 64 ->
  (length (archive_payload (hist_from s h)) <= fuel)%nat ->
  validate_ops fuel (archive_payload (hist_from s h)) from seen prev =
  inr (seen + Zlen h, match h with [] => prev | _ => s + Zlen h - 1 end).
Proof.
  induction h as [|o h IH]; intros fuel from s seen prev Hf Hs Hn H0 Hb1 Hb2 Hl.
  - rewrite Z.add_0_r. by destruct fuel.
  - cbn [hist_from] in *. apply Forall_cons_1 in Hf as [Hx Hf].
    assert (Hz : Zlen (o :: h) = Zlen h + 1) by (unfold Zlen; cbn [length]; lia).
    rewrite Hz in *. pose proof (Zlen_nonneg h).
    rewrite archive_payload_cons in *. rewrite length_app in Hl.
    pose proof (length_encode_op (op_entry s o)). destruct fuel as [|fuel]; [lia|].
    rewrite validate_encoded_op by (by rewrite ?op_entry_seq). rewrite op_entry_seq.
    rewrite (u64_id (seen + 1)) by lia.
    rewrite IH; try done; try lia.
    + f_equal. f_equal; [lia|]. destruct h; [unfold Zlen; cbn; lia|lia].
    + rewrite (proj2 (Z.eqb_neq _ _)) by lia. rewrite u64_id by lia. done.
Qed.

Lemma op_of_entry s o : op_of (op_entry s o) = o.
Proof. by destruct o. Qed.

Lemma replay_run {E} `{EngineOps E} h : forall fuel s target (dst : E),
  Forall op_ok (hist_from s h) ->
  (length (archive_payload (hist_from s h)) <= fuel)%nat ->
  replay_ops fuel (archive_payload (hist_from s h)) target dst =
  erun (take (Z.to_nat (target - s + 1)) h) dst.
Proof.
  induction h as [|o h IH]; intros fuel s target dst Hf Hl.
  - rewrite take_nil. by destruct fuel.
  - cbn [hist_from] in *. apply Forall_cons_1 in Hf as [Hx Hf].
    rewrite archive_payload_cons in *. rewrite length_app in Hl.
    pose proof (length_encode_op (op_entry s o)). destruct fuel as [|fuel]; [lia|].
    rewrite replay_encoded_op by done. rewrite op_entry_seq, op_of_entry.
    destruct (target <? s) eqn:Et.
    + by replace (Z.to_nat (target - s + 1)) with 0%nat by lia.
    + rewrite IH by (done || lia).
      replace (Z.to_nat (target - s + 1)) with (S (Z.to_nat (target - (s + 1) + 1))) by lia. done.
Qed.

(** ** Reading the header of a built archive *)

Section header.
Context (from to count : Z) (payload : list byte).
Hypothesis Hlen : Zlen payload < 2 ^ 64 - 44.
Hypothesis Hfields : is_u64 from /\ is_u64 to /\ is_u64 count.

Notation hdr := (archive_header from to count payload).

Lemma length_archive_header : length hdr = 44%nat.
Proof.
  unfold archive_header. rewrite !length_app, !length_put_u32, !length_put_u64. done.
Qed.

Lemma archive_fields tail :
  get_u32 (drop 4 (hdr ++ tail)) = kPitrVersion /\ get_u64 (drop 8 (hdr ++ tail)) = from /\
  get_u64 (drop 16 (hdr ++ tail)) = to /\ get_u64 (drop 24 (hdr ++ tail)) = count /\
  get_u64 (drop 32 (hdr ++ tail)) = Zlen payload /\
  get_u32 (drop 40 (hdr ++ tail)) = Crc32.compute payload.
Proof.
  unfold archive_header, is_u64 in *. rewrite <- !app_assoc. pose proof (Zlen_nonneg payload).
  change (drop 4 (pitr_magic ++ ?r)) with r. change (drop 8 (pitr_magic ++ ?r)) with (drop 4 r).
  change (drop 16 (pitr_magic ++ ?r)) with (drop 12 r).
  change (drop 24 (pitr_magic ++ ?r)) with (drop 20 r).
  change (drop 32 (pitr_magic ++ ?r)) with (drop 28 r).
  change (drop 40 (pitr_magic ++ ?r)) with (drop 36 r).
  skip_fields. rewrite !u64_id, !u32_id; try lia; try apply Crc32.compute_range; done.
Qed.

Lemma archive_subspan p :
  length p = length payload ->
  Zlen (hdr ++ p) <? u64 (Z.of_nat kPitrHeaderBytes + Zlen payload) = false /\
  subspan (hdr ++ p) kPitrHeaderBytes (Zlen payload) = Some p.
Proof.
  intros Hp. pose proof (Zlen_nonneg payload).
  assert (Hl : Zlen (hdr ++ p) = 44 + Zlen payload)
    by (unfold Zlen in *; rewrite length_app, length_archive_header; lia).
  unfold subspan. change (Z.of_nat kPitrHeaderBytes) with 44.
  rewrite Hl, u64_id, Z.ltb_irrefl by lia. split; [done|].
  rewrite drop_app_ge, length_archive_header, Nat.sub_diag, drop_0
    by (rewrite length_archive_header; done).
  by rewrite take_ge by (unfold Zlen; lia).
Qed.

Lemma validate_archive_header p :
  length p = length payload ->
  validate_archive_image (hdr ++ p) =
  if negb (Crc32.compute p =? Crc32.compute payload) then Some pitr_bad_crc
  else Some match validate_ops (length p) p from 0 0 with
            | inl e => e
            | inr (seen, prev) =>
                if negb (seen =? count) then pitr_bad_count
                else if negb (seen =? 0) && negb (prev =? to) then pitr_bad_to
                else ok_error
            end.
Proof.
  intros Hp. destruct (archive_fields p) as (F1 & F2 & F3 & F4 & F5 & F6).
  destruct (archive_subspan p Hp) as [S1 S2].
  unfold validate_archive_image. rewrite F1, F2, F3, F4, F5, F6, S1, S2.
  rewrite (proj2 (Nat.ltb_ge _ _))
    by (rewrite length_app, length_archive_header; unfold kPitrHeaderBytes; lia).
  replace (pitr_magic_ok _) with true by done. done.
Qed.

Lemma truncated_archive n :
  (n < length (hdr ++ payload))%nat ->
  exists err, validate_archive_image (take n (hdr ++ payload)) = Some err /\ err_ok err = false.
Proof.
  rewrite length_app, length_archive_header. intros Hn. unfold validate_archive_image.
  destruct (Nat.lt_ge_cases n 44) as [Hlt|Hge].
  - rewrite (proj2 (Nat.ltb_lt _ _)) by (rewrite length_take, length_app, length_archive_header;
      unfold kPitrHeaderBytes; lia). by exists pitr_bad_magic.
  - rewrite take_app_ge, length_archive_header by (rewrite length_archive_header; lia).
    set (t := take (n - 44) payload). destruct (archive_fields t) as (-> & _ & _ & _ & -> & _).
    assert (Ht : (length t < length payload)%nat) by (unfold t; rewrite length_take; lia).
    rewrite (proj2 (Nat.ltb_ge _ _))
      by (rewrite length_app, length_archive_header; unfold kPitrHeaderBytes; lia).
    replace (pitr_magic_ok _) with true by done. cbn [orb negb]. rewrite Z.eqb_refl. cbn [negb].
    change (Z.of_nat kPitrHeaderBytes) with 44. pose proof (Zlen_nonneg payload).
    rewrite u64_id by lia. rewrite (proj2 (Z.ltb_lt _ _)); [by exists pitr_truncated|].
    unfold Zlen in *. rewrite length_app, length_archive_header. lia.
Qed.
End header.

(** ** Restoring the log of an engine *)

Definition archive_ok (h : list op) : Prop :=
  Forall op_fits h /\ Zlen (archive_payload (hist_entries h)) < 2 ^ 64 - 44 /\ Zlen h < 2 ^ 63.

Lemma hist_op_ok s h : 0 <= s -> s + Zlen h < 2 ^ 64 -> Forall op_fits h -> Forall op_ok (hist_from s h).
Proof.
  intros H0 Hb Hf. apply List.Forall_forall. intros x Hx. pose proof (hist_from_seq _ _ _ Hx).
  apply hist_from_in in Hx as (i & o & Hi & ->). apply list_elem_of_lookup_2 in Hi.
  rewrite Forall_forall in Hf. destruct (Hf o Hi) as [Hk Hv].
  split; [lia|]. destruct o; cbn in *; split; done || (unfold Zlen; cbn; lia).
Qed.

Lemma last_hist_from s h :
  last_seq (hist_from s h) = match h with [] => 0 | _ => s + Zlen h - 1 end.
Proof.
  destruct h as [|o h] using rev_ind; [done|]. unfold last_seq.
  rewrite hist_from_app. cbn [hist_from]. rewrite last_snoc, op_entry_seq, Zlen_app.
  change (Zlen [o]) with 1. destruct (h ++ [o]) eqn:E; [by destruct h|lia].
Qed.

Lemma last_seq_hist h : last_seq (hist_entries h) = Zlen h.
Proof. unfold hist_entries. rewrite last_hist_from. destruct h; [done|lia]. Qed.

Lemma Zlen_hist h : Zlen (hist_entries h) = Zlen h.
Proof. unfold Zlen. by rewrite length_hist_entries. Qed.

Lemma archive_u64 h :
  archive_ok h ->
  is_u64 (first_seq (hist_entries h)) /\ is_u64 (last_seq (hist_entries h)) /\
  is_u64 (Zlen (hist_entries h)).
Proof.
  intros (_ & _ & Hb). rewrite last_seq_hist, Zlen_hist. pose proof (Zlen_nonneg h).
  unfold is_u64. split; [destruct h as [|[]]; cbn; lia|lia].
Qed.

Lemma archive_validates h :
  archive_ok h -> validate_archive_image (build_archive_image (hist_entries h)) = Some ok_error.
Proof.
  intros Hok. pose proof (archive_u64 h Hok) as Hu. destruct Hok as (Hf & Hl & Hb).
  unfold build_archive_image. rewrite validate_archive_header, Z.eqb_refl by done. cbn [negb].
  rewrite last_seq_hist, Zlen_hist. pose proof (Zlen_nonneg h).
  destruct h as [|o h']; [done|]. unfold hist_entries.
  rewrite validate_run; try done; try lia.
  - rewrite Z.eqb_refl. cbn [negb]. replace (1 + Zlen (o :: h') - 1) with (Zlen (o :: h')) by lia.
    by rewrite Z.eqb_refl, andb_false_r.
  - apply hist_op_ok; [lia..|done].
  - cbn. by rewrite op_entry_seq.
Qed.

Lemma apply_built_archive {E} `{EngineOps E} h target (dst : E) :
  archive_ok h ->
  apply_archive_image (build_archive_image (hist_entries h)) target dst =
  Some (if Zlen h <? target then (pitr_beyond, dst)
        else esync (erun (take (Z.to_nat target) h) dst)).
Proof.
  intros Hok. pose proof (archive_u64 h Hok) as Hu. unfold apply_archive_image.
  rewrite archive_validates by done. cbn [err_ok ok_error code negb].
  destruct Hok as (Hf & Hl & Hb). unfold build_archive_image. set (p := archive_payload _) in *.
  destruct (archive_fields _ _ _ p Hl Hu p) as (_ & _ & -> & _ & -> & _).
  destruct (archive_subspan (first_seq (hist_entries h)) (last_seq (hist_entries h))
              (Zlen (hist_entries h)) p Hl p eq_refl) as [_ ->].
  rewrite last_seq_hist. destruct (Zlen h <? target); [done|]. pose proof (Zlen_nonneg h).
  unfold p, hist_entries. rewrite replay_run by (done || (apply hist_op_ok; [lia..|done])).
  do 4 f_equal. lia.
Qed.

(** An engine that never flushed exports its whole history. *)
Lemma unflushed_export s h from :
  wal_repr s h -> tables s.1 = [] -> from <= 1 ->
  export_ops from false s = ((ok_error, hist_entries h), s).
Proof.
  intros Hs Ht Hf.
  assert (Hst : log_start from = 1) by (unfold log_start; destruct (from <? 1) eqn:E; lia).
  assert (Hlog : log_from from h = hist_entries h) by (unfold log_from; by rewrite Hst).
  rewrite <- Hlog. destruct (export_ops_spec s h from false Hs) as [[_ H]|[Hn _]]; [done|].
  destruct Hn. apply exported_perm; [done|]. apply Nat.le_antisymm.
  - apply NoDup_incl_length; [apply NoDup_ListNoDup; by eapply exported_mem_nodup|].
    intros x. by apply exported_in.
  - apply NoDup_incl_length; [apply NoDup_ListNoDup, hist_from_nodup|].
    intros x Hx. apply log_from_in in Hx as [Hx Hge]. unfold exported. cbn [app].
    apply filter_In. split; [|done]. rewrite <- (inv_entries _ _ _ _ _ Hs) in Hx.
    unfold all_entries in Hx. rewrite Ht in Hx. cbn [map concat] in Hx. by rewrite app_nil_r in Hx.
Qed.

(** The state as of a sequence is the state after that many commits. *)
Lemma scan_as_of {E F} `{EngineSpec E} `{EngineSpec F} (src : E) (dst : F) h rg target :
  repr src h -> 0 <= target <= Zlen h -> repr dst (take (Z.to_nat target) h) ->
  escan rg (esnapshot dst) dst = escan rg target src.
Proof.
  intros Hs Ht Hd. rewrite (snapshot_spec _ _ Hd).
  assert (Hl : Zlen (take (Z.to_nat target) h) = target)
    by (unfold Zlen in *; rewrite length_take; lia).
  rewrite Hl. apply (spec_scan_unique h rg target); [|apply scan_spec; [done|lia]].
  pose proof (scan_spec dst _ rg target Hd ltac:(lia)) as [H1' H2']. split; [done|].
  intros k v. rewrite H2'. unfold spec_get. by rewrite take_take, Nat.min_id.
Qed.

(** The device path hands the same image over. *)
Lemma restore_built_archive {E} `{EngineOps E} h target (dst : E) d :
  archive_ok h -> image_of d = build_archive_image (hist_entries h) -> rotted_offsets d = [] ->
  restore_archive [] d target dst =
  (apply_archive_image (build_archive_image (hist_entries h)) target dst, []).
Proof.
  intros (Hf & Hl & Hb) Himg Hrot. unfold build_archive_image in *.
  set (p := archive_payload _) in *. set (hd := archive_header _ _ _ p) in *.
  assert (Hh : length hd = 44%nat) by apply length_archive_header.
  assert (Hlog : logical_len d = (44 + length p)%nat)
    by (rewrite <- length_image, Himg, length_app; lia).
  unfold restore_archive.
  rewrite read_honest by (done || rewrite Hlog; unfold kPitrHeaderBytes; lia).
  rewrite Himg, drop_0, take_app_le, take_ge by (rewrite Hh; done).
  cbn [err_ok ok_error code negb]. replace (pitr_magic_ok hd) with true by done. cbn [negb].
  assert (Hv : get_u32 (drop 4 hd) = kPitrVersion) by done. rewrite Hv. cbn [Z.eqb Pos.eqb negb kPitrVersion].
  assert (Hpl : get_u64 (drop 32 hd) = Zlen p).
  { unfold hd, archive_header. rewrite <- (app_nil_r (put_u32 (Crc32.compute p))).
    change (drop 32 (pitr_magic ++ ?r)) with (drop 28 r). skip_fields.
    apply u64_id. pose proof (Zlen_nonneg p). lia. }
  rewrite Hpl.
  assert (Hread : (if 0 <? Zlen p then read kPitrHeaderBytes (Z.to_nat (Zlen p)) [] d
                   else (ok_error, [], [])) = (ok_error, p, [])).
  { destruct (0 <? Zlen p) eqn:E0.
    - rewrite read_honest by (done || rewrite Hlog; unfold kPitrHeaderBytes, Zlen; lia).
      rewrite Himg, drop_app_ge, Hh, Nat.sub_diag, drop_0, take_ge
        by (rewrite ?Hh; unfold Zlen; done || lia). done.
    - assert (p = []) as ->; [|done]. destruct p; [done|]. unfold Zlen in E0. cbn in E0. lia. }
  rewrite Hread. done.
Qed.

(** Point-in-time restore.  The archive of an engine that has not flushed is
    produced without touching the engine, and restoring it to any target up to
    the tip, from memory or from a device that wrote it faultlessly and
    crashed, gives a fresh engine of any kind exactly the first [target]
    commits: its scans return what the source returns as of the target. *)
Theorem pitr_restore_exact {F} `{EngineSpec F} s h from target (dst : F) rg :
  wal_repr s h -> tables s.1 = [] -> from <= 1 -> archive_ok h -> 0 <= target <= Zlen h ->
  Zlen h <= capacity (E := F) -> repr dst [] ->
  exists image err dst' d,
    archive_bytes from s = ((ok_error, Some image), s) /\
    apply_archive_image image target dst = Some (err, dst') /\
    archive_task from [] empty_disk s = (ok_error, d, []) /\
    restore_archive [] (crash d) target dst = (Some (err, dst'), []) /\
    repr dst' (take (Z.to_nat target) h) /\
    escan rg (esnapshot dst') dst' = (scan rg target s).1.
Proof.
  intros Hs Ht Hf Hok Htg Hc Hd. pose proof (unflushed_export s h from Hs Ht Hf) as Hexp.
  set (image := build_archive_image (hist_entries h)).
  set (res := esync (erun (take (Z.to_nat target) h) dst)).
  assert (Hap : apply_archive_image image target dst = Some res)
    by (unfold image; rewrite apply_built_archive, (proj2 (Z.ltb_ge _ _)) by (done || lia); done).
  assert (Hrep : repr res.2 (take (Z.to_nat target) h)).
  { apply sync_keeps, (erun_repr _ dst [] Hd). cbn [app]. unfold Zlen in *. rewrite length_take. lia. }
  exists image, res.1, res.2. eexists. split_and!.
  - unfold archive_bytes. by rewrite (bind_run _ _ _ _ _ Hexp).
  - rewrite Hap. by destruct res.
  - unfold archive_task. rewrite Hexp. cbn [fst snd err_ok ok_error code negb].
    rewrite append_honest. cbn [err_ok ok_error code negb]. apply sync_honest.
  - rewrite (restore_built_archive h); [fold image; rewrite Hap; by destruct res|done| |done].
    unfold image_of. cbn. by rewrite app_nil_r.
  - done.
  - exact (@scan_as_of state F (@wal_ops default_factory) (@wal_spec default_factory) _ _ s res.2 h rg target Hs Htg Hrep).
Qed.

(** An archive is applied whole or not at all.  A target past the archive,
    a truncated image, and a payload that differs from what was archived inside
    one window of at most four bytes are each refused with an error, and the
    target engine is untouched. *)
Theorem pitr_rejects {F} `{EngineOps F} h (dst : F) :
  archive_ok h ->
  let ops := hist_entries h in
  let image := build_archive_image ops in
  (forall target, Zlen h < target -> apply_archive_image image target dst = Some (pitr_beyond, dst)) /\
  (forall n target, (n < length image)%nat ->
     exists err, apply_archive_image (take n image) target dst = Some (err, dst) /\ err_ok err = false) /\
  (forall p w v q target, archive_payload ops = p ++ w ++ q ->
     length w = length v -> (length w <= 4)%nat -> w <> v ->
     apply_archive_image
       (archive_header (first_seq ops) (last_seq ops) (Zlen ops) (p ++ w ++ q) ++ p ++ v ++ q) target dst =
     Some (pitr_bad_crc, dst)).
Proof.
  intros Hok ops image. pose proof (archive_u64 h Hok) as Hu. split_and!.
  - intros target Ht. unfold image, ops. rewrite apply_built_archive by done.
    by rewrite (proj2 (Z.ltb_lt _ _)).
  - intros n target Hn. exists (default ok_error (validate_archive_image (take n image))).
    destruct Hok as (_ & Hl & _). unfold apply_archive_image, image, build_archive_image in *.
    fold ops in Hl, Hu, Hn |- *. set (p := archive_payload ops) in *.
    destruct (truncated_archive _ _ _ p Hl Hu n Hn) as (err & -> & He). cbn. by rewrite He.
  - intros p w v q target Ep Hw H4 Hne. unfold apply_archive_image. destruct Hok as (_ & Hl & _).
    fold ops in Hl, Hu. rewrite <- Ep. rewrite validate_archive_header; [|done|done|].
    + pose proof (Crc32.compute_window p w v q Hw H4 Hne) as Hc. rewrite <- Ep in Hc.
      rewrite (proj2 (Z.eqb_neq _ _)) by congruence. done.
    + rewrite Ep, !length_app. lia.
Qed.

(** ** Witnesses *)

Definition demo_log : list op := [Put [Byte.x61] [Byte.x01]; Del [Byte.x61]; Put [Byte.x62] []].

Definition unflushed : state := @run_ops default_factory demo_log (lsm_engine 0, demo_io []).

Lemma unflushed_repr : wal_repr unflushed demo_log.
Proof.
  apply (run_ops_repr _ [] demo_log); [|by vm_compute]. apply fresh_inv, (lsm_fresh 0 0 0 []).
Qed.

Lemma demo_archive_ok : archive_ok demo_log.
Proof. split_and!; [by repeat constructor|by vm_compute..]. Qed.

Lemma pitr_restore_exact_witness :
  exists image err (dst' : Oracle.t) d,
    archive_bytes 1 unflushed = ((ok_error, Some image), unflushed) /\
    apply_archive_image image 1 Oracle.empty = Some (err, dst') /\
    archive_task 1 [] empty_disk unflushed = (ok_error, d, []) /\
    restore_archive [] (crash d) 1 Oracle.empty = (Some (err, dst'), []) /\
    repr dst' [Put [Byte.x61] [Byte.x01]] /\
    escan full_range (esnapshot dst') dst' = (scan full_range 1 unflushed).1.
Proof.
  apply (pitr_restore_exact unflushed demo_log 1 1 Oracle.empty full_range).
  - apply unflushed_repr.
  - by vm_compute.
  - done.
  - apply demo_archive_ok.
  - by vm_compute.
  - by vm_compute.
  - apply Oracle.rep_empty.
Defined.

Lemma pitr_rejects_witness :
  apply_archive_image (build_archive_image (hist_entries demo_log)) 4 Oracle.empty =
  Some (pitr_beyond, Oracle.empty).
Proof.
  apply (proj1 (pitr_rejects demo_log Oracle.empty demo_archive_ok)). by vm_compute.
Defined.
