(* ===== verification/Recovery.v ===== *)
(** Recovery: the offline diagnostics (storage/Recovery.hpp).

    Pure functions over a byte image: the format by its magic, the walk of a
    log or a manifest to its boundary, an integrity verdict. *)

From Stdlib Require Import ZArith Lia.
From Stdlib Require Import (notations) String.
From stdpp Require Import base list numbers gmap.
From S2P Require Import Prelude Codec Core Disk Mvcc Oracle WalRecord Memtable SSTable Manifest WalEngine.
From S2P Require Import WalInvariant WalRefine WalRecover WalHazards Backup Pitr.
Import WalEngine.
#[local] Open Scope Z_scope.

Inductive FileFormat := FmtUnknown | FmtWal | FmtBackup | FmtPitrArchive | FmtManifest | FmtSSTable.

Definition detect_format (image : list byte) : FileFormat :=
  if (4 <=? length image)%nat
     && ((get_u32 image =? kWalMagic) || (get_u32 image =? kWalStreamMagic)) then FmtWal
  else if (4 <=? length image)%nat
     && ((get_u32 image =? kManMagic) || (get_u32 image =? kManStreamMagic)) then FmtManifest
  else if (kBackupHeaderBytes <=? length image)%nat && backup_magic_ok image then FmtBackup
  else if (kPitrHeaderBytes <=? length image)%nat && pitr_magic_ok image then FmtPitrArchive
  else if (48 <=? length image)%nat && (get_u32 (drop (length image - 8) image) =? kSstMagic)
  then FmtSSTable
  else FmtUnknown.

(** ** Manifests *)

Record ManifestInspection := mkManifestInspection {
  mi_records : nat;
  mi_valid_prefix_len : nat;
  mi_total_len : nat;
  mi_clean : bool;
  mi_max_entry_no : Z
}.

(** The loop: records, the last entry number and the boundary. *)
Fixpoint manifest_loop (fuel : nat) (image : list byte) (pos : nat) (expect : Z)
    (records : nat) (max_entry : Z) : nat * Z * nat :=
  match fuel with
  | O => (records, max_entry, pos)
  | S fuel' =>
      if (pos <? length image)%nat then
        match decode_manifest image pos with
        | Some (r, n) =>
            if negb (m_entry_no r =? expect) then (records, max_entry, pos)
            else manifest_loop fuel' image (pos + n) (u64 (expect + 1)) (S records) (m_entry_no r)
        | None => (records, max_entry, pos)
        end
      else (records, max_entry, pos)
  end.

Definition inspect_manifest (image : list byte) : ManifestInspection :=
  let start :=
    if (Format.kStreamHeaderBytes <=? length image)%nat
       && Format.check_stream_header image kManStreamMagic Format.kManifestVersion
    then Format.kStreamHeaderBytes else O in
  let '(records, mx, pos) := manifest_loop (length image) image start 1 0 0 in
  mkManifestInspection records pos (length image) (pos =? length image)%nat mx.

(** ** Logs *)

Record WalRecordInfo := mkWalRecordInfo {
  wi_seq : Z;
  wi_type : Z;
  wi_klen : Z;
  wi_vlen : Z;
  wi_offset : nat
}.

Record WalInspection := mkWalInspection {
  wal_records : list WalRecordInfo;
  valid_prefix_len : nat;
  total_len : nat;
  clean : bool;
  max_seq : Z
}.

Definition record_info (r : WalRecord) (pos : nat) : WalRecordInfo :=
  mkWalRecordInfo (r_seq r) (if r_tombstone r then 1 else if r_vlog r then 2 else 0)
    (u32 (Zlen (r_key r))) (u32 (Zlen (r_value r))) pos.

Fixpoint wal_loop (fuel : nat) (image : list byte) (pos : nat) (acc : list WalRecordInfo) (mx : Z)
  : list WalRecordInfo * Z * nat :=
  match fuel with
  | O => (acc, mx, pos)
  | S fuel' =>
      if (pos <? length image)%nat then
        match try_decode image pos with
        | Some (r, n) => wal_loop fuel' image (pos + n) (acc ++ [record_info r pos]) (r_seq r)
        | None => (acc, mx, pos)
        end
      else (acc, mx, pos)
  end.

Definition wal_start (image : list byte) : nat :=
  if (Format.kStreamHeaderBytes <=? length image)%nat
     && Format.check_stream_header image kWalStreamMagic Format.kWalStreamVersion
  then Format.kStreamHeaderBytes else O.

Definition inspect_wal (image : list byte) : WalInspection :=
  let '(records, mx, pos) := wal_loop (length image) image (wal_start image) [] kNoSeq in
  mkWalInspection records pos (length image) (pos =? length image)%nat mx.

Definition wal_valid_prefix_len (image : list byte) : nat := valid_prefix_len (inspect_wal image).

(** ** Verdicts *)

Record VerifyResult := mkVerifyResult {
  v_error : Error;
  v_format : FileFormat;
  v_valid_prefix_len : nat;
  v_total_len : nat
}.

Definition wal_torn : Error :=
  mkError Corruption "wal: torn/garbage tail after the consistent prefix (recoverable — truncate to valid_prefix_len)".
Definition manifest_torn : Error :=
  mkError Corruption "manifest: torn/garbage tail after the install prefix (recoverable — folds to valid_prefix_len)".
Definition sstable_corrupt : Error :=
  mkError Corruption "sstable: footer / index / block CRC failed (corrupt SSTable)".
Definition unrecognised : Error :=
  mkError InvalidArgument "unrecognised file (not a Lockstep WAL / backup / PITR archive)".

(** [None] where a validator is undefined. *)
Definition verify_image (image : list byte) : option VerifyResult :=
  let fmt := detect_format image in
  let total := length image in
  let whole e := mkVerifyResult e fmt (if err_ok e then total else 0) total in
  match fmt with
  | FmtWal =>
      let ins := inspect_wal image in
      Some (mkVerifyResult (if clean ins then ok_error else wal_torn) fmt (valid_prefix_len ins) total)
  | FmtBackup => option_map whole (validate_image image)
  | FmtPitrArchive => option_map whole (validate_archive_image image)
  | FmtManifest =>
      let mi := inspect_manifest image in
      Some (mkVerifyResult (if mi_clean mi then ok_error else manifest_torn) fmt
              (mi_valid_prefix_len mi) total)
  | FmtSSTable =>
      Some (whole (match SSTableLoader.parse image 0 with
                   | Some _ => ok_error
                   | None => sstable_corrupt
                   end))
  | FmtUnknown => Some (mkVerifyResult unrecognised fmt 0 total)
  end.

(** ** The walk of a log *)

Lemma wal_loop_fuel image : forall f f' pos acc mx,
  (length image - pos <= f)%nat -> (length image - pos <= f')%nat ->
  wal_loop f image pos acc mx = wal_loop f' image pos acc mx.
Proof.
  induction f as [|f IH]; intros [|f'] pos acc mx H1 H2; cbn [wal_loop]; try done;
    destruct (pos <? length image)%nat eqn:E; try done; try lia.
  destruct (try_decode image pos) as [[r n]|] eqn:Ed; [|done].
  apply try_decode_short in Ed. apply IH; lia.
Qed.

(** The walk does not look past its boundary. *)
Lemma wal_loop_cut image : forall f pos acc mx rs m b,
  (pos <= length image)%nat -> wal_loop f image pos acc mx = (rs, m, b) ->
  (pos <= b <= length image)%nat /\ wal_loop f (take b image) pos acc mx = (rs, m, b).
Proof.
  induction f as [|f IH]; intros pos acc mx rs m b Hp H; cbn [wal_loop] in *.
  - injection H as <- <- <-. done.
  - destruct (pos <? length image)%nat eqn:E.
    2: { injection H as <- <- <-. split; [lia|].
         rewrite (proj2 (Nat.ltb_ge _ _)) by (rewrite length_take; lia). done. }
    destruct (try_decode image pos) as [[r n]|] eqn:Ed.
    2: { injection H as <- <- <-. split; [lia|].
         rewrite (proj2 (Nat.ltb_ge _ _)) by (rewrite length_take; lia). done. }
    pose proof (try_decode_short _ _ _ _ Ed) as [Hn Hpn].
    destruct (IH _ _ _ _ _ _ Hpn H) as [Hb Hcut]. split; [lia|].
    rewrite (proj2 (Nat.ltb_lt _ _)) by (rewrite length_take; lia).
    apply try_decode_sound in Ed as (Hwf & Hlen & Ht).
    assert (Hd : try_decode (take b image) pos = Some (r, n)).
    { rewrite <- (take_drop pos (take b image)), take_take, Nat.min_l by lia.
      rewrite <- (take_drop n (drop pos (take b image))), skipn_firstn_comm, take_take, Nat.min_l by lia.
      rewrite Ht, Hlen.
      pose proof (fun post => try_decode_encode (take pos image) r post Hwf) as D.
      rewrite length_take, Nat.min_l in D by lia. apply D. }
    by rewrite Hd.
Qed.

Lemma start_le image : (wal_start image <= length image)%nat.
Proof. unfold wal_start, Format.kStreamHeaderBytes. destruct (8 <=? length image)%nat eqn:E; cbn; [|lia].
  destruct (Format.check_stream_header _ _ _); lia.
Qed.

(** The stream header is recognised, or not, on the cut image alike. *)
Lemma start_cut image b rs m :
  wal_loop (length image) image (wal_start image) [] kNoSeq = (rs, m, b) ->
  wal_start (take b image) = wal_start image.
Proof.
  intros H. pose proof (wal_loop_cut image _ _ _ _ _ _ _ (start_le image) H) as [Hb _].
  unfold wal_start, Format.check_stream_header, Format.kStreamHeaderBytes in *.
  destruct (8 <=? length image)%nat eqn:E8; cbn [andb] in *.
  2: { rewrite (proj2 (Nat.leb_gt _ _)) by (rewrite length_take; lia). done. }
  rewrite (proj2 (Nat.ltb_ge (length image) 8)) in * by lia.
  destruct (get_u32 image =? kWalStreamMagic) eqn:Em; cbn [negb] in *.
  - destruct (get_u32 (drop 4 image) =? Format.kWalStreamVersion) eqn:Ev; cbn [negb] in *.
    + rewrite (proj2 (Nat.leb_le _ _)), (proj2 (Nat.ltb_ge _ _)) by (rewrite length_take; lia).
      cbn [andb]. assert (Hi : take b image ++ drop b image = image) by apply take_drop.
      rewrite <- Hi in Em at 1. rewrite <- Hi in Ev at 1.
      rewrite get_u32_app in Em by (rewrite length_take; lia).
      rewrite drop_app_le, get_u32_app in Ev by (rewrite ?length_drop, length_take; lia).
      by rewrite Em, Ev.
    + destruct (length image) as [|n] eqn:El; [lia|]. cbn [wal_loop] in H. rewrite El in H.
      cbn [Nat.ltb Nat.leb] in H. assert (Hd : try_decode image 0 = None).
      { destruct (try_decode image 0) as [[r k]|] eqn:Ed; [|done]. exfalso.
        unfold try_decode in Ed. destruct (_ <? _) in Ed; [done|]. rewrite drop_0 in Ed.
        apply Z.eqb_eq in Em. rewrite Em in Ed. done. }
      rewrite Hd in H. injection H as <- <- <-. done.
  - destruct (8 <=? length (take b image))%nat eqn:E9; [|done]. cbn [andb].
    rewrite (proj2 (Nat.ltb_ge _ _)) by lia.
    replace (get_u32 (take b image)) with (get_u32 image); [by rewrite Em|].
    rewrite <- (take_drop b image) at 1. apply get_u32_app. lia.
Qed.

(** The walk lists what [decode_run] decodes. *)
Lemma wal_loop_run image : forall f pos acc mx,
  (wal_loop f image pos acc mx).1 =
  (acc ++ map (fun rp => record_info rp.1 rp.2) (decode_run f image pos),
   match list.last (decode_run f image pos) with Some rp => r_seq rp.1 | None => mx end).
Proof.
  induction f as [|f IH]; intros pos acc mx; cbn [wal_loop decode_run]; [by rewrite app_nil_r|].
  destruct (pos <? length image)%nat; [|by rewrite app_nil_r].
  destruct (try_decode image pos) as [[r n]|]; [|by rewrite app_nil_r].
  rewrite IH. cbn [map fst snd]. rewrite <- app_assoc. f_equal.
  destruct (decode_run f image (pos + n)) as [|x l]; [done|].
  change (list.last ((r, pos) :: x :: l)) with (list.last (x :: l)).
  destruct (list.last (x :: l)) eqn:E; [done|]. by apply last_None in E.
Qed.

Lemma map_last {A B} (f : A -> B) l : list.last (map f l) = option_map f (list.last l).
Proof. induction l as [|x [|y l] IH]; [done..|]. exact IH. Qed.

Lemma records_seqs s h : map r_seq (records_from s h) = map e_seq (hist_from s h).
Proof.
  revert s; induction h as [|o h IH]; intros s; cbn; [done|]. rewrite IH. by destruct o.
Qed.

Lemma records_last s h :
  match list.last (records_from s h) with Some r => r_seq r | None => s - 1 end = s + Zlen h - 1.
Proof.
  destruct h as [|o h] using rev_ind; [unfold Zlen; cbn; lia|].
  rewrite records_from_app. cbn [records_from]. rewrite last_snoc, Zlen_app.
  change (Zlen [o]) with 1. destruct o; cbn; lia.
Qed.

Lemma short_stream k h : ((k < 8)%nat \/ h = []) -> survivors k h = [] /\ (length (take k (wal_stream h)) < 8)%nat.
Proof.
  intros [Hk| ->].
  - split; [by apply survivors_short|]. rewrite length_take. lia.
  - split; [unfold survivors; apply take_nil|]. cbn. rewrite take_nil. cbn. lia.
Qed.

Lemma decode_short f image pos : (length image < 25)%nat -> decode_run f image pos = [].
Proof.
  intros Hl. destruct f as [|f]; [done|]. cbn [decode_run]. destruct (pos <? length image)%nat; [|done].
  destruct (try_decode image pos) as [[r n]|] eqn:E; [|done]. apply try_decode_short in E. lia.
Qed.

(** What the walk of a cut log lists. *)
Lemma inspect_cut k h :
  Zlen h <= kCap -> Forall op_fits h ->
  let ins := inspect_wal (take k (wal_stream h)) in
  map wi_seq (wal_records ins) = map e_seq (hist_entries (survivors k h)) /\
  max_seq ins = Zlen (survivors k h).
Proof.
  intros Hc Hf. set (image := take k (wal_stream h)). cbv zeta. unfold inspect_wal.
  pose proof (wal_loop_run image (length image) (wal_start image) [] kNoSeq) as Hrun.
  destruct (wal_loop _ _ _ _ _) as [[rs mx] b]. cbn [fst] in Hrun. injection Hrun as -> ->.
  cbn [wal_records max_seq app]. rewrite map_map.
  change (fun x : WalRecord * nat => wi_seq (record_info x.1 x.2)) with (fun x : WalRecord * nat => r_seq x.1).
  rewrite <- (map_map fst r_seq).
  assert (Hdec : map fst (decode_run (length image) image (wal_start image)) =
                 records_from 1 (survivors k h)).
  { destruct (decide ((k < 8)%nat \/ h = [])) as [Hs|Hs].
    - destruct (short_stream k h Hs) as [-> Hl]. by rewrite decode_short by (fold image in Hl; lia).
    - assert (Hk : (8 <= k)%nat /\ h <> []) by (split; [lia|naive_solver]). destruct Hk as [Hk Hh].
      replace (wal_start image) with 8%nat; [by apply decode_cut|].
      unfold wal_start, Format.check_stream_header, Format.kStreamHeaderBytes, image.
      rewrite take_stream by done. rewrite length_app. done. }
  split; [by rewrite Hdec, records_seqs|].
  apply (f_equal list.last) in Hdec. rewrite map_last in Hdec.
  pose proof (records_last 1 (survivors k h)) as Hl. rewrite <- Hdec in Hl.
  unfold kNoSeq. destruct (list.last _); cbn in *; lia.
Qed.

(** The diagnostic walk of a log.  Truncating an image at the boundary the
    walk reports gives an image the walk finds clean, with the same records; and
    on the log an engine wrote, cut at any byte, the records it lists are the
    commits that recovery restores from it. *)
Theorem inspect_wal_exact `{IDiskFactory} :
  (forall image,
     let ins := inspect_wal image in
     inspect_wal (take (valid_prefix_len ins) image) =
     mkWalInspection (wal_records ins) (valid_prefix_len ins) (valid_prefix_len ins) true (max_seq ins)) /\
  (forall k h e w,
     restartable e -> Zlen h <= kCap -> Forall op_fits h ->
     image_of (wal w) = take k (wal_stream h) -> rotted_offsets (wal w) = [] -> tape w = [] ->
     let ins := inspect_wal (image_of (wal w)) in
     exists s' h', recover (logical_len (wal w)) (e, w) = (ok_error, s') /\ wal_repr s' h' /\
       map wi_seq (wal_records ins) = map e_seq (hist_entries h') /\
       max_seq ins = last_seq_ s'.1).
Proof.
  split.
  - intros image. cbv zeta. unfold inspect_wal.
    destruct (wal_loop (length image) image (wal_start image) [] kNoSeq) as [[rs m] b] eqn:E.
    cbn [valid_prefix_len wal_records max_seq].
    pose proof (start_cut _ _ _ _ E) as Hs.
    destruct (wal_loop_cut image _ _ _ _ _ _ _ (start_le image) E) as [Hb Hcut].
    assert (Hl : length (take b image) = b) by (rewrite length_take; lia).
    rewrite Hs, (wal_loop_fuel _ _ (length image)), Hcut by lia. by rewrite Hl, Nat.eqb_refl.
  - intros k h e w He Hc Hf Himg Hr Ht. cbv zeta.
    destruct (recover_cut k h e w He Hc Hf Himg Hr Ht) as (s' & Hrec & Hrep).
    exists s', (survivors k h). rewrite Himg. destruct (inspect_cut k h Hc Hf) as [H1 H2].
    split_and!; [done..|]. rewrite H2. symmetry. exact (i_last _ _ _ _ _ _ _ _ _ Hrep).
Qed.

(** ** Witnesses *)

Definition cut_log : disk :=
  mkDisk (take 70 (wal_stream [Put [Byte.x61] [Byte.x01]; Put [Byte.x62] [Byte.x02];
                               Del [Byte.x61]])) [] [] [] false.

Lemma inspect_wal_exact_witness :
  length (wal_records (inspect_wal (image_of cut_log))) = 2%nat /\
  let ins := inspect_wal (image_of cut_log) in
  exists s' h', @recover default_factory (logical_len cut_log)
                  (demo_engine, mkIo cut_log empty_disk ∅ []) = (ok_error, s') /\ wal_repr s' h' /\
    map wi_seq (wal_records ins) = map e_seq (hist_entries h') /\
    max_seq ins = last_seq_ s'.1.
Proof.
  split; [by vm_compute|].
  apply (proj2 (@inspect_wal_exact default_factory) 70%nat
           [Put [Byte.x61] [Byte.x01]; Put [Byte.x62] [Byte.x02]; Del [Byte.x61]]
           demo_engine (mkIo cut_log empty_disk ∅ [])).
  - done.
  - by vm_compute.
  - repeat constructor.
  - by vm_compute.
  - done.
  - done.
Defined.

(** ** Divergences from recovery *)

(** A log with a lost record in the middle: the walk calls it clean and lists
    both records, recovery stops at the gap. *)
Definition gapped_log : list byte :=
  encode_record (mkWalRecord 1 [Byte.x61] [Byte.x01] false false) ++
  encode_record (mkWalRecord 3 [Byte.x62] [Byte.x02] false false).

Example inspect_wal_ignores_gaps :
  clean (inspect_wal gapped_log) = true /\ max_seq (inspect_wal gapped_log) = 3 /\
  last_seq_ (@recover default_factory (length gapped_log)
               (demo_engine, mkIo (mkDisk gapped_log [] [] [] false) empty_disk ∅ [])).2.1 = 1.
Proof. by vm_compute. Qed.

(** A manifest of two records: the walk finds both, recovery folds one. *)
Definition two_records : list byte :=
  encode_any (mkManifestRecord Install 1 0 200 1 3 0) ++
  encode_any (mkManifestRecord WalTrunc 2 0 0 0 0 3).

Example inspect_manifest_disagrees :
  mi_records (inspect_manifest two_records) = 2%nat /\
  manifest_tip_ (lsm (@recover_manifest default_factory (length two_records)
    (demo_engine, mkIo empty_disk (mkDisk two_records [] [] [] false) ∅ [])).2.1) = 1.
Proof. by vm_compute. Qed.
