(* ===== verification/Txn.v ===== *)
(** Txn: one-shot transactions and their executors (txn/Transaction.hpp,
    txn/Oracle.hpp and txn/DeterministicExecutor.hpp).

    A batch arrives in its agreed global order.  Both executors run a work
    queue: a transaction reads, runs its deterministic body, and commits, is
    re-sequenced at the back of the queue when the body needed a key outside its
    declared footprint, or is aborted once its retries are spent.  The reference
    oracle keeps a plain map; the real executor keeps its state in a storage
    engine behind the [Engine] interface and serves each read at the prefix its
    consistency level names. *)

From Stdlib Require Import ZArith Lia.
From stdpp Require Import base list numbers.
From S2P Require Import Prelude Core Mvcc.

(** ** The transaction seam *)

Inductive Level := StrictSerializable | Snapshot | BoundedStaleness | ReadYourWrites.

#[global] Instance Level_eq_dec : EqDecision Level.
Proof. solve_decision. Defined.

Record Read := mkRead {
  r_key : Key;
  r_level : Level;
  r_snapshot_version : Z;
  r_max_lag : Z;
  r_session : Z
}.

Definition read_strict (key : Key) : Read := mkRead key StrictSerializable kNoSeq 0 0.
Definition read_snapshot (key : Key) (version : Z) : Read := mkRead key Snapshot version 0 0.
Definition read_bounded (key : Key) (max_lag : Z) : Read := mkRead key BoundedStaleness kNoSeq max_lag 0.
Definition read_ryw (key : Key) (session : Z) : Read := mkRead key ReadYourWrites kNoSeq 0 session.

(** [std::map]s as their contents in key order. *)
Abbreviation ReadView := (list (Key * option Value)).
Abbreviation WriteSet := (list (Key * Value)).

(** [m\[k\] = v]. *)
Fixpoint map_set {A} (k : Key) (v : A) (m : list (Key * A)) : list (Key * A) :=
  match m with
  | [] => [(k, v)]
  | (k', v') :: m' =>
      if key_ltb k' k then (k', v') :: map_set k v m'
      else if key_eqb k' k then (k', v) :: m'
      else (k, v) :: m
  end.

Record Outcome := mkOutcome {
  oc_writes : WriteSet;
  oc_result : list byte;
  oc_extra_reads : list Key
}.

Record Txn := mkTxn {
  t_id : Z;
  declared_reads : list Read;
  body : option (ReadView -> Outcome)
}.

Inductive Status := Committed | Aborted | Pending.

Record ServedRead := mkServedRead {
  s_key : Key;
  s_level : Level;
  s_served_version : Z;
  s_session : Z;
  s_max_lag : Z;
  s_value : option Value
}.

Record CommitInfo := mkCommitInfo {
  c_txn_id : Z;
  c_status : Status;
  c_seq_index : Z;
  c_commit_version : Z;
  c_reads_observed : ReadView;
  c_writes_committed : WriteSet;
  c_result : list byte;
  c_footprint_valid : bool;
  c_retries : Z;
  c_served_reads : list ServedRead
}.

Record RunResult := mkRunResult { commits : list CommitInfo; tip_version : Z }.

Record ExecConfig := mkExecConfig { max_retry : Z; replica_lag : Z }.

(** What both executors share: the queue entry, the body call, the footprint
    test and the two records they emit. *)
Record QueueEntry := mkPending { p_txn : Txn; p_retries : Z }.

Definition run_body (t : Txn) (reads : ReadView) : Outcome :=
  match body t with Some f => f reads | None => mkOutcome [] [] [] end.

Definition declared_contains (t : Txn) (k : Key) : bool :=
  existsb (fun r => key_eqb (r_key r) k) (declared_reads t).

Definition footprint_ok (t : Txn) (oc : Outcome) : bool :=
  forallb (declared_contains t) (oc_extra_reads oc).

Definition abort_info (p : QueueEntry) (reads : ReadView) (served : list ServedRead) : CommitInfo :=
  mkCommitInfo (t_id (p_txn p)) Aborted 0 kNoSeq reads [] [] false (p_retries p) served.

Definition commit_info (p : QueueEntry) (index version : Z) (reads : ReadView) (oc : Outcome)
    (served : list ServedRead) : CommitInfo :=
  mkCommitInfo (t_id (p_txn p)) Committed index version reads (oc_writes oc) (oc_result oc) true
    (p_retries p) served.

(** The queue of a batch. *)
Definition initial_queue (txns : list Txn) : list QueueEntry := map (fun t => mkPending t 0) txns.

(** Each transaction is taken at most [max_retry + 1] times. *)
Definition batch_fuel (cfg : ExecConfig) (txns : list Txn) : nat :=
  length txns * S (Z.to_nat (max_retry cfg)).

(** The work-queue loop of both executors: take the front entry, run its step,
    and append the entry the step puts back. *)
Fixpoint run_queue {S : Type} (step : QueueEntry -> S -> S * option QueueEntry) (fuel : nat)
    (queue : list QueueEntry) (s : S) : S :=
  match fuel, queue with
  | Datatypes.S fuel', p :: queue' =>
      let '(s, again) := step p s in run_queue step fuel' (queue' ++ option_list again) s
  | _, _ => s
  end.

(** ** The reference: [StrictSerialOracle] *)
Module StrictSerialOracle.

Record serial_state := mkSerial {
  store_ : list (Key * Value);
  version : Z;
  next_seq_index : Z;
  out : list CommitInfo
}.

Definition make_served (r : Read) (serial_prefix : Z) (v : option Value) : ServedRead :=
  mkServedRead (r_key r) (r_level r) serial_prefix (r_session r) (r_max_lag r) v.

(** The read loop. *)
Fixpoint serial_serve (store : list (Key * Value)) (serial_prefix : Z) (rs : list Read)
    (reads : ReadView) (served : list ServedRead) : ReadView * list ServedRead :=
  match rs with
  | [] => (reads, served)
  | r :: rs' =>
      let v := assoc (r_key r) store in
      serial_serve store serial_prefix rs' (map_set (r_key r) v reads)
            (served ++ [make_served r serial_prefix v])
  end.

Definition apply_writes (store : list (Key * Value)) (ws : WriteSet) : list (Key * Value) :=
  fold_left (fun s kv => map_set kv.1 kv.2 s) ws store.

(** One turn of the loop: the new state and the entry put back. *)
Definition serial_step (cfg : ExecConfig) (p : QueueEntry) (s : serial_state) : serial_state * option QueueEntry :=
  let t := p_txn p in
  let '(reads, served) := serial_serve (store_ s) (version s) (declared_reads t) [] [] in
  let oc := run_body t reads in
  if negb (footprint_ok t oc) then
    if p_retries p <? max_retry cfg then (s, Some (mkPending t (u64 (p_retries p + 1))))
    else
      (mkSerial (store_ s) (version s) (next_seq_index s) (out s ++ [abort_info p reads served]), None)
  else
    let version := u64 (version s + 1) in
    let index := u64 (next_seq_index s + 1) in
    (mkSerial (apply_writes (store_ s) (oc_writes oc)) version index
             (out s ++ [commit_info p index version reads oc served]), None).

Definition submit_batch (txns : list Txn) (cfg : ExecConfig) : RunResult :=
  let s := run_queue (serial_step cfg) (batch_fuel cfg txns) (initial_queue txns) (mkSerial [] kNoSeq 0 []) in
  mkRunResult (out s) (version s).

End StrictSerialOracle.

(** ** The real executor: [DeterministicExecutor] *)
Module DeterministicExecutor.

Section executor.
Context {E : Type} `{EngineOps E}.

Record state := mkState {
  engine : E;
  session_last_write : list (Z * Key * Z);
  commit_snap : list Z;
  next_commit_version : Z;
  out : list CommitInfo
}.

Definition find_session (session : Z) (k : Key) (m : list (Z * Key * Z)) : option Z :=
  option_map snd (List.find (fun e => (e.1.1 =? session) && key_eqb e.1.2 k) m).

Definition has_strict (t : Txn) (k : Key) : bool :=
  existsb (fun r => bool_decide (r_level r = StrictSerializable) && key_eqb (r_key r) k)
          (declared_reads t).

(** The prefix a read is served at, and the shared snapshot prefix once a
    snapshot read has fixed it. *)
Definition read_prefix (cfg : ExecConfig) (slw : list (Z * Key * Z)) (serial_prefix : Z)
    (shared : option Z) (r : Read) : Z * option Z :=
  match r_level r with
  | StrictSerializable => (serial_prefix, shared)
  | Snapshot =>
      let p := match shared with
               | Some p => p
               | None =>
                   if negb (r_snapshot_version r =? kNoSeq)
                      && (r_snapshot_version r <=? serial_prefix)
                   then r_snapshot_version r else serial_prefix
               end in
      (p, Some p)
  | BoundedStaleness =>
      let lag := replica_lag cfg in
      (if lag <? serial_prefix then serial_prefix - lag else 0, shared)
  | ReadYourWrites =>
      (match find_session (r_session r) (r_key r) slw with
       | Some w => if serial_prefix <? w then w else serial_prefix
       | None => serial_prefix
       end, shared)
  end.

(** The read loop: the body's view and the served reads. *)
Fixpoint serve (cfg : ExecConfig) (t : Txn) (s : state) (serial_prefix : Z) (shared : option Z)
    (rs : list Read) (reads : ReadView) (served : list ServedRead) : ReadView * list ServedRead :=
  match rs with
  | [] => (reads, served)
  | r :: rs' =>
      let '(prefix, shared) := read_prefix cfg (session_last_write s) serial_prefix shared r in
      let snap_seq := nth (Z.to_nat prefix) (commit_snap s) kNoSeq in
      let v := eget (r_key r) snap_seq (engine s) in
      let reads :=
        if bool_decide (r_level r = StrictSerializable) || negb (has_strict t (r_key r))
        then map_set (r_key r) v reads else reads in
      serve cfg t s serial_prefix shared rs' reads
        (served ++ [mkServedRead (r_key r) (r_level r) prefix (r_session r) (r_max_lag r) v])
  end.

(** The writes of one transaction, put one by one. *)
Definition put_all (ws : WriteSet) (e : E) : E :=
  fold_left (fun e kv => (eput kv.1 kv.2 e).2) ws e.

(** The session bookkeeping of a commit. *)
Definition note_session (v : Z) (ws : WriteSet) (m : list (Z * Key * Z)) (r : Read)
  : list (Z * Key * Z) :=
  if bool_decide (r_level r = ReadYourWrites) && negb (r_session r =? 0)
  then fold_left (fun m kv => (r_session r, kv.1, v) :: m) ws m
  else m.

(** One turn of the loop: the new state and the entry put back. *)
Definition step (cfg : ExecConfig) (p : QueueEntry) (s : state) : state * option QueueEntry :=
  let t := p_txn p in
  let serial_prefix := next_commit_version s in
  let '(reads, served) := serve cfg t s serial_prefix None (declared_reads t) [] [] in
  let oc := run_body t reads in
  if negb (footprint_ok t oc) then
    if p_retries p <? max_retry cfg then (s, Some (mkPending t (u64 (p_retries p + 1))))
    else
      (mkState (engine s) (session_last_write s) (commit_snap s) (next_commit_version s)
               (out s ++ [abort_info p reads served]), None)
  else
    let e := put_all (oc_writes oc) (engine s) in
    let tip := esnapshot e in
    let v := u64 (next_commit_version s + 1) in
    (mkState e (fold_left (note_session v (oc_writes oc)) (declared_reads t) (session_last_write s))
             (commit_snap s ++ [tip]) v
             (out s ++ [commit_info p v v reads oc served]), None).

(** [run_batch] on a given engine. *)
Definition run_batch (e : E) (txns : list Txn) (cfg : ExecConfig) : RunResult :=
  let s := run_queue (step cfg) (batch_fuel cfg txns) (initial_queue txns) (mkState e [] [kNoSeq] 0 []) in
  mkRunResult (out s) (next_commit_version s).

End executor.
Arguments state : clear implicits.
End DeterministicExecutor.
