(* ===== verification/TxnCorrect.v ===== *)
(** TxnCorrect: the executor of txn/DeterministicExecutor.hpp against the
    reference of txn/Oracle.hpp.

    The executor is proved against the storage interface [EngineSpec] and then
    instantiated with the storage engine it is built on.  [exec_inv] relates its
    state to the writes committed so far: the engine snapshot recorded for a
    prefix answers every key as the store after that prefix does. *)

From Stdlib Require Import ZArith Lia Sorting.Sorted.
From stdpp Require Import base list numbers gmap.
From S2P Require Import Prelude Core Disk Mvcc Oracle Memtable WalEngine WalInvariant WalRefine Txn.
Module O := StrictSerialOracle.
Module X := DeterministicExecutor.

(** ** Ordered maps *)

Section maps.
Context {A : Type}.
Implicit Types m : list (Key * A).

Lemma map_set_in k v m p : In p (map_set k v m) -> p = (k, v) \/ In p m.
Proof.
  induction m as [|[k' v'] m IH]; cbn; [naive_solver|].
  destruct (key_ltb k' k); cbn; [naive_solver|]. destruct (key_eqb_spec k' k); cbn; naive_solver.
Qed.

Lemma map_set_sorted k v m : key_sorted m -> key_sorted (map_set k v m).
Proof.
  induction m as [|[k' v'] m IH]; intros Hs; cbn [map_set]; [repeat constructor|].
  pose proof (key_sorted_cons_inv _ _ _ Hs) as [Hs' Hlt].
  destruct (key_ltb k' k) eqn:E.
  - apply key_sorted_cons; [by apply IH|]. intros k2 v2 Hin. apply map_set_in in Hin as [[= -> ->]|Hin]; eauto.
  - destruct (key_eqb_spec k' k) as [->|Hne].
    + by apply key_sorted_cons.
    + destruct (key_trichotomy k' k) as [|[|Hk]]; [congruence|done|].
      apply key_sorted_cons; [done|]. intros k2 v2 [[= <- <-]|Hin]; [done|].
      eapply key_ltb_trans; eauto.
Qed.

Lemma assoc_map_set k v m k2 :
  key_sorted m -> assoc k2 (map_set k v m) = if key_eqb k k2 then Some v else assoc k2 m.
Proof.
  induction m as [|[k' v'] m IH]; intros Hs; cbn [map_set assoc]; [done|].
  pose proof (key_sorted_cons_inv _ _ _ Hs) as [Hs' Hlt].
  destruct (key_ltb k' k) eqn:E; cbn [assoc].
  - destruct (key_eqb_spec k' k2) as [->|]; [|by apply IH].
    destruct (key_eqb_spec k k2) as [->|]; [|done]. by rewrite key_ltb_irrefl in E.
  - destruct (key_eqb_spec k' k) as [->|Hne]; cbn [assoc]; [by destruct (key_eqb k k2)|done].
Qed.
End maps.

(** ** The work queue *)

Section queue.
Context {S : Type} (step : QueueEntry -> S -> S * option QueueEntry) (max : Z).

Definition entry_ok (p : QueueEntry) : Prop := 0 <= p_retries p <= max.

(** A step puts an entry back only with one more retry within the bound. *)
Definition bounded_step : Prop := forall p s s' p',
  entry_ok p -> step p s = (s', Some p') ->
  p_txn p' = p_txn p /\ p_retries p < max /\ p_retries p' = p_retries p + 1.

Definition turns (q : list QueueEntry) : nat :=
  list_sum (map (fun p => Datatypes.S (Z.to_nat (max - p_retries p))) q).

Lemma turns_app q q' : turns (q ++ q') = (turns q + turns q')%nat.
Proof. unfold turns. by rewrite map_app, list_sum_app. Qed.

(** The invariant rule: with a turn for each retry the queue is emptied. *)
Lemma run_queue_inv (P : list QueueEntry -> S -> Prop) :
  bounded_step ->
  (forall p q s s' a, Forall entry_ok (p :: q) -> P (p :: q) s -> step p s = (s', a) ->
                      P (q ++ option_list a) s') ->
  forall fuel q s, Forall entry_ok q -> P q s -> (turns q <= fuel)%nat ->
  P [] (run_queue step fuel q s).
Proof.
  intros Hb Hstep. induction fuel as [|fuel IH]; intros [|p q] s Hok HP Ht; cbn [run_queue];
    [done|cbn in Ht; lia|done|].
  destruct (step p s) as [s' a] eqn:E. pose proof (Hstep _ _ _ _ _ Hok HP E) as HP'.
  apply Forall_cons_1 in Hok as [Hp Hq]. unfold entry_ok in *.
  change (p :: q) with ([p] ++ q) in Ht. rewrite turns_app in Ht.
  unfold turns at 1 in Ht. cbn [map list_sum fold_right] in Ht.
  apply IH; [|done|].
  - apply Forall_app. split; [done|]. destruct a as [p'|]; [|constructor].
    destruct (Hb _ _ _ _ Hp E) as (_ & ? & ?). constructor; [lia|constructor].
  - rewrite turns_app. destruct a as [p'|]; cbn [option_list]; [|cbn; lia].
    destruct (Hb _ _ _ _ Hp E) as (_ & ? & ?). unfold turns at 2. cbn. lia.
Qed.
End queue.

Lemma initial_turns cfg txns :
  0 <= max_retry cfg -> turns (max_retry cfg) (initial_queue txns) = batch_fuel cfg txns.
Proof.
  intros H. unfold turns, initial_queue, batch_fuel. rewrite map_map. cbn [p_retries].
  rewrite Z.sub_0_r. induction txns as [|t txns IH]; [done|].
  change (list_sum (map ?f (t :: txns))) with (f t + list_sum (map f txns))%nat. cbn [length].
  rewrite IH. lia.
Qed.

Lemma initial_ok cfg txns :
  0 <= max_retry cfg -> Forall (entry_ok (max_retry cfg)) (initial_queue txns).
Proof.
  intros H. apply List.Forall_forall. intros p Hp. apply in_map_iff in Hp as (t & <- & _).
  unfold entry_ok. cbn. lia.
Qed.

(** Two executors in lockstep. *)
Lemma run_queue_sim {S T} (f : QueueEntry -> S -> S * option QueueEntry)
    (g : QueueEntry -> T -> T * option QueueEntry) (R : list QueueEntry -> S -> T -> Prop) :
  (forall p q s t, R (p :: q) s t ->
     (f p s).2 = (g p t).2 /\ R (q ++ option_list (f p s).2) (f p s).1 (g p t).1) ->
  forall fuel q s t, R q s t -> exists q', R q' (run_queue f fuel q s) (run_queue g fuel q t).
Proof.
  intros Hstep. induction fuel as [|fuel IH]; intros [|p q] s t HR; cbn [run_queue]; eauto.
  destruct (Hstep _ _ _ _ HR) as [Ha HR'].
  destruct (f p s) as [s' a], (g p t) as [t' b]. cbn in *. subst b. by apply IH.
Qed.

(** ** Committed writes *)

Definition is_committed (c : CommitInfo) : bool :=
  match c_status c with Committed => true | _ => false end.

Definition committed (out : list CommitInfo) : list CommitInfo := List.filter is_committed out.

Definition committed_writes (out : list CommitInfo) : list WriteSet :=
  map c_writes_committed (committed out).

(** The store after a list of write sets, the serial reference. *)
Definition store_after (ws : list WriteSet) : list (Key * Value) := fold_left O.apply_writes ws [].

Lemma committed_snoc out c :
  committed (out ++ [c]) = committed out ++ if is_committed c then [c] else [].
Proof. unfold committed. rewrite List.filter_app. cbn. by destruct (is_committed c). Qed.

Lemma committed_writes_snoc out c :
  committed_writes (out ++ [c]) =
  committed_writes out ++ if is_committed c then [c_writes_committed c] else [].
Proof. unfold committed_writes. rewrite committed_snoc, map_app. by destruct (is_committed c). Qed.

Lemma store_after_snoc ws w : store_after (ws ++ [w]) = O.apply_writes (store_after ws) w.
Proof. unfold store_after. by rewrite fold_left_app. Qed.

Lemma apply_writes_sorted ws : forall st, key_sorted st -> key_sorted (O.apply_writes st ws).
Proof. induction ws as [|kv ws IH]; intros st Hs; cbn; [done|]. by apply IH, map_set_sorted. Qed.

Lemma store_after_sorted ws : key_sorted (store_after ws).
Proof.
  induction ws as [|w ws IH] using rev_ind; [constructor|].
  rewrite store_after_snoc. by apply apply_writes_sorted.
Qed.

(** Committing the pairs one by one follows the map. *)
Lemma replay_writes ws : forall h st,
  key_sorted st -> (forall k, replay_key k h = assoc k st) ->
  forall k, replay_key k (h ++ puts ws) = assoc k (O.apply_writes st ws).
Proof.
  induction ws as [|[k0 v0] ws IH]; intros h st Hs Hst k; [by rewrite app_nil_r|].
  cbn [puts map O.apply_writes fold_left fst snd]. rewrite cons_middle, app_assoc.
  apply (IH (h ++ [Put k0 v0]) (map_set k0 v0 st)); [by apply map_set_sorted|].
  intros k1. rewrite replay_key_app. cbn. rewrite Hst, assoc_map_set by done. done.
Qed.

Lemma spec_get_tip h k : spec_get h k (Zlen h) = replay_key k h.
Proof. unfold spec_get. by rewrite take_ge by (unfold Zlen; lia). Qed.

(** ** The executor's state *)

Section executor.
Context {E : Type} `{HE : EngineSpec E} (cfg : ExecConfig) (W N : Z).
Hypothesis Hcfg : 0 <= max_retry cfg < 2 ^ 64 /\ 0 <= replica_lag cfg.
Hypothesis HW : 0 <= W.
Hypothesis HN : N < 2 ^ 64.

(** A transaction within the write budget, its fields unsigned. *)
Definition txn_ok (t : Txn) : Prop :=
  (forall rv, Zlen (oc_writes (run_body t rv)) <= W) /\
  forall r, In r (declared_reads t) -> 0 <= r_snapshot_version r.

Lemma put_all_erun ws : forall e : E, X.put_all ws e = erun (puts ws) e.
Proof. induction ws as [|kv ws IH]; intros e; [done|]. apply (IH (eput kv.1 kv.2 e).2). Qed.

Record exec_inv (q : list QueueEntry) (s : X.state E) (h : list op) : Prop := {
  x_repr : repr (X.engine s) h;
  x_len : length (X.commit_snap s) = Datatypes.S (length (committed_writes (X.out s)));
  x_version : X.next_commit_version s = Zlen (committed_writes (X.out s));
  x_snap : forall p, (p <= length (committed_writes (X.out s)))%nat ->
    0 <= nth p (X.commit_snap s) 0 <= Zlen h /\
    forall k, spec_get h k (nth p (X.commit_snap s) 0) =
              assoc k (store_after (take p (committed_writes (X.out s))));
  x_tip : forall k, replay_key k h = assoc k (store_after (committed_writes (X.out s)));
  x_session : forall x, In x (X.session_last_write s) -> x.2 <= X.next_commit_version s;
  x_txns : forall p, In p q -> txn_ok (p_txn p);
  x_budget : Zlen h + W * Zlen q <= capacity;
  x_count : Zlen (committed_writes (X.out s)) + Zlen q <= N
}.

(** *** Reads *)

(** What a served read promises, for a transaction at serial prefix [n]. *)
Record served_ok (ws : list WriteSet) (n : Z) (r : ServedRead) : Prop := {
  so_range : 0 <= s_served_version r <= n;
  so_value : s_value r = assoc (s_key r) (store_after (take (Z.to_nat (s_served_version r)) ws));
  so_strict : s_level r = StrictSerializable -> s_served_version r = n;
  so_bounded : s_level r = BoundedStaleness -> n - replica_lag cfg <= s_served_version r;
  so_ryw : s_level r = ReadYourWrites -> s_served_version r = n
}.

Definition shared_ok (n : Z) (shared : option Z) : Prop :=
  match shared with Some p => 0 <= p <= n | None => True end.

Lemma find_session_le q s h session k v :
  exec_inv q s h -> X.find_session session k (X.session_last_write s) = Some v ->
  v <= X.next_commit_version s.
Proof.
  intros Hs Hf. unfold X.find_session in Hf.
  destruct (List.find _ _) as [x|] eqn:Ef; [|done]. cbn in Hf. injection Hf as <-.
  apply find_some in Ef as [Hx _]. by eapply x_session.
Qed.

(** The prefix of each level. *)
Lemma read_prefix_ok q s h shared r p shared' :
  exec_inv q s h -> 0 <= r_snapshot_version r -> shared_ok (X.next_commit_version s) shared ->
  X.read_prefix cfg (X.session_last_write s) (X.next_commit_version s) shared r = (p, shared') ->
  let n := X.next_commit_version s in
  0 <= p <= n /\ shared_ok n shared' /\
  (r_level r = StrictSerializable -> p = n) /\
  (r_level r = BoundedStaleness -> n - replica_lag cfg <= p) /\
  (r_level r = ReadYourWrites -> p = n) /\
  (r_level r = Snapshot -> shared' = Some p) /\
  (forall p0, shared = Some p0 -> shared' = Some p0).
Proof.
  intros Hs Hv Hsh Hp. cbv zeta.
  assert (Hn : 0 <= X.next_commit_version s) by (rewrite (x_version _ _ _ Hs); apply Zlen_nonneg).
  unfold X.read_prefix in Hp. destruct (r_level r); injection Hp as <- <-.
  - split_and!; done || lia.
  - destruct shared as [p0|]; cbn in Hsh |- *; [split_and!; done || lia|].
    destruct (negb _ && _) eqn:Ec; cbn; split_and!; done || lia.
  - destruct (replica_lag cfg <? X.next_commit_version s) eqn:El; split_and!; done || lia.
  - destruct (X.find_session _ _ _) as [w|] eqn:Ef; [|split_and!; done || lia].
    apply (find_session_le _ _ _ _ _ _ Hs) in Ef.
    rewrite (proj2 (Z.ltb_ge _ _)) by lia. split_and!; done || lia.
Qed.

(** The read loop over accumulated results. *)
Record serve_post (n : Z) (ws : list WriteSet) (shared : option Z)
    (served served' : list ServedRead) : Prop := {
  sp_ok : forall r, In r served' -> In r served \/ served_ok ws n r;
  sp_snap : exists p, (forall p0, shared = Some p0 -> p = p0) /\
    forall r, In r served' -> In r served \/ (s_level r = Snapshot -> s_served_version r = p)
}.

Lemma serve_post_ok q s h t rs : forall shared reads served reads' served',
  exec_inv q s h -> (forall r, In r rs -> 0 <= r_snapshot_version r) ->
  shared_ok (X.next_commit_version s) shared ->
  X.serve cfg t s (X.next_commit_version s) shared rs reads served = (reads', served') ->
  serve_post (X.next_commit_version s) (committed_writes (X.out s)) shared served served'.
Proof.
  induction rs as [|r rs IH]; intros shared reads served reads' served' Hs Hr Hsh Hrun;
    cbn [X.serve] in Hrun.
  - injection Hrun as <- <-. split; [by left|].
    exists (default 0 shared). split; [by intros ? ->|by left].
  - destruct (X.read_prefix _ _ _ _ _) as [p shared'] eqn:Ep.
    destruct (read_prefix_ok q s h shared r p shared' Hs (Hr r (or_introl eq_refl)) Hsh Ep)
      as (Hp & Hsh' & H1 & H2 & H3 & H4 & H5).
    destruct (IH _ _ _ _ _ Hs (fun x Hx => Hr x (or_intror Hx)) Hsh' Hrun) as [Hok (p0 & Hp0 & Hsnap)].
    assert (Hnew : served_ok (committed_writes (X.out s)) (X.next_commit_version s)
      (mkServedRead (r_key r) (r_level r) p (r_session r) (r_max_lag r)
         (eget (r_key r) (nth (Z.to_nat p) (X.commit_snap s) kNoSeq) (X.engine s)))).
    { rewrite (x_version _ _ _ Hs) in Hp. unfold Zlen in Hp.
      destruct (x_snap _ _ _ Hs (Z.to_nat p)) as [Hb Hg]; [lia|].
      split; cbn; try done; [rewrite (x_version _ _ _ Hs); unfold Zlen; lia|].
      rewrite (get_spec _ h _ _ (x_repr _ _ _ Hs) (proj1 Hb)). apply Hg. }
    split.
    + intros x Hx. destruct (Hok x Hx) as [Hin|]; [|by right].
      apply in_app_or in Hin as [|[<-|[]]]; [by left|by right].
    + exists p0. split; [intros p1 ->; by apply Hp0, H5|]. intros x Hx.
      destruct (Hsnap x Hx) as [Hin|]; [|by right].
      apply in_app_or in Hin as [|[<-|[]]]; [by left|]. right. cbn. intros Hl.
      symmetry. by apply Hp0, H4.
Qed.

(** The body's view of a key with a strict read is its value at the transaction's
    own prefix: a relaxed read of the same key does not replace it. *)
Lemma serve_view q s h t rs : forall shared reads served reads' served',
  exec_inv q s h -> (forall r, In r rs -> In r (declared_reads t)) -> key_sorted reads ->
  X.serve cfg t s (X.next_commit_version s) shared rs reads served = (reads', served') ->
  forall k, X.has_strict t k = true ->
  (assoc k reads = Some (assoc k (store_after (committed_writes (X.out s)))) \/
   exists r, In r rs /\ r_level r = StrictSerializable /\ r_key r = k) ->
  assoc k reads' = Some (assoc k (store_after (committed_writes (X.out s)))).
Proof.
  induction rs as [|r rs IH]; intros shared reads served reads' served' Hs Hd Hk Hrun k Hst Hor;
    cbn [X.serve] in Hrun.
  { injection Hrun as <- <-. destruct Hor as [|(r & [] & _)]. done. }
  destruct (X.read_prefix _ _ _ _ _) as [p shared'] eqn:Ep.
  set (v := eget _ _ _) in Hrun. set (val := assoc k (store_after _)) in *.
  assert (Hv : r_level r = StrictSerializable -> r_key r = k -> v = val).
  { intros Hl <-. unfold X.read_prefix in Ep. rewrite Hl in Ep. injection Ep as <- _.
    unfold v, val. rewrite (x_version _ _ _ Hs). unfold Zlen. rewrite Nat2Z.id.
    destruct (x_snap _ _ _ Hs (length (committed_writes (X.out s)))) as [Hb Hg]; [lia|].
    rewrite (get_spec _ h _ _ (x_repr _ _ _ Hs) (proj1 Hb)).
    etransitivity; [apply Hg|]. by rewrite take_ge by lia. }
  refine (IH _ _ _ _ _ Hs (fun x Hx => Hd x (or_intror Hx)) _ Hrun k Hst _);
    [destruct (_ || _); [by apply map_set_sorted|done]|].
  destruct (decide (r_key r = k)) as [Hrk|Hrk].
  - destruct (bool_decide (r_level r = StrictSerializable)) eqn:Hl.
    + left. cbn [orb]. apply bool_decide_eq_true in Hl.
      rewrite assoc_map_set, Hrk, key_eqb_refl by done. by rewrite Hv.
    + rewrite Hrk, Hst. cbn [orb negb]. destruct Hor as [|(x & [<-|Hx] & Hxl & Hxk)]; [by left| |eauto].
      apply bool_decide_eq_false in Hl. done.
  - destruct Hor as [Ha|(x & [<-|Hx] & Hxl & Hxk)]; [|done|eauto].
    left. destruct (_ || _); [|done]. rewrite assoc_map_set by done.
    by rewrite (proj2 (key_eqb_neq _ _)).
Qed.

(** The served reads list the declared reads in order. *)
Lemma serve_declared t s n rs : forall shared reads served reads' served',
  X.serve cfg t s n shared rs reads served = (reads', served') ->
  map (fun r => (s_key r, s_level r)) served' =
  map (fun r => (s_key r, s_level r)) served ++ map (fun r => (r_key r, r_level r)) rs.
Proof.
  induction rs as [|r rs IH]; intros shared reads served reads' served' Hrun; cbn [X.serve] in Hrun.
  - injection Hrun as <- <-. by rewrite app_nil_r.
  - destruct (X.read_prefix _ _ _ _ _) as [p shared']. apply IH in Hrun. rewrite Hrun, map_app.
    by rewrite <- app_assoc.
Qed.

(** *** Commits *)

Lemma served_ok_extend ws w n r : n <= Zlen ws -> served_ok ws n r -> served_ok (ws ++ [w]) n r.
Proof.
  intros Hn [H1 H2 H3 H4 H5]. split; try done. rewrite H2.
  by rewrite take_app_le by (unfold Zlen in Hn; lia).
Qed.

(** What the record of the commit at position [i] promises. *)
Record info_ok (ws : list WriteSet) (i : Z) (c : CommitInfo) : Prop := {
  io_index : c_seq_index c = i + 1 /\ c_commit_version c = i + 1;
  io_valid : c_footprint_valid c = true /\ 0 <= c_retries c <= max_retry cfg;
  io_served : forall r, In r (c_served_reads c) -> served_ok ws i r;
  io_snapshot : exists p, forall r, In r (c_served_reads c) ->
                          s_level r = Snapshot -> s_served_version r = p;
  io_view : forall r, In r (c_served_reads c) -> s_level r = StrictSerializable ->
            assoc (s_key r) (c_reads_observed c) = Some (assoc (s_key r) (store_after (take (Z.to_nat i) ws)))
}.

Definition infos_ok (out : list CommitInfo) : Prop :=
  forall i c, committed out !! i = Some c -> info_ok (committed_writes out) (Z.of_nat i) c.

Lemma length_committed_writes out : length (committed_writes out) = length (committed out).
Proof. unfold committed_writes. apply length_map. Qed.

Lemma infos_ok_abort out c : is_committed c = false -> infos_ok out -> infos_ok (out ++ [c]).
Proof.
  intros Hc Ho i x. rewrite committed_snoc, committed_writes_snoc, Hc, !app_nil_r. apply Ho.
Qed.

Lemma infos_ok_commit out c :
  is_committed c = true -> infos_ok out ->
  info_ok (committed_writes out) (Zlen (committed_writes out)) c -> infos_ok (out ++ [c]).
Proof.
  intros Hc Ho Hnew i x. rewrite committed_snoc, committed_writes_snoc, Hc. intros Hx.
  assert (Hext : forall j y, j <= Zlen (committed_writes out) ->
    info_ok (committed_writes out) j y -> info_ok (committed_writes out ++ [c_writes_committed c]) j y).
  { intros j y Hj [H1 H2 H3 H4 H5]. split; try done; [intros r Hr; by apply served_ok_extend; auto|].
    intros r Hr Hl. rewrite take_app_le by (unfold Zlen in Hj; lia). auto. }
  apply lookup_app_Some in Hx as [Hx|[Hge Hx]].
  - apply Hext; [|by apply Ho]. apply lookup_lt_Some in Hx. unfold Zlen. rewrite length_committed_writes. lia.
  - assert (i = length (committed out) /\ x = c) as [-> ->].
    { destruct (i - length (committed out))%nat as [|m] eqn:Em; [|by destruct m].
      cbn in Hx. injection Hx as <-. split; [lia|done]. }
    rewrite <- length_committed_writes. by apply Hext.
Qed.

(** *** One turn *)

Lemma step_bounded : bounded_step (X.step (E := E) cfg) (max_retry cfg).
Proof.
  intros p s s' p' Hp Hst. unfold X.step in Hst. unfold entry_ok in Hp.
  destruct (X.serve _ _ _ _ _ _ _ _) as [reads served].
  destruct (negb (footprint_ok _ _)); [|done].
  destruct (p_retries p <? max_retry cfg) eqn:Er; [|done]. injection Hst as <- <-.
  cbn. split_and!; [done|lia|]. apply u64_id. lia.
Qed.

Lemma exec_inv_queue q q' s h :
  Zlen q' = Zlen q -> (forall p, In p q' -> txn_ok (p_txn p)) -> exec_inv q s h -> exec_inv q' s h.
Proof. intros Hl Hin [? ? ? ? ? ? ? ? ?]. split; try done; by rewrite Hl. Qed.

Lemma Zlen_cons {A} (x : A) l : Zlen (x :: l) = Zlen l + 1.
Proof. unfold Zlen. cbn [length]. lia. Qed.

(** Dropping the front entry after an abort. *)
Lemma exec_inv_abort p q s h c :
  is_committed c = false -> exec_inv (p :: q) s h ->
  exec_inv q (X.mkState (X.engine s) (X.session_last_write s) (X.commit_snap s)
                        (X.next_commit_version s) (X.out s ++ [c])) h.
Proof.
  intros Hc [H1 H2 H3 H4 H5 H6 H7 H8 H9]. rewrite Zlen_cons in *.
  split; cbn [X.engine X.session_last_write X.commit_snap X.next_commit_version X.out];
    rewrite ?committed_writes_snoc, ?Hc, ?app_nil_r; try done; try lia; try nia.
  intros x Hx. apply H7. by right.
Qed.

Lemma note_session_le v ws rs : forall m,
  (forall x, In x m -> x.2 <= v) ->
  forall x, In x (fold_left (X.note_session v ws) rs m) -> x.2 <= v.
Proof.
  induction rs as [|r rs IH]; intros m Hm; cbn [fold_left]; [done|]. apply IH.
  unfold X.note_session. destruct (_ && _); [|done]. clear IH. revert m Hm.
  induction ws as [|kv ws IH]; intros m Hm; cbn [fold_left]; [done|]. apply IH.
  intros x [<-|Hx]; [cbn; lia|by apply Hm].
Qed.

(** The engine and the snapshots after a commit. *)
Lemma exec_inv_commit p q s h c rs :
  is_committed c = true -> Zlen (c_writes_committed c) <= W -> exec_inv (p :: q) s h ->
  let e := X.put_all (c_writes_committed c) (X.engine s) in
  let v := u64 (X.next_commit_version s + 1) in
  v = X.next_commit_version s + 1 /\
  exec_inv q (X.mkState e (fold_left (X.note_session v (c_writes_committed c)) rs (X.session_last_write s))
                (X.commit_snap s ++ [esnapshot e]) v (X.out s ++ [c])) (h ++ puts (c_writes_committed c)).
Proof.
  intros Hc HWs [H1 H2 H3 H4 H5 H6 H7 H8 H9]. cbv zeta. rewrite Zlen_cons in *.
  set (w := c_writes_committed c) in *. set (ws := committed_writes (X.out s)) in *.
  pose proof (Zlen_nonneg ws) as Hz1. pose proof (Zlen_nonneg q) as Hz2.
  assert (Hv : u64 (X.next_commit_version s + 1) = X.next_commit_version s + 1)
    by (apply u64_id; lia).
  assert (Hpl : Zlen (puts w) = Zlen w) by (unfold Zlen, puts; by rewrite length_map).
  assert (Hcap : Zlen (h ++ puts w) <= capacity) by (rewrite Zlen_app, Hpl; nia).
  rewrite Hv. split; [done|]. rewrite put_all_erun.
  pose proof (erun_repr (puts w) _ h H1 Hcap) as Hr.
  assert (Htip : forall k, replay_key k (h ++ puts w) = assoc k (store_after (ws ++ [w])))
    by (rewrite store_after_snoc; apply replay_writes; [apply store_after_sorted|done]).
  assert (Hws : committed_writes (X.out s ++ [c]) = ws ++ [w]) by (by rewrite committed_writes_snoc, Hc).
  split; cbn [X.engine X.session_last_write X.commit_snap X.next_commit_version X.out];
    rewrite ?Hws, ?length_app, ?Zlen_app; cbn [length]; try done.
  - lia.
  - rewrite H3. done.
  - intros n Hn. destruct (decide (n <= length ws)%nat) as [Hle|Hgt].
    + destruct (H4 n Hle) as [Hb Hg]. rewrite app_nth1 by lia. split; [pose proof (Zlen_nonneg (puts w)); lia|].
      intros k. rewrite spec_get_app by lia. by rewrite take_app_le by lia.
    + assert (n = length (X.commit_snap s)) as -> by lia. rewrite nth_middle, (snapshot_spec _ _ Hr).
      rewrite Zlen_app. split; [pose proof (Zlen_nonneg h); pose proof (Zlen_nonneg (puts w)); lia|].
      intros k. rewrite <- Zlen_app, spec_get_tip, take_ge by (rewrite length_app; cbn; lia). done.
  - apply note_session_le. intros x Hx. specialize (H6 x Hx). lia.
  - intros x Hx. apply H7. by right.
  - rewrite Hpl. nia.
  - change (Zlen [w]) with 1. lia.
Qed.

(** A commit's record keeps its promises. *)
Lemma commit_info_ok p q s h reads served :
  exec_inv (p :: q) s h -> entry_ok (max_retry cfg) p ->
  X.serve cfg (p_txn p) s (X.next_commit_version s) None (declared_reads (p_txn p)) [] [] = (reads, served) ->
  info_ok (committed_writes (X.out s)) (Zlen (committed_writes (X.out s)))
    (commit_info p (X.next_commit_version s + 1) (X.next_commit_version s + 1) reads
       (run_body (p_txn p) reads) served).
Proof.
  intros Hs Hp Hrun. pose proof (x_version _ _ _ Hs) as Hn. rewrite Hn in *.
  pose proof (x_txns _ _ _ Hs p (or_introl eq_refl)) as [_ Hr].
  pose proof (serve_declared _ _ _ _ _ _ _ _ _ Hrun) as Hdecl. cbn [map app] in Hdecl.
  rewrite <- Hn in Hrun. 
  destruct (serve_post_ok _ _ _ _ _ None _ _ _ _ Hs Hr I Hrun) as [Hok (p0 & _ & Hsn)].
  rewrite Hn in Hok. split; cbn [commit_info c_seq_index c_commit_version c_footprint_valid c_retries
    c_served_reads c_reads_observed]; try done.
  - intros r Hin. by destruct (Hok r Hin) as [[]|].
  - exists p0. intros r Hin. by destruct (Hsn r Hin) as [[]|].
  - intros r Hin Hl. rewrite take_ge by (unfold Zlen; lia).
    assert (Hin' : In (s_key r, s_level r) (map (fun r => (r_key r, r_level r)) (declared_reads (p_txn p)))).
    { rewrite <- Hdecl. by apply (in_map (fun r => (s_key r, s_level r))). }
    apply in_map_iff in Hin' as (d & Hd & Hdin). injection Hd as Hk Hlev.
    apply (serve_view _ _ _ _ _ _ _ _ _ _ Hs (fun _ H => H) ltac:(constructor) Hrun).
    + apply existsb_exists. exists d. split; [done|].
      rewrite bool_decide_true by congruence. rewrite Hk. apply key_eqb_refl.
    + right. exists d. split_and!; [done|congruence|done].
Qed.

(** The batch so far: every transaction is decided or queued. *)
Definition batch_inv (ids : list Z) (q : list QueueEntry) (s : X.state E) : Prop :=
  exists h, exec_inv q s h /\ infos_ok (X.out s) /\
    map c_txn_id (X.out s) ++ map (fun p => t_id (p_txn p)) q ≡ₚ ids /\
    Forall (fun c => c_status c <> Pending /\ 0 <= c_retries c <= max_retry cfg) (X.out s).

Lemma step_inv ids p q s s' a :
  Forall (entry_ok (max_retry cfg)) (p :: q) -> batch_inv ids (p :: q) s ->
  X.step cfg p s = (s', a) -> batch_inv ids (q ++ option_list a) s'.
Proof.
  intros Hok (h & Hs & Hinf & Hperm & Hall) Hst. apply Forall_cons_1 in Hok as [Hp _].
  unfold X.step in Hst. destruct (X.serve _ _ _ _ _ _ _ _) as [reads served] eqn:Erun.
  pose proof (commit_info_ok _ _ _ _ _ _ Hs Hp Erun) as Hci.
  assert (Hmove : forall c, c_txn_id c = t_id (p_txn p) ->
    map c_txn_id (X.out s ++ [c]) ++ map (fun p => t_id (p_txn p)) q ≡ₚ ids).
  { intros c Hc. rewrite <- Hperm, map_app, <- app_assoc. cbn. by rewrite Hc. }
  unfold batch_inv. destruct (negb (footprint_ok _ _)).
  - destruct (p_retries p <? max_retry cfg); injection Hst as <- <-.
    + exists h. cbn [option_list]. split_and!; [|done| |done].
      * apply (exec_inv_queue (p :: q)); [unfold Zlen; rewrite length_app; cbn; lia| |done].
        intros x Hx. apply in_app_or in Hx as [Hx|[<-|[]]].
        -- apply (x_txns _ _ _ Hs). by right.
        -- apply (x_txns _ _ _ Hs p). by left.
      * rewrite <- Hperm, map_app. cbn. rewrite (Permutation_app_comm (map _ q)). done.
    + exists h. cbn [option_list X.out]. rewrite app_nil_r. split_and!.
      * by apply (exec_inv_abort p).
      * by apply infos_ok_abort.
      * by apply Hmove.
      * apply Forall_app. split; [done|]. apply Forall_singleton. split; [done|apply Hp].
  - injection Hst as <- <-. cbn [option_list X.out]. rewrite app_nil_r.
    set (c := commit_info _ _ _ _ _ _).
    destruct (exec_inv_commit p q s h c (declared_reads (p_txn p)) eq_refl) as [Hv Hx]; [|done|].
    { apply (x_txns _ _ _ Hs p (or_introl eq_refl)). }
    eexists. split_and!; [exact Hx| |by apply Hmove|].
    + apply infos_ok_commit; [done..|]. unfold c. by rewrite Hv.
    + apply Forall_app. split; [done|]. apply Forall_singleton. split; [done|apply Hp].
Qed.

(** ** Whole batches *)

Lemma start_inv e txns :
  repr e [] -> (forall t, In t txns -> txn_ok t) -> W * Zlen txns <= capacity -> Zlen txns <= N ->
  exec_inv (initial_queue txns) (X.mkState e [] [kNoSeq] 0 []) [].
Proof.
  intros He Ht Hc Hn. assert (Hl : Zlen (initial_queue txns) = Zlen txns)
    by (unfold Zlen, initial_queue; by rewrite length_map).
  split; cbn [X.engine X.session_last_write X.commit_snap X.next_commit_version X.out]; try done.
  - intros p Hp. assert (p = 0%nat) as -> by (cbn in Hp; lia). done.
  - intros p Hp. apply in_map_iff in Hp as (t & <- & Hin). by apply Ht.
  - rewrite Hl. exact Hc.
  - rewrite Hl. exact Hn.
Qed.

Lemma batch_correct e txns :
  repr e [] -> (forall t, In t txns -> txn_ok t) -> W * Zlen txns <= capacity -> Zlen txns <= N ->
  exists s, X.run_batch e txns cfg = mkRunResult (X.out s) (X.next_commit_version s) /\
            batch_inv (map t_id txns) [] s.
Proof.
  intros He Ht Hc Hn. eexists. split; [reflexivity|].
  apply (run_queue_inv (X.step cfg) (max_retry cfg) (batch_inv (map t_id txns))).
  - apply step_bounded.
  - intros. by eapply step_inv.
  - apply initial_ok; lia.
  - exists []. split_and!; [by apply start_inv|by intros i c Hi| |constructor].
    cbn [X.out map app]. unfold initial_queue. by rewrite map_map.
  - rewrite initial_turns by lia. done.
Qed.

(** ** Strict batches follow the reference *)

Definition strict_txn (t : Txn) : Prop :=
  forall r, In r (declared_reads t) -> r_level r = StrictSerializable.

Lemma serve_strict q s h t rs : forall shared reads served,
  exec_inv q s h -> (forall r, In r rs -> r_level r = StrictSerializable) ->
  X.serve cfg t s (X.next_commit_version s) shared rs reads served =
  O.serial_serve (store_after (committed_writes (X.out s))) (X.next_commit_version s) rs reads served.
Proof.
  induction rs as [|r rs IH]; intros shared reads served Hs Hr; [done|].
  cbn [X.serve O.serial_serve]. unfold X.read_prefix, O.make_served. rewrite (Hr r (or_introl eq_refl)).
  rewrite bool_decide_true by done. cbn [orb].
  assert (Hv : eget (r_key r) (nth (Z.to_nat (X.next_commit_version s)) (X.commit_snap s) kNoSeq)
                 (X.engine s) = assoc (r_key r) (store_after (committed_writes (X.out s)))).
  { rewrite (x_version _ _ _ Hs). unfold Zlen. rewrite Nat2Z.id.
    destruct (x_snap _ _ _ Hs (length (committed_writes (X.out s)))) as [Hb Hg]; [lia|].
    rewrite (get_spec _ h _ _ (x_repr _ _ _ Hs) (proj1 Hb)).
    etransitivity; [apply Hg|]. by rewrite take_ge by lia. }
  rewrite Hv. apply IH; [done|]. intros x Hx. apply Hr. by right.
Qed.

(** The reference and the executor in the same state. *)
Record same_state (q : list QueueEntry) (o : O.serial_state) (s : X.state E) : Prop := {
  ss_exec : exists h, exec_inv q s h;
  ss_ok : Forall (entry_ok (max_retry cfg)) q;
  ss_strict : forall p, In p q -> strict_txn (p_txn p);
  ss_store : O.store_ o = store_after (committed_writes (X.out s));
  ss_version : O.version o = X.next_commit_version s /\ O.next_seq_index o = X.next_commit_version s;
  ss_out : O.out o = X.out s
}.

Lemma same_step p q o s :
  same_state (p :: q) o s ->
  (O.serial_step cfg p o).2 = (X.step cfg p s).2 /\
  same_state (q ++ option_list (O.serial_step cfg p o).2) (O.serial_step cfg p o).1 (X.step cfg p s).1.
Proof.
  intros [[h Hs] Hok Hst Hstore [Hv1 Hv2] Hout].
  pose proof (Forall_inv Hok) as Hp. pose proof (Forall_inv_tail Hok) as Hq.
  assert (Hserve := serve_strict _ _ _ (p_txn p) _ None [] [] Hs (Hst p (or_introl eq_refl))).
  unfold O.serial_step, X.step. rewrite Hstore, Hv1, Hv2, Hserve, Hout.
  destruct (O.serial_serve _ _ _ _ _) as [reads served]. set (oc := run_body (p_txn p) reads).
  destruct (negb (footprint_ok _ oc)).
  - destruct (p_retries p <? max_retry cfg) eqn:Er; cbn [fst snd option_list]; (split; [done|]).
    + assert (Hin : forall x, In x (q ++ [mkPending (p_txn p) (u64 (p_retries p + 1))]) ->
                              exists y, In y (p :: q) /\ p_txn x = p_txn y).
      { intros x Hx. apply in_app_or in Hx as [Hx|[<-|[]]]; [exists x|exists p]; split; done || by constructor. }
      split; try done.
      * exists h. apply (exec_inv_queue (p :: q)); [unfold Zlen; rewrite length_app; cbn; lia| |done].
        intros x Hx. destruct (Hin x Hx) as (y & Hy & ->). by apply (x_txns _ _ _ Hs).
      * apply Forall_app. split; [done|]. apply Forall_singleton. unfold entry_ok in *. cbn.
        rewrite u64_id by lia. lia.
      * intros x Hx. destruct (Hin x Hx) as (y & Hy & ->). by apply Hst.
    + rewrite app_nil_r. split; cbn [O.store_ O.version O.next_seq_index O.out X.out X.next_commit_version];
        try done; [exists h; by apply (exec_inv_abort p)| |].
      * intros x Hx. apply Hst. by right.
      * by rewrite committed_writes_snoc, app_nil_r.
  - cbn [fst snd option_list]. split; [done|]. rewrite app_nil_r.
    set (v := u64 (X.next_commit_version s + 1)). set (c := commit_info p v v reads oc served).
    destruct (exec_inv_commit p q s h c (declared_reads (p_txn p)) eq_refl) as [Hv Hx]; [|done|].
    { apply (x_txns _ _ _ Hs p (or_introl eq_refl)). }
    split; cbn [O.store_ O.version O.next_seq_index O.out X.out X.next_commit_version];
      try done; [eexists; exact Hx| |].
    + intros x Hxx. apply Hst. by right.
    + rewrite committed_writes_snoc. change (is_committed c) with true. cbn iota.
      by rewrite store_after_snoc.
Qed.

Lemma strict_batch e txns :
  repr e [] -> (forall t, In t txns -> txn_ok t) -> W * Zlen txns <= capacity -> Zlen txns <= N ->
  (forall t, In t txns -> strict_txn t) ->
  X.run_batch e txns cfg = O.submit_batch txns cfg.
Proof.
  intros He Ht Hc Hn Hst. unfold X.run_batch, O.submit_batch.
  destruct (run_queue_sim (O.serial_step cfg) (X.step cfg) same_state same_step (batch_fuel cfg txns)
              (initial_queue txns) (O.mkSerial [] kNoSeq 0 []) (X.mkState e [] [kNoSeq] 0 []))
    as [q' [_ _ _ _ [H1 _] H2]].
  - split; try done; [exists []; by apply start_inv|apply initial_ok; lia|].
    intros p Hp. apply in_map_iff in Hp as (t & <- & Hin). by apply Hst.
  - by rewrite H1, H2.
Qed.

End executor.

(** ** The executor as it is built *)

(** [submit_batch]: a WAL-only engine on a faultless simulated disk. *)
Definition submit_batch (txns : list Txn) (cfg : ExecConfig) : RunResult :=
  X.run_batch (H := @wal_ops WalEngine.default_factory)
    (WalEngine.wal_only, WalEngine.mkIo empty_disk empty_disk ∅ []) txns cfg.

(** A batch of unsigned fields whose bodies write at most [W] keys each and
    together fit an engine of capacity [cap]. *)
Record batch_ok (cap W : Z) (txns : list Txn) (cfg : ExecConfig) : Prop := {
  bk_cfg : 0 <= max_retry cfg < 2 ^ 64 /\ 0 <= replica_lag cfg;
  bk_writes : 0 <= W;
  bk_txns : forall t, In t txns -> txn_ok W t;
  bk_cap : W * Zlen txns <= cap;
  bk_len : Zlen txns < 2 ^ 64
}.

(** ** Properties *)

(** C15: strict serializability.  On a batch of strict reads the executor over
    the real storage engine returns the reference oracle's result, record for
    record: the same commits, aborts and retries in the same order, the same
    reads observed, writes, results and versions. *)
Theorem submit_batch_strict_serial W txns cfg :
  batch_ok kCap W txns cfg -> (forall t, In t txns -> strict_txn t) ->
  submit_batch txns cfg = O.submit_batch txns cfg.
Proof.
  intros [Hc HW Ht Hcap Hl] Hst. unfold submit_batch.
  eapply (strict_batch (HE := @wal_spec WalEngine.default_factory) cfg W (Zlen txns)); try done.
  apply (fresh_inv _ wal_only_fresh).
Qed.

(** C17: every read is served at the prefix its level promises.  For any engine
    behind the interface and any mix of levels, the [i]-th committed
    transaction carries version [i+1], and each of its reads returns the value
    its key had after some prefix of the commits before it: its own prefix for
    strict and read-your-writes reads, one shared prefix for the snapshot
    reads, one at most [replica_lag] behind for bounded staleness; the body saw
    the strict values. *)
Theorem reads_match_serial_prefix {E} `{EngineSpec E} W txns cfg (e : E) :
  repr e [] -> batch_ok capacity W txns cfg ->
  let out := commits (X.run_batch e txns cfg) in
  forall i c, committed out !! i = Some c -> info_ok cfg (committed_writes out) (Z.of_nat i) c.
Proof.
  intros He [Hc HW Ht Hcap Hl].
  destruct (batch_correct cfg W (Zlen txns) Hc HW Hl e txns He Ht Hcap) as (s & -> & h & _ & Hi & _);
    [done|]. exact Hi.
Qed.

(** C21: exactly once, and never stuck.  The batch terminates with every
    submitted transaction decided exactly once, committed or aborted, within the
    retry bound, and the tip is the number of commits. *)
Theorem batch_exactly_once {E} `{EngineSpec E} W txns cfg (e : E) :
  repr e [] -> batch_ok capacity W txns cfg ->
  let res := X.run_batch e txns cfg in
  map c_txn_id (commits res) ≡ₚ map t_id txns /\
  Forall (fun c => c_status c <> Pending /\ 0 <= c_retries c <= max_retry cfg) (commits res) /\
  tip_version res = Zlen (committed (commits res)).
Proof.
  intros He [Hc HW Ht Hcap Hl].
  destruct (batch_correct cfg W (Zlen txns) Hc HW Hl e txns He Ht Hcap)
    as (s & -> & h & Hs & _ & Hp & Ha); [done|].
  cbn [commits tip_version]. cbn [map] in Hp. rewrite app_nil_r in Hp. split_and!; [done..|].
  rewrite (x_version _ _ _ _ _ Hs). unfold Zlen. by rewrite length_committed_writes.
Qed.

(** ** Witnesses *)

(** Increment a counter byte; a reader that needs a second key once the counter
    is set. *)
Definition incr : Txn :=
  mkTxn 1 [read_strict [Byte.x61]]
    (Some (fun rv => mkOutcome [([Byte.x61], match assoc [Byte.x61] rv with
                                             | Some (Some [b]) => [bZ (Zb b + 1)]
                                             | _ => [Byte.x01]
                                             end)] [] [])).

Definition chaser : Txn :=
  mkTxn 2 [read_strict [Byte.x61]]
    (Some (fun rv => mkOutcome [([Byte.x62], [Byte.x00])] []
                       match assoc [Byte.x61] rv with Some (Some _) => [[Byte.x63]] | _ => [] end)).

Definition mixed : Txn :=
  mkTxn 3 [read_snapshot [Byte.x61] 1; read_bounded [Byte.x61] 2; read_ryw [Byte.x61] 7]
    (Some (fun rv => mkOutcome [([Byte.x64], [])] [] [])).

Definition demo_cfg : ExecConfig := mkExecConfig 2 1.

Lemma demo_batch_ok cap : 3 <= cap -> batch_ok cap 1 [incr; chaser; incr] demo_cfg.
Proof.
  intros Hc. split; try done. intros t [<-|[<-|[<-|[]]]]; split; try done;
    intros r [<-|[]]; done.
Qed.

Lemma submit_batch_strict_serial_witness :
  submit_batch [incr; chaser; incr] demo_cfg = O.submit_batch [incr; chaser; incr] demo_cfg /\
  map c_status (commits (submit_batch [incr; chaser; incr] demo_cfg)) = [Committed; Committed; Aborted].
Proof.
  split; [|by vm_compute]. apply (submit_batch_strict_serial 1).
  - by apply demo_batch_ok.
  - intros t [<-|[<-|[<-|[]]]] r [<-|[]]; done.
Defined.

Lemma mixed_batch_ok cap : 3 <= cap -> batch_ok cap 1 [incr; incr; mixed] demo_cfg.
Proof.
  intros Hc. split; try done. intros t [<-|[<-|[<-|[]]]]; split; try done;
    intros r Hr; repeat destruct Hr as [<-|Hr]; done.
Qed.

Lemma reads_match_serial_prefix_witness :
  let out := commits (X.run_batch Oracle.empty [incr; incr; mixed] demo_cfg) in
  exists c, committed out !! 2%nat = Some c /\ info_ok demo_cfg (committed_writes out) 2 c.
Proof.
  intros out. destruct (committed out !! 2%nat) as [c|] eqn:Hc; [|by vm_compute in Hc].
  exists c. split; [done|].
  apply (reads_match_serial_prefix 1 [incr; incr; mixed] demo_cfg Oracle.empty) with (i := 2%nat).
  - apply Oracle.rep_empty.
  - by apply mixed_batch_ok.
  - exact Hc.
Defined.

Lemma batch_exactly_once_witness :
  let res := X.run_batch Oracle.empty [incr; chaser; incr] demo_cfg in
  map c_txn_id (commits res) ≡ₚ [1; 2; 1] /\
  Forall (fun c => c_status c <> Pending /\ 0 <= c_retries c <= 2) (commits res) /\
  tip_version res = Zlen (committed (commits res)).
Proof.
  apply (batch_exactly_once 1 [incr; chaser; incr] demo_cfg Oracle.empty).
  - apply Oracle.rep_empty.
  - by apply demo_batch_ok.
Defined.
