(* ===== verification/Independent.v ===== *)
(** Independent: the second transaction executor (txn/IndependentExecutor.hpp)
    and its agreement with the first.

    This executor keeps no store: its state is the log of committed write sets,
    and a read is recomputed from a prefix of the log.  It shares the work-queue
    discipline and the consistency levels with [DeterministicExecutor], whose
    store is a storage engine.  [executors_agree] says the two return the same
    result on every batch, whatever the levels of its reads and whatever engine
    is behind the first. *)

From stdpp Require Import base list numbers.
From S2P Require Import Prelude Core Disk Mvcc Oracle Memtable WalEngine WalInvariant WalRefine Txn TxnCorrect.

Module IndependentExecutor.

(** ** [HistoryLog] *)

Record Entry := mkEntry { en_txn_id : Z; en_writes : WriteSet }.

Record HistoryLog := mkLog {
  entries_ : list Entry;
  session_last_write_ : list (Z * Key * Z)
}.

Definition commit_count (log : HistoryLog) : Z := u64 (Zlen (entries_ log)).

(** The session entries of one commit; a later entry for the same session and
    key shadows an earlier one, as the map's assignment does. *)
Definition note_writes (version : Z) (writes : WriteSet) (m : list (Z * Key * Z)) (r : Read)
  : list (Z * Key * Z) :=
  if bool_decide (r_level r = ReadYourWrites) && negb (r_session r =? 0)
  then fold_left (fun m kv => (r_session r, kv.1, version) :: m) writes m
  else m.

Definition append (txn_id : Z) (writes : WriteSet) (reads : list Read) (log : HistoryLog)
  : HistoryLog * Z :=
  let version := u64 (u64 (Zlen (entries_ log)) + 1) in
  (mkLog (entries_ log ++ [mkEntry txn_id writes])
         (fold_left (note_writes version writes) reads (session_last_write_ log)),
   version).

Definition value_at_prefix (k : Key) (p : Z) (log : HistoryLog) : option Value :=
  let limit := if (Z.to_nat p <? length (entries_ log))%nat
               then Z.to_nat p else length (entries_ log) in
  fold_left (fun v e => match assoc k (en_writes e) with Some x => Some x | None => v end)
            (take limit (entries_ log)) None.

Definition session_last_write (session : Z) (key : Key) (log : HistoryLog) : Z :=
  match List.find (fun e => (e.1.1 =? session) && key_eqb e.1.2 key) (session_last_write_ log) with
  | Some e => e.2
  | None => kNoSeq
  end.

(** ** The executor *)

(** [snapshot] is the shared snapshot prefix once [snapshot_fixed] is set. *)
Definition choose_prefix (r : Read) (serial : Z) (cfg : ExecConfig) (log : HistoryLog)
    (snapshot : option Z) : Z * option Z :=
  match r_level r with
  | StrictSerializable => (serial, snapshot)
  | Snapshot =>
      match snapshot with
      | Some p => (p, Some p)
      | None =>
          let p := if negb (r_snapshot_version r =? kNoSeq) && (r_snapshot_version r <=? serial)
                   then r_snapshot_version r else serial in
          (p, Some p)
      end
  | BoundedStaleness =>
      let lag := replica_lag cfg in
      (if lag <? serial then serial - lag else 0, snapshot)
  | ReadYourWrites =>
      let own := session_last_write (r_session r) (r_key r) log in
      (if negb (own =? kNoSeq) && (serial <? own) then own else serial, snapshot)
  end.

Definition footprint_valid (t : Txn) (extra_reads : list Key) : bool :=
  forallb (fun ek => existsb (fun r => key_eqb (r_key r) ek) (declared_reads t)) extra_reads.

Definition strict_owns (t : Txn) (k : Key) : bool :=
  existsb (fun r => bool_decide (r_level r = StrictSerializable) && key_eqb (r_key r) k)
          (declared_reads t).

Fixpoint serve (cfg : ExecConfig) (t : Txn) (log : HistoryLog) (serial : Z) (snapshot : option Z)
    (rs : list Read) (reads : ReadView) (served : list ServedRead) : ReadView * list ServedRead :=
  match rs with
  | [] => (reads, served)
  | r :: rs' =>
      let '(prefix, snapshot) := choose_prefix r serial cfg log snapshot in
      let value := value_at_prefix (r_key r) prefix log in
      let served :=
        served ++ [mkServedRead (r_key r) (r_level r) prefix (r_session r) (r_max_lag r) value] in
      let reads :=
        if bool_decide (r_level r = StrictSerializable) || negb (strict_owns t (r_key r))
        then map_set (r_key r) value reads else reads in
      serve cfg t log serial snapshot rs' reads served
  end.

Record state := mkState { log : HistoryLog; out : list CommitInfo }.

Definition step (cfg : ExecConfig) (item : QueueEntry) (s : state) : state * option QueueEntry :=
  let t := p_txn item in
  let serial := commit_count (log s) in
  let '(reads, served) := serve cfg t (log s) serial None (declared_reads t) [] [] in
  let oc := run_body t reads in
  if negb (footprint_valid t (oc_extra_reads oc)) then
    if p_retries item <? max_retry cfg
    then (s, Some (mkPending t (u64 (p_retries item + 1))))
    else (mkState (log s) (out s ++ [abort_info item reads served]), None)
  else
    let '(log', commit_version) := append (t_id t) (oc_writes oc) (declared_reads t) (log s) in
    (mkState log' (out s ++ [commit_info item commit_version commit_version reads oc served]), None).

Definition submit_batch (txns : list Txn) (cfg : ExecConfig) : RunResult :=
  let s := run_queue (step cfg) (batch_fuel cfg txns) (initial_queue txns) (mkState (mkLog [] []) []) in
  mkRunResult (out s) (commit_count (log s)).

End IndependentExecutor.

Module I := IndependentExecutor.

(** ** The log and the store *)

Lemma assoc_apply_writes k ws : forall st,
  key_sorted st -> key_sorted ws ->
  assoc k (O.apply_writes st ws) = match assoc k ws with Some v => Some v | None => assoc k st end.
Proof.
  induction ws as [|[k0 v0] ws IH]; intros st Hs Hw; [done|].
  pose proof (key_sorted_cons_inv _ _ _ Hw) as [Hw' Hlt].
  change (O.apply_writes st ((k0, v0) :: ws)) with (O.apply_writes (map_set k0 v0 st) ws).
  rewrite IH, assoc_map_set by (done || by apply map_set_sorted). cbn [assoc].
  destruct (key_eqb_spec k0 k) as [<-|]; [|done].
  assert (assoc k0 ws = None) as ->; [|done].
  apply assoc_none. intros v Hv. specialize (Hlt _ _ Hv). by rewrite key_ltb_irrefl in Hlt.
Qed.

(** Recomputing a key from the log reads the store the log's writes build. *)
Lemma value_at_prefix_store k p log :
  Forall key_sorted (map I.en_writes (I.entries_ log)) -> (Z.to_nat p <= length (I.entries_ log))%nat ->
  I.value_at_prefix k p log = assoc k (store_after (take (Z.to_nat p) (map I.en_writes (I.entries_ log)))).
Proof.
  intros Hw Hp. unfold I.value_at_prefix.
  set (limit := if (_ <? _)%nat then _ else _).
  assert (limit = Z.to_nat p) as -> by (unfold limit; destruct (_ <? _)%nat eqn:?; lia).
  rewrite <- (take_drop (Z.to_nat p) (I.entries_ log)), map_app in Hw.
  apply Forall_app in Hw as [Hw _]. rewrite firstn_map.
  generalize dependent (take (Z.to_nat p) (I.entries_ log)).
  intros es. induction es as [|e es IH] using rev_ind; [done|].
  rewrite map_app. intros Hw. apply Forall_app in Hw as [H1 H2]. cbn [map] in *.
  rewrite fold_left_app, store_after_snoc. cbn [fold_left].
  rewrite assoc_apply_writes; [|apply store_after_sorted|by apply Forall_inv in H2].
  by rewrite IH.
Qed.

(** ** Agreement *)

(** Bodies return their writes as maps. *)
Definition map_writes (t : Txn) : Prop := forall rv, key_sorted (oc_writes (run_body t rv)).

Section agree.
Context {E : Type} `{HE : EngineSpec E} (cfg : ExecConfig) (W N : Z).
Hypothesis Hcfg : 0 <= max_retry cfg < 2 ^ 64 /\ 0 <= replica_lag cfg.
Hypothesis HW : 0 <= W.
Hypothesis HN : N < 2 ^ 64.

(** The log and the engine-backed state hold the same commits. *)
Record same_log (q : list QueueEntry) (i : I.state) (s : X.state E) : Prop := {
  sl_exec : exists h, exec_inv W N q s h;
  sl_ok : Forall (entry_ok (max_retry cfg)) q;
  sl_queue : forall p, In p q -> map_writes (p_txn p);
  sl_writes : map I.en_writes (I.entries_ (I.log i)) = committed_writes (X.out s);
  sl_sorted : Forall key_sorted (committed_writes (X.out s));
  sl_session : I.session_last_write_ (I.log i) = X.session_last_write s;
  sl_out : I.out i = X.out s
}.

Lemma same_count q i s : same_log q i s -> I.commit_count (I.log i) = X.next_commit_version s.
Proof.
  intros [[h Hs] _ _ Hw _ _ _]. unfold I.commit_count.
  assert (Hl : Zlen (I.entries_ (I.log i)) = Zlen (committed_writes (X.out s)))
    by (rewrite <- Hw; unfold Zlen; by rewrite length_map).
  rewrite Hl, (x_version _ _ _ _ _ Hs). apply u64_id.
  pose proof (x_count _ _ _ _ _ Hs). pose proof (Zlen_nonneg (committed_writes (X.out s))).
  pose proof (Zlen_nonneg q). lia.
Qed.

Lemma choose_prefix_eq r n log slw shared :
  0 <= n -> I.session_last_write_ log = slw ->
  I.choose_prefix r n cfg log shared = X.read_prefix cfg slw n shared r.
Proof.
  intros Hn <-. unfold I.choose_prefix, X.read_prefix. destruct (r_level r); [done|by destruct shared|done|].
  unfold I.session_last_write, X.find_session. destruct (List.find _ _) as [e|]; [|done].
  cbn. destruct (e.2 =? kNoSeq) eqn:E0; [|done]. cbn. by rewrite (proj2 (Z.ltb_ge _ _)) by (unfold kNoSeq in E0; lia).
Qed.

(** Both serve a read at the same prefix with the same value. *)
Lemma serve_same q i s t rs : forall shared reads served,
  same_log q i s -> (forall r, In r rs -> 0 <= r_snapshot_version r) ->
  shared_ok (X.next_commit_version s) shared ->
  I.serve cfg t (I.log i) (X.next_commit_version s) shared rs reads served =
  X.serve cfg t s (X.next_commit_version s) shared rs reads served.
Proof.
  induction rs as [|r rs IH]; intros shared reads served Hsl Hr Hsh; [done|].
  destruct (sl_exec _ _ _ Hsl) as [h Hs]. cbn [I.serve X.serve].
  assert (Hn : 0 <= X.next_commit_version s) by (rewrite (x_version _ _ _ _ _ Hs); apply Zlen_nonneg).
  rewrite (choose_prefix_eq _ _ _ _ _ Hn (sl_session _ _ _ Hsl)).
  destruct (X.read_prefix _ _ _ _ _) as [p shared'] eqn:Ep.
  destruct (read_prefix_ok cfg W N Hcfg q s h shared r p shared' Hs (Hr r (or_introl eq_refl)) Hsh Ep)
    as (Hp & Hsh' & _).
  assert (Hv : I.value_at_prefix (r_key r) p (I.log i) =
               eget (r_key r) (nth (Z.to_nat p) (X.commit_snap s) kNoSeq) (X.engine s)).
  { rewrite (x_version _ _ _ _ _ Hs) in Hp. unfold Zlen in Hp.
    destruct (x_snap _ _ _ _ _ Hs (Z.to_nat p)) as [Hb Hg]; [lia|].
    rewrite value_at_prefix_store; rewrite ?(sl_writes _ _ _ Hsl); [|apply Hsl|].
    - rewrite <- Hg. symmetry. apply get_spec; [apply (x_repr _ _ _ _ _ Hs)|apply Hb].
    - rewrite <- (length_map I.en_writes), (sl_writes _ _ _ Hsl). lia. }
  rewrite Hv. apply IH; [done| |done]. intros x Hx. apply Hr. by right.
Qed.
Lemma requeue_in p q (P : Txn -> Prop) n :
  (forall x, In x (p :: q) -> P (p_txn x)) ->
  forall x, In x (q ++ [mkPending (p_txn p) n]) -> P (p_txn x).
Proof.
  intros Hall x Hx. apply in_app_or in Hx as [Hx|[<-|[]]];
    [apply Hall; by right|apply (Hall p); by left].
Qed.

Lemma same_log_step p q i s :
  same_log (p :: q) i s ->
  (I.step cfg p i).2 = (X.step cfg p s).2 /\
  same_log (q ++ option_list (I.step cfg p i).2) (I.step cfg p i).1 (X.step cfg p s).1.
Proof.
  intros Hsl. pose proof (same_count _ _ _ Hsl) as Hn.
  destruct Hsl as [[h Hs] Hok Hmw Hw Hsort Hses Hout] eqn:Esl.
  pose proof (Forall_inv Hok) as Hp. pose proof (Forall_inv_tail Hok) as Hq.
  pose proof (x_txns _ _ _ _ _ Hs p (or_introl eq_refl)) as [HWp Hr].
  pose proof (serve_same _ _ _ (p_txn p) _ None [] [] Hsl Hr Logic.I) as Hserve. clear Esl.
  unfold I.step, X.step. rewrite Hn, Hserve, Hout.
  destruct (X.serve _ _ _ _ _ _ _ _) as [reads served]. set (oc := run_body (p_txn p) reads).
  change (I.footprint_valid (p_txn p) (oc_extra_reads oc)) with (footprint_ok (p_txn p) oc).
  destruct (negb (footprint_ok _ oc)).
  - destruct (p_retries p <? max_retry cfg) eqn:Er; cbn [fst snd option_list]; (split; [done|]).
    + split; try done; [| |by apply requeue_in].
      * exists h. apply (exec_inv_queue W N (p :: q)); [unfold Zlen; rewrite length_app; cbn; lia| |done].
        apply requeue_in. apply (x_txns _ _ _ _ _ Hs).
      * apply Forall_app. split; [done|]. apply Forall_singleton. unfold entry_ok in *. cbn.
        rewrite u64_id by lia. lia.
    + rewrite app_nil_r.
      assert (Hcw : committed_writes (X.out s ++ [abort_info p reads served]) = committed_writes (X.out s))
        by (by rewrite committed_writes_snoc, app_nil_r).
      split; cbn [I.log I.out X.out X.session_last_write]; rewrite ?Hcw; try done.
      * exists h. by apply (exec_inv_abort W N HW p).
      * intros x Hx. apply Hmw. by right.
  - cbn [I.append fst snd option_list]. split; [done|]. rewrite app_nil_r.
    change (u64 (Zlen (I.entries_ (I.log i)))) with (I.commit_count (I.log i)). rewrite Hn.
    set (v := u64 (X.next_commit_version s + 1)). set (c := commit_info p v v reads oc served).
    destruct (exec_inv_commit W N HW HN p q s h c (declared_reads (p_txn p)) eq_refl) as [Hv Hx];
      [apply HWp|done|].
    assert (Hcw : committed_writes (X.out s ++ [c]) = committed_writes (X.out s) ++ [oc_writes oc])
      by (by rewrite committed_writes_snoc).
    split; cbn [I.log I.out I.entries_ I.session_last_write_ X.out X.session_last_write];
      rewrite ?Hcw, ?map_app, ?Hw; try done.
    + eexists. exact Hx.
    + intros x Hxx. apply Hmw. by right.
    + apply Forall_app. split; [done|]. apply Forall_singleton, (Hmw p (or_introl eq_refl)).
    + by rewrite Hses.
Qed.

Lemma agree_batch e txns :
  repr e [] -> (forall t, In t txns -> txn_ok W t) -> W * Zlen txns <= capacity -> Zlen txns <= N ->
  (forall t, In t txns -> map_writes t) ->
  X.run_batch e txns cfg = I.submit_batch txns cfg.
Proof.
  intros He Ht Hc Hn Hmw. unfold X.run_batch, I.submit_batch.
  destruct (run_queue_sim (I.step cfg) (X.step cfg) same_log same_log_step (batch_fuel cfg txns)
              (initial_queue txns) (I.mkState (I.mkLog [] []) []) (X.mkState e [] [kNoSeq] 0 []))
    as [q' Hsl].
  - split; try done; [exists []; by apply start_inv|apply initial_ok; lia|].
    intros p Hp. apply in_map_iff in Hp as (t & <- & Hin). by apply Hmw.
  - by rewrite (same_count _ _ _ Hsl), (sl_out _ _ _ Hsl).
Qed.
End agree.

(** The two executors agree.  On every batch, whatever mix of consistency
    levels its reads ask for and whatever engine honours the storage contract
    behind the first, the engine-backed executor and the log-recomputing one
    return the same result: the same records in the same order, the same values
    served at the same prefixes, the same retries, aborts and tip. *)
Theorem executors_agree {E} `{EngineSpec E} W txns cfg (e : E) :
  repr e [] -> batch_ok capacity W txns cfg -> (forall t, In t txns -> map_writes t) ->
  X.run_batch e txns cfg = I.submit_batch txns cfg.
Proof. intros He [Hc HW Ht Hcap Hl] Hm. by apply (agree_batch cfg W (Zlen txns)). Qed.

Lemma four_batch_ok cap : 4 <= cap -> batch_ok cap 1 [incr; incr; chaser; mixed] demo_cfg.
Proof.
  intros Hc. split; try done. intros t [<-|[<-|[<-|[<-|[]]]]]; split; try done;
    intros r Hr; repeat destruct Hr as [<-|Hr]; done.
Qed.

Lemma executors_agree_witness :
  X.run_batch Oracle.empty [incr; incr; chaser; mixed] demo_cfg =
  I.submit_batch [incr; incr; chaser; mixed] demo_cfg.
Proof.
  apply (executors_agree 1).
  - apply Oracle.rep_empty.
  - by apply four_batch_ok.
  - intros t [<-|[<-|[<-|[<-|[]]]]] rv; repeat constructor.
Defined.
