(* ===== verification/Sequencer.v ===== *)
(** Sequencer: the merge of per-shard committed logs into one global order
    (consensus/sequencer/Sequencer.hpp).

    Each shard's log is fixed by its own consensus and tags every entry with an
    epoch.  [merge] seals the epochs in order and emits each epoch's entries
    sorted by (shard rank, index); [Sequencer] holds the logs and the sealed
    boundary and recomputes the merge.  The theorems: the merge is the one list
    of the sealed entries in (epoch, rank, index) order, and under the sealing
    discipline the header describes it only ever grows at its end. *)

From Stdlib Require Import ZArith Lia Sorting.Sorted.
From stdpp Require Import base list numbers relations sorting.
From S2P Require Import Prelude.

(** ** Data *)

Abbreviation TxnId := (list byte).

Record InputEntry := mkInput { in_txn : TxnId; in_epoch : Z }.

Abbreviation ShardLog := (list InputEntry).

Record GlobalEntry := mkGlobal {
  g_txn : TxnId;
  g_shard : Z;
  g_idx : Z;
  g_epoch : Z
}.

Abbreviation GlobalLog := (list GlobalEntry).
Abbreviation ShardRank := (list Z).

(** ** [max_sealable] and [merge] *)

Definition max_committed (shard_logs : list ShardLog) : Z :=
  fold_left (fun m log => fold_left (fun m e => if m <? in_epoch e then in_epoch e else m) log m)
            shard_logs 0.

Definition max_sealable (shard_logs : list ShardLog) : Z :=
  let m := max_committed shard_logs in
  if m =? 0 then 0 else m - 1.

(** The epoch-[e] entries of shard [s], the next index being [i + 1]. *)
Fixpoint shard_entries (e s i : Z) (log : ShardLog) : GlobalLog :=
  match log with
  | [] => []
  | x :: log' =>
      (if in_epoch x =? e then [mkGlobal (in_txn x) s (i + 1) e] else [])
      ++ shard_entries e s (i + 1) log'
  end.

(** [EpochEntries]: every shard's entries of epoch [e], from shard [s] on. *)
Fixpoint epoch_entries (e s : Z) (shard_logs : list ShardLog) : GlobalLog :=
  match shard_logs with
  | [] => []
  | log :: logs' => shard_entries e s 0 log ++ epoch_entries e (s + 1) logs'
  end.

Definition rank_of (ranks : ShardRank) (g : GlobalEntry) : Z := nth (Z.to_nat (g_shard g)) ranks 0.

Definition less_entry (ranks : ShardRank) (x y : GlobalEntry) : bool :=
  let rx := rank_of ranks x in
  let ry := rank_of ranks y in
  if negb (rx =? ry) then rx <? ry else g_idx x <? g_idx y.

(** [std::stable_sort] as a stable insertion sort. *)
Fixpoint entry_insert (ranks : ShardRank) (x : GlobalEntry) (l : GlobalLog) : GlobalLog :=
  match l with
  | [] => [x]
  | y :: l' => if less_entry ranks y x then y :: entry_insert ranks x l' else x :: l
  end.

Definition sort_entries (ranks : ShardRank) (batch : GlobalLog) : GlobalLog :=
  fold_right (entry_insert ranks) [] batch.

(** The epochs [1..sealed] in order; the loop counter wraps only for a boundary
    of [2^64 - 1]. *)
Definition epochs (sealed : Z) : list Z := map Z.of_nat (seq 1 (Z.to_nat sealed)).

Definition merge (shard_logs : list ShardLog) (ranks : ShardRank) (sealed : Z) : GlobalLog :=
  flat_map (fun e => sort_entries ranks (epoch_entries e 0 shard_logs)) (epochs sealed).

Definition to_txn_seqlog (global : GlobalLog) : list TxnId := map g_txn global.

(** ** [class Sequencer] *)

Module Sequencer.

Record t := mkSequencer {
  ranks_ : ShardRank;
  shard_logs_ : list ShardLog;
  sealed_ : Z
}.

Definition init (ranks : ShardRank) : t := mkSequencer ranks (replicate (length ranks) []) 0.

(** [shard_logs_\[s\].push_back]: undefined for a shard that does not exist. *)
Definition commit (s : Z) (txn_id : TxnId) (epoch : Z) (q : t) : option t :=
  if (0 <=? s) && (s <? Zlen (shard_logs_ q)) then
    Some (mkSequencer (ranks_ q)
            (alter (fun log => log ++ [mkInput txn_id epoch]) (Z.to_nat s) (shard_logs_ q))
            (sealed_ q))
  else None.

Definition seal_to (sealed : Z) (q : t) : t :=
  if sealed_ q <? sealed then mkSequencer (ranks_ q) (shard_logs_ q) sealed else q.

Definition global (q : t) : GlobalLog := merge (shard_logs_ q) (ranks_ q) (sealed_ q).

End Sequencer.

(** ** The global order *)

(** Entry [g] is entry number [g_idx] of its shard's log. *)
Definition input_of (logs : list ShardLog) (g : GlobalEntry) : Prop :=
  0 <= g_shard g /\ 1 <= g_idx g /\
  exists log, logs !! Z.to_nat (g_shard g) = Some log /\
              log !! Z.to_nat (g_idx g - 1) = Some (mkInput (g_txn g) (g_epoch g)).

(** (epoch, rank, index), lexicographically. *)
Definition entry_lt (ranks : ShardRank) (x y : GlobalEntry) : Prop :=
  g_epoch x < g_epoch y \/
  g_epoch x = g_epoch y /\
  (rank_of ranks x < rank_of ranks y \/
   rank_of ranks x = rank_of ranks y /\ g_idx x < g_idx y).

(** One rank per shard, no two alike. *)
Definition ranks_ok (logs : list ShardLog) (ranks : ShardRank) : Prop :=
  length ranks = length logs /\ NoDup ranks.

Lemma less_entry_lt ranks x y :
  g_epoch x = g_epoch y -> less_entry ranks x y = true <-> entry_lt ranks x y.
Proof.
  intros He. unfold less_entry, entry_lt. destruct (_ =? _) eqn:Er; cbn [negb]; lia.
Qed.

Lemma shard_entries_in e s log : forall i g,
  In g (shard_entries e s i log) <->
  g_shard g = s /\ g_epoch g = e /\ i < g_idx g /\
  log !! Z.to_nat (g_idx g - 1 - i) = Some (mkInput (g_txn g) e).
Proof.
  induction log as [|x log IH]; intros i g; cbn [shard_entries]; [by split; [|intros (?&?&?&?)]|].
  rewrite in_app_iff, IH. destruct g as [tx sh ix ep]. cbn [g_txn g_shard g_idx g_epoch].
  split.
  - intros [Hx|(-> & -> & Hi & Hl)].
    + destruct (in_epoch x =? e) eqn:Ee; [|done]. destruct Hx as [[= <- <- <- <-]|[]].
      split_and!; [done..|lia|]. replace (Z.to_nat (i + 1 - 1 - i)) with 0%nat by lia.
      destruct x; cbn in *. do 2 f_equal. lia.
    + split_and!; [done..|lia|].
      by replace (Z.to_nat (ix - 1 - i)) with (S (Z.to_nat (ix - 1 - (i + 1)))) by lia.
  - intros (-> & -> & Hi & Hl). destruct (decide (ix = i + 1)) as [->|Hne].
    + left. replace (Z.to_nat (i + 1 - 1 - i)) with 0%nat in Hl by lia. injection Hl as ->.
      cbn. rewrite Z.eqb_refl. by left.
    + right. split_and!; [done..|lia|].
      by replace (Z.to_nat (ix - 1 - i)) with (S (Z.to_nat (ix - 1 - (i + 1)))) in Hl by lia.
Qed.

Lemma epoch_entries_in e logs : forall s g,
  In g (epoch_entries e s logs) <->
  g_epoch g = e /\ s <= g_shard g /\ 1 <= g_idx g /\
  exists log, logs !! Z.to_nat (g_shard g - s) = Some log /\
              log !! Z.to_nat (g_idx g - 1) = Some (mkInput (g_txn g) e).
Proof.
  induction logs as [|log logs IH]; intros s g; cbn [epoch_entries].
  { split; [done|]. intros (_ & _ & _ & l & Hl & _). by rewrite lookup_nil in Hl. }
  rewrite in_app_iff, shard_entries_in, IH. split.
  - intros [(<- & <- & Hi & Hl)|(He & Hs & Hi & l & Hl & Hx)].
    + split_and!; [done|lia|lia|]. exists log. rewrite Z.sub_diag, Z.sub_0_r in *. done.
    + split_and!; [done|lia|done|]. exists l.
      by replace (Z.to_nat (g_shard g - s)) with (S (Z.to_nat (g_shard g - (s + 1)))) by lia.
  - intros (He & Hs & Hi & l & Hl & Hx). destruct (decide (g_shard g = s)) as [Hg|Hne].
    + left. rewrite Hg, Z.sub_diag in Hl. injection Hl as ->.
      rewrite Z.sub_0_r. split_and!; done || lia.
    + right. split_and!; [done|lia|done|]. exists l.
      by replace (Z.to_nat (g_shard g - s)) with (S (Z.to_nat (g_shard g - (s + 1)))) in Hl by lia.
Qed.

(** *** Sorting *)

Lemma entry_insert_in ranks x l g : In g (entry_insert ranks x l) <-> g = x \/ In g l.
Proof.
  induction l as [|y l IH]; cbn; [naive_solver|].
  destruct (less_entry ranks y x); cbn; rewrite ?IH; naive_solver.
Qed.

Lemma sort_entries_in ranks b g : In g (sort_entries ranks b) <-> In g b.
Proof. induction b as [|x b IH]; [done|]. cbn. rewrite entry_insert_in, IH. naive_solver. Qed.

Lemma entry_lt_trans ranks x y z : entry_lt ranks x y -> entry_lt ranks y z -> entry_lt ranks x z.
Proof. unfold entry_lt. lia. Qed.

Lemma entry_lt_irrefl ranks x : ~ entry_lt ranks x x.
Proof. unfold entry_lt. lia. Qed.

(** Inserting an entry comparable with all of them. *)
Lemma entry_insert_sorted ranks x l :
  (forall y, In y l -> g_epoch y = g_epoch x /\ (entry_lt ranks x y \/ entry_lt ranks y x)) ->
  StronglySorted (entry_lt ranks) l -> StronglySorted (entry_lt ranks) (entry_insert ranks x l).
Proof.
  induction l as [|y l IH]; intros Hc Hs; cbn [entry_insert]; [by repeat constructor|].
  apply StronglySorted_inv in Hs as [Hs Hy]. rewrite List.Forall_forall in Hy.
  destruct (Hc y (or_introl eq_refl)) as [He Hxy]. destruct (less_entry ranks y x) eqn:El.
  - apply less_entry_lt in El; [|done]. constructor; [apply IH; [|done]; intros z Hz; apply Hc; by right|].
    apply List.Forall_forall. intros z Hz. apply entry_insert_in in Hz as [->|Hz]; auto.
  - destruct Hxy as [Hxy|Hxy]; [|by rewrite (proj2 (less_entry_lt _ _ _ He) Hxy) in El].
    constructor; [by constructor; [|apply List.Forall_forall]|].
    apply List.Forall_forall. intros z [<-|Hz]; [done|]. eapply entry_lt_trans; eauto.
Qed.

(** Distinct entries of one epoch are ordered, ranks being injective. *)
Lemma entries_comparable logs ranks x y :
  ranks_ok logs ranks -> input_of logs x -> input_of logs y -> g_epoch x = g_epoch y -> x <> y ->
  entry_lt ranks x y \/ entry_lt ranks y x.
Proof.
  intros [Hlen Hnd] (Hx1 & Hx2 & lx & Hlx & Hxl) (Hy1 & Hy2 & ly & Hly & Hyl) He Hne.
  unfold entry_lt. destruct (decide (rank_of ranks x = rank_of ranks y)) as [Hr|]; [|lia].
  assert (Hs : g_shard x = g_shard y).
  { apply lookup_lt_Some in Hlx as Hx, Hly as Hy. rewrite <- Hlen in Hx, Hy.
    apply lookup_lt_is_Some_2 in Hx as [a Ha], Hy as [b Hb].
    unfold rank_of in Hr. rewrite !nth_lookup, Ha, Hb in Hr. cbn in Hr. subst b.
    pose proof (NoDup_lookup ranks _ _ _ Hnd Ha Hb). lia. }
  destruct (decide (g_idx x = g_idx y)) as [Hi|]; [|lia].
  destruct Hne. rewrite Hs in Hlx. rewrite Hlx in Hly. injection Hly as <-.
  rewrite Hi, Hyl in Hxl. destruct x, y. cbn in *. congruence.
Qed.

(** An epoch's batch holds each of its entries once. *)
Lemma shard_entries_nodup e s log : forall i, NoDup (shard_entries e s i log).
Proof.
  induction log as [|x log IH]; intros i; cbn [shard_entries]; [constructor|].
  destruct (_ =? _); [|apply IH]. cbn [app]. apply NoDup_cons. split; [|apply IH].
  rewrite list_elem_of_In, shard_entries_in. cbn. lia.
Qed.

Lemma epoch_entries_nodup e logs : forall s, NoDup (epoch_entries e s logs).
Proof.
  induction logs as [|log logs IH]; intros s; cbn [epoch_entries]; [constructor|].
  apply NoDup_app. split_and!; [apply shard_entries_nodup| |apply IH].
  intros g. rewrite !list_elem_of_In, shard_entries_in, epoch_entries_in. lia.
Qed.

Lemma epoch_entries_input e logs g :
  In g (epoch_entries e 0 logs) <-> input_of logs g /\ g_epoch g = e.
Proof.
  rewrite epoch_entries_in. unfold input_of. rewrite Z.sub_0_r. split.
  - intros (<- & H1 & H2 & H3). done.
  - intros [(H1 & H2 & H3) <-]. done.
Qed.

Lemma sort_batch_sorted logs ranks e b :
  ranks_ok logs ranks -> NoDup b -> (forall g, In g b -> input_of logs g /\ g_epoch g = e) ->
  StronglySorted (entry_lt ranks) (sort_entries ranks b).
Proof.
  intros Hr. induction b as [|x b IH]; intros Hnd Hb; cbn; [constructor|].
  apply NoDup_cons in Hnd as [Hx Hnd]. apply entry_insert_sorted.
  - intros y Hy%sort_entries_in. destruct (Hb x (or_introl eq_refl)) as [Hix Hex].
    destruct (Hb y (or_intror Hy)) as [Hiy Hey]. split; [congruence|].
    apply (entries_comparable logs); [done..|congruence|]. intros <-. by apply Hx, list_elem_of_In.
  - apply IH; [done|]. intros g Hg. apply Hb. by right.
Qed.

Lemma epochs_in n e : In e (epochs n) <-> 1 <= e <= n.
Proof.
  unfold epochs. rewrite in_map_iff. split.
  - intros (k & <- & Hk%in_seq). lia.
  - intros He. exists (Z.to_nat e). split; [lia|]. apply in_seq. lia.
Qed.

Lemma merge_in logs ranks n g :
  In g (merge logs ranks n) <-> input_of logs g /\ 1 <= g_epoch g <= n.
Proof.
  unfold merge. rewrite in_flat_map. split.
  - intros (e & He & Hg). rewrite sort_entries_in, epoch_entries_input in Hg.
    apply epochs_in in He. destruct Hg as [Hg <-]. done.
  - intros [Hg He]. exists (g_epoch g). split; [by apply epochs_in|].
    by apply sort_entries_in, epoch_entries_input.
Qed.

(** Sealing in ascending order makes the whole log ascending. *)
Lemma merge_sorted logs ranks n :
  ranks_ok logs ranks -> StronglySorted (entry_lt ranks) (merge logs ranks n).
Proof.
  intros Hr. unfold merge, epochs. generalize 1%nat.
  induction (Z.to_nat n) as [|k IH]; intros s; cbn [seq map flat_map]; [constructor|].
  apply StronglySorted_app_2; [| |apply IH].
  2:{ apply (sort_batch_sorted logs ranks (Z.of_nat s)); [done|apply epoch_entries_nodup|].
      intros g. apply epoch_entries_input. }
  intros x y Hx Hy. left. rewrite list_elem_of_In in *.
  apply sort_entries_in, epoch_entries_input in Hx as [_ ->].
  apply in_flat_map in Hy as (e & He & Hy).
  apply sort_entries_in, epoch_entries_input in Hy as [_ ->].
  apply in_map_iff in He as (j & <- & Hj%in_seq). lia.
Qed.

(** Strictly sorted lists with the same elements are equal. *)
Lemma sorted_ext {A} (R : A -> A -> Prop) :
  (forall x, ~ R x x) -> (forall x y z, R x y -> R y z -> R x z) ->
  forall l l', StronglySorted R l -> StronglySorted R l' -> (forall x, In x l <-> In x l') -> l = l'.
Proof.
  intros Hirr Htr. induction l as [|a l IH]; intros [|b l'] Hl Hl' Hin; [done|..].
  - by destruct (proj2 (Hin b) (or_introl eq_refl)).
  - by destruct (proj1 (Hin a) (or_introl eq_refl)).
  - apply StronglySorted_inv in Hl as [Hl Ha], Hl' as [Hl' Hb]. rewrite List.Forall_forall in Ha, Hb.
    assert (a = b) as <-.
    { destruct (proj1 (Hin a) (or_introl eq_refl)) as [|H1]; [done|].
      destruct (proj2 (Hin b) (or_introl eq_refl)) as [|H2]; [done|].
      destruct (Hirr a). eauto. }
    f_equal. apply IH; [done..|]. intros x. split; intros Hx.
    + destruct (proj1 (Hin x) (or_intror Hx)) as [<-|]; [destruct (Hirr a); by auto|done].
    + destruct (proj2 (Hin x) (or_intror Hx)) as [<-|]; [destruct (Hirr a); by auto|done].
Qed.

(** The sealed entries of one shard's log, numbered, in log order. *)
Fixpoint sealed_entries (n s i : Z) (log : ShardLog) : GlobalLog :=
  match log with
  | [] => []
  | x :: log' =>
      (if (1 <=? in_epoch x) && (in_epoch x <=? n) then [mkGlobal (in_txn x) s (i + 1) (in_epoch x)] else [])
      ++ sealed_entries n s (i + 1) log'
  end.

Lemma sealed_entries_in n s log : forall i g,
  In g (sealed_entries n s i log) <->
  In g (shard_entries (g_epoch g) s i log) /\ 1 <= g_epoch g <= n.
Proof.
  induction log as [|x log IH]; intros i g; cbn [sealed_entries shard_entries]; [cbn; tauto|].
  rewrite !in_app_iff, IH. destruct g as [tx sh ix ep]. cbn [g_epoch].
  destruct (_ && _) eqn:Es, (in_epoch x =? ep) eqn:Ee; cbn.
  - apply Z.eqb_eq in Ee as <-. naive_solver lia.
  - split; [|naive_solver]. intros [[Hg|[]]|[]]; [|tauto]. injection Hg. lia.
  - split; [tauto|]. intros [[[Hg|[]]|Hg] He]; [lia|tauto].
  - tauto.
Qed.

Lemma sealed_entries_sorted ranks n s log : forall i,
  StronglySorted Z.le (map in_epoch log) ->
  StronglySorted (entry_lt ranks) (sealed_entries n s i log).
Proof.
  induction log as [|x log IH]; intros i Hs; cbn [sealed_entries]; [constructor|].
  cbn [map] in Hs. apply StronglySorted_inv in Hs as [Hs Hx]. rewrite List.Forall_forall in Hx.
  destruct (_ && _); [|by apply IH]. cbn [app]. constructor; [by apply IH|].
  apply List.Forall_forall. intros g [Hg _]%sealed_entries_in.
  apply shard_entries_in in Hg as (<- & _ & Hi & Hl).
  assert (Hle : in_epoch x <= g_epoch g).
  { apply Hx, in_map_iff. eexists. split; [|by eapply list_elem_of_In, list_elem_of_lookup_2]. done. }
  unfold entry_lt, rank_of. cbn. lia.
Qed.

(** With epochs nondecreasing in a shard's log, the global order restricted to
    the shard is the sealed part of the log, in its own order. *)
Lemma merge_shard logs ranks n s log :
  ranks_ok logs ranks -> 0 <= s -> logs !! Z.to_nat s = Some log ->
  StronglySorted Z.le (map in_epoch log) ->
  List.filter (fun g => g_shard g =? s) (merge logs ranks n) = sealed_entries n s 0 log.
Proof.
  intros Hr Hs Hl Hm. apply (sorted_ext (entry_lt ranks)).
  - apply entry_lt_irrefl.
  - apply entry_lt_trans.
  - pose proof (merge_sorted logs ranks n Hr) as Hso. induction Hso as [|g l Hl' IH Hg]; cbn; [constructor|].
    destruct (_ =? _); [|done]. constructor; [done|]. rewrite List.Forall_forall in *.
    intros y [Hy _]%filter_In. by apply Hg.
  - by apply sealed_entries_sorted.
  - intros g. rewrite filter_In, merge_in, sealed_entries_in, shard_entries_in, Z.sub_0_r.
    unfold input_of. split.
    + intros [[(H1 & H2 & log' & H3 & H4) H5] H6]. apply Z.eqb_eq in H6. subst s.
      rewrite Hl in H3. injection H3 as <-. split_and!; done || lia.
    + intros [(<- & _ & H2 & H3) H4]. split; [|lia]. split; [|done].
      split_and!; [done|lia|]. by exists log.
Qed.

(** ** Growth *)

Lemma shard_entries_snoc e s x log : forall i,
  in_epoch x <> e -> shard_entries e s i (log ++ [x]) = shard_entries e s i log.
Proof.
  induction log as [|y log IH]; intros i Hx; cbn; [by rewrite (proj2 (Z.eqb_neq _ _))|].
  by rewrite IH.
Qed.

Lemma epoch_entries_alter e x j logs : forall s,
  in_epoch x <> e ->
  epoch_entries e s (alter (fun log => log ++ [x]) j logs) = epoch_entries e s logs.
Proof.
  revert j. induction logs as [|log logs IH]; intros j s Hx; [done|].
  destruct j as [|j]; cbn; [by rewrite shard_entries_snoc|]. f_equal. by apply IH.
Qed.

Lemma merge_alter logs ranks n x j :
  n < in_epoch x -> merge (alter (fun log => log ++ [x]) j logs) ranks n = merge logs ranks n.
Proof.
  intros Hx. unfold merge. assert (He : forall e, In e (epochs n) -> e <= n)
    by (intros e; rewrite epochs_in; lia).
  induction (epochs n) as [|e es IH]; cbn; [done|].
  rewrite epoch_entries_alter by (specialize (He e (or_introl eq_refl)); lia).
  f_equal. apply IH. intros e' He'. apply He. by right.
Qed.

Lemma merge_seal logs ranks n n' :
  n <= n' -> exists rest, merge logs ranks n' = merge logs ranks n ++ rest /\
                          forall g, In g rest -> n < g_epoch g.
Proof.
  intros Hn. exists (flat_map (fun e => sort_entries ranks (epoch_entries e 0 logs))
    (map Z.of_nat (seq (1 + Z.to_nat n) (Z.to_nat n' - Z.to_nat n)))). split.
  - unfold merge, epochs.
    replace (Z.to_nat n') with (Z.to_nat n + (Z.to_nat n' - Z.to_nat n))%nat at 1 by lia.
    by rewrite seq_app, map_app, flat_map_app.
  - intros g Hg. apply in_flat_map in Hg as (e & He & Hg).
    apply sort_entries_in, epoch_entries_input in Hg as [_ ->].
    apply in_map_iff in He as (k & <- & Hk%in_seq). lia.
Qed.

(** *** The highest committed epoch *)

Lemma max_committed_concat logs :
  max_committed logs = fold_left (fun m e => if m <? in_epoch e then in_epoch e else m) (concat logs) 0.
Proof.
  unfold max_committed. generalize 0. induction logs as [|log logs IH]; intros m; [done|].
  cbn. by rewrite fold_left_app, IH.
Qed.

Lemma fold_max_spec es : forall m,
  let f := fold_left (fun m e => if m <? in_epoch e then in_epoch e else m) es m in
  m <= f /\ (forall e, In e es -> in_epoch e <= f) /\
  (f = m \/ exists e, In e es /\ in_epoch e = f).
Proof.
  induction es as [|x es IH]; intros m; cbn; [split_and!; [lia|done|by left]|].
  specialize (IH (if m <? in_epoch x then in_epoch x else m)). cbn in IH.
  destruct IH as (H1 & H2 & H3). set (f := fold_left _ _ _) in *.
  destruct (m <? in_epoch x) eqn:Em; split_and!; try lia;
    try (intros e [<-|He]; [lia|by apply H2]);
    destruct H3 as [H3|(e & He & H3)]; eauto.
Qed.

Lemma in_concat_alter x j logs y :
  In y (concat logs) -> In y (concat (alter (fun log : ShardLog => log ++ [x]) j logs)).
Proof.
  revert j. induction logs as [|log logs IH]; intros j; [done|]. cbn. rewrite in_app_iff.
  destruct j as [|j]; cbn; rewrite !in_app_iff; [tauto|]. intros [Hy|Hy]; [by left|right; by apply IH].
Qed.

Lemma max_committed_nonneg logs : 0 <= max_committed logs.
Proof. rewrite max_committed_concat. apply fold_max_spec. Qed.

Lemma max_committed_alter x j logs :
  max_committed logs <= max_committed (alter (fun log => log ++ [x]) j logs).
Proof.
  pose proof (max_committed_nonneg (alter (fun log : ShardLog => log ++ [x]) j logs)) as H0.
  rewrite !max_committed_concat in *.
  destruct (fold_max_spec (concat logs) 0) as (_ & _ & [->|(e & He & <-)]); [done|].
  apply fold_max_spec. by apply in_concat_alter.
Qed.

(** *** The sealing discipline *)

Module SequencerSteps.
Import Sequencer.

(** A commit lands in the open epoch, which is at or past every committed one; a
    seal goes no further than [max_sealable]. *)
Inductive step (q : t) : t -> Prop :=
| StepCommit s txn_id epoch q' :
    1 <= epoch -> max_committed (shard_logs_ q) <= epoch ->
    commit s txn_id epoch q = Some q' -> step q q'
| StepSeal sealed :
    sealed <= max_sealable (shard_logs_ q) -> step q (seal_to sealed q).

(** Everything sealed is below the open epoch. *)
Definition sealed_closed (q : t) : Prop := 0 <= sealed_ q <= max_sealable (shard_logs_ q).

Lemma max_sealable_mono logs logs' :
  max_committed logs <= max_committed logs' -> max_sealable logs <= max_sealable logs'.
Proof.
  pose proof (max_committed_nonneg logs). unfold max_sealable. intros.
  destruct (_ =? 0) eqn:?, (max_committed logs' =? 0) eqn:?; lia.
Qed.

Lemma init_closed ranks : sealed_closed (init ranks).
Proof.
  unfold sealed_closed, max_sealable. cbn [shard_logs_ sealed_ init].
  pose proof (max_committed_nonneg (replicate (length ranks) ([] : ShardLog))).
  destruct (_ =? 0) eqn:?; lia.
Qed.

(** One step keeps the invariant and extends the global log. *)
Lemma step_grows q q' :
  sealed_closed q -> step q q' -> sealed_closed q' /\ global q `prefix_of` global q'.
Proof.
  intros [H0 Hc] [s tx e q'' He Hmax Hcm|n Hn].
  - unfold commit in Hcm. destruct (_ && _); [|done]. injection Hcm as <-.
    set (x := mkInput tx e). unfold sealed_closed, global. cbn [shard_logs_ sealed_ ranks_].
    pose proof (max_committed_alter x (Z.to_nat s) (shard_logs_ q)) as Hm%max_sealable_mono.
    split; [unfold x in *; lia|]. rewrite merge_alter; [done|]. unfold max_sealable in Hc.
    cbn. destruct (_ =? 0) eqn:?; lia.
  - unfold seal_to. destruct (sealed_ q <? n) eqn:El; [|by split].
    unfold sealed_closed, global. cbn [shard_logs_ sealed_ ranks_]. split; [lia|].
    destruct (merge_seal (shard_logs_ q) (ranks_ q) (sealed_ q) n) as (rest & -> & _); [lia|].
    by apply prefix_app_r.
Qed.

Lemma steps_grow q q' :
  rtc step q q' -> sealed_closed q -> sealed_closed q' /\ global q `prefix_of` global q'.
Proof.
  induction 1 as [q|q q1 q2 Hs _ IH]; [done|]. intros Hq.
  destruct (step_grows _ _ Hq Hs) as [Hq1 Hp]. destruct (IH Hq1) as [Hq2 Hp2].
  split; [done|]. by etrans.
Qed.

End SequencerSteps.

(** ** Properties *)

(** The global order.  With one rank per shard, no two alike, the merge
    holds exactly the entries of the shard logs in the sealed epochs, each once,
    strictly ascending in (epoch, rank, index), so it is the only such list; and
    where a shard's epochs do not decrease, the shard's sealed entries appear in
    the order of its log. *)
Theorem merge_total_order logs ranks sealed :
  ranks_ok logs ranks ->
  StronglySorted (entry_lt ranks) (merge logs ranks sealed) /\
  NoDup (merge logs ranks sealed) /\
  (forall g, In g (merge logs ranks sealed) <-> input_of logs g /\ 1 <= g_epoch g <= sealed) /\
  (forall l, StronglySorted (entry_lt ranks) l ->
     (forall g, In g l <-> input_of logs g /\ 1 <= g_epoch g <= sealed) -> l = merge logs ranks sealed) /\
  (forall s log, 0 <= s -> logs !! Z.to_nat s = Some log -> StronglySorted Z.le (map in_epoch log) ->
     List.filter (fun g => g_shard g =? s) (merge logs ranks sealed) = sealed_entries sealed s 0 log).
Proof.
  intros Hr. pose proof (merge_sorted logs ranks sealed Hr) as Hs. split_and!.
  - done.
  - induction Hs as [|g l _ IH Hg]; constructor; [|done].
    rewrite list_elem_of_In. rewrite List.Forall_forall in Hg. intros Hin.
    by eapply entry_lt_irrefl, Hg.
  - apply merge_in.
  - intros l Hl Hin. apply (sorted_ext (entry_lt ranks)); [apply entry_lt_irrefl|apply entry_lt_trans|done..|].
    intros g. by rewrite Hin, merge_in.
  - intros s log Hs0 Hl Hm. by apply merge_shard.
Qed.

(** The global log is append-only.  From an empty sequencer, after any
    interleaving of commits into an open epoch and seals up to [max_sealable],
    every later global log extends every earlier one: a position once produced
    never changes. *)
Theorem sequencer_append_only ranks q q' :
  rtc SequencerSteps.step (Sequencer.init ranks) q -> rtc SequencerSteps.step q q' ->
  Sequencer.global q `prefix_of` Sequencer.global q'.
Proof.
  intros H1 H2. apply (SequencerSteps.steps_grow q q'); [done|].
  by eapply SequencerSteps.steps_grow, SequencerSteps.init_closed.
Qed.

(** ** Witnesses *)

Definition demo_logs : list ShardLog :=
  [[mkInput [Byte.x61] 1; mkInput [Byte.x62] 2]; [mkInput [Byte.x63] 1; mkInput [Byte.x61] 1]].

Example demo_merge :
  map (fun g => (g_txn g, g_shard g)) (merge demo_logs [9; 4] 2) =
  [([Byte.x63], 1); ([Byte.x61], 1); ([Byte.x61], 0); ([Byte.x62], 0)].
Proof. reflexivity. Qed.

Lemma merge_total_order_witness :
  StronglySorted (entry_lt [9; 4]) (merge demo_logs [9; 4] 2) /\
  In (mkGlobal [Byte.x62] 0 2 2) (merge demo_logs [9; 4] 2).
Proof.
  destruct (merge_total_order demo_logs [9; 4] 2) as (H1 & _ & H2 & _).
  - split; [done|]. repeat constructor; set_solver.
  - split; [exact H1|]. apply H2. cbn. split; [|lia]. split_and!; [done..|].
    exists [mkInput [Byte.x61] 1; mkInput [Byte.x62] 2]. done.
Defined.

Definition sequencer_1 : Sequencer.t := Sequencer.mkSequencer [9; 4] demo_logs 0.
Definition sequencer_2 : Sequencer.t := Sequencer.mkSequencer [9; 4] demo_logs 1.

Lemma sequencer_append_only_witness :
  Sequencer.global sequencer_1 `prefix_of` Sequencer.global sequencer_2.
Proof.
  assert (Hc : forall s tx e q q', 1 <= e -> max_committed (Sequencer.shard_logs_ q) <= e ->
    Sequencer.commit s tx e q = Some q' -> SequencerSteps.step q q')
    by (intros; by eapply SequencerSteps.StepCommit).
  apply (sequencer_append_only [9; 4]).
  - eapply rtc_l; [apply (Hc 0 [Byte.x61] 1); [lia|by vm_compute|reflexivity]|].
    eapply rtc_l; [apply (Hc 1 [Byte.x63] 1); [lia|by vm_compute|reflexivity]|].
    eapply rtc_l; [apply (Hc 1 [Byte.x61] 1); [lia|by vm_compute|reflexivity]|].
    eapply rtc_l; [apply (Hc 0 [Byte.x62] 2); [lia|by vm_compute|reflexivity]|].
    apply rtc_refl.
  - apply rtc_once. apply (SequencerSteps.StepSeal sequencer_1 1). by vm_compute.
Defined.
