(* ===== verification/CrossShard.v ===== *)
(** CrossShard: placing cross-shard transactions in the global order
    (txn/CrossShard.hpp).

    A transaction that touches several shards is committed into the log of each
    of them, so the sequencer's merge emits it once per shard.
    [dedup_global_order] keeps its first appearance, and only when it appears on
    every shard of its footprint.  The theorems: a transaction is placed exactly
    once or not at all, and it is placed exactly when every shard it touches has
    committed it in a sealed epoch; and the order only grows as epochs are
    sealed when each transaction's commits fall in one epoch. *)

From Stdlib Require Import ZArith Lia Sorting.Sorted.
From stdpp Require Import base list numbers gmap.
From S2P Require Import Prelude Mvcc Txn Sequencer.

(** ** Routing *)

(** FNV-1a over the key bytes. *)
Definition fnv_step (h : Z) (ch : byte) : Z := u64 (Z.lxor h (Zb ch) * 0x100000001B3).

Definition key_shard (key : Key) (num_shards : Z) : Z :=
  let h := fold_left fnv_step key 0xCBF29CE484222325 in
  if num_shards =? 0 then 0 else h mod num_shards.

Definition shards_of (t : Txn) (num_shards : Z) : gset Z :=
  fold_left (fun shards r => {[ key_shard (r_key r) num_shards ]} ∪ shards) (declared_reads t) ∅.

(** ** The global order of transactions *)

(** [seen_on\[t\]]: the shards on which [t] appears. *)
Definition seen_on (global : GlobalLog) (t : TxnId) : gset Z :=
  fold_left (fun seen e => if key_eqb (g_txn e) t then {[ g_shard e ]} ∪ seen else seen) global ∅.

(** The seal gate: the footprint is known and every shard of it has the
    transaction. *)
Definition complete (global : GlobalLog) (shards_by_txn : list (TxnId * gset Z)) (t : TxnId) : bool :=
  match assoc t shards_by_txn with
  | None => false
  | Some need => bool_decide (need ⊆ seen_on global t)
  end.

Fixpoint dedup_loop (global : GlobalLog) (shards_by_txn : list (TxnId * gset Z))
    (emitted : list TxnId) (es : GlobalLog) : list TxnId :=
  match es with
  | [] => []
  | e :: es' =>
      if existsb (key_eqb (g_txn e)) emitted then dedup_loop global shards_by_txn emitted es'
      else if complete global shards_by_txn (g_txn e)
      then g_txn e :: dedup_loop global shards_by_txn (g_txn e :: emitted) es'
      else dedup_loop global shards_by_txn emitted es'
  end.

Definition dedup_global_order (global : GlobalLog) (shards_by_txn : list (TxnId * gset Z)) : list TxnId :=
  dedup_loop global shards_by_txn [] global.

(** ** Routing is total and stable *)

Lemma fnv_range key : forall h, 0 <= h < 2 ^ 64 -> 0 <= fold_left fnv_step key h < 2 ^ 64.
Proof.
  induction key as [|b key IH]; intros h Hh; [done|]. cbn. apply IH. unfold fnv_step. apply u64_range.
Qed.

Lemma key_shard_range key n : 0 < n -> 0 <= key_shard key n < n.
Proof.
  intros Hn. unfold key_shard. rewrite (proj2 (Z.eqb_neq n 0)) by lia. by apply Z.mod_pos_bound.
Qed.

Lemma shards_of_in t n s :
  s ∈ shards_of t n <-> exists r, In r (declared_reads t) /\ key_shard (r_key r) n = s.
Proof.
  unfold shards_of. cut (forall acc : gset Z, s ∈ fold_left (fun shards r => {[ key_shard (r_key r) n ]} ∪ shards)
    (declared_reads t) acc <-> s ∈ acc \/ exists r, In r (declared_reads t) /\ key_shard (r_key r) n = s).
  { intros H. rewrite H. set_solver. }
  induction (declared_reads t) as [|r rs IH]; intros acc; cbn; [set_solver|]. rewrite IH. set_solver.
Qed.

(** ** Deduplication *)

Lemma seen_on_in global t s :
  s ∈ seen_on global t <-> exists g, In g global /\ g_txn g = t /\ g_shard g = s.
Proof.
  unfold seen_on. cut (forall acc : gset Z, s ∈ fold_left (fun seen e => if key_eqb (g_txn e) t
    then {[ g_shard e ]} ∪ seen else seen) global acc <->
    s ∈ acc \/ exists g, In g global /\ g_txn g = t /\ g_shard g = s).
  { intros H. rewrite H. set_solver. }
  induction global as [|g gs IH]; intros acc; cbn; [set_solver|]. rewrite IH.
  destruct (key_eqb_spec (g_txn g) t); set_solver.
Qed.

(** First appearances, in order. *)
Fixpoint first_seen (seen : list TxnId) (ts : list TxnId) : list TxnId :=
  match ts with
  | [] => []
  | t :: ts' =>
      if existsb (key_eqb t) seen then first_seen seen ts' else t :: first_seen (t :: seen) ts'
  end.

Lemma existsb_key t l : existsb (key_eqb t) l = true <-> In t l.
Proof.
  rewrite existsb_exists. split.
  - intros (x & Hx & He). apply key_eqb_eq in He. by subst.
  - intros Hin. exists t. split; [done|apply key_eqb_refl].
Qed.

Lemma first_seen_in ts : forall seen t, In t (first_seen seen ts) <-> In t ts /\ ~ In t seen.
Proof.
  induction ts as [|a ts IH]; intros seen t; cbn; [tauto|].
  destruct (existsb (key_eqb a) seen) eqn:Ea; cbn; rewrite IH.
  - apply existsb_key in Ea. split; [tauto|]. intros [[<-|Ht] Hn]; [done|tauto].
  - assert (Hna : ~ In a seen) by (rewrite <- existsb_key, Ea; done).
    destruct (decide (a = t)) as [<-|]; [tauto|]. cbn. tauto.
Qed.

Lemma first_seen_nodup ts : forall seen, NoDup (first_seen seen ts).
Proof.
  induction ts as [|a ts IH]; intros seen; cbn; [constructor|].
  destruct (existsb (key_eqb a) seen); [apply IH|]. apply NoDup_cons. split; [|apply IH].
  rewrite list_elem_of_In, first_seen_in. cbn. tauto.
Qed.

(** The loop keeps the complete ones among the first appearances. *)
Lemma dedup_loop_spec global by_txn es : forall emitted seen,
  (forall t, In t emitted <-> In t seen /\ complete global by_txn t = true) ->
  dedup_loop global by_txn emitted es =
  List.filter (complete global by_txn) (first_seen seen (map g_txn es)).
Proof.
  induction es as [|e es IH]; intros emitted seen Hem; cbn; [done|].
  destruct (existsb (key_eqb (g_txn e)) seen) eqn:Es.
  - apply existsb_key in Es. destruct (existsb _ emitted) eqn:Ee; [by apply IH|].
    destruct (complete global by_txn (g_txn e)) eqn:Ec; [|by apply IH].
    assert (Hin : In (g_txn e) emitted) by (by apply Hem). apply existsb_key in Hin. congruence.
  - assert (Hns : ~ In (g_txn e) seen) by (rewrite <- existsb_key, Es; done).
    destruct (existsb _ emitted) eqn:Ee; [apply existsb_key, Hem in Ee; tauto|]. cbn.
    destruct (complete global by_txn (g_txn e)) eqn:Ec.
    + f_equal. apply IH. intros t. cbn. rewrite Hem.
      destruct (decide (g_txn e = t)) as [<-|]; naive_solver.
    + apply IH. intros t. cbn. rewrite Hem. naive_solver congruence.
Qed.

Lemma dedup_spec global by_txn :
  dedup_global_order global by_txn =
  List.filter (complete global by_txn) (first_seen [] (map g_txn global)).
Proof. apply dedup_loop_spec. cbn. tauto. Qed.

Lemma complete_spec global by_txn t :
  complete global by_txn t = true <->
  exists need, assoc t by_txn = Some need /\
    forall s, s ∈ need -> exists g, In g global /\ g_txn g = t /\ g_shard g = s.
Proof.
  unfold complete. destruct (assoc t by_txn) as [need|]; [|naive_solver].
  rewrite bool_decide_eq_true. split.
  - intros Hs. exists need. split; [done|]. intros s Hin. by apply seen_on_in, Hs.
  - intros (n & [= <-] & Hs) s Hin. by apply seen_on_in, Hs.
Qed.

(** *** Growth *)

Lemma first_seen_app a b : forall seen,
  (forall t, In t b -> ~ In t a) ->
  first_seen seen (a ++ b) = first_seen seen a ++ first_seen seen b.
Proof.
  induction a as [|t a IH]; intros seen Hd; [done|]. cbn.
  destruct (existsb (key_eqb t) seen).
  - apply IH. intros x Hx Ha. apply (Hd x Hx). by right.
  - cbn. f_equal. rewrite IH by (intros x Hx Ha; apply (Hd x Hx); by right). f_equal.
    clear IH. assert (Ht : ~ In t b) by (intros Hb; apply (Hd t Hb); by left). clear Hd.
    assert (Hext : forall s1 s2, (forall x, In x b -> In x s1 <-> In x s2) ->
                                 first_seen s1 b = first_seen s2 b).
    { clear. induction b as [|x b IH]; intros s1 s2 Hs; [done|]. cbn.
      assert (existsb (key_eqb x) s1 = existsb (key_eqb x) s2) as ->.
      { apply eq_iff_eq_true. rewrite !existsb_key. apply Hs. by left. }
      destruct (existsb _ s2); [|f_equal]; apply IH; intros y Hy; [apply Hs; by right|].
      cbn. rewrite Hs; [done|by right]. }
    apply Hext. intros x Hx. cbn. split; [|by right]. intros [<-|]; done.
Qed.

(** A transaction absent from the appended entries is as complete as before. *)
Lemma complete_app a b by_txn t :
  ~ In t (map g_txn b) -> complete (a ++ b) by_txn t = complete a by_txn t.
Proof.
  intros Hn. apply eq_iff_eq_true. rewrite !complete_spec.
  assert (Hg : forall g, In g (a ++ b) -> g_txn g = t -> In g a).
  { intros g [Hg|Hg]%in_app_iff <-; [done|]. destruct Hn. apply in_map_iff. eauto. }
  split; intros (need & Hf & Hs); exists need; (split; [done|]); intros s Hin;
    destruct (Hs s Hin) as (g & Hg1 & Hg2 & Hg3); exists g; split_and!; auto; apply in_app_iff; auto.
Qed.

Lemma dedup_app a b by_txn :
  (forall t, In t (map g_txn b) -> ~ In t (map g_txn a)) ->
  dedup_global_order a by_txn `prefix_of` dedup_global_order (a ++ b) by_txn.
Proof.
  intros Hd. rewrite !dedup_spec, map_app, first_seen_app, List.filter_app by done.
  assert (Hf : List.filter (complete (a ++ b) by_txn) (first_seen [] (map g_txn a)) =
               List.filter (complete a by_txn) (first_seen [] (map g_txn a))).
  { apply filter_ext_in. intros t [Ht _]%first_seen_in. apply complete_app. intros Hb. by apply (Hd t). }
  rewrite Hf. by apply prefix_app_r.
Qed.

(** ** Properties *)

(** [t] is committed on shard [s] in a sealed epoch. *)
Definition committed_on (logs : list ShardLog) (sealed s : Z) (t : TxnId) : Prop :=
  exists g, input_of logs g /\ 1 <= g_epoch g <= sealed /\ g_txn g = t /\ g_shard g = s.

(** All or nothing.  From the shard logs, the ranks and the sealed boundary,
    the executor's order holds each transaction at most once, and it holds a
    transaction exactly when its footprint is known and every shard of it has
    committed the transaction in a sealed epoch; the transactions stand in the
    order of their first appearance in the global log. *)
Theorem cross_shard_atomic logs ranks sealed shards_by_txn :
  let global := merge logs ranks sealed in
  let order := dedup_global_order global shards_by_txn in
  NoDup order /\
  (forall t, In t order <->
     exists need, assoc t shards_by_txn = Some need /\
       (exists s, committed_on logs sealed s t) /\ forall s, s ∈ need -> committed_on logs sealed s t) /\
  order = List.filter (fun t => existsb (key_eqb t) order) (first_seen [] (map g_txn global)).
Proof.
  intros global order.
  assert (Hcom : forall t s, (exists g, In g global /\ g_txn g = t /\ g_shard g = s) <->
                             committed_on logs sealed s t).
  { intros t s. unfold committed_on. split.
    - intros (g & Hg & Ht & Hs). apply merge_in in Hg as [H1 H2]. by exists g.
    - intros (g & H1 & H2 & Ht & Hs). exists g. split_and!; [by apply merge_in|done..]. }
  assert (Hin : forall t, In t order <-> In t (map g_txn global) /\ complete global shards_by_txn t = true).
  { intros t. unfold order. rewrite dedup_spec, filter_In, first_seen_in. cbn. tauto. }
  split_and!.
  - unfold order. rewrite dedup_spec. apply NoDup_ListNoDup, List.NoDup_filter, NoDup_ListNoDup, first_seen_nodup.
  - intros t. rewrite Hin, complete_spec, in_map_iff. setoid_rewrite Hcom. split.
    + intros [(g & Ht & Hg) (need & Hf & Hs)]. exists need. split_and!; [done| |done].
      exists (g_shard g). apply Hcom. by exists g.
    + intros (need & Hf & (s & Hc) & Hs). apply Hcom in Hc as (g & Hg & Ht & _).
      split; [by exists g|by exists need].
  - unfold order at 1. rewrite dedup_spec. apply filter_ext_in. intros t Ht.
    apply eq_iff_eq_true. rewrite existsb_key, Hin. apply first_seen_in in Ht. tauto.
Qed.

(** Sealing only extends the executor's order, when the commits of each
    transaction fall in one epoch: a later boundary appends transactions and
    never moves or inserts one before a transaction already placed. *)
Theorem cross_shard_append_only logs ranks sealed sealed' shards_by_txn :
  sealed <= sealed' ->
  (forall g g', input_of logs g -> input_of logs g' -> g_txn g = g_txn g' -> g_epoch g = g_epoch g') ->
  dedup_global_order (merge logs ranks sealed) shards_by_txn `prefix_of`
  dedup_global_order (merge logs ranks sealed') shards_by_txn.
Proof.
  intros Hle Hone. destruct (merge_seal logs ranks sealed sealed' Hle) as (rest & Heq & Hrest).
  rewrite Heq. apply dedup_app. intros t Hr Hm.
  apply in_map_iff in Hr as (g & Hg & Hin), Hm as (g' & Hg' & Hin').
  apply merge_in in Hin' as [Hi' He']. specialize (Hrest g Hin).
  assert (Hi : In g (merge logs ranks sealed')) by (rewrite Heq; apply in_app_iff; by right).
  apply merge_in in Hi as [Hi _]. rewrite (Hone g g') in Hrest by (done || congruence). lia.
Qed.

(** ** Witnesses and a hazard *)

Definition demo_footprints : list (TxnId * gset Z) :=
  [([Byte.x61], {[0; 1]}); ([Byte.x62], {[0]}); ([Byte.x63], {[0; 1]})].

(** [61] is on both shards of its footprint, [63] on one of its two. *)
Example demo_order :
  dedup_global_order (merge demo_logs [9; 4] 2) demo_footprints = [[Byte.x61]; [Byte.x62]].
Proof. vm_compute. reflexivity. Qed.

Lemma cross_shard_append_only_witness :
  dedup_global_order (merge demo_logs [9; 4] 1) demo_footprints `prefix_of`
  dedup_global_order (merge demo_logs [9; 4] 2) demo_footprints.
Proof.
  apply cross_shard_append_only; [lia|]. clear.
  assert (Hall : forall g, input_of demo_logs g ->
    g = mkGlobal [Byte.x61] 0 1 1 \/ g = mkGlobal [Byte.x62] 0 2 2 \/
    g = mkGlobal [Byte.x63] 1 1 1 \/ g = mkGlobal [Byte.x61] 1 2 1).
  { intros [tx s i e] (H1 & H2 & log & H3 & H4). cbn in *. unfold demo_logs in H3.
    destruct (Z.to_nat s) as [|[|]] eqn:Es; cbn in H3; try done; injection H3 as <-;
      (destruct (Z.to_nat (i - 1)) as [|[|]] eqn:Ei; cbn in H4; try done; injection H4 as <- <-).
    - left. f_equal; lia.
    - right; left. f_equal; lia.
    - right; right; left. f_equal; lia.
    - right; right; right. f_equal; lia. }
  intros g g' Hg%Hall Hg'%Hall He. by destruct Hg as [->|[->|[->| ->]]], Hg' as [->|[->|[->| ->]]].
Defined.

(** Commits of one transaction in two epochs: shard 1 commits [61] two epochs
    after shard 0 does.  Once it is complete it takes the position of its first
    appearance, before [62], which an executor has already run. *)
Definition straddling : list ShardLog :=
  [[mkInput [Byte.x61] 1; mkInput [Byte.x62] 1]; [mkInput [Byte.x61] 3]].

Example late_commit_moves_ahead :
  let by_txn := [([Byte.x61], {[0; 1]}); ([Byte.x62], {[0]})] in
  dedup_global_order (merge straddling [0; 1] 1) by_txn = [[Byte.x62]] /\
  dedup_global_order (merge straddling [0; 1] 3) by_txn = [[Byte.x61]; [Byte.x62]].
Proof. vm_compute. split; reflexivity. Qed.
