(* ===== verification/Consensus.v ===== *)
(** Consensus: the vocabulary of the consensus seam
    (consensus/ConsensusNode.hpp): roles, log entries, results and the
    configuration of a node. *)

From Stdlib Require Import ZArith Lia.
From stdpp Require Import base list numbers.
From S2P Require Import Prelude.

Inductive Role := Follower | Candidate | Leader.

#[global] Instance Role_eq_dec : EqDecision Role.
Proof. solve_decision. Defined.

Record LogEntry := mkEntry { le_term : Z; le_value : list byte }.

#[global] Instance LogEntry_eq_dec : EqDecision LogEntry.
Proof. solve_decision. Defined.

Record SubmitResult := mkSubmit {
  sr_accepted : bool;
  sr_term : Z;
  sr_index : Z;
  sr_leader_hint : Z
}.

Record NodeConfig := mkNodeConfig {
  self_id : Z;
  cluster : list Z;
  init_config : list Z;
  election_timeout_min : Z;
  election_timeout_max : Z;
  heartbeat_interval : Z;
  snapshot_threshold : Z;
  nc_cluster_token : Z
}.

(** The term of the last entry, 0 for the empty log. *)
Definition last_term (l : list LogEntry) : Z :=
  match list.last l with Some e => le_term e | None => 0 end.
