(* ===== verification/RaftProtocol.v ===== *)
(** RaftProtocol: the abstract Raft protocol of a cluster with fixed
    membership, and its safety.

    A global state holds every server's view, the messages ever sent (a message
    may be delivered any number of times, in any order, or never) and three
    histories no server reads: the ballots cast, the elections won (winner, its
    log and its voters at that point) and the log of each term's leader.  The
    steps are the moves an implementation may make; they are permissive, so that
    a handler of an implementation is a sequence of them.  The safety theorem is
    stated for every reachable state.

    The proof follows the histories: a server's log agrees with the log of the
    leader of each of its entries' terms ([agrees]); an acknowledged prefix is
    lost only to a later leader elected without it ([kept]); and the first such
    leader would have been elected against a quorum that held it. *)

From Stdlib Require Import ZArith Lia.
From stdpp Require Import base list numbers.
From S2P Require Import Prelude Consensus.

Abbreviation log := (list LogEntry).

(** ** States *)

Record anode := mkANode {
  a_term : Z;
  a_vote : option Z;
  a_role : Role;
  a_log : log;
  a_commit : nat;
  a_votes : list Z
}.

Definition initial_node : anode := mkANode 0 None Follower [] 0 [].

(** A vote request carries the candidate's log (of which the wire carries the
    last term and the length); an append carries the position before its first
    entry and the term there. *)
Inductive amsg :=
| ReqVote (t cand : Z) (cl : log)
| Append (t src : Z) (prev : nat) (pt : Z) (es : log) (c : nat)
| Snap (t src : Z) (st : log)
| Ack (t v : Z) (k : nat).

Record ballot := mkBallot { b_term : Z; b_voter : Z; b_cand : Z; b_log : log }.

Record election := mkElection { el_winner : Z; el_log : log; el_voters : list Z }.

Record global := mkGlobalState {
  nodes : Z -> anode;
  net : list amsg;
  ballots : list ballot;
  elect : Z -> option election;
  llog : Z -> log
}.

Definition upd {A} (f : Z -> A) (i : Z) (x : A) : Z -> A := fun j => if decide (j = i) then x else f j.

Lemma upd_same {A} (f : Z -> A) i x : upd f i x i = x.
Proof. unfold upd. by rewrite decide_True. Qed.

Lemma upd_other {A} (f : Z -> A) i x j : j <> i -> upd f i x j = f j.
Proof. intros H. unfold upd. by rewrite decide_False. Qed.

Definition initial : global :=
  mkGlobalState (fun _ => initial_node) [] [] (fun _ => None) (fun _ => []).

(** ** Steps *)

Section protocol.
Context (cluster : list Z).

Definition majority (q : list Z) : Prop :=
  NoDup q /\ (forall v, In v q -> In v cluster) /\ (length cluster < 2 * length q)%nat.

(** The candidate's log is at least as up to date as the voter's. *)
Definition up_to_date (cl l : log) : Prop :=
  last_term l < last_term cl \/ last_term cl = last_term l /\ (length l <= length cl)%nat.

(** The entry at 1-based position [k]. *)
Definition at_pos (l : log) (k : nat) : option LogEntry :=
  match k with O => None | S j => l !! j end.

Definition term_of (l : log) (k : nat) : Z :=
  match at_pos l k with Some e => le_term e | None => 0 end.

(** The first position of [es] that conflicts with [l] above position [b]: the
    entry at [prev + k + 1] exists in both with different terms. *)
Fixpoint first_conflict (b : nat) (l : log) (prev : nat) (es : log) : option nat :=
  match es with
  | [] => None
  | e :: es' =>
      if (b <? S prev)%nat then
        match l !! prev with
        | None => None
        | Some x =>
            if decide (le_term x = le_term e) then option_map S (first_conflict b l (S prev) es')
            else Some O
        end
      else option_map S (first_conflict b l (S prev) es')
  end.

(** The follower's log after an append at [prev]. *)
Definition splice (b : nat) (l : log) (prev : nat) (es : log) : log :=
  match first_conflict b l prev es with
  | Some k => take (prev + k) l ++ drop k es
  | None => l ++ drop (length l - prev) es
  end.

Definition set_node (i : Z) (x : anode) (g : global) : global :=
  mkGlobalState (upd (nodes g) i x) (net g) (ballots g) (elect g) (llog g).
Definition send (m : amsg) (g : global) : global :=
  mkGlobalState (nodes g) (m :: net g) (ballots g) (elect g) (llog g).
Definition cast (b : ballot) (g : global) : global :=
  mkGlobalState (nodes g) (net g) (b :: ballots g) (elect g) (llog g).
Definition win (t : Z) (e : election) (g : global) : global :=
  mkGlobalState (nodes g) (net g) (ballots g) (upd (elect g) t (Some e)) (upd (llog g) t (el_log e)).
Definition extend (t : Z) (l : log) (g : global) : global :=
  mkGlobalState (nodes g) (net g) (ballots g) (elect g) (upd (llog g) t l).

Inductive step (g : global) : global -> Prop :=
(** Adopt a later term. *)
| StepDown i t :
    let n := nodes g i in
    a_term n < t ->
    step g (set_node i (mkANode t None Follower (a_log n) (a_commit n) []) g)
(** Give up a role, or restart with the durable state; the commit position may
    fall back. *)
| Demote i c votes :
    let n := nodes g i in
    (c <= a_commit n)%nat ->
    step g (set_node i (mkANode (a_term n) (a_vote n) Follower (a_log n) c votes) g)
(** Stand for election. *)
| Timeout i :
    let n := nodes g i in
    In i cluster -> a_role n <> Leader ->
    let t := a_term n + 1 in
    step g (send (ReqVote t i (a_log n))
             (cast (mkBallot t i i (a_log n))
               (set_node i (mkANode t (Some i) Candidate (a_log n) (a_commit n) [i]) g)))
(** Vote for a candidate of the current term. *)
| Grant i t c cl :
    let n := nodes g i in
    In i cluster -> In (ReqVote t c cl) (net g) -> a_term n = t -> a_vote n = None -> up_to_date cl (a_log n) ->
    step g (cast (mkBallot t i c (a_log n))
             (set_node i (mkANode t (Some c) (a_role n) (a_log n) (a_commit n) (a_votes n)) g))
(** Count a vote. *)
| Collect i v l :
    let n := nodes g i in
    a_role n = Candidate -> In (mkBallot (a_term n) v i l) (ballots g) -> ~ In v (a_votes n) ->
    step g (set_node i (mkANode (a_term n) (a_vote n) Candidate (a_log n) (a_commit n) (a_votes n ++ [v])) g)
(** Win an election. *)
| Elect i :
    let n := nodes g i in
    a_role n = Candidate -> majority (a_votes n) ->
    step g (win (a_term n) (mkElection i (a_log n) (a_votes n))
             (set_node i (mkANode (a_term n) (a_vote n) Leader (a_log n) (a_commit n) (a_votes n)) g))
(** Append a client's entry. *)
| Client i v :
    let n := nodes g i in
    a_role n = Leader ->
    let l := a_log n ++ [mkEntry (a_term n) v] in
    step g (extend (a_term n) l
             (set_node i (mkANode (a_term n) (a_vote n) Leader l (a_commit n) (a_votes n)) g))
(** Send a piece of the leader's log. *)
| Replicate i prev k c :
    let n := nodes g i in
    a_role n = Leader -> (prev <= length (a_log n))%nat -> (c <= a_commit n)%nat ->
    step g (send (Append (a_term n) i prev (term_of (a_log n) prev) (take k (drop prev (a_log n))) c) g)
(** Send a committed prefix of the leader's log. *)
| SendSnap i k :
    let n := nodes g i in
    a_role n = Leader -> (k <= a_commit n)%nat ->
    step g (send (Snap (a_term n) i (take k (a_log n))) g)
(** Accept an append of the current term. *)
| RecvAppend i src prev pt es c b :
    let n := nodes g i in
    In i cluster -> In (Append (a_term n) src prev pt es c) (net g) -> i <> src ->
    prev = 0%nat \/ (prev <= length (a_log n))%nat /\ term_of (a_log n) prev = pt ->
    (b <= a_commit n)%nat ->
    step g (send (Ack (a_term n) i (prev + length es))
             (set_node i (mkANode (a_term n) (a_vote n) Follower (splice b (a_log n) prev es)
                            (a_commit n `max` (c `min` (prev + length es))) (a_votes n)) g))
(** Adopt a snapshot that is ahead of the commit position and not shorter than
    the log. *)
| RecvSnap i src st :
    let n := nodes g i in
    In (Snap (a_term n) src st) (net g) -> i <> src ->
    (a_commit n < length st)%nat -> (length (a_log n) <= length st)%nat ->
    step g (set_node i (mkANode (a_term n) (a_vote n) Follower st (length st) (a_votes n)) g)
(** Acknowledge a committed prefix to the leader of the current term. *)
| AckCommitted i k :
    let n := nodes g i in
    In i cluster -> is_Some (elect g (a_term n)) -> (k <= a_commit n)%nat ->
    step g (send (Ack (a_term n) i k) g)
(** The leader holds its own log. *)
| AckSelf i k :
    let n := nodes g i in
    In i cluster -> a_role n = Leader -> (k <= length (a_log n))%nat ->
    step g (send (Ack (a_term n) i k) g)
(** Commit an entry of the current term held by a quorum. *)
| Commit i k q :
    let n := nodes g i in
    a_role n = Leader -> (k <= length (a_log n))%nat -> term_of (a_log n) k = a_term n ->
    majority q -> (forall v, In v q -> exists k', (k <= k')%nat /\ In (Ack (a_term n) v k') (net g)) ->
    step g (set_node i (mkANode (a_term n) (a_vote n) Leader (a_log n) (a_commit n `max` k) (a_votes n)) g).

End protocol.
