(* ===== verification/RaftSafety.v ===== *)
(** RaftSafety: the invariant of the abstract protocol and the agreement of
    committed prefixes. *)

From Stdlib Require Import ZArith Lia.
From stdpp Require Import base list numbers relations.
From S2P Require Import Prelude Consensus RaftProtocol.

(** ** Prefixes *)

Lemma prefix_is_take {A} (p l : list A) : p `prefix_of` l -> take (length p) l = p.
Proof. intros [q ->]. by rewrite take_app_length. Qed.

(** Two prefixes of one list, the first not longer. *)
Lemma prefix_both {A} (p q l : list A) :
  p `prefix_of` l -> q `prefix_of` l -> (length p <= length q)%nat -> p `prefix_of` q.
Proof.
  intros Hp [r ->] Hl. apply prefix_is_take in Hp. rewrite take_app_le in Hp by lia.
  rewrite <- Hp. apply prefix_take.
Qed.

Lemma take_of_prefix {A} k (p l : list A) :
  p `prefix_of` l -> (k <= length p)%nat -> take k l = take k p.
Proof. intros [q ->] Hk. by rewrite take_app_le. Qed.

Lemma take_eq_le {A} k m (l l' : list A) : (k <= m)%nat -> take m l = take m l' -> take k l = take k l'.
Proof.
  intros Hk He. rewrite <- (Nat.min_l k m) by done. by rewrite <- !take_take, He.
Qed.

Lemma take_eq_prefix {A} k (l l' : list A) : (k <= length l)%nat -> take k l = take k l' -> take k l' `prefix_of` l.
Proof. intros Hk <-. apply prefix_take. Qed.

Lemma take_eq_length {A} k (l l' : list A) : (k <= length l)%nat -> take k l = take k l' -> (k <= length l')%nat.
Proof. intros Hk He. apply (f_equal length) in He. rewrite !length_take in He. lia. Qed.

Lemma lookup_take_eq {A} k (l l' : list A) j : take k l = take k l' -> (j < k)%nat -> l !! j = l' !! j.
Proof. intros He Hj. by rewrite <- (lookup_take_lt l k), He, lookup_take_lt. Qed.

(** A common prefix of [l] and [L] survives a replacement of [l] by a prefix
    [V] of [L] with which it conflicts. *)
Lemma prefix_conflict {A} (p l V L : list A) j x y :
  p `prefix_of` l -> p `prefix_of` L -> V `prefix_of` L ->
  l !! j = Some x -> V !! j = Some y -> x <> y -> p `prefix_of` V.
Proof.
  intros Hpl HpL HV Hx Hy Hne. destruct (decide (length p <= length V)%nat); [by eapply prefix_both|].
  destruct Hne. assert (Hvp : V `prefix_of` p) by (eapply prefix_both; [done..|lia]).
  assert (l !! j = Some y); [|congruence]. eapply prefix_lookup_Some; [|done].
  by eapply prefix_lookup_Some.
Qed.

(** ** The follower's log *)

Section splice.
Context (b : nat) (l V : log).
Hypothesis Hterm : forall j x y, l !! j = Some x -> V !! j = Some y -> le_term x = le_term y ->
  take (S j) l = take (S j) V.
Hypothesis Hskip : forall j y, (j < b)%nat -> V !! j = Some y -> l !! j = Some y.

(** Splicing the rest of [V] into [l] after a common prefix gives [V], or leaves
    [l] when [V] is a prefix of it. *)
Definition spliced (r : log) : Prop :=
  (r = l /\ V `prefix_of` l) \/ (r = V /\ l `prefix_of` V) \/
  (r = V /\ exists j x y, l !! j = Some x /\ V !! j = Some y /\ x <> y).

Lemma splice_spec es : forall prev,
  drop prev V = es -> (prev <= length V)%nat -> (prev <= length l)%nat -> take prev l = take prev V ->
  spliced (splice b l prev es).
Proof.
  induction es as [|e es IH]; intros prev Hes HV Hl Heq.
  { left. assert (length V = prev) as <-.
    { apply (f_equal length) in Hes. rewrite length_drop in Hes. cbn in Hes. lia. }
    unfold splice. cbn. rewrite drop_nil, app_nil_r. split; [done|].
    rewrite (take_ge V) in Heq by done. rewrite <- Heq. apply prefix_take. }
  assert (HVp : V !! prev = Some e) by (rewrite <- (Nat.add_0_r prev), <- lookup_drop, Hes; done).
  assert (Hlt : (prev < length V)%nat) by (by apply lookup_lt_Some in HVp).
  assert (Hes' : drop (S prev) V = es) by (by rewrite <- Nat.add_1_r, <- drop_drop, Hes).
  assert (Hrec : forall x, l !! prev = Some x -> take (S prev) l = take (S prev) V ->
    spliced (splice b l (S prev) es)).
  { intros x Hx Ht. apply IH; [done|lia| |done]. apply lookup_lt_Some in Hx. lia. }
  assert (Hstep : forall x, l !! prev = Some x ->
    first_conflict b l prev (e :: es) = option_map S (first_conflict b l (S prev) es) ->
    splice b l prev (e :: es) = splice b l (S prev) es).
  { intros x Hx Hfc. unfold splice. rewrite Hfc. apply lookup_lt_Some in Hx.
    destruct (first_conflict b l (S prev) es) as [k|]; cbn [option_map].
    - by rewrite Nat.add_succ_r.
    - f_equal. by replace (length l - prev)%nat with (S (length l - S prev)) by lia. }
  cbn [first_conflict] in Hstep. destruct (b <? S prev)%nat eqn:Eb.
  - destruct (l !! prev) as [x|] eqn:Ex.
    + destruct (decide (le_term x = le_term e)) as [Et|Et].
      * rewrite (Hstep x eq_refl eq_refl). apply (Hrec x eq_refl). by eapply Hterm.
      * right; right. split.
        -- unfold splice. cbn [first_conflict]. rewrite Eb, Ex, decide_False by done.
           rewrite Nat.add_0_r, Heq, drop_0, <- Hes. apply take_drop.
        -- exists prev, x, e. split_and!; [done..|congruence].
    + apply lookup_ge_None in Ex. assert (length l = prev) by lia. subst prev. right; left. split.
      * unfold splice. cbn [first_conflict]. rewrite Eb, (proj2 (lookup_ge_None l _)) by lia.
        rewrite Nat.sub_diag, drop_0, <- Hes. rewrite take_ge in Heq by lia. rewrite Heq at 1.
        apply take_drop.
      * rewrite take_ge in Heq by lia. rewrite Heq. apply prefix_take.
  - assert (Hx : l !! prev = Some e) by (apply Hskip; [lia|done]).
    rewrite (Hstep e Hx eq_refl). apply (Hrec e Hx). by eapply Hterm.
Qed.

Lemma spliced_prefix r : spliced r -> V `prefix_of` r.
Proof. by intros [[-> ?]|[[-> ?]|[-> ?]]]. Qed.

(** What [l] shares with a log that extends [V] survives. *)
Lemma spliced_keeps r p L :
  spliced r -> V `prefix_of` L -> p `prefix_of` l -> p `prefix_of` L -> p `prefix_of` r.
Proof.
  intros [[-> ?]|[[-> ?]|[-> (j & x & y & Hx & Hy & Hne)]]] HV Hp HpL; [done|by transitivity l|].
  exact (prefix_conflict p l V L j x y Hp HpL HV Hx Hy Hne).
Qed.
End splice.

(** ** The invariant *)

Section safety.
Context (cluster : list Z).

(** Every entry of the log is in the log of its term's leader, at the same
    position and after the same entries. *)
Definition agrees (g : global) (l : log) : Prop :=
  forall j e, l !! j = Some e ->
    is_Some (elect g (le_term e)) /\ take (S j) l = take (S j) (llog g (le_term e)).

(** [v] acknowledged at least [k] positions to the leader of term [t]. *)
Definition acked (g : global) (t v : Z) (k : nat) : Prop :=
  exists k', (k <= k')%nat /\ In (Ack t v k') (net g).

Definition committed (g : global) (t : Z) (k : nat) : Prop :=
  (exists e, at_pos (llog g t) k = Some e /\ le_term e = t) /\
  exists q, majority cluster q /\ forall v, In v q -> acked g t v k.

(** The first [c] entries of [l] are committed, by a leader of a term up to
    [t]. *)
Definition com (g : global) (l : log) (t : Z) (c : nat) : Prop :=
  (c <= length l)%nat /\
  (c = 0%nat \/ exists t' k, committed g t' k /\ t' <= t /\ (c <= k)%nat /\ take c l = take c (llog g t')).

(** The prefix of length [k] of term [t]'s leader is in [l], or a leader of a
    term up to [bound] was elected without it. *)
Definition kept (g : global) (t : Z) (k : nat) (l : log) (bound : Z) : Prop :=
  take k (llog g t) `prefix_of` l \/
  exists t' e, t < t' <= bound /\ elect g t' = Some e /\ ~ take k (llog g t) `prefix_of` el_log e.

Definition append_ok (g : global) (t src : Z) (prev : nat) (pt : Z) (es : log) (c : nat) : Prop :=
  (exists e, elect g t = Some e /\ el_winner e = src) /\
  (prev + length es <= length (llog g t))%nat /\ es = take (length es) (drop prev (llog g t)) /\
  pt = term_of (llog g t) prev /\ com g (llog g t) t c.

Definition snap_ok (g : global) (t src : Z) (st : log) : Prop :=
  (exists e, elect g t = Some e /\ el_winner e = src) /\
  st `prefix_of` llog g t /\ com g (llog g t) t (length st).

Definition ack_ok (g : global) (t v : Z) (k : nat) : Prop :=
  is_Some (elect g t) /\ (k <= length (llog g t))%nat /\ t <= a_term (nodes g v).

(** What one server's state satisfies. *)
Record server_ok (g : global) (i : Z) (n : anode) : Prop := {
  n_term : 0 <= a_term n;
  n_agrees : agrees g (a_log n);
  n_terms : forall e, In e (a_log n) -> le_term e <= a_term n;
  n_vote : forall c, a_vote n = Some c -> exists l, In (mkBallot (a_term n) i c l) (ballots g);
  n_cand : a_role n = Candidate ->
    NoDup (a_votes n) /\
    (forall v, In v (a_votes n) -> exists l, In (mkBallot (a_term n) v i l) (ballots g)) /\
    (forall e, In e (a_log n) -> le_term e < a_term n) /\
    (forall e, elect g (a_term n) = Some e -> el_winner e <> i) /\
    (forall cl, In (ReqVote (a_term n) i cl) (net g) -> cl = a_log n);
  n_leader : a_role n = Leader ->
    (exists e, elect g (a_term n) = Some e /\ el_winner e = i) /\ a_log n = llog g (a_term n);
  n_commit : com g (a_log n) (a_term n) (a_commit n);
  n_kept : forall t k, acked g t i k -> kept g t k (a_log n) (a_term n)
}.

Record ballot_ok (g : global) (b : ballot) : Prop := {
  bo_term : 1 <= b_term b <= a_term (nodes g (b_voter b));
  bo_current : b_term b = a_term (nodes g (b_voter b)) -> a_vote (nodes g (b_voter b)) = Some (b_cand b);
  bo_in : In (b_voter b) cluster;
  bo_req : exists cl, In (ReqVote (b_term b) (b_cand b) cl) (net g) /\ up_to_date cl (b_log b);
  bo_agrees : agrees g (b_log b);
  bo_kept : forall t k, acked g t (b_voter b) k -> t < b_term b ->
    kept g t k (b_log b) (b_term b - 1) \/
    exists e, elect g (b_term b) = Some e /\ ~ In (b_voter b) (el_voters e)
}.

Record election_ok (g : global) (t : Z) (e : election) : Prop := {
  eo_term : 1 <= t <= a_term (nodes g (el_winner e));
  eo_voters : majority cluster (el_voters e);
  eo_ballots : forall v, In v (el_voters e) -> exists l, In (mkBallot t v (el_winner e) l) (ballots g);
  eo_prefix : el_log e `prefix_of` llog g t;
  eo_before : forall x, In x (el_log e) -> le_term x < t;
  eo_terms : forall x, In x (llog g t) -> le_term x <= t;
  eo_agrees : agrees g (llog g t);
  eo_req : forall cl, In (ReqVote t (el_winner e) cl) (net g) -> cl = el_log e
}.

Definition msg_ok (g : global) (m : amsg) : Prop :=
  match m with
  | ReqVote t c _ => 1 <= t <= a_term (nodes g c)
  | Append t src prev pt es c => append_ok g t src prev pt es c
  | Snap t src st => snap_ok g t src st
  | Ack t v k => ack_ok g t v k
  end.

Record inv (g : global) : Prop := {
  i_servers : forall i, server_ok g i (nodes g i);
  i_ballots : forall b, In b (ballots g) -> ballot_ok g b;
  i_unique : forall b b', In b (ballots g) -> In b' (ballots g) ->
    b_term b = b_term b' -> b_voter b = b_voter b' -> b = b';
  i_elections : forall t e, elect g t = Some e -> election_ok g t e;
  i_msgs : forall m, In m (net g) -> msg_ok g m
}.

(** *** Quorums *)

Lemma majority_common q q' :
  majority cluster q -> majority cluster q' -> exists v, In v q /\ In v q'.
Proof.
  intros (Hn & Hin & Hl) (Hn' & Hin' & Hl').
  destruct (decide (Exists (fun v => v ∈ q') q)) as [He|He].
  - apply List.Exists_exists in He as (v & ? & ?%list_elem_of_In). by exists v.
  - exfalso. assert (Hnd : NoDup (q ++ q')).
    { apply NoDup_app. split_and!; [done| |done]. intros v Hv Hv'. apply He, List.Exists_exists.
      exists v. by rewrite <- list_elem_of_In. }
    assert (Hs : q ++ q' ⊆+ cluster).
    { apply NoDup_submseteq; [done|]. intros v. rewrite !list_elem_of_In, in_app_iff. naive_solver. }
    apply submseteq_length in Hs. rewrite length_app in Hs. lia.
Qed.

(** *** Histories only grow *)

Record ext (g g' : global) : Prop := {
  x_net : forall m, In m (net g) -> In m (net g');
  x_ballots : forall b, In b (ballots g) -> In b (ballots g');
  x_elect : forall t e, elect g t = Some e -> elect g' t = Some e;
  x_llog : forall t, is_Some (elect g t) -> llog g t `prefix_of` llog g' t;
  x_term : forall i, a_term (nodes g i) <= a_term (nodes g' i)
}.

Lemma ext_elected g g' t : ext g g' -> is_Some (elect g t) -> is_Some (elect g' t).
Proof. intros Hx [e He]. exists e. by apply (x_elect _ _ Hx). Qed.

Lemma ext_take g g' t k :
  ext g g' -> is_Some (elect g t) -> (k <= length (llog g t))%nat -> take k (llog g' t) = take k (llog g t).
Proof. intros Hx He Hk. apply take_of_prefix; [by apply (x_llog _ _ Hx)|done]. Qed.

Lemma agrees_ext g g' l : ext g g' -> agrees g l -> agrees g' l.
Proof.
  intros Hx Hl j e Hj. destruct (Hl j e Hj) as [He Ht]. split; [by eapply ext_elected|].
  rewrite (ext_take g g'); [done..|]. eapply take_eq_length; [|done].
  apply lookup_lt_Some in Hj. lia.
Qed.

Lemma acked_ext g g' t v k : ext g g' -> acked g t v k -> acked g' t v k.
Proof. intros Hx (k' & Hk & Hin). exists k'. split; [done|by apply (x_net _ _ Hx)]. Qed.

Lemma at_pos_prefix (l l' : log) k e : l `prefix_of` l' -> at_pos l k = Some e -> at_pos l' k = Some e.
Proof. intros Hp. destruct k; [done|]. cbn. intros Hk. by eapply prefix_lookup_Some. Qed.

Lemma at_pos_length (l : log) k e : at_pos l k = Some e -> (0 < k <= length l)%nat.
Proof. destruct k; [done|]. cbn. intros Hk%lookup_lt_Some. lia. Qed.

Lemma committed_length g t k : committed g t k -> (k <= length (llog g t))%nat.
Proof. intros [(e & He%at_pos_length & _) _]. lia. Qed.

(** Committed entries belong to elected leaders. *)
Lemma committed_elected g t k :
  (forall m, In m (net g) -> msg_ok g m) -> committed g t k -> is_Some (elect g t).
Proof.
  intros Hm [_ (q & (_ & _ & Hl) & Hq)]. destruct q as [|v q]; [cbn in Hl; lia|].
  destruct (Hq v (or_introl eq_refl)) as (k' & _ & Hin). apply (Hm _ Hin).
Qed.

Lemma committed_ext g g' t k :
  (forall m, In m (net g) -> msg_ok g m) -> ext g g' -> committed g t k -> committed g' t k.
Proof.
  intros Hm Hx Hc. pose proof (committed_elected _ _ _ Hm Hc) as He.
  destruct Hc as [(e & Hp & Ht) (q & Hq & Ha)]. split.
  - exists e. split; [|done]. eapply at_pos_prefix; [by apply (x_llog _ _ Hx)|done].
  - exists q. split; [done|]. intros v Hv. eapply acked_ext; [done|by apply Ha].
Qed.

Lemma com_ext g g' l t c :
  (forall m, In m (net g) -> msg_ok g m) -> ext g g' -> com g l t c -> com g' l t c.
Proof.
  intros Hm Hx [Hl [->|(t' & k & Hc & Ht & Hk & He)]]; (split; [done|]); [by left|right].
  exists t', k. split_and!; [by eapply committed_ext|done..|]. rewrite He. symmetry.
  apply ext_take; [done|by eapply committed_elected|]. apply committed_length in Hc. lia.
Qed.

Lemma kept_ext g g' t k l bound bound' :
  ext g g' -> bound <= bound' -> is_Some (elect g t) -> (k <= length (llog g t))%nat ->
  kept g t k l bound -> kept g' t k l bound'.
Proof.
  intros Hx Hb He Hk. unfold kept. rewrite (ext_take g g' t k Hx He Hk).
  intros [Hp|(t' & e & Ht & Het & Hn)]; [by left|]. right. exists t', e.
  split_and!; [lia|lia|by apply (x_elect _ _ Hx)|done].
Qed.

Lemma acked_ok g t v k :
  (forall m, In m (net g) -> msg_ok g m) -> acked g t v k -> ack_ok g t v k.
Proof.
  intros Hm (k' & Hk & Hin). destruct (Hm _ Hin) as (H1 & H2 & H3). split_and!; [done|lia|done].
Qed.

Lemma msg_ext g g' m :
  (forall m, In m (net g) -> msg_ok g m) -> ext g g' -> msg_ok g m -> msg_ok g' m.
Proof.
  intros Hall Hx. destruct m as [t c cl|t src prev pt es c|t src st|t v k]; cbn.
  - intros H. pose proof (x_term _ _ Hx c). lia.
  - intros ((e & He & Hw) & Hl & Hes & Hpt & Hc).
    assert (Hp : llog g t `prefix_of` llog g' t) by (apply (x_llog _ _ Hx); by exists e).
    pose proof (prefix_length _ _ Hp). destruct Hp as [s Hs].
    split_and!; [exists e; split; [by apply (x_elect _ _ Hx)|done]|lia| | |].
    + rewrite Hs, drop_app_le, take_app_le by (rewrite ?length_drop; lia). done.
    + rewrite Hpt. unfold term_of, at_pos. destruct prev; [done|]. by rewrite Hs, lookup_app_l by lia.
    + destruct (com_ext g g' _ _ _ Hall Hx Hc) as [H1 H2]. split; [lia|].
      destruct H2 as [->|(t' & k & H2 & H3 & H4 & H5)]; [by left|right]. exists t', k.
      split_and!; [done..|]. by rewrite Hs, take_app_le.
  - intros ((e & He & Hw) & Hp & Hc).
    assert (Hl : llog g t `prefix_of` llog g' t) by (apply (x_llog _ _ Hx); by exists e).
    split_and!; [exists e; split; [by apply (x_elect _ _ Hx)|done]|by transitivity (llog g t)|].
    destruct (com_ext g g' _ _ _ Hall Hx Hc) as [H1 H2]. pose proof (prefix_length _ _ Hl).
    split; [lia|]. destruct H2 as [H2|(t' & k & H2 & H3 & H4 & H5)]; [by left|right]. exists t', k.
    split_and!; [done..|]. by rewrite (take_of_prefix _ (llog g t)).
  - intros (He & Hk & Ht). split_and!; [by eapply ext_elected| |].
    + etrans; [done|]. by apply prefix_length, (x_llog _ _ Hx).
    + pose proof (x_term _ _ Hx v). lia.
Qed.

(** *** Leader completeness *)

Lemma last_is_lookup (l : log) : l <> [] -> exists e, l !! (length l - 1)%nat = Some e /\ last_term l = le_term e.
Proof.
  intros Hl. unfold last_term. rewrite last_lookup. destruct l as [|x l]; [done|].
  replace (pred (length (x :: l))) with (length (x :: l) - 1)%nat by (cbn; lia).
  destruct (lookup_lt_is_Some_2 (x :: l) (length (x :: l) - 1)) as [e He]; [cbn; lia|].
  exists e. by rewrite He.
Qed.

(** A log that agrees with the leaders is a prefix of its last term's leader. *)
Lemma agrees_last g l :
  agrees g l -> l <> [] -> is_Some (elect g (last_term l)) /\ l `prefix_of` llog g (last_term l).
Proof.
  intros Ha Hl. destruct (last_is_lookup l Hl) as (e & He & ->). destruct (Ha _ _ He) as [H1 H2].
  split; [done|]. apply lookup_lt_Some in He as Hlt.
  replace (S (length l - 1)) with (length l) in H2 by lia. rewrite take_ge in H2 by lia.
  rewrite H2. apply prefix_take.
Qed.

Lemma agrees_prefix g l l' : l `prefix_of` l' -> agrees g l' -> agrees g l.
Proof.
  intros Hp Ha j e Hj. destruct (Ha j e) as [H1 H2]; [by eapply prefix_lookup_Some|].
  split; [done|]. rewrite <- H2. symmetry. apply take_of_prefix; [done|]. apply lookup_lt_Some in Hj. lia.
Qed.

Lemma in_log (l : log) j e : l !! j = Some e -> In e l.
Proof. intros Hj. by eapply list_elem_of_In, list_elem_of_lookup_2. Qed.

(** One voter's log held the entry and the candidate's log is at least as up to
    date: then the candidate's log holds it, if every leader in between does. *)
Lemma up_to_date_has g t k (l cl : log) (bound : Z) :
  inv g -> 1 <= t -> agrees g l -> agrees g cl -> up_to_date cl l ->
  (exists e, at_pos (llog g t) k = Some e /\ le_term e = t) ->
  take k (llog g t) `prefix_of` l ->
  (forall x, In x cl -> le_term x < bound) ->
  (forall t' e', t < t' < bound -> elect g t' = Some e' -> take k (llog g t) `prefix_of` el_log e') ->
  take k (llog g t) `prefix_of` cl.
Proof.
  intros Hi Ht Hal Hac Hutd (e & Hpos & Het) Hp Hb Hbetween.
  pose proof (at_pos_length _ _ _ Hpos) as Hk. pose proof (prefix_length _ _ Hp) as Hlen.
  rewrite length_take in Hlen.
  assert (Hlne : l <> []) by (intros ->; cbn in Hlen; lia).
  destruct (agrees_last g l Hal Hlne) as [[el Hel] Hpl].
  assert (Htl : t <= last_term l).
  { rewrite <- Het. apply (eo_terms _ _ _ (i_elections _ Hi _ _ Hel)).
    destruct k as [|k]; [lia|]. cbn in Hpos. apply (in_log _ k). eapply prefix_lookup_Some; [|exact Hpl].
    eapply prefix_lookup_Some; [|exact Hp]. rewrite lookup_take_lt by lia. done. }
  assert (Hcne : cl <> []).
  { intros ->. destruct Hutd as [Hu|[Hu _]]; change (last_term []) with 0 in Hu; lia. }
  destruct (agrees_last g cl Hac Hcne) as [[ec Hec] Hpc].
  destruct (last_is_lookup cl Hcne) as (z & Hz & Hzt).
  destruct (decide (t < last_term cl)) as [Hgt|Hgt].
  - pose proof (i_elections _ Hi _ _ Hec) as Ho.
    assert (Hin : take k (llog g t) `prefix_of` el_log ec).
    { apply (Hbetween (last_term cl)); [|done]. split; [done|]. rewrite Hzt. by apply Hb, (in_log _ _ _ Hz). }
    eapply prefix_both; [transitivity (el_log ec); [done|by apply eo_prefix]|exact Hpc|].
    etrans; [by apply prefix_length|]. destruct (decide (length (el_log ec) <= length cl)%nat); [done|].
    exfalso. assert (Hze : In z (el_log ec)).
    { apply (in_log _ (length cl - 1)). rewrite <- Hz. apply lookup_lt_Some in Hz.
      rewrite (prefix_lookup_lt cl (llog g (last_term cl)) _ Hz Hpc).
      apply prefix_lookup_lt; [lia|by apply eo_prefix]. }
    pose proof (eo_before _ _ _ Ho z Hze). lia.
  - assert (Heq : last_term cl = t /\ (length l <= length cl)%nat) by (destruct Hutd; lia).
    destruct Heq as [Heq Hll]. rewrite Heq in Hpc.
    eapply prefix_both; [apply prefix_take|exact Hpc|rewrite length_take; lia].
Qed.

Lemma leader_complete g t k :
  inv g -> committed g t k ->
  forall t' e', elect g t' = Some e' -> t < t' -> take k (llog g t) `prefix_of` el_log e'.
Proof.
  intros Hi Hc. pose proof (i_msgs _ Hi) as Hm.
  destruct (committed_elected _ _ _ Hm Hc) as [et Het].
  pose proof (i_elections _ Hi _ _ Het) as Hot. pose proof (eo_term _ _ _ Hot) as Ht1.
  intros t'. induction (Z.lt_wf t t') as [t' _ IH]. intros e' He' Hlt.
  pose proof (i_elections _ Hi _ _ He') as Ho'.
  destruct Hc as [Hpos (q & Hq & Hack)].
  destruct (majority_common _ _ Hq (eo_voters _ _ _ Ho')) as (v & Hv & Hv').
  destruct (eo_ballots _ _ _ Ho' v Hv') as [l Hb].
  pose proof (i_ballots _ Hi _ Hb) as Hbo. cbn in Hbo.
  assert (Hbetween : forall t'' e'', t < t'' < t' -> elect g t'' = Some e'' ->
                                     take k (llog g t) `prefix_of` el_log e'').
  { intros t'' e'' Ht'' He''. by apply (IH t''); [lia| |lia]. }
  destruct (bo_kept _ _ Hbo t k (Hack v Hv) Hlt) as [[Hp|(t'' & e'' & Ht'' & He'' & Hn)]|(e & He & Hn)].
  - destruct (bo_req _ _ Hbo) as (cl & Hreq & Hutd). cbn in *.
    apply (eo_req _ _ _ Ho') in Hreq as ->.
    apply (up_to_date_has g t k l (el_log e') t'); [done|lia|apply Hbo| |done..|exact (eo_before _ _ _ Ho')|done].
    eapply agrees_prefix; [exact (eo_prefix _ _ _ Ho')|exact (eo_agrees _ _ _ Ho')].
  - destruct Hn. apply (Hbetween t''); [cbn in Ht''; lia|done].
  - cbn in He, Hn. rewrite He' in He. by injection He as <-.
Qed.

(** The committed part of a log is in the log of the current term's leader. *)
Lemma com_in_leader g l t c e :
  inv g -> com g l t c -> elect g t = Some e ->
  take c l = take c (llog g t) /\ (c <= length (llog g t))%nat.
Proof.
  intros Hi [Hl [->|(t' & k & Hc & Ht & Hk & He)]] Hel; [by split; [|lia]|].
  assert (Hp : take k (llog g t') `prefix_of` llog g t).
  { destruct (decide (t' = t)) as [->|Hne]; [apply prefix_take|].
    transitivity (el_log e); [|by apply (eo_prefix _ _ _ (i_elections _ Hi _ _ Hel))].
    apply (leader_complete g t' k Hi Hc t e Hel). lia. }
  pose proof (committed_length _ _ _ Hc) as Hlen.
  assert (Heq : take k (llog g t') = take k (llog g t)).
  { rewrite (take_of_prefix k _ _ Hp) by (rewrite length_take; lia). rewrite take_take. f_equal. lia. }
  split; [rewrite He; by eapply take_eq_le|].
  apply prefix_length in Hp. rewrite length_take in Hp. lia.
Qed.

(** *** What a step leaves alone *)

Lemma server_frame g g' i n :
  inv g -> ext g g' -> server_ok g i n ->
  (a_role n = Candidate -> forall e, elect g' (a_term n) = Some e ->
     elect g (a_term n) = Some e \/ el_winner e <> i) ->
  (a_role n = Candidate -> forall cl, In (ReqVote (a_term n) i cl) (net g') ->
     In (ReqVote (a_term n) i cl) (net g)) ->
  (a_role n = Leader -> llog g' (a_term n) = llog g (a_term n)) ->
  (forall t k, acked g' t i k -> acked g t i k \/ kept g' t k (a_log n) (a_term n)) ->
  server_ok g' i n.
Proof.
  intros Hi Hx [H1 H2 H3 H4 H5 H6 H7 H8] He Hr Hl Ha. pose proof (i_msgs _ Hi) as Hm. split; try done.
  - by eapply agrees_ext.
  - intros c Hc. destruct (H4 c Hc) as [l Hb]. exists l. by apply (x_ballots _ _ Hx).
  - intros Hc. destruct (H5 Hc) as (Hn & Hv & Ht & Hw & Hq). split_and!; [done| |done| |].
    + intros v Hin. destruct (Hv v Hin) as [l Hb]. exists l. by apply (x_ballots _ _ Hx).
    + intros e Hel. destruct (He Hc e Hel); [by apply Hw|done].
    + intros cl Hin. by apply Hq, Hr.
  - intros Hc. destruct (H6 Hc) as [(e & Hel & Hw) Hlog]. rewrite (Hl Hc).
    split; [exists e; split; [by apply (x_elect _ _ Hx)|done]|done].
  - by eapply com_ext.
  - intros t k Hack. destruct (Ha t k Hack) as [Hk|Hk]; [|done].
    destruct (acked_ok _ _ _ _ Hm Hk) as (Hel & Hlen & _). 
    apply (kept_ext g g' t k _ (a_term n)); [done|lia|done|done|by apply H8].
Qed.

Lemma ballot_frame g g' b :
  inv g -> ext g g' -> ballot_ok g b ->
  (b_term b = a_term (nodes g' (b_voter b)) -> a_vote (nodes g' (b_voter b)) = Some (b_cand b)) ->
  (forall t k, acked g' t (b_voter b) k -> t < b_term b -> acked g t (b_voter b) k) ->
  ballot_ok g' b.
Proof.
  intros Hi Hx [H1 H2 H3 H4 H5 H6] Hv Ha. pose proof (i_msgs _ Hi) as Hm. split; try done.
  - pose proof (x_term _ _ Hx (b_voter b)). lia.
  - destruct H4 as (cl & Hin & Hu). exists cl. split; [by apply (x_net _ _ Hx)|done].
  - by eapply agrees_ext.
  - intros t k Hk Ht. specialize (Ha t k Hk Ht). destruct (acked_ok _ _ _ _ Hm Ha) as (Hel & Hlen & _).
    destruct (H6 t k Ha Ht) as [Hkept|(e & He & Hn)].
    + left. by apply (kept_ext g g' t k _ (b_term b - 1)); [|lia| | |].
    + right. exists e. split; [by apply (x_elect _ _ Hx)|done].
Qed.

Lemma election_frame g g' t e :
  inv g -> ext g g' -> election_ok g t e ->
  (forall cl, In (ReqVote t (el_winner e) cl) (net g') -> In (ReqVote t (el_winner e) cl) (net g)) ->
  llog g' t = llog g t -> election_ok g' t e.
Proof.
  intros Hi Hx [H1 H2 H3 H4 H5 H6 H7 H8] Hr Hl. split; rewrite ?Hl; try done.
  - pose proof (x_term _ _ Hx (el_winner e)). lia.
  - intros v Hv. destruct (H3 v Hv) as [l Hb]. exists l. by apply (x_ballots _ _ Hx).
  - by eapply agrees_ext.
  - intros cl Hin. by apply H8, Hr.
Qed.

(** A step that changes one server, and may send an acknowledgement or another
    message that is not a vote request. *)
Lemma inv_local g i n ms :
  let g' := mkGlobalState (upd (nodes g) i n) (ms ++ net g) (ballots g) (elect g) (llog g) in
  inv g -> a_term (nodes g i) <= a_term n ->
  (a_term (nodes g i) = a_term n -> a_vote n = a_vote (nodes g i)) ->
  (forall t c cl, ~ In (ReqVote t c cl) ms) ->
  (forall t v k, In (Ack t v k) ms -> v = i /\ t = a_term (nodes g i) /\ a_term n = a_term (nodes g i)) ->
  (forall m, In m ms -> msg_ok g' m) ->
  server_ok g' i n ->
  inv g'.
Proof.
  intros g' Hi Ht Hv Hr Ha Hm Hs.
  assert (Hterm : forall j, a_term (nodes g j) <= a_term (nodes g' j)).
  { intros j. cbn. unfold upd. destruct (decide (j = i)) as [->|]; lia. }
  assert (Hx : ext g g').
  { split; cbn; [|done..| |apply Hterm]; [intros m Hin; apply in_app_iff; by right|by intros t _]. }
  assert (Hreq : forall t c cl, In (ReqVote t c cl) (net g') -> In (ReqVote t c cl) (net g)).
  { cbn. intros t c cl [Hin|Hin]%in_app_iff; [by destruct (Hr t c cl)|done]. }
  assert (Hack : forall t v k, acked g' t v k -> acked g t v k \/ v = i /\ t = a_term (nodes g i) /\
                                                a_term n = a_term (nodes g i)).
  { intros t v k (k' & Hk & Hin). cbn in Hin. apply in_app_iff in Hin as [Hin|Hin]; [right; by eapply Ha|].
    left. by exists k'. }
  split.
  - intros j. cbn [nodes g']. unfold upd. destruct (decide (j = i)) as [->|Hne]; [done|].
    apply (server_frame g); [done|done|by apply i_servers|by left| |done|].
    + intros _ cl Hin. by apply Hreq.
    + intros t k Hk. left. destruct (Hack t j k Hk) as [|[-> _]]; done.
  - intros b Hb. cbn in Hb. pose proof (i_ballots _ Hi b Hb) as Hbo.
    apply (ballot_frame g); [done..| |].
    + cbn [nodes g']. unfold upd. destruct (decide (b_voter b = i)) as [Hbi|]; [|by apply bo_current].
      intros Hbt. pose proof (bo_term _ _ Hbo) as Hb1. pose proof (bo_current _ _ Hbo) as Hb2.
      rewrite Hbi in Hb1, Hb2. rewrite Hv by lia. apply Hb2. lia.
    + intros t k Hk Htb. destruct (Hack t _ k Hk) as [|(Hbi & -> & _)]; [done|].
      pose proof (bo_term _ _ Hbo) as Hb1. rewrite Hbi in Hb1. lia.
  - apply (i_unique _ Hi).
  - intros t e He. cbn in He. apply (election_frame g); [done|done|by apply i_elections| |done].
    intros cl Hin. by apply Hreq.
  - intros m Hin. cbn in Hin. apply in_app_iff in Hin as [Hin|Hin]; [by apply Hm|].
    eapply msg_ext; [apply (i_msgs _ Hi)|done|by apply (i_msgs _ Hi)].
Qed.

Lemma com_mono g l t t' c c' : (c' <= c)%nat -> t <= t' -> com g l t c -> com g l t' c'.
Proof.
  intros Hc Ht [Hl Hcom]. split; [lia|]. destruct Hcom as [->|(t0 & k & H1 & H2 & H3 & H4)]; [left; lia|].
  right. exists t0, k. split_and!; [done|lia|lia|by eapply take_eq_le].
Qed.

Lemma kept_bound g t k l b b' : b <= b' -> kept g t k l b -> kept g t k l b'.
Proof. intros Hb [H|(t' & e & H1 & H2)]; [by left|right]. exists t', e. split; [lia|done]. Qed.

Lemma kept_prefix g t k l l' b : l `prefix_of` l' -> kept g t k l b -> kept g t k l' b.
Proof. intros Hp [H|H]; [left; by transitivity l|by right]. Qed.

(** What a message sent by server [i] must satisfy: an acknowledgement names a
    prefix of the leader's log that [l] contains. *)
Definition sendable (g : global) (i t : Z) (l : log) (m : amsg) : Prop :=
  match m with
  | ReqVote _ _ _ => False
  | Ack t' v k => v = i /\ t' = t /\ is_Some (elect g t) /\ (k <= length (llog g t))%nat /\
                  take k (llog g t) `prefix_of` l
  | _ => msg_ok g m
  end.

Lemma ext_local g i n ms :
  a_term (nodes g i) <= a_term n ->
  ext g (mkGlobalState (upd (nodes g) i n) (ms ++ net g) (ballots g) (elect g) (llog g)).
Proof.
  intros Ht. split; cbn; [|done..| |]; [intros m Hin; apply in_app_iff; by right|by intros t _|].
  intros j. unfold upd. destruct (decide (j = i)) as [->|]; lia.
Qed.

(** A step within a term: one server's state changes and messages are sent. *)
Lemma inv_move g i n ms :
  let g' := mkGlobalState (upd (nodes g) i n) (ms ++ net g) (ballots g) (elect g) (llog g) in
  let n0 := nodes g i in
  inv g -> a_term n = a_term n0 -> a_vote n = a_vote n0 ->
  (forall m, In m ms -> sendable g i (a_term n0) (a_log n) m) ->
  agrees g (a_log n) -> (forall e, In e (a_log n) -> le_term e <= a_term n) ->
  (a_role n = Candidate -> a_role n0 = Candidate /\ a_log n = a_log n0 /\ NoDup (a_votes n) /\
     forall v, In v (a_votes n) -> exists l, In (mkBallot (a_term n) v i l) (ballots g)) ->
  (a_role n = Leader -> a_role n0 = Leader /\ a_log n = a_log n0) ->
  com g (a_log n) (a_term n) (a_commit n) ->
  (forall t k, acked g t i k -> kept g t k (a_log n) (a_term n)) ->
  inv g'.
Proof.
  intros g' n0 Hi Ht Hv Hms Hag Htm Hcand Hlead Hcom Hkept.
  assert (Hx : ext g g') by (apply ext_local; unfold n0 in Ht; lia).
  pose proof (i_servers _ Hi i) as Hs. fold n0 in Hs.
  apply inv_local; [done|unfold n0 in Ht; lia|done| | | |].
  - intros t c cl Hin. by apply (Hms _ Hin).
  - intros t v k Hin. destruct (Hms _ Hin) as (-> & -> & _). done.
  - intros m Hin. pose proof (Hms _ Hin) as Hm. destruct m as [| | |t v k].
    1: done. 1,2: eapply msg_ext; [apply (i_msgs _ Hi)|done|done].
    destruct Hm as (-> & -> & He & Hk & _). split_and!; [done..|]. cbn. rewrite upd_same. lia.
  - split; [rewrite Ht; apply Hs|done|done| | | | |].
    + intros c. rewrite Hv, Ht. apply Hs.
    + intros Hc. destruct (Hcand Hc) as (Hc0 & Hl & Hn & Hb). destruct (n_cand _ _ _ Hs Hc0) as (_ & _ & H1 & H2 & H3).
      rewrite Hl, Ht. rewrite Ht in Hb. split_and!; [done..|]. intros cl Hin. apply H3. cbn in Hin.
      apply in_app_iff in Hin as [Hin|Hin]; [by destruct (Hms _ Hin)|done].
    + intros Hc. destruct (Hlead Hc) as (Hc0 & Hl). rewrite Hl, Ht. by apply Hs.
    + eapply com_ext; [apply (i_msgs _ Hi)|done|done].
    + intros t k (k' & Hk & Hin). cbn in Hin. apply in_app_iff in Hin as [Hin|Hin].
      * destruct (Hms _ Hin) as (_ & -> & _ & _ & Hp). left. etrans; [|exact Hp]. cbn [llog g'].
        rewrite <- (Nat.min_l k k'), <- take_take by done. apply prefix_take.
      * apply Hkept. by exists k'.
Qed.

(** *** Steps of one server *)

Ltac own i Hi := pose proof (i_servers _ Hi i) as Hs; pose proof Hs as [? ? ? ? ? ? ? ?].

Lemma inv_stepdown g i t :
  inv g -> a_term (nodes g i) < t ->
  inv (set_node i (mkANode t None Follower (a_log (nodes g i)) (a_commit (nodes g i)) []) g).
Proof.
  intros Hi Ht. own i Hi. set (n := mkANode _ _ _ _ _ _).
  assert (Hx := ext_local g i n [] ltac:(cbn; lia)). cbn [app] in Hx.
  refine (inv_local g i n [] Hi _ _ _ _ _ _); cbn; [lia|lia|by intros ? ? ? []|done|done|].
  split; try done; cbn; [lia| | |].
  - intros e He. pose proof (n_terms _ _ _ Hs e He). lia.
  - eapply com_ext; [apply (i_msgs _ Hi)|done|]. eapply com_mono; [| |done]; [done|lia].
  - intros t0 k Hk. eapply (kept_bound _ _ _ _ (a_term (nodes g i))); [lia|]. by apply (n_kept _ _ _ Hs).
Qed.

Lemma inv_demote g i c votes :
  inv g -> (c <= a_commit (nodes g i))%nat ->
  inv (set_node i (mkANode (a_term (nodes g i)) (a_vote (nodes g i)) Follower (a_log (nodes g i)) c votes) g).
Proof.
  intros Hi Hc. own i Hi. apply (inv_move g i _ []); try done. cbn. by eapply com_mono; [| |done].
Qed.

Lemma inv_collect g i v l :
  let n := nodes g i in
  inv g -> a_role n = Candidate -> In (mkBallot (a_term n) v i l) (ballots g) -> ~ In v (a_votes n) ->
  inv (set_node i (mkANode (a_term n) (a_vote n) Candidate (a_log n) (a_commit n) (a_votes n ++ [v])) g).
Proof.
  intros n Hi Hr Hb Hv. own i Hi. apply (inv_move g i _ []); try done. cbn. intros _.
  destruct (n_cand _ _ _ Hs Hr) as (Hn & Hin & _). split_and!; [done..| |].
  - apply NoDup_app. split_and!; [done| |apply NoDup_singleton].
    intros w Hw%list_elem_of_In Hw'%list_elem_of_singleton. by subst.
  - intros w [Hw|[->|[]]]%in_app_iff; [by apply Hin|by exists l].
Qed.

Lemma anode_eta (n : anode) :
  mkANode (a_term n) (a_vote n) (a_role n) (a_log n) (a_commit n) (a_votes n) = n.
Proof. by destruct n. Qed.

(** Sending changes no server: the same state is stored again. *)
Lemma inv_send g i m :
  inv g -> sendable g i (a_term (nodes g i)) (a_log (nodes g i)) m -> inv (send m g).
Proof.
  intros Hi Hm. own i Hi.
  assert (Hg : inv (mkGlobalState (upd (nodes g) i (nodes g i)) ([m] ++ net g) (ballots g) (elect g) (llog g))).
  { apply inv_move; try done.
    - by intros m' [<-|[]].
    - intros Hr. by destruct (n_cand _ _ _ Hs Hr) as (? & ? & _). }
  destruct Hg as [G1 G2 G3 G4 G5].
  assert (Hn : forall j, upd (nodes g) i (nodes g i) j = nodes g j).
  { intros j. unfold upd. by destruct (decide (j = i)) as [->|]. }
  assert (Hmsg : forall m', In m' (m :: net g) -> msg_ok (send m g) m').
  { intros m' Hin. specialize (G5 m' Hin). destruct m'; cbn in *; try exact G5.
    - by rewrite Hn in G5.
    - unfold ack_ok in *. cbn in *. by rewrite Hn in G5. }
  split; [| |done| |done].
  - intros j. specialize (G1 j). cbn in *. rewrite Hn in G1. destruct G1. by split.
  - intros b Hb. destruct (G2 b Hb) as [B1 B2 B3 B4 B5 B6]. cbn in *. rewrite Hn in B1, B2. by split.
  - intros t e He. destruct (G4 t e He) as [E1 E2 E3 E4 E5 E6 E7 E8]. cbn in *. rewrite Hn in E1. by split.
Qed.

Lemma inv_replicate g i prev k c :
  let n := nodes g i in
  inv g -> a_role n = Leader -> (prev <= length (a_log n))%nat -> (c <= a_commit n)%nat ->
  inv (send (Append (a_term n) i prev (term_of (a_log n) prev) (take k (drop prev (a_log n))) c) g).
Proof.
  intros n Hi Hr Hp Hc. own i Hi. apply (inv_send g i); [done|]. cbn.
  destruct (n_leader _ _ _ Hs Hr) as [He Hl]. fold n in Hl.
  split_and!; [done| | |by rewrite Hl|].
  - rewrite <- Hl, length_take, length_drop. lia.
  - rewrite <- Hl. symmetry. apply prefix_is_take, prefix_take.
  - rewrite <- Hl. by eapply com_mono; [| |done].
Qed.

Lemma inv_sendsnap g i k :
  let n := nodes g i in
  inv g -> a_role n = Leader -> (k <= a_commit n)%nat -> inv (send (Snap (a_term n) i (take k (a_log n))) g).
Proof.
  intros n Hi Hr Hc. own i Hi. apply (inv_send g i); [done|]. cbn.
  destruct (n_leader _ _ _ Hs Hr) as [He Hl]. fold n in Hl.
  split_and!; [done|rewrite <- Hl; apply prefix_take|]. rewrite <- Hl.
  apply (com_mono g _ (a_term n) _ (a_commit n)); [rewrite length_take; lia|lia|done].
Qed.

Lemma inv_ackcommitted g i k :
  let n := nodes g i in
  inv g -> is_Some (elect g (a_term n)) -> (k <= a_commit n)%nat -> inv (send (Ack (a_term n) i k) g).
Proof.
  intros n Hi [e He] Hc. own i Hi. apply (inv_send g i); [done|].
  destruct (com_in_leader g _ _ _ _ Hi (n_commit _ _ _ Hs) He) as [Heq Hl]. fold n in Heq, Hl.
  split_and!; [done..|by exists e|unfold n in *; lia|]. fold n. rewrite <- (take_eq_le k _ _ _ Hc Heq). apply prefix_take.
Qed.

Lemma inv_ackself g i k :
  let n := nodes g i in
  inv g -> a_role n = Leader -> (k <= length (a_log n))%nat -> inv (send (Ack (a_term n) i k) g).
Proof.
  intros n Hi Hr Hk. own i Hi. apply (inv_send g i); [done|]. fold n.
  destruct (n_leader _ _ _ Hs Hr) as [(e & He & _) Hl]. fold n in Hl, He.
  split_and!; [done..|by exists e|by rewrite <- Hl|]. rewrite <- Hl. apply prefix_take.
Qed.

Lemma inv_commit g i k q :
  let n := nodes g i in
  inv g -> a_role n = Leader -> (k <= length (a_log n))%nat -> term_of (a_log n) k = a_term n ->
  majority cluster q -> (forall v, In v q -> acked g (a_term n) v k) ->
  inv (set_node i (mkANode (a_term n) (a_vote n) Leader (a_log n) (a_commit n `max` k) (a_votes n)) g).
Proof.
  intros n Hi Hr Hk Ht Hq Ha. own i Hi. apply (inv_move g i _ []); try done. cbn.
  destruct (n_leader _ _ _ Hs Hr) as [(e & He & _) Hl]. fold n in Hl, He.
  destruct (Nat.max_spec (a_commit n) k) as [[_ ->]|[_ ->]]; [|done].
  split; [done|]. right. exists (a_term n), k. split_and!; [|done..|by rewrite Hl].
  split; [|by exists q]. rewrite <- Hl. unfold term_of in Ht. destruct (at_pos (a_log n) k) as [x|].
  - by exists x.
  - pose proof (eo_term _ _ _ (i_elections _ Hi _ _ He)). lia.
Qed.

(** *** Receiving entries *)

Lemma com_keeps g l r t c : com g l t c -> take c l `prefix_of` r -> com g r t c.
Proof.
  intros [Hl Hc] Hp. assert (Hlen := prefix_length _ _ Hp). rewrite length_take in Hlen. split; [lia|].
  destruct Hc as [->|(t' & k & H1 & H2 & H3 & H4)]; [by left|right]. exists t', k. split_and!; [done..|].
  rewrite <- H4, (take_of_prefix c _ r Hp) by (rewrite length_take; lia). by rewrite take_take, Nat.min_id.
Qed.

(** Positions with entries of one term agree, up to there. *)
Lemma agrees_same_term g l l' j x y :
  agrees g l -> agrees g l' -> l !! j = Some x -> l' !! j = Some y -> le_term x = le_term y ->
  take (S j) l = take (S j) l'.
Proof. intros Ha Ha' Hx Hy Ht. rewrite (proj2 (Ha j x Hx)), (proj2 (Ha' j y Hy)). by rewrite Ht. Qed.

(** What the follower's log shares with the current leader's stays, or a leader
    was elected without it. *)
Lemma kept_replace g i t e r :
  let n := nodes g i in
  inv g -> a_term n = t -> elect g t = Some e ->
  (forall p, p `prefix_of` a_log n -> p `prefix_of` llog g t -> p `prefix_of` r) ->
  forall t' k, acked g t' i k -> kept g t' k r t.
Proof.
  intros n Hi <- He Hkeep t' k Hk. destruct (acked_ok _ _ _ _ (i_msgs _ Hi) Hk) as (_ & _ & Ht).
  fold n in Ht. pose proof (i_elections _ Hi _ _ He) as Ho.
  destruct (n_kept _ _ _ (i_servers _ Hi i) t' k Hk) as [Hp|Hbad]; [|by right]. fold n in Hp.
  destruct (decide (t' = a_term n)) as [->|Hne]; [left; apply Hkeep; [done|apply prefix_take]|].
  destruct (decide (take k (llog g t') `prefix_of` el_log e)) as [Hin|Hnot].
  - left. apply Hkeep; [done|]. transitivity (el_log e); [done|by apply eo_prefix].
  - right. exists (a_term n), e. split_and!; [lia|lia|done..].
Qed.

(** The spliced log, when the append comes from the current leader. *)
Lemma append_spliced g i src prev pt es c b :
  let n := nodes g i in let V := take (prev + length es) (llog g (a_term n)) in
  inv g -> append_ok g (a_term n) src prev pt es c ->
  prev = 0%nat \/ (prev <= length (a_log n))%nat /\ term_of (a_log n) prev = pt ->
  (b <= a_commit n)%nat ->
  spliced (a_log n) V (splice b (a_log n) prev es).
Proof.
  intros n V Hi ((e & He & _) & Hlen & Hes & Hpt & _) Hprev Hb.
  set (L := llog g (a_term n)) in *. own i Hi. fold n in Hs.
  pose proof (i_elections _ Hi _ _ He) as Ho. assert (HL : agrees g L) by apply Ho.
  assert (HV : V `prefix_of` L) by apply prefix_take.
  assert (HlV : length V = (prev + length es)%nat) by (unfold V; rewrite length_take; lia).
  assert (Heq : take prev (a_log n) = take prev V).
  { destruct Hprev as [->|[Hp Hterm]]; [done|]. destruct prev as [|j]; [done|].
    rewrite <- (take_of_prefix (S j) V L HV) by lia. unfold term_of in Hpt, Hterm. cbn in Hpt, Hterm.
    destruct (lookup_lt_is_Some_2 (a_log n) j) as [x Hx]; [lia|].
    destruct (lookup_lt_is_Some_2 L j) as [y Hy]; [lia|]. rewrite Hx in Hterm. rewrite Hy in Hpt.
    eapply (agrees_same_term g); [apply Hs|done..|congruence]. }
  apply splice_spec; [| | |lia| |done].
  - intros j x y Hx Hy Ht. apply lookup_lt_Some in Hy as Hlt.
    rewrite <- (take_of_prefix (S j) V L HV) by lia. eapply (agrees_same_term g); [apply Hs|done| |..|exact Ht]; [done|].
    by eapply prefix_lookup_Some.
  - intros j y Hj Hy. destruct (com_in_leader g _ _ _ _ Hi (n_commit _ _ _ Hs) He) as [Hc _].
    rewrite (lookup_take_eq _ _ _ j Hc) by lia. by eapply prefix_lookup_Some.
  - unfold V. by rewrite <- take_drop_commute.
  - destruct Hprev as [->|[Hp _]]; lia.
Qed.

Lemma inv_recvappend g i src prev pt es c b :
  let n := nodes g i in
  inv g -> In (Append (a_term n) src prev pt es c) (net g) -> i <> src ->
  prev = 0%nat \/ (prev <= length (a_log n))%nat /\ term_of (a_log n) prev = pt ->
  (b <= a_commit n)%nat ->
  inv (send (Ack (a_term n) i (prev + length es))
        (set_node i (mkANode (a_term n) (a_vote n) Follower (splice b (a_log n) prev es)
                       (a_commit n `max` (c `min` (prev + length es))) (a_votes n)) g)).
Proof.
  intros n Hi Hin Hsrc Hprev Hb. pose proof (i_msgs _ Hi _ Hin) as Hm. cbn in Hm.
  assert (Hr := append_spliced g i src prev pt es c b Hi Hm Hprev Hb). cbn zeta in Hr. fold n in Hr.
  destruct Hm as ((e & He & Hw) & Hlen & Hes & Hpt & Hc). own i Hi. fold n in Hs.
  pose proof (i_elections _ Hi _ _ He) as Ho.
  set (L := llog g (a_term n)) in *. set (V := take _ L) in Hr. set (r := splice _ _ _ _) in *.
  assert (HV : V `prefix_of` L) by apply prefix_take.
  assert (HVr : V `prefix_of` r) by by eapply spliced_prefix.
  assert (Hkeep : forall p, p `prefix_of` a_log n -> p `prefix_of` L -> p `prefix_of` r).
  { intros p Hp HpL. by apply (spliced_keeps (a_log n) V r p L). }
  apply (inv_move g i _ [Ack (a_term n) i (prev + length es)]); try done; cbn.
  - intros m [<-|[]]. split_and!; [done..|by exists e|done|done].
  - destruct Hr as [[-> _]|[[-> _]|[-> _]]]; [done|eapply agrees_prefix; [exact HV|apply Ho]..].
  - intros x Hx. destruct Hr as [[Hr _]|[[Hr _]|[Hr _]]]; rewrite Hr in Hx; [by apply Hs|..];
      apply (eo_terms _ _ _ Ho), list_elem_of_In; (eapply elem_of_prefix; [by apply list_elem_of_In|done]).
  - destruct (com_in_leader g _ _ _ _ Hi (n_commit _ _ _ Hs) He) as [Hcl _].
    destruct (Nat.max_spec (a_commit n) (c `min` (prev + length es))) as [[_ ->]|[_ ->]].
    + eapply (com_keeps g L); [by eapply com_mono; [|reflexivity|exact Hc]; lia|].
      etrans; [|exact HVr]. unfold V. rewrite Nat.min_comm, <- take_take.
      rewrite take_take, Nat.min_comm, <- take_take. apply prefix_take.
    + eapply com_keeps; [apply Hs|]. apply Hkeep; [apply prefix_take|]. rewrite Hcl. apply prefix_take.
  - by apply (kept_replace g i (a_term n) e r).
Qed.

Lemma inv_recvsnap g i src st :
  let n := nodes g i in
  inv g -> In (Snap (a_term n) src st) (net g) -> i <> src -> (length (a_log n) <= length st)%nat ->
  inv (set_node i (mkANode (a_term n) (a_vote n) Follower st (length st) (a_votes n)) g).
Proof.
  intros n Hi Hin Hsrc Hl. destruct (i_msgs _ Hi _ Hin) as ((e & He & Hw) & Hp & Hc). own i Hi. fold n in Hs.
  pose proof (i_elections _ Hi _ _ He) as Ho.
  apply (inv_move g i _ []); try done; cbn.
  - eapply agrees_prefix; [exact Hp|apply Ho].
  - intros x Hx. apply (eo_terms _ _ _ Ho), list_elem_of_In. eapply elem_of_prefix; [by apply list_elem_of_In|done].
  - eapply com_keeps; [exact Hc|]. by rewrite prefix_is_take.
  - apply (kept_replace g i (a_term n) e st); [done..|]. intros p Hp1 Hp2.
    eapply prefix_both; [done..|]. apply prefix_length in Hp1. fold n in Hp1. lia.
Qed.

(** *** Elections *)

(** A server casts a ballot it could still cast, and may ask for votes in a new
    term. *)
Section cast.
Context (g : global) (i : Z) (n' : anode) (b : ballot) (ms : list amsg).
Let n := nodes g i.
Let g' := mkGlobalState (upd (nodes g) i n') (ms ++ net g) (b :: ballots g) (elect g) (llog g).
Hypothesis Hi : inv g.
Hypothesis Hterm : 1 <= a_term n' /\ a_term n <= a_term n'.
Hypothesis Hvoter : b_voter b = i.
Hypothesis Hbterm : b_term b = a_term n'.
Hypothesis Hfresh : a_term n' = a_term n -> a_vote n = None.
Hypothesis Hms : forall m, In m ms -> exists cl, m = ReqVote (a_term n') i cl /\ a_term n < a_term n'.

Lemma cast_ext : ext g g'.
Proof.
  split; cbn; [|by right|done|done|]; [intros m Hin; apply in_app_iff; by right|].
  intros j. unfold upd. destruct (decide (j = i)) as [->|]; [unfold n in Hterm; lia|done].
Qed.

Lemma cast_acked t v k : acked g' t v k -> acked g t v k.
Proof.
  intros (k' & Hk & Hin). cbn in Hin. apply in_app_iff in Hin as [Hin|Hin]; [|by exists k'].
  by destruct (Hms _ Hin) as (cl & Hm & _).
Qed.

Lemma cast_req t c cl :
  In (ReqVote t c cl) (net g') ->
  In (ReqVote t c cl) (net g) \/ In (ReqVote t c cl) ms /\ t = a_term n' /\ c = i /\ a_term n < a_term n'.
Proof.
  cbn. intros [Hin|Hin]%in_app_iff; [right|by left]. by destruct (Hms _ Hin) as (cl' & [= -> -> ->] & ?).
Qed.

Lemma cast_kept t k : acked g' t i k -> kept g' t k (a_log n) (a_term n).
Proof.
  intros Hk%cast_acked. destruct (acked_ok _ _ _ _ (i_msgs _ Hi) Hk) as (He & Hl & _).
  apply (kept_ext g g' t k _ (a_term n)); [apply cast_ext|lia|done|done|by apply i_servers].
Qed.

Lemma cast_no_ballot b' : In b' (ballots g) -> b_term b' = a_term n' -> b_voter b' = i -> False.
Proof.
  intros Hb Ht Hv. pose proof (i_ballots _ Hi _ Hb) as Hbo. pose proof (bo_term _ _ Hbo) as Hbt.
  pose proof (bo_current _ _ Hbo) as Hcur. rewrite Hv in Hbt, Hcur. fold n in Hbt, Hcur.
  rewrite Hfresh in Hcur by lia. discriminate Hcur. lia.
Qed.

Lemma inv_cast : server_ok g' i n' -> ballot_ok g' b -> inv g'.
Proof.
  intros Hs Hb. pose proof cast_ext as Hx. split.
  - intros j. cbn [nodes g']. unfold upd. destruct (decide (j = i)) as [->|Hne]; [done|].
    apply (server_frame g); [done|done|by apply i_servers|by left| |done|].
    + intros _ cl Hin. by destruct (cast_req _ _ _ Hin) as [|(_ & _ & -> & _)].
    + intros t k Hk. left. by apply cast_acked.
  - intros b' [<-|Hb']; [done|]. pose proof (i_ballots _ Hi b' Hb') as Hbo.
    apply (ballot_frame g); [done|done|done| |intros t k Hk _; by apply cast_acked].
    cbn. unfold upd. destruct (decide (b_voter b' = i)) as [Hv|]; [|by apply bo_current].
    intros Ht. destruct (cast_no_ballot _ Hb' Ht Hv).
  - intros b1 b2 [<-|H1] [<-|H2] Ht Hv; [done|..|by apply (i_unique _ Hi)]; exfalso.
    + apply (cast_no_ballot b2); congruence.
    + apply (cast_no_ballot b1); congruence.
  - intros t e He. pose proof (i_elections _ Hi _ _ He) as Ho. apply (election_frame g); [done..| |done].
    intros cl Hin. destruct (cast_req _ _ _ Hin) as [|(_ & -> & Hw & Hlt)]; [done|].
    pose proof (eo_term _ _ _ Ho) as Ht. rewrite Hw in Ht. fold n in Ht. lia.
  - intros m Hin. cbn in Hin. apply in_app_iff in Hin as [Hin|Hin].
    + destruct (Hms _ Hin) as (cl & -> & _). cbn. rewrite upd_same. lia.
    + eapply msg_ext; [apply (i_msgs _ Hi)|done|by apply (i_msgs _ Hi)].
Qed.
End cast.

Lemma inv_timeout g i :
  let n := nodes g i in let t := a_term n + 1 in
  inv g -> In i cluster ->
  inv (send (ReqVote t i (a_log n))
        (cast (mkBallot t i i (a_log n))
          (set_node i (mkANode t (Some i) Candidate (a_log n) (a_commit n) [i]) g))).
Proof.
  intros n t Hi Hcl. own i Hi. fold n in Hs. pose proof (n_term _ _ _ Hs) as H0.
  set (n' := mkANode _ _ _ _ _ _). set (b := mkBallot _ _ _ _). set (m := ReqVote _ _ _).
  assert (Ht : 1 <= a_term n' /\ a_term n <= a_term n') by (cbn; lia).
  assert (Hms : forall m', In m' [m] -> exists cl, m' = ReqVote (a_term n') i cl /\ a_term n < a_term n').
  { intros m' [<-|[]]. exists (a_log n). split; [done|cbn; lia]. }
  pose proof (cast_ext g i n' b [m] Ht) as Hx. pose proof (cast_kept g i n' b [m] Hi Ht Hms) as Hk.
  assert (Hlt : forall x, In x (a_log n) -> le_term x < t).
  { intros x Hin. pose proof (n_terms _ _ _ Hs x Hin). lia. }
  apply (inv_cast g i n' b [m]); [done|done|done|done|cbn; fold n; lia|done|..]; split; cbn; rewrite ?upd_same; cbn;
    try done.
  - lia.
  - intros x Hin%Hlt. lia.
  - intros c [= <-]. exists (a_log n). by left.
  - intros _. split_and!; [apply NoDup_singleton|intros v [->|[]]; exists (a_log n); by left|done| |].
    + intros x Hel Hw. pose proof (eo_term _ _ _ (i_elections _ Hi _ _ Hel)) as He.
      rewrite Hw in He. fold n in He. lia.
    + intros cl [[= ->]|Hin]; [done|]. pose proof (i_msgs _ Hi _ Hin) as Hm. cbn in Hm. fold n in Hm. lia.
  - eapply com_ext; [apply (i_msgs _ Hi)|done|]. by apply (com_mono g _ (a_term n) _ (a_commit n)); [|lia|].
  - intros t' k Ha. apply (kept_bound _ _ _ _ (a_term n)); [lia|by apply Hk].
  - lia.
  - exists (a_log n). split; [by left|by right].
  - intros t' k Ha _. left. replace (t - 1) with (a_term n) by lia. by apply Hk.
Qed.

Lemma inv_grant g i t c cl :
  let n := nodes g i in
  inv g -> In i cluster -> In (ReqVote t c cl) (net g) -> a_term n = t -> a_vote n = None ->
  up_to_date cl (a_log n) ->
  inv (cast (mkBallot t i c (a_log n))
        (set_node i (mkANode t (Some c) (a_role n) (a_log n) (a_commit n) (a_votes n)) g)).
Proof.
  intros n Hi Hcl Hreq <- Hnone Hutd. own i Hi. fold n in Hs. pose proof (i_msgs _ Hi _ Hreq) as Hm. cbn in Hm.
  set (n' := mkANode _ _ _ _ _ _). set (b := mkBallot _ _ _ _).
  assert (Ht : 1 <= a_term n' /\ a_term n <= a_term n') by (cbn; lia).
  assert (Hms : forall m', In m' [] -> exists cl, m' = ReqVote (a_term n') i cl /\ a_term n < a_term n') by done.
  pose proof (cast_ext g i n' b [] Ht) as Hx. pose proof (cast_kept g i n' b [] Hi Ht Hms) as Hk.
  assert (Hf : server_ok (mkGlobalState (upd (nodes g) i n') ([] ++ net g) (b :: ballots g) (elect g) (llog g)) i n).
  { apply (server_frame g); [done|done|done|by left|done|done|by left]. }
  apply (inv_cast g i n' b []); [done|done|done|done|done|done| |].
  - destruct Hf. split; try done. cbn. intros c' [= <-]. exists (a_log n). by left.
  - split; cbn; rewrite ?upd_same; cbn; [lia|done|done|by exists cl|by eapply agrees_ext|].
    intros t' k Ha Hlt. destruct (Hk t' k Ha) as [Hp|(t'' & e & Ht'' & He & Hn)]; [left; by left|].
    destruct (decide (t'' = a_term n)) as [->|Hne].
    + right. exists e. split; [done|]. intros Hv.
      destruct (eo_ballots _ _ _ (i_elections _ Hi _ _ He) i Hv) as [l Hb].
      by apply (cast_no_ballot g i n' Hi Ht (fun _ => Hnone) _ Hb).
    + left. right. exists t'', e. fold n in Ht''. split_and!; [lia|lia|done|done].
Qed.

(** A term's votes go to one candidate, so no leader was elected before. *)
Lemma elect_fresh g i :
  let n := nodes g i in
  inv g -> a_role n = Candidate -> majority cluster (a_votes n) -> elect g (a_term n) = None.
Proof.
  intros n Hi Hr Hq. destruct (elect g (a_term n)) as [e|] eqn:He; [exfalso|done].
  destruct (n_cand _ _ _ (i_servers _ Hi i) Hr) as (_ & Hv & _ & Hw & _).
  pose proof (i_elections _ Hi _ _ He) as Ho.
  destruct (majority_common _ _ Hq (eo_voters _ _ _ Ho)) as (v & Hv1 & Hv2).
  destruct (Hv v Hv1) as [l1 Hb1]. destruct (eo_ballots _ _ _ Ho v Hv2) as [l2 Hb2].
  apply (Hw e He). by injection (i_unique _ Hi _ _ Hb1 Hb2 eq_refl eq_refl).
Qed.

(** Some server is in every quorum. *)
Lemma majority_inhabited q : majority cluster q -> exists v, In v q.
Proof. intros (_ & _ & Hl). destruct q as [|v q]; [cbn in Hl; lia|]. exists v. by left. Qed.

(** A server of term [t] becomes, or stays, the leader of [t] with log [l]. *)
Section lead.
Context (g : global) (i : Z) (e : election) (l : log) (E : Z -> option election).
Let n := nodes g i.
Let t := a_term n.
Let n' := mkANode t (a_vote n) Leader l (a_commit n) (a_votes n).
Let g' := mkGlobalState (upd (nodes g) i n') (net g) (ballots g) E (upd (llog g) t l).
Hypothesis Hi : inv g.
Hypothesis HE : forall t', E t' = upd (elect g) t (Some e) t'.
Hypothesis Hwin : el_winner e = i.
Hypothesis Hel : elect g t = None \/ elect g t = Some e /\ llog g t `prefix_of` l.
Hypothesis Hlog : a_log n `prefix_of` l.
Hypothesis Hown : election_ok g' t e.

Lemma lead_ext : ext g g'.
Proof.
  split; cbn; [done|done| | |]; [intros t'; rewrite HE| |]; unfold upd.
  - intros e' He. destruct (decide (t' = t)) as [->|]; [|done]. destruct Hel as [Hn|[Hn _]]; congruence.
  - intros t' [e' He]. destruct (decide (t' = t)) as [->|]; [|done]. destruct Hel as [Hn|[_ Hp]]; [congruence|done].
  - intros j. destruct (decide (j = i)) as [->|]; done.
Qed.

Lemma inv_lead : inv g'.
Proof.
  pose proof lead_ext as Hx. pose proof (i_servers _ Hi i) as Hs. fold n in Hs.
  assert (Hnot : forall j, j <> i -> a_role (nodes g j) = Leader -> a_term (nodes g j) <> t).
  { intros j Hne Hr Ht. destruct (n_leader _ _ _ (i_servers _ Hi j) Hr) as [(e' & He' & Hw) _].
    rewrite Ht in He'. destruct Hel as [Hn|[Hn _]]; [congruence|]. apply Hne. rewrite <- Hw, <- Hwin. congruence. }
  split.
  - intros j. cbn [nodes g']. unfold upd at 1. destruct (decide (j = i)) as [->|Hne].
    + split; [apply Hs| | |by apply Hs|done| | |]; cbn.
      * rewrite <- (upd_same (llog g) t l). apply Hown.
      * intros x Hin. apply (eo_terms _ _ _ Hown). cbn. by rewrite upd_same.
      * intros _. rewrite HE, !upd_same. split; [by exists e|done].
      * eapply com_ext; [apply (i_msgs _ Hi)|done|]. eapply com_keeps; [apply Hs|].
        etrans; [apply prefix_take|done].
      * intros t' k Hk. apply (kept_prefix _ _ _ (a_log n)); [done|].
        destruct (acked_ok _ _ _ _ (i_msgs _ Hi) Hk) as (He & Hlen & _).
        apply (kept_ext g g' t' k _ t); [done|lia|done|done|by apply Hs].
    + apply (server_frame g); [done|done|by apply i_servers| |done| |by left].
      * intros _ e' He'. cbn in He'. rewrite HE in He'. unfold upd in He'. destruct (decide _); [|by left].
        injection He' as <-. right. congruence.
      * intros Hr. cbn. rewrite upd_other; [done|]. by apply Hnot.
  - intros b Hb. pose proof (i_ballots _ Hi b Hb) as Hbo. apply (ballot_frame g); [done|done|done| |done].
    cbn. unfold upd. destruct (decide (b_voter b = i)) as [Hv|]; [|by apply bo_current].
    pose proof (bo_current _ _ Hbo) as Hc. by rewrite Hv in Hc.
  - apply (i_unique _ Hi).
  - intros t' e' He'. cbn in He'. rewrite HE in He'. unfold upd in He'. destruct (decide (t' = t)) as [->|Hne]; [by injection He' as <-|].
    apply (election_frame g); [done|done|by apply i_elections|done|]. cbn. by rewrite upd_other.
  - intros m Hin. eapply msg_ext; [apply (i_msgs _ Hi)|done|by apply (i_msgs _ Hi)].
Qed.
End lead.

Lemma inv_elect g i :
  let n := nodes g i in
  inv g -> a_role n = Candidate -> majority cluster (a_votes n) ->
  inv (win (a_term n) (mkElection i (a_log n) (a_votes n))
        (set_node i (mkANode (a_term n) (a_vote n) Leader (a_log n) (a_commit n) (a_votes n)) g)).
Proof.
  intros n Hi Hr Hq. pose proof (elect_fresh g i Hi Hr Hq) as Hnone. own i Hi. fold n in Hs, Hnone.
  destruct (n_cand _ _ _ Hs Hr) as (_ & Hv & Ht & _ & Hreq).
  set (e := mkElection _ _ _). set (E := upd (elect g) (a_term n) (Some e)).
  assert (Hx := lead_ext g i e (a_log n) E (fun _ => eq_refl) (or_introl Hnone)). fold n in Hx.
  apply (inv_lead g i e (a_log n) E); [done|done|done|by left|done|]. fold n.
  split; cbn; rewrite ?upd_same; cbn; [|done|done|done|done| | |done].
  - destruct (majority_inhabited _ Hq) as [v Hvin]. destruct (Hv v Hvin) as [l Hb].
    pose proof (bo_term _ _ (i_ballots _ Hi _ Hb)) as Hb1. cbn in Hb1. lia.
  - intros x Hin%Ht. lia.
  - by eapply agrees_ext.
Qed.

Lemma inv_client g i v :
  let n := nodes g i in let l := a_log n ++ [mkEntry (a_term n) v] in
  inv g -> a_role n = Leader ->
  inv (extend (a_term n) l
        (set_node i (mkANode (a_term n) (a_vote n) Leader l (a_commit n) (a_votes n)) g)).
Proof.
  intros n l Hi Hr. own i Hi. fold n in Hs. destruct (n_leader _ _ _ Hs Hr) as [(e & He & Hw) Hlog].
  pose proof (i_elections _ Hi _ _ He) as [O1 O2 O3 O4 O5 O6 O7 O8].
  assert (Hp : a_log n `prefix_of` l) by apply prefix_app_r, reflexivity.
  assert (HE : forall t', elect g t' = upd (elect g) (a_term n) (Some e) t').
  { intros t'. unfold upd. by destruct (decide (t' = a_term n)) as [->|]. }
  assert (Hold : elect g (a_term n) = None \/ elect g (a_term n) = Some e /\ llog g (a_term n) `prefix_of` l).
  { right. by rewrite <- Hlog. }
  assert (Hx := lead_ext g i e l (elect g) HE Hold). fold n in Hx.
  apply (inv_lead g i e l (elect g)); [done..|]. fold n.
  split; cbn; rewrite ?upd_same; try done.
  - rewrite Hw, upd_same. cbn. rewrite Hw in O1. by fold n in O1.
  - etrans; [exact O4|]. by rewrite <- Hlog.
  - intros x [Hin|[<-|[]]]%in_app_iff; [|done]. by apply O6; rewrite <- Hlog.
  - intros j x Hj. destruct (decide (j < length (a_log n))%nat) as [Hlt|Hge].
    + assert (Hj' : a_log n !! j = Some x) by (rewrite <- Hj; symmetry; by apply lookup_app_l).
      destruct (agrees_ext _ _ _ Hx (n_agrees _ _ _ Hs) j x Hj') as [H1 H2]. split; [done|].
      rewrite <- H2. unfold l. by rewrite take_app_le by lia.
    + apply lookup_app_Some in Hj as [Hj|[_ Hj]]; [apply lookup_lt_Some in Hj; lia|].
      apply list_lookup_singleton_Some in Hj as [_ <-]. cbn. split; [by exists e|by rewrite upd_same].
Qed.

(** ** Reachable states *)

Lemma inv_initial : inv initial.
Proof.
  split; try done. intros i. split; try done; cbn.
  - by split; [|left].
  - by intros t k (k' & _ & []).
Qed.

Lemma inv_step g g' : inv g -> step cluster g g' -> inv g'.
Proof.
  intros Hi Hstep. destruct Hstep.
  - by apply inv_stepdown.
  - by apply inv_demote.
  - by apply inv_timeout.
  - by eapply inv_grant.
  - by eapply inv_collect.
  - by apply inv_elect.
  - by apply inv_client.
  - by apply inv_replicate.
  - by apply inv_sendsnap.
  - by eapply inv_recvappend.
  - by eapply inv_recvsnap.
  - by apply inv_ackcommitted.
  - by apply inv_ackself.
  - by eapply inv_commit.
Qed.

(** The histories of a later state extend those of an earlier one. *)
Lemma ext_refl g : ext g g.
Proof. by split. Qed.

Lemma ext_trans g1 g2 g3 : ext g1 g2 -> ext g2 g3 -> ext g1 g3.
Proof.
  intros [A1 A2 A3 A4 A5] [B1 B2 B3 B4 B5]. split; auto.
  - intros t [e He]. etrans; [apply A4; by exists e|]. apply B4. exists e. by apply A3.
  - intros i. specialize (A5 i). specialize (B5 i). lia.
Qed.

Lemma step_ext g g' : inv g -> step cluster g g' -> ext g g'.
Proof.
  intros Hi Hstep. destruct Hstep as [| | | | |i n Hr Hq|i v n Hr l| | | | | | |].
  6: { apply (lead_ext g i (mkElection i (a_log n) (a_votes n)) (a_log n) (upd (elect g) (a_term n) (Some (mkElection i (a_log n) (a_votes n)))));
         [done|left; by apply elect_fresh]. }
  6: { destruct (n_leader _ _ _ (i_servers _ Hi i) Hr) as [(e & He & Hw) Hlog].
       apply (lead_ext g i e l (elect g)).
       - intros t'. unfold upd. by destruct (decide (t' = a_term (nodes g i))) as [->|].
       - right. split; [done|]. rewrite <- Hlog. apply prefix_app_r. done. }
  all: split; cbn; auto; intros j; unfold upd; try destruct (decide _); subst; cbn; lia || done || (unfold n in *; lia).
Qed.

Definition reachable (g : global) : Prop := rtc (step cluster) initial g.

Lemma inv_reachable g : reachable g -> inv g.
Proof.
  unfold reachable. intros Hr. remember initial as g0. revert Heqg0.
  assert (Hgen : inv g0 -> inv g).
  { induction Hr; [done|]. intros Hi. apply IHHr. by eapply inv_step. }
  intros ->. apply Hgen, inv_initial.
Qed.

Lemma reach_ext g g' : reachable g -> rtc (step cluster) g g' -> ext g g'.
Proof.
  intros Hi%inv_reachable Hr. induction Hr as [|g1 g2 g3 Hs _ IH]; [apply ext_refl|].
  eapply ext_trans; [by apply step_ext|]. apply IH. by eapply inv_step.
Qed.

(** ** Safety *)

(** At most one leader per term. *)
Lemma election_safety g i j :
  reachable g -> a_role (nodes g i) = Leader -> a_role (nodes g j) = Leader ->
  a_term (nodes g i) = a_term (nodes g j) -> i = j.
Proof.
  intros Hi%inv_reachable Hri Hrj Ht.
  destruct (n_leader _ _ _ (i_servers _ Hi i) Hri) as [(e & He & Hw) _].
  destruct (n_leader _ _ _ (i_servers _ Hi j) Hrj) as [(e' & He' & Hw') _]. congruence.
Qed.

(** Two logs with an entry of one term at one position are equal up to it. *)
Lemma log_matching g i j p x y :
  reachable g -> a_log (nodes g i) !! p = Some x -> a_log (nodes g j) !! p = Some y ->
  le_term x = le_term y -> take (S p) (a_log (nodes g i)) = take (S p) (a_log (nodes g j)).
Proof.
  intros Hi%inv_reachable Hx Hy Ht. by eapply agrees_same_term; [apply (i_servers _ Hi)..| | |].
Qed.

(** Committed prefixes of two terms agree. *)
Lemma committed_agree g l t c l' t' c' :
  inv g -> com g l t c -> com g l' t' c' -> (c <= c')%nat -> take c l = take c l'.
Proof.
  intros Hi [_ [->|(t1 & k1 & H1 & Ht1 & Hk1 & Hl1)]] [Hlen [Hc|(t2 & k2 & H2 & Ht2 & Hk2 & Hl2)]] Hle;
    [done|done| |].
  { assert (c = 0%nat) as -> by lia. done. }
  rewrite Hl1, (take_eq_le c c' _ _ Hle Hl2).
  assert (Hgen : forall ta ka tb kb, committed g ta ka -> committed g tb kb -> ta <= tb -> (c <= ka)%nat ->
    take c (llog g ta) = take c (llog g tb)).
  { intros ta ka tb kb Ha Hb Hab Hca. pose proof (committed_length _ _ _ Ha) as Hla.
    destruct (committed_elected _ _ _ (i_msgs _ Hi) Hb) as [eb Heb].
    destruct (com_in_leader g (llog g ta) tb ka eb Hi) as [Heq _]; [|done|by eapply take_eq_le].
    split; [done|]. right. by exists ta, ka. }
  destruct (decide (t1 <= t2)).
  - apply (Hgen t1 k1 t2 k2); [done|done|lia|lia].
  - symmetry. apply (Hgen t2 k2 t1 k1); [done|done|lia|lia].
Qed.

(** The committed prefixes of two servers: one is a prefix of the other. *)
Lemma state_machine_safety g i j :
  reachable g -> (a_commit (nodes g i) <= a_commit (nodes g j))%nat ->
  take (a_commit (nodes g i)) (a_log (nodes g i)) = take (a_commit (nodes g i)) (a_log (nodes g j)).
Proof. intros Hi%inv_reachable Hle. by eapply committed_agree; [|apply (i_servers _ Hi)..|]. Qed.

(** Two servers agree on a prefix both have committed. *)
Lemma committed_same g i j k :
  reachable g -> (k <= a_commit (nodes g i))%nat -> (k <= a_commit (nodes g j))%nat ->
  take k (a_log (nodes g i)) = take k (a_log (nodes g j)).
Proof.
  intros Hg Hi Hj. destruct (decide (a_commit (nodes g i) <= a_commit (nodes g j))%nat) as [Hle|Hgt].
  - by apply (take_eq_le _ _ _ _ Hi), state_machine_safety.
  - symmetry. apply (take_eq_le _ _ _ _ Hj), state_machine_safety; [done|lia].
Qed.

(** What a server has committed is in the log of every leader of a later
    term. *)
Lemma leader_completeness g i j :
  reachable g -> a_role (nodes g j) = Leader -> a_term (nodes g i) <= a_term (nodes g j) ->
  take (a_commit (nodes g i)) (a_log (nodes g i)) `prefix_of` a_log (nodes g j).
Proof.
  intros Hi%inv_reachable Hr Ht. destruct (n_leader _ _ _ (i_servers _ Hi j) Hr) as [(e & He & _) ->].
  destruct (com_in_leader g (a_log (nodes g i)) (a_term (nodes g j)) (a_commit (nodes g i)) e Hi) as [-> _];
    [|done|apply prefix_take].
  by eapply com_mono; [| |apply (i_servers _ Hi)].
Qed.

End safety.
