(* ===== verification/RaftWire.v ===== *)
(** RaftWire: the messages and durable records of the first Raft implementation
    (consensus/raft_a/RaftNodeA.hpp, the [wire] namespace, [encode], [decode]
    and the [rec_*] functions), and their round trips.

    A message is a tagged union: the source's struct holds the fields of every
    type, and [encode] writes, [decode] fills and the handlers read those of the
    message's own type.  [decode] has a third outcome besides a message and a
    rejection, [OutOfBounds], where the length test of the source is passed but
    the frame is shorter than the length it announces. *)

From Stdlib Require Import ZArith Lia.
From stdpp Require Import base list numbers.
From S2P Require Import Prelude Codec Consensus.

(** ** The [wire] namespace *)

Module Wire.

(** The bit-serial CRC-32. *)
Definition crc_bit (crc : Z) : Z :=
  let mask := u32 (- Z.land crc 1) in Z.lxor (Z.shiftr crc 1) (Z.land 0xEDB88320 mask).

Definition crc_byte (crc : Z) (b : byte) : Z := Nat.iter 8 crc_bit (Z.lxor crc (Zb b)).

Definition crc32 (data : list byte) : Z := Z.lxor (fold_left crc_byte data 0xFFFFFFFF) 0xFFFFFFFF.

Definition put_u8 (v : Z) : list byte := [bZ v].

Definition put_u32 (v : Z) : list byte :=
  [bZ v; bZ (Z.shiftr v 8); bZ (Z.shiftr v 16); bZ (Z.shiftr v 24)].

Definition put_u64 (v : Z) : list byte := map (fun i => bZ (Z.shiftr v (8 * Z.of_nat i))) (seq 0 8).

Definition put_str (s : list byte) : list byte := put_u32 (u32 (Zlen s)) ++ s.

Definition frame_record (body : list byte) : list byte :=
  let crc := crc32 body in
  let len := u32 (Zlen body) in
  flat_map (fun v => [bZ (Z.land v 0xFF); bZ (Z.land (Z.shiftr v 8) 0xFF);
                      bZ (Z.land (Z.shiftr v 16) 0xFF); bZ (Z.land (Z.shiftr v 24) 0xFF)]) [crc; len]
  ++ body.

(** *** Correspondence with the storage codec *)

Lemma crc_bit_step x : crc_bit x = Crc32.table_step x.
Proof.
  unfold crc_bit, Crc32.table_step.
  assert (Z.land x 1 = Z.b2z (Z.testbit x 0)) as ->.
  { rewrite Z.bit0_mod. apply (Z.land_ones x 1). lia. }
  destruct (Z.testbit x 0); cbn [Z.b2z].
  - change (u32 (- 1)) with 0xFFFFFFFF. rewrite Z.lxor_comm. done.
  - change (u32 (- 0)) with 0. by rewrite Z.land_0_r, Z.lxor_0_r.
Qed.

Lemma iter_crc_bit n x : Nat.iter n crc_bit x = Nat.iter n Crc32.table_step x.
Proof. induction n as [|n IH]; [done|]. rewrite !Nat.iter_succ. by rewrite IH, crc_bit_step. Qed.

Lemma crc_byte_step crc b : crc_byte crc b = Crc32.update crc b.
Proof. rewrite Crc32.update_bit_step. apply iter_crc_bit. Qed.

Lemma fold_left_ext {A B} (f g : A -> B -> A) (l : list B) :
  (forall a b, f a b = g a b) -> forall a, fold_left f l a = fold_left g l a.
Proof. intros Hfg. induction l as [|b l IH]; intros a; [done|]. cbn. by rewrite IH, Hfg. Qed.

Lemma crc32_compute data : crc32 data = Crc32.compute data.
Proof. unfold crc32, Crc32.compute. by rewrite (fold_left_ext _ _ data crc_byte_step). Qed.

Lemma put_u32_codec v : put_u32 v = Codec.put_u32 v.
Proof. unfold put_u32, Codec.put_u32. by rewrite !bZ_land. Qed.

Lemma put_u64_codec v : put_u64 v = Codec.put_u64 v.
Proof. unfold put_u64, Codec.put_u64. apply map_ext. intros i. by rewrite bZ_land. Qed.

Lemma frame_record_codec body :
  frame_record body = Codec.put_u32 (crc32 body) ++ Codec.put_u32 (u32 (Zlen body)) ++ body.
Proof. unfold frame_record, Codec.put_u32. done. Qed.

End Wire.

(** ** The cursor: the bytes from [p + i] to [p + n], and [good] *)

Module Reader.

Record t := mk { rest : list byte; good : bool }.

Definition fail (r : t) : t := mk (rest r) false.

Definition u8 (r : t) : Z * t :=
  match rest r with
  | [] => (0, fail r)
  | b :: p => (Zb b, mk p (good r))
  end.

Definition u32 (r : t) : Z * t :=
  if (length (rest r) <? 4)%nat then (0, fail r)
  else (fold_left (fun v k => Z.lor v (Z.shiftl (byte_at (rest r) k) (8 * Z.of_nat k))) (seq 0 4) 0,
        mk (drop 4 (rest r)) (good r)).

Definition u64 (r : t) : Z * t :=
  if (length (rest r) <? 8)%nat then (0, fail r)
  else (fold_left (fun v k => Z.lor v (Z.shiftl (byte_at (rest r) k) (8 * Z.of_nat k))) (seq 0 8) 0,
        mk (drop 8 (rest r)) (good r)).

Definition str (r : t) : list byte * t :=
  let '(len, r) := u32 r in
  if negb (good r) || (Zlen (rest r) <? len) then ([], fail r)
  else (take (Z.to_nat len) (rest r), mk (drop (Z.to_nat len) (rest r)) (good r)).

(** [count] rounds of a field reader, pushed to a vector. *)
Fixpoint many {A} (f : t -> A * t) (count : nat) (r : t) : list A * t :=
  match count with
  | O => ([], r)
  | S k => let '(x, r) := f r in let '(xs, r) := many f k r in (x :: xs, r)
  end.

Definition entry (r : t) : LogEntry * t :=
  let '(term, r) := u64 r in
  let '(value, r) := str r in
  (mkEntry term value, r).

(** *** Reading what was put *)

Lemma u8_put v p g : u8 (mk (Wire.put_u8 v ++ p) g) = (v mod 256, mk p g).
Proof. unfold u8. cbn. by rewrite Zb_bZ. Qed.

Lemma u32_put v p g : u32 (mk (Wire.put_u32 v ++ p) g) = (Prelude.u32 v, mk p g).
Proof.
  unfold u32. cbn [rest good]. rewrite length_app. cbn [length Wire.put_u32].
  rewrite (proj2 (Nat.ltb_ge _ _)) by lia. f_equal.
  rewrite Wire.put_u32_codec, <- (get_put_u32 v p). unfold get_u32. cbn [fold_left seq].
  by rewrite Z.lor_0_l, Z.shiftl_0_r.
Qed.

Lemma u64_put v p g : u64 (mk (Wire.put_u64 v ++ p) g) = (Prelude.u64 v, mk p g).
Proof.
  unfold u64. cbn [rest good]. rewrite length_app. change (length (Wire.put_u64 v)) with 8%nat.
  rewrite (proj2 (Nat.ltb_ge _ _)) by lia. f_equal.
  rewrite Wire.put_u64_codec, <- (get_put_u64 v p). unfold get_u64. reflexivity.
Qed.

Lemma str_put s p g : Zlen s < 2 ^ 32 -> g = true -> str (mk (Wire.put_str s ++ p) g) = (s, mk p g).
Proof.
  intros Hs ->. unfold str, Wire.put_str. rewrite <- app_assoc, u32_put. pose proof (Zlen_nonneg s).
  rewrite !u32_id by (rewrite ?u32_id; lia). cbn [rest good negb orb].
  rewrite (proj2 (Z.ltb_ge _ _)) by (rewrite Zlen_app; pose proof (Zlen_nonneg p); lia).
  unfold Zlen. by rewrite Nat2Z.id, take_app_length, drop_app_length.
Qed.

(** A cursor that failed stays failed. *)
Lemma good_sticky r :
  (good (u8 r).2 = true -> good r = true) /\ (good (u32 r).2 = true -> good r = true) /\
  (good (u64 r).2 = true -> good r = true) /\ (good (str r).2 = true -> good r = true).
Proof.
  assert (H32 : good (u32 r).2 = true -> good r = true) by (unfold u32; destruct (_ <? _)%nat; done).
  split_and!; [unfold u8; by destruct (rest r)|done|unfold u64; destruct (_ <? _)%nat; done|].
  unfold str. destruct (u32 r) as [len r'] eqn:E. cbn in H32.
  destruct (_ || _) eqn:Eg; [done|]. cbn. intros Hg. by apply H32.
Qed.

End Reader.

(** ** Messages *)

Inductive Body :=
| RequestVote (last_log_index last_log_term cfg_index : Z)
| RequestVoteResp (granted : bool)
| AppendEntries (prev_log_index prev_log_term leader_commit : Z) (entries : list LogEntry)
| AppendEntriesResp (success : bool) (match_index : Z)
| InstallSnapshot (last_included_index : Z) (snap_state : list LogEntry)
| InstallSnapshotResp (match_index : Z)
| ConfigChange (config_chain_index : Z) (config_members : list Z)
| ConfigChangeResp (config_chain_index : Z).

#[global] Instance Body_eq_dec : EqDecision Body.
Proof. solve_decision. Defined.

Record RaftMsg := mkMsg {
  m_term : Z;
  m_source : Z;
  m_dest : Z;
  m_token : Z;
  m_body : Body
}.

#[global] Instance RaftMsg_eq_dec : EqDecision RaftMsg.
Proof. solve_decision. Defined.

(** [MsgType] *)
Definition type_of (b : Body) : Z :=
  match b with
  | RequestVote _ _ _ => 1
  | RequestVoteResp _ => 2
  | AppendEntries _ _ _ _ => 3
  | AppendEntriesResp _ _ => 4
  | InstallSnapshot _ _ => 5
  | InstallSnapshotResp _ => 6
  | ConfigChange _ _ => 7
  | ConfigChangeResp _ => 8
  end.

Definition put_bool (b : bool) : list byte := Wire.put_u8 (if b then 1 else 0).
Definition put_entry (e : LogEntry) : list byte := Wire.put_u64 (le_term e) ++ Wire.put_str (le_value e).
Definition put_vector {A} (f : A -> list byte) (l : list A) : list byte :=
  Wire.put_u32 (u32 (Zlen l)) ++ flat_map f l.

(** The [switch] of [encode]. *)
Definition encode_body (b : Body) : list byte :=
  match b with
  | RequestVote i t c => Wire.put_u64 i ++ Wire.put_u64 t ++ Wire.put_u64 c
  | RequestVoteResp g => put_bool g
  | AppendEntries p t c es => Wire.put_u64 p ++ Wire.put_u64 t ++ Wire.put_u64 c ++ put_vector put_entry es
  | AppendEntriesResp s i => put_bool s ++ Wire.put_u64 i
  | InstallSnapshot i st => Wire.put_u64 i ++ put_vector put_entry st
  | InstallSnapshotResp i => Wire.put_u64 i
  | ConfigChange i ms => Wire.put_u64 i ++ put_vector Wire.put_u64 ms
  | ConfigChangeResp i => Wire.put_u64 i
  end.

Definition payload (m : RaftMsg) : list byte :=
  Wire.put_u8 (type_of (m_body m)) ++ Wire.put_u64 (m_term m) ++ Wire.put_u64 (m_source m) ++
  Wire.put_u64 (m_dest m) ++ Wire.put_u64 (m_token m) ++ encode_body (m_body m).

Definition encode (m : RaftMsg) : list byte :=
  let body := payload m in
  Wire.put_u32 (Wire.crc32 body) ++ Wire.put_u32 (u32 (Zlen body)) ++ body.

(** A counted vector: the count is checked against the frame's length before
    anything is reserved. *)
Definition get_vector {A} (f : Reader.t -> A * Reader.t) (len : Z) (r : Reader.t) : option (list A * Reader.t) :=
  let '(count, r) := Reader.u32 r in
  if negb (Reader.good r) || (len <? count) then None else Some (Reader.many f (Z.to_nat count) r).

(** The [switch] of [decode]; [None] where it returns false. *)
Definition decode_body (type len : Z) (r : Reader.t) : option (Body * Reader.t) :=
  if type =? 1 then
    let '(i, r) := Reader.u64 r in let '(t, r) := Reader.u64 r in let '(c, r) := Reader.u64 r in
    Some (RequestVote i t c, r)
  else if type =? 2 then
    let '(g, r) := Reader.u8 r in Some (RequestVoteResp (negb (g =? 0)), r)
  else if type =? 3 then
    let '(p, r) := Reader.u64 r in let '(t, r) := Reader.u64 r in let '(c, r) := Reader.u64 r in
    '(es, r) ← get_vector Reader.entry len r; Some (AppendEntries p t c es, r)
  else if type =? 4 then
    let '(s, r) := Reader.u8 r in let '(i, r) := Reader.u64 r in
    Some (AppendEntriesResp (negb (s =? 0)) i, r)
  else if type =? 5 then
    let '(i, r) := Reader.u64 r in
    '(st, r) ← get_vector Reader.entry len r; Some (InstallSnapshot i st, r)
  else if type =? 6 then
    let '(i, r) := Reader.u64 r in Some (InstallSnapshotResp i, r)
  else if type =? 7 then
    let '(i, r) := Reader.u64 r in
    '(ms, r) ← get_vector Reader.u64 len r; Some (ConfigChange i ms, r)
  else if type =? 8 then
    let '(i, r) := Reader.u64 r in Some (ConfigChangeResp i, r)
  else None.

Inductive decoded := Decoded (m : RaftMsg) | Dropped | OutOfBounds.

Definition decode_payload (body : list byte) (len : Z) : decoded :=
  let '(type, r) := Reader.u8 (Reader.mk body true) in
  let '(term, r) := Reader.u64 r in
  let '(source, r) := Reader.u64 r in
  let '(dest, r) := Reader.u64 r in
  let '(token, r) := Reader.u64 r in
  match decode_body type len r with
  | Some (b, r) => if Reader.good r then Decoded (mkMsg term source dest token b) else Dropped
  | None => Dropped
  end.

(** [8u + len] is a 32-bit sum. *)
Definition decode (bytes : list byte) : decoded :=
  if Zlen bytes <? 8 then Dropped
  else
    let '(crc, head) := Reader.u32 (Reader.mk bytes true) in
    let '(len, head) := Reader.u32 head in
    if negb (Reader.good head) || (Zlen bytes <? u32 (8 + len)) then Dropped
    else if Zlen bytes <? 8 + len then OutOfBounds
    else
      let body := take (Z.to_nat len) (drop 8 bytes) in
      if Wire.crc32 body =? crc then decode_payload body len else Dropped.

(** ** Durable records *)

Inductive Rec :=
| RMeta (term voted_for : Z)
| REntry (index : Z) (e : LogEntry)
| RTrunc (new_len : Z)
| RSnapshot (last_included_index : Z) (state : list LogEntry)
| RConfig (chain_index : Z) (members : list Z)
| RSnapshotDelta (from_base to_base : Z) (delta : list LogEntry).

#[global] Instance Rec_eq_dec : EqDecision Rec.
Proof. solve_decision. Defined.

Definition rec_meta (term voted_for : Z) : list byte :=
  Wire.frame_record (Wire.put_u8 1 ++ Wire.put_u64 term ++ Wire.put_u64 voted_for).
Definition rec_entry (index : Z) (e : LogEntry) : list byte :=
  Wire.frame_record (Wire.put_u8 2 ++ Wire.put_u64 index ++ put_entry e).
Definition rec_trunc (new_len : Z) : list byte :=
  Wire.frame_record (Wire.put_u8 3 ++ Wire.put_u64 new_len).
Definition rec_snapshot (lii : Z) (state : list LogEntry) : list byte :=
  Wire.frame_record (Wire.put_u8 4 ++ Wire.put_u64 lii ++ put_vector put_entry state).
Definition rec_config (chain_index : Z) (members : list Z) : list byte :=
  Wire.frame_record (Wire.put_u8 5 ++ Wire.put_u64 chain_index ++ put_vector Wire.put_u64 members).
Definition rec_snapshot_delta (from_base to_base : Z) (delta : list LogEntry) : list byte :=
  Wire.frame_record (Wire.put_u8 6 ++ Wire.put_u64 from_base ++ Wire.put_u64 to_base ++ put_vector put_entry delta).

(** The framed bytes of a record. *)
Definition rec_bytes (r : Rec) : list byte :=
  match r with
  | RMeta t v => rec_meta t v
  | REntry i e => rec_entry i e
  | RTrunc n => rec_trunc n
  | RSnapshot i st => rec_snapshot i st
  | RConfig i ms => rec_config i ms
  | RSnapshotDelta f t d => rec_snapshot_delta f t d
  end.

(** ** Round trips *)

Definition word (z : Z) : Prop := 0 <= z < 2 ^ 64.
Definition entry_wf (e : LogEntry) : Prop := word (le_term e) /\ Zlen (le_value e) < 2 ^ 32.

(** The fields fit their widths. *)
Definition body_wf (b : Body) : Prop :=
  match b with
  | RequestVote i t c => word i /\ word t /\ word c
  | RequestVoteResp _ => True
  | AppendEntries p t c es => word p /\ word t /\ word c /\ Forall entry_wf es
  | AppendEntriesResp _ i => word i
  | InstallSnapshot i st => word i /\ Forall entry_wf st
  | InstallSnapshotResp i => word i
  | ConfigChange i ms => word i /\ Forall word ms
  | ConfigChangeResp i => word i
  end.

Definition msg_wf (m : RaftMsg) : Prop :=
  word (m_term m) /\ word (m_source m) /\ word (m_dest m) /\ word (m_token m) /\ body_wf (m_body m) /\
  Zlen (payload m) < 2 ^ 32 - 8.

(** [f] reads back what [p] puts. *)
Definition reads {A} (f : Reader.t -> A * Reader.t) (p : A -> list byte) (P : A -> Prop) : Prop :=
  forall x rest, P x -> f (Reader.mk (p x ++ rest) true) = (x, Reader.mk rest true).

Lemma reads_u64 : reads Reader.u64 Wire.put_u64 word.
Proof. intros x rest Hx. by rewrite Reader.u64_put, u64_id. Qed.

Lemma reads_entry : reads Reader.entry put_entry entry_wf.
Proof.
  intros [t v] rest [Ht Hv]. unfold Reader.entry, put_entry. rewrite <- app_assoc, Reader.u64_put, u64_id by done.
  by rewrite Reader.str_put.
Qed.

Lemma reads_many {A} f (p : A -> list byte) P l rest :
  reads f p P -> Forall P l ->
  Reader.many f (length l) (Reader.mk (flat_map p l ++ rest) true) = (l, Reader.mk rest true).
Proof.
  intros Hf. induction 1 as [|x l Hx _ IH]; [done|]. cbn [length Reader.many flat_map].
  by rewrite <- app_assoc, Hf, IH.
Qed.

Lemma reads_vector {A} f (p : A -> list byte) P l len rest :
  reads f p P -> Forall P l -> Zlen l < 2 ^ 32 -> Zlen l <= len ->
  get_vector f len (Reader.mk (put_vector p l ++ rest) true) = Some (l, Reader.mk rest true).
Proof.
  intros Hf Hl Hc Hlen. unfold get_vector, put_vector. pose proof (Zlen_nonneg l).
  rewrite <- app_assoc, Reader.u32_put, !u32_id by (rewrite ?u32_id; lia). cbn [Reader.good negb orb].
  rewrite (proj2 (Z.ltb_ge _ _)) by done. unfold Zlen. rewrite Nat2Z.id. by erewrite reads_many.
Qed.

Lemma length_flat_map {A} (p : A -> list byte) l :
  (forall x, 0 < length (p x))%nat -> (length l <= length (flat_map p l))%nat.
Proof.
  intros Hp. induction l as [|x l IH]; cbn; [lia|]. rewrite length_app. specialize (Hp x). lia.
Qed.

(** A vector has at most as many elements as bytes. *)
Lemma vector_count {A} (p : A -> list byte) l a b :
  (forall x, 0 < length (p x))%nat -> Zlen l <= Zlen (a ++ put_vector p l ++ b).
Proof.
  intros Hp. pose proof (length_flat_map p l Hp). unfold put_vector, Zlen. rewrite !length_app. lia.
Qed.

Lemma entry_nonempty e : (0 < length (put_entry e))%nat.
Proof. unfold put_entry. rewrite length_app. cbn. lia. Qed.

Lemma word_nonempty z : (0 < length (Wire.put_u64 z))%nat.
Proof. cbn. lia. Qed.

Lemma bool_read g rest :
  Reader.u8 (Reader.mk (put_bool g ++ rest) true) = (if g then 1 else 0, Reader.mk rest true).
Proof. unfold put_bool. rewrite Reader.u8_put. by destruct g. Qed.

Lemma decode_encode_body b len rest :
  body_wf b -> Zlen (encode_body b) <= len -> len < 2 ^ 32 ->
  decode_body (type_of b) len (Reader.mk (encode_body b ++ rest) true) = Some (b, Reader.mk rest true).
Proof.
  intros Hb Hlen Hmax. destruct b as [i t c|g|p t c es|s i|i st|i|i ms|i]; cbn [body_wf encode_body type_of] in *;
    unfold decode_body; cbn [Z.eqb Pos.eqb]; rewrite <- ?app_assoc.
  - destruct Hb as (H1 & H2 & H3). rewrite !reads_u64 by done. done.
  - rewrite bool_read. by destruct g.
  - destruct Hb as (H1 & H2 & H3 & H4). rewrite !reads_u64 by done. cbn beta iota.
    pose proof (vector_count put_entry es (Wire.put_u64 p ++ Wire.put_u64 t ++ Wire.put_u64 c) [] entry_nonempty) as Hc.
    rewrite app_nil_r, <- !app_assoc in Hc. rewrite (reads_vector _ _ entry_wf); [done|apply reads_entry|done|lia|lia].
  - rewrite bool_read, reads_u64 by done. by destruct s.
  - destruct Hb as (H1 & H2). rewrite !reads_u64 by done. cbn beta iota.
    pose proof (vector_count put_entry st (Wire.put_u64 i) [] entry_nonempty) as Hc.
    rewrite app_nil_r in Hc. rewrite (reads_vector _ _ entry_wf); [done|apply reads_entry|done|lia|lia].
  - by rewrite reads_u64.
  - destruct Hb as (H1 & H2). rewrite !reads_u64 by done. cbn beta iota.
    pose proof (vector_count Wire.put_u64 ms (Wire.put_u64 i) [] word_nonempty) as Hc.
    rewrite app_nil_r in Hc. rewrite (reads_vector _ _ word); [done|apply reads_u64|done|lia|lia].
  - by rewrite reads_u64.
Qed.

Lemma decode_encode_payload m :
  msg_wf m -> decode_payload (payload m) (Zlen (payload m)) = Decoded m.
Proof.
  destruct m as [t s d tok b]. intros (H1 & H2 & H3 & H4 & Hb & Hlen). cbn [m_term m_source m_dest m_token m_body] in *.
  assert (Hle : Zlen (encode_body b) <= Zlen (payload (mkMsg t s d tok b))).
  { unfold payload, Zlen. rewrite !length_app. cbn [m_body]. lia. }
  unfold decode_payload. unfold payload at 1. cbn [m_term m_source m_dest m_token m_body].
  rewrite Reader.u8_put, Z.mod_small by (destruct b; cbn; lia).
  rewrite !reads_u64 by done. rewrite <- (app_nil_r (encode_body b)), decode_encode_body by (done || lia). done.
Qed.

(** The outcome of [decode] from the two header words and what follows. *)
Lemma decode_frame crc len rest :
  0 <= crc < 2 ^ 32 -> 0 <= len < 2 ^ 32 ->
  decode (Wire.put_u32 crc ++ Wire.put_u32 len ++ rest) =
  if 8 + Zlen rest <? u32 (8 + len) then Dropped
  else if Zlen rest <? len then OutOfBounds
  else
    let body := take (Z.to_nat len) rest in
    if Wire.crc32 body =? crc then decode_payload body len else Dropped.
Proof.
  intros Hc Hl. unfold decode. pose proof (Zlen_nonneg rest).
  assert (Hz : Zlen (Wire.put_u32 crc ++ Wire.put_u32 len ++ rest) = 8 + Zlen rest)
    by (unfold Zlen; rewrite !length_app; cbn [length Wire.put_u32]; lia).
  rewrite Hz, (proj2 (Z.ltb_ge _ _)) by lia. rewrite !Reader.u32_put. cbn [Reader.good negb orb].
  rewrite (u32_id crc), (u32_id len) by done. destruct (_ <? u32 _); [done|].
  replace (8 + Zlen rest <? 8 + len) with (Zlen rest <? len) by (destruct (_ <? _) eqn:E; symmetry; lia).
  done.
Qed.

Lemma crc32_word l : 0 <= Wire.crc32 l < 2 ^ 32.
Proof. rewrite Wire.crc32_compute. apply Crc32.compute_range. Qed.

(** What a node sends is what its peer decodes: [decode] inverts [encode] on
    every message whose fields fit their widths and whose payload is below
    4 GiB. *)
Theorem raft_msg_roundtrip m : msg_wf m -> decode (encode m) = Decoded m.
Proof.
  intros Hm. pose proof Hm as (_ & _ & _ & _ & _ & Hlen). unfold encode. pose proof (Zlen_nonneg (payload m)).
  rewrite decode_frame by (apply crc32_word || apply u32_range).
  rewrite !u32_id by (rewrite ?u32_id; lia). rewrite !(proj2 (Z.ltb_ge _ _)) by lia. cbn zeta.
  unfold Zlen at 1 2. rewrite Nat2Z.id, firstn_all, Z.eqb_refl. by apply decode_encode_payload.
Qed.

Definition demo_msg : RaftMsg :=
  mkMsg 7 1 2 0 (AppendEntries 3 6 2 [mkEntry 7 [Byte.x61]; mkEntry 7 []]).

Lemma raft_msg_roundtrip_witness :
  decode (encode demo_msg) = Decoded demo_msg /\ length (encode demo_msg) = 94%nat.
Proof.
  split; [apply raft_msg_roundtrip|reflexivity].
  repeat split; cbn; unfold word, Zlen; cbn; try lia. repeat constructor; unfold word, Zlen; cbn; lia.
Defined.

(** A frame cut before its end is dropped. *)
Lemma frame_cut m k : msg_wf m -> (k < length (encode m))%nat -> decode (take k (encode m)) = Dropped.
Proof.
  intros (_ & _ & _ & _ & _ & Hlen) Hk. unfold encode in *. pose proof (Zlen_nonneg (payload m)).
  set (crc := Wire.crc32 (payload m)) in *. rewrite u32_id in * by lia.
  rewrite app_assoc in *. set (head := Wire.put_u32 crc ++ Wire.put_u32 (Zlen (payload m))) in *.
  assert (Hh : length head = 8%nat) by done.
  destruct (decide (k < 8)%nat) as [Hlt|Hge].
  - unfold decode. rewrite (proj2 (Z.ltb_lt _ _)); [done|]. unfold Zlen. rewrite length_take. lia.
  - rewrite take_app_ge by lia. rewrite length_app in Hk. unfold head. rewrite <- app_assoc.
    rewrite decode_frame by (apply crc32_word || lia).
    rewrite u32_id, (proj2 (Z.ltb_lt _ _)); [done| |lia]. unfold Zlen. rewrite length_take. cbn [length app Wire.put_u32]. lia.
Qed.

(** A frame whose payload was altered within four consecutive bytes is
    dropped. *)
Lemma decode_altered m p w v q :
  msg_wf m -> payload m = p ++ w ++ q -> length w = length v -> (length w <= 4)%nat -> w <> v ->
  decode (take 8 (encode m) ++ p ++ v ++ q) = Dropped.
Proof.
  intros (_ & _ & _ & _ & _ & Hlen) Hp Hl H4 Hne. unfold encode. pose proof (Zlen_nonneg (payload m)).
  assert (Hz : Zlen (p ++ v ++ q) = Zlen (payload m)) by (rewrite Hp; unfold Zlen; rewrite !length_app; lia).
  rewrite (app_assoc (Wire.put_u32 _) _ (payload m)), take_app_le, take_ge by (cbn; lia). rewrite <- app_assoc.
  rewrite decode_frame by (apply crc32_word || apply u32_range).
  rewrite !u32_id by (rewrite ?u32_id; lia). rewrite Hz, !(proj2 (Z.ltb_ge _ _)) by lia. cbn zeta.
  rewrite <- Hz at 1. unfold Zlen at 1. rewrite Nat2Z.id, firstn_all.
  rewrite (proj2 (Z.eqb_neq _ _)); [done|]. rewrite Hp, !Wire.crc32_compute. intros E.
  by apply (Crc32.compute_window p w v q).
Qed.

(** A damaged delivery never reaches a handler: a frame cut anywhere, or
    altered within any four consecutive bytes of its payload, is dropped. *)
Theorem raft_msg_rejects_damage m p w v q :
  msg_wf m -> payload m = p ++ w ++ q -> length w = length v -> (length w <= 4)%nat -> w <> v ->
  decode (take 8 (encode m) ++ p ++ v ++ q) = Dropped /\
  forall k, (k < length (encode m))%nat -> decode (take k (encode m)) = Dropped.
Proof. intros Hm Hp Hl H4 Hne. split; [by eapply decode_altered|intros k Hk; by apply frame_cut]. Qed.

Lemma raft_msg_rejects_damage_witness :
  let m := mkMsg 7 1 2 0 (RequestVoteResp true) in
  payload m = take 33 (payload m) ++ [Byte.x01] ++ [] /\
  decode (take 8 (encode m) ++ take 33 (payload m) ++ [Byte.x00] ++ []) = Dropped.
Proof.
  intros m. assert (Hm : msg_wf m) by (repeat split; cbn; unfold word, Zlen; cbn; lia).
  assert (Hp : payload m = take 33 (payload m) ++ [Byte.x01] ++ []) by reflexivity.
  split; [exact Hp|].
  assert (H4 : (length [Byte.x01] <= 4)%nat) by (cbn; lia).
  assert (Hne : [Byte.x01] <> [Byte.x00]) by discriminate.
  exact (proj1 (raft_msg_rejects_damage m (take 33 (payload m)) [Byte.x01] [Byte.x00] [] Hm Hp eq_refl H4 Hne)).
Defined.

(** The length test of [decode] adds in 32 bits, so a frame of eight bytes
    that announces a length of 2^32 - 8 or more passes it, and the checksum then
    reads past the end of the buffer. *)
Theorem raft_msg_length_wraps crc len :
  0 <= crc < 2 ^ 32 -> 2 ^ 32 - 8 <= len < 2 ^ 32 ->
  decode (Wire.put_u32 crc ++ Wire.put_u32 len) = OutOfBounds.
Proof.
  intros Hc Hl. rewrite <- (app_nil_r (Wire.put_u32 len)), decode_frame by lia.
  assert (u32 (8 + len) = 8 + len - 2 ^ 32) as ->.
  { unfold u32. symmetry. apply (Z.mod_unique _ _ 1); lia. }
  unfold Zlen. cbn [length]. rewrite (proj2 (Z.ltb_ge _ _)) by lia. by rewrite (proj2 (Z.ltb_lt _ _)) by lia.
Qed.

Lemma raft_msg_length_wraps_witness :
  decode (Wire.put_u32 0 ++ Wire.put_u32 0xFFFFFFFF) = OutOfBounds.
Proof. apply (raft_msg_length_wraps 0 0xFFFFFFFF); lia. Defined.
