(* ===== verification/RaftNode.v ===== *)
(** RaftNode: the first Raft implementation, [RaftNodeA]
    (consensus/raft_a/RaftNodeA.hpp).

    A node's state is a record of groups of the class's members; every handler is
    a function from state to state.  A spawned send is a message at the end of
    [outbox]; a record handed to the persist pipeline is at the end of
    [write_queue_], as the record whose framed bytes ([RaftWire.rec_bytes]) the
    source queues.  [now] is what the clock reads while the handler runs and
    [rng_] the tape of random draws.  Handlers run to completion: the source
    awaits only in its loops, and one turn of each loop is a function here
    ([recv], [timer_turn], [persist_turn], [recover]).

    Terms and indices are 64-bit; sums that involve a value read from a message
    and the increment of the term wrap. *)

From Stdlib Require Import ZArith Lia.
From stdpp Require Import base list numbers.
From S2P Require Import Prelude Codec Core Disk Consensus RaftWire.

Definition kNil : Z := 2 ^ 64 - 1.
Definition kNoLeader : Z := 2 ^ 64 - 1.
Definition kMaxBatch : nat := 64.

(** ** State *)

Record raft := mkRaft {
  role_ : Role;
  current_term_ : Z;
  voted_for_ : Z;
  log_ : list LogEntry;
  snap_base_ : Z;
  snap_state_ : list LogEntry;
  snap_persisted_base_ : Z;
  applied_index_ : Z;
  commit_index_ : Z;
  repair_watermark_ : Z;
  votes_granted_ : list Z
}.

Record replication := mkReplication {
  next_index_ : list Z;
  match_index_ : list Z;
  sent_index_ : list Z;
  repl_pending_ : bool;
  repl_kicked_ : bool
}.

Record membership := mkMembership {
  cfg_chain_ : list (list Z);
  cfg_idx_ : Z;
  cfg_committed_idx_ : Z;
  cfg_adopted_ : list Z
}.

Record lifecycle := mkLifecycle {
  election_deadline_ : Z;
  heartbeat_deadline_ : Z;
  leader_hint_ : Z;
  running_ : bool;
  recovered_ : bool;
  gen_ : Z;
  snapshots_taken_ : Z;
  snapshots_installed_ : Z
}.

Record pipeline := mkPipeline {
  write_queue_ : list Rec;
  want_sync_ : bool;
  worker_running_ : bool
}.

Record node := mkNode {
  cfg_ : NodeConfig;
  self_ : Z;
  cluster_token_ : Z;
  peers_ : list Z;
  has_disk : bool;
  raft_ :> raft;
  repl_ :> replication;
  mem_ :> membership;
  life_ :> lifecycle;
  pipe_ :> pipeline;
  now : Z;
  rng_ : rng;
  outbox : list RaftMsg
}.

Definition on_raft (f : raft -> raft) (n : node) : node := {| n with raft_ := f (raft_ n) |}.
Definition on_repl (f : replication -> replication) (n : node) : node := {| n with repl_ := f (repl_ n) |}.
Definition on_mem (f : membership -> membership) (n : node) : node := {| n with mem_ := f (mem_ n) |}.
Definition on_life (f : lifecycle -> lifecycle) (n : node) : node := {| n with life_ := f (life_ n) |}.
Definition on_pipe (f : pipeline -> pipeline) (n : node) : node := {| n with pipe_ := f (pipe_ n) |}.

Definition set_role (x : Role) : node -> node := on_raft (fun r => {| r with role_ := x |}).
Definition set_leader_hint (x : Z) : node -> node := on_life (fun r => {| r with leader_hint_ := x |}).

(** ** Helpers *)

Definition llen (n : node) : Z := snap_base_ n + Zlen (log_ n).

Definition no_entry : LogEntry := mkEntry 0 [].

Definition entry_at (n : node) (i : Z) : LogEntry :=
  if i <=? snap_base_ n then nth (Z.to_nat i - 1) (snap_state_ n) no_entry
  else nth (Z.to_nat (i - snap_base_ n) - 1) (log_ n) no_entry.

Definition term_at (n : node) (i : Z) : Z :=
  if (i =? 0) || (llen n <? i) then 0
  else if i <=? snap_base_ n then le_term (nth (Z.to_nat i - 1) (snap_state_ n) no_entry)
  else le_term (nth (Z.to_nat (i - snap_base_ n) - 1) (log_ n) no_entry).

Definition append_entry (e : LogEntry) : node -> node :=
  on_raft (fun r => {| r with log_ := log_ r ++ [e] |}).

(** [log_.resize]: shorter, or padded with default entries. *)
Definition resize {A} (k : nat) (x : A) (l : list A) : list A := take k l ++ replicate (k - length l) x.

Definition truncate_to (new_len : Z) : node -> node :=
  on_raft (fun r =>
    let new_len := if new_len <? snap_base_ r then snap_base_ r else new_len in
    {| r with log_ := resize (Z.to_nat (new_len - snap_base_ r)) no_entry (log_ r) |}).

(** [log()]: the snapshot prefix and the retained suffix. *)
Definition log_view (n : node) : list LogEntry := snap_state_ n ++ log_ n.

Definition last_log_term (n : node) : Z := if llen n =? 0 then 0 else term_at n (llen n).

Definition arm_election_deadline (n : node) : node :=
  let '(jitter, g) := uniform_range (election_timeout_min (cfg_ n)) (election_timeout_max (cfg_ n)) (rng_ n) in
  on_life (fun r => {| r with election_deadline_ := now n + jitter |}) {| n with rng_ := g |}.

(** [send_to]: the message is stamped with the cluster token and its send
    spawned. *)
Definition send_to (dest term : Z) (b : Body) (n : node) : node :=
  {| n with outbox := outbox n ++ [mkMsg term (self_ n) dest (cluster_token_ n) b] |}.

Fixpoint index_in (id : Z) (l : list Z) (i : nat) : nat :=
  match l with
  | [] => 0
  | x :: l' => if x =? id then i else index_in id l' (S i)
  end.

Definition idx_of (n : node) (id : Z) : nat := index_in id (cluster (cfg_ n)) 0.
Definition self_idx (n : node) : nat := idx_of n (self_ n).

(** One round of the insertion sort: [x] moves left past the larger elements of
    the sorted part, which is kept last element first. *)
Fixpoint sort_shift (x : Z) (sorted : list Z) : list Z :=
  match sorted with
  | y :: s => if x <? y then y :: sort_shift x s else x :: sorted
  | [] => [x]
  end.
Definition sort_ids (v : list Z) : list Z := rev (fold_left (fun s x => sort_shift x s) v []).

Definition in_config (c : list Z) (id : Z) : bool := existsb (fun m => m =? id) c.
Definition config (n : node) : list Z := nth (Z.to_nat (cfg_idx_ n)) (cfg_chain_ n) [].
Definition chain_empty (n : node) : bool := match cfg_chain_ n with [] => true | _ => false end.
Definition in_current_config (n : node) (id : Z) : bool := negb (chain_empty n) && in_config (config n) id.
Definition quorum (n : node) : nat :=
  (length (if chain_empty n then cluster (cfg_ n) else config n) / 2 + 1)%nat.
Definition config_votes (n : node) : nat := length (filter (fun v => in_current_config n v = true) (votes_granted_ n)).
Definition init_config_chain (c : NodeConfig) : list (list Z) :=
  [match init_config c with [] => cluster c | i => i end].

(** ** Construction *)

Definition initial_raft : raft := mkRaft Follower 0 kNil [] 0 [] 0 0 0 0 [].

Definition construct (c : NodeConfig) (disk : bool) : node :=
  let zeros := replicate (length (cluster c)) 0 in
  mkNode c (self_id c) (nc_cluster_token c) (filter (fun id => id <> self_id c) (cluster c)) disk
    initial_raft (mkReplication zeros zeros zeros false false)
    (mkMembership (init_config_chain c) 0 0 zeros)
    (mkLifecycle 0 0 kNoLeader false false 0 0 0) (mkPipeline [] false false) 0 [] [].

(** ** Persistence *)

(** Queue a record, ask for a sync and make sure a worker runs. *)
Definition enqueue_durable (rec : Rec) (n : node) : node :=
  if has_disk n then
    on_pipe (fun p => {| write_queue_ := write_queue_ p ++ [rec]; want_sync_ := true; worker_running_ := true |}) n
  else n.

Definition persist_meta (n : node) : node :=
  enqueue_durable (RMeta (current_term_ n) (voted_for_ n))
    (enqueue_durable (RMeta (current_term_ n) (voted_for_ n)) n).
Definition persist_entry (index : Z) (e : LogEntry) : node -> node := enqueue_durable (REntry index e).
Definition persist_trunc (new_len : Z) : node -> node := enqueue_durable (RTrunc new_len).

Definition persist_snapshot (n : node) : node :=
  if snap_base_ n <=? snap_persisted_base_ n then n
  else
    let delta := drop (Z.to_nat (snap_persisted_base_ n)) (snap_state_ n) in
    on_raft (fun r => {| r with snap_persisted_base_ := snap_base_ r |})
      (enqueue_durable (RSnapshotDelta (snap_persisted_base_ n) (snap_base_ n) delta) n).

Definition persist_snapshot_full (n : node) : node :=
  on_raft (fun r => {| r with snap_persisted_base_ := snap_base_ r |})
    (enqueue_durable (RSnapshot (snap_base_ n) (snap_state_ n)) n).

Definition persist_config (chain_index : Z) (members : list Z) : node -> node :=
  enqueue_durable (RConfig chain_index members).

(** ** Applying and compacting *)

Definition take_snapshot (n : node) : node :=
  let i := applied_index_ n in
  if i <=? snap_base_ n then n
  else
    let k := Z.to_nat (i - snap_base_ n) in
    let n := on_raft (fun r => {| r with snap_state_ := snap_state_ r ++ take k (log_ r);
                                         log_ := drop k (log_ r); snap_base_ := i |}) n in
    let n := on_life (fun r => {| r with snapshots_taken_ := u64 (snapshots_taken_ r + 1) |}) n in
    persist_snapshot n.

Definition apply_and_maybe_snapshot (n : node) : node :=
  let n := if applied_index_ n <? commit_index_ n
           then on_raft (fun r => {| r with applied_index_ := commit_index_ r |}) n else n in
  if (snap_base_ n <? applied_index_ n) && (snapshot_threshold (cfg_ n) <? Zlen (log_ n))
  then take_snapshot n else n.

(** ** Commitment *)

(** How many members of the current config store position [k]. *)
Definition agreeing (n : node) (k : Z) : nat :=
  length (filter (fun i => in_current_config n (nth i (cluster (cfg_ n)) 0) &&
                           ((i =? self_idx n)%nat || (k <=? nth i (match_index_ n) 0)) = true)
                 (seq 0 (length (match_index_ n)))).

(** The loop over [count] positions down from [k]. *)
Fixpoint highest_committable (n : node) (count : nat) (k : Z) : option Z :=
  match count with
  | O => None
  | S c =>
      if negb (term_at n k =? current_term_ n) then highest_committable n c (k - 1)
      else if (quorum n <=? agreeing n k)%nat then Some k
      else highest_committable n c (k - 1)
  end.

Definition advance_commit_index (n : node) : node :=
  if negb (bool_decide (role_ n = Leader)) then n
  else
    match highest_committable n (Z.to_nat (llen n - commit_index_ n)) (llen n) with
    | Some k => on_raft (fun r => {| r with commit_index_ := k |}) n
    | None => n
    end.

Definition advance_n1_self_commit (n : node) : node :=
  if negb (bool_decide (role_ n = Leader)) || negb (quorum n =? 1)%nat then n
  else apply_and_maybe_snapshot (advance_commit_index n).

(** ** Replication *)

Definition send_install_snapshot (dest : Z) (n : node) : node :=
  send_to dest (current_term_ n) (InstallSnapshot (snap_base_ n) (snap_state_ n)) n.

Definition replicate_to (dest : Z) (n : node) : node :=
  let di := idx_of n dest in
  let ni := nth di (next_index_ n) 0 in
  let ni := if ni <? 1 then 1 else ni in
  let prev_index := ni - 1 in
  if prev_index <? snap_base_ n then send_install_snapshot dest n
  else
    let prev_term := term_at n prev_index in
    let sent := Nat.min kMaxBatch (Z.to_nat (llen n - prev_index)) in
    let entries := map (fun k => entry_at n (prev_index + 1 + Z.of_nat k)) (seq 0 sent) in
    let term := current_term_ n in
    let commit := commit_index_ n in
    let n := on_repl (fun r => {| r with sent_index_ := <[di := prev_index + Z.of_nat sent]> (sent_index_ r) |}) n in
    send_to dest term (AppendEntries prev_index prev_term commit entries) n.

Definition broadcast_append (n : node) : node :=
  if negb (bool_decide (role_ n = Leader)) then n
  else fold_left (fun (n : node) d => replicate_to d n) (peers_ n) n.

(** ** Membership *)

Definition send_config_change_to (dest : Z) (n : node) : node :=
  send_to dest (current_term_ n) (ConfigChange (cfg_idx_ n) (config n)) n.

Definition broadcast_config_change (n : node) : node :=
  if negb (bool_decide (role_ n = Leader)) || chain_empty n then n
  else
    let head := config n in
    let prev := if 0 <? cfg_idx_ n then nth (Z.to_nat (cfg_idx_ n - 1)) (cfg_chain_ n) [] else head in
    fold_left (fun (n : node) d => if in_config head d || in_config prev d then send_config_change_to d n else n)
              (peers_ n) n.

Definition adopters (n : node) (head : Z) (hc : list Z) : nat :=
  length (filter (fun i =>
    let id := nth i (cluster (cfg_ n)) 0 in
    in_config hc id && (if id =? self_ n then head <=? cfg_idx_ n else head <=? nth i (cfg_adopted_ n) 0) = true)
    (seq 0 (length (cluster (cfg_ n))))).

Definition maybe_commit_config (n : node) : node :=
  if negb (bool_decide (role_ n = Leader)) || chain_empty n then n
  else
    let head := Zlen (cfg_chain_ n) - 1 in
    if head <=? cfg_committed_idx_ n then n
    else
      let hc := nth (Z.to_nat head) (cfg_chain_ n) [] in
      if (length hc <? adopters n head hc * 2)%nat
      then on_mem (fun r => {| r with cfg_committed_idx_ := head |}) n else n.

Definition handle_config_change (m : RaftMsg) (idx : Z) (members : list Z) (n : node) : node :=
  if m_term m <? current_term_ n then n
  else
    let n := arm_election_deadline (set_leader_hint (m_source m) (set_role Follower n)) in
    let n :=
      if cfg_idx_ n <? idx then
        let n := on_mem (fun r =>
          let chain := if Zlen (cfg_chain_ r) <=? idx then resize (Z.to_nat (idx + 1)) [] (cfg_chain_ r)
                       else cfg_chain_ r in
          {| r with cfg_chain_ := <[Z.to_nat idx := members]> chain; cfg_idx_ := idx |}) n in
        persist_config (cfg_idx_ n) (config n) n
      else n in
    send_to (m_source m) (current_term_ n) (ConfigChangeResp (cfg_idx_ n)) n.

Definition handle_config_change_resp (m : RaftMsg) (idx : Z) (n : node) : node :=
  if negb (bool_decide (role_ n = Leader)) || negb (m_term m =? current_term_ n) then n
  else
    let di := idx_of n (m_source m) in
    let n := if nth di (cfg_adopted_ n) 0 <? idx
             then on_mem (fun r => {| r with cfg_adopted_ := <[di := idx]> (cfg_adopted_ r) |}) n else n in
    maybe_commit_config n.

Definition propose_config_change (server : Z) (add : bool) (n : node) : bool * node :=
  if negb (running_ n) || negb (bool_decide (role_ n = Leader)) then (false, n)
  else if negb (cfg_idx_ n =? Zlen (cfg_chain_ n) - 1) || negb (cfg_committed_idx_ n =? cfg_idx_ n) then (false, n)
  else
    let cur := config n in
    let present := in_config cur server in
    if eqb add present then (false, n)
    else if add && negb (in_config (cluster (cfg_ n)) server) then (false, n)
    else if negb add && (server =? self_ n) then (false, n)
    else
      let nc := if add then cur ++ [server] else filter (fun id => id <> server) cur in
      match nc with
      | [] => (false, n)
      | _ :: _ =>
          let nc := sort_ids nc in
          let n := on_mem (fun r => {| r with cfg_chain_ := cfg_chain_ r ++ [nc];
                                              cfg_idx_ := Zlen (cfg_chain_ r ++ [nc]) - 1 |}) n in
          (true, broadcast_config_change (persist_config (cfg_idx_ n) nc n))
      end.

Definition force_new_cluster (new_token : Z) (n : node) : node :=
  if negb (running_ n) then n
  else
    let n := on_mem (fun r => mkMembership [[self_ n]] 0 0 (map (fun _ => 0) (cfg_adopted_ r))) n in
    let n := {| n with cluster_token_ := new_token |} in
    let n := persist_config 0 [self_ n] n in
    arm_election_deadline (set_leader_hint kNoLeader (set_role Follower n)).

(** ** Elections *)

Definition maybe_step_down (term : Z) (n : node) : node :=
  if current_term_ n <? term then
    let n := on_raft (fun r => {| r with current_term_ := term; role_ := Follower; voted_for_ := kNil;
                                         votes_granted_ := [] |}) n in
    arm_election_deadline (persist_meta (set_leader_hint kNoLeader n))
  else n.

Definition become_leader (n : node) : node :=
  let n := set_leader_hint (self_ n) (set_role Leader n) in
  let last := llen n in
  let n := on_repl (fun r => {| r with
    next_index_ := map (fun _ => last + 1) (next_index_ r);
    match_index_ := <[self_idx n := last]> (map (fun _ => 0) (match_index_ r));
    sent_index_ := map (fun _ => 0) (sent_index_ r) |}) n in
  let n := on_mem (fun r => {| r with
    cfg_adopted_ := replicate (length (cluster (cfg_ n))) 0;
    cfg_committed_idx_ := if 0 <? cfg_idx_ r then cfg_idx_ r - 1 else 0 |}) n in
  let n := on_life (fun r => {| r with heartbeat_deadline_ := now n |}) n in
  let n := broadcast_append n in
  let n := if cfg_committed_idx_ n <? cfg_idx_ n then broadcast_config_change n else n in
  maybe_commit_config n.

Definition on_election_timeout (n : node) : node :=
  if negb (running_ n) then n
  else if negb (in_current_config n (self_ n)) then arm_election_deadline n
  else if (0 <? repair_watermark_ n) && (llen n <? repair_watermark_ n) then arm_election_deadline n
  else
    let n := on_raft (fun r => {| r with current_term_ := u64 (current_term_ r + 1); role_ := Candidate;
                                         voted_for_ := self_ n; votes_granted_ := [self_ n] |}) n in
    let n := arm_election_deadline (persist_meta (set_leader_hint kNoLeader n)) in
    if (quorum n <=? config_votes n)%nat then become_leader n
    else
      fold_left (fun (n : node) d => send_to d (current_term_ n) (RequestVote (llen n) (last_log_term n) (cfg_idx_ n)) n)
                (peers_ n) n.

Definition handle_request_vote (m : RaftMsg) (last_log_index cand_last_term cfg_index : Z) (n : node) : node :=
  if m_term m <? current_term_ n then send_to (m_source m) (current_term_ n) (RequestVoteResp false) n
  else
    let cand_up_to_date :=
      (last_log_term n <? cand_last_term) ||
      ((cand_last_term =? last_log_term n) && (llen n <=? last_log_index)) in
    let cand_cfg_up_to_date := cfg_idx_ n <=? cfg_index in
    let can_vote := (voted_for_ n =? kNil) || (voted_for_ n =? m_source m) in
    let not_behind_repair := (repair_watermark_ n =? 0) || (repair_watermark_ n <=? last_log_index) in
    let grant := can_vote && cand_up_to_date && cand_cfg_up_to_date && not_behind_repair in
    let n :=
      if grant && negb (voted_for_ n =? m_source m) then
        arm_election_deadline (persist_meta (on_raft (fun r => {| r with voted_for_ := m_source m |}) n))
      else n in
    send_to (m_source m) (current_term_ n) (RequestVoteResp grant) n.

Definition handle_vote_response (m : RaftMsg) (granted : bool) (n : node) : node :=
  if negb (bool_decide (role_ n = Candidate)) || negb (m_term m =? current_term_ n) || negb granted then n
  else if existsb (fun v => v =? m_source m) (votes_granted_ n) then n
  else
    let n := on_raft (fun r => {| r with votes_granted_ := votes_granted_ r ++ [m_source m] |}) n in
    if (quorum n <=? config_votes n)%nat then become_leader n else n.

(** ** Appending *)

(** The loop that looks for the first conflicting entry; [pos] is the absolute
    position of the first entry of [es], the result an offset into [es]. *)
Fixpoint scan_conflict (n : node) (pos : Z) (es : list LogEntry) : option nat :=
  match es with
  | [] => None
  | e :: es' =>
      if pos <=? snap_base_ n then option_map S (scan_conflict n (pos + 1) es')
      else if pos <=? llen n then
        if term_at n pos =? le_term e then option_map S (scan_conflict n (pos + 1) es') else Some O
      else None
  end.

(** Append and persist each entry. *)
Definition append_all (es : list LogEntry) (n : node) : node :=
  fold_left (fun (n : node) e => let n := append_entry e n in persist_entry (llen n) e n) es n.

Definition merge_entries (prev_log_index : Z) (entries : list LogEntry) (n : node) : node :=
  match scan_conflict n (prev_log_index + 1) entries with
  | Some k =>
      let keep := prev_log_index + Z.of_nat k in
      let n := if keep <? llen n then persist_trunc keep (truncate_to keep n) else n in
      append_all (drop k entries) n
  | None =>
      if llen n <? prev_log_index + Zlen entries
      then append_all (drop (Z.to_nat (llen n - prev_log_index)) entries) n else n
  end.

Definition clear_watermark (n : node) : node :=
  if (0 <? repair_watermark_ n) && (repair_watermark_ n <=? llen n)
  then on_raft (fun r => {| r with repair_watermark_ := 0 |}) n else n.

Definition adopt_commit (adopt : Z) (n : node) : node :=
  if commit_index_ n <? adopt then on_raft (fun r => {| r with commit_index_ := adopt |}) n else n.

Definition handle_append_entries (m : RaftMsg) (prev_log_index prev_log_term leader_commit : Z)
  (entries : list LogEntry) (n : node) : node :=
  if m_term m <? current_term_ n then send_to (m_source m) (current_term_ n) (AppendEntriesResp false 0) n
  else
    let n := arm_election_deadline (set_leader_hint (m_source m) (set_role Follower n)) in
    let log_ok := (prev_log_index =? 0) ||
                  ((prev_log_index <=? llen n) && (term_at n prev_log_index =? prev_log_term)) in
    if negb log_ok then send_to (m_source m) (current_term_ n) (AppendEntriesResp false 0) n
    else
      let n := clear_watermark (merge_entries prev_log_index entries n) in
      let last_new := prev_log_index + Zlen entries in
      let adopt := if leader_commit <? last_new then leader_commit else last_new in
      let n := apply_and_maybe_snapshot (adopt_commit adopt n) in
      send_to (m_source m) (current_term_ n) (AppendEntriesResp true last_new) n.

Definition handle_append_entries_resp (m : RaftMsg) (success : bool) (match_index : Z) (n : node) : node :=
  if negb (bool_decide (role_ n = Leader)) || negb (m_term m =? current_term_ n) then n
  else
    let di := idx_of n (m_source m) in
    if success then
      let n := on_repl (fun r =>
        let mi := if nth di (match_index_ r) 0 <? match_index then <[di := match_index]> (match_index_ r)
                  else match_index_ r in
        {| r with match_index_ := mi; next_index_ := <[di := u64 (nth di mi 0 + 1)]> (next_index_ r) |}) n in
      let n := apply_and_maybe_snapshot (advance_commit_index n) in
      if (nth di (sent_index_ n) 0 <=? nth di (match_index_ n) 0) && (nth di (next_index_ n) 0 <=? llen n)
      then replicate_to (m_source m) n else n
    else
      let ni := nth di (next_index_ n) 0 in
      let n := if 1 <? ni then on_repl (fun r => {| r with next_index_ := <[di := ni - 1]> (next_index_ r) |}) n
               else n in
      replicate_to (m_source m) n.

(** ** Snapshots from the leader *)

Definition handle_install_snapshot (m : RaftMsg) (lii : Z) (state : list LogEntry) (n : node) : node :=
  if m_term m <? current_term_ n then n
  else
    let n := arm_election_deadline (set_leader_hint (m_source m) (set_role Follower n)) in
    let n :=
      if (snap_base_ n <? lii) && (commit_index_ n <? lii) then
        let n := on_raft (fun r => {| r with snap_state_ := state; snap_base_ := lii; applied_index_ := lii;
          commit_index_ := if commit_index_ r <? lii then lii else commit_index_ r; log_ := [] |}) n in
        let n := on_life (fun r => {| r with snapshots_installed_ := u64 (snapshots_installed_ r + 1) |}) n in
        persist_snapshot_full n
      else n in
    let n := clear_watermark n in
    send_to (m_source m) (current_term_ n)
            (InstallSnapshotResp (if lii <? snap_base_ n then snap_base_ n else lii)) n.

Definition handle_install_snapshot_resp (m : RaftMsg) (match_index : Z) (n : node) : node :=
  if negb (bool_decide (role_ n = Leader)) || negb (m_term m =? current_term_ n) then n
  else
    let di := idx_of n (m_source m) in
    let n := on_repl (fun r => {| r with
      match_index_ := if nth di (match_index_ r) 0 <? match_index then <[di := match_index]> (match_index_ r)
                      else match_index_ r;
      next_index_ := <[di := u64 (match_index + 1)]> (next_index_ r) |}) n in
    replicate_to (m_source m) n.

(** ** The loops *)

Definition dispatch (m : RaftMsg) (n : node) : node :=
  let n := maybe_step_down (m_term m) n in
  match m_body m with
  | RequestVote i t c => handle_request_vote m i t c n
  | RequestVoteResp g => handle_vote_response m g n
  | AppendEntries p t c es => handle_append_entries m p t c es n
  | AppendEntriesResp s i => handle_append_entries_resp m s i n
  | InstallSnapshot i st => handle_install_snapshot m i st n
  | InstallSnapshotResp i => handle_install_snapshot_resp m i n
  | ConfigChange i ms => handle_config_change m i ms n
  | ConfigChangeResp i => handle_config_change_resp m i n
  end.

(** One delivery of [recv_loop]. *)
Definition recv (bytes : list byte) (n : node) : node :=
  if negb (running_ n) then n
  else if negb (recovered_ n) then n
  else
    match decode bytes with
    | Decoded m => if (m_dest m =? self_ n) && (m_token m =? cluster_token_ n) then dispatch m n else n
    | _ => n
    end.

(** One wake of [timer_loop], at time [now n]. *)
Definition timer_turn (n : node) : node :=
  if negb (running_ n) then n
  else if negb (recovered_ n) then n
  else if bool_decide (role_ n = Leader) then
    let pending := repl_pending_ n in
    let n := on_repl (fun r => {| r with repl_kicked_ := false; repl_pending_ := false |}) n in
    let n := if pending then broadcast_append n else n in
    if heartbeat_deadline_ n <=? now n then
      let n := broadcast_append n in
      let n := if cfg_committed_idx_ n <? cfg_idx_ n then broadcast_config_change n else n in
      on_life (fun r => {| r with heartbeat_deadline_ := now n + heartbeat_interval (cfg_ n) |}) n
    else n
  else if election_deadline_ n <=? now n then on_election_timeout n else n.

Definition timer_step (n : node) : Z :=
  let s := Z.quot (heartbeat_interval (cfg_ n)) 2 in if s <? 1 then 1 else s.

(** One turn of [persist_worker]: append a record, or sync, or retire. *)
Definition persist_turn (r : rng) (n : node) (d : disk) : node * disk * rng :=
  match write_queue_ n with
  | rec :: q =>
      let n := on_pipe (fun p => {| p with write_queue_ := q |}) n in
      let '(_, _, d, r) := Disk.append (rec_bytes rec) r d in (n, d, r)
  | [] =>
      if want_sync_ n then
        let n := on_pipe (fun p => {| p with want_sync_ := false |}) n in
        let '(_, d, r) := Disk.sync r d in (advance_n1_self_commit n, d, r)
      else (on_pipe (fun p => {| p with worker_running_ := false |}) n, d, r)
  end.

(** ** Clients *)

Definition submit (value : list byte) (n : node) : SubmitResult * node :=
  if negb (running_ n) || negb (bool_decide (role_ n = Leader)) then
    (mkSubmit false 0 0 (leader_hint_ n), n)
  else
    let e := mkEntry (current_term_ n) value in
    let n := append_entry e n in
    let idx := llen n in
    let n := on_repl (fun r => {| r with match_index_ := <[self_idx n := idx]> (match_index_ r) |}) n in
    let n := persist_entry idx e n in
    let res := mkSubmit true (current_term_ n) idx 0 in
    let n := on_repl (fun r => {| r with repl_pending_ := true |}) n in
    if repl_kicked_ n then (res, n)
    else
      let n := on_repl (fun r => {| r with repl_kicked_ := true |}) n in
      let n := broadcast_append n in
      (res, on_repl (fun r => {| r with repl_pending_ := false |}) n).

(** ** Lifecycle *)

(** [start] and [restart] spawn the recovery task and the loops, which do
    nothing until [recovered_] is set. *)
Definition start (n : node) : node :=
  if running_ n then n else on_life (fun r => {| r with running_ := true; recovered_ := false |}) n.

Definition crash (n : node) : node :=
  let zero := map (fun _ : Z => 0) in
  let n := on_life (fun r => {| r with running_ := false; recovered_ := false; gen_ := u64 (gen_ r + 1);
                                       leader_hint_ := kNoLeader |}) n in
  let n := on_raft (fun _ => initial_raft) n in
  let n := on_repl (fun r => mkReplication (zero (next_index_ r)) (zero (match_index_ r)) (sent_index_ r)
                                           false false) n in
  let n := on_mem (fun r => mkMembership (init_config_chain (cfg_ n)) 0 0 (zero (cfg_adopted_ r))) n in
  on_pipe (fun _ => mkPipeline [] false false) n.

Definition restart (n : node) : node :=
  let n := on_life (fun r => {| r with running_ := true; recovered_ := false; gen_ := u64 (gen_ r + 1);
                                       leader_hint_ := kNoLeader |}) n in
  on_raft (fun r => {| r with role_ := Follower; commit_index_ := 0; snap_base_ := 0; snap_state_ := [];
                              snap_persisted_base_ := 0; applied_index_ := 0; votes_granted_ := [] |}) n.

(** ** Recovery *)

(** The locals of [recover_task]. *)
Record replayed := mkReplayed {
  rec_term : Z;
  rec_vote : Z;
  rec_log : list LogEntry;
  rec_base : Z;
  rec_state : list LogEntry;
  rec_chain : list (list Z);
  rec_cfg_idx : Z;
  rec_have_cfg : bool;
  rec_any : bool;
  rec_repair_to : Z
}.

(** The suffix above a new base. *)
Definition kept_suffix (base : Z) (s : replayed) : list LogEntry :=
  if base <? rec_base s + Zlen (rec_log s) then drop (Z.to_nat (base - rec_base s)) (rec_log s) else [].

(** The body of the replay loop for one record: the new locals, and whether the
    loop goes on ([false] is [break]). *)
Definition replay_meta (r : Reader.t) (s : replayed) : replayed * bool :=
  let '(t, r) := Reader.u64 r in
  let '(v, r) := Reader.u64 r in
  ({| s with rec_term := t; rec_vote := v |}, Reader.good r).

Definition replay_entry (r : Reader.t) (s : replayed) : replayed * bool :=
  let '(index, r) := Reader.u64 r in
  let '(e, r) := Reader.entry r in
  if negb (Reader.good r) then (s, false)
  else if negb (index =? rec_base s + Zlen (rec_log s) + 1) then (s, false)
  else ({| s with rec_log := rec_log s ++ [e] |}, true).

Definition replay_trunc (r : Reader.t) (s : replayed) : replayed * bool :=
  let '(new_len, r) := Reader.u64 r in
  if (rec_base s + Zlen (rec_log s) <? new_len) || (new_len <? rec_base s) then (s, false)
  else ({| s with rec_log := take (Z.to_nat (new_len - rec_base s)) (rec_log s) |}, Reader.good r).

Definition replay_snapshot (r : Reader.t) (len : Z) (s : replayed) : replayed * bool :=
  let '(lii, r) := Reader.u64 r in
  match get_vector Reader.entry len r with
  | None => (s, false)
  | Some (st, r) =>
      if negb (Reader.good r) || (lii <? rec_base s) || negb (Zlen st =? lii) then (s, false)
      else ({| s with rec_base := lii; rec_state := st; rec_log := kept_suffix lii s |}, true)
  end.

Definition replay_delta (r : Reader.t) (len : Z) (s : replayed) : replayed * bool :=
  let '(from_base, r) := Reader.u64 r in
  let '(to_base, r) := Reader.u64 r in
  let '(count, r) := Reader.u32 r in
  if negb (Reader.good r) || (len <? count) || negb (from_base =? rec_base s) || (to_base <? from_base) ||
     negb (count =? to_base - from_base) then (s, false)
  else
    let '(add, r) := Reader.many Reader.entry (Z.to_nat count) r in
    if negb (Reader.good r) then (s, false)
    else ({| s with rec_state := rec_state s ++ add; rec_base := to_base; rec_log := kept_suffix to_base s |}, true).

Definition replay_config (r : Reader.t) (len : Z) (s : replayed) : replayed * bool :=
  let '(cidx, r) := Reader.u64 r in
  match get_vector Reader.u64 len r with
  | None => (s, false)
  | Some (members, r) =>
      if negb (Reader.good r) || (cidx =? 0) || (Zlen (rec_chain s) <? cidx) then (s, false)
      else
        let chain := if Zlen (rec_chain s) <=? cidx then resize (Z.to_nat (cidx + 1)) [] (rec_chain s)
                     else rec_chain s in
        ({| s with rec_chain := <[Z.to_nat cidx := members]> chain;
                   rec_cfg_idx := if rec_cfg_idx s <? cidx then cidx else rec_cfg_idx s;
                   rec_have_cfg := true |}, true)
  end.

Definition replay_record (body : list byte) (s : replayed) : replayed * bool :=
  let len := Zlen body in
  let '(kind, r) := Reader.u8 (Reader.mk body true) in
  let '(s, ok) :=
    if kind =? 1 then replay_meta r s
    else if kind =? 2 then replay_entry r s
    else if kind =? 3 then replay_trunc r s
    else if kind =? 4 then replay_snapshot r len s
    else if kind =? 6 then replay_delta r len s
    else if kind =? 5 then replay_config r len s
    else (s, false) in
  if ok then ({| s with rec_any := true |}, true) else (s, false).

(** Read one frame: its stored checksum, length and body. *)
Definition read_frame (off : nat) (r : rng) (d : disk) : option (Z * list byte) * rng :=
  let '(he, head, r) := Disk.read off 8 r d in
  if negb (err_ok he) then (None, r)
  else
    let '(crc, h) := Reader.u32 (Reader.mk head true) in
    let '(len, h) := Reader.u32 h in
    if negb (Reader.good h) || (len =? 0) || (2 ^ 20 <? len) then (None, r)
    else
      let '(be, body, r) := Disk.read (off + 8) (Z.to_nat len) r d in
      if negb (err_ok be) then (None, r) else (Some (crc, body), r).

(** The scan past a corrupt record for the highest ENTRY index. *)
Fixpoint scan_repair (fuel : nat) (off : nat) (r : rng) (d : disk) (best : Z) : Z * rng :=
  match fuel with
  | O => (best, r)
  | S fuel =>
      let '(f, r) := read_frame off r d in
      match f with
      | None => (best, r)
      | Some (crc, body) =>
          if negb (Wire.crc32 body =? crc) then (best, r)
          else
            let '(kind, c) := Reader.u8 (Reader.mk body true) in
            let best :=
              if kind =? 2 then
                let '(sindex, c) := Reader.u64 c in
                if Reader.good c && (best <? sindex) then sindex else best
              else best in
            scan_repair fuel (off + 8 + length body) r d best
      end
  end.

(** The replay loop. Each turn passes a frame of at least nine bytes, so the
    device's length bounds the number of turns. *)
Fixpoint replay (fuel : nat) (off : nat) (r : rng) (d : disk) (s : replayed) : replayed * rng :=
  match fuel with
  | O => (s, r)
  | S fuel =>
      let '(f, r) := read_frame off r d in
      match f with
      | None => (s, r)
      | Some (crc, body) =>
          if negb (Wire.crc32 body =? crc) then
            let '(best, r) := scan_repair fuel (off + 8 + length body) r d (rec_repair_to s) in
            ({| s with rec_repair_to := best |}, r)
          else
            let '(s, go) := replay_record body s in
            if go then replay fuel (off + 8 + length body) r d s else (s, r)
      end
  end.

Definition replay_start (n : node) : replayed :=
  mkReplayed (current_term_ n) (voted_for_ n) [] 0 [] (init_config_chain (cfg_ n)) 0 false false 0.

(** What [recover_task] does with the replayed locals. *)
Definition adopt_replayed (s : replayed) (n : node) : node :=
  let n :=
    if rec_any s then
      on_raft (fun r => {| r with current_term_ := rec_term s; voted_for_ := rec_vote s; snap_base_ := rec_base s;
        snap_state_ := rec_state s; snap_persisted_base_ := rec_base s; log_ := rec_log s;
        applied_index_ := rec_base s |}) n
    else n in
  let n := on_raft (fun r => {| r with
    repair_watermark_ := if snap_base_ r + Zlen (log_ r) <? rec_repair_to s then rec_repair_to s else 0 |}) n in
  let idx := if rec_have_cfg s then rec_cfg_idx s else 0 in
  let n := on_mem (fun _ => mkMembership (rec_chain s) idx idx (replicate (length (cluster (cfg_ n))) 0)) n in
  on_life (fun r => {| r with recovered_ := true |}) (arm_election_deadline n).

Definition recover (r : rng) (d : disk) (n : node) : node * rng :=
  if negb (has_disk n) then (n, r)
  else let '(s, r) := replay (S (logical_len d)) 0 r d (replay_start n) in (adopt_replayed s n, r).
