(* ===== verification/RaftDurable.v ===== *)
(** RaftDurable: the durable side of [RaftNodeA]: the records a handler queues,
    replayed, give the state the handler left; a device that kept a prefix of the
    record stream recovers the state at that point. *)

From Stdlib Require Import ZArith Lia.
From stdpp Require Import base list numbers relations.
From S2P Require Import Prelude Codec Core Disk Consensus RaftWire RaftNode.

(** ** Records as replay reads them *)

(** The body a record is framed around. *)
Definition rec_body (r : Rec) : list byte :=
  match r with
  | RMeta t v => Wire.put_u8 1 ++ Wire.put_u64 t ++ Wire.put_u64 v
  | REntry i e => Wire.put_u8 2 ++ Wire.put_u64 i ++ put_entry e
  | RTrunc k => Wire.put_u8 3 ++ Wire.put_u64 k
  | RSnapshot i st => Wire.put_u8 4 ++ Wire.put_u64 i ++ put_vector put_entry st
  | RConfig i ms => Wire.put_u8 5 ++ Wire.put_u64 i ++ put_vector Wire.put_u64 ms
  | RSnapshotDelta f t d => Wire.put_u8 6 ++ Wire.put_u64 f ++ Wire.put_u64 t ++ put_vector put_entry d
  end.

(** The fields fit their widths and the body is one replay accepts. *)
Definition rec_wf (r : Rec) : Prop :=
  match r with
  | RMeta t v => word t /\ word v
  | REntry i e => word i /\ entry_wf e
  | RTrunc k => word k
  | RSnapshot i st => word i /\ Forall entry_wf st
  | RConfig i ms => word i /\ Forall word ms
  | RSnapshotDelta f t d => word f /\ word t /\ Forall entry_wf d
  end /\ Zlen (rec_body r) <= 2 ^ 20.

(** The effect of a record on the replayed locals. *)
Definition replay_rec (r : Rec) (s : replayed) : option replayed :=
  match r with
  | RMeta t v => Some {| s with rec_term := t; rec_vote := v |}
  | REntry i e =>
      if i =? rec_base s + Zlen (rec_log s) + 1 then Some {| s with rec_log := rec_log s ++ [e] |} else None
  | RTrunc k =>
      if (rec_base s + Zlen (rec_log s) <? k) || (k <? rec_base s) then None
      else Some {| s with rec_log := take (Z.to_nat (k - rec_base s)) (rec_log s) |}
  | RSnapshot i st =>
      if (i <? rec_base s) || negb (Zlen st =? i) then None
      else Some {| s with rec_base := i; rec_state := st; rec_log := kept_suffix i s |}
  | RConfig i ms =>
      if (i =? 0) || (Zlen (rec_chain s) <? i) then None
      else
        let chain := if Zlen (rec_chain s) <=? i then resize (Z.to_nat (i + 1)) [] (rec_chain s) else rec_chain s in
        Some {| s with rec_chain := <[Z.to_nat i := ms]> chain;
                       rec_cfg_idx := if rec_cfg_idx s <? i then i else rec_cfg_idx s; rec_have_cfg := true |}
  | RSnapshotDelta f t d =>
      if negb (f =? rec_base s) || (t <? f) || negb (Zlen d =? t - f) then None
      else Some {| s with rec_state := rec_state s ++ d; rec_base := t; rec_log := kept_suffix t s |}
  end.

Definition mark_any (s : replayed) : replayed := {| s with rec_any := true |}.

Lemma rec_bytes_body r : rec_bytes r = Wire.frame_record (rec_body r).
Proof. by destruct r. Qed.

Lemma vector_small {A} (p : A -> list byte) l a len :
  (forall x, 0 < length (p x))%nat -> Zlen (a ++ put_vector p l) <= len -> len <= 2 ^ 20 ->
  Zlen l <= len /\ Zlen l < 2 ^ 32.
Proof. intros Hp Hl Hm. pose proof (vector_count p l a [] Hp) as Hc. rewrite app_nil_r in Hc. lia. Qed.

(** Replaying the body of a record has the record's effect. *)
Lemma replay_record_body r s :
  rec_wf r -> replay_record (rec_body r) s =
  match replay_rec r s with Some s' => (mark_any s', true) | None => (s, false) end.
Proof.
  intros [Hwf Hlen]. unfold replay_record. set (len := Zlen (rec_body r)) in *.
  destruct r as [t v|i e|k|i st|i ms|f t d]; cbn [rec_body replay_rec] in *; rewrite Reader.u8_put.
  - change (1 mod 256) with 1. cbn [Z.eqb Pos.eqb]. destruct Hwf as [H1 H2]. unfold replay_meta.
    rewrite reads_u64, <- (app_nil_r (Wire.put_u64 v)), reads_u64 by done. done.
  - change (2 mod 256) with 2. cbn [Z.eqb Pos.eqb]. destruct Hwf as [H1 H2]. unfold replay_entry.
    rewrite reads_u64, <- (app_nil_r (put_entry e)), reads_entry by done. cbn [Reader.good negb].
    by destruct (i =? _).
  - change (3 mod 256) with 3. cbn [Z.eqb Pos.eqb]. unfold replay_trunc.
    rewrite <- (app_nil_r (Wire.put_u64 k)), reads_u64 by done. cbn [Reader.good]. by destruct (_ || _).
  - change (4 mod 256) with 4. cbn [Z.eqb Pos.eqb]. destruct Hwf as [H1 H2]. unfold replay_snapshot.
    rewrite reads_u64 by done.
    destruct (vector_small put_entry st (Wire.put_u8 4 ++ Wire.put_u64 i) len entry_nonempty (Z.le_refl _) Hlen) as [Hc Hc'].
    rewrite <- (app_nil_r (put_vector put_entry st)), (reads_vector _ _ entry_wf) by (done || apply reads_entry).
    cbn [Reader.good negb orb]. by destruct (_ || _).
  - change (5 mod 256) with 5. cbn [Z.eqb Pos.eqb]. destruct Hwf as [H1 H2]. unfold replay_config.
    rewrite reads_u64 by done.
    destruct (vector_small Wire.put_u64 ms (Wire.put_u8 5 ++ Wire.put_u64 i) len word_nonempty (Z.le_refl _) Hlen) as [Hc Hc'].
    rewrite <- (app_nil_r (put_vector Wire.put_u64 ms)), (reads_vector _ _ word) by (done || apply reads_u64).
    cbn [Reader.good negb orb]. by destruct (_ || _).
  - change (6 mod 256) with 6. cbn [Z.eqb Pos.eqb]. destruct Hwf as (H1 & H2 & H3). unfold replay_delta.
    rewrite !reads_u64 by done.
    destruct (vector_small put_entry d (Wire.put_u8 6 ++ Wire.put_u64 f ++ Wire.put_u64 t) len entry_nonempty
                (Z.le_refl _) Hlen) as [Hc Hc'].
    unfold put_vector at 1. rewrite Reader.u32_put. pose proof (Zlen_nonneg d).
    rewrite !u32_id by (rewrite ?u32_id; lia). cbn [Reader.good negb orb].
    rewrite (proj2 (Z.ltb_ge _ _) Hc). cbn [orb]. destruct (_ || _ || _); [done|].
    unfold Zlen. rewrite Nat2Z.id, <- (app_nil_r (flat_map put_entry d)), (reads_many _ _ entry_wf); [done|apply reads_entry|done].
Qed.

(** ** The record stream on the device *)

Definition stream (rs : list Rec) : list byte := flat_map rec_bytes rs.

Definition replay_step (r : Rec) (s : replayed) : option replayed := option_map mark_any (replay_rec r s).

Fixpoint replay_recs (rs : list Rec) (s : replayed) : option replayed :=
  match rs with
  | [] => Some s
  | r :: rs' => s' ← replay_step r s; replay_recs rs' s'
  end.

Lemma replay_recs_app rs rs' s : replay_recs (rs ++ rs') s = (s' ← replay_recs rs s; replay_recs rs' s').
Proof. revert s. induction rs as [|r rs IH]; intros s; [done|]. cbn. destruct (replay_step r s); [apply IH|done]. Qed.

Lemma replay_one r s : replay_recs [r] s = replay_step r s.
Proof. cbn. by destruct (replay_step r s). Qed.

Lemma rec_body_nonempty r : (0 < length (rec_body r))%nat.
Proof. destruct r; cbn; lia. Qed.

Lemma length_rec_bytes r : length (rec_bytes r) = (8 + length (rec_body r))%nat.
Proof. rewrite rec_bytes_body. by rewrite Wire.frame_record_codec, !length_app, !length_put_u32. Qed.

(** The header of a frame of the device. *)
Lemma read_frame_header d off crc len rest :
  rotted_offsets d = [] -> (off + 8 <= logical_len d)%nat -> 0 <= crc < 2 ^ 32 -> 0 <= len < 2 ^ 32 ->
  drop off (image_of d) = Wire.put_u32 crc ++ Wire.put_u32 len ++ rest ->
  read_frame off [] d =
  if (len =? 0) || (2 ^ 20 <? len) then (None, [])
  else
    let '(be, body, r) := Disk.read (off + 8) (Z.to_nat len) [] d in
    if negb (err_ok be) then (None, r) else (Some (crc, body), r).
Proof.
  intros Hr Hle Hc Hl Hd. unfold read_frame. rewrite read_honest, Hd by done. cbn [err_ok code ok_error negb].
  rewrite (app_assoc (Wire.put_u32 crc)), take_app_le, take_ge by (cbn; lia).
  rewrite Reader.u32_put, <- (app_nil_r (Wire.put_u32 len)), Reader.u32_put. cbn [Reader.good negb orb].
  by rewrite !u32_id by done.
Qed.

Lemma body_word r : rec_wf r -> 0 < Zlen (rec_body r) <= 2 ^ 20.
Proof. intros [_ H]. pose proof (rec_body_nonempty r). unfold Zlen in *. lia. Qed.

Lemma rec_bytes_header r :
  rec_bytes r = Wire.put_u32 (Wire.crc32 (rec_body r)) ++ Wire.put_u32 (u32 (Zlen (rec_body r))) ++ rec_body r.
Proof. by rewrite rec_bytes_body, Wire.frame_record_codec, !Wire.put_u32_codec. Qed.

Lemma drop_image d a b : image_of d = a ++ b -> drop (length a) (image_of d) = b.
Proof. intros ->. apply drop_app_length. Qed.

Lemma read_frame_whole d a r b :
  rotted_offsets d = [] -> rec_wf r -> image_of d = a ++ rec_bytes r ++ b ->
  read_frame (length a) [] d = (Some (Wire.crc32 (rec_body r), rec_body r), []).
Proof.
  intros Hr Hwf Hd. pose proof (body_word r Hwf) as Hb. pose proof (length_image d) as Hlen.
  rewrite Hd, !length_app, length_rec_bytes in Hlen. pose proof (drop_image _ _ _ Hd) as Hdrop.
  rewrite rec_bytes_header in Hdrop. rewrite u32_id in Hdrop by lia. rewrite <- !app_assoc in Hdrop.
  rewrite (read_frame_header d (length a) _ (Zlen (rec_body r)) _ Hr ltac:(lia) (crc32_word _) ltac:(lia) Hdrop).
  rewrite (proj2 (Z.eqb_neq _ _)), (proj2 (Z.ltb_ge _ _)) by lia. cbn [orb].
  rewrite read_honest by (unfold Zlen in *; done || lia). cbn [err_ok code ok_error negb].
  rewrite <- drop_drop, Hdrop. rewrite (app_assoc (Wire.put_u32 _)), drop_app_ge by (cbn; lia).
  cbn [length Wire.put_u32 app Nat.sub]. rewrite drop_0. unfold Zlen. by rewrite Nat2Z.id, take_app_length.
Qed.

Lemma read_short d off want :
  rotted_offsets d = [] -> (logical_len d < off + want)%nat -> err_ok (Disk.read off want [] d).1.1 = false /\
  (Disk.read off want [] d).2 = [].
Proof.
  intros Hr Hlt. unfold Disk.read, fill_read, chance, draw_latency, uniform_range. cbn [draw negb Z.eqb].
  rewrite (proj2 (Nat.ltb_lt _ _) Hlt), orb_true_r. done.
Qed.

(** A frame cut before its end is not read. *)
Lemma read_frame_cut d a r k :
  rotted_offsets d = [] -> rec_wf r -> (k < length (rec_bytes r))%nat -> image_of d = a ++ take k (rec_bytes r) ->
  read_frame (length a) [] d = (None, []).
Proof.
  intros Hr Hwf Hk Hd. pose proof (body_word r Hwf) as Hb. pose proof (length_image d) as Hlen.
  rewrite Hd, length_app, length_take_le in Hlen by lia. rewrite length_rec_bytes in Hk.
  destruct (decide (k < 8)%nat) as [Hlt|Hge].
  - unfold read_frame. destruct (read_short d (length a) 8 Hr ltac:(lia)) as [H1 H2].
    destruct (Disk.read _ _ _ _) as [[e h] r']. cbn in H1, H2. by rewrite H1, H2.
  - pose proof (drop_image _ _ _ Hd) as Hdrop. rewrite rec_bytes_header, u32_id in Hdrop by lia.
    rewrite app_assoc, take_app_ge in Hdrop by (cbn; lia). rewrite <- app_assoc in Hdrop.
    rewrite (read_frame_header d (length a) _ (Zlen (rec_body r)) _ Hr ltac:(lia) (crc32_word _) ltac:(lia) Hdrop).
    rewrite (proj2 (Z.eqb_neq _ _)), (proj2 (Z.ltb_ge _ _)) by lia. cbn [orb].
    destruct (read_short d (length a + 8) (Z.to_nat (Zlen (rec_body r))) Hr ltac:(unfold Zlen; lia)) as [H1 H2].
    destruct (Disk.read _ _ _ _) as [[e h] r']. cbn in H1, H2. by rewrite H1, H2.
Qed.

(** A record longer than 1 MiB ends the replay. *)
Lemma read_frame_oversized d a r b :
  rotted_offsets d = [] -> 2 ^ 20 < Zlen (rec_body r) < 2 ^ 32 -> image_of d = a ++ rec_bytes r ++ b ->
  read_frame (length a) [] d = (None, []).
Proof.
  intros Hr Hbig Hd. pose proof (length_image d) as Hlen.
  rewrite Hd, !length_app, length_rec_bytes in Hlen. pose proof (drop_image _ _ _ Hd) as Hdrop.
  rewrite rec_bytes_header, u32_id in Hdrop by lia. rewrite <- !app_assoc in Hdrop.
  rewrite (read_frame_header d (length a) _ (Zlen (rec_body r)) _ Hr ltac:(lia) (crc32_word _) ltac:(lia) Hdrop).
  by rewrite (proj2 (Z.ltb_lt _ _) (proj1 Hbig)), orb_true_r.
Qed.

Lemma read_frame_end d : rotted_offsets d = [] -> read_frame (length (image_of d)) [] d = (None, []).
Proof.
  intros Hr. unfold read_frame. rewrite length_image.
  destruct (read_short d (logical_len d) 8 Hr ltac:(lia)) as [H1 H2].
  destruct (Disk.read _ _ _ _) as [[e h] r']. cbn in H1, H2. by rewrite H1, H2.
Qed.

(** One turn of the loop on a whole record. *)
Lemma replay_turn fuel d a r b s s' :
  rotted_offsets d = [] -> rec_wf r -> image_of d = a ++ rec_bytes r ++ b -> replay_step r s = Some s' ->
  replay (S fuel) (length a) [] d s = replay fuel (length (a ++ rec_bytes r)) [] d s'.
Proof.
  intros Hr Hwf Hd Hs. cbn [replay]. rewrite (read_frame_whole d a r b Hr Hwf Hd), Z.eqb_refl. cbn [negb].
  rewrite (replay_record_body r s Hwf). unfold replay_step in Hs. destruct (replay_rec r s); [|done].
  injection Hs as <-. by rewrite length_app, length_rec_bytes, Nat.add_assoc.
Qed.

(** The first [k] bytes of a stream replay to the records that are whole
    there. *)
Lemma replay_stream rs : forall s s' a k fuel d,
  rotted_offsets d = [] -> Forall rec_wf rs -> replay_recs rs s = Some s' ->
  image_of d = a ++ take k (stream rs) -> (length (image_of d) - length a < fuel)%nat ->
  exists j s'', (j <= length rs)%nat /\ replay_recs (take j rs) s = Some s'' /\
    replay fuel (length a) [] d s = (s'', []) /\
    (j < length rs -> k < length (stream (take (S j) rs)))%nat.
Proof.
  induction rs as [|r rs IH]; intros s s' a k fuel d Hr Hwf Hs Hd Hf; (destruct fuel as [|fuel]; [lia|]).
  - exists 0%nat, s. split_and!; [done|done| |cbn; lia]. cbn [stream flat_map] in Hd.
    rewrite take_nil, app_nil_r in Hd. cbn [replay]. by rewrite <- Hd, read_frame_end.
  - inversion Hwf as [|?? Hw Hws]; subst. cbn [stream flat_map] in Hd.
    destruct (decide (k < length (rec_bytes r))%nat) as [Hlt|Hge].
    + exists 0%nat, s. split_and!; [cbn; lia|done| |intros _; cbn; rewrite app_nil_r; lia].
      rewrite take_app_le in Hd by lia. cbn [replay]. by rewrite (read_frame_cut d a r k Hr Hw Hlt Hd).
    + cbn [replay_recs] in Hs. destruct (replay_step r s) as [s1|] eqn:E1; [|done]. cbn in Hs.
      rewrite take_app_ge in Hd by lia. rewrite (replay_turn fuel d a r _ s s1 Hr Hw Hd E1).
      assert (Hlen : length (image_of d) = (length a + (length (rec_bytes r) + length (take (k - length (rec_bytes r)) (stream rs))))%nat)
        by (rewrite Hd, !length_app; done).
      pose proof (length_rec_bytes r) as Hrb.
      destruct (IH s1 s' (a ++ rec_bytes r) (k - length (rec_bytes r))%nat fuel d) as (j & s'' & Hj & Hrec & Hrep & Hk);
        [done|done|done|by rewrite <- app_assoc|rewrite length_app; lia|].
      exists (S j), s''. split_and!; [cbn; lia| |done|].
      * cbn. by rewrite E1.
      * intros Hlt. cbn in Hlt. change (take (S (S j)) (r :: rs)) with (r :: take (S j) rs).
        cbn [stream flat_map]. rewrite length_app. unfold stream in Hk. lia.
Qed.

(** The whole stream replays every record. *)
Lemma replay_whole rs s s' d :
  rotted_offsets d = [] -> Forall rec_wf rs -> replay_recs rs s = Some s' -> image_of d = stream rs ->
  replay (S (logical_len d)) 0 [] d s = (s', []).
Proof.
  intros Hr Hwf Hs Hd.
  destruct (replay_stream rs s s' [] (length (stream rs)) (S (logical_len d)) d) as (j & s'' & Hj & Hrec & Hrep & Hk);
    [done|done|done|by rewrite take_ge|rewrite <- length_image; cbn; lia|].
  assert (Hjl : j = length rs).
  { destruct (decide (j = length rs)); [done|]. exfalso. specialize (Hk ltac:(lia)).
    rewrite <- (take_drop (S j) rs) in Hk at 1. unfold stream in Hk. rewrite flat_map_app, length_app in Hk. lia. }
  subst j. rewrite take_ge in Hrec by done. cbn [length] in Hrep. rewrite Hrep. congruence.
Qed.

(** ** What a handler writes *)

(** The persistent part of a node, as replay would rebuild it. *)
Definition pst (n : node) : replayed :=
  mkReplayed (current_term_ n) (voted_for_ n) (log_ n) (snap_base_ n) (snap_state_ n) (cfg_chain_ n) (cfg_idx_ n)
             (0 <? cfg_idx_ n) true 0.

Section node.
Context (conf : NodeConfig).

(** What never changes. *)
Definition static (n : node) : Prop :=
  cfg_ n = conf /\ self_ n = self_id conf /\ peers_ n = filter (fun id => id <> self_id conf) (cluster conf) /\
  cluster_token_ n = nc_cluster_token conf.

Record durable_inv (n : node) : Prop := {
  d_disk : has_disk n = true;
  d_state : Zlen (snap_state_ n) = snap_base_ n;
  d_persisted : snap_persisted_base_ n = snap_base_ n;
  d_applied : 0 <= applied_index_ n <= llen n;
  d_commit : 0 <= commit_index_ n <= llen n;
  d_chain : 0 <= cfg_idx_ n /\ Zlen (cfg_chain_ n) = cfg_idx_ n + 1;
  d_static : static n
}.

(** The records queued on the way from [n] to [n'] replay the persistent state
    of [n] to that of [n']. *)
Definition writes (n n' : node) : Prop :=
  exists new, write_queue_ n' = write_queue_ n ++ new /\ replay_recs new (pst n) = Some (pst n').

(** From a state that satisfies the invariant: it still does, and the queue
    accounts for what changed. *)
Definition durable_step (n n' : node) : Prop := durable_inv n -> durable_inv n' /\ writes n n'.

#[global] Instance durable_step_refl : Reflexive durable_step.
Proof. intros n Hn. split; [done|]. exists []. by rewrite app_nil_r. Qed.

#[global] Instance durable_step_trans : Transitive durable_step.
Proof.
  intros n1 n2 n3 H12 H23 Hn. destruct (H12 Hn) as [H2 (a & Ha & Ra)]. destruct (H23 H2) as [H3 (b & Hb & Rb)].
  split; [done|]. exists (a ++ b). rewrite Hb, Ha, app_assoc. split; [done|]. by rewrite replay_recs_app, Ra.
Qed.

(** Steps that touch neither the Raft state, the config chain nor the queue. *)
Record quiet (n n' : node) : Prop := {
  q_raft : raft_ n' = raft_ n;
  q_mem : mem_ n' = mem_ n;
  q_pipe : pipe_ n' = pipe_ n;
  q_disk : has_disk n' = has_disk n;
  q_cfg : cfg_ n' = cfg_ n;
  q_self : self_ n' = self_ n;
  q_token : cluster_token_ n' = cluster_token_ n;
  q_peers : peers_ n' = peers_ n
}.

#[global] Instance quiet_refl : Reflexive quiet.
Proof. by intros n. Qed.

#[global] Instance quiet_trans : Transitive quiet.
Proof. intros a b c [] []. split; congruence. Qed.

Lemma quiet_durable n n' : quiet n n' -> durable_step n n'.
Proof.
  intros [Hr Hm Hp Hd Hc Hse Ht Hpe] [D1 D2 D3 D4 D5 D6 D0]. unfold writes, pst, llen in *. rewrite Hr, Hm, Hp.
  split; [split; unfold llen, static in *; rewrite ?Hr, ?Hm, ?Hd, ?Hc, ?Hse, ?Ht, ?Hpe; done|]. exists []. by rewrite app_nil_r.
Qed.

Lemma arm_quiet n : quiet n (arm_election_deadline n).
Proof. unfold arm_election_deadline. by destruct (uniform_range _ _ _). Qed.

Lemma send_quiet d t b n : quiet n (send_to d t b n).
Proof. done. Qed.

Lemma repl_quiet f n : quiet n (on_repl f n).
Proof. done. Qed.

Lemma life_quiet f n : quiet n (on_life f n).
Proof. done. Qed.

Lemma replicate_quiet d n : quiet n (replicate_to d n).
Proof. unfold replicate_to. by destruct (_ <? snap_base_ n). Qed.

Lemma fold_quiet {A} (f : node -> A -> node) l n : (forall n x, quiet n (f n x)) -> quiet n (fold_left f l n).
Proof.
  intros Hf. revert n. induction l as [|x l IH]; intros n; [done|]. cbn. transitivity (f n x); [apply Hf|apply IH].
Qed.

Lemma broadcast_quiet n : quiet n (broadcast_append n).
Proof. unfold broadcast_append. destruct (negb _); [done|]. apply fold_quiet. intros. apply replicate_quiet. Qed.

Lemma broadcast_config_quiet n : quiet n (broadcast_config_change n).
Proof.
  unfold broadcast_config_change. destruct (_ || _); [done|]. apply fold_quiet. intros n' x. by destruct (_ || _).
Qed.

(** Steps that change only what is not persistent. *)
Lemma soft_durable (f : raft -> raft) (n : node) :
  current_term_ (f n) = current_term_ n -> voted_for_ (f n) = voted_for_ n -> log_ (f n) = log_ n ->
  snap_base_ (f n) = snap_base_ n -> snap_state_ (f n) = snap_state_ n ->
  snap_persisted_base_ (f n) = snap_persisted_base_ n ->
  (durable_inv n -> 0 <= applied_index_ (f n) <= llen n /\ 0 <= commit_index_ (f n) <= llen n) ->
  durable_step n (on_raft f n).
Proof.
  intros H1 H2 H3 H4 H5 H6 H7 Hn. destruct (H7 Hn) as [H8 H9]. destruct Hn as [D1 D2 D3 D4 D5 D6 D0].
  unfold writes, pst, llen in *. cbn [raft_ mem_ pipe_ on_raft] in *. rewrite H1, H2, H3, H4, H5.
  split; [|exists []; by rewrite app_nil_r].
  split; unfold llen; cbn [raft_ mem_ has_disk on_raft]; rewrite ?H3, ?H4, ?H5, ?H6; done.
Qed.

Lemma set_role_durable x n : durable_step n (set_role x n).
Proof. apply soft_durable; try done. intros []. done. Qed.

(** A change of term or vote followed by its two records. *)
Lemma meta_durable (f : raft -> raft) (n : node) :
  log_ (f n) = log_ n -> snap_base_ (f n) = snap_base_ n -> snap_state_ (f n) = snap_state_ n ->
  snap_persisted_base_ (f n) = snap_persisted_base_ n -> applied_index_ (f n) = applied_index_ n ->
  commit_index_ (f n) = commit_index_ n ->
  durable_step n (persist_meta (on_raft f n)).
Proof.
  intros H3 H4 H5 H6 H7 H8 [D1 D2 D3 D4 D5 D6 D0]. unfold persist_meta, enqueue_durable.
  cbn [has_disk on_raft on_pipe]. rewrite D1. cbn [has_disk on_raft on_pipe]. rewrite D1. split.
  - split; unfold llen in *; cbn; rewrite ?H3, ?H4, ?H5, ?H6, ?H7, ?H8; done.
  - exists [RMeta (current_term_ (f n)) (voted_for_ (f n)); RMeta (current_term_ (f n)) (voted_for_ (f n))].
    split; [cbn; by rewrite <- app_assoc|]. unfold pst. cbn. by rewrite H3, H4, H5.
Qed.

(** An appended entry followed by its record. *)
Lemma append_durable e n :
  durable_step n (let n := append_entry e n in persist_entry (llen n) e n).
Proof.
  intros [D1 D2 D3 D4 D5 D6 D0]. unfold persist_entry, enqueue_durable. cbn [has_disk append_entry on_raft].
  rewrite D1. split.
  - split; unfold llen in *; cbn in *; rewrite ?Zlen_app; cbn; try done; unfold Zlen in *; cbn; lia.
  - exists [REntry (llen (append_entry e n)) e]. split; [done|]. rewrite replay_one. unfold pst, replay_step, llen. cbn.
    rewrite (proj2 (Z.eqb_eq _ _)); [done|]. rewrite Zlen_app. unfold Zlen. cbn. lia.
Qed.

Lemma append_all_durable es n : durable_step n (append_all es n).
Proof.
  unfold append_all. revert n. induction es as [|e es IH]; intros n; [done|]. cbn.
  etransitivity; [apply append_durable|apply IH].
Qed.

(** A truncation above the snapshot followed by its record. *)
Lemma trunc_durable keep n :
  (durable_inv n -> snap_base_ n <= keep <= llen n /\ applied_index_ n <= keep /\ commit_index_ n <= keep) ->
  durable_step n (persist_trunc keep (truncate_to keep n)).
Proof.
  intros Hk Hn. destruct (Hk Hn) as (H1 & H2 & H3). destruct Hn as [D1 D2 D3 D4 D5 D6 D0].
  unfold persist_trunc, enqueue_durable, truncate_to. cbn [has_disk on_raft]. rewrite D1.
  unfold llen in *. pose proof (Zlen_nonneg (log_ n)).
  assert (Hlog : log_ (truncate_to keep n) = take (Z.to_nat (keep - snap_base_ n)) (log_ n)).
  { unfold truncate_to. cbn. rewrite (proj2 (Z.ltb_ge _ _)) by lia. unfold resize.
    replace (Z.to_nat _ - _)%nat with 0%nat by (unfold Zlen in *; lia). by rewrite app_nil_r. }
  assert (Hlen : Zlen (take (Z.to_nat (keep - snap_base_ n)) (log_ n)) = keep - snap_base_ n)
    by (unfold Zlen in *; rewrite length_take; lia).
  unfold truncate_to in Hlog. cbn in Hlog. split.
  - split; unfold llen; cbn; try done; rewrite Hlog, Hlen; lia.
  - exists [RTrunc keep]. split; [done|]. rewrite replay_one. unfold pst, replay_step. cbn. rewrite Hlog.
    by rewrite !(proj2 (Z.ltb_ge _ _)) by lia.
Qed.

(** Folding the applied prefix into the snapshot, with its delta record. *)
Lemma take_snapshot_durable n : durable_step n (take_snapshot n).
Proof.
  unfold take_snapshot. destruct (applied_index_ n <=? snap_base_ n) eqn:Ea; [done|].
  intros [D1 D2 D3 D4 D5 D6 D0]. unfold llen in *. pose proof (Zlen_nonneg (log_ n)).
  set (k := Z.to_nat (applied_index_ n - snap_base_ n)).
  assert (Hk : (k <= length (log_ n))%nat) by (unfold k, Zlen in *; lia).
  assert (Hz : Zlen (take k (log_ n)) = applied_index_ n - snap_base_ n)
    by (unfold Zlen; rewrite length_take; unfold k, Zlen in *; lia).
  assert (Hs : drop (Z.to_nat (snap_base_ n)) (snap_state_ n ++ take k (log_ n)) = take k (log_ n)).
  { rewrite <- D2. unfold Zlen. by rewrite Nat2Z.id, drop_app_length. }
  unfold persist_snapshot. cbn [on_raft on_life raft_ snap_base_ snap_persisted_base_ snap_state_]. rewrite D3, Ea.
  unfold enqueue_durable. cbn [has_disk on_raft on_life]. rewrite D1. split.
  - split; unfold llen; cbn; try done; rewrite ?Zlen_app; unfold Zlen in *; rewrite ?length_drop; lia.
  - exists [RSnapshotDelta (snap_base_ n) (applied_index_ n) (take k (log_ n))]. cbn [write_queue_ pipe_ on_pipe on_raft].
    rewrite Hs. split; [done|]. rewrite replay_one. unfold pst, replay_step. cbn.
    rewrite Z.eqb_refl, Hz, Z.eqb_refl, (proj2 (Z.ltb_ge _ _)) by lia. cbn. unfold mark_any. cbn. do 2 f_equal.
    unfold kept_suffix. cbn. fold k. destruct (_ <? _) eqn:El; [done|]. rewrite drop_ge; [done|].
    unfold k, Zlen in *. lia.
Qed.

Lemma apply_durable n : durable_step n (apply_and_maybe_snapshot n).
Proof.
  unfold apply_and_maybe_snapshot. etransitivity; [|destruct (_ && _); [apply take_snapshot_durable|reflexivity]].
  destruct (_ <? _); [|reflexivity]. apply soft_durable; try done. intros []. done.
Qed.

Lemma soft_mem_durable (f : membership -> membership) (n : node) :
  cfg_chain_ (f n) = cfg_chain_ n -> cfg_idx_ (f n) = cfg_idx_ n -> durable_step n (on_mem f n).
Proof.
  intros H1 H2 [D1 D2 D3 D4 D5 D6 D0]. unfold writes, pst. cbn. rewrite H1, H2.
  split; [|exists []; by rewrite app_nil_r]. split; cbn; rewrite ?H1, ?H2; done.
Qed.

Lemma maybe_commit_config_durable n : durable_step n (maybe_commit_config n).
Proof.
  unfold maybe_commit_config. destruct (_ || _); [done|]. destruct (_ <=? _); [done|].
  destruct (_ <? _)%nat; [|done]. by apply soft_mem_durable.
Qed.

Lemma maybe_step_down_durable t n : durable_step n (maybe_step_down t n).
Proof.
  unfold maybe_step_down. destruct (_ <? _); [|done].
  etransitivity; [|apply quiet_durable, arm_quiet]. unfold set_leader_hint.
  etransitivity; [apply quiet_durable, (life_quiet (fun r => {| r with leader_hint_ := kNoLeader |}))|].
  by apply (meta_durable (fun r => {| r with current_term_ := t; role_ := Follower; voted_for_ := kNil;
                                             votes_granted_ := [] |})).
Qed.

Lemma become_leader_durable n : durable_step n (become_leader n).
Proof.
  unfold become_leader. etransitivity; [|apply maybe_commit_config_durable].
  etransitivity; [|by destruct (_ <? _); [apply quiet_durable, broadcast_config_quiet|reflexivity]].
  etransitivity; [|apply quiet_durable, broadcast_quiet].
  etransitivity; [|apply quiet_durable, life_quiet].
  etransitivity; [|by apply soft_mem_durable].
  etransitivity; [|apply quiet_durable, repl_quiet].
  etransitivity; [apply (set_role_durable Leader)|apply quiet_durable, life_quiet].
Qed.

Lemma election_timeout_durable n : durable_step n (on_election_timeout n).
Proof.
  unfold on_election_timeout. destruct (negb (running_ n)); [done|].
  destruct (negb (in_current_config _ _)); [apply quiet_durable, arm_quiet|].
  destruct (_ && _); [apply quiet_durable, arm_quiet|].
  set (n1 := arm_election_deadline _).
  assert (H1 : durable_step n n1).
  { unfold n1. etransitivity; [|apply quiet_durable, arm_quiet]. unfold set_leader_hint.
    etransitivity; [apply quiet_durable, (life_quiet (fun r => {| r with leader_hint_ := kNoLeader |}))|].
    by apply (meta_durable (fun r => {| r with current_term_ := u64 (current_term_ r + 1); role_ := Candidate;
                                               voted_for_ := self_ n; votes_granted_ := [self_ n] |})). }
  etransitivity; [exact H1|]. destruct (_ <=? _)%nat; [apply become_leader_durable|].
  apply quiet_durable, fold_quiet. done.
Qed.

Lemma request_vote_durable m i t c n : durable_step n (handle_request_vote m i t c n).
Proof.
  unfold handle_request_vote. destruct (_ <? _); [apply quiet_durable, send_quiet|].
  etransitivity; [|apply quiet_durable, send_quiet]. destruct (_ && _); [|reflexivity].
  etransitivity; [|apply quiet_durable, arm_quiet]. by apply meta_durable.
Qed.

Lemma vote_response_durable m g n : durable_step n (handle_vote_response m g n).
Proof.
  unfold handle_vote_response. destruct (_ || _ || _); [done|]. destruct (existsb _ _); [done|].
  etransitivity; [apply (soft_durable (fun r => {| r with votes_granted_ := votes_granted_ r ++ [m_source m] |}));
    try done; by intros []|].
  destruct (_ <=? _)%nat; [apply become_leader_durable|done].
Qed.

Lemma highest_committable_range n count k c :
  highest_committable n count k = Some c -> k - Z.of_nat count < c <= k.
Proof.
  revert k. induction count as [|count IH]; intros k; [done|]. cbn [highest_committable].
  destruct (negb _); [intros H%IH; lia|]. destruct (_ <=? _)%nat; [intros [= <-]; lia|intros H%IH; lia].
Qed.

Lemma advance_commit_durable n : durable_step n (advance_commit_index n).
Proof.
  unfold advance_commit_index. destruct (negb _); [done|].
  destruct (highest_committable _ _ _) as [k|] eqn:E; [|done]. apply highest_committable_range in E.
  apply soft_durable; try done. intros []. cbn. lia.
Qed.

Lemma append_resp_durable m s i n : durable_step n (handle_append_entries_resp m s i n).
Proof.
  unfold handle_append_entries_resp. destruct (_ || _); [done|]. destruct s.
  - etransitivity; [|by destruct (_ && _); [apply quiet_durable, replicate_quiet|reflexivity]].
    etransitivity; [|apply apply_durable]. etransitivity; [|apply advance_commit_durable]. apply quiet_durable, repl_quiet.
  - etransitivity; [|apply quiet_durable, replicate_quiet]. destruct (_ <? _); [apply quiet_durable, repl_quiet|done].
Qed.

Lemma snapshot_resp_durable m i n : durable_step n (handle_install_snapshot_resp m i n).
Proof.
  unfold handle_install_snapshot_resp. destruct (_ || _); [done|].
  etransitivity; [|apply quiet_durable, replicate_quiet]. apply quiet_durable, repl_quiet.
Qed.

Lemma config_resp_durable m i n : durable_step n (handle_config_change_resp m i n).
Proof.
  unfold handle_config_change_resp. destruct (_ || _); [done|]. etransitivity; [|apply maybe_commit_config_durable].
  destruct (_ <? _); [by apply soft_mem_durable|done].
Qed.

Lemma recognise_durable src n :
  durable_step n (arm_election_deadline (set_leader_hint src (set_role Follower n))).
Proof.
  etransitivity; [|apply quiet_durable, arm_quiet]. etransitivity; [apply (set_role_durable Follower)|].
  apply quiet_durable, life_quiet.
Qed.

Lemma clear_watermark_durable n : durable_step n (clear_watermark n).
Proof. unfold clear_watermark. destruct (_ && _); [|done]. apply soft_durable; try done. by intros []. Qed.

(** *** Handlers with conditions on the message

    The three conditions are what a leader's messages satisfy: an append does not
    conflict with committed entries, a snapshot does not shorten the log, and
    configs are adopted one by one. *)
Definition tracked (m : RaftMsg) (n : node) : Prop :=
  current_term_ n <= m_term m ->
  match m_body m with
  | AppendEntries prev _ c es =>
      0 <= prev /\ 0 <= c /\
      forall k, scan_conflict n (prev + 1) es = Some k -> Z.max (commit_index_ n) (applied_index_ n) <= prev + Z.of_nat k
  | InstallSnapshot lii st =>
      snap_base_ n < lii -> commit_index_ n < lii -> Zlen st = lii /\ llen n <= lii
  | ConfigChange idx _ => idx <= cfg_idx_ n + 1
  | _ => True
  end.

Lemma scan_conflict_some n es : forall pos k,
  scan_conflict n pos es = Some k -> snap_base_ n < pos + Z.of_nat k <= llen n /\ (k < length es)%nat.
Proof.
  induction es as [|e es IH]; intros pos k; [done|]. cbn [scan_conflict].
  destruct (pos <=? snap_base_ n) eqn:E1.
  - destruct (scan_conflict n (pos + 1) es) as [j|] eqn:E; [|done]. intros [= <-]. apply IH in E. cbn [length]. lia.
  - destruct (pos <=? llen n) eqn:E2; [|done]. destruct (_ =? _).
    + destruct (scan_conflict n (pos + 1) es) as [j|] eqn:E; [|done]. intros [= <-]. apply IH in E. cbn [length]. lia.
    + intros [= <-]. cbn [length]. lia.
Qed.

Lemma llen_append_all es n : llen (append_all es n) = llen n + Zlen es.
Proof.
  unfold append_all. revert n. induction es as [|e es IH]; intros n; [unfold Zlen; cbn; lia|]. cbn [fold_left].
  rewrite IH. unfold llen, persist_entry, enqueue_durable, append_entry. cbn [has_disk on_raft].
  destruct (has_disk n); cbn; unfold Zlen; rewrite length_app; cbn; lia.
Qed.

Lemma llen_trunc keep (n : node) :
  snap_base_ n <= keep <= llen n -> llen (persist_trunc keep (truncate_to keep n)) = keep.
Proof.
  intros Hk. unfold persist_trunc, enqueue_durable, truncate_to, llen in *. cbn [has_disk on_raft].
  destruct (has_disk n); cbn; rewrite (proj2 (Z.ltb_ge _ _)) by lia; unfold resize, Zlen in *;
    rewrite length_app, length_take, length_replicate; lia.
Qed.

(** After the merge the log reaches the last entry of the message. *)
Lemma llen_merge prev es n :
  0 <= prev <= llen n -> prev + Zlen es <= llen (merge_entries prev es n).
Proof.
  intros Hp. unfold merge_entries. destruct (scan_conflict n (prev + 1) es) as [k|] eqn:E.
  - apply scan_conflict_some in E as [H1 H2]. rewrite (proj2 (Z.ltb_lt _ _)) by lia.
    rewrite llen_append_all, llen_trunc by lia. unfold Zlen. rewrite length_drop. lia.
  - destruct (_ <? _) eqn:El; [|lia]. rewrite llen_append_all. unfold Zlen in *. rewrite length_drop. lia.
Qed.

Lemma merge_durable prev es n :
  (forall k, scan_conflict n (prev + 1) es = Some k -> Z.max (commit_index_ n) (applied_index_ n) <= prev + Z.of_nat k) ->
  durable_step n (merge_entries prev es n).
Proof.
  intros Hc. unfold merge_entries. destruct (scan_conflict n (prev + 1) es) as [k|] eqn:E.
  - specialize (Hc k eq_refl). apply scan_conflict_some in E as [H1 H2]. rewrite (proj2 (Z.ltb_lt _ _)) by lia.
    etransitivity; [|apply append_all_durable]. apply trunc_durable. lia.
  - destruct (_ <? _); [apply append_all_durable|done].
Qed.

Lemma adopt_commit_durable adopt n : (durable_inv n -> 0 <= adopt <= llen n) -> durable_step n (adopt_commit adopt n).
Proof.
  intros Ha. unfold adopt_commit. destruct (_ <? _); [|done]. apply soft_durable; try done.
  intros Hn. destruct Hn. cbn. split; [done|]. by apply Ha.
Qed.

Lemma recognise_raft src n :
  raft_ (arm_election_deadline (set_leader_hint src (set_role Follower n))) = {| (raft_ n) with role_ := Follower |}.
Proof. unfold arm_election_deadline. by destruct (uniform_range _ _ _). Qed.

Lemma scan_conflict_ext (n n' : node) es : log_ n' = log_ n -> snap_base_ n' = snap_base_ n -> snap_state_ n' = snap_state_ n ->
  forall pos, scan_conflict n' pos es = scan_conflict n pos es.
Proof.
  intros H1 H2 H3. induction es as [|e es IH]; intros pos; [done|]. cbn [scan_conflict]. unfold term_at, llen.
  by rewrite H1, H2, H3, IH.
Qed.

Lemma llen_clear_watermark n : llen (clear_watermark n) = llen n.
Proof. unfold clear_watermark. by destruct (_ && _). Qed.

Lemma append_entries_durable m p t c es n :
  m_body m = AppendEntries p t c es -> tracked m n -> durable_step n (handle_append_entries m p t c es n).
Proof.
  intros Hm Ht. unfold tracked in Ht. rewrite Hm in Ht. unfold handle_append_entries.
  destruct (m_term m <? current_term_ n) eqn:El; [apply quiet_durable, send_quiet|].
  destruct Ht as (Hp & Hc & Hk); [lia|].
  pose proof (recognise_raft (m_source m) n) as Hraft.
  etransitivity; [apply (recognise_durable (m_source m))|]. set (n1 := arm_election_deadline _) in *.
  destruct (negb _) eqn:Eok; [apply quiet_durable, send_quiet|].
  etransitivity; [|apply quiet_durable, send_quiet]. etransitivity; [|apply apply_durable].
  intros Hn1. assert (Hp1 : 0 <= p <= llen n1).
  { apply negb_false_iff, orb_true_iff in Eok as [Eok|Eok]; [|lia]. destruct Hn1 as [_ D2 _ _ _ _ _].
    unfold llen in *. pose proof (Zlen_nonneg (snap_state_ n1)). pose proof (Zlen_nonneg (log_ n1)). lia. }
  assert (Hm1 : durable_step n1 (merge_entries p es n1)).
  { apply merge_durable. intros k Hs. rewrite Hraft. cbn. apply Hk. rewrite <- Hs. symmetry.
    apply scan_conflict_ext; by rewrite Hraft. }
  pose proof (llen_merge p es n1 Hp1) as Hlen.
  assert (Hstep : durable_step n1 (adopt_commit (if c <? p + Zlen es then c else p + Zlen es)
                                    (clear_watermark (merge_entries p es n1)))); [|by apply Hstep].
  etransitivity; [|apply adopt_commit_durable].
  - etransitivity; [exact Hm1|apply clear_watermark_durable].
  - intros _. rewrite llen_clear_watermark. pose proof (Zlen_nonneg es). destruct (c <? _) eqn:E; lia.
Qed.

Lemma install_snapshot_durable m lii st n :
  m_body m = InstallSnapshot lii st -> tracked m n -> durable_step n (handle_install_snapshot m lii st n).
Proof.
  intros Hm Ht. unfold tracked in Ht. rewrite Hm in Ht. unfold handle_install_snapshot.
  destruct (m_term m <? current_term_ n) eqn:El; [done|]. specialize (Ht ltac:(lia)). pose proof (recognise_raft (m_source m) n) as Hraft.
  etransitivity; [apply (recognise_durable (m_source m))|]. set (n1 := arm_election_deadline _) in *.
  etransitivity; [|apply quiet_durable, send_quiet]. etransitivity; [|apply clear_watermark_durable].
  destruct (_ && _) eqn:E; [|done]. apply andb_true_iff in E as [E1 E2].
  destruct Ht as [Hst Hll]; [rewrite Hraft in E1; cbn in E1; lia|rewrite Hraft in E2; cbn in E2; lia|].
  assert (Hll1 : llen n1 <= lii) by (unfold llen in *; by rewrite Hraft).
  intros [D1 D2 D3 D4 D5 D6 D0]. unfold persist_snapshot_full, enqueue_durable. cbn [has_disk on_raft on_life]. rewrite D1.
  pose proof (Zlen_nonneg (log_ n1)). unfold llen in *. cbn [raft_ on_raft on_life snap_base_ snap_state_]. split.
  - split; unfold llen; cbn; try done; change (Zlen []) with 0; pose proof (Zlen_nonneg st); [lia|].
    rewrite E2. lia.
  - exists [RSnapshot lii st]. split; [done|]. rewrite replay_one. unfold pst, replay_step. cbn.
    rewrite (proj2 (Z.ltb_ge lii _)), (proj2 (Z.eqb_eq _ _)) by lia. cbn. unfold mark_any, kept_suffix. cbn.
    by rewrite (proj2 (Z.ltb_ge lii _)) by lia.
Qed.

Lemma resize_one {A} (x : A) (l : list A) y : <[length l := y]> (resize (S (length l)) x l) = l ++ [y].
Proof.
  unfold resize. rewrite take_ge by lia. replace (S (length l) - length l)%nat with 1%nat by lia.
  cbn [replicate]. rewrite <- (Nat.add_0_r (length l)) at 1. by rewrite insert_app_r.
Qed.

(** Extending the chain by one config, with its record. *)
Lemma config_durable members (n : node) :
  let n' := on_mem (fun r => {| r with cfg_chain_ := cfg_chain_ r ++ [members]; cfg_idx_ := cfg_idx_ r + 1 |}) n in
  durable_step n (persist_config (cfg_idx_ n + 1) members n').
Proof.
  intros n' [D1 D2 D3 D4 D5 [D6 D7] D0]. unfold persist_config, enqueue_durable. cbn [has_disk n' on_mem]. rewrite D1. split.
  - split; unfold llen in *; cbn; rewrite ?Zlen_app; try done. unfold Zlen in *. cbn. lia.
  - exists [RConfig (cfg_idx_ n + 1) members]. split; [done|]. rewrite replay_one. unfold pst, replay_step. cbn.
    rewrite (proj2 (Z.eqb_neq _ _)), (proj2 (Z.ltb_ge (Zlen _) _)), (proj2 (Z.leb_le _ _)) by lia. cbn.
    rewrite (proj2 (Z.ltb_lt (cfg_idx_ n) _)), (proj2 (Z.ltb_lt 0 _)) by lia. unfold mark_any. cbn. do 2 f_equal.
    replace (Z.to_nat (cfg_idx_ n + 1)) with (length (cfg_chain_ n)) by (unfold Zlen in D7; lia).
    replace (Z.to_nat (cfg_idx_ n + 1 + 1)) with (S (length (cfg_chain_ n))) by (unfold Zlen in D7; lia).
    apply resize_one.
Qed.

Lemma config_change_durable m idx ms n :
  m_body m = ConfigChange idx ms -> tracked m n -> durable_step n (handle_config_change m idx ms n).
Proof.
  intros Hm Ht. unfold tracked in Ht. rewrite Hm in Ht. unfold handle_config_change.
  destruct (m_term m <? current_term_ n) eqn:El; [done|]. specialize (Ht ltac:(lia)). etransitivity; [apply (recognise_durable (m_source m))|].
  assert (Hmem : mem_ (arm_election_deadline (set_leader_hint (m_source m) (set_role Follower n))) = mem_ n)
    by (unfold arm_election_deadline; by destruct (uniform_range _ _ _)).
  set (n1 := arm_election_deadline _) in *.
  etransitivity; [|apply quiet_durable, send_quiet]. destruct (cfg_idx_ n1 <? idx) eqn:E; [|done].
  intros Hn1. pose proof (d_chain _ Hn1) as [D6 D7]. rewrite Hmem in *.
  assert (Hidx : idx = cfg_idx_ n + 1) by lia. subst idx.
  pose proof (config_durable ms n1 Hn1) as Hstep. cbn zeta in Hstep. rewrite Hmem in Hstep.
  set (f1 := fun r : membership => _) in Hstep. set (f2 := fun r : membership => _).
  assert (Hf : f2 (mem_ n1) = f1 (mem_ n1)).
  { rewrite Hmem. unfold f1, f2. rewrite (proj2 (Z.leb_le _ _)) by lia. f_equal.
    replace (Z.to_nat (cfg_idx_ n + 1)) with (length (cfg_chain_ n)) by (unfold Zlen in D7; lia).
    replace (Z.to_nat (cfg_idx_ n + 1 + 1)) with (S (length (cfg_chain_ n))) by (unfold Zlen in D7; lia).
    apply resize_one. }
  assert (Hon : on_mem f2 n1 = on_mem f1 n1) by (unfold on_mem; by rewrite Hf).
  rewrite Hon. cbn zeta.
  replace (config (on_mem f1 n1)) with ms; [by unfold f1; cbn; rewrite Hmem|].
  unfold config, f1. cbn. rewrite Hmem.
  replace (Z.to_nat (cfg_idx_ n + 1)) with (length (cfg_chain_ n)) by (unfold Zlen in D7; lia).
  by rewrite nth_middle.
Qed.

Lemma dispatch_durable m n : tracked m (maybe_step_down (m_term m) n) -> durable_step n (dispatch m n).
Proof.
  intros Ht. unfold dispatch. etransitivity; [apply (maybe_step_down_durable (m_term m))|].
  destruct (m_body m) eqn:Hm.
  - apply request_vote_durable.
  - apply vote_response_durable.
  - by apply append_entries_durable.
  - apply append_resp_durable.
  - by apply install_snapshot_durable.
  - apply snapshot_resp_durable.
  - by apply config_change_durable.
  - apply config_resp_durable.
Qed.

Lemma timer_durable n : durable_step n (timer_turn n).
Proof.
  unfold timer_turn. destruct (negb (running_ n)); [done|]. destruct (negb (recovered_ n)); [done|].
  destruct (bool_decide _); [|destruct (_ <=? _); [apply election_timeout_durable|done]].
  apply quiet_durable. etransitivity; [apply (repl_quiet (fun r => {| r with repl_kicked_ := false; repl_pending_ := false |}))|].
  etransitivity; [by instantiate (1 := if repl_pending_ n then _ else _); destruct (repl_pending_ n); [apply broadcast_quiet|]|].
  destruct (_ <=? _); [|done]. etransitivity; [|apply life_quiet].
  etransitivity; [apply broadcast_quiet|]. destruct (_ <? _); [apply broadcast_config_quiet|done].
Qed.

Lemma submit_durable v n : durable_step n (submit v n).2.
Proof.
  unfold submit. destruct (_ || _); [done|]. cbn zeta.
  set (e := mkEntry _ _). set (n1 := append_entry e n). set (n2 := persist_entry _ e _).
  assert (H2 : durable_step n n2).
  { etransitivity; [apply (append_durable e)|]. apply quiet_durable. unfold n2, n1, persist_entry, enqueue_durable.
    cbn [has_disk append_entry on_raft on_repl]. by destruct (has_disk n). }
  etransitivity; [exact H2|]. apply quiet_durable. destruct (repl_kicked_ _); [done|].
  cbn [snd]. etransitivity; [|apply repl_quiet]. etransitivity; [|apply broadcast_quiet]. done.
Qed.

Lemma propose_durable srv add n : durable_step n (propose_config_change srv add n).2.
Proof.
  unfold propose_config_change. destruct (_ || _); [done|]. destruct (_ || _) eqn:Es; [done|].
  destruct (eqb _ _); [done|]. destruct (_ && _); [done|]. destruct (_ && _); [done|].
  set (nc := if add then _ else _). destruct nc as [|x l]; [done|]. cbn [snd].
  etransitivity; [|apply quiet_durable, broadcast_config_quiet]. set (ms := sort_ids (x :: l)).
  intros Hn. pose proof (config_durable ms n Hn) as Hstep. cbn zeta in Hstep.
  destruct Hn as [_ _ _ _ _ [D6 D7] _]. set (f1 := fun r : membership => _) in Hstep.
  set (f2 := fun r : membership => _).
  assert (Hon : on_mem f2 n = on_mem f1 n).
  { unfold on_mem, f1, f2. do 2 f_equal. rewrite Zlen_app, D7. change (Zlen [ms]) with 1. lia. }
  rewrite Hon. exact Hstep.
Qed.

(** ** A node and its device

    [run] is the history of one node on a device that injects no faults: client
    and network operations, turns of the persist worker, and power loss at any
    point.  The records that an operation queues are assumed to fit the replay's
    1 MiB limit. *)

Definition env (t : Z) (g : rng) (n : node) : node := {| n with now := t; rng_ := g |}.
Definition flush (n : node) : node := {| n with outbox := [] |}.

Definition power_cycle (n : node) (d : disk) : node := (recover [] (Disk.crash d) (restart (crash n))).1.

Definition boot : node := (recover [] empty_disk (start (construct conf true))).1.

Inductive op (n : node) : node -> Prop :=
| op_env t g : op n (env t g n)
| op_flush : op n (flush n)
| op_deliver m : tracked m (maybe_step_down (m_term m) n) -> op n (dispatch m n)
| op_timer : op n (timer_turn n)
| op_submit v : op n (submit v n).2
| op_propose srv add : op n (propose_config_change srv add n).2.

Inductive run : node * disk -> node * disk -> Prop :=
| run_op n n' d : op n n' -> Forall rec_wf (write_queue_ n') -> run (n, d) (n', d)
| run_persist n d n' d' : persist_turn [] n d = (n', d', []) -> Forall rec_wf (write_queue_ n') -> run (n, d) (n', d')
| run_power n d : run (n, d) (power_cycle n d, Disk.crash d).

Lemma op_durable n n' : op n n' -> durable_step n n'.
Proof.
  intros []; [by apply quiet_durable..| | | |].
  - by apply dispatch_durable.
  - apply timer_durable.
  - apply submit_durable.
  - apply propose_durable.
Qed.

(** What replay maintains. *)
Record replayed_ok (s : replayed) : Prop := {
  rp_state : Zlen (rec_state s) = rec_base s;
  rp_idx : 0 <= rec_cfg_idx s;
  rp_chain : Zlen (rec_chain s) = rec_cfg_idx s + 1;
  rp_have : rec_have_cfg s = (0 <? rec_cfg_idx s);
  rp_repair : rec_repair_to s = 0
}.

Lemma replay_rec_ok r s s' : replayed_ok s -> (0 <= match r with RConfig i _ => i | _ => 0 end) ->
  replay_rec r s = Some s' -> replayed_ok s'.
Proof.
  intros [H1 H2 H3 H4 H5] Hi. destruct r as [t v|i e|k|i st|i ms|f t d]; cbn [replay_rec].
  - by intros [= <-].
  - destruct (_ =? _); [by intros [= <-]|done].
  - destruct (_ || _); [done|by intros [= <-]].
  - destruct (_ || _) eqn:E; [done|]. apply orb_false_iff in E as [E1 E2]. intros [= <-]. split; cbn; try done. lia.
  - destruct (_ || _) eqn:E; [done|]. apply orb_false_iff in E as [E1 E2]. intros [= <-].
    split; cbn; try done; [destruct (rec_cfg_idx s <? i); lia| |].
    + assert (Hl : forall l : list (list Z), Zlen (<[Z.to_nat i := ms]> l) = Zlen l)
        by (intros l; unfold Zlen; by rewrite length_insert).
      rewrite Hl. destruct (Zlen (rec_chain s) <=? i) eqn:El.
      * unfold resize, Zlen in *. rewrite length_app, length_take, length_replicate.
        rewrite (proj2 (Z.ltb_lt (rec_cfg_idx s) i)) by lia. lia.
      * rewrite (proj2 (Z.ltb_ge (rec_cfg_idx s) i)) by lia. done.
    + symmetry. apply Z.ltb_lt. destruct (rec_cfg_idx s <? i) eqn:El; lia.
  - destruct (_ || _ || _) eqn:E; [done|]. rewrite !orb_false_iff in E. destruct E as [[E1 E2] E3].
    intros [= <-]. split; cbn; try done. rewrite Zlen_app. lia.
Qed.

Lemma replay_recs_ok rs : forall s s', Forall rec_wf rs -> replayed_ok s -> replay_recs rs s = Some s' -> replayed_ok s'.
Proof.
  induction rs as [|r rs IH]; intros s s' Hwf Hs; cbn; [by intros [= <-]|].
  inversion Hwf as [|?? Hw Hws]; subst. unfold replay_step. destruct (replay_rec r s) as [s1|] eqn:E; [|done]. cbn.
  apply IH; [done|]. assert (H1 : replayed_ok s1).
  { apply (replay_rec_ok r s s1 Hs); [|done]. destruct r; try done. destruct Hw as [[[? _] _] _]. done. }
  by destruct H1.
Qed.

Lemma replay_rec_mark r s : replay_rec r (mark_any s) = option_map mark_any (replay_rec r s).
Proof.
  destruct r; cbn [replay_rec]; try done.
  - change (rec_base (mark_any s)) with (rec_base s). change (rec_log (mark_any s)) with (rec_log s). by destruct (_ =? _).
  - change (rec_base (mark_any s)) with (rec_base s). change (rec_log (mark_any s)) with (rec_log s). by destruct (_ || _).
  - change (rec_base (mark_any s)) with (rec_base s). by destruct (_ || _).
  - change (rec_chain (mark_any s)) with (rec_chain s). by destruct (_ || _).
  - change (rec_base (mark_any s)) with (rec_base s). by destruct (_ || _ || _).
Qed.

Lemma replay_recs_mark rs s : replay_recs rs (mark_any s) = option_map mark_any (replay_recs rs s).
Proof.
  revert s. induction rs as [|r rs IH]; intros s; [done|]. cbn. unfold replay_step. rewrite replay_rec_mark.
  destruct (replay_rec r s) as [s1|]; [|done]. cbn. apply IH.
Qed.

(** The replay's starting point. *)
Definition blank : replayed := mkReplayed 0 kNil [] 0 [] (init_config_chain conf) 0 false false 0.

Lemma blank_ok : replayed_ok blank.
Proof. by split. Qed.

(** [synced] has reached the durable image, [written] is staged, the rest of the
    history is in the queue, and the whole history replays to the node's
    state. *)
Record history (n : node) (d : disk) (synced written : list Rec) : Prop := {
  h_inv : durable_inv n;
  h_wf : Forall rec_wf (synced ++ written ++ write_queue_ n);
  h_replay : replay_recs (synced ++ written ++ write_queue_ n) (mark_any blank) = Some (pst n);
  h_durable : durable d = stream synced;
  h_staged : staged d = stream written;
  h_honest : lying d = [] /\ rotted_offsets d = []
}.

(** The node that recovery leaves. *)
Lemma recover_pst s n :
  durable_inv n \/ static n /\ has_disk n = true ->
  replayed_ok s -> (rec_any s = false -> raft_ n = initial_raft /\ mark_any s = mark_any blank) ->
  commit_index_ n = 0 ->
  pst (adopt_replayed s n) = mark_any s /\ durable_inv (adopt_replayed s n).
Proof.
  intros Hn [R1 R2 R3 R4 R5] Hany Hc.
  assert (Hs : static n /\ has_disk n = true) by (destruct Hn as [[]|]; done). clear Hn. destruct Hs as [Hs Hd].
  unfold adopt_replayed, arm_election_deadline. destruct (uniform_range _ _ _) as [j g].
  assert (Hidx : (if rec_have_cfg s then rec_cfg_idx s else 0) = rec_cfg_idx s).
  { rewrite R4. destruct (0 <? rec_cfg_idx s) eqn:E; lia. }
  rewrite Hidx. pose proof (Zlen_nonneg (rec_state s)). pose proof (Zlen_nonneg (rec_log s)).
  destruct (rec_any s) eqn:Ea.
  - split; [unfold pst, mark_any; cbn; by rewrite R4, R5|]. split; unfold llen; cbn; try done; lia.
  - destruct (Hany eq_refl) as [Hr Hm]. unfold mark_any, blank in Hm. injection Hm as M1 M2 M3 M4 M5 M6 M7 M8 M9.
    split.
    + unfold pst, mark_any. cbn. rewrite Hr. cbn. by rewrite M1, M2, M3, M4, M5, M6, M7, M8, R5.
    + split; unfold llen; cbn; rewrite ?Hr; cbn; done.
Qed.

Lemma stream_app rs rs' : stream (rs ++ rs') = stream rs ++ stream rs'.
Proof. apply flat_map_app. Qed.

Lemma crash_static n : static n -> static (restart (crash n)).
Proof. done. Qed.

(** Recovery from a device that holds exactly the records [rs]. *)
Lemma recover_stream n n' d rs s :
  n' = (recover [] d n).1 -> static n -> has_disk n = true -> raft_ n = initial_raft ->
  Forall rec_wf rs -> replay_recs rs blank = Some s -> image_of d = stream rs -> rotted_offsets d = [] ->
  pst n' = mark_any s /\ durable_inv n' /\ write_queue_ n' = write_queue_ n.
Proof.
  intros -> Hst Hd Hr Hwf Hs Hi Hrot.
  assert (Hstart : replay_start n = blank).
  { unfold replay_start, blank. rewrite Hr. destruct Hst as (-> & _). done. }
  unfold recover. rewrite Hd. cbn [negb]. rewrite Hstart, (replay_whole rs blank s d Hrot Hwf Hs Hi). cbn [fst].
  destruct (recover_pst s n) as [H1 H2]; [by right|by apply (replay_recs_ok rs blank s Hwf blank_ok)| |by rewrite Hr|].
  - intros Ha. split; [done|]. destruct rs as [|r rs]; [by injection Hs as <-|].
    exfalso. cbn in Hs. unfold replay_step in Hs. destruct (replay_rec r blank) as [s1|]; [|done]. cbn in Hs.
    rewrite replay_recs_mark in Hs. destruct (replay_recs rs s1); [|done]. by injection Hs as <-.
  - split_and!; [done|done|]. unfold adopt_replayed, arm_election_deadline.
    destruct (uniform_range _ _ _). by destruct (rec_any s).
Qed.

Lemma history_boot : history boot empty_disk [] [].
Proof.
  destruct (recover_stream (start (construct conf true)) boot empty_disk [] blank) as (H1 & H2 & H3); [done..|].
  split; [exact H2| | |done|done|done]; cbn [app]; rewrite H3; [by constructor|]. exact (f_equal Some (eq_sym H1)).
Qed.

(** A power loss keeps exactly what was synced. *)
Lemma power_cycle_eq n d : power_cycle n d = (recover [] (Disk.crash d) (restart (crash n))).1.
Proof. reflexivity. Qed.

Lemma power_recover n d rs s :
  static n -> has_disk n = true -> Forall rec_wf rs -> replay_recs rs blank = Some s ->
  durable d = stream rs -> rotted_offsets d = [] ->
  pst (power_cycle n d) = mark_any s /\ durable_inv (power_cycle n d) /\ write_queue_ (power_cycle n d) = [].
Proof.
  intros Hst Hd Hwf Es Hdur Hrot.
  assert (Hi : image_of (Disk.crash d) = stream rs) by (unfold image_of; cbn; by rewrite app_nil_r).
  exact (recover_stream (restart (crash n)) (power_cycle n d) (Disk.crash d) rs s (power_cycle_eq n d) (crash_static n Hst) Hd
           eq_refl Hwf Es Hi Hrot).
Qed.

Lemma power_history n d synced written :
  history n d synced written ->
  replay_recs synced (mark_any blank) = Some (pst (power_cycle n d)) /\ durable_inv (power_cycle n d) /\
  write_queue_ (power_cycle n d) = [].
Proof.
  intros [H1 H2 H3 H4 H5 [H6 H7]]. apply Forall_app in H2 as [Hw _].
  destruct (replay_recs synced blank) as [s|] eqn:Es.
  2: { rewrite replay_recs_app, replay_recs_mark, Es in H3. done. }
  destruct (power_recover n d synced s (d_static _ H1) (d_disk _ H1) Hw Es H4 H7) as (P1 & P2 & P3).
  rewrite replay_recs_mark, Es, P1. done.
Qed.

Lemma history_power n d synced written :
  history n d synced written -> history (power_cycle n d) (Disk.crash d) synced [].
Proof.
  intros Hh. destruct (power_history n d synced written Hh) as (P1 & P2 & P3). revert P1 P2 P3.
  generalize (power_cycle n d). intros n' P1 P2 P3. destruct Hh as [H1 H2 H3 H4 H5 [H6 H7]].
  apply Forall_app in H2 as [Hw _]. split; [exact P2| | |exact H4|done|done]; cbn [app]; by rewrite P3, app_nil_r.
Qed.

Lemma advance_n1_durable n : durable_step n (advance_n1_self_commit n).
Proof.
  unfold advance_n1_self_commit. destruct (_ || _); [done|].
  etransitivity; [apply advance_commit_durable|apply apply_durable].
Qed.

Lemma history_op n n' d synced written :
  durable_step n n' -> Forall rec_wf (write_queue_ n') -> history n d synced written -> history n' d synced written.
Proof.
  intros Hstep Hwf [H1 H2 H3 H4 H5 H6]. destruct (Hstep H1) as [H1' (new & Hq & Hr)]. split; try done.
  - apply Forall_app in H2 as [Ha [Hb _]%Forall_app]. by rewrite !Forall_app.
  - rewrite Hq, !app_assoc, replay_recs_app, <- app_assoc, H3. done.
Qed.

Lemma history_persist n d n' d' synced written :
  persist_turn [] n d = (n', d', []) -> Forall rec_wf (write_queue_ n') -> history n d synced written ->
  exists synced' written', history n' d' synced' written' /\ (synced `prefix_of` synced').
Proof.
  intros Hp Hwf Hh. pose proof Hh as [H1 H2 H3 H4 H5 [H6 H7]]. unfold persist_turn in Hp.
  destruct (write_queue_ n) as [|rec q] eqn:Eq.
  - destruct (want_sync_ n).
    + rewrite sync_honest in Hp. injection Hp as <- <-. exists (synced ++ written), []. split; [|by eexists].
      set (n1 := on_pipe _ n) in *.
      assert (Hh1 : history n1 (mkDisk (durable d ++ staged d) (lying d) [] (rotted_offsets d) (crashed d)) (synced ++ written) []).
      { split; try done.
        - by destruct H1.
        - cbn. rewrite Eq, app_nil_r in *. done.
        - cbn. rewrite Eq, app_nil_r in *. exact H3.
        - cbn. by rewrite stream_app, H4, H5. }
      apply (history_op n1); [apply advance_n1_durable|done|done].
    + injection Hp as <- <-. exists synced, written. split; [|done]. split; try done; [by destruct H1|..]; cbn; by rewrite Eq.
  - rewrite append_honest in Hp. injection Hp as <- <-. exists synced, (written ++ [rec]). split; [|done].
    split; try done; [by destruct H1| | |]; cbn.
    + by rewrite <- app_assoc.
    + rewrite <- app_assoc. exact H3.
    + rewrite stream_app, H5. cbn. by rewrite app_nil_r.
Qed.

Lemma run_history n d : rtc run (boot, empty_disk) (n, d) -> exists synced written, history n d synced written.
Proof.
  intros Hr. assert (Hgen : forall p q, rtc run p q -> (exists a b, history p.1 p.2 a b) -> exists a b, history q.1 q.2 a b).
  { induction 1 as [|p p' q Hst _ IH]; [done|]. intros (a & b & Hh). apply IH.
    destruct Hst as [n0 n1 d0 Hop Hwf|n0 d0 n1 d1 Hp Hwf|n0 d0]; cbn [fst snd] in *.
    - exists a, b. apply (history_op n0); [by apply op_durable|done|done].
    - destruct (history_persist n0 d0 n1 d1 a b Hp Hwf Hh) as (a' & b' & Hh' & _). by exists a', b'.
    - exists a, []. by apply (history_power n0 d0 a b). }
  apply (Hgen _ _ Hr). exists [], []. exact history_boot.
Qed.

Lemma stream_nil rs : stream rs = [] -> rs = [].
Proof.
  destruct rs as [|r rs]; [done|]. intros H. apply (f_equal length) in H. cbn in H.
  rewrite length_app, length_rec_bytes in H. cbn in H. lia.
Qed.
End node.


(** *** A single-node cluster *)

Definition solo : NodeConfig := mkNodeConfig 0 [0] [] 10 20 5 8 0.

Definition persist_step (p : node * disk) : node * disk := (persist_turn [] p.1 p.2).1.
Definition solo_leader : node := timer_turn (env 100 [] (boot solo)).
Definition solo_submitted : node := (submit [Byte.x61] solo_leader).2.
Definition solo_done : node * disk := Nat.iter 5 persist_step (solo_submitted, empty_disk).

Lemma persist_step_run n d :
  Forall rec_wf (write_queue_ (persist_step (n, d)).1) -> (persist_turn [] n d).2 = [] -> run (n, d) (persist_step (n, d)).
Proof.
  intros Hw Hr. unfold persist_step in *. cbn [fst snd] in *.
  destruct (persist_turn [] n d) as [[n' d'] r'] eqn:E. cbn in *. subst r'. by apply run_persist.
Qed.

(** An executable check of [rec_wf]. *)
Definition wordb (z : Z) : bool := (0 <=? z) && (z <? 2 ^ 64).
Definition entry_wfb (e : LogEntry) : bool := wordb (le_term e) && (Zlen (le_value e) <? 2 ^ 32).
Definition rec_wfb (r : Rec) : bool :=
  match r with
  | RMeta t v => wordb t && wordb v
  | REntry i e => wordb i && entry_wfb e
  | RTrunc k => wordb k
  | RSnapshot i st => wordb i && forallb entry_wfb st
  | RConfig i ms => wordb i && forallb wordb ms
  | RSnapshotDelta f t d => wordb f && wordb t && forallb entry_wfb d
  end && (Zlen (rec_body r) <=? 2 ^ 20).

Lemma wordb_ok z : wordb z = true -> word z.
Proof. unfold wordb, word. lia. Qed.

Lemma entry_wfb_ok e : entry_wfb e = true -> entry_wf e.
Proof. intros [H1%wordb_ok H2]%andb_true_iff. split; [done|lia]. Qed.

Lemma forallb_ok {A} (f : A -> bool) (P : A -> Prop) l : (forall x, f x = true -> P x) -> forallb f l = true -> Forall P l.
Proof. intros Hf. induction l as [|x l IH]; cbn; [done|]. intros [H1 H2]%andb_true_iff. constructor; auto. Qed.

Lemma rec_wfb_ok r : rec_wfb r = true -> rec_wf r.
Proof.
  intros [H1 H2]%andb_true_iff. split; [|lia]. clear H2.
  destruct r; rewrite ?andb_true_iff in H1; destruct_and?; split_and?; auto using wordb_ok, entry_wfb_ok;
    eapply forallb_ok; eauto using wordb_ok, entry_wfb_ok.
Qed.

Lemma solo_run : rtc run (boot solo, empty_disk) solo_done.
Proof.
  set (at_ k := Nat.iter k persist_step (solo_submitted, empty_disk)).
  assert (Hop : forall p n', op p.1 n' -> forallb rec_wfb (write_queue_ n') = true ->
                forall q, rtc run (n', p.2) q -> rtc run p q).
  { intros [n d] n' Ho Hw q Hq. eapply rtc_l; [|done]. apply run_op; [done|]. by apply (forallb_ok rec_wfb), Hw; apply rec_wfb_ok. }
  assert (Hstep : forall k, forallb rec_wfb (write_queue_ (at_ (S k)).1) = true -> (persist_turn [] (at_ k).1 (at_ k).2).2 = [] ->
                  run (at_ k) (at_ (S k))).
  { intros k Hw Hr. unfold at_ in *. rewrite Nat.iter_succ in *. destruct (Nat.iter k _ _) as [n d].
    apply persist_step_run; [|done]. by apply (forallb_ok rec_wfb), Hw; apply rec_wfb_ok. }
  apply (Hop (boot solo, empty_disk) (env 100 [] (boot solo))); [apply op_env|vm_compute; reflexivity|].
  apply (Hop (env 100 [] (boot solo), empty_disk) solo_leader); [apply op_timer|vm_compute; reflexivity|].
  apply (Hop (solo_leader, empty_disk) solo_submitted); [apply op_submit|vm_compute; reflexivity|].
  change (rtc run (at_ 0%nat) (at_ 5%nat)).
  do 5 (eapply rtc_l; [apply Hstep; vm_compute; reflexivity|]). apply rtc_refl.
Qed.

