(* ===== verification/RaftSim.v ===== *)
(** RaftSim: the handlers of [RaftNodeA] as steps of the abstract protocol.

    [abs] is the abstract server of a node: its full logical log, and as commit
    position the larger of its commit index and its snapshot base (a restarted
    node knows its snapshot is committed before it relearns the commit index).
    [node_rel] relates a node to a global state of the protocol; each handler is
    shown to take related states to related states by a sequence of the node's own
    protocol steps, for a cluster whose membership does not change. *)

From Stdlib Require Import ZArith Lia.
From stdpp Require Import base list numbers relations.
From S2P Require Import Prelude Codec Core Disk Consensus RaftProtocol RaftSafety RaftWire RaftNode RaftDurable.

(** ** The logical log *)

Section view.
Context (n : node) (Hsnap : Zlen (snap_state_ n) = snap_base_ n).

Lemma llen_view : llen n = Zlen (log_view n).
Proof. unfold llen, log_view. by rewrite Zlen_app, Hsnap. Qed.

Lemma snap_nonneg : 0 <= snap_base_ n.
Proof. rewrite <- Hsnap. apply Zlen_nonneg. Qed.

Lemma entry_at_view i : 1 <= i <= llen n -> log_view n !! (Z.to_nat i - 1)%nat = Some (entry_at n i).
Proof.
  intros Hi. unfold entry_at, log_view. pose proof snap_nonneg. unfold llen, Zlen in *. destruct (i <=? snap_base_ n) eqn:E.
  - rewrite lookup_app_l by lia. destruct (nth_lookup_or_length (snap_state_ n) (Z.to_nat i - 1) no_entry); [done|lia].
  - rewrite lookup_app_r by lia. replace (Z.to_nat i - 1 - length (snap_state_ n))%nat with (Z.to_nat (i - snap_base_ n) - 1)%nat by lia.
    destruct (nth_lookup_or_length (log_ n) (Z.to_nat (i - snap_base_ n) - 1) no_entry); [done|lia].
Qed.

Lemma term_at_entry i : 1 <= i <= llen n -> term_at n i = le_term (entry_at n i).
Proof.
  intros Hi. unfold term_at, entry_at. rewrite (proj2 (Z.eqb_neq _ _)), (proj2 (Z.ltb_ge _ _)) by lia. cbn.
  by destruct (_ <=? _).
Qed.

Lemma term_at_view i : 0 <= i -> term_at n i = term_of (log_view n) (Z.to_nat i).
Proof.
  intros Hi. unfold term_of, at_pos. destruct (Z.to_nat i) as [|j] eqn:Ej.
  { assert (i = 0) as -> by lia. done. }
  destruct (decide (i <= llen n)) as [Hle|Hgt].
  - rewrite term_at_entry by lia. pose proof (entry_at_view i ltac:(lia)) as He.
    replace (Z.to_nat i - 1)%nat with j in He by lia. by rewrite He.
  - unfold term_at. rewrite (proj2 (Z.ltb_lt _ _)), orb_true_r by lia.
    rewrite (proj2 (lookup_ge_None (log_view n) j)); [done|]. rewrite llen_view in Hgt. unfold Zlen in Hgt. lia.
Qed.

Lemma last_log_term_view : last_log_term n = last_term (log_view n).
Proof.
  unfold last_log_term. rewrite llen_view. unfold last_term, Zlen. rewrite last_lookup.
  destruct (log_view n) as [|x l] eqn:E; [done|]. rewrite (proj2 (Z.eqb_neq _ _)) by (cbn; lia).
  rewrite <- E. pose proof llen_view as Hl. rewrite E in Hl. unfold Zlen in Hl.
  rewrite term_at_entry by (rewrite E; cbn in *; lia).
  pose proof (entry_at_view (Z.of_nat (length (x :: l))) ltac:(cbn in *; lia)) as He.
  rewrite E. rewrite E in He. replace (pred (length (x :: l))) with (Z.to_nat (Z.of_nat (length (x :: l))) - 1)%nat by (cbn; lia).
  by rewrite He.
Qed.

(** The entries of a batch. *)
Lemma batch_view prev k :
  0 <= prev <= llen n ->
  map (fun j => entry_at n (prev + 1 + Z.of_nat j)) (seq 0 (Nat.min k (Z.to_nat (llen n - prev)))) =
  take k (drop (Z.to_nat prev) (log_view n)).
Proof.
  intros Hp. pose proof llen_view as Hl. unfold Zlen in Hl. apply list_eq. intros j.
  destruct (decide (j < Nat.min k (Z.to_nat (llen n - prev)))%nat) as [Hlt|Hge].
  - rewrite list_lookup_fmap, lookup_seq_lt by lia. cbn. rewrite lookup_take_lt, lookup_drop by lia.
    pose proof (entry_at_view (prev + 1 + Z.of_nat j) ltac:(lia)) as He.
    replace (Z.to_nat (prev + 1 + Z.of_nat j) - 1)%nat with (Z.to_nat prev + j)%nat in He by lia. by rewrite He.
  - rewrite !(proj2 (lookup_ge_None _ _)); [done|rewrite length_take, length_drop; lia|rewrite length_map, length_seq; lia].
Qed.

(** The conflict scan is the protocol's. *)
Lemma scan_first es : forall p,
  scan_conflict n (Z.of_nat p + 1) es = first_conflict (Z.to_nat (snap_base_ n)) (log_view n) p es.
Proof.
  pose proof llen_view as Hl. unfold Zlen in Hl. pose proof snap_nonneg.
  induction es as [|e es IH]; intros p; [done|]. cbn [scan_conflict first_conflict].
  replace (Z.of_nat p + 1 + 1) with (Z.of_nat (S p) + 1) by lia. rewrite IH.
  destruct (Z.of_nat p + 1 <=? snap_base_ n) eqn:E1.
  - by rewrite (proj2 (Nat.ltb_ge _ _)) by lia.
  - rewrite (proj2 (Nat.ltb_lt _ _)) by lia. destruct (Z.of_nat p + 1 <=? llen n) eqn:E2.
    + rewrite term_at_entry by lia. pose proof (entry_at_view (Z.of_nat p + 1) ltac:(lia)) as He.
      replace (Z.to_nat (Z.of_nat p + 1) - 1)%nat with p in He by lia. rewrite He.
      destruct (decide _) as [->|Hne]; [by rewrite Z.eqb_refl|]. by rewrite (proj2 (Z.eqb_neq _ _)).
    + by rewrite (proj2 (lookup_ge_None (log_view n) p)) by lia.
Qed.
End view.

(** ** What the helpers do to the Raft state *)

Lemma enqueue_raft r n : raft_ (enqueue_durable r n) = raft_ n.
Proof. unfold enqueue_durable. by destruct (has_disk n). Qed.

Lemma append_all_raft es n : raft_ (append_all es n) = {| (raft_ n) with log_ := log_ n ++ es |}.
Proof.
  unfold append_all. revert n. induction es as [|e es IH]; intros n.
  - cbn. rewrite app_nil_r. by destruct (raft_ n).
  - cbn [fold_left]. rewrite IH. unfold persist_entry. rewrite enqueue_raft. cbn. by rewrite <- app_assoc.
Qed.

Lemma trunc_raft keep (n : node) :
  snap_base_ n <= keep <= llen n ->
  raft_ (persist_trunc keep (truncate_to keep n)) =
  {| (raft_ n) with log_ := take (Z.to_nat (keep - snap_base_ n)) (log_ n) |}.
Proof.
  intros Hk. unfold persist_trunc. rewrite enqueue_raft. unfold truncate_to. cbn.
  rewrite (proj2 (Z.ltb_ge _ _)) by lia. unfold resize. unfold llen, Zlen in Hk.
  replace (Z.to_nat _ - _)%nat with 0%nat by lia. by rewrite app_nil_r.
Qed.

(** The merge changes only the log, and the logical log as [splice] does. *)
Lemma merge_raft prev es (n : node) :
  Zlen (snap_state_ n) = snap_base_ n -> 0 <= prev <= llen n ->
  exists l, raft_ (merge_entries prev es n) = {| (raft_ n) with log_ := l |} /\
    snap_state_ n ++ l = splice (Z.to_nat (snap_base_ n)) (log_view n) (Z.to_nat prev) es.
Proof.
  intros Hs Hp. unfold merge_entries, splice. rewrite <- (scan_first n Hs).
  rewrite Z2Nat.id by lia.
  pose proof (llen_view n Hs) as Hl. pose proof (snap_nonneg n Hs).
  destruct (scan_conflict n (prev + 1) es) as [k|] eqn:E.
  - apply scan_conflict_some in E as [H1 H2]. rewrite (proj2 (Z.ltb_lt _ _)) by lia.
    eexists. rewrite append_all_raft, trunc_raft by lia. split; [done|]. cbn. rewrite app_assoc. f_equal.
    unfold log_view. rewrite take_app_ge by (unfold Zlen in Hs; lia). do 2 f_equal. unfold Zlen in Hs. lia.
  - destruct (llen n <? prev + Zlen es) eqn:El.
    + eexists. rewrite append_all_raft. split; [done|]. cbn. rewrite app_assoc. unfold log_view at 1. f_equal.
      f_equal. rewrite Hl. unfold Zlen. lia.
    + exists (log_ n). split; [by destruct (raft_ n)|]. rewrite drop_ge, app_nil_r; [done|].
      rewrite Hl in El, Hp. unfold Zlen in *. lia.
Qed.

(** ** The relation *)

Definition vote_abs (v : Z) : option Z := if v =? kNil then None else Some v.

Definition abs (n : node) : anode :=
  mkANode (current_term_ n) (vote_abs (voted_for_ n)) (role_ n) (log_view n)
          (Z.to_nat (Z.max (commit_index_ n) (snap_base_ n))) (votes_granted_ n).

(** What a message on the wire says about the protocol's histories. *)
Definition body_rel (g : global) (t src dest : Z) (b : Body) : Prop :=
  match b with
  | RequestVote idx lt _ => exists l, In (ReqVote t src l) (net g) /\ idx = Zlen l /\ lt = last_term l
  | RequestVoteResp true => exists l, In (mkBallot t src dest l) (ballots g)
  | RequestVoteResp false => True
  | AppendEntries prev pt c es =>
      0 <= prev /\ 0 <= c /\ In (Append t src (Z.to_nat prev) pt es (Z.to_nat c)) (net g)
  | AppendEntriesResp true k => 0 <= k /\ In (Ack t src (Z.to_nat k)) (net g)
  | AppendEntriesResp false _ => True
  | InstallSnapshot lii st => lii = Zlen st /\ In (Snap t src st) (net g)
  | InstallSnapshotResp k => 0 <= k /\ In (Ack t src (Z.to_nat k)) (net g)
  | ConfigChange _ _ | ConfigChangeResp _ => False
  end.

Section sim.
Context (cl : list Z) (i : Z) (conf : NodeConfig).
Hypothesis Hnodup : NoDup cl.
Hypothesis Hids : forall j, In j cl -> 0 <= j < kNil.
Hypothesis Hi : In i cl.
Hypothesis Hself : self_id conf = i.
Hypothesis Hcluster : cluster conf = cl.

Definition msg_rel (g : global) (m : RaftMsg) : Prop :=
  In (m_source m) cl /\ m_source m <> m_dest m /\ body_rel g (m_term m) (m_source m) (m_dest m) (m_body m).

Record node_rel (g : global) (n : node) : Prop := {
  r_abs : nodes g i = abs n;
  r_static : static conf n;
  r_config : cfg_chain_ n = [cl] /\ cfg_idx_ n = 0 /\ cfg_committed_idx_ n = 0;
  r_lens : length (next_index_ n) = length cl /\ length (match_index_ n) = length cl;
  r_snap : Zlen (snap_state_ n) = snap_base_ n;
  r_applied : 0 <= applied_index_ n <= Z.max (commit_index_ n) (snap_base_ n);
  r_commit : 0 <= commit_index_ n <= llen n;
  r_leader : role_ n = Leader -> forall k id, cl !! k = Some id ->
    1 <= nth k (next_index_ n) 0 <= llen n + 1 /\
    (id <> i -> nth k (match_index_ n) 0 <= 0 \/ acked g (current_term_ n) id (Z.to_nat (nth k (match_index_ n) 0)));
  r_out : forall m, In m (outbox n) -> msg_rel g m
}.

(** Steps of the protocol taken by server [i]. *)
Definition own (g g' : global) : Prop := step cl g g' /\ forall j, j <> i -> nodes g' j = nodes g j.
Definition steps : global -> global -> Prop := rtc own.

Lemma server_step_grows g g' : step cl g g' ->
  (forall m, In m (net g) -> In m (net g')) /\ (forall b, In b (ballots g) -> In b (ballots g')).
Proof. intros []; cbn; auto. Qed.

Lemma server_steps_grow g g' : steps g g' ->
  (forall m, In m (net g) -> In m (net g')) /\ (forall b, In b (ballots g) -> In b (ballots g')) /\
  (forall j, j <> i -> nodes g' j = nodes g j).
Proof.
  induction 1 as [|g1 g2 g3 [Hs Ho] _ (IH1 & IH2 & IH3)]; [done|]. destruct (server_step_grows _ _ Hs) as [H1 H2].
  split_and!; [auto|auto|]. intros j Hj. by rewrite IH3, Ho.
Qed.

Lemma steps_reachable g g' : steps g g' -> reachable cl g -> reachable cl g'.
Proof.
  intros Hs Hr. unfold reachable in *. transitivity g; [done|].
  induction Hs as [|g1 g2 g3 [Hst _] _ IH]; [done|]. eapply rtc_l; [done|]. apply IH. eapply rtc_r; done.
Qed.

Lemma body_rel_mono g g' t s d b :
  (forall m, In m (net g) -> In m (net g')) -> (forall b, In b (ballots g) -> In b (ballots g')) ->
  body_rel g t s d b -> body_rel g' t s d b.
Proof.
  intros Hn Hb. destruct b as [idx lt c|[]|p pt c es|[] k|lii st|k|ci ms|ci]; cbn; try done.
  - intros (l & H1 & H2). exists l. auto.
  - intros (l & H1). exists l. auto.
  - intros (H1 & H2 & H3). auto.
  - intros (H1 & H2). auto.
  - intros (H1 & H2). auto.
  - intros (H1 & H2). auto.
Qed.

Lemma acked_mono g g' t v k : (forall m, In m (net g) -> In m (net g')) -> acked g t v k -> acked g' t v k.
Proof. intros Hn (k' & H1 & H2). exists k'. auto. Qed.

Lemma msg_rel_mono g g' m :
  (forall m, In m (net g) -> In m (net g')) -> (forall b, In b (ballots g) -> In b (ballots g')) ->
  msg_rel g m -> msg_rel g' m.
Proof. intros Hn Hb (H1 & H2 & H3). split_and!; [done..|]. by eapply body_rel_mono. Qed.

(** A handler from [n] to [n'] is a sequence of the server's own steps. *)
Definition sim (n n' : node) : Prop :=
  forall g, reachable cl g -> node_rel g n -> exists g', steps g g' /\ node_rel g' n'.

#[global] Instance sim_refl : Reflexive sim.
Proof. intros n g _ Hn. exists g. split; [apply rtc_refl|done]. Qed.

#[global] Instance sim_trans : Transitive sim.
Proof.
  intros a b c Hab Hbc g Hg Ha. destruct (Hab g Hg Ha) as (g1 & Hs1 & Hb).
  destruct (Hbc g1 (steps_reachable _ _ Hs1 Hg) Hb) as (g2 & Hs2 & Hc). exists g2. split; [by transitivity g1|done].
Qed.

(** *** Changes the protocol does not see *)

Record unseen (n n' : node) : Prop := {
  u_raft : raft_ n' = raft_ n;
  u_mem : mem_ n' = mem_ n;
  u_repl : repl_ n' = repl_ n;
  u_out : outbox n' = outbox n;
  u_static : static conf n -> static conf n'
}.

#[global] Instance unseen_refl : Reflexive unseen.
Proof. by intros n. Qed.

#[global] Instance unseen_trans : Transitive unseen.
Proof. intros a b c [] []. split; congruence || auto. Qed.

Lemma unseen_rel g n n' : unseen n n' -> node_rel g n -> node_rel g n'.
Proof.
  intros [U1 U2 U3 U4 U5] [R1 R2 R3 R4 R5 R6 R7 R8 R9].
  split; unfold abs, log_view, llen in *; rewrite ?U1, ?U2, ?U3, ?U4; auto.
Qed.

Lemma unseen_sim n n' : unseen n n' -> sim n n'.
Proof. intros Hu g _ Hn. exists g. split; [apply rtc_refl|by eapply unseen_rel]. Qed.

Lemma unseen_arm n : unseen n (arm_election_deadline n).
Proof. unfold arm_election_deadline. by destruct (uniform_range _ _ _). Qed.

Lemma unseen_life f n : unseen n (on_life f n).
Proof. done. Qed.

Lemma unseen_enqueue r n : unseen n (enqueue_durable r n).
Proof. unfold enqueue_durable. by destruct (has_disk n). Qed.

Lemma unseen_meta n : unseen n (persist_meta n).
Proof. unfold persist_meta. etransitivity; apply unseen_enqueue. Qed.

(** Sending a message the histories justify. *)
Lemma rel_send g n d t b :
  node_rel g n -> d <> i -> body_rel g t i d b -> node_rel g (send_to d t b n).
Proof.
  intros [R1 R2 R3 R4 R5 R6 R7 R8 R9] Hd Hb. split; try done. cbn.
  intros m [Hin|[<-|[]]]%in_app_iff; [by apply R9|]. destruct R2 as (_ & -> & _). rewrite Hself.
  split_and!; [done|cbn; congruence|done].
Qed.

(** After steps of the server itself: the histories have grown and the node's new
    state is the server's. *)
Lemma rel_make g g' n n' :
  node_rel g n ->
  (forall m, In m (net g) -> In m (net g')) -> (forall b, In b (ballots g) -> In b (ballots g')) ->
  nodes g' i = abs n' ->
  mem_ n' = mem_ n -> repl_ n' = repl_ n -> outbox n' = outbox n -> (static conf n -> static conf n') ->
  Zlen (snap_state_ n') = snap_base_ n' ->
  0 <= applied_index_ n' <= Z.max (commit_index_ n') (snap_base_ n') ->
  0 <= commit_index_ n' <= llen n' ->
  (role_ n' = Leader -> role_ n = Leader /\ current_term_ n' = current_term_ n /\ llen n <= llen n') ->
  node_rel g' n'.
Proof.
  intros [R1 R2 R3 R4 R5 R6 R7 R8 R9] Hn Hb Ha Hm Hr Ho Hst Hs Hap Hc Hl.
  split; rewrite ?Hm, ?Hr, ?Ho; auto.
  - intros Hlead k id Hk. destruct (Hl Hlead) as (Hl0 & Ht & Hll). destruct (R8 Hl0 k id Hk) as [H1 H2].
    rewrite Ht. split; [lia|]. intros Hne. destruct (H2 Hne) as [|Hak]; [by left|right]. by eapply acked_mono.
  - intros m Hin. eapply msg_rel_mono; [done..|]. by apply R9.
Qed.

Lemma own_one g g' : step cl g g' -> (forall j, j <> i -> nodes g' j = nodes g j) -> steps g g'.
Proof. intros Hs Ho. by apply rtc_once. Qed.

Lemma rel_term g n : node_rel g n -> a_term (nodes g i) = current_term_ n.
Proof. intros Hn. by rewrite (r_abs _ _ Hn). Qed.

(** *** Adopting a term *)

Lemma step_down_sim t n : sim n (maybe_step_down t n).
Proof.
  unfold maybe_step_down. destruct (_ <? _) eqn:E; [|done].
  etransitivity; [|apply unseen_sim, unseen_arm]. etransitivity; [|apply unseen_sim, unseen_meta].
  etransitivity; [|apply unseen_sim, unseen_life]. intros g Hg Hn.
  pose proof (r_abs _ _ Hn) as Ha. pose proof (rel_term _ _ Hn) as Ht.
  eexists. split; [apply own_one; [apply (StepDown cl g i t); lia|intros j Hj; cbn; by apply upd_other]|].
  pose proof Hn as [R1 R2 R3 R4 R5 R6 R7 R8 R9]. apply (rel_make g _ n); try done; cbn.
  by rewrite upd_same, Ha.
Qed.

(** Recognising the leader of the term. *)
Lemma demote_sim n : sim n (set_role Follower n).
Proof.
  intros g Hg Hn. pose proof (r_abs _ _ Hn) as Ha.
  eexists. split; [apply own_one; [apply (Demote cl g i (a_commit (nodes g i)) (a_votes (nodes g i))); done|]|].
  - intros j Hj. cbn. by apply upd_other.
  - pose proof Hn as [R1 R2 R3 R4 R5 R6 R7 R8 R9]. apply (rel_make g _ n); try done; cbn.
    by rewrite upd_same, Ha.
Qed.

Lemma recognise_sim src n : sim n (arm_election_deadline (set_leader_hint src (set_role Follower n))).
Proof.
  etransitivity; [apply demote_sim|]. etransitivity; [apply unseen_sim, (unseen_life (fun r => {| r with leader_hint_ := src |}))|].
  apply unseen_sim, unseen_arm.
Qed.

(** *** Voting *)

Lemma vote_abs_id j : In j cl -> vote_abs j = Some j.
Proof. intros Hj. unfold vote_abs. apply Hids in Hj. by rewrite (proj2 (Z.eqb_neq _ _)) by lia. Qed.

Lemma request_vote_sim m idx lt c n :
  m_body m = RequestVote idx lt c ->
  forall g, reachable cl g -> node_rel g n -> msg_rel g m -> m_dest m = i -> m_term m <= current_term_ n ->
  exists g', steps g g' /\ node_rel g' (handle_request_vote m idx lt c n).
Proof.
  intros Hm g Hg Hn (Hsrc & Hne & Hb) Hdest Hle. rewrite Hm in Hb. destruct Hb as (l & Hreq & -> & ->).
  rewrite Hdest in Hne. unfold handle_request_vote.
  destruct (m_term m <? current_term_ n) eqn:El.
  { exists g. split; [apply rtc_refl|]. by apply rel_send. }
  assert (Ht : m_term m = current_term_ n) by lia. pose proof (r_abs _ _ Hn) as Ha.
  pose proof (inv_reachable _ _ Hg) as Hinv. pose proof (r_snap _ _ Hn) as Hsnap.
  destruct (voted_for_ n =? m_source m) eqn:Ev.
  - rewrite andb_false_r. exists g. split; [apply rtc_refl|]. apply rel_send; [done|done|].
    destruct (_ && _ && _ && _); [|done]. cbn.
    assert (Hv : a_vote (nodes g i) = Some (m_source m)).
    { rewrite Ha. cbn. rewrite <- (vote_abs_id (m_source m)) by done. f_equal. lia. }
    destruct (n_vote _ _ _ _ (i_servers _ _ Hinv i) _ Hv) as [l' Hl']. exists l'.
    by rewrite (rel_term _ _ Hn) in Hl'.
  - rewrite orb_false_r, andb_true_r. destruct (_ && _ && _ && _) eqn:Eg.
    2: { exists g. split; [apply rtc_refl|]. by apply rel_send. }
    rewrite !andb_true_iff in Eg. destruct Eg as [[[Ev0 Eu] _] _].
    eexists. split; [apply own_one|].
    + apply (Grant cl g i (m_term m) (m_source m) l); [done|done|by rewrite Ha|rewrite Ha; cbn; unfold vote_abs; by rewrite Ev0|].
      rewrite Ha. cbn. unfold up_to_date. rewrite last_log_term_view in Eu by done. rewrite llen_view in Eu by done.
      unfold Zlen in Eu. lia.
    + intros j Hj. cbn. by apply upd_other.
    + apply rel_send; [|done|].
      2: { cbn. exists (a_log (nodes g i)). left. f_equal. cbn.
           pose proof (u_raft _ _ (unseen_arm (persist_meta (on_raft (fun r => {| r with voted_for_ := m_source m |}) n)))) as Hu.
           rewrite Hu, (u_raft _ _ (unseen_meta _)). cbn. done. }
      eapply unseen_rel; [apply unseen_arm|]. eapply unseen_rel; [apply unseen_meta|].
      pose proof Hn as [R1 R2 R3 R4 R5 R6 R7 R8 R9]. apply (rel_make g _ n); try done; cbn.
      * intros b Hbin. by right.
      * rewrite upd_same, Ha. unfold abs. cbn. rewrite (vote_abs_id (m_source m)) by done. by rewrite Ht.
Qed.

(** *** Replicating *)

Lemma index_in_lookup id l k0 :
  In id l -> exists k, l !! k = Some id /\ index_in id l k0 = (k0 + k)%nat.
Proof.
  revert k0. induction l as [|x l IH]; intros k0 [].
  - subst. exists 0%nat. cbn. rewrite Z.eqb_refl. split; [done|lia].
  - cbn. destruct (Z.eqb_spec x id) as [->|Hne]; [exists 0%nat; split; [done|lia]|].
    destruct (IH (S k0) H) as (k & Hk & He). exists (S k). split; [done|]. rewrite He. lia.
Qed.

Lemma idx_of_lookup (n : node) id : cfg_ n = conf -> In id cl -> cl !! idx_of n id = Some id.
Proof.
  intros Hc Hin. unfold idx_of. rewrite Hc, Hcluster. by destruct (index_in_lookup id cl 0 Hin) as (k & Hk & ->).
Qed.

Lemma rel_idx g n id : node_rel g n -> In id cl -> cl !! idx_of n id = Some id.
Proof. intros Hn. apply idx_of_lookup. by destruct (r_static _ _ Hn). Qed.

(** Changing the replication bookkeeping. *)
Lemma rel_repl g n f :
  node_rel g n ->
  length (next_index_ (f (repl_ n))) = length cl -> length (match_index_ (f (repl_ n))) = length cl ->
  (role_ n = Leader -> forall k id, cl !! k = Some id ->
    1 <= nth k (next_index_ (f (repl_ n))) 0 <= llen n + 1 /\
    (id <> i -> nth k (match_index_ (f (repl_ n))) 0 <= 0 \/
                acked g (current_term_ n) id (Z.to_nat (nth k (match_index_ (f (repl_ n))) 0)))) ->
  node_rel g (on_repl f n).
Proof. intros [R1 R2 R3 R4 R5 R6 R7 R8 R9] H1 H2 H3. by split. Qed.

(** Changing its flags. *)
Lemma rel_flags g n f :
  node_rel g n -> next_index_ (f (repl_ n)) = next_index_ n -> match_index_ (f (repl_ n)) = match_index_ n ->
  node_rel g (on_repl f n).
Proof.
  intros Hn H1 H2. apply rel_repl; rewrite ?H1, ?H2; [done|apply (r_lens _ _ Hn)|apply (r_lens _ _ Hn)|apply (r_leader _ _ Hn)].
Qed.

Lemma flags_sim f (n : node) :
  next_index_ (f (repl_ n)) = next_index_ n -> match_index_ (f (repl_ n)) = match_index_ n -> sim n (on_repl f n).
Proof. intros H1 H2 g _ Hn. exists g. split; [apply rtc_refl|by apply rel_flags]. Qed.

Lemma replicate_sim d (n : node) : role_ n = Leader -> In d cl -> d <> i -> sim n (replicate_to d n).
Proof.
  intros Hl Hd Hne g Hg Hn. pose proof (r_abs _ _ Hn) as Ha. pose proof (r_snap _ _ Hn) as Hsnap.
  destruct (r_leader _ _ Hn Hl _ _ (rel_idx g n d Hn Hd)) as [Hni _]. pose proof (r_commit _ _ Hn) as Hc.
  pose proof (snap_nonneg n Hsnap) as Hs0. pose proof (llen_view n Hsnap) as Hlen.
  unfold replicate_to. rewrite (proj2 (Z.ltb_ge _ 1)) by lia.
  set (prev := nth (idx_of n d) (next_index_ n) 0 - 1). destruct (prev <? snap_base_ n) eqn:Ep.
  - exists (send (Snap (a_term (nodes g i)) i (take (Z.to_nat (snap_base_ n)) (a_log (nodes g i)))) g). split.
    + apply own_one; [|done]. apply (SendSnap cl g i (Z.to_nat (snap_base_ n))); rewrite Ha; cbn; [done|lia].
    + unfold send_install_snapshot. apply rel_send; [|done|].
      * pose proof Hn as [R1 R2 R3 R4 R5 R6 R7 R8 R9]. apply (rel_make g _ n); try done. intros m Hin. by right.
      * cbn. split; [done|]. left. rewrite Ha. cbn. f_equal. unfold log_view.
        rewrite <- Hsnap. unfold Zlen. by rewrite Nat2Z.id, take_app_length.
  - exists (send (Append (a_term (nodes g i)) i (Z.to_nat prev) (term_of (a_log (nodes g i)) (Z.to_nat prev))
                   (take kMaxBatch (drop (Z.to_nat prev) (a_log (nodes g i)))) (Z.to_nat (commit_index_ n))) g). split.
    + apply own_one; [|done]. apply (Replicate cl g i (Z.to_nat prev) kMaxBatch); rewrite Ha; cbn; [done| |lia].
      unfold Zlen in Hlen. lia.
    + apply rel_send; [|done|].
      * apply rel_repl; [|apply (r_lens _ _ Hn)|apply (r_lens _ _ Hn)|].
        -- pose proof Hn as [R1 R2 R3 R4 R5 R6 R7 R8 R9]. apply (rel_make g _ n); try done. intros m Hin. by right.
        -- intros _ k id Hk. destruct (r_leader _ _ Hn Hl k id Hk) as [H1 H2]. split; [done|].
           intros Hid. destruct (H2 Hid) as [|Hak]; [by left|right]. eapply acked_mono; [|done]. intros m Hin. by right.
      * unfold body_rel. split_and!; [lia|lia|]. left. rewrite Ha. cbn [a_term a_log abs].
        rewrite term_at_view, batch_view by (done || lia). done.
Qed.

Lemma replicate_role d (n : node) : role_ (replicate_to d n) = role_ n /\ peers_ (replicate_to d n) = peers_ n.
Proof. destruct (replicate_quiet d n) as [-> _ _ _ _ _ _ ->]. done. Qed.

Lemma fold_replicate_sim l (n : node) :
  role_ n = Leader -> (forall d, In d l -> In d cl /\ d <> i) ->
  sim n (fold_left (fun (n : node) d => replicate_to d n) l n).
Proof.
  revert n. induction l as [|d l IH]; intros n Hl Hin; [done|]. cbn [fold_left].
  etransitivity; [apply (replicate_sim d); [done|apply Hin; by left|apply Hin; by left]|].
  apply IH; [by rewrite (proj1 (replicate_role d n))|]. intros x Hx. apply Hin. by right.
Qed.

Lemma peers_in (n : node) d : static conf n -> In d (peers_ n) -> In d cl /\ d <> i.
Proof.
  intros (_ & _ & -> & _) Hd. apply list_elem_of_In, list_elem_of_filter in Hd as [H1 H2].
  rewrite Hself in H1. rewrite Hcluster in H2. split; [by apply list_elem_of_In|done].
Qed.

Lemma broadcast_sim n : sim n (broadcast_append n).
Proof.
  unfold broadcast_append. destruct (bool_decide (role_ n = Leader)) eqn:E; [|done]. cbn [negb].
  apply bool_decide_eq_true in E. intros g Hg Hn.
  apply (fold_replicate_sim (peers_ n) n E); [|done|done]. intros d. apply peers_in, (r_static _ _ Hn).
Qed.

(** *** Winning an election *)

Lemma config_rel g n : node_rel g n -> config n = cl /\ chain_empty n = false.
Proof. intros Hn. unfold config, chain_empty. destruct (r_config _ _ Hn) as (-> & -> & _). done. Qed.

Lemma in_config_rel g n id : node_rel g n -> In id cl -> in_current_config n id = true.
Proof.
  intros Hn Hin. unfold in_current_config. destruct (config_rel _ _ Hn) as [-> ->]. cbn. unfold in_config.
  apply existsb_exists. exists id. split; [done|apply Z.eqb_refl].
Qed.

Lemma quorum_rel g n : node_rel g n -> quorum n = (length cl / 2 + 1)%nat.
Proof. intros Hn. unfold quorum. by destruct (config_rel _ _ Hn) as [-> ->]. Qed.

Lemma quorum_more k : (length cl / 2 + 1 <= k)%nat -> (length cl < 2 * k)%nat.
Proof. intros Hk. pose proof (Nat.div_mod_eq (length cl) 2). pose proof (Nat.mod_upper_bound (length cl) 2). lia. Qed.

(** Enough votes are a quorum of the cluster. *)
Lemma votes_majority g (n : node) :
  reachable cl g -> node_rel g n -> role_ n = Candidate -> (quorum n <= config_votes n)%nat ->
  majority cl (votes_granted_ n).
Proof.
  intros Hg%inv_reachable Hn Hr Hq. pose proof (r_abs _ _ Hn) as Ha.
  pose proof (i_servers _ _ Hg i) as Hs. rewrite Ha in Hs. destruct (n_cand _ _ _ _ Hs Hr) as (Hnd & Hv & _).
  cbn in Hnd, Hv. split_and!; [done| |].
  - intros v Hin. destruct (Hv v Hin) as [l Hb]. apply (bo_in _ _ _ (i_ballots _ _ Hg _ Hb)).
  - rewrite (quorum_rel _ _ Hn) in Hq. apply quorum_more. etrans; [exact Hq|]. unfold config_votes. apply length_filter.
Qed.

Lemma settled_rel g n : node_rel g n -> maybe_commit_config n = n.
Proof.
  intros Hn. unfold maybe_commit_config. destruct (negb _ || _); [done|].
  destruct (r_config _ _ Hn) as (-> & _ & ->). done.
Qed.

Lemma become_leader_sim (n : node) : role_ n = Candidate -> (quorum n <= config_votes n)%nat -> sim n (become_leader n).
Proof.
  intros Hr Hq g Hg Hn. pose proof (r_abs _ _ Hn) as Ha. unfold become_leader.
  set (n1 := set_leader_hint _ _). set (n2 := on_repl _ n1). set (n3 := on_mem _ n2). set (n4 := on_life _ n3).
  pose proof Hn as [R1 R2 R3 R4 R5 R6 R7 R8 R9].
  set (g1 := win (a_term (nodes g i)) (mkElection i (a_log (nodes g i)) (a_votes (nodes g i)))
    (set_node i (mkANode (a_term (nodes g i)) (a_vote (nodes g i)) Leader (a_log (nodes g i)) (a_commit (nodes g i))
                         (a_votes (nodes g i))) g)).
  assert (Hs1 : steps g g1).
  { apply own_one; [|intros j Hj; cbn; by apply upd_other]. apply (Elect cl g i); rewrite Ha; [done|].
    by apply (votes_majority g n). }
  assert (Hn4 : node_rel g1 n4).
  { split; try done.
    - cbn. rewrite upd_same, Ha. done.
    - cbn. destruct R3 as (-> & -> & _). done.
    - cbn. rewrite length_insert, !length_map. done.
    - intros _ k id Hk. cbn. apply lookup_lt_Some in Hk as Hlt. destruct R4 as [L1 L2].
      pose proof (snap_nonneg n R5). pose proof (Zlen_nonneg (log_ n)). unfold llen in *. cbn in *. split.
      + rewrite nth_lookup, list_lookup_fmap.
        destruct (lookup_lt_is_Some_2 (next_index_ n) k) as [x ->]; [lia|]. cbn. lia.
      + intros Hid. left. rewrite nth_lookup, list_lookup_insert_ne.
        * rewrite list_lookup_fmap. by destruct (match_index_ n !! k).
        * intros Heq. apply Hid. unfold self_idx in Heq. cbn in Heq. destruct R2 as (Hcf & Hse & _).
          rewrite Hse, Hself in Heq. pose proof (idx_of_lookup n1 i Hcf Hi) as Hlook. rewrite Heq in Hlook. congruence. }
  assert (Hg1 : reachable cl g1) by (by eapply steps_reachable).
  assert (Hl4 : role_ n4 = Leader) by done.
  destruct (broadcast_sim n4 g1 Hg1 Hn4) as (g2 & Hs2 & Hn5).
  exists g2. split; [by transitivity g1|]. set (n5 := broadcast_append n4) in *.
  destruct (r_config _ _ Hn5) as (_ & -> & ->). rewrite Z.ltb_irrefl. by rewrite (settled_rel g2).
Qed.

Lemma vote_response_sim m granted n :
  m_body m = RequestVoteResp granted ->
  forall g, reachable cl g -> node_rel g n -> msg_rel g m -> m_dest m = i ->
  exists g', steps g g' /\ node_rel g' (handle_vote_response m granted n).
Proof.
  intros Hm g Hg Hn (Hsrc & Hne & Hb) Hdest. rewrite Hm in Hb. unfold handle_vote_response.
  destruct (_ || _ || _) eqn:E; [by apply sim_refl|]. rewrite !orb_false_iff, !negb_false_iff in E.
  destruct E as [[Hr%bool_decide_eq_true Ht] ->]. destruct (existsb _ _) eqn:Ex; [by apply sim_refl|].
  cbn in Hb. destruct Hb as [l Hb]. rewrite Hdest in Hb. pose proof (r_abs _ _ Hn) as Ha.
  set (n1 := on_raft _ n).
  assert (H1 : exists g1, steps g g1 /\ node_rel g1 n1).
  { eexists. split; [apply own_one|].
    - apply (Collect cl g i (m_source m) l); rewrite Ha; [done| |].
      + cbn. replace (current_term_ n) with (m_term m) by lia. done.
      + cbn. intros Hin. rewrite <- Bool.not_true_iff_false in Ex. apply Ex, existsb_exists. exists (m_source m).
        split; [done|apply Z.eqb_refl].
    - intros j Hj. cbn. by apply upd_other.
    - pose proof Hn as [R1 R2 R3 R4 R5 R6 R7 R8 R9]. apply (rel_make g _ n); try done; cbn.
      rewrite upd_same, Ha. unfold abs. cbn. by rewrite Hr. }
  destruct H1 as (g1 & Hs1 & Hn1). destruct (_ <=? _)%nat eqn:Eq; [|by exists g1].
  destruct (become_leader_sim n1 Hr ltac:(lia) g1) as (g2 & Hs2 & Hn2); [by eapply steps_reachable|done|].
  exists g2. split; [by transitivity g1|done].
Qed.

(** *** Standing for election *)

Lemma election_timeout_sim (n : node) :
  role_ n <> Leader -> 0 <= current_term_ n < 2 ^ 64 - 1 -> sim n (on_election_timeout n).
Proof.
  intros Hr Ht. unfold on_election_timeout. destruct (negb (running_ n)); [done|].
  destruct (negb _); [apply unseen_sim, unseen_arm|]. destruct (_ && _); [apply unseen_sim, unseen_arm|].
  set (n1 := arm_election_deadline _).
  assert (Hstand : forall g, reachable cl g -> node_rel g n ->
    exists g1, steps g g1 /\ node_rel g1 n1 /\ In (ReqVote (current_term_ n + 1) i (log_view n)) (net g1)).
  { intros g Hg Hn. pose proof (r_abs _ _ Hn) as Ha. eexists. split; [apply own_one|split].
    - apply (RaftProtocol.Timeout cl g i); [done|by rewrite Ha].
    - intros j Hj. cbn. by apply upd_other.
    - eapply unseen_rel; [apply unseen_arm|]. eapply unseen_rel; [apply unseen_meta|].
      eapply unseen_rel; [apply unseen_life|].
      pose proof Hn as [R1 R2 R3 R4 R5 R6 R7 R8 R9]. apply (rel_make g _ n); try done; cbn; [by right|by right|].
      destruct R2 as (_ & Hse & _). rewrite upd_same, Ha. unfold abs. cbn. rewrite Hse, Hself, vote_abs_id by done.
      by rewrite u64_id by lia.
    - cbn. left. by rewrite Ha. }
  assert (Hraft : raft_ n1 = {| (raft_ n) with current_term_ := u64 (current_term_ n + 1); role_ := Candidate;
                                               voted_for_ := self_ n; votes_granted_ := [self_ n] |}).
  { unfold n1. by rewrite (u_raft _ _ (unseen_arm _)), (u_raft _ _ (unseen_meta _)). }
  intros g Hg Hn. destruct (Hstand g Hg Hn) as (g1 & Hs1 & Hn1 & Hreq).
  assert (Hg1 : reachable cl g1) by (by eapply steps_reachable).
  destruct (quorum n1 <=? config_votes n1)%nat eqn:Eq.
  - destruct (become_leader_sim n1 ltac:(by rewrite Hraft) ltac:(lia) g1 Hg1 Hn1) as (g2 & Hs2 & Hn2).
    exists g2. split; [by transitivity g1|done].
  - exists g1. split; [done|]. pose proof (r_snap _ _ Hn1) as Hsnap.
    assert (Hpeers : forall d, In d (peers_ n1) -> In d cl /\ d <> i) by (intros d; apply peers_in, (r_static _ _ Hn1)).
    assert (Hterm : current_term_ n1 = current_term_ n + 1) by (rewrite Hraft; cbn; apply u64_id; lia).
    assert (Hview : log_view n1 = log_view n) by (unfold log_view; by rewrite Hraft).
    revert Hn1 Hpeers. generalize (peers_ n1). clearbody n1. intros l.
    assert (Hgen : forall n2 : node, raft_ n2 = raft_ n1 -> node_rel g1 n2 -> (forall d, In d l -> In d cl /\ d <> i) ->
      node_rel g1 (fold_left (fun (n : node) d => send_to d (current_term_ n) (RequestVote (llen n) (last_log_term n) (cfg_idx_ n)) n) l n2)).
    { induction l as [|d l IH]; intros n2 Hr2 Hn2 Hl; [done|]. cbn [fold_left]. apply IH; [done| |intros x Hx; apply Hl; by right].
      apply rel_send; [done|apply Hl; by left|]. cbn. exists (log_view n).
      rewrite llen_view, last_log_term_view by apply (r_snap _ _ Hn2).
      assert (log_view n2 = log_view n) as -> by (rewrite <- Hview; unfold log_view; by rewrite Hr2).
      rewrite Hr2, Hterm. done. }
    intros Hn1 Hpeers. by apply Hgen.
Qed.

(** *** Clients *)

Lemma client_sim v (n : node) :
  role_ n = Leader ->
  let e := mkEntry (current_term_ n) v in
  let n1 := append_entry e n in
  sim n (on_repl (fun r => {| r with match_index_ := <[self_idx n1 := llen n1]> (match_index_ r) |}) n1).
Proof.
  intros E e n1 g Hg Hn. pose proof (r_abs _ _ Hn) as Ha.
  eexists. split; [apply own_one|].
  - apply (Client cl g i v). by rewrite Ha.
  - intros j Hj. cbn. by apply upd_other.
  - pose proof Hn as [R1 R2 R3 R4 R5 R6 R7 R8 R9]. apply rel_repl.
    + unfold n1. apply (rel_make g _ n); try done; cbn.
      * rewrite upd_same, Ha. unfold abs. cbn. rewrite E. unfold log_view. cbn. by rewrite app_assoc.
      * unfold llen in *. cbn. rewrite Zlen_app. unfold Zlen in *. cbn. lia.
      * intros _. split_and!; [done|done|]. unfold llen. cbn. rewrite Zlen_app. unfold Zlen. cbn. lia.
    + by destruct R4.
    + cbn. rewrite length_insert. by destruct R4.
    + intros _ k id Hk. destruct (R8 E k id Hk) as [H1 H2]. unfold n1, llen in *. cbn.
      rewrite Zlen_app. pose proof (Zlen_nonneg [e]). split; [unfold Zlen in *; lia|]. intros Hid.
      rewrite nth_lookup, list_lookup_insert_ne, <- nth_lookup.
      * destruct (H2 Hid) as [|Hak]; [by left|right]. by eapply acked_mono.
      * intros Heq. apply Hid. unfold self_idx in Heq. cbn in Heq. destruct R2 as (Hcf & Hse & _).
        rewrite Hse, Hself in Heq. pose proof (idx_of_lookup (append_entry e n) i Hcf Hi) as Hlook.
        rewrite Heq in Hlook. congruence.
Qed.

Lemma submit_sim v n : sim n (submit v n).2.
Proof.
  unfold submit. destruct (_ || _) eqn:E; [done|]. apply orb_false_iff in E as [_ E].
  apply negb_false_iff, bool_decide_eq_true in E. cbn zeta.
  etransitivity; [apply (client_sim v n E)|].
  etransitivity; [apply unseen_sim, (unseen_enqueue (REntry (llen (append_entry (mkEntry (current_term_ n) v) n)) (mkEntry (current_term_ n) v)))|].
  etransitivity; [apply (flags_sim (fun r => {| r with repl_pending_ := true |})); done|].
  destruct (repl_kicked_ _); [done|]. cbn [snd].
  etransitivity; [apply (flags_sim (fun r => {| r with repl_kicked_ := true |})); done|].
  etransitivity; [apply broadcast_sim|]. apply flags_sim; reflexivity.
Qed.

(** *** Committing *)

Lemma rel_take_snapshot g n : node_rel g n -> node_rel g (take_snapshot n).
Proof.
  intros Hn. unfold take_snapshot. destruct (applied_index_ n <=? snap_base_ n) eqn:Ea; [done|].
  pose proof Hn as [R1 R2 R3 R4 R5 R6 R7 R8 R9]. set (k := Z.to_nat (applied_index_ n - snap_base_ n)).
  assert (Hk : (k <= length (log_ n))%nat) by (unfold k, llen, Zlen in *; lia).
  set (n2 := on_life _ _).
  assert (Hview : log_view n2 = log_view n) by (unfold log_view; cbn; by rewrite <- app_assoc, take_drop).
  assert (Hlen : llen n2 = llen n)
    by (unfold llen; cbn; unfold Zlen; rewrite length_drop; unfold k, llen, Zlen in *; lia).
  assert (H2 : node_rel g n2).
  { apply (rel_make g _ n); try done.
    - rewrite R1. unfold abs. rewrite Hview. cbn. f_equal. lia.
    - cbn. rewrite Zlen_app, R5. unfold Zlen. rewrite length_take. unfold k, llen, Zlen in *. lia.
    - cbn. lia.
    - rewrite Hlen. done.
    - intros Hl. rewrite Hlen. done. }
  unfold persist_snapshot. destruct (snap_base_ n2 <=? snap_persisted_base_ n2); [done|].
  assert (H3 : node_rel g (enqueue_durable (RSnapshotDelta (snap_persisted_base_ n2) (snap_base_ n2)
                (drop (Z.to_nat (snap_persisted_base_ n2)) (snap_state_ n2))) n2)) by (by eapply unseen_rel; [apply unseen_enqueue|]).
  revert H3. generalize (enqueue_durable (RSnapshotDelta (snap_persisted_base_ n2) (snap_base_ n2)
                (drop (Z.to_nat (snap_persisted_base_ n2)) (snap_state_ n2))) n2). intros n3 H3.
  pose proof H3 as [Q1 Q2 Q3 Q4 Q5 Q6 Q7 Q8 Q9]. apply (rel_make g _ _ _ H3);
    [done|done|exact Q1|done|done|done|done|exact Q5|exact Q6|exact Q7|].
  intros Hl. split_and!; [exact Hl|done|reflexivity].
Qed.

Lemma rel_apply g n : node_rel g n -> node_rel g (apply_and_maybe_snapshot n).
Proof.
  intros Hn. unfold apply_and_maybe_snapshot. set (n1 := if applied_index_ n <? commit_index_ n then _ else _).
  assert (H1 : node_rel g n1).
  { unfold n1. destruct (_ <? _); [|done]. pose proof Hn as [R1 R2 R3 R4 R5 R6 R7 R8 R9].
    apply (rel_make g _ n); try done. cbn. lia. }
  destruct (_ && _); [by apply rel_take_snapshot|done].
Qed.

Lemma highest_committable_spec n count k0 k :
  highest_committable n count k0 = Some k -> term_at n k = current_term_ n /\ (quorum n <= agreeing n k)%nat.
Proof.
  revert k0. induction count as [|count IH]; intros k0; [done|]. cbn [highest_committable].
  destruct (term_at n k0 =? current_term_ n) eqn:Et; cbn [negb]; [|apply IH].
  destruct (_ <=? _)%nat eqn:Eq; [|apply IH]. intros [= <-]. lia.
Qed.

(** The members that store a position. *)
Definition holders (n : node) (k : Z) : list Z :=
  map (fun j => nth j cl 0)
    (filter (fun j => in_current_config n (nth j (cluster (cfg_ n)) 0) &&
                      ((j =? self_idx n)%nat || (k <=? nth j (match_index_ n) 0)) = true) (seq 0 (length (match_index_ n)))).

Lemma nth_cl j : (j < length cl)%nat -> cl !! j = Some (nth j cl 0).
Proof. intros Hj. destruct (nth_lookup_or_length cl j 0); [done|lia]. Qed.

Lemma holders_majority g n k :
  node_rel g n -> (quorum n <= agreeing n k)%nat -> majority cl (holders n k).
Proof.
  intros Hn Hq. destruct (r_lens _ _ Hn) as [_ Hlen]. unfold holders. split_and!.
  - apply NoDup_fmap_2_strong; [|apply NoDup_filter, NoDup_seq]. intros x y Hx Hy He.
    apply list_elem_of_filter in Hx as [_ Hx%elem_of_seq], Hy as [_ Hy%elem_of_seq].
    eapply NoDup_lookup; [exact Hnodup|apply nth_cl; lia|]. rewrite He. apply nth_cl. lia.
  - intros v (j & <- & Hj)%in_map_iff. apply list_elem_of_In, list_elem_of_filter in Hj as [_ Hj%elem_of_seq].
    apply nth_In. lia.
  - rewrite length_map. rewrite (quorum_rel _ _ Hn) in Hq. by apply quorum_more.
Qed.

Lemma holders_acked g n k v :
  node_rel g n -> role_ n = Leader -> 0 < k -> In v (holders n k) -> v = i \/ acked g (current_term_ n) v (Z.to_nat k).
Proof.
  intros Hn Hl Hk (j & <- & Hj)%in_map_iff. destruct (r_lens _ _ Hn) as [_ Hlen].
  apply list_elem_of_In, list_elem_of_filter in Hj as [Hp Hj%elem_of_seq]. apply andb_true_iff in Hp as [_ Hp].
  destruct (decide (nth j cl 0 = i)) as [|Hne]; [by left|]. right.
  destruct (r_leader _ _ Hn Hl j (nth j cl 0) (nth_cl j ltac:(lia))) as [_ Hm].
  apply orb_true_iff in Hp as [Hp|Hp].
  - exfalso. apply Hne. apply Nat.eqb_eq in Hp. unfold self_idx in Hp. destruct (r_static _ _ Hn) as (Hcf & Hse & _).
    rewrite Hse, Hself in Hp. pose proof (idx_of_lookup n i Hcf Hi) as Hlook. rewrite <- Hp in Hlook.
    rewrite (nth_cl j) in Hlook by lia. by injection Hlook.
  - destruct (Hm Hne) as [|(k' & Hk' & Hin)]; [lia|]. exists k'. split; [lia|done].
Qed.

Lemma advance_commit_sim n : sim n (advance_commit_index n).
Proof.
  unfold advance_commit_index. destruct (bool_decide (role_ n = Leader)) eqn:E; [|done]. cbn [negb].
  apply bool_decide_eq_true in E. destruct (highest_committable _ _ _) as [k|] eqn:Eh; [|done].
  apply highest_committable_range in Eh as Hrange. apply highest_committable_spec in Eh as [Ht Hq].
  intros g Hg Hn. pose proof (r_abs _ _ Hn) as Ha. pose proof (r_snap _ _ Hn) as Hsnap.
  pose proof (llen_view n Hsnap) as Hlen. pose proof (r_commit _ _ Hn) as Hc.
  assert (Hk : commit_index_ n < k <= llen n) by lia. unfold Zlen in Hlen.
  set (g1 := send (Ack (a_term (nodes g i)) i (Z.to_nat k)) g).
  assert (Hs1 : steps g g1).
  { apply own_one; [|done]. apply (AckSelf cl g i (Z.to_nat k)); [done|by rewrite Ha|]. rewrite Ha. cbn. lia. }
  assert (Hacks : forall v, In v (holders n k) -> acked g1 (a_term (nodes g1 i)) v (Z.to_nat k)).
  { intros v Hv. change (nodes g1 i) with (nodes g i). rewrite Ha. cbn.
    destruct (holders_acked g n k v Hn E ltac:(lia) Hv) as [->|Hak].
    - exists (Z.to_nat k). split; [done|]. left. by rewrite Ha.
    - eapply acked_mono; [|done]. intros m Hin. by right. }
  eexists. split; [transitivity g1; [done|]; apply own_one|].
  - apply (Commit cl g1 i (Z.to_nat k) (holders n k)); change (nodes g1 i) with (nodes g i) in *; rewrite ?Ha; cbn.
    + done.
    + lia.
    + by rewrite <- term_at_view by (done || lia).
    + by apply (holders_majority g).
    + intros v Hv. pose proof (Hacks v Hv) as Hak. by rewrite Ha in Hak.
  - intros j Hj. cbn. by apply upd_other.
  - pose proof Hn as [R1 R2 R3 R4 R5 R6 R7 R8 R9]. apply (rel_make g _ n); try done; cbn.
    + intros m Hin. by right.
    + rewrite upd_same. change (nodes g1 i) with (nodes g i). rewrite Ha. unfold abs. cbn. rewrite E. f_equal. lia.
    + lia.
    + unfold llen in *. cbn. lia.
Qed.

Lemma commit_apply_sim n : sim n (apply_and_maybe_snapshot (advance_commit_index n)).
Proof.
  etransitivity; [apply advance_commit_sim|]. intros g _ Hn. exists g. split; [apply rtc_refl|by apply rel_apply].
Qed.

(** *** Appending *)

(** Everything but the Raft state, the queue and the timers is kept. *)
Record beside (n n' : node) : Prop := {
  b_mem : mem_ n' = mem_ n;
  b_repl : repl_ n' = repl_ n;
  b_out : outbox n' = outbox n;
  b_static : static conf n -> static conf n'
}.

#[global] Instance beside_refl : Reflexive beside.
Proof. by intros n. Qed.

#[global] Instance beside_trans : Transitive beside.
Proof. intros a b c [] []. split; congruence || auto. Qed.

Lemma beside_unseen n n' : unseen n n' -> beside n n'.
Proof. by intros []. Qed.

Lemma beside_raft f n : beside n (on_raft f n).
Proof. done. Qed.

Lemma beside_append_all es n : beside n (append_all es n).
Proof.
  unfold append_all. revert n. induction es as [|e es IH]; intros n; [done|]. cbn [fold_left].
  etransitivity; [|apply IH]. etransitivity; [apply (beside_raft (fun r => {| r with log_ := log_ r ++ [e] |}))|].
  apply beside_unseen, unseen_enqueue.
Qed.

Lemma beside_merge prev es n : beside n (merge_entries prev es n).
Proof.
  unfold merge_entries. destruct (scan_conflict _ _ _) as [k|].
  - etransitivity; [|apply beside_append_all]. destruct (_ <? _); [|done].
    etransitivity; [|apply beside_unseen, unseen_enqueue]. done.
  - destruct (_ <? _); [apply beside_append_all|done].
Qed.

Lemma beside_recognise src n : beside n (arm_election_deadline (set_leader_hint src (set_role Follower n))).
Proof. etransitivity; [|apply beside_unseen, unseen_arm]. done. Qed.

Lemma clear_watermark_raft (n : node) :
  exists w, raft_ (clear_watermark n) = {| (raft_ n) with repair_watermark_ := w |}.
Proof.
  unfold clear_watermark. destruct (_ && _); [by exists 0|]. exists (repair_watermark_ n). by destruct (raft_ n).
Qed.

Lemma beside_watermark n : beside n (clear_watermark n).
Proof. unfold clear_watermark. by destruct (_ && _). Qed.

Lemma adopt_commit_raft a (n : node) :
  raft_ (adopt_commit a n) = {| (raft_ n) with commit_index_ := Z.max (commit_index_ n) a |}.
Proof.
  unfold adopt_commit. destruct (_ <? a) eqn:E; cbn.
  - by rewrite Z.max_r by lia.
  - rewrite Z.max_l by lia. by destruct (raft_ n).
Qed.

Lemma beside_commit a n : beside n (adopt_commit a n).
Proof. unfold adopt_commit. by destruct (_ <? _). Qed.

(** The committed prefix of a related node is within its log. *)
Lemma rel_commit_len g n :
  reachable cl g -> nodes g i = abs n -> Zlen (snap_state_ n) = snap_base_ n -> commit_index_ n <= llen n.
Proof.
  intros Hg%inv_reachable Ha Hs. pose proof (n_commit _ _ _ _ (i_servers _ _ Hg i)) as [Hc _].
  rewrite Ha in Hc. cbn in Hc. rewrite (llen_view n Hs). unfold Zlen. lia.
Qed.

Lemma append_entries_sim m p pt c es n :
  m_body m = AppendEntries p pt c es ->
  forall g, reachable cl g -> node_rel g n -> msg_rel g m -> m_dest m = i -> m_term m <= current_term_ n ->
  exists g', steps g g' /\ node_rel g' (handle_append_entries m p pt c es n).
Proof.
  intros Hm g Hg Hn (Hsrc & Hne & Hb) Hdest Hle. rewrite Hm in Hb. destruct Hb as (Hp & Hc & Hin).
  rewrite Hdest in Hne. unfold handle_append_entries.
  destruct (m_term m <? current_term_ n) eqn:El.
  { exists g. split; [apply rtc_refl|]. by apply rel_send. }
  assert (Ht : m_term m = current_term_ n) by lia. rewrite Ht in Hin.
  set (n1 := arm_election_deadline _).
  assert (Hraft1 : raft_ n1 = {| (raft_ n) with role_ := Follower |}) by apply recognise_raft.
  destruct (negb _) eqn:Eok.
  { destruct (recognise_sim (m_source m) n g Hg Hn) as (g1 & Hs1 & Hn1). exists g1. split; [done|]. by apply rel_send. }
  apply negb_false_iff in Eok. pose proof Hn as [R1 R2 R3 R4 R5 R6 R7 R8 R9].
  pose proof (llen_view n R5) as Hlen. pose proof (snap_nonneg n R5) as Hs0.
  assert (Hll : llen n1 = llen n) by (unfold llen; by rewrite Hraft1).
  assert (Hview1 : log_view n1 = log_view n) by (unfold log_view; by rewrite Hraft1).
  assert (Hp1 : 0 <= p <= llen n1) by (rewrite Hll; unfold Zlen in Hlen; lia).
  assert (Hs1 : Zlen (snap_state_ n1) = snap_base_ n1) by (by rewrite Hraft1).
  destruct (merge_raft p es n1 Hs1 Hp1) as (l & Hraft2 & Hl). rewrite Hview1 in Hl.
  set (n2 := merge_entries p es n1) in *. destruct (clear_watermark_raft n2) as [w Hraft3].
  set (adopt := if c <? p + Zlen es then c else p + Zlen es).
  assert (Hadopt : adopt = Z.min c (p + Zlen es)) by (unfold adopt; destruct (c <? _) eqn:E; lia).
  set (n4 := adopt_commit adopt (clear_watermark n2)).
  assert (Hraft4 : raft_ n4 = {| (raft_ n) with role_ := Follower; log_ := l; repair_watermark_ := w;
                                                commit_index_ := Z.max (commit_index_ n) adopt |}).
  { unfold n4. rewrite adopt_commit_raft, Hraft3, Hraft2, Hraft1. done. }
  set (g1 := send (Ack (a_term (nodes g i)) i (Z.to_nat p + length es))
    (set_node i (mkANode (a_term (nodes g i)) (a_vote (nodes g i)) Follower
       (splice (Z.to_nat (snap_base_ n)) (a_log (nodes g i)) (Z.to_nat p) es)
       (a_commit (nodes g i) `max` (Z.to_nat c `min` (Z.to_nat p + length es))) (a_votes (nodes g i))) g)).
  assert (Hstep : steps g g1).
  { apply own_one; [|intros j Hj; cbn; by apply upd_other].
    apply (RecvAppend cl g i (m_source m) (Z.to_nat p) pt es (Z.to_nat c)); rewrite ?R1; cbn; [done|done|congruence| |lia].
    rewrite Hll in Eok. unfold Zlen in Hlen. apply orb_true_iff in Eok as [Eok|Eok]; [left; lia|right].
    apply andb_true_iff in Eok as [Eok1 Eok2]. split; [lia|].
    rewrite <- term_at_view by (done || lia). apply Z.eqb_eq in Eok2. rewrite <- Eok2. unfold term_at, llen. by rewrite Hraft1. }
  assert (Habs : nodes g1 i = abs n4).
  { cbn. rewrite upd_same, R1. unfold abs, log_view. rewrite Hraft4. cbn. rewrite Hraft1 in Hl. cbn in Hl. rewrite Hl.
    f_equal. rewrite Hadopt. clear - Hc Hp R7 Hs0. unfold Zlen. lia. }
  assert (Hn4 : node_rel g1 n4).
  { apply (rel_make g _ n _ Hn); [by right|done|done|..].
    1-4: apply (beside_trans _ _ _ (beside_recognise (m_source m) n)), (beside_trans _ _ _ (beside_merge p es n1)),
           (beside_trans _ _ _ (beside_watermark n2)), beside_commit.
    - by rewrite Hraft4.
    - rewrite Hraft4. cbn. lia.
    - split; [rewrite Hraft4; cbn; lia|]. apply (rel_commit_len g1); [by eapply steps_reachable|done|by rewrite Hraft4].
    - rewrite Hraft4. done. }
  exists g1. split; [done|]. fold n2. fold adopt. fold n4. apply rel_send; [by apply rel_apply|done|]. cbn. split; [unfold Zlen; lia|]. left.
  assert (Hterm : current_term_ (apply_and_maybe_snapshot n4) = current_term_ n).
  { pose proof (r_abs _ _ (rel_apply _ _ Hn4)) as Hab. pose proof (r_abs _ _ Hn4) as Hab4. rewrite Hab4 in Hab.
    apply (f_equal a_term) in Hab. cbn in Hab. rewrite <- Hab, Hraft4. done. }
  rewrite Hterm, R1. cbn. f_equal. unfold Zlen. lia.
Qed.

(** An acknowledged position is within the leader's log. *)
Lemma ack_within g n src k :
  reachable cl g -> node_rel g n -> role_ n = Leader -> In (Ack (current_term_ n) src k) (net g) ->
  Z.of_nat k <= llen n.
Proof.
  intros Hg%inv_reachable Hn Hl Hin. destruct (i_msgs _ _ Hg _ Hin) as (_ & Hk & _).
  pose proof (r_abs _ _ Hn) as Ha. pose proof (i_servers _ _ Hg i) as Hs. rewrite Ha in Hs.
  destruct (n_leader _ _ _ _ Hs Hl) as [_ Hlog]. cbn in Hlog. rewrite (llen_view n (r_snap _ _ Hn)), Hlog. unfold Zlen. lia.
Qed.

(** The leader records an acknowledgement; [nx] is the peer's new next index. *)
Lemma rel_ack g n src k nx :
  reachable cl g -> node_rel g n -> role_ n = Leader -> In src cl ->
  0 <= k -> In (Ack (current_term_ n) src (Z.to_nat k)) (net g) -> 1 <= nx <= llen n + 1 ->
  let di := idx_of n src in
  node_rel g (on_repl (fun r => {| r with
    match_index_ := if nth di (match_index_ r) 0 <? k then <[di := k]> (match_index_ r) else match_index_ r;
    next_index_ := <[di := nx]> (next_index_ r) |}) n).
Proof.
  intros Hg Hn Hl Hsrc Hk Hin Hnx di. destruct (r_lens _ _ Hn) as [L1 L2]. pose proof (rel_idx g n src Hn Hsrc) as Hdi.
  fold di in Hdi. apply lookup_lt_Some in Hdi as Hlt.
  apply rel_repl; [done|cbn; by rewrite length_insert|cbn; destruct (_ <? k); by rewrite ?length_insert|].
  intros _ j id Hj. destruct (r_leader _ _ Hn Hl j id Hj) as [H1 H2]. cbn. split.
  - rewrite nth_lookup. destruct (decide (j = di)) as [->|Hne]; [by rewrite list_lookup_insert_eq by lia|].
    by rewrite list_lookup_insert_ne, <- nth_lookup.
  - intros Hid. destruct (_ <? k) eqn:E; [|by apply H2]. destruct (decide (j = di)) as [->|Hne].
    + rewrite nth_lookup, list_lookup_insert_eq by lia. cbn. right. exists (Z.to_nat k). split; [done|].
      assert (id = src) as -> by congruence. done.
    + rewrite nth_lookup, list_lookup_insert_ne, <- nth_lookup by done. by apply H2.
Qed.

Lemma commit_role n : role_ (apply_and_maybe_snapshot (advance_commit_index n)) = role_ n.
Proof.
  assert (H1 : role_ (advance_commit_index n) = role_ n).
  { unfold advance_commit_index. destruct (negb _); [done|]. by destruct (highest_committable _ _ _). }
  rewrite <- H1. generalize (advance_commit_index n). clear. intros n. unfold apply_and_maybe_snapshot.
  set (n1 := if _ <? _ then _ else _). assert (Hr : role_ n1 = role_ n) by (unfold n1; by destruct (_ <? _)).
  rewrite <- Hr. destruct (_ && _); [|done]. unfold take_snapshot. destruct (_ <=? _); [done|]. unfold persist_snapshot.
  destruct (snap_base_ _ <=? _); [done|]. cbn. by rewrite enqueue_raft.
Qed.

Lemma append_resp_sim m ok k n :
  m_body m = AppendEntriesResp ok k ->
  forall g, reachable cl g -> node_rel g n -> msg_rel g m -> m_dest m = i -> llen n < 2 ^ 64 - 1 ->
  exists g', steps g g' /\ node_rel g' (handle_append_entries_resp m ok k n).
Proof.
  intros Hm g Hg Hn (Hsrc & Hne & Hb) Hdest Hsmall. rewrite Hm in Hb. rewrite Hdest in Hne. unfold handle_append_entries_resp.
  destruct (_ || _) eqn:E; [by apply sim_refl|]. apply orb_false_iff in E as [E Et].
  apply negb_false_iff in E, Et. apply bool_decide_eq_true in E. assert (Ht : m_term m = current_term_ n) by lia.
  pose proof (rel_idx g n _ Hn Hsrc) as Hdi. destruct ok.
  - destruct Hb as [Hk Hin]. rewrite Ht in Hin. pose proof (ack_within g n _ _ Hg Hn E Hin) as Hwithin.
    set (di := idx_of n (m_source m)) in *. set (n1 := on_repl _ n).
    assert (Hn1 : node_rel g n1).
    { assert (Hmi : 0 <= nth di (if nth di (match_index_ n) 0 <? k then <[di:=k]> (match_index_ n) else match_index_ n) 0 <= llen n).
      { destruct (r_lens _ _ Hn) as [_ L2]. apply lookup_lt_Some in Hdi as Hlt. destruct (_ <? k) eqn:Ek.
        - rewrite nth_lookup, list_lookup_insert_eq by lia. cbn. lia.
        - split; [lia|]. destruct (r_leader _ _ Hn E _ _ Hdi) as [_ Hm2]. destruct (Hm2 Hne) as [|(k' & Hk' & Hin')].
          + pose proof (r_commit _ _ Hn). lia.
          + pose proof (ack_within g n _ _ Hg Hn E Hin'). lia. }
      refine (rel_ack g n (m_source m) k (u64 (nth di (if nth di (match_index_ n) 0 <? k then <[di:=k]> (match_index_ n)
        else match_index_ n) 0 + 1)) Hg Hn E Hsrc Hk Hin _). rewrite u64_id by lia. lia. }
    destruct (commit_apply_sim n1 g Hg Hn1) as (g1 & Hs1 & Hn2). set (n2 := apply_and_maybe_snapshot _) in *.
    destruct (_ && _); [|by exists g1].
    destruct (replicate_sim (m_source m) n2 ltac:(unfold n2; by rewrite commit_role) Hsrc Hne g1) as (g2 & Hs2 & Hn3);
      [by eapply steps_reachable|done|]. exists g2. split; [by transitivity g1|done].
  - set (di := idx_of n (m_source m)) in *. set (n1 := if _ <? _ then _ else _).
    assert (Hn1 : node_rel g n1 /\ role_ n1 = Leader).
    { unfold n1. destruct (1 <? _) eqn:Eni; [|done]. split; [|done]. destruct (r_lens _ _ Hn) as [L1 L2].
      apply rel_repl; [done|cbn; by rewrite length_insert|done|]. intros _ j id Hj.
      destruct (r_leader _ _ Hn E j id Hj) as [H1 H2]. split; [|done]. cbn. rewrite nth_lookup.
      destruct (decide (j = di)) as [->|Hnj]; [|by rewrite list_lookup_insert_ne, <- nth_lookup].
      apply lookup_lt_Some in Hdi as Hlt. rewrite list_lookup_insert_eq by lia. cbn. lia. }
    destruct Hn1 as [Hn1 Hr1]. by apply (replicate_sim (m_source m) n1 Hr1 Hsrc Hne g).
Qed.

(** *** Snapshots *)

Lemma snapshot_resp_sim m k n :
  m_body m = InstallSnapshotResp k ->
  forall g, reachable cl g -> node_rel g n -> msg_rel g m -> m_dest m = i -> llen n < 2 ^ 64 - 1 ->
  exists g', steps g g' /\ node_rel g' (handle_install_snapshot_resp m k n).
Proof.
  intros Hm g Hg Hn (Hsrc & Hne & Hb) Hdest Hsmall. rewrite Hm in Hb. rewrite Hdest in Hne. unfold handle_install_snapshot_resp.
  destruct (_ || _) eqn:E; [by apply sim_refl|]. apply orb_false_iff in E as [E Et].
  apply negb_false_iff in E, Et. apply bool_decide_eq_true in E. assert (Ht : m_term m = current_term_ n) by lia.
  destruct Hb as [Hk Hin]. rewrite Ht in Hin. pose proof (ack_within g n _ _ Hg Hn E Hin) as Hwithin.
  set (n1 := on_repl _ n). assert (Hn1 : node_rel g n1).
  { apply (rel_ack g n (m_source m) k _ Hg Hn E Hsrc Hk Hin). rewrite u64_id by lia. lia. }
  by apply (replicate_sim (m_source m) n1 E Hsrc Hne g).
Qed.

(** The reply to a snapshot, once the committed prefix covers it. *)
Lemma rel_snapshot_reply g n t src lii st k :
  reachable cl g -> node_rel g n -> t = current_term_ n -> In (Snap t src st) (net g) -> src <> i ->
  k = (if lii <? snap_base_ n then snap_base_ n else lii) -> 0 <= lii <= Z.max (commit_index_ n) (snap_base_ n) ->
  exists g', steps g g' /\ node_rel g' (send_to src (current_term_ n) (InstallSnapshotResp k) n).
Proof.
  intros Hg Hn -> Hin Hne Hk Hlii. pose proof (r_abs _ _ Hn) as Ha. pose proof (snap_nonneg n (r_snap _ _ Hn)) as Hs0.
  assert (Hkb : 0 <= k <= Z.max (commit_index_ n) (snap_base_ n)) by (rewrite Hk; destruct (lii <? _) eqn:E; lia).
  eexists. split; [apply own_one|].
  - apply (AckCommitted cl g i (Z.to_nat k)); [done| |rewrite Ha; cbn; lia].
    rewrite Ha. cbn. pose proof (inv_reachable _ _ Hg) as Hinv. destruct (i_msgs _ _ Hinv _ Hin) as ((e & He & _) & _). by exists e.
  - done.
  - apply rel_send; [|done|cbn; split; [lia|left; by rewrite Ha]].
    pose proof Hn as [R1 R2 R3 R4 R5 R6 R7 R8 R9]. apply (rel_make g _ n); try done. intros m' Hin'. by right.
Qed.

Lemma rel_watermark g n : node_rel g n -> node_rel g (clear_watermark n).
Proof.
  intros Hn. unfold clear_watermark. destruct (_ && _); [|done].
  pose proof Hn as [R1 R2 R3 R4 R5 R6 R7 R8 R9]. by apply (rel_make g _ n).
Qed.

Lemma install_snapshot_sim m lii st n :
  m_body m = InstallSnapshot lii st ->
  forall g, reachable cl g -> node_rel g n -> msg_rel g m -> m_dest m = i -> m_term m <= current_term_ n ->
  (snap_base_ n < lii -> commit_index_ n < lii -> llen n <= lii) ->
  exists g', steps g g' /\ node_rel g' (handle_install_snapshot m lii st n).
Proof.
  intros Hm g Hg Hn (Hsrc & Hne & Hb) Hdest Hle Hsafe. rewrite Hm in Hb. destruct Hb as [Hlii Hin].
  rewrite Hdest in Hne. unfold handle_install_snapshot. destruct (m_term m <? current_term_ n) eqn:El; [by apply sim_refl|].
  assert (Ht : m_term m = current_term_ n) by lia. rewrite Ht in Hin.
  set (n1 := arm_election_deadline _).
  assert (Hraft1 : raft_ n1 = {| (raft_ n) with role_ := Follower |}) by apply recognise_raft.
  pose proof Hn as [R1 R2 R3 R4 R5 R6 R7 R8 R9]. pose proof (Zlen_nonneg st) as Hst0.
  set (n2 := if _ && _ then _ else _).
  assert (H2 : exists g1, steps g g1 /\ node_rel g1 n2 /\ current_term_ n2 = current_term_ n /\
                lii <= Z.max (commit_index_ n2) (snap_base_ n2)).
  { unfold n2. destruct ((snap_base_ n1 <? lii) && (commit_index_ n1 <? lii)) eqn:E.
    - rewrite Hraft1 in E. cbn in E. apply andb_true_iff in E as [E1 E2].
      eexists. split; [apply own_one|].
      + apply (RecvSnap cl g i (m_source m) st); rewrite ?R1; cbn; [done|congruence|unfold Zlen in *; lia|].
        pose proof (llen_view n R5) as Hl. unfold Zlen in *. specialize (Hsafe ltac:(lia) ltac:(lia)). lia.
      + intros j Hj. cbn. by apply upd_other.
      + set (n3 := on_life _ _). assert (Hraft3 : raft_ n3 = {| (raft_ n) with role_ := Follower; snap_state_ := st; snap_base_ := lii;
          applied_index_ := lii; commit_index_ := if commit_index_ n <? lii then lii else commit_index_ n; log_ := [] |})
          by (unfold n3; cbn; by rewrite Hraft1).
        rewrite E2 in Hraft3.
        assert (Hraft4 : raft_ (persist_snapshot_full n3) = {| (raft_ n) with role_ := Follower; snap_state_ := st;
          snap_base_ := lii; applied_index_ := lii; commit_index_ := lii; log_ := []; snap_persisted_base_ := lii |}).
        { unfold persist_snapshot_full. cbn. rewrite enqueue_raft, Hraft3. done. }
        split_and!; [|by rewrite Hraft4|rewrite Hraft4; cbn; lia].
        assert (Hbeside : beside n (persist_snapshot_full n3)).
        { transitivity n1; [apply beside_recognise|]. transitivity n3; [done|].
          unfold persist_snapshot_full. etransitivity; [|apply beside_raft]. apply beside_unseen, unseen_enqueue. }
        apply (rel_make g _ n _ Hn); [done|done| |apply Hbeside|apply Hbeside|apply Hbeside|apply Hbeside|..].
        * cbn. rewrite upd_same, R1. unfold abs, log_view. rewrite Hraft4. cbn. rewrite app_nil_r. f_equal. unfold Zlen in *. lia.
        * rewrite Hraft4. cbn. done.
        * rewrite Hraft4. cbn. lia.
        * unfold llen. rewrite Hraft4. cbn. unfold Zlen. cbn. lia.
        * rewrite Hraft4. done.
    - destruct (recognise_sim (m_source m) n g Hg Hn) as (g1 & Hs1 & Hn1). fold n1 in Hn1. exists g1.
      rewrite Hraft1 in *. cbn in *. split_and!; [done|done|done|]. lia. }
  destruct H2 as (g1 & Hs1 & Hn2 & Ht2 & Hcov).
  assert (Hn3 : node_rel g1 (clear_watermark n2)) by (by apply rel_watermark).
  destruct (clear_watermark_raft n2) as [w Hw].
  destruct (rel_snapshot_reply g1 (clear_watermark n2) (current_term_ n) (m_source m) lii st
    (if lii <? snap_base_ (clear_watermark n2) then snap_base_ (clear_watermark n2) else lii)
    (steps_reachable _ _ Hs1 Hg) Hn3) as (g2 & Hs2 & Hn4).
  - rewrite Hw. cbn. done.
  - by apply (server_steps_grow g g1).
  - done.
  - done.
  - rewrite Hw. cbn. lia.
  - exists g2. split; [by transitivity g1|done].
Qed.

(** ** Deliveries *)

Lemma step_down_raft t (n : node) :
  log_ (maybe_step_down t n) = log_ n /\ snap_base_ (maybe_step_down t n) = snap_base_ n /\
  commit_index_ (maybe_step_down t n) = commit_index_ n /\ t <= current_term_ (maybe_step_down t n).
Proof.
  unfold maybe_step_down. destruct (current_term_ n <? t) eqn:E; [|split_and!; [done..|lia]].
  rewrite (u_raft _ _ (unseen_arm _)), (u_raft _ _ (unseen_meta _)). done.
Qed.

(** A snapshot that would be adopted does not shorten the log. *)
Definition safe_snapshot (m : RaftMsg) (n : node) : Prop :=
  match m_body m with
  | InstallSnapshot lii _ => snap_base_ n < lii -> commit_index_ n < lii -> llen n <= lii
  | _ => True
  end.

Lemma dispatch_sim m n :
  forall g, reachable cl g -> node_rel g n -> msg_rel g m -> m_dest m = i -> llen n < 2 ^ 64 - 1 -> safe_snapshot m n ->
  exists g', steps g g' /\ node_rel g' (dispatch m n).
Proof.
  intros g Hg Hn Hm Hdest Hsmall Hsafe. destruct (step_down_sim (m_term m) n g Hg Hn) as (g1 & Hs1 & Hn1).
  unfold dispatch. destruct (step_down_raft (m_term m) n) as (Hl & Hb & Hc & Ht). set (n1 := maybe_step_down (m_term m) n) in *.
  assert (Hm1 : msg_rel g1 m) by (destruct (server_steps_grow _ _ Hs1) as (? & ? & _); by eapply msg_rel_mono).
  assert (Hg1 : reachable cl g1) by (by eapply steps_reachable).
  assert (Hll : llen n1 = llen n) by (unfold llen; by rewrite Hl, Hb).
  assert (Hgo : exists g2, steps g1 g2 /\ node_rel g2 (match m_body m with
    | RequestVote i t c => handle_request_vote m i t c n1
    | RequestVoteResp g => handle_vote_response m g n1
    | AppendEntries p t c es => handle_append_entries m p t c es n1
    | AppendEntriesResp s i => handle_append_entries_resp m s i n1
    | InstallSnapshot i st => handle_install_snapshot m i st n1
    | InstallSnapshotResp i => handle_install_snapshot_resp m i n1
    | ConfigChange i ms => handle_config_change m i ms n1
    | ConfigChangeResp i => handle_config_change_resp m i n1
    end)).
  { unfold safe_snapshot in Hsafe. destruct (m_body m) eqn:E.
    - by apply request_vote_sim.
    - by apply vote_response_sim.
    - by apply append_entries_sim.
    - apply append_resp_sim; [done..|by rewrite Hll].
    - apply install_snapshot_sim; [done..|]. rewrite Hll, Hb, Hc. done.
    - apply snapshot_resp_sim; [done..|by rewrite Hll].
    - destruct Hm1 as (_ & _ & Hbad). by rewrite E in Hbad.
    - destruct Hm1 as (_ & _ & Hbad). by rewrite E in Hbad. }
  destruct Hgo as (g2 & Hs2 & Hn2). exists g2. split; [by transitivity g1|done].
Qed.

(** An append of the current term does not conflict with committed entries. *)
Lemma first_conflict_terms b l es : forall p k, first_conflict b l p es = Some k ->
  exists x y, l !! (p + k)%nat = Some x /\ es !! k = Some y /\ le_term x <> le_term y.
Proof.
  induction es as [|e es IH]; intros p k; [done|]. cbn [first_conflict].
  assert (Hrec : option_map S (first_conflict b l (S p) es) = Some k ->
    exists x y, l !! (p + k)%nat = Some x /\ (e :: es) !! k = Some y /\ le_term x <> le_term y).
  { destruct (first_conflict b l (S p) es) as [j|] eqn:E; [|done]. intros [= <-].
    destruct (IH (S p) j E) as (x & y & Hx & Hy & Hne). exists x, y. split_and!; [|done..].
    by replace (p + S j)%nat with (S p + j)%nat by lia. }
  destruct (b <? S p)%nat; [|done]. destruct (l !! p) as [x|] eqn:Ex; [|done].
  destruct (decide _) as [|Hne]; [done|]. intros [= <-]. exists x, e. by rewrite Nat.add_0_r.
Qed.

Lemma no_conflict_committed g n src p pt es c k :
  reachable cl g -> node_rel g n -> In (Append (current_term_ n) src (Z.to_nat p) pt es c) (net g) -> 0 <= p ->
  scan_conflict n (p + 1) es = Some k -> Z.max (commit_index_ n) (snap_base_ n) <= p + Z.of_nat k.
Proof.
  intros Hg%inv_reachable Hn Hin Hp Hs. pose proof (r_abs _ _ Hn) as Ha. pose proof (r_snap _ _ Hn) as Hsnap.
  destruct (i_msgs _ _ Hg _ Hin) as ((e & He & _) & Hlen & Hes & _ & _).
  pose proof (n_commit _ _ _ _ (i_servers _ _ Hg i)) as Hcom. rewrite Ha in Hcom. cbn in Hcom.
  destruct (com_in_leader cl g _ _ _ _ Hg Hcom He) as [Heq _].
  replace (p + 1) with (Z.of_nat (Z.to_nat p) + 1) in Hs by lia. rewrite (scan_first n Hsnap) in Hs.
  apply first_conflict_terms in Hs as (x & y & Hx & Hy & Hne).
  destruct (decide (Z.max (commit_index_ n) (snap_base_ n) <= p + Z.of_nat k)) as [|Hgt]; [done|]. exfalso. apply Hne.
  rewrite (lookup_take_eq _ _ _ (Z.to_nat p + k)%nat Heq) in Hx by lia. rewrite Hes in Hy.
  apply lookup_take_Some in Hy as [Hy _]. rewrite lookup_drop in Hy. congruence.
Qed.

Lemma tracked_rel m n g :
  reachable cl g -> node_rel g n -> msg_rel g m -> safe_snapshot m n ->
  m_term m <= current_term_ n -> tracked m n.
Proof.
  intros Hg Hn (_ & _ & Hb) Hsafe Hle Ht. assert (Heq : m_term m = current_term_ n) by lia. unfold safe_snapshot in Hsafe.
  destruct (m_body m) as [| |p pt c es| |lii st| | |]; try done.
  - destruct Hb as (Hp & Hc & Hin). split_and!; [done|done|]. intros k Hk. rewrite Heq in Hin.
    pose proof (no_conflict_committed g n _ p pt es _ k Hg Hn Hin Hp Hk). pose proof (r_applied _ _ Hn). lia.
  - destruct Hb as [-> _]. intros H1 H2. split; [done|]. by apply Hsafe.
Qed.

Lemma dispatch_tracked m n g :
  reachable cl g -> node_rel g n -> msg_rel g m -> safe_snapshot m n -> tracked m (maybe_step_down (m_term m) n).
Proof.
  intros Hg Hn Hm Hsafe. destruct (step_down_sim (m_term m) n g Hg Hn) as (g1 & Hs1 & Hn1).
  destruct (step_down_raft (m_term m) n) as (Hl & Hb & Hc & Ht).
  apply (tracked_rel m _ g1); [by eapply steps_reachable|done| | |done].
  - destruct (server_steps_grow _ _ Hs1) as (? & ? & _). by eapply msg_rel_mono.
  - unfold safe_snapshot, llen in *. destruct (m_body m); try done. by rewrite Hl, Hb, Hc.
Qed.

(** ** Timers, the persist worker and power loss *)

Lemma timer_sim (n : node) : 0 <= current_term_ n < 2 ^ 64 - 1 -> sim n (timer_turn n).
Proof.
  intros Ht. unfold timer_turn. destruct (negb (running_ n)); [done|]. destruct (negb (recovered_ n)); [done|].
  destruct (bool_decide (role_ n = Leader)) eqn:E.
  - apply bool_decide_eq_true in E.
    etransitivity; [apply (flags_sim (fun r => {| r with repl_kicked_ := false; repl_pending_ := false |})); done|].
    etransitivity; [by instantiate (1 := if repl_pending_ n then _ else _); destruct (repl_pending_ n); [apply broadcast_sim|]|].
    set (n1 := if repl_pending_ n then _ else _). destruct (heartbeat_deadline_ n1 <=? now n1); [|done].
    etransitivity; [apply broadcast_sim|]. set (n2 := broadcast_append n1).
    etransitivity; [|apply unseen_sim, unseen_life]. intros g Hg Hn.
    exists g. split; [apply rtc_refl|]. destruct (r_config _ _ Hn) as (_ & -> & ->). done.
  - apply bool_decide_eq_false in E. destruct (_ <=? _); [by apply election_timeout_sim|done].
Qed.

Lemma persist_sim n d n' d' : persist_turn [] n d = (n', d', []) -> sim n n'.
Proof.
  unfold persist_turn. destruct (write_queue_ n) as [|r q].
  - destruct (want_sync_ n).
    + rewrite sync_honest. intros [= <- _].
      transitivity (on_pipe (fun p => {| p with want_sync_ := false |}) n); [by apply unseen_sim|].
      unfold advance_n1_self_commit. destruct (_ || _); [done|apply commit_apply_sim].
    + intros [= <- _]. by apply unseen_sim.
  - rewrite append_honest. intros [= <- _]. by apply unseen_sim.
Qed.

(** What recovery sets besides the persistent state. *)
Record rebooted (n0 n : node) : Prop := {
  rb_role : role_ n = Follower;
  rb_votes : votes_granted_ n = [];
  rb_commit : commit_index_ n = 0;
  rb_applied : applied_index_ n = snap_base_ n;
  rb_repl : repl_ n = repl_ n0;
  rb_out : outbox n = outbox n0;
  rb_config : cfg_committed_idx_ n = cfg_idx_ n
}.

Lemma adopt_rebooted s n0 : raft_ n0 = initial_raft -> rebooted n0 (adopt_replayed s n0).
Proof.
  intros Hr. unfold adopt_replayed, arm_election_deadline. destruct (uniform_range _ _ _) as [j g].
  destruct (rec_any s); split; cbn; rewrite ?Hr; done.
Qed.

Lemma recover_rebooted d n0 :
  raft_ n0 = initial_raft -> cfg_committed_idx_ n0 = cfg_idx_ n0 -> rebooted n0 (recover [] d n0).1.
Proof.
  intros Hr Hc. unfold recover. destruct (has_disk n0); cbn [negb].
  - destruct (replay _ _ _ _ _) as [s r]. cbn [fst]. by apply adopt_rebooted.
  - cbn [fst]. split; rewrite ?Hr; done.
Qed.

Lemma power_rebooted n d : rebooted (restart (crash n)) (power_cycle n d).
Proof. rewrite power_cycle_eq. by apply recover_rebooted. Qed.

(** A power loss with nothing waiting to be written: the server restarts from its
    persistent state. *)
Lemma power_sim n n' :
  pst n' = pst n -> static conf n' -> rebooted (restart (crash n)) n' -> sim n n'.
Proof.
  intros Hp Hst [B1 B2 B3 B4 B5 B6 B7] g Hg Hn. pose proof Hn as [R1 R2 R3 R4 R5 R6 R7 R8 R9].
  injection Hp as P1 P2 P3 P4 P5 P6 P7 P8. pose proof (snap_nonneg n R5) as Hs0. pose proof (Zlen_nonneg (log_ n)) as Hl0.
  eexists. split; [apply own_one|].
  - apply (Demote cl g i (Z.to_nat (snap_base_ n)) []). rewrite R1. cbn. lia.
  - intros j Hj. cbn. by apply upd_other.
  - split.
    + cbn. rewrite upd_same, R1. unfold abs, log_view. rewrite B1, B2, B3, P1, P2, P3, P4, P5. cbn. f_equal. lia.
    + done.
    + rewrite P6, B7, P7. destruct R3 as (-> & -> & _). done.
    + rewrite B5. cbn. rewrite !length_map. done.
    + by rewrite P4, P5.
    + rewrite B4, B3, P4. lia.
    + unfold llen. rewrite B3, P3, P4. lia.
    + rewrite B1. done.
    + rewrite B6. cbn. intros m Hin. apply (msg_rel_mono g); [done|done|]. by apply R9.
Qed.
End sim.
