(* ===== verification/RaftCluster.v ===== *)
(** RaftCluster: a cluster of [RaftNodeA] nodes, and its safety.

    A world holds every node with its device and every message ever sent.  A step
    is a delivery (any message, any number of times, in any order), a wake of the
    timer at any time and with any random draws, a client submission, a turn of
    the persist worker, or a power loss of one node.  The steps carry the bounds
    of the theorem: membership does not change, devices inject no faults, a power
    loss hits a node whose records are synced, a snapshot that is adopted does not
    shorten the log, and records, terms and logs stay within their widths.
    [RaftHazards] shows what happens outside these bounds. *)

From Stdlib Require Import ZArith Lia.
From stdpp Require Import base list numbers relations.
From S2P Require Import Prelude Codec Core Disk Consensus RaftProtocol RaftSafety RaftWire RaftNode RaftDurable RaftSim.

Record world := mkWorld { machines : Z -> node * disk; wire : list RaftMsg }.

Section cluster.
Context (cl : list Z) (confs : Z -> NodeConfig).

Definition initial_world : world := mkWorld (fun i => (boot (confs i), empty_disk)) [].

(** Store a machine; what it sent goes on the wire. *)
Definition put (i : Z) (n : node) (d : disk) (w : world) : world :=
  mkWorld (upd (machines w) i (flush n, d)) (wire w ++ outbox n).

(** The widths hold. *)
Definition fits (n : node) : Prop :=
  0 <= current_term_ n < 2 ^ 64 - 1 /\ llen n < 2 ^ 64 - 1.

Inductive wstep (w : world) : world -> Prop :=
| w_deliver i m t g :
    let n := env t g (machines w i).1 in
    let n' := recv (encode m) n in
    In i cl -> In m (wire w) -> msg_wf m -> fits n -> safe_snapshot m n -> Forall rec_wf (write_queue_ n') ->
    wstep w (put i n' (machines w i).2 w)
| w_timer i t g :
    let n := env t g (machines w i).1 in
    let n' := timer_turn n in
    In i cl -> fits n -> Forall rec_wf (write_queue_ n') -> wstep w (put i n' (machines w i).2 w)
| w_submit i v :
    let n' := (submit v (machines w i).1).2 in
    In i cl -> Forall rec_wf (write_queue_ n') -> wstep w (put i n' (machines w i).2 w)
| w_persist i n' d' :
    In i cl -> persist_turn [] (machines w i).1 (machines w i).2 = (n', d', []) -> Forall rec_wf (write_queue_ n') ->
    wstep w (put i n' d' w)
| w_power i :
    let n := (machines w i).1 in let d := (machines w i).2 in
    In i cl -> write_queue_ n = [] -> staged d = [] ->
    wstep w (put i (power_cycle n d) (Disk.crash d) w).

Definition runs (w : world) : Prop := rtc wstep initial_world w.

(** The deployment: distinct ids below the reserved value, and every node
    configured with its own id and the whole cluster. *)
Record deployed : Prop := {
  dp_nodup : NoDup cl;
  dp_ids : forall j, In j cl -> 0 <= j < kNil;
  dp_self : forall j, In j cl -> self_id (confs j) = j;
  dp_cluster : forall j, In j cl -> cluster (confs j) = cl;
  dp_init : forall j, In j cl -> init_config_chain (confs j) = [cl]
}.

Section safety.
Context (Hd : deployed).

(** A protocol state explains the world. *)
Record explained (g : global) (w : world) : Prop := {
  e_reach : reachable cl g;
  e_nodes : forall i, In i cl -> node_rel cl i (confs i) g (machines w i).1;
  e_disks : forall i, In i cl -> exists a b, history (confs i) (machines w i).1 (machines w i).2 a b;
  e_wire : forall m, In m (wire w) -> msg_rel cl g m
}.

(** Another server's steps leave a node related. *)
Lemma node_rel_frame i g g' n :
  (forall m, In m (net g) -> In m (net g')) -> (forall b, In b (ballots g) -> In b (ballots g')) ->
  nodes g' i = nodes g i -> node_rel cl i (confs i) g n -> node_rel cl i (confs i) g' n.
Proof.
  intros Hn Hb He [R1 R2 R3 R4 R5 R6 R7 R8 R9]. split; auto.
  - by rewrite He.
  - intros Hl k id Hk. destruct (R8 Hl k id Hk) as [H1 H2]. split; [done|]. intros Hid.
    destruct (H2 Hid) as [|Ha]; [by left|right]. by eapply acked_mono.
  - intros m Hin. eapply msg_rel_mono; [done..|]. by apply R9.
Qed.

Lemma explained_put i n d g g' w :
  In i cl -> explained g w -> steps cl i g g' -> node_rel cl i (confs i) g' n ->
  (exists a b, history (confs i) n d a b) -> explained g' (put i n d w).
Proof.
  intros Hi [E1 E2 E3 E4] Hs Hn Hh. destruct (server_steps_grow _ _ _ _ Hs) as (Hnet & Hbal & Hoth). split.
  - by eapply steps_reachable.
  - intros j Hj. cbn. unfold upd. destruct (decide (j = i)) as [->|Hne].
    + destruct Hn as [R1 R2 R3 R4 R5 R6 R7 R8 R9]. by split.
    + apply (node_rel_frame j g); [done|done|by apply Hoth|by apply E2].
  - intros j Hj. cbn. unfold upd. destruct (decide (j = i)) as [->|Hne]; [|by apply E3]. destruct Hh as (a & b & Hh).
    exists a, b. destruct Hh as [H1 H2 H3 H4 H5 H6]. by split; try done; destruct H1.
  - intros m Hin. cbn in Hin. apply in_app_iff in Hin as [Hin|Hin].
    + eapply msg_rel_mono; [done..|by apply E4].
    + by apply (r_out _ _ _ _ _ Hn).
Qed.

Lemma env_rel i g t r n : node_rel cl i (confs i) g n -> node_rel cl i (confs i) g (env t r n).
Proof. intros [R1 R2 R3 R4 R5 R6 R7 R8 R9]. by split. Qed.

Lemma env_history c t r n d a b : history c n d a b -> history c (env t r n) d a b.
Proof. intros [H1 H2 H3 H4 H5 H6]. split; try done. by destruct H1. Qed.

(** Receiving an encoded message dispatches it, if it is for this node. *)
Lemma recv_encode m n :
  msg_wf m -> recv (encode m) n = n \/ recv (encode m) n = dispatch m n /\ m_dest m = self_ n.
Proof.
  intros Hm. unfold recv. destruct (negb (running_ n)); [by left|]. destruct (negb (recovered_ n)); [by left|].
  assert (decode (encode m) = Decoded m) as ->.
  { pose proof Hm as (_ & _ & _ & _ & _ & Hlen). unfold encode. pose proof (Zlen_nonneg (payload m)).
    rewrite decode_frame by (apply crc32_word || apply u32_range).
    rewrite !u32_id by (rewrite ?u32_id; lia). rewrite !(proj2 (Z.ltb_ge _ _)) by lia. cbn zeta.
    unfold Zlen at 1 2. rewrite Nat2Z.id, firstn_all, Z.eqb_refl. by apply decode_encode_payload. }
  destruct (_ && _) eqn:E; [right|by left]. split; [done|]. apply andb_true_iff in E as [E _]. lia.
Qed.

Lemma server_run i g g' : steps cl i g g' -> rtc (step cl) g g'.
Proof. induction 1 as [|g1 g2 g3 [Hst _] _ IH]; [done|]. by eapply rtc_l. Qed.

Lemma explained_step g w w' : explained g w -> wstep w w' -> exists g', rtc (step cl) g g' /\ explained g' w'.
Proof.
  intros He Hst. destruct Hst as [i m t r n n' Hi Hin Hwf Hfits Hsafe Hrec|i t r n n' Hi Hfits Hrec|i v n' Hi Hrec
    |i n' d' Hi Hp Hrec|i n d Hi Hq Hstg]; pose proof (e_nodes _ _ He i Hi) as Hn; pose proof (e_reach _ _ He) as Hg;
    destruct (e_disks _ _ He i Hi) as (a & b & Hh); destruct Hd as [D1 D2 D3 D4 D5].
  - apply (env_rel i g t r) in Hn. apply (env_history _ t r) in Hh. fold n in Hn, Hh. unfold n' in *.
    destruct (recv_encode m n Hwf) as [Heq|[Heq Hdest]]; rewrite Heq in *.
    + exists g. split; [apply rtc_refl|]. apply (explained_put i _ _ g g); [done|done|apply rtc_refl|done|by exists a, b].
    + pose proof (e_wire _ _ He m Hin) as Hm. destruct (r_static _ _ _ _ _ Hn) as (_ & Hse & _). rewrite Hse, D3 in Hdest by done.
      destruct (dispatch_sim cl i (confs i) D1 D2 Hi (D3 i Hi) (D4 i Hi) m n g Hg Hn Hm Hdest (proj2 Hfits) Hsafe)
        as (g' & Hs & Hn'). exists g'. split; [by eapply server_run|]. apply (explained_put i _ _ g g'); [done|done|done|done|]. exists a, b.
      apply (history_op (confs i) n); [|done|done]. apply dispatch_durable.
      by apply (dispatch_tracked cl i (confs i) m n g).
  - apply (env_rel i g t r) in Hn. apply (env_history _ t r) in Hh. fold n in Hn, Hh.
    destruct (timer_sim cl i (confs i) D1 D2 Hi (D3 i Hi) (D4 i Hi) n (proj1 Hfits) g Hg Hn) as (g' & Hs & Hn').
    exists g'. split; [by eapply server_run|]. apply (explained_put i _ _ g g'); [done|done|done|done|]. exists a, b.
    apply (history_op (confs i) n); [apply timer_durable|done|done].
  - destruct (submit_sim cl i (confs i) D1 D2 Hi (D3 i Hi) (D4 i Hi) v _ g Hg Hn) as (g' & Hs & Hn').
    exists g'. split; [by eapply server_run|]. apply (explained_put i _ _ g g'); [done|done|done|done|]. exists a, b.
    apply (history_op (confs i) (machines w i).1); [apply submit_durable|done|done].
  - destruct (persist_sim cl i (confs i) D1 D2 Hi (D3 i Hi) (D4 i Hi) _ _ _ _ Hp g Hg Hn) as (g' & Hs & Hn').
    exists g'. split; [by eapply server_run|]. apply (explained_put i _ _ g g'); [done|done|done|done|].
    destruct (history_persist (confs i) _ _ n' d' a b Hp Hrec Hh) as (a' & b' & Hh' & _). by exists a', b'.
  - destruct (power_history (confs i) n d a b Hh) as (P1 & P2 & P3).
    pose proof (history_power (confs i) n d a b Hh) as Hh'.
    assert (Hpst : pst (power_cycle n d) = pst n).
    { destruct Hh as [H1 H2 H3 H4 H5 H6]. unfold n, d in *. rewrite Hstg in H5. symmetry in H5. apply stream_nil in H5 as ->.
      rewrite Hq in H3. cbn [app] in H3. rewrite app_nil_r in H3. congruence. }
    destruct (power_sim cl i (confs i) n (power_cycle n d) Hpst (d_static _ _ P2) (power_rebooted n d) g Hg Hn)
      as (g' & Hs & Hn'). exists g'. split; [by eapply server_run|]. apply (explained_put i _ _ g g'); [done|done|done|done|by exists a, []].
Qed.

Lemma boot_rel i : In i cl -> node_rel cl i (confs i) initial (boot (confs i)).
Proof.
  intros Hi. pose proof (history_boot (confs i)) as Hh. destruct Hd as [D1 D2 D3 D4 D5].
  assert (Hb : rebooted (start (construct (confs i) true)) (boot (confs i))) by (by apply recover_rebooted).
  destruct Hh as [[I1 I2 I3 I4 I5 I6 I7] _ H3 _ _ _]. destruct Hb as [B1 B2 B3 B4 B5 B6 B7].
  assert (Hq : write_queue_ (boot (confs i)) = []).
  { destruct (recover_stream (confs i) (start (construct (confs i) true)) (boot (confs i)) empty_disk [] (blank (confs i)))
      as (_ & _ & ->); done. }
  revert I2 I4 I5 I7 B1 B2 B3 B4 B5 B6 B7 H3 Hq. generalize (boot (confs i)). intros n.
  intros I2 I4 I5 I7 B1 B2 B3 B4 B5 B6 B7 H3 Hq. rewrite Hq in H3. cbn [app replay_recs] in H3.
  unfold mark_any, blank, pst in H3. injection H3 as P1 P2 P3 P4 P5 P6 P7 P8. rewrite (D5 i Hi) in P6. split.
  - unfold abs, log_view. rewrite B1, B2, B3, <- P1, <- P2, <- P3, <- P4, <- P5. done.
  - done.
  - rewrite <- P6, B7, <- P7. done.
  - rewrite B5. cbn. rewrite !length_replicate, (D4 i Hi). done.
  - done.
  - rewrite B4, B3, <- P4. lia.
  - rewrite B3. rewrite B3 in I5. lia.
  - by rewrite B1.
  - rewrite B6. done.
Qed.

(** A run from an explained world is followed by a run of the protocol. *)
Lemma steps_explained g w w' :
  explained g w -> rtc wstep w w' -> exists g', rtc (step cl) g g' /\ explained g' w'.
Proof.
  intros He Hr. revert g He. induction Hr as [|w1 w2 w3 Hs _ IH]; intros g He; [by exists g|].
  destruct (explained_step _ _ _ He Hs) as (g1 & H1 & He1). destruct (IH _ He1) as (g2 & H2 & He2).
  exists g2. split; [by etrans|done].
Qed.

Lemma initial_explained : explained initial initial_world.
Proof. split; [apply rtc_refl|apply boot_rel|intros i Hi; exists [], []; apply history_boot|done]. Qed.

Lemma runs_explained w : runs w -> exists g, explained g w.
Proof. intros Hr. destruct (steps_explained _ _ _ initial_explained Hr) as (g & _ & Hg). by exists g. Qed.
End safety.

(** C3: Election safety. In every reachable world, while a node leads a term no other
    node in that term is a leader, through lost, repeated and reordered messages,
    any timer draws and power losses of synced nodes. *)
Theorem raft_one_leader_per_term w i j :
  deployed -> runs w -> In i cl -> In j cl -> i <> j ->
  role_ (machines w i).1 = Leader -> current_term_ (machines w i).1 = current_term_ (machines w j).1 ->
  role_ (machines w j).1 <> Leader.
Proof.
  intros Hd Hr Hi Hj Hne Hri Ht Hrj. apply Hne. destruct (runs_explained Hd w Hr) as (g & [E1 E2 _ _]).
  pose proof (r_abs _ _ _ _ _ (E2 i Hi)) as Ai. pose proof (r_abs _ _ _ _ _ (E2 j Hj)) as Aj.
  apply (election_safety cl g); [done|by rewrite Ai|by rewrite Aj|by rewrite Ai, Aj].
Qed.

(** C10: Log matching. In every reachable world, two nodes whose logs hold entries of the
    same term at the same position hold the same entries up to that position, the
    snapshotted prefix included. *)
Theorem raft_log_matching w i j p x y :
  deployed -> runs w -> In i cl -> In j cl ->
  log_view (machines w i).1 !! p = Some x -> log_view (machines w j).1 !! p = Some y -> le_term x = le_term y ->
  take (S p) (log_view (machines w i).1) = take (S p) (log_view (machines w j).1).
Proof.
  intros Hd Hr Hi Hj Hx Hy Ht. destruct (runs_explained Hd w Hr) as (g & [E1 E2 _ _]).
  pose proof (r_abs _ _ _ _ _ (E2 i Hi)) as Ai. pose proof (r_abs _ _ _ _ _ (E2 j Hj)) as Aj.
  pose proof (log_matching cl g i j p x y E1) as Hm. rewrite Ai, Aj in Hm. by apply Hm.
Qed.

(** C1: State machine safety. In every reachable world, the first [k] entries are present
    and equal on any two nodes whose commit indexes reach [k], so both apply the
    same commands in the same order. *)
Theorem raft_committed_agree w i j k :
  deployed -> runs w -> In i cl -> In j cl ->
  Z.of_nat k <= commit_index_ (machines w i).1 -> Z.of_nat k <= commit_index_ (machines w j).1 ->
  take k (log_view (machines w i).1) = take k (log_view (machines w j).1) /\
  (k <= length (log_view (machines w i).1))%nat.
Proof.
  intros Hd Hr Hi Hj Hki Hkj. destruct (runs_explained Hd w Hr) as (g & [E1 E2 _ _]).
  pose proof (E2 i Hi) as Ri. pose proof (r_abs _ _ _ _ _ Ri) as Ai. pose proof (r_abs _ _ _ _ _ (E2 j Hj)) as Aj.
  split.
  - change (log_view (machines w i).1) with (a_log (abs (machines w i).1)). change (log_view (machines w j).1) with (a_log (abs (machines w j).1)).
    rewrite <- Ai, <- Aj. apply (committed_same cl); [done|rewrite Ai; cbn; lia|rewrite Aj; cbn; lia].
  - pose proof (r_commit _ _ _ _ _ Ri) as Hc. rewrite (llen_view _ (r_snap _ _ _ _ _ Ri)) in Hc. unfold Zlen in Hc. lia.
Qed.

(** C9: Leader completeness. In every reachable world, the log of a leader extends
    everything committed by any node whose term is not past the leader's: an entry
    known committed is never lost by a change of leader. *)
Theorem raft_leader_complete w i j :
  deployed -> runs w -> In i cl -> In j cl ->
  role_ (machines w j).1 = Leader -> current_term_ (machines w i).1 <= current_term_ (machines w j).1 ->
  take (Z.to_nat (commit_index_ (machines w i).1)) (log_view (machines w i).1) `prefix_of` log_view (machines w j).1.
Proof.
  intros Hd Hr Hi Hj Hrj Ht. destruct (runs_explained Hd w Hr) as (g & [E1 E2 _ _]).
  pose proof (r_abs _ _ _ _ _ (E2 i Hi)) as Ai. pose proof (r_abs _ _ _ _ _ (E2 j Hj)) as Aj.
  pose proof (leader_completeness cl g i j E1) as Hc. rewrite Ai, Aj in Hc. cbn in Hc.
  etrans; [|by apply Hc]. rewrite <- (Nat.min_l (Z.to_nat (commit_index_ (machines w i).1))
    (Z.to_nat (Z.max (commit_index_ (machines w i).1) (snap_base_ (machines w i).1)))) by lia.
  rewrite <- take_take. apply prefix_take.
Qed.
End cluster.

(** ** Executing a schedule *)

Inductive event :=
| EvDeliver (i : Z) (k : nat) (t : Z)
| EvTimer (i t : Z)
| EvSubmit (i : Z) (v : list byte)
| EvPersist (i : Z)
| EvPower (i : Z).

Definition body_wfb (b : Body) : bool :=
  match b with
  | RequestVote i t c => wordb i && wordb t && wordb c
  | RequestVoteResp _ => true
  | AppendEntries p t c es => wordb p && wordb t && wordb c && forallb entry_wfb es
  | AppendEntriesResp _ i => wordb i
  | InstallSnapshot i st => wordb i && forallb entry_wfb st
  | InstallSnapshotResp i => wordb i
  | ConfigChange i ms => wordb i && forallb wordb ms
  | ConfigChangeResp i => wordb i
  end.

Definition msg_wfb (m : RaftMsg) : bool :=
  wordb (m_term m) && wordb (m_source m) && wordb (m_dest m) && wordb (m_token m) && body_wfb (m_body m) &&
  (Zlen (payload m) <? 2 ^ 32 - 8).

Definition safeb (m : RaftMsg) (n : node) : bool :=
  match m_body m with
  | InstallSnapshot lii _ => (lii <=? snap_base_ n) || (lii <=? commit_index_ n) || (llen n <=? lii)
  | _ => true
  end.

Definition fitsb (n : node) : bool :=
  (0 <=? current_term_ n) && (current_term_ n <? 2 ^ 64 - 1) && (llen n <? 2 ^ 64 - 1).

Definition queue_okb (n : node) : bool := forallb rec_wfb (write_queue_ n).

(** The world after an event, if the event is within the bounds. *)
Definition exec (cl : list Z) (e : event) (w : world) : option world :=
  match e with
  | EvDeliver i k t =>
      m ← wire w !! k;
      let n := env t [] (machines w i).1 in
      let n' := recv (encode m) n in
      if existsb (Z.eqb i) cl && msg_wfb m && fitsb n && safeb m n && queue_okb n'
      then Some (put i n' (machines w i).2 w) else None
  | EvTimer i t =>
      let n := env t [] (machines w i).1 in
      let n' := timer_turn n in
      if existsb (Z.eqb i) cl && fitsb n && queue_okb n' then Some (put i n' (machines w i).2 w) else None
  | EvSubmit i v =>
      let n' := (submit v (machines w i).1).2 in
      if existsb (Z.eqb i) cl && queue_okb n' then Some (put i n' (machines w i).2 w) else None
  | EvPersist i =>
      match persist_turn [] (machines w i).1 (machines w i).2 with
      | (n', d', []) => if existsb (Z.eqb i) cl && queue_okb n' then Some (put i n' d' w) else None
      | _ => None
      end
  | EvPower i =>
      let '(n, d) := machines w i in
      match write_queue_ n, staged d with
      | [], [] => if existsb (Z.eqb i) cl then Some (put i (power_cycle n d) (Disk.crash d) w) else None
      | _, _ => None
      end
  end.

Fixpoint execs (cl : list Z) (es : list event) (w : world) : option world :=
  match es with
  | [] => Some w
  | e :: es' => w' ← exec cl e w; execs cl es' w'
  end.

Lemma existsb_in i cl : existsb (Z.eqb i) cl = true -> In i cl.
Proof. intros (j & Hj & E)%existsb_exists. by assert (i = j) as -> by lia. Qed.

Lemma msg_wfb_ok m : msg_wfb m = true -> msg_wf m.
Proof.
  unfold msg_wfb. rewrite !andb_true_iff. intros [[[[[H1 H2] H3] H4] H5] H6].
  split_and!; auto using wordb_ok; [|lia]. clear -H5.
  destruct (m_body m); cbn in *; rewrite ?andb_true_iff in H5; destruct_and?; split_and?; auto using wordb_ok;
    eapply forallb_ok; eauto using wordb_ok, entry_wfb_ok.
Qed.

Lemma queue_ok n : queue_okb n = true -> Forall rec_wf (write_queue_ n).
Proof. apply forallb_ok, rec_wfb_ok. Qed.

Lemma fits_ok n : fitsb n = true -> fits n.
Proof. unfold fitsb, fits. lia. Qed.

Lemma exec_step cl e w w' : exec cl e w = Some w' -> wstep cl w w'.
Proof.
  destruct e as [i k t|i t|i v|i|i]; cbn [exec].
  - destruct (wire w !! k) as [m|] eqn:Ek; [|done]. cbn. destruct (_ && _) eqn:E; [|done].
    rewrite !andb_true_iff in E. destruct E as [[[[H1 H2] H3] H4] H5]. intros [= <-].
    apply w_deliver; [by apply existsb_in|by apply (list_elem_of_In), (list_elem_of_lookup_2 _ k)|by apply msg_wfb_ok|by apply fits_ok| |by apply queue_ok].
    unfold safeb, safe_snapshot in *. destruct (m_body m); try done. lia.
  - destruct (_ && _) eqn:E; [|done]. rewrite !andb_true_iff in E. destruct E as [[H1 H2] H3]. intros [= <-].
    apply w_timer; [by apply existsb_in|by apply fits_ok|by apply queue_ok].
  - destruct (_ && _) eqn:E; [|done]. rewrite !andb_true_iff in E. destruct E as [H1 H2]. intros [= <-].
    apply w_submit; [by apply existsb_in|by apply queue_ok].
  - destruct (persist_turn _ _ _) as [[n' d'] r] eqn:Ep. destruct r; [|done]. destruct (_ && _) eqn:E; [|done].
    rewrite !andb_true_iff in E. destruct E as [H1 H2]. intros [= <-].
    apply w_persist; [by apply existsb_in|done|by apply queue_ok].
  - destruct (machines w i) as [n d] eqn:Em. destruct (write_queue_ n) eqn:Eq; [|done]. destruct (staged d) eqn:Es; [|done].
    destruct (existsb _ _) eqn:E; [|done]. pose proof (w_power cl w i) as Hp. rewrite Em in Hp. cbn [fst snd] in Hp.
    intros H. injection H as <-. apply Hp; [by apply existsb_in|done|done].
Qed.

Lemma execs_steps cl es : forall w w', execs cl es w = Some w' -> rtc (wstep cl) w w'.
Proof.
  induction es as [|e es IH]; intros w w'; cbn; [intros [= <-]; apply rtc_refl|].
  destruct (exec cl e w) as [w1|] eqn:E; [|done]. cbn. intros H. eapply rtc_l; [by eapply exec_step|by apply IH].
Qed.

(** ** A run of three nodes

    Node 0 wins term 1 and commits an entry; a second entry stays on it alone.
    Node 1 persists, loses power, recovers, wins term 2 and commits another entry
    at the position of the lost one; node 2 learns the new commit index. *)
Definition trio : list Z := [0; 1; 2].

Definition trio_conf (i : Z) : NodeConfig := mkNodeConfig i trio [] 10 20 5 8 0.

Definition takeover : list event :=
  [EvTimer 0 100; EvDeliver 1 0 100; EvDeliver 2 1 100; EvDeliver 0 2 101;
   EvSubmit 0 [Byte.x41]; EvDeliver 1 6 103; EvDeliver 2 7 103; EvDeliver 0 8 104; EvSubmit 0 [Byte.x42]] ++
  repeat (EvPersist 1) 6 ++
  [EvPower 1; EvTimer 1 500; EvDeliver 2 11 505; EvDeliver 1 12 506;
   EvSubmit 1 [Byte.x43]; EvDeliver 2 16 602; EvDeliver 1 17 603; EvTimer 1 700; EvDeliver 2 19 701].

Definition trio_world : world := default (initial_world trio_conf) (execs trio takeover (initial_world trio_conf)).

Lemma trio_runs : runs trio trio_conf trio_world.
Proof.
  unfold trio_world, runs. destruct (execs trio takeover (initial_world trio_conf)) eqn:E; [|apply rtc_refl].
  by eapply execs_steps.
Qed.

Lemma trio_deployed : deployed trio trio_conf.
Proof.
  split.
  - by apply (bool_decide_unpack _).
  - intros j [<-|[<-|[<-|[]]]]; done.
  - done.
  - done.
  - intros j [<-|[<-|[<-|[]]]]; reflexivity.
Qed.

(** The run reaches the world described: the old leader is still in term 1. *)
Lemma trio_world_state :
  map (fun i => let n := (machines trio_world i).1 in
    (role_ n, current_term_ n, commit_index_ n, map le_value (log_view n))) trio =
  [(Leader, 1, 1, [[Byte.x41]; [Byte.x42]]); (Leader, 2, 2, [[Byte.x41]; [Byte.x43]]);
   (Follower, 2, 2, [[Byte.x41]; [Byte.x43]])].
Proof. by vm_compute. Qed.

Ltac in_trio := vm_compute; tauto.

Lemma raft_one_leader_per_term_witness : role_ (machines trio_world 2).1 <> Leader.
Proof.
  apply (raft_one_leader_per_term trio trio_conf trio_world 1 2 trio_deployed trio_runs);
    [in_trio|in_trio|done|by vm_compute|by vm_compute].
Defined.

Lemma raft_log_matching_witness :
  take 1 (log_view (machines trio_world 0).1) = take 1 (log_view (machines trio_world 2).1).
Proof.
  apply (raft_log_matching trio trio_conf trio_world 0 2 0 (mkEntry 1 [Byte.x41]) (mkEntry 1 [Byte.x41]) trio_deployed trio_runs);
    [in_trio|in_trio|by vm_compute..].
Defined.

Lemma raft_committed_agree_witness :
  take 2 (log_view (machines trio_world 1).1) = take 2 (log_view (machines trio_world 2).1) /\
  (2 <= length (log_view (machines trio_world 1).1))%nat.
Proof.
  apply (raft_committed_agree trio trio_conf trio_world 1 2 2 trio_deployed trio_runs);
    [in_trio|in_trio|by vm_compute..].
Defined.

Lemma raft_leader_complete_witness :
  take (Z.to_nat (commit_index_ (machines trio_world 0).1)) (log_view (machines trio_world 0).1)
    `prefix_of` log_view (machines trio_world 1).1.
Proof.
  apply (raft_leader_complete trio trio_conf trio_world 0 1 trio_deployed trio_runs);
    [in_trio|in_trio|by vm_compute..].
Defined.
