(* ===== verification/RaftHazards.v ===== *)
(** RaftHazards: runs of [RaftNodeA] outside the bounds of [RaftCluster], in which
    a guarantee of the protocol is lost.

    The events are those of [RaftCluster], performed without its guards: a power
    loss may hit a node whose records are still queued, and a snapshot that
    shortens the log is installed. *)

From Stdlib Require Import ZArith Lia.
From stdpp Require Import base list numbers relations.
From S2P Require Import Prelude Codec Core Disk Consensus RaftProtocol RaftSafety RaftWire RaftNode RaftDurable RaftSim RaftCluster.

(** Perform an event whatever the state it finds. *)
Definition perform (w : world) (e : event) : world :=
  match e with
  | EvDeliver i k t =>
      match wire w !! k with
      | Some m => put i (recv (encode m) (env t [] (machines w i).1)) (machines w i).2 w
      | None => w
      end
  | EvTimer i t => put i (timer_turn (env t [] (machines w i).1)) (machines w i).2 w
  | EvSubmit i v => put i (submit v (machines w i).1).2 (machines w i).2 w
  | EvPersist i =>
      let '(n, d, _) := persist_turn [] (machines w i).1 (machines w i).2 in put i n d w
  | EvPower i => let '(n, d) := machines w i in put i (power_cycle n d) (Disk.crash d) w
  end.

Definition performs (conf : Z -> NodeConfig) (es : list event) : world := fold_left perform es (initial_world conf).

(** What an observer sees of each node: role, term, commit index and log values. *)
Definition observe (w : world) : list (Role * Z * Z * list (list byte)) :=
  map (fun i => let n := (machines w i).1 in (role_ n, current_term_ n, commit_index_ n, map le_value (log_view n))) trio.

(** Node 2 votes for node 0 and answers, loses power before its persist worker has
    written the vote, recovers without it and votes for node 1 in the same term:
    the term has two leaders. *)
Definition forgotten_vote : list event :=
  [EvTimer 0 100; EvTimer 1 100; EvDeliver 2 1 101; EvDeliver 0 4 102; EvPower 2; EvDeliver 2 3 103; EvDeliver 1 7 104].

Lemma unsynced_vote_elects_two :
  observe (performs trio_conf forgotten_vote) = [(Leader, 1, 0, []); (Leader, 1, 0, []); (Follower, 1, 0, [])].
Proof. by vm_compute. Qed.

(** A node that compacts as soon as two entries are retained. *)
Definition eager_conf (i : Z) : NodeConfig := mkNodeConfig i trio [] 10 20 5 1 0.

(** Node 0 ships both its entries to node 2, commits the first with node 1,
    compacts, and ships the snapshot to node 2 before the acknowledgement of the
    entries arrives; the messages that are not lost arrive in the order they were
    sent.  Node 2
    acknowledges both entries, node 0 commits the second, and the snapshot then
    clears it from node 2.  Nodes 1 and 2 elect a leader without it. *)
Definition late_snapshot : list event :=
  [EvTimer 0 100; EvDeliver 1 0 100; EvDeliver 0 2 101; EvSubmit 0 [Byte.x41]; EvSubmit 0 [Byte.x42]; EvTimer 0 102;
   EvDeliver 1 5 103; EvDeliver 0 11 104; EvTimer 0 200; EvDeliver 2 8 201; EvDeliver 0 14 202; EvDeliver 2 13 203;
   EvTimer 1 500; EvDeliver 2 17 501; EvDeliver 1 18 502; EvSubmit 1 [Byte.x43]; EvDeliver 2 22 503; EvDeliver 1 23 504].

Lemma snapshot_loses_commit :
  observe (performs eager_conf late_snapshot) =
  [(Leader, 1, 2, [[Byte.x41]; [Byte.x42]]); (Leader, 2, 2, [[Byte.x41]; [Byte.x43]]); (Follower, 2, 1, [[Byte.x41]; [Byte.x43]])].
Proof. by vm_compute. Qed.

(** A node forced into a cluster of its own persists that configuration at chain
    index 0, where recovery stops: after a power loss, with every record synced,
    it is back in the old cluster and the entries written since are gone. *)
Definition forced (i : Z) : node * disk :=
  let p := Nat.iter 2 persist_step (force_new_cluster 7 (boot (trio_conf i)), empty_disk) in
  Nat.iter 6 persist_step ((submit [Byte.x61] (timer_turn (env 500 [] p.1))).2, p.2).

Lemma force_new_cluster_not_durable :
  let '(n, d) := forced 0 in
  (role_ n, cfg_chain_ n, commit_index_ n, write_queue_ n, staged d) = (Leader, [[0]], 1, [], []) /\
  let n' := power_cycle n d in (cfg_chain_ n', log_view n', current_term_ n') = ([[0; 1; 2]], [], 0).
Proof. by vm_compute. Qed.
