(* ===== verification/Replica.v ===== *)
(** Replica: the replicated state machine: the pump of prod/ProdConsensusNode.hpp that
    applies the committed entries of a node's log to its state machine, on the cluster of
    [RaftCluster].

    The state machine (in the daemon, a SQL engine) is an arbitrary type with an arbitrary
    transition on the index and the value of an entry.  Between two turns of a pump the
    cluster takes any steps. *)

From Stdlib Require Import ZArith Lia.
From stdpp Require Import base list numbers relations.
From S2P Require Import Prelude Core Disk Consensus RaftProtocol RaftSafety RaftWire RaftNode RaftDurable RaftSim RaftCluster.
#[local] Open Scope Z_scope.

(** ** Committed prefixes *)

Section committed.
Context (cl : list Z) (confs : Z -> NodeConfig).

Lemma committed_prefix g w i : explained cl confs g w -> In i cl ->
  exists t, forall k, (k <= Z.to_nat (commit_index_ (machines w i).1))%nat ->
    com cl g (take k (log_view (machines w i).1)) t k /\ (k <= length (log_view (machines w i).1))%nat.
Proof.
  intros [E1 E2 _ _] Hi. pose proof (E2 i Hi) as Hn. pose proof (r_abs _ _ _ _ _ Hn) as Ha.
  pose proof (n_commit _ _ _ _ (i_servers _ _ (inv_reachable _ _ E1) i)) as Hc. rewrite Ha in Hc. cbn [a_log a_commit a_term abs] in Hc.
  exists (current_term_ (machines w i).1). intros k Hk. set (l := log_view (machines w i).1) in *.
  assert (Hk' : com cl g l (current_term_ (machines w i).1) k) by (eapply com_mono; [| |exact Hc]; lia).
  destruct Hk' as [Hlen Hk']. split; [|done]. split; [rewrite length_take; lia|].
  destruct Hk' as [->|(t' & k' & H1 & H2 & H3 & H4)]; [by left|]. right. exists t', k'. rewrite take_take, Nat.min_id. done.
Qed.

(** What a pump applied is the start of its node's log, as far as that is committed. *)
Lemma applied_committed g w i es t : explained cl confs g w -> In i cl -> com cl g es t (length es) ->
  (length es <= Z.to_nat (commit_index_ (machines w i).1))%nat -> es = take (length es) (log_view (machines w i).1).
Proof.
  intros He Hi Hc Hle. destruct (committed_prefix g w i He Hi) as (t' & Hp). destruct (Hp _ Hle) as [Hp' _].
  pose proof (committed_agree cl g es t (length es) _ t' (length es) (inv_reachable _ _ (e_reach _ _ _ _ He)) Hc Hp' (Nat.le_refl _)) as Heq.
  rewrite take_take, Nat.min_id, firstn_all in Heq. exact Heq.
Qed.

End committed.

Section replica.
Context {M : Type} (apply_fn : Z -> list byte -> M -> M) (blank : M).

(** [applied_], and the machine. *)
Record pump := mkPump { applied : Z; machine : M }.

Definition new_pump : pump := mkPump 0 blank.

(** The loop of one turn of [apply_pump]; at most one iteration per entry. *)
Fixpoint apply_loop (fuel : nat) (ci : Z) (lg : list LogEntry) (p : pump) : pump :=
  match fuel with
  | O => p
  | S fuel' =>
      if (applied p <? ci) && (applied p <? Zlen lg) then
        match lg !! Z.to_nat (applied p) with
        | None => p
        | Some e => apply_loop fuel' ci lg (mkPump (applied p + 1) (apply_fn (applied p + 1) (le_value e) (machine p)))
        end
      else p
  end.

Definition apply_turn (n : node) (p : pump) : pump :=
  let lg := log_view n in apply_loop (length lg) (commit_index_ n) lg p.

(** The machine after a list of commands, from index 1. *)
Definition replay (cmds : list (list byte)) : pump :=
  fold_left (fun p v => mkPump (applied p + 1) (apply_fn (applied p + 1) v (machine p))) cmds new_pump.

Lemma replay_snoc cmds v : replay (cmds ++ [v]) = mkPump (applied (replay cmds) + 1) (apply_fn (applied (replay cmds) + 1) v (machine (replay cmds))).
Proof. unfold replay. by rewrite fold_left_app. Qed.

Lemma replay_applied cmds : applied (replay cmds) = Zlen cmds.
Proof. induction cmds as [|v cmds IH] using rev_ind; [done|]. rewrite replay_snoc, Zlen_app. cbn [applied]. rewrite IH. done. Qed.

Definition values (k : nat) (lg : list LogEntry) : list (list byte) := map le_value (take k lg).

(** Where the loop stops. *)
Definition target (ci : Z) (lg : list LogEntry) : nat := Z.to_nat ci `min` length lg.

Lemma apply_loop_exact ci lg : forall fuel k, 0 <= ci -> (target ci lg - k <= fuel)%nat ->
  apply_loop fuel ci lg (replay (values k lg)) = replay (values (k `max` target ci lg) lg).
Proof.
  assert (Hk : forall k, applied (replay (values k lg)) = Z.of_nat (k `min` length lg)).
  { intros k. rewrite replay_applied. unfold Zlen, values. rewrite length_map, length_take. done. }
  assert (Hend : forall k, 0 <= ci -> (target ci lg <= k)%nat -> forall fuel, apply_loop fuel ci lg (replay (values k lg)) = replay (values k lg)).
  { intros k Hc Hle [|fuel]; [done|]. cbn [apply_loop]. rewrite Hk. unfold target, Zlen in *.
    destruct (Z.ltb_spec (Z.of_nat (k `min` length lg)) ci), (Z.ltb_spec (Z.of_nat (k `min` length lg)) (Z.of_nat (length lg))); try done. lia. }
  induction fuel as [|fuel IH]; intros k Hc Hf.
  { rewrite Hend by lia. by rewrite Nat.max_l by lia. }
  destruct (decide (target ci lg <= k)%nat) as [Hle|Hgt]; [rewrite Hend by lia; by rewrite Nat.max_l by lia|].
  unfold target in Hgt. cbn [apply_loop]. rewrite Hk, Nat.min_l by lia. unfold Zlen.
  rewrite (proj2 (Z.ltb_lt _ _)) by lia. rewrite (proj2 (Z.ltb_lt _ _)) by lia. cbn [andb]. rewrite Nat2Z.id.
  destruct (lookup_lt_is_Some_2 lg k) as [e He]; [lia|]. rewrite He.
  replace (mkPump (Z.of_nat k + 1) (apply_fn (Z.of_nat k + 1) (le_value e) (machine (replay (values k lg))))) with (replay (values (S k) lg)).
  { rewrite IH by (unfold target in *; lia). by replace (S k `max` target ci lg)%nat with (k `max` target ci lg)%nat by (unfold target in *; lia). }
  unfold values. rewrite (take_S_r _ _ _ He), map_app. cbn [map]. rewrite replay_snoc.
  change (map le_value (take k lg)) with (values k lg). rewrite Hk, Nat.min_l by lia. done.
Qed.

(** ** The replicas of a cluster *)

Context (cl : list Z) (confs : Z -> NodeConfig).

Record replicas := mkReplicas { net_world : world; pumps : Z -> pump }.

Definition initial_replicas : replicas := mkReplicas (initial_world confs) (fun _ => new_pump).

(** The cluster moves, a pump takes a turn, or a process starts again with an empty machine. *)
Inductive rstep (r : replicas) : replicas -> Prop :=
| R_cluster w' : wstep cl (net_world r) w' -> rstep r (mkReplicas w' (pumps r))
| R_apply i : In i cl -> rstep r (mkReplicas (net_world r) (upd (pumps r) i (apply_turn (machines (net_world r) i).1 (pumps r i))))
| R_restart i : In i cl -> rstep r (mkReplicas (net_world r) (upd (pumps r) i new_pump)).

Definition reached (r : replicas) : Prop := rtc rstep initial_replicas r.

(** A protocol state explains the cluster, and what each machine applied is committed. *)
Definition followed (g : global) (r : replicas) : Prop :=
  explained cl confs g (net_world r) /\
  forall i, In i cl -> exists es t, pumps r i = replay (map le_value es) /\ com cl g es t (length es).

Lemma turn_followed g w i es t : explained cl confs g w -> In i cl -> com cl g es t (length es) ->
  exists es' t', apply_turn (machines w i).1 (replay (map le_value es)) = replay (map le_value es') /\ com cl g es' t' (length es').
Proof.
  intros He Hi Hc. set (n := (machines w i).1). destruct (committed_prefix cl confs g w i He Hi) as (t' & Hp).
  pose proof (r_commit _ _ _ _ _ (e_nodes _ _ _ _ He i Hi)) as Hci. fold n in Hci, Hp. unfold apply_turn.
  destruct (decide (length es <= Z.to_nat (commit_index_ n))%nat) as [Hle|Hgt].
  - pose proof (applied_committed cl confs g w i es t He Hi Hc Hle) as Heq. fold n in Heq. destruct (Hp _ (Nat.le_refl _)) as [Hcom Hlen].
    exists (take (Z.to_nat (commit_index_ n)) (log_view n)), t'. split; [|by rewrite length_take, Nat.min_l].
    rewrite Heq at 1. change (map le_value (take (length es) (log_view n))) with (values (length es) (log_view n)).
    rewrite apply_loop_exact by (unfold target; lia). unfold target, values. f_equal. f_equal. f_equal. lia.
  - exists es, t. split; [|done]. assert (Ha : applied (replay (map le_value es)) = Z.of_nat (length es)).
    { rewrite replay_applied. unfold Zlen. by rewrite length_map. }
    destruct (length (log_view n)) as [|f]; [done|]. cbn [apply_loop]. rewrite Ha.
    by rewrite (proj2 (Z.ltb_ge _ _)) by lia.
Qed.

Lemma followed_step g r r' : deployed cl confs -> followed g r -> rstep r r' -> exists g', followed g' r'.
Proof.
  intros Hd [He Hp] Hs. destruct Hs as [w' Hw|i Hi|i Hi].
  - destruct (explained_step cl confs Hd g (net_world r) w' He Hw) as (g' & Hrun & He'). exists g'. split; [done|].
    intros i Hi. destruct (Hp i Hi) as (es & t & H1 & H2). exists es, t. split; [done|].
    pose proof (reach_ext cl g g' (e_reach _ _ _ _ He) Hrun) as Hx. eapply com_ext; [|exact Hx|exact H2].
    apply (i_msgs _ _ (inv_reachable _ _ (e_reach _ _ _ _ He))).
  - exists g. split; [done|]. intros j Hj. cbn [pumps net_world]. unfold upd. destruct (decide (j = i)) as [->|Hne]; [|by apply Hp].
    destruct (Hp i Hi) as (es & t & -> & H2). by apply (turn_followed g _ i es t).
  - exists g. split; [done|]. intros j Hj. cbn [pumps net_world]. unfold upd. destruct (decide (j = i)) as [->|Hne]; [|by apply Hp].
    exists [], 0. split; [done|]. split; [done|by left].
Qed.

Lemma reached_followed r : deployed cl confs -> reached r -> exists g, followed g r.
Proof.
  intros Hd Hr. assert (H0 : followed initial initial_replicas).
  { split; [by apply initial_explained|]. intros i Hi. exists [], 0. split; [done|]. split; [done|by left]. }
  revert H0. generalize initial. unfold reached in Hr. induction Hr as [|r1 r2 r3 Hs _ IH]; intros g Hg; [by exists g|].
  destruct (followed_step g r1 r2 Hd Hg Hs) as (g' & Hg'). by apply (IH g').
Qed.
End replica.

(** ** Properties *)


(** ** Instances *)

(** A machine that keeps the commands it was given. *)
Definition record_cmd (i : Z) (v : list byte) (m : list (Z * list byte)) : list (Z * list byte) := m ++ [(i, v)].

Lemma cluster_lift {M} (apply_fn : Z -> list byte -> M -> M) blank cl w w' ps :
  rtc (wstep cl) w w' -> rtc (rstep apply_fn blank cl) (mkReplicas w ps) (mkReplicas w' ps).
Proof. induction 1 as [|w1 w2 w3 Hs _ IH]; [apply rtc_refl|]. eapply rtc_l; [|exact IH]. exact (R_cluster apply_fn blank cl (mkReplicas w1 ps) w2 Hs). Qed.

(** The run of [RaftCluster] in which a new leader replaces an entry the old one never
    committed; then the pumps of all three nodes take a turn. *)
Definition pumped (r : replicas) (i : Z) : replicas :=
  mkReplicas (net_world r) (upd (pumps r) i (apply_turn record_cmd (machines (net_world r) i).1 (pumps r i))).

Definition trio_replicas : replicas := fold_left pumped trio (mkReplicas trio_world (fun _ => new_pump [])).

Lemma pumped_step r i : In i trio -> rstep record_cmd [] trio r (pumped r i).
Proof. intros Hi. exact (R_apply record_cmd [] trio r i Hi). Qed.

Lemma trio_reached : reached record_cmd [] trio trio_conf trio_replicas.
Proof.
  unfold reached, trio_replicas, initial_replicas. etrans; [apply cluster_lift, trio_runs|]. cbn [fold_left trio].
  eapply rtc_l; [apply (pumped_step _ 0); cbn; tauto|]. eapply rtc_l; [apply (pumped_step _ 1); cbn; tauto|].
  eapply rtc_l; [apply (pumped_step _ 2); cbn; tauto|]. apply rtc_refl.
Qed.


(** The daemon recovers its SQL engine from its own files, while the pump of a new process
    starts at zero: every entry is applied again to a machine that already holds it. *)
Example durable_machine_replayed :
  let n := (machines trio_world 1).1 in
  let before := machine (apply_turn record_cmd n (new_pump [])) in
  machine (apply_turn record_cmd n (mkPump 0 before)) = before ++ before.
Proof. by vm_compute. Qed.
