(* ===== verification/BigEndian.v ===== *)
(** BigEndian: big-endian integers, shared by the SQL codecs.  [be_bytes] and
    [be_val] mirror [le_bytes] and [le_val]; the lexicographic order of byte
    strings of one length is the order of their values, which is why the storage
    forms of the SQL types sort as the values do. *)

From Stdlib Require Import ZArith Lia.
From stdpp Require Import base list numbers.
From S2P Require Import Prelude Codec.

Definition be_bytes (n : nat) (v : Z) : list byte := rev (le_bytes n v).

Definition be_val (l : list byte) : Z := le_val (rev l).

Lemma length_be_bytes n v : length (be_bytes n v) = n.
Proof. unfold be_bytes. by rewrite length_rev, length_le_bytes. Qed.

Lemma be_val_bytes n v : be_val (be_bytes n v) = v mod 256 ^ Z.of_nat n.
Proof. unfold be_val, be_bytes. by rewrite rev_involutive, le_val_bytes. Qed.

Lemma be_bytes_val l : be_bytes (length l) (be_val l) = l.
Proof. unfold be_val, be_bytes. rewrite <- (length_rev l), le_bytes_val. apply rev_involutive. Qed.

Lemma be_val_range l : 0 <= be_val l < 256 ^ Z.of_nat (length l).
Proof. unfold be_val. rewrite <- length_rev. apply le_val_range. Qed.

Lemma le_val_app a b : le_val (a ++ b) = le_val a + 256 ^ Z.of_nat (length a) * le_val b.
Proof.
  induction a as [|x a IH]; cbn [app le_val length]; [change (256 ^ Z.of_nat 0) with 1; lia|].
  rewrite IH, Nat2Z.inj_succ, Z.pow_succ_r by lia. ring.
Qed.

Lemma be_val_app a b : be_val (a ++ b) = be_val a * 256 ^ Z.of_nat (length b) + be_val b.
Proof. unfold be_val. rewrite rev_app_distr, le_val_app, length_rev. ring. Qed.

Lemma be_val_cons x l : be_val (x :: l) = Zb x * 256 ^ Z.of_nat (length l) + be_val l.
Proof. change (x :: l) with ([x] ++ l). rewrite be_val_app. cbn. lia. Qed.

(** Byte strings of one length compare as their values. *)
Lemma key_ltb_be a : forall b, length a = length b -> key_ltb a b = (be_val a <? be_val b).
Proof.
  induction a as [|x a IH]; intros [|y b] Hl; try done. injection Hl as Hl. cbn [key_ltb].
  rewrite !be_val_cons, Hl, (IH b Hl). pose proof (be_val_range a) as Ra. rewrite Hl in Ra. pose proof (be_val_range b) as Rb.
  set (p := 256 ^ Z.of_nat (length b)) in *.
  destruct (Zb x <? Zb y) eqn:E1; [|destruct (Zb y <? Zb x) eqn:E2].
  - symmetry. apply Z.ltb_lt. assert (Zb x * p + p <= Zb y * p) by nia. lia.
  - symmetry. apply Z.ltb_ge. assert (Zb y * p + p <= Zb x * p) by nia. lia.
  - assert (Zb x = Zb y) as -> by lia. destruct (be_val a <? be_val b) eqn:E; lia.
Qed.

Lemma be_val_inj a b : length a = length b -> be_val a = be_val b -> a = b.
Proof. intros Hl E. rewrite <- (be_bytes_val a), <- (be_bytes_val b). congruence. Qed.

(** The folds the decoders run, with the accumulator wrapping at [2 ^ w]. *)
Lemma fold_be (w : Z) l : forall acc, 0 <= acc -> 8 <= w -> acc * 256 ^ Z.of_nat (length l) + be_val l < 2 ^ w ->
  fold_left (fun v b => Z.lor (Z.shiftl v 8 mod 2 ^ w) (Zb b)) l acc = acc * 256 ^ Z.of_nat (length l) + be_val l.
Proof.
  induction l as [|x l IH]; intros acc Ha Hw Hb; cbn [fold_left length].
  - change (256 ^ Z.of_nat 0) with 1. change (be_val []) with 0. lia.
  - revert Hb. cbn [length]. rewrite be_val_cons, Nat2Z.inj_succ, Z.pow_succ_r by lia. pose proof (Zb_range x) as Rx.
    pose proof (be_val_range l) as Rl. assert (0 < 256 ^ Z.of_nat (length l)) by (apply Z.pow_pos_nonneg; lia). intros Hb.
    assert (acc * 256 + Zb x < 2 ^ w) by nia.
    rewrite Z.mod_small by (rewrite Z.shiftl_mul_pow2 by lia; change (2 ^ 8) with 256; lia).
    rewrite Z.lor_comm, lor_shiftl_add by (lia || done). change (2 ^ 8) with 256. rewrite IH by (lia || nia). ring.
Qed.

(** ** Single bits *)

Lemma land_one x s : 0 <= s -> Z.land (Z.shiftr x s) 1 = Z.b2z (Z.testbit x s).
Proof.
  intros Hs. change 1 with (Z.ones 1). rewrite Z.land_ones, Z.shiftr_div_pow2 by lia. change (2 ^ 1) with 2.
  by rewrite Z.testbit_spec'.
Qed.

Lemma lor_pow2 x s : 0 <= s -> Z.testbit x s = false -> Z.lor x (2 ^ s) = x + 2 ^ s.
Proof.
  intros Hs Hx. assert (Hz : Z.land x (2 ^ s) = 0).
  { apply Z.bits_inj'. intros i Hi. rewrite Z.land_spec, Z.bits_0, Z.pow2_bits_eqb by done.
    destruct (Z.eqb_spec s i) as [->|]; [by rewrite Hx|apply andb_false_r]. }
  rewrite <- Z.lxor_lor by done. by rewrite Z.add_nocarry_lxor.
Qed.
