(* ===== verification/Uint256.v ===== *)
(** Uint256: the 256-bit unsigned integer of the SQL engine
    (query/sql/Uint256.hpp): four 64-bit limbs, least significant first, with
    checked arithmetic, decimal conversion and the 32-byte big-endian storage
    form.  A loop over the limbs is a recursion over the list of limbs, with the
    carry or the borrow as an argument; [unsigned __int128] wraps at 2^128. *)

From Stdlib Require Import ZArith Lia.
From stdpp Require Import base list numbers.
From S2P Require Import Prelude Codec BigEndian.

Definition u128 (z : Z) : Z := z mod 2 ^ 128.

Definition u256 := list Z.

Definition u256_zero : u256 := [0; 0; 0; 0].

(** The comparison from the most significant limb down. *)
Fixpoint cmp_limbs (a b : list Z) : Z :=
  match a, b with
  | x :: a', y :: b' => if x <? y then -1 else if y <? x then 1 else cmp_limbs a' b'
  | _, _ => 0
  end.

Definition u256_cmp (a b : u256) : Z := cmp_limbs (rev a) (rev b).

Fixpoint add_limbs (a b : list Z) (carry : Z) : list Z * Z :=
  match a, b with
  | x :: a', y :: b' =>
      let s := u128 (x + y + carry) in
      let '(r, c) := add_limbs a' b' (Z.shiftr s 64) in (u64 s :: r, c)
  | _, _ => ([], carry)
  end.

Definition u256_add (a b : u256) : u256 * bool :=
  let '(r, carry) := add_limbs a b 0 in (r, negb (carry =? 0)).

Fixpoint sub_limbs (a b : list Z) (borrow : Z) : list Z * Z :=
  match a, b with
  | x :: a', y :: b' =>
      let d := u128 (x - y - borrow) in
      let '(r, c) := sub_limbs a' b' (Z.land (Z.shiftr d 64) 1) in (u64 d :: r, c)
  | _, _ => ([], borrow)
  end.

Definition u256_sub (a b : u256) : u256 * bool :=
  let '(r, borrow) := sub_limbs a b 0 in (r, negb (borrow =? 0)).

(** One row of the product; [prod] starts at [prod[i]]. *)
Fixpoint mul_row (x : Z) (b prod : list Z) (carry : Z) : list Z :=
  match b, prod with
  | y :: b', p :: prod' =>
      let s := u128 (x * y + p + carry) in u64 s :: mul_row x b' prod' (Z.shiftr s 64)
  | [], p :: prod' => u64 (p + u64 carry) :: prod'
  | _, [] => []
  end.

(** The rows; each row leaves the lowest limb of [prod] final. *)
Fixpoint mul_rows (a b prod : list Z) : list Z :=
  match a with
  | [] => prod
  | x :: a' =>
      match mul_row x b prod 0 with
      | p :: prod' => p :: mul_rows a' b prod'
      | [] => []
      end
  end.

Definition u256_mul (a b : u256) : u256 * bool :=
  let prod := mul_rows a b (replicate 8 0) in
  (take 4 prod, existsb (fun p => negb (p =? 0)) (drop 4 prod)).

(** [rem <<= 1]; the carry out of the top limb is dropped. *)
Fixpoint shl_limbs (a : list Z) (carry : Z) : list Z :=
  match a with
  | x :: a' => let v := u128 (Z.lor (Z.shiftl x 1) carry) in u64 v :: shl_limbs a' (Z.shiftr v 64)
  | [] => []
  end.

Definition limb (a : list Z) (i : nat) : Z := nth i a 0.

Definition set_limb (i : nat) (x : Z) (a : list Z) : list Z := <[i := x]> a.

Definition divmod_step (a b : u256) (bit : nat) (s : u256 * u256) : u256 * u256 :=
  let '(q, rem) := s in
  let rem := shl_limbs rem 0 in
  let i := (bit / 64)%nat in
  let shift := Z.of_nat (bit mod 64) in
  let rem := set_limb 0 (Z.lor (limb rem 0) (Z.land (Z.shiftr (limb a i) shift) 1)) rem in
  if 0 <=? u256_cmp rem b
  then (set_limb i (Z.lor (limb q i) (u64 (Z.shiftl 1 shift))) q, (u256_sub rem b).1)
  else (q, rem).

(** The loop over the [bits] lowest bits, from the highest of them down. *)
Fixpoint divmod_loop (bits : nat) (a b : u256) (s : u256 * u256) : u256 * u256 :=
  match bits with
  | O => s
  | S bit => divmod_loop bit a b (divmod_step a b bit s)
  end.

Definition u256_divmod (a b : u256) : option (u256 * u256) :=
  if u256_cmp b u256_zero =? 0 then None
  else Some (divmod_loop 256 a b (u256_zero, u256_zero)).

Definition u256_from_u64 (x : Z) : u256 := [x; 0; 0; 0].

Definition ten : u256 := [10; 0; 0; 0].

Fixpoint skip_blanks (l : list byte) : list byte :=
  match l with
  | c :: l' => if (Zb c =? 32) || (Zb c =? 9) then skip_blanks l' else l
  | [] => []
  end.

Definition skip_plus (l : list byte) : list byte :=
  match l with
  | c :: l' => if Zb c =? 43 then l' else l
  | [] => []
  end.

Definition is_digit (c : byte) : bool := (48 <=? Zb c) && (Zb c <=? 57).

Fixpoint dec_loop (l : list byte) (v : u256) : option u256 :=
  match l with
  | [] => Some v
  | c :: l' =>
      if negb (is_digit c) then None
      else
        let '(m, o) := u256_mul v ten in
        if o then None
        else
          let '(v', o') := u256_add m [Zb c - 48; 0; 0; 0] in
          if o' then None else dec_loop l' v'
  end.

Definition u256_from_dec (l : list byte) : option u256 :=
  match skip_plus (skip_blanks l) with
  | [] => None
  | body => dec_loop body u256_zero
  end.

(** The digits, least significant first; 2^256 has 78 digits. *)
Fixpoint digits (fuel : nat) (cur : u256) : list byte :=
  match fuel with
  | O => []
  | S fuel' =>
      if u256_cmp cur u256_zero =? 0 then []
      else
        match u256_divmod cur ten with
        | Some (q, rem) => bZ (48 + limb rem 0) :: digits fuel' q
        | None => []
        end
  end.

Definition u256_to_dec (v : u256) : list byte :=
  if u256_cmp v u256_zero =? 0 then [bZ 48] else rev (digits 78 v).

Definition limb_bytes (x : Z) : list byte :=
  map (fun b => bZ (Z.shiftr x (8 * (7 - Z.of_nat b)))) (seq 0 8).

Definition u256_encode (v : u256) : list byte := flat_map limb_bytes (rev v).

Definition limb_of_bytes (l : list byte) : Z :=
  fold_left (fun acc b => Z.lor (u64 (Z.shiftl acc 8)) (Zb b)) l 0.

Definition u256_decode (s : list byte) : u256 :=
  if (length s =? 32)%nat
  then map (fun i => limb_of_bytes (take 8 (drop ((3 - i) * 8) s))) (seq 0 4)
  else u256_zero.

(** ** Values of limb lists *)

Definition word64 (x : Z) : Prop := 0 <= x < 2 ^ 64.

Definition val (a : list Z) : Z := fold_right (fun d acc => d + 2 ^ 64 * acc) 0 a.

Definition weight (n : nat) : Z := (2 ^ 64) ^ Z.of_nat n.

Definition wf (a : u256) : Prop := length a = 4%nat /\ Forall word64 a.

Lemma weight_S n : weight (S n) = 2 ^ 64 * weight n.
Proof. unfold weight. rewrite Nat2Z.inj_succ, Z.pow_succ_r by lia. done. Qed.

Lemma weight_pos n : 0 < weight n.
Proof. unfold weight. apply Z.pow_pos_nonneg; lia. Qed.

Lemma val_app a b : val (a ++ b) = val a + weight (length a) * val b.
Proof. induction a as [|x a IH]; cbn [app val fold_right length]; [change (weight 0) with 1; fold (val b); lia|].
  fold (val (a ++ b)) (val a). rewrite IH, weight_S. ring. Qed.

Lemma val_range a : Forall word64 a -> 0 <= val a < weight (length a).
Proof.
  induction 1 as [|x a Hx _ IH]; [by unfold weight; cbn|]. cbn [val fold_right length]. fold (val a).
  rewrite weight_S. unfold word64 in Hx. lia.
Qed.

Lemma val_zeros n : val (replicate n 0) = 0.
Proof. induction n as [|n IH]; [done|]. cbn [replicate val fold_right]. fold (val (replicate n 0)). lia. Qed.

Lemma val_inj a : forall b, Forall word64 a -> Forall word64 b -> length a = length b -> val a = val b -> a = b.
Proof.
  induction a as [|x a IH]; intros [|y b] Ha Hb Hl; try done. inversion Ha; inversion Hb; subst. unfold word64 in *.
  cbn [val fold_right] in *. fold (val a) (val b). intros E. assert (x = y /\ val a = val b) as [-> E'] by lia.
  f_equal. apply IH; auto.
Qed.

Lemma wf_range a : wf a -> 0 <= val a < 2 ^ 256.
Proof. intros [Hl Ha]. apply val_range in Ha. by rewrite Hl in Ha. Qed.

Lemma wf_inj a b : wf a -> wf b -> val a = val b -> a = b.
Proof. intros [H1 H2] [H3 H4]. apply val_inj; congruence. Qed.

Lemma wf_zero : wf u256_zero.
Proof. split; [done|]. by repeat constructor. Qed.

Lemma split_word s : 0 <= s < 2 ^ 128 -> word64 (u64 (u128 s)) /\ u64 (u128 s) + 2 ^ 64 * Z.shiftr (u128 s) 64 = s.
Proof.
  intros Hs. unfold u128. rewrite Z.mod_small, Z.shiftr_div_pow2 by lia. unfold u64. split.
  - apply Z.mod_pos_bound. lia.
  - pose proof (Z.div_mod s (2 ^ 64)). lia.
Qed.

(** ** Comparison, addition and subtraction *)

Lemma cmp_limbs_snoc a b x y : length a = length b ->
  cmp_limbs (a ++ [x]) (b ++ [y]) = if cmp_limbs a b =? 0 then (if x <? y then -1 else if y <? x then 1 else 0) else cmp_limbs a b.
Proof.
  revert b. induction a as [|u a IH]; intros [|v b] Hl; try done. cbn. destruct (u <? v); [done|].
  destruct (v <? u); [done|]. apply IH. by injection Hl.
Qed.

Lemma cmp_limbs_val a : forall b, length a = length b -> Forall word64 a -> Forall word64 b ->
  cmp_limbs (rev a) (rev b) = if val a <? val b then -1 else if val b <? val a then 1 else 0.
Proof.
  induction a as [|x a IH]; intros [|y b] Hl Ha Hb; try done. inversion Ha; inversion Hb; subst. injection Hl as Hl.
  cbn [rev]. rewrite cmp_limbs_snoc, IH by (done || by rewrite !length_rev). unfold word64 in *.
  cbn [val fold_right]. fold (val a) (val b).
  destruct (val a <? val b) eqn:E1; [|destruct (val b <? val a) eqn:E2]; cbn [Z.eqb].
  - by rewrite (proj2 (Z.ltb_lt _ _)) by lia.
  - rewrite (proj2 (Z.ltb_ge _ _)) by lia. by rewrite (proj2 (Z.ltb_lt _ _)) by lia.
  - assert (val a = val b) as -> by lia.
    replace (x + 2 ^ 64 * val b <? y + 2 ^ 64 * val b) with (x <? y) by lia.
    by replace (y + 2 ^ 64 * val b <? x + 2 ^ 64 * val b) with (y <? x) by lia.
Qed.

Lemma u256_cmp_val a b : wf a -> wf b -> u256_cmp a b = if val a <? val b then -1 else if val b <? val a then 1 else 0.
Proof. intros [] []. apply cmp_limbs_val; congruence. Qed.

Lemma add_limbs_val a : forall b c r c', length a = length b -> Forall word64 a -> Forall word64 b -> 0 <= c <= 1 ->
  add_limbs a b c = (r, c') ->
  length r = length a /\ Forall word64 r /\ 0 <= c' <= 1 /\ val r + weight (length a) * c' = val a + val b + c.
Proof.
  induction a as [|x a IH]; intros [|y b] c r c' Hl Ha Hb Hc; try done; cbn [add_limbs].
  { intros [= <- <-]. change (weight (length [])) with 1. cbn [val fold_right]. split_and!; try lia; done. }
  inversion Ha; inversion Hb; subst. injection Hl as Hl. unfold word64 in *.
  destruct (split_word (x + y + c)) as [Hw Hs]; [lia|]. revert Hw Hs. generalize (u128 (x + y + c)). intros s Hw Hs.
  destruct (add_limbs a b (Z.shiftr s 64)) as [r1 c1] eqn:E. intros [= <- <-].
  unfold word64 in Hw. assert (Hc1 : 0 <= Z.shiftr s 64 <= 1) by lia.
  destruct (IH b _ _ _ Hl ltac:(done) ltac:(done) Hc1 E) as (I1 & I2 & I3 & I4).
  cbn [length val fold_right]. fold (val r1) (val a) (val b). rewrite weight_S. split_and!; try lia. by constructor.
Qed.

Lemma sub_limbs_val a : forall b c r c', length a = length b -> Forall word64 a -> Forall word64 b -> 0 <= c <= 1 ->
  sub_limbs a b c = (r, c') ->
  length r = length a /\ Forall word64 r /\ 0 <= c' <= 1 /\ val r - weight (length a) * c' = val a - val b - c.
Proof.
  induction a as [|x a IH]; intros [|y b] c r c' Hl Ha Hb Hc; try done; cbn [sub_limbs].
  { intros [= <- <-]. change (weight (length [])) with 1. cbn [val fold_right]. split_and!; try lia; done. }
  inversion Ha; inversion Hb; subst. injection Hl as Hl. unfold word64 in *.
  assert (Hd : exists k, 0 <= k <= 1 /\ u128 (x - y - c) = x - y - c + k * 2 ^ 128 /\ Z.land (Z.shiftr (u128 (x - y - c)) 64) 1 = k /\
    u64 (u128 (x - y - c)) = x - y - c + k * 2 ^ 64).
  { unfold u128. destruct (decide (0 <= x - y - c)).
    - exists 0. rewrite (Z.mod_small (x - y - c)), Z.shiftr_div_pow2, (Z.div_small (x - y - c)) by lia. split_and!; try lia; [done|].
      unfold u64. rewrite Z.mod_small; lia.
    - exists 1. assert (E : (x - y - c) mod 2 ^ 128 = x - y - c + 2 ^ 128).
      { rewrite <- (Z_mod_plus_full _ 1), Z.mod_small; lia. }
      rewrite E, Z.shiftr_div_pow2 by lia. split_and!; try lia.
      + assert ((x - y - c + 2 ^ 128) / 2 ^ 64 = 2 ^ 64 - 1) as -> by (symmetry; apply Z.div_unique with (x - y - c + 2 ^ 64); lia). done.
      + unfold u64. replace (x - y - c + 2 ^ 128) with ((x - y - c + 2 ^ 64) + (2 ^ 64 - 1) * 2 ^ 64) by ring.
        rewrite Z_mod_plus_full, Z.mod_small; lia. }
  destruct Hd as (k & Hk & Hu & Hland & Hlow). destruct (sub_limbs a b (Z.land (Z.shiftr (u128 (x - y - c)) 64) 1)) as [r1 c1] eqn:E.
  rewrite Hland in E. intros [= <- <-]. destruct (IH b _ _ _ Hl ltac:(done) ltac:(done) Hk E) as (I1 & I2 & I3 & I4).
  pose proof (u64_range (u128 (x - y - c))) as Hr. rewrite Hlow in *.
  cbn [length val fold_right]. fold (val r1) (val a) (val b). rewrite weight_S. split_and!; try lia. by constructor.
Qed.

Lemma u256_add_val a b r o : wf a -> wf b -> u256_add a b = (r, o) ->
  wf r /\ val r = (val a + val b) mod 2 ^ 256 /\ o = (2 ^ 256 <=? val a + val b).
Proof.
  intros Ha Hb. pose proof (wf_range a Ha). pose proof (wf_range b Hb). destruct Ha as [La Fa], Hb as [Lb Fb].
  unfold u256_add. destruct (add_limbs a b 0) as [r' c] eqn:E. intros [= <- <-].
  destruct (add_limbs_val a b 0 r' c) as (H1 & H2 & H3 & H4); [congruence|done|done|lia|done|]. rewrite La in *.
  change (weight 4) with (2 ^ 256) in H4. pose proof (wf_range r' (conj H1 H2)). split; [by split|].
  assert (c = 0 \/ c = 1) as [-> | ->] by lia.
  - rewrite Z.mod_small by lia. split; lia.
  - rewrite <- (Z_mod_plus_full _ (-1)), Z.mod_small by lia. split; lia.
Qed.

Lemma u256_sub_val a b r o : wf a -> wf b -> u256_sub a b = (r, o) ->
  wf r /\ val r = (val a - val b) mod 2 ^ 256 /\ o = (val a <? val b).
Proof.
  intros Ha Hb. pose proof (wf_range a Ha). pose proof (wf_range b Hb). destruct Ha as [La Fa], Hb as [Lb Fb].
  unfold u256_sub. destruct (sub_limbs a b 0) as [r' c] eqn:E. intros [= <- <-].
  destruct (sub_limbs_val a b 0 r' c) as (H1 & H2 & H3 & H4); [congruence|done|done|lia|done|]. rewrite La in *.
  change (weight 4) with (2 ^ 256) in H4. pose proof (wf_range r' (conj H1 H2)). split; [by split|].
  assert (c = 0 \/ c = 1) as [-> | ->] by lia.
  - rewrite Z.mod_small by lia. split; lia.
  - rewrite <- (Z_mod_plus_full _ 1), Z.mod_small by lia. split; lia.
Qed.

(** ** Multiplication *)

Lemma mul_row_val x b : forall p q c, word64 x -> Forall word64 b -> Forall word64 p -> length p = length b -> word64 c ->
  exists r, mul_row x b (p ++ 0 :: q) c = r ++ q /\ length r = S (length b) /\ Forall word64 r /\ val r = val p + x * val b + c.
Proof.
  induction b as [|y b IH]; intros [|z p] q c Hx Hb Hp Hl Hc; try done.
  - exists [c]. pose proof Hc as Hc'. unfold word64 in Hc'. cbn [app mul_row]. rewrite Z.add_0_l, !u64_id by (rewrite ?u64_id; lia).
    cbn [val fold_right]. split_and!; [done|done|by apply Forall_singleton|lia].
  - inversion Hb; inversion Hp; subst. injection Hl as Hl. cbn [app mul_row]. unfold word64 in *.
    assert (0 <= x * y <= (2 ^ 64 - 1) * (2 ^ 64 - 1)) by nia.
    destruct (split_word (x * y + z + c)) as [Hw Hs]; [lia|]. revert Hw Hs. generalize (u128 (x * y + z + c)). intros s Hw Hs.
    unfold word64 in Hw. destruct (IH p q (Z.shiftr s 64)) as (r & E & Hr & Hf & Hv); try done; [lia|].
    exists (u64 s :: r). rewrite E. cbn [app length val fold_right]. fold (val r) (val p) (val b).
    split_and!; [done|lia|by constructor|lia].
Qed.

Lemma mul_rows_val a b : forall p, Forall word64 a -> Forall word64 b -> Forall word64 p -> length p = length b ->
  let l := mul_rows a b (p ++ replicate (length a) 0) in
  length l = (length a + length b)%nat /\ Forall word64 l /\ val l = val p + val a * val b.
Proof.
  induction a as [|x a IH]; intros p Ha Hb Hp Hl; cbn [length replicate mul_rows].
  - rewrite app_nil_r. split_and!; [done|done|change (val []) with 0; lia].
  - inversion Ha; subst. destruct (mul_row_val x b p (replicate (length a) 0) 0) as (r & -> & Hr & Hf & Hv); try done.
    destruct r as [|r0 r]; [done|]. inversion Hf; subst. injection Hr as Hr. cbn [app].
    destruct (IH r) as (I1 & I2 & I3); try done. cbn [length]. split_and!; [lia|by constructor|].
    cbn [val fold_right] in Hv |- *. fold (val r) (val a) in *. fold (val (mul_rows a b (r ++ replicate (length a) 0))).
    rewrite I3. lia.
Qed.

Lemma existsb_val l : Forall word64 l -> existsb (fun p => negb (p =? 0)) l = negb (val l =? 0).
Proof.
  induction 1 as [|x l Hx Hl IH]; [done|]. cbn [existsb val fold_right]. fold (val l). rewrite IH. unfold word64 in Hx.
  apply val_range in Hl. destruct (x =? 0) eqn:E1, (val l =? 0) eqn:E2; cbn; lia.
Qed.

Lemma u256_mul_val a b r o : wf a -> wf b -> u256_mul a b = (r, o) ->
  wf r /\ val r = (val a * val b) mod 2 ^ 256 /\ o = (2 ^ 256 <=? val a * val b).
Proof.
  intros [La Fa] [Lb Fb]. unfold u256_mul.
  destruct (mul_rows_val a b (replicate 4 0)) as (H1 & H2 & H3); [done|done|by repeat constructor|by rewrite Lb|].
  rewrite La in *. rewrite Lb in H1. change (replicate 4 0 ++ replicate 4 0) with (replicate 8 0) in *.
  revert H1 H2 H3. generalize (mul_rows a b (replicate 8 0)). intros l H1 H2 H3 [= <- <-].
  rewrite <- (take_drop 4 l) in H2, H3. apply Forall_app in H2 as [F1 F2]. rewrite val_app, val_zeros in H3.
  assert (L1 : length (take 4 l) = 4%nat) by (rewrite length_take; lia). rewrite L1 in H3. change (weight 4) with (2 ^ 256) in H3.
  pose proof (wf_range (take 4 l) (conj L1 F1)) as R1. pose proof (val_range _ F2) as R2.
  split; [by split|]. rewrite existsb_val by done. split; [|lia].
  rewrite <- (Z_mod_plus_full _ (- val (drop 4 l))), Z.mod_small; lia.
Qed.

(** ** Division *)

Lemma shl_limbs_val a : forall c, Forall word64 a -> 0 <= c <= 1 ->
  let r := shl_limbs a c in
  length r = length a /\ Forall word64 r /\ exists k, 0 <= k <= 1 /\ val r + weight (length a) * k = 2 * val a + c.
Proof.
  induction a as [|x a IH]; intros c Ha Hc; cbn [shl_limbs length].
  - split_and!; [done|done|]. exists c. change (weight 0) with 1. cbn [val fold_right]. lia.
  - inversion Ha; subst. unfold word64 in *. rewrite Z.lor_comm, lor_shiftl_add by lia.
    destruct (split_word (c + x * 2 ^ 1)) as [Hw Hs]; [lia|]. revert Hw Hs. generalize (u128 (c + x * 2 ^ 1)). intros s Hw Hs.
    unfold word64 in Hw. destruct (IH (Z.shiftr s 64)) as (I1 & I2 & k & I3 & I4); [done|lia|].
    split_and!; [cbn [length]; lia|by constructor|]. exists k. split; [done|].
    cbn [val fold_right]. fold (val (shl_limbs a (Z.shiftr s 64))) (val a). rewrite weight_S. lia.
Qed.

(** The limbs are the base-2^64 digits of the value. *)
Lemma limb_val a : Forall word64 a -> forall i, limb a i = (val a / weight i) mod 2 ^ 64.
Proof.
  induction 1 as [|x a Hx Ha IH]; intros i; [by rewrite Z.div_0_l by (pose proof (weight_pos i); lia); destruct i|].
  unfold word64 in Hx. cbn [val fold_right]. fold (val a). destruct i as [|i].
  - change (weight 0) with 1. rewrite Z.div_1_r, (Z.mul_comm (2 ^ 64)), Z_mod_plus_full, Z.mod_small by lia. done.
  - rewrite weight_S. unfold limb. cbn [nth]. fold (limb a i). rewrite IH. pose proof (weight_pos i).
    rewrite <- Z.div_div by lia. by rewrite (Z.mul_comm (2 ^ 64)), Z.div_add, (Z.div_small x), Z.add_0_l by lia.
Qed.

Lemma set_limb_val a i x : (i < length a)%nat -> val (set_limb i x a) = val a + (x - limb a i) * weight i.
Proof.
  revert i. induction a as [|y a IH]; intros i Hi; cbn [length] in Hi; [lia|]. unfold set_limb, limb. destruct i as [|i]; cbn [insert list_insert nth val fold_right].
  - change (weight 0) with 1. fold (val a). lia.
  - fold (val a) (set_limb i x a) (limb a i) (val (set_limb i x a)). rewrite IH, weight_S by lia. ring.
Qed.

Lemma set_limb_wf a i x : wf a -> word64 x -> wf (set_limb i x a).
Proof. intros [Hl Hf] Hx. unfold set_limb. split; [by rewrite length_insert|by apply Forall_insert]. Qed.

Lemma testbit_limb a i s : Forall word64 a -> 0 <= s < 64 -> Z.testbit (limb a i) s = Z.testbit (val a) (Z.of_nat i * 64 + s).
Proof.
  intros Ha Hs. rewrite limb_val, Z.mod_pow2_bits_low by (done || lia). unfold weight. rewrite <- Z.pow_mul_r by lia.
  rewrite Z.div_pow2_bits by lia. f_equal. lia.
Qed.

Lemma word_lor x y : word64 x -> word64 y -> word64 (Z.lor x y).
Proof.
  unfold word64. intros Hx Hy. rewrite <- (Z.mod_small x (2 ^ 64)), <- (Z.mod_small y (2 ^ 64)) by done.
  rewrite <- !Z.land_ones by lia. rewrite <- Z.land_lor_distr_l, Z.land_ones by lia. apply Z.mod_pos_bound. lia.
Qed.

(** Shifting the next bit of the dividend into the remainder. *)
Lemma shift_in rem x : wf rem -> word64 x -> x <= 1 -> 2 * val rem + x < 2 ^ 256 ->
  let r := shl_limbs rem 0 in let r' := set_limb 0 (Z.lor (limb r 0) x) r in wf r' /\ val r' = 2 * val rem + x.
Proof.
  intros [Hl Hf] Hx Hx1 Hb r r'. destruct (shl_limbs_val rem 0 Hf) as (H1 & H2 & k & Hk & Hv); [lia|]. fold r in H1, H2, Hv.
  rewrite Hl in *. change (weight 4) with (2 ^ 256) in Hv. pose proof (wf_range rem (conj Hl Hf)).
  pose proof (wf_range r (conj H1 H2)). unfold word64 in Hx. assert (Hv' : val r = 2 * val rem) by lia.
  assert (Hlim : limb r 0 = (2 * val rem) mod 2 ^ 64) by (rewrite limb_val, Hv' by done; change (weight 0) with 1; by rewrite Z.div_1_r).
  assert (Heven : Z.testbit (limb r 0) 0 = false).
  { rewrite Hlim, Z.mod_pow2_bits_low by lia. by rewrite Z.testbit_even_0. }
  assert (Hlor : Z.lor (limb r 0) x = limb r 0 + x).
  { assert (x = 0 \/ x = 1) as [-> | ->] by lia; [by rewrite Z.lor_0_r, Z.add_0_r|]. by apply (lor_pow2 _ 0). }
  assert (Hw : word64 (limb r 0)) by (rewrite Hlim; unfold word64; apply Z.mod_pos_bound; lia).
  split; [apply set_limb_wf; [done|by apply word_lor]|]. unfold r'. rewrite set_limb_val, Hlor, Hv' by lia.
  change (weight 0) with 1. lia.
Qed.

(** The quotient and the remainder of the bits of [a] above the lowest [k]. *)
Definition divided (a b : u256) (k : nat) (s : u256 * u256) : Prop :=
  wf s.1 /\ wf s.2 /\ val s.1 = val a / 2 ^ Z.of_nat k / val b * 2 ^ Z.of_nat k /\ val s.2 = (val a / 2 ^ Z.of_nat k) mod val b.

Lemma div_step_double x b d : 0 < d -> 0 <= x -> 0 <= b <= 1 ->
  let r := 2 * (x mod d) + b in
  (2 * x + b) / d = 2 * (x / d) + (if d <=? r then 1 else 0) /\ (2 * x + b) mod d = r - (if d <=? r then d else 0).
Proof.
  intros Hd Hx Hb r. pose proof (Z.div_mod x d ltac:(lia)) as E. pose proof (Z.mod_pos_bound x d Hd) as R.
  destruct (d <=? r) eqn:Er; unfold r in *.
  - split; symmetry; [apply Z.div_unique with (2 * (x mod d) + b - d)|apply Z.mod_unique with (2 * (x / d) + 1)]; lia.
  - split; symmetry; [apply Z.div_unique with (2 * (x mod d) + b)|apply Z.mod_unique with (2 * (x / d))]; lia.
Qed.

Lemma set_quotient_bit q bit : (bit < 256)%nat -> wf q -> Z.testbit (val q) (Z.of_nat bit) = false ->
  let i := (bit / 64)%nat in
  let q' := set_limb i (Z.lor (limb q i) (u64 (Z.shiftl 1 (Z.of_nat (bit mod 64))))) q in
  wf q' /\ val q' = val q + 2 ^ Z.of_nat bit.
Proof.
  intros Hbit Hq Ht i q'. pose proof (Nat.mod_upper_bound bit 64 ltac:(lia)) as Hs. set (s := Z.of_nat (bit mod 64)) in *.
  assert (Hpos : Z.of_nat bit = Z.of_nat i * 64 + s).
  { pose proof (Nat.div_mod bit 64 ltac:(lia)). unfold i, s. lia. }
  assert (Hsh : u64 (Z.shiftl 1 s) = 2 ^ s).
  { rewrite Z.shiftl_1_l. apply u64_id. split; [apply Z.pow_nonneg; lia|apply Z.pow_lt_mono_r; lia]. }
  assert (Hp : word64 (2 ^ s)) by (split; [apply Z.pow_nonneg; lia|apply Z.pow_lt_mono_r; lia]).
  assert (Hw : word64 (limb q i)) by (rewrite limb_val by apply Hq; unfold word64; apply Z.mod_pos_bound; lia).
  unfold q'. rewrite Hsh. split; [apply set_limb_wf; [done|by apply word_lor]|].
  rewrite set_limb_val by (rewrite (proj1 Hq); apply Nat.Div0.div_lt_upper_bound; lia).
  rewrite lor_pow2 by (lia || by rewrite testbit_limb, <- Hpos by (apply Hq || lia)).
  rewrite Hpos, Z.pow_add_r by lia. unfold weight. rewrite <- Z.pow_mul_r, (Z.mul_comm 64) by lia. ring.
Qed.

Lemma divmod_step_divided a b bit s : (bit < 256)%nat -> wf a -> wf b -> 0 < val b ->
  divided a b (S bit) s -> divided a b bit (divmod_step a b bit s).
Proof.
  intros Hbit Ha Hb Hd. destruct s as [q rem]. intros (Hq & Hr & Vq & Vr). cbn [fst snd] in *. unfold divmod_step.
  pose proof (Nat.mod_upper_bound bit 64 ltac:(lia)) as Hs. pose proof (wf_range a Ha) as Ra. pose proof (wf_range b Hb) as Rb.
  rewrite land_one, testbit_limb by (apply Ha || lia).
  assert (Z.of_nat (bit / 64) * 64 + Z.of_nat (bit mod 64) = Z.of_nat bit) as ->.
  { pose proof (Nat.div_mod bit 64 ltac:(lia)). lia. }
  set (x := Z.b2z (Z.testbit (val a) (Z.of_nat bit))). assert (Hx : 0 <= x <= 1) by (unfold x; destruct (Z.testbit _ _); cbn; lia).
  set (h := val a / 2 ^ Z.of_nat (S bit)) in *. assert (Hpow : 0 < 2 ^ Z.of_nat bit) by (apply Z.pow_pos_nonneg; lia).
  assert (Hh : val a / 2 ^ Z.of_nat bit = 2 * h + x).
  { unfold h, x. replace (2 ^ Z.of_nat (S bit)) with (2 ^ Z.of_nat bit * 2) by (rewrite Nat2Z.inj_succ, Z.pow_succ_r by lia; ring).
    rewrite <- Z.div_div, Z.testbit_spec' by lia.
    apply Z.div_mod. lia. }
  assert (Hh0 : 0 <= h) by (apply Z.div_pos; [lia|apply Z.pow_pos_nonneg; lia]).
  assert (Hle : 2 * h + x <= val a) by (rewrite <- Hh; apply Z.div_le_upper_bound; nia).
  pose proof (Z.mod_le h (val b) Hh0 Hd) as Hm. pose proof (Z.mod_pos_bound h (val b) Hd) as Hm2.
  destruct (shift_in rem x) as [Hw Hv]; [done|unfold word64; lia|lia|lia|].
  revert Hw Hv. generalize (set_limb 0 (Z.lor (limb (shl_limbs rem 0) 0) x) (shl_limbs rem 0)). intros r2 Hw Hv. rewrite Vr in Hv.
  destruct (div_step_double h x (val b) Hd Hh0 Hx) as [D1 D2]. cbn zeta in D1, D2. rewrite <- Hv in D1, D2.
  rewrite u256_cmp_val by done. unfold divided. rewrite Hh, D1, D2.
  destruct (val r2 <? val b) eqn:E; cbn [Z.leb Z.compare].
  - rewrite (proj2 (Z.leb_gt _ _)) by lia. split_and!; try done; cbn [fst snd]; [|lia].
    rewrite Vq, Nat2Z.inj_succ, Z.pow_succ_r by lia. ring.
  - assert (0 <=? (if val b <? val r2 then 1 else 0) = true) as -> by (destruct (val b <? val r2); done).
    rewrite (proj2 (Z.leb_le _ _)) by lia. destruct (u256_sub r2 b) as [r3 o] eqn:Es.
    destruct (u256_sub_val r2 b r3 o Hw Hb Es) as (Hw3 & Hv3 & _). pose proof (wf_range r2 Hw).
    rewrite Z.mod_small in Hv3 by lia. destruct (set_quotient_bit q bit) as [Hwq Hvq]; [done|done| |].
    { rewrite Vq, Z.mul_pow2_bits_low by lia. done. }
    split_and!; cbn [fst snd]; [done|done| |done].
    rewrite Hvq, Vq, Nat2Z.inj_succ, Z.pow_succ_r by lia. ring.
Qed.

Lemma divmod_loop_divided bits a b : forall s, (bits <= 256)%nat -> wf a -> wf b -> 0 < val b ->
  divided a b bits s -> divided a b 0 (divmod_loop bits a b s).
Proof.
  induction bits as [|bit IH]; intros s Hbit Ha Hb Hd Hs; [done|]. cbn [divmod_loop].
  apply IH; [lia|done|done|done|]. by apply divmod_step_divided; try lia.
Qed.

Lemma u256_cmp_zero a : wf a -> (u256_cmp a u256_zero =? 0) = (val a =? 0).
Proof.
  intros Ha. pose proof (wf_range a Ha). rewrite u256_cmp_val by (done || apply wf_zero). change (val u256_zero) with 0.
  rewrite (proj2 (Z.ltb_ge _ _)) by lia. destruct (0 <? val a) eqn:E; cbn; lia.
Qed.

Lemma u256_divmod_val a b : wf a -> wf b ->
  (val b = 0 /\ u256_divmod a b = None) \/
  (exists q r, u256_divmod a b = Some (q, r) /\ wf q /\ wf r /\ val q = val a / val b /\ val r = val a mod val b /\ val b <> 0).
Proof.
  intros Ha Hb. pose proof (wf_range b Hb). pose proof (wf_range a Ha). unfold u256_divmod. rewrite u256_cmp_zero by done.
  destruct (val b =? 0) eqn:E; [left; split; [lia|done]|right].
  pose proof (divmod_loop_divided 256 a b (u256_zero, u256_zero)) as Hl.
  revert Hl. generalize (divmod_loop 256 a b (u256_zero, u256_zero)). intros [q r] Hl.
  destruct Hl as (H1 & H2 & H3 & H4); [done|done|done|lia| |].
  - split_and!; try apply wf_zero; cbn [fst snd]; rewrite (Z.div_small (val a)) by (change (2 ^ Z.of_nat 256) with (2 ^ 256); lia);
      [by rewrite Z.div_0_l by lia|by rewrite Z.mod_0_l by lia].
  - cbn [fst snd] in *. rewrite Z.div_1_r in H3, H4. rewrite Z.mul_1_r in H3. exists q, r. split_and!; [done|done|done|done|done|lia].
Qed.

(** ** Decimal text *)

Definition dec_step (acc : Z) (c : byte) : Z := 10 * acc + (Zb c - 48).

Definition dec_value (l : list byte) : Z := fold_left dec_step l 0.

Lemma dec_mono l : forall acc, forallb is_digit l = true -> 0 <= acc -> acc <= fold_left dec_step l acc.
Proof.
  induction l as [|c l IH]; intros acc Hl Ha; [cbn; lia|]. cbn [forallb] in Hl. apply andb_true_iff in Hl as [Hc Hl].
  unfold is_digit in Hc. cbn [fold_left]. etrans; [|apply IH; [done|]]; unfold dec_step; lia.
Qed.

Lemma wf_digit x : word64 x -> wf [x; 0; 0; 0] /\ val [x; 0; 0; 0] = x.
Proof.
  intros Hx. split; [split; [done|]|cbn [val fold_right]; lia]. constructor; [done|]. by repeat constructor.
Qed.

Lemma dec_loop_val l : forall v, wf v ->
  let n := fold_left dec_step l (val v) in
  if forallb is_digit l && (n <? 2 ^ 256) then exists r, dec_loop l v = Some r /\ wf r /\ val r = n else dec_loop l v = None.
Proof.
  induction l as [|c l IH]; intros v Hv; cbn [fold_left forallb dec_loop].
  { pose proof (wf_range v Hv). rewrite (proj2 (Z.ltb_lt _ _)) by lia. by exists v. }
  pose proof (wf_range v Hv) as Rv. destruct (is_digit c) eqn:Ec; [|done]. cbn [negb andb].
  assert (Hd : 0 <= Zb c - 48 <= 9) by (unfold is_digit in Ec; lia).
  destruct (wf_digit 10) as [Hten Vten]; [done|]. destruct (wf_digit (Zb c - 48)) as [Hdig Vdig]; [unfold word64; lia|].
  fold ten in Hten, Vten. destruct (u256_mul v ten) as [m o] eqn:Em.
  destruct (u256_mul_val v ten m o Hv Hten Em) as (Hm & Vm & ->). rewrite Vten in *.
  destruct (u256_add m [Zb c - 48; 0; 0; 0]) as [v' o'] eqn:Ea.
  destruct (u256_add_val m _ v' o' Hm Hdig Ea) as (Hv' & Vv' & ->). rewrite Vdig in *.
  assert (Hover : 2 ^ 256 <= dec_step (val v) c -> forallb is_digit l && (fold_left dec_step l (dec_step (val v) c) <? 2 ^ 256) = false).
  { intros Ho. destruct (forallb is_digit l) eqn:El; [|done]. pose proof (dec_mono l (dec_step (val v) c) El). cbn [andb]. lia. }
  assert (Hst : dec_step (val v) c = 10 * val v + (Zb c - 48)) by done.
  destruct (2 ^ 256 <=? val v * 10) eqn:E1; [by rewrite Hover by lia|].
  rewrite Z.mod_small in Vm by lia. destruct (2 ^ 256 <=? val m + (Zb c - 48)) eqn:E2.
  { rewrite Hover by lia. done. }
  rewrite Z.mod_small in Vv' by (pose proof (wf_range m Hm); lia).
  replace (dec_step (val v) c) with (val v') by lia. by apply IH.
Qed.

Lemma dec_value_snoc l c : dec_value (l ++ [c]) = dec_step (dec_value l) c.
Proof. unfold dec_value. by rewrite fold_left_app. Qed.

Lemma digit_byte d : 0 <= d <= 9 -> Zb (bZ (48 + d)) = 48 + d.
Proof. intros Hd. rewrite Zb_bZ. apply Z.mod_small. lia. Qed.

Lemma digits_val fuel : forall cur, wf cur -> val cur < 10 ^ Z.of_nat fuel ->
  dec_value (rev (digits fuel cur)) = val cur /\ forallb is_digit (rev (digits fuel cur)) = true /\
  (val cur <> 0 -> exists d l, rev (digits fuel cur) = bZ (48 + d) :: l /\ 1 <= d <= 9).
Proof.
  induction fuel as [|fuel IH]; intros cur Hw Hb; pose proof (wf_range cur Hw) as Rc.
  { change (10 ^ Z.of_nat 0) with 1 in Hb. cbn. split_and!; [change (dec_value []) with 0; lia|done|lia]. }
  cbn [digits]. rewrite u256_cmp_zero by done. destruct (val cur =? 0) eqn:E.
  { split_and!; [change (dec_value (rev [])) with 0; lia|done|lia]. }
  destruct (wf_digit 10) as [Hten Vten]; [done|]. fold ten in Hten, Vten.
  destruct (u256_divmod_val cur ten Hw Hten) as [[? _]|(q & r & -> & Hq & Hr & Vq & Vr & _)]; [lia|]. rewrite Vten in *.
  pose proof (Z.mod_pos_bound (val cur) 10 ltac:(lia)) as Hd. pose proof (Z.div_mod (val cur) 10 ltac:(lia)) as Hdm.
  assert (Hl : limb r 0 = val cur mod 10).
  { rewrite limb_val by apply Hr. change (weight 0) with 1. rewrite Z.div_1_r, Vr, (Z.mod_small (_ mod 10)); lia. }
  rewrite Hl. rewrite Nat2Z.inj_succ, Z.pow_succ_r in Hb by lia. destruct (IH q Hq) as (I1 & I2 & I3); [lia|].
  cbn [rev]. rewrite dec_value_snoc, I1, forallb_app, I2. unfold dec_step. cbn [forallb andb]. unfold is_digit.
  rewrite digit_byte by lia. split_and!; [lia|lia|]. intros _. destruct (decide (val q = 0)) as [Hz|Hz].
  - exists (val cur mod 10). assert (digits fuel q = []) as ->.
    { destruct fuel; [done|]. cbn [digits]. by rewrite u256_cmp_zero, Hz by done. }
    exists []. split; [done|lia].
  - destruct (I3 Hz) as (d & l & -> & Hd'). exists d, (l ++ [bZ (48 + val cur mod 10)]). done.
Qed.

(** What the rendering of a value is: canonical decimal digits of the value. *)
Lemma to_dec_val v : wf v ->
  dec_value (u256_to_dec v) = val v /\ forallb is_digit (u256_to_dec v) = true /\
  exists d l, u256_to_dec v = bZ (48 + d) :: l /\ 0 <= d <= 9 /\ (d = 0 -> l = []).
Proof.
  intros Hv. unfold u256_to_dec. rewrite u256_cmp_zero by done. destruct (val v =? 0) eqn:E.
  - split_and!; [change (dec_value [bZ 48]) with 0; lia|done|]. by exists 0, [].
  - destruct (digits_val 78 v Hv) as (H1 & H2 & H3).
    { pose proof (wf_range v Hv). assert (2 ^ 256 < 10 ^ Z.of_nat 78) by done. lia. }
    split_and!; [done|done|]. destruct H3 as (d & l & -> & Hd); [lia|]. exists d, l. split_and!; [done|lia|lia|intros ->; lia].
Qed.

Lemma skip_digit d l : 0 <= d <= 9 -> skip_plus (skip_blanks (bZ (48 + d) :: l)) = bZ (48 + d) :: l.
Proof.
  intros Hd. cbn [skip_blanks]. rewrite digit_byte by done. rewrite (proj2 (Z.eqb_neq (48 + d) 32)), (proj2 (Z.eqb_neq (48 + d) 9)) by lia.
  cbn [orb skip_plus]. rewrite digit_byte by done. by rewrite (proj2 (Z.eqb_neq (48 + d) 43)) by lia.
Qed.

(** ** Storage form *)

Lemma limb_bytes_be x : limb_bytes x = be_bytes 8 x.
Proof. unfold be_bytes. rewrite <- put_u64_le. unfold put_u64, limb_bytes. cbn [seq map rev app]. by rewrite ?bZ_land. Qed.

Lemma limb_bytes_val x : word64 x -> be_val (limb_bytes x) = x.
Proof. intros Hx. rewrite limb_bytes_be, be_val_bytes. apply Z.mod_small. exact Hx. Qed.

Lemma limb_of_bytes_val l : length l = 8%nat -> limb_of_bytes l = be_val l.
Proof.
  intros Hl. pose proof (be_val_range l) as R. rewrite Hl in R. change (256 ^ Z.of_nat 8) with (2 ^ 64) in R.
  unfold limb_of_bytes, u64. rewrite (fold_be 64) by lia. lia.
Qed.

Lemma length_encode v : length v = 4%nat -> length (u256_encode v) = 32%nat.
Proof. destruct v as [|w0 [|w1 [|w2 [|w3 []]]]]; done. Qed.

Lemma be_val_encode v : wf v -> be_val (u256_encode v) = val v.
Proof.
  intros [Hl Hf]. unfold u256_encode. clear Hl. induction v as [|x v IH]; [done|]. inversion Hf; subst.
  cbn [rev]. rewrite flat_map_app, be_val_app, IH by done. cbn [flat_map]. rewrite app_nil_r, limb_bytes_val by done.
  cbn [val fold_right]. fold (val v). rewrite limb_bytes_be, length_be_bytes. change (256 ^ Z.of_nat 8) with (2 ^ 64). lia.
Qed.

Lemma chunk (pre x post : list byte) n : length pre = n -> length x = 8%nat -> take 8 (drop n (pre ++ x ++ post)) = x.
Proof. intros <- Hx. rewrite drop_app_length, take_app_le by lia. by apply take_ge; lia. Qed.

Lemma u256_decode_encode v : wf v -> u256_decode (u256_encode v) = v.
Proof.
  intros [Hl Hf]. unfold u256_decode. rewrite length_encode by done. cbn [Nat.eqb].
  destruct v as [|w0 [|w1 [|w2 [|w3 []]]]]; try done. unfold u256_encode. cbn [rev app flat_map seq map Nat.sub Nat.mul Nat.add].
  assert (Hlen : forall x, length (limb_bytes x) = 8%nat) by done.
  assert (Hv : forall x, word64 x -> limb_of_bytes (limb_bytes x) = x) by (intros x Hx; rewrite limb_of_bytes_val, limb_bytes_val; done).
  apply Forall_cons_1 in Hf as [H0 Hf]. apply Forall_cons_1 in Hf as [H1 Hf]. apply Forall_cons_1 in Hf as [H2 Hf].
  apply Forall_cons_1 in Hf as [H3 _].
  pose proof (chunk (limb_bytes w3 ++ limb_bytes w2 ++ limb_bytes w1) (limb_bytes w0) [] 24 eq_refl eq_refl) as C0.
  pose proof (chunk (limb_bytes w3 ++ limb_bytes w2) (limb_bytes w1) (limb_bytes w0 ++ []) 16 eq_refl eq_refl) as C1.
  pose proof (chunk (limb_bytes w3) (limb_bytes w2) (limb_bytes w1 ++ limb_bytes w0 ++ []) 8 eq_refl eq_refl) as C2.
  pose proof (chunk [] (limb_bytes w3) (limb_bytes w2 ++ limb_bytes w1 ++ limb_bytes w0 ++ []) 0 eq_refl eq_refl) as C3.
  rewrite <- !app_assoc in *. cbn [app] in C3. rewrite C0, C1, C2, C3, !Hv by done. done.
Qed.

Lemma encode_decode s : length s = 32%nat -> wf (u256_decode s) /\ u256_encode (u256_decode s) = s.
Proof.
  intros Hs. unfold u256_decode. rewrite Hs. cbn [Nat.eqb seq map Nat.sub Nat.mul Nat.add].
  assert (Hlen : forall n, (n <= 24)%nat -> length (take 8 (drop n s)) = 8%nat) by (intros; rewrite length_take, length_drop; lia).
  assert (Hw : forall n, (n <= 24)%nat -> word64 (limb_of_bytes (take 8 (drop n s)))).
  { intros n Hn. rewrite limb_of_bytes_val by auto. pose proof (be_val_range (take 8 (drop n s))) as R. by rewrite Hlen in R. }
  assert (He : forall n, (n <= 24)%nat -> limb_bytes (limb_of_bytes (take 8 (drop n s))) = take 8 (drop n s)).
  { intros n Hn. rewrite limb_of_bytes_val, limb_bytes_be by auto. by rewrite <- (Hlen n Hn) at 1; rewrite be_bytes_val. }
  split; [split; [done|]; repeat apply Forall_cons_2; auto with lia|]. unfold u256_encode. cbn [rev app flat_map].
  rewrite !He by lia. rewrite app_nil_r. rewrite (take_ge (drop 24 s)) by (rewrite length_drop; lia).
  change (drop 24 s) with (drop (16 + 8) s). rewrite <- drop_drop. rewrite take_drop. change (drop 16 s) with (drop (8 + 8) s).
  rewrite <- drop_drop, take_drop. change (drop 8 s) with (drop (0 + 8) s). rewrite <- drop_drop, take_drop. done.
Qed.

(** C40: 256-bit arithmetic is exact. On well-formed limbs, addition, subtraction and
    multiplication return the result modulo 2^256 and report overflow exactly when
    the true result does not fit; division refuses exactly a zero divisor and
    otherwise returns the quotient and the remainder; the comparison is that of the
    values. Every result is well formed. *)
Theorem u256_arith_exact a b : wf a -> wf b ->
  (let '(r, o) := u256_add a b in wf r /\ val r = (val a + val b) mod 2 ^ 256 /\ o = (2 ^ 256 <=? val a + val b)) /\
  (let '(r, o) := u256_sub a b in wf r /\ val r = (val a - val b) mod 2 ^ 256 /\ o = (val a <? val b)) /\
  (let '(r, o) := u256_mul a b in wf r /\ val r = (val a * val b) mod 2 ^ 256 /\ o = (2 ^ 256 <=? val a * val b)) /\
  match u256_divmod a b with
  | None => val b = 0
  | Some (q, r) => wf q /\ wf r /\ val a = val b * val q + val r /\ val r < val b
  end /\
  u256_cmp a b = match val a ?= val b with Lt => -1 | Eq => 0 | Gt => 1 end.
Proof.
  intros Ha Hb. pose proof (wf_range b Hb). split_and!.
  - destruct (u256_add a b) eqn:E. by apply u256_add_val.
  - destruct (u256_sub a b) eqn:E. by apply u256_sub_val.
  - destruct (u256_mul a b) eqn:E. by apply u256_mul_val.
  - destruct (u256_divmod_val a b Ha Hb) as [[Hz ->]|(q & r & -> & Hq & Hr & Vq & Vr & Hnz)]; [done|].
    split_and!; [done|done|rewrite Vq, Vr; apply Z.div_mod; lia|rewrite Vr; apply Z.mod_pos_bound; lia].
  - rewrite u256_cmp_val by done. unfold Z.ltb. rewrite (Z.compare_antisym (val a)). by destruct (val a ?= val b).
Qed.

(** Decimal text is exact. Parsing accepts exactly the texts that are, after
    leading blanks and one plus sign, a non-empty run of digits whose value fits in
    256 bits, and returns that value; rendering gives the digits of the value without
    leading zeros, and parses back to it. *)
Theorem u256_dec_exact v : wf v ->
  (forall l, u256_from_dec l = Some v <->
     let body := skip_plus (skip_blanks l) in body <> [] /\ forallb is_digit body = true /\ dec_value body = val v) /\
  u256_from_dec (u256_to_dec v) = Some v /\
  (exists d l, u256_to_dec v = bZ (48 + d) :: l /\ 0 <= d <= 9 /\ (d = 0 -> l = [])).
Proof.
  intros Hv. pose proof (wf_range v Hv) as Rv. pose proof (fun l => dec_loop_val l u256_zero wf_zero) as Hloop.
  change (val u256_zero) with 0 in Hloop. fold dec_value in Hloop.
  assert (Hfrom : forall l, u256_from_dec l = Some v <->
    let body := skip_plus (skip_blanks l) in body <> [] /\ forallb is_digit body = true /\ dec_value body = val v).
  { intros l. unfold u256_from_dec. cbn zeta. destruct (skip_plus (skip_blanks l)) as [|c body] eqn:Eb; [naive_solver|].
    specialize (Hloop (c :: body)). cbn zeta in Hloop. fold (dec_value (c :: body)) in Hloop.
    revert Hloop. destruct (forallb is_digit (c :: body)) eqn:Ed; [|intros ->; naive_solver].
    cbn [andb]. destruct (dec_value (c :: body) <? 2 ^ 256) eqn:El.
    - intros (r & -> & Hr & Vr). split; [intros [= ->]; done|]. intros (_ & _ & E). f_equal. apply wf_inj; [done|done|lia].
    - intros ->. split; [done|]. intros (_ & _ & E). lia. }
  destruct (to_dec_val v Hv) as (H1 & H2 & d & l & El & Hd & Hz).
  split_and!; [done| |by exists d, l]. apply Hfrom. cbn zeta. rewrite El, skip_digit, <- El by done.
  split_and!; [by rewrite El|done|done].
Qed.

(** The storage form is a bijection that keeps order. Encoding and decoding are
    inverse on well-formed values and on strings of 32 bytes, and the lexicographic
    order of the stored strings, which keys, zones and indexes use, is the numeric
    order. *)
Theorem u256_storage_ordered a b : wf a -> wf b ->
  u256_decode (u256_encode a) = a /\ key_ltb (u256_encode a) (u256_encode b) = (val a <? val b) /\
  (forall s, length s = 32%nat -> wf (u256_decode s) /\ u256_encode (u256_decode s) = s).
Proof.
  intros Ha Hb. split_and!; [by apply u256_decode_encode| |apply encode_decode].
  rewrite key_ltb_be by (by rewrite !length_encode by apply Ha || apply Hb). by rewrite !be_val_encode.
Qed.

Definition max_u256 : u256 := replicate 4 (2 ^ 64 - 1).

Lemma wf_max : wf max_u256.
Proof. split; [done|]. by repeat constructor. Qed.

Lemma u256_arith_exact_witness : u256_mul max_u256 max_u256 = ([1; 0; 0; 0], true) /\
  (let '(r, o) := u256_mul max_u256 max_u256 in
   wf r /\ val r = (val max_u256 * val max_u256) mod 2 ^ 256 /\ o = (2 ^ 256 <=? val max_u256 * val max_u256)).
Proof. split; [by vm_compute|]. exact (proj1 (proj2 (proj2 (u256_arith_exact max_u256 max_u256 wf_max wf_max)))). Defined.

Lemma u256_dec_exact_witness : u256_from_dec (u256_to_dec max_u256) = Some max_u256.
Proof. apply (u256_dec_exact max_u256 wf_max). Defined.

Lemma u256_storage_ordered_witness : key_ltb (u256_encode u256_zero) (u256_encode max_u256) = true.
Proof. destruct (u256_storage_ordered u256_zero max_u256 wf_zero wf_max) as (_ & -> & _). by vm_compute. Defined.
