(* ===== verification/SqlKeys.v ===== *)
(** SqlKeys: the storage keys of the SQL layer (query/sql/Catalog.hpp): datums, the
    order-preserving encodings of primary keys and indexed columns, the key
    namespaces of tables, indexes, column families, deltas, blocks and overlays,
    and the successor that turns a prefix into a half-open range.

    A [std::string] is a list of bytes; [int64_t] is a [Z] between -2^63 and 2^63;
    reading past the end of a string gives 0, which no theorem relies on. *)

From Stdlib Require Import ZArith Lia.
From stdpp Require Import base list numbers.
From S2P Require Import Prelude Codec Mvcc BigEndian.

(** ** Data *)

Inductive SqlType := TInt | TText.

#[global] Instance SqlType_eq_dec : EqDecision SqlType.
Proof. solve_decision. Defined.

Record Datum := mkDatum {
  d_type : SqlType;
  d_i : Z;
  d_s : list byte;
  is_null : bool;
  d_logical : Z;
  d_scale : Z
}.

#[global] Instance Datum_eq_dec : EqDecision Datum.
Proof. solve_decision. Defined.

Definition make_int (v : Z) : Datum := mkDatum TInt v [] false 0 0.
Definition make_text (v : list byte) : Datum := mkDatum TText 0 v false 0 0.
Definition make_null (t : SqlType) : Datum := mkDatum t 0 [] true 0 0.

(** The fields of a column and of a table that the codecs read. *)
Record Column := mkColumn {
  c_type : SqlType;
  has_default : bool;
  default_i : Z;
  default_s : list byte;
  c_logical : Z;
  c_scale : Z;
  enum_labels : list (list byte)
}.

Record Table := mkTable {
  t_id : Z;
  columns : list Column;
  pk_index : nat;
  pk_columns : list nat
}.

Definition composite_pk (t : Table) : bool := (1 <? length (pk_columns t))%nat.

Definition no_column : Column := mkColumn TInt false 0 [] 0 0 [].

(** [Table::pk()]: the first primary-key column. *)
Definition pk (t : Table) : Column := nth (pk_index t) (columns t) no_column.

(** ** Integers *)

(** The two's complement reading of 64 bits. *)
Definition i64 (bits : Z) : Z := if bits <? 2 ^ 63 then bits else bits - 2 ^ 64.

Definition put_be32 (v : Z) : list byte :=
  [ bZ (Z.land (Z.shiftr v 24) 0xFF); bZ (Z.land (Z.shiftr v 16) 0xFF);
    bZ (Z.land (Z.shiftr v 8) 0xFF); bZ (Z.land v 0xFF) ].

Definition get_be32 (p : list byte) : Z :=
  Z.lor (Z.lor (Z.lor (Z.shiftl (byte_at p 0) 24) (Z.shiftl (byte_at p 1) 16)) (Z.shiftl (byte_at p 2) 8)) (byte_at p 3).

Definition put_be64 (v : Z) : list byte :=
  map (fun k => bZ (Z.land (Z.shiftr v (56 - 8 * Z.of_nat k)) 0xFF)) (seq 0 8).

(** The loop [bits = (bits << 8) | byte] over the bytes read. *)
Definition get_be (l : list byte) : Z := fold_left (fun v b => Z.lor (Z.shiftl v 8 mod 2 ^ 64) (Zb b)) l 0.

Definition sign_bit : Z := 0x8000000000000000.

Definition put_pk_int (v : Z) : list byte :=
  (if v <? 0 then Byte.x00 else Byte.x01) :: put_be64 (Z.lxor (u64 v) sign_bit).

(** Bytes 1 to 8 of a 9-byte integer key. *)
Definition get_pk_int (p : list byte) : Z := i64 (Z.lxor (get_be (map (fun k => nth k p Byte.x00) (seq 1 8))) sign_bit).

(** ** Primary keys *)

Definition encode_pk (d : Datum) : list byte :=
  match d_type d with TInt => put_pk_int (d_i d) | TText => d_s d end.

Definition space (c : byte) (table_id : Z) (stop : byte) : list byte := c :: put_be32 table_id ++ [stop].

Definition colon : byte := Byte.x3a.
Definition semicolon : byte := Byte.x3b.

Definition table_prefix (table_id : Z) : list byte := space Byte.x74 table_id colon.
Definition table_prefix_end (table_id : Z) : list byte := space Byte.x74 table_id semicolon.

Definition encode_key (t : Table) (d : Datum) : list byte := table_prefix (t_id t) ++ encode_pk d.

Definition no_datum : Datum := make_int 0.

Definition encode_key_row (t : Table) (row : list Datum) : list byte :=
  if negb (composite_pk t) then encode_key t (nth (pk_index t) row no_datum)
  else table_prefix (t_id t) ++ flat_map (fun c => encode_pk (nth c row no_datum)) (pk_columns t).

Definition kPrefixLen : nat := 6.

Definition decode_suffix (ty : SqlType) (suffix : list byte) : Datum :=
  match ty with TInt => make_int (get_pk_int suffix) | TText => make_text suffix end.

Definition decode_pk (t : Table) (key : list byte) : Datum := decode_suffix (c_type (pk t)) (drop kPrefixLen key).

Definition decode_composite_pk (t : Table) (key : list byte) (row : list Datum) : list Datum :=
  (fold_left (fun '(off, row) c => ((off + 9)%nat, <[c := make_int (get_pk_int (drop off key))]> row))
    (pk_columns t) (kPrefixLen, row)).2.

(** ** The other namespaces *)

Definition col_table_prefix (table_id : Z) : list byte := space Byte.x63 table_id colon.
Definition col_table_prefix_end (table_id : Z) : list byte := space Byte.x63 table_id semicolon.

Definition col_prefix (table_id col_id : Z) : list byte := space Byte.x63 table_id colon ++ put_be32 col_id ++ [colon].
Definition col_prefix_end (table_id col_id : Z) : list byte := space Byte.x63 table_id colon ++ put_be32 col_id ++ [semicolon].
Definition col_key (table_id col_id : Z) (d : Datum) : list byte := col_prefix table_id col_id ++ encode_pk d.

Definition decode_pk_from_col_key (t : Table) (key : list byte) : Datum := decode_suffix (c_type (pk t)) (drop 11 key).

Definition row_delta_prefix (table_id : Z) : list byte := space Byte.x64 table_id colon.
Definition row_delta_prefix_end (table_id : Z) : list byte := space Byte.x64 table_id semicolon.
Definition row_delta_key (t : Table) (d : Datum) : list byte := row_delta_prefix (t_id t) ++ encode_pk d.
Definition decode_pk_from_delta_key (t : Table) (key : list byte) : Datum := decode_suffix (c_type (pk t)) (drop kPrefixLen key).

Definition block_col_prefix (table_id col_id : Z) : list byte := space Byte.x42 table_id colon ++ put_be32 col_id ++ [colon].
Definition block_col_prefix_end (table_id col_id : Z) : list byte := space Byte.x42 table_id colon ++ put_be32 col_id ++ [semicolon].
Definition block_key (table_id col_id block_no : Z) : list byte := block_col_prefix table_id col_id ++ put_be64 block_no.

Definition overlay_run_col_prefix (table_id run col_id : Z) : list byte :=
  space Byte.x52 table_id colon ++ put_be32 run ++ [colon] ++ put_be32 col_id ++ [colon].
Definition overlay_run_col_prefix_end (table_id run col_id : Z) : list byte :=
  space Byte.x52 table_id colon ++ put_be32 run ++ [colon] ++ put_be32 col_id ++ [semicolon].
Definition overlay_key (table_id run col_id chunk : Z) : list byte :=
  overlay_run_col_prefix table_id run col_id ++ put_be64 chunk.

Definition overlay_tomb_key (table_id run : Z) : list byte := space Byte.x54 table_id colon ++ put_be32 run.
Definition overlay_manifest_key (table_id : Z) : list byte := Byte.x4d :: put_be32 table_id.
Definition zone_key (table_id : Z) : list byte := Byte.x5a :: put_be32 table_id.

Definition index_prefix (table_id index_id : Z) : list byte := space Byte.x69 table_id colon ++ put_be32 index_id ++ [colon].

(** ** Indexed columns *)

(** A zero byte is followed by 1, and two zero bytes end the text. *)
Fixpoint escape (s : list byte) : list byte :=
  match s with
  | [] => [Byte.x00; Byte.x00]
  | c :: s' => if Zb c =? 0 then c :: Byte.x01 :: escape s' else c :: escape s'
  end.

Definition encode_index_col (d : Datum) : list byte :=
  match d_type d with TInt => put_pk_int (d_i d) | TText => escape (d_s d) end.

Definition encode_index_entry (table_id index_id : Z) (v key : Datum) : list byte :=
  index_prefix table_id index_id ++ encode_index_col v ++ encode_pk key.

Definition index_columns (cols : list nat) (row : list Datum) : list byte :=
  flat_map (fun c => encode_index_col (nth c row no_datum)) cols.

Definition encode_index_value_prefix (table_id index_id : Z) (cols : list nat) (row : list Datum) : list byte :=
  index_prefix table_id index_id ++ index_columns cols row.

Definition encode_index_entry_row (table_id index_id : Z) (cols : list nat) (row : list Datum) (key : Datum) : list byte :=
  index_prefix table_id index_id ++ index_columns cols row ++ encode_pk key.

(** ** The successor of a prefix *)

(** The loop over the bytes from the last one. *)
Fixpoint bump (l : list byte) : list byte :=
  match l with
  | [] => []
  | b :: l' => if Zb b =? 255 then bump l' else bZ (Zb b + 1) :: l'
  end.

Definition key_successor (k : list byte) : list byte := rev (bump (rev k)).

(** A key lies in the half-open range of a scan. *)
Definition in_scan (lo hi k : list byte) : bool := in_range (mkRange lo hi false) k.

(** ** Integer lemmas *)

Definition int64 (v : Z) : Prop := - 2 ^ 63 <= v < 2 ^ 63.

Lemma put_be32_be v : put_be32 v = be_bytes 4 v.
Proof. unfold be_bytes. by rewrite <- put_u32_le. Qed.

Lemma put_be64_be v : put_be64 v = be_bytes 8 v.
Proof. unfold be_bytes. by rewrite <- put_u64_le. Qed.

Lemma get_be_val l : (length l <= 8)%nat -> get_be l = be_val l.
Proof.
  intros Hl. pose proof (be_val_range l) as R. assert (256 ^ Z.of_nat (length l) <= 256 ^ 8) by (apply Z.pow_le_mono_r; lia).
  change (256 ^ 8) with (2 ^ 64) in *. unfold get_be. rewrite (fold_be 64) by lia. lia.
Qed.

Lemma get_be32_val p : (4 <= length p)%nat -> get_be32 p = be_val (take 4 p).
Proof.
  intros Hp. destruct p as [|b0 [|b1 [|b2 [|b3 p]]]]; cbn [length] in Hp; try lia. cbn [take]. rewrite take_0. unfold get_be32, byte_at. cbn [nth].
  pose proof (Zb_range b0). pose proof (Zb_range b1). pose proof (Zb_range b2). pose proof (Zb_range b3).
  rewrite !be_val_cons. cbn [length]. change (be_val []) with 0. change (256 ^ Z.of_nat 3) with (2 ^ 24).
  change (256 ^ Z.of_nat 2) with (2 ^ 16). change (256 ^ Z.of_nat 1) with (2 ^ 8). change (256 ^ Z.of_nat 0) with 1.
  rewrite <- !Z.lor_assoc, (Z.lor_comm _ (Zb b3)), (Z.lor_comm (Z.shiftl (Zb b1) 16)), (Z.lor_comm (Z.shiftl (Zb b0) 24)).
  rewrite (lor_shiftl_add (Zb b3)) by lia. rewrite (lor_shiftl_add _ (Zb b1)) by lia. rewrite (lor_shiftl_add _ (Zb b0)) by lia. lia.
Qed.

Lemma get_put_be32 v r : get_be32 (put_be32 v ++ r) = u32 v.
Proof.
  rewrite get_be32_val by (rewrite length_app; cbn; lia). rewrite put_be32_be, take_app_length' by (by rewrite length_be_bytes).
  by rewrite be_val_bytes.
Qed.

Lemma get_put_be64 v : get_be (put_be64 v) = u64 v.
Proof. rewrite get_be_val, put_be64_be, be_val_bytes by (rewrite put_be64_be, length_be_bytes; lia). done. Qed.

Lemma lxor_sign x : 0 <= x < 2 ^ 63 -> Z.lxor x sign_bit = x + 2 ^ 63.
Proof.
  intros Hx. assert (Z.land x sign_bit = 0).
  { apply Z.bits_inj'. intros i Hi. rewrite Z.land_spec, Z.bits_0. change sign_bit with (2 ^ 63). rewrite Z.pow2_bits_eqb by lia.
    destruct (Z.eqb_spec 63 i) as [<-|]; [|apply andb_false_r]. rewrite andb_true_r.
    rewrite <- (Z.mod_small x (2 ^ 63)) by done. by rewrite Z.mod_pow2_bits_high. }
  by rewrite <- Z.add_nocarry_lxor.
Qed.

(** The sign flip maps the signed range onto the unsigned one, in order. *)
Lemma flip_sign v : int64 v -> Z.lxor (u64 v) sign_bit = v + 2 ^ 63.
Proof.
  unfold int64. intros Hv. destruct (decide (0 <= v)).
  - rewrite u64_id by lia. apply lxor_sign. lia.
  - assert (u64 v = (v + 2 ^ 63) + 2 ^ 63) as ->.
    { unfold u64. rewrite <- (Z_mod_plus_full _ 1), Z.mod_small; lia. }
    rewrite <- (lxor_sign (v + 2 ^ 63)) by lia. by rewrite Z.lxor_assoc, Z.lxor_nilpotent, Z.lxor_0_r.
Qed.

Lemma unflip_sign v : int64 v -> i64 (Z.lxor (v + 2 ^ 63) sign_bit) = v.
Proof.
  intros Hv. rewrite <- (flip_sign v Hv), Z.lxor_assoc, Z.lxor_nilpotent, Z.lxor_0_r. unfold int64, i64, u64 in *.
  destruct (decide (0 <= v)).
  - rewrite Z.mod_small by lia. destruct (v <? 2 ^ 63) eqn:E; lia.
  - rewrite <- (Z_mod_plus_full v 1), Z.mod_small by lia. destruct (_ <? 2 ^ 63) eqn:E; lia.
Qed.

Lemma length_pk_int v : length (put_pk_int v) = 9%nat.
Proof. unfold put_pk_int. cbn [length]. by rewrite put_be64_be, length_be_bytes. Qed.

Lemma get_put_pk_int v r : int64 v -> get_pk_int (put_pk_int v ++ r) = v.
Proof.
  intros Hv. unfold get_pk_int, put_pk_int. rewrite flip_sign by done. set (c := if v <? 0 then Byte.x00 else Byte.x01).
  assert (E : map (fun k => nth k ((c :: put_be64 (v + 2 ^ 63)) ++ r) Byte.x00) (seq 1 8) = put_be64 (v + 2 ^ 63)) by done.
  rewrite E, get_put_be64, u64_id by (unfold int64 in Hv; lia). by apply unflip_sign.
Qed.

(** ** Order of byte strings *)

Lemma key_ltb_app p a b : key_ltb (p ++ a) (p ++ b) = key_ltb a b.
Proof. induction p as [|x p IH]; [done|]. cbn [app key_ltb]. by rewrite Z.ltb_irrefl. Qed.

Lemma key_leb_app p a b : key_leb (p ++ a) (p ++ b) = key_leb a b.
Proof. unfold key_leb. by rewrite key_ltb_app. Qed.

Lemma key_ltb_prefix a b : key_ltb (a ++ b) a = false.
Proof. induction a as [|x a IH]; [apply key_ltb_nil_r|]. cbn [app key_ltb]. by rewrite Z.ltb_irrefl. Qed.

(** Strings of one length compare by themselves, whatever follows. *)
Lemma key_ltb_fixed a : forall b p q, length a = length b -> a <> b -> key_ltb (a ++ p) (b ++ q) = key_ltb a b.
Proof.
  induction a as [|x a IH]; intros [|y b] p q Hl Hne; try done. cbn [app key_ltb]. destruct (Zb x <? Zb y) eqn:E1; [done|].
  destruct (Zb y <? Zb x) eqn:E2; [done|]. apply IH; [by injection Hl|]. intros ->. apply Hne. f_equal. apply Zb_inj. lia.
Qed.

Lemma between_prefix p : forall a b x, key_leb (p ++ a) x = true -> key_ltb x (p ++ b) = true -> exists y, x = p ++ y.
Proof.
  induction p as [|c p IH]; intros a b x; [by exists x|]. destruct x as [|d x]; [done|]. unfold key_leb. cbn [app key_ltb].
  destruct (Zb d <? Zb c) eqn:E1; [done|]. destruct (Zb c <? Zb d) eqn:E2; [done|].
  assert (c = d) as <- by (apply Zb_inj; lia). intros H1 H2. destruct (IH a b x H1 H2) as (y & ->). by exists y.
Qed.

Lemma bump_spec l : bump l <> [] -> exists n c l', l = replicate n Byte.xff ++ c :: l' /\ Zb c < 255 /\ bump l = bZ (Zb c + 1) :: l'.
Proof.
  induction l as [|b l IH]; [done|]. cbn [bump]. pose proof (Zb_range b). destruct (Zb b =? 255) eqn:E.
  - intros H1. destruct (IH H1) as (n & c & l' & -> & Hc & Hb). exists (S n), c, l'. split_and!; [|done|done].
    assert (b = Byte.xff) as -> by (apply Zb_inj; change (Zb Byte.xff) with 255; lia). done.
  - intros _. exists 0%nat, b, l. split_and!; [done|lia|done].
Qed.

Lemma full_prefix n : forall y, key_leb (replicate n Byte.xff) y = true <-> exists z, y = replicate n Byte.xff ++ z.
Proof.
  induction n as [|n IH]; intros y; [split; [by exists y|intros _; by destruct y]|]. cbn [replicate app].
  destruct y as [|d y]; [split; [done|by intros (z & ?)]|]. unfold key_leb. cbn [key_ltb]. change (Zb Byte.xff) with 255.
  pose proof (Zb_range d). rewrite (proj2 (Z.ltb_ge 255 (Zb d))) by lia. destruct (Zb d <? 255) eqn:E.
  - split; [done|]. intros (z & [= -> _]). change (Zb Byte.xff) with 255 in E. lia.
  - assert (d = Byte.xff) as -> by (apply Zb_inj; change (Zb Byte.xff) with 255; lia).
    change (negb (key_ltb y (replicate n Byte.xff))) with (key_leb (replicate n Byte.xff) y). rewrite IH.
    split; intros (z & E'); exists z; [by rewrite E'|by injection E'].
Qed.

(** The range from a key to its successor holds exactly its extensions. *)
Lemma in_successor k x : key_successor k <> [] -> in_scan k (key_successor k) x = true <-> exists y, x = k ++ y.
Proof.
  unfold key_successor, in_scan. intros Hne. destruct (bump_spec (rev k)) as (n & c & l' & Ek & Hc & Eb).
  { intros E. apply Hne. by rewrite E. }
  assert (Hk : k = rev l' ++ c :: replicate n Byte.xff).
  { rewrite <- (rev_involutive k), Ek, rev_app_distr. cbn [rev]. rewrite <- app_assoc. f_equal. cbn [app]. f_equal.
    clear. induction n as [|n IH]; [done|]. cbn [replicate rev]. rewrite IH. clear. induction n as [|n IH]; [done|]. cbn. by rewrite IH. }
  rewrite Eb. cbn [rev]. rewrite Hk. pose proof (Zb_range c). assert (Hb : Zb (bZ (Zb c + 1)) = Zb c + 1) by (rewrite Zb_bZ; apply Z.mod_small; lia).
  unfold in_range. cbn [lo hi hi_unbounded orb]. rewrite andb_true_iff. split.
  - intros [H1 H2]. destruct (between_prefix _ _ _ _ H1 H2) as (y & ->). rewrite key_ltb_app in H1, H2.
    destruct y as [|d y]; [done|]. cbn [key_ltb] in H1, H2. rewrite Hb, key_ltb_nil_r in H2.
    destruct (Zb d <? Zb c) eqn:E1; [done|]. destruct (Zb d <? Zb c + 1) eqn:E3; [|by destruct (Zb c + 1 <? Zb d)].
    destruct (Zb c <? Zb d) eqn:E2; [lia|]. assert (c = d) as <- by (apply Zb_inj; lia).
    change (negb (key_ltb y (replicate n Byte.xff))) with (key_leb (replicate n Byte.xff) y) in H1.
    apply full_prefix in H1 as (z & ->). exists z. by rewrite <- app_assoc.
  - intros (y & ->). split; [apply negb_true_iff, key_ltb_prefix|]. rewrite <- app_assoc, key_ltb_app. cbn [app key_ltb]. rewrite Hb.
    by rewrite (proj2 (Z.ltb_lt _ _)) by lia.
Qed.

Lemma successor_snoc p c : Zb c < 255 -> key_successor (p ++ [c]) = p ++ [bZ (Zb c + 1)].
Proof.
  intros Hc. unfold key_successor. rewrite rev_app_distr. cbn [rev app bump]. rewrite (proj2 (Z.eqb_neq _ _)) by lia.
  cbn [rev]. by rewrite rev_involutive.
Qed.

Lemma successor_nonempty c k : Zb c < 255 -> key_successor (c :: k) <> [].
Proof.
  intros Hc. unfold key_successor. cbn [rev]. intros E%(f_equal length). revert E. rewrite length_rev.
  generalize (rev k). intros l. induction l as [|b l IH]; cbn [app bump].
  - by rewrite (proj2 (Z.eqb_neq _ _)) by lia.
  - by destruct (Zb b =? 255).
Qed.

Lemma ltb_successor x k : key_successor x <> [] ->
  key_ltb k (key_successor x) = true <-> key_ltb k x = true \/ exists y, k = x ++ y.
Proof.
  intros Hne. pose proof (fun z => in_successor x z Hne) as Hin. unfold in_scan, in_range in Hin. cbn [lo hi hi_unbounded orb] in Hin.
  assert (Hx : key_ltb x (key_successor x) = true).
  { pose proof (proj2 (Hin x) (ex_intro _ [] (eq_sym (app_nil_r x)))) as H. by apply andb_true_iff in H as [_ H]. }
  destruct (key_ltb k x) eqn:E.
  - split; [by left|]. intros _. by eapply key_ltb_trans.
  - specialize (Hin k). rewrite E in Hin. cbn [negb andb] in Hin. rewrite Hin. naive_solver.
Qed.

(** ** Order of datums *)

Definition datum_ltb (a b : Datum) : bool :=
  match d_type a with TInt => d_i a <? d_i b | TText => key_ltb (d_s a) (d_s b) end.

Definition same_value (a b : Datum) : bool :=
  match d_type a with TInt => d_i a =? d_i b | TText => key_eqb (d_s a) (d_s b) end.

(** A value of a column of the type. *)
Definition typed (ty : SqlType) (d : Datum) : Prop := d_type d = ty /\ int64 (d_i d).

Lemma same_refl a : same_value a a = true.
Proof. unfold same_value. destruct (d_type a); [apply Z.eqb_refl|apply key_eqb_refl]. Qed.

Lemma same_not_less ty a b : typed ty a -> typed ty b -> same_value a b = true -> datum_ltb a b = false /\ datum_ltb b a = false.
Proof.
  intros [Ta _] [Tb _]. unfold same_value, datum_ltb. rewrite Ta, Tb. destruct ty; [lia|].
  intros ->%key_eqb_eq. by rewrite key_ltb_irrefl.
Qed.

Lemma datum_total ty a b : typed ty a -> typed ty b -> same_value a b = false -> datum_ltb a b = negb (datum_ltb b a).
Proof.
  intros [Ta _] [Tb _]. unfold same_value, datum_ltb. rewrite Ta, Tb. destruct ty; [lia|]. intros Hne%key_eqb_neq.
  destruct (key_trichotomy (d_s a) (d_s b)) as [H|[H|H]]; [|done|].
  - by rewrite H, key_ltb_asym.
  - by rewrite H, (key_ltb_asym _ _ H).
Qed.

Lemma pk_int_val v : int64 v -> be_val (put_pk_int v) = (if v <? 0 then 0 else 2 ^ 64) + (v + 2 ^ 63).
Proof.
  intros Hv. unfold put_pk_int. rewrite be_val_cons, put_be64_be, flip_sign, length_be_bytes, be_val_bytes by done.
  change (256 ^ Z.of_nat 8) with (2 ^ 64). unfold int64 in Hv. rewrite Z.mod_small by lia. by destruct (v <? 0).
Qed.

Lemma pk_int_order a b : int64 a -> int64 b -> key_ltb (put_pk_int a) (put_pk_int b) = (a <? b).
Proof.
  intros Ha Hb. rewrite key_ltb_be by (by rewrite !length_pk_int). rewrite !pk_int_val by done. unfold int64 in *.
  destruct (a <? 0) eqn:E1, (b <? 0) eqn:E2; lia.
Qed.

Lemma pk_int_inj a b : int64 a -> int64 b -> put_pk_int a = put_pk_int b -> a = b.
Proof. intros Ha Hb E. rewrite <- (get_put_pk_int a []), <- (get_put_pk_int b []) by done. by rewrite E. Qed.

Lemma encode_pk_order ty a b : typed ty a -> typed ty b -> key_ltb (encode_pk a) (encode_pk b) = datum_ltb a b.
Proof. intros [Ta Ia] [Tb Ib]. unfold encode_pk, datum_ltb. rewrite Ta, Tb. destruct ty; [by apply pk_int_order|done]. Qed.

Lemma escape_order a : forall b p q, a <> b -> key_ltb (escape a ++ p) (escape b ++ q) = key_ltb a b.
Proof.
  induction a as [|x a IH]; intros [|y b] p q Hne; try done.
  - pose proof (Zb_range y). cbn [escape]. destruct (Zb y =? 0) eqn:E; cbn [app key_ltb]; change (Zb Byte.x00) with 0.
    + rewrite !(proj2 (Z.ltb_ge _ _)) by lia. by change (Zb Byte.x01) with 1.
    + by rewrite (proj2 (Z.ltb_lt 0 (Zb y))) by lia.
  - pose proof (Zb_range x). cbn [escape]. destruct (Zb x =? 0) eqn:E; cbn [app key_ltb]; change (Zb Byte.x00) with 0.
    + rewrite !(proj2 (Z.ltb_ge _ _)) by lia. by change (Zb Byte.x01) with 1.
    + rewrite (proj2 (Z.ltb_ge (Zb x) 0)) by lia. by rewrite (proj2 (Z.ltb_lt 0 (Zb x))) by lia.
  - assert (Hne' : Zb x = Zb y -> a <> b) by (intros E%Zb_inj ->; by subst).
    cbn [escape]. pose proof (Zb_range x). pose proof (Zb_range y).
    destruct (Zb x =? 0) eqn:Ex, (Zb y =? 0) eqn:Ey; cbn [app key_ltb].
    + rewrite !(proj2 (Z.ltb_ge (Zb x) (Zb y))), !(proj2 (Z.ltb_ge (Zb y) (Zb x))) by lia.
      rewrite Z.ltb_irrefl. apply IH, Hne'. lia.
    + by rewrite !(proj2 (Z.ltb_lt (Zb x) (Zb y))) by lia.
    + rewrite !(proj2 (Z.ltb_ge (Zb x) (Zb y))) by lia. by rewrite !(proj2 (Z.ltb_lt (Zb y) (Zb x))) by lia.
    + destruct (Zb x <? Zb y) eqn:E1; [done|]. destruct (Zb y <? Zb x) eqn:E2; [done|]. apply IH, Hne'. lia.
Qed.

(** Indexed values compare by themselves, whatever follows them. *)
Lemma index_col_order ty a b p q : typed ty a -> typed ty b -> same_value a b = false ->
  key_ltb (encode_index_col a ++ p) (encode_index_col b ++ q) = datum_ltb a b.
Proof.
  intros [Ta Ia] [Tb Ib]. unfold encode_index_col, same_value, datum_ltb. rewrite Ta, Tb. destruct ty.
  - intros E. rewrite key_ltb_fixed; [by apply pk_int_order|by rewrite !length_pk_int|]. intros Hi%pk_int_inj; [lia|done|done].
  - intros E%key_eqb_neq. by apply escape_order.
Qed.

Lemma index_col_same ty a b : typed ty a -> typed ty b -> same_value a b = true -> encode_index_col a = encode_index_col b.
Proof.
  intros [Ta _] [Tb _]. unfold encode_index_col, same_value. rewrite Ta, Tb. destruct ty.
  - intros E. by assert (d_i a = d_i b) as -> by lia.
  - by intros ->%key_eqb_eq.
Qed.

(** The encoding of an indexed value delimits itself. *)
Lemma index_col_inj ty a b p q : typed ty a -> typed ty b ->
  encode_index_col a ++ p = encode_index_col b ++ q <-> same_value a b = true /\ p = q.
Proof.
  intros Ha Hb. destruct (same_value a b) eqn:E.
  - rewrite (index_col_same ty a b) by done. split; [|by intros [_ ->]]. intros H%app_inv_head. done.
  - split; [|by intros []]. intros H. exfalso. pose proof (index_col_order ty a b p q Ha Hb E) as H1.
    rewrite H, key_ltb_irrefl in H1. pose proof (datum_total ty a b Ha Hb E) as H2. rewrite <- H1 in H2.
    assert (E' : same_value b a = false).
    { revert E. unfold same_value. destruct Ha as [-> _], Hb as [-> _]. destruct ty; [lia|]. by rewrite key_eqb_sym. }
    pose proof (index_col_order ty b a q p Hb Ha E') as H3. rewrite H, key_ltb_irrefl in H3. by rewrite <- H3 in H2.
Qed.

(** ** Tuples *)

Fixpoint datums_ltb (a b : list Datum) : bool :=
  match a, b with
  | x :: a', y :: b' => if same_value x y then datums_ltb a' b' else datum_ltb x y
  | _, _ => false
  end.

Fixpoint same_values (a b : list Datum) : bool :=
  match a, b with
  | x :: a', y :: b' => same_value x y && same_values a' b'
  | [], [] => true
  | _, _ => false
  end.

Definition encode_cols (ds : list Datum) : list byte := flat_map encode_index_col ds.

Lemma cols_order tys : forall a b p q, Forall2 typed tys a -> Forall2 typed tys b ->
  key_ltb (encode_cols a ++ p) (encode_cols b ++ q) = if same_values a b then key_ltb p q else datums_ltb a b.
Proof.
  induction tys as [|ty tys IH]; intros a b p q Ha Hb; inversion Ha; inversion Hb; subst; [done|].
  cbn [encode_cols flat_map datums_ltb same_values]. rewrite <- !app_assoc. destruct (same_value _ _) eqn:E.
  - erewrite (index_col_same ty) by done. rewrite key_ltb_app. by apply IH.
  - by apply (index_col_order ty).
Qed.

Lemma cols_inj tys : forall a b p q, Forall2 typed tys a -> Forall2 typed tys b ->
  encode_cols a ++ p = encode_cols b ++ q <-> same_values a b = true /\ p = q.
Proof.
  induction tys as [|ty tys IH]; intros a b p q Ha Hb; inversion Ha; inversion Hb; subst; [naive_solver|].
  cbn [encode_cols flat_map same_values]. rewrite <- !app_assoc, (index_col_inj ty), andb_true_iff by done.
  fold (encode_cols l') (encode_cols l'0). rewrite IH by done. naive_solver.
Qed.

(** The datums at the positions of a row. *)
Definition select (cols : list nat) (row : list Datum) : list Datum := map (fun c => nth c row no_datum) cols.

Lemma index_columns_select cols row : index_columns cols row = encode_cols (select cols row).
Proof. unfold index_columns, encode_cols, select. induction cols as [|c cols IH]; [done|]. cbn. by rewrite IH. Qed.

(** An all-integer primary key is encoded as its columns are in an index. *)
Lemma composite_key t row : composite_pk t = true -> Forall (typed TInt) (select (pk_columns t) row) ->
  encode_key_row t row = table_prefix (t_id t) ++ encode_cols (select (pk_columns t) row).
Proof.
  unfold encode_key_row. intros ->. cbn [negb]. unfold select, encode_cols. generalize (pk_columns t). intros l Hf. f_equal.
  induction l as [|c l IH]; [done|]. cbn [map] in Hf. inversion Hf as [|?? [Hc _] Hl]; subst. cbn [map flat_map].
  rewrite IH by done. f_equal. unfold encode_pk, encode_index_col. by rewrite Hc.
Qed.

(** The datum a key decodes to: the value without presentation tags. *)
Definition stored (d : Datum) : Datum := match d_type d with TInt => make_int (d_i d) | TText => make_text (d_s d) end.

Lemma decode_suffix_encode ty d : typed ty d -> decode_suffix ty (encode_pk d) = stored d.
Proof.
  intros [Ht Hi]. unfold decode_suffix, encode_pk, stored. rewrite Ht. destruct ty; [|done].
  by rewrite <- (app_nil_r (put_pk_int _)), get_put_pk_int.
Qed.

Lemma drop_space c id stop r : drop 6 (space c id stop ++ r) = r.
Proof. done. Qed.

(** Row keys keep primary-key order. Within a table the lexicographic order of the
    storage keys is the order of the primary keys, integers over the whole signed
    range included, and of the tuples of a composite key; a key decodes to the
    primary key it was made from. *)
Theorem row_keys_ordered t ty a b : c_type (pk t) = ty -> typed ty a -> typed ty b ->
  key_ltb (encode_key t a) (encode_key t b) = datum_ltb a b /\ decode_pk t (encode_key t a) = stored a /\
  (forall r1 r2, composite_pk t = true -> Forall (typed TInt) (select (pk_columns t) r1) -> Forall (typed TInt) (select (pk_columns t) r2) ->
     key_ltb (encode_key_row t r1) (encode_key_row t r2) = datums_ltb (select (pk_columns t) r1) (select (pk_columns t) r2)).
Proof.
  intros Hty Ha Hb. split_and!.
  - unfold encode_key. rewrite key_ltb_app. by apply (encode_pk_order ty).
  - unfold decode_pk, encode_key. rewrite Hty. unfold kPrefixLen, table_prefix. rewrite drop_space. by apply decode_suffix_encode.
  - intros r1 r2 Hc H1 H2. rewrite !composite_key, key_ltb_app by done.
    assert (Hf : forall r, Forall (typed TInt) (select (pk_columns t) r) ->
      Forall2 typed (replicate (length (pk_columns t)) TInt) (select (pk_columns t) r)).
    { intros r. unfold select. generalize (pk_columns t). intros l. induction l as [|c l IH]; [by constructor|].
      cbn [map length replicate]. intros H. inversion H; subst. constructor; auto. }
    pose proof (cols_order _ _ _ [] [] (Hf r1 H1) (Hf r2 H2)) as H. rewrite !app_nil_r, key_ltb_irrefl in H. rewrite H.
    destruct (same_values _ _) eqn:E; [|done]. symmetry. revert E. generalize (select (pk_columns t) r1), (select (pk_columns t) r2).
    intros l1. induction l1 as [|x l1 IH]; intros [|y l2]; try done. cbn [same_values datums_ltb].
    intros [-> E]%andb_true_iff. by apply IH.
Qed.

(** ** Namespaces *)

(** Every kind of key the SQL layer stores, with what identifies it. *)
Inductive skey :=
| RowKey (t : Z) (rest : list byte)
| IndexKey (t ix : Z) (rest : list byte)
| ColKey (t c : Z) (rest : list byte)
| DeltaKey (t : Z) (rest : list byte)
| BlockKey (t c n : Z)
| OverlayKey (t r c n : Z)
| TombKey (t r : Z)
| ManifestKey (t : Z)
| ZoneKey (t : Z).

Definition key_bytes (k : skey) : list byte :=
  match k with
  | RowKey t rest => table_prefix t ++ rest
  | IndexKey t ix rest => index_prefix t ix ++ rest
  | ColKey t c rest => col_prefix t c ++ rest
  | DeltaKey t rest => row_delta_prefix t ++ rest
  | BlockKey t c n => block_key t c n
  | OverlayKey t r c n => overlay_key t r c n
  | TombKey t r => overlay_tomb_key t r
  | ManifestKey t => overlay_manifest_key t
  | ZoneKey t => zone_key t
  end.

(** The ranges the engine scans. *)
Inductive region :=
| Rows (t : Z) | IndexOf (t ix : Z) | ColTable (t : Z) | ColFamily (t c : Z) | Deltas (t : Z) | Blocks (t c : Z) | Overlay (t r c : Z).

Definition bounds (r : region) : list byte * list byte :=
  match r with
  | Rows t => (table_prefix t, table_prefix_end t)
  | IndexOf t ix => (index_prefix t ix, key_successor (index_prefix t ix))
  | ColTable t => (col_table_prefix t, col_table_prefix_end t)
  | ColFamily t c => (col_prefix t c, col_prefix_end t c)
  | Deltas t => (row_delta_prefix t, row_delta_prefix_end t)
  | Blocks t c => (block_col_prefix t c, block_col_prefix_end t c)
  | Overlay t r c => (overlay_run_col_prefix t r c, overlay_run_col_prefix_end t r c)
  end.

Definition member (r : region) (k : skey) : bool :=
  match r, k with
  | Rows t, RowKey t' _ => t =? t'
  | IndexOf t ix, IndexKey t' ix' _ => (t =? t') && (ix =? ix')
  | ColTable t, ColKey t' _ _ => t =? t'
  | ColFamily t c, ColKey t' c' _ => (t =? t') && (c =? c')
  | Deltas t, DeltaKey t' _ => t =? t'
  | Blocks t c, BlockKey t' c' _ => (t =? t') && (c =? c')
  | Overlay t r c, OverlayKey t' r' c' _ => (t =? t') && (r =? r') && (c =? c')
  | _, _ => false
  end.

Definition word32 (z : Z) : Prop := 0 <= z < 2 ^ 32.

Definition region_wf (r : region) : Prop :=
  match r with
  | Rows t | ColTable t | Deltas t => word32 t
  | IndexOf t x | ColFamily t x | Blocks t x => word32 t /\ word32 x
  | Overlay t r c => word32 t /\ word32 r /\ word32 c
  end.

Definition skey_wf (k : skey) : Prop :=
  match k with
  | RowKey t _ | DeltaKey t _ | ManifestKey t | ZoneKey t => word32 t
  | IndexKey t x _ | ColKey t x _ | BlockKey t x _ | TombKey t x => word32 t /\ word32 x
  | OverlayKey t r c _ => word32 t /\ word32 r /\ word32 c
  end.

Lemma be32_inj a b x y : word32 a -> word32 b -> put_be32 a ++ x = put_be32 b ++ y <-> a = b /\ x = y.
Proof.
  intros Ha Hb. split; [|by intros [-> ->]]. intros E. pose proof (f_equal get_be32 E) as G. rewrite !get_put_be32 in G.
  unfold word32 in *. rewrite !u32_id in G by lia. subst b. split; [done|]. by apply app_inv_head in E.
Qed.

Lemma region_successor r : (bounds r).2 = key_successor (bounds r).1 /\ key_successor (bounds r).1 <> [].
Proof.
  assert (Hs : forall p, key_successor (p ++ [colon]) = p ++ [semicolon]) by (intros p; by rewrite successor_snoc).
  assert (Hc : forall c t, space c t colon = (c :: put_be32 t) ++ [colon]) by done.
  destruct r; cbn [bounds fst snd]; (split; [|by apply successor_nonempty]); try done.
  all: unfold table_prefix, table_prefix_end, col_table_prefix, col_table_prefix_end, row_delta_prefix, row_delta_prefix_end,
    col_prefix, col_prefix_end, block_col_prefix, block_col_prefix_end, overlay_run_col_prefix, overlay_run_col_prefix_end.
  all: rewrite ?Hc, ?app_assoc, Hs; by rewrite ?Hc, ?app_assoc.
Qed.

Lemma field_inj a b x y : word32 a -> word32 b -> (put_be32 a ++ [colon]) ++ x = (put_be32 b ++ [colon]) ++ y <-> a = b /\ x = y.
Proof. intros Ha Hb. rewrite <- !app_assoc, be32_inj by done. cbn [app]. naive_solver. Qed.

Lemma space_inj c a b x y : word32 a -> word32 b -> space c a colon ++ x = space c b colon ++ y <-> a = b /\ x = y.
Proof.
  intros Ha Hb. unfold space. rewrite <- (field_inj a b x y) by done. split.
  - intros H. exact (f_equal (@tl byte) H).
  - intros H. exact (f_equal (cons c) H).
Qed.

Lemma pair_inj c a b a' b' x y : word32 a -> word32 a' -> word32 b -> word32 b' ->
  (space c a colon ++ put_be32 b ++ [colon]) ++ x = (space c a' colon ++ put_be32 b' ++ [colon]) ++ y <-> a = a' /\ b = b' /\ x = y.
Proof. intros. rewrite <- !(app_assoc (space _ _ _)), space_inj, field_inj by done. done. Qed.

Lemma prefix_one c a b x : word32 a -> word32 b -> (exists y, space c b colon ++ x = space c a colon ++ y) <-> a = b.
Proof.
  intros Ha Hb. split; [|intros ->; by exists x]. intros (y & E). by apply (proj1 (space_inj c b a x y Hb Ha)) in E as [-> _].
Qed.

Lemma prefix_two c a b a' b' x : word32 a -> word32 b -> word32 a' -> word32 b' ->
  (exists y, (space c a' colon ++ put_be32 b' ++ [colon]) ++ x = (space c a colon ++ put_be32 b ++ [colon]) ++ y) <-> a = a' /\ b = b'.
Proof.
  intros Ha Hb Ha' Hb'. split; [|intros [-> ->]; by exists x]. intros (y & E).
  by apply (proj1 (pair_inj c a' b' a b x y Ha' Ha Hb' Hb)) in E as (-> & -> & _).
Qed.

Lemma prefix_three c a b d a' b' d' x : word32 a -> word32 b -> word32 d -> word32 a' -> word32 b' -> word32 d' ->
  (exists y, (space c a' colon ++ put_be32 b' ++ [colon] ++ put_be32 d' ++ [colon]) ++ x =
             (space c a colon ++ put_be32 b ++ [colon] ++ put_be32 d ++ [colon]) ++ y) <-> (a = a' /\ b = b') /\ d = d'.
Proof.
  intros Ha Hb Hd Ha' Hb' Hd'. split; [|intros [[-> ->] ->]; by exists x]. intros (y & E).
  assert (Hs : forall u v w z, (space c u colon ++ put_be32 v ++ [colon] ++ put_be32 w ++ [colon]) ++ z =
    (space c u colon ++ put_be32 v ++ [colon]) ++ (put_be32 w ++ [colon]) ++ z) by (intros; by rewrite <- !app_assoc).
  rewrite !Hs in E. apply (proj1 (pair_inj c a' b' a b _ _ Ha' Ha Hb' Hb)) in E as (-> & -> & E).
  by apply (proj1 (field_inj d' d x y Hd' Hd)) in E as [-> _].
Qed.

Lemma region_prefix r k : region_wf r -> skey_wf k -> (exists y, key_bytes k = (bounds r).1 ++ y) <-> member r k = true.
Proof.
  intros Hr Hk. destruct r, k; cbn [region_wf skey_wf bounds fst key_bytes member] in *; try (split; [by intros (y & E)|done]).
  all: repeat match goal with H : _ /\ _ |- _ => destruct H end; rewrite ?andb_true_iff, ?Z.eqb_eq.
  - unfold table_prefix. apply prefix_one; assumption.
  - unfold index_prefix. apply prefix_two; assumption.
  - unfold col_prefix, col_table_prefix. rewrite <- app_assoc. apply prefix_one; assumption.
  - unfold col_prefix. apply prefix_two; assumption.
  - unfold row_delta_prefix. apply prefix_one; assumption.
  - unfold block_key, block_col_prefix. apply prefix_two; assumption.
  - unfold overlay_key, overlay_run_col_prefix. apply prefix_three; assumption.
Qed.

(** Scans stay in their namespace. The range of a table, an index, a column table
    or family, the deltas, the blocks of a column or an overlay run holds a stored key
    exactly when the key belongs to it: no scan misses a key of its own or sees one
    of another table, column, index or kind. *)
Theorem scans_isolated r k : region_wf r -> skey_wf k -> in_scan (bounds r).1 (bounds r).2 (key_bytes k) = member r k.
Proof.
  intros Hr Hk. destruct (region_successor r) as [-> Hne]. pose proof (in_successor _ (key_bytes k) Hne) as Hin.
  pose proof (region_prefix r k Hr Hk) as Hp. destruct (in_scan _ _ _), (member r k); naive_solver.
Qed.

Lemma scans_isolated_witness :
  in_scan (table_prefix 7) (table_prefix_end 7) (table_prefix 7 ++ [Byte.xff]) = true /\
  in_scan (table_prefix 7) (table_prefix_end 7) (index_prefix 7 1) = false.
Proof.
  split.
  - by apply (scans_isolated (Rows 7) (RowKey 7 [Byte.xff])).
  - rewrite <- (app_nil_r (index_prefix 7 1)). by apply (scans_isolated (Rows 7) (IndexKey 7 1 [])).
Defined.

(** ** Index lookups *)

Lemma index_order t ix tys a b p q : Forall2 typed tys a -> Forall2 typed tys b ->
  key_ltb (index_prefix t ix ++ encode_cols a ++ p) (index_prefix t ix ++ encode_cols b ++ q) =
  if same_values a b then key_ltb p q else datums_ltb a b.
Proof. intros Ha Hb. rewrite key_ltb_app. by apply (cols_order tys). Qed.

Lemma index_successor t ix p : key_successor (index_prefix t ix ++ p) <> [].
Proof. by apply successor_nonempty. Qed.

Lemma same_sym ty a b : typed ty a -> typed ty b -> same_value a b = same_value b a.
Proof. intros [Ta _] [Tb _]. unfold same_value. rewrite Ta, Tb. destruct ty; [lia|apply key_eqb_sym]. Qed.

Lemma same_values_sym tys : forall a b, Forall2 typed tys a -> Forall2 typed tys b -> same_values a b = same_values b a.
Proof.
  induction tys as [|ty tys IH]; intros a b Ha Hb; inversion Ha as [|? x ? a' Hx Ha']; inversion Hb as [|? y ? b' Hy Hb']; subst; [done|].
  cbn [same_values]. by rewrite (same_sym ty), IH.
Qed.

Lemma values_not_less tys : forall a b, Forall2 typed tys a -> Forall2 typed tys b -> same_values a b = true ->
  datums_ltb a b = false /\ datums_ltb b a = false.
Proof.
  induction tys as [|ty tys IH]; intros a b Ha Hb; inversion Ha as [|? x ? a' Hx Ha']; inversion Hb as [|? y ? b' Hy Hb']; subst; [done|].
  cbn [same_values datums_ltb]. intros [E1 E2]%andb_true_iff. rewrite (same_sym ty y x), E1 by done. by apply IH.
Qed.

Lemma values_total tys : forall a b, Forall2 typed tys a -> Forall2 typed tys b -> same_values a b = false ->
  datums_ltb a b = negb (datums_ltb b a).
Proof.
  induction tys as [|ty tys IH]; intros a b Ha Hb; inversion Ha as [|? x ? a' Hx Ha']; inversion Hb as [|? y ? b' Hy Hb']; subst; [done|].
  cbn [same_values datums_ltb]. rewrite (same_sym ty y x) by done. destruct (same_value x y) eqn:E; [by apply IH|].
  intros _. by apply (datum_total ty).
Qed.

(** An entry is below the successor of a tuple unless the tuple is smaller. *)
Lemma entry_below t ix tys a b p : Forall2 typed tys a -> Forall2 typed tys b ->
  key_ltb (index_prefix t ix ++ encode_cols a ++ p) (key_successor (index_prefix t ix ++ encode_cols b)) = negb (datums_ltb b a).
Proof.
  intros Ha Hb. pose proof (ltb_successor _ (index_prefix t ix ++ encode_cols a ++ p) (index_successor t ix (encode_cols b))) as Hl.
  rewrite <- (app_nil_r (encode_cols b)) in Hl at 2. rewrite (index_order t ix tys) in Hl by done.
  assert (Hp : (exists y, index_prefix t ix ++ encode_cols a ++ p = (index_prefix t ix ++ encode_cols b) ++ y) <-> same_values a b = true).
  { split.
    - intros (y & E). rewrite <- (app_assoc (index_prefix t ix)) in E. apply app_inv_head in E. by apply (proj1 (cols_inj tys a b p y Ha Hb)) in E as [].
    - intros E. exists p. rewrite <- (app_assoc (index_prefix t ix)). f_equal. by apply (cols_inj tys). }
  rewrite Hp in Hl. destruct (same_values a b) eqn:E.
  - destruct (values_not_less tys a b Ha Hb E) as [_ ->]. apply Hl. by right.
  - rewrite <- (values_total tys a b Ha Hb E). destruct (datums_ltb a b); destruct (key_ltb _ (key_successor _)); naive_solver.
Qed.

(** An entry is not below a tuple unless its values are smaller. *)
Lemma entry_above t ix tys a b p : Forall2 typed tys a -> Forall2 typed tys b ->
  key_ltb (index_prefix t ix ++ encode_cols a ++ p) (index_prefix t ix ++ encode_cols b) = datums_ltb a b.
Proof.
  intros Ha Hb. rewrite <- (app_nil_r (encode_cols b)), (index_order t ix tys), key_ltb_nil_r by done.
  destruct (same_values a b) eqn:E; [|done]. by destruct (values_not_less tys a b Ha Hb E) as [-> _].
Qed.

(** Index lookups are exact. An equality lookup, over one column or a composite
    tuple, finds an entry exactly when the entry's indexed values equal the ones
    sought; a range lookup finds exactly the entries between the bounds, both
    included; and entries sort by indexed value, then by primary key. *)
Theorem index_lookup_exact t ix tys cols r1 r2 k1 k2 pty :
  Forall2 typed tys (select cols r1) -> Forall2 typed tys (select cols r2) -> typed pty k1 -> typed pty k2 ->
  let low := encode_index_value_prefix t ix cols r1 in
  let high := encode_index_value_prefix t ix cols r2 in
  let v1 := select cols r1 in
  let v2 := select cols r2 in
  in_scan low (key_successor low) (encode_index_entry_row t ix cols r2 k2) = same_values v1 v2 /\
  (forall r3, Forall2 typed tys (select cols r3) ->
     in_scan low (key_successor high) (encode_index_entry_row t ix cols r3 k2) =
     negb (datums_ltb (select cols r3) v1) && negb (datums_ltb v2 (select cols r3))) /\
  key_ltb (encode_index_entry_row t ix cols r1 k1) (encode_index_entry_row t ix cols r2 k2) =
    (if same_values v1 v2 then datum_ltb k1 k2 else datums_ltb v1 v2).
Proof.
  intros H1 H2 Hk1 Hk2 low high v1 v2. unfold low, high, v1, v2, encode_index_value_prefix, encode_index_entry_row in *.
  rewrite !index_columns_select. split_and!.
  - unfold in_scan, in_range. cbn [lo hi hi_unbounded orb]. rewrite (entry_above t ix tys), (entry_below t ix tys) by done.
    destruct (same_values (select cols r1) (select cols r2)) eqn:E.
    + destruct (values_not_less tys _ _ H1 H2 E) as [-> ->]. done.
    + assert (Ht : datums_ltb (select cols r1) (select cols r2) = negb (datums_ltb (select cols r2) (select cols r1))) by (by apply (values_total tys)).
      rewrite Ht. by destruct (datums_ltb (select cols r2) (select cols r1)).
  - intros r3 H3. rewrite index_columns_select. unfold in_scan, in_range. cbn [lo hi hi_unbounded orb].
    by rewrite (entry_above t ix tys), (entry_below t ix tys) by done.
  - rewrite (index_order t ix tys) by done. by rewrite (encode_pk_order pty) by done.
Qed.

(** What the range of one row key holds. The range from a row key to its successor,
    which the engine scans to fetch a row by primary key, holds exactly that row when
    the key is an integer; when it is a text it holds every row whose key extends it. *)
Theorem row_range_exact t ty a b : typed ty a -> typed ty b ->
  in_scan (encode_key t a) (key_successor (encode_key t a)) (encode_key t b) =
  match ty with TInt => d_i a =? d_i b | TText => bool_decide (d_s a `prefix_of` d_s b) end.
Proof.
  intros [Ta Ia] [Tb Ib]. pose proof (in_successor (encode_key t a) (encode_key t b)) as Hin.
  specialize (Hin ltac:(by apply successor_nonempty)). apply eq_bool_prop_intro. rewrite !Is_true_true, Hin. unfold encode_key, encode_pk.
  rewrite Ta, Tb. destruct ty.
  - rewrite Z.eqb_eq. split.
    + intros (y & E). rewrite <- app_assoc in E. apply app_inv_head in E. assert (Hy : y = []).
      { apply (f_equal length) in E. rewrite length_app, !length_pk_int in E. destruct y; [done|cbn in E; lia]. }
      subst y. rewrite app_nil_r in E. symmetry. by apply pk_int_inj.
    + intros ->. exists []. by rewrite app_nil_r.
  - rewrite bool_decide_eq_true. split.
    + intros (y & E). rewrite <- app_assoc in E. apply app_inv_head in E. by exists y.
    + intros (y & ->). exists y. by rewrite app_assoc.
Qed.

(** ** A small schema *)

Definition plain (ty : SqlType) : Column := mkColumn ty false 0 [] 0 0 [].

Definition text_table : Table := mkTable 7 [plain TText; plain TInt] 0 [0%nat].

Definition tuple_table : Table := mkTable 9 [plain TInt; plain TInt; plain TText] 0 [0; 1]%nat.

Lemma typed_int v : int64 v -> typed TInt (make_int v).
Proof. done. Qed.

Lemma typed_text s : typed TText (make_text s).
Proof. done. Qed.

(** A text key that extends another one falls in its range. *)
Lemma row_range_exact_witness :
  in_scan (encode_key text_table (make_text [Byte.x61])) (key_successor (encode_key text_table (make_text [Byte.x61])))
    (encode_key text_table (make_text [Byte.x61; Byte.x62])) = true.
Proof. by rewrite (row_range_exact text_table TText) by apply typed_text. Defined.

Lemma row_keys_ordered_witness :
  key_ltb (encode_key text_table (make_text [Byte.x61])) (encode_key text_table (make_text [Byte.x61; Byte.x62])) = true /\
  key_ltb (encode_key_row tuple_table [make_int (-5); make_int 3]) (encode_key_row tuple_table [make_int (-5); make_int 4]) = true.
Proof.
  split.
  - apply (row_keys_ordered text_table TText (make_text [Byte.x61]) (make_text [Byte.x61; Byte.x62])); [done|apply typed_text..].
  - apply (row_keys_ordered tuple_table TInt (make_int 0) (make_int 0)); [done|by apply typed_int|by apply typed_int|done|by repeat constructor..].
Defined.

Definition indexed (v : list byte) : list Datum := [make_int 1; make_text v].

Lemma index_lookup_exact_witness :
  let low := encode_index_value_prefix 7 1 [1%nat] (indexed [Byte.x00]) in
  in_scan low (key_successor low) (encode_index_entry_row 7 1 [1%nat] (indexed [Byte.x00; Byte.x00]) (make_int 4)) = false.
Proof.
  refine (proj1 (index_lookup_exact 7 1 [TText] [1%nat] (indexed [Byte.x00]) (indexed [Byte.x00; Byte.x00]) (make_int 4) (make_int 4) TInt _ _ _ _));
    [by repeat constructor|by repeat constructor|by apply typed_int|by apply typed_int].
Defined.
