(* ===== verification/SqlRow.v ===== *)
(** SqlRow: the storage values of the SQL layer (query/sql/Catalog.hpp): the row
    codec with its typed NULLs, the columns added after a row was written, the
    projected decoders, the column-family codec and the delete marker of columnar
    deltas.  A loop that advances an offset is a recursion on the bytes that are
    left; [row[c] = d] is a list update.  The row decoders are run on values the
    encoder wrote: past the end of a string a byte reads as 0. *)

From Stdlib Require Import ZArith Lia.
From stdpp Require Import base list numbers sets.
From S2P Require Import Prelude Codec BigEndian SqlKeys.

(** ** Definitions *)

Definition kNullTag : byte := Byte.xfe.

Definition is_pk_col (t : Table) (c : nat) : bool :=
  if negb (composite_pk t) then (c =? pk_index t)%nat else existsb (fun x => (x =? c)%nat) (pk_columns t).

Definition column (t : Table) (c : nat) : Column := nth c (columns t) no_column.

Definition type_tag (ty : SqlType) : byte := match ty with TInt => Byte.x00 | TText => Byte.x01 end.

Definition field_body (d : Datum) : list byte :=
  match d_type d with
  | TInt => put_be32 8 ++ put_be64 (u64 (d_i d))
  | TText => put_be32 (u32 (Zlen (d_s d))) ++ d_s d
  end.

Definition encode_field (d : Datum) : list byte :=
  if is_null d then [kNullTag] else type_tag (d_type d) :: field_body d.

Definition encode_value (t : Table) (row : list Datum) : list byte :=
  flat_map (fun c => if is_pk_col t c then [] else encode_field (nth c row no_datum)) (seq 0 (length (columns t))).

(** The value of a column that was added after the row was written. *)
Definition default_datum (c : Column) : Datum :=
  if has_default c then match c_type c with TInt => make_int (default_i c) | TText => make_text (default_s c) end
  else make_null (c_type c).

(** The presentation tags; an ENUM also gets its label. *)
Definition tag_logical (c : Column) (d : Datum) : Datum :=
  if c_logical c =? 0 then d
  else
    let d' := mkDatum (d_type d) (d_i d) (d_s d) (is_null d) (c_logical c) (c_scale c) in
    if (c_logical c =? 9) && negb (is_null d) && (0 <=? d_i d) && (d_i d <? Zlen (enum_labels c))
    then mkDatum (d_type d) (d_i d) (nth (Z.to_nat (d_i d)) (enum_labels c) []) (is_null d) (c_logical c) (c_scale c)
    else d'.

Fixpoint tag_loop (cs : list Column) (row : list Datum) : list Datum :=
  match cs, row with
  | c :: cs', d :: row' => tag_logical c d :: tag_loop cs' row'
  | _, _ => row
  end.

Definition tag_logical_cols (t : Table) (row : list Datum) : list Datum := tag_loop (columns t) row.

(** A field that is present and not NULL, and the bytes after it. *)
Definition field_type (tag : byte) : SqlType := if Zb tag =? 0 then TInt else TText.

Definition field_datum (tag : byte) (r : list byte) : Datum :=
  let len := Z.to_nat (get_be32 r) in
  match field_type tag with
  | TInt => make_int (i64 (get_be (take len (drop 4 r))))
  | TText => make_text (take len (drop 4 r))
  end.

Definition field_rest (r : list byte) : list byte := drop (Z.to_nat (get_be32 r)) (drop 4 r).

Fixpoint decode_cols (t : Table) (cs : list nat) (rest : list byte) (row : list Datum) : list Datum :=
  match cs with
  | [] => row
  | c :: cs' =>
      if is_pk_col t c then decode_cols t cs' rest row
      else
        match rest with
        | [] => decode_cols t cs' [] (<[c := default_datum (column t c)]> row)
        | tag :: r =>
            if Zb tag =? Zb kNullTag then decode_cols t cs' r (<[c := make_null (c_type (column t c))]> row)
            else decode_cols t cs' (field_rest r) (<[c := field_datum tag r]> row)
        end
  end.

Definition decode_row (t : Table) (key value : list byte) : list Datum :=
  let row := replicate (length (columns t)) no_datum in
  let row := if composite_pk t then decode_composite_pk t key row else <[pk_index t := decode_pk t key]> row in
  tag_logical_cols t (decode_cols t (seq 0 (length (columns t))) value row).

Definition needed (need : list bool) (c : nat) : bool := nth c need false.

Fixpoint project_cols (t : Table) (need : list bool) (cs : list nat) (rest : list byte) (row : list Datum) : list Datum :=
  match cs with
  | [] => row
  | c :: cs' =>
      if is_pk_col t c then project_cols t need cs' rest row
      else
        match rest with
        | [] => project_cols t need cs' [] (if needed need c then <[c := default_datum (column t c)]> row else row)
        | tag :: r =>
            if Zb tag =? Zb kNullTag
            then project_cols t need cs' r (if needed need c then <[c := make_null (c_type (column t c))]> row else row)
            else project_cols t need cs' (field_rest r) (if needed need c then <[c := field_datum tag r]> row else row)
        end
  end.

Definition project_row (t : Table) (key value : list byte) (need : list bool) (row : list Datum) : list Datum :=
  let row :=
    if composite_pk t then decode_composite_pk t key row
    else if needed need (pk_index t) then <[pk_index t := decode_pk t key]> row else row in
  tag_logical_cols t (project_cols t need (seq 0 (length (columns t))) value row).

Definition decode_row_projected (t : Table) (key value : list byte) (need : list bool) : list Datum :=
  project_row t key value need (replicate (length (columns t)) no_datum).

(** The variant that reuses the caller's buffer: [row.assign] overwrites it. *)
Definition decode_row_projected_into (t : Table) (key value : list byte) (need : list bool) (buffer : list Datum) : list Datum :=
  let buffer := replicate (length (columns t)) no_datum in project_row t key value need buffer.

Definition encode_col_value (d : Datum) : list byte :=
  if is_null d then [kNullTag]
  else Byte.x00 :: match d_type d with TInt => put_be64 (u64 (d_i d)) | TText => d_s d end.

(** [None] where the code would read or cut past the end of the value. *)
Definition decode_col_value (ty : SqlType) (v : list byte) : option Datum :=
  match v with
  | [] => None
  | tag :: r =>
      if Zb tag =? Zb kNullTag then Some (make_null ty)
      else match ty with
           | TInt => if (length r <? 8)%nat then None else Some (make_int (i64 (get_be (take 8 r))))
           | TText => Some (make_text r)
           end
  end.

Definition row_del_marker : list byte := [Byte.x01].

Definition is_row_del_marker (v : list byte) : bool := key_eqb v row_del_marker.

(** ** Fields *)

(** A value that a column can hold. *)
Definition storable (c : Column) (d : Datum) : Prop :=
  is_null d = true \/ typed (c_type c) d /\ Zlen (d_s d) < 2 ^ 32.

(** What the codec keeps of it. *)
Definition kept (c : Column) (d : Datum) : Datum := if is_null d then make_null (c_type c) else stored d.

Lemma i64_u64 v : int64 v -> i64 (u64 v) = v.
Proof.
  unfold int64, i64, u64. intros Hv. destruct (decide (0 <= v)).
  - rewrite Z.mod_small by lia. by rewrite (proj2 (Z.ltb_lt _ _)) by lia.
  - rewrite <- (Z_mod_plus_full _ 1), Z.mod_small by lia. rewrite (proj2 (Z.ltb_ge _ _)) by lia. lia.
Qed.

Lemma get_be_put64 v r : get_be (take 8 (put_be64 v ++ r)) = u64 v.
Proof.
  rewrite take_app_length' by (by rewrite put_be64_be, length_be_bytes). apply get_put_be64.
Qed.

Lemma drop_be32 v r : drop 4 (put_be32 v ++ r) = r.
Proof. done. Qed.

Lemma field_decodes c d rest : is_null d = false -> storable c d ->
  exists tag r, encode_field d ++ rest = tag :: r /\ (Zb tag =? Zb kNullTag) = false /\ field_datum tag r = stored d /\ field_rest r = rest.
Proof.
  intros Hn [?|[[Ht Hi] Hlen]]; [congruence|]. unfold encode_field. rewrite Hn. pose proof (Zlen_nonneg (d_s d)).
  exists (type_tag (d_type d)), (field_body d ++ rest). split; [done|]. unfold field_datum, field_rest, stored, field_body.
  destruct (d_type d); cbn [type_tag]; (split; [done|]); rewrite <- app_assoc, get_put_be32, drop_be32.
  - change (Z.to_nat (u32 8)) with 8%nat. change (field_type Byte.x00) with TInt. cbv iota.
    rewrite get_be_put64, (u64_id (u64 _)) by apply u64_range. rewrite i64_u64 by done. by rewrite drop_app_length' by (by rewrite put_be64_be, length_be_bytes).
  - change (field_type Byte.x01) with TText. cbv iota. rewrite (u32_id (u32 _)), u32_id by (lia || apply u32_range).
    unfold Zlen. rewrite Nat2Z.id. by rewrite take_app_length, drop_app_length.
Qed.

(** ** Rows *)

(** The loop's updates, for a value chosen per column. *)
Fixpoint fill (t : Table) (f : nat -> Datum) (cs : list nat) (row : list Datum) : list Datum :=
  match cs with
  | [] => row
  | c :: cs' => fill t f cs' (if is_pk_col t c then row else <[c := f c]> row)
  end.

Lemma length_fill t f cs : forall row, length (fill t f cs row) = length row.
Proof. induction cs as [|c cs IH]; intros row; [done|]. cbn [fill]. rewrite IH. by destruct (is_pk_col t c); rewrite ?length_insert. Qed.

Lemma fill_lookup t f cs : forall row i, (i < length row)%nat ->
  fill t f cs row !! i = if decide (i ∈ cs /\ is_pk_col t i = false) then Some (f i) else row !! i.
Proof.
  induction cs as [|c cs IH]; intros row i Hi; cbn [fill]; [by rewrite decide_False by set_solver|].
  rewrite IH by (destruct (is_pk_col t c); rewrite ?length_insert; done).
  destruct (decide (i ∈ cs /\ is_pk_col t i = false)) as [[H1 H2]|Hn]; [by rewrite decide_True by set_solver|].
  destruct (decide (i = c)) as [->|Hne].
  - destruct (is_pk_col t c) eqn:E; [by rewrite decide_False by naive_solver|].
    rewrite decide_True by set_solver. by rewrite list_lookup_insert_eq.
  - rewrite decide_False by set_solver. destruct (is_pk_col t c); [done|]. by rewrite list_lookup_insert_ne.
Qed.

Lemma decode_pad t cs : forall row, decode_cols t cs [] row = fill t (fun c => default_datum (column t c)) cs row.
Proof. induction cs as [|c cs IH]; intros row; [done|]. cbn [decode_cols fill]. destruct (is_pk_col t c); apply IH. Qed.

(** The fields of [cs1] are in the value, the columns of [cs2] were added later. *)
Lemma decode_fields t row cs1 cs2 : forall acc, (forall c, c ∈ cs1 -> is_pk_col t c = false -> storable (column t c) (nth c row no_datum)) ->
  decode_cols t (cs1 ++ cs2) (flat_map (fun c => if is_pk_col t c then [] else encode_field (nth c row no_datum)) cs1) acc =
  decode_cols t cs2 [] (fill t (fun c => kept (column t c) (nth c row no_datum)) cs1 acc).
Proof.
  induction cs1 as [|c cs1 IH]; intros acc Hs; [done|]. cbn [app flat_map decode_cols fill].
  assert (Hs' : forall c, c ∈ cs1 -> is_pk_col t c = false -> storable (column t c) (nth c row no_datum)) by set_solver.
  destruct (is_pk_col t c) eqn:E; [by apply IH|]. specialize (Hs c ltac:(set_solver) E). unfold kept at 2.
  destruct (is_null (nth c row no_datum)) eqn:En.
  - assert (encode_field (nth c row no_datum) = [kNullTag]) as -> by (unfold encode_field; by rewrite En). cbn [app].
    rewrite Z.eqb_refl. by apply IH.
  - destruct (field_decodes _ _ (flat_map (fun c => if is_pk_col t c then [] else encode_field (nth c row no_datum)) cs1) En Hs)
      as (tag & r & -> & -> & -> & ->). by apply IH.
Qed.

(** The composite key is read back into its columns. *)
Lemma composite_decodes row key l : forall (acc : list Datum) (off : nat), Forall (typed TInt) (select l row) -> drop off key = encode_cols (select l row) ->
  (fold_left (fun '(off, r) c => ((off + 9)%nat, <[c := make_int (get_pk_int (drop off key))]> r)) l (off, acc)).2 =
  fold_left (fun r c => <[c := make_int (d_i (nth c row no_datum))]> r) l acc.
Proof.
  induction l as [|c l IH]; intros acc off Hf Hk; [done|]. cbn [select map] in Hf, Hk. inversion Hf as [|?? [Hc Hi] Hl]; subst.
  cbn [encode_cols flat_map] in Hk. unfold encode_index_col at 1 in Hk. rewrite Hc in Hk. cbn [fold_left].
  rewrite Hk, get_put_pk_int by done. apply IH; [done|]. rewrite <- drop_drop, Hk.
  by rewrite drop_app_length' by (by rewrite length_pk_int).
Qed.

Lemma inserts_lookup (f : nat -> Datum) l : forall (row : list Datum) i, (i < length row)%nat ->
  fold_left (fun r c => <[c := f c]> r) l row !! i = if decide (i ∈ l) then Some (f i) else row !! i.
Proof.
  induction l as [|c l IH]; intros row i Hi; cbn [fold_left]; [by rewrite decide_False by set_solver|].
  rewrite IH by (by rewrite length_insert). destruct (decide (i ∈ l)); [by rewrite decide_True by set_solver|].
  destruct (decide (i = c)) as [->|Hne]; [rewrite decide_True by set_solver; by rewrite list_lookup_insert_eq|].
  rewrite decide_False by set_solver. by rewrite list_lookup_insert_ne.
Qed.

Lemma length_inserts (f : nat -> Datum) l : forall row : list Datum, length (fold_left (fun r c => <[c := f c]> r) l row) = length row.
Proof. induction l as [|c l IH]; intros row; [done|]. cbn [fold_left]. by rewrite IH, length_insert. Qed.

(** The key's columns of a fresh row. *)
Definition key_columns (t : Table) : list nat := if composite_pk t then pk_columns t else [pk_index t].

Lemma is_pk_key t c : is_pk_col t c = true <-> c ∈ key_columns t.
Proof.
  unfold is_pk_col, key_columns. destruct (composite_pk t); cbn [negb].
  - rewrite existsb_exists. setoid_rewrite Nat.eqb_eq. setoid_rewrite <- list_elem_of_In. naive_solver.
  - rewrite Nat.eqb_eq. set_solver.
Qed.

(** A row of the table that can be stored. *)
Record row_wf (t : Table) (row : list Datum) : Prop := {
  rw_length : length row = length (columns t);
  rw_values : forall c, (c < length (columns t))%nat -> is_pk_col t c = false -> storable (column t c) (nth c row no_datum);
  rw_keys : forall c, c ∈ key_columns t -> (c < length (columns t))%nat /\ typed (c_type (column t c)) (nth c row no_datum);
  rw_tuple : composite_pk t = true -> forall c, c ∈ pk_columns t -> c_type (column t c) = TInt
}.

(** The table after columns were added. *)
Definition altered (t : Table) (extra : list Column) : Table := mkTable (t_id t) (columns t ++ extra) (pk_index t) (pk_columns t).

(** The row such a table reads: the key as stored, the old columns as kept, the new
    ones with their defaults. *)
Definition reads_as (t : Table) (extra : list Column) (row : list Datum) : list Datum :=
  map (fun c => if is_pk_col t c then stored (nth c row no_datum)
                else if (c <? length (columns t))%nat then kept (column t c) (nth c row no_datum)
                else default_datum (column (altered t extra) c))
      (seq 0 (length (columns t ++ extra))).

Lemma column_old t extra c : (c < length (columns t))%nat -> column (altered t extra) c = column t c.
Proof. intros Hc. unfold column, altered. cbn [columns]. by apply app_nth1. Qed.

Lemma elem_seq c a n : c ∈ seq a n <-> (a <= c < a + n)%nat.
Proof. rewrite list_elem_of_In. apply in_seq. Qed.

(** The fresh row after the key was read into it. *)
Lemma key_read t extra row : row_wf t row ->
  let t' := altered t extra in
  let n := length (columns t ++ extra) in
  let fresh := replicate n no_datum in
  let r := if composite_pk t' then decode_composite_pk t' (encode_key_row t row) fresh
           else <[pk_index t' := decode_pk t' (encode_key_row t row)]> fresh in
  length r = n /\ forall c, c ∈ key_columns t -> r !! c = Some (stored (nth c row no_datum)).
Proof.
  intros [Hl Hv Hk Ht] t' n fresh r. assert (Hn : forall c, c ∈ key_columns t -> (c < n)%nat).
  { intros c Hc. destruct (Hk c Hc). unfold n. rewrite length_app. lia. }
  unfold key_columns in *. change (composite_pk t') with (composite_pk t) in r. destruct (composite_pk t) eqn:Ec.
  - assert (Hf : Forall (typed TInt) (select (pk_columns t) row)).
    { unfold select. rewrite Forall_map. apply Forall_forall. intros c Hc. cbn. rewrite <- (Ht eq_refl c Hc). by apply Hk. }
    assert (Er : r = fold_left (fun r c => <[c := make_int (d_i (nth c row no_datum))]> r) (pk_columns t) fresh).
    { unfold r, decode_composite_pk. change (pk_columns t') with (pk_columns t). apply composite_decodes; [done|].
      by rewrite composite_key by done. }
    rewrite Er. split; [unfold fresh; by rewrite length_inserts, length_replicate|]. intros c Hc.
    rewrite inserts_lookup, decide_True by (done || by unfold fresh; rewrite length_replicate; auto).
    destruct (Hk c Hc) as [_ [Hty _]]. rewrite Ht in Hty by done. unfold stored. by rewrite Hty.
  - split; [unfold r, fresh; by rewrite length_insert, length_replicate|]. intros c ->%list_elem_of_singleton.
    assert (Hp : pk_index t ∈ [pk_index t]) by set_solver. destruct (Hk _ Hp) as [Hlt Hty].
    unfold r. change (pk_index t') with (pk_index t). rewrite list_lookup_insert_eq by (unfold fresh; rewrite length_replicate; auto).
    f_equal. unfold encode_key_row. rewrite Ec. cbn [negb]. unfold decode_pk, encode_key, kPrefixLen, table_prefix. rewrite drop_space.
    change (pk t') with (column t' (pk_index t)). unfold t'. rewrite column_old by done. by apply decode_suffix_encode.
Qed.

(** Rows round trip. A stored row is read back from its key and its value with every
    column as it was, NULLs typed by the schema, under the table it was written with
    and under the table after any columns were added, which read as their defaults. *)
Theorem row_roundtrip t extra row : row_wf t row ->
  decode_row (altered t extra) (encode_key_row t row) (encode_value t row) =
  tag_logical_cols (altered t extra) (reads_as t extra row).
Proof.
  intros Hw. destruct (key_read t extra row Hw) as [Hlen Hkey]. destruct Hw as [Hl Hv _ _]. unfold decode_row. f_equal.
  set (t' := altered t extra) in *. change (columns t') with (columns t ++ extra). cbn zeta in Hlen, Hkey.
  revert Hlen Hkey. generalize (if composite_pk t' then decode_composite_pk t' (encode_key_row t row) (replicate (length (columns t ++ extra)) no_datum)
    else <[pk_index t' := decode_pk t' (encode_key_row t row)]> (replicate (length (columns t ++ extra)) no_datum)). intros r Hlen Hkey.
  assert (Hseq : seq 0 (length (columns t ++ extra)) = seq 0 (length (columns t)) ++ seq (length (columns t)) (length extra))
    by (by rewrite length_app, seq_app).
  rewrite Hseq at 1. unfold encode_value. change (is_pk_col t) with (is_pk_col t'). rewrite decode_fields, decode_pad.
  2: { intros c Hc%elem_seq Hp. unfold t'. rewrite column_old by lia. apply Hv; [lia|done]. }
  apply list_eq_same_length with (length (columns t ++ extra)); [unfold reads_as; by rewrite length_map, length_seq|by rewrite !length_fill|].
  intros i x y Hi. unfold reads_as. rewrite list_lookup_fmap, lookup_seq_lt by lia. cbn [fmap option_fmap option_map].
  rewrite fill_lookup, fill_lookup by (rewrite ?length_fill; lia). change (is_pk_col t) with (is_pk_col t').
  rewrite Nat.add_0_l. destruct (is_pk_col t' i) eqn:Ep.
  - rewrite !decide_False by naive_solver. rewrite Hkey by (by apply is_pk_key). by intros [= <-] [= <-].
  - rewrite length_app in Hi. destruct (decide (i < length (columns t))%nat) as [Hlt|Hge].
    + rewrite decide_False by (rewrite elem_seq; lia). rewrite decide_True by (rewrite elem_seq; lia).
      rewrite (proj2 (Nat.ltb_lt _ _)) by lia. unfold t' at 1. rewrite column_old by done. by intros [= <-] [= <-].
    + rewrite decide_True by (rewrite elem_seq; lia). rewrite (proj2 (Nat.ltb_ge _ _)) by lia. by intros [= <-] [= <-].
Qed.

(** ** Projection *)

(** Two rows agree on the columns asked for. *)
Definition agree (need : list bool) (r1 r2 : list Datum) : Prop :=
  length r1 = length r2 /\ forall c, needed need c = true -> r1 !! c = r2 !! c.

Lemma agree_insert need c d r1 r2 : agree need r1 r2 ->
  agree need (if needed need c then <[c := d]> r1 else r1) (<[c := d]> r2).
Proof.
  intros [Hl Ha]. destruct (needed need c) eqn:E; (split; [by rewrite !length_insert|]); intros i Hi.
  - destruct (decide (i = c)) as [->|Hne]; [|by rewrite !list_lookup_insert_ne by done; apply Ha].
    destruct (decide (c < length r1)%nat).
    + by rewrite !list_lookup_insert_eq by lia.
    + by rewrite !lookup_ge_None_2 by (rewrite length_insert; lia).
  - rewrite list_lookup_insert_ne by congruence. by apply Ha.
Qed.

Lemma project_agree t need cs : forall rest r1 r2, agree need r1 r2 ->
  agree need (project_cols t need cs rest r1) (decode_cols t cs rest r2).
Proof.
  induction cs as [|c cs IH]; intros rest r1 r2 Ha; [done|]. cbn [project_cols decode_cols].
  destruct (is_pk_col t c); [by apply IH|]. destruct rest as [|tag r]; [by apply IH, agree_insert|].
  destruct (Zb tag =? Zb kNullTag); by apply IH, agree_insert.
Qed.

Lemma tag_loop_lookup cs : forall row c, tag_loop cs row !! c = (fun d => match cs !! c with Some col => tag_logical col d | None => d end) <$> row !! c.
Proof.
  induction cs as [|col cs IH]; intros row c; [cbn [tag_loop]; rewrite lookup_nil; by destruct (row !! c)|]. destruct row as [|d row]; [done|].
  destruct c as [|c]; [done|]. cbn [tag_loop]. rewrite !lookup_cons. apply IH.
Qed.

(** The projected decoders agree with the full one. Whatever the bytes, every column
    asked for is decoded to what the full decoder gives, though the others are skipped
    without being read, and the variant that fills a caller's buffer returns the same
    row whatever the buffer held. *)
Theorem projection_exact t key value need c buffer : needed need c = true ->
  decode_row_projected t key value need !! c = decode_row t key value !! c /\
  decode_row_projected_into t key value need buffer = decode_row_projected t key value need.
Proof.
  intros Hc. split; [|done]. unfold decode_row_projected, project_row, decode_row, tag_logical_cols. rewrite !tag_loop_lookup. f_equal.
  apply project_agree; [|done]. destruct (composite_pk t); [done|]. by apply agree_insert.
Qed.

(** ** Column families and the delete marker *)

(** Column values round trip, and the delete marker is no row. A stored column value
    decodes to the datum, NULLs included; and no row of a table encodes to the marker
    that a columnar delta stores for a deleted row. *)
Theorem column_value_roundtrip t row c d : storable c d ->
  decode_col_value (c_type c) (encode_col_value d) = Some (kept c d) /\ is_row_del_marker (encode_value t row) = false.
Proof.
  intros Hs. split.
  - unfold encode_col_value, kept. destruct (is_null d) eqn:En; [done|]. destruct Hs as [?|[[Ht Hi] _]]; [congruence|].
    cbn [decode_col_value]. change (Zb Byte.x00 =? Zb kNullTag) with false. cbv iota. unfold stored. rewrite Ht. destruct (c_type c); [|done].
    rewrite put_be64_be, length_be_bytes, <- put_be64_be. cbn [Nat.ltb Nat.leb].
    rewrite <- (app_nil_r (put_be64 _)), get_be_put64, (u64_id (u64 _)) by apply u64_range. by rewrite i64_u64.
  - apply key_eqb_neq. unfold encode_value, row_del_marker. generalize (seq 0 (length (columns t))). intros cs.
    induction cs as [|x cs IH]; [done|]. cbn [flat_map]. destruct (is_pk_col t x); [done|]. unfold encode_field.
    destruct (is_null _); [done|]. intros [= _ E]. apply app_eq_nil in E as [E _]. revert E. unfold field_body. by destruct (d_type _).
Qed.

(** ** A row of each kind *)

Definition null_of (ty : SqlType) : Datum := make_null ty.

Definition text_row : list Datum := [make_text [Byte.x61]; make_int (-7)].

Definition tuple_row : list Datum := [make_int 3; make_int (-4); null_of TText].

Lemma text_row_wf : row_wf text_table text_row.
Proof.
  split; [done| | |done].
  - intros [|[|c]] Hc Hp; [done|right; by repeat split|cbn in Hc; lia].
  - intros c ->%list_elem_of_singleton. split; [cbn; lia|done].
Qed.

Lemma tuple_row_wf : row_wf tuple_table tuple_row.
Proof.
  split; [done| | |].
  - intros [|[|[|c]]] Hc Hp; [done|done|by left|cbn in Hc; lia].
  - intros c Hc. change (key_columns tuple_table) with [0%nat; 1%nat] in Hc. rewrite !elem_of_cons, elem_of_nil in Hc.
    destruct Hc as [->|[->|[]]]; (split; [cbn; lia|by repeat split]).
  - intros _ c Hc. change (pk_columns tuple_table) with [0%nat; 1%nat] in Hc. rewrite !elem_of_cons, elem_of_nil in Hc.
    by destruct Hc as [->|[->|[]]].
Qed.

Lemma row_roundtrip_witness :
  decode_row text_table (encode_key_row text_table text_row) (encode_value text_table text_row) = text_row /\
  decode_row (altered tuple_table [plain TInt]) (encode_key_row tuple_table tuple_row) (encode_value tuple_table tuple_row) =
    tuple_row ++ [null_of TInt].
Proof.
  split.
  - exact (row_roundtrip text_table [] text_row text_row_wf).
  - exact (row_roundtrip tuple_table [plain TInt] tuple_row tuple_row_wf).
Defined.

Lemma projection_exact_witness :
  decode_row_projected text_table (encode_key_row text_table text_row) (encode_value text_table text_row) [false; true] !! 1%nat =
  decode_row text_table (encode_key_row text_table text_row) (encode_value text_table text_row) !! 1%nat.
Proof. by apply (projection_exact text_table _ _ [false; true] 1 []). Defined.

Lemma column_value_roundtrip_witness : decode_col_value TText (encode_col_value (make_text [Byte.xfe])) = Some (make_text [Byte.xfe]).
Proof. apply (column_value_roundtrip text_table text_row (plain TText) (make_text [Byte.xfe])). right. by repeat split. Defined.
