(* ===== verification/ColumnBlock.v ===== *)
(** ColumnBlock: the durable column chunk of the columnar tables
    (query/sql/ColumnBlock.hpp): a null bitmap, then 64-bit integers, or texts in an
    arena with end offsets, or a dictionary of the distinct texts with a code per
    row when that is smaller.

    The decoder's offset is the suffix of the block that is left; [substr] cuts from
    the block itself, so it is given the suffix that starts at the arena.  The
    [std::map] of codes is an association list: only lookups of it are used. *)

From Stdlib Require Import ZArith Lia.
From stdpp Require Import base list numbers.
From S2P Require Import Prelude Codec BigEndian SqlKeys SqlRow.

(** ** Encoding *)

Definition null_at (cells : list Datum) (r : nat) : bool := is_null (nth r cells no_datum).

Definition set_null (cells : list Datum) (bm : list byte) (r : nat) : list byte :=
  if null_at cells r
  then <[(r / 8)%nat := bZ (Z.lor (Zb (nth (r / 8) bm Byte.x00)) (Z.shiftl 1 (Z.of_nat (r mod 8))))]> bm
  else bm.

Definition bitmap (cells : list Datum) : list byte :=
  fold_left (set_null cells) (seq 0 (length cells)) (replicate ((length cells + 7) / 8) Byte.x00).

Definition header (tb : byte) (cells : list Datum) : list byte :=
  tb :: put_be32 (u32 (Zlen cells)) ++ bitmap cells.

Definition int_cell (d : Datum) : Z := if is_null d then 0 else d_i d.

Definition text_cell (d : Datum) : list byte := if is_null d then [] else d_s d.

(** The dictionary pass. *)
Record dictionary := mkDictionary {
  code_of : list (list byte * Z);
  dict : list (list byte);
  codes : list Z;
  raw_arena : Z;
  dict_arena : Z
}.

Fixpoint find_code (s : list byte) (l : list (list byte * Z)) : option Z :=
  match l with
  | [] => None
  | (k, c) :: l' => if key_eqb s k then Some c else find_code s l'
  end.

Definition add_cell (st : dictionary) (d : Datum) : dictionary :=
  if is_null d then mkDictionary (code_of st) (dict st) (codes st ++ [0]) (raw_arena st) (dict_arena st)
  else
    let raw := raw_arena st + Zlen (d_s d) in
    match find_code (d_s d) (code_of st) with
    | None =>
        let nc := u32 (Zlen (dict st)) in
        mkDictionary ((d_s d, nc) :: code_of st) (dict st ++ [d_s d]) (codes st ++ [nc]) raw (dict_arena st + Zlen (d_s d))
    | Some c => mkDictionary (code_of st) (dict st) (codes st ++ [c]) raw (dict_arena st)
    end.

Definition build_dictionary (cells : list Datum) : dictionary := fold_left add_cell cells (mkDictionary [] [] [] 0 0).

Definition code_width (nd : Z) : nat := if nd <=? 256 then 1 else if nd <=? 65536 then 2 else 4.

(** The arena's size after each text. *)
Fixpoint ends_of (total : Z) (l : list (list byte)) : list Z :=
  match l with
  | [] => []
  | s :: l' => u32 (total + Zlen s) :: ends_of (total + Zlen s) l'
  end.

Definition put_code (cw : nat) (c : Z) : list byte :=
  map (fun k => bZ (Z.land (Z.shiftr c (8 * (Z.of_nat cw - 1 - Z.of_nat k))) 0xFF)) (seq 0 cw).

Definition put_arena (l : list (list byte)) : list byte :=
  put_be32 (u32 (Zlen (concat l))) ++ concat l ++ flat_map put_be32 (ends_of 0 l).

Definition encode_column_block (ty : SqlType) (cells : list Datum) : list byte :=
  match ty with
  | TInt => header Byte.x00 cells ++ flat_map (fun d => put_be64 (u64 (int_cell d))) cells
  | TText =>
      let st := build_dictionary cells in
      let nd := u32 (Zlen (dict st)) in
      let cw := code_width nd in
      let raw_size := 4 + raw_arena st + Zlen cells * 4 in
      let dict_size := 4 + 4 + dict_arena st + nd * 4 + 1 + Zlen cells * Z.of_nat cw in
      if dict_size <? raw_size then
        header Byte.x02 cells ++ put_be32 nd ++ put_arena (dict st) ++ [bZ (Z.of_nat cw)] ++ flat_map (put_code cw) (codes st)
      else header Byte.x01 cells ++ put_arena (map text_cell cells)
  end.

(** ** Decoding *)

Record ColumnChunk := mkChunk {
  ch_type : SqlType;
  ch_count : Z;
  ints : list Z;
  texts : list (list byte);
  nulls : list bool
}.

Definition at_ (c : ColumnChunk) (r : nat) : Datum :=
  if nth r (nulls c) false then make_null (ch_type c)
  else match ch_type c with TInt => make_int (nth r (ints c) 0) | TText => make_text (nth r (texts c) []) end.

Definition null_bit (bm : list byte) (r : nat) : bool :=
  negb (Z.land (Z.shiftr (Zb (nth (r / 8) bm Byte.x00)) (Z.of_nat (r mod 8))) 1 =? 0).

Fixpoint read_ints (n : nat) (rest : list byte) : list Z :=
  match n with
  | O => []
  | S n' => i64 (get_be (take 8 rest)) :: read_ints n' (drop 8 rest)
  end.

(** [prev] is the end of the text before; [ends] holds the offsets, [arena] starts at
    the arena and runs to the end of the block. *)
Fixpoint read_texts (n : nat) (prev : Z) (ends arena : list byte) : list (list byte) :=
  match n with
  | O => []
  | S n' =>
      let e := get_be32 ends in
      take (Z.to_nat (u32 (e - prev))) (drop (Z.to_nat prev) arena) :: read_texts n' e (drop 4 ends) arena
  end.

(** The codes are read in 32 bits. *)
Definition get_code (l : list byte) : Z := fold_left (fun v b => Z.lor (Z.shiftl v 8 mod 2 ^ 32) (Zb b)) l 0.

Fixpoint read_codes (nulls : list bool) (cw : nat) (rest : list byte) (dict : list (list byte)) : list (list byte) :=
  match nulls with
  | [] => []
  | b :: nulls' => (if b then [] else nth (Z.to_nat (get_code (take cw rest))) dict []) :: read_codes nulls' cw (drop cw rest) dict
  end.

Definition decode_column_block (v : list byte) : ColumnChunk :=
  let tb := Zb (nth 0 v Byte.x00) in
  let ty := if tb =? 0 then TInt else TText in
  let v := drop 1 v in
  let count := get_be32 v in
  let n := Z.to_nat count in
  let v := drop 4 v in
  let ns := map (null_bit v) (seq 0 n) in
  let v := drop (Z.to_nat (u32 (count + 7) / 8)) v in
  if tb =? 0 then mkChunk ty count (read_ints n v) [] ns
  else if tb =? 2 then
    let nd := Z.to_nat (get_be32 v) in
    let v := drop 4 v in
    let da_len := Z.to_nat (get_be32 v) in
    let arena := drop 4 v in
    let v := drop da_len arena in
    let words := read_texts nd 0 v arena in
    let v := drop (4 * nd) v in
    let cw := Z.to_nat (Zb (nth 0 v Byte.x00)) in
    mkChunk ty count [] (read_codes ns cw (drop 1 v) words) ns
  else
    let arena_len := Z.to_nat (get_be32 v) in
    let arena := drop 4 v in
    mkChunk ty count [] (read_texts n 0 (drop arena_len arena) arena) ns.

(** ** The null bitmap *)

Lemma nth_set_eq {A} i (x : A) l d : (i < length l)%nat -> nth i (<[i := x]> l) d = x.
Proof. intros Hi. by rewrite nth_lookup, list_lookup_insert_eq. Qed.

Lemma nth_set_ne {A} i j (x : A) l d : i <> j -> nth j (<[i := x]> l) d = nth j l d.
Proof. intros Hi. by rewrite !nth_lookup, list_lookup_insert_ne. Qed.

Lemma bitmap_bits cells k : (k <= length cells)%nat ->
  let m := ((length cells + 7) / 8)%nat in
  let bm := fold_left (set_null cells) (seq 0 k) (replicate m Byte.x00) in
  length bm = m /\ forall j b, (j < m)%nat -> (b < 8)%nat ->
    Z.testbit (Zb (nth j bm Byte.x00)) (Z.of_nat b) = ((8 * j + b <? k)%nat && null_at cells (8 * j + b)).
Proof.
  intros Hk m. induction k as [|k IH]; cbn zeta.
  - split; [apply length_replicate|]. intros j b Hj Hb. cbn [seq fold_left]. rewrite nth_lookup, lookup_replicate_2 by done. apply Z.testbit_0_l.
  - destruct IH as [Hl Hbits]; [lia|]. rewrite seq_S, fold_left_app, Nat.add_0_l. cbn [fold_left].
    revert Hl Hbits. generalize (fold_left (set_null cells) (seq 0 k) (replicate m Byte.x00)). intros bm Hl Hbits.
    assert (Hdm : k = (8 * (k / 8) + k mod 8)%nat) by (apply Nat.div_mod; lia). pose proof (Nat.mod_upper_bound k 8 ltac:(lia)) as Hmod.
    unfold set_null. destruct (null_at cells k) eqn:En.
    + split; [by rewrite length_insert|]. intros j b Hj Hb. destruct (decide (j = (k / 8)%nat)) as [->|Hne].
      * rewrite nth_set_eq by lia. rewrite Zb_bZ. change 256 with (2 ^ 8). rewrite Z.mod_pow2_bits_low by lia.
        rewrite Z.lor_spec, Hbits, Z.shiftl_1_l, Z.pow2_bits_eqb by lia.
        destruct (decide (b = (k mod 8)%nat)) as [->|Hnb].
        -- rewrite Z.eqb_refl, orb_true_r, <- Hdm, En. by rewrite (proj2 (Nat.ltb_lt k (S k))) by lia.
        -- rewrite (proj2 (Z.eqb_neq _ _)) by lia. rewrite orb_false_r. f_equal. lia.
      * rewrite nth_set_ne by done. rewrite Hbits by done. f_equal. lia.
    + split; [done|]. intros j b Hj Hb. rewrite Hbits by done. destruct (decide (8 * j + b = k)%nat) as [->|]; [rewrite En; lia|]. f_equal. lia.
Qed.

Lemma length_bitmap cells : length (bitmap cells) = ((length cells + 7) / 8)%nat.
Proof. apply (bitmap_bits cells (length cells)). lia. Qed.

Lemma null_bit_bitmap cells rest r : (r < length cells)%nat -> null_bit (bitmap cells ++ rest) r = null_at cells r.
Proof.
  intros Hr. destruct (bitmap_bits cells (length cells) ltac:(lia)) as [Hl Hbits]. fold (bitmap cells) in Hl, Hbits.
  assert (Hdm : r = (8 * (r / 8) + r mod 8)%nat) by (apply Nat.div_mod; lia). pose proof (Nat.mod_upper_bound r 8 ltac:(lia)) as Hmod.
  assert (Hj : (r / 8 < (length cells + 7) / 8)%nat) by (apply Nat.div_le_lower_bound; lia).
  unfold null_bit. rewrite app_nth1, land_one, Hbits, <- Hdm by lia. rewrite (proj2 (Nat.ltb_lt _ _)) by lia.
  by destruct (null_at cells r).
Qed.

Lemma map_nth_seq {A B} (f : A -> B) l d : map (fun r => f (nth r l d)) (seq 0 (length l)) = map f l.
Proof.
  induction l as [|x l IH]; [done|]. cbn [length seq map nth]. f_equal. rewrite <- seq_shift, map_map. exact IH.
Qed.

Lemma decode_nulls cells rest : map (null_bit (bitmap cells ++ rest)) (seq 0 (length cells)) = map is_null cells.
Proof.
  rewrite <- (map_nth_seq is_null cells no_datum). apply map_ext_in. intros r Hr%in_seq. apply null_bit_bitmap. lia.
Qed.

(** ** Arrays *)

Lemma read_ints_exact cells rest : Forall (fun d => int64 (d_i d)) cells ->
  read_ints (length cells) (flat_map (fun d => put_be64 (u64 (int_cell d))) cells ++ rest) = map int_cell cells.
Proof.
  induction 1 as [|d cells Hd _ IH]; [done|]. cbn [length flat_map read_ints map]. rewrite <- app_assoc.
  rewrite get_be_put64, (u64_id (u64 _)) by apply u64_range. rewrite drop_app_length' by (by rewrite put_be64_be, length_be_bytes).
  rewrite IH, i64_u64; [done|]. unfold int_cell. by destruct (is_null d).
Qed.

Lemma read_texts_exact l : forall prev arena tail rest, 0 <= prev -> drop (Z.to_nat prev) arena = concat l ++ tail ->
  prev + Zlen (concat l) < 2 ^ 32 -> read_texts (length l) prev (flat_map put_be32 (ends_of prev l) ++ rest) arena = l.
Proof.
  induction l as [|s l IH]; intros prev arena tail rest Hp Ha Hb; [done|]. cbn [length ends_of flat_map read_texts].
  cbn [concat] in Ha, Hb. rewrite Zlen_app in Hb. pose proof (Zlen_nonneg s). pose proof (Zlen_nonneg (concat l)).
  rewrite <- app_assoc, get_put_be32, drop_be32, (u32_id (u32 _)) by apply u32_range. rewrite (u32_id (prev + Zlen s)) by lia.
  replace (prev + Zlen s - prev) with (Zlen s) by lia. rewrite u32_id by lia. f_equal.
  - rewrite Ha, <- app_assoc. unfold Zlen. rewrite Nat2Z.id. apply take_app_length.
  - apply (IH _ _ tail); [lia| |lia]. rewrite Z2Nat.inj_add, <- drop_drop, Ha, <- app_assoc by lia.
    unfold Zlen. rewrite Nat2Z.id. apply drop_app_length.
Qed.

Lemma length_put_be32 v : length (put_be32 v) = 4%nat.
Proof. done. Qed.

Lemma length_ends l : forall total, length (flat_map put_be32 (ends_of total l)) = (4 * length l)%nat.
Proof. induction l as [|s l IH]; intros total; [done|]. cbn [ends_of flat_map]. rewrite length_app, IH, length_put_be32. cbn [length]. lia. Qed.

(** The arena and the offsets after it are read back, wherever they lie. *)
Lemma read_arena l rest : Zlen (concat l) < 2 ^ 32 ->
  let v := put_arena l ++ rest in
  let arena := drop 4 v in
  let ends := drop (Z.to_nat (get_be32 v)) arena in
  read_texts (length l) 0 ends arena = l /\ drop (4 * length l) ends = rest.
Proof.
  intros Hl v arena ends. pose proof (Zlen_nonneg (concat l)) as Hn.
  assert (Ha : arena = concat l ++ flat_map put_be32 (ends_of 0 l) ++ rest).
  { unfold arena, v, put_arena. rewrite <- app_assoc, drop_be32. by rewrite <- app_assoc. }
  assert (He : ends = flat_map put_be32 (ends_of 0 l) ++ rest).
  { unfold ends. rewrite Ha. unfold v, put_arena. rewrite <- app_assoc, get_put_be32, !u32_id by (rewrite ?u32_id; lia).
    unfold Zlen. rewrite Nat2Z.id. apply drop_app_length. }
  rewrite He. split.
  - by apply (read_texts_exact l 0 arena (flat_map put_be32 (ends_of 0 l) ++ rest)).
  - apply drop_app_length'. symmetry; apply length_ends.
Qed.

(** ** Codes *)

Definition width_ok (cw : nat) : Prop := cw = 1%nat \/ cw = 2%nat \/ cw = 4%nat.

Lemma put_code_be cw c : width_ok cw -> put_code cw c = be_bytes cw c.
Proof.
  unfold put_code, be_bytes. intros [->|[->| ->]]; cbn [seq map le_bytes rev app]; rewrite !bZ_land_shift by lia;
    cbn; rewrite ?Z.div_div, ?Z.div_1_r by lia; done.
Qed.

Lemma get_code_put cw c rest : width_ok cw -> 0 <= c < 256 ^ Z.of_nat cw -> get_code (take cw (put_code cw c ++ rest)) = c /\ drop cw (put_code cw c ++ rest) = rest.
Proof.
  intros Hw Hc. pose proof (put_code_be cw c Hw) as E. rewrite E. assert (Hl : length (be_bytes cw c) = cw) by apply length_be_bytes.
  rewrite take_app_length', drop_app_length' by done. split; [|done]. unfold get_code.
  assert (be_val (be_bytes cw c) = c) by (rewrite be_val_bytes; by apply Z.mod_small).
  assert (256 ^ Z.of_nat cw <= 2 ^ 32) by (destruct Hw as [->|[->| ->]]; done).
  rewrite (fold_be 32) by lia. lia.
Qed.

Lemma code_width_ok nd : width_ok (code_width nd).
Proof. unfold code_width, width_ok. destruct (nd <=? 256); [by left|]. destruct (nd <=? 65536); auto. Qed.

Lemma code_fits nd c : 0 <= c < nd -> nd <= 2 ^ 32 -> c < 256 ^ Z.of_nat (code_width nd).
Proof.
  intros Hc Hn. unfold code_width. destruct (nd <=? 256) eqn:E1; [change (256 ^ Z.of_nat 1) with 256; lia|].
  destruct (nd <=? 65536) eqn:E2; [change (256 ^ Z.of_nat 2) with 65536; lia|]. change (256 ^ Z.of_nat 4) with (2 ^ 32). lia.
Qed.

(** ** The dictionary *)

(** The code [c] stands for the text [s]. *)
Definition names (words : list (list byte)) (c : Z) (s : list byte) : Prop :=
  0 <= c < Zlen words /\ nth (Z.to_nat c) words [] = s.

Record built (st : dictionary) (cells : list Datum) : Prop := {
  b_codes : Forall2 (fun c d => if is_null d then c = 0 else names (dict st) c (d_s d)) (codes st) cells;
  b_find : forall s c, find_code s (code_of st) = Some c -> names (dict st) c s;
  b_count : Zlen (dict st) <= Zlen cells;
  b_arena : Zlen (concat (dict st)) <= Zlen (concat (map text_cell cells))
}.

Lemma names_snoc words c s x : names words c s -> names (words ++ [x]) c s.
Proof.
  intros [Hc Hn]. split; [rewrite Zlen_app; pose proof (Zlen_nonneg [x]); lia|]. unfold Zlen in Hc. by rewrite app_nth1 by lia.
Qed.

Lemma codes_snoc words x l cells : Forall2 (fun c d => if is_null d then c = 0 else names words c (d_s d)) l cells ->
  Forall2 (fun c d => if is_null d then c = 0 else names (words ++ [x]) c (d_s d)) l cells.
Proof. apply Forall2_impl. intros c d. destruct (is_null d); [done|]. apply names_snoc. Qed.

Lemma add_cell_built st cells d : Zlen cells < 2 ^ 32 - 1 -> built st cells -> built (add_cell st d) (cells ++ [d]).
Proof.
  intros Hn [B1 B2 B3 B4]. unfold add_cell.
  pose proof (Zlen_nonneg (dict st)). pose proof (Zlen_nonneg (text_cell d)).
  assert (H1 : Zlen (cells ++ [d]) = Zlen cells + 1) by (by rewrite Zlen_app).
  assert (H2 : Zlen (concat (map text_cell cells) ++ text_cell d) = Zlen (concat (map text_cell cells)) + Zlen (text_cell d)) by apply Zlen_app.
  destruct (is_null d) eqn:En.
  { split; cbn [codes dict code_of]; [|done|lia|].
    - apply Forall2_app; [done|]. constructor; [by rewrite En|done].
    - rewrite map_app, concat_app. cbn [map concat]. rewrite app_nil_r. lia. }
  assert (Ht : text_cell d = d_s d) by (unfold text_cell; by rewrite En). rewrite Ht in *.
  destruct (find_code (d_s d) (code_of st)) as [c|] eqn:Ef.
  - split; cbn [codes dict code_of]; [|done|lia|].
    + apply Forall2_app; [done|]. constructor; [rewrite En; by apply B2|done].
    + rewrite map_app, concat_app. cbn [map concat]. rewrite app_nil_r, Ht. lia.
  - rewrite u32_id by lia. assert (Hnew : names (dict st ++ [d_s d]) (Zlen (dict st)) (d_s d)).
    { split; [rewrite Zlen_app; change (Zlen [d_s d]) with 1; lia|]. unfold Zlen. rewrite Nat2Z.id, app_nth2, Nat.sub_diag by lia. done. }
    split; cbn [codes dict code_of].
    + apply Forall2_app; [by apply codes_snoc|]. constructor; [by rewrite En|done].
    + intros s c. cbn [find_code]. destruct (key_eqb s (d_s d)) eqn:Ek.
      * apply key_eqb_eq in Ek as ->. by intros [= <-].
      * intros Hf. by apply names_snoc, B2.
    + rewrite Zlen_app. change (Zlen [d_s d]) with 1. lia.
    + rewrite concat_app, map_app, concat_app, !Zlen_app. cbn [map concat]. rewrite !app_nil_r, Ht. lia.
Qed.

Lemma build_built cells : Zlen cells < 2 ^ 32 - 1 -> built (build_dictionary cells) cells.
Proof.
  unfold build_dictionary. induction cells as [|d cells IH] using rev_ind; intros Hn.
  - split; [constructor|done|done|done].
  - rewrite Zlen_app in Hn. change (Zlen [d]) with 1 in Hn. rewrite fold_left_app. cbn [fold_left]. apply add_cell_built; [lia|]. apply IH. lia.
Qed.

Lemma read_codes_exact words cw nd l cells : forall rest, width_ok cw -> nd <= 2 ^ 32 -> cw = code_width nd -> Zlen words = nd ->
  Forall2 (fun c d => if is_null d then c = 0 else names words c (d_s d)) l cells ->
  read_codes (map is_null cells) cw (flat_map (put_code cw) l ++ rest) words = map text_cell cells.
Proof.
  intros rest Hw Hnd Hcw Hlen Hf. revert rest. induction Hf as [|c d l cells Hc Hf IH]; intros rest; [done|].
  cbn [map flat_map read_codes]. rewrite <- app_assoc.
  assert (Hr : 0 <= c < 256 ^ Z.of_nat cw).
  { destruct (is_null d); [subst c; destruct Hw as [->|[->| ->]]; done|]. destruct Hc as [Hc _]. rewrite Hlen in Hc. subst cw.
    split; [lia|by apply code_fits]. }
  destruct (get_code_put cw c (flat_map (put_code cw) l ++ rest) Hw Hr) as [-> ->]. rewrite IH. f_equal.
  unfold text_cell. destruct (is_null d); [done|]. by destruct Hc.
Qed.

(** ** The block *)

(** The decoder once the header was read. *)
Definition decode_body (tb : byte) (cells : list Datum) (v : list byte) : ColumnChunk :=
  let ns := map is_null cells in
  if Zb tb =? 0 then mkChunk TInt (Zlen cells) (read_ints (length cells) v) [] ns
  else if Zb tb =? 2 then
    let nd := Z.to_nat (get_be32 v) in
    let v := drop 4 v in
    let arena := drop 4 v in
    let ends := drop (Z.to_nat (get_be32 v)) arena in
    let words := read_texts nd 0 ends arena in
    let v := drop (4 * nd) ends in
    mkChunk TText (Zlen cells) [] (read_codes ns (Z.to_nat (Zb (nth 0 v Byte.x00))) (drop 1 v) words) ns
  else
    let arena := drop 4 v in
    mkChunk TText (Zlen cells) [] (read_texts (length cells) 0 (drop (Z.to_nat (get_be32 v)) arena) arena) ns.

Lemma decode_header tb cells v : Zlen cells < 2 ^ 32 - 7 -> decode_column_block (header tb cells ++ v) = decode_body tb cells v.
Proof.
  intros Hn. pose proof (Zlen_nonneg cells) as H0. unfold decode_column_block, header.
  change (nth 0 ((tb :: put_be32 (u32 (Zlen cells)) ++ bitmap cells) ++ v) Byte.x00) with tb.
  change (drop 1 ((tb :: put_be32 (u32 (Zlen cells)) ++ bitmap cells) ++ v)) with ((put_be32 (u32 (Zlen cells)) ++ bitmap cells) ++ v).
  rewrite <- (app_assoc (put_be32 _)), get_put_be32, drop_be32, (u32_id (u32 _)) by apply u32_range. rewrite (u32_id (Zlen cells)) by lia.
  assert (Hc : Z.to_nat (Zlen cells) = length cells) by (unfold Zlen; lia). rewrite Hc, decode_nulls.
  assert (Hb : Z.to_nat (u32 (Zlen cells + 7) / 8) = ((length cells + 7) / 8)%nat).
  { rewrite u32_id by lia. unfold Zlen. change 7 with (Z.of_nat 7). change 8 with (Z.of_nat 8). rewrite <- Nat2Z.inj_add, <- Nat2Z.inj_div. apply Nat2Z.id. }
  rewrite Hb, <- length_bitmap, drop_app_length. unfold decode_body. by destruct (Zb tb =? 0).
Qed.

(** Cells of one column chunk. *)
Record chunk_wf (ty : SqlType) (cells : list Datum) : Prop := {
  cw_count : Zlen cells < 2 ^ 32 - 7;
  cw_cells : Forall (fun d => int64 (d_i d) /\ (is_null d = false -> d_type d = ty)) cells;
  cw_arena : Zlen (concat (map text_cell cells)) < 2 ^ 32
}.

Lemma decode_encode_block ty cells : chunk_wf ty cells ->
  decode_column_block (encode_column_block ty cells) =
  mkChunk ty (Zlen cells) (match ty with TInt => map int_cell cells | TText => [] end)
    (match ty with TInt => [] | TText => map text_cell cells end) (map is_null cells).
Proof.
  intros [Hn Hc Ha]. destruct ty; cbn [encode_column_block].
  { rewrite decode_header by done. unfold decode_body. change (Zb Byte.x00 =? 0) with true. cbv iota zeta. f_equal.
    rewrite <- (app_nil_r (flat_map _ _)). apply read_ints_exact. eapply Forall_impl; [|exact Hc]. intros d [Hd _]. exact Hd. }
  pose proof (build_built cells ltac:(lia)) as [B1 B2 B3 B4]. revert B1 B2 B3 B4. generalize (build_dictionary cells). intros st B1 B2 B3 B4.
  pose proof (Zlen_nonneg (dict st)). rewrite (u32_id (Zlen (dict st))) by lia. destruct (_ <? _).
  - rewrite decode_header by done. unfold decode_body. change (Zb Byte.x02 =? 0) with false. change (Zb Byte.x02 =? 2) with true. cbv iota zeta.
    rewrite get_put_be32, drop_be32, u32_id by lia.
    assert (Hd : Z.to_nat (Zlen (dict st)) = length (dict st)) by (unfold Zlen; lia). rewrite Hd.
    destruct (read_arena (dict st) ([bZ (Z.of_nat (code_width (Zlen (dict st))))] ++ flat_map (put_code (code_width (Zlen (dict st)))) (codes st)))
      as [R1 R2]; [lia|]. cbv zeta in R1, R2. rewrite R1, R2. cbn [app nth drop]. f_equal.
    assert (Hw : Z.to_nat (Zb (bZ (Z.of_nat (code_width (Zlen (dict st)))))) = code_width (Zlen (dict st))).
    { destruct (code_width_ok (Zlen (dict st))) as [->|[->| ->]]; done. }
    rewrite Hw, <- (app_nil_r (flat_map _ _)). apply (read_codes_exact _ _ (Zlen (dict st))); [apply code_width_ok|lia|done|done|done].
  - rewrite decode_header by done. unfold decode_body. change (Zb Byte.x01 =? 0) with false. change (Zb Byte.x01 =? 2) with false. cbv iota zeta.
    f_equal. destruct (read_arena (map text_cell cells) [] Ha) as [R1 _]. cbv zeta in R1. rewrite app_nil_r, length_map in R1. exact R1.
Qed.

(** Column blocks round trip. Decoding an encoded chunk, whichever of the three forms
    the encoder chose, gives back the type, the count, the null mask and the values,
    and every row of the chunk reads as the cell it was made from. *)
Theorem column_block_roundtrip ty cells r : chunk_wf ty cells ->
  let c := decode_column_block (encode_column_block ty cells) in
  ch_type c = ty /\ ch_count c = Zlen cells /\ nulls c = map is_null cells /\
  ((r < length cells)%nat -> at_ c r = kept (plain ty) (nth r cells no_datum)).
Proof.
  intros Hw. rewrite decode_encode_block by done. destruct Hw as [_ Hc _]. cbv zeta. split_and!; [done|done|done|]. intros Hr.
  unfold at_, kept. cbn [ch_type nulls ints texts c_type plain].
  assert (Hnth : forall A (f : Datum -> A) x, nth r (map f cells) x = f (nth r cells no_datum)).
  { intros A f x. rewrite (nth_indep _ x (f no_datum)) by (by rewrite length_map). apply map_nth. }
  rewrite Hnth. destruct (is_null (nth r cells no_datum)) eqn:En; [done|].
  rewrite Forall_forall in Hc. destruct (Hc (nth r cells no_datum)) as [_ Hty]; [by apply nth_In|].
  unfold stored. rewrite (Hty En). destruct ty; rewrite Hnth; unfold int_cell, text_cell; by rewrite En.
Qed.

(** A chunk whose dictionary form is smaller. *)
Definition region_cells : list Datum :=
  let s := make_text (repeat Byte.x61 9) in [s; make_null TText; s; s; make_text [Byte.x62]; s].

Lemma region_cells_wf : chunk_wf TText region_cells.
Proof. split; [done|by repeat constructor|done]. Qed.

Lemma column_block_roundtrip_witness :
  nth 0 (encode_column_block TText region_cells) Byte.x00 = Byte.x02 /\
  at_ (decode_column_block (encode_column_block TText region_cells)) 3 = make_text (repeat Byte.x61 9).
Proof.
  split; [by vm_compute|]. apply (column_block_roundtrip TText region_cells 3 region_cells_wf). cbn. lia.
Defined.
