(* ===== verification/SqlCatalog.v ===== *)
(** SqlCatalog: the catalog of tables and views (class Catalog of
    query/sql/Catalog.hpp), its recovery from the durable schema records
    (reprime_catalog_from_store of Engine.hpp), and the freshness of table ids,
    which name the key ranges of the tables' rows. *)

From Stdlib Require Import ZArith Lia.
From stdpp Require Import base list numbers sets gmap.
From S2P Require Import Prelude SqlKeys.

#[global] Program Instance byte_countable : Countable byte := inj_countable Byte.to_N Byte.of_N _.
Next Obligation. intros b. apply Byte.of_to_N. Qed.

Abbreviation name := (list byte).

(** ** Definitions *)

Record NamedTable := mkNamed { nt_name : name; nt_table : Table }.

Record View := mkView { v_name : name; select_src : list byte; v_columns : list name }.

Record Catalog := mkCatalog {
  tables_ : gmap name NamedTable;
  views_ : gmap name View;
  next_id_ : Z;
  schemas_ : gset name;
  search_path_ : name
}.

Definition empty_catalog : Catalog := mkCatalog ∅ ∅ 1 ∅ [].

Definition dot : byte := Byte.x2e.

Definition qualify (c : Catalog) (n : name) : name :=
  if existsb (fun b => Zb b =? Zb dot) n then n
  else match search_path_ c with [] => n | p => p ++ [dot] ++ n end.

Definition with_id (t : NamedTable) (n : name) (id : Z) : NamedTable :=
  mkNamed n (mkTable id (columns (nt_table t)) (pk_index (nt_table t)) (pk_columns (nt_table t))).

Definition create (t : NamedTable) (c : Catalog) : option Catalog :=
  let n := qualify c (nt_name t) in
  match tables_ c !! n with
  | Some _ => None
  | None => Some (mkCatalog (<[n := with_id t n (next_id_ c)]> (tables_ c)) (views_ c) (u32 (next_id_ c + 1)) (schemas_ c) (search_path_ c))
  end.

Definition insert_recovered (t : NamedTable) (c : Catalog) : option Catalog :=
  match tables_ c !! nt_name t with
  | Some _ => None
  | None =>
      let id := t_id (nt_table t) in
      let next := if next_id_ c <=? id then u32 (id + 1) else next_id_ c in
      Some (mkCatalog (<[nt_name t := t]> (tables_ c)) (views_ c) next (schemas_ c) (search_path_ c))
  end.

Definition create_schema (s : name) (if_not_exists : bool) (c : Catalog) : bool * Catalog :=
  if bool_decide (s ∈ schemas_ c) then (if_not_exists, c)
  else (true, mkCatalog (tables_ c) (views_ c) (next_id_ c) ({[s]} ∪ schemas_ c) (search_path_ c)).

Definition drop_schema (s : name) (c : Catalog) : bool * Catalog :=
  (bool_decide (s ∈ schemas_ c), mkCatalog (tables_ c) (views_ c) (next_id_ c) (schemas_ c ∖ {[s]}) (search_path_ c)).

Definition set_search_path (s : name) (c : Catalog) : bool * Catalog :=
  if negb (match s with [] => true | _ => false end) && bool_decide (s ∉ schemas_ c) then (false, c)
  else (true, mkCatalog (tables_ c) (views_ c) (next_id_ c) (schemas_ c) s).

Definition find (n : name) (c : Catalog) : option NamedTable := tables_ c !! qualify c n.

Definition has (n : name) (c : Catalog) : bool := match find n c with Some _ => true | None => false end.

Definition remove (n : name) (c : Catalog) : bool * Catalog :=
  (has n c, mkCatalog (delete (qualify c n) (tables_ c)) (views_ c) (next_id_ c) (schemas_ c) (search_path_ c)).

Definition rename (from to : name) (c : Catalog) : option Catalog :=
  let qf := qualify c from in
  let qt := qualify c to in
  match tables_ c !! qf, tables_ c !! qt with
  | Some t, None =>
      Some (mkCatalog (<[qt := mkNamed qt (nt_table t)]> (delete qf (tables_ c))) (views_ c) (next_id_ c) (schemas_ c) (search_path_ c))
  | _, _ => None
  end.

Definition put_view (n : name) (v : View) (c : Catalog) : Catalog :=
  mkCatalog (tables_ c) (<[n := v]> (views_ c)) (next_id_ c) (schemas_ c) (search_path_ c).

Definition create_view (v : View) (c : Catalog) : option Catalog :=
  let n := qualify c (v_name v) in
  match tables_ c !! n, views_ c !! n with
  | None, None => Some (put_view n (mkView n (select_src v) (v_columns v)) c)
  | _, _ => None
  end.

Definition replace_view (v : View) (c : Catalog) : option Catalog :=
  let n := qualify c (v_name v) in
  match tables_ c !! n with
  | None => Some (put_view n (mkView n (select_src v) (v_columns v)) c)
  | Some _ => None
  end.

Definition insert_recovered_view (v : View) (c : Catalog) : option Catalog :=
  match tables_ c !! v_name v with None => Some (put_view (v_name v) v c) | Some _ => None end.

Definition find_view (n : name) (c : Catalog) : option View := views_ c !! qualify c n.

Definition remove_view (n : name) (c : Catalog) : bool * Catalog :=
  let q := qualify c n in
  (match views_ c !! q with Some _ => true | None => false end,
   mkCatalog (tables_ c) (delete q (views_ c)) (next_id_ c) (schemas_ c) (search_path_ c)).

(** Recovery.  The records come from the catalog's store, tombstones left out: tables
    (each record registers the schema its name carries), markers of empty schemas, and
    views.  A record that is refused is skipped. *)
Fixpoint schema_of (n : name) : option name :=
  match n with
  | [] => None
  | b :: n' => if Zb b =? Zb dot then Some [] else (fun s => b :: s) <$> schema_of n'
  end.

Definition recover_table (c : Catalog) (t : NamedTable) : Catalog :=
  let c := default c (insert_recovered t c) in
  match schema_of (nt_name t) with Some s => (create_schema s true c).2 | None => c end.

Definition recover_tables (records : list NamedTable) : Catalog := fold_left recover_table records empty_catalog.

Definition reprime_catalog (records : list NamedTable) (markers : list name) (views : list View) : Catalog :=
  let c := recover_tables records in
  let c := fold_left (fun c s => (create_schema s true c).2) markers c in
  fold_left (fun c v => default c (insert_recovered_view v c)) views c.

(** ** Steps *)

(** One operation of a session; [used] lists the ids of every table ever created. *)
Inductive cstep (c : Catalog) (used : list Z) : Catalog -> list Z -> Prop :=
| s_create t c' : next_id_ c < 2 ^ 32 - 1 -> create t c = Some c' -> cstep c used c' (next_id_ c :: used)
| s_schema s b : cstep c used (create_schema s b c).2 used
| s_drop_schema s : cstep c used (drop_schema s c).2 used
| s_path s : cstep c used (set_search_path s c).2 used
| s_remove n : cstep c used (remove n c).2 used
| s_rename f t c' : rename f t c = Some c' -> cstep c used c' used
| s_view v c' : create_view v c = Some c' -> cstep c used c' used
| s_replace_view v c' : replace_view v c = Some c' -> cstep c used c' used
| s_remove_view n : cstep c used (remove_view n c).2 used.

Inductive session : Catalog -> list Z -> Prop :=
| session_start : session empty_catalog []
| session_step c u c' u' : session c u -> cstep c u c' u' -> session c' u'.

(** Every live table sits under its own name, its id was handed out once and is
    below the next one, and no two live tables share an id. *)
Record catalog_inv (c : Catalog) (used : list Z) : Prop := {
  ci_next : 1 <= next_id_ c < 2 ^ 32;
  ci_used : NoDup used /\ Forall (fun id => 1 <= id < next_id_ c) used;
  ci_name : forall n t, tables_ c !! n = Some t -> nt_name t = n /\ t_id (nt_table t) ∈ used;
  ci_ids : forall n m t u, tables_ c !! n = Some t -> tables_ c !! m = Some u -> t_id (nt_table t) = t_id (nt_table u) -> n = m
}.

Lemma inv_tables c c' used : catalog_inv c used -> tables_ c' = tables_ c -> next_id_ c' = next_id_ c -> catalog_inv c' used.
Proof. intros [H1 H2 H3 H4] Ht Hn. split; [by rewrite Hn|by rewrite Hn|by rewrite Ht|by rewrite Ht]. Qed.

Lemma create_inv t c c' used : next_id_ c < 2 ^ 32 - 1 -> create t c = Some c' -> catalog_inv c used -> catalog_inv c' (next_id_ c :: used).
Proof.
  unfold create. intros Hb. destruct (tables_ c !! qualify c (nt_name t)) eqn:E; [done|]. intros [= <-] [H1 [H2 H2'] H3 H4].
  rewrite Forall_forall in H2'. assert (Hfresh : next_id_ c ∉ used) by (intros Hin%H2'; lia).
  split; cbn [tables_ next_id_]; rewrite ?u32_id by lia.
  - lia.
  - split; [by constructor|]. apply Forall_forall. intros x [->|Hx]%elem_of_cons; [lia|]. specialize (H2' x Hx). lia.
  - intros n u. rewrite lookup_insert_Some. intros [[<- <-]|[_ Hl]]; [split; [done|by left]|]. destruct (H3 n u Hl). split; [done|by right].
  - intros n m u v. rewrite !lookup_insert_Some. intros [[<- <-]|[Hn Hl]] [[<- <-]|[Hm Hk]] Hid; cbn in Hid; [done| | |by eapply H4].
    + destruct (H3 m v Hk) as [_ Hv]. rewrite <- Hid in Hv. done.
    + destruct (H3 n u Hl) as [_ Hv]. rewrite Hid in Hv. done.
Qed.

Lemma rename_inv f t c c' used : rename f t c = Some c' -> catalog_inv c used -> catalog_inv c' used.
Proof.
  unfold rename. destruct (tables_ c !! qualify c f) as [x|] eqn:Ef; [|done]. destruct (tables_ c !! qualify c t) eqn:Et; [done|].
  intros [= <-] [H1 H2 H3 H4]. split; [done|done| |]; cbn [tables_].
  - intros n u. rewrite lookup_insert_Some, lookup_delete_Some. intros [[<- <-]|[_ [_ Hl]]]; [|by apply H3].
    split; [done|]. by apply (H3 _ _ Ef).
  - intros n m u v. rewrite !lookup_insert_Some, !lookup_delete_Some. intros [[<- <-]|[Hn [Hn' Hl]]] [[<- <-]|[Hm [Hm' Hk]]] Hid;
      cbn in Hid; [done| | |by eapply H4].
    + destruct Hm'. by apply (H4 _ _ x v Ef Hk).
    + destruct Hn'. symmetry. by apply (H4 _ _ u x Hl Ef).
Qed.

Lemma remove_inv n c used : catalog_inv c used -> catalog_inv (remove n c).2 used.
Proof.
  intros [H1 H2 H3 H4]. split; [done|done| |]; cbn.
  - intros m t [_ Hl]%lookup_delete_Some. by apply H3.
  - intros m k t u [_ Hl]%lookup_delete_Some [_ Hk]%lookup_delete_Some. by apply H4.
Qed.

Lemma cstep_inv c u c' u' : cstep c u c' u' -> catalog_inv c u -> catalog_inv c' u'.
Proof.
  intros Hs Hi. destruct Hs as [t c' Hb E|s b|s|s|n|f t c' E|v c' E|v c' E|n].
  - by eapply create_inv.
  - eapply inv_tables; [done|..]; unfold create_schema; by destruct (bool_decide _).
  - by eapply inv_tables.
  - eapply inv_tables; [done|..]; unfold set_search_path; by destruct (_ && _).
  - by apply remove_inv.
  - by eapply rename_inv.
  - unfold create_view in E. destruct (tables_ c !! qualify c (v_name v)); [done|]. destruct (views_ c !! qualify c (v_name v)); [done|]. injection E as <-. by eapply inv_tables.
  - unfold replace_view in E. destruct (tables_ c !! qualify c (v_name v)); [done|]. injection E as <-. by eapply inv_tables.
  - by eapply inv_tables.
Qed.

Lemma session_inv c u : session c u -> catalog_inv c u.
Proof.
  induction 1 as [|c u c' u' _ IH Hs]; [|by eapply cstep_inv]. split; cbn.
  - lia.
  - split; [apply NoDup_nil_2|constructor].
  - intros n t H. by rewrite lookup_empty in H.
  - intros n m t v H. by rewrite lookup_empty in H.
Qed.

(** Table ids are never reused within a session. Whatever tables were created, renamed
    and dropped and whatever the search path was, a new table is found under its name
    with an id that no table of the session ever had, dropped ones included, and no two
    live tables share an id: the key ranges of tables never overlap. *)
Theorem table_ids_fresh c used t c' : session c used -> next_id_ c < 2 ^ 32 - 1 -> create t c = Some c' ->
  (exists nt, find (nt_name t) c' = Some nt /\ t_id (nt_table nt) ∉ used) /\
  (forall n m a b, tables_ c' !! n = Some a -> tables_ c' !! m = Some b -> t_id (nt_table a) = t_id (nt_table b) -> n = m).
Proof.
  intros Hs Hb Hc. pose proof (session_inv c used Hs) as Hi. pose proof (create_inv t c c' used Hb Hc Hi) as [_ _ _ H4]. split; [|exact H4].
  destruct Hi as [_ [_ Hu] _ _]. rewrite Forall_forall in Hu. unfold create in Hc. destruct (tables_ c !! qualify c (nt_name t)); [done|].
  injection Hc as <-. unfold find, qualify. cbn [tables_ search_path_]. rewrite lookup_insert_eq. eexists. split; [done|].
  cbn. intros Hin%Hu. lia.
Qed.

(** ** Recovery *)

Definition record_ids (records : list NamedTable) : list Z := map (fun t => t_id (nt_table t)) records.

(** What [recover_table] and the later loops leave alone. *)
Lemma create_schema_keeps s b c : tables_ (create_schema s b c).2 = tables_ c /\ next_id_ (create_schema s b c).2 = next_id_ c /\
  views_ (create_schema s b c).2 = views_ c /\ schemas_ (create_schema s b c).2 = {[s]} ∪ schemas_ c.
Proof. unfold create_schema. case_bool_decide; cbn; split_and!; try done. set_solver. Qed.

Lemma recover_table_core c t : tables_ (recover_table c t) = tables_ (default c (insert_recovered t c)) /\
  next_id_ (recover_table c t) = next_id_ (default c (insert_recovered t c)).
Proof.
  unfold recover_table. destruct (schema_of (nt_name t)) as [s|]; [|done].
  by destruct (create_schema_keeps s true (default c (insert_recovered t c))) as (? & ? & _).
Qed.

Lemma recover_table_schemas c t : schemas_ (recover_table c t) = match schema_of (nt_name t) with Some s => {[s]} ∪ schemas_ c | None => schemas_ c end.
Proof.
  assert (E : schemas_ (default c (insert_recovered t c)) = schemas_ c) by (unfold insert_recovered; by destruct (tables_ c !! nt_name t)).
  unfold recover_table. destruct (schema_of (nt_name t)) as [s|]; [|done].
  destruct (create_schema_keeps s true (default c (insert_recovered t c))) as (_ & _ & _ & ->). by rewrite E.
Qed.

Lemma recover_tables_schemas records s : s ∈ schemas_ (recover_tables records) <-> exists t, t ∈ records /\ schema_of (nt_name t) = Some s.
Proof.
  unfold recover_tables. induction records as [|t l IH] using rev_ind; [set_solver|].
  rewrite fold_left_app. cbn [fold_left]. rewrite recover_table_schemas.
  destruct (schema_of (nt_name t)) as [s'|] eqn:E; rewrite ?elem_of_union, ?elem_of_singleton, IH; setoid_rewrite elem_of_app;
    setoid_rewrite list_elem_of_singleton; naive_solver.
Qed.

Lemma reprime_core records markers views : let c := reprime_catalog records markers views in
  tables_ c = tables_ (recover_tables records) /\ next_id_ c = next_id_ (recover_tables records) /\
  forall s, s ∈ schemas_ c <-> s ∈ schemas_ (recover_tables records) \/ s ∈ markers.
Proof.
  unfold reprime_catalog. generalize (recover_tables records). intros c0. cbn zeta.
  assert (Hm : let c := fold_left (fun c s => (create_schema s true c).2) markers c0 in
    tables_ c = tables_ c0 /\ next_id_ c = next_id_ c0 /\ forall s, s ∈ schemas_ c <-> s ∈ schemas_ c0 \/ s ∈ markers).
  { induction markers as [|m l IH] using rev_ind; cbn zeta; [set_solver|]. rewrite fold_left_app. cbn [fold_left].
    destruct IH as (I1 & I2 & I3). edestruct (create_schema_keeps m true) as (-> & -> & _ & ->). split_and!; [done..|]. set_solver. }
  cbn zeta in Hm. revert Hm. generalize (fold_left (fun c s => (create_schema s true c).2) markers c0). intros c1 Hm.
  induction views as [|v l IH] using rev_ind; [exact Hm|]. rewrite fold_left_app. cbn [fold_left]. revert IH.
  generalize (fold_left (fun c v => default c (insert_recovered_view v c)) l c1). intros c IH. unfold insert_recovered_view.
  by destruct (tables_ c !! v_name v).
Qed.

Lemma recover_spec records : NoDup (map nt_name records) -> Forall (fun id => 1 <= id < 2 ^ 32 - 1) (record_ids records) ->
  let c := recover_tables records in
  (forall t, t ∈ records -> tables_ c !! nt_name t = Some t) /\ (forall n t, tables_ c !! n = Some t -> t ∈ records /\ nt_name t = n) /\
  1 <= next_id_ c < 2 ^ 32 /\ Forall (fun id => id < next_id_ c) (record_ids records).
Proof.
  unfold recover_tables, record_ids. induction records as [|t l IH] using rev_ind; intros Hn Hf; cbn zeta.
  - split_and!; [set_solver|intros n t H; cbn in H; by rewrite lookup_empty in H|done|done|constructor].
  - rewrite map_app in Hn, Hf. apply NoDup_app in Hn as (Hn & Hd & _). apply Forall_app in Hf as [Hf Ht].
    cbn [map] in Ht. apply Forall_cons_1 in Ht as [Ht _]. destruct (IH Hn Hf) as (I1 & I2 & I3 & I4). rewrite fold_left_app. cbn [fold_left].
    revert I1 I2 I3 I4. generalize (fold_left recover_table l empty_catalog). intros c I1 I2 I3 I4.
    destruct (recover_table_core c t) as [-> ->].
    assert (E : tables_ c !! nt_name t = None).
    { destruct (tables_ c !! nt_name t) as [x|] eqn:E; [|done]. destruct (I2 _ _ E) as [Hin Hx]. exfalso. apply (Hd (nt_name t)); [|set_solver].
      rewrite <- Hx. apply list_elem_of_fmap. by exists x. }
    unfold insert_recovered. rewrite E. cbv beta iota zeta delta [from_option id]. split_and!; cbn [tables_ next_id_].
    + intros x. rewrite elem_of_app, list_elem_of_singleton. intros [Hx| ->]; [|by rewrite lookup_insert_eq].
      rewrite lookup_insert_ne; [by apply I1|]. intros Heq. specialize (I1 x Hx). by rewrite <- Heq, E in I1.
    + intros n x. rewrite lookup_insert_Some. intros [[<- <-]|[_ Hl]]; [set_solver|]. destruct (I2 n x Hl). set_solver.
    + destruct (next_id_ c <=? t_id (nt_table t)) eqn:El; [rewrite u32_id by lia|]; lia.
    + destruct (next_id_ c <=? t_id (nt_table t)) eqn:El; [rewrite u32_id by lia|]; lia.
    + rewrite map_app. apply Forall_app_2; [|cbn [map]; apply Forall_singleton].
      * eapply Forall_impl; [exact I4|]. intros id Hid. cbn in Hid. destruct (next_id_ c <=? t_id (nt_table t)) eqn:El; [rewrite u32_id by lia|]; lia.
      * destruct (next_id_ c <=? t_id (nt_table t)) eqn:El; [rewrite u32_id by lia|]; lia.
Qed.

(** Recovery rebuilds the catalog. From the schema records of the live tables, each
    under its own name, recovery restores exactly those tables with the ids they had,
    and registers exactly the schemas of the table names and the markers; the next
    table created gets an id of none of the live ones. *)
Theorem catalog_recovers records markers views t c' : NoDup (map nt_name records) ->
  Forall (fun id => 1 <= id < 2 ^ 32 - 1) (record_ids records) ->
  let c := reprime_catalog records markers views in create t c = Some c' ->
  (forall n r, tables_ c !! n = Some r <-> r ∈ records /\ nt_name r = n) /\
  (forall s, s ∈ schemas_ c <-> s ∈ markers \/ exists r, r ∈ records /\ schema_of (nt_name r) = Some s) /\
  exists nt, find (nt_name t) c' = Some nt /\ t_id (nt_table nt) ∉ record_ids records.
Proof.
  intros Hn Hf c Hc. destruct (recover_spec records Hn Hf) as (I1 & I2 & _ & I4). destruct (reprime_core records markers views) as (Ht & Hx & Hs).
  fold c in Ht, Hx, Hs. rewrite Forall_forall in I4. split_and!.
  - intros n r. rewrite Ht. split; [apply I2|]. intros [Hr <-]. by apply I1.
  - intros s. rewrite Hs, recover_tables_schemas. naive_solver.
  - unfold create in Hc. destruct (tables_ c !! qualify _ (nt_name t)); [done|]. injection Hc as <-.
    unfold find, qualify. cbn [tables_ search_path_]. rewrite lookup_insert_eq. eexists. split; [done|]. cbn. rewrite Hx. intros Hin%I4. lia.
Qed.

(** The id of a dropped table is not among the records: a table created after the
    restart gets it, and the rows the dropped table left behind. *)
Definition table_a : NamedTable := mkNamed [Byte.x61] (mkTable 0 [plain TInt] 0 [0%nat]).
Definition table_b : NamedTable := mkNamed [Byte.x62] (mkTable 0 [plain TInt] 0 [0%nat]).

Definition with_a : Catalog := default empty_catalog (create table_a empty_catalog).
Definition before_crash : Catalog := default empty_catalog (create table_b with_a).

Lemma dropped_id_reused :
  (t_id ∘ nt_table) <$> find [Byte.x62] before_crash = Some 2 /\
  let after := reprime_catalog ((map_to_list (tables_ (remove [Byte.x62] before_crash).2)).*2) [] [] in
  (c ← create table_b after; (t_id ∘ nt_table) <$> find [Byte.x62] c) = Some 2.
Proof. by vm_compute. Qed.

Lemma two_table_session : session before_crash [2; 1].
Proof.
  apply (session_step with_a [1]).
  - apply (session_step empty_catalog []); [apply session_start|]. by refine (s_create empty_catalog [] table_a with_a _ _).
  - by refine (s_create with_a [1] table_b before_crash _ _).
Qed.

Lemma table_ids_fresh_witness : exists c, create (mkNamed [Byte.x63] (nt_table table_a)) before_crash = Some c /\
  exists nt, find [Byte.x63] c = Some nt /\ t_id (nt_table nt) ∉ [2; 1].
Proof.
  eexists. split; [reflexivity|]. eapply (table_ids_fresh before_crash [2; 1] (mkNamed [Byte.x63] (nt_table table_a)) _ two_table_session);
    [by vm_compute|reflexivity].
Defined.

Lemma catalog_recovers_witness :
  exists c, create table_b (reprime_catalog [with_id table_a [Byte.x61] 4] [[Byte.x73]] []) = Some c /\
    exists nt, find [Byte.x62] c = Some nt /\ t_id (nt_table nt) ∉ [4].
Proof.
  eexists. split; [reflexivity|].
  eapply (catalog_recovers [with_id table_a [Byte.x61] 4] [[Byte.x73]] [] table_b); [apply NoDup_singleton|by repeat constructor|reflexivity].
Defined.
