(* ===== verification/SeededRandom.v ===== *)
(** SeededRandom: the simulation's random source (sim/SeededRandom.hpp), the
    splitmix64 generator with Lemire's bounded draw.

    The state is the 64-bit counter.  The rejection loop takes fuel, and
    [uniform_total] shows that it stops from every state: over its period the
    generator returns every 64-bit value, so also one the loop accepts.  A [double]
    probability is the rational it denotes; the conversions of [chance] are exact,
    since a numerator below 2^53 and a division by 2^53 lose nothing. *)

From Stdlib Require Import ZArith Lia QArith Qround.
From stdpp Require Import base list numbers.
From S2P Require Import Prelude Codec Core.
#[local] Open Scope Z_scope.

Definition golden : Z := 0x9E3779B97F4A7C15.
Definition mix1 : Z := 0xBF58476D1CE4E5B9.
Definition mix2 : Z := 0x94D049BB133111EB.

Definition xorshift (k z : Z) : Z := Z.lxor z (Z.shiftr z k).

Definition finalize (z : Z) : Z :=
  let z := u64 (xorshift 30 z * mix1) in
  let z := u64 (xorshift 27 z * mix2) in
  xorshift 31 z.

(** The value and the new state. *)
Definition next (s : Z) : Z * Z := let s := u64 (s + golden) in (finalize s, s).

(** The low and the high word, with a 128-bit product. *)
Definition mul128 (a b : Z) : Z * Z := let prod := a * b in (u64 prod, u64 (Z.shiftr prod 64)).

(** The portable branch, in 64 bits throughout. *)
Definition mul128_portable (a b : Z) : Z * Z :=
  let a_lo := Z.land a 0xFFFFFFFF in
  let a_hi := Z.shiftr a 32 in
  let b_lo := Z.land b 0xFFFFFFFF in
  let b_hi := Z.shiftr b 32 in
  let ll := u64 (a_lo * b_lo) in
  let lh := u64 (a_lo * b_hi) in
  let hl := u64 (a_hi * b_lo) in
  let hh := u64 (a_hi * b_hi) in
  let cross := u64 (u64 (Z.shiftr ll 32 + Z.land lh 0xFFFFFFFF) + Z.land hl 0xFFFFFFFF) in
  let hi := u64 (u64 (u64 (hh + Z.shiftr lh 32) + Z.shiftr hl 32) + Z.shiftr cross 32) in
  (Z.lor (u64 (Z.shiftl cross 32)) (Z.land ll 0xFFFFFFFF), hi).

(** The loop that redraws while the low word is below the threshold. *)
Fixpoint redraw (fuel : nat) (threshold bound lo hi s : Z) : option (Z * Z) :=
  if lo <? threshold then
    match fuel with
    | O => None
    | S fuel =>
        let '(x, s) := next s in
        let '(lo, hi) := mul128 x bound in
        redraw fuel threshold bound lo hi s
    end
  else Some (hi, s).

Definition uniform (fuel : nat) (bound s : Z) : option (Z * Z) :=
  if bound =? 0 then Some (0, s)
  else
    let '(x, s) := next s in
    let '(lo, hi) := mul128 x bound in
    if lo <? bound then redraw fuel (u64 (0 - bound) mod bound) bound lo hi s else Some (hi, s).

(** Two's complement. *)
Definition to_signed (bits : Z) : Z := if bits <? 2 ^ 63 then bits else bits - 2 ^ 64.

Definition uniform_range (fuel : nat) (lo hi s : Z) : option (Z * Z) :=
  if hi <=? lo then Some (lo, s)
  else
    let width := u64 (u64 hi - u64 lo) in
    let count := u64 (width + 1) in
    '(pick, s) ← (if count =? 0 then Some (next s) else uniform fuel count s);
    Some (to_signed (u64 (u64 lo + pick)), s).

Definition kBits : Z := 53.

Definition chance (p : Q) (s : Z) : bool * Z :=
  if Qle_bool p 0 then (false, s)
  else if Qle_bool 1 p then (true, s)
  else
    let '(x, s) := next s in
    let r := Z.shiftr x (64 - kBits) in
    (negb (Qle_bool p (r # Z.to_pos (2 ^ kBits))), s).

(** ** The generator is a permutation *)

Definition w64 (z : Z) : Prop := 0 <= z < 2 ^ 64.

Lemma w64_u64 z : w64 (u64 z).
Proof. apply u64_range. Qed.

Lemma w64_log2 a : w64 a -> Z.log2 a < 64.
Proof. unfold w64. intros Ha. destruct (Z.eq_dec a 0) as [->|]; [done|]. apply Z.log2_lt_pow2; lia. Qed.

Lemma lxor_w64 a b : w64 a -> w64 b -> w64 (Z.lxor a b).
Proof.
  intros Ha Hb. pose proof (w64_log2 a Ha). pose proof (w64_log2 b Hb). unfold w64 in *.
  assert (0 <= Z.lxor a b) by (apply Z.lxor_nonneg; lia). split; [done|].
  destruct (Z.eq_dec (Z.lxor a b) 0) as [->|]; [lia|]. apply Z.log2_lt_pow2; [lia|].
  pose proof (Z.log2_lxor a b ltac:(lia) ltac:(lia)). lia.
Qed.

Lemma shiftr_w64 a k : 0 <= k -> w64 a -> w64 (Z.shiftr a k).
Proof.
  unfold w64. intros Hk Ha. rewrite Z.shiftr_div_pow2 by done. pose proof (Z.pow_pos_nonneg 2 k ltac:(lia) Hk).
  split; [apply Z.div_pos; lia|]. eapply Z.le_lt_trans; [|apply Ha]. apply Z.div_le_upper_bound; [lia|]. nia.
Qed.

Lemma xorshift_w64 k z : 0 <= k -> w64 z -> w64 (xorshift k z).
Proof. intros. unfold xorshift. auto using lxor_w64, shiftr_w64. Qed.

(** The inverse of [xorshift] for a shift of at least a third of the word. *)
Definition unshift (k z : Z) : Z := Z.lxor (xorshift k z) (Z.shiftr z (2 * k)).

Lemma unshift_w64 k z : 0 <= k -> w64 z -> w64 (unshift k z).
Proof. intros. unfold unshift. apply lxor_w64; [by apply xorshift_w64|]. apply shiftr_w64; [lia|done]. Qed.

Lemma shiftr_out z k : w64 z -> 22 <= k -> Z.shiftr z (3 * k) = 0.
Proof.
  unfold w64. intros Hz Hk. rewrite Z.shiftr_div_pow2 by lia. apply Z.div_small. split; [lia|].
  eapply Z.lt_le_trans; [apply Hz|]. apply Z.pow_le_mono_r; lia.
Qed.

(** The three shifted copies cancel in pairs. *)
Lemma cancel_copies z s1 s2 : Z.lxor (Z.lxor (Z.lxor z s1) (Z.lxor s1 s2)) (Z.lxor s2 0) = z.
Proof.
  apply Z.bits_inj'. intros i Hi. rewrite !Z.lxor_spec, Z.bits_0. by destruct (Z.testbit z i), (Z.testbit s1 i), (Z.testbit s2 i).
Qed.

Lemma unshift_xorshift k z : 22 <= k -> w64 z -> unshift k (xorshift k z) = z.
Proof.
  intros Hk Hz. unfold unshift, xorshift. rewrite !Z.shiftr_lxor, !Z.shiftr_shiftr by lia.
  replace (k + 2 * k) with (3 * k) by lia. replace (k + k) with (2 * k) by lia. rewrite shiftr_out by done. apply cancel_copies.
Qed.

Lemma xorshift_unshift k z : 22 <= k -> w64 z -> xorshift k (unshift k z) = z.
Proof.
  intros Hk Hz. unfold unshift, xorshift. rewrite !Z.shiftr_lxor, !Z.shiftr_shiftr by lia.
  replace (2 * k + k) with (3 * k) by lia. replace (k + k) with (2 * k) by lia. rewrite shiftr_out by done.
  apply Z.bits_inj'. intros i Hi. rewrite !Z.lxor_spec, Z.bits_0.
  by destruct (Z.testbit z i), (Z.testbit (Z.shiftr z k) i), (Z.testbit (Z.shiftr z (2 * k)) i).
Qed.

(** An odd factor has an inverse. *)
Lemma mul_inverse c d z : (c * d) mod 2 ^ 64 = 1 -> w64 z -> u64 (u64 (z * c) * d) = z.
Proof.
  unfold u64, w64. intros Hc Hz. rewrite Z.mul_mod_idemp_l, <- Z.mul_assoc, <- Z.mul_mod_idemp_r, Hc, Z.mul_1_r by lia. by apply Z.mod_small.
Qed.

Definition golden_inv : Z := 0xf1de83e19937733d.
Definition mix1_inv : Z := 0x96de1b173f119089.
Definition mix2_inv : Z := 0x319642b2d24d8ec3.

Definition unfinalize (z : Z) : Z := unshift 30 (u64 (unshift 27 (u64 (unshift 31 z * mix2_inv)) * mix1_inv)).

Lemma finalize_w64 z : w64 (finalize z).
Proof. unfold finalize. apply xorshift_w64; [done|apply w64_u64]. Qed.

Lemma unfinalize_w64 z : w64 (unfinalize z).
Proof. apply unshift_w64; [done|apply w64_u64]. Qed.

Lemma unfinalize_finalize z : w64 z -> unfinalize (finalize z) = z.
Proof.
  intros Hz. unfold unfinalize, finalize. rewrite unshift_xorshift by (done || apply w64_u64).
  rewrite mul_inverse by (done || by apply xorshift_w64, w64_u64). rewrite unshift_xorshift by (done || apply w64_u64).
  rewrite mul_inverse by (done || by apply xorshift_w64). by rewrite unshift_xorshift.
Qed.

Lemma finalize_unfinalize z : w64 z -> finalize (unfinalize z) = z.
Proof.
  intros Hz. unfold unfinalize, finalize. rewrite xorshift_unshift by (done || apply w64_u64).
  rewrite mul_inverse by (done || by apply unshift_w64, w64_u64). rewrite xorshift_unshift by (done || apply w64_u64).
  rewrite mul_inverse by (done || by apply unshift_w64). by rewrite xorshift_unshift.
Qed.

(** The state after [n] draws, and the draw that follows. *)
Definition state_after (s : Z) (n : nat) : Z := Nat.iter n (fun s => (next s).2) s.
Definition output (s : Z) (n : nat) : Z := (next (state_after s n)).1.

Lemma state_after_eq s n : w64 s -> state_after s n = u64 (s + Z.of_nat n * golden).
Proof.
  intros Hs. unfold state_after. induction n as [|n IH].
  - cbn [Nat.iter]. rewrite Z.mul_0_l, Z.add_0_r. by rewrite u64_id.
  - cbn [Nat.iter nat_rect]. change (nat_rect _ _ _ n) with (Nat.iter n (fun s => (next s).2) s). rewrite IH. unfold next, u64. cbn [snd].
    rewrite Z.add_mod_idemp_l by lia. f_equal. lia.
Qed.

Lemma output_eq s n : w64 s -> output s n = finalize (u64 (s + (Z.of_nat n + 1) * golden)).
Proof.
  intros Hs. unfold output, next. cbn [fst]. rewrite state_after_eq by done. f_equal. unfold u64. rewrite Z.add_mod_idemp_l by lia. f_equal. lia.
Qed.

Lemma output_w64 s n : w64 (output s n).
Proof. apply finalize_w64. Qed.

Lemma state_after_S s n : state_after s (S n) = state_after (next s).2 n.
Proof. unfold state_after. by rewrite Nat.iter_succ_r. Qed.

Lemma output_S s n : output s (S n) = output (next s).2 n.
Proof. unfold output. by rewrite state_after_S. Qed.

(** The draw at which a value comes up. *)
Definition draw_of (s v : Z) : nat := Z.to_nat (u64 (u64 ((unfinalize v - s) * golden_inv) - 1)).

Lemma output_draw_of s v : w64 s -> w64 v -> output s (draw_of s v) = v.
Proof.
  intros Hs Hv. rewrite output_eq by done. rewrite <- (finalize_unfinalize v Hv) at 2. f_equal. unfold draw_of.
  rewrite Z2Nat.id by apply w64_u64. pose proof (unfinalize_w64 v) as Hu. generalize dependent (unfinalize v). intros u Hu. unfold u64, w64 in *.
  assert (E : golden_inv * golden = 1 + golden_inv * golden / 2 ^ 64 * 2 ^ 64) by done. revert E. generalize (golden_inv * golden / 2 ^ 64). intros c E.
  rewrite (Z.mod_eq ((u - s) * golden_inv)), (Z.mod_eq (_ - 1)) by lia. generalize ((u - s) * golden_inv / 2 ^ 64). intros q.
  generalize (((u - s) * golden_inv - 2 ^ 64 * q - 1) / 2 ^ 64). intros q'.
  replace (s + _) with (u + ((u - s) * c - (q + q') * golden) * 2 ^ 64) by nia. rewrite Z.mod_add by lia. by apply Z.mod_small.
Qed.

Lemma draw_of_output s n : w64 s -> Z.of_nat n < 2 ^ 64 -> draw_of s (output s n) = n.
Proof.
  intros Hs Hn. rewrite output_eq by done. unfold draw_of. rewrite unfinalize_finalize by apply w64_u64.
  enough (E : u64 (u64 ((u64 (s + (Z.of_nat n + 1) * golden) - s) * golden_inv) - 1) = Z.of_nat n) by (rewrite E; lia).
  unfold u64, w64 in *.
  assert (E : golden_inv * golden = 1 + golden_inv * golden / 2 ^ 64 * 2 ^ 64) by done. revert E. generalize (golden_inv * golden / 2 ^ 64). intros c E.
  rewrite (Z.mod_eq (s + _)), (Z.mod_eq (_ * golden_inv)) by lia. generalize ((s + (Z.of_nat n + 1) * golden) / 2 ^ 64). intros q.
  generalize ((s + (Z.of_nat n + 1) * golden - 2 ^ 64 * q - s) * golden_inv / 2 ^ 64). intros q'.
  replace (_ - 1) with (Z.of_nat n + ((Z.of_nat n + 1) * c - q * golden_inv - q') * 2 ^ 64) by nia. rewrite Z.mod_add by lia. apply Z.mod_small. lia.
Qed.

(** The generator has full period. From every seed, each 64-bit value is drawn
    exactly once in 2^64 draws, and the state is back at the seed after them. *)
Theorem seeded_full_period s v : w64 s -> w64 v ->
  (exists n, Z.of_nat n < 2 ^ 64 /\ output s n = v /\ forall m, Z.of_nat m < 2 ^ 64 -> output s m = v -> m = n) /\
  forall n, Z.of_nat n = 2 ^ 64 -> state_after s n = s.
Proof.
  intros Hs Hv. split.
  - exists (draw_of s v). split_and!.
    + unfold draw_of. rewrite Z2Nat.id by apply w64_u64. apply w64_u64.
    + by apply output_draw_of.
    + intros m Hm <-. symmetry. by apply draw_of_output.
  - intros n Hn. rewrite state_after_eq, Hn by done. unfold u64. rewrite Z.add_comm, Z.mul_comm, Z.add_comm, Z.mod_add by lia.
    by apply Z.mod_small.
Qed.

(** ** The bounded draw *)

Lemma land_low a : w64 a -> Z.land a 0xFFFFFFFF = a mod 2 ^ 32.
Proof. intros. change 0xFFFFFFFF with (Z.ones 32). by apply Z.land_ones. Qed.

Lemma split32 a : w64 a -> exists h l, a = h * 2 ^ 32 + l /\ Z.shiftr a 32 = h /\ Z.land a 0xFFFFFFFF = l /\ 0 <= h < 2 ^ 32 /\ 0 <= l < 2 ^ 32.
Proof.
  intros Ha. exists (a / 2 ^ 32), (a mod 2 ^ 32). rewrite land_low, Z.shiftr_div_pow2 by done. unfold w64 in Ha.
  pose proof (Z.div_mod a (2 ^ 32)). pose proof (Z.mod_pos_bound a (2 ^ 32)).
  assert (0 <= a / 2 ^ 32 < 2 ^ 32) by (split; [apply Z.div_pos|apply Z.div_lt_upper_bound]; lia). split_and!; lia || done.
Qed.

(** The words of a product. *)
Lemma mul128_spec a b lo hi : w64 a -> w64 b -> mul128 a b = (lo, hi) -> a * b = hi * 2 ^ 64 + lo /\ 0 <= lo < 2 ^ 64 /\ 0 <= hi /\ (0 < b -> hi < b).
Proof.
  unfold mul128, w64. intros Ha Hb [= <- <-]. rewrite Z.shiftr_div_pow2 by lia. pose proof (Z.div_mod (a * b) (2 ^ 64)).
  assert (Hr : 0 <= a * b / 2 ^ 64 < 2 ^ 64) by (split; [apply Z.div_pos; nia|apply Z.div_lt_upper_bound; nia]).
  rewrite (u64_id (a * b / 2 ^ 64)) by done. pose proof (u64_range (a * b)). unfold u64 in *.
  split_and!; [lia..|]. intros. apply Z.div_lt_upper_bound; nia.
Qed.

Lemma mul128_portable_eq a b : w64 a -> w64 b -> mul128_portable a b = mul128 a b.
Proof.
  intros Ha Hb. unfold mul128_portable. destruct (split32 a Ha) as (ah & al & Ea & -> & -> & Rah & Ral).
  destruct (split32 b Hb) as (bh & bl & Eb & -> & -> & Rbh & Rbl).
  assert (Hp : forall x y, 0 <= x < 2 ^ 32 -> 0 <= y < 2 ^ 32 -> 0 <= x * y <= (2 ^ 32 - 1) * (2 ^ 32 - 1)) by (intros; nia).
  pose proof (Hp al bl Ral Rbl). pose proof (Hp al bh Ral Rbh). pose proof (Hp ah bl Rah Rbl). pose proof (Hp ah bh Rah Rbh).
  rewrite !(u64_id (_ * _)) by lia.
  destruct (split32 (al * bl)) as (llh & lll & Ell & -> & -> & R1 & R2); [unfold w64; lia|].
  destruct (split32 (al * bh)) as (lhh & lhl & Elh & -> & -> & R3 & R4); [unfold w64; lia|].
  destruct (split32 (ah * bl)) as (hlh & hll & Ehl & -> & -> & R5 & R6); [unfold w64; lia|].
  rewrite !(u64_id (llh + _)) by lia. rewrite (u64_id (llh + lhl + hll)) by lia.
  destruct (split32 (llh + lhl + hll)) as (ch & cl & Ec & Hch & _ & R7 & R8); [unfold w64; lia|]. rewrite Hch.
  assert (E : a * b = (ah * bh + lhh + hlh + ch) * 2 ^ 64 + (cl * 2 ^ 32 + lll)).
  { rewrite Ea, Eb. replace ((ah * 2 ^ 32 + al) * (bh * 2 ^ 32 + bl)) with (ah * bh * 2 ^ 64 + (al * bh + ah * bl) * 2 ^ 32 + al * bl) by ring.
    rewrite Elh, Ehl, Ell. lia. }
  assert (a * b < 2 ^ 64 * 2 ^ 64) by (unfold w64 in *; nia).
  unfold mul128. rewrite E, Z.shiftr_div_pow2 by lia. rewrite Z.div_add_l, (Z.div_small (cl * 2 ^ 32 + lll)), Z.add_0_r by lia.
  rewrite !(u64_id (ah * bh + _)), (u64_id (ah * bh + lhh + hlh)), (u64_id (ah * bh + lhh + hlh + ch)) by lia. f_equal.
  rewrite Ec. rewrite Z.shiftl_mul_pow2 by lia. unfold u64.
  replace ((ch * 2 ^ 32 + cl) * 2 ^ 32) with (cl * 2 ^ 32 + ch * 2 ^ 64) by ring.
  rewrite Z.mod_add, (Z.mod_small (cl * 2 ^ 32)), Z.add_comm, Z.mod_add, Z.mod_small by lia.
  pose proof (lor_shiftl_add lll cl 32 ltac:(lia) ltac:(lia)) as Hl. rewrite Z.shiftl_mul_pow2 in Hl by lia. rewrite Z.lor_comm. lia.
Qed.

(** The threshold of the code is the remainder of 2^64. *)
Definition threshold_of (bound : Z) : Z := u64 (0 - bound) mod bound.

Lemma threshold_eq bound : 0 < bound < 2 ^ 64 -> threshold_of bound = 2 ^ 64 mod bound.
Proof.
  intros Hb. unfold threshold_of, u64. replace (0 - bound) with (2 ^ 64 - bound + (-1) * 2 ^ 64) by lia.
  rewrite Z.mod_add, (Z.mod_small (2 ^ 64 - bound)) by lia. replace (2 ^ 64 - bound) with (2 ^ 64 + (-1) * bound) by lia. by rewrite Z.mod_add by lia.
Qed.

(** A draw the loop accepts for the result [v]. *)
Definition accepted (bound x v : Z) : Prop := exists lo, mul128 x bound = (lo, v) /\ threshold_of bound <= lo.

(** The first draw accepted for [v]: the multiples of [bound] from here on. *)
Definition first_for (bound v : Z) : Z := (v * 2 ^ 64 + 2 ^ 64 mod bound + bound - 1) / bound.

Lemma below_ceil y b a : 0 < b -> y * b < a <-> y < (a + b - 1) / b.
Proof.
  intros Hb. pose proof (Z.div_mod (a + b - 1) b ltac:(lia)). pose proof (Z.mod_pos_bound (a + b - 1) b Hb).
  generalize dependent ((a + b - 1) / b). generalize dependent ((a + b - 1) mod b). intros r Hr q Hq. nia.
Qed.

Lemma accepted_iff bound x v : 0 < bound < 2 ^ 64 -> w64 x -> 0 <= v ->
  accepted bound x v <-> first_for bound v <= x < first_for bound v + 2 ^ 64 / bound.
Proof.
  intros Hb Hx Hv. unfold accepted, first_for. rewrite threshold_eq by done.
  pose proof (Z.div_mod (2 ^ 64) bound ltac:(lia)) as Hd. pose proof (Z.mod_pos_bound (2 ^ 64) bound ltac:(lia)) as Hm.
  set (t := 2 ^ 64 mod bound) in *. set (q := 2 ^ 64 / bound) in *.
  pose proof (below_ceil x bound (v * 2 ^ 64 + t) ltac:(lia)) as H1. pose proof (below_ceil (x - q) bound (v * 2 ^ 64 + t) ltac:(lia)) as H2.
  rewrite Z.mul_sub_distr_r in H2. revert H1 H2. generalize ((v * 2 ^ 64 + t + bound - 1) / bound). clearbody t q. intros f H1 H2.
  destruct (mul128 x bound) as [lo hi] eqn:E.
  destruct (mul128_spec x bound lo hi Hx ltac:(unfold w64; lia) E) as (Hp & Hlo & Hhi & _). split.
  - intros (l & [= -> ->] & Hl). lia.
  - intros Hr. assert (v * 2 ^ 64 + t <= x * bound < v * 2 ^ 64 + 2 ^ 64) by lia. exists lo. assert (hi = v) as -> by nia. split; [done|lia].
Qed.

Lemma first_for_range bound v : 0 < bound < 2 ^ 64 -> 0 <= v < bound -> 0 <= first_for bound v /\ first_for bound v + 2 ^ 64 / bound <= 2 ^ 64.
Proof.
  intros Hb Hv. unfold first_for.
  pose proof (Z.div_mod (2 ^ 64) bound ltac:(lia)) as Hd. pose proof (Z.mod_pos_bound (2 ^ 64) bound ltac:(lia)) as Hm.
  set (t := 2 ^ 64 mod bound) in *. set (q := 2 ^ 64 / bound) in *. split; [apply Z.div_pos; nia|].
  pose proof (below_ceil (2 ^ 64 - q) bound (v * 2 ^ 64 + t) ltac:(lia)) as H2. rewrite Z.mul_sub_distr_r in H2. clearbody t q.
  assert (~ 2 ^ 64 * bound - q * bound < v * 2 ^ 64 + t) by nia. revert H2. generalize ((v * 2 ^ 64 + t + bound - 1) / bound). lia.
Qed.

Lemma accepted_below bound x v : 0 < bound < 2 ^ 64 -> w64 x -> accepted bound x v -> 0 <= v < bound.
Proof.
  intros Hb Hx (lo & E & _). destruct (mul128_spec x bound lo v Hx ltac:(unfold w64; lia) E) as (_ & _ & ? & ?). lia.
Qed.

(** The largest draw is accepted for every bound. *)
Lemma last_accepted bound : 0 < bound < 2 ^ 64 -> exists v, accepted bound (2 ^ 64 - 1) v.
Proof.
  intros Hb. destruct (mul128 (2 ^ 64 - 1) bound) as [lo hi] eqn:E. exists hi, lo. split; [done|]. rewrite threshold_eq by done.
  destruct (mul128_spec (2 ^ 64 - 1) bound lo hi ltac:(unfold w64; lia) ltac:(unfold w64; lia) E) as (Hp & Hlo & Hhi & Hb').
  pose proof (Z.mod_pos_bound (2 ^ 64) bound ltac:(lia)). assert (lo = 2 ^ 64 - bound) as -> by nia.
  destruct (Z_le_gt_dec (2 * bound) (2 ^ 64)); [lia|].
  replace (2 ^ 64) with (2 ^ 64 - bound + 1 * bound) at 1 by lia. rewrite Z.mod_add, Z.mod_small; lia.
Qed.

(** The loop stops at the first accepted draw. *)
Lemma redraw_spec bound n : 0 < bound < 2 ^ 64 -> forall s x lo hi, w64 x -> mul128 x bound = (lo, hi) ->
  (exists v, accepted bound (output s n) v) ->
  exists v s' x', w64 x' /\ accepted bound x' v /\ forall fuel, (n < fuel)%nat -> redraw fuel (threshold_of bound) bound lo hi s = Some (v, s').
Proof.
  intros Hb. induction n as [|n IH]; intros s x lo hi Hx E Hn.
  all: destruct (lo <? threshold_of bound) eqn:El; [|exists hi, s, x; split_and!; [done|exists lo; split; [done|lia]|];
    intros [|fuel] _; cbn [redraw]; by rewrite El].
  all: destruct (mul128 (next s).1 bound) as [lo' hi'] eqn:E'; pose proof (finalize_w64 (u64 (s + golden))) as Hw.
  - destruct Hn as (v & l & Hm & Hl). change (output s 0) with (next s).1 in Hm. rewrite E' in Hm. injection Hm as -> ->.
    exists v, (next s).2, (next s).1. split_and!; [done|by exists l|]. intros [|fuel] Hf; [lia|]. cbn [redraw]. rewrite El.
    destruct (next s) as [y s'']. cbn [fst snd] in *. rewrite E'. destruct fuel; cbn [redraw]; destruct (l <? threshold_of bound) eqn:?; done || lia.
  - destruct (IH (next s).2 (next s).1 lo' hi' Hw E') as (v & s' & x' & Hx' & Ha & Hr); [by rewrite <- output_S|].
    exists v, s', x'. split_and!; [done..|]. intros [|fuel] Hf; [lia|]. cbn [redraw]. rewrite El.
    destruct (next s) as [y s'']. cbn [fst snd] in *. rewrite E'. apply Hr. lia.
Qed.

Lemma uniform_total bound s : w64 s -> 0 < bound < 2 ^ 64 ->
  exists n v s' x, w64 x /\ accepted bound x v /\ forall fuel, (n < fuel)%nat -> uniform fuel bound s = Some (v, s').
Proof.
  intros Hs Hb. unfold uniform. rewrite (proj2 (Z.eqb_neq bound 0)) by lia.
  destruct (mul128 (next s).1 bound) as [lo hi] eqn:E. pose proof (finalize_w64 (u64 (s + golden))) as Hw. change (finalize _) with (next s).1 in Hw.
  destruct (redraw_spec bound (draw_of (next s).2 (2 ^ 64 - 1)) Hb (next s).2 _ lo hi Hw E) as (v & s' & x & Hx & Ha & Hr).
  { rewrite output_draw_of; [by apply last_accepted|apply w64_u64|unfold w64; lia]. }
  destruct (lo <? bound) eqn:El.
  - exists (draw_of (next s).2 (2 ^ 64 - 1)), v, s', x. split_and!; [done..|]. intros fuel Hf. specialize (Hr fuel Hf).
    destruct (next s) as [y s'']. cbn [fst snd] in *. by rewrite E, El.
  - exists 0%nat, hi, (next s).2, (next s).1. split_and!; [done| |].
    + exists lo. split; [done|]. rewrite threshold_eq by done. pose proof (Z.mod_pos_bound (2 ^ 64) bound). lia.
    + intros fuel _. destruct (next s) as [y s'']. cbn [fst snd] in *. by rewrite E, El.
Qed.

(** A bounded draw stops, stays in range and has no bias. From every state the
    rejection loop ends, with a result below the bound; and each result is returned
    for the same number, [2 ^ 64 / bound], of the 64-bit draws the loop accepts: an
    interval of that length.  The portable multiplication gives the same words. *)
Theorem uniform_unbiased bound s : w64 s -> 0 < bound < 2 ^ 64 ->
  (exists n v s', 0 <= v < bound /\ forall fuel, (n < fuel)%nat -> uniform fuel bound s = Some (v, s')) /\
  (forall v, 0 <= v < bound -> 0 <= first_for bound v /\ first_for bound v + 2 ^ 64 / bound <= 2 ^ 64 /\
     forall x, w64 x -> accepted bound x v <-> first_for bound v <= x < first_for bound v + 2 ^ 64 / bound) /\
  (forall x, w64 x -> mul128_portable x bound = mul128 x bound).
Proof.
  intros Hs Hb. split_and!.
  - destruct (uniform_total bound s Hs Hb) as (n & v & s' & x & Hx & Ha & Hr). exists n, v, s'. split; [by eapply accepted_below|done].
  - intros v Hv. destruct (first_for_range bound v Hb Hv). split_and!; [done..|]. intros x Hx. apply accepted_iff; lia || done.
  - intros x Hx. apply mul128_portable_eq; unfold w64 in *; lia.
Qed.

(** ** Ranges and coin flips *)

Definition signed64 (z : Z) : Prop := - 2 ^ 63 <= z < 2 ^ 63.

Lemma to_signed_id z : signed64 z -> to_signed (u64 z) = z.
Proof.
  unfold signed64, to_signed, u64. intros Hz. destruct (Z.ltb_spec z 0).
  - replace (z mod 2 ^ 64) with (z + 2 ^ 64); [destruct (Z.ltb_spec (z + 2 ^ 64) (2 ^ 63)); lia|].
    symmetry. rewrite <- (Z.mod_add z 1), Z.mul_1_l by lia. apply Z.mod_small. lia.
  - rewrite Z.mod_small by lia. destruct (Z.ltb_spec z (2 ^ 63)); lia.
Qed.

Lemma u64_add_l a b : u64 (u64 a + b) = u64 (a + b).
Proof. apply Z.add_mod_idemp_l. lia. Qed.

Lemma u64_sub a b : u64 (u64 a - u64 b) = u64 (a - b).
Proof. symmetry. apply Zminus_mod. Qed.

Lemma range_total lo hi s : w64 s -> signed64 lo -> signed64 hi -> lo <= hi ->
  exists n v s', lo <= v <= hi /\ forall fuel, (n < fuel)%nat -> uniform_range fuel lo hi s = Some (v, s').
Proof.
  intros Hs Hlo Hhi Hle. unfold uniform_range. destruct (hi <=? lo) eqn:E; [exists 0%nat, lo, s; split; [lia|done]|]. rewrite u64_sub.
  unfold signed64 in *. rewrite (u64_id (hi - lo)) by lia.
  assert (Hr : forall v, lo <= lo + v <= hi -> to_signed (u64 (u64 lo + v)) = lo + v)
    by (intros; rewrite u64_add_l, to_signed_id; [done|unfold signed64; lia]).
  destruct (Z.eq_dec (hi - lo) (2 ^ 64 - 1)) as [Hw|Hw].
  - rewrite Hw. change (u64 (2 ^ 64 - 1 + 1) =? 0) with true. pose proof (finalize_w64 (u64 (s + golden))) as Hx.
    change (finalize _) with (next s).1 in Hx. unfold w64 in Hx.
    exists 0%nat, (lo + (next s).1), (next s).2. split; [lia|]. intros fuel _. cbn -[next u64]. destruct (next s) as [x s'']. cbn -[u64] in *. by rewrite Hr by lia.
  - rewrite (u64_id (hi - lo + 1)) by lia. rewrite (proj2 (Z.eqb_neq (hi - lo + 1) 0)) by lia.
    destruct (uniform_total (hi - lo + 1) s Hs ltac:(lia)) as (n & v & s' & x & Hx & Ha & Hf).
    apply accepted_below in Ha; [|lia|done]. exists n, (lo + v), s'. split; [lia|]. intros fuel Hfuel. rewrite (Hf fuel Hfuel). cbn -[u64]. by rewrite Hr by lia.
Qed.

Lemma below_Qceiling r q : (inject_Z r < q)%Q <-> r < Qceiling q.
Proof.
  split; intros H.
  - rewrite Zlt_Qlt. eapply Qlt_le_trans; [exact H|apply Qle_ceiling].
  - eapply Qle_lt_trans; [|apply Qceiling_lt]. rewrite <- Zle_Qle. lia.
Qed.

Lemma chance_threshold p s : (0 < p < 1)%Q -> (chance p s).1 = ((next s).1 <? Qceiling (p * inject_Z (2 ^ 53)) * 2 ^ 11).
Proof.
  intros Hp. unfold chance. assert (Qle_bool p 0 = false) as ->. { apply not_true_iff_false. rewrite Qle_bool_iff. intros H. apply (Qlt_not_le 0 p); tauto. }
  assert (Qle_bool 1 p = false) as ->. { apply not_true_iff_false. rewrite Qle_bool_iff. intros H. apply (Qlt_not_le p 1); tauto. }
  pose proof (finalize_w64 (u64 (s + golden))) as Hw. change (finalize _) with (next s).1 in Hw. destruct (next s) as [x s']. cbn [fst] in *.
  apply eq_true_iff_eq. rewrite negb_true_iff, <- not_true_iff_false, Qle_bool_iff, Z.ltb_lt. rewrite Z.shiftr_div_pow2 by done.
  change (64 - kBits) with 11. trans (x / 2 ^ 11 < Qceiling (p * inject_Z (2 ^ 53))).
  - rewrite <- below_Qceiling. destruct p as [pn pd]. unfold Qle, Qlt, Qmult, inject_Z. cbn [Qnum Qden].
    change (Z.pos (Z.to_pos (2 ^ kBits))) with (2 ^ 53). rewrite Pos.mul_1_r, Z.mul_1_r. lia.
  - pose proof (Z.div_mod x (2 ^ 11)). pose proof (Z.mod_pos_bound x (2 ^ 11)). lia.
Qed.

(** A draw from a range stops and stays in it, whatever the two ends, the whole signed
    range included; and a coin flip with probability [p] is heads for exactly the
    first [ceil (p * 2^53) * 2^11] of the 2^64 draws. *)
Theorem range_draw_exact lo hi s p : w64 s -> signed64 lo -> signed64 hi -> lo <= hi -> (0 < p < 1)%Q ->
  (exists n v s', lo <= v <= hi /\ forall fuel, (n < fuel)%nat -> uniform_range fuel lo hi s = Some (v, s')) /\
  (chance p s).1 = ((next s).1 <? Qceiling (p * inject_Z (2 ^ 53)) * 2 ^ 11).
Proof. intros. split; [by apply range_total|by apply chance_threshold]. Qed.

(** ** The tapes of [Core] cover this source *)

Lemma redraw_mono fuel fuel' : (fuel <= fuel')%nat -> forall t b lo hi s r, redraw fuel t b lo hi s = Some r -> redraw fuel' t b lo hi s = Some r.
Proof.
  intros Hle. induction Hle as [|fuel' Hle IH]; [done|]. intros t b lo hi s r H. apply IH in H. clear IH Hle fuel.
  revert lo hi s H. induction fuel' as [|fuel IH]; intros lo hi s; cbn [redraw]; destruct (lo <? t); try done.
  destruct (next s) as [x s']. destruct (mul128 x b) as [lo' hi']. intros H. by apply IH.
Qed.

Lemma uniform_range_mono fuel fuel' lo hi s r : (fuel <= fuel')%nat -> uniform_range fuel lo hi s = Some r -> uniform_range fuel' lo hi s = Some r.
Proof.
  intros Hle. unfold uniform_range, uniform. destruct (hi <=? lo); [done|]. cbn zeta. destruct (u64 _ =? 0); [done|].
  destruct (next s) as [x s']. destruct (mul128 x _) as [l h]. destruct (l <? _); [|done].
  destruct (redraw fuel _ _ _ _ _) as [[v s'']|] eqn:E; [|done]. by rewrite (redraw_mono _ _ Hle _ _ _ _ _ _ E).
Qed.

(** Every draw of this source is one a tape can give, so the theorems over all tapes
    cover every seed. *)
Lemma tape_covers lo hi fuel s v s' p : w64 s -> signed64 lo -> signed64 hi -> lo <= hi -> uniform_range fuel lo hi s = Some (v, s') ->
  (exists z, Core.uniform_range lo hi [z] = (v, [])) /\ exists z, Core.chance [z] = ((chance p s).1, []).
Proof.
  intros Hs Hlo Hhi Hle E. split; [|by destruct (chance p s).1; [exists 1|exists 0]].
  destruct (range_total lo hi s Hs Hlo Hhi Hle) as (n & v' & s'' & Hv & Hf).
  apply (uniform_range_mono _ (fuel + S n)) in E; [|lia]. rewrite Hf in E by lia. injection E as -> ->.
  exists (v - lo). unfold Core.uniform_range. cbn [draw]. destruct (hi <=? lo) eqn:El; [|rewrite Z.mod_small by lia]; f_equal; lia.
Qed.

(** ** A run *)

Lemma seeded_full_period_witness : exists n, Z.of_nat n < 2 ^ 64 /\ output 42 n = 7.
Proof. destruct (seeded_full_period 42 7) as [(n & Hn & E & _) _]; [by vm_compute..|]. by exists n. Defined.

Lemma uniform_unbiased_witness : uniform 5 6 42 = Some (4, u64 (42 + golden)) /\ forall x, w64 x ->
  accepted 6 x 5 <-> first_for 6 5 <= x < first_for 6 5 + 2 ^ 64 / 6.
Proof. split; [by vm_compute|]. intros x Hx. by apply (uniform_unbiased 6 42). Defined.

Lemma range_draw_exact_witness : exists n v s', -10 <= v <= 10 /\ forall fuel, (n < fuel)%nat -> uniform_range fuel (-10) 10 42 = Some (v, s').
Proof. by apply (range_draw_exact (-10) 10 42 (1 # 2)). Defined.
