(* ===== verification/Scheduler.v ===== *)
(** Scheduler: the cooperative runtime (core/Scheduler.hpp, Future.hpp, Task.hpp,
    Trace.hpp, detail/ReadyQueue.hpp): a FIFO of ready coroutines, timers on a virtual
    clock, one-shot futures and an event trace.

    A coroutine is a handle; what it does from one suspension to the next is a [turn],
    a tree of the operations the runtime offers, chosen by [body] from the program's
    own data [W] (its frame included).  Programs are arbitrary, and a turn is finite.
    Shared states are numbered in the order they are minted; memory reuse below them is
    not visible.  The promise of a timer belongs to the timer, so a program can await
    its state but not complete it.  A failed [assert] is [None]; the clock does not
    reach 2^63, where its sum would be undefined. *)

From Stdlib Require Import ZArith Lia Sorting.Sorted.
From stdpp Require Import base list sorting numbers gmap strings pretty.
From S2P Require Import Prelude Core.
#[local] Open Scope string_scope.
#[local] Open Scope list_scope.
#[local] Open Scope Z_scope.

(** ** The trace *)

Inductive TraceAction := TSpawn | TResume | TPromiseSet | TSchedule | TTimerArm | TTimerFire | TClockAdvance | TTaskDone | TRunStart | TRunEnd.

Definition to_token (a : TraceAction) : string :=
  match a with
  | TSpawn => "spawn" | TResume => "resume" | TPromiseSet => "promise_set" | TSchedule => "schedule" | TTimerArm => "timer_arm"
  | TTimerFire => "timer_fire" | TClockAdvance => "clock_advance" | TTaskDone => "task_done" | TRunStart => "run_start" | TRunEnd => "run_end"
  end.

Record TraceEvent := mkEvent { ev_seq : Z; ev_action : TraceAction; ev_vtime : Z; ev_payload : string }.

Record Trace := mkTrace { enabled_ : bool; events_ : list TraceEvent; next_seq_ : Z }.

Definition record_event (a : TraceAction) (vt : Z) (payload : string) (t : Trace) : Trace :=
  mkTrace (enabled_ t) (if enabled_ t then events_ t ++ [mkEvent (next_seq_ t) a vt payload] else events_ t) (u64 (next_seq_ t + 1)).

Definition render_event (e : TraceEvent) : string :=
  pretty (ev_seq e) +:+ " " +:+ to_token (ev_action e) +:+ " vt=" +:+ pretty (ev_vtime e) +:+
  (if String.eqb (ev_payload e) "" then "" else " " +:+ ev_payload e) +:+ String (Ascii.ascii_of_nat 10) EmptyString.

Definition render (t : Trace) : string := foldr String.append "" (map render_event (events_ t)).

(** ** The state *)

Section scheduler.
Context {H : Type} `{Countable H} {V W : Type}.

(** A shared state: complete or not, the parked waiter, the result. *)
Record SharedState := mkShared {
  st_ready : bool;
  st_waiter : option H;
  st_value : option V;
  st_error : Error;
  timer_owned : bool
}.

Record Timer := mkTimer { due : Z; arm_seq : Z; tm_state : nat }.

Record TaskPromise := mkTask { task_id : Z; continuation : option H; task_done : bool }.

Record sched := mkSched {
  ready_ : list (H * Z);
  timers_ : list Timer;
  trace_ : Trace;
  vtime_ : Z;
  enqueue_seq_ : Z;
  timer_arm_seq_ : Z;
  next_task_id_ : Z;
  states_ : list SharedState;
  tasks_ : gmap H TaskPromise
}.

Definition new_sched : sched := mkSched [] [] (mkTrace true [] 0) 0 0 0 0 [] ∅.

Definition upd_trace (f : Trace -> Trace) (s : sched) : sched :=
  mkSched (ready_ s) (timers_ s) (f (trace_ s)) (vtime_ s) (enqueue_seq_ s) (timer_arm_seq_ s) (next_task_id_ s) (states_ s) (tasks_ s).
Definition upd_states (l : list SharedState) (s : sched) : sched :=
  mkSched (ready_ s) (timers_ s) (trace_ s) (vtime_ s) (enqueue_seq_ s) (timer_arm_seq_ s) (next_task_id_ s) l (tasks_ s).
Definition upd_tasks (m : gmap H TaskPromise) (s : sched) : sched :=
  mkSched (ready_ s) (timers_ s) (trace_ s) (vtime_ s) (enqueue_seq_ s) (timer_arm_seq_ s) (next_task_id_ s) (states_ s) m.
Definition set_ready (l : list (H * Z)) (s : sched) : sched :=
  mkSched l (timers_ s) (trace_ s) (vtime_ s) (enqueue_seq_ s) (timer_arm_seq_ s) (next_task_id_ s) (states_ s) (tasks_ s).
Definition set_timers (l : list Timer) (s : sched) : sched :=
  mkSched (ready_ s) l (trace_ s) (vtime_ s) (enqueue_seq_ s) (timer_arm_seq_ s) (next_task_id_ s) (states_ s) (tasks_ s).
Definition set_vtime (t : Z) (s : sched) : sched :=
  mkSched (ready_ s) (timers_ s) (trace_ s) t (enqueue_seq_ s) (timer_arm_seq_ s) (next_task_id_ s) (states_ s) (tasks_ s).

(** [Scheduler::trace], and the calls guarded by [trace_.enabled()]. *)
Definition trace (a : TraceAction) (payload : string) (s : sched) : sched := upd_trace (record_event a (vtime_ s) payload) s.
Definition trace_if (a : TraceAction) (payload : string) (s : sched) : sched :=
  if enabled_ (trace_ s) then trace a payload s else s.

Definition set_trace_enabled (on : bool) (s : sched) : sched := upd_trace (fun t => mkTrace on (events_ t) (next_seq_ t)) s.

(** ** Scheduling *)

(** Append to the ready queue with the next enqueue number. *)
Definition push (h : H) (s : sched) : sched :=
  mkSched (ready_ s ++ [(h, enqueue_seq_ s)]) (timers_ s) (trace_ s) (vtime_ s) (u64 (enqueue_seq_ s + 1)) (timer_arm_seq_ s)
    (next_task_id_ s) (states_ s) (tasks_ s).

Definition schedule (h : H) (why : TraceAction) (payload : string) (s : sched) : sched := push h (trace why payload s).

Definition task_of (h : H) (s : sched) : TaskPromise := default (mkTask 0 None false) (tasks_ s !! h).

Definition spawn (h : H) (s : sched) : sched :=
  let id := next_task_id_ s in
  let s := mkSched (ready_ s) (timers_ s) (trace_ s) (vtime_ s) (enqueue_seq_ s) (timer_arm_seq_ s) (u64 (id + 1)) (states_ s)
             (<[h := mkTask id (continuation (task_of h s)) (task_done (task_of h s))]> (tasks_ s)) in
  push h (trace_if TSpawn ("id=" +:+ pretty id) s).

(** ** Futures *)

Definition make_promise (owned : bool) (s : sched) : nat * sched :=
  (length (states_ s), upd_states (states_ s ++ [mkShared false None None ok_error owned]) s).

Definition bit (b : bool) : string := if b then "1" else "0".

(** [SharedState::complete] with the result stored before it. *)
Definition complete (f : nat) (v : option V) (e : Error) (s : sched) : option sched :=
  st ← states_ s !! f;
  if st_ready st then None
  else
    let s := upd_states (<[f := mkShared true None v e (timer_owned st)]> (states_ s)) s in
    let s := trace_if TPromiseSet ("err=" +:+ bit (negb (err_ok e))) s in
    Some (match st_waiter st with Some w => schedule w TSchedule "wake=future" s | None => s end).

Definition set_waiter (f : nat) (h : H) (s : sched) : option sched :=
  st ← states_ s !! f;
  match st_waiter st with
  | Some _ => None
  | None => Some (upd_states (<[f := mkShared (st_ready st) (Some h) (st_value st) (st_error st) (timer_owned st)]> (states_ s)) s)
  end.

(** Arm a timer; [Scheduler::delay]. *)
Definition delay (d : Z) (s : sched) : nat * sched :=
  let '(f, s) := make_promise true s in
  let t := vtime_ s + (if 0 <? d then d else 0) in
  let arm := timer_arm_seq_ s in
  let s := mkSched (ready_ s) (timers_ s ++ [mkTimer t arm f]) (trace_ s) (vtime_ s) (enqueue_seq_ s) (u64 (arm + 1))
             (next_task_id_ s) (states_ s) (tasks_ s) in
  (f, trace_if TTimerArm ("due=" +:+ pretty t +:+ " arm=" +:+ pretty arm) s).

(** ** Timers *)

Definition timer_less (a b : Timer) : bool := if negb (due a =? due b) then due a <? due b else arm_seq a <? arm_seq b.

(** The least timer: the loop keeps the first of equals. *)
Fixpoint min_timer (best : Timer) (l : list Timer) : Timer :=
  match l with
  | [] => best
  | t :: l' => min_timer (if timer_less t best then t else best) l'
  end.

Definition earliest (s : sched) : option Timer := match timers_ s with [] => None | t :: l => Some (min_timer t l) end.

(** Positions sorted by arm number: each is moved left past those armed later. *)
Fixpoint insert_by_arm (ts : list Timer) (key : nat) (rev_sorted : list nat) : list nat :=
  match rev_sorted with
  | [] => [key]
  | i :: l =>
      match ts !! key, ts !! i with
      | Some k, Some t => if arm_seq k <? arm_seq t then i :: insert_by_arm ts key l else key :: rev_sorted
      | _, _ => key :: rev_sorted
      end
  end.

Definition sort_by_arm (ts : list Timer) (l : list nat) : list nat := rev (fold_left (fun acc i => insert_by_arm ts i acc) l []).

Definition due_at (ts : list Timer) (target : Z) : list nat :=
  List.filter (fun i => match ts !! i with Some t => due t =? target | None => false end) (seq 0 (length ts)).

(** Erase the positions, last to first. *)
Definition erase_all (l : list nat) (ts : list Timer) : list Timer := fold_left (fun ts i => delete i ts) (rev l) ts.

(** Complete the promises of the timers that fire. *)
Definition fire_one (s : option sched) (t : Timer) : option sched :=
  s ← s; complete (tm_state t) None ok_error (trace_if TTimerFire ("arm=" +:+ pretty (arm_seq t)) s).

Definition fire_earliest_timers (s : sched) : option sched :=
  t ← earliest s;
  let target := due t in
  let s := if vtime_ s <? target then trace_if TClockAdvance ("to=" +:+ pretty target) (set_vtime target s) else s in
  let due_now := sort_by_arm (timers_ s) (due_at (timers_ s) target) in
  let firing := omap (fun i => timers_ s !! i) due_now in
  let s := set_timers (erase_all due_now (timers_ s)) s in
  fold_left fire_one firing (Some s).

(** ** Turns *)

(** What a coroutine does until it suspends.  [Await] and [AwaitTask] suspend it when
    what it waits for is not there, leaving [w]; its next turn starts there. *)
Inductive turn :=
| Return (w : W)
| Now (k : Z -> turn)
| Spawn (h : H) (k : turn)
| Delay (d : Z) (k : nat -> turn)
| MakePromise (k : nat -> turn)
| SetValue (f : nat) (v : V) (k : turn)
| SetError (f : nat) (e : Error) (k : turn)
| Result (f : nat) (k : bool * option V * Error -> turn)
| Log (payload : string) (k : turn)
| Await (f : nat) (w : W) (k : turn)
| AwaitTask (h : H) (w : W) (k : turn).

(** A promise the program holds: not one of a timer. *)
Definition program_owned (f : nat) (s : sched) : option unit :=
  st ← states_ s !! f; if timer_owned st then None else Some tt.

(** [FinalAwaiter::await_suspend]. *)
Definition finish (self : H) (s : sched) : sched :=
  let p := task_of self s in
  let s := upd_tasks (<[self := mkTask (task_id p) (continuation p) true]> (tasks_ s)) s in
  let s := trace_if TTaskDone ("id=" +:+ pretty (task_id p)) s in
  match continuation p with Some c => schedule c TSchedule "wake=task" s | None => s end.

(** [Task::Awaiter::await_suspend]. *)
Definition compose (self child : H) (s : sched) : sched :=
  let p := task_of child s in
  let s := upd_tasks (<[child := mkTask (task_id p) (Some self) (task_done p)]> (tasks_ s)) s in
  schedule child TSchedule "wake=compose" s.

Fixpoint exec (self : H) (t : turn) (s : sched) : option (sched * W) :=
  match t with
  | Return w => Some (finish self s, w)
  | Now k => exec self (k (vtime_ s)) s
  | Spawn h k => exec self k (spawn h s)
  | Delay d k => let '(f, s) := delay d s in exec self (k f) s
  | MakePromise k => let '(f, s) := make_promise false s in exec self (k f) s
  | SetValue f v k => program_owned f s ≫= fun _ => s ← complete f (Some v) ok_error s; exec self k s
  | SetError f e k => program_owned f s ≫= fun _ => s ← complete f None e s; exec self k s
  | Result f k => st ← states_ s !! f; exec self (k (st_ready st, st_value st, st_error st)) s
  | Log payload k => exec self k (trace TSchedule payload s)
  | Await f w k =>
      st ← states_ s !! f;
      if st_ready st then exec self k s else s ← set_waiter f self s; Some (s, w)
  | AwaitTask h w k => if task_done (task_of h s) then exec self k s else Some (compose self h s, w)
  end.

(** ** The loop *)

Variable body : H -> W -> turn.

(** Resume the front of the ready queue. *)
Definition resume_front (item : H * Z) (rest : list (H * Z)) (s : sched) (w : W) : option (sched * W) :=
  let s := trace_if TResume ("seq=" +:+ pretty item.2) (set_ready rest s) in
  exec item.1 (body item.1 w) s.

Inductive outcome := Finished (s : sched) (w : W) | Stalled (s : sched) (w : W) | AssertFailed | NoFuel.

Fixpoint run_loop (fuel : nat) (s : sched) (w : W) : outcome :=
  match fuel with
  | O => NoFuel
  | S fuel =>
      match ready_ s with
      | item :: rest => match resume_front item rest s w with Some (s, w) => run_loop fuel s w | None => AssertFailed end
      | [] =>
          match timers_ s with
          | [] => Finished (trace TRunEnd "" s) w
          | _ => match fire_earliest_timers s with Some s => run_loop fuel s w | None => AssertFailed end
          end
      end
  end.

Definition run (fuel : nat) (s : sched) (w : W) : outcome := run_loop fuel (trace TRunStart "" s) w.

Definition past_deadline (deadline : Z) (s : sched) : bool :=
  match earliest s with None => true | Some t => deadline <? due t end.

Fixpoint until_loop (fuel : nat) (deadline max_steps steps : Z) (s : sched) (w : W) : outcome :=
  match fuel with
  | O => NoFuel
  | S fuel =>
      match ready_ s with
      | item :: rest =>
          match resume_front item rest s w with
          | Some (s, w) =>
              if negb (max_steps =? 0) && (max_steps <=? u64 (steps + 1)) then Stalled (trace TRunEnd "" s) w
              else until_loop fuel deadline max_steps (if max_steps =? 0 then steps else u64 (steps + 1)) s w
          | None => AssertFailed
          end
      | [] =>
          if past_deadline deadline s then Finished (trace TRunEnd "" s) w
          else match fire_earliest_timers s with Some s => until_loop fuel deadline max_steps steps s w | None => AssertFailed end
      end
  end.

Definition run_until (fuel : nat) (deadline max_steps : Z) (s : sched) (w : W) : outcome :=
  until_loop fuel deadline max_steps 0 (trace TRunStart "" s) w.

Definition run_for (fuel : nat) (d : Z) (s : sched) (w : W) : outcome :=
  run_until fuel (vtime_ s + (if 0 <? d then d else 0)) 0 s w.
End scheduler.

Arguments new_sched {H _ _ V}.
Arguments SharedState : clear implicits.
Arguments sched H {_ _} V.
Arguments turn : clear implicits.
Arguments outcome H {_ _} V W.

(** ** Choosing timers by position *)

(** The positions of the elements that satisfy [P], as the loop collects them. *)
Definition positions {A} (P : A -> bool) (l : list A) : list nat :=
  List.filter (fun i => match l !! i with Some x => P x | None => false end) (seq 0 (length l)).

Lemma positions_snoc {A} (P : A -> bool) l x : positions P (l ++ [x]) = positions P l ++ (if P x then [length l] else []).
Proof.
  unfold positions. rewrite length_app, seq_app, List.filter_app. f_equal.
  - apply List.filter_ext_in. intros i Hi%in_seq. by rewrite lookup_app_l by lia.
  - cbn. rewrite lookup_app_r, Nat.sub_diag by lia. cbn. by destruct (P x).
Qed.

Lemma positions_lt {A} (P : A -> bool) l : Forall (fun i => i < length l)%nat (positions P l).
Proof. apply Forall_forall. intros i Hi%list_elem_of_In. unfold positions in Hi. apply filter_In in Hi as [Hi%in_seq _]. lia. Qed.

Lemma positions_sorted {A} (P : A -> bool) l : StronglySorted lt (positions P l).
Proof.
  induction l as [|x l IH] using rev_ind; [constructor|]. rewrite positions_snoc. destruct (P x); [|by rewrite app_nil_r].
  apply StronglySorted_app_2; [|done|repeat constructor]. intros i j Hi Hj%list_elem_of_singleton. subst j.
  pose proof (positions_lt P l) as Hl. rewrite Forall_forall in Hl. by apply Hl.
Qed.

Lemma positions_lookup {A} (P : A -> bool) l : omap (fun i => l !! i) (positions P l) = List.filter P l.
Proof.
  induction l as [|x l IH] using rev_ind; [done|]. rewrite positions_snoc, omap_app, List.filter_app, <- IH. f_equal.
  - clear IH. pose proof (positions_lt P l) as Hl. induction Hl as [|i k Hi _ IHk]; [done|]. cbn. rewrite lookup_app_l by done. destruct (l !! i); cbn; by rewrite IHk.
  - cbn. destruct (P x); [|done]. cbn. by rewrite lookup_app_r, Nat.sub_diag by lia.
Qed.

(** Erasing positions from the last to the first. *)
Definition erase_positions {A} (l : list nat) (xs : list A) : list A := fold_left (fun ts i => delete i ts) (rev l) xs.

Lemma erase_snoc {A} l i (xs : list A) : erase_positions (l ++ [i]) xs = erase_positions l (delete i xs).
Proof. unfold erase_positions. by rewrite rev_app_distr. Qed.

Lemma delete_app_lt {A} i (xs ys : list A) : (i < length xs)%nat -> delete i (xs ++ ys) = delete i xs ++ ys.
Proof. revert i. induction xs as [|x xs IH]; intros [|i] Hi; cbn in *; [lia..|done|]. f_equal. apply IH. lia. Qed.

Lemma erase_app {A} l (xs ys : list A) : StronglySorted lt l -> Forall (fun i => i < length xs)%nat l ->
  erase_positions l (xs ++ ys) = erase_positions l xs ++ ys.
Proof.
  revert xs. induction l as [|i l IH] using rev_ind; intros xs Hs Hl; [done|]. rewrite !erase_snoc.
  apply Forall_app in Hl as [Hl [Hi _]%Forall_cons]. apply StronglySorted_app in Hs as (Hlt & Hs & _).
  rewrite delete_app_lt by done. apply IH; [done|]. apply Forall_forall. intros j Hj. rewrite length_delete by (by apply lookup_lt_is_Some).
  specialize (Hlt j i Hj ltac:(set_solver)). lia.
Qed.

Lemma erase_filter {A} (P : A -> bool) l : erase_positions (positions P l) l = List.filter (fun x => negb (P x)) l.
Proof.
  induction l as [|x l IH] using rev_ind; [done|]. rewrite positions_snoc, List.filter_app. cbn. destruct (P x); cbn.
  - rewrite erase_snoc, delete_middle, !app_nil_r. done.
  - rewrite app_nil_r, erase_app, IH; [done|apply positions_sorted|apply positions_lt].
Qed.

Definition arm_lt (a b : Timer) : Prop := arm_seq a < arm_seq b.

Lemma sorted_lookup {A} (R : relation A) l i j x y : StronglySorted R l -> l !! i = Some x -> l !! j = Some y -> (i < j)%nat -> R x y.
Proof.
  intros Hs. revert i j. induction Hs as [|a l Hs IH Ha]; intros i [|j] Hi Hj Hlt; try (done || lia). cbn in Hj. destruct i as [|i].
  - injection Hi as <-. rewrite Forall_forall in Ha. apply Ha. by eapply list_elem_of_lookup_2.
  - cbn in Hi. apply (IH i j); done || lia.
Qed.

(** Positions in increasing order of sorted timers are already in arm order. *)
Lemma sort_positions ts l : StronglySorted arm_lt ts -> StronglySorted lt l -> Forall (fun i => i < length ts)%nat l -> sort_by_arm ts l = l.
Proof.
  intros Ht Hs Hl. unfold sort_by_arm. enough (E : fold_left (fun acc i => insert_by_arm ts i acc) l [] = rev l) by (by rewrite E, rev_involutive).
  revert Hs Hl. induction l as [|i l IH] using rev_ind; intros Hs Hl; [done|]. rewrite fold_left_app, rev_app_distr. cbn [fold_left rev app].
  apply Forall_app in Hl as [Hl [Hi _]%Forall_cons]. apply StronglySorted_app in Hs as (Hlt & Hs & _). rewrite IH by done. clear IH.
  destruct (rev l) as [|j r] eqn:Er; [done|]. cbn [insert_by_arm].
  assert (Hj : j ∈ l) by (apply list_elem_of_In, in_rev; rewrite Er; by left). specialize (Hlt j i Hj ltac:(set_solver)).
  destruct (lookup_lt_is_Some_2 ts i Hi) as [ti Hti]. destruct (lookup_lt_is_Some_2 ts j ltac:(lia)) as [tj Htj]. rewrite Hti, Htj.
  pose proof (sorted_lookup arm_lt ts j i tj ti Ht Htj Hti Hlt) as Ha. unfold arm_lt in Ha. by rewrite (proj2 (Z.ltb_ge _ _)) by lia.
Qed.

Lemma timer_less_spec a b : timer_less a b = true <-> due a < due b \/ (due a = due b /\ arm_seq a < arm_seq b).
Proof. unfold timer_less. destruct (Z.eqb_spec (due a) (due b)); cbn; rewrite Z.ltb_lt; lia. Qed.

Lemma min_timer_in best l : min_timer best l ∈ best :: l.
Proof.
  revert best. induction l as [|t l IH]; intros best; cbn; [set_solver|]. specialize (IH (if timer_less t best then t else best)).
  destruct (timer_less t best); set_solver.
Qed.

Lemma min_timer_le best l : Forall (fun t => due (min_timer best l) <= due t) (best :: l).
Proof.
  revert best. induction l as [|t l IH]; intros best; cbn; [repeat constructor; lia|].
  specialize (IH (if timer_less t best then t else best)). apply Forall_cons in IH as [H1 H2]. pose proof (timer_less_spec t best) as Hs.
  destruct (timer_less t best); repeat constructor; try done; try lia.
Qed.

Section facts.
Context {H : Type} `{Countable H} {V W : Type}.
Implicit Types s : sched H V.

Lemma earliest_spec s t : earliest s = Some t -> t ∈ timers_ s /\ Forall (fun u => due t <= due u) (timers_ s).
Proof.
  unfold earliest. destruct (timers_ s) as [|u l]; [done|]. intros [= <-]. split; [apply min_timer_in|apply min_timer_le].
Qed.

Lemma earliest_none s : earliest s = None <-> timers_ s = [].
Proof. unfold earliest. by destruct (timers_ s). Qed.

(** ** The invariant *)

(** Timers are in arm order and not in the past; the state of a pending timer is its
    own and not complete; at most one timer was armed for each state. *)
Record wf s : Prop := {
  wf_sorted : StronglySorted arm_lt (timers_ s);
  wf_arms : Forall (fun t => arm_seq t < timer_arm_seq_ s) (timers_ s);
  wf_due : Forall (fun t => vtime_ s <= due t) (timers_ s);
  wf_states : Forall (fun t => exists st, states_ s !! tm_state t = Some st /\ st_ready st = false /\ timer_owned st = true) (timers_ s);
  wf_nodup : NoDup (map tm_state (timers_ s));
  wf_count : 0 <= timer_arm_seq_ s <= Zlen (states_ s)
}.

Definition bounded s : Prop := Zlen (states_ s) < 2 ^ 64.

(** A complete state stays complete, and an owner does not change. *)
Definition states_grow (l l' : list (SharedState H V)) : Prop :=
  (length l <= length l')%nat /\
  forall f st, l !! f = Some st -> exists st', l' !! f = Some st' /\ timer_owned st' = timer_owned st /\ (st_ready st = true -> st' = st).

(** A coroutine parked on a timer stays parked. *)
Definition keeps_parked (l l' : list (SharedState H V)) : Prop :=
  forall f st h, l !! f = Some st -> st_ready st = false -> timer_owned st = true -> st_waiter st = Some h -> l' !! f = Some st.

(** What every operation of a turn does: it appends to the ready queue and to the timers,
    leaves the clock alone, keeps parked coroutines and the invariant. *)
Record evolves s s' : Prop := {
  ev_ready : exists l, ready_ s' = ready_ s ++ l;
  ev_timers : exists l, timers_ s' = timers_ s ++ l;
  ev_vt : vtime_ s' = vtime_ s;
  ev_states : states_grow (states_ s) (states_ s');
  ev_parked : keeps_parked (states_ s) (states_ s');
  ev_wf : wf s -> bounded s' -> wf s'
}.

#[global] Instance states_grow_preorder : PreOrder states_grow.
Proof.
  split; [intros l; split; [done|]; intros f st Hf; by exists st|]. intros a b c [L1 H1] [L2 H2]. split; [lia|]. intros f st Hf.
  destruct (H1 f st Hf) as (st1 & E1 & O1 & R1). destruct (H2 f st1 E1) as (st2 & E2 & O2 & R2). exists st2. split_and!; [done|congruence|].
  intros Hr. rewrite R2; [by apply R1|]. by rewrite R1.
Qed.

Lemma bounded_grow s s' : states_grow (states_ s) (states_ s') -> bounded s' -> bounded s.
Proof. unfold bounded, Zlen. intros [Hl _]. lia. Qed.

#[global] Instance evolves_preorder : PreOrder evolves.
Proof.
  split; [intros s; split; try done; try (by intros ?); exists []; by rewrite app_nil_r|]. intros a b c [[l1 R1] [k1 T1] V1 S1 P1 W1] [[l2 R2] [k2 T2] V2 S2 P2 W2]. split.
  - exists (l1 ++ l2). by rewrite R2, R1, app_assoc.
  - exists (k1 ++ k2). by rewrite T2, T1, app_assoc.
  - congruence.
  - by etrans.
  - intros f st h Hf Hr Ho Hh. eapply P2; try done. by eapply P1.
  - intros Hw Hb. apply W2; [|done]. apply W1; [done|]. by eapply bounded_grow.
Qed.

(** Operations that touch neither timers nor states. *)
Lemma evolves_core s s' : (exists l, ready_ s' = ready_ s ++ l) -> timers_ s' = timers_ s -> vtime_ s' = vtime_ s -> states_ s' = states_ s ->
  timer_arm_seq_ s' = timer_arm_seq_ s -> evolves s s'.
Proof.
  intros R T V0 S A. split; [done|exists []; by rewrite app_nil_r|done|by rewrite S|by rewrite S; intros ?|]. intros [] _. split; rewrite ?T, ?V0, ?S, ?A; done.
Qed.

Lemma evolves_trace a p s : evolves s (trace a p s).
Proof. apply evolves_core; try done. exists []. by rewrite app_nil_r. Qed.

Lemma evolves_trace_if a p s : evolves s (trace_if a p s).
Proof. unfold trace_if. destruct (enabled_ _); [apply evolves_trace|done]. Qed.

Lemma evolves_push h s : evolves s (push h s).
Proof. apply evolves_core; try done. by eexists. Qed.

Lemma evolves_schedule h a p s : evolves s (schedule h a p s).
Proof. etrans; [apply evolves_trace|apply evolves_push]. Qed.

Lemma evolves_tasks m s : evolves s (upd_tasks m s).
Proof. apply evolves_core; try done. exists []. by rewrite app_nil_r. Qed.

Lemma evolves_spawn h s : evolves s (spawn h s).
Proof. unfold spawn. etrans; [|apply evolves_push]. etrans; [|apply evolves_trace_if]. apply evolves_core; try done. exists []. by rewrite app_nil_r. Qed.

Lemma evolves_finish h s : evolves s (finish h s).
Proof.
  unfold finish. destruct (continuation _); [etrans; [|apply evolves_schedule]|]; (etrans; [|apply evolves_trace_if]); apply evolves_tasks.
Qed.

Lemma evolves_compose h c s : evolves s (compose h c s).
Proof. unfold compose. etrans; [apply evolves_tasks|apply evolves_schedule]. Qed.

Lemma states_grow_insert (l : list (SharedState H V)) f st st' : l !! f = Some st -> st_ready st = false -> timer_owned st' = timer_owned st ->
  states_grow l (<[f := st']> l).
Proof.
  intros Hf Hr Ho. split; [by rewrite length_insert|]. intros g x Hg. destruct (decide (f = g)) as [<-|Hne].
  - rewrite list_lookup_insert_eq by (by eapply lookup_lt_Some). exists st'. split; [done|]. split; congruence.
  - rewrite list_lookup_insert_ne by done. by exists x.
Qed.

Lemma evolves_insert s f st st' : states_ s !! f = Some st -> st_ready st = false -> timer_owned st' = timer_owned st ->
  (timer_owned st = false \/ (st_ready st' = false /\ st_waiter st = None)) -> evolves s (upd_states (<[f := st']> (states_ s)) s).
Proof.
  intros Hf Hr Ho Hor. split; [exists []; by rewrite app_nil_r..|done|by eapply states_grow_insert| |].
  { intros g x h Hg Hrg Hog Hhg. cbn. rewrite list_lookup_insert_ne; [done|]. intros <-. assert (x = st) as -> by congruence. destruct Hor as [?|[_ ?]]; congruence. }
  intros [W1 W2 W3 W4 W5 W6] _. split; try done; cbn [timers_ states_ upd_states]; [|by unfold Zlen in *; rewrite length_insert].
  eapply Forall_impl; [exact W4|]. intros t (x & Hx & Rx & Ox). destruct (decide (f = tm_state t)) as [->|Hne].
  - rewrite list_lookup_insert_eq by (by eapply lookup_lt_Some). exists st'. assert (x = st) as -> by congruence.
    split_and!; [done| |congruence]. destruct Hor as [?|[? _]]; [congruence|done].
  - rewrite list_lookup_insert_ne by done. by exists x.
Qed.

Lemma states_grow_snoc (l : list (SharedState H V)) st : states_grow l (l ++ [st]).
Proof. split; [rewrite length_app; lia|]. intros f x Hf. exists x. by rewrite lookup_app_l by (by eapply lookup_lt_Some). Qed.

Lemma parked_snoc (l : list (SharedState H V)) st : keeps_parked l (l ++ [st]).
Proof. intros f x h Hf _ _ _. by rewrite lookup_app_l by (by eapply lookup_lt_Some). Qed.

Lemma evolves_promise b s : evolves s (make_promise b s).2.
Proof.
  split; [exists []; by rewrite app_nil_r..|done|apply states_grow_snoc|apply parked_snoc|].
  intros [W1 W2 W3 W4 W5 W6] _. split; try done; cbn [timers_ states_ upd_states make_promise snd timer_arm_seq_].
  - eapply Forall_impl; [exact W4|]. intros t (x & Hx & Rx & Ox). exists x. by rewrite lookup_app_l by (by eapply lookup_lt_Some).
  - unfold Zlen in *. rewrite length_app. cbn. lia.
Qed.

Lemma evolves_delay d s : evolves s (delay d s).2.
Proof.
  unfold delay. cbn [make_promise snd]. etrans; [|apply evolves_trace_if].
  split; cbn [ready_ timers_ vtime_ states_ upd_states]; [exists []; by rewrite app_nil_r|by eexists|done|apply states_grow_snoc|apply parked_snoc|].
  intros [W1 W2 W3 W4 W5 W6] Hb. unfold bounded, Zlen in *. cbn [states_ upd_states] in Hb. rewrite length_app in Hb. cbn in Hb.
  assert (Ea : u64 (timer_arm_seq_ s + 1) = timer_arm_seq_ s + 1) by (apply u64_id; lia).
  split; cbn [ready_ timers_ vtime_ states_ upd_states timer_arm_seq_].
  - apply StronglySorted_app_2; [|done|repeat constructor]. intros a b Ha ->%list_elem_of_singleton. rewrite Forall_forall in W2. by apply W2.
  - rewrite Ea. apply Forall_app_2; [|repeat constructor; cbn; lia]. eapply Forall_impl; [exact W2|]. cbn. lia.
  - apply Forall_app_2; [done|]. repeat constructor. cbn. destruct (0 <? d) eqn:E; lia.
  - apply Forall_app_2.
    + eapply Forall_impl; [exact W4|]. intros t (x & Hx & Rx & Ox). exists x. by rewrite lookup_app_l by (by eapply lookup_lt_Some).
    + repeat constructor. cbn [tm_state]. rewrite lookup_app_r, Nat.sub_diag by lia. by eexists.
  - rewrite map_app. cbn [map tm_state]. apply NoDup_app. split_and!; [done| |apply NoDup_singleton].
    intros f (t & -> & Ht)%list_elem_of_fmap E%list_elem_of_singleton. rewrite Forall_forall in W4.
    destruct (W4 t Ht) as (x & Hx%lookup_lt_Some & _). lia.
  - rewrite Ea. unfold Zlen. rewrite length_app. cbn. lia.
Qed.

Lemma evolves_complete f v e s s' : complete f v e s = Some s' -> program_owned f s = Some tt -> evolves s s'.
Proof.
  unfold complete, program_owned. destruct (states_ s !! f) as [st|] eqn:Ef; [|done]. cbn. destruct (st_ready st) eqn:Er; [done|].
  intros [= <-] Ho. destruct (timer_owned st) eqn:Eo; [done|].
  etrans; [apply (evolves_insert s f st (mkShared true None v e false)); auto|].
  etrans; [apply evolves_trace_if|]. destruct (st_waiter st); [apply evolves_schedule|done].
Qed.

Lemma evolves_waiter f h s s' st : states_ s !! f = Some st -> st_ready st = false -> set_waiter f h s = Some s' -> evolves s s'.
Proof.
  intros Ef Er. unfold set_waiter. rewrite Ef. cbn. destruct (st_waiter st) eqn:Ew; [done|]. intros [= <-]. apply (evolves_insert s f st); auto.
Qed.

Lemma exec_evolves self (t : turn H V W) s s' w : exec self t s = Some (s', w) -> evolves s s'.
Proof.
  revert s. induction t as [w0|k IH|h k IH|d k IH|k IH|f v k IH|f e k IH|f k IH|p k IH|f w0 k IH|h w0 k IH]; intros s; cbn [exec].
  - intros [= <- <-]. apply evolves_finish.
  - apply IH.
  - intros E. etrans; [apply evolves_spawn|by apply IH].
  - pose proof (evolves_delay d s) as Hd. destruct (delay d s) as [f s1]. intros E. etrans; [exact Hd|by eapply IH].
  - pose proof (evolves_promise false s) as Hd. destruct (make_promise false s) as [f s1]. intros E. etrans; [exact Hd|by eapply IH].
  - destruct (program_owned f s) as [[]|] eqn:Eo; [|done]. cbn. destruct (complete f (Some v) ok_error s) as [s1|] eqn:Ec; [|done].
    intros E. etrans; [by eapply evolves_complete|by apply IH].
  - destruct (program_owned f s) as [[]|] eqn:Eo; [|done]. cbn. destruct (complete f None e s) as [s1|] eqn:Ec; [|done].
    intros E. etrans; [by eapply evolves_complete|by apply IH].
  - destruct (states_ s !! f) as [st|]; [|done]. apply IH.
  - intros E. etrans; [apply evolves_trace|by apply IH].
  - destruct (states_ s !! f) as [st|] eqn:Ef; [|done]. cbn. destruct (st_ready st) eqn:Er; [apply IH|].
    destruct (set_waiter f self s) as [s1|] eqn:Ew; [|done]. intros [= <- <-]. by eapply evolves_waiter.
  - destruct (task_done (task_of h s)); [apply IH|]. intros [= <- <-]. apply evolves_compose.
Qed.

(** ** Firing timers *)

(** The coroutines on the ready queue. *)
Definition handles s : list H := map fst (ready_ s).

Definition waiter_of (l : list (SharedState H V)) (t : Timer) : option H := st ← l !! tm_state t; st_waiter st.

(** All the fields but the ready queue, its counter, the trace and the states. *)
Definition same_clock s s' : Prop :=
  timers_ s' = timers_ s /\ vtime_ s' = vtime_ s /\ timer_arm_seq_ s' = timer_arm_seq_ s /\ next_task_id_ s' = next_task_id_ s /\ tasks_ s' = tasks_ s.

Lemma trace_if_fields a p s : same_clock s (trace_if a p s) /\ ready_ (trace_if a p s) = ready_ s /\ states_ (trace_if a p s) = states_ s /\
  enqueue_seq_ (trace_if a p s) = enqueue_seq_ s.
Proof. unfold trace_if. by destruct (enabled_ (trace_ s)). Qed.

Lemma promise_complete_spec f v e s st : states_ s !! f = Some st -> st_ready st = false ->
  exists s', complete f v e s = Some s' /\ handles s' = handles s ++ option_list (st_waiter st) /\ same_clock s s' /\
    states_ s' = <[f := mkShared true None v e (timer_owned st)]> (states_ s).
Proof.
  intros Hf Hr. unfold complete. rewrite Hf. cbn. rewrite Hr. eexists. split; [done|].
  set (s1 := upd_states _ s). destruct (trace_if_fields TPromiseSet ("err=" +:+ bit (negb (err_ok e))) s1) as ((T1 & T2 & T3 & T4 & T5) & R & S & _).
  unfold handles. destruct (st_waiter st) as [w|]; cbn [option_list].
  - cbn [schedule push trace upd_trace ready_ states_]. rewrite map_app, R, S. split_and!; [done| |done]. unfold same_clock. cbn. by rewrite T1, T2, T3, T4, T5.
  - rewrite R, S, app_nil_r. split_and!; [done| |done]. unfold same_clock. by rewrite T1, T2, T3, T4, T5.
Qed.

Lemma same_clock_trans a b c : same_clock a b -> same_clock b c -> same_clock a c.
Proof. unfold same_clock. naive_solver congruence. Qed.

Definition pending (l : list (SharedState H V)) (t : Timer) : Prop := exists st, l !! tm_state t = Some st /\ st_ready st = false /\ timer_owned st = true.

(** What firing the timers [l] does. *)
Record fired (l : list Timer) s s' : Prop := {
  fi_ready : handles s' = handles s ++ omap (waiter_of (states_ s)) l;
  fi_clock : same_clock s s';
  fi_grow : states_grow (states_ s) (states_ s');
  fi_length : length (states_ s') = length (states_ s);
  fi_done : Forall (fun t => exists st, states_ s' !! tm_state t = Some st /\ st_ready st = true) l;
  fi_other : forall f, f ∉ map tm_state l -> states_ s' !! f = states_ s !! f
}.

Lemma fire_all l s : NoDup (map tm_state l) -> Forall (pending (states_ s)) l -> exists s', fold_left fire_one l (Some s) = Some s' /\ fired l s s'.
Proof.
  revert s. induction l as [|t l IH]; intros s Hn Hp.
  - exists s. split; [done|]. split; [by rewrite app_nil_r|done|done|done|constructor|done].
  - cbn [map] in Hn. apply NoDup_cons in Hn as [Ht Hn]. apply Forall_cons in Hp as [(st & Hst & Hr & Ho) Hp]. cbn [fold_left fire_one mbind option_bind].
    destruct (trace_if_fields TTimerFire ("arm=" +:+ pretty (arm_seq t)) s) as (C0 & R0 & S0 & _).
    destruct (promise_complete_spec (tm_state t) None ok_error (trace_if TTimerFire ("arm=" +:+ pretty (arm_seq t)) s) st) as (s1 & -> & R1 & C1 & S1);
      [by rewrite S0|done|]. rewrite S0 in S1. unfold handles in R1 at 2. rewrite R0 in R1. fold (handles s) in R1.
    assert (Hkeep : forall f, f <> tm_state t -> states_ s1 !! f = states_ s !! f) by (intros f Hf; rewrite S1; by apply list_lookup_insert_ne).
    destruct (IH s1 Hn) as (s' & -> & [F1 F2 F3 F4 F5 F6]).
    { apply Forall_forall. intros u Hu. rewrite Forall_forall in Hp. destruct (Hp u Hu) as (x & Hx & ?).
      exists x. rewrite Hkeep; [done|]. intros E. apply Ht. rewrite <- E. apply list_elem_of_fmap. by exists u. }
    assert (G1 : states_grow (states_ s) (states_ s1)) by (rewrite S1; by eapply states_grow_insert).
    exists s'. split; [done|]. split.
    + rewrite F1, R1, <- app_assoc. f_equal. cbn [omap list_omap]. unfold waiter_of at 2. rewrite Hst. cbn [mbind option_bind].
      assert (E : omap (waiter_of (states_ s1)) l = omap (waiter_of (states_ s)) l).
      { clear -Ht Hkeep. induction l as [|u l IH]; [done|]. cbn [map] in Ht. apply not_elem_of_cons in Ht as [H1 H2]. cbn [omap list_omap].
        rewrite IH by done. unfold waiter_of at 1 3. by rewrite Hkeep. }
      rewrite E. by destruct (st_waiter st).
    + eapply same_clock_trans; [exact C0|]. by eapply same_clock_trans.
    + by etrans.
    + by rewrite F4, S1, length_insert.
    + constructor; [|done]. rewrite F6 by done. rewrite S1, list_lookup_insert_eq by (by eapply lookup_lt_Some). by eexists.
    + intros f Hf. cbn [map] in Hf. apply not_elem_of_cons in Hf as [H1 H2]. rewrite F6 by done. by apply Hkeep.
Qed.

Definition due_now (target : Z) (t : Timer) : bool := due t =? target.

Lemma filter_sorted {A} (R : relation A) (P : A -> bool) l : StronglySorted R l -> StronglySorted R (List.filter P l).
Proof.
  induction 1 as [|a l Hs IH Ha]; cbn; [constructor|]. destruct (P a); [|done]. constructor; [done|].
  apply Forall_forall. intros x Hx%list_elem_of_In%filter_In. rewrite Forall_forall in Ha. apply Ha, list_elem_of_In. tauto.
Qed.

Lemma filter_Forall {A} (Q : A -> Prop) (P : A -> bool) l : Forall Q l -> Forall Q (List.filter P l).
Proof. induction 1 as [|a l Ha Hl IH]; cbn; [constructor|]. destruct (P a); [by constructor|done]. Qed.

Lemma filter_map_nodup {A B} (f : A -> B) (P : A -> bool) l : NoDup (map f l) -> NoDup (map f (List.filter P l)).
Proof.
  induction l as [|a l IH]; cbn; [done|]. intros [Ha Hn]%NoDup_cons. destruct (P a); [|by apply IH]. cbn. apply NoDup_cons. split; [|by apply IH].
  intros (x & E & Hx%list_elem_of_In%filter_In)%list_elem_of_fmap. apply Ha. rewrite E. apply list_elem_of_fmap. exists x. split; [done|]. apply list_elem_of_In. tauto.
Qed.

(** A timer that fires and one that stays do not share a state. *)
Lemma filter_states_disjoint {A B} (f : A -> B) (P : A -> bool) l x : NoDup (map f l) -> x ∈ List.filter (fun a => negb (P a)) l ->
  f x ∉ map f (List.filter P l).
Proof.
  induction l as [|a l IH]; cbn; [set_solver|]. intros [Ha Hn]%NoDup_cons. destruct (P a) eqn:E; cbn; intros Hx.
  - apply not_elem_of_cons. split; [|by apply IH]. intros Ex. apply Ha. rewrite <- Ex. apply list_elem_of_fmap. exists x. split; [done|].
    apply list_elem_of_In in Hx as Hx'%filter_In. apply list_elem_of_In. tauto.
  - apply elem_of_cons in Hx as [->|Hx]; [|by apply IH]. intros (y & E' & Hy%list_elem_of_In%filter_In)%list_elem_of_fmap.
    apply Ha. rewrite E'. apply list_elem_of_fmap. exists y. split; [done|]. apply list_elem_of_In. tauto.
Qed.

(** The clock moves to the earliest timer; exactly the timers due there fire, in the
    order they were armed, and their waiters join the ready queue in that order. *)
Lemma fire_spec s t : wf s -> earliest s = Some t ->
  exists s', fire_earliest_timers s = Some s' /\ vtime_ s' = due t /\
    timers_ s' = List.filter (fun u => negb (due_now (due t) u)) (timers_ s) /\
    handles s' = handles s ++ omap (waiter_of (states_ s)) (List.filter (due_now (due t)) (timers_ s)) /\
    states_grow (states_ s) (states_ s') /\
    Forall (fun u => exists st, states_ s' !! tm_state u = Some st /\ st_ready st = true) (List.filter (due_now (due t)) (timers_ s)) /\
    (forall f, f ∉ map tm_state (List.filter (due_now (due t)) (timers_ s)) -> states_ s' !! f = states_ s !! f) /\ wf s'.
Proof.
  intros [W1 W2 W3 W4 W5 W6] Ht. destruct (earliest_spec s t Ht) as [Hin Hmin].
  assert (Hvt : vtime_ s <= due t) by (rewrite Forall_forall in W3; by apply W3).
  unfold fire_earliest_timers. rewrite Ht. cbn [mbind option_bind].
  set (s1 := if vtime_ s <? due t then _ else s).
  assert (E1 : timers_ s1 = timers_ s /\ vtime_ s1 = due t /\ ready_ s1 = ready_ s /\ states_ s1 = states_ s /\ timer_arm_seq_ s1 = timer_arm_seq_ s).
  { unfold s1. destruct (vtime_ s <? due t) eqn:E; [|split_and!; done || lia].
    destruct (trace_if_fields TClockAdvance ("to=" +:+ pretty (due t)) (set_vtime (due t) s)) as ((-> & -> & -> & _) & -> & -> & _). done. }
  destruct E1 as (T1 & V1 & R1 & S1 & A1). clearbody s1. rewrite !T1.
  change (due_at (timers_ s) (due t)) with (positions (due_now (due t)) (timers_ s)).
  rewrite sort_positions by (done || apply positions_sorted || apply positions_lt). rewrite positions_lookup.
  change (erase_all (positions (due_now (due t)) (timers_ s)) (timers_ s)) with (erase_positions (positions (due_now (due t)) (timers_ s)) (timers_ s)).
  rewrite erase_filter. set (fr := List.filter (due_now (due t)) (timers_ s)). set (kp := List.filter _ (timers_ s)).
  destruct (fire_all fr (set_timers kp s1)) as (s' & -> & [F1 (C1 & C2 & C3 & _) F3 F4 F5 F6]).
  { by apply filter_map_nodup. } { cbn [states_ set_timers]. rewrite S1. by apply filter_Forall. }
  cbn [states_ set_timers timers_ vtime_ timer_arm_seq_] in *. rewrite S1 in *. exists s'. split; [done|]. do 2 (split; [congruence|]).
  split; [by rewrite F1; unfold handles; cbn [ready_ set_timers]; rewrite R1|]. split; [done|]. split; [done|]. split; [done|].
  split; rewrite ?C1, ?C2, ?C3, ?V1, ?A1; unfold Zlen; rewrite ?F4; try done.
  - by apply filter_sorted.
  - by apply filter_Forall.
  - by apply filter_Forall.
  - apply Forall_forall. intros u Hu. rewrite F6 by (by apply filter_states_disjoint). pose proof (filter_Forall _ (fun u => negb (due_now (due t) u)) _ W4) as Hk.
      rewrite Forall_forall in Hk. by apply Hk.
  - by apply filter_map_nodup.
Qed.

(** ** The loop *)

Variable body : H -> W -> turn H V W.

Lemma complete_length f v e s s' : complete f v e s = Some s' -> length (states_ s') = length (states_ s) /\ vtime_ s' = vtime_ s.
Proof.
  destruct (states_ s !! f) as [st|] eqn:Ef; [|unfold complete; by rewrite Ef]. destruct (st_ready st) eqn:Er; [unfold complete; rewrite Ef; cbn; by rewrite Er|].
  destruct (promise_complete_spec f v e s st Ef Er) as (s1 & -> & _ & (_ & Hv & _) & Hs). intros [= <-]. by rewrite Hs, length_insert.
Qed.

Lemma fire_none l : fold_left fire_one l None = (None : option (sched H V)).
Proof. by induction l. Qed.

Lemma fire_fold l s s' : fold_left fire_one l (Some s) = Some s' -> length (states_ s') = length (states_ s) /\ vtime_ s' = vtime_ s.
Proof.
  revert s. induction l as [|t l IH]; intros s; cbn [fold_left fire_one mbind option_bind]; [by intros [= <-]|].
  destruct (trace_if_fields TTimerFire ("arm=" +:+ pretty (arm_seq t)) s) as ((_ & V0 & _) & _ & S0 & _).
  destruct (complete _ _ _ _) as [s1|] eqn:E.
  - intros [-> ->]%IH. apply complete_length in E as [-> ->]. by rewrite S0, V0.
  - by rewrite fire_none.
Qed.

(** Without the invariant: the clock reaches the earliest timer and never goes back. *)
Lemma fire_vtime s s' t : earliest s = Some t -> fire_earliest_timers s = Some s' ->
  length (states_ s') = length (states_ s) /\ vtime_ s' = Z.max (vtime_ s) (due t).
Proof.
  intros Ht. unfold fire_earliest_timers. rewrite Ht. cbn [mbind option_bind]. set (s1 := if vtime_ s <? due t then _ else s). intros [-> ->]%fire_fold.
  cbn [states_ vtime_ set_timers]. unfold s1. destruct (vtime_ s <? due t) eqn:E; [|split; [done|lia]].
  destruct (trace_if_fields TClockAdvance ("to=" +:+ pretty (due t)) (set_vtime (due t) s)) as ((_ & -> & _) & _ & -> & _). cbn. split; [done|lia].
Qed.

(** A resumption: the front leaves the queue and the turn appends to it. *)
Lemma resume_evolves item rest s w s' w' : ready_ s = item :: rest -> resume_front body item rest s w = Some (s', w') ->
  evolves (set_ready rest s) s'.
Proof. intros _ E. unfold resume_front in E. etrans; [apply evolves_trace_if|by eapply exec_evolves]. Qed.

Definition completed s (t : Timer) : Prop := exists st, states_ s !! tm_state t = Some st /\ st_ready st = true.

Lemma completed_grow s s' t : states_grow (states_ s) (states_ s') -> completed s t -> completed s' t.
Proof. intros [_ Hg] (st & Hs & Hr). destruct (Hg _ _ Hs) as (st' & Hs' & _ & E). exists st'. split; [done|]. by rewrite E. Qed.

(** From [s] to [s']: the clock moves forward, the invariant holds, and every timer that
    is no longer pending has completed. *)
Record advances s s' : Prop := {
  ad_vt : vtime_ s <= vtime_ s';
  ad_grow : states_grow (states_ s) (states_ s');
  ad_wf : wf s';
  ad_timers : Forall (fun t => t ∈ timers_ s' \/ completed s' t) (timers_ s)
}.

Lemma advances_trans a b c : advances a b -> advances b c -> advances a c.
Proof.
  intros [V1 G1 W1 T1] [V2 G2 W2 T2]. split; [lia|by etrans|done|]. eapply Forall_impl; [exact T1|]. intros t [Ht|Ht].
  - rewrite Forall_forall in T2. by apply T2.
  - right. by eapply completed_grow.
Qed.

Lemma advances_evolves s s' : wf s -> bounded s' -> evolves s s' -> advances s s'.
Proof.
  intros Hw Hb [_ [l Ht] V1 S1 _ W1]. split; [lia|done|by apply W1|]. apply Forall_forall. intros t Hin. left. rewrite Ht. set_solver.
Qed.

Lemma wf_set_ready l s : wf s -> wf (set_ready l s).
Proof. intros []. by split. Qed.

Lemma advances_resume item rest s w s' w' : wf s -> bounded s' -> ready_ s = item :: rest -> resume_front body item rest s w = Some (s', w') ->
  advances s s'.
Proof.
  intros Hw Hb Hr E%resume_evolves; [|done]. destruct (advances_evolves (set_ready rest s) s' (wf_set_ready rest s Hw) Hb E) as [V1 G1 W1 T1]. by split.
Qed.

Lemma advances_fire s s' t : wf s -> earliest s = Some t -> fire_earliest_timers s = Some s' -> advances s s' /\ vtime_ s' = due t.
Proof.
  intros Hw Ht E. destruct (fire_spec s t Hw Ht) as (s1 & E1 & Hv & Htm & _ & Hg & Hd & _ & Hw1). rewrite E1 in E. injection E as ->.
  split; [|done]. destruct (earliest_spec s t Ht) as [Hin _]. pose proof (wf_due s Hw) as Hdue. rewrite Forall_forall in Hdue. split; [rewrite Hv; by apply Hdue|done|done|].
  apply Forall_forall. intros u Hu. rewrite Forall_forall in Hd. destruct (due_now (due t) u) eqn:E.
  - right. apply Hd, list_elem_of_In, filter_In. by rewrite <- list_elem_of_In.
  - left. rewrite Htm. apply list_elem_of_In, filter_In. rewrite <- list_elem_of_In, E. done.
Qed.

Definition result_of (o : outcome H V W) : option (sched H V * W) :=
  match o with Finished s w | Stalled s w => Some (s, w) | _ => None end.

Lemma until_length fuel d m k s w s' w' : result_of (until_loop body fuel d m k s w) = Some (s', w') -> (length (states_ s) <= length (states_ s'))%nat.
Proof.
  revert k s w. induction fuel as [|fuel IH]; intros k s w; [done|]. cbn [until_loop]. destruct (ready_ s) as [|item rest] eqn:Er.
  - unfold past_deadline. destruct (earliest s) as [t|] eqn:Et; [|by intros [= <- <-]]. destruct (d <? due t); [by intros [= <- <-]|].
    destruct (fire_earliest_timers s) as [s1|] eqn:Ef; [|done]. intros Hl%IH. apply (fire_vtime _ _ _ Et) in Ef. lia.
  - destruct (resume_front body item rest s w) as [[s1 w1]|] eqn:E; [|done]. apply resume_evolves in E as [_ _ _ [Hl _] _ _]; [|done].
    cbn in Hl. destruct (negb (m =? 0) && _); [intros [= <- <-]; cbn; lia|]. intros Hl'%IH. lia.
Qed.

Lemma bounded_le s s' : (length (states_ s) <= length (states_ s'))%nat -> bounded s' -> bounded s.
Proof. unfold bounded, Zlen. lia. Qed.

Lemma advances_end s : wf s -> advances s (trace TRunEnd "" s).
Proof. intros Hw. split; [cbn; lia|done| |apply Forall_forall; by left]. destruct Hw. by split. Qed.

Lemma until_spec fuel d m k s w s' w' : result_of (until_loop body fuel d m k s w) = Some (s', w') -> wf s -> bounded s' ->
  advances s s' /\ vtime_ s' <= Z.max (vtime_ s) d.
Proof.
  revert k s w. induction fuel as [|fuel IH]; intros k s w; [done|]. cbn [until_loop]. destruct (ready_ s) as [|item rest] eqn:Er.
  - unfold past_deadline. destruct (earliest s) as [t|] eqn:Et; [|intros [= <- <-] ? _; split; [by apply advances_end|cbn; lia]].
    destruct (d <? due t) eqn:Ed; [intros [= <- <-] ? _; split; [by apply advances_end|cbn; lia]|].
    destruct (fire_earliest_timers s) as [s1|] eqn:Ef; [|done]. intros Hl Hw Hb. destruct (advances_fire s s1 t Hw Et Ef) as [Ha Hv].
    destruct (IH _ _ _ Hl (ad_wf _ _ Ha) Hb) as [Ha' Hv']. split; [by eapply advances_trans|]. pose proof (ad_vt _ _ Ha). lia.
  - destruct (resume_front body item rest s w) as [[s1 w1]|] eqn:E; [|done]. intros Hl Hw Hb.
    assert (Hb1 : bounded s1).
    { eapply bounded_le; [|exact Hb]. destruct (negb (m =? 0) && _); [injection Hl as <- <-; done|by apply until_length in Hl]. }
    pose proof (advances_resume item rest s w s1 w1 Hw Hb1 Er E) as Ha. apply resume_evolves in E as Hev; [|done]. pose proof (ev_vt _ _ Hev) as Hv. cbn in Hv.
    destruct (negb (m =? 0) && _).
    + injection Hl as <- <-. split; [eapply advances_trans; [exact Ha|apply advances_end, Ha]|cbn; lia].
    + destruct (IH _ _ _ Hl (ad_wf _ _ Ha) Hb) as [Ha' Hv']. split; [by eapply advances_trans|]. lia.
Qed.

Lemma until_finished fuel d m k s w s' w' : until_loop body fuel d m k s w = Finished s' w' -> ready_ s' = [] /\ Forall (fun t => d < due t) (timers_ s').
Proof.
  revert k s w. induction fuel as [|fuel IH]; intros k s w; [done|]. cbn [until_loop]. destruct (ready_ s) as [|item rest] eqn:Er.
  - unfold past_deadline. destruct (earliest s) as [t|] eqn:Et.
    + destruct (d <? due t) eqn:Ed; [|destruct (fire_earliest_timers s); [apply IH|done]]. intros [= <- <-]. split; [done|]. cbn.
      destruct (earliest_spec s t Et) as [_ Hm]. eapply Forall_impl; [exact Hm|]. cbn. lia.
    + intros [= <- <-]. split; [done|]. cbn. apply earliest_none in Et. by rewrite Et.
  - destruct (resume_front body item rest s w) as [[s1 w1]|]; [|done]. destruct (negb (m =? 0) && _); [done|apply IH].
Qed.

(** ** The trace is only observed *)

(** States that differ in the trace alone. *)
Definition untraced s : sched H V := upd_trace (fun _ => mkTrace true [] 0) s.
Definition same s s' : Prop := untraced s = untraced s'.

#[global] Instance same_equivalence : Equivalence same.
Proof. unfold same. split; [done|by intros ? ?|]. intros a b c. apply transitivity. Qed.

Lemma same_fields s s' : same s s' -> ready_ s = ready_ s' /\ timers_ s = timers_ s' /\ vtime_ s = vtime_ s' /\ enqueue_seq_ s = enqueue_seq_ s' /\
  timer_arm_seq_ s = timer_arm_seq_ s' /\ next_task_id_ s = next_task_id_ s' /\ states_ s = states_ s' /\ tasks_ s = tasks_ s'.
Proof. unfold same, untraced, upd_trace. intros [=]. done. Qed.

Lemma same_upd f s : same (upd_trace f s) s.
Proof. done. Qed.

Lemma same_trace_if a p s : same (trace_if a p s) s.
Proof. unfold trace_if. by destruct (enabled_ _). Qed.

#[global] Instance trace_if_same : Proper (eq ==> eq ==> same ==> same) trace_if.
Proof. intros a ? <- p ? <- s s' E. by rewrite !same_trace_if. Qed.

#[global] Instance trace_same : Proper (eq ==> eq ==> same ==> same) trace.
Proof. intros a ? <- p ? <- s s' E. unfold trace. by rewrite !same_upd. Qed.

(** An update of the other fields that reads only them. *)
Ltac same_update := intros s s' E; apply same_fields in E as (? & ? & ? & ? & ? & ? & ? & ?); unfold same, untraced, upd_trace; cbn; congruence.

#[global] Instance push_same : Proper (eq ==> same ==> same) push.
Proof. intros h ? <-. same_update. Qed.

#[global] Instance upd_states_same : Proper (eq ==> same ==> same) (@upd_states H _ _ V).
Proof. intros l ? <-. same_update. Qed.

#[global] Instance upd_tasks_same : Proper (eq ==> same ==> same) (@upd_tasks H _ _ V).
Proof. intros l ? <-. same_update. Qed.

#[global] Instance set_ready_same : Proper (eq ==> same ==> same) (@set_ready H _ _ V).
Proof. intros l ? <-. same_update. Qed.

#[global] Instance set_timers_same : Proper (eq ==> same ==> same) (@set_timers H _ _ V).
Proof. intros l ? <-. same_update. Qed.

#[global] Instance set_vtime_same : Proper (eq ==> same ==> same) (@set_vtime H _ _ V).
Proof. intros l ? <-. same_update. Qed.

#[global] Instance schedule_same : Proper (eq ==> eq ==> eq ==> same ==> same) schedule.
Proof. intros h ? <- a ? <- p ? <- s s' E. unfold schedule. by rewrite E. Qed.

Lemma same_task_of h s s' : same s s' -> task_of h s = task_of h s'.
Proof. intros (_ & _ & _ & _ & _ & _ & _ & E)%same_fields. unfold task_of. by rewrite E. Qed.

#[global] Instance spawn_same : Proper (eq ==> same ==> same) spawn.
Proof.
  intros h ? <- s s' E. unfold spawn. apply push_same; [done|]. rewrite !same_trace_if. pose proof (same_task_of h s s' E) as ->. revert s s' E. same_update.
Qed.

#[global] Instance finish_same : Proper (eq ==> same ==> same) finish.
Proof.
  intros h ? <- s s' E. unfold finish. rewrite (same_task_of h s s' E). destruct (same_fields s s' E) as (_ & _ & _ & _ & _ & _ & _ & ->).
  destruct (continuation _); by rewrite ?E.
Qed.

#[global] Instance compose_same : Proper (eq ==> eq ==> same ==> same) compose.
Proof.
  intros h ? <- c ? <- s s' E. unfold compose. rewrite (same_task_of c s s' E). destruct (same_fields s s' E) as (_ & _ & _ & _ & _ & _ & _ & ->). by rewrite E.
Qed.

Lemma delay_same d s s' : same s s' -> (delay d s).1 = (delay d s').1 /\ same (delay d s).2 (delay d s').2.
Proof.
  intros E. unfold delay. cbn. split; [by destruct (same_fields s s' E) as (_ & _ & _ & _ & _ & _ & -> & _)|]. rewrite !same_trace_if. revert s s' E. same_update.
Qed.

Definition same_option (o o' : option (sched H V)) : Prop :=
  match o, o' with Some s, Some s' => same s s' | None, None => True | _, _ => False end.

Lemma complete_same f v e s s' : same s s' -> same_option (complete f v e s) (complete f v e s').
Proof.
  intros E. unfold complete. destruct (same_fields s s' E) as (_ & _ & _ & _ & _ & _ & -> & _). destruct (states_ s' !! f) as [st|]; [|done]. cbn.
  destruct (st_ready st); [done|]. cbn. destruct (st_waiter st); by rewrite E.
Qed.

Lemma set_waiter_same f h s s' : same s s' -> same_option (set_waiter f h s) (set_waiter f h s').
Proof.
  intros E. unfold set_waiter. destruct (same_fields s s' E) as (_ & _ & _ & _ & _ & _ & -> & _). destruct (states_ s' !! f) as [st|]; [|done]. cbn.
  destruct (st_waiter st); [done|]. cbn. by rewrite E.
Qed.

Lemma fire_same s s' : same s s' -> same_option (fire_earliest_timers s) (fire_earliest_timers s').
Proof.
  intros E. unfold fire_earliest_timers. assert (earliest s = earliest s') as -> by (unfold earliest; by destruct (same_fields s s' E) as (_ & -> & _)).
  destruct (earliest s') as [t|]; [|done]. cbn [mbind option_bind].
  set (a := if vtime_ s <? due t then _ else s). set (a' := if vtime_ s' <? due t then _ else s').
  assert (Ha : same a a').
  { unfold a, a'. destruct (same_fields s s' E) as (_ & _ & -> & _). destruct (vtime_ s' <? due t); by rewrite E. }
  clearbody a a'. destruct (same_fields a a' Ha) as (_ & -> & _). generalize (omap (fun i => timers_ a' !! i) (sort_by_arm (timers_ a') (due_at (timers_ a') (due t)))).
  generalize (erase_all (sort_by_arm (timers_ a') (due_at (timers_ a') (due t))) (timers_ a')). intros ts l.
  assert (Hs : same_option (Some (set_timers ts a)) (Some (set_timers ts a'))) by (cbn; by rewrite Ha). revert Hs.
  generalize (Some (set_timers ts a)), (Some (set_timers ts a')). clear. induction l as [|t l IH]; intros o o' Ho; [done|]. apply IH.
  destruct o as [s|], o' as [s'|]; try done. cbn. apply complete_same. cbn in Ho. by rewrite Ho.
Qed.

Definition same_result (o o' : option (sched H V * W)) : Prop :=
  match o, o' with Some (s, w), Some (s', w') => same s s' /\ w = w' | None, None => True | _, _ => False end.

Lemma exec_same self (t : turn H V W) s s' : same s s' -> same_result (exec self t s) (exec self t s').
Proof.
  revert s s'. induction t as [w0|k IH|h k IH|d k IH|k IH|f v k IH|f e k IH|f k IH|p k IH|f w0 k IH|h w0 k IH]; intros s s' E; cbn [exec];
    destruct (same_fields s s' E) as (_ & _ & Ev & _ & _ & _ & Es & _).
  - cbn. by rewrite E.
  - rewrite Ev. by apply IH.
  - apply IH. by rewrite E.
  - destruct (delay_same d s s' E) as [E1 E2]. destruct (delay d s) as [f a], (delay d s') as [f' a']. cbn in *. subst. by apply IH.
  - cbn. rewrite Es. apply IH. by rewrite E.
  - unfold program_owned. rewrite Es. destruct (states_ s' !! f) as [st|]; [|done]. cbn. destruct (timer_owned st); [done|]. cbn.
    pose proof (complete_same f (Some v) ok_error s s' E) as Hc. destruct (complete _ _ _ s), (complete _ _ _ s'); try done. by apply IH.
  - unfold program_owned. rewrite Es. destruct (states_ s' !! f) as [st|]; [|done]. cbn. destruct (timer_owned st); [done|]. cbn.
    pose proof (complete_same f None e s s' E) as Hc. destruct (complete _ _ _ s), (complete _ _ _ s'); try done. by apply IH.
  - rewrite Es. destruct (states_ s' !! f) as [st|]; [|done]. cbn. by apply IH.
  - apply IH. by rewrite E.
  - rewrite Es. destruct (states_ s' !! f) as [st|]; [|done]. cbn. destruct (st_ready st); [by apply IH|].
    pose proof (set_waiter_same f self s s' E) as Hc. by destruct (set_waiter _ _ s), (set_waiter _ _ s').
  - rewrite (same_task_of h s s' E). destruct (task_done _); [by apply IH|]. cbn. by rewrite E.
Qed.

Lemma resume_same item rest s s' w : same s s' -> same_result (resume_front body item rest s w) (resume_front body item rest s' w).
Proof. intros E. apply exec_same. by rewrite E. Qed.

Definition same_outcome (o o' : outcome H V W) : Prop :=
  match o, o' with
  | Finished s w, Finished s' w' | Stalled s w, Stalled s' w' => same s s' /\ w = w'
  | AssertFailed, AssertFailed | NoFuel, NoFuel => True
  | _, _ => False
  end.

Lemma until_same fuel d m k s s' w : same s s' -> same_outcome (until_loop body fuel d m k s w) (until_loop body fuel d m k s' w).
Proof.
  revert k s s' w. induction fuel as [|fuel IH]; intros k s s' w E; [done|]. cbn [until_loop]. destruct (same_fields s s' E) as (-> & Et & _).
  assert (past_deadline d s = past_deadline d s') as -> by (unfold past_deadline, earliest; by rewrite Et).
  destruct (ready_ s') as [|item rest].
  - destruct (past_deadline d s'); [cbn; by rewrite E|]. pose proof (fire_same s s' E) as Hf.
    destruct (fire_earliest_timers s), (fire_earliest_timers s'); try done. by apply IH.
  - pose proof (resume_same item rest s s' w E) as Hr. destruct (resume_front body item rest s w) as [[a wa]|], (resume_front body item rest s' w) as [[a' wa']|]; try done.
    destruct Hr as [Ea ->]. destruct (negb (m =? 0) && _); [cbn; by rewrite Ea|]. by apply IH.
Qed.

Lemma until_mono fuel fuel' d m k s w s' w' : (fuel <= fuel')%nat -> until_loop body fuel d m k s w = Finished s' w' ->
  until_loop body fuel' d m k s w = Finished s' w'.
Proof.
  revert fuel' k s w. induction fuel as [|fuel IH]; intros [|fuel'] k s w Hle; try done; [lia|]. cbn [until_loop]. destruct (ready_ s) as [|item rest].
  - destruct (past_deadline d s); [done|]. destruct (fire_earliest_timers s); [apply IH; lia|done].
  - destruct (resume_front body item rest s w) as [[a wa]|]; [|done]. destruct (negb (m =? 0) && _); [done|apply IH; lia].
Qed.

Lemma until_split f1 f2 d1 d2 s w s1 w1 s2 w2 : d1 <= d2 -> until_loop body f1 d1 0 0 s w = Finished s1 w1 ->
  until_loop body f2 d2 0 0 (trace TRunStart "" s1) w1 = Finished s2 w2 ->
  exists s2', until_loop body (f1 + f2) d2 0 0 s w = Finished s2' w2 /\ same s2 s2'.
Proof.
  intros Hd. revert s w. induction f1 as [|f1 IH]; intros s w E1 E2; [done|].
  assert (Hend : trace TRunEnd "" s = s1 -> w = w1 -> exists s2', until_loop body (S f1 + f2) d2 0 0 s w = Finished s2' w2 /\ same s2 s2').
  { intros <- <-. pose proof (until_same f2 d2 0 0 (trace TRunStart "" (trace TRunEnd "" s)) s w ltac:(done)) as Hs. rewrite E2 in Hs.
    destruct (until_loop body f2 d2 0 0 s w) as [s2' w2'| | |] eqn:E; try done. destruct Hs as [Hs ->]. exists s2'. split; [|done].
    eapply until_mono; [|exact E]. lia. }
  cbn [until_loop] in E1. cbn [Nat.add until_loop]. cbn [Nat.add until_loop] in Hend. destruct (ready_ s) as [|item rest].
  - destruct (past_deadline d1 s) eqn:Ed1; [apply Hend; congruence|]. clear Hend. unfold past_deadline in *.
    destruct (earliest s) as [t|]; [|done]. assert (d2 <? due t = false) as -> by lia. destruct (fire_earliest_timers s); [by apply IH|done].
  - clear Hend. destruct (resume_front body item rest s w) as [[a wa]|]; [|done]. cbn in E1 |- *. by apply IH.
Qed.

(** Without a deadline in the way, [run] is [run_until]. *)
Lemma run_loop_vtime fuel s w s' w' : run_loop body fuel s w = Finished s' w' -> vtime_ s <= vtime_ s'.
Proof.
  revert s w. induction fuel as [|fuel IH]; intros s w; [done|]. cbn [run_loop]. destruct (ready_ s) as [|item rest] eqn:Er.
  - destruct (earliest s) as [t|] eqn:Et; [|apply earliest_none in Et; rewrite Et; intros [= <- <-]; cbn; lia].
    destruct (timers_ s) eqn:Etm; [by apply earliest_none in Etm; rewrite Etm in Et|]. destruct (fire_earliest_timers s) as [s1|] eqn:Ef; [|done].
    intros Hl%IH. apply (fire_vtime _ _ _ Et) in Ef as [_ Ef]. lia.
  - destruct (resume_front body item rest s w) as [[s1 w1]|] eqn:E; [|done]. apply resume_evolves in E as [_ _ Hv _ _ _]; [|done]. cbn in Hv. intros Hl%IH. lia.
Qed.

Lemma run_is_until fuel d s w s' w' : run_loop body fuel s w = Finished s' w' -> vtime_ s' <= d -> until_loop body fuel d 0 0 s w = Finished s' w'.
Proof.
  revert s w. induction fuel as [|fuel IH]; intros s w; [done|]. cbn [run_loop until_loop]. destruct (ready_ s) as [|item rest] eqn:Er.
  - unfold past_deadline. destruct (earliest s) as [t|] eqn:Et; [|apply earliest_none in Et; by rewrite Et].
    destruct (timers_ s) eqn:Etm; [by apply earliest_none in Etm; rewrite Etm in Et|]. destruct (fire_earliest_timers s) as [s1|] eqn:Ef; [|done].
    intros Hl Hd. apply run_loop_vtime in Hl as Hv. apply (fire_vtime _ _ _ Et) in Ef as [_ Ef]. assert (d <? due t = false) as -> by lia. by apply IH.
  - destruct (resume_front body item rest s w) as [[s1 w1]|] eqn:E; [|done]. cbn. apply IH.
Qed.

(** ** Turns in order *)

(** The first [n] resumptions from a state, none of which may advance the clock. *)
Fixpoint resume_n (n : nat) s (w : W) : option (sched H V * W) :=
  match n with
  | O => Some (s, w)
  | S n =>
      match ready_ s with
      | item :: rest => '(s, w) ← resume_front body item rest s w; resume_n n s w
      | [] => None
      end
  end.

Lemma resume_n_front n s w s' w' : (n <= length (ready_ s))%nat -> resume_n n s w = Some (s', w') ->
  (exists l, ready_ s' = drop n (ready_ s) ++ l) /\ vtime_ s' = vtime_ s.
Proof.
  revert s w. induction n as [|n IH]; intros s w Hn; cbn [resume_n].
  - intros [= <- <-]. split; [exists []; by rewrite drop_0, app_nil_r|done].
  - destruct (ready_ s) as [|item rest] eqn:Er; [done|]. cbn in Hn. destruct (resume_front body item rest s w) as [[s1 w1]|] eqn:E; [|done]. cbn.
    apply resume_evolves in E as [[l Hl] _ Hv _ _ _]; [|done]. cbn in Hl, Hv. intros E2. apply IH in E2 as [[l' Hl'] Hv']; [|rewrite Hl, length_app; lia].
    split; [|congruence]. exists (drop (n - length rest) l ++ l'). by rewrite Hl', Hl, drop_app, <- app_assoc.
Qed.

Lemma resume_n_until n fuel d s w s' w' : resume_n n s w = Some (s', w') -> until_loop body (n + fuel) d 0 0 s w = until_loop body fuel d 0 0 s' w'.
Proof.
  revert s w. induction n as [|n IH]; intros s w; cbn [resume_n Nat.add until_loop]; [by intros [= <- <-]|].
  destruct (ready_ s) as [|item rest]; [done|]. destruct (resume_front body item rest s w) as [[s1 w1]|]; [|done]. cbn. apply IH.
Qed.

Lemma resume_n_fails n fuel d s w : (n <= length (ready_ s))%nat -> resume_n n s w = None -> until_loop body (n + fuel) d 0 0 s w = AssertFailed.
Proof.
  revert s w. induction n as [|n IH]; intros s w Hn; cbn [resume_n Nat.add until_loop]; [done|].
  destruct (ready_ s) as [|item rest] eqn:Er; cbn in Hn; [lia|]. destruct (resume_front body item rest s w) as [[s1 w1]|] eqn:E; [|done]. cbn.
  apply resume_evolves in E as [[l Hl] _ _ _ _ _]; [|done]. cbn in Hl. apply IH. rewrite Hl, length_app. lia.
Qed.

(** ** The step backstop *)

Lemma insert_by_arm_perm ts i l : insert_by_arm ts i l ≡ₚ i :: l.
Proof.
  induction l as [|j l IH]; cbn; [done|]. destruct (ts !! i) as [k|]; [|done]. destruct (ts !! j) as [u|]; [|done].
  destruct (arm_seq k <? arm_seq u); [|done]. rewrite IH. apply perm_swap.
Qed.

Lemma sort_by_arm_perm ts l : sort_by_arm ts l ≡ₚ l.
Proof.
  unfold sort_by_arm. rewrite <- (app_nil_l l) at 2. generalize (@nil nat). induction l as [|i l IH]; intros acc; cbn [fold_left].
  - by rewrite app_nil_r, <- Permutation_rev.
  - rewrite IH, insert_by_arm_perm. by rewrite <- Permutation_middle.
Qed.

Lemma delete_out {A} i (l : list A) : (length l <= i)%nat -> delete i l = l.
Proof. revert i. induction l as [|x l IH]; intros [|i] Hi; cbn in *; try done; [lia|]. f_equal. apply IH. lia. Qed.

Lemma erase_le l (ts : list Timer) : (length (fold_left (fun ts i => delete i ts) l ts) <= length ts)%nat.
Proof.
  revert ts. induction l as [|i l IH]; intros ts; [done|]. cbn. etrans; [apply IH|].
  destruct (decide (i < length ts)%nat) as [Hi|Hi]; [rewrite length_delete by (by apply lookup_lt_is_Some); lia|].
  by rewrite delete_out by lia.
Qed.

(** Firing removes a timer, whatever the state. *)
Lemma fire_decreases s s' : fire_earliest_timers s = Some s' -> (length (timers_ s') < length (timers_ s))%nat.
Proof.
  unfold fire_earliest_timers. destruct (earliest s) as [t|] eqn:Et; [|done]. cbn [mbind option_bind]. set (s1 := if vtime_ s <? due t then _ else s).
  assert (T1 : timers_ s1 = timers_ s).
  { unfold s1. destruct (vtime_ s <? due t); [|done].
    by destruct (trace_if_fields TClockAdvance ("to=" +:+ pretty (due t)) (set_vtime (due t) s)) as ((-> & _) & _). }
  clearbody s1. rewrite T1. generalize (omap (fun i => timers_ s !! i) (sort_by_arm (timers_ s) (due_at (timers_ s) (due t)))). intros fr.
  set (l := sort_by_arm (timers_ s) (due_at (timers_ s) (due t))). intros E.
  assert (timers_ s' = erase_all l (timers_ s)) as ->.
  { change (erase_all l (timers_ s)) with (timers_ (set_timers (erase_all l (timers_ s)) s1)). revert E. generalize (set_timers (erase_all l (timers_ s)) s1). clear.
    induction fr as [|u fr IH]; intros a; cbn [fold_left fire_one mbind option_bind]; [by intros [= <-]|].
    destruct (complete _ _ _ _) as [b|] eqn:Ec; [|by rewrite fire_none]. intros ->%IH.
    destruct (trace_if_fields TTimerFire ("arm=" +:+ pretty (arm_seq u)) a) as ((<- & _) & _).
    revert Ec. generalize (trace_if TTimerFire ("arm=" +:+ pretty (arm_seq u)) a). clear. intros a Ec.
    destruct (states_ a !! tm_state u) as [st|] eqn:Ef; [|unfold complete in Ec; by rewrite Ef in Ec].
    destruct (st_ready st) eqn:Er; [unfold complete in Ec; rewrite Ef in Ec; cbn in Ec; by rewrite Er in Ec|].
    destruct (promise_complete_spec (tm_state u) None ok_error a st Ef Er) as (b' & Eb & _ & (Hb & _) & _). congruence. }
  destruct (earliest_spec s t Et) as [Hin _]. apply list_elem_of_lookup in Hin as [i Hi].
  assert (Hl : i ∈ l).
  { unfold l. rewrite sort_by_arm_perm. apply list_elem_of_In, filter_In. rewrite Hi, Z.eqb_refl. split; [|done]. apply in_seq.
    apply lookup_lt_Some in Hi. lia. }
  assert (Hr : Forall (fun j => j < length (timers_ s))%nat l) by (unfold l; rewrite sort_by_arm_perm; apply (positions_lt (due_now (due t)))).
  unfold erase_all. destruct (rev l) as [|j r] eqn:Erev.
  - apply (f_equal (@rev nat)) in Erev. rewrite rev_involutive in Erev. rewrite Erev in Hl. set_solver.
  - cbn. assert (Hj : (j < length (timers_ s))%nat). { rewrite Forall_forall in Hr. apply Hr, list_elem_of_In, in_rev. rewrite Erev. by left. }
    pose proof (erase_le r (delete j (timers_ s))). rewrite length_delete in * by (by apply lookup_lt_is_Some). lia.
Qed.

Lemma drain_timers d m k n s w : (length (timers_ s) <= n)%nat -> (forall s', ready_ s' <> [] -> exists fuel, until_loop body fuel d m k s' w <> NoFuel) ->
  exists fuel, until_loop body fuel d m k s w <> NoFuel.
Proof.
  intros Hn Hready. revert s Hn. induction n as [|n IH]; intros s Hn; (destruct (ready_ s) as [|item rest] eqn:Er; [|apply Hready; by rewrite Er]).
  - exists 1%nat. cbn [until_loop]. rewrite Er. unfold past_deadline. destruct (timers_ s) eqn:Et; [|cbn in Hn; lia]. apply earliest_none in Et. by rewrite Et.
  - destruct (past_deadline d s) eqn:Ed; [exists 1%nat; cbn [until_loop]; by rewrite Er, Ed|].
    destruct (fire_earliest_timers s) as [s1|] eqn:Ef; [|exists 1%nat; cbn [until_loop]; by rewrite Er, Ed, Ef].
    destruct (IH s1) as [fuel Hf]; [apply fire_decreases in Ef; lia|]. exists (S fuel). cbn [until_loop]. by rewrite Er, Ed, Ef.
Qed.

Lemma until_backstop d m r : 0 < m < 2 ^ 64 -> forall k s w, 0 <= k -> k + Z.of_nat r + 1 = m -> exists fuel, until_loop body fuel d m k s w <> NoFuel.
Proof.
  intros Hm. induction r as [|r IH]; intros k s w Hk Hr; (eapply (drain_timers d m k (length (timers_ s))); [done|]); intros s' Hs'.
  all: destruct (ready_ s') as [|item rest] eqn:Er; [done|].
  all: destruct (resume_front body item rest s' w) as [[s1 w1]|] eqn:E; [|exists 1%nat; cbn [until_loop]; by rewrite Er, E].
  all: assert (Hu : u64 (k + 1) = k + 1) by (apply u64_id; lia).
  - exists 1%nat. cbn [until_loop]. rewrite Er, E, Hu. assert (m =? 0 = false) as -> by lia. assert (m <=? k + 1 = true) as -> by lia. done.
  - destruct (IH (k + 1) s1 w1) as [fuel Hf]; [lia..|]. exists (S fuel). cbn [until_loop]. rewrite Er, E, Hu.
    assert (m =? 0 = false) as -> by lia. assert (m <=? k + 1 = false) as -> by lia. done.
Qed.

(** The step backstop ends every window. With a step limit [run_until] returns, also when
    coroutines keep each other ready for ever at one tick: it finishes, or reports the
    stall, or stops at a failed assertion. *)
Theorem run_until_backstop d m s w : 0 < m < 2 ^ 64 -> exists fuel, run_until body fuel d m s w <> NoFuel.
Proof. intros Hm. apply (until_backstop d m (Z.to_nat (m - 1)) Hm); lia. Qed.

Lemma wf_new : wf (new_sched : sched H V).
Proof. split; cbn; try constructor; done || lia. Qed.

Lemma wf_trace a p s : wf s -> wf (trace a p s).
Proof. intros []. by split. Qed.

(** Timers fire in order. From a state that satisfies the invariant, firing moves the clock
    forward to the earliest pending timer, fires exactly the timers due at that tick,
    removes them and no other, and puts their waiters on the ready queue in the order the
    timers were armed; no promise is completed twice. *)
Theorem timers_fire_in_order s t : wf s -> earliest s = Some t ->
  exists s', fire_earliest_timers s = Some s' /\ vtime_ s <= vtime_ s' /\ vtime_ s' = due t /\
    Forall (fun u => due t <= due u) (timers_ s) /\
    timers_ s' = List.filter (fun u => negb (due_now (due t) u)) (timers_ s) /\
    handles s' = handles s ++ omap (waiter_of (states_ s)) (List.filter (due_now (due t)) (timers_ s)) /\ wf s'.
Proof.
  intros Hw Ht. destruct (fire_spec s t Hw Ht) as (s' & E & Hv & Htm & Hh & _ & _ & _ & Hw'). destruct (earliest_spec s t Ht) as [Hin Hmin].
  pose proof (wf_due s Hw) as Hd. rewrite Forall_forall in Hd. specialize (Hd t Hin). exists s'. split_and!; try done. lia.
Qed.

(** A bounded run is complete and stays in its window. When [run_until] finishes, whatever
    the coroutines did, the clock has not moved back nor past the deadline, no work is
    ready, only timers after the deadline are pending, and every timer that was pending
    at the start and due by the deadline has completed; the invariant holds. *)
Theorem run_until_exact fuel d m s w s' w' : wf s -> run_until body fuel d m s w = Finished s' w' -> bounded s' ->
  vtime_ s <= vtime_ s' <= Z.max (vtime_ s) d /\ ready_ s' = [] /\ Forall (fun t => d < due t) (timers_ s') /\
  Forall (fun t => due t <= d -> completed s' t) (timers_ s) /\ wf s'.
Proof.
  intros Hw E Hb. unfold run_until in E. destruct (until_finished _ _ _ _ _ _ _ _ E) as [Hr Ht].
  destruct (until_spec fuel d m 0 (trace TRunStart "" s) w s' w') as [[V1 _ W1 T1] V2]; [by rewrite E|by apply wf_trace|done|].
  cbn in V1, V2, T1. split_and!; try done. eapply Forall_impl; [exact T1|]. intros t [Hin|Hc] Hdue; [|done].
  rewrite Forall_forall in Ht. specialize (Ht t Hin). lia.
Qed.

(** Windows compose and the trace only observes. Running to one deadline and then to a later
    one gives the state of a single run to the later one, the trace aside; a run gives the
    same result whether or not the trace is stored; and a [run] that ends is a [run_until]
    to any deadline it does not pass. *)
Theorem run_windows_compose f1 f2 d1 d2 s w s1 w1 s2 w2 on : d1 <= d2 ->
  run_until body f1 d1 0 s w = Finished s1 w1 -> run_until body f2 d2 0 s1 w1 = Finished s2 w2 ->
  (exists s2', run_until body (f1 + f2) d2 0 s w = Finished s2' w2 /\ same s2 s2') /\
  same_outcome (run_until body f1 d1 0 (set_trace_enabled on s) w) (Finished s1 w1) /\
  (forall s3 w3, run body f1 s w = Finished s3 w3 -> vtime_ s3 <= d1 -> s3 = s1 /\ w3 = w1).
Proof.
  intros Hd E1 E2. unfold run_until in *. split_and!.
  - by eapply until_split.
  - rewrite <- E1. by apply until_same.
  - intros s3 w3 E3 Hv. unfold run in E3. apply (run_is_until _ d1) in E3; [|done]. rewrite E1 in E3. by injection E3.
Qed.

(** Every ready coroutine gets its turn. The coroutine at position [i] of the ready queue
    is resumed after exactly the [i] before it, at the tick it became ready, whatever
    those turns enqueue, spawn or arm; the loop does not get there only if one of those
    turns violates an assertion of the runtime. *)
Theorem ready_eventually_resumed i item fuel d s w : ready_ s !! i = Some item ->
  until_loop body (i + fuel) d 0 0 s w = AssertFailed \/
  exists s' w' rest, until_loop body (i + fuel) d 0 0 s w = until_loop body fuel d 0 0 s' w' /\ ready_ s' = item :: rest /\ vtime_ s' = vtime_ s.
Proof.
  intros Hi. pose proof (lookup_lt_Some _ _ _ Hi) as Hlt. destruct (resume_n i s w) as [[s' w']|] eqn:E; [right|left; apply resume_n_fails; lia || done].
  destruct (resume_n_front i s w s' w' ltac:(lia) E) as [[l Hl] Hv]. rewrite (drop_S _ _ _ Hi) in Hl. exists s', w', (drop (S i) (ready_ s) ++ l).
  split_and!; [by apply resume_n_until|done|done].
Qed.
End facts.

(** ** A run *)

(** Two sleepers: each waits for its own number of ticks and then returns. *)
Definition sleeper (h : nat) (w : list (nat * nat)) : turn nat Z (list (nat * nat)) :=
  if existsb (fun p => Nat.eqb (fst p) h) w then Now (fun now => Return ((h + 10, Z.to_nat now)%nat :: w))
  else Delay (Z.of_nat h) (fun f => Await f ((h, f) :: w) (Return w)).

Definition two_sleepers : sched nat Z := spawn 7%nat (spawn 3%nat new_sched).

Definition asleep : sched nat Z := match run_until sleeper 10 2 0 two_sleepers [] with Finished s _ => s | _ => new_sched end.

Lemma two_sleepers_wf : wf two_sleepers.
Proof.
  unfold two_sleepers. pose proof (evolves_spawn (V := Z) 3%nat new_sched) as H1. pose proof (evolves_spawn 7%nat (spawn (V := Z) 3%nat new_sched)) as H2.
  apply (ev_wf _ _ H2); [|by vm_compute]. apply (ev_wf _ _ H1); [apply wf_new|by vm_compute].
Qed.

Lemma timers_fire_in_order_witness : exists t s', earliest asleep = Some t /\ fire_earliest_timers asleep = Some s' /\ vtime_ s' = 3.
Proof.
  assert (Hw : wf asleep).
  { destruct (until_spec (W := list (nat * nat)) sleeper 10 2 0 0 (trace TRunStart "" two_sleepers) [] asleep [(7, 1); (3, 0)]%nat) as [[_ _ W1 _] _];
      [by vm_compute|apply wf_trace, two_sleepers_wf|by vm_compute|done]. }
  destruct (timers_fire_in_order asleep (mkTimer 3 0 0) Hw) as (s' & E & _ & Hv & _); [by vm_compute|]. exists (mkTimer 3 0 0), s'.
  split; [by vm_compute|]. split; [exact E|exact Hv].
Defined.

Lemma run_until_exact_witness : Forall (fun t => due t <= 5 -> completed
  (match run_until sleeper 20 5 0 asleep [(7, 1); (3, 0)]%nat with Finished s _ => s | _ => new_sched end) t) (timers_ asleep).
Proof.
  eapply (run_until_exact sleeper 20 5 0 asleep [(7, 1); (3, 0)]%nat); [|by vm_compute|by vm_compute].
  destruct (until_spec (W := list (nat * nat)) sleeper 10 2 0 0 (trace TRunStart "" two_sleepers) [] asleep [(7, 1); (3, 0)]%nat) as [[_ _ W1 _] _];
    [by vm_compute|apply wf_trace, two_sleepers_wf|by vm_compute|done].
Defined.

Definition state_of (o : outcome nat Z (list (nat * nat))) : sched nat Z := match o with Finished s _ => s | _ => new_sched end.
Definition at_five : sched nat Z := state_of (run_until sleeper 20 5 0 two_sleepers []).
Definition at_nine : sched nat Z := state_of (run_until sleeper 20 9 0 at_five [(13, 3); (7, 1); (3, 0)]%nat).

Lemma run_windows_compose_witness : exists s2 w, run_until sleeper 40 9 0 two_sleepers [] = Finished s2 w /\ same at_nine s2.
Proof.
  destruct (run_windows_compose sleeper 20 20 5 9 two_sleepers [] at_five [(13, 3); (7, 1); (3, 0)]%nat at_nine
    [(17, 7); (13, 3); (7, 1); (3, 0)]%nat true) as [(s2 & E & Hs) _]; [done|by vm_compute|by vm_compute|].
  exists s2, [(17, 7); (13, 3); (7, 1); (3, 0)]%nat. split; [exact E|exact Hs].
Defined.

Lemma ready_eventually_resumed_witness : exists s' w' rest, until_loop sleeper 11 2 0 0 two_sleepers [] = until_loop sleeper 10 2 0 0 s' w' /\
  ready_ s' = (7%nat, 1) :: rest.
Proof.
  destruct (ready_eventually_resumed sleeper 1 (7%nat, 1) 10 2 two_sleepers []) as [E|(s' & w' & rest & E & Hr & _)]; [by vm_compute|by vm_compute in E|].
  by exists s', w', rest.
Defined.

(** A coroutine that spawns itself for ever. *)
Definition storm (h : nat) (w : list (nat * nat)) : turn nat Z (list (nat * nat)) := Spawn h (Return w).

Lemma run_until_backstop_witness : exists fuel, run_until storm fuel 5 1000 two_sleepers [] <> NoFuel.
Proof. by apply (run_until_backstop storm 5 1000 two_sleepers []). Defined.
