(* ===== verification/SimBus.v ===== *)
(** SimBus: the simulated network (sim/detail/SimBus.hpp, sim/SimNetwork.hpp) on the
    runtime of [Scheduler]: mailboxes, seeded faults, partitions, and one delivery
    coroutine per message copy.

    The bus runs inside the turns of coroutines, so its operations are programs of
    [turn]s in continuation-passing style over a world that holds the bus, the frames of
    the delivery coroutines and the users' data.  Users are arbitrary programs over the
    network interface ([prog]).  The draws of [IRandom] are read from a tape, so the
    probabilities of [LinkFaults] have no counterpart.  The parallel vectors of a
    mailbox are lists of pairs, and a retained payload keeps the sender it was handed
    over with.  A flight records the tick it was sent at and whether it was cut, and
    the world the order of deposits, for the theorems only. *)

From Stdlib Require Import ZArith Lia Sorting.Sorted.
From stdpp Require Import base list sorting numbers gmap strings pretty.
From S2P Require Import Prelude Core Scheduler.
#[local] Open Scope string_scope.
#[local] Open Scope list_scope.
#[local] Open Scope Z_scope.

(** ** Data *)

Record LinkFaults := mkFaults { latency_min : Z; latency_max : Z; reorder_jitter_max : Z }.

Definition default_faults : LinkFaults := mkFaults 1 1 0.

(** A message with its sender. *)
Definition mail : Type := Z * list byte.

Record Mailbox := mkMailbox { owner : Z; mb_ready : list mail; mb_waiters : list nat; mb_retained : list mail }.

Record bus := mkBus {
  faults_ : LinkFaults;
  mailboxes_ : list Mailbox;
  partition_side_a_ : list Z;
  partitioned_ : bool;
  send_seq_ : Z;
  tape_ : rng
}.

Definition new_bus (r : rng) : bus := mkBus default_faults [] [] false 0 r.

Definition set_mailboxes (l : list Mailbox) (b : bus) : bus :=
  mkBus (faults_ b) l (partition_side_a_ b) (partitioned_ b) (send_seq_ b) (tape_ b).
Definition set_tape (r : rng) (b : bus) : bus := mkBus (faults_ b) (mailboxes_ b) (partition_side_a_ b) (partitioned_ b) (send_seq_ b) r.
Definition set_faults (f : LinkFaults) (b : bus) : bus := mkBus f (mailboxes_ b) (partition_side_a_ b) (partitioned_ b) (send_seq_ b) (tape_ b).

(** ** Mailboxes, sorted by owner *)

Fixpoint mailbox_index (e : Z) (l : list Mailbox) : option nat :=
  match l with
  | [] => None
  | mb :: l' => if owner mb =? e then Some O else S <$> mailbox_index e l'
  end.

Fixpoint insert_sorted (mb : Mailbox) (l : list Mailbox) : list Mailbox :=
  match l with
  | [] => [mb]
  | m :: l' => if owner m <? owner mb then m :: insert_sorted mb l' else mb :: l
  end.

Definition add_node (e : Z) (b : bus) : bus :=
  match mailbox_index e (mailboxes_ b) with
  | Some _ => b
  | None => set_mailboxes (insert_sorted (mkMailbox e [] [] []) (mailboxes_ b)) b
  end.

Definition add_nodes (l : list Z) (b : bus) : bus := fold_left (fun b e => add_node e b) l b.

Definition get_mailbox (e : Z) (b : bus) : Mailbox :=
  match mailbox_index e (mailboxes_ b) ≫= fun i => mailboxes_ b !! i with Some mb => mb | None => mkMailbox e [] [] [] end.

(** Write a mailbox back after [mailbox(e)], which registers an unseen node. *)
Definition put_mailbox (e : Z) (mb : Mailbox) (b : bus) : bus :=
  let b := add_node e b in
  match mailbox_index e (mailboxes_ b) with Some i => set_mailboxes (<[i := mb]> (mailboxes_ b)) b | None => b end.

(** ** Partitions *)

(** Each element is moved left past the larger ones. *)
Fixpoint insert_id (key : Z) (rev_sorted : list Z) : list Z :=
  match rev_sorted with
  | [] => [key]
  | x :: l => if key <? x then x :: insert_id key l else key :: rev_sorted
  end.

Definition insertion_sort (l : list Z) : list Z := rev (fold_left (fun acc x => insert_id x acc) l []).

(** Keep the first of equal neighbours: [kept] is what was written so far, last first. *)
Fixpoint unique_from (kept : list Z) (l : list Z) : list Z :=
  match l with
  | [] => rev kept
  | x :: l' => match kept with
               | y :: _ => if negb (x =? y) then unique_from (x :: kept) l' else unique_from kept l'
               | [] => unique_from [x] l'
               end
  end.

Definition partition (side_a : list Z) (b : bus) : bus :=
  mkBus (faults_ b) (mailboxes_ b) (unique_from [] (insertion_sort side_a)) true (send_seq_ b) (tape_ b).

Definition heal (b : bus) : bus := mkBus (faults_ b) (mailboxes_ b) [] false (send_seq_ b) (tape_ b).

Fixpoint render_from (l : list Z) : string :=
  match l with
  | [] => "]"
  | x :: l' => "," +:+ pretty x +:+ render_from l'
  end.

Definition render_ids (ids : list Z) : string :=
  "sideA=[" +:+ match ids with [] => "]" | x :: l => pretty x +:+ render_from l end.

(** The binary search over the sorted side. *)
Fixpoint search (fuel : nat) (l : list Z) (lo hi : nat) (id : Z) : bool :=
  match fuel with
  | O => false
  | S fuel =>
      if (lo <? hi)%nat then
        let mid := (lo + (hi - lo) / 2)%nat in
        match l !! mid with
        | None => false
        | Some x => if x <? id then search fuel l (mid + 1) hi id else if id <? x then search fuel l lo mid id else true
        end
      else false
  end.

Definition in_side_a (id : Z) (b : bus) : bool := search (S (length (partition_side_a_ b))) (partition_side_a_ b) 0 (length (partition_side_a_ b)) id.

Definition is_blocked (from to : Z) (b : bus) : bool :=
  if negb (partitioned_ b) then false else negb (Bool.eqb (in_side_a from b) (in_side_a to b)).

(** ** Draws *)

Definition flip (b : bus) : bool * bus := let '(x, r) := chance (tape_ b) in (x, set_tape r b).

Definition draw_latency (b : bus) : Z * bus :=
  let lo := if 0 <? latency_min (faults_ b) then latency_min (faults_ b) else 1 in
  let hi := if lo <=? latency_max (faults_ b) then latency_max (faults_ b) else lo in
  let '(x, r) := uniform_range lo hi (tape_ b) in (x, set_tape r b).

Definition draw_jitter (b : bus) : Z * bus :=
  if reorder_jitter_max (faults_ b) <=? 0 then (0, b)
  else let '(x, r) := uniform_range 1 (reorder_jitter_max (faults_ b)) (tape_ b) in (x, set_tape r b).

(** ** The world *)

(** The program counter of a delivery coroutine: not started, parked on the timer of a
    state, or done (cut off at delivery or deposited). *)
Inductive fpc := PArmed | PWaiting (f : nat) | PDone (cut : bool).

Record Flight := mkFlight { fl_from : Z; fl_to : Z; fl_bytes : list byte; fl_lat : Z; fl_sseq : Z; fl_copy : Z; fl_sent : Z; fl_pc : fpc }.

Section simbus.
Context {U : Type} `{Countable U} {D : Type}.

Record world := mkWorld { w_bus : bus; w_flights : list Flight; w_log : list nat; w_user : D }.

Inductive val := VError (e : Error) | VMessage (m : mail).

(** A user coroutine or the delivery coroutine of a flight. *)
Notation handle := (U + nat)%type.
Notation nturn := (turn handle val world).

Definition set_bus (b : bus) (w : world) : world := mkWorld b (w_flights w) (w_log w) (w_user w).

Definition set_pc (i : nat) (pc : fpc) (w : world) : world :=
  match w_flights w !! i with
  | Some f => mkWorld (w_bus w)
      (<[i := mkFlight (fl_from f) (fl_to f) (fl_bytes f) (fl_lat f) (fl_sseq f) (fl_copy f) (fl_sent f) pc]> (w_flights w)) (w_log w) (w_user w)
  | None => w
  end.

Definition link (from to : Z) : string := "from=" +:+ pretty from +:+ " to=" +:+ pretty to.

(** ** Sending *)

Definition ready_error (e : Error) (k : nat -> nturn) : nturn := MakePromise (fun p => SetValue p (VError e) (k p)).

(** Spawn the delivery coroutine; [now] is the tick of the send. *)
Definition arm_delivery (now from to : Z) (bytes : list byte) (lat sseq copy : Z) (w : world) (k : world -> nturn) : nturn :=
  let fl := mkFlight from to bytes (if 0 <? lat then lat else 1) sseq copy now PArmed in
  Spawn (inr (length (w_flights w))) (k (mkWorld (w_bus w) (w_flights w ++ [fl]) (w_log w) (w_user w))).

Definition unavailable : Error := mkError Unavailable "partitioned link".

Definition send (from to : Z) (payload : list byte) (w : world) (k : world -> nat -> nturn) : nturn :=
  let b := w_bus w in
  let sseq := send_seq_ b in
  let b := mkBus (faults_ b) (mailboxes_ b) (partition_side_a_ b) (partitioned_ b) (u64 (sseq + 1)) (tape_ b) in
  if is_blocked from to b then
    Log ("net_send_blocked " +:+ link from to +:+ " s=" +:+ pretty sseq) (ready_error unavailable (k (set_bus b w)))
  else
    let '(drop, b) := flip b in
    let '(dup, b) := flip b in
    let '(base_lat, b) := draw_latency b in
    let '(reorder, b) := flip b in
    let '(jitter, b) := if reorder then draw_jitter b else (0, b) in
    Log ("net_send " +:+ link from to +:+ " s=" +:+ pretty sseq +:+ " bytes=" +:+ pretty (Zlen payload) +:+ " drop=" +:+ bit drop +:+
         " dup=" +:+ bit dup +:+ " lat=" +:+ pretty base_lat +:+ " reorder=" +:+ bit reorder +:+ " jit=" +:+ pretty jitter)
      (if drop then ready_error ok_error (k (set_bus b w))
       else
         Now (fun now =>
           arm_delivery now from to payload (base_lat + jitter) sseq 0 (set_bus b w) (fun w =>
             if dup then
               let '(dup_lat, b) := draw_latency (w_bus w) in
               arm_delivery now from to payload dup_lat sseq 1 (set_bus b w) (fun w => ready_error ok_error (k w))
             else ready_error ok_error (k w)))).

(** ** Receiving *)

Definition recv (me : Z) (w : world) (k : world -> nat -> nturn) : nturn :=
  let b := w_bus w in
  let mb := get_mailbox me b in
  MakePromise (fun p =>
    match mb_ready mb with
    | m :: rest =>
        let w := set_bus (put_mailbox me (mkMailbox (owner mb) rest (mb_waiters mb) (mb_retained mb ++ [m])) b) w in
        SetValue p (VMessage m) (k w p)
    | [] =>
        let w := set_bus (put_mailbox me (mkMailbox (owner mb) (mb_ready mb) (mb_waiters mb ++ [p]) (mb_retained mb)) b) w in
        Log ("net_recv_park at=" +:+ pretty me) (k w p)
    end).

(** ** Delivery *)

Definition deposit (i : nat) (fl : Flight) (w : world) (k : world -> nturn) : nturn :=
  let b := w_bus w in
  let '(from, to, bytes) := (fl_from fl, fl_to fl, fl_bytes fl) in
  if is_blocked from to b then
    Log ("net_drop_cut " +:+ link from to +:+ " s=" +:+ pretty (fl_sseq fl) +:+ " c=" +:+ pretty (fl_copy fl)) (k (set_pc i (PDone true) w))
  else
    let mb := get_mailbox to b in
    let done b := let w := set_pc i (PDone false) (set_bus b w) in mkWorld (w_bus w) (w_flights w) (w_log w ++ [i]) (w_user w) in
    Log ("net_deliver " +:+ link from to +:+ " s=" +:+ pretty (fl_sseq fl) +:+ " c=" +:+ pretty (fl_copy fl) +:+ " bytes=" +:+ pretty (Zlen bytes))
      match mb_waiters mb with
      | p :: rest =>
          let b := put_mailbox to (mkMailbox (owner mb) (mb_ready mb) rest (mb_retained mb ++ [(from, bytes)])) b in
          SetValue p (VMessage (from, bytes)) (k (done b))
      | [] => k (done (put_mailbox to (mkMailbox (owner mb) (mb_ready mb ++ [(from, bytes)]) (mb_waiters mb) (mb_retained mb)) b))
      end.

Definition delivery_task (i : nat) (w : world) : nturn :=
  match w_flights w !! i with
  | None => Return w
  | Some fl =>
      match fl_pc fl with
      | PArmed => Delay (fl_lat fl) (fun f => Await f (set_pc i (PWaiting f) w) (deposit i fl w Return))
      | PWaiting _ => deposit i fl w Return
      | PDone _ => Return w
      end
  end.

(** ** Users *)

(** A turn of a user coroutine: the operations of its network handle, the bus controls and
    the runtime. *)
Inductive prog :=
| UReturn (d : D)
| USend (to : Z) (payload : list byte) (k : nat -> prog)
| URecv (k : nat -> prog)
| UPartition (side_a : list Z) (k : prog)
| UHeal (k : prog)
| USetFaults (f : LinkFaults) (k : prog)
| UNow (k : Z -> prog)
| USpawn (u : U) (k : prog)
| UDelay (d : Z) (k : nat -> prog)
| UResult (f : nat) (k : bool * option val * Error -> prog)
| UAwait (f : nat) (d : D) (k : prog).

Definition set_user (d : D) (w : world) : world := mkWorld (w_bus w) (w_flights w) (w_log w) d.

(** [SimNetwork]: the handle of the node [me]. *)
Fixpoint compile (me : Z) (p : prog) (w : world) : nturn :=
  match p with
  | UReturn d => Return (set_user d w)
  | USend to payload k => send me to payload w (fun w f => compile me (k f) w)
  | URecv k => recv me w (fun w f => compile me (k f) w)
  | UPartition side_a k => 
      let b := partition side_a (w_bus w) in
      Log ("net_partition " +:+ render_ids (partition_side_a_ b)) (compile me k (set_bus b w))
  | UHeal k => Log "net_heal" (compile me k (set_bus (heal (w_bus w)) w))
  | USetFaults f k => compile me k (set_bus (set_faults f (w_bus w)) w)
  | UNow k => Now (fun now => compile me (k now) w)
  | USpawn u k => Spawn (inl u) (compile me k w)
  | UDelay d k => Delay d (fun f => compile me (k f) w)
  | UResult f k => Result f (fun r => compile me (k r) w)
  | UAwait f d k => Await f (set_user d w) (compile me k w)
  end.

Variable node : U -> Z.
Variable user : U -> D -> prog.

Definition system (h : handle) (w : world) : nturn :=
  match h with
  | inl u => compile (node u) (user u (w_user w)) w
  | inr i => delivery_task i w
  end.
End simbus.

Arguments world : clear implicits.
Arguments prog : clear implicits.

(** ** Partitions are sets *)

Lemma insert_id_perm x l : insert_id x l ≡ₚ x :: l.
Proof. induction l as [|y l IH]; cbn; [done|]. destruct (x <? y); [|done]. rewrite IH. apply perm_swap. Qed.

Lemma insert_id_sorted x l : StronglySorted Z.ge l -> StronglySorted Z.ge (insert_id x l).
Proof.
  induction 1 as [|y l Hs IH Hy]; cbn; [repeat constructor|]. destruct (Z.ltb_spec x y).
  - constructor; [done|]. rewrite insert_id_perm. constructor; [lia|done].
  - repeat constructor; try done; [lia|]. eapply Forall_impl; [exact Hy|]. cbn. lia.
Qed.

Lemma sort_fold l acc : StronglySorted Z.ge acc -> let r := fold_left (fun acc x => insert_id x acc) l acc in StronglySorted Z.ge r /\ r ≡ₚ l ++ acc.
Proof.
  revert acc. induction l as [|x l IH]; intros acc Ha; cbn; [done|]. destruct (IH (insert_id x acc)) as [H1 H2]; [by apply insert_id_sorted|].
  split; [done|]. cbn in H2. rewrite H2, insert_id_perm. by rewrite Permutation_middle.
Qed.

(** The sort, read backwards, is not increasing; the sweep keeps one of each run. *)
Lemma unique_spec l kept : StronglySorted Z.gt kept -> Sorted Z.le l -> (forall x y, head l = Some x -> head kept = Some y -> y <= x) ->
  StronglySorted Z.lt (unique_from kept l) /\ forall z, z ∈ unique_from kept l <-> z ∈ kept \/ z ∈ l.
Proof.
  revert kept. induction l as [|x l IH]; intros kept Hk Hl Hh; cbn [unique_from].
  - split; [|intros z; rewrite list_elem_of_In, <- in_rev, <- list_elem_of_In; set_solver].
    clear -Hk. induction Hk as [|a l Hs IH Ha]; cbn; [constructor|]. apply StronglySorted_app_2; [|done|repeat constructor].
    intros u v Hu%list_elem_of_In%in_rev%list_elem_of_In ->%list_elem_of_singleton. rewrite Forall_forall in Ha. specialize (Ha u Hu). lia.
  - apply Sorted_inv in Hl as [Hl Hr]. assert (Hnext : forall y, head l = Some y -> x <= y) by (intros y; destruct l; [done|]; inversion Hr; naive_solver).
    destruct kept as [|y kept].
    + destruct (IH [x]) as [H1 H2]; [repeat constructor|done|intros ? ? ? [= <-]; by apply Hnext|]. split; [done|]. intros z. rewrite H2. set_solver.
    + pose proof (Hh x y eq_refl eq_refl) as Hxy. destruct (Z.eqb_spec x y) as [->|Hne]; cbn [negb].
      * destruct (IH (y :: kept)) as [H1 H2]; [done|done|intros ? ? ? [= <-]; by apply Hnext|]. split; [done|]. intros z. rewrite H2. set_solver.
      * destruct (IH (x :: y :: kept)) as [H1 H2]; [|done|intros ? ? ? [= <-]; by apply Hnext|].
        { constructor; [done|]. inversion Hk as [|? ? Hk' Hy]; subst. constructor; [lia|]. eapply Forall_impl; [exact Hy|]. cbn. lia. }
        split; [done|]. intros z. rewrite H2. set_solver.
Qed.

Lemma side_spec l : let r := unique_from [] (insertion_sort l) in StronglySorted Z.lt r /\ forall z, z ∈ r <-> z ∈ l.
Proof.
  destruct (sort_fold l []) as [H1 H2]; [constructor|]. cbn zeta in *. unfold insertion_sort. set (r := fold_left _ l []) in *.
  destruct (unique_spec (rev r) []) as [H3 H4]; [constructor| |done|].
  - apply StronglySorted_Sorted. clearbody r. clear -H1. induction H1 as [|a k Hs IH Ha]; cbn; [constructor|]. apply StronglySorted_app_2; [|done|repeat constructor].
    intros u v Hu%list_elem_of_In%in_rev%list_elem_of_In ->%list_elem_of_singleton. rewrite Forall_forall in Ha. specialize (Ha u Hu). lia.
  - split; [done|]. intros z. rewrite H4, <- Permutation_rev, H2. set_solver.
Qed.

Lemma search_spec fuel l lo hi id : StronglySorted Z.lt l -> (hi <= length l)%nat -> (hi - lo < fuel)%nat ->
  (forall i x, l !! i = Some x -> (i < lo)%nat -> x < id) -> (forall i x, l !! i = Some x -> (hi <= i)%nat -> id < x) ->
  search fuel l lo hi id = true <-> id ∈ l.
Proof.
  intros Hs. revert lo hi. induction fuel as [|fuel IH]; intros lo hi Hh Hf Hl Hu; [lia|]. cbn [search]. destruct (Nat.ltb_spec lo hi) as [Hlt|Hge].
  - set (mid := (lo + (hi - lo) / 2)%nat). assert (Hm : (lo <= mid < hi)%nat).
    { unfold mid. pose proof (Nat.div_lt_upper_bound (hi - lo) 2 (hi - lo)). lia. }
    destruct (lookup_lt_is_Some_2 l mid ltac:(lia)) as [x Hx]. rewrite Hx. destruct (Z.ltb_spec x id); [|destruct (Z.ltb_spec id x)].
    + apply IH; [lia|lia| |done]. intros i y Hy Hi. destruct (decide (i = mid)) as [->|]; [congruence|].
      pose proof (sorted_lookup Z.lt l i mid y x Hs Hy Hx ltac:(lia)). lia.
    + apply IH; [lia|lia|done|]. intros i y Hy Hi. destruct (decide (i = mid)) as [->|]; [congruence|].
      pose proof (sorted_lookup Z.lt l mid i x y Hs Hx Hy ltac:(lia)). lia.
    + split; [|done]. intros _. assert (x = id) as <- by lia. by eapply list_elem_of_lookup_2.
  - split; [done|]. intros [i Hi]%list_elem_of_lookup. destruct (decide (i < lo)%nat) as [Hi'|Hi']; [specialize (Hl i id Hi Hi')|specialize (Hu i id Hi ltac:(lia))]; lia.
Qed.

Lemma in_side_a_spec id side b : in_side_a id (partition side b) = bool_decide (id ∈ side).
Proof.
  unfold in_side_a, partition. cbn [partition_side_a_]. destruct (side_spec side) as [Hs He]. cbn zeta in *. set (l := unique_from [] (insertion_sort side)) in *.
  apply eq_true_iff_eq. rewrite bool_decide_eq_true, <- He. apply search_spec; [done|lia|lia|lia|].
  intros i x Hx%lookup_lt_Some Hi. lia.
Qed.

Lemma blocked_spec from to side b : is_blocked from to (partition side b) = negb (Bool.eqb (bool_decide (from ∈ side)) (bool_decide (to ∈ side))).
Proof. unfold is_blocked. rewrite !in_side_a_spec. done. Qed.

(** ** Mailboxes *)

Definition first_of (e : Z) (l : list Mailbox) : option Mailbox := mailbox_index e l ≫= fun i => l !! i.

Lemma first_of_cons e m l : first_of e (m :: l) = if owner m =? e then Some m else first_of e l.
Proof. unfold first_of. cbn. destruct (owner m =? e); [done|]. by destruct (mailbox_index e l). Qed.

Lemma first_of_none e l : mailbox_index e l = None <-> first_of e l = None.
Proof.
  induction l as [|m l IH]; [done|]. rewrite first_of_cons. cbn. destruct (owner m =? e); [done|].
  destruct (mailbox_index e l) eqn:E; cbn; rewrite <- IH; done.
Qed.

Lemma first_of_owner e l mb : first_of e l = Some mb -> owner mb = e.
Proof. induction l as [|m l IH]; [done|]. rewrite first_of_cons. destruct (Z.eqb_spec (owner m) e); [by intros [= <-]|done]. Qed.

Lemma first_of_insert e mb l : first_of (owner mb) l = None -> first_of e (insert_sorted mb l) = if owner mb =? e then Some mb else first_of e l.
Proof.
  induction l as [|m l IH]; cbn [insert_sorted]; [intros _; rewrite first_of_cons; by destruct (owner mb =? e)|].
  rewrite first_of_cons. destruct (Z.eqb_spec (owner m) (owner mb)); [done|]. intros Hn. destruct (owner m <? owner mb); rewrite !first_of_cons; [|done].
  rewrite IH by done. destruct (Z.eqb_spec (owner m) e), (Z.eqb_spec (owner mb) e); congruence || done.
Qed.

Lemma first_of_update e i mb l : mailbox_index (owner mb) l = Some i -> first_of e (<[i := mb]> l) = if owner mb =? e then Some mb else first_of e l.
Proof.
  revert i. induction l as [|m l IH]; intros i; cbn [mailbox_index]; [done|]. destruct (Z.eqb_spec (owner m) (owner mb)) as [Em|Em].
  - intros [= <-]. cbn [insert list_insert]. rewrite !first_of_cons, Em. by destruct (owner mb =? e).
  - destruct (mailbox_index (owner mb) l) as [j|] eqn:Ej; [|done]. intros [= <-]. cbn [insert list_insert]. rewrite !first_of_cons, IH by done.
    destruct (Z.eqb_spec (owner m) e), (Z.eqb_spec (owner mb) e); congruence || done.
Qed.

Definition empty_box (e : Z) : Mailbox := mkMailbox e [] [] [].

Lemma get_mailbox_eq e b : get_mailbox e b = default (empty_box e) (first_of e (mailboxes_ b)).
Proof. unfold get_mailbox, first_of. by destruct (mailbox_index e (mailboxes_ b) ≫= _). Qed.

Lemma get_mailbox_owner e b : owner (get_mailbox e b) = e.
Proof. rewrite get_mailbox_eq. destruct (first_of e (mailboxes_ b)) eqn:E; [|done]. by eapply first_of_owner. Qed.

Lemma get_add_node e e' b : get_mailbox e (add_node e' b) = get_mailbox e b.
Proof.
  unfold add_node. destruct (mailbox_index e' (mailboxes_ b)) eqn:E; [done|]. rewrite !get_mailbox_eq. cbn [mailboxes_ set_mailboxes].
  apply first_of_none in E. rewrite first_of_insert by done. cbn [owner]. destruct (Z.eqb_spec e' e) as [->|]; [by rewrite E|done].
Qed.

(** Writing a mailbox back changes that mailbox and no other. *)
Lemma get_put e e' mb b : owner mb = e' -> get_mailbox e (put_mailbox e' mb b) = if e' =? e then mb else get_mailbox e b.
Proof.
  intros <-. rewrite <- (get_add_node e (owner mb) b). unfold put_mailbox. set (b1 := add_node (owner mb) b).
  assert (Hi : exists i, mailbox_index (owner mb) (mailboxes_ b1) = Some i).
  { unfold b1, add_node. destruct (mailbox_index (owner mb) (mailboxes_ b)) as [i|] eqn:E; [by exists i|]. cbn.
    destruct (mailbox_index (owner mb) (insert_sorted (empty_box (owner mb)) (mailboxes_ b))) eqn:E2; [by eexists|].
    apply first_of_none in E, E2. rewrite first_of_insert in E2 by done. cbn in E2. by rewrite Z.eqb_refl in E2. }
  destruct Hi as [i Hi]. rewrite Hi, !get_mailbox_eq. cbn [mailboxes_ set_mailboxes]. rewrite (first_of_update e i mb) by done. by destruct (owner mb =? e).
Qed.

(** Every message ever deposited for [e], in order: those handed over, then those waiting. *)
Definition deposits (e : Z) (b : bus) : list mail := mb_retained (get_mailbox e b) ++ mb_ready (get_mailbox e b).

(** ** The invariant of a network on the runtime *)

Section facts.
Context {U : Type} `{Countable U} {D : Type}.
Implicit Types s : sched (U + nat) val.
Implicit Types w : world D.
Notation nturn := (turn (U + nat) val (world D)).

(** What the flight [j] deposits for [e]. *)
Definition deliver (fls : list Flight) (e : Z) (j : nat) : option mail :=
  fl ← fls !! j; if fl_to fl =? e then Some (fl_from fl, fl_bytes fl) else None.

Lemma deliver_app fls l e j : (j < length fls)%nat -> deliver (fls ++ l) e j = deliver fls e j.
Proof. intros Hj. unfold deliver. by rewrite lookup_app_l. Qed.

(** The coroutine [h] is parked on a timer due at [d]. *)
Definition parked s (f : nat) (d : Z) (h : U + nat) : Prop :=
  exists t st, t ∈ timers_ s /\ tm_state t = f /\ due t = d /\
    states_ s !! f = Some st /\ st_ready st = false /\ timer_owned st = true /\ st_waiter st = Some h.

Definition flight_ok s (j : nat) (fl : Flight) : Prop :=
  match fl_pc fl with
  | PArmed => inr j ∈ handles s /\ fl_sent fl = vtime_ s
  | PWaiting f => inr j ∈ handles s \/ parked s f (fl_sent fl + fl_lat fl) (inr j)
  | PDone _ => True
  end.

Definition tag (fl : Flight) : Z * Z := (fl_sseq fl, fl_copy fl).

(** A mailbox has no message waiting while a receiver waits; what was deposited for a node is
    what the logged flights carry to it, in that order; each flight is logged once,
    exactly when it is deposited; copies are told apart; every flight but [ex] is on the
    ready queue or parked until it is due. *)
Record net_inv (ex : option nat) s w : Prop := {
  ni_mail : forall e, mb_waiters (get_mailbox e (w_bus w)) <> [] -> mb_ready (get_mailbox e (w_bus w)) = [];
  ni_dep : forall e, deposits e (w_bus w) = omap (deliver (w_flights w) e) (w_log w);
  ni_nodup : NoDup (w_log w);
  ni_log : forall j, j ∈ w_log w <-> exists fl, w_flights w !! j = Some fl /\ fl_pc fl = PDone false;
  ni_tags : NoDup (map tag (w_flights w));
  ni_flights : Forall (fun fl => 0 <= fl_sseq fl < send_seq_ (w_bus w) /\ (fl_copy fl = 0 \/ fl_copy fl = 1) /\ 0 < fl_lat fl) (w_flights w);
  ni_count : 0 <= send_seq_ (w_bus w) <= Zlen (states_ s);
  ni_ok : forall j fl, w_flights w !! j = Some fl -> Some j <> ex -> flight_ok s j fl
}.

Lemma handles_evolves s s' : evolves s s' -> exists l, handles s' = handles s ++ l.
Proof. intros [[l Hl] _ _ _ _ _]. exists (map fst l). unfold handles. by rewrite Hl, map_app. Qed.

Lemma flight_ok_evolves s s' j fl : evolves s s' -> flight_ok s j fl -> flight_ok s' j fl.
Proof.
  intros Hev. destruct (handles_evolves s s' Hev) as [l Hl]. destruct Hev as [_ [k Hk] Hv _ Hp _]. unfold flight_ok.
  destruct (fl_pc fl) as [|f|]; [|intros [Hi|(t & st & Ht & E1 & E2 & E3 & E4 & E5 & E6)]|done].
  - intros [Hi Hs]. split; [rewrite Hl; set_solver|congruence].
  - left. rewrite Hl. set_solver.
  - right. exists t, st. split_and!; try done; [rewrite Hk; set_solver|]. by eapply Hp.
Qed.

(** Operations that leave the mailboxes, the flights and the count of sends alone. *)
Lemma inv_evolves ex s s' w b' : evolves s s' -> net_inv ex s w -> mailboxes_ b' = mailboxes_ (w_bus w) -> send_seq_ b' = send_seq_ (w_bus w) ->
  net_inv ex s' (set_bus b' w).
Proof.
  intros Hev [N1 N2 N3 N4 N5 N6 N7 N8] Hm Hs.
  assert (Hg : forall e, get_mailbox e b' = get_mailbox e (w_bus w)) by (intros e; by rewrite !get_mailbox_eq, Hm).
  split; cbn [w_bus w_flights w_log set_bus]; unfold deposits; rewrite ?Hs; try done.
  - intros e. rewrite Hg. apply N1.
  - intros e. rewrite Hg. apply N2.
  - destruct (ev_states _ _ Hev) as [Hl _]. unfold Zlen in *. lia.
  - intros j fl Hj Hne. eapply flight_ok_evolves; [done|]. by apply N8.
Qed.

Lemma set_bus_id w : set_bus (w_bus w) w = w.
Proof. by destruct w. Qed.

Lemma set_user_inv ex s w d : net_inv ex s w -> net_inv ex s (set_user d w).
Proof. intros []. by split. Qed.

(** A send that arms the flights [l]. *)
Lemma inv_armed ex s s' w b' l : evolves s s' -> net_inv ex s w -> bounded s' -> (length (states_ s) < length (states_ s'))%nat ->
  mailboxes_ b' = mailboxes_ (w_bus w) -> send_seq_ b' = u64 (send_seq_ (w_bus w) + 1) ->
  NoDup (map fl_copy l) ->
  Forall (fun fl => fl_pc fl = PArmed /\ fl_sent fl = vtime_ s /\ 0 < fl_lat fl /\ fl_sseq fl = send_seq_ (w_bus w) /\ (fl_copy fl = 0 \/ fl_copy fl = 1)) l ->
  (forall i fl, l !! i = Some fl -> inr (length (w_flights w) + i)%nat ∈ handles s') -> (forall j, ex = Some j -> (j < length (w_flights w))%nat) ->
  net_inv ex s' (mkWorld b' (w_flights w ++ l) (w_log w) (w_user w)).
Proof.
  intros Hev [N1 N2 N3 N4 N5 N6 N7 N8] Hb Hlen Hm Hs Hcopy Hl Hh Hex.
  assert (Hg : forall e, get_mailbox e b' = get_mailbox e (w_bus w)) by (intros e; by rewrite !get_mailbox_eq, Hm).
  assert (Hu : send_seq_ b' = send_seq_ (w_bus w) + 1) by (rewrite Hs; apply u64_id; unfold bounded, Zlen in *; lia).
  assert (Hlog : forall j, j ∈ w_log w -> (j < length (w_flights w))%nat) by (intros j (fl & Hj%lookup_lt_Some & _)%N4; done).
  split; cbn [w_bus w_flights w_log]; unfold deposits; rewrite ?Hu; try done.
  - intros e. rewrite Hg. apply N1.
  - intros e. rewrite Hg. fold (deposits e (w_bus w)). rewrite N2. clear -Hlog. induction (w_log w) as [|j l' IH]; [done|]. cbn [omap list_omap].
    rewrite IH by (intros; apply Hlog; set_solver). by rewrite deliver_app by (apply Hlog; set_solver).
  - intros j. rewrite N4. split; intros (fl & Hj & Hp); exists fl; (split; [|done]).
    + by rewrite lookup_app_l by (by eapply lookup_lt_Some).
    + apply lookup_app_Some in Hj as [Hj|[_ Hj]]; [done|]. rewrite Forall_lookup in Hl. destruct (Hl _ _ Hj) as (E & _). congruence.
  - rewrite map_app. apply NoDup_app. split_and!; [done| |].
    + intros x (fl & -> & Hf)%list_elem_of_fmap (fl' & E & Hf')%list_elem_of_fmap. rewrite Forall_forall in N6, Hl.
      destruct (N6 _ Hf) as ((_ & ?) & _). destruct (Hl _ Hf') as (_ & _ & _ & ? & _). injection E. lia.
    + clear -Hcopy. induction l as [|fl l IH]; cbn [map] in *; [constructor|]. apply NoDup_cons in Hcopy as [H1 H2]. apply NoDup_cons. split; [|by apply IH].
      intros (fl' & E & Hf)%list_elem_of_fmap. apply H1. injection E as _ ->. apply list_elem_of_fmap. by exists fl'.
  - apply Forall_app_2; [eapply Forall_impl; [exact N6|]; cbn; naive_solver lia|]. eapply Forall_impl; [exact Hl|]. cbn. intros fl (_ & _ & ? & -> & ?). lia.
  - unfold Zlen in *. lia.
  - intros j fl Hj Hne. apply lookup_app_Some in Hj as [Hj|[Hge Hj]]; [eapply flight_ok_evolves; [done|]; by apply N8|].
    rewrite Forall_lookup in Hl. destruct (Hl _ _ Hj) as (E & Es & _). unfold flight_ok. rewrite E. specialize (Hh _ _ Hj). rewrite Es, (ev_vt _ _ Hev).
    by replace (length (w_flights w) + (j - length (w_flights w)))%nat with j in Hh by lia.
Qed.

(** ** Operations *)

Lemma exec_set_value h f v (k : nturn) s r : exec h (SetValue f v k) s = Some r -> exists s1, exec h k s1 = Some r /\ evolves s s1 /\ length (states_ s1) = length (states_ s).
Proof.
  cbn [exec]. destruct (program_owned f s) as [[]|] eqn:Eo; [|done]. cbn. destruct (complete f (Some v) ok_error s) as [s1|] eqn:Ec; [|done]. intros E.
  exists s1. split_and!; [done|by eapply evolves_complete|by eapply complete_length].
Qed.

Lemma exec_ready_error h e (k : nat -> nturn) s r : exec h (ready_error e k) s = Some r ->
  exists s1 p, exec h (k p) s1 = Some r /\ evolves s s1 /\ length (states_ s1) = S (length (states_ s)).
Proof.
  unfold ready_error. cbn [exec]. pose proof (evolves_promise false s) as Hp. destruct (make_promise false s) as [p s0] eqn:Em. intros E%exec_set_value.
  destruct E as (s1 & E & Hev & Hl). exists s1, p. split_and!; [done|by etrans|]. rewrite Hl. injection Em as _ <-. cbn. rewrite length_app. cbn. lia.
Qed.

Lemma handles_spawn h s : handles (spawn h s) = handles s ++ [h].
Proof.
  unfold spawn, handles. cbn [push ready_]. rewrite map_app. f_equal.
  match goal with |- map fst (ready_ (trace_if ?a ?p ?x)) = _ => by destruct (trace_if_fields a p x) as (_ & -> & _) end.
Qed.

Lemma spawn_states h s : states_ (spawn h s) = states_ s.
Proof.
  unfold spawn. cbn [push states_]. match goal with |- states_ (trace_if ?a ?p ?x) = _ => by destruct (trace_if_fields a p x) as (_ & _ & -> & _) end.
Qed.

Lemma flip_keeps b x b' : flip b = (x, b') -> mailboxes_ b' = mailboxes_ b /\ send_seq_ b' = send_seq_ b.
Proof. unfold flip. destruct (chance (tape_ b)). by intros [= _ <-]. Qed.

Lemma latency_keeps b x b' : draw_latency b = (x, b') -> mailboxes_ b' = mailboxes_ b /\ send_seq_ b' = send_seq_ b.
Proof. unfold draw_latency. destruct (uniform_range _ _ _). by intros [= _ <-]. Qed.

Lemma jitter_keeps (c : bool) b x b' : (if c then draw_jitter b else (0, b)) = (x, b') -> mailboxes_ b' = mailboxes_ b /\ send_seq_ b' = send_seq_ b.
Proof.
  destruct c; [|by intros [= _ <-]]. unfold draw_jitter. destruct (_ <=? _); [by intros [= _ <-]|]. destruct (uniform_range _ _ _). by intros [= _ <-].
Qed.

(** What an operation of a turn establishes: the turn goes on from a later state in which
    the invariant still holds. *)
Definition continues (ex : option nat) s w s1 w1 : Prop :=
  evolves s s1 /\ (net_inv ex s w -> bounded s1 -> (forall j, ex = Some j -> (j < length (w_flights w))%nat) -> net_inv ex s1 w1) /\
  (length (w_flights w) <= length (w_flights w1))%nat.

Lemma continues_trans ex s w s1 w1 s2 w2 : continues ex s w s1 w1 -> continues ex s1 w1 s2 w2 -> continues ex s w s2 w2.
Proof.
  intros (E1 & I1 & L1) (E2 & I2 & L2). split; [by etrans|]. split; [|lia]. intros Hi Hb Hex. apply I2; [|done|].
  - apply I1; [done| |done]. eapply bounded_grow; [apply E2|done].
  - intros j Hj. specialize (Hex j Hj). lia.
Qed.

Lemma continues_evolves ex s w s1 b : evolves s s1 -> mailboxes_ b = mailboxes_ (w_bus w) -> send_seq_ b = send_seq_ (w_bus w) ->
  continues ex s w s1 (set_bus b w).
Proof. intros Hev Hm Hs. split; [done|]. split; [|done]. intros Hi _ _. by eapply inv_evolves. Qed.

Lemma continues_same ex s w s1 : evolves s s1 -> continues ex s w s1 w.
Proof. intros Hev. rewrite <- (set_bus_id w) at 2. by apply continues_evolves. Qed.

Lemma exec_send ex h from to payload w (k : world D -> nat -> nturn) s r : exec h (send from to payload w k) s = Some r ->
  exists s1 w1 f, exec h (k w1 f) s1 = Some r /\ continues ex s w s1 w1.
Proof.
  unfold send. cbn zeta. set (b0 := mkBus _ _ _ _ _ _).
  assert (Hplain : forall b s1 s2, mailboxes_ b = mailboxes_ b0 -> send_seq_ b = send_seq_ b0 -> evolves s s1 -> evolves s1 s2 -> length (states_ s2) = S (length (states_ s1)) ->
    continues ex s w s2 (set_bus b w)).
  { intros b s1 s2 Hm Hs H1 H2 Hl. split; [by etrans|]. split; [|done]. intros Hi Hb Hex. pose proof (ev_states _ _ H1) as [Hl1 _].
    pose proof (inv_armed ex s s2 w b [] ltac:(by etrans) Hi Hb ltac:(lia) Hm Hs) as Hn. rewrite app_nil_r in Hn. apply Hn; [constructor|constructor|done|done]. }
  destruct (is_blocked from to b0).
  - cbn [exec]. intros (s1 & p & E & Hev & Hl)%exec_ready_error. exists s1, (set_bus b0 w), p. split; [done|].
    eapply Hplain; [done|done|apply evolves_trace|done|done].
  - destruct (flip b0) as [drop b1] eqn:E1. destruct (flip b1) as [dup b2] eqn:E2. destruct (draw_latency b2) as [base_lat b3] eqn:E3.
    destruct (flip b3) as [reorder b4] eqn:E4. destruct (if reorder then draw_jitter b4 else (0, b4)) as [jitter b5] eqn:E5.
    apply flip_keeps in E1 as [M1 S1], E2 as [M2 S2], E4 as [M4 S4]. apply latency_keeps in E3 as [M3 S3]. apply jitter_keeps in E5 as [M5 S5].
    cbn [exec]. set (s0 := trace _ _ s). assert (Hev0 : evolves s s0) by apply evolves_trace.
    destruct drop; [intros (s1 & p & E & Hev & Hl)%exec_ready_error; exists s1, (set_bus b5 w), p; split; [done|]; eapply Hplain; [congruence|congruence|exact Hev0|done|done]|].
    cbn [exec]. unfold arm_delivery at 1. cbn [exec w_flights w_bus w_log w_user set_bus].
    set (n := length (w_flights w)). set (lat0 := if 0 <? base_lat + jitter then base_lat + jitter else 1). set (fl0 := mkFlight from to payload lat0 _ 0 _ PArmed).
    assert (Hlat : forall x, 0 < (if 0 <? x then x else 1)) by (intros x; destruct (0 <? x) eqn:E; lia).
    destruct dup.
    + destruct (draw_latency b5) as [dup_lat b6] eqn:E6. apply latency_keeps in E6 as [M6 S6].
      unfold arm_delivery. cbn [exec w_flights w_bus w_log w_user set_bus]. rewrite length_app. cbn [length]. fold n.
      intros (s1 & p & E & Hev & Hl)%exec_ready_error. eexists s1, _, p. split; [exact E|].
      assert (Hev2 : evolves s (spawn (inr (n + 1)%nat) (spawn (inr n) s0))) by (etrans; [exact Hev0|]; etrans; apply evolves_spawn).
      split; [by etrans|]. split; [|cbn; rewrite !length_app; lia]. intros Hi Hb Hex. rewrite <- app_assoc. rewrite !spawn_states in Hl.
      destruct (handles_evolves _ _ Hev) as [l' Hl']. rewrite !handles_spawn in Hl'.
      apply (inv_armed ex s); [by etrans|done|done|rewrite Hl; cbn; lia|by rewrite M6, M5, M4, M3, M2, M1|by rewrite S6, S5, S4, S3, S2, S1| | | |done].
      * by repeat constructor; set_solver.
      * cbn [app]; rewrite !Forall_cons; cbn; split_and!; try done; try apply Hlat; auto.
      * intros [|[|i]] fl Hf; [| |done]; cbn; rewrite Hl'; rewrite ?Nat.add_0_r; set_solver.
    + intros (s1 & p & E & Hev & Hl)%exec_ready_error. eexists s1, _, p. split; [exact E|].
      assert (Hev2 : evolves s (spawn (inr n) s0)) by (etrans; [exact Hev0|apply evolves_spawn]).
      split; [by etrans|]. split; [|cbn; rewrite !length_app; lia]. intros Hi Hb Hex. rewrite !spawn_states in Hl.
      destruct (handles_evolves _ _ Hev) as [l' Hl']. rewrite !handles_spawn in Hl'.
      apply (inv_armed ex s); [by etrans|done|done|rewrite Hl; cbn; lia|by rewrite M5, M4, M3, M2, M1|by rewrite S5, S4, S3, S2, S1| | | |done].
      * by repeat constructor; set_solver.
      * cbn [app]; rewrite !Forall_cons; cbn; split_and!; try done; try apply Hlat; auto.
      * intros [|i] fl Hf; [|done]; cbn; rewrite Hl'; rewrite ?Nat.add_0_r; set_solver.
Qed.

(** ** Mailbox operations *)

Lemma put_keeps e mb b : send_seq_ (put_mailbox e mb b) = send_seq_ b.
Proof.
  unfold put_mailbox. assert (E : send_seq_ (add_node e b) = send_seq_ b) by (unfold add_node; by destruct (mailbox_index e (mailboxes_ b))).
  by destruct (mailbox_index e (mailboxes_ (add_node e b))).
Qed.

Lemma deposits_put e e' mb b : owner mb = e' -> deposits e (put_mailbox e' mb b) = if e' =? e then mb_retained mb ++ mb_ready mb else deposits e b.
Proof. intros Ho. unfold deposits. rewrite !get_put by done. by destruct (e' =? e). Qed.

(** Handing messages over or parking receivers: the deposits stay. *)
Lemma inv_put ex s w e mb : net_inv ex s w -> owner mb = e -> (mb_waiters mb <> [] -> mb_ready mb = []) ->
  mb_retained mb ++ mb_ready mb = deposits e (w_bus w) -> net_inv ex s (set_bus (put_mailbox e mb (w_bus w)) w).
Proof.
  intros [N1 N2 N3 N4 N5 N6 N7 N8] Ho Hw Hd. split; cbn [w_bus w_flights w_log set_bus]; rewrite ?put_keeps; try done.
  - intros e'. rewrite get_put by done. destruct (e =? e'); [done|apply N1].
  - intros e'. rewrite deposits_put by done. destruct (Z.eqb_spec e e') as [<-|]; [|apply N2]. by rewrite Hd, N2.
Qed.

Lemma exec_recv ex h me w (k : world D -> nat -> nturn) s r : exec h (recv me w k) s = Some r ->
  exists s1 w1 f, exec h (k w1 f) s1 = Some r /\ continues ex s w s1 w1.
Proof.
  unfold recv. cbn [exec]. pose proof (evolves_promise false s) as Hp. destruct (make_promise false s) as [p s0]. cbn [snd] in Hp.
  set (mb := get_mailbox me (w_bus w)). destruct (mb_ready mb) as [|m rest] eqn:Er.
  - cbn [exec]. intros E. eexists _, _, p. split; [exact E|]. assert (Hev : forall a q, evolves s (trace a q s0)) by (intros a q; etrans; [exact Hp|apply evolves_trace]).
    split; [apply Hev|]. split; [|done]. intros Hi _ _. apply (inv_put ex _ w me); [|apply get_mailbox_owner|done|].
    + rewrite <- (set_bus_id w). eapply inv_evolves; [apply Hev|done..].
    + cbn. unfold deposits. fold mb. by rewrite Er.
  - intros (s1 & E & Hev & _)%exec_set_value. eexists s1, _, p. split; [exact E|]. split; [by etrans|]. split; [|done]. intros Hi _ _.
    apply (inv_put ex _ w me); [|apply get_mailbox_owner| |].
    + rewrite <- (set_bus_id w). apply (inv_evolves ex s); [by etrans|done..].
    + cbn. intros Hw. pose proof (ni_mail _ _ _ Hi me Hw) as Hm. fold mb in Hm. congruence.
    + cbn. unfold deposits. fold mb. by rewrite Er, <- app_assoc.
Qed.

(** ** Flights *)

Definition with_pc (fl : Flight) (pc : fpc) : Flight :=
  mkFlight (fl_from fl) (fl_to fl) (fl_bytes fl) (fl_lat fl) (fl_sseq fl) (fl_copy fl) (fl_sent fl) pc.

Lemma deliver_pc fls i fl pc e j : fls !! i = Some fl -> deliver (<[i := with_pc fl pc]> fls) e j = deliver fls e j.
Proof.
  intros Hi. unfold deliver. destruct (decide (i = j)) as [<-|Hne]; [|by rewrite list_lookup_insert_ne].
  rewrite list_lookup_insert_eq by (by eapply lookup_lt_Some). by rewrite Hi.
Qed.

Lemma omap_ext {A B} (f g : A -> option B) (l : list A) : (forall x, x ∈ l -> f x = g x) -> omap f l = omap g l.
Proof.
  induction l as [|x l IH]; intros Hx; [done|]. cbn [omap list_omap]. rewrite Hx by set_solver. by rewrite IH by (intros; apply Hx; set_solver).
Qed.

(** The fields of a flight other than its counter, after a change of the counter. *)
Lemma tags_pc fls i fl pc : fls !! i = Some fl -> map tag (<[i := with_pc fl pc]> fls) = map tag fls.
Proof.
  intros Hi. change (map tag) with (fmap (M := list) tag). rewrite list_fmap_insert. apply list_insert_id. by rewrite list_lookup_fmap, Hi.
Qed.

Lemma forall_pc (P : Flight -> Prop) fls i fl pc : (forall f, P f -> P (with_pc f pc)) -> fls !! i = Some fl -> Forall P fls -> Forall P (<[i := with_pc fl pc]> fls).
Proof. intros Hp Hi Hf. apply Forall_insert; [done|]. apply Hp. rewrite Forall_lookup in Hf. by eapply Hf. Qed.

(** A flight that moves on without being deposited. *)
Lemma inv_pc s w i fl pc : net_inv (Some i) s w -> w_flights w !! i = Some fl -> fl_pc fl <> PDone false -> pc <> PDone false ->
  flight_ok s i (with_pc fl pc) -> net_inv None s (set_pc i pc w).
Proof.
  intros [N1 N2 N3 N4 N5 N6 N7 N8] Hi Hp Hp' Hok. unfold set_pc. rewrite Hi. fold (with_pc fl pc). split; cbn [w_bus w_flights w_log]; try done.
  - intros e. rewrite N2. apply omap_ext. intros j _. by rewrite deliver_pc.
  - intros j. rewrite N4. destruct (decide (i = j)) as [<-|Hne]; [|by rewrite list_lookup_insert_ne].
    rewrite list_lookup_insert_eq by (by eapply lookup_lt_Some). split; intros (x & Hx & Hd); [congruence|]. injection Hx as <-. done.
  - by rewrite tags_pc.
  - by apply forall_pc.
  - intros j x Hj _. destruct (decide (i = j)) as [<-|Hne].
    + rewrite list_lookup_insert_eq in Hj by (by eapply lookup_lt_Some). injection Hj as <-. done.
    + rewrite list_lookup_insert_ne in Hj by done. apply N8; [done|congruence].
Qed.

(** A flight that is deposited. *)
Lemma inv_deposited s w i fl mb : net_inv (Some i) s w -> w_flights w !! i = Some fl -> fl_pc fl <> PDone false -> owner mb = fl_to fl ->
  (mb_waiters mb <> [] -> mb_ready mb = []) -> mb_retained mb ++ mb_ready mb = deposits (fl_to fl) (w_bus w) ++ [(fl_from fl, fl_bytes fl)] ->
  let w1 := set_pc i (PDone false) (set_bus (put_mailbox (fl_to fl) mb (w_bus w)) w) in
  net_inv None s (mkWorld (w_bus w1) (w_flights w1) (w_log w1 ++ [i]) (w_user w1)).
Proof.
  intros [N1 N2 N3 N4 N5 N6 N7 N8] Hi Hp Ho Hw Hd w1.
  assert (Hf : w_flights w1 = <[i := with_pc fl (PDone false)]> (w_flights w)) by (unfold w1, set_pc, set_bus; cbn; by rewrite Hi).
  assert (Hl : w_log w1 = w_log w) by (unfold w1, set_pc, set_bus; cbn; by rewrite Hi).
  assert (Hb : w_bus w1 = put_mailbox (fl_to fl) mb (w_bus w)) by (unfold w1, set_pc, set_bus; cbn; by rewrite Hi).
  assert (Hni : i ∉ w_log w) by (intros (x & Hx & Hpc)%N4; congruence).
  clearbody w1. split; cbn [w_bus w_flights w_log]; rewrite ?Hf, ?Hl, ?Hb, ?put_keeps; try done.
  - intros e. rewrite get_put by done. destruct (_ =? e); [done|apply N1].
  - intros e. rewrite deposits_put, omap_app by done. rewrite (omap_ext _ (deliver (w_flights w) e)) by (intros j _; by apply deliver_pc). rewrite <- N2.
    cbn [omap list_omap]. rewrite deliver_pc by done. unfold deliver. rewrite Hi. cbn. destruct (Z.eqb_spec (fl_to fl) e) as [<-|]; [done|by rewrite app_nil_r].
  - apply NoDup_app. split_and!; [done|set_solver|apply NoDup_singleton].
  - intros j. rewrite elem_of_app, list_elem_of_singleton, N4. destruct (decide (i = j)) as [<-|Hne].
    + rewrite list_lookup_insert_eq by (by eapply lookup_lt_Some). split; [|by right]. intros _. by eexists.
    + rewrite list_lookup_insert_ne by done. naive_solver.
  - by rewrite tags_pc.
  - by apply forall_pc.
  - intros j x Hj _. destruct (decide (i = j)) as [<-|Hne].
    + rewrite list_lookup_insert_eq in Hj by (by eapply lookup_lt_Some). by injection Hj as <-.
    + rewrite list_lookup_insert_ne in Hj by done. apply N8; [done|congruence].
Qed.

(** The invariant for a coroutine that ends its turn. *)
Lemma inv_later ex s s' w : evolves s s' -> net_inv ex s w -> net_inv ex s' w.
Proof. intros Hev Hi. rewrite <- (set_bus_id w). by eapply inv_evolves. Qed.

Lemma exec_deposit s w i fl s' w' : net_inv (Some i) s w -> w_flights w !! i = Some fl -> fl_pc fl <> PDone false ->
  exec (inr i) (deposit i fl w Return) s = Some (s', w') -> net_inv None s' w'.
Proof.
  intros Hi Hf Hp. unfold deposit. destruct (is_blocked (fl_from fl) (fl_to fl) (w_bus w)).
  - cbn [exec]. intros [= <- <-]. eapply inv_pc; try done. apply (inv_later _ s); [|done]. etrans; [apply evolves_trace|apply evolves_finish].
  - set (mb := get_mailbox (fl_to fl) (w_bus w)). cbn [exec]. set (s0 := trace _ _ s). assert (Hev0 : evolves s s0) by apply evolves_trace.
    destruct (mb_waiters mb) as [|p rest] eqn:Ew.
    + cbn [exec]. intros [= <- <-]. eapply (inv_deposited _ w i fl); try done; [|apply get_mailbox_owner|].
      * apply (inv_later _ s); [|done]. etrans; [exact Hev0|apply evolves_finish].
      * cbn. unfold deposits. fold mb. by rewrite app_assoc.
    + intros (s1 & E & Hev & _)%exec_set_value. cbn [exec] in E. injection E as <- <-.
      assert (Hr : mb_ready mb = []) by (apply (ni_mail _ _ _ Hi (fl_to fl)); fold mb; by rewrite Ew).
      eapply (inv_deposited _ w i fl); try done; [|apply get_mailbox_owner|].
      * apply (inv_later _ s); [|done]. etrans; [exact Hev0|]. etrans; [exact Hev|apply evolves_finish].
      * cbn. unfold deposits. fold mb. by rewrite Hr, !app_nil_r.
Qed.

Lemma delay_spec d s : let '(f, s1) := delay d s in f = length (states_ s) /\
  timers_ s1 = timers_ s ++ [mkTimer (vtime_ s + (if 0 <? d then d else 0)) (timer_arm_seq_ s) f] /\
  states_ s1 = states_ s ++ [mkShared false None None ok_error true].
Proof.
  unfold delay. cbn [make_promise]. cbv beta iota zeta.
  match goal with |- context [trace_if ?a ?p ?x] => destruct (trace_if_fields a p x) as ((-> & _) & _ & -> & _) end. done.
Qed.

Lemma exec_delivery s w i s' w' : net_inv (Some i) s w -> (forall fl, w_flights w !! i = Some fl -> fl_pc fl = PArmed -> fl_sent fl = vtime_ s) ->
  exec (inr i) (delivery_task i w) s = Some (s', w') -> net_inv None s' w'.
Proof.
  intros Hi Hsent. unfold delivery_task.
  assert (Hdone : (forall fl, w_flights w !! i = Some fl -> exists c, fl_pc fl = PDone c) -> exec (inr i) (Return w) s = Some (s', w') -> net_inv None s' w').
  { intros Hd [= <- <-]. destruct (inv_later _ _ _ _ (evolves_finish (inr i) s) Hi) as [N1 N2 N3 N4 N5 N6 N7 N8]. split; try done.
    intros j x Hj _. destruct (decide (i = j)) as [<-|Hne]; [|apply N8; [done|congruence]]. destruct (Hd x Hj) as [c Hc]. unfold flight_ok. by rewrite Hc. }
  destruct (w_flights w !! i) as [fl|] eqn:Hf; [|by apply Hdone].
  destruct (fl_pc fl) as [|f|c] eqn:Hpc; [|apply exec_deposit; [done|done|congruence]|apply Hdone; intros x [= <-]; by exists c].
  cbn [exec]. pose proof (delay_spec (fl_lat fl) s) as Hd. pose proof (evolves_delay (fl_lat fl) s) as Hev.
  destruct (delay (fl_lat fl) s) as [f s1]. cbn [snd] in Hev. destruct Hd as (-> & Ht & Hs). set (f := length (states_ s)) in *.
  assert (Hst : states_ s1 !! f = Some (mkShared false None None ok_error true)) by (rewrite Hs, lookup_app_r, Nat.sub_diag by (unfold f; lia); done).
  rewrite Hst. cbn [mbind option_bind st_ready]. pose proof (evolves_waiter f (inr i : U + nat) s1) as Hw. unfold set_waiter in *. rewrite Hst in *. cbn in Hw |- *.
  specialize (Hw _ _ eq_refl eq_refl eq_refl). intros [= <- <-]. eapply inv_pc; try done; [|congruence|].
  - apply (inv_later _ s); [by etrans|done].
  - unfold flight_ok. cbn [fl_pc with_pc]. right. pose proof (ni_flights _ _ _ Hi) as Hfl. rewrite Forall_lookup in Hfl. destruct (Hfl _ _ Hf) as (_ & _ & Hlat).
    exists (mkTimer (vtime_ s + (if 0 <? fl_lat fl then fl_lat fl else 0)) (timer_arm_seq_ s) f). eexists. cbn [timers_ states_ upd_states].
    split_and!; [rewrite Ht; set_solver|done| |by rewrite list_lookup_insert_eq by (by eapply lookup_lt_Some)|done|done|done].
    cbn [due with_pc fl_sent fl_lat]. rewrite (Hsent fl eq_refl Hpc). destruct (0 <? fl_lat fl) eqn:E; lia.
Qed.

(** A bus with no traffic satisfies the invariant on any runtime. *)
Lemma net_start s r d : net_inv None s (mkWorld (new_bus r) [] [] d).
Proof.
  split; cbn; try done; try constructor.
  - set_solver.
  - intros (fl & Hf & _). done.
  - lia.
  - unfold Zlen. lia.
Qed.

(** No message crosses a live partition. A partition cuts exactly the links between the given
    nodes and the others, whatever order and repetitions they were given in.  On a cut link a
    send is refused and launches nothing, and a message that arrives is dropped and changes no
    mailbox; healing removes every cut. *)
Theorem partition_isolates from to side b w fl i h payload (k : world D -> nat -> nturn) s r s' w' :
  is_blocked from to (partition side b) = negb (Bool.eqb (bool_decide (from ∈ side)) (bool_decide (to ∈ side))) /\
  is_blocked from to (heal b) = false /\
  (is_blocked from to (w_bus w) = true -> exec h (send from to payload w k) s = Some r ->
     exists s1 f b1, exec h (k (set_bus b1 w) f) s1 = Some r /\ mailboxes_ b1 = mailboxes_ (w_bus w) /\ handles s1 = handles s /\
       exists st, states_ s1 !! f = Some st /\ st_value st = Some (VError unavailable)) /\
  (is_blocked (fl_from fl) (fl_to fl) (w_bus w) = true -> exec (inr i) (deposit i fl w Return) s = Some (s', w') -> w_bus w' = w_bus w).
Proof.
  split; [apply blocked_spec|]. split; [done|]. split.
  - intros Hbl. unfold send. cbn zeta. set (b0 := mkBus _ _ _ _ _ _). assert (is_blocked from to b0 = true) as -> by (unfold is_blocked, in_side_a in *; done).
    cbn [exec ready_error]. set (s0 := trace _ _ s). set (f := length (states_ s0)).
    assert (Hst : forall x, (states_ s0 ++ [x]) !! f = Some x) by (intros x; unfold f; by rewrite lookup_app_r, Nat.sub_diag by lia).
    destruct (promise_complete_spec f (Some (VError unavailable)) ok_error (make_promise false s0).2 (mkShared false None None ok_error false)) as (s1 & Ec & Hh & _ & Hs);
      [cbn; apply Hst|done|]. cbn [make_promise snd] in *. fold f. unfold program_owned. cbn [states_ upd_states]. rewrite Hst. cbn [mbind option_bind timer_owned]. rewrite Ec.
    cbn [mbind option_bind]. intros E. exists s1, f, b0. split_and!; [done|done| |].
    + rewrite Hh. cbn [option_list]. by rewrite app_nil_r.
    + rewrite Hs. eexists. split; [apply list_lookup_insert_eq; cbn; rewrite length_app; unfold f; cbn; lia|done].
  - intros Hbl. unfold deposit. rewrite Hbl. cbn [exec]. intros [= <- <-]. unfold set_pc. by destruct (w_flights w !! i).
Qed.
Variable node : U -> Z.
Variable user : U -> D -> prog U D.

Lemma exec_compile h me (p : prog U D) w s s' w' : exec h (compile me p w) s = Some (s', w') -> net_inv None s w -> bounded s' -> net_inv None s' w'.
Proof.
  revert w s. induction p as [d|to payload k IH|k IH|side k IH|k IH|f k IH|k IH|u k IH|d k IH|f k IH|f d k IH]; intros w s; cbn [compile exec].
  - intros [= <- <-] Hi _. apply set_user_inv. by eapply inv_later; [apply evolves_finish|].
  - intros E Hi Hb. apply (exec_send None) in E as (s1 & w1 & f & E & Hev & Hn & _). eapply IH; [exact E| |done].
    apply Hn; [done| |done]. apply exec_evolves in E. eapply bounded_grow; [apply E|done].
  - intros E Hi Hb. apply (exec_recv None) in E as (s1 & w1 & f & E & Hev & Hn & _). eapply IH; [exact E| |done].
    apply Hn; [done| |done]. apply exec_evolves in E. eapply bounded_grow; [apply E|done].
  - intros E Hi Hb. eapply IH; [exact E| |done]. by eapply inv_evolves; [apply evolves_trace|..].
  - intros E Hi Hb. eapply IH; [exact E| |done]. by eapply inv_evolves; [apply evolves_trace|..].
  - intros E Hi Hb. eapply IH; [exact E| |done]. by eapply (inv_evolves None s).
  - intros E Hi Hb. by eapply IH.
  - intros E Hi Hb. eapply IH; [exact E| |done]. by eapply inv_later; [apply evolves_spawn|].
  - pose proof (evolves_delay d s) as Hev. destruct (delay d s) as [f s1]. intros E Hi Hb. eapply IH; [exact E| |done]. by eapply inv_later.
  - destruct (states_ s !! f) as [st|]; [|done]. cbn. intros E Hi Hb. by eapply IH.
  - destruct (states_ s !! f) as [st|] eqn:Ef; [|done]. cbn. destruct (st_ready st) eqn:Er; [intros E Hi Hb; by eapply IH|].
    destruct (set_waiter f h s) as [s1|] eqn:Ew; [|done]. intros [= <- <-] Hi Hb. apply set_user_inv. eapply inv_later; [by eapply evolves_waiter|done].
Qed.

Lemma resume_inv item rest s w s' w' : net_inv None s w -> ready_ s = item :: rest ->
  resume_front (system node user) item rest s w = Some (s', w') -> bounded s' -> net_inv None s' w'.
Proof.
  intros [N1 N2 N3 N4 N5 N6 N7 N8] Hr E Hb. destruct item as [h q]. unfold resume_front in E. cbn [fst] in E.
  assert (Hpop : forall j fl, w_flights w !! j = Some fl -> inr j <> h -> flight_ok (set_ready rest s) j fl).
  { intros j fl Hj Hne. specialize (N8 j fl Hj ltac:(done)). unfold flight_ok in *. unfold handles in *. rewrite Hr in N8. cbn [map fst ready_ set_ready] in *.
    destruct (fl_pc fl); [|destruct N8 as [N8|N8]; [left|right; exact N8]|done]; set_solver. }
  destruct h as [u|i]; cbn [system] in E.
  - eapply exec_compile; [exact E| |done]. eapply inv_later; [apply evolves_trace_if|]. split; try done. intros j fl Hj _. by apply Hpop.
  - eapply exec_delivery; [| |exact E].
    + eapply inv_later; [apply evolves_trace_if|]. split; try done. intros j fl Hj Hne. apply Hpop; congruence.
    + intros fl Hf Hp. specialize (N8 i fl Hf ltac:(done)). unfold flight_ok in N8. rewrite Hp in N8.
      match goal with |- _ = vtime_ (trace_if ?a ?p ?x) => destruct (trace_if_fields a p x) as ((_ & -> & _) & _) end. apply N8.
Qed.

Lemma fire_inv s s' t w : wf s -> ready_ s = [] -> earliest s = Some t -> fire_earliest_timers s = Some s' -> net_inv None s w -> net_inv None s' w.
Proof.
  intros Hw Hr Ht E [N1 N2 N3 N4 N5 N6 N7 N8]. destruct (fire_spec s t Hw Ht) as (s1 & E1 & Hv & Htm & Hh & Hg & Hd & Hoth & _). rewrite E1 in E. injection E as ->.
  assert (Hh0 : handles s = []) by (unfold handles; by rewrite Hr). split; try done; [destruct Hg as [Hl _]; unfold Zlen in *; lia|].
  intros j fl Hj _. specialize (N8 j fl Hj ltac:(done)). unfold flight_ok in *. rewrite Hh0 in N8.
  destruct (fl_pc fl) as [|f|]; [destruct N8; set_solver|destruct N8 as [N8|(u & st & Hu & <- & Hdue & Hst & Hsr & Hso & Hsw)]; [set_solver|]|done].
  destruct (due_now (due t) u) eqn:Eu.
  - left. rewrite Hh, Hh0. cbn. apply list_elem_of_omap. exists u. split; [apply list_elem_of_In, filter_In; by rewrite <- list_elem_of_In|].
    unfold waiter_of. by rewrite Hst.
  - right. exists u, st. assert (Hu' : u ∈ List.filter (fun u => negb (due_now (due t) u)) (timers_ s))
      by (apply list_elem_of_In, filter_In; rewrite <- list_elem_of_In, Eu; done).
    split_and!; try done; [by rewrite Htm|]. rewrite Hoth; [done|]. apply filter_states_disjoint; [apply Hw|done].
Qed.

Lemma until_inv fuel d m k s w s' w' : result_of (until_loop (system node user) fuel d m k s w) = Some (s', w') -> wf s -> bounded s' -> net_inv None s w ->
  net_inv None s' w'.
Proof.
  revert k s w. induction fuel as [|fuel IH]; intros k s w; [done|]. cbn [until_loop]. destruct (ready_ s) as [|item rest] eqn:Er.
  - assert (Hend : forall w, net_inv None s w -> net_inv None (trace TRunEnd "" s) w) by (intros w0; apply inv_later, evolves_trace).
    unfold past_deadline. destruct (earliest s) as [t|] eqn:Et; [|intros [= <- <-] _ _; apply Hend].
    destruct (d <? due t) eqn:Ed; [intros [= <- <-] _ _; apply Hend|].
    destruct (fire_earliest_timers s) as [s1|] eqn:Ef; [|done]. intros Hl Hw Hb Hi. destruct (advances_fire s s1 t Hw Et Ef) as [Ha _].
    eapply IH; [exact Hl|apply Ha|done|]. by eapply fire_inv.
  - destruct (resume_front (system node user) item rest s w) as [[s1 w1]|] eqn:E; [|done]. intros Hl Hw Hb Hi.
    assert (Hb1 : bounded s1).
    { eapply bounded_le; [|exact Hb]. destruct (negb (m =? 0) && _); [injection Hl as <- <-; done|by apply until_length in Hl]. }
    pose proof (advances_resume (system node user) item rest s w s1 w1 Hw Hb1 Er E) as Ha. pose proof (resume_inv item rest s w s1 w1 Hi Er E Hb1) as Hi1.
    destruct (negb (m =? 0) && _); [injection Hl as <- <-; eapply inv_later; [apply evolves_trace|done]|]. eapply IH; [exact Hl|apply Ha|done|done].
Qed.


(** The network invents nothing. At the end of a window, finished or stalled, the messages handed
    over at or waiting for a node are, in this order, those of distinct message copies
    addressed to it, in the order the copies were delivered; and a send has at most two
    copies, numbered 0 and 1. *)
Theorem network_integrity fuel d m s w s' w' : wf s -> net_inv None s w -> result_of (run_until (system node user) fuel d m s w) = Some (s', w') -> bounded s' ->
  (forall e, deposits e (w_bus w') = omap (deliver (w_flights w') e) (w_log w')) /\ NoDup (w_log w') /\
  NoDup (map tag (w_flights w')) /\ Forall (fun fl => fl_copy fl = 0 \/ fl_copy fl = 1) (w_flights w').
Proof.
  intros Hw Hi E Hb. unfold run_until in E.
  pose proof (until_inv fuel d m 0 (trace TRunStart "" s) w s' w' E (wf_trace _ _ _ Hw) Hb (inv_later _ _ _ _ (evolves_trace _ _ _) Hi)) as [N1 N2 N3 N4 N5 N6 N7 N8].
  split_and!; try done. eapply Forall_impl; [exact N6|]. cbn. tauto.
Qed.

End facts.

(** ** A run *)

(** Node 1 sends a byte to node 2, which waits for it. *)
Definition ping_pong (u : nat) (d : list nat) : prog nat (list nat) :=
  match u with
  | 1%nat => USend 2 [Byte.x61] (fun _ => UReturn d)
  | _ => match d with
         | [] => URecv (fun f => UAwait f [f] (UReturn d))
         | _ => UReturn (7%nat :: d)
         end
  end.

Definition two_nodes : sched (nat + nat) val := spawn (inl 1%nat) (spawn (inl 2%nat) new_sched).

Definition quiet : world (list nat) := mkWorld (new_bus []) [] [] [].

Definition ping_run : option (sched (nat + nat) val * world (list nat)) := result_of (run_until (system Z.of_nat ping_pong) 20 5 0 two_nodes quiet).

Lemma two_nodes_wf : wf two_nodes.
Proof.
  pose proof (evolves_spawn (V := val) (inl 2%nat : nat + nat) new_sched) as H1.
  pose proof (evolves_spawn (inl 1%nat : nat + nat) (spawn (V := val) (inl 2%nat) new_sched)) as H2.
  apply (ev_wf _ _ H2); [|by vm_compute]. apply (ev_wf _ _ H1); [apply wf_new|by vm_compute].
Qed.


Lemma network_integrity_witness : exists s w, ping_run = Some (s, w) /\ deposits 2 (w_bus w) = omap (deliver (w_flights w) 2) (w_log w) /\
  deposits 2 (w_bus w) = [(1, [Byte.x61])].
Proof.
  unfold ping_run. destruct (result_of (run_until (system Z.of_nat ping_pong) 20 5 0 two_nodes quiet)) as [[s w]|] eqn:E; [|by vm_compute in E].
  exists s, w. split; [done|]. split.
  - apply (network_integrity Z.of_nat ping_pong 20 5 0 two_nodes quiet s w); [apply two_nodes_wf|apply net_start|exact E|].
    vm_compute in E. injection E as <- <-. by vm_compute.
  - vm_compute in E. injection E as <- <-. by vm_compute.
Defined.

Lemma partition_isolates_witness : exists w', exec (V := val) (inr 0%nat : nat + nat) (deposit 0 (mkFlight 1 2 [] 1 0 0 0 (PWaiting 0))
  (set_bus (partition [1; 3; 1] (new_bus [])) quiet) Return) two_nodes = Some w' /\ w_bus w'.2 = partition [1; 3; 1] (new_bus []).
Proof.
  eexists. split; [reflexivity|].
  eapply (partition_isolates 1 2 [1; 3; 1] (new_bus []) (set_bus (partition [1; 3; 1] (new_bus [])) quiet) (mkFlight 1 2 [] 1 0 0 0 (PWaiting 0)) 0
    (inr 0%nat) [] (fun w _ => Return w) two_nodes (two_nodes, quiet)); [by vm_compute|reflexivity].
Defined.
