(* ===== verification/StableSort.v ===== *)
(** StableSort: insertion sort by a total preorder, for the uses of [std::sort] and of
    hand-written insertion sorts; it is stable, so it is what any sort does when no two
    elements compare equal. *)

From Stdlib Require Import ZArith Lia Sorting.Sorted.
From stdpp Require Import base list sorting.
From S2P Require Import Prelude.

Section isort.
Context {A : Type} (le : A -> A -> bool).

Fixpoint insert_by (x : A) (l : list A) : list A :=
  match l with
  | [] => [x]
  | y :: l' => if le x y then x :: l else y :: insert_by x l'
  end.

Fixpoint isort (l : list A) : list A :=
  match l with
  | [] => []
  | x :: l' => insert_by x (isort l')
  end.

Lemma insert_by_perm x l : insert_by x l ≡ₚ x :: l.
Proof.
  induction l as [|y l IH]; cbn; [done|].
  destruct (le x y); [done|]. rewrite IH. constructor.
Qed.

Lemma isort_perm l : isort l ≡ₚ l.
Proof. induction l as [|x l IH]; cbn; [done|]. by rewrite insert_by_perm, IH. Qed.

Definition ordered : list A -> Prop := StronglySorted (fun x y => le x y = true).

Context (le_total : forall x y, le x y = false -> le y x = true).
Context (le_trans : forall x y z, le x y = true -> le y z = true -> le x z = true).

Lemma insert_by_ordered x l : ordered l -> ordered (insert_by x l).
Proof.
  induction 1 as [|y l Hl IH Hy]; cbn; [repeat constructor|].
  destruct (le x y) eqn:E.
  - repeat constructor; auto. eapply Forall_impl; [exact Hy|]. cbn. eauto.
  - constructor; [done|]. rewrite insert_by_perm. constructor; auto.
Qed.

Lemma isort_ordered l : ordered (isort l).
Proof. induction l; cbn; [constructor|by apply insert_by_ordered]. Qed.

Lemma insert_by_head x l : Forall (fun y => le x y = true) l -> insert_by x l = x :: l.
Proof. destruct 1 as [|y l Hy]; cbn; [done|by rewrite Hy]. Qed.

Lemma isort_id l : ordered l -> isort l = l.
Proof. induction 1; cbn; [done|]. by rewrite IHStronglySorted, insert_by_head. Qed.

Lemma filter_insert_by (P : A -> Prop) `{!∀ x, Decision (P x)} x l :
  ordered l ->
  filter P (insert_by x l) = if decide (P x) then insert_by x (filter P l) else filter P l.
Proof.
  induction 1 as [|y l Hl IH Hy]; cbn [insert_by]; [by rewrite filter_cons|].
  destruct (le x y) eqn:E; rewrite !filter_cons.
  - case_decide; [|done]. case_decide; cbn; rewrite ?E; [done|].
    rewrite insert_by_head; [done|].
    apply Forall_forall. intros z (_ & Hz)%list_elem_of_filter.
    rewrite Forall_forall in Hy. eauto.
  - rewrite IH. repeat case_decide; cbn; rewrite ?E; done.
Qed.

(** Stability: elements already in order keep their order. *)
Lemma isort_stable (P : A -> Prop) `{!∀ x, Decision (P x)} l :
  ordered (filter P l) -> filter P (isort l) = filter P l.
Proof.
  intros Ho. rewrite <- (isort_id _ Ho). clear Ho.
  induction l as [|x l IH]; cbn [isort]; [done|].
  rewrite filter_insert_by by apply isort_ordered.
  rewrite filter_cons, IH. by case_decide.
Qed.
End isort.
