(* ===== verification/History.v ===== *)
(** History: the client-operation history the test harness judges (harness/History.hpp),
    the checker contract and its runner (harness/Checker.hpp, CheckerRunner.hpp), and the
    value-provenance and session checkers (checkers/Integrity.hpp, Durability.hpp,
    SessionMonotonic.hpp).

    A verdict carries its evidence as a value of [evidence] in place of the rendered text;
    the constructors are the witness shapes of the checkers.  Strings are byte lists, and
    ticks are integers. *)

From Stdlib Require Import ZArith Lia Sorting.Sorted.
From stdpp Require Import base list sets sorting numbers strings pretty.
From S2P Require Import Prelude StableSort.
#[local] Open Scope Z_scope.

(** ** Operations *)

Inductive OpKind := Read | Write | Cas.

#[global] Instance OpKind_eq_dec : EqDecision OpKind.
Proof. solve_decision. Defined.

Record Op := mkOp {
  client_id : Z;
  op_id : Z;
  kind : OpKind;
  key : list byte;
  value : list byte;
  cas_old : list byte;
  invoke_vt : Z;
  return_vt : Z;
  ok : bool;
  result : list byte;
  error : list byte;
  seq : Z;
  returned : bool
}.

Abbreviation History := (list Op).

(** A C++ string literal. *)
Definition lit (s : string) : list byte := String.list_byte_of_string s.

Definition ack : list byte := lit "ack".
Definition cas_mismatch : list byte := lit "cas_mismatch".
#[global] Arguments lit : simpl never.
#[global] Arguments ack : simpl never.
#[global] Arguments cas_mismatch : simpl never.

(** ** The recorder *)

Record HistoryRecorder := mkRecorder { ops_ : list Op; next_op_id_ : Z; next_seq_ : Z }.

Definition new_recorder : HistoryRecorder := mkRecorder [] 1 0.

Definition on_invoke (client : Z) (k : OpKind) (ky v old : list byte) (now : Z)
    (r : HistoryRecorder) : Z * HistoryRecorder :=
  let id := next_op_id_ r in
  (id, mkRecorder (ops_ r ++ [mkOp client id k ky v old now 0 false [] [] (next_seq_ r) false])
         (u64 (next_op_id_ r + 1)) (u64 (next_seq_ r + 1))).

Definition complete (o : Op) (okb : bool) (res err : list byte) (now : Z) : Op :=
  mkOp (client_id o) (op_id o) (kind o) (key o) (value o) (cas_old o) (invoke_vt o) now okb res err
    (seq o) true.

(** The first record with the handle is completed; an unknown handle changes nothing. *)
Fixpoint complete_op (id : Z) (okb : bool) (res err : list byte) (now : Z) (l : list Op) : list Op :=
  match l with
  | [] => []
  | o :: l' =>
      if op_id o =? id then complete o okb res err now :: l'
      else o :: complete_op id okb res err now l'
  end.

Definition on_return (id : Z) (okb : bool) (res err : list byte) (now : Z)
    (r : HistoryRecorder) : HistoryRecorder :=
  mkRecorder (complete_op id okb res err now (ops_ r)) (next_op_id_ r) (next_seq_ r).

(** The comparator of [rebuild_view]: by return tick, then by invoke order. *)
Definition op_leb (a b : Op) : bool :=
  if return_vt a =? return_vt b then seq a <=? seq b else return_vt a <? return_vt b.

Definition history (r : HistoryRecorder) : History :=
  isort op_leb (filter (fun o => returned o = true) (ops_ r)).

Definition has_pending (r : HistoryRecorder) : bool := existsb (fun o => negb (returned o)) (ops_ r).

(** ** Verdicts *)

(** The linearizability checker's view of an operation ([LinOp] of Linearizable.hpp). *)
Inductive Eff := ERead | WriteCommit | CasCommit | CasMismatch.

Record LinOp := mkLin {
  l_op_id : Z;
  l_client : Z;
  l_invoke : Z;
  l_ret : Z;
  l_eff : Eff;
  l_value : list byte;
  l_cas_old : list byte;
  l_optional : bool
}.

Inductive evidence :=
| NoEvidence
| ReturnedBeforeInvoked (o : Op)
| FabricatedRead (o : Op)
| LostAckedWrite (k : list byte) (w : Op) (later : list Op)
| RejectedWriteSurfaced (o : Op)
| FabricatedDurableValue (o : Op)
| SessionWentBackward (o : Op)
| NotLinearizable (k : list byte) (l : list LinOp)
| UndecidedOps (k : list byte) (n : nat)
| UndecidedSteps (k : list byte).

Record Verdict := mkVerdict { v_ok : bool; witness : evidence; seed : Z }.

Definition verdict_ok : Verdict := mkVerdict true NoEvidence 0.
Definition verdict_violation (e : evidence) : Verdict := mkVerdict false e 0.

(** A checker that judges the whole history; [on_event] keeps its default in every checker. *)
Record Checker := mkChecker { c_name : string; final : History -> Verdict }.

Definition finalize (cs : list Checker) (h : History) (sd : Z) : list Verdict :=
  (fun c => let v := final c h in mkVerdict (v_ok v) (witness v) sd) <$> cs.

(** ** The example checker: an operation returns after its invocation *)

Fixpoint invoke_before_return (h : History) : Verdict :=
  match h with
  | [] => verdict_ok
  | o :: h' =>
      if return_vt o <? invoke_vt o then verdict_violation (ReturnedBeforeInvoked o)
      else invoke_before_return h'
  end.

(** ** Values offered to a key: sorted by key, sorted unique values *)

Record KeyVals := mkKeyVals { kv_key : list byte; kv_values : list (list byte) }.

Fixpoint insert_value (v : list byte) (l : list (list byte)) : list (list byte) :=
  match l with
  | [] => [v]
  | x :: l' => if key_ltb x v then x :: insert_value v l' else if key_eqb x v then l else v :: l
  end.

Fixpoint add_written (w : list KeyVals) (k v : list byte) : list KeyVals :=
  match w with
  | [] => [mkKeyVals k [v]]
  | kv :: w' =>
      if key_ltb (kv_key kv) k then kv :: add_written w' k v
      else if key_eqb (kv_key kv) k then mkKeyVals (kv_key kv) (insert_value v (kv_values kv)) :: w'
      else mkKeyVals k [v] :: w
  end.

Fixpoint value_written (w : list KeyVals) (k v : list byte) : bool :=
  match w with
  | [] => false
  | kv :: w' => if key_eqb (kv_key kv) k then existsb (fun x => key_eqb x v) (kv_values kv) else value_written w' k v
  end.

(** ** C-INT: integrity *)

Definition is_mutation (o : Op) : bool := match kind o with Read => false | _ => true end.

Fixpoint written_of (h : History) (w : list KeyVals) : list KeyVals :=
  match h with
  | [] => w
  | o :: h' => written_of h' (if is_mutation o then add_written w (key o) (value o) else w)
  end.

(** A successful read that observed a value. *)
Definition observes (o : Op) : bool :=
  match kind o with Read => ok o && negb (key_eqb (result o) []) | _ => false end.

(** INT-1: every observed value was offered to its key. *)
Fixpoint check_provenance (w : list KeyVals) (h : History) : Verdict :=
  match h with
  | [] => verdict_ok
  | o :: h' =>
      if observes o && negb (value_written w (key o) (result o)) then verdict_violation (FabricatedRead o)
      else check_provenance w h'
  end.

(** The distinct keys in order of first appearance. *)
Fixpoint first_keys (h : History) (keys : list (list byte)) : list (list byte) :=
  match h with
  | [] => keys
  | o :: h' => first_keys h' (if existsb (fun k => key_eqb k (key o)) keys then keys else keys ++ [key o])
  end.

(** An acknowledged mutation of the key. *)
Definition committed_on (k : list byte) (o : Op) : bool :=
  key_eqb (key o) k && ok o &&
  match kind o with Write => true | Cas => key_eqb (result o) ack | Read => false end.

Fixpoint last_ack (k : list byte) (h : History) (acc : option Op) : option Op :=
  match h with
  | [] => acc
  | o :: h' => last_ack k h' (if committed_on k o then Some o else acc)
  end.

(** A successful read of the key invoked strictly after the mutation returned. *)
Definition later_read (k : list byte) (w : Op) (o : Op) : bool :=
  match kind o with Read => ok o && key_eqb (key o) k && (return_vt w <? invoke_vt o) | _ => false end.

(** The scan of the later reads: whether there is one, whether one observed the value,
    and the first four that did not. *)
Fixpoint scan_later (k : list byte) (w : Op) (h : History) (any : bool) (contra : list Op)
    : bool * bool * list Op :=
  match h with
  | [] => (any, false, contra)
  | o :: h' =>
      if later_read k w o then
        if key_eqb (result o) (value w) then (true, true, contra)
        else scan_later k w h' true (if Nat.ltb (length contra) 4 then contra ++ [o] else contra)
      else scan_later k w h' any contra
  end.

Fixpoint check_no_lost_ack (h : History) (keys : list (list byte)) : Verdict :=
  match keys with
  | [] => verdict_ok
  | k :: keys' =>
      match last_ack k h None with
      | None => check_no_lost_ack h keys'
      | Some w =>
          match scan_later k w h false [] with
          | (true, false, contra) => verdict_violation (LostAckedWrite k w contra)
          | _ => check_no_lost_ack h keys'
          end
      end
  end.

Definition integrity (h : History) : Verdict :=
  let v := check_provenance (written_of h []) h in
  if v_ok v then check_no_lost_ack h (first_keys h []) else v.

(** ** C-DUR: durability *)

Definition rejected_cas (o : Op) : bool :=
  match kind o with Cas => negb (ok o) && key_eqb (error o) cas_mismatch | _ => false end.

Fixpoint sources_of (h : History) (committed rejected : list KeyVals) : list KeyVals * list KeyVals :=
  match h with
  | [] => (committed, rejected)
  | o :: h' =>
      match kind o with
      | Read => sources_of h' committed rejected
      | Write => sources_of h' (add_written committed (key o) (value o)) rejected
      | Cas =>
          if ok o && key_eqb (result o) ack then sources_of h' (add_written committed (key o) (value o)) rejected
          else if negb (ok o) && key_eqb (error o) cas_mismatch then
            sources_of h' committed (add_written rejected (key o) (value o))
          else sources_of h' (add_written committed (key o) (value o)) rejected
      end
  end.

Fixpoint check_sources (committed rejected : list KeyVals) (h : History) : Verdict :=
  match h with
  | [] => verdict_ok
  | o :: h' =>
      if negb (observes o) then check_sources committed rejected h'
      else if value_written committed (key o) (result o) then check_sources committed rejected h'
      else if value_written rejected (key o) (result o) then verdict_violation (RejectedWriteSurfaced o)
      else verdict_violation (FabricatedDurableValue o)
  end.

Definition durability (h : History) : Verdict :=
  let '(c, r) := sources_of h [] [] in check_sources c r h.

(** ** C-MONO: session order *)

Record SessionKey := mkSession {
  sk_client : Z;
  sk_key : list byte;
  has_ack : bool;
  high_idx : Z;
  high_value : list byte;
  high_op_id : Z;
  ack_return_vt : Z
}.

Definition new_session (c : Z) (k : list byte) : SessionKey := mkSession c k false (-1) [] 0 0.

(** [slot] with the vector split around the slot, which the caller then changes in place. *)
Fixpoint slot (v : list SessionKey) (c : Z) (k : list byte)
    : list SessionKey * SessionKey * list SessionKey :=
  match v with
  | [] => ([], new_session c k, [])
  | s :: v' =>
      if (sk_client s <? c) || ((sk_client s =? c) && key_ltb (sk_key s) k) then
        let '(l, x, r) := slot v' c k in (s :: l, x, r)
      else if (sk_client s =? c) && key_eqb (sk_key s) k then ([], s, v')
      else ([], new_session c k, v)
  end.

Fixpoint parse_index (l : list byte) (idx : Z) : Z :=
  match l with
  | [] => idx
  | b :: l' => if (Zb b <? 48) || (57 <? Zb b) then -1 else parse_index l' (idx * 10 + (Zb b - 48))
  end.

Definition own_prefix (client : Z) : list byte := lit "c" ++ lit (pretty (Z.to_N client)) ++ lit "_v".

(** The index [i] of a value "c<client>_v<i>", and -1 for any other value. *)
Definition own_index (client : Z) (v : list byte) : Z :=
  let p := own_prefix client in
  if Nat.leb (length v) (length p) || negb (key_eqb (take (length p) v) p) then -1
  else parse_index (drop (length p) v) 0.

(** An acknowledged mutation raises the floor of its session and key. *)
Definition note_write (s : SessionKey) (o : Op) : SessionKey :=
  if negb (key_eqb (result o) ack) then s
  else
    let idx := own_index (client_id o) (value o) in
    if 0 <=? idx then
      if high_idx s <? idx then mkSession (sk_client s) (sk_key s) true idx (value o) (op_id o) (return_vt o)
      else mkSession (sk_client s) (sk_key s) true (high_idx s) (high_value s) (high_op_id s) (return_vt o)
    else s.

(** A read against the floor: [None] is a violation. *)
Definition note_read (s : SessionKey) (o : Op) : option SessionKey :=
  if negb (has_ack s) then Some s
  else if invoke_vt o <=? ack_return_vt s then Some s
  else if key_eqb (result o) [] then None
  else
    let ridx := own_index (client_id o) (result o) in
    if 0 <=? ridx then
      if ridx <? high_idx s then None
      else if high_idx s <? ridx then
        Some (mkSession (sk_client s) (sk_key s) (has_ack s) ridx (result o) (high_op_id s) (ack_return_vt s))
      else Some s
    else Some s.

Definition note (s : SessionKey) (o : Op) : option SessionKey :=
  match kind o with Read => note_read s o | _ => Some (note_write s o) end.

Fixpoint check_sessions (h : History) (state : list SessionKey) : Verdict :=
  match h with
  | [] => verdict_ok
  | o :: h' =>
      if negb (ok o) then check_sessions h' state
      else
        let '(l, s, r) := slot state (client_id o) (key o) in
        match note s o with
        | None => verdict_violation (SessionWentBackward o)
        | Some s' => check_sessions h' (l ++ s' :: r)
        end
  end.

Definition session_monotonic (h : History) : Verdict := check_sessions h [].

(** ** Lemmas: first-offence loops *)

Lemma op_leb_total a b : op_leb a b = false -> op_leb b a = true.
Proof. unfold op_leb. rewrite (Z.eqb_sym (return_vt b)). destruct (_ =? _) eqn:E; lia. Qed.

Lemma op_leb_trans a b c : op_leb a b = true -> op_leb b c = true -> op_leb a c = true.
Proof.
  unfold op_leb. destruct (return_vt a =? return_vt b) eqn:E1, (return_vt b =? return_vt c) eqn:E2,
    (return_vt a =? return_vt c) eqn:E3; lia.
Qed.

Lemma invoke_before_return_ok h :
  v_ok (invoke_before_return h) = true <-> Forall (fun o => invoke_vt o <= return_vt o) h.
Proof.
  induction h as [|o h IH]; cbn; [split; auto|].
  rewrite Forall_cons. destruct (return_vt o <? invoke_vt o) eqn:E; cbn; rewrite ?IH; split; intros; try easy; try lia.
  split; [lia|done].
Qed.

(** ** The value table *)

Definition kv_sorted : list KeyVals -> Prop := StronglySorted (fun a b => key_lt (kv_key a) (kv_key b)).

Lemma insert_value_elem v x l : x ∈ insert_value v l <-> x = v \/ x ∈ l.
Proof.
  induction l as [|y l IH]; cbn; [set_solver|].
  destruct (key_ltb y v); [set_solver|].
  destruct (key_eqb_spec y v); set_solver.
Qed.

Lemma value_written_above w k v :
  Forall (fun kv => key_lt k (kv_key kv)) w -> value_written w k v = false.
Proof.
  induction 1 as [|kv w H Hw IH]; cbn; [done|].
  destruct (key_eqb_spec (kv_key kv) k) as [E|]; [|done].
  rewrite E in H. by apply key_ltb_neq in H.
Qed.

Lemma add_written_keys w k v (P : list byte -> Prop) :
  P k -> Forall (fun kv => P (kv_key kv)) w -> Forall (fun kv => P (kv_key kv)) (add_written w k v).
Proof.
  intros Hk. induction 1 as [|kv w H Hw IH]; cbn; [by repeat constructor|].
  destruct (key_ltb _ _); [by constructor|].
  destruct (key_eqb _ _); repeat (constructor; try done).
Qed.

Lemma add_written_sorted w k v : kv_sorted w -> kv_sorted (add_written w k v).
Proof.
  unfold kv_sorted. induction 1 as [|kv w Hw IH Hkv]; cbn; [repeat constructor|].
  destruct (key_ltb (kv_key kv) k) eqn:E.
  - constructor; [done|]. by apply (add_written_keys w k v (key_lt (kv_key kv))).
  - destruct (key_eqb_spec (kv_key kv) k) as [Ek|Ek]; [by constructor|].
    assert (key_lt k (kv_key kv)).
    { destruct (key_trichotomy k (kv_key kv)) as [|[|]]; unfold key_lt in *; congruence. }
    repeat (constructor; try done). eapply Forall_impl; [exact Hkv|].
    cbn. intros x Hx. by transitivity (kv_key kv).
Qed.

Lemma existsb_values x l : existsb (fun y => key_eqb y x) l = true <-> x ∈ l.
Proof.
  rewrite existsb_exists. setoid_rewrite key_eqb_eq. setoid_rewrite <- list_elem_of_In. naive_solver.
Qed.

Lemma value_written_add w k v k' v' :
  kv_sorted w ->
  value_written (add_written w k v) k' v' = true <->
  value_written w k' v' = true \/ (k' = k /\ v' = v).
Proof.
  induction 1 as [|kv w Hw IH Hkv]; cbn [add_written value_written].
  - cbn. destruct (key_eqb_spec k k'), (key_eqb_spec v v'); cbn; naive_solver.
  - destruct (key_ltb (kv_key kv) k) eqn:E; cbn [value_written].
    + destruct (key_eqb_spec (kv_key kv) k') as [<-|]; [|done].
      apply key_ltb_neq in E. naive_solver.
    + destruct (key_eqb_spec (kv_key kv) k) as [<-|Ek]; cbn [value_written kv_key kv_values].
      * destruct (key_eqb_spec (kv_key kv) k') as [<-|]; [|naive_solver].
        rewrite !existsb_values, insert_value_elem. naive_solver.
      * assert (Hlt : key_lt k (kv_key kv)).
        { destruct (key_trichotomy k (kv_key kv)) as [|[|]]; unfold key_lt in *; congruence. }
        destruct (key_eqb_spec k k') as [<-|Hn]; [|naive_solver].
        destruct (key_eqb_spec (kv_key kv) k); [done|].
        rewrite value_written_above by
          (eapply Forall_impl; [exact Hkv|]; cbn; intros x Hx; by transitivity (kv_key kv)).
        rewrite existsb_values. set_solver.
Qed.

(** The table of the values the operations of [P] offered. *)
Fixpoint collect (P : Op -> bool) (h : History) (w : list KeyVals) : list KeyVals :=
  match h with
  | [] => w
  | o :: h' => collect P h' (if P o then add_written w (key o) (value o) else w)
  end.

Definition offered (P : Op -> bool) (h : History) (k v : list byte) : Prop :=
  exists o, o ∈ h /\ P o = true /\ key o = k /\ value o = v.

Lemma offered_cons P o h k v :
  offered P (o :: h) k v <-> (P o = true /\ key o = k /\ value o = v) \/ offered P h k v.
Proof. unfold offered. set_solver. Qed.

Lemma collect_spec P h w k v :
  kv_sorted w ->
  value_written (collect P h w) k v = true <-> value_written w k v = true \/ offered P h k v.
Proof.
  revert w; induction h as [|o h IH]; intros w Hw; cbn [collect].
  { unfold offered. set_solver. }
  rewrite offered_cons. destruct (P o).
  - rewrite IH, value_written_add by auto using add_written_sorted. naive_solver.
  - rewrite IH by done. naive_solver.
Qed.

Lemma collect_nil P h k v : value_written (collect P h []) k v = true <-> offered P h k v.
Proof. rewrite collect_spec by constructor. cbn. naive_solver. Qed.

Lemma written_of_collect h w : written_of h w = collect is_mutation h w.
Proof. revert w; induction h; intros w; cbn; auto. Qed.

(** A mutation that may have taken effect: every write and every compare-and-set except
    one the system answered with a mismatch. *)
Definition is_source (o : Op) : bool := is_mutation o && negb (rejected_cas o).

Lemma sources_of_collect h c r : sources_of h c r = (collect is_source h c, collect rejected_cas h r).
Proof.
  revert c r; induction h as [|o h IH]; intros c r; cbn; [done|].
  unfold is_source, is_mutation, rejected_cas.
  destruct (kind o); cbn; try apply IH.
  destruct (ok o), (key_eqb (result o) ack), (key_eqb (error o) cas_mismatch); cbn; apply IH.
Qed.

(** What the two provenance checks accept. *)
Definition traceable (P : Op -> bool) (h : History) : Prop :=
  forall o, o ∈ h -> observes o = true -> offered P h (key o) (result o).

Lemma check_provenance_ok w h :
  v_ok (check_provenance w h) = true <->
  forall o, o ∈ h -> observes o = true -> value_written w (key o) (result o) = true.
Proof.
  induction h as [|o h IH]; cbn [check_provenance]; [set_solver|].
  destruct (observes o) eqn:E1, (value_written w (key o) (result o)) eqn:E2; cbn; rewrite ?IH; set_unfold; naive_solver congruence.
Qed.

Lemma check_sources_ok c r h :
  v_ok (check_sources c r h) = true <->
  forall o, o ∈ h -> observes o = true -> value_written c (key o) (result o) = true.
Proof.
  induction h as [|o h IH]; cbn [check_sources]; [set_solver|].
  destruct (observes o) eqn:E1, (value_written c (key o) (result o)) eqn:E2; cbn;
    rewrite ?IH; set_unfold; try naive_solver congruence.
  split; [by destruct (value_written r _ _)|]. intros H. rewrite H in E2 by auto. done.
Qed.

Lemma provenance_exact h :
  v_ok (check_provenance (written_of h []) h) = true <-> traceable is_mutation h.
Proof.
  rewrite check_provenance_ok, written_of_collect.
  unfold traceable. by setoid_rewrite collect_nil.
Qed.

Lemma durability_exact h : v_ok (durability h) = true <-> traceable is_source h.
Proof.
  unfold durability. rewrite sources_of_collect, check_sources_ok.
  unfold traceable. by setoid_rewrite collect_nil.
Qed.

(** ** Session slots *)

Definition sk_lt (c : Z) (k : list byte) (c' : Z) (k' : list byte) : bool :=
  (c <? c') || ((c =? c') && key_ltb k k').

Lemma sk_lt_trans a ka b kb c kc :
  sk_lt a ka b kb = true -> sk_lt b kb c kc = true -> sk_lt a ka c kc = true.
Proof.
  unfold sk_lt. rewrite !orb_true_iff, !andb_true_iff, !Z.ltb_lt, !Z.eqb_eq.
  intros [|[-> H1]] [|[-> H2]]; [left; lia|left; lia|left; lia|].
  right. split; [done|]. by eapply key_ltb_trans.
Qed.

Lemma sk_lt_irrefl c k : sk_lt c k c k = false.
Proof. unfold sk_lt. rewrite key_ltb_irrefl. lia. Qed.

Lemma sk_lt_total c k c' k' :
  sk_lt c k c' k' = false -> (c =? c') && key_eqb k k' = false -> sk_lt c' k' c k = true.
Proof.
  unfold sk_lt. intros H1 H2. destruct (key_trichotomy k k') as [H|[->|H]];
    [rewrite H in H1|rewrite key_eqb_refl in H2|rewrite H]; lia.
Qed.

Definition sk_sorted : list SessionKey -> Prop :=
  StronglySorted (fun a b => sk_lt (sk_client a) (sk_key a) (sk_client b) (sk_key b) = true).

Definition sk_at (v : list SessionKey) (c : Z) (k : list byte) : SessionKey :=
  let '(_, s, _) := slot v c k in s.

Lemma slot_same v c k : sk_client (sk_at v c k) = c /\ sk_key (sk_at v c k) = k.
Proof.
  unfold sk_at. induction v as [|s v IH]; cbn; [done|].
  destruct ((sk_client s <? c) || _); [by destruct (slot v c k) as [[? ?] ?]|].
  destruct ((sk_client s =? c) && key_eqb (sk_key s) k) eqn:E; [|done].
  apply andb_true_iff in E as [E1 E2]. apply key_eqb_eq in E2. split; [lia|done].
Qed.

(** The vector around a slot that was found or inserted. *)
Definition slot_set (v : list SessionKey) (c : Z) (k : list byte) (s' : SessionKey) : list SessionKey :=
  let '(l, _, r) := slot v c k in l ++ s' :: r.

Lemma slot_set_cons s v c k s' :
  slot_set (s :: v) c k s' =
  if sk_lt (sk_client s) (sk_key s) c k then s :: slot_set v c k s'
  else if (sk_client s =? c) && key_eqb (sk_key s) k then s' :: v
  else s' :: s :: v.
Proof.
  unfold slot_set, sk_lt. cbn [slot].
  destruct ((sk_client s <? c) || _); [by destruct (slot v c k) as [[? ?] ?]|].
  by destruct ((sk_client s =? c) && _).
Qed.

Lemma sk_at_cons s v c k :
  sk_at (s :: v) c k =
  if sk_lt (sk_client s) (sk_key s) c k then sk_at v c k
  else if (sk_client s =? c) && key_eqb (sk_key s) k then s else new_session c k.
Proof.
  unfold sk_at, sk_lt. cbn [slot].
  destruct ((sk_client s <? c) || _); [by destruct (slot v c k) as [[? ?] ?]|].
  by destruct ((sk_client s =? c) && _).
Qed.

Lemma slot_set_Forall (P : Z -> list byte -> Prop) v c k s' :
  sk_client s' = c -> sk_key s' = k -> P c k ->
  Forall (fun s => P (sk_client s) (sk_key s)) v ->
  Forall (fun s => P (sk_client s) (sk_key s)) (slot_set v c k s').
Proof.
  intros <- <- Hp. induction 1 as [|s v Hs Hv IH]; [by repeat constructor|].
  rewrite slot_set_cons. destruct (sk_lt _ _ _ _); [by constructor|].
  destruct (_ && _); repeat (constructor; try done).
Qed.

Lemma slot_set_sorted v c k s' :
  sk_client s' = c -> sk_key s' = k -> sk_sorted v -> sk_sorted (slot_set v c k s').
Proof.
  intros Hc Hk. unfold sk_sorted. induction 1 as [|s v Hv IH Hs]; [repeat constructor|].
  rewrite slot_set_cons. destruct (sk_lt (sk_client s) (sk_key s) c k) eqn:E.
  - constructor; [done|]. by apply (slot_set_Forall (fun c' k' => sk_lt (sk_client s) (sk_key s) c' k' = true)).
  - destruct ((sk_client s =? c) && key_eqb (sk_key s) k) eqn:E2.
    + apply andb_true_iff in E2 as [E2 E3]. apply Z.eqb_eq in E2. apply key_eqb_eq in E3.
      constructor; [done|]. by rewrite Hc, Hk, <- E2, <- E3.
    + pose proof (sk_lt_total _ _ _ _ E E2) as Hlt.
      repeat (constructor; try done); rewrite Hc, Hk; [done|].
      eapply Forall_impl; [exact Hs|]. cbn. intros x. by apply sk_lt_trans.
Qed.

Lemma sk_at_set v c k s' c' k' :
  sk_client s' = c -> sk_key s' = k -> sk_sorted v ->
  sk_at (slot_set v c k s') c' k' = if (c =? c') && key_eqb k k' then s' else sk_at v c' k'.
Proof.
  intros Hc Hk. induction 1 as [|s v Hv IH Hs].
  - unfold slot_set. cbn [slot app]. rewrite sk_at_cons, Hc, Hk.
    unfold sk_lt. destruct (Z.eqb_spec c c') as [->|], (key_eqb_spec k k') as [->|]; cbn;
      rewrite ?Z.ltb_irrefl, ?key_ltb_irrefl; try done; by destruct (_ || _).
  - rewrite slot_set_cons, (sk_at_cons s). destruct (sk_lt (sk_client s) (sk_key s) c k) eqn:E.
    + rewrite sk_at_cons, IH.
      destruct (sk_lt (sk_client s) (sk_key s) c' k') eqn:E'; [done|].
      destruct ((c =? c') && key_eqb k k') eqn:E2; [|done].
      apply andb_true_iff in E2 as [E2 E3]. apply Z.eqb_eq in E2. apply key_eqb_eq in E3. congruence.
    + destruct ((sk_client s =? c) && key_eqb (sk_key s) k) eqn:E2.
      * apply andb_true_iff in E2 as [E2 E3]. apply Z.eqb_eq in E2. apply key_eqb_eq in E3.
        rewrite sk_at_cons, Hc, Hk, E2, E3.
        destruct ((c =? c') && key_eqb k k') eqn:E4; [|done].
        apply andb_true_iff in E4 as [E4 E5]. apply Z.eqb_eq in E4. apply key_eqb_eq in E5. subst.
        by rewrite sk_lt_irrefl.
      * pose proof (sk_lt_total _ _ _ _ E E2) as Hlt.
        rewrite sk_at_cons, Hc, Hk, sk_at_cons.
        destruct ((c =? c') && key_eqb k k') eqn:E4.
        { apply andb_true_iff in E4 as [E4 E5]. apply Z.eqb_eq in E4. apply key_eqb_eq in E5. rewrite E4, E5.
          by rewrite sk_lt_irrefl. }
        destruct (sk_lt c k c' k') eqn:E5; [done|].
        destruct (sk_lt (sk_client s) (sk_key s) c' k') eqn:E6; [by rewrite (sk_lt_trans _ _ _ _ _ _ Hlt E6) in E5|].
        destruct ((sk_client s =? c') && key_eqb (sk_key s) k') eqn:E7; [|done].
        apply andb_true_iff in E7 as [E7 E8]. apply Z.eqb_eq in E7. apply key_eqb_eq in E8. congruence.
Qed.

(** ** What an accepted session history satisfies *)

Definition in_session (c : Z) (k : list byte) (o : Op) : Prop := ok o = true /\ client_id o = c /\ key o = k.

#[global] Instance in_session_dec c k o : Decision (in_session c k o).
Proof. apply _. Defined.

(** The floor of one session and key after its operations. *)
Fixpoint notes (s : SessionKey) (l : list Op) : option SessionKey :=
  match l with
  | [] => Some s
  | o :: l' => s' ← note s o; notes s' l'
  end.

Lemma note_owner s o s' : note s o = Some s' -> sk_client s' = sk_client s /\ sk_key s' = sk_key s.
Proof.
  unfold note, note_read, note_write. intros H.
  destruct (kind o); repeat (case_match; simplify_eq/=; try done).
Qed.

Lemma check_sessions_notes h v :
  sk_sorted v ->
  v_ok (check_sessions h v) = true ->
  forall c k, is_Some (notes (sk_at v c k) (filter (in_session c k) h)).
Proof.
  revert v; induction h as [|o h IH]; intros v Hv Hok c k; [by eexists|].
  cbn [check_sessions] in Hok. rewrite filter_cons.
  destruct (ok o) eqn:Eo; cbn [negb] in Hok.
  - pose proof (slot_same v (client_id o) (key o)) as [Hsc Hsk].
    pose proof (sk_at_set v (client_id o) (key o)) as Hset.
    pose proof (slot_set_sorted v (client_id o) (key o)) as Hsort.
    unfold slot_set, sk_at in Hset, Hsort, Hsc, Hsk.
    destruct (slot v (client_id o) (key o)) as [[l s] r] eqn:Es.
    destruct (note s o) as [s'|] eqn:En; [|done].
    destruct (note_owner _ _ _ En) as [Hc Hk].
    specialize (Hsort s' ltac:(congruence) ltac:(congruence) Hv).
    specialize (IH _ Hsort Hok c k). specialize (Hset s' c k ltac:(congruence) ltac:(congruence) Hv).
    unfold sk_at in IH. rewrite Hset in IH.
    case_decide as Hin.
    + destruct Hin as (_ & <- & <-). rewrite Z.eqb_refl, key_eqb_refl in IH. cbn in *.
      unfold sk_at. rewrite Es. by rewrite En.
    + destruct ((client_id o =? c) && key_eqb (key o) k) eqn:E; [|exact IH].
      apply andb_true_iff in E as [E1 E2]. apply Z.eqb_eq in E1. apply key_eqb_eq in E2.
      by destruct Hin.
  - case_decide as Hin; [by destruct Hin; congruence|]. by apply IH.
Qed.

(** An acknowledged, tagged mutation. *)
Definition tagged_write (o : Op) : bool :=
  is_mutation o && key_eqb (result o) ack && (0 <=? own_index (client_id o) (value o)).

Lemma notes_app s l1 l2 : notes s (l1 ++ l2) = s' ← notes s l1; notes s' l2.
Proof. revert s; induction l1 as [|o l IH]; intros s; cbn; [done|]. destruct (note s o); cbn; auto. Qed.

(** After a run: the floor is above every tagged write, and the latest of them set the
    tick a read is compared with. *)
Definition floor_ok (l : list Op) (s : SessionKey) : Prop :=
  forall w, w ∈ l -> tagged_write w = true ->
    has_ack s = true /\ own_index (client_id w) (value w) <= high_idx s /\
    exists w', w' ∈ l /\ tagged_write w' = true /\ ack_return_vt s = return_vt w'.

Lemma note_floor l s o s' : floor_ok l s -> note s o = Some s' -> floor_ok (l ++ [o]) s'.
Proof.
  intros Hf Hn w Hw Ht. apply elem_of_app in Hw. rewrite list_elem_of_singleton in Hw.
  unfold note, note_read, note_write in Hn.
  assert (Hkeep : has_ack s' = has_ack s -> high_idx s <= high_idx s' ->
            ack_return_vt s' = ack_return_vt s -> tagged_write o = false ->
            has_ack s' = true /\ own_index (client_id w) (value w) <= high_idx s' /\
            exists w', w' ∈ l ++ [o] /\ tagged_write w' = true /\ ack_return_vt s' = return_vt w').
  { intros E1 E2 E3 E4. destruct Hw as [Hw| ->]; [|congruence].
    destruct (Hf w Hw Ht) as (H1 & H2 & w' & H3 & H4 & H5). rewrite E1, E3.
    split; [done|]. split; [lia|]. exists w'. rewrite elem_of_app. auto. }
  assert (Hset : has_ack s' = true -> high_idx s <= high_idx s' -> own_index (client_id o) (value o) <= high_idx s' ->
            ack_return_vt s' = return_vt o -> tagged_write o = true ->
            has_ack s' = true /\ own_index (client_id w) (value w) <= high_idx s' /\
            exists w', w' ∈ l ++ [o] /\ tagged_write w' = true /\ ack_return_vt s' = return_vt w').
  { intros E1 E2 E3 E4 E5. split; [done|]. split.
    - destruct Hw as [Hw| ->]; [|done]. destruct (Hf w Hw Ht) as (_ & H2 & _). lia.
    - exists o. rewrite elem_of_app, list_elem_of_singleton. auto. }
  unfold tagged_write, is_mutation in Hkeep, Hset.
  destruct (kind o) eqn:Ek; cbn [andb] in Hkeep, Hset;
    repeat (case_match; simplify_eq/=; try done);
    first [apply Hkeep; cbn; first [done|lia] | apply Hset; cbn; first [done|lia]].
Qed.

Lemma notes_floor l2 : forall l1 s s', floor_ok l1 s -> notes s l2 = Some s' -> floor_ok (l1 ++ l2) s'.
Proof.
  induction l2 as [|o l2 IH]; intros l1 s s' Hf Hn; cbn in Hn.
  { simplify_eq. by rewrite app_nil_r. }
  apply bind_Some in Hn as (s1 & H1 & H2).
  replace (l1 ++ o :: l2) with ((l1 ++ [o]) ++ l2) by (by rewrite <- app_assoc).
  eauto using note_floor.
Qed.

(** The tagged writes of the read's own session to the same key before it. *)
Definition own_writes (r : Op) (pre : History) : list Op :=
  filter (fun w => in_session (client_id r) (key r) w /\ tagged_write w = true) pre.

(** C-MONO is read-your-writes: in a history it accepts, a successful read that starts
    after all earlier tagged writes of its own session to its key have returned does not
    observe the empty register and does not observe one of the session's own values older
    than any of those writes. *)
Theorem session_reads_own_writes h pre r post :
  v_ok (session_monotonic h) = true ->
  h = pre ++ r :: post ->
  kind r = Read ->
  ok r = true ->
  Forall (fun w => return_vt w < invoke_vt r) (own_writes r pre) ->
  Forall (fun w => result r <> [] /\
    (0 <= own_index (client_id r) (result r) ->
     own_index (client_id r) (value w) <= own_index (client_id r) (result r))) (own_writes r pre).
Proof.
  intros Hok -> Hk Hr Hall. unfold own_writes in *.
  destruct (check_sessions_notes _ [] ltac:(constructor) Hok (client_id r) (key r)) as [sf Hn].
  rewrite filter_app, filter_cons, decide_True in Hn by done.
  rewrite notes_app in Hn. apply bind_Some in Hn as (s & Hs & Hn).
  cbn [notes] in Hn. apply bind_Some in Hn as (s' & Hn & _).
  apply (notes_floor _ []) in Hs; [|by intros w Hw%not_elem_of_nil].
  rewrite Forall_forall in Hall. apply Forall_forall. intros w Hw. pose proof Hw as Hw0.
  apply list_elem_of_filter in Hw as [[Hin Ht] Hw]. pose proof Hin as (_ & Hc & _).
  destruct (Hs w) as (Ha & Hi & w' & Hw' & Ht' & Hv); [by apply list_elem_of_filter|done|].
  apply list_elem_of_filter in Hw' as [Hin' Hw'].
  assert (Hlt : return_vt w' < invoke_vt r) by (apply Hall, list_elem_of_filter; done).
  unfold note, note_read in Hn. rewrite Hk, Ha in Hn. cbn [negb] in Hn.
  rewrite Hv, (proj2 (Z.leb_gt _ _) Hlt) in Hn.
  destruct (key_eqb_spec (result r) []); [done|]. split; [done|]. intros H0.
  rewrite (proj2 (Z.leb_le _ _) H0) in Hn. rewrite Hc in Hi.
  destruct (own_index (client_id r) (result r) <? high_idx s) eqn:E; [done|]. lia.
Qed.

(** ** The recorder *)

Inductive call :=
| Invoke (client : Z) (k : OpKind) (ky v old : list byte) (now : Z)
| Return (id : Z) (okb : bool) (res err : list byte) (now : Z).

Definition call_time (c : call) : Z := match c with Invoke _ _ _ _ _ t | Return _ _ _ _ t => t end.

Definition record (r : HistoryRecorder) (c : call) : HistoryRecorder :=
  match c with
  | Invoke cl k ky v old t => snd (on_invoke cl k ky v old t r)
  | Return id b res err t => on_return id b res err t r
  end.

(** What holds of a recorder at tick [now] after fewer than 2^64 - 1 invocations: handles
    and sequence numbers count the invocations, and no operation is in the future. *)
Record rec_wf (now : Z) (r : HistoryRecorder) : Prop := {
  rw_ids : op_id <$> ops_ r = (fun i => Z.of_nat i + 1) <$> List.seq 0 (length (ops_ r));
  rw_seqs : seq <$> ops_ r = Z.of_nat <$> List.seq 0 (length (ops_ r));
  rw_next_id : next_op_id_ r = Zlen (ops_ r) + 1;
  rw_next_seq : next_seq_ r = Zlen (ops_ r);
  rw_times : Forall (fun o => invoke_vt o <= now /\ (returned o = true -> invoke_vt o <= return_vt o)) (ops_ r)
}.

Lemma complete_op_map {B} (f : Op -> B) id b res err now l :
  (forall o, f (complete o b res err now) = f o) -> f <$> complete_op id b res err now l = f <$> l.
Proof. intros H. induction l as [|o l IH]; cbn; [done|]. destruct (op_id o =? id); cbn; [by rewrite H|by rewrite IH]. Qed.

Lemma complete_op_length id b res err now l : length (complete_op id b res err now l) = length l.
Proof. induction l as [|o l IH]; cbn; [done|]. destruct (op_id o =? id); cbn; lia. Qed.

Lemma record_wf now r c :
  rec_wf now r -> now <= call_time c -> Zlen (ops_ r) < 2 ^ 64 - 2 -> rec_wf (call_time c) (record r c).
Proof.
  intros [H1 H2 H3 H4 H5] Ht Hb. assert (Hl := Zlen_nonneg (ops_ r)).
  destruct c as [cl k ky v old t|id b res err t]; cbn [call_time record on_invoke snd on_return] in *.
  - split; cbn [ops_ next_op_id_ next_seq_]; rewrite ?length_app, ?Zlen_app.
    + cbn [length]. rewrite seq_app, !fmap_app, H1. f_equal. cbn. rewrite H3. unfold Zlen. do 2 f_equal. 
    + cbn [length]. rewrite seq_app, !fmap_app, H2. f_equal. cbn. by rewrite H4.
    + rewrite H3. unfold Zlen at 3. cbn [length]. rewrite u64_id; lia.
    + rewrite H4. unfold Zlen at 3. cbn [length]. rewrite u64_id; lia.
    + apply Forall_app. split; [|by repeat constructor].
      eapply Forall_impl; [exact H5|]. cbn. intros o [? ?]. split; [lia|done].
  - unfold on_return. split; cbn [ops_ next_op_id_ next_seq_]; unfold Zlen in *; rewrite ?complete_op_length; [by rewrite complete_op_map..|done|done|].
    clear -H5 Ht. induction H5 as [|o l [Ho1 Ho2] Hl IH]; cbn; [constructor|].
    destruct (op_id o =? id); constructor; [..|exact IH]; [cbn; lia| |split; [lia|done]].
    eapply Forall_impl; [exact Hl|]. cbn. intros x [? ?]. split; [lia|done].
Qed.

Lemma record_size r c : Zlen (ops_ r) <= Zlen (ops_ (record r c)) <= Zlen (ops_ r) + 1.
Proof.
  destruct c; cbn; unfold Zlen; rewrite ?length_app, ?complete_op_length; cbn; lia.
Qed.

Lemma calls_wf calls now r :
  rec_wf now r -> Sorted Z.le (now :: (call_time <$> calls)) ->
  Zlen (ops_ r) + Zlen calls < 2 ^ 64 - 1 -> exists now', rec_wf now' (foldl record r calls).
Proof.
  revert now r; induction calls as [|c calls IH]; intros now r Hw Hs Hb; cbn; [eauto|].
  cbn in Hs. apply Sorted_inv in Hs as [Hs Hd]. apply HdRel_inv in Hd.
  pose proof (record_size r c) as Hz. pose proof (Zlen_nonneg calls).
  unfold Zlen at 2 in Hb. cbn [length] in Hb. fold (Zlen calls) in *.
  apply (IH (call_time c)); [|done|unfold Zlen in *; lia].
  eapply record_wf; [done..|]. unfold Zlen in *. lia.
Qed.

(** The recorder: after any calls at non-decreasing ticks (fewer than 2^64 - 1 of
    them), the history is exactly the completed operations, in strictly increasing order
    of return tick and invocation, with distinct handles, and no operation in it returned
    before it was invoked, so the structural checker accepts it. *)
Theorem recorded_history calls :
  Sorted Z.le (call_time <$> calls) ->
  Zlen calls < 2 ^ 64 - 1 ->
  let r := foldl record new_recorder calls in
  history r ≡ₚ filter (fun o => returned o = true) (ops_ r) /\
  StronglySorted (fun a b => return_vt a < return_vt b \/ (return_vt a = return_vt b /\ seq a < seq b)) (history r) /\
  NoDup (op_id <$> history r) /\
  v_ok (invoke_before_return (history r)) = true.
Proof.
  intros Hs Hb r.
  assert (exists now', rec_wf now' r) as [now' [H1 H2 _ _ H5]].
  { destruct calls as [|c calls]; [by exists 0; split; cbn; try done|].
    apply (calls_wf _ (call_time c)); [by split; cbn; try done| |by unfold Zlen in *; cbn in *; lia].
    cbn in *. constructor; [done|]. by constructor. }
  assert (Hp := isort_perm op_leb (filter (fun o => returned o = true) (ops_ r))).
  fold (history r) in Hp. split; [done|].
  assert (Hseq : NoDup (seq <$> history r)).
  { rewrite Hp. eapply sublist_NoDup; [|apply fmap_sublist, sublist_filter].
    rewrite H2. apply NoDup_fmap_2; [apply _|apply NoDup_ListNoDup, seq_NoDup]. }
  split; [|split].
  - assert (Ho : ordered op_leb (history r)) by (apply isort_ordered; eauto using op_leb_total, op_leb_trans).
    clear -Ho Hseq. induction Ho as [|o l Hl IH Hx]; [constructor|].
    cbn in Hseq. apply NoDup_cons in Hseq as [Hni Hnd]. constructor; [auto|].
    rewrite Forall_forall in *. intros y Hy. specialize (Hx y Hy). unfold op_leb in Hx.
    assert (seq o <> seq y) by (intros E; apply Hni; rewrite E; by apply list_elem_of_fmap_2).
    destruct (return_vt o =? return_vt y) eqn:E; lia.
  - rewrite Hp. eapply sublist_NoDup; [|apply fmap_sublist, sublist_filter].
    rewrite H1. apply NoDup_fmap_2; [intros ? ?; lia|apply NoDup_ListNoDup, seq_NoDup].
  - apply invoke_before_return_ok. rewrite Hp, Forall_forall in *.
    intros o (Hret & Ho)%list_elem_of_filter. by apply H5.
Qed.

(** ** Runs *)

(** A session that writes twice and reads its second value back. *)
Definition session_run : History :=
  [ mkOp 7 1 Write (lit "x") (lit "c7_v0") [] 0 5 true ack [] 0 true;
    mkOp 7 2 Write (lit "x") (lit "c7_v1") [] 6 9 true ack [] 1 true;
    mkOp 7 3 Read (lit "x") [] [] 10 15 true (lit "c7_v1") [] 2 true ].

Lemma session_reads_own_writes_witness :
  Forall (fun w => lit "c7_v1" <> [] /\
    (0 <= own_index 7 (lit "c7_v1") -> own_index 7 (value w) <= own_index 7 (lit "c7_v1"))) (take 2 session_run).
Proof.
  pose proof (session_reads_own_writes session_run (take 2 session_run)
    (mkOp 7 3 Read (lit "x") [] [] 10 15 true (lit "c7_v1") [] 2 true) []
    ltac:(vm_compute; reflexivity) eq_refl eq_refl eq_refl) as H.
  assert (Ho : own_writes (mkOp 7 3 Read (lit "x") [] [] 10 15 true (lit "c7_v1") [] 2 true) (take 2 session_run)
    = take 2 session_run) by (vm_compute; reflexivity).
  rewrite Ho in H. apply H. repeat constructor.
Defined.

Definition two_calls : list call :=
  [ Invoke 1 Write (lit "x") (lit "a") [] 0; Invoke 2 Read (lit "x") [] [] 3;
    Return 2 true (lit "a") [] 4; Return 1 true ack [] 4 ].

Lemma recorded_history_witness : op_id <$> history (foldl record new_recorder two_calls) = [1; 2].
Proof.
  assert (Hs : Sorted Z.le (call_time <$> two_calls)) by (unfold two_calls; cbn; repeat constructor; lia).
  pose proof (recorded_history two_calls Hs ltac:(vm_compute; reflexivity)) as (_ & _ & _ & H).
  vm_compute. reflexivity.
Defined.
