(* ===== verification/Linearizable.v ===== *)
(** Linearizable: the linearizability checker C-LIN (harness/checkers/Linearizable.hpp),
    a bounded Wing and Gong search per key with a set of dead ends, against the definition
    of linearizability of a whole history of registers.

    The members [steps_], [budget_hit_] and [visited_] are the state the search threads.
    The masks are 64-bit words; a shift amount is an index below 64. *)

From Stdlib Require Import ZArith Lia Sorting.Sorted.
From stdpp Require Import base list sets sorting numbers strings.
From S2P Require Import Prelude StableSort History.
#[local] Open Scope Z_scope.

(** ** The search *)

Definition kMaxOpsPerKey : nat := 64.
Definition kMaxSteps : Z := 200000.
Definition kMaxVisited : nat := Z.to_nat 300000.

(** The view of one operation: a failed read is left out, a mutation whose outcome is
    unknown is an optional write. *)
Definition classify (o : Op) : option LinOp :=
  let lin := mkLin (op_id o) (client_id o) (invoke_vt o) (return_vt o) in
  match kind o with
  | Read => if negb (ok o) then None else Some (lin ERead (result o) (cas_old o) false)
  | Write => Some (lin WriteCommit (value o) (cas_old o) (negb (ok o)))
  | Cas =>
      if ok o && key_eqb (result o) ack then Some (lin CasCommit (value o) (cas_old o) false)
      else if negb (ok o) && key_eqb (error o) cas_mismatch then Some (lin CasMismatch [] (cas_old o) false)
      else Some (lin WriteCommit (value o) (cas_old o) true)
  end.

Record Visited := mkVisited { v_mask : Z; v_present : bool; v_cur : list byte }.

Definition visited_less (a b : Visited) : bool :=
  if negb (v_mask a =? v_mask b) then v_mask a <? v_mask b
  else if negb (Bool.eqb (v_present a) (v_present b)) then negb (v_present a) && v_present b
  else key_ltb (v_cur a) (v_cur b).

Fixpoint find_between (fuel : nat) (v : list Visited) (probe : Visited) (lo hi : nat) : bool :=
  match fuel with
  | O => false
  | S fuel' =>
      if Nat.ltb lo hi then
        let mid := (lo + (hi - lo) / 2)%nat in
        match v !! mid with
        | None => false
        | Some x =>
            if visited_less x probe then find_between fuel' v probe (S mid) hi
            else if visited_less probe x then find_between fuel' v probe lo mid
            else true
        end
      else false
  end.

Definition visited_contains (v : list Visited) (probe : Visited) : bool :=
  find_between (S (length v)) v probe 0 (length v).

Fixpoint lower_bound (fuel : nat) (v : list Visited) (x : Visited) (lo hi : nat) : nat :=
  match fuel with
  | O => lo
  | S fuel' =>
      if Nat.ltb lo hi then
        let mid := (lo + (hi - lo) / 2)%nat in
        match v !! mid with
        | None => lo
        | Some y =>
            if visited_less y x then lower_bound fuel' v x (S mid) hi else lower_bound fuel' v x lo mid
        end
      else lo
  end.

Definition visited_insert (v : list Visited) (x : Visited) : list Visited :=
  let lo := lower_bound (S (length v)) v x 0 (length v) in take lo v ++ x :: drop lo v.

Record search_state := mkSearch { steps_ : Z; budget_hit_ : bool; visited_ : list Visited }.

(** [apply]: the register after the operation, or [None] where it is illegal. *)
Definition apply (op : LinOp) (present : bool) (cur : list byte) : option (bool * list byte) :=
  let current := if present then cur else [] in
  match l_eff op with
  | ERead => if negb (key_eqb (l_value op) current) then None else Some (present, cur)
  | CasMismatch => if key_eqb current (l_cas_old op) then None else Some (present, cur)
  | CasCommit => if negb (key_eqb current (l_cas_old op)) then None else Some (true, l_value op)
  | WriteCommit => Some (true, l_value op)
  end.

Definition bit (i : nat) : Z := Z.shiftl 1 (Z.of_nat i).
Definition is_set (mask : Z) (i : nat) : bool := negb (Z.land mask (bit i) =? 0).
Definition full_mask (n : nat) : Z := if Nat.eqb n 64 then 2 ^ 64 - 1 else bit n - 1.

(** The least return tick of the operations not yet placed. *)
Fixpoint min_pending (mask : Z) (i : nat) (ops : list LinOp) (acc : option Z) : option Z :=
  match ops with
  | [] => acc
  | op :: ops' =>
      min_pending mask (S i) ops'
        (if is_set mask i then acc
         else match acc with
              | None => Some (l_ret op)
              | Some m => if l_ret op <? m then Some (l_ret op) else acc
              end)
  end.

(** The loop over the candidates: [Some b] is a return from within it. *)
Section candidates.
Variable rec : Z -> bool -> list byte -> search_state -> bool * search_state.
Variables (mask min_ret : Z) (present : bool) (cur : list byte).

(** A recursive call and the test of the budget after it. *)
Definition descend (m : Z) (p : bool) (c : list byte) (s : search_state)
    (next : search_state -> option bool * search_state) : option bool * search_state :=
  let '(r, s') := rec m p c s in
  if r then (Some true, s') else if budget_hit_ s' then (Some false, s') else next s'.

Fixpoint candidates (i : nat) (ops : list LinOp) (s : search_state) : option bool * search_state :=
  match ops with
  | [] => (None, s)
  | op :: ops' =>
      let next := candidates (S i) ops' in
      if is_set mask i then next s
      else
        let place s :=
          if min_ret <? l_invoke op then next s
          else match apply op present cur with
               | None => next s
               | Some (p, c) => descend (Z.lor mask (bit i)) p c s next
               end in
        if l_optional op then descend (Z.lor mask (bit i)) present cur s place else place s
  end.
End candidates.

(** One level of recursion per operation placed or skipped: [fuel] is the number of
    operations left. *)
Fixpoint search (fuel : nat) (ops : list LinOp) (mask : Z) (present : bool) (cur : list byte)
    (s : search_state) : bool * search_state :=
  if mask =? full_mask (length ops) then (true, s)
  else if kMaxSteps <=? steps_ s then (false, mkSearch (steps_ s) true (visited_ s))
  else
    let s := mkSearch (steps_ s + 1) (budget_hit_ s) (visited_ s) in
    if visited_contains (visited_ s) (mkVisited mask present cur) then (false, s)
    else
      match fuel with
      | O => (false, s)
      | S fuel' =>
          let min_ret := default 0 (min_pending mask 0 ops None) in
          match candidates (search fuel' ops) mask min_ret present cur 0 ops s with
          | (Some r, s) => (r, s)
          | (None, s) =>
              (false,
               if Nat.ltb (length (visited_ s)) kMaxVisited
               then mkSearch (steps_ s) (budget_hit_ s) (visited_insert (visited_ s) (mkVisited mask present cur))
               else s)
          end
      end.

Definition key_ops (h : History) (k : list byte) : list LinOp :=
  omap classify (filter (fun o => key o = k) h).

Definition check_key (h : History) (k : list byte) : Verdict :=
  let ops := key_ops h k in
  let n := length ops in
  if Nat.eqb n 0 then verdict_ok
  else if Nat.ltb kMaxOpsPerKey n then verdict_violation (UndecidedOps k n)
  else
    let '(r, s) := search n ops 0 false [] (mkSearch 0 false []) in
    if budget_hit_ s then verdict_violation (UndecidedSteps k)
    else if r then verdict_ok
    else verdict_violation (NotLinearizable k ops).

Fixpoint check_keys (h : History) (keys : list (list byte)) : Verdict :=
  match keys with
  | [] => verdict_ok
  | k :: keys' => let v := check_key h k in if negb (v_ok v) then v else check_keys h keys'
  end.

Definition linearizable_final (h : History) : Verdict := check_keys h (first_keys h []).

Definition c_lin : Checker := mkChecker "C-LIN" linearizable_final.

(** ** Linearizability *)

(** A mutation whose outcome the client does not know, and a read that failed, may be left
    out of the order. *)
Definition lost_cas (o : Op) : bool :=
  match kind o with Cas => negb (ok o && key_eqb (result o) ack) && negb (rejected_cas o) | _ => false end.

Definition may_drop (o : Op) : bool :=
  match kind o with Cas => lost_cas o | _ => negb (ok o) end.

(** The register after an operation took effect, [None] where the register semantics
    forbids what the client observed. *)
Definition explains (o : Op) (cur : list byte) : option (list byte) :=
  match kind o with
  | Read => if negb (ok o) || key_eqb (result o) cur then Some cur else None
  | Write => Some (value o)
  | Cas =>
      if rejected_cas o then if key_eqb cur (cas_old o) then None else Some cur
      else if key_eqb cur (cas_old o) then Some (value o) else None
  end.

(** [lenient] lets a compare-and-set of unknown outcome take effect whatever the register
    holds, which is how the checker reads one. *)
Definition step_reg (lenient : bool) (o : Op) (cur : list byte) : option (list byte) :=
  if lenient && lost_cas o then Some (value o) else explains o cur.

Definition store : Type := list byte -> list byte.
Definition store_set (st : store) (k v : list byte) : store := fun k' => if key_eqb k k' then v else st k'.

Fixpoint run_store (lenient : bool) (st : store) (l : list Op) : option store :=
  match l with
  | [] => Some st
  | o :: l' => v ← step_reg lenient o (st (key o)); run_store lenient (store_set st (key o) v) l'
  end.

(** [a] may come before [b]: [b] did not return before [a] was invoked. *)
Definition real_time (a b : Op) : Prop := invoke_vt a <= return_vt b.

(** One total order of the operations, those that may be dropped excepted, that respects
    real time and is a run of a store of registers that starts empty. *)
Definition linearizable (lenient : bool) (h : History) : Prop :=
  exists order dropped,
    order ++ dropped ≡ₚ h /\
    Forall (fun o => may_drop o = true) dropped /\
    StronglySorted real_time order /\
    is_Some (run_store lenient (fun _ => []) order).

(** ** Masks *)

Lemma is_set_testbit mask i : is_set mask i = Z.testbit mask (Z.of_nat i).
Proof.
  unfold is_set, bit. rewrite Z.shiftl_1_l.
  destruct (Z.testbit mask (Z.of_nat i)) eqn:E.
  - destruct (Z.land mask (2 ^ Z.of_nat i) =? 0) eqn:E0; [|done].
    apply Z.eqb_eq in E0. apply (f_equal (fun z => Z.testbit z (Z.of_nat i))) in E0.
    rewrite Z.land_spec, E, Z.pow2_bits_true, Z.testbit_0_l in E0 by lia. done.
  - assert (Z.land mask (2 ^ Z.of_nat i) = 0) as ->; [|done].
    apply Z.bits_inj'. intros j Hj. rewrite Z.land_spec, Z.testbit_0_l.
    destruct (Z.eqb_spec (Z.of_nat i) j) as [<-|Hn]; [by rewrite E|].
    rewrite Z.pow2_bits_false by lia. apply andb_false_r.
Qed.

Lemma is_set_lor mask i j : is_set (Z.lor mask (bit i)) j = is_set mask j || Nat.eqb i j.
Proof.
  rewrite !is_set_testbit, Z.lor_spec. unfold bit. rewrite Z.shiftl_1_l. f_equal.
  destruct (Nat.eqb_spec i j) as [->|]; [apply Z.pow2_bits_true; lia|apply Z.pow2_bits_false; lia].
Qed.

Lemma full_mask_ones n : full_mask n = Z.ones (Z.of_nat n).
Proof.
  unfold full_mask, bit. rewrite Z.ones_equiv, Z.shiftl_1_l.
  destruct (Nat.eqb_spec n 64) as [->|]; [reflexivity|lia].
Qed.

Definition mask_ok (n : nat) (mask : Z) : Prop := 0 <= mask < 2 ^ Z.of_nat n.

Lemma mask_ok_high n mask i : mask_ok n mask -> (n <= i)%nat -> is_set mask i = false.
Proof.
  intros [H1 H2] Hi. rewrite is_set_testbit.
  destruct (Z.eq_dec mask 0) as [->|]; [apply Z.testbit_0_l|].
  apply Z.bits_above_log2; [done|]. apply Z.log2_lt_pow2; [lia|].
  eapply Z.lt_le_trans; [exact H2|]. apply Z.pow_le_mono_r; lia.
Qed.

Lemma mask_ok_lor n mask i : mask_ok n mask -> (i < n)%nat -> mask_ok n (Z.lor mask (bit i)).
Proof.
  intros [H1 H2] Hi. unfold mask_ok, bit. rewrite Z.shiftl_1_l.
  assert (0 < 2 ^ Z.of_nat i) by (apply Z.pow_pos_nonneg; lia).
  split; [apply Z.lor_nonneg; lia|].
  assert (0 <= Z.lor mask (2 ^ Z.of_nat i)) by (apply Z.lor_nonneg; lia).
  destruct (Z.eq_dec (Z.lor mask (2 ^ Z.of_nat i)) 0) as [->|]; [apply Z.pow_pos_nonneg; lia|].
  apply Z.log2_lt_pow2; [lia|]. rewrite Z.log2_lor, Z.log2_pow2 by lia.
  apply Z.max_lub_lt; [|lia].
  destruct (Z.eq_dec mask 0) as [->|]; [cbn; lia|]. apply Z.log2_lt_pow2; lia.
Qed.

Lemma full_mask_spec n mask :
  mask_ok n mask -> mask = full_mask n <-> forall i, (i < n)%nat -> is_set mask i = true.
Proof.
  intros Hok. rewrite full_mask_ones. split.
  - intros -> i Hi. rewrite is_set_testbit. apply Z.ones_spec_low. lia.
  - intros H. apply Z.bits_inj'. intros j Hj. destruct (Z_lt_le_dec j (Z.of_nat n)).
    + rewrite Z.ones_spec_low by lia. rewrite <- (Z2Nat.id j) by lia. rewrite <- is_set_testbit. apply H. lia.
    + rewrite Z.ones_spec_high by lia. rewrite <- (Z2Nat.id j) by lia. rewrite <- is_set_testbit.
      apply (mask_ok_high n); [done|lia].
Qed.

(** ** The operations left *)

Fixpoint pending (mask : Z) (i : nat) (ops : list LinOp) : list LinOp :=
  match ops with
  | [] => []
  | op :: ops' => if is_set mask i then pending mask (S i) ops' else op :: pending mask (S i) ops'
  end.

Lemma pending_zero i ops : pending 0 i ops = ops.
Proof.
  revert i; induction ops as [|op ops IH]; intros i; cbn; [done|].
  rewrite is_set_testbit, Z.testbit_0_l. by rewrite IH.
Qed.

Lemma pending_below mask j i ops : (j < i)%nat -> pending (Z.lor mask (bit j)) i ops = pending mask i ops.
Proof.
  revert i; induction ops as [|op ops IH]; intros i Hi; cbn; [done|].
  rewrite is_set_lor, IH by lia. destruct (Nat.eqb_spec j i); [lia|]. by rewrite orb_false_r.
Qed.

Lemma pending_set mask i j op ops :
  ops !! j = Some op -> is_set mask (i + j) = false ->
  pending mask i ops ≡ₚ op :: pending (Z.lor mask (bit (i + j))) i ops.
Proof.
  revert i j; induction ops as [|x ops IH]; intros i j Hj Hs; [done|].
  destruct j as [|j]; cbn in *.
  - simplify_eq. rewrite Nat.add_0_r in *. rewrite is_set_lor, Hs, Nat.eqb_refl. cbn.
    by rewrite pending_below by lia.
  - rewrite is_set_lor. destruct (Nat.eqb_spec (i + S j) i); [lia|]. rewrite orb_false_r.
    replace (i + S j)%nat with (S i + j)%nat in * by lia.
    destruct (is_set mask i); rewrite (IH (S i) j) by done; [done|constructor].
Qed.

Lemma pending_elem mask i op ops :
  op ∈ pending mask i ops <-> exists j, ops !! j = Some op /\ is_set mask (i + j) = false.
Proof.
  revert i; induction ops as [|x ops IH]; intros i; cbn.
  { split; [by intros ?%not_elem_of_nil|by intros (j & ? & _)]. }
  assert (Hshift : (exists j, (x :: ops) !! j = Some op /\ is_set mask (i + j) = false) <->
    (x = op /\ is_set mask i = false) \/ op ∈ pending mask (S i) ops).
  { rewrite IH. split.
    - intros ([|j] & Hj & Hs); cbn in Hj; [left|right].
      + simplify_eq. by rewrite Nat.add_0_r in Hs.
      + exists j. by replace (S i + j)%nat with (i + S j)%nat by lia.
    - intros [[-> Hs]|(j & Hj & Hs)]; [exists O|exists (S j)]; cbn; [by rewrite Nat.add_0_r|].
      by replace (i + S j)%nat with (S i + j)%nat by lia. }
  rewrite Hshift. destruct (is_set mask i); set_solver.
Qed.

Lemma pending_nil mask ops :
  mask_ok (length ops) mask -> pending mask 0 ops = [] <-> mask = full_mask (length ops).
Proof.
  intros Hok. rewrite full_mask_spec by done. split.
  - intros Hp i [op Hi]%lookup_lt_is_Some. destruct (is_set mask i) eqn:E; [done|].
    exfalso. apply (not_elem_of_nil op). rewrite <- Hp. apply pending_elem. eauto.
  - intros H. destruct (pending mask 0 ops) as [|op l] eqn:Ep; [done|].
    assert (op ∈ pending mask 0 ops) as (j & Hj & Hs)%pending_elem by (rewrite Ep; left).
    rewrite H in Hs; [done|]. by eapply lookup_lt_Some.
Qed.

(** The frontier is the least return tick of the operations left. *)
Lemma min_pending_spec mask i ops acc x :
  (forall m, min_pending mask i ops acc = Some m ->
     x <= m <-> (forall a, acc = Some a -> x <= a) /\ Forall (fun op => x <= l_ret op) (pending mask i ops)) /\
  (acc <> None \/ pending mask i ops <> [] -> min_pending mask i ops acc <> None).
Proof.
  revert i acc; induction ops as [|op ops IH]; intros i acc; cbn.
  - split; [intros m ->; rewrite Forall_nil; naive_solver|naive_solver].
  - destruct (IH (S i) (if is_set mask i then acc else match acc with None => Some (l_ret op)
      | Some m => if l_ret op <? m then Some (l_ret op) else acc end)) as [IH1 IH2]. split.
    + intros m Hm. rewrite (IH1 m Hm). destruct (is_set mask i); [done|].
      rewrite Forall_cons. destruct acc as [a|]; [destruct (l_ret op <? a) eqn:E|].
      * split; [|naive_solver]. intros [H1 H2]. specialize (H1 _ eq_refl). split; [|done].
        intros ? [= <-]. lia.
      * split; [|naive_solver]. intros [H1 H2]. pose proof (H1 _ eq_refl). split; [naive_solver|]. split; [lia|done].
      * naive_solver.
    + intros H. apply IH2. destruct (is_set mask i); [done|]. left. destruct acc; [by destruct (_ <? _)|done].
Qed.

Lemma min_pending_le mask ops x :
  pending mask 0 ops <> [] ->
  x <= default 0 (min_pending mask 0 ops None) <-> Forall (fun op => x <= l_ret op) (pending mask 0 ops).
Proof.
  intros Hne. destruct (min_pending_spec mask 0 ops None x) as [H1 H2].
  destruct (min_pending mask 0 ops None) as [m|] eqn:E; [|by destruct H2; auto].
  rewrite (H1 m eq_refl). naive_solver.
Qed.

(** ** Orders of the operations of one key *)

Definition reg : Type := bool * list byte.

Definition applyr (op : LinOp) (r : reg) : option reg := apply op (fst r) (snd r).

Fixpoint run_lin (r : reg) (l : list LinOp) : option reg :=
  match l with
  | [] => Some r
  | op :: l' => r' ← applyr op r; run_lin r' l'
  end.

Definition lin_before (a b : LinOp) : Prop := l_invoke a <= l_ret b.

(** The operations [P] can be ordered from register state [r], some optional ones left out. *)
Definition completes (r : reg) (P : list LinOp) : Prop :=
  exists order skipped,
    order ++ skipped ≡ₚ P /\
    Forall (fun op => l_optional op = true) skipped /\
    Forall (fun op => lin_before op op) order /\
    StronglySorted lin_before order /\
    is_Some (run_lin r order).

#[global] Instance completes_perm r : Proper ((≡ₚ) ==> iff) (completes r).
Proof. intros P P' HP. unfold completes. by setoid_rewrite HP. Qed.

Lemma completes_nil r : completes r [].
Proof. exists [], []. repeat constructor. by eexists. Qed.

(** The choice of the search: skip an optional operation, or let one at the frontier
    take effect. *)
Lemma completes_step r P :
  P <> [] ->
  completes r P <->
  exists op P', P ≡ₚ op :: P' /\
    ((l_optional op = true /\ completes r P') \/
     (Forall (lin_before op) P /\ exists r', applyr op r = Some r' /\ completes r' P')).
Proof.
  intros HP. split.
  - intros (order & skipped & Hp & Hs & Hself & Ho & Hr).
    destruct skipped as [|x skipped].
    + rewrite app_nil_r in Hp. destruct order as [|o order]; [by destruct HP; apply Permutation_nil|].
      exists o, order. split; [done|]. right.
      apply Forall_cons in Hself as [Hself Hselfs]. apply StronglySorted_inv in Ho as [Ho Hall].
      split; [rewrite <- Hp; by constructor|]. destruct Hr as [rf Hr]. cbn in Hr.
      apply bind_Some in Hr as (r' & Ha & Hr). exists r'. split; [done|].
      exists order, []. rewrite app_nil_r. repeat split; eauto.
    + apply Forall_cons in Hs as [Hx Hs]. exists x, (order ++ skipped). split.
      { rewrite <- Hp. by rewrite Permutation_middle. }
      left. split; [done|]. by exists order, skipped.
  - intros (op & P' & Hp & [(Hopt & order & skipped & Hp' & Hs & Hself & Ho & Hr)|
      (Hall & r' & Ha & order & skipped & Hp' & Hs & Hself & Ho & Hr)]).
    + exists order, (op :: skipped). rewrite Hp, <- Hp'. split; [by rewrite Permutation_middle|].
      repeat split; auto.
    + exists (op :: order), skipped. split; [by rewrite Hp, <- Hp'|].
      rewrite Hp, <- Hp', Forall_cons, Forall_app in Hall. destruct Hall as (H1 & H2 & H3).
      repeat split; auto; [by constructor|]. cbn. by rewrite Ha.
Qed.

(** ** Dead ends *)

Lemma visited_less_total a b : visited_less a b = false -> visited_less b a = false -> a = b.
Proof.
  destruct a as [m p c], b as [m' p' c']. unfold visited_less. cbn.
  rewrite (Z.eqb_sym m' m). destruct (Z.eqb_spec m m') as [->|]; cbn; [|lia].
  destruct p, p'; cbn; try done; intros; f_equal; by apply key_ltb_total.
Qed.

Lemma find_between_elem fuel v probe lo hi : find_between fuel v probe lo hi = true -> probe ∈ v.
Proof.
  revert lo hi; induction fuel as [|fuel IH]; intros lo hi; cbn [find_between]; [done|].
  destruct (Nat.ltb lo hi); [|done].
  destruct (v !! (lo + (hi - lo) / 2)%nat) as [x|] eqn:Ex; [|done].
  destruct (visited_less x probe) eqn:E1; [apply IH|].
  destruct (visited_less probe x) eqn:E2; [apply IH|]. intros _.
  rewrite (visited_less_total _ _ E2 E1). by eapply list_elem_of_lookup_2.
Qed.

Lemma visited_insert_elem v x y : y ∈ visited_insert v x <-> y = x \/ y ∈ v.
Proof.
  unfold visited_insert. set (lo := lower_bound _ _ _ _ _).
  rewrite <- (take_drop lo v) at 3. set_solver.
Qed.

(** ** The search decides [completes] *)

Section search.
Variable ops : list LinOp.
Abbreviation n := (length ops).
Abbreviation left_of mask := (pending mask 0 ops).

Definition dead (s : search_state) : Prop :=
  forall v, v ∈ visited_ s -> ~ completes (v_present v, v_cur v) (left_of (v_mask v)).

(** What a call promises: the answer is exact unless the budget ran out. *)
Definition answers (mask : Z) (r : reg) (res : bool * search_state) : Prop :=
  dead res.2 /\
  (budget_hit_ res.2 = true -> res.1 = false) /\
  (budget_hit_ res.2 = false -> res.1 = true <-> completes r (left_of mask)).

Section loop.
Variable rec : Z -> bool -> list byte -> search_state -> bool * search_state.
Variables (mask : Z) (present : bool) (cur : list byte).
Hypothesis Hmask : mask_ok n mask.
Hypothesis Hleft : left_of mask <> [].
Hypothesis Hrec : forall i op p c s,
  ops !! i = Some op -> is_set mask i = false -> dead s -> budget_hit_ s = false ->
  answers (Z.lor mask (bit i)) (p, c) (rec (Z.lor mask (bit i)) p c s).

Abbreviation min_ret := (default 0 (min_pending mask 0 ops None)).

(** The candidate at [i] leads nowhere. *)
Definition refuted (i : nat) (op : LinOp) : Prop :=
  is_set mask i = false ->
  (l_optional op = true -> ~ completes (present, cur) (left_of (Z.lor mask (bit i)))) /\
  (l_invoke op <= min_ret -> forall r', applyr op (present, cur) = Some r' ->
     ~ completes r' (left_of (Z.lor mask (bit i)))).

(** What the loop has shown when it stops before, or after, the candidates [rest]
    from [i] on. *)
Definition loop_ok (i : nat) (rest : list LinOp) (res : option bool * search_state) : Prop :=
  dead res.2 /\
  match res.1 with
  | Some true => budget_hit_ res.2 = false /\ completes (present, cur) (left_of mask)
  | Some false => budget_hit_ res.2 = true
  | None => budget_hit_ res.2 = false /\ forall j op, rest !! j = Some op -> refuted (i + j) op
  end.

Lemma loop_ok_cons i op rest res : refuted i op -> loop_ok (S i) rest res -> loop_ok i (op :: rest) res.
Proof.
  intros Href [Hd Hres]. split; [done|]. destruct (res.1) as [[|]|]; [done..|].
  destruct Hres as [Hb Hall]. split; [done|]. intros [|j] op' Hj; cbn in Hj.
  - simplify_eq. by rewrite Nat.add_0_r.
  - replace (i + S j)%nat with (S i + j)%nat by lia. auto.
Qed.

Lemma descend_ok i op p c s next j rest :
  ops !! i = Some op -> is_set mask i = false -> dead s -> budget_hit_ s = false ->
  (completes (p, c) (left_of (Z.lor mask (bit i))) -> completes (present, cur) (left_of mask)) ->
  (forall s', dead s' -> budget_hit_ s' = false -> ~ completes (p, c) (left_of (Z.lor mask (bit i))) ->
     loop_ok j rest (next s')) ->
  loop_ok j rest (descend rec (Z.lor mask (bit i)) p c s next).
Proof using Hrec.
  intros Hop Hset Hd Hb Hyes Hno. unfold descend.
  pose proof (Hrec i op p c s Hop Hset Hd Hb) as (Hd2 & Hbud & Hex).
  destruct (rec _ p c s) as [r s2]. cbn [fst snd] in *.
  destruct (budget_hit_ s2) eqn:Eb2; [by rewrite Hbud|].
  destruct r; [split; [done|split; [done|]]; by apply Hyes, Hex|].
  apply Hno; [done..|]. intros Hc. apply Hex in Hc; done.
Qed.

Lemma loop_exact rest i s :
  ops = take i ops ++ rest -> (i <= n)%nat -> dead s -> budget_hit_ s = false ->
  loop_ok i rest (candidates rec mask min_ret present cur i rest s).
Proof using Hmask Hleft Hrec.
  revert i s; induction rest as [|op rest IH]; intros i s Hops Hi Hd Hb; cbn [candidates].
  { split; [done|]. split; [done|]. by intros j op Hj. }
  assert (Hop : ops !! i = Some op).
  { rewrite Hops, lookup_app_r; rewrite length_take; [|lia].
    by replace (i - i `min` n)%nat with O by lia. }
  assert (Hin : (i < n)%nat) by by eapply lookup_lt_Some.
  assert (Hops' : ops = take (S i) ops ++ rest).
  { rewrite (take_S_r _ _ _ Hop), <- app_assoc. exact Hops. }
  destruct (is_set mask i) eqn:Eset.
  { apply loop_ok_cons; [intros ?; congruence|]. by apply IH. }
  pose proof (pending_set mask 0 i op ops Hop Eset) as Hperm. cbn [Nat.add] in Hperm.
  assert (Hplace : forall s, dead s -> budget_hit_ s = false ->
    (l_optional op = true -> ~ completes (present, cur) (left_of (Z.lor mask (bit i)))) ->
    loop_ok i (op :: rest)
      (if min_ret <? l_invoke op then candidates rec mask min_ret present cur (S i) rest s
       else match apply op present cur with
            | None => candidates rec mask min_ret present cur (S i) rest s
            | Some (p, c) => descend rec (Z.lor mask (bit i)) p c s (candidates rec mask min_ret present cur (S i) rest)
            end)).
  { intros s1 Hd1 Hb1 Hskip. destruct (min_ret <? l_invoke op) eqn:Emin.
    { apply loop_ok_cons; [split; [done|lia]|]. by apply IH. }
    destruct (apply op present cur) as [[p c]|] eqn:Ea.
    2:{ apply loop_ok_cons; [|by apply IH]. split; [done|]. unfold applyr. cbn. by rewrite Ea. }
    apply (descend_ok i op); [done..| |].
    - intros Hc. apply completes_step; [done|]. exists op, (left_of (Z.lor mask (bit i))).
      split; [done|]. right. split; [apply min_pending_le; [done|lia]|by exists (p, c)].
    - intros s2 Hd2 Hb2 Hno. apply loop_ok_cons; [|by apply IH]. split; [done|].
      unfold applyr. cbn. rewrite Ea. by intros _ r' [= <-]. }
  destruct (l_optional op) eqn:Eopt; [|by apply Hplace].
  apply (descend_ok i op); [done..| |by eauto].
  intros Hc. apply completes_step; [done|]. exists op, (left_of (Z.lor mask (bit i))). auto.
Qed.
End loop.

Lemma answers_dead_end mask r s b :
  dead s -> budget_hit_ s = false -> (b = true <-> completes r (left_of mask)) -> answers mask r (b, s).
Proof. intros Hd Hb H. split; [done|]. cbn. split; [congruence|done]. Qed.

Lemma search_exact fuel mask present cur s :
  mask_ok n mask -> (length (left_of mask) <= fuel)%nat -> dead s -> budget_hit_ s = false ->
  answers mask (present, cur) (search fuel ops mask present cur s).
Proof.
  revert mask present cur s; induction fuel as [|fuel IH]; intros mask present cur s Hm Hf Hd Hb;
    cbn [search]; destruct (Z.eqb_spec mask (full_mask n)) as [E|E].
  1,3: apply answers_dead_end; [done..|]; apply pending_nil in E; [|done]; rewrite E;
       split; [intros _; apply completes_nil|done].
  all: rewrite <- pending_nil in E by done.
  { destruct (left_of mask); [done|cbn in Hf; lia]. }
  destruct (kMaxSteps <=? steps_ s); [by split; [|split]|].
  set (s1 := mkSearch (steps_ s + 1) (budget_hit_ s) (visited_ s)).
  assert (Hd1 : dead s1) by done. assert (Hb1 : budget_hit_ s1 = false) by done.
  destruct (visited_contains (visited_ s1) (mkVisited mask present cur)) eqn:Ev.
  { apply answers_dead_end; [done..|]. split; [done|]. intros Hc.
    apply find_between_elem, Hd1 in Ev. done. }
  pose proof (loop_exact (search fuel ops) mask present cur Hm E) as Hloop.
  assert (Hrec : forall i op p c s, ops !! i = Some op -> is_set mask i = false -> dead s ->
    budget_hit_ s = false -> answers (Z.lor mask (bit i)) (p, c) (search fuel ops (Z.lor mask (bit i)) p c s)).
  { intros i op p c s2 Hop Hset Hd2 Hb2. apply IH; [|..]; try done.
    - apply mask_ok_lor; [done|]. by eapply lookup_lt_Some.
    - pose proof (pending_set mask 0 i op ops Hop Hset) as Hp. apply Permutation_length in Hp.
      cbn in Hp. lia. }
  specialize (Hloop Hrec ops O s1 eq_refl ltac:(lia) Hd1 Hb1).
  destruct (candidates _ _ _ _ _ _ _ s1) as [[[|]|] s2]; destruct Hloop as [Hd2 Hres]; cbn [fst snd] in *.
  - destruct Hres. by apply answers_dead_end.
  - split; [done|]. cbn. by rewrite Hres.
  - destruct Hres as [Hb2 Href].
    assert (Hno : ~ completes (present, cur) (left_of mask)).
    { intros Hc. apply completes_step in Hc as (op & P' & Hp & Hc); [|done].
      assert (op ∈ left_of mask) as (j & Hj & Hs)%pending_elem by (rewrite Hp; left). cbn [Nat.add] in Hs.
      pose proof (pending_set mask 0 j op ops Hj Hs) as Hp'. cbn [Nat.add] in Hp'.
      assert (HP : P' ≡ₚ left_of (Z.lor mask (bit j))) by (apply (Permutation_cons_inv (a := op)); by rewrite <- Hp).
      destruct (Href j op Hj Hs) as [H1 H2]. cbn [Nat.add] in *.
      destruct Hc as [[Ho Hc]|(Hall & r' & Ha & Hc)]; rewrite HP in Hc; [by apply H1|].
      apply (H2 (proj2 (min_pending_le _ _ _ E) Hall) r' Ha Hc). }
    apply answers_dead_end; [|by destruct (Nat.ltb _ _)|split; [done|by intros]].
    destruct (Nat.ltb _ _); [|done]. intros v [->|Hv]%visited_insert_elem; [exact Hno|by apply Hd2].
Qed.
End search.

(** ** The budget *)

(** An upper bound on the expansions with [m] operations left: each of them is skipped
    and placed once. *)
Fixpoint cost (m : nat) : Z :=
  match m with
  | O => 0
  | S m' => 1 + 2 * Z.of_nat m * cost m'
  end.

Definition spends (c : Z) (s s' : search_state) : Prop :=
  steps_ s <= steps_ s' <= steps_ s + c /\
  (budget_hit_ s' = true -> budget_hit_ s = true \/ kMaxSteps <= steps_ s').

Lemma spends_refl c s : 0 <= c -> spends c s s.
Proof. split; [lia|auto]. Qed.

Lemma spends_trans c1 c2 s1 s2 s3 : spends c1 s1 s2 -> spends c2 s2 s3 -> spends (c1 + c2) s1 s3.
Proof.
  intros [H1 H2] [H3 H4]. split; [lia|]. intros H. destruct (H4 H) as [H'|]; [|auto].
  destruct (H2 H'); [auto|]. right. lia.
Qed.

Lemma spends_mono c c' s s' : spends c s s' -> c <= c' -> spends c' s s'.
Proof. intros [H1 H2] Hc. split; [lia|done]. Qed.

Lemma descend_spends rec c m p cu s next c' :
  0 <= c' ->
  spends c s (rec m p cu s).2 -> (forall s', spends c' s' (next s').2) ->
  spends (c + c') s (descend rec m p cu s next).2.
Proof.
  intros H0 H Hn. unfold descend. destruct (rec m p cu s) as [r s']. cbn in H.
  destruct r; [|destruct (budget_hit_ s')]; cbn; try (eapply spends_mono; [exact H|lia]).
  by eapply spends_trans.
Qed.

Lemma candidates_spends rec mask mr p cu c rest i s :
  0 <= c ->
  (forall j m' p' c' s', m' = Z.lor mask (bit (i + j)) -> (j < length rest)%nat -> is_set mask (i + j) = false ->
     spends c s' (rec m' p' c' s').2) ->
  spends (2 * Zlen (pending mask i rest) * c) s (candidates rec mask mr p cu i rest s).2.
Proof.
  intros Hc. revert i s; induction rest as [|op rest IH]; intros i s Hrec; cbn [candidates pending].
  { apply spends_refl. done. }
  assert (Hnext : forall s, spends (2 * Zlen (pending mask (S i) rest) * c) s
            (candidates rec mask mr p cu (S i) rest s).2).
  { intros s'. apply IH. intros j m' p' c' s'' Hm Hj Hs. apply (Hrec (S j)); [|cbn; lia|].
    - by replace (i + S j)%nat with (S i + j)%nat by lia.
    - by replace (i + S j)%nat with (S i + j)%nat by lia. }
  assert (Hz := Zlen_nonneg (pending mask (S i) rest)).
  destruct (is_set mask i) eqn:Eset; [apply Hnext|].
  assert (Hhere : forall p' c' s', spends c s' (rec (Z.lor mask (bit i)) p' c' s').2).
  { intros p' c' s'. apply (Hrec O); [by rewrite Nat.add_0_r|cbn; lia|by rewrite Nat.add_0_r]. }
  set (z := Zlen (pending mask (S i) rest)) in *.
  assert (Hplace : forall s, spends (c + 2 * z * c) s
    (if mr <? l_invoke op then candidates rec mask mr p cu (S i) rest s
     else match apply op p cu with
          | None => candidates rec mask mr p cu (S i) rest s
          | Some (p', c') => descend rec (Z.lor mask (bit i)) p' c' s (candidates rec mask mr p cu (S i) rest)
          end).2).
  { intros s'. destruct (mr <? l_invoke op); [eapply spends_mono; [apply Hnext|lia]|].
    destruct (apply op p cu) as [[p' c']|]; [|eapply spends_mono; [apply Hnext|lia]].
    apply descend_spends; [nia|apply Hhere|apply Hnext]. }
  replace (2 * Zlen (op :: pending mask (S i) rest) * c) with (c + (c + 2 * z * c))
    by (unfold z, Zlen; cbn [length]; lia).
  destruct (l_optional op); [apply descend_spends; [nia|apply Hhere|apply Hplace]|].
  eapply spends_mono; [apply Hplace|nia].
Qed.

Lemma cost_nonneg m : 0 <= cost m.
Proof. induction m; cbn [cost]; nia. Qed.

Lemma search_spends ops fuel mask p cu s :
  mask_ok (length ops) mask -> (length (pending mask 0 ops) <= fuel)%nat ->
  spends (cost (length (pending mask 0 ops))) s (search fuel ops mask p cu s).2.
Proof.
  revert mask p cu s; induction fuel as [|fuel IH]; intros mask p cu s Hm Hf;
    cbn [search]; destruct (Z.eqb_spec mask (full_mask (length ops))) as [E|E];
    try (by apply spends_refl, cost_nonneg); rewrite <- pending_nil in E by done.
  { destruct (pending mask 0 ops); [done|cbn in Hf; lia]. }
  destruct (kMaxSteps <=? steps_ s) eqn:Ek.
  { split; cbn; [pose proof (cost_nonneg (length (pending mask 0 ops))); lia|]. intros _. right. lia. }
  destruct (pending mask 0 ops) as [|x l] eqn:Ep; [done|]. cbn [length cost] in *.
  pose proof (cost_nonneg (length l)) as Hc0.
  set (s1 := mkSearch (steps_ s + 1) (budget_hit_ s) (visited_ s)).
  assert (H1 : spends 1 s s1) by (split; cbn; [lia|auto]).
  destruct (visited_contains _ _); [eapply spends_mono; [exact H1|nia]|].
  pose proof (candidates_spends (search fuel ops) mask (default 0 (min_pending mask 0 ops None)) p cu
    (cost (length l)) ops O s1 Hc0) as Hloop.
  rewrite Ep in Hloop. replace (Zlen (x :: l)) with (Z.of_nat (S (length l))) in Hloop by done.
  assert (Hs2 : spends (1 + 2 * Z.of_nat (S (length l)) * cost (length l)) s
    (candidates (search fuel ops) mask (default 0 (min_pending mask 0 ops None)) p cu 0 ops s1).2).
  { eapply spends_trans; [exact H1|]. apply Hloop. intros j m' p' c' s' -> Hj Hs. cbn [Nat.add] in *.
    destruct (lookup_lt_is_Some_2 _ _ Hj) as [op Hop].
    pose proof (pending_set mask 0 j op ops Hop Hs) as Hp. cbn [Nat.add] in Hp.
    apply Permutation_length in Hp. rewrite Ep in Hp. cbn in Hp. injection Hp as Hp.
    rewrite Hp. apply IH; [by apply mask_ok_lor|lia]. }
  destruct (candidates _ _ _ _ _ _ _ s1) as [[r|] s2]; cbn [snd] in *; [done|].
  by destruct (Nat.ltb _ _).
Qed.

(** ** From the operations of a key to the history *)

Definition failed_read (o : Op) : bool := match kind o with Read => negb (ok o) | _ => false end.

Definition lin_of (o : Op) : LinOp := default (mkLin 0 0 0 0 ERead [] [] false) (classify o).

Lemma classify_lin_of o : classify o = if failed_read o then None else Some (lin_of o).
Proof.
  unfold lin_of, failed_read, classify. destruct (kind o); cbn; [by destruct (ok o)|done|].
  by repeat case_match.
Qed.

Lemma lin_of_times o : failed_read o = false -> l_invoke (lin_of o) = invoke_vt o /\ l_ret (lin_of o) = return_vt o.
Proof.
  unfold lin_of, failed_read, classify. destruct (kind o); cbn; [by destruct (ok o)|done|].
  by repeat case_match.
Qed.

Lemma lin_of_optional o : failed_read o = false -> l_optional (lin_of o) = may_drop o.
Proof.
  unfold lin_of, failed_read, classify, may_drop, lost_cas, rejected_cas. destruct (kind o) eqn:Ek; cbn;
    [by destruct (ok o)|done|].
  by destruct (ok o), (key_eqb (result o) ack), (key_eqb (error o) cas_mismatch); cbn.
Qed.

Definition current (r : reg) : list byte := if fst r then snd r else [].

Lemma applyr_step o r :
  failed_read o = false -> current <$> applyr (lin_of o) r = step_reg true o (current r).
Proof.
  destruct r as [p c]. unfold lin_of, failed_read, classify, step_reg, explains, lost_cas, rejected_cas, applyr, apply, current.
  destruct (kind o) eqn:Ek; cbn [fst snd].
  - destruct (ok o); cbn; [intros _|done]. by destruct (key_eqb (result o) _).
  - done.
  - intros _. destruct (ok o), (key_eqb (result o) ack), (key_eqb (error o) cas_mismatch); cbn;
      try done; by destruct (key_eqb _ (cas_old o)).
Qed.

(** The register of one key. *)
Fixpoint run_key (lenient : bool) (cur : list byte) (l : list Op) : option (list byte) :=
  match l with
  | [] => Some cur
  | o :: l' => v ← step_reg lenient o cur; run_key lenient v l'
  end.

Lemma run_lin_key r l :
  Forall (fun o => failed_read o = false) l ->
  is_Some (run_lin r (lin_of <$> l)) <-> is_Some (run_key true (current r) l).
Proof.
  intros H. revert r; induction H as [|o l Ho Hl IH]; intros r; cbn; [split; by eexists|].
  rewrite <- applyr_step by done. destruct (applyr (lin_of o) r) as [r'|]; cbn; [apply IH|done].
Qed.

Lemma run_key_drop lenient cur l :
  run_key lenient cur (filter (fun o => failed_read o = false) l) = run_key lenient cur l.
Proof.
  revert cur; induction l as [|o l IH]; intros cur; [done|].
  rewrite filter_cons. case_decide as E; cbn; [destruct (step_reg lenient o cur); cbn; auto|].
  unfold failed_read in E. destruct (kind o) eqn:Ek; try done.
  unfold step_reg, explains, lost_cas. rewrite Ek, andb_false_r. destruct (ok o); [done|]. cbn. apply IH.
Qed.

Definition lin_key (lenient : bool) (l : list Op) : Prop :=
  exists order dropped,
    order ++ dropped ≡ₚ l /\
    Forall (fun o => may_drop o = true) dropped /\
    StronglySorted real_time order /\
    is_Some (run_key lenient [] order).

Lemma SS_fmap {A B} (R : A -> A -> Prop) (S : B -> B -> Prop) (f : A -> B) (P : A -> Prop) l :
  (forall a b, P a -> P b -> R a b <-> S (f a) (f b)) -> Forall P l ->
  StronglySorted R l <-> StronglySorted S (f <$> l).
Proof.
  intros Hf HP. induction HP as [|a l Ha Hl IH]; cbn; [split; constructor|].
  split; intros [H1 H2]%StronglySorted_inv; constructor; try by apply IH.
  - apply Forall_fmap. rewrite Forall_forall in *. intros x Hx. cbn. apply Hf; auto.
  - pose proof (proj1 (Forall_forall _ _) H2) as H3. rewrite Forall_forall in *.
    intros x Hx. apply Hf; auto. by apply H3, list_elem_of_fmap_2.
Qed.

Lemma SS_sublist {A} (R : A -> A -> Prop) l l' : l `sublist_of` l' -> StronglySorted R l' -> StronglySorted R l.
Proof.
  induction 1 as [|x l l' Hs IH|x l l' Hs IH]; intros H; [constructor|apply StronglySorted_inv in H as [H1 H2]..].
  - constructor; [auto|]. rewrite Forall_forall in *. eauto using elem_of_sublist.
  - auto.
Qed.

Lemma omap_classify (l : list Op) : omap classify l = lin_of <$> filter (fun o => failed_read o = false) l.
Proof.
  induction l as [|o l IH]; [done|]. rewrite filter_cons. cbn [omap list_omap]. rewrite classify_lin_of.
  destruct (failed_read o) eqn:E; [rewrite decide_False by done; exact IH|].
  rewrite decide_True by done. cbn. f_equal. exact IH.
Qed.

(** The checker's view of the operations of one key says what the operations say. *)
Lemma completes_lin_key l :
  Forall (fun o => invoke_vt o <= return_vt o) l ->
  completes (false, []) (omap classify l) <-> lin_key true l.
Proof.
  intros Hwf. rewrite omap_classify. set (P := fun o => failed_read o = false). split.
  - intros (order & skipped & Hp & Hopt & _ & Hss & Hrun).
    apply Permutation_map_inv in Hp as (l3 & Heq & Hp3). symmetry in Heq.
    apply map_eq_app in Heq as (oa & ob & -> & <- & <-).
    assert (HP : Forall P (oa ++ ob)).
    { rewrite <- Hp3. apply Forall_forall. by intros x [? _]%list_elem_of_filter. }
    apply Forall_app in HP as [HPa HPb].
    exists oa, (ob ++ filter (fun o => ~ P o) l). split; [|split; [|split]].
    + rewrite app_assoc, <- Hp3. apply filter_app_complement.
    + apply Forall_app. split.
      * pose proof (proj1 (Forall_forall _ _) Hopt) as Hopt'. rewrite Forall_forall in HPb |- *.
        intros o Ho. rewrite <- lin_of_optional by (by apply HPb).
        by apply Hopt', list_elem_of_fmap_2.
      * apply Forall_forall. intros o [Ho _]%list_elem_of_filter. unfold P, failed_read in Ho. unfold may_drop.
        by destruct (kind o), (ok o).
    + eapply (SS_fmap real_time lin_before lin_of P); [|done|exact Hss].
      intros a b Ha Hb. unfold real_time, lin_before.
      destruct (lin_of_times a Ha) as [-> _], (lin_of_times b Hb) as [_ ->]. done.
    + by apply (run_lin_key (false, [])) in Hrun.
  - intros (order & dropped & Hp & Hdrop & Hss & Hrun).
    exists (lin_of <$> filter P order), (lin_of <$> filter P dropped).
    assert (HP : Forall P (filter P order)) by (apply Forall_forall; by intros x [? _]%list_elem_of_filter).
    split; [|split; [|split; [|split]]].
    + rewrite <- fmap_app, <- filter_app. by rewrite Hp.
    + apply Forall_fmap, Forall_forall. intros o [Ho Hin]%list_elem_of_filter. cbn.
      rewrite lin_of_optional by done. rewrite Forall_forall in Hdrop. auto.
    + apply Forall_fmap, Forall_forall. intros o [Ho Hin]%list_elem_of_filter. unfold lin_before. cbn.
      destruct (lin_of_times o Ho) as [-> ->]. rewrite Forall_forall in Hwf. apply Hwf.
      rewrite <- Hp. apply elem_of_app. auto.
    + apply (SS_fmap real_time lin_before lin_of P); [|done|].
      * intros a b Ha Hb. unfold real_time, lin_before.
        destruct (lin_of_times a Ha) as [-> _], (lin_of_times b Hb) as [_ ->]. done.
      * eapply SS_sublist; [apply sublist_filter|done].
    + apply run_lin_key; [done|]. by rewrite run_key_drop.
Qed.

(** ** Locality: one order per key gives one order *)

Abbreviation on_key k := (fun o : Op => key o = k).

Lemma run_store_keys lenient l st :
  is_Some (run_store lenient st l) <-> forall k, is_Some (run_key lenient (st k) (filter (on_key k) l)).
Proof.
  revert st; induction l as [|o l IH]; intros st; cbn [run_store]; [split; [intros _ k|]; by eexists|].
  split.
  - intros H k. destruct (step_reg lenient o (st (key o))) as [v|] eqn:E; [|by destruct H].
    cbn in H. rewrite IH in H. specialize (H k). unfold store_set in H. rewrite filter_cons.
    case_decide as Hk; [subst k|].
    + rewrite key_eqb_refl in H. cbn. by rewrite E.
    + by destruct (key_eqb_spec (key o) k).
  - intros H. pose proof (H (key o)) as Ho. rewrite filter_cons, decide_True in Ho by done. cbn in Ho.
    destruct (step_reg lenient o (st (key o))) as [v|] eqn:E; [|by destruct Ho].
    cbn [mbind option_bind] in *. rewrite IH. intros k. unfold store_set. destruct (key_eqb_spec (key o) k) as [<-|Hk]; [done|].
    specialize (H k). by rewrite filter_cons, decide_False in H.
Qed.

(** Linearization points: the latest invocation so far, within the operation's interval. *)
Fixpoint points (acc : Z) (l : list Op) : list (Z * Op) :=
  match l with
  | [] => []
  | o :: l' => let p := Z.max acc (invoke_vt o) in (p, o) :: points p l'
  end.

Definition in_interval (x : Z * Op) : Prop := invoke_vt x.2 <= x.1 <= return_vt x.2.
Definition point_leb (x y : Z * Op) : bool := x.1 <=? y.1.

Lemma points_snd acc l : (points acc l).*2 = l.
Proof. revert acc; induction l; intros acc; cbn; [done|]. by rewrite IHl. Qed.

Lemma points_above acc l : Forall (fun x => acc <= x.1) (points acc l).
Proof.
  revert acc; induction l as [|o l IH]; intros acc; cbn; [constructor|]. constructor; [cbn; lia|].
  eapply Forall_impl; [apply IH|]. cbn. intros x. lia.
Qed.

Lemma points_ordered acc l : ordered point_leb (points acc l).
Proof.
  revert acc; induction l as [|o l IH]; intros acc; cbn; constructor; [apply IH|].
  eapply Forall_impl; [apply points_above|]. unfold point_leb. cbn. intros x. lia.
Qed.

Lemma points_interval acc l :
  StronglySorted real_time l -> Forall (fun o => invoke_vt o <= return_vt o) l ->
  Forall (fun o => acc <= return_vt o) l -> Forall in_interval (points acc l).
Proof.
  intros Hss. revert acc; induction Hss as [|o l Hl IH Ho]; intros acc Hwf Hacc; cbn; [constructor|].
  apply Forall_cons in Hwf as [Hwo Hwf], Hacc as [Hao Hacc]. constructor; [unfold in_interval; cbn; lia|].
  apply IH; [done|]. rewrite Forall_forall in *. unfold real_time in Ho. intros x Hx.
  specialize (Ho x Hx). specialize (Hacc x Hx). lia.
Qed.

Lemma key_points l :
  StronglySorted real_time l -> Forall (fun o => invoke_vt o <= return_vt o) l ->
  exists pts, pts.*2 = l /\ ordered point_leb pts /\ Forall in_interval pts.
Proof.
  intros Hss Hwf. destruct l as [|o l]; [by exists []; repeat constructor|].
  exists (points (invoke_vt o) (o :: l)). split; [apply points_snd|]. split; [apply points_ordered|].
  apply points_interval; [done..|]. apply Forall_cons in Hwf as [Ho Hwf].
  apply StronglySorted_inv in Hss as [_ Hss]. by constructor.
Qed.

Lemma point_leb_total x y : point_leb x y = false -> point_leb y x = true.
Proof. unfold point_leb. lia. Qed.

Lemma point_leb_trans x y z : point_leb x y = true -> point_leb y z = true -> point_leb x z = true.
Proof. unfold point_leb. lia. Qed.

(** Points of the operations of some keys, in order on each of them. *)
Definition located (lenient : bool) (pts : list (Z * Op)) (dropped l : list Op) : Prop :=
  pts.*2 ++ dropped ≡ₚ l /\
  Forall (fun o => may_drop o = true) dropped /\
  Forall in_interval pts /\
  forall k, ordered point_leb (filter (fun x => key x.2 = k) pts) /\
    is_Some (run_key lenient [] ((filter (fun x => key x.2 = k) pts).*2)).

Lemma filter_key_points k (pts : list (Z * Op)) :
  (filter (fun x => key x.2 = k) pts).*2 = filter (on_key k) (pts.*2).
Proof.
  induction pts as [|[p o] pts IH]; [done|]. cbn [fmap list_fmap]. rewrite !filter_cons. cbn [snd].
  case_decide; cbn; [f_equal|]; exact IH.
Qed.

Lemma filter_none {A} (P : A -> Prop) `{!∀ x, Decision (P x)} (l : list A) : (forall x, x ∈ l -> ~ P x) -> filter P l = [].
Proof.
  induction l as [|x l IH]; intros Hn; [done|]. rewrite filter_cons, decide_False by set_solver.
  apply IH. set_solver.
Qed.

Lemma filter_all {A} (P : A -> Prop) `{!∀ x, Decision (P x)} (l : list A) : (forall x, x ∈ l -> P x) -> filter P l = l.
Proof.
  induction l as [|x l IH]; intros Hn; [done|]. rewrite filter_cons, decide_True by set_solver.
  f_equal. apply IH. set_solver.
Qed.

Lemma located_keys lenient h ks :
  Forall (fun o => invoke_vt o <= return_vt o) h -> NoDup ks ->
  (forall k, lin_key lenient (filter (on_key k) h)) ->
  exists pts dropped, located lenient pts dropped (filter (fun o => key o ∈ ks) h).
Proof.
  intros Hwf Hnd Hk. induction ks as [|k ks IH].
  { exists [], []. split; [|split; [constructor|split; [constructor|]]].
    - rewrite filter_none; [done|]. intros x _. apply not_elem_of_nil.
    - intros k. split; [constructor|]. by eexists. }
  apply NoDup_cons in Hnd as [Hni Hnd]. destruct (IH Hnd) as (pts & dropped & Hp & Hd & Hiv & Hkeys).
  destruct (Hk k) as (order & dropk & Hpk & Hdk & Hss & Hrun).
  assert (Hwo : Forall (fun o => invoke_vt o <= return_vt o /\ key o = k) order).
  { apply Forall_forall. intros o Ho. assert (o ∈ filter (on_key k) h) as [? ?]%list_elem_of_filter.
    - rewrite <- Hpk. apply elem_of_app. auto.
    - rewrite Forall_forall in Hwf. auto. }
  destruct (key_points order Hss) as (ptk & Hsnd & Hord & Hivk).
  { eapply Forall_impl; [exact Hwo|]. by intros ? []. }
  assert (Hold : forall x, x ∈ pts -> key x.2 ∈ ks).
  { intros x Hx. assert (x.2 ∈ filter (fun o => key o ∈ ks) h) as [? _]%list_elem_of_filter; [|done].
    rewrite <- Hp. apply elem_of_app. left. by apply list_elem_of_fmap_2. }
  assert (Hnew : forall x, x ∈ ptk -> key x.2 = k).
  { intros x Hx. rewrite Forall_forall in Hwo. apply Hwo. rewrite <- Hsnd. by apply list_elem_of_fmap_2. }
  exists (ptk ++ pts), (dropk ++ dropped). split; [|split; [|split]].
  - rewrite fmap_app, Hsnd.
    assert (filter (fun o => key o ∈ k :: ks) h ≡ₚ filter (on_key k) h ++ filter (fun o => key o ∈ ks) h) as ->.
    { clear -Hni. induction h as [|o h IH]; [done|]. rewrite !filter_cons.
      destruct (decide (key o = k)) as [<-|Hn].
      - rewrite decide_True by set_solver. rewrite (decide_False (P := _ ∈ ks)) by done. cbn. by rewrite IH.
      - destruct (decide (key o ∈ ks)).
        + rewrite decide_True by set_solver. rewrite IH. apply Permutation_middle.
        + rewrite decide_False by set_solver. exact IH. }
    rewrite <- Hp, <- Hpk, <- !app_assoc. f_equiv. rewrite !app_assoc. f_equiv. apply Permutation_app_comm.
  - by apply Forall_app.
  - by apply Forall_app.
  - intros k'. rewrite filter_app, fmap_app. destruct (decide (k' = k)) as [->|Hn].
    + rewrite (filter_all _ ptk), (filter_none _ pts), app_nil_r by (intros x Hx; set_solver || (intros E; rewrite E in *; set_solver)).
      cbn [fmap list_fmap]. rewrite app_nil_r, Hsnd. done.
    + rewrite (filter_none _ ptk) by (intros x Hx; rewrite (Hnew _ Hx); congruence).
      apply Hkeys.
Qed.

(** A history is linearizable exactly when the operations of each key are. *)
Lemma linearizable_local lenient h :
  Forall (fun o => invoke_vt o <= return_vt o) h ->
  linearizable lenient h <-> forall k, lin_key lenient (filter (on_key k) h).
Proof.
  intros Hwf. split.
  - intros (order & dropped & Hp & Hd & Hss & Hrun) k.
    exists (filter (on_key k) order), (filter (on_key k) dropped). split; [|split; [|split]].
    + rewrite <- filter_app. by rewrite Hp.
    + rewrite Forall_forall in *. intros o [_ ?]%list_elem_of_filter. auto.
    + eapply SS_sublist; [apply sublist_filter|done].
    + rewrite run_store_keys in Hrun. apply Hrun.
  - intros Hk. destruct (located_keys lenient h (remove_dups (key <$> h)) Hwf (NoDup_remove_dups _) Hk)
      as (pts & dropped & Hp & Hd & Hiv & Hkeys).
    rewrite filter_all in Hp.
    2:{ intros o Ho. rewrite elem_of_remove_dups. by apply list_elem_of_fmap_2. }
    exists ((isort point_leb pts).*2), dropped.
    split; [by rewrite isort_perm|]. split; [done|]. split.
    + pose proof (isort_ordered _ point_leb_total point_leb_trans pts) as Ho.
      rewrite <- (isort_perm point_leb pts) in Hiv. unfold ordered in Ho. revert Ho Hiv.
      generalize (isort point_leb pts). clear. intros l. induction 1 as [|x l Hl IH Hx]; intros Hiv; [constructor|].
      apply Forall_cons in Hiv as [Hx1 Hiv]. cbn. constructor; [auto|].
      apply Forall_fmap. rewrite Forall_forall in *. intros y Hy. specialize (Hx y Hy). specialize (Hiv y Hy).
      unfold in_interval, point_leb, real_time in *. cbn. lia.
    + apply run_store_keys. intros k. rewrite <- filter_key_points.
      rewrite (isort_stable _ point_leb_total point_leb_trans) by apply Hkeys. apply Hkeys.
Qed.

(** ** The verdicts *)

Lemma first_keys_elem h ks k : k ∈ first_keys h ks <-> k ∈ ks \/ k ∈ key <$> h.
Proof.
  revert ks; induction h as [|o h IH]; intros ks; cbn [first_keys fmap list_fmap]; [set_solver|].
  rewrite IH. destruct (existsb (fun k' => key_eqb k' (key o)) ks) eqn:E.
  - apply existsb_values in E. set_solver.
  - set_solver.
Qed.

Lemma key_verdict h k :
  Forall (fun o => invoke_vt o <= return_vt o) h ->
  let v := check_key h k in
  (v_ok v = true -> lin_key true (filter (on_key k) h)) /\
  (v_ok v = false -> witness v = NotLinearizable k (key_ops h k) /\ ~ lin_key true (filter (on_key k) h) \/
     (kMaxOpsPerKey < length (key_ops h k))%nat /\ witness v = UndecidedOps k (length (key_ops h k)) \/
     kMaxSteps <= cost (length (key_ops h k)) /\ witness v = UndecidedSteps k).
Proof.
  intros Hwf v. subst v. assert (Hwk : Forall (fun o => invoke_vt o <= return_vt o) (filter (on_key k) h)).
  { rewrite Forall_forall in *. intros o [_ ?]%list_elem_of_filter. auto. }
  rewrite <- completes_lin_key by done. fold (key_ops h k). unfold check_key.
  destruct (Nat.eqb_spec (length (key_ops h k)) 0) as [E|E].
  { split; [intros _|done]. destruct (key_ops h k); [apply completes_nil|done]. }
  destruct (Nat.ltb_spec kMaxOpsPerKey (length (key_ops h k))) as [E2|E2]; [by split; [|right; left]|].
  set (ops := key_ops h k) in *.
  assert (Hm : mask_ok (length ops) 0) by (split; [lia|apply Z.pow_pos_nonneg; lia]).
  assert (Hf : (length (pending 0 0 ops) <= length ops)%nat) by by rewrite pending_zero.
  pose proof (search_exact ops (length ops) 0 false [] (mkSearch 0 false []) Hm Hf) as (_ & Hbud & Hex);
    [intros x Hx; by apply not_elem_of_nil in Hx|done|].
  pose proof (search_spends ops (length ops) 0 false [] (mkSearch 0 false []) Hm Hf) as [Hst Hb].
  rewrite pending_zero in Hex, Hst. destruct (search _ _ _ _ _ _) as [r s]. cbn [fst snd steps_ budget_hit_] in *.
  destruct (budget_hit_ s); [split; [done|]; intros _; right; right; split; [|done]; destruct (Hb eq_refl); [done|lia]|].
  destruct r; [split; [by intros _; apply Hex|done]|]. split; [done|]. intros _. left. split; [done|].
  intros Hc. apply Hex in Hc; done.
Qed.

Lemma check_keys_verdict h ks :
  v_ok (check_keys h ks) = true <-> forall k, k ∈ ks -> v_ok (check_key h k) = true.
Proof.
  induction ks as [|k ks IH]; cbn [check_keys]; [set_solver|].
  destruct (v_ok (check_key h k)) eqn:E; cbn [negb]; [|rewrite E]; set_solver.
Qed.

Lemma check_keys_first h ks :
  v_ok (check_keys h ks) = false -> exists k, check_keys h ks = check_key h k.
Proof.
  induction ks as [|k ks IH]; cbn [check_keys]; [done|].
  destruct (v_ok (check_key h k)); cbn [negb]; eauto.
Qed.

(** What an accepting verdict gives on each key. *)
Lemma accepted_keys h :
  Forall (fun o => invoke_vt o <= return_vt o) h ->
  v_ok (linearizable_final h) = true -> forall k, lin_key true (filter (on_key k) h).
Proof.
  intros Hwf Hok k. destruct (decide (k ∈ first_keys h [])) as [Hk|Hk].
  - apply key_verdict; [done|]. by eapply check_keys_verdict.
  - rewrite filter_none; [exists [], []; repeat constructor; by eexists|].
    intros o Ho <-. apply Hk, first_keys_elem. right. by apply list_elem_of_fmap_2.
Qed.


(** ** The levels of the checkers *)

(** Without a compare-and-set of unknown outcome the checker's reading is the strict one. *)
Lemma lenient_strict h :
  Forall (fun o => lost_cas o = false) h -> linearizable true h <-> linearizable false h.
Proof.
  intros Hno. unfold linearizable.
  assert (Hrun : forall order dropped st, order ++ dropped ≡ₚ h -> run_store true st order = run_store false st order).
  { intros order dropped st Hp. rewrite <- Hp in Hno. apply Forall_app in Hno as [Hno _]. clear Hp.
    revert st. induction Hno as [|o l Ho Hl IH]; intros st; cbn; [done|].
    unfold step_reg. rewrite Ho. cbn. destruct (explains _ _); cbn; auto. }
  split; intros (order & dropped & Hp & H1 & H2 & H3); exists order, dropped;
    (erewrite Hrun in H3 || erewrite <- Hrun in H3); eauto.
Qed.

Lemma run_store_source l st :
  is_Some (run_store true st l) ->
  (forall o, o ∈ l -> observes o = true ->
     st (key o) = result o \/ offered is_source l (key o) (result o)).
Proof.
  revert st; induction l as [|x l IH]; intros st Hrun o Ho Hobs; [by apply not_elem_of_nil in Ho|].
  rewrite offered_cons. cbn [run_store] in Hrun.
  destruct (step_reg true x (st (key x))) as [v|] eqn:Ev; [|by destruct Hrun]. cbn in Hrun.
  apply elem_of_cons in Ho as [->|Ho].
  - left. unfold observes in Hobs. unfold step_reg, explains, lost_cas in Ev. destruct (kind x); [|done..].
    apply andb_true_iff in Hobs as [Hok _]. rewrite Hok, andb_false_r in Ev. cbn in Ev.
    by destruct (key_eqb_spec (result x) (st (key x))).
  - destruct (IH _ Hrun o Ho Hobs) as [Hst|Hoff]; [|auto].
    unfold store_set in Hst. destruct (key_eqb_spec (key x) (key o)) as [Ek|]; [|auto]. subst v.
    unfold step_reg, explains, lost_cas, is_source, is_mutation in *. rewrite Ek in *.
    destruct (kind x) eqn:Ekind; cbn in Ev.
    + destruct (negb (ok x) || _); simplify_eq. auto.
    + simplify_eq. right. left. unfold rejected_cas. by rewrite Ekind.
    + destruct (rejected_cas x) eqn:Er; cbn in Ev.
      * rewrite andb_false_r in Ev. destruct (key_eqb _ _); simplify_eq. auto.
      * right. left. destruct (negb _ && _); simplify_eq; [done|]. by destruct (key_eqb _ _); simplify_eq.
Qed.

(** The checkers form a hierarchy: a history C-LIN accepts is accepted by the durability
    checker C-DUR and by the provenance half of the integrity checker C-INT, so a value that
    was never offered, or offered only by a rejected compare-and-set, is never accepted by
    C-LIN. *)
Theorem lin_subsumes_provenance h :
  Forall (fun o => invoke_vt o <= return_vt o) h ->
  v_ok (linearizable_final h) = true ->
  v_ok (durability h) = true /\ v_ok (check_provenance (written_of h []) h) = true.
Proof.
  intros Hwf Hok. rewrite durability_exact, provenance_exact.
  assert (Hs : traceable is_source h).
  { intros o Ho Hobs.
    destruct (linearizable_local true h Hwf) as [_ Hall].
    destruct Hall as (order & dropped & Hp & Hd & _ & Hrun).
    { by apply accepted_keys. }
    rewrite <- Hp in Ho. apply elem_of_app in Ho as [Ho|Ho].
    - destruct (run_store_source _ _ Hrun o Ho Hobs) as [He|(x & Hx & H)].
      + unfold observes in Hobs. rewrite <- He in Hobs. destruct (kind o), (ok o); done.
      + exists x. split; [|done]. rewrite <- Hp. apply elem_of_app. auto.
    - rewrite Forall_forall in Hd. apply Hd in Ho. unfold may_drop, observes in *.
      by destruct (kind o), (ok o). }
  split; [done|]. intros o Ho Hobs. destruct (Hs o Ho Hobs) as (x & Hx & Hsrc & H).
  exists x. split; [done|]. split; [|done]. unfold is_source in Hsrc. by apply andb_true_iff in Hsrc as [? _].
Qed.

(** ** Runs *)

Definition kx : list byte := lit "x".
Definition run_op (id : Z) (k : OpKind) (v old : list byte) (i r : Z) (okb : bool) (res err : list byte) : Op :=
  mkOp 1 id k kx v old i r okb res err id true.

(** Two overlapping writes, then a read of the one that returned first. *)
Definition overlapping : History :=
  [ run_op 1 Write (lit "a") [] 0 9 true ack [];
    run_op 2 Write (lit "b") [] 1 10 true ack [];
    run_op 3 Read [] [] 20 30 true (lit "a") [] ].


Lemma lin_subsumes_provenance_witness : v_ok (durability overlapping) = true.
Proof.
  refine (proj1 (lin_subsumes_provenance overlapping _ _)).
  - unfold overlapping. repeat (apply Forall_cons; split; [cbn; lia|]). apply Forall_nil. done.
  - vm_compute. reflexivity.
Defined.

(** The same history is refused by the second half of C-INT, which takes the last write to
    return for the last write to take effect. *)
Example integrity_false_alarm :
  v_ok (linearizable_final overlapping) = true /\ v_ok (integrity overlapping) = false.
Proof. vm_compute. done. Qed.

(** A compare-and-set of unknown outcome is accepted as the source of a value although the
    register never held what it compares with. *)
Definition unknown_cas : History :=
  [ run_op 1 Cas (lit "b") (lit "a") 0 10 false [] (lit "timeout");
    run_op 2 Read [] [] 20 30 true (lit "b") [] ].

Example unknown_cas_accepted :
  v_ok (linearizable_final unknown_cas) = true /\ ~ linearizable false unknown_cas.
Proof.
  split; [by vm_compute|]. intros (order & dropped & Hp & Hd & _ & Hrun).
  assert (Hin : run_op 2 Read [] [] 20 30 true (lit "b") [] ∈ order ++ dropped) by (rewrite Hp; unfold unknown_cas; set_solver).
  destruct order as [|o order].
  - apply Forall_forall with (x := run_op 2 Read [] [] 20 30 true (lit "b") []) in Hd; done.
  - assert (Ho : o ∈ unknown_cas) by (rewrite <- Hp; left).
    unfold unknown_cas in Ho. rewrite !elem_of_cons in Ho.
    destruct Ho as [->|[->|Ho%not_elem_of_nil]]; vm_compute in Hrun; by destruct Hrun.
Qed.

(** A write whose acknowledgement was lost is refused when it takes effect after the client
    gave up on it: the search places it within its interval or not at all. *)
Definition late_write : History :=
  [ run_op 1 Write (lit "a") [] 0 10 false [] (lit "timeout");
    run_op 2 Read [] [] 20 30 true [] [];
    run_op 3 Read [] [] 40 50 true (lit "a") [] ].

Example late_write_refused :
  linearizable_final late_write = verdict_violation (NotLinearizable kx (key_ops late_write kx)).
Proof. by vm_compute. Qed.

(** A stale read: not linearizable, and reported as such. *)
Example stale_read_refused :
  v_ok (linearizable_final
    [ run_op 1 Write (lit "a") [] 0 5 true ack []; run_op 2 Write (lit "b") [] 10 15 true ack [];
      run_op 3 Read [] [] 20 30 true (lit "a") [] ]) = false.
Proof. by vm_compute. Qed.
