(* ===== verification/TxnCheckers.v ===== *)
(** TxnCheckers: the checkers a batch result is judged by (txn/Checkers.hpp), and the proof
    that the deterministic executor over any storage engine passes them.

    Each checker is the loop of the code; where the code builds a verdict with rendered
    text, the model returns the [offence] it found, and [verdict] wraps it.  A [std::map]
    keyed by transaction id is a list in id order. *)

From Stdlib Require Import ZArith Lia Sorting.Sorted.
From stdpp Require Import base list sets numbers.
From S2P Require Import Prelude Core Disk Mvcc Oracle Memtable WalEngine WalInvariant WalRefine Txn TxnCorrect.
#[local] Open Scope Z_scope.

(** ** Verdicts *)

Inductive checker_name :=
| serialized_by_seqlog | exactly_once | ollp_sound | strict_serializable | snapshot_level
| bounded_staleness_level | read_your_writes_level | differential_vs_oracle.

Inductive offence :=
| IndexOutOfOrder (id : Z)
| ZeroVersion (id : Z)
| OutOfSubmitOrder (id : Z)
| LeftPending (id : Z)
| NotOnce (id n : Z)
| Dropped (id : Z)
| RetriesExceeded (id : Z)
| InvalidFootprint (id : Z)
| UndeclaredRead (id : Z) (k : Key)
| StrictReadWrong (id : Z) (k : Key)
| TornSnapshot (id : Z) (k : Key)
| SnapshotWrong (id : Z) (k : Key)
| FutureRead (id : Z) (k : Key)
| LagExceeded (id : Z) (k : Key)
| StaleValueWrong (id : Z) (k : Key)
| OwnWriteLost (session : Z) (k : Key)
| UnknownToOracle (id : Z)
| StatusDiffers (id : Z)
| WritesDiffer (id : Z)
| ResultDiffers (id : Z)
| StrictReadDiffers (id : Z) (k : Key).

Record Verdict := mkVerdict { v_checker : checker_name; v_offence : option offence; v_seed : Z }.

Definition v_ok (v : Verdict) : bool := match v_offence v with None => true | Some _ => false end.

(** [ok_verdict] or [bad_verdict]. *)
Definition verdict (c : checker_name) (o : option offence) : Verdict := mkVerdict c o 0.

(** The first offence of a loop. *)
Fixpoint first_offence {A} (f : A -> option offence) (l : list A) : option offence :=
  match l with
  | [] => None
  | x :: l' => match f x with Some o => Some o | None => first_offence f l' end
  end.

(** [std::map]s keyed by id. *)
Fixpoint id_set {A} (id : Z) (v : A) (m : list (Z * A)) : list (Z * A) :=
  match m with
  | [] => [(id, v)]
  | (i, x) :: m' =>
      if i <? id then (i, x) :: id_set id v m' else if i =? id then (id, v) :: m' else (id, v) :: m
  end.

Fixpoint id_find {A} (id : Z) (m : list (Z * A)) : option A :=
  match m with
  | [] => None
  | (i, x) :: m' => if i =? id then Some x else id_find id m'
  end.

(** ** Helpers *)

Definition committed_in_order (run : RunResult) : list CommitInfo := committed (commits run).

Fixpoint value_after (seq : list CommitInfo) (k : Key) (v : option Value) : option Value :=
  match seq with
  | [] => v
  | c :: seq' => value_after seq' k (match assoc k (c_writes_committed c) with Some x => Some x | None => v end)
  end.

Definition value_after_prefix (seq : list CommitInfo) (k : Key) (j : nat) : option Value :=
  value_after (take j seq) k None.

(** ** Serialization order *)

(** Indices count from one and versions are not zero. *)
Fixpoint check_indices (seq : list CommitInfo) (expect : Z) : option offence :=
  match seq with
  | [] => None
  | c :: seq' =>
      let expect := u64 (expect + 1) in
      if negb (c_seq_index c =? expect) then Some (IndexOutOfOrder (c_txn_id c))
      else if c_commit_version c =? kNoSeq then Some (ZeroVersion (c_txn_id c))
      else check_indices seq' expect
  end.

Fixpoint submit_positions (txns : list Txn) (i : nat) (m : list (Z * nat)) : list (Z * nat) :=
  match txns with
  | [] => m
  | t :: txns' => submit_positions txns' (S i) (id_set (t_id t) i m)
  end.

(** The commit order is a subsequence of the submitted order. *)
Fixpoint check_positions (pos : list (Z * nat)) (seq : list CommitInfo) (last : option nat) : option offence :=
  match seq with
  | [] => None
  | c :: seq' =>
      match id_find (c_txn_id c) pos with
      | None => check_positions pos seq' last
      | Some p =>
          if match last with Some l => Nat.ltb p l | None => false end then Some (OutOfSubmitOrder (c_txn_id c))
          else check_positions pos seq' (Some p)
      end
  end.

Definition check_serialized_by_seqlog (run : RunResult) (submitted : list Txn) : Verdict :=
  let seq := committed_in_order run in
  verdict serialized_by_seqlog
    match check_indices seq 0 with
    | Some o => Some o
    | None => check_positions (submit_positions submitted 0 []) seq None
    end.

(** ** Exactly once *)

Fixpoint count_terminal (l : list CommitInfo) (m : list (Z * Z)) : offence + list (Z * Z) :=
  match l with
  | [] => inr m
  | c :: l' =>
      match c_status c with
      | Pending => inl (LeftPending (c_txn_id c))
      | _ => count_terminal l' (id_set (c_txn_id c) (default 0 (id_find (c_txn_id c) m) + 1) m)
      end
  end.

Definition check_exactly_once (run : RunResult) (submitted : list Txn) : Verdict :=
  verdict exactly_once
    match count_terminal (commits run) [] with
    | inl o => Some o
    | inr m =>
        match first_offence (fun e : Z * Z => if e.2 =? 1 then None else Some (NotOnce e.1 e.2)) m with
        | Some o => Some o
        | None => first_offence (fun t => match id_find (t_id t) m with None => Some (Dropped (t_id t)) | Some _ => None end) submitted
        end
    end.

(** ** Footprints *)

Fixpoint by_id (txns : list Txn) (m : list (Z * Txn)) : list (Z * Txn) :=
  match txns with
  | [] => m
  | t :: txns' => by_id txns' (id_set (t_id t) t m)
  end.

Definition check_footprint (m : list (Z * Txn)) (c : CommitInfo) : option offence :=
  match id_find (c_txn_id c) m with
  | None => None
  | Some t =>
      match body t with
      | None => None
      | Some f =>
          first_offence (fun k => if declared_contains t k then None else Some (UndeclaredRead (c_txn_id c) k))
            (oc_extra_reads (f (c_reads_observed c)))
      end
  end.

Definition check_ollp_sound (run : RunResult) (submitted : list Txn) (cfg : ExecConfig) : Verdict :=
  let m := by_id submitted [] in
  verdict ollp_sound
    (first_offence (fun c =>
       if max_retry cfg <? c_retries c then Some (RetriesExceeded (c_txn_id c))
       else if negb (is_committed c) then None
       else if negb (c_footprint_valid c) then Some (InvalidFootprint (c_txn_id c))
       else check_footprint m c) (commits run)).

(** ** Reads by level *)

Fixpoint check_strict_reads (seq rest : list CommitInfo) (i : nat) : option offence :=
  match rest with
  | [] => None
  | c :: rest' =>
      match first_offence (fun s =>
          if bool_decide (s_level s = StrictSerializable) then
            if bool_decide (s_value s = value_after_prefix seq (s_key s) i) then None
            else Some (StrictReadWrong (c_txn_id c) (s_key s))
          else None) (c_served_reads c) with
      | Some o => Some o
      | None => check_strict_reads seq rest' (S i)
      end
  end.

Definition check_strict_serializable (run : RunResult) : Verdict :=
  let seq := committed_in_order run in verdict strict_serializable (check_strict_reads seq seq 0).

(** The one version of a transaction's snapshot reads. *)
Fixpoint snapshot_version (id : Z) (l : list ServedRead) (p : option Z) : offence + option Z :=
  match l with
  | [] => inr p
  | s :: l' =>
      if bool_decide (s_level s = Snapshot) then
        match p with
        | None => snapshot_version id l' (Some (s_served_version s))
        | Some v => if s_served_version s =? v then snapshot_version id l' p else inl (TornSnapshot id (s_key s))
        end
      else snapshot_version id l' p
  end.

(** The number of commits at or below a version. *)
Definition prefix_len (seq : list CommitInfo) (p : Z) : nat :=
  length (filter (fun d => c_commit_version d <= p) seq).

Definition check_snapshot_level (run : RunResult) : Verdict :=
  let seq := committed_in_order run in
  verdict snapshot_level
    (first_offence (fun c =>
       match snapshot_version (c_txn_id c) (c_served_reads c) None with
       | inl o => Some o
       | inr None => None
       | inr (Some p) =>
           let n := prefix_len seq p in
           first_offence (fun s =>
             if bool_decide (s_level s = Snapshot) then
               if bool_decide (s_value s = value_after_prefix seq (s_key s) n) then None
               else Some (SnapshotWrong (c_txn_id c) (s_key s))
             else None) (c_served_reads c)
       end) seq).

Definition check_bounded_staleness_level (run : RunResult) : Verdict :=
  let seq := committed_in_order run in
  verdict bounded_staleness_level
    (first_offence (fun c =>
       let tip := if 0 <? c_commit_version c then c_commit_version c - 1 else 0 in
       first_offence (fun s =>
         if bool_decide (s_level s = BoundedStaleness) then
           if tip <? s_served_version s then Some (FutureRead (c_txn_id c) (s_key s))
           else if s_max_lag s <? tip - s_served_version s then Some (LagExceeded (c_txn_id c) (s_key s))
           else if bool_decide (s_value s = value_after_prefix seq (s_key s) (prefix_len seq (s_served_version s))) then None
           else Some (StaleValueWrong (c_txn_id c) (s_key s))
         else None) (c_served_reads c)) seq).

(** The sessions a transaction belongs to. *)
Fixpoint sessions_of (l : list ServedRead) (acc : list Z) : list Z :=
  match l with
  | [] => acc
  | s :: l' =>
      sessions_of l'
        (if bool_decide (s_level s = ReadYourWrites) && negb (s_session s =? 0) then
           if existsb (Z.eqb (s_session s)) acc then acc else acc ++ [s_session s]
         else acc)
  end.

(** The last write of a session to a key: its version and value. *)
Abbreviation session_map := (list (Z * Key * (Z * Value))).

Definition find_write (sid : Z) (k : Key) (m : session_map) : option (Z * Value) :=
  option_map snd (List.find (fun e => (e.1.1 =? sid) && key_eqb e.1.2 k) m).

Definition check_own_write (m : session_map) (s : ServedRead) : option offence :=
  if bool_decide (s_level s = ReadYourWrites) && negb (s_session s =? 0) then
    match find_write (s_session s) (s_key s) m with
    | None => None
    | Some (version, v) =>
        if (version <=? s_served_version s) || bool_decide (s_value s = Some v) then None
        else Some (OwnWriteLost (s_session s) (s_key s))
    end
  else None.

Fixpoint check_sessions (seq : list CommitInfo) (m : session_map) : option offence :=
  match seq with
  | [] => None
  | c :: seq' =>
      match first_offence (check_own_write m) (c_served_reads c) with
      | Some o => Some o
      | None =>
          check_sessions seq'
            (fold_left (fun m sid =>
               fold_left (fun m kv => (sid, kv.1, (c_commit_version c, kv.2)) :: m) (c_writes_committed c) m)
               (sessions_of (c_served_reads c) []) m)
      end
  end.

Definition check_read_your_writes_level (run : RunResult) : Verdict :=
  verdict read_your_writes_level (check_sessions (committed_in_order run) []).

(** ** Against the oracle *)

Fixpoint infos_by_id (l : list CommitInfo) (m : list (Z * CommitInfo)) : list (Z * CommitInfo) :=
  match l with
  | [] => m
  | c :: l' => infos_by_id l' (id_set (c_txn_id c) c m)
  end.

#[global] Instance Status_eq_dec : EqDecision Status.
Proof. solve_decision. Defined.

Definition check_differential (sut oracle : RunResult) : Verdict :=
  let oref := infos_by_id (commits oracle) [] in
  verdict differential_vs_oracle
    (first_offence (fun c =>
       let id := c_txn_id c in
       match id_find id oref with
       | None => Some (UnknownToOracle id)
       | Some o =>
           if negb (bool_decide (c_status c = c_status o)) then Some (StatusDiffers id)
           else if negb (is_committed c) then None
           else if negb (bool_decide (c_writes_committed c = c_writes_committed o)) then Some (WritesDiffer id)
           else if negb (key_eqb (c_result c) (c_result o)) then Some (ResultDiffers id)
           else
             first_offence (fun s =>
               if bool_decide (s_level s = StrictSerializable) then
                 if bool_decide (s_value s = default None (assoc (s_key s) (c_reads_observed o))) then None
                 else Some (StrictReadDiffers id (s_key s))
               else None) (c_served_reads c)
       end) (commits sut)).

Definition run_all_checkers (sut oracle : RunResult) (submitted : list Txn) (cfg : ExecConfig) (sd : Z) : list Verdict :=
  (fun v => mkVerdict (v_checker v) (v_offence v) sd) <$>
  [ check_serialized_by_seqlog sut submitted; check_exactly_once sut submitted; check_ollp_sound sut submitted cfg;
    check_strict_serializable sut; check_snapshot_level sut; check_bounded_staleness_level sut;
    check_read_your_writes_level sut; check_differential sut oracle ].

(** ** Loops and maps *)

Lemma first_offence_none {A} (f : A -> option offence) l :
  (forall x, x ∈ l -> f x = None) -> first_offence f l = None.
Proof.
  induction l as [|x l IH]; intros H; cbn; [done|]. rewrite H by left. apply IH. set_solver.
Qed.

Lemma id_find_set {A} id id' (v : A) m :
  id_find id' (id_set id v m) = if id =? id' then Some v else id_find id' m.
Proof.
  induction m as [|[i x] m IH]; cbn; [done|].
  destruct (i <? id) eqn:E1; cbn; [|destruct (Z.eqb_spec i id) as [->|]; cbn]; rewrite ?IH.
  - destruct (Z.eqb_spec i id'), (Z.eqb_spec id id'); try done; lia.
  - by destruct (id =? id').
  - done.
Qed.

Lemma id_set_Forall {A} (P : A -> Prop) id v (m : list (Z * A)) :
  P v -> Forall (fun e => P e.2) m -> Forall (fun e => P e.2) (id_set id v m).
Proof.
  intros Hv. induction 1 as [|[i x] m Hx Hm IH]; cbn; [by repeat constructor|].
  destruct (i <? id); [by constructor|]. destruct (i =? id); repeat (constructor; try done).
Qed.

(** Building a map from a list with distinct ids. *)
Section fold_ids.
Context {A B : Type} (f : A -> Z) (g : A -> B).

Definition fold_ids (l : list A) (m : list (Z * B)) : list (Z * B) :=
  fold_left (fun m x => id_set (f x) (g x) m) l m.

Lemma fold_ids_other l m id : id ∉ f <$> l -> id_find id (fold_ids l m) = id_find id m.
Proof.
  revert m; induction l as [|x l IH]; intros m Hn; [done|].
  cbn [fmap list_fmap] in Hn. apply not_elem_of_cons in Hn as [H1 H2]. cbn [fold_ids fold_left].
  unfold fold_ids in IH. rewrite IH by done. rewrite id_find_set.
  destruct (Z.eqb_spec (f x) id); [by subst|done].
Qed.

Lemma fold_ids_find l m x : NoDup (f <$> l) -> x ∈ l -> id_find (f x) (fold_ids l m) = Some (g x).
Proof.
  revert m; induction l as [|y l IH]; intros m Hnd Hx; [by apply not_elem_of_nil in Hx|].
  cbn [fmap list_fmap] in Hnd. pose proof (NoDup_cons_1_1 _ _ Hnd) as Hy. apply NoDup_cons_1_2 in Hnd.
  apply elem_of_cons in Hx as [->|Hx]; cbn [fold_ids fold_left].
  - change (id_find (f y) (fold_ids l (id_set (f y) (g y) m)) = Some (g y)).
    rewrite fold_ids_other by done. by rewrite id_find_set, Z.eqb_refl.
  - by apply IH.
Qed.
End fold_ids.

Lemma by_id_fold txns m : by_id txns m = fold_ids t_id (fun t => t) txns m.
Proof. revert m; induction txns as [|t txns IH]; intros m; cbn; [done|]. apply IH. Qed.

Lemma infos_by_id_fold l m : infos_by_id l m = fold_ids c_txn_id (fun c => c) l m.
Proof. revert m; induction l as [|c l IH]; intros m; cbn; [done|]. apply IH. Qed.

Lemma submit_positions_fold txns i m :
  submit_positions txns i m = fold_ids (fun x => t_id x.2) fst (zip (List.seq i (length txns)) txns) m.
Proof. revert i m; induction txns as [|t txns IH]; intros i m; cbn; [done|]. apply IH. Qed.

Lemma submit_positions_find txns i t :
  NoDup (t_id <$> txns) -> txns !! i = Some t -> id_find (t_id t) (submit_positions txns 0 []) = Some i.
Proof.
  intros Hnd Hi. rewrite submit_positions_fold.
  apply (fold_ids_find (fun x => t_id x.2) fst _ _ (i, t)).
  - enough ((fun x : nat * Txn => t_id x.2) <$> zip (List.seq 0 (length txns)) txns = t_id <$> txns) as -> by done.
    generalize O. clear. induction txns as [|t txns IH]; intros n; cbn; [done|]. f_equal. apply IH.
  - apply list_elem_of_lookup. exists i. rewrite lookup_zip_with, Hi.
    rewrite lookup_seq_lt by (by eapply lookup_lt_Some). done.
Qed.

(** ** Values *)

Lemma apply_writes_assoc ws st k :
  key_sorted ws -> key_sorted st ->
  assoc k (O.apply_writes st ws) = match assoc k ws with Some x => Some x | None => assoc k st end.
Proof.
  revert st; induction ws as [|[k0 v0] ws IH]; intros st Hws Hst; [done|].
  pose proof (key_sorted_cons_inv _ _ _ Hws) as [Hws' Hlt].
  cbn [O.apply_writes fold_left fst snd]. fold (O.apply_writes (map_set k0 v0 st) ws).
  rewrite IH by (done || by apply map_set_sorted). cbn [assoc].
  rewrite assoc_map_set by done.
  destruct (key_eqb_spec k0 k) as [->|]; [|done].
  destruct (assoc k ws) as [x|] eqn:Ex; [|done]. apply assoc_in, Hlt in Ex.
  by rewrite key_ltb_irrefl in Ex.
Qed.

Definition writes_sorted (c : CommitInfo) : Prop := key_sorted (c_writes_committed c).

Lemma value_after_store seq k st :
  Forall writes_sorted seq -> key_sorted st ->
  value_after seq k (assoc k st) = assoc k (fold_left O.apply_writes (map c_writes_committed seq) st).
Proof.
  intros H. revert st; induction H as [|c seq Hc Hs IH]; intros st Hst; cbn [value_after map fold_left]; [done|].
  rewrite <- IH by (by apply apply_writes_sorted). by rewrite apply_writes_assoc.
Qed.

Lemma value_after_prefix_store seq k j :
  Forall writes_sorted seq ->
  value_after_prefix seq k j = assoc k (store_after (take j (map c_writes_committed seq))).
Proof.
  intros H. unfold value_after_prefix, store_after. rewrite <- fmap_take.
  change (@None Value) with (assoc k ([] : list (Key * Value))).
  apply value_after_store; [by apply Forall_take|constructor].
Qed.

Lemma prefix_len_from seq p n :
  (forall i c, seq !! i = Some c -> c_commit_version c = n + Z.of_nat i + 1) ->
  n <= p <= n + Zlen seq -> prefix_len seq p = Z.to_nat (p - n).
Proof.
  unfold prefix_len. revert n; induction seq as [|c seq IH]; intros n Hv Hp.
  { unfold Zlen in Hp. cbn in *. lia. }
  rewrite list.filter_cons. pose proof (Hv O c eq_refl) as Hc. cbn in Hc.
  assert (Hv' : forall i c, seq !! i = Some c -> c_commit_version c = (n + 1) + Z.of_nat i + 1).
  { intros i c' Hi. rewrite (Hv (S i) c' Hi). lia. }
  case_decide as E.
  - cbn [length]. unfold Zlen in *. cbn [length] in Hp. rewrite (IH (n + 1)) by (done || lia). lia.
  - assert (p = n) as -> by lia. replace (n - n) with 0 by lia.
    destruct (filter (fun d => c_commit_version d <= n) seq) as [|x l] eqn:Ef; [done|].
    assert (x ∈ filter (fun d => c_commit_version d <= n) seq) as [Hx [i Hi]%list_elem_of_lookup]%list_elem_of_filter
      by (rewrite Ef; left).
    apply Hv' in Hi. lia.
Qed.

(** ** Where a record comes from *)

Section origin.
Context {E : Type} `{HE : EngineSpec E} (cfg : ExecConfig) (txns : list Txn).
Hypothesis Hcfg : 0 <= max_retry cfg < 2 ^ 64 /\ 0 <= replica_lag cfg.

(** A record of a submitted transaction; a commit is its body run on the reads observed,
    within the footprint, and each served read is a declared one. *)
Definition origin (c : CommitInfo) : Prop :=
  exists t, t ∈ txns /\ t_id t = c_txn_id c /\
    (is_committed c = true ->
       c_writes_committed c = oc_writes (run_body t (c_reads_observed c)) /\
       footprint_ok t (run_body t (c_reads_observed c)) = true) /\
    forall s, s ∈ c_served_reads c ->
      exists r, r ∈ declared_reads t /\ s_key s = r_key r /\ s_level s = r_level r /\ s_max_lag s = r_max_lag r.

Lemma serve_origin t (st : X.state E) n rs : forall shared reads served reads' served',
  X.serve cfg t st n shared rs reads served = (reads', served') ->
  forall s, s ∈ served' -> s ∈ served \/
    exists r, r ∈ rs /\ s_key s = r_key r /\ s_level s = r_level r /\ s_max_lag s = r_max_lag r.
Proof.
  induction rs as [|r rs IH]; intros shared reads served reads' served' Hrun s Hs; cbn [X.serve] in Hrun.
  - injection Hrun as <- <-. auto.
  - destruct (X.read_prefix _ _ _ _ _) as [p shared']. apply (IH _ _ _ _ _ Hrun) in Hs as [Hs|(r' & Hr & Heq)].
    + apply elem_of_app in Hs as [Hs|Hs]; [auto|]. apply list_elem_of_singleton in Hs as ->.
      right. exists r. split; [left|done].
    + right. exists r'. split; [by right|done].
Qed.

(** First tries are decided in the submitted order. *)
Definition fresh_entry (p : QueueEntry) : Prop := p_retries p = 0.
Definition fresh_info (c : CommitInfo) : Prop := c_retries c = 0.

#[local] Instance fresh_entry_dec p : Decision (fresh_entry p) := Z.eq_dec _ _.
#[local] Instance fresh_info_dec c : Decision (fresh_info c) := Z.eq_dec _ _.

Record origin_inv (q : list QueueEntry) (s : X.state E) : Prop := {
  oi_queue : forall p, p ∈ q -> p_txn p ∈ txns;
  oi_out : Forall origin (X.out s);
  oi_order : (c_txn_id <$> filter fresh_info (X.out s)) ++ ((fun p => t_id (p_txn p)) <$> filter fresh_entry q)
               `sublist_of` (t_id <$> txns)
}.

(** The record of an entry goes to the end of the output. *)
Lemma origin_record p q s s' c :
  origin_inv (p :: q) s -> X.out s' = X.out s ++ [c] -> origin c ->
  c_txn_id c = t_id (p_txn p) -> c_retries c = p_retries p -> origin_inv q s'.
Proof.
  intros [H1 H2 H3] Ho Hc Hid Hr. split.
  - intros x Hx. apply H1. by right.
  - rewrite Ho. apply Forall_app. split; [done|]. by apply Forall_singleton.
  - rewrite Ho, list.filter_app, fmap_app, <- app_assoc. rewrite list.filter_cons in H3.
    rewrite list.filter_cons. assert (Heq : fresh_info c <-> fresh_entry p) by (unfold fresh_info, fresh_entry; by rewrite Hr).
    destruct (decide (fresh_entry p)) as [Hf|Hf].
    + rewrite decide_True by tauto. cbn. rewrite Hid. exact H3.
    + rewrite decide_False by tauto. exact H3.
Qed.

Lemma step_origin p q s s' a :
  Forall (entry_ok (max_retry cfg)) (p :: q) -> origin_inv (p :: q) s ->
  X.step cfg p s = (s', a) -> origin_inv (q ++ option_list a) s'.
Proof.
  intros Hok Hinv Hst. pose proof (Forall_inv Hok) as Hp. unfold entry_ok in Hp.
  unfold X.step in Hst. destruct (X.serve _ _ _ _ _ _ _ _) as [reads served] eqn:Erun.
  pose proof (serve_origin _ _ _ _ _ _ _ _ _ Erun) as Hserved.
  assert (Hdecl : forall x, x ∈ served -> exists r, r ∈ declared_reads (p_txn p) /\
    s_key x = r_key r /\ s_level x = r_level r /\ s_max_lag x = r_max_lag r).
  { intros x Hx. by destruct (Hserved x Hx) as [Hn%not_elem_of_nil|]. }
  pose proof (oi_queue _ _ Hinv p (list_elem_of_here _ _)) as Hin.
  destruct (footprint_ok (p_txn p) (run_body (p_txn p) reads)) eqn:Ef; cbn [negb] in Hst.
  - injection Hst as <- <-. cbn [option_list]. rewrite app_nil_r.
    eapply origin_record; [exact Hinv|reflexivity| |done|done]. exists (p_txn p). cbn. auto 8.
  - destruct (p_retries p <? max_retry cfg) eqn:Er; injection Hst as <- <-; unfold option_list; cbn [option_rect].
    + destruct Hinv as [H1 H2 H3]. split; [|done|].
      * intros x Hx. apply elem_of_app in Hx as [Hx|Hx]; [by apply H1; right|].
        by apply list_elem_of_singleton in Hx as ->.
      * rewrite list.filter_app, (list.filter_cons _ _ []), decide_False, list.filter_nil, app_nil_r
          by (unfold fresh_entry; cbn; rewrite u64_id; lia).
        etransitivity; [|exact H3]. apply sublist_app; [done|]. rewrite list.filter_cons.
        case_decide; [cbn; by apply sublist_cons|done].
    + rewrite app_nil_r. eapply origin_record; [exact Hinv|reflexivity| |done|done].
      exists (p_txn p). cbn. split; [done|]. split; [done|]. split; [done|]. done.
Qed.

Lemma batch_origin (e : E) :
  let out := commits (X.run_batch e txns cfg) in
  Forall origin out /\ (c_txn_id <$> filter fresh_info out) `sublist_of` (t_id <$> txns).
Proof.
  unfold X.run_batch. cbn [commits].
  assert (H1 : origin_inv [] (run_queue (X.step cfg) (batch_fuel cfg txns) (initial_queue txns) (X.mkState e [] [kNoSeq] 0 []))).
  { apply (run_queue_inv (X.step cfg) (max_retry cfg) origin_inv).
    - by apply step_bounded.
    - intros. by eapply step_origin.
    - apply initial_ok. lia.
    - split; cbn [X.out]; [|constructor|].
      + intros p Hp. unfold initial_queue in Hp. apply list_elem_of_fmap in Hp as (t & -> & Ht). done.
      + cbn. unfold initial_queue.
        enough (forall l, ((fun p => t_id (p_txn p)) <$> filter fresh_entry (map (fun t => mkPending t 0) l)) = t_id <$> l) as -> by done.
        induction l as [|t l IH]; [done|]. cbn [map]. rewrite list.filter_cons, decide_True by done. cbn. by rewrite IH.
    - rewrite initial_turns by lia. done. }
  destruct H1 as [_ H2 H3]. split; [done|]. cbn in H3. by rewrite app_nil_r in H3.
Qed.
End origin.

(** ** A result with the executor's guarantees passes *)

Section judged.
Context (cfg : ExecConfig) (txns : list Txn) (run : RunResult).
Abbreviation out := (commits run).
Abbreviation order := (committed_in_order run).

(** What [TxnCorrect] shows of a batch. *)
Record judged : Prop := {
  j_infos : infos_ok cfg out;
  j_ids : c_txn_id <$> out ≡ₚ t_id <$> txns;
  j_terminal : Forall (fun c => c_status c <> Pending /\ 0 <= c_retries c <= max_retry cfg) out;
  j_origin : Forall (origin txns) out;
  j_len : Zlen order < 2 ^ 64 - 1
}.

Hypothesis J : judged.
Hypothesis Hids : NoDup (t_id <$> txns).
Hypothesis Hmaps : forall t rv, t ∈ txns -> key_sorted (oc_writes (run_body t rv)).

Lemma order_elem c : c ∈ order <-> c ∈ out /\ is_committed c = true.
Proof. unfold committed_in_order, committed. by rewrite !list_elem_of_In, filter_In. Qed.

Lemma order_info i c : order !! i = Some c -> info_ok cfg (committed_writes out) (Z.of_nat i) c.
Proof. apply (j_infos J). Qed.

Lemma order_sorted : Forall writes_sorted order.
Proof.
  apply list.Forall_forall. intros c [Hc Hcom]%order_elem.
  pose proof (j_origin J) as Ho. rewrite list.Forall_forall in Ho.
  destruct (Ho c Hc) as (t & Ht & _ & Hbody & _). destruct (Hbody Hcom) as [Hw _].
  unfold writes_sorted. rewrite Hw. by apply Hmaps.
Qed.

Lemma prefix_value k j : value_after_prefix order k j = assoc k (store_after (take j (committed_writes out))).
Proof. apply value_after_prefix_store, order_sorted. Qed.

Lemma order_length : Zlen order = Zlen (committed_writes out).
Proof. unfold Zlen. by rewrite length_committed_writes. Qed.

Lemma prefix_len_version p : 0 <= p <= Zlen order -> prefix_len order p = Z.to_nat p.
Proof.
  intros Hp. rewrite (prefix_len_from order p 0) by (intros; try (rewrite (proj2 (io_index _ _ _ _ (order_info _ _ H))); lia); lia).
  f_equal. lia.
Qed.

(** A served read of the commit at [i] has the value of its prefix. *)
Lemma served_value i c s :
  order !! i = Some c -> s ∈ c_served_reads c ->
  0 <= s_served_version s <= Z.of_nat i /\
  s_value s = value_after_prefix order (s_key s) (Z.to_nat (s_served_version s)) /\
  prefix_len order (s_served_version s) = Z.to_nat (s_served_version s).
Proof.
  intros Hi Hs. destruct (io_served _ _ _ _ (order_info _ _ Hi) s) as [Hr Hv _ _ _]; [by apply list_elem_of_In|].
  apply lookup_lt_Some in Hi. split; [done|]. split; [by rewrite prefix_value|].
  apply prefix_len_version. unfold Zlen. lia.
Qed.

Lemma passes_exactly_once : v_ok (check_exactly_once run txns) = true.
Proof.
  unfold check_exactly_once, v_ok, verdict. cbn [v_offence].
  assert (Hcount : forall l m, NoDup (c_txn_id <$> l) -> (forall c, c ∈ l -> c_status c <> Pending) ->
    (forall id, id ∈ c_txn_id <$> l -> id_find id m = None) -> Forall (fun e => e.2 = 1) m ->
    exists m', count_terminal l m = inr m' /\ Forall (fun e => e.2 = 1) m' /\
      forall id, (id ∈ c_txn_id <$> l \/ id_find id m <> None) -> id_find id m' <> None).
  { induction l as [|c l IH]; intros m Hnd Hp Hd Hm; cbn [count_terminal].
    - exists m. split; [done|]. split; [done|]. intros id [H%not_elem_of_nil|H]; done.
    - cbn [fmap list_fmap] in Hnd, Hd. pose proof (NoDup_cons_1_1 _ _ Hnd) as Hc. apply NoDup_cons_1_2 in Hnd.
      destruct (IH (id_set (c_txn_id c) (default 0 (id_find (c_txn_id c) m) + 1) m)) as (m' & Hm' & H1 & H2).
      + done.
      + intros x Hx. apply Hp. by right.
      + intros id Hid. rewrite id_find_set. destruct (Z.eqb_spec (c_txn_id c) id) as [<-|]; [done|].
        apply Hd. by right.
      + apply (id_set_Forall (fun n => n = 1)); [|done]. rewrite Hd by left. done.
      + exists m'. rewrite Hm'. specialize (Hp c (list_elem_of_here _ _)).
        split; [by destruct (c_status c)|]. split; [done|].
        intros id Hid. apply H2. rewrite id_find_set. destruct (Z.eqb_spec (c_txn_id c) id) as [<-|Hn]; [auto|].
        destruct Hid as [[->|Hid]%elem_of_cons|Hid]; [done|auto..]. }
  pose proof (j_terminal J) as Ht. rewrite list.Forall_forall in Ht.
  destruct (Hcount out []) as (m & -> & H1 & H2).
  - by rewrite (j_ids J).
  - intros c Hc. by apply Ht.
  - done.
  - constructor.
  - rewrite first_offence_none.
    2:{ intros e He. rewrite list.Forall_forall in H1. rewrite (H1 e He). done. }
    rewrite first_offence_none; [done|]. intros t Htx.
    destruct (id_find (t_id t) m) eqn:Ef; [done|]. exfalso. apply (H2 (t_id t)); [|done]. left.
    rewrite (j_ids J). by apply list_elem_of_fmap_2.
Qed.

Lemma passes_ollp : v_ok (check_ollp_sound run txns cfg) = true.
Proof.
  unfold check_ollp_sound, v_ok, verdict. cbn [v_offence]. rewrite first_offence_none; [done|]. intros c Hc.
  pose proof (j_terminal J) as Ht. rewrite list.Forall_forall in Ht. destruct (Ht c Hc) as [_ Hr].
  rewrite (proj2 (Z.ltb_ge _ _)) by lia.
  destruct (is_committed c) eqn:Ecom; cbn [negb]; [|done].
  assert (c ∈ order) as [i Hi]%list_elem_of_lookup by (by apply order_elem).
  destruct (io_valid _ _ _ _ (order_info _ _ Hi)) as [-> _]. cbn [negb].
  unfold check_footprint. rewrite by_id_fold.
  pose proof (j_origin J) as Ho. rewrite list.Forall_forall in Ho.
  destruct (Ho c Hc) as (t & Htx & Hid & Hbody & _). destruct (Hbody Ecom) as [_ Hf].
  rewrite <- Hid, (fold_ids_find t_id (fun t => t) _ _ t) by done.
  unfold run_body in Hf. destruct (body t) as [f|]; [|done].
  apply first_offence_none. intros k Hk. unfold footprint_ok in Hf. rewrite forallb_forall in Hf.
  rewrite Hf by (by apply list_elem_of_In). done.
Qed.

Lemma passes_strict : v_ok (check_strict_serializable run) = true.
Proof.
  unfold check_strict_serializable, v_ok, verdict. cbn [v_offence].
  enough (Hall : forall rest i, order = take i order ++ rest -> (i <= length order)%nat ->
    check_strict_reads order rest i = None) by (rewrite (Hall order O); [done|done|lia]).
  induction rest as [|c rest IH]; intros i Hsplit Hle; cbn [check_strict_reads]; [done|].
  assert (Hi : order !! i = Some c).
  { rewrite Hsplit, lookup_app_r; rewrite length_take; [|lia].
    by replace (i - i `min` length order)%nat with O by lia. }
  rewrite first_offence_none.
  - apply IH; [|by apply lookup_lt_Some in Hi]. rewrite (take_S_r _ _ _ Hi), <- app_assoc. exact Hsplit.
  - intros s Hs. case_bool_decide as Hl; [|done].
    destruct (served_value i c s Hi Hs) as (_ & Hv & _).
    rewrite (so_strict _ _ _ _ (io_served _ _ _ _ (order_info _ _ Hi) s ltac:(by apply list_elem_of_In)) Hl) in Hv.
    rewrite Nat2Z.id in Hv. by rewrite bool_decide_true.
Qed.

Lemma passes_snapshot : v_ok (check_snapshot_level run) = true.
Proof.
  unfold check_snapshot_level, v_ok, verdict. cbn [v_offence]. rewrite first_offence_none; [done|].
  intros c [i Hi]%list_elem_of_lookup.
  destruct (io_snapshot _ _ _ _ (order_info _ _ Hi)) as [p Hp].
  assert (Hsv : forall l acc, (forall s, s ∈ l -> s_level s = Snapshot -> s_served_version s = p) ->
    (acc = None \/ acc = Some p) ->
    exists acc', snapshot_version (c_txn_id c) l acc = inr acc' /\ (acc' = None \/ acc' = Some p)).
  { induction l as [|s l IH]; intros acc Hl Hacc; cbn [snapshot_version]; [eauto|].
    case_bool_decide as Hlev; [|apply IH; [set_solver|done]].
    rewrite (Hl s (list_elem_of_here _ _) Hlev). destruct Hacc as [->| ->]; [|rewrite Z.eqb_refl];
      (apply IH; [set_solver|auto]). }
  destruct (Hsv (c_served_reads c) None) as (acc & -> & Hacc); [|auto|].
  { intros s Hs. apply Hp. by apply list_elem_of_In. }
  destruct Hacc as [->| ->]; [done|]. apply first_offence_none. intros s Hs.
  case_bool_decide as Hlev; [|done]. destruct (served_value i c s Hi Hs) as (_ & Hv & Hpl).
  rewrite (Hp s) in Hv, Hpl by (done || by apply list_elem_of_In). rewrite Hpl. by rewrite bool_decide_true.
Qed.

Lemma passes_bounded :
  (forall t r, t ∈ txns -> r ∈ declared_reads t -> r_level r = BoundedStaleness -> replica_lag cfg <= r_max_lag r) ->
  v_ok (check_bounded_staleness_level run) = true.
Proof.
  intros Hlag. unfold check_bounded_staleness_level, v_ok, verdict. cbn [v_offence].
  rewrite first_offence_none; [done|]. intros c Hc. apply first_offence_none. intros s Hs.
  case_bool_decide as Hlev; [|done]. pose proof Hc as [Hout _]%order_elem.
  apply list_elem_of_lookup in Hc as [i Hi].
  pose proof (order_info _ _ Hi) as Hinfo. rewrite (proj2 (io_index _ _ _ _ Hinfo)).
  rewrite (proj2 (Z.ltb_lt 0 (Z.of_nat i + 1))) by lia.
  destruct (served_value i c s Hi Hs) as (Hr & Hv & Hpl).
  pose proof (so_bounded _ _ _ _ (io_served _ _ _ _ Hinfo s ltac:(by apply list_elem_of_In)) Hlev) as Hb.
  pose proof (j_origin J) as Ho. rewrite list.Forall_forall in Ho.
  destruct (Ho c Hout) as (t & Htx & _ & _ & Hdecl). destruct (Hdecl s Hs) as (r & Hrd & _ & Hl & Hm).
  pose proof (Hlag t r Htx Hrd ltac:(congruence)).
  rewrite (proj2 (Z.ltb_ge _ _)) by lia. rewrite (proj2 (Z.ltb_ge _ _)) by lia.
  rewrite Hpl. by rewrite bool_decide_true.
Qed.

Lemma fold_session_map (P : Z * Key * (Z * Value) -> Prop) (sids : list Z) (ws : WriteSet) v m :
  Forall P m -> (forall sid kv, P (sid, kv.1, (v, kv.2))) ->
  Forall P (fold_left (fun m sid => fold_left (fun m kv => (sid, kv.1, (v, kv.2)) :: m) ws m) sids m).
Proof.
  intros Hm HP. revert m Hm; induction sids as [|sid sids IH]; intros m Hm; cbn; [done|]. apply IH.
  clear IH. revert m Hm; induction ws as [|kv ws IH]; intros m Hm; cbn; [done|]. apply IH. by constructor.
Qed.

Lemma passes_ryw : v_ok (check_read_your_writes_level run) = true.
Proof.
  unfold check_read_your_writes_level, v_ok, verdict. cbn [v_offence].
  enough (Hall : forall rest i m, order = take i order ++ rest -> (i <= length order)%nat ->
    Forall (fun e : Z * Key * (Z * Value) => e.2.1 <= Z.of_nat i) m -> check_sessions rest m = None)
    by (rewrite (Hall order O []); [done|done|lia|constructor]).
  induction rest as [|c rest IH]; intros i m Hsplit Hle Hm; cbn [check_sessions]; [done|].
  assert (Hi : order !! i = Some c).
  { rewrite Hsplit, lookup_app_r; rewrite length_take; [|lia].
    by replace (i - i `min` length order)%nat with O by lia. }
  pose proof (order_info _ _ Hi) as Hinfo.
  rewrite first_offence_none.
  - apply (IH (S i)); [|by apply lookup_lt_Some in Hi|].
    + rewrite (take_S_r _ _ _ Hi), <- app_assoc. exact Hsplit.
    + apply fold_session_map.
      * eapply list.Forall_impl; [exact Hm|]. cbn. intros e He. lia.
      * intros sid kv. cbn. rewrite (proj2 (io_index _ _ _ _ Hinfo)). lia.
  - intros s Hs. unfold check_own_write. destruct (bool_decide (s_level s = ReadYourWrites)) eqn:El; [|done].
    apply bool_decide_eq_true in El. destruct (negb (s_session s =? 0)); [|done]. cbn [andb].
    destruct (find_write (s_session s) (s_key s) m) as [[version v]|] eqn:Ef; [|done].
    unfold find_write in Ef. destruct (List.find _ m) as [x|] eqn:Ex; [|done]. apply find_some in Ex as [Hx _].
    cbn in Ef. injection Ef as Ef. rewrite list.Forall_forall in Hm.
    specialize (Hm x ltac:(by apply list_elem_of_In)). rewrite Ef in Hm. cbn in Hm.
    rewrite (so_ryw _ _ _ _ (io_served _ _ _ _ Hinfo s ltac:(by apply list_elem_of_In)) El).
    rewrite (proj2 (Z.leb_le _ _)) by lia. done.
Qed.

(** When no commit was a retry, the commit order is the submitted order. *)
Lemma passes_serialized :
  (c_txn_id <$> filter fresh_info out) `sublist_of` (t_id <$> txns) ->
  Forall (fun c => is_committed c = true -> fresh_info c) out ->
  v_ok (check_serialized_by_seqlog run txns) = true.
Proof.
  intros Hsub Hfresh. unfold check_serialized_by_seqlog, v_ok, verdict. cbn [v_offence].
  assert (Hidx : forall rest i, order = take i order ++ rest -> (i <= length order)%nat ->
    check_indices rest (Z.of_nat i) = None).
  { induction rest as [|c rest IH]; intros i Hsplit Hle; cbn [check_indices]; [done|].
    assert (Hi : order !! i = Some c).
    { rewrite Hsplit, lookup_app_r; rewrite length_take; [|lia].
      by replace (i - i `min` length order)%nat with O by lia. }
    destruct (io_index _ _ _ _ (order_info _ _ Hi)) as [-> ->]. pose proof (j_len J). unfold Zlen in *.
    rewrite u64_id, Z.eqb_refl by lia. cbn [negb]. destruct (Z.eqb_spec (Z.of_nat i + 1) kNoSeq); [unfold kNoSeq in *; lia|].
    replace (Z.of_nat i + 1) with (Z.of_nat (S i)) by lia. apply IH; [|by apply lookup_lt_Some in Hi].
    rewrite (take_S_r _ _ _ Hi), <- app_assoc. exact Hsplit. }
  change 0 with (Z.of_nat 0) at 1. rewrite (Hidx order O) by (done || lia).
  assert (Hord : (c_txn_id <$> order) `sublist_of` (t_id <$> txns)).
  { etransitivity; [|exact Hsub]. apply fmap_sublist. unfold committed_in_order, committed.
    clear -Hfresh. induction Hfresh as [|c l Hc Hl IH]; cbn [List.filter]; [done|].
    rewrite list.filter_cons. destruct (is_committed c).
    - rewrite decide_True by auto. by apply sublist_skip.
    - case_decide; [by apply sublist_cons|done]. }
  assert (Hpos : forall seq pre rest last, txns = pre ++ rest -> (c_txn_id <$> seq) `sublist_of` (t_id <$> rest) ->
    (forall l, last = Some l -> (l < length pre)%nat) -> check_positions (submit_positions txns 0 []) seq last = None).
  { induction seq as [|c seq IH]; intros pre rest last Htx Hs Hlast; cbn [check_positions]; [done|].
    cbn [fmap list_fmap] in Hs. apply sublist_cons_l in Hs as (k1 & k2 & Heq & Hs).
    apply fmap_app_inv in Heq as (r1 & r2 & -> & Heq2 & ->). symmetry in Heq2.
    apply fmap_cons_inv in Heq2 as (t & r3 & Hid & -> & ->).
    assert (Ht : txns !! (length pre + length r1)%nat = Some t).
    { rewrite Htx, lookup_app_r by lia. rewrite lookup_app_r by lia.
      by replace (length pre + length r1 - length pre - length r1)%nat with O by lia. }
    rewrite Hid, (submit_positions_find txns _ t Hids Ht).
    assert (match last with Some l => Nat.ltb (length pre + length r1) l | None => false end = false) as ->.
    { destruct last as [l|]; [|done]. specialize (Hlast l eq_refl). apply Nat.ltb_ge. lia. }
    apply (IH (pre ++ r1 ++ [t]) r3); [by rewrite Htx, <- !app_assoc|done|].
    intros l [= <-]. rewrite !length_app. cbn. lia. }
  by rewrite (Hpos order [] txns None).
Qed.
End judged.

Lemma executor_judged {E} `{EngineSpec E} W txns cfg (e : E) :
  repr e [] -> batch_ok capacity W txns cfg -> Zlen txns < 2 ^ 64 - 1 ->
  judged cfg txns (X.run_batch e txns cfg) /\
  (c_txn_id <$> filter fresh_info (commits (X.run_batch e txns cfg))) `sublist_of` (t_id <$> txns).
Proof.
  intros He [Hc HW Ht Hcap Hl] Hlen.
  destruct (batch_origin cfg txns Hc e) as [Ho Hsub]. split; [|exact Hsub].
  destruct (batch_correct cfg W (Zlen txns) Hc HW Hl e txns He Ht Hcap) as (s & Hrun & h & Hs & Hi & Hp & Ha); [done|].
  rewrite Hrun in *. cbn [commits] in *. cbn [map] in Hp. rewrite app_nil_r in Hp. split; cbn [commits]; try done.
  pose proof (x_count _ _ _ _ _ Hs) as Hn. unfold committed_in_order, Zlen in *. cbn [commits length] in *.
  rewrite length_committed_writes in Hn. lia.
Qed.

(** The executor passes its own checkers.  For any storage engine behind the interface
    and any batch of transactions with distinct ids, whose write sets are maps and whose
    bounded reads allow at least the configured replica lag, the result of the
    deterministic executor is accepted by the exactly-once, footprint, strict, snapshot,
    bounded-staleness and read-your-writes checkers, and by the serialization-order checker
    when no transaction committed on a retry. *)
Theorem executor_passes_checkers {E} `{EngineSpec E} W txns cfg (e : E) :
  repr e [] -> batch_ok capacity W txns cfg -> Zlen txns < 2 ^ 64 - 1 ->
  NoDup (t_id <$> txns) ->
  (forall t rv, t ∈ txns -> key_sorted (oc_writes (run_body t rv))) ->
  (forall t r, t ∈ txns -> r ∈ declared_reads t -> r_level r = BoundedStaleness -> replica_lag cfg <= r_max_lag r) ->
  let run := X.run_batch e txns cfg in
  (forall v, In v [ check_exactly_once run txns; check_ollp_sound run txns cfg; check_strict_serializable run;
        check_snapshot_level run; check_bounded_staleness_level run; check_read_your_writes_level run ] ->
     v_ok v = true) /\
  (Forall (fun c => is_committed c = true -> c_retries c = 0) (commits run) ->
     v_ok (check_serialized_by_seqlog run txns) = true).
Proof.
  intros He Hb Hlen Hids Hmaps Hlag run. pose proof (executor_judged W txns cfg e He Hb Hlen) as [J Hsub].
  split; [|intros Hr; by apply (passes_serialized cfg)].
  intros v [<-|[<-|[<-|[<-|[<-|[<-|[]]]]]]].
  - by apply (passes_exactly_once cfg).
  - by apply passes_ollp.
  - by apply (passes_strict cfg txns).
  - by apply (passes_snapshot cfg txns).
  - by apply (passes_bounded cfg txns).
  - by apply (passes_ryw cfg txns).
Qed.

(** ** Runs *)

Lemma executor_passes_checkers_witness :
  v_ok (check_snapshot_level (TxnCorrect.submit_batch [incr; mixed] demo_cfg)) = true.
Proof.
  refine (proj1 (executor_passes_checkers (H0 := @wal_spec WalEngine.default_factory) 1 [incr; mixed] demo_cfg
    (WalEngine.wal_only, WalEngine.mkIo empty_disk empty_disk ∅ []) _ _ _ _ _ _) _ _).
  - apply (fresh_inv _ wal_only_fresh).
  - split; [cbn; lia|lia| |vm_compute; discriminate|vm_compute; reflexivity].
    intros t [<-|[<-|[]]]; (split; [intros rv; vm_compute; discriminate|]); cbn; intros r Hr;
      repeat destruct Hr as [<-|Hr]; try done; vm_compute; discriminate.
  - vm_compute. reflexivity.
  - apply (bool_decide_unpack _). vm_compute. exact I.
  - intros t rv [->|[->|Ht%not_elem_of_nil]%elem_of_cons]%elem_of_cons; [| |done]; cbn; repeat constructor.
  - intros t r [->|[->|Ht%not_elem_of_nil]%elem_of_cons]%elem_of_cons; [| |done]; cbn; rewrite ?elem_of_cons;
      intros Hr Hl; repeat destruct Hr as [->|Hr]; try done; try (vm_compute; discriminate); by apply not_elem_of_nil in Hr.
  - right. right. right. left. reflexivity.
Defined.

(** A transaction that needs an undeclared key until another has written. *)
Definition waits : Txn :=
  mkTxn 1 [read_strict [Byte.x61]]
    (Some (fun rv => mkOutcome [([Byte.x62], [Byte.x00])] []
                       match assoc [Byte.x61] rv with Some (Some _) => [] | _ => [[Byte.x63]] end)).

Definition writer : Txn :=
  mkTxn 2 [read_strict [Byte.x61]] (Some (fun rv => mkOutcome [([Byte.x61], [Byte.x01])] [] [])).

(** A transaction that commits on a retry commits after one submitted later, and the
    serialization-order checker reports the executor, and the serial oracle, for it. *)
Example retry_reported :
  v_ok (check_serialized_by_seqlog (TxnCorrect.submit_batch [waits; writer] demo_cfg) [waits; writer]) = false /\
  v_ok (check_serialized_by_seqlog (O.submit_batch [waits; writer] demo_cfg) [waits; writer]) = false /\
  v_ok (check_differential (TxnCorrect.submit_batch [waits; writer] demo_cfg) (O.submit_batch [waits; writer] demo_cfg)) = true.
Proof. vm_compute. done. Qed.
