(* ===== verification/TxnHarness.v ===== *)
(** TxnHarness: the differential harness (txn/DiffHarness.hpp): a seeded workload run by
    the deterministic executor and by the serial oracle, judged by the checkers of
    [TxnCheckers].  The harness reports no violation on the executor, for any seed. *)

From Stdlib Require Import ZArith Lia Sorting.Sorted.
From stdpp Require Import base list sets numbers strings pretty.
From S2P Require Import Prelude Core Disk Mvcc Oracle Memtable WalEngine WalInvariant WalRefine Txn TxnCorrect TxnCheckers.
#[local] Open Scope Z_scope.

(** ** The workload *)

(** [SplitMix::next]: the value and the new state. *)
Definition next (s : Z) : Z * Z :=
  let s := u64 (s + 0x9E3779B97F4A7C15) in
  let z := u64 (Z.lxor s (Z.shiftr s 30) * 0xBF58476D1CE4E5B9) in
  let z := u64 (Z.lxor z (Z.shiftr z 27) * 0x94D049BB133111EB) in
  (Z.lxor z (Z.shiftr z 31), s).

Definition below (n s : Z) : Z * Z :=
  if n =? 0 then (0, s) else let '(x, s) := next s in (x mod n, s).

Record WorkloadConfig := mkWorkload { num_txns : nat; num_keys : Z; exec : ExecConfig }.

Definition str (s : string) : list byte := String.list_byte_of_string s.
Definition to_string (n : Z) : list byte := str (pretty (Z.to_N n)).
#[global] Arguments str : simpl never.
#[global] Arguments to_string : simpl never.

Definition workload_key (i : Z) : Key := str "k" ++ to_string i.

(** The body: a read-modify-write of [k] that asks for [trig] once [k] has a value. *)
Definition workload_body (id : Z) (k trig : Key) (expands : bool) (reads : ReadView) : Outcome :=
  let cur := default None (assoc k reads) in
  let nv := default (str "e") cur ++ str ">t" ++ to_string id in
  mkOutcome [(k, nv)] (str "wrote:" ++ nv)
    (match cur with Some _ => if expands then [trig] else [] | None => [] end).

Definition workload_txn (id : Z) (k trig : Key) (expands : bool) (observ : option Read) : Txn :=
  mkTxn id (read_strict k :: option_list observ) (Some (workload_body id k trig expands)).

(** One iteration of the loop of [build_workload]. *)
Definition build_txn (wc : WorkloadConfig) (i : nat) (rng : Z) : Txn * Z :=
  let '(k_idx, rng) := below (num_keys wc) rng in
  let k := workload_key k_idx in
  let '(trig_idx, rng) := below (num_keys wc) rng in
  let trig := workload_key trig_idx in
  let '(expands, rng) :=
    if key_eqb trig k then (false, rng)
    else let '(x, rng) := below 2 rng in (x =? 0, rng) in
  let '(lvl_roll, rng) := below 8 rng in
  let '(obs_idx, rng) := below (num_keys wc) rng in
  let obs_key := workload_key obs_idx in
  let observ :=
    if lvl_roll <? 4 then None
    else if lvl_roll <? 5 then Some (read_snapshot obs_key kNoSeq)
    else if lvl_roll <? 6 then Some (read_bounded obs_key (replica_lag (exec wc)))
    else Some (read_ryw k 1) in
  (workload_txn (Z.of_nat i + 1) k trig expands observ, rng).

Fixpoint build_txns (wc : WorkloadConfig) (n i : nat) (rng : Z) : list Txn :=
  match n with
  | O => []
  | S n' => let '(t, rng) := build_txn wc i rng in t :: build_txns wc n' (S i) rng
  end.

Definition build_workload (sd : Z) (wc : WorkloadConfig) : list Txn :=
  build_txns wc (num_txns wc) 0 (Z.lxor sd 0xD1B54A32D192ED03).

Record DiffOutcome := mkDiff {
  d_seed : Z;
  d_submitted : list Txn;
  d_sut : RunResult;
  d_oracle : RunResult;
  d_verdicts : list Verdict;
  d_all_ok : bool;
  d_progress : bool
}.

Definition run_diff_seed (sd : Z) (sut : list Txn -> ExecConfig -> RunResult) (wc : WorkloadConfig) : DiffOutcome :=
  let submitted := build_workload sd wc in
  let o := O.submit_batch submitted (exec wc) in
  let s := sut submitted (exec wc) in
  let vs := run_all_checkers s o submitted (exec wc) sd in
  mkDiff sd submitted s o vs (forallb v_ok vs) (existsb is_committed (commits s)).

(** ** Transactions driven by their strict reads *)

(** The body depends only on the keys with a strict read. *)
Definition strict_driven (t : Txn) : Prop :=
  forall rv rv', (forall k, X.has_strict t k = true -> assoc k rv = assoc k rv') -> run_body t rv = run_body t rv'.

(** A footprint that fails stays failed while no strict key loses its value. *)
Definition sticky (t : Txn) : Prop :=
  forall rv rv',
    (forall k v, X.has_strict t k = true -> assoc k rv = Some (Some v) -> exists v', assoc k rv' = Some (Some v')) ->
    footprint_ok t (run_body t rv) = false -> footprint_ok t (run_body t rv') = false.

(** The view of a store at the strict keys. *)
Definition strict_view (t : Txn) (st : list (Key * Value)) (rv : ReadView) : Prop :=
  forall k, X.has_strict t k = true -> assoc k rv = Some (assoc k st).

(** The footprint failed on a view whose strict keys still have values. *)
Definition doomed (st : list (Key * Value)) (t : Txn) : Prop :=
  exists rv, footprint_ok t (run_body t rv) = false /\
    forall k v, X.has_strict t k = true -> assoc k rv = Some (Some v) -> exists v', assoc k st = Some v'.

Definition defined_in (st st' : list (Key * Value)) : Prop :=
  forall k v, assoc k st = Some v -> exists v', assoc k st' = Some v'.

Lemma defined_apply st ws : key_sorted st -> defined_in st (O.apply_writes st ws).
Proof.
  revert st; induction ws as [|[k0 v0] ws IH]; intros st Hst k v Hk; [by exists v|].
  cbn [O.apply_writes fold_left fst snd]. fold (O.apply_writes (map_set k0 v0 st) ws).
  destruct (key_eqb k0 k) eqn:E.
  - apply (IH _ (map_set_sorted _ _ _ Hst) k v0). by rewrite assoc_map_set, E.
  - apply (IH _ (map_set_sorted _ _ _ Hst) k v). by rewrite assoc_map_set, E.
Qed.

Lemma doomed_mono st st' t : defined_in st st' -> doomed st t -> doomed st' t.
Proof.
  intros Hdef (rv & Hf & Hk). exists rv. split; [done|]. intros k v Hs Ha.
  destruct (Hk k v Hs Ha) as [v' Hv']. by eapply Hdef.
Qed.

Lemma doomed_fails st t rv : sticky t -> doomed st t -> strict_view t st rv -> footprint_ok t (run_body t rv) = false.
Proof.
  intros Hst (rv0 & Hf & Hk) Hv. apply (Hst rv0); [|done]. intros k v Hs Ha.
  destruct (Hk k v Hs Ha) as [v' Hv']. exists v'. by rewrite (Hv k Hs), Hv'.
Qed.

Lemma failed_doomed st t rv : strict_view t st rv -> footprint_ok t (run_body t rv) = false -> doomed st t.
Proof.
  intros Hv Hf. exists rv. split; [done|]. intros k v Hs Ha. rewrite (Hv k Hs) in Ha. injection Ha as ->. eauto.
Qed.

(** ** The oracle's view *)

Lemma serial_serve_view st n rs : forall reads served reads' served',
  O.serial_serve st n rs reads served = (reads', served') -> key_sorted reads ->
  forall k, (assoc k reads = Some (assoc k st) \/ exists r, r ∈ rs /\ r_key r = k) ->
  assoc k reads' = Some (assoc k st).
Proof.
  induction rs as [|r rs IH]; intros reads served reads' served' Hrun Hs k Hor; cbn [O.serial_serve] in Hrun.
  { injection Hrun as <- <-. destruct Hor as [|(r & Hn%not_elem_of_nil & _)]; done. }
  apply (IH _ _ _ _ Hrun); [by apply map_set_sorted|]. rewrite assoc_map_set by done.
  destruct (key_eqb_spec (r_key r) k) as [->|Hn]; [by left|].
  destruct Hor as [Ha|(x & [->|Hx]%elem_of_cons & Hk)]; [by left|done|right; eauto].
Qed.

Lemma has_strict_read t k :
  X.has_strict t k = true -> exists r, r ∈ declared_reads t /\ r_level r = StrictSerializable /\ r_key r = k.
Proof.
  unfold X.has_strict. rewrite existsb_exists. intros (r & Hr & H).
  apply andb_true_iff in H as [H1%bool_decide_eq_true H2%key_eqb_eq].
  exists r. split; [by apply list_elem_of_In|done].
Qed.

(** ** The executor and the oracle side by side *)

Section harness.
Context {E : Type} `{HE : EngineSpec E} (cfg : ExecConfig) (W N : Z).
Hypothesis Hcfg : 0 <= max_retry cfg < 2 ^ 64 /\ 0 <= replica_lag cfg.
Hypothesis HW : 0 <= W.
Hypothesis HN : N < 2 ^ 64.

(** The records of one transaction: the relaxed reads may differ. *)
Record same_info (o c : CommitInfo) : Prop := {
  si_id : c_txn_id o = c_txn_id c;
  si_status : c_status o = c_status c;
  si_writes : c_writes_committed o = c_writes_committed c;
  si_result : c_result o = c_result c;
  si_strict : forall s, s ∈ c_served_reads c -> s_level s = StrictSerializable ->
    assoc (s_key s) (c_reads_observed o) = Some (s_value s)
}.

Record agree (q : list QueueEntry) (o : O.serial_state) (s : X.state E) : Prop := {
  ag_exec : exists h, exec_inv W N q s h;
  ag_ok : Forall (entry_ok (max_retry cfg)) q;
  ag_txns : forall p, p ∈ q -> strict_driven (p_txn p) /\ sticky (p_txn p);
  ag_store : O.store_ o = store_after (committed_writes (X.out s));
  ag_version : O.version o = X.next_commit_version s /\ O.next_seq_index o = X.next_commit_version s;
  ag_out : Forall2 same_info (O.out o) (X.out s);
  ag_doomed : forall p, p ∈ q -> p_retries p <> 0 -> doomed (O.store_ o) (p_txn p);
  ag_fresh : Forall (fun c => is_committed c = true -> c_retries c = 0) (X.out s)
}.

(** What the two executors see of the front transaction. *)
Lemma views q s h t st reads served oreads oserved :
  exec_inv W N q s h -> st = store_after (committed_writes (X.out s)) ->
  (forall r, r ∈ declared_reads t -> 0 <= r_snapshot_version r) ->
  X.serve cfg t s (X.next_commit_version s) None (declared_reads t) [] [] = (reads, served) ->
  O.serial_serve st (X.next_commit_version s) (declared_reads t) [] [] = (oreads, oserved) ->
  strict_view t st reads /\ strict_view t st oreads /\
  forall x, x ∈ served -> s_level x = StrictSerializable -> assoc (s_key x) oreads = Some (s_value x).
Proof.
  intros Hs -> Hv HX HO. split; [|split].
  - intros k Hk. eapply serve_view; [exact Hs|done|constructor|exact HX|done|].
    right. destruct (has_strict_read t k Hk) as (r & Hr & H1 & H2). exists r. by rewrite list_elem_of_In in Hr.
  - intros k Hk. eapply serial_serve_view; [exact HO|constructor|].
    right. destruct (has_strict_read t k Hk) as (r & Hr & _ & H2). eauto.
  - intros x Hx Hl.
    assert (Hvr : forall r, In r (declared_reads t) -> 0 <= r_snapshot_version r) by (intros r Hr; apply Hv, list_elem_of_In, Hr).
    destruct (serve_post_ok cfg W N Hcfg _ _ _ _ _ None _ _ _ _ Hs Hvr I HX) as [Hok _].
    destruct (Hok x) as [[]|Hso]; [by apply list_elem_of_In|].
    assert (Hval := so_value _ _ _ _ Hso). rewrite (so_strict _ _ _ _ Hso Hl), (x_version _ _ _ _ _ Hs) in Hval.
    unfold Zlen in Hval. rewrite Nat2Z.id, take_ge in Hval by lia. rewrite Hval.
    eapply serial_serve_view; [exact HO|constructor|].
    right. destruct (serve_origin cfg t s _ _ _ _ _ _ _ HX x Hx) as [Hn%not_elem_of_nil|(r & Hr & Hk & _)]; [done|eauto].
Qed.
Lemma agree_queue p q r o s :
  agree (p :: q) o s -> p_txn r = p_txn p -> entry_ok (max_retry cfg) r -> doomed (O.store_ o) (p_txn p) ->
  agree (q ++ [r]) o s.
Proof.
  intros [[h Hs] Hok Htx Hst Hv Hout Hd Hf] Hr Hre Hdoom.
  assert (Hin : forall x, x ∈ q ++ [r] -> exists y, y ∈ p :: q /\ p_txn x = p_txn y /\ (x = y \/ x = r)).
  { intros x Hx. apply elem_of_app in Hx as [Hx|Hx%list_elem_of_singleton]; [exists x|subst; exists p];
      (split; [by constructor|auto]). }
  split; try done.
  - exists h. apply (exec_inv_queue W N (p :: q)); [unfold Zlen; rewrite length_app; cbn; lia| |done].
    intros x Hx%list_elem_of_In. destruct (Hin x Hx) as (y & Hy%list_elem_of_In & -> & _). by apply (x_txns _ _ _ _ _ Hs).
  - apply Forall_app. split; [by apply Forall_inv_tail in Hok|]. by apply Forall_singleton.
  - intros x Hx. destruct (Hin x Hx) as (y & Hy & -> & _). by apply Htx.
  - intros x Hx Hx0. destruct (Hin x Hx) as (y & Hy & _ & [->| ->]); [by apply Hd|by rewrite Hr].
Qed.

Lemma agree_record p q o s o' s' co c :
  agree (p :: q) o s -> (exists h, exec_inv W N q s' h) ->
  O.store_ o' = store_after (committed_writes (X.out s')) -> defined_in (O.store_ o) (O.store_ o') ->
  O.version o' = X.next_commit_version s' /\ O.next_seq_index o' = X.next_commit_version s' ->
  O.out o' = O.out o ++ [co] -> X.out s' = X.out s ++ [c] -> same_info co c ->
  (is_committed c = true -> c_retries c = 0) -> agree q o' s'.
Proof.
  intros [_ Hok Htx _ _ Hout Hd Hf] Hex Hst Hdef Hv Ho Hs' Hsame Hfresh. split; try done.
  - by apply Forall_inv_tail in Hok.
  - intros x Hx. apply Htx. by right.
  - rewrite Ho, Hs'. apply Forall2_app; [done|]. by apply Forall2_cons.
  - intros x Hx Hx0. eapply doomed_mono; [exact Hdef|]. apply Hd; [by right|done].
  - rewrite Hs'. apply Forall_app. split; [done|]. by apply Forall_singleton.
Qed.

Lemma agree_step p q o s :
  agree (p :: q) o s ->
  (O.serial_step cfg p o).2 = (X.step cfg p s).2 /\
  agree (q ++ option_list (O.serial_step cfg p o).2) (O.serial_step cfg p o).1 (X.step cfg p s).1.
Proof.
  intros Hag. pose proof Hag as [[h Hs] Hok Htx Hst [Hv1 Hv2] Hout Hd Hf].
  pose proof (Forall_inv Hok) as Hp. unfold entry_ok in Hp.
  destruct (Htx p (list_elem_of_here _ _)) as [Hdriven Hsticky].
  pose proof (x_txns _ _ _ _ _ Hs p (or_introl eq_refl)) as [Hww Hrv].
  unfold O.serial_step, X.step. rewrite Hv1, Hv2.
  destruct (O.serial_serve _ _ _ _ _) as [oreads oserved] eqn:EO.
  destruct (X.serve _ _ _ _ _ _ _ _) as [reads served] eqn:EX.
  destruct (views _ s h (p_txn p) _ reads served oreads oserved Hs Hst) as (HvX & HvO & Hstrict); [|exact EX|exact EO|].
  { intros r Hr. apply Hrv. by apply list_elem_of_In. }
  assert (Hbody : run_body (p_txn p) oreads = run_body (p_txn p) reads).
  { apply Hdriven. intros k Hk. by rewrite (HvX k Hk), (HvO k Hk). }
  rewrite Hbody. set (oc := run_body (p_txn p) reads) in *.
  destruct (footprint_ok (p_txn p) oc) eqn:Ef; cbn [negb].
  - cbn [fst snd]. split; [done|]. unfold option_list. cbn [option_rect]. rewrite app_nil_r.
    set (v := u64 (X.next_commit_version s + 1)). set (c := commit_info p v v reads oc served).
    destruct (exec_inv_commit W N HW HN p q s h c (declared_reads (p_txn p)) eq_refl (Hww reads) Hs) as [Hv Hx].
    eapply (agree_record p q o s _ _ (commit_info p v v oreads oc oserved) c); [exact Hag|eexists; exact Hx| | |done|done|done| |].
    + cbn [O.store_ X.out]. rewrite committed_writes_snoc, Hst. change (is_committed c) with true. cbn iota.
      by rewrite store_after_snoc.
    + cbn [O.store_]. apply defined_apply. rewrite Hst. apply store_after_sorted.
    + by split.
    + intros _. destruct (Z.eq_dec (p_retries p) 0) as [H0|H0]; [done|].
      pose proof (doomed_fails _ _ reads Hsticky (Hd p (list_elem_of_here _ _) H0) HvX) as Hbad.
      unfold oc in Ef. by rewrite Hbad in Ef.
  - destruct (p_retries p <? max_retry cfg) eqn:Er; cbn [fst snd]; (split; [done|]); unfold option_list; cbn [option_rect].
    + apply (agree_queue p); [done|done| |by apply (failed_doomed _ _ reads)].
      unfold entry_ok. cbn. rewrite u64_id; lia.
    + rewrite app_nil_r. eapply (agree_record p q o s); [exact Hag| | | |done|done|done| |done].
      * exists h. by apply (exec_inv_abort W N HW p).
      * cbn [O.store_ X.out]. by rewrite committed_writes_snoc, app_nil_r.
      * intros k x Hk. by exists x.
      * by split.
Qed.

Lemma batch_agree e txns :
  repr e [] -> (forall t, In t txns -> txn_ok W t) -> W * Zlen txns <= capacity -> Zlen txns <= N ->
  (forall t, t ∈ txns -> strict_driven t /\ sticky t) ->
  Forall2 same_info (commits (O.submit_batch txns cfg)) (commits (X.run_batch e txns cfg)) /\
  Forall (fun c => is_committed c = true -> c_retries c = 0) (commits (X.run_batch e txns cfg)).
Proof.
  intros He Ht Hc Hn Htx. unfold X.run_batch, O.submit_batch. cbn [commits].
  destruct (run_queue_sim (O.serial_step cfg) (X.step cfg) agree agree_step (batch_fuel cfg txns)
              (initial_queue txns) (O.mkSerial [] kNoSeq 0 []) (X.mkState e [] [kNoSeq] 0 []))
    as [q' [_ _ _ _ _ H1 _ H2]]; [|done].
  split; try done.
  - exists []. by apply start_inv.
  - apply initial_ok; lia.
  - intros p Hp. unfold initial_queue in Hp. apply list_elem_of_fmap in Hp as (t & -> & Hin). by apply Htx.
  - intros p Hp Hp0. unfold initial_queue in Hp. apply list_elem_of_fmap in Hp as (t & -> & Hin). done.
Qed.
End harness.

(** The differential checker accepts records that agree. *)
Lemma passes_differential sut oracle :
  Forall2 same_info (commits oracle) (commits sut) -> NoDup (c_txn_id <$> commits sut) ->
  v_ok (check_differential sut oracle) = true.
Proof.
  intros Hall Hnd. unfold check_differential, v_ok, verdict. cbn [v_offence].
  rewrite first_offence_none; [done|]. intros c Hc. rewrite infos_by_id_fold.
  assert (Hids : c_txn_id <$> commits oracle = c_txn_id <$> commits sut).
  { clear -Hall. induction Hall as [|o c os cs H]; cbn; [done|]. by rewrite IHHall, (si_id _ _ H). }
  apply list_elem_of_lookup in Hc as [i Hi].
  destruct (Forall2_lookup_r _ _ _ _ _ Hall Hi) as (o & Ho & [H1 H2 H3 H4 H5]).
  rewrite <- H1, (fold_ids_find c_txn_id (fun c => c) _ _ o); [|by rewrite Hids|by eapply list_elem_of_lookup_2].
  rewrite H2, H3, H4, key_eqb_refl, !bool_decide_true by done. cbn [negb].
  destruct (is_committed c); cbn [negb]; [|done]. apply first_offence_none. intros s Hs.
  case_bool_decide as Hl; [|done]. rewrite (H5 s Hs Hl). cbn [default]. by rewrite bool_decide_true.
Qed.

(** ** The workload's transactions *)

Definition from_workload (wc : WorkloadConfig) (t : Txn) : Prop :=
  exists id k trig ex obs, t = workload_txn id k trig ex obs /\
    forall r, obs = Some r -> 0 <= r_snapshot_version r /\ r_level r <> StrictSerializable /\
      (r_level r = BoundedStaleness -> r_max_lag r = replica_lag (exec wc)).

Lemma build_txn_from wc i rng : from_workload wc (build_txn wc i rng).1 /\ t_id (build_txn wc i rng).1 = Z.of_nat i + 1.
Proof.
  unfold build_txn. destruct (below (num_keys wc) rng) as [a r1]. destruct (below (num_keys wc) r1) as [b r2].
  destruct (if key_eqb _ _ then _ else _) as [ex r3]. destruct (below 8 r3) as [l r4].
  destruct (below (num_keys wc) r4) as [o r5]. cbn [fst]. split; [|done].
  eexists _, _, _, _, _. split; [reflexivity|]. intros r Hr.
  repeat (case_match; simplify_eq/=; try done).
Qed.

Lemma build_txns_spec wc n : forall i rng,
  (forall t, t ∈ build_txns wc n i rng -> from_workload wc t) /\
  t_id <$> build_txns wc n i rng = (fun j => Z.of_nat j + 1) <$> List.seq i n.
Proof.
  induction n as [|n IH]; intros i rng; cbn [build_txns]; [split; [by intros t Ht%not_elem_of_nil|done]|].
  pose proof (build_txn_from wc i rng) as [Hf Hid]. destruct (build_txn wc i rng) as [t rng'].
  destruct (IH (S i) rng') as [IH1 IH2]. cbn [fst] in *. split.
  - intros x [->|Hx]%elem_of_cons; auto.
  - cbn [fmap list_fmap List.seq]. by rewrite Hid, <- IH2.
Qed.

Lemma workload_strict id k trig ex obs : X.has_strict (workload_txn id k trig ex obs) k = true.
Proof. unfold X.has_strict. cbn. by rewrite key_eqb_refl. Qed.

Lemma workload_driven wc t : from_workload wc t -> strict_driven t /\ sticky t.
Proof.
  intros (id & k & trig & ex & obs & -> & _). pose proof (workload_strict id k trig ex obs) as Hk. split.
  - intros rv rv' Heq. unfold run_body. cbn [body workload_txn]. unfold workload_body. by rewrite (Heq k Hk).
  - intros rv rv' Hdef. unfold footprint_ok, run_body. cbn [body workload_txn workload_body oc_extra_reads].
    destruct (assoc k rv) as [[v|]|] eqn:Ev; cbn [default]; [|done..].
    destruct (Hdef k v Hk Ev) as [v' ->]. done.
Qed.

Lemma workload_ok wc t :
  from_workload wc t -> txn_ok 1 t /\ (forall rv, key_sorted (oc_writes (run_body t rv))) /\
  forall r, r ∈ declared_reads t -> r_level r = BoundedStaleness -> replica_lag (exec wc) <= r_max_lag r.
Proof.
  intros (id & k & trig & ex & obs & -> & Hobs). split; [|split].
  - split; [done|]. cbn [declared_reads workload_txn]. intros r [<-|Hr]; [done|].
    destruct obs as [x|]; [|done]. destruct Hr as [<-|[]]. by apply (Hobs x).
  - intros rv. cbn. repeat constructor.
  - cbn [declared_reads workload_txn]. intros r [->|Hr]%elem_of_cons Hl; [done|].
    destruct obs as [x|]; [|by apply not_elem_of_nil in Hr]. apply list_elem_of_singleton in Hr as ->.
    destruct (Hobs x eq_refl) as (_ & _ & H). rewrite H by done. lia.
Qed.

(** The first transaction of a workload finds an empty store and commits. *)
Lemma run_queue_keeps {S} (step : QueueEntry -> S -> S * option QueueEntry) (P : S -> Prop) fuel q s :
  (forall p s, P s -> P (step p s).1) -> P s -> P (run_queue step fuel q s).
Proof.
  intros Hstep. revert q s; induction fuel as [|fuel IH]; intros [|p q] s Hs; cbn [run_queue]; try done.
  specialize (Hstep p s Hs). destruct (step p s) as [s' a]. by apply IH.
Qed.

Lemma step_keeps_commits {E} `{EngineOps E} cfg p (s : X.state E) :
  existsb is_committed (X.out s) = true -> existsb is_committed (X.out (X.step cfg p s).1) = true.
Proof.
  intros Hs. unfold X.step. destruct (X.serve _ _ _ _ _ _ _ _) as [reads served].
  destruct (negb _); [destruct (_ <? _)|]; cbn [fst X.out]; rewrite ?existsb_app, ?Hs; done.
Qed.

Lemma workload_progress {E} `{EngineSpec E} (e : E) sd wc :
  repr e [] -> 0 <= capacity -> num_txns wc <> O ->
  existsb is_committed (commits (X.run_batch e (build_workload sd wc) (exec wc))) = true.
Proof.
  intros He Hcap Hn. unfold build_workload. destruct (num_txns wc) as [|n]; [done|]. cbn [build_txns].
  pose proof (build_txn_from wc 0 (Z.lxor sd 0xD1B54A32D192ED03)) as [(id & k & trig & ex & obs & Ht & _) _].
  destruct (build_txn wc 0 (Z.lxor sd 0xD1B54A32D192ED03)) as [t rng]. cbn [fst] in Ht. subst t.
  set (t := workload_txn id k trig ex obs).
  unfold X.run_batch, batch_fuel. cbn [commits initial_queue map length Nat.mul Nat.add run_queue].
  destruct (X.step (exec wc) (mkPending t 0) (X.mkState e [] [kNoSeq] 0 [])) as [s a] eqn:Est.
  apply (run_queue_keeps (X.step (exec wc)) (fun s => existsb is_committed (X.out s) = true)).
  { intros p s'. apply step_keeps_commits. }
  unfold X.step in Est. cbn [p_txn X.next_commit_version X.out] in Est.
  destruct (X.serve _ _ _ _ _ _ _ _) as [reads served] eqn:Esv.
  assert (Hv : assoc k reads = Some None).
  { apply (serve_view (exec wc) 0 0 [] _ [] t _ _ _ _ _ _ ltac:(apply (start_inv 0 0 e []); [done|intros ? []|cbn; lia|done]) (fun _ H => H) ltac:(constructor) Esv k (workload_strict _ _ _ _ _)).
    right. exists (read_strict k). split; [by left|done]. }
  assert (Hf : footprint_ok t (run_body t reads) = true).
  { unfold t, footprint_ok, run_body. cbn [body workload_txn workload_body oc_extra_reads]. by rewrite Hv. }
  rewrite Hf in Est. cbn [negb] in Est. by injection Est as <- <-.
Qed.

(** C30: The harness is quiet on the real executor: whatever the seed, the size of the key
    space and the number of transactions (within the engine's capacity), the workload run
    by the deterministic executor over any storage engine is accepted by every checker,
    the comparison with the serial oracle included, and it makes progress. *)
Theorem harness_clean {E} `{EngineSpec E} (e : E) sd wc :
  repr e [] ->
  0 <= max_retry (exec wc) < 2 ^ 64 -> 0 <= replica_lag (exec wc) ->
  Z.of_nat (num_txns wc) <= capacity -> Z.of_nat (num_txns wc) < 2 ^ 64 - 1 ->
  let d := run_diff_seed sd (fun txns cfg => X.run_batch e txns cfg) wc in
  d_all_ok d = true /\ (num_txns wc <> O -> d_progress d = true).
Proof.
  intros He Hr Hlag Hcap Hn d. split; [|intros Hne; apply workload_progress; [done|lia|done]].
  set (txns := build_workload sd wc).
  destruct (build_txns_spec wc (num_txns wc) 0 (Z.lxor sd 0xD1B54A32D192ED03)) as [Hfrom Hids].
  fold (build_workload sd wc) in Hfrom, Hids. fold txns in Hfrom, Hids.
  assert (Hlen : Zlen txns = Z.of_nat (num_txns wc)).
  { unfold Zlen. rewrite <- (length_fmap t_id), Hids, length_fmap, length_seq. done. }
  assert (Hnd : NoDup (t_id <$> txns)).
  { rewrite Hids. apply NoDup_fmap_2; [intros ? ?; lia|]. apply NoDup_ListNoDup, seq_NoDup. }
  assert (Hok : batch_ok capacity 1 txns (exec wc)).
  { split; [done|lia| |lia|lia]. intros t Ht%list_elem_of_In%Hfrom. by eapply workload_ok. }
  destruct (executor_judged 1 txns (exec wc) e He Hok ltac:(lia)) as [J Hsub].
  destruct (batch_agree (exec wc) 1 (Zlen txns) (bk_cfg _ _ _ _ Hok) ltac:(lia) ltac:(lia) e txns He
    (bk_txns _ _ _ _ Hok) (bk_cap _ _ _ _ Hok) ltac:(lia)) as [Hsame Hfresh].
  { intros t Ht%Hfrom. by eapply workload_driven. }
  assert (Hmaps : forall t rv, t ∈ txns -> key_sorted (oc_writes (run_body t rv))).
  { intros t rv Ht%Hfrom. by eapply workload_ok. }
  unfold d, run_diff_seed. cbn [d_all_ok]. fold txns. apply forallb_forall.
  unfold run_all_checkers. intros v Hv. apply in_map_iff in Hv as (v0 & <- & Hv).
  change (v_ok v0 = true). destruct Hv as [<-|[<-|[<-|[<-|[<-|[<-|[<-|[<-|[]]]]]]]]].
  - by apply (passes_serialized (exec wc)).
  - by apply (passes_exactly_once (exec wc)).
  - by apply passes_ollp.
  - by apply (passes_strict (exec wc) txns).
  - by apply (passes_snapshot (exec wc) txns).
  - apply (passes_bounded (exec wc) txns); [done..|]. intros t r Ht%Hfrom. by apply (workload_ok wc t Ht).
  - by apply (passes_ryw (exec wc) txns).
  - apply passes_differential; [done|]. by rewrite (j_ids _ _ _ J).
Qed.

(** ** Runs *)

Lemma harness_clean_witness :
  d_all_ok (run_diff_seed 42 TxnCorrect.submit_batch (mkWorkload 5 2 (mkExecConfig 2 1))) = true /\
  map c_status (commits (d_sut (run_diff_seed 42 TxnCorrect.submit_batch (mkWorkload 5 2 (mkExecConfig 2 1))))) =
  [Committed; Committed; Committed; Aborted; Aborted].
Proof.
  split; cycle 1; [vm_compute; reflexivity|].
  refine (proj1 (harness_clean (H0 := @wal_spec WalEngine.default_factory)
    (WalEngine.wal_only, WalEngine.mkIo empty_disk empty_disk ∅ []) 42 (mkWorkload 5 2 (mkExecConfig 2 1)) _ _ _ _ _)).
  - apply (fresh_inv _ wal_only_fresh).
  - cbn. lia.
  - cbn. lia.
  - vm_compute. discriminate.
  - vm_compute. reflexivity.
Defined.
