(* ===== verification/Conformance.v ===== *)
(** Conformance: the observations of a running cluster (consensus/Observation.hpp), the
    five conformance checkers that judge them (consensus/ConformanceCheckers.hpp), the
    snapshots and the final log of the driver (consensus/ClusterDriver.hpp) and the
    comparison of two runs (consensus/CrossCheck.hpp).  A cluster of [RaftCluster] sampled
    at any moments passes all five.

    A violation carries its [evidence] in place of the rendered text.  The introspection
    fields of a snapshot, which no checker reads, are left out.  A vector of entries with
    its vector of flags is a list of options. *)

From Stdlib Require Import ZArith Lia.
From stdpp Require Import base list numbers relations.
From S2P Require Import Prelude Codec Core Disk Consensus RaftProtocol RaftSafety RaftWire RaftNode RaftDurable RaftSim RaftCluster.
#[local] Open Scope Z_scope.

(** ** Observations *)

Record NodeSnapshot := mkSnap {
  ns_id : Z;
  ns_live : bool;
  ns_role : Role;
  ns_term : Z;
  ns_commit : Z;
  ns_log : list LogEntry
}.

Record ClusterSnapshot := mkCluster { cs_vt : Z; cs_step : Z; cs_nodes : list NodeSnapshot }.

Record SubmitObservation := mkSubmit {
  so_op_id : Z;
  so_client : Z;
  so_value : list byte;
  so_invoke : Z;
  so_return : Z;
  so_accepted : bool;
  so_committed : bool;
  so_term : Z;
  so_index : Z
}.

Record ObservedRun := mkRun {
  r_seed : Z;
  r_snapshots : list ClusterSnapshot;
  r_submits : list SubmitObservation;
  r_committed_log : list (option LogEntry)
}.

(** [snapshot] of the driver: a crashed node serves nothing. *)
Definition snapshot_node (live : bool) (id : Z) (n : node) : NodeSnapshot :=
  if live then mkSnap id true (role_ n) (current_term_ n) (commit_index_ n) (log_view n)
  else mkSnap id false Follower 0 0 [].

(** ** Evidence *)

Inductive evidence :=
| TwoLeaders (step a b : Z)
| PrefixMismatch (step a b : Z) (i k : nat)
| CommittedDiverge (step a b : Z) (i : nat)
| CommittedChanged (step n : Z) (i : nat)
| LeaderShortened (node step : Z)
| LeaderOverwrote (node step : Z) (i : nat)
| NotTotalOrder (i : nat)
| BadEnvelope (op : Z)
| PhantomCommit (op : Z)
| CommitValueMismatch (op : Z).

(** Loops that return from within. *)
Fixpoint find_map {A B} (f : A -> option B) (l : list A) : option B :=
  match l with
  | [] => None
  | x :: l' => match f x with Some o => Some o | None => find_map f l' end
  end.

Fixpoint find_pair {A B} (f : A -> A -> option B) (l : list A) : option B :=
  match l with
  | [] => None
  | x :: l' => match find_map (f x) l' with Some o => Some o | None => find_pair f l' end
  end.

(** ** The checkers *)

Definition is_live_leader (n : NodeSnapshot) : bool := ns_live n && bool_decide (ns_role n = Leader).

Definition check_election_safety (run : ObservedRun) : option evidence :=
  find_map (fun s => find_pair (fun a b =>
    if is_live_leader a && is_live_leader b && (ns_term a =? ns_term b)
    then Some (TwoLeaders (cs_step s) (ns_id a) (ns_id b)) else None) (cs_nodes s)) (r_snapshots run).

Definition check_log_matching (run : ObservedRun) : option evidence :=
  find_map (fun s => find_pair (fun a b =>
    let la := ns_log a in
    let lb := ns_log b in
    find_map (fun i =>
      match la !! i, lb !! i with
      | Some x, Some y =>
          if le_term x =? le_term y then
            find_map (fun k => if decide (la !! k = lb !! k) then None
                               else Some (PrefixMismatch (cs_step s) (ns_id a) (ns_id b) i k)) (seq 0 (S i))
          else None
      | _, _ => None
      end) (seq 0 (Nat.min (length la) (length lb)))) (cs_nodes s)) (r_snapshots run).

(** Pointwise: the commonly committed entries of two nodes; an index beyond a log, which
    the code does not test for, is reported. *)
Definition check_committed_pair (step : Z) (a b : NodeSnapshot) : option evidence :=
  find_map (fun i =>
    match ns_log a !! i, ns_log b !! i with
    | Some x, Some y => if decide (x = y) then None else Some (CommittedDiverge step (ns_id a) (ns_id b) i)
    | _, _ => Some (CommittedDiverge step (ns_id a) (ns_id b) i)
    end) (seq 0 (Z.to_nat (if ns_commit a <? ns_commit b then ns_commit a else ns_commit b))).

(** A committed prefix folded into the history: the history, or the index that changed. *)
Fixpoint fold_prefix (c : list (option LogEntry)) (es : list LogEntry) (i : nat) : nat + list (option LogEntry) :=
  match es with
  | [] => inr c
  | e :: es' =>
      match c with
      | Some x :: c' =>
          if decide (x = e) then match fold_prefix c' es' (S i) with inr r => inr (Some x :: r) | inl k => inl k end
          else inl i
      | None :: c' | ([] as c') => match fold_prefix c' es' (S i) with inr r => inr (Some e :: r) | inl k => inl k end
      end
  end.

Definition committed_prefix (n : NodeSnapshot) : list LogEntry := take (Z.to_nat (ns_commit n)) (ns_log n).

Fixpoint fold_nodes (bad : Z -> nat -> evidence) (c : list (option LogEntry)) (ns : list NodeSnapshot)
    : evidence + list (option LogEntry) :=
  match ns with
  | [] => inr c
  | n :: ns' =>
      match fold_prefix c (committed_prefix n) 0 with
      | inl i => inl (bad (ns_id n) i)
      | inr c => fold_nodes bad c ns'
      end
  end.

Fixpoint check_history (c : list (option LogEntry)) (snaps : list ClusterSnapshot) : option evidence :=
  match snaps with
  | [] => None
  | s :: snaps' =>
      match find_pair (check_committed_pair (cs_step s)) (cs_nodes s) with
      | Some o => Some o
      | None =>
          match fold_nodes (CommittedChanged (cs_step s)) c (cs_nodes s) with
          | inl o => Some o
          | inr c => check_history c snaps'
          end
      end
  end.

Definition check_state_machine_safety (run : ObservedRun) : option evidence := check_history [] (r_snapshots run).

Definition find_node (s : ClusterSnapshot) (id : Z) : option NodeSnapshot :=
  List.find (fun n => ns_id n =? id) (cs_nodes s).

Definition check_append_only (prev cur : ClusterSnapshot) : option evidence :=
  find_map (fun pn =>
    match find_node cur (ns_id pn) with
    | None => None
    | Some cn =>
        if negb (bool_decide (ns_role pn = Leader)) || negb (bool_decide (ns_role cn = Leader)) then None
        else if negb (ns_term pn =? ns_term cn) then None
        else if Nat.ltb (length (ns_log cn)) (length (ns_log pn)) then Some (LeaderShortened (ns_id pn) (cs_step cur))
        else find_map (fun i => if decide (ns_log pn !! i = ns_log cn !! i) then None
                                else Some (LeaderOverwrote (ns_id pn) (cs_step cur) i)) (seq 0 (length (ns_log pn)))
    end) (cs_nodes prev).

Fixpoint check_consecutive (snaps : list ClusterSnapshot) : option evidence :=
  match snaps with
  | a :: ((b :: _) as rest) => match check_append_only a b with Some o => Some o | None => check_consecutive rest end
  | _ => None
  end.

Definition check_leader_append_only (run : ObservedRun) : option evidence := check_consecutive (r_snapshots run).

Fixpoint total_order (c : list (option LogEntry)) (snaps : list ClusterSnapshot) : evidence + list (option LogEntry) :=
  match snaps with
  | [] => inr c
  | s :: snaps' =>
      match fold_nodes (fun _ => NotTotalOrder) c (cs_nodes s) with
      | inl o => inl o
      | inr c => total_order c snaps'
      end
  end.

Definition check_submit (order : list (option LogEntry)) (sub : SubmitObservation) : option evidence :=
  if negb (so_committed sub) then None
  else if so_return sub <? so_invoke sub then Some (BadEnvelope (so_op_id sub))
  else if so_index sub =? 0 then Some (PhantomCommit (so_op_id sub))
  else match order !! Z.to_nat (so_index sub - 1) with
       | Some (Some e) => if key_eqb (le_value e) (so_value sub) then None else Some (CommitValueMismatch (so_op_id sub))
       | _ => Some (PhantomCommit (so_op_id sub))
       end.

Definition check_linearizability (run : ObservedRun) : option evidence :=
  match total_order [] (r_snapshots run) with
  | inl o => Some o
  | inr order => find_map (check_submit order) (r_submits run)
  end.

Definition run_all_conformance (run : ObservedRun) : list (option evidence) :=
  [ check_election_safety run; check_log_matching run; check_state_machine_safety run;
    check_leader_append_only run; check_linearizability run ].

(** ** The final log and the comparison of two runs *)

(** The first committed entry seen at each index. *)
Fixpoint keep_prefix (c : list (option LogEntry)) (es : list LogEntry) : list (option LogEntry) :=
  match es, c with
  | [], _ => c
  | e :: es', [] => Some e :: keep_prefix [] es'
  | e :: es', None :: c' => Some e :: keep_prefix c' es'
  | e :: es', Some x :: c' => Some x :: keep_prefix c' es'
  end.

Definition finalize_committed_log (snaps : list ClusterSnapshot) : list (option LogEntry) :=
  fold_left (fun c n => keep_prefix c (committed_prefix n)) (snaps ≫= cs_nodes) [].

(** [None]: the logs agree; otherwise the first index where they differ. *)
Definition cross_check_committed_logs (a b : ObservedRun) : option nat :=
  let la := r_committed_log a in
  let lb := r_committed_log b in
  find_map (fun i => if decide (la !! i = lb !! i) then None else Some i) (seq 0 (Nat.min (length la) (length lb))).

(** ** Loops *)

Lemma find_map_none {A B} (f : A -> option B) l : (forall x, x ∈ l -> f x = None) -> find_map f l = None.
Proof.
  induction l as [|x l IH]; intros H; cbn; [done|]. rewrite H by left. apply IH. intros y Hy. apply H. by right.
Qed.

Lemma find_pair_none {A B C} (f : B -> B -> option C) (h : A -> B) l :
  NoDup l -> (forall x y, x ∈ l -> y ∈ l -> x <> y -> f (h x) (h y) = None) -> find_pair f (h <$> l) = None.
Proof.
  induction l as [|x l IH]; intros Hnd H; cbn [fmap list_fmap find_pair]; [done|].
  pose proof (NoDup_cons_1_1 _ _ Hnd) as Hx. apply NoDup_cons_1_2 in Hnd. rewrite find_map_none.
  - apply IH; [done|]. intros a b Ha Hb. apply H; by right.
  - intros b (y & -> & Hy)%list_elem_of_fmap. apply H; [by left|by right|]. by intros ->.
Qed.

(** ** Committed prefixes that agree *)

Definition comparable (p q : list LogEntry) : Prop := p `prefix_of` q \/ q `prefix_of` p.

Definition longer (p q : list LogEntry) : list LogEntry := if Nat.leb (length q) (length p) then p else q.

Lemma fold_prefix_same q i : fold_prefix (Some <$> q) q i = inr (Some <$> q).
Proof. revert i; induction q as [|e q IH]; intros i; cbn; [done|]. rewrite decide_True by done. by rewrite IH. Qed.

Lemma fold_prefix_ok p : forall q i, comparable p q -> fold_prefix (Some <$> p) q i = inr (Some <$> longer p q).
Proof.
  induction p as [|x p IH]; intros q i Hc.
  - assert (longer [] q = q) as -> by (unfold longer; by destruct q). clear Hc.
    revert i; induction q as [|e q IHq]; intros i; cbn; [done|]. cbn in IHq. by rewrite IHq.
  - destruct q as [|e q]; [done|]. cbn [fmap list_fmap fold_prefix].
    assert (x = e /\ comparable p q) as [-> Hc'].
    { destruct Hc as [Hp|Hp]; pose proof (prefix_cons_inv_1 _ _ _ _ Hp); apply prefix_cons_inv_2 in Hp; (split; [done|]);
        [by left|by right]. }
    rewrite decide_True by done. rewrite IH by done. unfold longer. cbn [length Nat.leb].
    by destruct (Nat.leb (length q) (length p)).
Qed.

Lemma keep_prefix_ok p : forall q, comparable p q -> keep_prefix (Some <$> p) q = Some <$> longer p q.
Proof.
  intros q Hc. pose proof (fold_prefix_ok p q 0 Hc) as Hf. revert Hf. generalize O. clear Hc.
  generalize (Some <$> longer p q). revert q. induction p as [|x p IH]; intros q r i.
  - cbn. revert r i; induction q as [|e q IHq]; intros r i Hf; cbn in *; [congruence|].
    destruct (fold_prefix [] q (S i)) as [k|r'] eqn:E; [done|]. injection Hf as <-. f_equal. by eapply IHq.
  - destruct q as [|e q]; cbn; intros Hf; [congruence|]. destruct (decide (x = e)); [|done].
    destruct (fold_prefix (Some <$> p) q (S i)) as [k|r'] eqn:E; [done|]. injection Hf as <-. f_equal. by eapply IH.
Qed.

(** A family of prefixes any two of which agree. *)
Definition chain (P : list LogEntry -> Prop) : Prop := P [] /\ forall p q, P p -> P q -> comparable p q.

Lemma longer_in (P : list LogEntry -> Prop) p q : P p -> P q -> P (longer p q).
Proof. unfold longer. by destruct (Nat.leb _ _). Qed.

Lemma longer_prefix p q : comparable p q -> p `prefix_of` longer p q /\ q `prefix_of` longer p q.
Proof.
  unfold longer. intros [H|H]; pose proof (prefix_length _ _ H); destruct (Nat.leb_spec (length q) (length p)); split; try done.
  - assert (p = q) as -> by (by apply prefix_length_eq). done.
  - lia || (assert (q = p) as -> by (apply prefix_length_eq; [done|lia]); done).
Qed.

Lemma fold_nodes_ok P bad ns p :
  chain P -> P p -> Forall (fun n => P (committed_prefix n)) ns ->
  exists q, fold_nodes bad (Some <$> p) ns = inr (Some <$> q) /\ P q /\ p `prefix_of` q /\
    Forall (fun n => committed_prefix n `prefix_of` q) ns.
Proof.
  intros [_ Hc] Hp Hns. revert p Hp; induction Hns as [|n ns Hn Hns IH]; intros p Hp; cbn [fold_nodes].
  { by exists p. }
  rewrite fold_prefix_ok by auto. destruct (IH (longer p (committed_prefix n))) as (q & -> & Hq & Hpq & Hall).
  { by apply longer_in. }
  destruct (longer_prefix p (committed_prefix n)) as [H1 H2]; [auto|].
  exists q. split; [done|]. split; [done|]. split; [by etrans|]. constructor; [by etrans|done].
Qed.

Lemma total_order_ok P snaps p :
  chain P -> P p -> Forall (fun s => Forall (fun n => P (committed_prefix n)) (cs_nodes s)) snaps ->
  exists q, total_order (Some <$> p) snaps = inr (Some <$> q) /\ P q /\ p `prefix_of` q /\
    forall s n, s ∈ snaps -> n ∈ cs_nodes s -> committed_prefix n `prefix_of` q.
Proof.
  intros Hch Hp Hall. revert p Hp; induction Hall as [|s snaps Hs Hall IH]; intros p Hp; cbn [total_order].
  { exists p. split; [done|]. split; [done|]. split; [done|]. by intros s n Hn%not_elem_of_nil. }
  destruct (fold_nodes_ok P (fun _ => NotTotalOrder) (cs_nodes s) p Hch Hp Hs) as (r & -> & Hr & Hpr & Hns).
  destruct (IH r Hr) as (q & -> & Hq & Hrq & Hrest). exists q. split; [done|]. split; [done|]. split; [by etrans|].
  intros x n [->|Hx]%elem_of_cons Hn; [|by eapply Hrest].
  rewrite Forall_forall in Hns. etrans; [by apply Hns|done].
Qed.

Lemma check_history_ok P snaps p :
  chain P -> P p -> Forall (fun s => Forall (fun n => P (committed_prefix n)) (cs_nodes s)) snaps ->
  (forall s, s ∈ snaps -> find_pair (check_committed_pair (cs_step s)) (cs_nodes s) = None) ->
  check_history (Some <$> p) snaps = None.
Proof.
  intros Hch Hp Hall. revert p Hp; induction Hall as [|s snaps Hs Hall IH]; intros p Hp Hpair; cbn [check_history]; [done|].
  rewrite (Hpair s) by left.
  destruct (fold_nodes_ok P (CommittedChanged (cs_step s)) (cs_nodes s) p Hch Hp Hs) as (r & -> & Hr & _).
  apply IH; [done|]. intros x Hx. apply Hpair. by right.
Qed.

Lemma finalize_ok P snaps :
  chain P -> Forall (fun s => Forall (fun n => P (committed_prefix n)) (cs_nodes s)) snaps ->
  exists q, finalize_committed_log snaps = Some <$> q /\ P q /\
    forall s n, s ∈ snaps -> n ∈ cs_nodes s -> committed_prefix n `prefix_of` q.
Proof.
  intros [H0 Hc] Hall. unfold finalize_committed_log.
  assert (Hns : Forall (fun n => P (committed_prefix n)) (snaps ≫= cs_nodes)).
  { apply Forall_forall. intros n (s & Hn & Hs)%list_elem_of_bind. rewrite Forall_forall in Hall.
    specialize (Hall s Hs). rewrite Forall_forall in Hall. auto. }
  assert (Hgen : forall ns p, P p -> Forall (fun n => P (committed_prefix n)) ns ->
    exists q, fold_left (fun c n => keep_prefix c (committed_prefix n)) ns (Some <$> p) = Some <$> q /\ P q /\
      p `prefix_of` q /\ forall n, n ∈ ns -> committed_prefix n `prefix_of` q).
  { induction ns as [|n ns IH]; intros p Hp Hn; cbn [fold_left].
    - exists p. split; [done|]. split; [done|]. split; [done|]. by intros n Hx%not_elem_of_nil.
    - apply Forall_cons in Hn as [Hn Hns']. rewrite keep_prefix_ok by auto.
      destruct (longer_prefix p (committed_prefix n)) as [L1 L2]; [auto|].
      destruct (IH (longer p (committed_prefix n))) as (q & -> & Hq & Hpq & Hrest); [by apply longer_in|done|].
      exists q. split; [done|]. split; [done|]. split; [by etrans|].
      intros x [->|Hx]%elem_of_cons; [by etrans|auto]. }
  destruct (Hgen _ [] H0 Hns) as (q & Hq & HP & _ & Hpre). exists q. split; [done|]. split; [done|].
  intros s n Hs Hn. apply Hpre, list_elem_of_bind. eauto.
Qed.

(** ** A sampled cluster *)

Section sampled.
Context (cl : list Z) (confs : Z -> NodeConfig).

Record sample := mkSample { sm_world : world; sm_live : Z -> bool; sm_vt : Z }.

(** The cluster moves on between two samples. *)
Fixpoint follows (w : world) (l : list sample) : Prop :=
  match l with
  | [] => True
  | s :: l' => rtc (wstep cl) w (sm_world s) /\ follows (sm_world s) l'
  end.

Definition observe (step : Z) (s : sample) : ClusterSnapshot :=
  mkCluster (sm_vt s) step ((fun i => snapshot_node (sm_live s i) i (machines (sm_world s) i).1) <$> cl).

Fixpoint observe_all (step : Z) (l : list sample) : list ClusterSnapshot :=
  match l with
  | [] => []
  | s :: l' => observe step s :: observe_all (step + 1) l'
  end.

(** The driver reports a submission as committed when, at a snapshot, a live node's commit
    index has reached its index and the entry there has its value. *)
Definition watched (snaps : list ClusterSnapshot) (sub : SubmitObservation) : Prop :=
  so_committed sub = true -> so_invoke sub <= so_return sub /\ 1 <= so_index sub /\
    exists s n e, s ∈ snaps /\ n ∈ cs_nodes s /\ so_index sub <= ns_commit n /\
      ns_log n !! Z.to_nat (so_index sub - 1) = Some e /\ le_value e = so_value sub.

Lemma observe_all_elem l c : forall step,
  c ∈ observe_all step l -> exists k s, s ∈ l /\ c = observe k s.
Proof.
  induction l as [|s l IH]; intros step; cbn; [by intros ?%not_elem_of_nil|].
  intros [->|Hc]%elem_of_cons; [exists step, s; split; [left|done]|].
  destruct (IH _ Hc) as (k & s' & Hs & ->). exists k, s'. split; [by right|done].
Qed.

Context (Hd : deployed cl confs).

(** Protocol states behind the samples, and one that extends them all. *)
Lemma follows_explained l : forall g w,
  explained cl confs g w -> follows w l ->
  exists gl, rtc (step cl) g gl /\
    forall s, s ∈ l -> exists gs, explained cl confs gs (sm_world s) /\ rtc (step cl) gs gl.
Proof.
  induction l as [|s l IH]; intros g w Hg Hf; [exists g; split; [done|by intros s Hs%not_elem_of_nil]|].
  destruct Hf as [Hr Hf]. destruct (steps_explained cl confs Hd _ _ _ Hg Hr) as (g1 & H1 & Hg1).
  destruct (IH _ _ Hg1 Hf) as (gl & H2 & Hall). exists gl. split; [by etrans|].
  intros x [->|Hx]%elem_of_cons; [by exists g1|auto].
Qed.

(** What a node has committed is committed in the protocol. *)
Lemma node_committed g w i :
  explained cl confs g w -> In i cl ->
  com cl g (log_view (machines w i).1) (a_term (nodes g i)) (Z.to_nat (commit_index_ (machines w i).1)) /\
  commit_index_ (machines w i).1 <= Zlen (log_view (machines w i).1).
Proof.
  intros He Hi. pose proof (e_nodes _ _ _ _ He i Hi) as Ri. pose proof (r_abs _ _ _ _ _ Ri) as Ai.
  pose proof (n_commit _ _ _ _ (i_servers _ _ (inv_reachable _ _ (e_reach _ _ _ _ He)) i)) as Hc.
  rewrite Ai in Hc |- *. cbn in Hc. split.
  - eapply com_mono; [| |exact Hc]; [lia|done].
  - pose proof (r_commit _ _ _ _ _ Ri) as Hl. rewrite (llen_view _ (r_snap _ _ _ _ _ Ri)) in Hl. lia.
Qed.

Definition chosen (g : global) (p : list LogEntry) : Prop := exists l t c, com cl g l t c /\ p = take c l.

Lemma chosen_chain g : inv cl g -> chain (chosen g).
Proof.
  intros Hi. split; [exists [], 0, O; split; [split; [done|by left]|done]|].
  assert (Hle : forall l t c l' t' c', com cl g l t c -> com cl g l' t' c' -> (c <= c')%nat -> take c l `prefix_of` take c' l').
  { intros l t c l' t' c' H1 H2 Hc. rewrite (committed_agree cl g l t c l' t' c' Hi H1 H2 Hc).
    rewrite <- (Nat.min_l c c') by done. rewrite <- take_take. apply prefix_take. }
  intros p q (l & t & c & Hc & ->) (l' & t' & c' & Hc' & ->).
  destruct (Nat.le_ge_cases c c'); [left|right]; by eapply Hle.
Qed.

(** The prefixes the snapshots show committed are all chosen in one state. *)
Lemma samples_chosen l :
  follows (initial_world confs) l ->
  exists gl, inv cl gl /\ forall step,
    Forall (fun s => Forall (fun n => chosen gl (committed_prefix n)) (cs_nodes s)) (observe_all step l).
Proof.
  intros Hf. destruct (follows_explained l _ _ (initial_explained cl confs Hd) Hf) as (gl & Hrl & Hall).
  assert (Hgl : inv cl gl) by (apply inv_reachable; exact Hrl).
  exists gl. split; [done|]. intros step. apply Forall_forall. intros c Hc.
  destruct (observe_all_elem _ _ _ Hc) as (k & s & Hs & ->). destruct (Hall s Hs) as (gs & He & Hr).
  apply Forall_forall. intros n (i & -> & Hi)%list_elem_of_fmap. apply list_elem_of_In in Hi.
  unfold snapshot_node, committed_prefix. destruct (sm_live s i); cbn [ns_commit ns_log].
  - destruct (node_committed _ _ _ He Hi) as [Hcom _]. eexists _, _, _. split; [|reflexivity].
    eapply com_ext; [|by apply (reach_ext cl gs gl (e_reach _ _ _ _ He))|exact Hcom].
    apply (i_msgs _ _ (inv_reachable _ _ (e_reach _ _ _ _ He))).
  - rewrite take_nil. apply (chosen_chain gl Hgl).
Qed.

Lemma samples_explained l s :
  follows (initial_world confs) l -> s ∈ l -> exists g, explained cl confs g (sm_world s).
Proof.
  intros Hf Hs. destruct (follows_explained l _ _ (initial_explained cl confs Hd) Hf) as (gl & _ & Hall).
  destruct (Hall s Hs) as (g & Hg & _). by exists g.
Qed.

Lemma pair_agree g w step l1 l2 x y :
  explained cl confs g w -> x ∈ cl -> y ∈ cl ->
  check_committed_pair step (snapshot_node l1 x (machines w x).1) (snapshot_node l2 y (machines w y).1) = None.
Proof.
  intros He Hx%list_elem_of_In Hy%list_elem_of_In. apply find_map_none. intros i Hi.
  apply elem_of_seq in Hi. destruct (node_committed _ _ _ He Hx) as [Cx Lx], (node_committed _ _ _ He Hy) as [Cy Ly].
  unfold snapshot_node in *. destruct l1, l2; cbn [ns_commit ns_log] in *;
    try (repeat case_match; lia).
  set (a := commit_index_ (machines w x).1) in *. set (b := commit_index_ (machines w y).1) in *.
  assert (Hlt : (i < Z.to_nat a)%nat /\ (i < Z.to_nat b)%nat) by (destruct (a <? b) eqn:E; lia).
  assert (Hgi : inv cl g) by (apply inv_reachable, (e_reach _ _ _ _ He)).
  assert (Heq : log_view (machines w x).1 !! i = log_view (machines w y).1 !! i).
  { destruct (Nat.le_ge_cases (Z.to_nat a) (Z.to_nat b)) as [Hab|Hab].
    - apply (lookup_take_eq (Z.to_nat a)); [|lia]. by eapply committed_agree.
    - symmetry. apply (lookup_take_eq (Z.to_nat b)); [|lia]. by eapply committed_agree. }
  destruct (lookup_lt_is_Some_2 (log_view (machines w x).1) i) as [e Ee]; [unfold Zlen in Lx; lia|].
  rewrite <- Heq, Ee. by rewrite decide_True.
Qed.

(** A leader of one term at two moments has only extended its log. *)
Lemma leader_extends g w w' i :
  explained cl confs g w -> rtc (wstep cl) w w' -> In i cl ->
  role_ (machines w i).1 = Leader -> role_ (machines w' i).1 = Leader ->
  current_term_ (machines w i).1 = current_term_ (machines w' i).1 ->
  log_view (machines w i).1 `prefix_of` log_view (machines w' i).1.
Proof.
  intros He Hr Hi Hl Hl' Ht. destruct (steps_explained cl confs Hd _ _ _ He Hr) as (g' & Hg' & He').
  pose proof (r_abs _ _ _ _ _ (e_nodes _ _ _ _ He i Hi)) as A. pose proof (r_abs _ _ _ _ _ (e_nodes _ _ _ _ He' i Hi)) as A'.
  pose proof (i_servers _ _ (inv_reachable _ _ (e_reach _ _ _ _ He)) i) as S.
  pose proof (i_servers _ _ (inv_reachable _ _ (e_reach _ _ _ _ He')) i) as S'.
  rewrite A in S. rewrite A' in S'.
  destruct (n_leader _ _ _ _ S Hl) as [(e & Hel & _) Hlog]. destruct (n_leader _ _ _ _ S' Hl') as [_ Hlog'].
  cbn in Hlog, Hlog', Hel. rewrite Hlog, Hlog', <- Ht.
  apply (x_llog _ _ (reach_ext cl g g' (e_reach _ _ _ _ He) Hg')). by exists e.
Qed.

Lemma conforms_election l step subs clog sd :
  follows (initial_world confs) l -> check_election_safety (mkRun sd (observe_all step l) subs clog) = None.
Proof.
  intros Hf. apply find_map_none. cbn [r_snapshots]. intros c Hc.
  destruct (observe_all_elem _ _ _ Hc) as (k & s & Hs & ->).
  destruct (samples_explained l s Hf Hs) as (g & He). cbn [cs_nodes observe].
  apply find_pair_none; [apply (dp_nodup _ _ Hd)|].
  intros x y Hx%list_elem_of_In Hy%list_elem_of_In Hne. unfold is_live_leader, snapshot_node.
  destruct (sm_live s x), (sm_live s y); cbn [ns_live ns_role ns_term]; rewrite ?andb_false_r; try done.
  destruct (bool_decide (role_ _ = Leader)) eqn:Ex; [|done]. destruct (bool_decide (role_ (machines _ y).1 = Leader)) eqn:Ey; [|done].
  apply bool_decide_eq_true in Ex, Ey. destruct (Z.eqb_spec (current_term_ (machines (sm_world s) x).1) (current_term_ (machines (sm_world s) y).1)) as [Et|]; [|done].
  destruct Hne. pose proof (r_abs _ _ _ _ _ (e_nodes _ _ _ _ He x Hx)) as Ax. pose proof (r_abs _ _ _ _ _ (e_nodes _ _ _ _ He y Hy)) as Ay.
  apply (election_safety cl g); [apply (e_reach _ _ _ _ He)|by rewrite Ax|by rewrite Ay|by rewrite Ax, Ay].
Qed.

Lemma conforms_matching l step subs clog sd :
  follows (initial_world confs) l -> check_log_matching (mkRun sd (observe_all step l) subs clog) = None.
Proof.
  intros Hf. apply find_map_none. cbn [r_snapshots]. intros c Hc.
  destruct (observe_all_elem _ _ _ Hc) as (k & s & Hs & ->).
  destruct (samples_explained l s Hf Hs) as (g & He). cbn [cs_nodes observe].
  apply find_pair_none; [apply (dp_nodup _ _ Hd)|].
  intros x y Hx%list_elem_of_In Hy%list_elem_of_In Hne. apply find_map_none. intros i _.
  unfold snapshot_node. destruct (sm_live s x), (sm_live s y); cbn [ns_log]; rewrite ?lookup_nil; try done;
    try (by destruct (log_view _ !! i)).
  destruct (log_view (machines (sm_world s) x).1 !! i) as [a|] eqn:Ea; [|done].
  destruct (log_view (machines (sm_world s) y).1 !! i) as [b|] eqn:Eb; [|done].
  destruct (Z.eqb_spec (le_term a) (le_term b)) as [Et|]; [|done].
  pose proof (r_abs _ _ _ _ _ (e_nodes _ _ _ _ He x Hx)) as Ax. pose proof (r_abs _ _ _ _ _ (e_nodes _ _ _ _ He y Hy)) as Ay.
  pose proof (log_matching cl g x y i a b (e_reach _ _ _ _ He)) as Hm. rewrite Ax, Ay in Hm.
  specialize (Hm Ea Eb Et). cbn in Hm. apply find_map_none. intros j Hj%elem_of_seq.
  rewrite decide_True; [done|]. apply (lookup_take_eq (S i)); [done|lia].
Qed.

Lemma conforms_append_only l : forall step g w,
  explained cl confs g w -> follows w l -> check_consecutive (observe_all step l) = None.
Proof.
  induction l as [|s l IH]; intros step g w He Hf; [done|]. destruct Hf as [Hr Hf].
  destruct (steps_explained cl confs Hd _ _ _ He Hr) as (g1 & _ & He1).
  destruct l as [|s' l]; [done|].
  change (match check_append_only (observe step s) (observe (step + 1) s') with
          | Some o => Some o | None => check_consecutive (observe_all (step + 1) (s' :: l)) end = None).
  rewrite (IH (step + 1) g1 _ He1 Hf).
  assert (check_append_only (observe step s) (observe (step + 1) s') = None) as ->; [|done].
  apply find_map_none. cbn [cs_nodes observe]. intros n (i & -> & Hi)%list_elem_of_fmap.
  assert (Hid : forall b (m : node), ns_id (snapshot_node b i m) = i) by (by intros []).
  rewrite Hid. destruct (find_node _ i) as [cn|] eqn:Ef; [|done].
  unfold find_node in Ef. apply find_some in Ef as [Hcn Heq]. apply list_elem_of_In in Hcn.
  cbn [cs_nodes observe] in Hcn. apply list_elem_of_fmap in Hcn as (j & -> & Hj).
  assert (j = i) as -> by (unfold snapshot_node in Heq; destruct (sm_live s' j); cbn in Heq; lia).
  unfold snapshot_node. destruct (sm_live s i), (sm_live s' i); cbn [ns_role ns_term ns_log ns_id]; try done.
  2: by rewrite orb_true_r.
  destruct (bool_decide (role_ (machines (sm_world s) i).1 = Leader)) eqn:E1; [|done].
  destruct (bool_decide (role_ (machines (sm_world s') i).1 = Leader)) eqn:E2; [|done]. cbn [negb orb].
  apply bool_decide_eq_true in E1, E2.
  destruct (Z.eqb_spec (current_term_ (machines (sm_world s) i).1) (current_term_ (machines (sm_world s') i).1)) as [Et|]; [|done].
  cbn [negb]. pose proof (leader_extends _ _ _ i He1 (proj1 Hf) ltac:(by apply list_elem_of_In) E1 E2 Et) as Hp.
  rewrite (proj2 (Nat.ltb_ge _ _)) by (by apply prefix_length). apply find_map_none. intros k Hk%elem_of_seq.
  destruct (lookup_lt_is_Some_2 (log_view (machines (sm_world s) i).1) k) as [e Ek]; [lia|].
  rewrite decide_True; [done|]. by rewrite Ek, (prefix_lookup_Some _ _ _ _ Ek Hp).
Qed.

End sampled.

(** ** Runs *)

(** The takeover run of [RaftCluster], seen twice, the second time with the old leader down,
    and the submission of the new leader seen committed. *)
Definition trio_samples : list sample :=
  [mkSample trio_world (fun _ => true) 701; mkSample trio_world (fun i => negb (i =? 0)) 702].

Definition trio_submit : SubmitObservation := mkSubmit 3 1 [Byte.x43] 600 702 true true 2 2.

Lemma observe_node cl k w live now i :
  i ∈ cl -> snapshot_node (live i) i (machines w i).1 ∈ cs_nodes (observe cl k (mkSample w live now)).
Proof. intros Hi. apply list_elem_of_fmap. by exists i. Qed.

Lemma follows_still cl w w' live now live' now' :
  rtc (wstep cl) w w' -> follows cl w [mkSample w' live now; mkSample w' live' now'].
Proof. intros Hw. split; [exact Hw|]. split; [apply rtc_refl|exact I]. Qed.

Lemma trio_watched : watched (observe_all trio 0 trio_samples) trio_submit.
Proof.
  intros _. split; [vm_compute; discriminate|]. split; [vm_compute; discriminate|].
  exists (observe trio 0 (mkSample trio_world (fun _ => true) 701)),
    (snapshot_node true 1 (machines trio_world 1).1), (mkEntry 2 [Byte.x43]).
  split; [apply list_elem_of_here|].
  split; [apply (observe_node trio 0 trio_world (fun _ => true) 701 1); right; left|].
  split; [vm_compute; discriminate|]. split; vm_compute; reflexivity.
Qed.


(** The checkers have teeth: a second leader, a rewritten leader log, a committed entry that
    changes, and a phantom commit. *)
Definition snap_of (step : Z) (ns : list NodeSnapshot) : ClusterSnapshot := mkCluster 0 step ns.
Definition leader_with (id t c : Z) (l : list LogEntry) : NodeSnapshot := mkSnap id true Leader t c l.

Example two_leaders_reported :
  check_election_safety (mkRun 0 [snap_of 0 [leader_with 0 1 0 []; leader_with 1 1 0 []]] [] []) = Some (TwoLeaders 0 0 1).
Proof. reflexivity. Qed.

Example overwrite_reported :
  let e := mkEntry 1 [Byte.x41] in let e' := mkEntry 1 [Byte.x42] in
  let run := mkRun 0 [snap_of 0 [leader_with 0 1 1 [e]]; snap_of 1 [leader_with 0 1 1 [e']]] [] [] in
  check_leader_append_only run = Some (LeaderOverwrote 0 1 0) /\
  check_state_machine_safety run = Some (CommittedChanged 1 0 0).
Proof. vm_compute. done. Qed.

Example phantom_reported :
  check_linearizability (mkRun 0 [snap_of 0 [leader_with 0 1 0 []]] [trio_submit] []) = Some (PhantomCommit 3).
Proof. reflexivity. Qed.
