(* ===== verification/Json.v ===== *)
(** Json: the JSON value model of the SQL layer (query/sql/Json.hpp): the parser, the
    canonical serializer and [canonical], whose output is what gets stored.

    A position in the text is the suffix that starts there.  [std::sort] puts the members
    of an object in key order and leaves the order of equal keys open, so it is a
    parameter, [KeySort]; a document whose objects have distinct keys does not depend on
    it. *)

From Stdlib Require Import ZArith QArith Lia Sorting.Sorted Strings.Byte.
From stdpp Require Import base list sorting numbers strings.
From S2P Require Import Prelude StableSort.
#[local] Open Scope Z_scope.

(** ** Values *)

Inductive JVal :=
| JNull
| JBool (b : bool)
| JNum (text : list byte)
| JStr (text : list byte)
| JArr (arr : list JVal)
| JObj (obj : list (list byte * JVal)).

(** Bytes that stand for a character literal of the code. *)
Definition quote : byte := Byte.x22.
Definition backslash : byte := Byte.x5c.
Definition bytes (s : string) : list byte := String.list_byte_of_string s.

(** ** The parser *)

Definition is_ws (c : byte) : bool :=
  match c with " "%byte | Byte.x09 | Byte.x0a | Byte.x0d => true | _ => false end.

Fixpoint skip_ws (s : list byte) : list byte :=
  match s with
  | c :: s' => if is_ws c then skip_ws s' else s
  | [] => []
  end.

Definition is_digit (c : byte) : bool := (48 <=? Zb c) && (Zb c <=? 57).

(** The lambda [hex4] of [parse_string], one digit and four. *)
Definition hex_digit (h : byte) : option Z :=
  if is_digit h then Some (Zb h - 48)
  else if (97 <=? Zb h) && (Zb h <=? 102) then Some (Zb h - 97 + 10)
  else if (65 <=? Zb h) && (Zb h <=? 70) then Some (Zb h - 65 + 10)
  else None.

Definition hex4 (h1 h2 h3 h4 : byte) : option Z :=
  foldl (fun cp h => c ← cp; d ← hex_digit h; Some (Z.lor (Z.shiftl c 4) d)) (Some 0) [h1; h2; h3; h4].

Definition utf8 (cp : Z) : list byte :=
  if cp <? 0x80 then [bZ cp]
  else if cp <? 0x800 then
    [bZ (Z.lor 0xC0 (Z.shiftr cp 6)); bZ (Z.lor 0x80 (Z.land cp 0x3F))]
  else if cp <? 0x10000 then
    [bZ (Z.lor 0xE0 (Z.shiftr cp 12)); bZ (Z.lor 0x80 (Z.land (Z.shiftr cp 6) 0x3F));
     bZ (Z.lor 0x80 (Z.land cp 0x3F))]
  else
    [bZ (Z.lor 0xF0 (Z.shiftr cp 18)); bZ (Z.lor 0x80 (Z.land (Z.shiftr cp 12) 0x3F));
     bZ (Z.lor 0x80 (Z.land (Z.shiftr cp 6) 0x3F)); bZ (Z.lor 0x80 (Z.land cp 0x3F))].

Definition unescape (e : byte) : option byte :=
  match e with
  | Byte.x22 => Some Byte.x22
  | Byte.x5c => Some Byte.x5c
  | "/"%byte => Some "/"%byte
  | "n"%byte => Some Byte.x0a
  | "t"%byte => Some Byte.x09
  | "r"%byte => Some Byte.x0d
  | "b"%byte => Some Byte.x08
  | "f"%byte => Some Byte.x0c
  | _ => None
  end.

(** The loop of [parse_string], after the opening quote. *)
Fixpoint parse_chars (s out : list byte) : option (list byte * list byte) :=
  match s with
  | [] => None
  | c :: s1 =>
      if Byte.eqb c quote then Some (out, s1)
      else if Byte.eqb c backslash then
        match s1 with
        | [] => None
        | e :: s2 =>
            if Byte.eqb e "u" then
              match s2 with
              | h1 :: h2 :: h3 :: h4 :: s3 =>
                  match hex4 h1 h2 h3 h4 with
                  | None => None
                  | Some cp =>
                      if (0xD800 <=? cp) && (cp <=? 0xDBFF) then
                        match s3 with
                        | b :: u :: l1 :: l2 :: l3 :: l4 :: s4 =>
                            if Byte.eqb b backslash && Byte.eqb u "u" then
                              match hex4 l1 l2 l3 l4 with
                              | None => None
                              | Some lo =>
                                  if (lo <? 0xDC00) || (0xDFFF <? lo) then None
                                  else parse_chars s4 (out ++ utf8 (0x10000 + Z.shiftl (cp - 0xD800) 10 + (lo - 0xDC00)))
                              end
                            else None
                        | _ => None
                        end
                      else if (0xDC00 <=? cp) && (cp <=? 0xDFFF) then None
                      else parse_chars s3 (out ++ utf8 cp)
                  end
              | _ => None
              end
            else
              match unescape e with
              | None => None
              | Some x => parse_chars s2 (out ++ [x])
              end
        end
      else parse_chars s1 (out ++ [c])
  end.

Definition parse_string (s : list byte) : option (list byte * list byte) :=
  match s with
  | c :: s' => if Byte.eqb c quote then parse_chars s' [] else None
  | [] => None
  end.

(** The longest run of digits, and what follows it. *)
Fixpoint digits (s : list byte) : list byte * list byte :=
  match s with
  | c :: s' => if is_digit c then let '(d, r) := digits s' in (c :: d, r) else ([], s)
  | [] => ([], [])
  end.

Fixpoint strip_leading (ip : list byte) : list byte :=
  match ip with
  | c :: ((_ :: _) as ip') => if Byte.eqb c "0" then strip_leading ip' else ip
  | _ => ip
  end.

(** [fp.pop_back()] while the last digit is zero. *)
Fixpoint strip_trailing (fp : list byte) : list byte :=
  match fp with
  | [] => []
  | c :: fp' =>
      match strip_trailing fp' with
      | [] => if Byte.eqb c "0" then [] else [c]
      | fp'' => c :: fp''
      end
  end.

(** The text of a number from its sign and digits. *)
Definition canon_num (neg : bool) (ip fp : list byte) : list byte :=
  let ip := match strip_leading ip with [] => bytes "0" | ip => ip end in
  let fp := strip_trailing fp in
  let zero := key_eqb ip (bytes "0") && bool_decide (fp = []) in
  (if neg && negb zero then bytes "-" else []) ++ ip ++
  match fp with [] => [] | _ => bytes "." ++ fp end.

Definition scan_sign (s : list byte) : bool * list byte :=
  match s with
  | c :: s' => if Byte.eqb c "-" then (true, s') else if Byte.eqb c "+" then (false, s') else (false, s)
  | [] => (false, [])
  end.

(** Sign, digits before and after the point, and the rest; [None]: an exponent, or no
    digit at all. *)
Definition scan_number (s : list byte) : option (bool * list byte * list byte * list byte) :=
  let '(neg, s) := scan_sign s in
  let '(ip, s) := digits s in
  let '(fp, s) := match s with
                  | c :: s' => if Byte.eqb c "." then digits s' else ([], s)
                  | [] => ([], [])
                  end in
  if match s with c :: _ => Byte.eqb c "e" || Byte.eqb c "E" | [] => false end then None
  else match ip, fp with
       | [], [] => None
       | _, _ => Some (neg, ip, fp, s)
       end.

Definition parse_number (s : list byte) : option (list byte * list byte) :=
  match scan_number s with
  | Some (neg, ip, fp, r) => Some (canon_num neg ip fp, r)
  | None => None
  end.

(** The loops over the members of an object and the elements of an array. *)
Section loops.
Variable parse_child : list byte -> option (JVal * list byte).

Fixpoint members (fuel : nat) (s : list byte) (obj : list (list byte * JVal)) : option (JVal * list byte) :=
  match fuel with
  | O => None
  | S fuel' =>
      match parse_string (skip_ws s) with
      | None => None
      | Some (key, s) =>
          match skip_ws s with
          | c :: s =>
              if Byte.eqb c ":" then
                match parse_child s with
                | None => None
                | Some (child, s) =>
                    let obj := obj ++ [(key, child)] in
                    match skip_ws s with
                    | c :: s =>
                        if Byte.eqb c "," then members fuel' s obj
                        else if Byte.eqb c "}" then Some (JObj obj, s)
                        else None
                    | [] => None
                    end
                end
              else None
          | [] => None
          end
      end
  end.

Fixpoint elements (fuel : nat) (s : list byte) (arr : list JVal) : option (JVal * list byte) :=
  match fuel with
  | O => None
  | S fuel' =>
      match parse_child s with
      | None => None
      | Some (child, s) =>
          let arr := arr ++ [child] in
          match skip_ws s with
          | c :: s =>
              if Byte.eqb c "," then elements fuel' s arr
              else if Byte.eqb c "]" then Some (JArr arr, s)
              else None
          | [] => None
          end
      end
  end.
End loops.

(** [s.compare(p, n, word) == 0] *)
Definition starts (word s : list byte) : bool := key_eqb (take (length word) s) word.

(** Each level of recursion and each turn of a loop consumes a byte, so a fuel above the
    length of the text is enough. *)
Fixpoint parse_value (fuel : nat) (s : list byte) : option (JVal * list byte) :=
  match fuel with
  | O => None
  | S fuel' =>
      match skip_ws s with
      | [] => None
      | (c :: s') as s0 =>
          if Byte.eqb c quote then
            match parse_string s0 with Some (t, r) => Some (JStr t, r) | None => None end
          else if Byte.eqb c "{" then
            match skip_ws s' with
            | c1 :: r => if Byte.eqb c1 "}" then Some (JObj [], r) else members (parse_value fuel') fuel' (c1 :: r) []
            | [] => members (parse_value fuel') fuel' [] []
            end
          else if Byte.eqb c "[" then
            match skip_ws s' with
            | c1 :: r => if Byte.eqb c1 "]" then Some (JArr [], r) else elements (parse_value fuel') fuel' (c1 :: r) []
            | [] => elements (parse_value fuel') fuel' [] []
            end
          else if starts (bytes "true") s0 then Some (JBool true, drop 4 s0)
          else if starts (bytes "false") s0 then Some (JBool false, drop 5 s0)
          else if starts (bytes "null") s0 then Some (JNull, drop 4 s0)
          else if Byte.eqb c "-" || Byte.eqb c "+" || is_digit c then
            match parse_number s0 with Some (t, r) => Some (JNum t, r) | None => None end
          else None
      end
  end.

(** ** The serializer *)

Definition escape_char (c : byte) : list byte :=
  match c with
  | Byte.x22 => [backslash; Byte.x22]
  | Byte.x5c => [backslash; Byte.x5c]
  | Byte.x0a => [backslash; "n"%byte]
  | Byte.x09 => [backslash; "t"%byte]
  | Byte.x0d => [backslash; "r"%byte]
  | Byte.x08 => [backslash; "b"%byte]
  | Byte.x0c => [backslash; "f"%byte]
  | _ => [c]
  end.

Definition escape (t : list byte) : list byte := [quote] ++ (t ≫= escape_char) ++ [quote].

(** [std::sort] of members by key: some permutation in key order, chosen by looking at the
    keys only. *)
Class KeySort := {
  sort : forall {A}, list (list byte * A) -> list (list byte * A);
  sort_perm : forall {A} (l : list (list byte * A)), sort l ≡ₚ l;
  sort_sorted : forall {A} (l : list (list byte * A)),
    StronglySorted (fun a b => key_leb a.1 b.1 = true) (sort l);
  sort_keys_only : forall {A B} (f : A -> B) (l : list (list byte * A)),
    sort (map (fun e => (fst e, f (snd e))) l) = map (fun e => (fst e, f (snd e))) (sort l)
}.

Fixpoint join (l : list (list byte)) : list byte :=
  match l with
  | [] => []
  | [x] => x
  | x :: l' => x ++ ","%byte :: join l'
  end.

(** The members are serialized before they are sorted, which the sort does not see. *)
Fixpoint serialize `{KeySort} (v : JVal) : list byte :=
  match v with
  | JNull => bytes "null"
  | JBool b => if b then bytes "true" else bytes "false"
  | JNum t => t
  | JStr t => escape t
  | JArr arr => "["%byte :: join (map serialize arr) ++ ["]"%byte]
  | JObj obj =>
      let ents := sort (map (fun e => (fst e, serialize (snd e))) obj) in
      "{"%byte :: join (map (fun e => escape (fst e) ++ ":"%byte :: snd e) ents) ++ ["}"%byte]
  end.

Definition parse (s : list byte) : option JVal :=
  match parse_value (S (length s)) s with
  | Some (v, r) => match skip_ws r with [] => Some v | _ => None end
  | None => None
  end.

Definition canonical `{KeySort} (s : list byte) : option (list byte) :=
  match parse s with Some v => Some (serialize v) | None => None end.

(** ** Induction over values *)

Lemma JVal_ind' (P : JVal -> Prop) :
  P JNull -> (forall b, P (JBool b)) -> (forall t, P (JNum t)) -> (forall t, P (JStr t)) ->
  (forall arr, Forall P arr -> P (JArr arr)) ->
  (forall obj, Forall (fun e => P e.2) obj -> P (JObj obj)) ->
  forall v, P v.
Proof.
  intros Hn Hb Hm Hs Ha Ho. fix go 1. intros v. destruct v as [| | | |arr|obj]; [exact Hn|apply Hb|apply Hm|apply Hs| |].
  - apply Ha. induction arr as [|v arr IH]; constructor; auto.
  - apply Ho. induction obj as [|[k v] obj IH]; constructor; cbn; auto.
Qed.

(** ** Progress of the parser *)

Lemma skip_ws_length s : (length (skip_ws s) <= length s)%nat.
Proof. induction s as [|c s IH]; cbn; [done|]. destruct (is_ws c); cbn; lia. Qed.

Lemma skip_ws_cons s c s' : skip_ws s = c :: s' -> (length s' < length s)%nat.
Proof. intros E. pose proof (skip_ws_length s) as H. rewrite E in H. cbn in H. lia. Qed.

Lemma parse_chars_shrinks n : forall s out t r,
  (length s <= n)%nat -> parse_chars s out = Some (t, r) -> (length r < length s)%nat.
Proof.
  induction n as [|n IH]; intros [|c s1] out t r Hn; cbn [parse_chars]; try done; cbn in Hn; [lia|].
  destruct (Byte.eqb c quote); [intros [= _ ->]; cbn; lia|].
  destruct (Byte.eqb c backslash); [|intros H%IH; cbn; lia].
  destruct s1 as [|e s2]; [done|]. cbn in Hn. destruct (Byte.eqb e "u").
  - destruct s2 as [|h1 [|h2 [|h3 [|h4 s3]]]]; try done. cbn in Hn.
    destruct (hex4 h1 h2 h3 h4) as [cp|]; [|done]. destruct (_ && _).
    + destruct s3 as [|b [|u [|l1 [|l2 [|l3 [|l4 s4]]]]]]; try done. cbn in Hn.
      destruct (_ && _); [|done]. destruct (hex4 _ _ _ _); [|done]. destruct (_ || _); [done|].
      intros H%IH; cbn; lia.
    + destruct (_ && _); [done|]. intros H%IH; cbn; lia.
  - destruct (unescape e); [|done]. intros H%IH; cbn; lia.
Qed.

Lemma parse_string_shrinks s t r : parse_string s = Some (t, r) -> (length r < length s)%nat.
Proof.
  destruct s as [|c s]; cbn; [done|]. destruct (Byte.eqb c quote); [|done].
  intros H%(parse_chars_shrinks (length s)); cbn; lia.
Qed.

Lemma digits_length s d r : digits s = (d, r) -> length s = (length d + length r)%nat.
Proof.
  revert d r; induction s as [|c s IH]; intros d r; cbn; [by intros [= <- <-]|].
  destruct (is_digit c); [|by intros [= <- <-]].
  destruct (digits s) as [d' r'] eqn:E. intros [= <- <-]. cbn. by rewrite (IH _ _ eq_refl).
Qed.

Lemma scan_number_shrinks s neg ip fp r :
  scan_number s = Some (neg, ip, fp, r) -> (length r < length s)%nat.
Proof.
  unfold scan_number.
  destruct (scan_sign s) as [n s1] eqn:E1. unfold scan_sign in E1.
  assert (length s1 <= length s)%nat.
  { destruct s as [|c s]; [by injection E1 as <- <-|]. destruct (Byte.eqb c "-"); [injection E1 as <- <-; cbn; lia|].
    destruct (Byte.eqb c "+"); injection E1 as <- <-; cbn; lia. }
  destruct (digits s1) as [d1 s2] eqn:E2. apply digits_length in E2.
  destruct (match s2 with [] => _ | _ => _ end) as [d2 s3] eqn:E3.
  assert (length d2 + length s3 <= length s2)%nat.
  { destruct s2 as [|c s2']; [injection E3 as <- <-; cbn; lia|].
    destruct (Byte.eqb c "."); [apply digits_length in E3; cbn in *; lia|injection E3 as <- <-; cbn; lia]. }
  destruct (match s3 with [] => _ | _ => _ end); [done|].
  destruct d1, d2; intros [= -> <- <- <-]; cbn in *; lia.
Qed.

Definition shrinks (pc : list byte -> option (JVal * list byte)) : Prop :=
  forall s v r, pc s = Some (v, r) -> (length r < length s)%nat.

(** A turn of either loop after the child: what [skip_ws] finds is shorter. *)
Ltac eat E := let H := fresh in pose proof (skip_ws_cons _ _ _ E) as H; cbn in H.

Lemma members_shrinks pc : shrinks pc -> forall fuel s obj v r,
  members pc fuel s obj = Some (v, r) -> (length r < length s)%nat.
Proof.
  intros Hpc fuel; induction fuel as [|fuel IH]; intros s obj v r; cbn [members]; [done|].
  destruct (parse_string (skip_ws s)) as [[k s1]|] eqn:E1; [|done]. apply parse_string_shrinks in E1.
  pose proof (skip_ws_length s). destruct (skip_ws s1) as [|c s2] eqn:E2; [done|]. eat E2.
  destruct (Byte.eqb c ":"); [|done]. destruct (pc s2) as [[w s3]|] eqn:E3; [|done]. apply Hpc in E3.
  destruct (skip_ws s3) as [|c' s4] eqn:E4; [done|]. eat E4.
  destruct (Byte.eqb c' ","); [intros Hm%IH; lia|]. destruct (Byte.eqb c' "}"); [|done]. intros [= _ ->]. lia.
Qed.

Lemma elements_shrinks pc : shrinks pc -> forall fuel s arr v r,
  elements pc fuel s arr = Some (v, r) -> (length r < length s)%nat.
Proof.
  intros Hpc fuel; induction fuel as [|fuel IH]; intros s arr v r; cbn [elements]; [done|].
  destruct (pc s) as [[w s3]|] eqn:E3; [|done]. apply Hpc in E3.
  destruct (skip_ws s3) as [|c' s4] eqn:E4; [done|]. eat E4.
  destruct (Byte.eqb c' ","); [intros Hm%IH; lia|]. destruct (Byte.eqb c' "]"); [|done]. intros [= _ ->]. lia.
Qed.

Lemma parse_value_shrinks fuel : shrinks (parse_value fuel).
Proof.
  induction fuel as [|fuel IH]; intros s v r; cbn [parse_value]; [done|].
  destruct (skip_ws s) as [|c s'] eqn:E; [done|]. pose proof (skip_ws_length s) as Hl. rewrite E in Hl. cbn [length] in Hl.
  destruct (Byte.eqb c quote).
  { destruct (parse_string (c :: s')) as [[t r']|] eqn:E1; [|done]. apply parse_string_shrinks in E1.
    intros [= _ <-]. cbn in E1. lia. }
  destruct (Byte.eqb c "{").
  { destruct (skip_ws s') as [|c1 r1] eqn:E1; [intros H%members_shrinks; [cbn in H; lia|done]|].
    pose proof (skip_ws_length s') as Hl'. rewrite E1 in Hl'.
    destruct (Byte.eqb c1 "}"); [intros [= _ <-]; cbn in *; lia|]. intros H%members_shrinks; [|done]. lia. }
  destruct (Byte.eqb c "[").
  { destruct (skip_ws s') as [|c1 r1] eqn:E1; [intros H%elements_shrinks; [cbn in H; lia|done]|].
    pose proof (skip_ws_length s') as Hl'. rewrite E1 in Hl'.
    destruct (Byte.eqb c1 "]"); [intros [= _ <-]; cbn in *; lia|]. intros H%elements_shrinks; [|done]. lia. }
  do 3 (destruct (starts _ _); [intros [= _ <-]; rewrite length_drop; cbn; lia|]).
  destruct (_ || _); [|done]. unfold parse_number.
  destruct (scan_number (c :: s')) as [[[[neg ip] fp] r']|] eqn:E1; [|done].
  apply scan_number_shrinks in E1. intros [= _ <-]. cbn in E1. lia.
Qed.

Lemma members_fuel pc pc' n : shrinks pc -> (forall s, (length s < n)%nat -> pc s = pc' s) ->
  forall f f' s obj, (length s < f)%nat -> (length s < f')%nat -> (length s <= n)%nat ->
  members pc f s obj = members pc' f' s obj.
Proof.
  intros Hpc Heq f; induction f as [|f IH]; intros [|f'] s obj Hf Hf' Hn; cbn [members]; try lia.
  destruct (parse_string (skip_ws s)) as [[k s1]|] eqn:E1; [|done]. apply parse_string_shrinks in E1.
  pose proof (skip_ws_length s). destruct (skip_ws s1) as [|c s2] eqn:E2; [done|]. eat E2.
  destruct (Byte.eqb c ":"); [|done]. rewrite <- Heq by lia.
  destruct (pc s2) as [[w s3]|] eqn:E3; [|done]. apply Hpc in E3.
  destruct (skip_ws s3) as [|c' s4] eqn:E4; [done|]. eat E4.
  destruct (Byte.eqb c' ","); [apply IH; lia|done].
Qed.

Lemma elements_fuel pc pc' n : shrinks pc -> (forall s, (length s < n)%nat -> pc s = pc' s) ->
  forall f f' s arr, (length s < f)%nat -> (length s < f')%nat -> (length s < n)%nat ->
  elements pc f s arr = elements pc' f' s arr.
Proof.
  intros Hpc Heq f; induction f as [|f IH]; intros [|f'] s arr Hf Hf' Hn; cbn [elements]; try lia.
  rewrite <- Heq by lia. destruct (pc s) as [[w s3]|] eqn:E3; [|done]. apply Hpc in E3.
  destruct (skip_ws s3) as [|c' s4] eqn:E4; [done|]. eat E4.
  destruct (Byte.eqb c' ","); [apply IH; lia|done].
Qed.

(** Fuel above the length of the text is enough: the result no longer depends on it. *)
Lemma parse_value_fuel f : forall f' s, (length s < f)%nat -> (length s < f')%nat ->
  parse_value f s = parse_value f' s.
Proof.
  induction f as [|f IH]; intros [|f'] s Hf Hf'; cbn [parse_value]; try lia.
  destruct (skip_ws s) as [|c s'] eqn:E; [done|]. eat E.
  pose proof (skip_ws_length s') as Hl.
  assert (Heq : forall t, (length t < length s)%nat -> parse_value f t = parse_value f' t)
    by (intros; apply IH; lia).
  destruct (Byte.eqb c quote); [done|].
  destruct (Byte.eqb c "{").
  { destruct (skip_ws s') as [|c1 r1] eqn:E1; [|destruct (Byte.eqb c1 "}"); [done|]];
      (apply (members_fuel _ _ (length s)); [apply parse_value_shrinks|done|cbn in *; lia..]). }
  destruct (Byte.eqb c "["); [|done].
  destruct (skip_ws s') as [|c1 r1] eqn:E1; [|destruct (Byte.eqb c1 "]"); [done|]];
    (apply (elements_fuel _ _ (length s)); [apply parse_value_shrinks|done|cbn in *; lia..]).
Qed.

(** ** Strings *)

Lemma parse_escaped t : forall out rest,
  parse_chars ((t ≫= escape_char) ++ quote :: rest) out = Some (out ++ t, rest).
Proof.
  induction t as [|c t IH]; intros out rest; [cbn; by rewrite app_nil_r|].
  cbn [mbind list_bind]. rewrite <- app_assoc.
  transitivity (parse_chars ((t ≫= escape_char) ++ quote :: rest) (out ++ [c])); [by destruct c|].
  rewrite IH, <- app_assoc. done.
Qed.

Lemma parse_string_escape t rest : parse_string (escape t ++ rest) = Some (t, rest).
Proof. unfold escape. rewrite <- !app_assoc. cbn. apply parse_escaped. Qed.

(** ** Numbers *)

#[local] Hint Extern 0 (Forall _ []) => constructor : core.

Abbreviation is_digits := (Forall (fun c => is_digit c = true)).

(** What may follow a number: nothing that would be read as part of it. *)
Definition stops (r : list byte) : Prop :=
  match r with
  | c :: _ => is_digit c = false /\ Byte.eqb c "." = false /\ Byte.eqb c "e" = false /\ Byte.eqb c "E" = false
  | [] => True
  end.

Lemma digits_spec s d r : digits s = (d, r) -> s = d ++ r /\ is_digits d.
Proof.
  revert d r; induction s as [|c s IH]; intros d r; cbn; [by intros [= <- <-]|].
  destruct (is_digit c) eqn:E; [|by intros [= <- <-]].
  destruct (digits s) as [d' r'] eqn:E'. intros [= <- <-].
  destruct (IH _ _ eq_refl) as [-> Hd]. split; [done|by constructor].
Qed.

Lemma digits_app d r : is_digits d -> match r with c :: _ => is_digit c = false | [] => True end ->
  digits (d ++ r) = (d, r).
Proof.
  intros Hd Hr. induction Hd as [|c d Hc _ IH]; cbn.
  - destruct r; cbn; [done|]. by rewrite Hr.
  - by rewrite Hc, IH.
Qed.

Lemma scan_number_digits s neg ip fp r :
  scan_number s = Some (neg, ip, fp, r) -> is_digits ip /\ is_digits fp /\ (ip <> [] \/ fp <> []).
Proof.
  unfold scan_number.
  destruct (scan_sign s) as [n s1].
  destruct (digits s1) as [d1 s2] eqn:E2. apply digits_spec in E2 as [_ H1].
  destruct (match s2 with [] => _ | _ => _ end) as [d2 s3] eqn:E3.
  assert (is_digits d2).
  { destruct s2 as [|c s2']; [by injection E3 as <- <-|].
    destruct (Byte.eqb c "."); [by apply digits_spec in E3 as [_ ?]|by injection E3 as <- <-]. }
  destruct (match s3 with [] => _ | _ => _ end); [done|].
  destruct d1, d2; intros [= -> <- <- <-]; (split; [done|]; split; [done|]); naive_solver.
Qed.

Lemma strip_leading_suffix ip : exists z, ip = z ++ strip_leading ip /\ Forall (eq "0"%byte) z.
Proof.
  induction ip as [|c [|c' ip] IH]; [by exists []..|]. cbn [strip_leading] in *.
  destruct (Byte.eqb c "0") eqn:E; [|by exists []]. apply Byte.byte_dec_bl in E as ->.
  destruct IH as (z & Hz & Hall). exists ("0"%byte :: z). cbn [app]. rewrite <- Hz. split; [done|by constructor].
Qed.

Lemma strip_leading_head ip c c' t : strip_leading ip = c :: c' :: t -> c <> "0"%byte.
Proof.
  induction ip as [|a [|a' ip] IH]; [done..|]. cbn [strip_leading] in *.
  destruct (Byte.eqb a "0") eqn:E; [done|]. intros [= <- <- <-] ->. done.
Qed.

Lemma strip_leading_nil ip : strip_leading ip = [] -> ip = [].
Proof.
  induction ip as [|a [|a' ip] IH]; [done..|]. cbn [strip_leading] in *.
  destruct (Byte.eqb a "0"); [|done]. intros H. by apply IH in H.
Qed.

Lemma strip_trailing_prefix fp : exists z, fp = strip_trailing fp ++ z /\ Forall (eq "0"%byte) z.
Proof.
  induction fp as [|c fp (z & Hz & Hall)]; [by exists []|]. cbn [strip_trailing].
  destruct (strip_trailing fp) as [|x l] eqn:E.
  - destruct (Byte.eqb c "0") eqn:E0.
    + apply Byte.byte_dec_bl in E0 as ->. exists ("0"%byte :: z). cbn in *. subst. split; [done|by constructor].
    + exists z. cbn in *. by subst.
  - exists z. cbn [app] in *. by rewrite <- Hz.
Qed.

Lemma strip_trailing_last fp c l : strip_trailing fp = l ++ [c] -> c <> "0"%byte.
Proof.
  revert l; induction fp as [|a fp IH]; intros l; cbn [strip_trailing]; [by destruct l|].
  destruct (strip_trailing fp) as [|x m] eqn:E.
  - destruct (Byte.eqb a "0") eqn:E0; [by destruct l|]. destruct l as [|y l]; [|by destruct l].
    intros [= <-] ->. done.
  - destruct l as [|y l]; [done|]. intros [= _ H]. by apply (IH l).
Qed.

(** A spelling in canonical form: no leading zero but a lone one, no trailing zero in the
    fraction, and no negative zero. *)
Record canon_parts (neg : bool) (ip fp : list byte) : Prop := {
  cp_ip : is_digits ip;
  cp_fp : is_digits fp;
  cp_lead : ip = ["0"%byte] \/ exists c t, ip = c :: t /\ c <> "0"%byte;
  cp_last : forall l c, fp = l ++ [c] -> c <> "0"%byte;
  cp_sign : neg = true -> ip = ["0"%byte] -> fp <> []
}.

Definition num_text (neg : bool) (ip fp : list byte) : list byte :=
  (if neg then ["-"%byte] else []) ++ ip ++ match fp with [] => [] | _ => "."%byte :: fp end.

Definition dval (d : list byte) : Z := foldl (fun a c => 10 * a + (Zb c - 48)) 0 d.

(** The rational a spelling denotes. *)
Definition num_value (neg : bool) (ip fp : list byte) : Q :=
  Qmake ((if neg then -1 else 1) * dval (ip ++ fp)) (Z.to_pos (10 ^ Zlen fp)).

Lemma strip_leading_fix ip : ip = ["0"%byte] \/ (exists c t, ip = c :: t /\ c <> "0"%byte) -> strip_leading ip = ip.
Proof.
  intros [->|(c & t & -> & Hc)]; [done|]. destruct t; cbn; [done|].
  destruct (Byte.eqb c "0") eqn:E; [|done]. by apply Byte.byte_dec_bl in E.
Qed.

Lemma strip_trailing_fix fp : (forall l c, fp = l ++ [c] -> c <> "0"%byte) -> strip_trailing fp = fp.
Proof.
  intros H. destruct (strip_trailing_prefix fp) as (z & Hz & Hall).
  destruct z as [|x z _] using rev_ind; [by rewrite app_nil_r in Hz|].
  apply Forall_app in Hall as [_ Hx]. apply Forall_inv in Hx as <-.
  exfalso. rewrite app_assoc in Hz. by apply (H _ _ Hz).
Qed.

Lemma canon_num_text neg ip fp : canon_parts neg ip fp -> canon_num neg ip fp = num_text neg ip fp.
Proof.
  intros [H1 H2 H3 H4 H5]. unfold canon_num, num_text.
  rewrite (strip_leading_fix ip), (strip_trailing_fix fp) by done.
  destruct ip as [|c t]; [by destruct H3 as [|(? & ? & ? & _)]|].
  assert (neg && negb (key_eqb (c :: t) (bytes "0") && bool_decide (fp = [])) = neg) as ->.
  { destruct neg; [|done]. cbn [andb]. apply negb_true_iff, andb_false_iff.
    destruct (key_eqb (c :: t) (bytes "0")) eqn:E; [|by left]. apply key_eqb_eq in E.
    right. apply bool_decide_eq_false. auto. }
  by destruct neg, fp.
Qed.

Lemma canon_num_parts neg ip fp : is_digits ip -> is_digits fp ->
  exists neg' ip' fp', canon_num neg ip fp = num_text neg' ip' fp' /\ canon_parts neg' ip' fp' /\
    (exists z z', (z ++ ip' = ip \/ (ip = [] /\ ip' = ["0"%byte] /\ z = [])) /\ fp = fp' ++ z' /\
       Forall (eq "0"%byte) z /\ Forall (eq "0"%byte) z') /\
    (neg' = neg \/ (neg' = false /\ ip' = ["0"%byte] /\ fp' = [])).
Proof.
  intros Hi Hf.
  set (ip' := match strip_leading ip with [] => bytes "0" | x => x end).
  set (fp' := strip_trailing fp).
  set (zero := key_eqb ip' (bytes "0") && bool_decide (fp' = [])).
  destruct (strip_leading_suffix ip) as (z & Hz & Hzall). destruct (strip_trailing_prefix fp) as (z' & Hz' & Hzall').
  exists (neg && negb zero), ip', fp'. split; [|split; [split|split]].
  - unfold canon_num, num_text. fold ip' fp' zero. by destruct (neg && negb zero), fp'.
  - unfold ip'. destruct (strip_leading ip) eqn:E; [by repeat constructor|].
    rewrite Hz in Hi. by apply Forall_app in Hi as [_ ?].
  - rewrite Hz' in Hf. by apply Forall_app in Hf as [? _].
  - unfold ip'. destruct (strip_leading ip) as [|c [|c' t]] eqn:E; [by left| |].
    + destruct (decide (c = "0"%byte)) as [->|]; [by left|right; eauto].
    + right. exists c, (c' :: t). split; [done|]. by eapply strip_leading_head.
  - intros l c. apply strip_trailing_last.
  - intros Hn Hip Hfp. rewrite andb_true_iff in Hn. destruct Hn as [_ Hn]. unfold zero in Hn.
    by rewrite Hip, Hfp in Hn.
  - unfold ip'. destruct (strip_leading ip) as [|c t] eqn:E.
    + apply strip_leading_nil in E as ->. exists [], z'. split; [by right|done].
    + exists z, z'. split; [by left|done].
  - destruct neg; [|by left]. destruct zero eqn:E; [|by left]. right. cbn. unfold zero in E.
    apply andb_true_iff in E as [E1%key_eqb_eq E2%bool_decide_eq_true]. done.
Qed.

Lemma scan_num_text neg ip fp r : canon_parts neg ip fp -> stops r ->
  scan_number (num_text neg ip fp ++ r) = Some (neg, ip, fp, r).
Proof.
  intros [H1 H2 H3 _ _] Hr. unfold scan_number.
  set (frac := match fp with [] => [] | _ => "."%byte :: fp end).
  assert (scan_sign (num_text neg ip fp ++ r) = (neg, ip ++ frac ++ r)) as ->.
  { unfold num_text. fold frac. rewrite <- !app_assoc. destruct neg; [done|].
    destruct H3 as [->|(c & t & -> & _)]; [done|]. apply Forall_inv in H1. by destruct c. }
  rewrite digits_app by (try done; unfold frac; destruct fp, r; try done; apply Hr).
  assert (match frac ++ r with c :: s' => if Byte.eqb c "." then digits s' else ([], frac ++ r) | [] => ([], []) end = (fp, r)) as ->.
  { unfold frac. destruct fp as [|d fp].
    - destruct r as [|x r]; [done|]. cbn [app]. by destruct Hr as (_ & -> & _).
    - cbn [app]. rewrite app_comm_cons. cbn [Byte.eqb]. apply digits_app; [done|]. destruct r; [done|apply Hr]. }
  assert (match r with c :: _ => Byte.eqb c "e" || Byte.eqb c "E" | [] => false end = false) as ->.
  { destruct r as [|x r]; [done|]. by destruct Hr as (_ & _ & -> & ->). }
  destruct ip; [by destruct H3 as [|(? & ? & ? & _)]|done].
Qed.

(** ** The value of a spelling *)

Lemma dval_snoc d c : dval (d ++ [c]) = 10 * dval d + (Zb c - 48).
Proof. unfold dval. by rewrite foldl_app. Qed.

Lemma dval_app a b : dval (a ++ b) = dval a * 10 ^ Zlen b + dval b.
Proof.
  induction b as [|c b IH] using rev_ind; [rewrite app_nil_r; change (dval []) with 0; change (Zlen (A:=byte) []) with 0; lia|].
  rewrite app_assoc, !dval_snoc, IH, Zlen_app, Z.pow_add_r by (pose proof (Zlen_nonneg b); pose proof (Zlen_nonneg [c]); lia).
  change (Zlen [c]) with 1. lia.
Qed.

Lemma digit_range c : is_digit c = true -> 0 <= Zb c - 48 <= 9.
Proof. unfold is_digit. intros [? ?]%andb_true_iff. lia. Qed.

Lemma dval_bounds d : is_digits d -> 0 <= dval d < 10 ^ Zlen d.
Proof.
  induction d as [|c d IH] using rev_ind; [intros _; change (dval []) with 0; change (Zlen (A:=byte) []) with 0; lia|]. intros [Hd Hc]%Forall_app. apply Forall_inv, digit_range in Hc.
  rewrite dval_snoc, Zlen_app, Z.pow_add_r by (pose proof (Zlen_nonneg d); pose proof (Zlen_nonneg [c]); lia). change (Zlen [c]) with 1.
  specialize (IH Hd). lia.
Qed.

Lemma dval_inj a : forall b, is_digits a -> is_digits b -> length a = length b -> dval a = dval b -> a = b.
Proof.
  induction a as [|c a IH] using rev_ind; intros b Ha Hb Hl Hv.
  - by destruct b.
  - destruct b as [|d b _] using rev_ind; [rewrite length_app in Hl; cbn in Hl; lia|].
    apply Forall_app in Ha as [Ha Hc], Hb as [Hb Hd]. apply Forall_inv, digit_range in Hc, Hd.
    rewrite !dval_snoc in Hv. rewrite !length_app in Hl. cbn in Hl.
    assert (Zb c = Zb d) as ->%Zb_inj by lia. f_equal. apply IH; [done..|lia|lia].
Qed.

Lemma dval_zeros z : Forall (eq "0"%byte) z -> dval z = 0.
Proof.
  induction z as [|c z IH] using rev_ind; [done|]. intros [Hz Hc]%Forall_app. apply Forall_inv in Hc as <-.
  rewrite dval_snoc, IH by done. done.
Qed.

Lemma dval_head c t : is_digits (c :: t) -> c <> "0"%byte -> 10 ^ Zlen t <= dval (c :: t).
Proof.
  intros [Hc Ht]%Forall_cons Hne. change (c :: t) with ([c] ++ t). rewrite dval_app.
  apply digit_range in Hc. apply dval_bounds in Ht.
  assert (1 <= dval [c]); [|pose proof (Z.pow_pos_nonneg 10 (Zlen t)); pose proof (Zlen_nonneg t); nia].
  unfold dval. cbn [foldl]. destruct (decide (Zb c = 48)); [|lia]. by destruct Hne; apply Zb_inj.
Qed.

(** Integer parts without leading zeros are determined by their value. *)
Lemma lead_unique a b : is_digits a -> is_digits b ->
  a = ["0"%byte] \/ (exists c t, a = c :: t /\ c <> "0"%byte) ->
  b = ["0"%byte] \/ (exists c t, b = c :: t /\ c <> "0"%byte) ->
  dval a = dval b -> a = b.
Proof.
  assert (Hpos : forall c t, is_digits (c :: t) -> c <> "0"%byte -> 0 < dval (c :: t)).
  { intros c t Hd Hc. pose proof (dval_head c t Hd Hc). pose proof (Z.pow_pos_nonneg 10 (Zlen t)). pose proof (Zlen_nonneg t). lia. }
  intros Ha Hb [->|(c & t & -> & Hc)] [->|(d & u & -> & Hd)] Hv; [done|specialize (Hpos d u Hb Hd); change (dval ["0"%byte]) with 0 in Hv; lia|specialize (Hpos c t Ha Hc); change (dval ["0"%byte]) with 0 in Hv; lia|].
  apply dval_inj; [done..| |done]. cbn. f_equal.
  pose proof (dval_head c t Ha Hc). pose proof (dval_head d u Hb Hd).
  pose proof (dval_bounds _ Ha). pose proof (dval_bounds _ Hb).
  pose proof (Z.pow_lt_mono_r_iff 10 (Zlen t) (Zlen (d :: u))). pose proof (Z.pow_lt_mono_r_iff 10 (Zlen u) (Zlen (c :: t))).
  unfold Zlen in *. cbn [length] in *. lia.
Qed.

Lemma last_nonzero fp : is_digits fp -> (forall l c, fp = l ++ [c] -> c <> "0"%byte) -> fp <> [] -> dval fp mod 10 <> 0.
Proof.
  destruct fp as [|c fp _] using rev_ind; [done|]. intros [_ Hc]%Forall_app Hlast _.
  apply Forall_inv, digit_range in Hc. specialize (Hlast _ _ eq_refl). rewrite dval_snoc.
  rewrite Z.add_comm, Z.mul_comm, Z_mod_plus_full, Z.mod_small by lia.
  intros H0. apply Hlast, Zb_inj. change (Zb "0") with 48. lia.
Qed.

(** Fractions without trailing zeros are determined by their value. *)
Lemma frac_unique a b : is_digits a -> is_digits b ->
  (forall l c, a = l ++ [c] -> c <> "0"%byte) -> (forall l c, b = l ++ [c] -> c <> "0"%byte) ->
  dval a * 10 ^ Zlen b = dval b * 10 ^ Zlen a -> a = b.
Proof.
  assert (Hle : forall x y, is_digits x -> is_digits y -> (forall l c, y = l ++ [c] -> c <> "0"%byte) ->
    dval x * 10 ^ Zlen y = dval y * 10 ^ Zlen x -> ~ Zlen x < Zlen y).
  { intros x y Hx Hy Hlast Hv Hlt. apply (last_nonzero y); [done..|intros ->; pose proof (Zlen_nonneg x); change (Zlen (A:=byte) []) with 0 in Hlt; lia|].
    pose proof (Zlen_nonneg x). replace (Zlen y) with (Zlen x + (1 + (Zlen y - Zlen x - 1))) in Hv by lia.
    rewrite Z.pow_add_r in Hv by lia. rewrite Z.pow_add_r in Hv by lia. pose proof (Z.pow_pos_nonneg 10 (Zlen x)).
    assert (dval y = (dval x * 10 ^ (Zlen y - Zlen x - 1)) * 10) as -> by nia. apply Z_mod_mult. }
  intros Ha Hb Hla Hlb Hv. pose proof (Hle a b Ha Hb Hlb Hv). pose proof (Hle b a Hb Ha Hla (eq_sym Hv)).
  assert (Hl : Zlen a = Zlen b) by lia. rewrite Hl in Hv. pose proof (Z.pow_pos_nonneg 10 (Zlen b)). pose proof (Zlen_nonneg b).
  apply dval_inj; [done..|unfold Zlen in Hl; lia|nia].
Qed.

Lemma num_value_eq n ip fp n' ip' fp' :
  Qeq (num_value n ip fp) (num_value n' ip' fp') <->
  (if n then -1 else 1) * dval (ip ++ fp) * 10 ^ Zlen fp' = (if n' then -1 else 1) * dval (ip' ++ fp') * 10 ^ Zlen fp.
Proof.
  assert (Hp : forall d : list byte, Z.pos (Z.to_pos (10 ^ Zlen d)) = 10 ^ Zlen d).
  { intros d. apply Z2Pos.id, Z.pow_pos_nonneg; [lia|apply Zlen_nonneg]. }
  unfold Qeq, num_value. cbn [Qnum Qden]. by rewrite !Hp.
Qed.

(** The canonical spelling denotes the same number. *)
Lemma canon_value n ip fp n' ip' fp' z z' :
  z ++ ip' = ip \/ (ip = [] /\ ip' = ["0"%byte] /\ z = []) -> fp = fp' ++ z' ->
  Forall (eq "0"%byte) z -> Forall (eq "0"%byte) z' ->
  n' = n \/ (n' = false /\ ip' = ["0"%byte] /\ fp' = []) ->
  Qeq (num_value n ip fp) (num_value n' ip' fp').
Proof.
  intros Hi -> Hz Hz' Hn. apply num_value_eq.
  assert (Hv : dval (ip ++ fp' ++ z') = dval (ip' ++ fp') * 10 ^ Zlen z').
  { rewrite app_assoc, dval_app, (dval_zeros z') by done.
    destruct Hi as [<-|(-> & -> & _)]; [|cbn [app]; change ("0"%byte :: fp') with (["0"%byte] ++ fp'); rewrite dval_app; change (dval ["0"%byte]) with 0; lia].
    rewrite <- app_assoc, (dval_app z), (dval_zeros z) by done. lia. }
  rewrite Hv, Zlen_app, Z.pow_add_r by apply Zlen_nonneg.
  destruct Hn as [->|(-> & -> & ->)]; [lia|]. change (dval (["0"%byte] ++ [])) with 0. lia.
Qed.

Lemma parts_unique n ip fp n' ip' fp' :
  canon_parts n ip fp -> canon_parts n' ip' fp' -> Qeq (num_value n ip fp) (num_value n' ip' fp') ->
  n = n' /\ ip = ip' /\ fp = fp'.
Proof.
  intros [A1 A2 A3 A4 A5] [B1 B2 B3 B4 B5] Hq%num_value_eq.
  pose proof (dval_bounds _ A1). pose proof (dval_bounds _ B1). pose proof (dval_bounds _ A2). pose proof (dval_bounds _ B2).
  rewrite !dval_app in Hq. pose proof (Z.pow_pos_nonneg 10 (Zlen fp) ltac:(lia) (Zlen_nonneg fp)) as Pa.
  pose proof (Z.pow_pos_nonneg 10 (Zlen fp') ltac:(lia) (Zlen_nonneg fp')) as Pb.
  assert (Hz0 : forall m i f, canon_parts m i f -> dval i = 0 -> dval f = 0 -> m = false).
  { intros m i f [C1 C2 C3 C4 C5] Hi Hf. destruct m; [|done]. exfalso. apply (C5 eq_refl).
    - apply lead_unique; [done|by repeat constructor|done|by left|done].
    - destruct (decide (f = [])); [done|]. by destruct (last_nonzero f); rewrite ?Hf. }
  set (p := 10 ^ Zlen fp) in *. set (q := 10 ^ Zlen fp') in *.
  assert (Hsame : n = n' \/ (dval ip = 0 /\ dval fp = 0 /\ dval ip' = 0 /\ dval fp' = 0)).
  { destruct n, n'; auto; right; clear -Hq Pa Pb H H0 H1 H2; clearbody p q; repeat split; nia. }
  assert (n = n') as ->.
  { destruct Hsame as [|(Z1 & Z2 & Z3 & Z4)]; [done|].
    rewrite (Hz0 n ip fp), (Hz0 n' ip' fp'); done. }
  assert (Hq' : (dval ip * p + dval fp) * q = (dval ip' * q + dval fp') * p) by (destruct n'; lia).
  assert (Hdm : dval ip = dval ip' /\ dval fp * q = dval fp' * p).
  { apply (Z.div_mod_unique (p * q)); [left; clearbody p q; nia..|clearbody p q; lia]. }
  destruct Hdm as [Hi Hf]. split; [done|]. split; [by apply lead_unique|by apply frac_unique].
Qed.

Lemma num_text_inj n ip fp n' ip' fp' :
  canon_parts n ip fp -> canon_parts n' ip' fp' -> num_text n ip fp = num_text n' ip' fp' ->
  (n, ip, fp) = (n', ip', fp').
Proof.
  intros Ha Hb E. pose proof (scan_num_text _ _ _ [] Ha I) as Ea. pose proof (scan_num_text _ _ _ [] Hb I) as Eb.
  rewrite E, Eb in Ea. by injection Ea as -> -> ->.
Qed.

Lemma canon_num_value n ip fp : is_digits ip -> is_digits fp ->
  exists n' ip' fp', canon_num n ip fp = num_text n' ip' fp' /\ canon_parts n' ip' fp' /\
    Qeq (num_value n ip fp) (num_value n' ip' fp').
Proof.
  intros Hi Hf. destruct (canon_num_parts n ip fp Hi Hf) as (n' & ip' & fp' & E & Hp & (z & z' & H1 & H2 & H3 & H4) & Hn).
  exists n', ip', fp'. split; [done|]. split; [done|]. by eapply canon_value.
Qed.

(** The text kept for a number decides equality of numbers: two spellings the parser
    accepts are stored as the same text exactly when they denote the same rational, signs,
    leading zeros, trailing zeros and negative zero included. *)
Theorem number_text_exact s1 s2 n1 ip1 fp1 r1 n2 ip2 fp2 r2 :
  scan_number s1 = Some (n1, ip1, fp1, r1) -> scan_number s2 = Some (n2, ip2, fp2, r2) ->
  option_map fst (parse_number s1) = option_map fst (parse_number s2) <->
  Qeq (num_value n1 ip1 fp1) (num_value n2 ip2 fp2).
Proof.
  intros E1 E2. unfold parse_number. rewrite E1, E2. cbn [option_map fst].
  apply scan_number_digits in E1 as (H1 & H2 & _), E2 as (H3 & H4 & _).
  destruct (canon_num_value n1 ip1 fp1 H1 H2) as (m1 & i1 & f1 & -> & P1 & V1).
  destruct (canon_num_value n2 ip2 fp2 H3 H4) as (m2 & i2 & f2 & -> & P2 & V2).
  rewrite V1, V2. split.
  - intros [= E]. by injection (num_text_inj _ _ _ _ _ _ P1 P2 E) as -> -> ->.
  - intros Hq. by destruct (parts_unique _ _ _ _ _ _ P1 P2 Hq) as (-> & -> & ->).
Qed.

(** ** Documents *)

Definition number_text (t : list byte) : Prop := exists n ip fp, t = num_text n ip fp /\ canon_parts n ip fp.

Inductive json_wf : JVal -> Prop :=
| wf_null : json_wf JNull
| wf_bool b : json_wf (JBool b)
| wf_num t : number_text t -> json_wf (JNum t)
| wf_str t : json_wf (JStr t)
| wf_arr arr : Forall json_wf arr -> json_wf (JArr arr)
| wf_obj obj : Forall (fun e => json_wf e.2) obj -> json_wf (JObj obj).

(** Every object has distinct keys. *)
Inductive distinct : JVal -> Prop :=
| di_null : distinct JNull
| di_bool b : distinct (JBool b)
| di_num t : distinct (JNum t)
| di_str t : distinct (JStr t)
| di_arr arr : Forall distinct arr -> distinct (JArr arr)
| di_obj obj : NoDup obj.*1 -> Forall (fun e => distinct e.2) obj -> distinct (JObj obj).

(** The same document: members of objects in any order. *)
Inductive same : JVal -> JVal -> Prop :=
| sm_null : same JNull JNull
| sm_bool b : same (JBool b) (JBool b)
| sm_num t : same (JNum t) (JNum t)
| sm_str t : same (JStr t) (JStr t)
| sm_arr l l' : Forall2 same l l' -> same (JArr l) (JArr l')
| sm_obj m m1 m' : m ≡ₚ m1 -> Forall2 (fun a b => a.1 = b.1 /\ same a.2 b.2) m1 m' -> same (JObj m) (JObj m').

#[local] Hint Constructors json_wf distinct same : core.

Lemma parse_number_wf s t r : parse_number s = Some (t, r) -> number_text t.
Proof.
  unfold parse_number. destruct (scan_number s) as [[[[n ip] fp] r']|] eqn:E; [|done]. intros [= <- _].
  apply scan_number_digits in E as (H1 & H2 & _).
  destruct (canon_num_value n ip fp H1 H2) as (m & i & f & -> & P & _). by exists m, i, f.
Qed.

Lemma parse_number_text t r : number_text t -> stops r -> parse_number (t ++ r) = Some (t, r).
Proof.
  intros (n & ip & fp & -> & P) Hr. unfold parse_number. rewrite scan_num_text by done. by rewrite canon_num_text.
Qed.

Lemma members_wf pc : (forall s v r, pc s = Some (v, r) -> json_wf v) -> forall fuel s obj v r,
  Forall (fun e => json_wf e.2) obj -> members pc fuel s obj = Some (v, r) -> json_wf v.
Proof.
  intros Hpc fuel; induction fuel as [|fuel IH]; intros s obj v r Hobj; cbn [members]; [done|].
  destruct (parse_string _) as [[k s1]|]; [|done]. destruct (skip_ws s1) as [|c s2]; [done|].
  destruct (Byte.eqb c ":"); [|done]. destruct (pc s2) as [[w s3]|] eqn:E; [|done]. apply Hpc in E.
  assert (Hobj' : Forall (fun e => json_wf e.2) (obj ++ [(k, w)])) by (apply Forall_app; split; [done|by repeat constructor]).
  destruct (skip_ws s3) as [|c' s4]; [done|]. destruct (Byte.eqb c' ","); [by apply IH|].
  destruct (Byte.eqb c' "}"); [|done]. intros [= <- _]. auto.
Qed.

Lemma elements_wf pc : (forall s v r, pc s = Some (v, r) -> json_wf v) -> forall fuel s arr v r,
  Forall json_wf arr -> elements pc fuel s arr = Some (v, r) -> json_wf v.
Proof.
  intros Hpc fuel; induction fuel as [|fuel IH]; intros s arr v r Harr; cbn [elements]; [done|].
  destruct (pc s) as [[w s3]|] eqn:E; [|done]. apply Hpc in E.
  assert (Harr' : Forall json_wf (arr ++ [w])) by (apply Forall_app; split; [done|by repeat constructor]).
  destruct (skip_ws s3) as [|c' s4]; [done|]. destruct (Byte.eqb c' ","); [by apply IH|].
  destruct (Byte.eqb c' "]"); [|done]. intros [= <- _]. auto.
Qed.

Lemma parse_value_wf fuel : forall s v r, parse_value fuel s = Some (v, r) -> json_wf v.
Proof.
  induction fuel as [|fuel IH]; intros s v r; cbn [parse_value]; [done|].
  destruct (skip_ws s) as [|c s']; [done|].
  destruct (Byte.eqb c quote); [destruct (parse_string _) as [[]|]; [|done]; intros [= <- _]; auto|].
  destruct (Byte.eqb c "{").
  { destruct (skip_ws s') as [|c1 r1]; [by apply members_wf|].
    destruct (Byte.eqb c1 "}"); [intros [= <- _]; auto|by apply members_wf]. }
  destruct (Byte.eqb c "[").
  { destruct (skip_ws s') as [|c1 r1]; [by apply elements_wf|].
    destruct (Byte.eqb c1 "]"); [intros [= <- _]; auto|by apply elements_wf]. }
  do 3 (destruct (starts _ _); [intros [= <- _]; auto|]). destruct (_ || _); [|done].
  destruct (parse_number _) as [[t r']|] eqn:E; [|done]. apply parse_number_wf in E. intros [= <- _]. auto.
Qed.

(** ** Reading back what was written *)

(** What can follow a value in serialized text. *)
Definition ends (r : list byte) : Prop :=
  match r with c :: _ => c = ","%byte \/ c = "]"%byte \/ c = "}"%byte | [] => True end.

Lemma ends_stops r : ends r -> stops r.
Proof. destruct r as [|c r]; [done|]. by intros [->|[->| ->]]. Qed.

Lemma ends_skip r : ends r -> skip_ws r = r.
Proof. destruct r as [|c r]; [done|]. by intros [->|[->| ->]]. Qed.

Lemma elements_join pc n ts vs : Forall2 (fun t v => forall r, ends r -> (length (t ++ r) < n)%nat -> pc (t ++ r) = Some (v, r)) ts vs ->
  forall f acc r, ts <> [] -> (length (join ts ++ "]"%byte :: r) < n)%nat -> (length (join ts ++ "]"%byte :: r) < f)%nat ->
  elements pc f (join ts ++ "]"%byte :: r) acc = Some (JArr (acc ++ vs), r).
Proof.
  induction 1 as [|t v ts vs Hpc Hts IH]; intros [|f] acc r Hne Hn Hf; try done; [lia|]. cbn [elements].
  destruct Hts as [|t' v' ts vs Hpc' Hts].
  - cbn [join] in *. rewrite Hpc by (cbn; auto). done.
  - change (join (t :: t' :: ts)) with (t ++ ","%byte :: join (t' :: ts)) in *. rewrite <- app_assoc in *. cbn [app] in *.
    rewrite Hpc by (cbn; auto). cbn [skip_ws is_ws Byte.eqb]. rewrite length_app in Hn, Hf. cbn [length] in Hn, Hf.
    cbn -[join]. rewrite IH by (try done; lia). by rewrite <- app_assoc.
Qed.

Lemma members_join pc n ts es : Forall2 (fun t e => exists u, t = escape e.1 ++ ":"%byte :: u /\
      forall r, ends r -> (length (u ++ r) < n)%nat -> pc (u ++ r) = Some (e.2, r)) ts es ->
  forall f acc r, ts <> [] -> (length (join ts ++ "}"%byte :: r) < n)%nat -> (length (join ts ++ "}"%byte :: r) < f)%nat ->
  members pc f (join ts ++ "}"%byte :: r) acc = Some (JObj (acc ++ es), r).
Proof.
  induction 1 as [|t [k v] ts es (u & -> & Hpc) Hts IH]; intros [|f] acc r Hne Hn Hf; try done; [lia|].
  cbn [members fst snd] in *.
  set (rest := match ts with [] => "}"%byte :: r | _ => ","%byte :: join ts ++ "}"%byte :: r end).
  assert (join ((escape k ++ ":"%byte :: u) :: ts) ++ "}"%byte :: r = escape k ++ ":"%byte :: u ++ rest) as E.
  { unfold rest. destruct ts; cbn [join]; rewrite <- !app_assoc; cbn [app]; rewrite <- ?app_assoc; done. }
  rewrite E in *. assert (skip_ws (escape k ++ ":"%byte :: u ++ rest) = escape k ++ ":"%byte :: u ++ rest) as -> by done.
  rewrite parse_string_escape. cbn [skip_ws is_ws]. cbn [Byte.eqb].
  rewrite length_app in Hn, Hf. cbn [length] in Hn, Hf.
  assert (Hends : ends rest) by (unfold rest; destruct ts; cbn; auto).
  change (Byte.eqb ":" ":") with true. cbn [andb]. rewrite Hpc by (try done; lia). rewrite ends_skip by done.
  rewrite length_app in Hn, Hf. unfold rest in *. destruct Hts as [|t' e' ts es He Hts].
  - done.
  - cbn [length] in Hn, Hf. change (Byte.eqb "," ",") with true. cbn iota. rewrite IH by (try done; lia). by rewrite <- app_assoc.
Qed.

Section documents.
Context `{KeySort}.

(** What a stored document parses to: objects in key order throughout. *)
Fixpoint norm (v : JVal) : JVal :=
  match v with
  | JArr arr => JArr (map norm arr)
  | JObj obj => JObj (sort (map (fun e => (fst e, norm (snd e))) obj))
  | _ => v
  end.

Lemma number_head t : number_text t -> exists c t', t = c :: t' /\ (c = "-"%byte \/ is_digit c = true).
Proof.
  intros (n & ip & fp & -> & [Hi _ Hl _ _]). unfold num_text.
  destruct n; [by eexists _, _; split; [reflexivity|left]|].
  destruct Hl as [->|(c & t & -> & _)]; [by eexists _, _; split; [reflexivity|right]|].
  eexists _, _. split; [reflexivity|]. right. by apply Forall_inv in Hi.
Qed.

Lemma serialize_head v : json_wf v -> exists c t, serialize v = c :: t /\
  is_ws c = false /\ Byte.eqb c "]" = false /\ Byte.eqb c "}" = false.
Proof.
  destruct 1 as [|[]|t Ht|t| |]; cbn; try (by eexists _, _).
  destruct (number_head t Ht) as (c & t' & -> & [->|Hc]); [by eexists _, _|].
  exists c, t'. split; [done|]. by destruct c.
Qed.

Lemma parse_value_number f t r : number_text t -> ends r -> parse_value (S f) (t ++ r) = Some (JNum t, r).
Proof.
  intros Ht Hr. pose proof (parse_number_text t r Ht (ends_stops r Hr)) as E.
  destruct (number_head t Ht) as (c & t' & -> & Hc). cbn [parse_value app] in *.
  assert (skip_ws (c :: t' ++ r) = c :: t' ++ r) as ->.
  { destruct Hc as [->|Hc]; [done|]. by destruct c. }
  assert (Byte.eqb c quote = false /\ Byte.eqb c "{" = false /\ Byte.eqb c "[" = false /\
    starts (bytes "true") (c :: t' ++ r) = false /\ starts (bytes "false") (c :: t' ++ r) = false /\
    starts (bytes "null") (c :: t' ++ r) = false /\ Byte.eqb c "-" || Byte.eqb c "+" || is_digit c = true)
    as (-> & -> & -> & -> & -> & -> & ->).
  { destruct Hc as [->|Hc]; [done|]. by destruct c. }
  by rewrite E.
Qed.

Lemma join_head (ts : list (list byte)) t c u : t = c :: u -> exists w, join (t :: ts) = c :: w.
Proof. intros ->. destruct ts; cbn; eauto. Qed.

Lemma parse_value_arr f s : parse_value (S f) ("["%byte :: s) =
  match skip_ws s with
  | c1 :: r => if Byte.eqb c1 "]" then Some (JArr [], r) else elements (parse_value f) f (c1 :: r) []
  | [] => elements (parse_value f) f [] []
  end.
Proof. done. Qed.

Lemma parse_value_obj f s : parse_value (S f) ("{"%byte :: s) =
  match skip_ws s with
  | c1 :: r => if Byte.eqb c1 "}" then Some (JObj [], r) else members (parse_value f) f (c1 :: r) []
  | [] => members (parse_value f) f [] []
  end.
Proof. done. Qed.

Lemma parse_serialize v : json_wf v -> forall f r, ends r -> (length (serialize v ++ r) < f)%nat ->
  parse_value f (serialize v ++ r) = Some (norm v, r).
Proof.
  induction v as [|b|t|t|arr IH|obj IH] using JVal_ind'; intros Hwf [|f] r Hr Hf; try lia.
  - done.
  - by destruct b.
  - inversion_clear Hwf. by apply parse_value_number.
  - cbn [serialize parse_value]. assert (skip_ws (escape t ++ r) = escape t ++ r) as -> by done.
    unfold escape at 1. cbn [app]. change (Byte.eqb quote quote) with true. cbn iota.
    change (quote :: ((t ≫= escape_char) ++ [quote]) ++ r) with (escape t ++ r). by rewrite parse_string_escape.
  - inversion_clear Hwf as [| | | |? Hall|]. cbn [serialize norm app] in *. rewrite <- app_assoc in *. cbn [app length] in *.
    rewrite parse_value_arr. destruct arr as [|v arr]; [done|].
    destruct (serialize_head v (Forall_inv Hall)) as (c & u & Ev & Hws & Hc & _).
    destruct (join_head (map serialize arr) _ c u Ev) as [w Ew].
    change (map serialize (v :: arr)) with (serialize v :: map serialize arr) in *.
    rewrite Ew. cbn [app skip_ws]. rewrite Hws, Hc.
    change (c :: w ++ "]"%byte :: r) with ((c :: w) ++ "]"%byte :: r). rewrite <- Ew.
    apply (elements_join _ f _ (norm v :: map norm arr)); [|done|lia..].
    change (norm v :: map norm arr) with (map norm (v :: arr)). change (serialize v :: map serialize arr) with (map serialize (v :: arr)).
    apply Forall2_fmap, Forall_Forall2_diag. rewrite Forall_forall in IH, Hall |- *. intros x Hx r' Hr' Hl. by apply IH; [|apply Hall| |].
  - inversion_clear Hwf as [| | | | |? Hall]. cbn [serialize norm] in *. rewrite !sort_keys_only in *. rewrite map_map in *. cbn [fst snd] in *.
    rewrite <- (sort_perm obj) in IH, Hall. set (es := sort obj) in *. clearbody es.
    cbn [app] in *. rewrite <- app_assoc in *. cbn [app length] in *. rewrite parse_value_obj.
    destruct es as [|e es]; [done|].
    destruct (join_head (map (fun x => escape x.1 ++ ":"%byte :: serialize x.2) es) (escape e.1 ++ ":"%byte :: serialize e.2) quote _ eq_refl) as [w Ew].
    cbn [map] in *. rewrite Ew. cbn [app]. change (skip_ws (quote :: ?x)) with (quote :: x). change (Byte.eqb quote "}") with false. cbn iota.
    change (quote :: w ++ "}"%byte :: r) with ((quote :: w) ++ "}"%byte :: r). rewrite <- Ew.
    apply (members_join _ f _ ((e.1, norm e.2) :: map (fun e => (e.1, norm e.2)) es)); [|done|lia..].
    apply (Forall2_fmap_2 (fun x : list byte * JVal => escape x.1 ++ ":"%byte :: serialize x.2) (fun e => (e.1, norm e.2)) _ (e :: es) (e :: es)), Forall_Forall2_diag.
    rewrite Forall_forall in IH, Hall |- *. intros x Hx. exists (serialize x.2). split; [done|].
    intros r' Hr' Hl. by apply IH; [|apply Hall| |].
Qed.

Lemma parse_canonical v : json_wf v -> parse (serialize v) = Some (norm v).
Proof.
  intros Hv. unfold parse. pose proof (parse_serialize v Hv (S (length (serialize v))) [] I) as E.
  rewrite app_nil_r in E. by rewrite E by lia.
Qed.

(** Sorted permutations of members with distinct keys are unique. *)
Lemma sorted_unique {A} (l l' : list (list byte * A)) :
  StronglySorted (fun a b => key_leb a.1 b.1 = true) l -> StronglySorted (fun a b => key_leb a.1 b.1 = true) l' ->
  NoDup l.*1 -> l ≡ₚ l' -> l = l'.
Proof.
  intros Hl; revert l'; induction Hl as [|x l Hl IH Hx]; intros l' Hl' Hnd Hp.
  { by apply Permutation_nil_l in Hp. }
  destruct Hl' as [|y l' Hl' Hy]; [by apply Permutation_nil_r in Hp|].
  assert (x = y) as ->.
  { assert (Hxin : x ∈ y :: l') by (rewrite <- Hp; by left). assert (Hyin : y ∈ x :: l) by (rewrite Hp; by left).
    apply elem_of_cons in Hxin as [->|Hxin]; [done|]. apply elem_of_cons in Hyin as [->|Hyin]; [done|].
    rewrite Forall_forall in Hx, Hy. specialize (Hx y Hyin). specialize (Hy x Hxin). cbn in Hx, Hy.
    cbn in Hnd. apply NoDup_cons in Hnd as [Hni _]. destruct Hni.
    apply list_elem_of_fmap. exists y. split; [|done].
    apply key_leb_le in Hx as [Hx|]; [|done]. unfold key_leb in Hy. by rewrite Hx in Hy. }
  cbn in Hnd. apply NoDup_cons in Hnd as [_ Hnd]. f_equal. apply IH; [done..|]. by apply (Permutation_cons_inv (a:=y)).
Qed.

Lemma sort_unique {A} (l l' : list (list byte * A)) : NoDup l.*1 -> l ≡ₚ l' -> sort l = sort l'.
Proof.
  intros Hnd Hp. apply sorted_unique; [apply sort_sorted..|by rewrite sort_perm|by rewrite !sort_perm].
Qed.

(** Documents stored as the same tree are the same. *)
Lemma norm_same v : forall v', norm v = norm v' -> same v v'.
Proof.
  induction v as [|b|t|t|arr IH|obj IH] using JVal_ind'; intros [|b'|t'|t'|arr'|obj'] E; cbn in E; try done;
    [by injection E as ->..| |].
  - injection E as E. constructor. revert arr' E. induction IH as [|v arr Hv _ IHarr]; intros [|v' arr'] E; try done.
    cbn in E. injection E as E1 E2. constructor; auto.
  - injection E as E. set (g := fun e : list byte * JVal => (e.1, norm e.2)) in *.
    assert (Hp : map g obj' ≡ₚ map g obj) by (by rewrite <- (sort_perm (map g obj)), E, sort_perm).
    apply Permutation_map_inv in Hp as (obj1 & Eg & Hp). apply (sm_obj _ obj1); [done|].
    rewrite Hp in IH. clear -IH Eg. revert obj' Eg. induction IH as [|e obj He _ IHobj]; intros [|e' obj'] Eg; try done.
    cbn in Eg. injection Eg as E1 E2 E3. constructor; [|auto]. split; [done|]. apply He. done.
Qed.

(** The same document with distinct keys is stored as the same bytes. *)
Lemma same_serialize v : distinct v -> forall v', same v v' -> serialize v = serialize v'.
Proof.
  induction v as [|b|t|t|arr IH|obj IH] using JVal_ind'; intros Hd v' Hs; inversion Hs as [| | | |? arr' Hall|? obj1 obj' Hp Hall]; subst; try done.
  - inversion_clear Hd as [| | | |? Hda|]. cbn. do 2 f_equal. f_equal. clear Hs. induction Hall as [|x y l l' Hxy _ IHl]; [done|].
    apply Forall_cons in IH as [Hx IH], Hda as [Hdx Hda]. cbn. f_equal; auto.
  - inversion_clear Hd as [| | | | |? Hnd Hda]. cbn. set (g := fun e : list byte * JVal => (e.1, serialize e.2)).
    assert (map g obj1 = map g obj') as Eg.
    { rewrite Hp in IH, Hda. clear -IH Hda Hall. induction Hall as [|x y l l' [Hk Hxy] _ IHl]; [done|].
      apply Forall_cons in IH as [Hx IH], Hda as [Hdx Hda]. cbn. f_equal; [|auto]. unfold g. rewrite Hk. f_equal. auto. }
    rewrite (sort_unique (map g obj) (map g obj')); [done| |rewrite <- Eg; by apply Permutation_map].
    assert (Ek : (map g obj).*1 = obj.*1) by (unfold g; rewrite <- list_fmap_compose; by apply list_fmap_ext). by rewrite Ek.
Qed.

Lemma same_norm v : same v (norm v).
Proof.
  induction v as [|b|t|t|arr IH|obj IH] using JVal_ind'; cbn; [constructor..| |].
  - constructor. induction IH; constructor; auto.
  - rewrite sort_keys_only. apply (sm_obj _ (sort obj)); [by rewrite sort_perm|].
    rewrite <- (sort_perm obj) in IH. induction IH; constructor; auto.
Qed.

Lemma parse_wf s v : parse s = Some v -> json_wf v.
Proof.
  unfold parse. destruct (parse_value _ s) as [[w r]|] eqn:E; [|done]. apply parse_value_wf in E.
  destruct (skip_ws r); [|done]. by intros [= <-].
Qed.

(** The stored form of a JSON document reads back as the document.  Whatever text is
    parsed, its canonical form parses, with the members of each object in key order and
    nothing else changed; if no object repeats a key the canonical form is its own
    canonical form; and the parser's answer does not depend on the fuel it is given. *)
Theorem canonical_roundtrip s v :
  parse s = Some v ->
  canonical s = Some (serialize v) /\
  parse (serialize v) = Some (norm v) /\ same v (norm v) /\
  (distinct v -> canonical (serialize v) = Some (serialize v)) /\
  (forall f, (length s < f)%nat -> parse_value f s = parse_value (S (length s)) s).
Proof.
  intros E. pose proof (parse_wf s v E) as Hwf. pose proof (parse_canonical v Hwf) as Ec.
  split; [by unfold canonical; rewrite E|]. split; [done|]. split; [apply same_norm|]. split.
  - intros Hd. unfold canonical. rewrite Ec. f_equal. symmetry. apply same_serialize; [done|apply same_norm].
  - intros f Hf. apply parse_value_fuel; lia.
Qed.

End documents.

(** ** Two library sorts *)

Definition member_leb {A} (a b : list byte * A) : bool := key_leb a.1 b.1.

Lemma member_leb_total {A} (a b : list byte * A) : member_leb a b = false -> member_leb b a = true.
Proof. unfold member_leb. rewrite key_leb_false, key_leb_le. auto. Qed.

Lemma member_leb_trans {A} (a b c : list byte * A) : member_leb a b = true -> member_leb b c = true -> member_leb a c = true.
Proof. apply key_leb_trans. Qed.

Lemma isort_keys_only {A B} (f : A -> B) (l : list (list byte * A)) :
  isort member_leb (map (fun e => (fst e, f (snd e))) l) = map (fun e => (fst e, f (snd e))) (isort member_leb l).
Proof.
  induction l as [|e l IH]; [done|]. cbn. rewrite IH. generalize (isort member_leb l). intros k.
  induction k as [|d k IHk]; cbn; [done|]. unfold member_leb in *. cbn [fst]. destruct (key_leb e.1 d.1); cbn; [done|by rewrite IHk].
Qed.

(** Equal keys in the order they were written, and in the opposite order. *)
Definition stable_sort : KeySort.
Proof.
  refine {| sort A l := isort member_leb l |}.
  - intros A l. apply isort_perm.
  - intros A l. apply isort_ordered; [apply member_leb_total|apply member_leb_trans].
  - intros A B f l. apply isort_keys_only.
Defined.

Definition reversing_sort : KeySort.
Proof.
  refine {| sort A l := isort member_leb (rev l) |}.
  - intros A l. rewrite isort_perm. symmetry. apply Permutation_rev.
  - intros A l. apply isort_ordered; [apply member_leb_total|apply member_leb_trans].
  - intros A B f l. rewrite <- map_rev. apply isort_keys_only.
Defined.

(** ** Documents of the test suite's kind *)

Definition text (l : list string) : list byte := concat (map bytes l).
Definition q : string := String.string_of_list_byte [quote].

(** The object with members b, a bool and an array of numbers, and a, null, spaced out. *)
Definition doc1 : list byte :=
  text ["{ "; q; "b"; q; " : [ 1.50, -0, +007 , true ] ,"; q; "a"; q; ":null }"]%string.
Definition doc2 : list byte :=
  text ["{"; q; "a"; q; ":null,"; q; "b"; q; ":[1.5,0,7,true]}"]%string.

Definition doc_value : JVal :=
  JObj [(bytes "b", JArr [JNum (bytes "1.5"); JNum (bytes "0"); JNum (bytes "7"); JBool true]); (bytes "a", JNull)].

Lemma doc_distinct : distinct doc_value.
Proof. constructor; [by apply (bool_decide_unpack _)|]. repeat constructor. Qed.

Lemma canonical_roundtrip_witness :
  @canonical stable_sort doc1 = Some doc2 /\ @canonical stable_sort doc2 = Some doc2.
Proof.
  pose proof (@canonical_roundtrip stable_sort doc1 doc_value) as (E1 & _ & _ & E2 & _); [vm_compute; reflexivity|].
  specialize (E2 doc_distinct). assert (Es : @serialize stable_sort doc_value = doc2) by (vm_compute; reflexivity).
  rewrite Es in E1, E2. done.
Defined.


Lemma number_text_exact_witness :
  option_map fst (parse_number (bytes "-007.50")) = option_map fst (parse_number (bytes "-7.5")).
Proof.
  apply (number_text_exact _ _ true (bytes "007") (bytes "50") [] true (bytes "7") (bytes "5") []); vm_compute; reflexivity.
Defined.

(** With a repeated key the stored bytes depend on the library: the comparison orders by
    key only, and the sort is not a stable one. *)
Example repeated_key_undetermined :
  let s := text ["{"; q; "a"; q; ":1,"; q; "a"; q; ":2}"]%string in
  @canonical stable_sort s = Some s /\
  @canonical reversing_sort s = Some (text ["{"; q; "a"; q; ":2,"; q; "a"; q; ":1}"]%string).
Proof. vm_compute. done. Qed.
