(* ===== verification/Protocol.v ===== *)
(** Protocol: the client-server wire protocol (query/wire/Protocol.hpp): the request and
    response codecs with their per-frame CRC, and the decimal balances of the arithmetic
    operations.

    A request or a response is a tagged union: the source's struct holds the fields of
    every kind, and the codecs write and fill those of the message's own kind.  The
    position of a [ByteReader] is the suffix left to read; [rd.consumed() == body.size()]
    says that nothing is left.  The fixed-width encoders and the CRC of the source are the
    ones of [Codec] and [RaftWire]. *)

From Stdlib Require Import ZArith Lia Strings.Byte.
From stdpp Require Import base list numbers.
From S2P Require Import Prelude Codec Mvcc Txn RaftWire.
#[local] Open Scope Z_scope.

(** ** Messages *)

Inductive SubmitOp := PutOp | Transfer | Increment.

Record OpParam := mkParam { p_key : Key; p_value : Value; p_amount : Z }.

Definition no_param : OpParam := mkParam [] [] 0.

Inductive StepKind := Point | RangeStep.

Record Step := mkStep { st_kind : StepKind; st_key : Key; st_hi : Key; st_hi_unbounded : bool }.

Inductive RequestBody :=
| Ping
| Submit (submit_key : Z) (op : SubmitOp) (params : list OpParam)
| QueryReq (level : Level) (snapshot_version max_lag session : Z) (steps : list Step)
| SqlExec (submit_key : Z) (sql : list byte).

Record Request := mkRequest { req_id : Z; req_body : RequestBody }.

Record PointWire := mkPoint { pw_key : Key; pw_present : bool; pw_value : Value }.

Record RangeWire := mkRangeWire { rw_lo : Key; rw_hi : Key; rw_hi_unbounded : bool; rw_rows : list (Key * Value) }.

Inductive ResponseBody :=
| Pong
| SubmitOk (status commit_version : Z) (result : list byte) (writes : list (Key * Value))
| QueryOk (level : Level) (served_version : Z) (points : list PointWire) (ranges : list RangeWire)
| ErrorResp (error : list byte)
| SqlResult (ok : bool) (error : list byte) (affected rows : Z) (rows_blob : list byte).

Record Response := mkResponse { resp_id : Z; resp_body : ResponseBody }.

(** ** Tags *)

Definition kind_of_request (b : RequestBody) : Z :=
  match b with Ping => 0 | Submit _ _ _ => 1 | QueryReq _ _ _ _ _ => 2 | SqlExec _ _ => 7 end.

Definition kind_of_response (b : ResponseBody) : Z :=
  match b with Pong => 3 | SubmitOk _ _ _ _ => 4 | QueryOk _ _ _ _ => 5 | ErrorResp _ => 6 | SqlResult _ _ _ _ _ => 8 end.

Definition valid_msg_kind (k : Z) : bool := k <=? 8.

Definition op_tag (op : SubmitOp) : Z := match op with PutOp => 0 | Transfer => 1 | Increment => 2 end.

Definition op_of_tag (t : Z) : option SubmitOp :=
  if t =? 0 then Some PutOp else if t =? 1 then Some Transfer else if t =? 2 then Some Increment else None.

Definition level_tag (l : Level) : Z :=
  match l with StrictSerializable => 0 | Snapshot => 1 | BoundedStaleness => 2 | ReadYourWrites => 3 end.

Definition level_of_tag (t : Z) : option Level :=
  if t =? 0 then Some StrictSerializable else if t =? 1 then Some Snapshot
  else if t =? 2 then Some BoundedStaleness else if t =? 3 then Some ReadYourWrites else None.

Definition step_tag (k : StepKind) : Z := match k with Point => 0 | RangeStep => 1 end.

Definition step_of_tag (t : Z) : option StepKind :=
  if t =? 0 then Some Point else if t =? 1 then Some RangeStep else None.

(** ** Encoders *)

Definition put_u8 (v : Z) : list byte := [bZ v].
Definition put_bool (b : bool) : list byte := put_u8 (if b then 1 else 0).
Definition put_i64 (v : Z) : list byte := put_u64 (u64 v).
Definition put_str (s : list byte) : list byte := put_u32 (u32 (Zlen s)) ++ s.

(** A count and the elements. *)
Definition put_list {A} (f : A -> list byte) (l : list A) : list byte :=
  put_u32 (u32 (Zlen l)) ++ (l ≫= f).

Definition put_param (p : OpParam) : list byte := put_str (p_key p) ++ put_str (p_value p) ++ put_i64 (p_amount p).

Definition put_step (s : Step) : list byte :=
  put_u8 (step_tag (st_kind s)) ++ put_str (st_key s) ++ put_str (st_hi s) ++ put_bool (st_hi_unbounded s).

Definition put_row (kv : Key * Value) : list byte := put_str kv.1 ++ put_str kv.2.

Definition put_point (p : PointWire) : list byte := put_str (pw_key p) ++ put_bool (pw_present p) ++ put_str (pw_value p).

Definition put_range (r : RangeWire) : list byte :=
  put_str (rw_lo r) ++ put_str (rw_hi r) ++ put_bool (rw_hi_unbounded r) ++ put_list put_row (rw_rows r).

Definition seal_crc (out : list byte) : list byte := out ++ put_u32 (Wire.crc32 out).

Definition request_fields (b : RequestBody) : list byte :=
  match b with
  | Ping => []
  | Submit k op params => put_u64 k ++ put_u8 (op_tag op) ++ put_list put_param params
  | QueryReq l sv ml se steps => put_u8 (level_tag l) ++ put_u64 sv ++ put_u64 ml ++ put_u64 se ++ put_list put_step steps
  | SqlExec k sql => put_u64 k ++ put_str sql
  end.

Definition encode_request (r : Request) : list byte :=
  seal_crc (put_u8 (kind_of_request (req_body r)) ++ put_u64 (req_id r) ++ request_fields (req_body r)).

Definition response_fields (b : ResponseBody) : list byte :=
  match b with
  | Pong => []
  | SubmitOk st cv res ws => put_u8 st ++ put_u64 cv ++ put_str res ++ put_list put_row ws
  | QueryOk l sv pts rgs => put_u8 (level_tag l) ++ put_u64 sv ++ put_list put_point pts ++ put_list put_range rgs
  | ErrorResp e => put_str e
  | SqlResult ok e a n blob => put_bool ok ++ put_str e ++ put_u64 a ++ put_u64 n ++ put_str blob
  end.

Definition encode_response (r : Response) : list byte :=
  seal_crc (put_u8 (kind_of_response (resp_body r)) ++ put_u64 (resp_id r) ++ response_fields (resp_body r)).

(** ** [ByteReader] *)

Definition rd_u8 (s : list byte) : option (Z * list byte) :=
  match s with b :: s' => Some (Zb b, s') | [] => None end.

Definition rd_u32 (s : list byte) : option (Z * list byte) :=
  if (length s <? 4)%nat then None else Some (get_u32 s, drop 4 s).

Definition rd_u64 (s : list byte) : option (Z * list byte) :=
  if (length s <? 8)%nat then None else Some (get_u64 s, drop 8 s).

(** [static_cast<std::int64_t>] of a 64-bit word. *)
Definition i64 (z : Z) : Z := let w := u64 z in if w <? 2 ^ 63 then w else w - 2 ^ 64.

Definition rd_i64 (s : list byte) : option (Z * list byte) := '(v, s) ← rd_u64 s; Some (i64 v, s).

Definition rd_str (s : list byte) : option (list byte * list byte) :=
  '(len, s) ← rd_u32 s;
  if Zlen s <? len then None else Some (take (Z.to_nat len) s, drop (Z.to_nat len) s).

Definition rd_bool (s : list byte) : option (bool * list byte) := '(v, s) ← rd_u8 s; Some (negb (v =? 0), s).

Fixpoint rd_many {A} (f : list byte -> option (A * list byte)) (n : nat) (s : list byte) : option (list A * list byte) :=
  match n with
  | O => Some ([], s)
  | S n' => '(x, s) ← f s; '(l, s) ← rd_many f n' s; Some (x :: l, s)
  end.

Definition rd_list {A} (f : list byte -> option (A * list byte)) (s : list byte) : option (list A * list byte) :=
  '(n, s) ← rd_u32 s; rd_many f (Z.to_nat n) s.

Definition open_crc (frame : list byte) : option (list byte) :=
  if (length frame <? 4)%nat then None
  else
    let body_len := (length frame - 4)%nat in
    let body := take body_len frame in
    if Wire.crc32 body =? get_u32 (drop body_len frame) then Some body else None.

(** [rd.consumed() == body.size()] *)
Definition all_read {A} (x : A) (s : list byte) : option A := match s with [] => Some x | _ => None end.

Definition rd_param (s : list byte) : option (OpParam * list byte) :=
  '(k, s) ← rd_str s; '(v, s) ← rd_str s; '(a, s) ← rd_i64 s; Some (mkParam k v a, s).

Definition rd_step (s : list byte) : option (Step * list byte) :=
  '(t, s) ← rd_u8 s; sk ← step_of_tag t;
  '(k, s) ← rd_str s; '(hi, s) ← rd_str s; '(hu, s) ← rd_bool s; Some (mkStep sk k hi hu, s).

Definition rd_row (s : list byte) : option ((Key * Value) * list byte) :=
  '(k, s) ← rd_str s; '(v, s) ← rd_str s; Some ((k, v), s).

Definition rd_point (s : list byte) : option (PointWire * list byte) :=
  '(k, s) ← rd_str s; '(p, s) ← rd_bool s; '(v, s) ← rd_str s; Some (mkPoint k p v, s).

Definition rd_range (s : list byte) : option (RangeWire * list byte) :=
  '(lo, s) ← rd_str s; '(hi, s) ← rd_str s; '(hu, s) ← rd_bool s; '(rows, s) ← rd_list rd_row s;
  Some (mkRangeWire lo hi hu rows, s).

Definition rd_request (kind : Z) (s : list byte) : option RequestBody :=
  if kind =? 0 then all_read Ping s
  else if kind =? 1 then
    '(k, s) ← rd_u64 s; '(t, s) ← rd_u8 s; op ← op_of_tag t; '(ps, s) ← rd_list rd_param s; all_read (Submit k op ps) s
  else if kind =? 2 then
    '(t, s) ← rd_u8 s; l ← level_of_tag t;
    '(sv, s) ← rd_u64 s; '(ml, s) ← rd_u64 s; '(se, s) ← rd_u64 s; '(steps, s) ← rd_list rd_step s;
    all_read (QueryReq l sv ml se steps) s
  else if kind =? 7 then '(k, s) ← rd_u64 s; '(sql, s) ← rd_str s; all_read (SqlExec k sql) s
  else None.

Definition decode_request (frame : list byte) : option Request :=
  s ← open_crc frame;
  '(kind, s) ← rd_u8 s;
  if negb (valid_msg_kind kind) then None
  else '(id, s) ← rd_u64 s; b ← rd_request kind s; Some (mkRequest id b).

(** [r.writes.emplace(k, v)] for each row: a key already there keeps its value. *)
Fixpoint map_emplace (k : Key) (v : Value) (m : list (Key * Value)) : list (Key * Value) :=
  match m with
  | [] => [(k, v)]
  | (k', v') :: m' =>
      if key_ltb k' k then (k', v') :: map_emplace k v m'
      else if key_eqb k' k then m
      else (k, v) :: m
  end.

Definition rd_response (kind : Z) (s : list byte) : option ResponseBody :=
  if kind =? 3 then all_read Pong s
  else if kind =? 4 then
    '(st, s) ← rd_u8 s; '(cv, s) ← rd_u64 s; '(res, s) ← rd_str s; '(rows, s) ← rd_list rd_row s;
    all_read (SubmitOk st cv res (fold_left (fun m kv => map_emplace kv.1 kv.2 m) rows [])) s
  else if kind =? 5 then
    '(t, s) ← rd_u8 s; l ← level_of_tag t;
    '(sv, s) ← rd_u64 s; '(pts, s) ← rd_list rd_point s; '(rgs, s) ← rd_list rd_range s;
    all_read (QueryOk l sv pts rgs) s
  else if kind =? 6 then '(e, s) ← rd_str s; all_read (ErrorResp e) s
  else if kind =? 8 then
    '(ok, s) ← rd_bool s; '(e, s) ← rd_str s; '(a, s) ← rd_u64 s; '(n, s) ← rd_u64 s; '(blob, s) ← rd_str s;
    all_read (SqlResult ok e a n blob) s
  else None.

Definition decode_response (frame : list byte) : option Response :=
  s ← open_crc frame;
  '(kind, s) ← rd_u8 s;
  if negb (valid_msg_kind kind) then None
  else '(id, s) ← rd_u64 s; b ← rd_response kind s; Some (mkResponse id b).

(** ** Balances *)

Fixpoint low_digits (fuel : nat) (mag : Z) : list byte :=
  match fuel with
  | O => []
  | S fuel' => if 0 <? mag then bZ (48 + mag mod 10) :: low_digits fuel' (mag / 10) else []
  end.

(** A 64-bit magnitude has at most twenty digits. *)
Definition encode_balance (v : Z) : list byte :=
  if v =? 0 then ["0"%byte]
  else
    let neg := v <? 0 in
    let mag := if neg then u64 (u64 (Z.lnot (u64 v)) + 1) else u64 v in
    (if neg then ["-"%byte] else []) ++ rev (low_digits 20 mag).

Fixpoint parse_mag (s : list byte) (mag : Z) : option Z :=
  match s with
  | [] => Some mag
  | c :: s' => if (Zb c <? 48) || (57 <? Zb c) then None else parse_mag s' (u64 (mag * 10 + (Zb c - 48)))
  end.

(** The negation of the least integer, undefined in the source, wraps here. *)
Definition parse_balance (v : option Value) : Z :=
  match v with
  | Some ((c :: t) as s) =>
      let '(neg, ds) := if Byte.eqb c "-" then (true, t) else (false, s) in
      match parse_mag ds 0 with
      | None => 0
      | Some mag => if neg then i64 (- i64 mag) else i64 mag
      end
  | _ => 0
  end.

Lemma i64_id z : - 2 ^ 63 <= z < 2 ^ 63 -> i64 z = z.
Proof.
  intros Hz. unfold i64. destruct (decide (0 <= z)).
  - rewrite u64_id by lia. destruct (Z.ltb_spec z (2 ^ 63)); lia.
  - assert (u64 z = z + 2 ^ 64) as -> by (unfold u64; rewrite <- (Z_mod_plus_full z 1), Z.mod_small by lia; lia).
    destruct (Z.ltb_spec (z + 2 ^ 64) (2 ^ 63)); lia.
Qed.

Lemma i64_of_u64 z : - 2 ^ 63 <= z < 2 ^ 63 -> i64 (u64 z) = z.
Proof.
  intros Hz. rewrite <- (i64_id z Hz) at 2. unfold i64. by rewrite (u64_id (u64 z)) by apply u64_range.
Qed.

Lemma low_digit m : Zb (bZ (48 + m mod 10)) = 48 + m mod 10.
Proof. pose proof (Z.mod_pos_bound m 10). rewrite Zb_bZ, Z.mod_small by lia. done. Qed.

Lemma parse_mag_app a b m : parse_mag (a ++ b) m = parse_mag a m ≫= parse_mag b.
Proof. revert m; induction a as [|c a IH]; intros m; cbn; [done|]. destruct (_ || _); [done|apply IH]. Qed.

Lemma parse_low_digits fuel : forall m, 0 <= m < 10 ^ Z.of_nat fuel -> m < 2 ^ 64 ->
  parse_mag (rev (low_digits fuel m)) 0 = Some m.
Proof.
  induction fuel as [|fuel IH]; intros m Hm Hw; cbn [low_digits].
  - cbn in *. f_equal. lia.
  - destruct (Z.ltb_spec 0 m); [|cbn; f_equal; lia]. cbn [rev]. rewrite parse_mag_app.
    assert (0 <= m / 10 < 10 ^ Z.of_nat fuel).
    { split; [apply Z.div_pos; lia|]. apply Z.div_lt_upper_bound; [lia|]. rewrite Nat2Z.inj_succ, Z.pow_succ_r in Hm by lia. lia. }
    pose proof (Z.div_mod m 10). pose proof (Z.mod_pos_bound m 10).
    rewrite IH by lia. cbn. rewrite low_digit.
    destruct (Z.ltb_spec (48 + m mod 10) 48); [lia|]. destruct (Z.ltb_spec 57 (48 + m mod 10)); [lia|]. cbn.
    f_equal. rewrite u64_id; lia.
Qed.

Lemma low_digits_head m fuel : (0 < fuel)%nat -> 0 < m -> exists c t, rev (low_digits fuel m) = c :: t /\ Byte.eqb c "-" = false.
Proof.
  revert m; induction fuel as [|fuel IH]; intros m Hf Hm; [lia|]. cbn [low_digits].
  rewrite (proj2 (Z.ltb_lt _ _) Hm). cbn [rev].
  destruct (low_digits fuel (m / 10)) as [|d l] eqn:E.
  - cbn. eexists _, _. split; [reflexivity|]. destruct (Byte.eqb _ _) eqn:Eb; [|done].
    apply Byte.byte_dec_bl in Eb. pose proof (low_digit m) as Hl. rewrite Eb in Hl. change (Zb "-") with 45 in Hl.
    pose proof (Z.mod_pos_bound m 10). lia.
  - destruct fuel as [|fuel]; [done|]. destruct (IH (m / 10)) as (c & t & Ec & Hc); [lia| |].
    { cbn [low_digits] in E. by destruct (Z.ltb_spec 0 (m / 10)). }
    rewrite E in Ec. rewrite Ec. cbn. eauto.
Qed.

Lemma balance_back x : - 2 ^ 63 < x < 2 ^ 63 -> parse_balance (Some (encode_balance x)) = x.
Proof.
  intros Hx. unfold encode_balance. destruct (Z.eqb_spec x 0) as [->|Hne]; [done|].
  destruct (Z.ltb_spec x 0) as [Hneg|Hpos].
  - assert (u64 (u64 (Z.lnot (u64 x)) + 1) = - x) as ->.
    { unfold Z.lnot, u64 at 2. unfold u64. rewrite Zplus_mod_idemp_l. replace (Z.pred (- (x mod 2 ^ 64)) + 1) with (- (x mod 2 ^ 64)) by lia.
      rewrite <- (Z_mod_plus_full x 1), (Z.mod_small (x + 1 * 2 ^ 64)) by lia.
      rewrite <- (Z_mod_plus_full _ 1), Z.mod_small by lia. lia. }
    cbn [app parse_balance]. change (Byte.eqb "-" "-") with true. cbn iota.
    rewrite parse_low_digits by (cbn; lia). rewrite !i64_id by (rewrite ?i64_id; lia). lia.
  - rewrite u64_id by lia. cbn [app]. destruct (low_digits_head x 20) as (c & t & E & Hc); [lia..|].
    pose proof (parse_low_digits 20 x) as Hp. rewrite E in Hp |- *. cbn [parse_balance]. rewrite Hc, Hp by (cbn; lia).
    apply i64_id. lia.
Qed.

(** A balance survives storage: for every 64-bit integer but the least, whose negation
    overflows, the stored decimal parses back to it. *)
Theorem balance_roundtrip x : - 2 ^ 63 < x < 2 ^ 63 -> parse_balance (Some (encode_balance x)) = x.
Proof. apply balance_back. Qed.

(** ** Reading what was written *)

Definition w64 (v : Z) : Prop := 0 <= v < 2 ^ 64.
Definition str_fits (s : list byte) : Prop := Zlen s < 2 ^ 32.
Definition list_fits {A} (P : A -> Prop) (l : list A) : Prop := Zlen l < 2 ^ 32 /\ Forall P l.

Definition param_wf (p : OpParam) : Prop :=
  str_fits (p_key p) /\ str_fits (p_value p) /\ - 2 ^ 63 <= p_amount p < 2 ^ 63.
Definition step_wf (s : Step) : Prop := str_fits (st_key s) /\ str_fits (st_hi s).
Definition row_wf (kv : Key * Value) : Prop := str_fits kv.1 /\ str_fits kv.2.
Definition point_wf (p : PointWire) : Prop := str_fits (pw_key p) /\ str_fits (pw_value p).
Definition range_wf (r : RangeWire) : Prop := str_fits (rw_lo r) /\ str_fits (rw_hi r) /\ list_fits row_wf (rw_rows r).

(** The values the fields of the structs can hold and the length prefixes can carry. *)
Definition request_wf (r : Request) : Prop :=
  w64 (req_id r) /\
  match req_body r with
  | Ping => True
  | Submit k _ ps => w64 k /\ list_fits param_wf ps
  | QueryReq _ sv ml se steps => w64 sv /\ w64 ml /\ w64 se /\ list_fits step_wf steps
  | SqlExec k sql => w64 k /\ str_fits sql
  end.

Definition response_wf (r : Response) : Prop :=
  w64 (resp_id r) /\
  match resp_body r with
  | Pong => True
  | SubmitOk st cv res ws => 0 <= st < 256 /\ w64 cv /\ str_fits res /\ list_fits row_wf ws /\ key_sorted ws
  | QueryOk _ sv pts rgs => w64 sv /\ list_fits point_wf pts /\ list_fits range_wf rgs
  | ErrorResp e => str_fits e
  | SqlResult _ e a n blob => str_fits e /\ w64 a /\ w64 n /\ str_fits blob
  end.

(** [f] reads [x] back from the bytes [p], whatever follows them. *)
Definition reads {A} (f : list byte -> option (A * list byte)) (p : list byte) (x : A) : Prop :=
  forall r, f (p ++ r) = Some (x, r).

Lemma reads_u8 v : 0 <= v < 256 -> reads rd_u8 (put_u8 v) v.
Proof. intros Hv r. cbn. by rewrite Zb_bZ, Z.mod_small. Qed.

Lemma reads_bool b : reads rd_bool (put_bool b) b.
Proof. intros r. by destruct b. Qed.

Lemma reads_u32 v : 0 <= v < 2 ^ 32 -> reads rd_u32 (put_u32 v) v.
Proof.
  intros Hv r. unfold rd_u32. rewrite length_app, length_put_u32, (proj2 (Nat.ltb_ge _ _)) by lia.
  rewrite get_put_u32, u32_id by done. done.
Qed.

Lemma reads_word v : w64 v -> reads rd_u64 (put_u64 v) v.
Proof.
  intros Hv r. unfold rd_u64. rewrite length_app, length_put_u64, (proj2 (Nat.ltb_ge _ _)) by lia.
  rewrite get_put_u64, u64_id by done. done.
Qed.

Lemma reads_i64 v : - 2 ^ 63 <= v < 2 ^ 63 -> reads rd_i64 (put_i64 v) v.
Proof.
  intros Hv r. unfold rd_i64, put_i64. rewrite (reads_word (u64 v) (u64_range v)). cbn. by rewrite i64_of_u64.
Qed.

Lemma reads_str s : str_fits s -> reads rd_str (put_str s) s.
Proof.
  intros Hs r. unfold rd_str, put_str, str_fits in *. pose proof (Zlen_nonneg s). rewrite <- app_assoc, u32_id by lia.
  rewrite (reads_u32 (Zlen s)) by lia. cbn. rewrite Zlen_app. pose proof (Zlen_nonneg r).
  destruct (Z.ltb_spec (Zlen s + Zlen r) (Zlen s)); [lia|]. unfold Zlen at 1 2. rewrite Nat2Z.id.
  by rewrite take_app_length, drop_app_length.
Qed.

Lemma reads_each {A} f (g : A -> list byte) l : Forall (fun x => reads f (g x) x) l -> reads (rd_many f (length l)) (l ≫= g) l.
Proof.
  induction 1 as [|x l Hx _ IH]; intros r; [done|]. cbn [length rd_many mbind list_bind].
  rewrite <- app_assoc, Hx. cbn. change (list_bind A byte g l) with (l ≫= g). by rewrite IH.
Qed.

Lemma reads_list {A} f (g : A -> list byte) (P : A -> Prop) l :
  (forall x, P x -> reads f (g x) x) -> list_fits P l -> reads (rd_list f) (put_list g l) l.
Proof.
  intros Hf [Hn Hl] r. unfold rd_list, put_list. pose proof (Zlen_nonneg l). rewrite <- app_assoc, u32_id by lia.
  rewrite (reads_u32 (Zlen l)) by lia. cbn. unfold Zlen. rewrite Nat2Z.id. apply reads_each.
  clear Hn H. induction Hl; constructor; auto.
Qed.

Lemma op_tag_inv op : op_of_tag (op_tag op) = Some op.
Proof. by destruct op. Qed.

Lemma level_tag_inv l : level_of_tag (level_tag l) = Some l.
Proof. by destruct l. Qed.

Lemma step_tag_inv k : step_of_tag (step_tag k) = Some k.
Proof. by destruct k. Qed.

Lemma op_tag_range op : 0 <= op_tag op < 256.
Proof. destruct op; cbn; lia. Qed.

Lemma level_tag_range l : 0 <= level_tag l < 256.
Proof. destruct l; cbn; lia. Qed.

Lemma step_tag_range k : 0 <= step_tag k < 256.
Proof. destruct k; cbn; lia. Qed.

Create HintDb wire.
#[local] Hint Resolve op_tag_range level_tag_range step_tag_range : wire.
#[local] Hint Resolve reads_u8 reads_bool reads_word reads_i64 reads_str : wire.

(** Reads one field after another. *)
Ltac read_fields :=
  repeat (rewrite <- ?app_assoc;
    match goal with
    | |- context [rd_u8 (put_u8 ?v ++ _)] => rewrite (reads_u8 v) by auto with wire
    | |- context [rd_bool (put_bool ?b ++ _)] => rewrite (reads_bool b)
    | |- context [rd_u64 (put_u64 ?v ++ _)] => rewrite (reads_word v) by done
    | |- context [rd_i64 (put_i64 ?v ++ _)] => rewrite (reads_i64 v) by done
    | |- context [rd_str (put_str ?s ++ _)] => rewrite (reads_str s) by done
    end; cbn [mbind option_bind]; rewrite ?op_tag_inv, ?level_tag_inv, ?step_tag_inv; cbn [mbind option_bind]).

Lemma reads_param p : param_wf p -> reads rd_param (put_param p) p.
Proof. destruct p as [k v a]. intros (H1 & H2 & H3) r. unfold rd_param, put_param. cbn [p_key p_value p_amount] in *. by read_fields. Qed.

Lemma reads_step s : step_wf s -> reads rd_step (put_step s) s.
Proof.
  destruct s as [sk k hi hu]. intros (H1 & H2) r. unfold rd_step, put_step. cbn [st_kind st_key st_hi st_hi_unbounded] in *.
  by read_fields.
Qed.

Lemma reads_row kv : row_wf kv -> reads rd_row (put_row kv) kv.
Proof. destruct kv as [k v]. intros (H1 & H2) r. unfold rd_row, put_row. cbn [fst snd] in *. by read_fields. Qed.

Lemma reads_point p : point_wf p -> reads rd_point (put_point p) p.
Proof. destruct p as [k b v]. intros (H1 & H2) r. unfold rd_point, put_point. cbn [pw_key pw_present pw_value] in *. by read_fields. Qed.

Lemma reads_range rg : range_wf rg -> reads rd_range (put_range rg) rg.
Proof.
  destruct rg as [lo hi hu rows]. intros (H1 & H2 & H3) r. unfold rd_range, put_range. cbn [rw_lo rw_hi rw_hi_unbounded rw_rows] in *.
  read_fields. by rewrite (reads_list _ _ _ _ reads_row H3).
Qed.

Lemma open_seal body : open_crc (seal_crc body) = Some body.
Proof.
  unfold open_crc, seal_crc. rewrite length_app, length_put_u32, (proj2 (Nat.ltb_ge _ _)) by lia.
  replace (length body + 4 - 4)%nat with (length body) by lia. rewrite take_app_length, drop_app_length.
  rewrite get_put_u32_nil, u32_id by (rewrite Wire.crc32_compute; apply Crc32.compute_range). by rewrite Z.eqb_refl.
Qed.

Lemma emplace_last k v m : Forall (fun e => key_lt e.1 k) m -> map_emplace k v m = m ++ [(k, v)].
Proof.
  induction 1 as [|[k' v'] m Hk _ IH]; cbn; [done|]. unfold key_lt in Hk. cbn in Hk. by rewrite Hk, IH.
Qed.

Lemma emplace_sorted l : forall m, key_sorted (m ++ l) -> fold_left (fun m kv => map_emplace kv.1 kv.2 m) l m = m ++ l.
Proof.
  induction l as [|[k v] l IH]; intros m Hs; cbn; [by rewrite app_nil_r|].
  rewrite emplace_last, IH.
  - by rewrite <- app_assoc.
  - by rewrite <- app_assoc.
  - clear IH. induction m as [|[k' v'] m IHm]; [constructor|]. cbn in Hs. apply key_sorted_cons_inv in Hs as [Hs Hall].
    constructor; [|auto]. apply (Hall k v). apply in_or_app. right. by left.
Qed.

Lemma rd_request_fields b id : request_wf (mkRequest id b) -> rd_request (kind_of_request b) (request_fields b) = Some b.
Proof.
  intros [_ Hb]. cbn [req_body] in Hb. unfold rd_request.
  destruct b as [|k op ps|l sv ml se steps|k sql]; cbn [kind_of_request Z.eqb Pos.eqb request_fields]; [done|..].
  - destruct Hb as [Hk Hps]. rewrite <- (app_nil_r (put_list put_param ps)). read_fields. by rewrite (reads_list _ _ _ _ reads_param Hps).
  - destruct Hb as (H1 & H2 & H3 & H4). rewrite <- (app_nil_r (put_list put_step steps)). read_fields. by rewrite (reads_list _ _ _ _ reads_step H4).
  - destruct Hb as [H1 H2]. rewrite <- (app_nil_r (put_str sql)). by read_fields.
Qed.

Lemma rd_response_fields b id : response_wf (mkResponse id b) -> rd_response (kind_of_response b) (response_fields b) = Some b.
Proof.
  intros [_ Hb]. cbn [resp_body] in Hb. unfold rd_response.
  destruct b as [|st cv res ws|l sv pts rgs|e|ok e a n blob]; cbn [kind_of_response Z.eqb Pos.eqb response_fields]; [done|..].
  - destruct Hb as (H1 & H2 & H3 & H4 & H5). rewrite <- (app_nil_r (put_list put_row ws)). read_fields.
    rewrite (reads_list _ _ _ _ reads_row H4). cbn. by rewrite (emplace_sorted ws []).
  - destruct Hb as (H1 & H2 & H3). rewrite <- (app_nil_r (put_list put_range rgs)). read_fields.
    rewrite (reads_list _ _ _ _ reads_point H2). cbn [mbind option_bind]. by rewrite (reads_list _ _ _ _ reads_range H3).
  - rewrite <- (app_nil_r (put_str e)). by read_fields.
  - destruct Hb as (H1 & H2 & H3 & H4). rewrite <- (app_nil_r (put_str blob)). by read_fields.
Qed.

Lemma decode_encode_request r : request_wf r -> decode_request (encode_request r) = Some r.
Proof.
  intros Hr. destruct r as [id b]. pose proof Hr as [Hid _]. cbn in Hid. unfold decode_request, encode_request. cbn [req_id req_body].
  rewrite open_seal. cbn [mbind option_bind].
  assert (0 <= kind_of_request b < 256) by (destruct b; cbn; lia). rewrite (reads_u8 (kind_of_request b)) by done.
  assert (valid_msg_kind (kind_of_request b) = true) as Hk by (by destruct b). cbn [mbind option_bind]. rewrite Hk. cbn [negb].
  rewrite (reads_word id) by done. cbn [mbind option_bind]. by rewrite (rd_request_fields b id Hr).
Qed.

Lemma decode_encode_response r : response_wf r -> decode_response (encode_response r) = Some r.
Proof.
  intros Hr. destruct r as [id b]. pose proof Hr as [Hid _]. cbn in Hid. unfold decode_response, encode_response. cbn [resp_id resp_body].
  rewrite open_seal. cbn [mbind option_bind].
  assert (0 <= kind_of_response b < 256) by (destruct b; cbn; lia). rewrite (reads_u8 (kind_of_response b)) by done.
  assert (valid_msg_kind (kind_of_response b) = true) as Hk by (by destruct b). cbn [mbind option_bind]. rewrite Hk. cbn [negb].
  rewrite (reads_word id) by done. cbn [mbind option_bind]. by rewrite (rd_response_fields b id Hr).
Qed.

(** ** Frames *)

Lemma open_crc_some frame body : open_crc frame = Some body -> frame = body ++ put_u32 (Crc32.compute body).
Proof.
  unfold open_crc. destruct (Nat.ltb_spec (length frame) 4) as [|Hl]; [done|].
  destruct (Z.eqb_spec (Wire.crc32 (take (length frame - 4) frame)) (get_u32 (drop (length frame - 4) frame))) as [E|]; [|done].
  intros [= <-]. rewrite <- (take_drop (length frame - 4) frame) at 1. f_equal.
  rewrite <- Wire.crc32_compute, E, put_get_u32 by (rewrite length_drop; lia). symmetry. apply take_ge. rewrite length_drop. lia.
Qed.

(** Damage to a sealed frame confined to four consecutive bytes. *)
Lemma damaged_closed body p w v q :
  length w = length v -> (length w <= 4)%nat -> w <> v -> seal_crc body = p ++ w ++ q -> open_crc (p ++ v ++ q) = None.
Proof.
  intros Hl Hw Hne E. destruct (open_crc (p ++ v ++ q)) as [body'|] eqn:E'; [|done]. apply open_crc_some in E'.
  exfalso. apply (Crc32.framed_window body body' p w v q Hl Hw Hne); [|done].
  rewrite <- E. unfold seal_crc. by rewrite Wire.crc32_compute.
Qed.

Lemma rd_u64_range s v r : rd_u64 s = Some (v, r) -> w64 v.
Proof. unfold rd_u64. destruct (_ <? _)%nat; [done|]. intros [= <- _]. apply get_u64_range. Qed.

Lemma rd_u32_range s v r : rd_u32 s = Some (v, r) -> 0 <= v < 2 ^ 32.
Proof. unfold rd_u32. destruct (_ <? _)%nat; [done|]. intros [= <- _]. apply get_u32_range. Qed.

Lemma rd_str_fits s t r : rd_str s = Some (t, r) -> str_fits t.
Proof.
  unfold rd_str, str_fits. intros ([len s1] & E & Ht)%bind_Some. apply rd_u32_range in E.
  destruct (_ <? _); [done|]. injection Ht as <- _. unfold Zlen. rewrite length_take. lia.
Qed.

Lemma rd_i64_range s v r : rd_i64 s = Some (v, r) -> - 2 ^ 63 <= v < 2 ^ 63.
Proof.
  unfold rd_i64. intros ([w s1] & E & Hv)%bind_Some. injection Hv as <- _. unfold i64. pose proof (u64_range w).
  destruct (Z.ltb_spec (u64 w) (2 ^ 63)); lia.
Qed.

Lemma rd_many_wf {A} f (P : A -> Prop) n : (forall s x r, f s = Some (x, r) -> P x) ->
  forall s l r, rd_many f n s = Some (l, r) -> length l = n /\ Forall P l.
Proof.
  intros Hf. induction n as [|n IH]; intros s l r; cbn; [intros [= <- _]; by split; [|constructor]|].
  intros ([x s1] & E1 & ([l' s2] & E2 & Hl)%bind_Some)%bind_Some. injection Hl as <- _.
  apply Hf in E1. apply IH in E2 as [<- HP]. split; [done|by constructor].
Qed.

Lemma rd_list_wf {A} f (P : A -> Prop) s l r : (forall s x r, f s = Some (x, r) -> P x) ->
  rd_list f s = Some (l, r) -> list_fits P l.
Proof.
  intros Hf ([n s1] & E1 & E2)%bind_Some. apply rd_u32_range in E1.
  destruct (rd_many_wf f P _ Hf _ _ _ E2) as [Hl HP]. split; [|done]. unfold Zlen. rewrite Hl. lia.
Qed.

(** Takes a successful read apart. *)
Ltac split_reads H :=
  repeat match type of H with
  | (_ ≫= _) = Some _ => let x := fresh "x" in let E := fresh "E" in apply bind_Some in H as (x & E & H); try destruct x
  end.

#[local] Hint Resolve rd_u64_range rd_u32_range rd_str_fits rd_i64_range : wire.

Lemma rd_param_wf s p r : rd_param s = Some (p, r) -> param_wf p.
Proof. unfold rd_param. intros H. split_reads H. injection H as <- _. repeat split; cbn; eauto with wire; eapply rd_i64_range; eauto. Qed.

Lemma rd_step_wf s p r : rd_step s = Some (p, r) -> step_wf p.
Proof. unfold rd_step. intros H. split_reads H; injection H as <- _; split; cbn; eauto with wire. Qed.

Lemma all_read_some {A} (x y : A) s : all_read x s = Some y -> x = y.
Proof. destruct s; [by intros [= ->]|done]. Qed.

Lemma decode_request_fits frame r : decode_request frame = Some r -> request_wf r.
Proof.
  intros H.
  unfold decode_request in H. apply bind_Some in H as (s & _ & H). apply bind_Some in H as ([kind s1] & _ & H).
  destruct (negb _); [done|]. apply bind_Some in H as ([id s2] & Eid & H). apply bind_Some in H as (b & Eb & H).
  injection H as <-. split; cbn [req_id req_body]; [eauto with wire|]. unfold rd_request in Eb.
  destruct (kind =? 0); [by apply all_read_some in Eb as <-|].
  destruct (kind =? 1); [|destruct (kind =? 2); [|destruct (kind =? 7); [|done]]];
    split_reads Eb; apply all_read_some in Eb as <-; split_and?;
    eauto with wire; eapply rd_list_wf; eauto using rd_param_wf, rd_step_wf.
Qed.

(** C37: What the server takes off the wire is well formed: in every frame that decodes to a
    request, whoever made it, each field is in the range of its type and each string and
    list within its length prefix, so that encoding the request again gives a frame that
    decodes to the same request. *)
Theorem decoded_request_wf frame r :
  decode_request frame = Some r -> request_wf r /\ decode_request (encode_request r) = Some r.
Proof. intros H%decode_request_fits. split; [done|by apply decode_encode_request]. Qed.

(** The wire protocol loses nothing: every request and every response whose fields fit
    their encodings decodes from its frame to itself. *)
Theorem wire_roundtrip r q :
  request_wf r -> response_wf q ->
  decode_request (encode_request r) = Some r /\ decode_response (encode_response q) = Some q.
Proof. intros Hr Hq. split; [by apply decode_encode_request|by apply decode_encode_response]. Qed.

(** C39: A damaged frame is refused: when the bytes of a request or response frame change
    within four consecutive positions, anywhere in the frame, the checksum included,
    neither decoder accepts what is left. *)
Theorem wire_damage_rejected frame p w v q :
  (exists r, frame = encode_request r) \/ (exists r, frame = encode_response r) ->
  frame = p ++ w ++ q -> length w = length v -> (length w <= 4)%nat -> w <> v ->
  decode_request (p ++ v ++ q) = None /\ decode_response (p ++ v ++ q) = None.
Proof.
  intros Hf E Hl Hw Hne.
  assert (open_crc (p ++ v ++ q) = None) as Ho.
  { destruct Hf as [[r ->]|[r ->]]; by eapply damaged_closed. }
  unfold decode_request, decode_response. by rewrite Ho.
Qed.

(** ** Frames of a session *)

Definition transfer_req : Request :=
  mkRequest 7 (Submit 42 Transfer [mkParam [Byte.x61] [] 5; mkParam [Byte.x62] [] 0]).

Definition query_resp : Response :=
  mkResponse 8 (QueryOk Snapshot 3 [mkPoint [Byte.x61] true [Byte.x31]] [mkRangeWire [] [] true [([Byte.x61], [Byte.x31])]]).

Lemma transfer_req_wf : request_wf transfer_req.
Proof. repeat split; cbn; try lia. repeat constructor; unfold str_fits, Zlen; cbn; lia. Qed.

Lemma query_resp_wf : response_wf query_resp.
Proof. repeat split; cbn; try lia; repeat constructor; unfold str_fits, Zlen; cbn; lia. Qed.

Lemma balance_roundtrip_witness : parse_balance (Some (encode_balance (-1234567890123456789))) = -1234567890123456789.
Proof. apply balance_roundtrip. lia. Defined.

Lemma wire_roundtrip_witness :
  decode_request (encode_request transfer_req) = Some transfer_req /\
  decode_response (encode_response query_resp) = Some query_resp.
Proof. apply wire_roundtrip; [apply transfer_req_wf|apply query_resp_wf]. Defined.

Lemma decoded_request_wf_witness : request_wf transfer_req.
Proof. apply (decoded_request_wf (encode_request transfer_req)). vm_compute. reflexivity. Defined.

Lemma wire_damage_rejected_witness :
  let f := encode_request (mkRequest 7 Ping) in
  decode_request (take 3 f ++ [Byte.xff] ++ drop 4 f) = None.
Proof.
  intros f. apply (wire_damage_rejected f (take 3 f) [Byte.x00] [Byte.xff] (drop 4 f)).
  - left. by eexists.
  - vm_compute. reflexivity.
  - done.
  - cbn. lia.
  - done.
Defined.

(** The least integer is written with a magnitude no 64-bit signed integer holds. *)
Example least_balance_overflows :
  parse_mag (drop 1 (encode_balance (- 2 ^ 63))) 0 = Some (2 ^ 63).
Proof. vm_compute. reflexivity. Qed.
