(* ===== verification/Database.v ===== *)
(** Database: typed queries and their planner (query/Query.hpp), the handle a transaction
    body works over, the durable store of committed write-sets and the database object
    (query/Database.hpp).

    The store is modelled over any engine behind the [EngineOps] interface: the code uses a
    [WalEngine] on a device of its own or of its caller.  The scheduler it spawns its tasks
    on runs each to completion before the call returns.  A level tag, a template parameter
    in the code, is a value of [Tag]. *)

From Stdlib Require Import ZArith Lia.
From stdpp Require Import base list numbers.
From S2P Require Import Prelude Core Disk Mvcc Oracle Txn TxnCorrect Protocol.
#[local] Open Scope Z_scope.

(** ** Queries *)

Inductive Tag := TStrict | TSnapshot (version : Z) | TBounded (max_lag : Z) | TRyw (session : Z).

Definition tag_level (t : Tag) : Level :=
  match t with
  | TStrict => StrictSerializable
  | TSnapshot _ => Snapshot
  | TBounded _ => BoundedStaleness
  | TRyw _ => ReadYourWrites
  end.

Record Query := mkQuery { q_tag : Tag; q_steps : list Step }.

Definition new_query (t : Tag) : Query := mkQuery t [].

Definition q_get (k : Key) (q : Query) : Query := mkQuery (q_tag q) (q_steps q ++ [mkStep Point k [] false]).
Definition q_scan (lo hi : Key) (q : Query) : Query := mkQuery (q_tag q) (q_steps q ++ [mkStep RangeStep lo hi false]).
Definition q_scan_from (lo : Key) (q : Query) : Query := mkQuery (q_tag q) (q_steps q ++ [mkStep RangeStep lo [] true]).

(** The value that asks for a deletion. *)
Definition delete_sentinel : Value := [Byte.xff].

Definition resolve_prefix (t : Tag) (tip replica_lag session_last_write : Z) : Z :=
  match t with
  | TStrict => tip
  | TSnapshot version => if negb (version =? kNoSeq) && (version <=? tip) then version else tip
  | TBounded max_lag =>
      let lag := if replica_lag <=? max_lag then replica_lag else max_lag in
      if lag <? tip then tip - lag else 0
  | TRyw _ => if session_last_write <? tip then tip else session_last_write
  end.

Record Plan := mkPlan { pl_level : Level; pl_serial_prefix : Z; pl_read_prefix : Z; pl_steps : list Step }.

Definition plan_query (q : Query) (tip replica_lag session_last_write : Z) : Plan :=
  mkPlan (tag_level (q_tag q)) tip (resolve_prefix (q_tag q) tip replica_lag session_last_write) (q_steps q).

Record RangeResult := mkRangeResult { rr_lo : Key; rr_hi : Key; rr_hi_unbounded : bool; rr_rows : list (Key * Value) }.

Record QueryResult := mkResult {
  qr_level : Level;
  qr_served_version : Z;
  qr_points : list (Key * option Value);
  qr_ranges : list RangeResult;
  qr_served_reads : list ServedRead
}.

(** ** Transaction bodies *)

Record TxnContext := mkCtx {
  x_reads : ReadView;
  x_writes : WriteSet;
  x_extra_reads : list Key;
  x_result : list byte
}.

Definition new_ctx (reads : ReadView) : TxnContext := mkCtx reads [] [] [].

Definition ctx_read (k : Key) (c : TxnContext) : option Value :=
  match assoc k (x_reads c) with Some v => v | None => None end.

Definition ctx_write (k : Key) (v : Value) (c : TxnContext) : TxnContext :=
  mkCtx (x_reads c) (map_set k v (x_writes c)) (x_extra_reads c) (x_result c).

Definition ctx_also_read (k : Key) (c : TxnContext) : TxnContext :=
  mkCtx (x_reads c) (x_writes c) (x_extra_reads c ++ [k]) (x_result c).

Definition ctx_result (token : list byte) (c : TxnContext) : TxnContext :=
  mkCtx (x_reads c) (x_writes c) (x_extra_reads c) token.

Definition into_outcome (c : TxnContext) : Outcome := mkOutcome (x_writes c) (x_result c) (x_extra_reads c).

Record TxnFn := mkTxnFn { fn_id : Z; fn_declared : list Read; fn_body : option (TxnContext -> TxnContext) }.

Definition to_txn (fn : TxnFn) : Txn :=
  mkTxn (fn_id fn) (fn_declared fn)
    (Some (fun reads => into_outcome (match fn_body fn with Some f => f (new_ctx reads) | None => new_ctx reads end))).

(** The default configuration of a batch. *)
Definition default_cfg : ExecConfig := mkExecConfig 2 0.

(** [Database::submit] with the default executor. *)
Definition submit (fns : list TxnFn) (cfg : ExecConfig) : RunResult := submit_batch (map to_txn fns) cfg.

(** ** [PersistentStore] *)
Section store.
Context {E : Type} `{EngineOps E}.

Record store := mkStore { engine_ : E; snap_ : list Z }.

Definition new_store (e : E) : store := mkStore e [kNoSeq].

Definition tip (st : store) : Z := Zlen (snap_ st) - 1.

Definition snap_for (prefix : Z) (st : store) : Z :=
  let idx := if prefix <? Zlen (snap_ st) then Z.to_nat prefix else (length (snap_ st) - 1)%nat in
  nth idx (snap_ st) kNoSeq.

Definition apply_write (e : E) (kv : Key * Value) : E :=
  if key_eqb kv.2 delete_sentinel then (edel kv.1 e).2 else (eput kv.1 kv.2 e).2.

Definition apply_committed_nosync (ws : WriteSet) (st : store) : store :=
  let e := fold_left apply_write ws (engine_ st) in
  mkStore e (snap_ st ++ [esnapshot e]).

Definition apply_committed (ws : WriteSet) (st : store) : store :=
  let e := (esync (fold_left apply_write ws (engine_ st))).2 in
  mkStore e (snap_ st ++ [esnapshot e]).

Definition sync_durable (st : store) : store := mkStore (esync (engine_ st)).2 (snap_ st).

(** The bookkeeping after a recovery or a restore: [e] is the engine rebuilt from the
    device, and its last sequence the only boundary known. *)
Definition reset_prefixes (e : E) : store :=
  let last := esnapshot e in
  mkStore e (if last =? kNoSeq then [kNoSeq] else [kNoSeq; last]).

(** [prime] on the default backing, from a fresh engine, and on an injected one. *)
Definition prime_fresh (e : E) (history : list WriteSet) : store :=
  fold_left (fun st ws => apply_committed ws st) history (new_store e).

Definition prime_tail (history : list WriteSet) (st : store) : store :=
  fold_left (fun st ws => apply_committed ws st) (drop (Z.to_nat (tip st)) history) st.

Definition tag_session (t : Tag) : Z := match t with TRyw s => s | _ => 0 end.
Definition tag_max_lag (t : Tag) : Z := match t with TBounded l => l | _ => 0 end.

(** One step of [run_query]. *)
Definition run_step (st : store) (tag : Tag) (prefix snap : Z) (out : QueryResult) (s : Step) : QueryResult :=
  match st_kind s with
  | Point =>
      let v := eget (st_key s) snap (engine_ st) in
      mkResult (qr_level out) (qr_served_version out) (qr_points out ++ [(st_key s, v)]) (qr_ranges out)
        (qr_served_reads out ++ [mkServedRead (st_key s) (qr_level out) prefix (tag_session tag) (tag_max_lag tag) v])
  | RangeStep =>
      let rows := escan (mkRange (st_key s) (st_hi s) (st_hi_unbounded s)) snap (engine_ st) in
      mkResult (qr_level out) (qr_served_version out) (qr_points out)
        (qr_ranges out ++ [mkRangeResult (st_key s) (st_hi s) (st_hi_unbounded s) rows]) (qr_served_reads out)
  end.

Definition run_query (q : Query) (replica_lag session_last_write : Z) (st : store) : QueryResult :=
  let plan := plan_query q (tip st) replica_lag session_last_write in
  let snap := snap_for (pl_read_prefix plan) st in
  fold_left (run_step st (q_tag q) (pl_read_prefix plan) snap) (pl_steps plan)
    (mkResult (pl_level plan) (pl_read_prefix plan) [] [] []).
End store.
Arguments store : clear implicits.

(** ** What the store holds *)

Definition write_op (kv : Key * Value) : op := if key_eqb kv.2 delete_sentinel then Del kv.1 else Put kv.1 kv.2.

(** The engine operations of a run of write-sets. *)
Definition ops_of (wss : list WriteSet) : list op := wss ≫= map write_op.

(** The value of a key after a run of write-sets. *)
Definition write_value (acc : option Value) (k : Key) (ws : WriteSet) : option Value :=
  match assoc k ws with
  | Some v => if key_eqb v delete_sentinel then None else Some v
  | None => acc
  end.

Definition value_after (wss : list WriteSet) (k : Key) : option Value :=
  fold_left (fun acc ws => write_value acc k ws) wss None.

Lemma ops_of_app a b : ops_of (a ++ b) = ops_of a ++ ops_of b.
Proof. unfold ops_of. apply bind_app. Qed.

Lemma replay_write_set k ws : key_sorted ws -> forall acc,
  fold_left (fun acc o => if key_eqb (op_key o) k then op_value o else acc) (map write_op ws) acc = write_value acc k ws.
Proof.
  intros Hs. unfold write_value. induction ws as [|[k' v] ws IH]; intros acc; cbn; [done|].
  apply key_sorted_cons_inv in Hs as [Hs Hall].
  assert (Hop : op_key (write_op (k', v)) = k' /\ op_value (write_op (k', v)) = if key_eqb v delete_sentinel then None else Some v).
  { unfold write_op. cbn. by destruct (key_eqb v delete_sentinel). }
  destruct Hop as [-> ->]. rewrite IH by done.
  destruct (key_eqb_spec k' k) as [->|Hne]; [|done].
  destruct (assoc k ws) as [w|] eqn:E; [|done]. apply assoc_in in E. apply Hall in E. by rewrite key_ltb_irrefl in E.
Qed.

Lemma replay_ops k wss : Forall key_sorted wss -> replay_key k (ops_of wss) = value_after wss k.
Proof.
  intros Hs. induction wss as [|ws wss IH] using rev_ind; [done|].
  apply Forall_app in Hs as [Hs Hw%Forall_inv]. rewrite ops_of_app, replay_key_app, IH by done.
  unfold value_after. rewrite fold_left_app. cbn [fold_left]. unfold ops_of. cbn [mbind list_bind].
  rewrite app_nil_r. by apply replay_write_set.
Qed.

Lemma take_ops p wss : take (length (ops_of (take p wss))) (ops_of wss) = ops_of (take p wss).
Proof. rewrite <- (take_drop p wss) at 2. rewrite ops_of_app. apply take_app_length. Qed.

(** Reading at the boundary after [p] write-sets sees exactly these. *)
Lemma spec_get_prefix p wss k : Forall key_sorted wss ->
  spec_get (ops_of wss) k (Zlen (ops_of (take p wss))) = value_after (take p wss) k.
Proof.
  intros Hs. unfold spec_get, Zlen. rewrite Nat2Z.id, take_ops. apply replay_ops. by apply Forall_take.
Qed.

Section store_inv.
Context {E : Type} `{EngineSpec E}.

Record store_inv (st : store E) (wss : list WriteSet) : Prop := {
  si_repr : repr (engine_ st) (ops_of wss);
  si_snap : snap_ st = map (fun p => Zlen (ops_of (take p wss))) (seq 0 (S (length wss)))
}.

Lemma new_store_inv e : repr e [] -> store_inv (new_store e) [].
Proof. intros He. by split. Qed.

Lemma store_tip st wss : store_inv st wss -> tip st = Zlen wss.
Proof. intros [_ Hs]. unfold tip. rewrite Hs. unfold Zlen. rewrite length_map, length_seq. lia. Qed.

Lemma fold_apply_write ws : forall e : E, fold_left apply_write ws e = erun (map write_op ws) e.
Proof.
  induction ws as [|kv ws IH]; intros e; [done|]. cbn. rewrite IH. unfold erun. f_equal.
  unfold apply_write, write_op. by destruct (key_eqb kv.2 delete_sentinel).
Qed.

Lemma snaps_snoc wss ws :
  map (fun p => Zlen (ops_of (take p wss))) (seq 0 (S (length wss))) ++ [Zlen (ops_of (wss ++ [ws]))] =
  map (fun p => Zlen (ops_of (take p (wss ++ [ws])))) (seq 0 (S (length (wss ++ [ws])))).
Proof.
  rewrite length_app. cbn [length]. rewrite Nat.add_1_r, (seq_S (S (length wss))), map_app. cbn [map]. f_equal.
  - apply map_ext_in. intros p Hp%in_seq. by rewrite take_app_le by lia.
  - rewrite take_ge by (rewrite length_app; cbn; lia). done.
Qed.

Lemma apply_repr st wss ws : store_inv st wss -> Zlen (ops_of (wss ++ [ws])) <= capacity ->
  repr (fold_left apply_write ws (engine_ st)) (ops_of (wss ++ [ws])).
Proof.
  intros [Hr _] Hc. rewrite fold_apply_write, ops_of_app in *.
  assert (ops_of [ws] = map write_op ws) as Ew by (unfold ops_of; cbn; by rewrite app_nil_r).
  rewrite Ew in *. by apply erun_repr.
Qed.

Lemma apply_nosync_inv st wss ws : store_inv st wss -> Zlen (ops_of (wss ++ [ws])) <= capacity ->
  store_inv (apply_committed_nosync ws st) (wss ++ [ws]).
Proof.
  intros Hi Hc. pose proof (apply_repr st wss ws Hi Hc) as Hr. split; cbn; [done|].
  rewrite (snapshot_spec _ _ Hr), (si_snap _ _ Hi). apply snaps_snoc.
Qed.

Lemma apply_inv st wss ws : store_inv st wss -> Zlen (ops_of (wss ++ [ws])) <= capacity ->
  store_inv (apply_committed ws st) (wss ++ [ws]).
Proof.
  intros Hi Hc. pose proof (sync_keeps _ _ (apply_repr st wss ws Hi Hc)) as Hr. split; cbn; [done|].
  rewrite (snapshot_spec _ _ Hr), (si_snap _ _ Hi). apply snaps_snoc.
Qed.

Lemma sync_inv st wss : store_inv st wss -> store_inv (sync_durable st) wss.
Proof. intros [Hr Hs]. split; [by apply sync_keeps|done]. Qed.

Lemma snap_for_prefix st wss p : store_inv st wss -> 0 <= p <= Zlen wss ->
  snap_for p st = Zlen (ops_of (take (Z.to_nat p) wss)).
Proof.
  intros [_ Hs] Hp. unfold snap_for. rewrite Hs. unfold Zlen in *. rewrite length_map, length_seq.
  destruct (Z.ltb_spec p (Z.of_nat (S (length wss)))); [|lia].
  rewrite (nth_indep _ _ (Z.of_nat (length (ops_of (take 0 wss))))) by (rewrite length_map, length_seq; lia).
  rewrite (map_nth (fun p => Z.of_nat (length (ops_of (take p wss))))), seq_nth by lia. done.
Qed.

(** *** Queries against the store *)

Definition is_point (s : Step) : bool := match st_kind s with Point => true | RangeStep => false end.

Definition step_range (s : Step) : Range := mkRange (st_key s) (st_hi s) (st_hi_unbounded s).

(** The rows of a range after a run of write-sets: its live pairs in key order. *)
Definition rows_after (wss : list WriteSet) (r : Range) (rows : list (Key * Value)) : Prop :=
  key_sorted rows /\ forall k v, In (k, v) rows <-> in_range r k = true /\ value_after wss k = Some v.

Definition range_ok (wss : list WriteSet) (s : Step) (rr : RangeResult) : Prop :=
  rr_lo rr = st_key s /\ rr_hi rr = st_hi s /\ rr_hi_unbounded rr = st_hi_unbounded s /\ rows_after wss (step_range s) (rr_rows rr).

Lemma scan_prefix st wss p r : store_inv st wss -> Forall key_sorted wss -> 0 <= p <= Zlen wss ->
  rows_after (take (Z.to_nat p) wss) r (escan r (snap_for p st) (engine_ st)).
Proof.
  intros Hi Hs Hp. rewrite (snap_for_prefix _ _ _ Hi Hp).
  destruct (scan_spec _ _ r _ (si_repr _ _ Hi) (Zlen_nonneg (ops_of (take (Z.to_nat p) wss)))) as [H1 H2].
  split; [done|]. intros k v. rewrite H2, spec_get_prefix by done. done.
Qed.

Lemma get_prefix st wss p k : store_inv st wss -> Forall key_sorted wss -> 0 <= p <= Zlen wss ->
  eget k (snap_for p st) (engine_ st) = value_after (take (Z.to_nat p) wss) k.
Proof.
  intros Hi Hs Hp. rewrite (snap_for_prefix _ _ _ Hi Hp).
  rewrite (get_spec _ _ _ _ (si_repr _ _ Hi)) by apply Zlen_nonneg. by apply spec_get_prefix.
Qed.

(** What each level promises about the prefix it is served at, out of [n]. *)
Definition promised (t : Tag) (n p : Z) : Prop :=
  0 <= p <= n /\
  match t with
  | TStrict | TRyw _ => p = n
  | TSnapshot v => p = if decide (1 <= v <= n) then v else n
  | TBounded l => n - p <= l
  end.

Lemma resolve_promised t n lag slw : 0 <= n -> 0 <= lag -> 0 <= slw <= n ->
  match t with TSnapshot v => 0 <= v | TBounded l => 0 <= l | _ => True end ->
  promised t n (resolve_prefix t n lag slw).
Proof.
  intros Hn Hlag Hslw Ht. unfold promised, kNoSeq in *. destruct t as [|v|l|s]; cbn.
  - lia.
  - unfold kNoSeq. destruct (Z.eqb_spec v 0), (Z.leb_spec v n); cbn [negb andb]; case_decide; lia.
  - destruct (Z.leb_spec lag l), (Z.ltb_spec lag n), (Z.ltb_spec l n); lia.
  - destruct (Z.ltb_spec slw n); lia.
Qed.

Lemma fold_steps st wss tag p steps : store_inv st wss -> Forall key_sorted wss -> 0 <= p <= Zlen wss ->
  forall out, exists rgs srs,
  fold_left (run_step st tag p (snap_for p st)) steps out =
    mkResult (qr_level out) (qr_served_version out)
      (qr_points out ++ map (fun s => (st_key s, value_after (take (Z.to_nat p) wss) (st_key s))) (List.filter is_point steps))
      (qr_ranges out ++ rgs) (qr_served_reads out ++ srs) /\
  Forall2 (range_ok (take (Z.to_nat p) wss)) (List.filter (fun s => negb (is_point s)) steps) rgs /\
  Forall2 (fun s sr => sr = mkServedRead (st_key s) (qr_level out) p (tag_session tag) (tag_max_lag tag)
      (value_after (take (Z.to_nat p) wss) (st_key s))) (List.filter is_point steps) srs.
Proof.
  intros Hi Hs Hp. induction steps as [|s steps IH]; intros out.
  { exists [], []. cbn. rewrite !app_nil_r. by destruct out. }
  cbn [fold_left]. destruct (IH (run_step st tag p (snap_for p st) out s)) as (rgs & srs & -> & Hr & Hsr).
  destruct s as [[] k hi hu]; cbn [List.filter is_point st_kind st_key negb run_step qr_level qr_served_version qr_points qr_ranges qr_served_reads] in *.
  - rewrite (get_prefix _ _ _ _ Hi Hs Hp).
    eexists rgs, (_ :: srs). cbn [map st_key]. rewrite <- !app_assoc. cbn [app]. split; [reflexivity|]. split; [done|]. by constructor.
  - eexists (_ :: rgs), srs. rewrite <- !app_assoc. cbn [app]. split; [reflexivity|]. split; [|done].
    constructor; [|done]. do 3 (split; [done|]). by apply scan_prefix.
Qed.

End store_inv.

(** ** Runs of the store *)

Section runs.
Context {E : Type} `{EngineSpec E}.

Inductive action := Apply (ws : WriteSet) | ApplyNosync (ws : WriteSet) | Barrier.

Definition act (st : store E) (a : action) : store E :=
  match a with
  | Apply ws => apply_committed ws st
  | ApplyNosync ws => apply_committed_nosync ws st
  | Barrier => sync_durable st
  end.

Definition written (a : action) : option WriteSet :=
  match a with Apply ws | ApplyNosync ws => Some ws | Barrier => None end.

Lemma acts_inv acts : forall st wss, store_inv st wss ->
  Zlen (ops_of (wss ++ omap written acts)) <= capacity -> store_inv (fold_left act acts st) (wss ++ omap written acts).
Proof.
  induction acts as [|a acts IH]; intros st wss Hi Hc; cbn [fold_left omap list_omap]; [by rewrite app_nil_r|].
  assert (Hone : forall ws, Zlen (ops_of (wss ++ ws :: omap written acts)) <= capacity -> Zlen (ops_of (wss ++ [ws])) <= capacity).
  { intros ws. rewrite cons_middle, app_assoc, (ops_of_app (wss ++ [ws])), Zlen_app. pose proof (Zlen_nonneg (ops_of (omap written acts))). lia. }
  destruct a as [ws|ws|]; cbn [omap list_omap written act] in *.
  - rewrite cons_middle, app_assoc. apply IH; [|by rewrite <- app_assoc]. apply apply_inv; [done|]. by apply Hone.
  - rewrite cons_middle, app_assoc. apply IH; [|by rewrite <- app_assoc]. apply apply_nosync_inv; [done|]. by apply Hone.
  - apply IH; [by apply sync_inv|done].
Qed.

(** C23: A query is answered from the prefix its level promises.  After any run of committed
    write-sets, synced one by one or in groups, the store serves a query at one prefix of
    them: all of them for a strict or read-your-writes query, the version asked for when it
    exists for a snapshot, at most the stated lag behind for bounded staleness.  Every
    point read returns the value its key had after exactly that prefix, every scan the
    live pairs of its range in key order, and the diagnostics say so. *)
Theorem query_exact (e : E) acts q lag slw :
  let wss := omap written acts in
  repr e [] -> Forall key_sorted wss -> Zlen (ops_of wss) <= capacity ->
  0 <= lag -> 0 <= slw <= Zlen wss ->
  match q_tag q with TSnapshot v => 0 <= v | TBounded l => 0 <= l | _ => True end ->
  let r := run_query q lag slw (fold_left act acts (new_store e)) in
  let p := qr_served_version r in
  qr_level r = tag_level (q_tag q) /\ promised (q_tag q) (Zlen wss) p /\
  qr_points r = map (fun s => (st_key s, value_after (take (Z.to_nat p) wss) (st_key s))) (List.filter is_point (q_steps q)) /\
  Forall2 (range_ok (take (Z.to_nat p) wss)) (List.filter (fun s => negb (is_point s)) (q_steps q)) (qr_ranges r) /\
  map (fun sr => (s_key sr, s_value sr)) (qr_served_reads r) = qr_points r /\
  Forall (fun sr => s_level sr = qr_level r /\ s_served_version sr = p) (qr_served_reads r).
Proof.
  intros wss He Hs Hc Hlag Hslw Ht.
  pose proof (acts_inv acts (new_store e) [] (new_store_inv e He) Hc) as Hi. cbn [app] in Hi. fold wss in Hi.
  set (st := fold_left act acts (new_store e)) in *.
  unfold run_query, plan_query. cbn [pl_level pl_read_prefix pl_steps]. rewrite (store_tip _ _ Hi).
  pose proof (resolve_promised (q_tag q) (Zlen wss) lag slw (Zlen_nonneg wss) Hlag Hslw Ht) as Hp.
  set (p := resolve_prefix (q_tag q) (Zlen wss) lag slw) in *.
  destruct (fold_steps st wss (q_tag q) p (q_steps q) Hi Hs (proj1 Hp) (mkResult (tag_level (q_tag q)) p [] [] [])) as (rgs & srs & -> & Hr & Hsr).
  cbn [qr_level qr_served_version qr_points qr_ranges qr_served_reads app] in *.
  split; [done|]. split; [done|]. split; [done|]. split; [done|]. clear -Hsr.
  induction Hsr as [|s sr l srs -> _ [IH1 IH2]]; [done|]. cbn. rewrite IH1. split; [done|]. by constructor.
Qed.
End runs.

(** A store of two write-sets on the reference engine, the second a deletion. *)
Definition two_sets : list action :=
  [Apply [([Byte.x61], [Byte.x31]); ([Byte.x62], [Byte.x32])]; ApplyNosync [([Byte.x61], delete_sentinel)]; Barrier].

Definition demo_query : Query := q_scan_from [] (q_get [Byte.x61] (new_query (TSnapshot 1))).

Lemma query_exact_witness :
  qr_points (run_query demo_query 0 0 (fold_left act two_sets (new_store Oracle.empty))) = [([Byte.x61], Some [Byte.x31])] /\
  value_after (omap written two_sets) [Byte.x61] = None.
Proof.
  split; [|reflexivity].
  destruct (query_exact Oracle.empty two_sets demo_query 0 0) as (_ & [_ Hp] & Hpts & _).
  - apply Oracle.rep_empty.
  - repeat constructor.
  - vm_compute. discriminate.
  - done.
  - by vm_compute.
  - done.
  - rewrite Hpts, Hp. vm_compute. reflexivity.
Defined.
