(* ===== verification/Server.v ===== *)
(** Server: the protocol server (query/wire/Server.hpp): the catalogue of named operations,
    exactly-once submission, queries, authorization and the receive loop with its group
    commit.

    The SQL engine behind [handle_sql] is a parameter, [sql_exec]: what a statement returns,
    its rows serialized, and the engine after it.  The hooks of the authorization gate are a
    parameter too.  A signed overflow in the arithmetic of an operation, undefined in the
    source, wraps. *)

From Stdlib Require Import ZArith Lia Strings.Byte.
From stdpp Require Import base list sets numbers strings.
From S2P Require Import Prelude Core Disk Mvcc Oracle WalInvariant WalRefine Txn TxnCorrect TxnCheckers Protocol Database.
#[local] Open Scope Z_scope.

Definition token (s : string) : list byte := String.list_byte_of_string s.

(** ** The operations a client can name *)

Definition param (i : nat) (ps : list OpParam) : OpParam := nth i ps no_param.

Definition put_fn (key : Z) (p : OpParam) : TxnFn :=
  mkTxnFn key [] (Some (fun c => ctx_result (token "put:" ++ p_key p) (ctx_write (p_key p) (p_value p) c))).

Definition transfer_fn (key : Z) (pa pb : OpParam) : TxnFn :=
  let ka := p_key pa in
  let kb := p_key pb in
  let amount := p_amount pa in
  mkTxnFn key [read_strict ka; read_strict kb]
    (Some (fun c =>
       let va := parse_balance (ctx_read ka c) in
       let vb := parse_balance (ctx_read kb c) in
       let c := ctx_write ka (encode_balance (i64 (va - amount))) c in
       let c := ctx_write kb (encode_balance (i64 (vb + amount))) c in
       ctx_result (token "xfer:" ++ ka ++ token "->" ++ kb) c)).

Definition increment_fn (key : Z) (p : OpParam) : TxnFn :=
  mkTxnFn key [read_strict (p_key p)]
    (Some (fun c =>
       let cur := parse_balance (ctx_read (p_key p) c) in
       ctx_result (token "inc:" ++ p_key p) (ctx_write (p_key p) (encode_balance (i64 (cur + p_amount p))) c))).

Definition materialize (key : Z) (op : SubmitOp) (ps : list OpParam) : TxnFn :=
  match op with
  | PutOp => put_fn key (param 0 ps)
  | Transfer => transfer_fn key (param 0 ps) (param 1 ps)
  | Increment => increment_fn key (param 0 ps)
  end.

Definition status_code (s : Status) : Z := match s with Committed => 0 | Aborted => 1 | Pending => 2 end.

Definition write_only (op : SubmitOp) : bool := match op with PutOp => true | _ => false end.

(** ** State *)

Record ExecResult := mkExec { er_ok : bool; er_error : list byte; er_affected : Z; er_rows : Z; er_blob : list byte }.

Section server.
Context {E : Type} `{EngineOps E}.
Context {Q : Type} (sql_exec : list byte -> Q -> ExecResult * Q).

Record server := mkServer {
  has_net : bool;
  db_ : store E;
  sql_eng_ : Q;
  batch_ : list TxnFn;
  dedup_ : list (Z * Response);
  tip_ : Z;
  rejected_ : Z;
  applied_ : Z;
  auth_denied_ : Z
}.

Definition new_server (net : bool) (e : E) (sql : Q) : server := mkServer net (new_store e) sql [] [] 0 0 0 0.

Definition memo (key : Z) (s : server) : option Response := option_map snd (List.find (fun e => e.1 =? key) (dedup_ s)).

(** [dedup_.emplace(key, r)], where [key] is not there. *)
Definition memoize (key : Z) (r : Response) (s : server) : server :=
  mkServer (has_net s) (db_ s) (sql_eng_ s) (batch_ s) ((key, r) :: dedup_ s) (tip_ s) (rejected_ s) (applied_ s) (auth_denied_ s).

Definition set_batch (b : list TxnFn) (s : server) : server :=
  mkServer (has_net s) (db_ s) (sql_eng_ s) b (dedup_ s) (tip_ s) (rejected_ s) (applied_ s) (auth_denied_ s).

(** The committed write-set reaches the query store: a put over a transport leaves the
    sync to the receive loop. *)
Definition apply_effect (op : SubmitOp) (ws : WriteSet) (s : server) : server :=
  let db := if write_only op && has_net s then apply_committed_nosync ws (db_ s) else apply_committed ws (db_ s) in
  mkServer (has_net s) db (sql_eng_ s) (batch_ s) (dedup_ s) (tip db) (rejected_ s) (u64 (applied_ s + 1)) (auth_denied_ s).

Definition handle_submit (id key : Z) (op : SubmitOp) (ps : list OpParam) (s : server) : Response * server :=
  match memo key s with
  | Some cached => (mkResponse id (resp_body cached), s)
  | None =>
      let fn := materialize key op ps in
      let s := if write_only op then s else set_batch (batch_ s ++ [fn]) s in
      let rr := submit (if write_only op then [fn] else batch_ s) default_cfg in
      let '(body, s) :=
        match last (commits rr) with
        | None => (SubmitOk 0 kNoSeq [] [], s)
        | Some ci =>
            let body cv := SubmitOk (status_code (c_status ci)) cv (c_result ci) (c_writes_committed ci) in
            match c_status ci with
            | Committed =>
                let s := apply_effect op (c_writes_committed ci) s in
                if write_only op then (body (tip_ s), set_batch (batch_ s ++ [fn]) s)
                else (body (c_commit_version ci), s)
            | _ => (body (c_commit_version ci), if write_only op then s else set_batch (removelast (batch_ s)) s)
            end
        end in
      (mkResponse id body, memoize key (mkResponse id body) s)
  end.

(** [add_steps] *)
Definition add_step (q : Query) (st : Step) : Query :=
  match st_kind st with
  | Point => q_get (st_key st) q
  | RangeStep => if st_hi_unbounded st then q_scan_from (st_key st) q else q_scan (st_key st) (st_hi st) q
  end.

Definition wire_tag (l : Level) (sv ml se : Z) : Tag :=
  match l with
  | StrictSerializable => TStrict
  | Snapshot => TSnapshot sv
  | BoundedStaleness => TBounded ml
  | ReadYourWrites => TRyw se
  end.

Definition wire_point (pv : Key * option Value) : PointWire :=
  mkPoint pv.1 (match pv.2 with Some _ => true | None => false end) (default [] pv.2).

Definition wire_range (rg : RangeResult) : RangeWire := mkRangeWire (rr_lo rg) (rr_hi rg) (rr_hi_unbounded rg) (rr_rows rg).

Definition handle_query (id : Z) (l : Level) (sv ml se : Z) (steps : list Step) (s : server) : Response :=
  let tag := wire_tag l sv ml se in
  let lag := match l with BoundedStaleness => ml | _ => 0 end in
  let qr := run_query (fold_left add_step steps (new_query tag)) lag 0 (db_ s) in
  mkResponse id (QueryOk (qr_level qr) (qr_served_version qr)
    (map wire_point (qr_points qr)) (map wire_range (qr_ranges qr))).

Definition handle_sql (id key : Z) (sql : list byte) (s : server) : Response * server :=
  match memo key s with
  | Some cached => (mkResponse id (resp_body cached), s)
  | None =>
      let '(er, eng) := sql_exec sql (sql_eng_ s) in
      let r := mkResponse id (SqlResult (er_ok er) (er_error er) (er_affected er) (er_rows er) (er_blob er)) in
      (r, memoize key r (mkServer (has_net s) (db_ s) eng (batch_ s) (dedup_ s) (tip_ s) (rejected_ s) (applied_ s) (auth_denied_ s)))
  end.

Definition dispatch (req : Request) (s : server) : Response * server :=
  match req_body req with
  | Ping => (mkResponse (req_id req) Pong, s)
  | Submit k op ps => handle_submit (req_id req) k op ps s
  | QueryReq l sv ml se steps => (handle_query (req_id req) l sv ml se steps s, s)
  | SqlExec k sql => handle_sql (req_id req) k sql s
  end.

(** A new server object over the device of an old one, then [recover] and [recover_sql]:
    [e] is the engine rebuilt from the device; the batch and the table of answers, which are
    not stored, start empty. *)
Definition restart (net : bool) (e : E) (sql : Q) : server :=
  let db := reset_prefixes e in
  mkServer net db sql [] [] (tip db) 0 0 0.

(** ** The receive loop *)

(** What the loop does to the outside, in order: an answer is sent at once or parked, the
    engines with buffered writes are synced, and the parked answers are released.  An
    [Answered] and a [Released] are both a send. *)
Inductive effect :=
| Answered (to : Z) (bytes : list byte)
| Parked (to : Z) (bytes : list byte) (keyed sql : bool)
| Synced (keyed sql : bool)
| Released (to : Z) (bytes : list byte).

Record loop := mkLoop {
  lp_server : server;
  parked : list (Z * list byte);
  keyed_dirty : bool;
  sql_dirty : bool
}.

Definition flush (l : loop) : loop * list effect :=
  match parked l with
  | [] => (l, [])
  | ps =>
      let s := lp_server l in
      let db := if keyed_dirty l then sync_durable (db_ s) else db_ s in
      (mkLoop (mkServer (has_net s) db (sql_eng_ s) (batch_ s) (dedup_ s) (tip_ s) (rejected_ s) (applied_ s) (auth_denied_ s)) [] false false,
       Synced (keyed_dirty l) (sql_dirty l) :: map (fun p => Released p.1 p.2) ps)
  end.

Definition is_write (b : RequestBody) : bool := match b with Submit _ _ _ => true | _ => false end.

(** The gate: the policy on the principal of the request; [None] is the open server. *)
Definition refused (authz : option (list byte -> bool -> bool)) (principal : list byte) (b : RequestBody) : bool :=
  match authz with None => false | Some f => negb (f principal (is_write b)) end.

Definition denied (id : Z) (principal : list byte) : Response :=
  mkResponse id (ErrorResp (token "AUTH-DENIED: principal '" ++ principal ++ token "' lacks permission")).

Definition count_rejected (s : server) : server :=
  mkServer (has_net s) (db_ s) (sql_eng_ s) (batch_ s) (dedup_ s) (tip_ s) (u64 (rejected_ s + 1)) (applied_ s) (auth_denied_ s).

Definition count_denied (s : server) : server :=
  mkServer (has_net s) (db_ s) (sql_eng_ s) (batch_ s) (dedup_ s) (tip_ s) (rejected_ s) (applied_ s) (u64 (auth_denied_ s + 1)).

Definition keyed_put (b : RequestBody) : bool := match b with Submit _ PutOp _ => true | _ => false end.

Definition sql_write (b : RequestBody) (r : ResponseBody) : bool :=
  match b, r with SqlExec _ _, SqlResult true _ affected _ _ => 0 <? affected | _, _ => false end.

(** One frame: [idle] says that none was ready when the loop asked for it. *)
Record arrival := mkArrival { a_idle : bool; a_from : Z; a_principal : list byte; a_frame : list byte }.

Definition turn (authz : option (list byte -> bool -> bool)) (a : arrival) (l : loop) : loop * list effect :=
  let '(l, eff) := if a_idle a then flush l else (l, []) in
  match decode_request (a_frame a) with
  | None => (mkLoop (count_rejected (lp_server l)) (parked l) (keyed_dirty l) (sql_dirty l), eff)
  | Some req =>
      if refused authz (a_principal a) (req_body req) then
        (mkLoop (count_denied (lp_server l)) (parked l) (keyed_dirty l) (sql_dirty l),
         eff ++ [Answered (a_from a) (encode_response (denied (req_id req) (a_principal a)))])
      else
        let '(resp, s) := dispatch req (lp_server l) in
        let out := encode_response resp in
        let keyed := keyed_put (req_body req) in
        let sql := sql_write (req_body req) (resp_body resp) in
        if keyed || sql then
          (mkLoop s (parked l ++ [(a_from a, out)]) (keyed_dirty l || keyed) (sql_dirty l || sql),
           eff ++ [Parked (a_from a) out keyed sql])
        else (mkLoop s (parked l) (keyed_dirty l) (sql_dirty l), eff ++ [Answered (a_from a) out])
  end.

Fixpoint turns (authz : option (list byte -> bool -> bool)) (l : list arrival) (lp : loop) : loop * list effect :=
  match l with
  | [] => (lp, [])
  | a :: l' => let '(lp, eff) := turn authz a lp in let '(lp, eff') := turns authz l' lp in (lp, eff ++ eff')
  end.

(** [serve] over the frames its budget admits. *)
Definition serve (authz : option (list byte -> bool -> bool)) (l : list arrival) (s : server) : loop * list effect :=
  let '(lp, eff) := turns authz l (mkLoop s [] false false) in
  let '(lp, eff') := flush lp in (lp, eff ++ eff').
End server.
Arguments server : clear implicits.
Arguments loop : clear implicits.
