(* ===== verification/ServerCorrect.v ===== *)
(** ServerCorrect: what the protocol server promises.  The abstract server is a log of
    submissions, a table of answers and the SQL engine; the server of [Server] is shown to
    refine it, frame by frame, over any storage engine behind the [EngineSpec] interface,
    with the executor of [TxnCorrect] running its batches. *)

From Stdlib Require Import ZArith Lia Strings.Byte.
From stdpp Require Import base list sets numbers strings.
From S2P Require Import Prelude Core Disk Mvcc Oracle WalEngine WalInvariant WalRefine Txn TxnCorrect TxnCheckers Protocol Database Server.
#[local] Open Scope Z_scope.

Module O := StrictSerialOracle.

(** ** The effect of a submission *)

Record submission := mkSub { sub_key : Z; sub_op : SubmitOp; sub_params : list OpParam }.

Definition sub_fn (s : submission) : TxnFn := materialize (sub_key s) (sub_op s) (sub_params s).

Definition balance (wss : list WriteSet) (k : Key) : Z := parse_balance (value_after wss k).

(** The write-set an operation commits after the write-sets [wss]. *)
Definition writes_of (wss : list WriteSet) (op : SubmitOp) (ps : list OpParam) : WriteSet :=
  let a := param 0 ps in
  let b := param 1 ps in
  match op with
  | PutOp => [(p_key a, p_value a)]
  | Transfer =>
      map_set (p_key b) (encode_balance (i64 (balance wss (p_key b) + p_amount a)))
        [(p_key a, encode_balance (i64 (balance wss (p_key a) - p_amount a)))]
  | Increment => [(p_key a, encode_balance (i64 (balance wss (p_key a) + p_amount a)))]
  end.

Definition result_of (op : SubmitOp) (ps : list OpParam) : list byte :=
  let a := p_key (param 0 ps) in
  match op with
  | PutOp => token "put:" ++ a
  | Transfer => token "xfer:" ++ a ++ token "->" ++ p_key (param 1 ps)
  | Increment => token "inc:" ++ a
  end.

(** The write-sets of a log of submissions, each computed from those before it. *)
Definition history (subs : list submission) : list WriteSet :=
  fold_left (fun wss s => wss ++ [writes_of wss (sub_op s) (sub_params s)]) subs [].

Lemma history_snoc subs s : history (subs ++ [s]) = history subs ++ [writes_of (history subs) (sub_op s) (sub_params s)].
Proof. unfold history. by rewrite fold_left_app. Qed.

Lemma history_length subs : Zlen (history subs) = Zlen subs.
Proof. induction subs as [|s subs IH] using rev_ind; [done|]. rewrite history_snoc, !Zlen_app, IH. done. Qed.

Lemma writes_of_sorted wss op ps : key_sorted (writes_of wss op ps).
Proof. destruct op; cbn [writes_of]; try (apply map_set_sorted); repeat constructor. Qed.

Lemma history_sorted subs : Forall key_sorted (history subs).
Proof.
  induction subs as [|s subs IH] using rev_ind; [constructor|].
  rewrite history_snoc. apply Forall_app. split; [done|]. repeat constructor. apply writes_of_sorted.
Qed.

Lemma map_set_length {A} k (v : A) m : (length (map_set k v m) <= S (length m))%nat.
Proof.
  induction m as [|[k' v'] m IH]; cbn [map_set]; [done|].
  destruct (key_ltb k' k); [cbn; lia|]. destruct (key_eqb k' k); cbn; lia.
Qed.

Lemma writes_of_length wss op ps : Zlen (writes_of wss op ps) <= 2.
Proof.
  unfold Zlen. destruct op; cbn [writes_of]; [cbn; lia| |cbn; lia].
  etrans; [apply Nat2Z.inj_le, map_set_length|]. cbn. lia.
Qed.

Lemma history_ops subs : Zlen (ops_of (history subs)) <= 2 * Zlen subs.
Proof.
  induction subs as [|s subs IH] using rev_ind; [done|].
  rewrite history_snoc, ops_of_app, !Zlen_app. pose proof (writes_of_length (history subs) (sub_op s) (sub_params s)).
  assert (Zlen (ops_of [writes_of (history subs) (sub_op s) (sub_params s)]) = Zlen (writes_of (history subs) (sub_op s) (sub_params s))) as ->.
  { unfold ops_of, Zlen. cbn. by rewrite app_nil_r, length_map. }
  change (Zlen [s]) with 1. lia.
Qed.

(** A deletion and an absent key are both the balance zero, so the executor's map, which
    keeps the deletion marker as a value, has the balances of the store. *)
Lemma balance_store wss k : Forall key_sorted wss -> parse_balance (assoc k (store_after wss)) = balance wss k.
Proof.
  intros Hs. unfold balance. induction wss as [|ws wss IH] using rev_ind; [done|].
  apply Forall_app in Hs as [Hs Hw%Forall_inv]. rewrite store_after_snoc, apply_writes_assoc by (done || apply store_after_sorted).
  unfold value_after. rewrite fold_left_app. cbn [fold_left]. unfold write_value at 1.
  destruct (assoc k ws) as [v|]; [|by apply IH].
  destruct (key_eqb_spec v delete_sentinel) as [->|]; done.
Qed.

(** ** What the executor returns for a log of submissions *)

Lemma sub_footprint s rv : footprint_ok (to_txn (sub_fn s)) (run_body (to_txn (sub_fn s)) rv) = true.
Proof. by destruct s as [k [] ps]. Qed.

Lemma sub_never_again s retries st : (O.serial_step default_cfg (mkPending (to_txn (sub_fn s)) retries) st).2 = None.
Proof.
  unfold O.serial_step. cbn [p_txn p_retries]. destruct (O.serial_serve _ _ _ _ _) as [rv sv]. by rewrite sub_footprint.
Qed.

(** The body of a submission, on the reads the serial order serves, computes its write-set. *)
Lemma sub_body s wss st v :
  (forall k, parse_balance (assoc k st) = balance wss k) ->
  let oc := run_body (to_txn (sub_fn s)) (O.serial_serve st v (declared_reads (to_txn (sub_fn s))) [] []).1 in
  oc_writes oc = writes_of wss (sub_op s) (sub_params s) /\ oc_result oc = result_of (sub_op s) (sub_params s).
Proof.
  intros Hb. destruct s as [key op ps]. cbn [sub_op sub_params]. unfold sub_fn. cbn [sub_key sub_op sub_params].
  destruct op; cbn [materialize].
  - done.
  - unfold transfer_fn, to_txn, run_body. cbn [fn_body fn_declared declared_reads body O.serial_serve read_strict r_key fst].
    unfold into_outcome, ctx_result, ctx_write, ctx_read, new_ctx. cbn [x_reads x_writes oc_writes oc_result x_result].
    set (ka := p_key (param 0 ps)). set (kb := p_key (param 1 ps)).
    change (map_set ka (assoc ka st) []) with [(ka, assoc ka st)].
    rewrite !assoc_map_set by repeat constructor. rewrite key_eqb_refl.
    assert (Ha : match (if key_eqb kb ka then Some (assoc kb st) else assoc ka [(ka, assoc ka st)]) with Some v => v | None => None end = assoc ka st).
    { destruct (key_eqb_spec kb ka) as [->|]; [done|]. cbn. by rewrite key_eqb_refl. }
    rewrite Ha, !Hb. done.
  - unfold increment_fn, to_txn, run_body. cbn [fn_body fn_declared declared_reads body O.serial_serve read_strict r_key fst].
    unfold into_outcome, ctx_result, ctx_write, ctx_read, new_ctx. cbn [x_reads x_writes oc_writes oc_result x_result map_set assoc].
    rewrite key_eqb_refl, Hb. done.
Qed.

Lemma run_queue_fold {S} (step : QueueEntry -> S -> S * option QueueEntry) q : forall fuel s,
  (length q <= fuel)%nat -> (forall p s, In p q -> (step p s).2 = None) ->
  run_queue step fuel q s = fold_left (fun s p => (step p s).1) q s.
Proof.
  induction q as [|p q IH]; intros fuel s Hf Hn; [by destruct fuel|].
  destruct fuel as [|fuel]; cbn in Hf; [lia|]. cbn [run_queue fold_left].
  pose proof (Hn p s (or_introl eq_refl)) as Hp. destruct (step p s) as [s' again]. cbn in Hp. subst again.
  cbn [option_list]. rewrite app_nil_r. apply IH; [lia|]. intros p' s0 Hin. apply Hn. by right.
Qed.

Definition serial_run (subs : list submission) : O.serial_state :=
  fold_left (fun s p => (O.serial_step default_cfg p s).1) (initial_queue (map to_txn (map sub_fn subs))) (O.mkSerial [] kNoSeq 0 []).

(** What the executor reports of a submission after the write-sets [wss]. *)
Definition commit_of (wss : list WriteSet) (s : submission) (ci : CommitInfo) : Prop :=
  c_status ci = Committed /\ c_commit_version ci = Zlen wss + 1 /\
  c_result ci = result_of (sub_op s) (sub_params s) /\ c_writes_committed ci = writes_of wss (sub_op s) (sub_params s).

Lemma serial_run_snoc subs s :
  serial_run (subs ++ [s]) = (O.serial_step default_cfg (mkPending (to_txn (sub_fn s)) 0) (serial_run subs)).1.
Proof. unfold serial_run, initial_queue. by rewrite !map_app, fold_left_app. Qed.

Lemma serial_step_sub wss s st :
  O.store_ st = store_after wss -> O.version st = Zlen wss -> Forall key_sorted wss -> Zlen wss + 1 < 2 ^ 64 ->
  let st' := (O.serial_step default_cfg (mkPending (to_txn (sub_fn s)) 0) st).1 in
  O.store_ st' = store_after (wss ++ [writes_of wss (sub_op s) (sub_params s)]) /\ O.version st' = Zlen wss + 1 /\
  exists ci, O.out st' = O.out st ++ [ci] /\ commit_of wss s ci.
Proof.
  intros Hst Hv Hs Hl. unfold O.serial_step. cbn [p_txn p_retries].
  pose proof (sub_body s wss (O.store_ st) (O.version st)) as Hb.
  destruct (O.serial_serve _ _ _ _ _) as [rv sv] eqn:Es. cbn [fst] in Hb.
  rewrite sub_footprint. cbn [negb fst O.store_ O.version O.out].
  destruct Hb as [Hw Hr]; [intros k; rewrite Hst; by apply balance_store|].
  pose proof (Zlen_nonneg wss). rewrite Hw, Hst, Hv, store_after_snoc, u64_id by lia.
  split; [done|]. split; [done|]. eexists. split; [done|]. by unfold commit_of, commit_info.
Qed.

Lemma serial_run_state subs : Zlen subs < 2 ^ 64 ->
  O.store_ (serial_run subs) = store_after (history subs) /\ O.version (serial_run subs) = Zlen subs.
Proof.
  induction subs as [|s subs IH] using rev_ind; intros Hl; [done|]. rewrite Zlen_app in Hl. change (Zlen [s]) with 1 in Hl.
  destruct IH as [H1 H2]; [lia|]. rewrite serial_run_snoc, history_snoc, Zlen_app. rewrite <- (history_length subs) in H2 |- *. pose proof (history_length subs).
  destruct (serial_step_sub (history subs) s (serial_run subs)) as (H3 & H4 & _); [done..|apply history_sorted|lia|].
  rewrite H3, H4. done.
Qed.

Lemma sub_ok s : txn_ok 2 (to_txn (sub_fn s)).
Proof.
  split.
  - intros rv. destruct s as [k [] ps]; unfold Zlen, to_txn, run_body; cbn -[map_set];
    (etrans; [apply Nat2Z.inj_le, map_set_length|]); cbn; lia.
  - intros r Hr. destruct s as [k [] ps]; cbn in Hr; intuition (subst; cbn; unfold kNoSeq; lia).
Qed.

Lemma sub_strict s : strict_txn (to_txn (sub_fn s)).
Proof. intros r Hr. destruct s as [k [] ps]; cbn in Hr; by intuition subst. Qed.

Lemma in_subs t subs : In t (map to_txn (map sub_fn subs)) -> exists s, t = to_txn (sub_fn s).
Proof. rewrite map_map. intros (s & <- & _)%in_map_iff. eauto. Qed.

(** Running a log through the real executor reports its last submission. *)
Lemma submit_last subs s : 2 * Zlen (subs ++ [s]) <= kCap ->
  exists ci, last (commits (submit (map sub_fn (subs ++ [s])) default_cfg)) = Some ci /\ commit_of (history subs) s ci.
Proof.
  intros Hc. assert (Hlen : Zlen (map to_txn (map sub_fn (subs ++ [s]))) = Zlen (subs ++ [s])) by (unfold Zlen; by rewrite !length_map).
  assert (Hsmall : Zlen (subs ++ [s]) < 2 ^ 64) by (unfold kCap in Hc; lia).
  unfold submit, submit_batch.
  rewrite (strict_batch (HE := @wal_spec WalEngine.default_factory) default_cfg 2 (Zlen (subs ++ [s])));
    [|cbn; lia|lia|lia|apply (fresh_inv _ wal_only_fresh)|by intros t (s' & ->)%in_subs; apply sub_ok
     |by rewrite Hlen|by rewrite Hlen|by intros t (s' & ->)%in_subs; apply sub_strict].
  unfold O.submit_batch. cbn [commits]. rewrite run_queue_fold; cycle 1.
  - unfold batch_fuel, initial_queue. rewrite !length_map. lia.
  - intros p st (t & <- & (s' & ->)%in_subs)%in_map_iff. apply sub_never_again.
  - fold (serial_run (subs ++ [s])). rewrite Zlen_app in Hsmall. change (Zlen [s]) with 1 in Hsmall.
    destruct (serial_run_state subs) as [H1 H2]; [lia|]. rewrite serial_run_snoc. rewrite <- (history_length subs) in H2. pose proof (history_length subs).
    destruct (serial_step_sub (history subs) s (serial_run subs)) as (_ & _ & ci & -> & Hci); [done..|apply history_sorted|lia|].
    exists ci. by rewrite last_snoc.
Qed.

(** ** The abstract server *)

Section refinement.
Context {E : Type} `{EngineSpec E}.
Context {Q : Type} (sql_exec : list byte -> Q -> ExecResult * Q).
Notation server := (server E Q).
Notation dispatch := (dispatch sql_exec).

Record abstract := mkAbs {
  log : list submission;
  answers : list (Z * ResponseBody);
  sql_state : Q
}.

Definition answer_of (key : Z) (a : abstract) : option ResponseBody :=
  option_map snd (List.find (fun e => e.1 =? key) (answers a)).

(** The step as the query builder keeps it. *)
Definition built (s : Step) : Step :=
  match st_kind s with
  | Point => mkStep Point (st_key s) [] false
  | RangeStep => mkStep RangeStep (st_key s) (if st_hi_unbounded s then [] else st_hi s) (st_hi_unbounded s)
  end.

Definition key_of (b : RequestBody) : option Z :=
  match b with Submit k _ _ | SqlExec k _ => Some k | _ => None end.

Definition submit_answer (wss : list WriteSet) (s : submission) : ResponseBody :=
  SubmitOk 0 (Zlen wss + 1) (result_of (sub_op s) (sub_params s)) (writes_of wss (sub_op s) (sub_params s)).

Definition sql_answer (er : ExecResult) : ResponseBody :=
  SqlResult (er_ok er) (er_error er) (er_affected er) (er_rows er) (er_blob er).

(** [steps a req r a'] : the request may be answered by [r], leaving [a']. *)
Inductive steps (a : abstract) : RequestBody -> ResponseBody -> abstract -> Prop :=
| S_ping : steps a Ping Pong a
| S_again b k r : key_of b = Some k -> answer_of k a = Some r -> steps a b r a
| S_submit k op ps :
    answer_of k a = None ->
    let s := mkSub k op ps in
    let r := submit_answer (history (log a)) s in
    steps a (Submit k op ps) r (mkAbs (log a ++ [s]) ((k, r) :: answers a) (sql_state a))
| S_sql k sql er q :
    answer_of k a = None -> sql_exec sql (sql_state a) = (er, q) ->
    steps a (SqlExec k sql) (sql_answer er) (mkAbs (log a) ((k, sql_answer er) :: answers a) q)
| S_query l sv ml se qs p ranges :
    promised (wire_tag l sv ml se) (Zlen (log a)) p ->
    let wss := take (Z.to_nat p) (history (log a)) in
    Forall2 (range_ok wss) (List.filter (fun s => negb (is_point s)) (map built qs)) ranges ->
    steps a (QueryReq l sv ml se qs)
      (QueryOk l p (map (fun s => wire_point (st_key s, value_after wss (st_key s))) (List.filter is_point qs))
         (map wire_range ranges)) a.

(** ** The server refines it *)

Record refines (s : server) (a : abstract) : Prop := {
  rf_store : store_inv (db_ s) (history (log a));
  rf_batch : batch_ s = map sub_fn (log a);
  rf_memo : map (fun e => (e.1, resp_body e.2)) (dedup_ s) = answers a;
  rf_sql : sql_eng_ s = sql_state a;
  rf_applied : applied_ s = Zlen (log a);
  rf_tip : tip_ s = Zlen (log a)
}.

Lemma memo_answer s a k : refines s a -> option_map resp_body (memo k s) = answer_of k a.
Proof.
  intros Hr. unfold memo, answer_of. rewrite <- (rf_memo _ _ Hr). induction (dedup_ s) as [|e l IH]; [done|].
  cbn [List.find map]. cbn [fst]. destruct (e.1 =? k); [done|exact IH].
Qed.

Lemma memo_none s a k : refines s a -> memo k s = None -> answer_of k a = None.
Proof. intros Hr Hm. by rewrite <- (memo_answer _ _ _ Hr), Hm. Qed.

Lemma memo_some s a k r : refines s a -> memo k s = Some r -> answer_of k a = Some (resp_body r).
Proof. intros Hr Hm. by rewrite <- (memo_answer _ _ _ Hr), Hm. Qed.

Lemma built_query t qs : fold_left add_step qs (new_query t) = mkQuery t (map built qs).
Proof.
  unfold new_query. change (map built qs) with ([] ++ map built qs). generalize (@nil Step) as acc.
  induction qs as [|s qs IH]; intros acc; cbn [fold_left map]; [by rewrite app_nil_r|].
  assert (add_step (mkQuery t acc) s = mkQuery t (acc ++ [built s])) as ->.
  { destruct s as [[] k hi []]; done. }
  by rewrite IH, <- app_assoc.
Qed.

Lemma built_points {A} (f : Key -> A) qs :
  map (fun s => f (st_key s)) (List.filter is_point (map built qs)) = map (fun s => f (st_key s)) (List.filter is_point qs).
Proof.
  induction qs as [|s qs IH]; [done|]. destruct s as [[] k hi hu]; cbn; [|exact IH]. f_equal. exact IH.
Qed.

Lemma query_refines s a id l sv ml se qs : refines s a -> 0 <= sv -> 0 <= ml ->
  exists r, handle_query id l sv ml se qs s = mkResponse id r /\ steps a (QueryReq l sv ml se qs) r a.
Proof.
  intros Hr Hsv Hml. unfold handle_query, run_query, plan_query. rewrite built_query.
  cbn [q_tag q_steps pl_level pl_read_prefix pl_steps]. rewrite (store_tip _ _ (rf_store _ _ Hr)), history_length.
  set (t := wire_tag l sv ml se). set (lag := match l with BoundedStaleness => ml | _ => 0 end).
  assert (Hp : promised t (Zlen (log a)) (resolve_prefix t (Zlen (log a)) lag 0)).
  { pose proof (Zlen_nonneg (log a)). apply resolve_promised; try lia; unfold lag, t; by destruct l. }
  set (p := resolve_prefix t (Zlen (log a)) lag 0) in *.
  assert (Hp2 : 0 <= p <= Zlen (history (log a))) by (rewrite history_length; apply Hp).
  destruct (fold_steps (db_ s) (history (log a)) t p (map built qs) (rf_store _ _ Hr) (history_sorted _) Hp2
              (mkResult (tag_level t) p [] [] [])) as (rgs & srs & -> & Hrg & _).
  cbn [qr_level qr_served_version qr_points qr_ranges app].
  replace (tag_level t) with l by (unfold t; by destruct l).
  eexists. split; [done|]. rewrite map_map.
  rewrite (built_points (fun k => wire_point (k, value_after (take (Z.to_nat p) (history (log a))) k))). by constructor.
Qed.

(** The room a log may take in the engine behind the store and in the executor's. *)
Definition fits (subs : list submission) : Prop := 2 * Zlen subs <= capacity /\ 2 * Zlen subs <= kCap.

Lemma effect_store s a sb op : refines s a -> fits (log a ++ [sb]) ->
  let s' := apply_effect op (writes_of (history (log a)) (sub_op sb) (sub_params sb)) s in
  store_inv (db_ s') (history (log a ++ [sb])) /\ tip_ s' = Zlen (log a ++ [sb]) /\ applied_ s' = Zlen (log a ++ [sb]).
Proof.
  intros Hr [Hc Hk]. pose proof (history_ops (log a ++ [sb])) as Hops. rewrite history_snoc in Hops |- *.
  unfold apply_effect. cbn [db_ tip_ applied_]. set (ws := writes_of _ _ _) in *.
  set (db := if write_only op && has_net s then _ else _).
  assert (Hdb : store_inv db (history (log a) ++ [ws])).
  { unfold db. destruct (write_only op && has_net s); [apply apply_nosync_inv|apply apply_inv]; try lia; apply (rf_store _ _ Hr). }
  split; [done|]. rewrite (store_tip _ _ Hdb), (rf_applied _ _ Hr), !Zlen_app, history_length in *. change (Zlen [sb]) with 1 in *.
  change (Zlen [ws]) with 1. split; [done|]. apply u64_id. pose proof (Zlen_nonneg (log a)). unfold kCap in Hk. lia.
Qed.

Lemma handle_new (s : server) id k op ps ci : memo k s = None ->
  last (commits (submit (if write_only op then [materialize k op ps] else batch_ s ++ [materialize k op ps]) default_cfg)) = Some ci ->
  c_status ci = Committed ->
  let s' := apply_effect op (c_writes_committed ci) s in
  let r := mkResponse id (SubmitOk 0 (if write_only op then tip_ s' else c_commit_version ci) (c_result ci) (c_writes_committed ci)) in
  handle_submit id k op ps s = (r, memoize k r (set_batch (batch_ s ++ [materialize k op ps]) s')).
Proof.
  intros Hm Hci Hst. unfold handle_submit. rewrite Hm.
  destruct (write_only op) eqn:Hw; cbn [batch_ set_batch]; rewrite Hci, Hst; unfold apply_effect; rewrite Hw; reflexivity.
Qed.

(** What the executor says of a submission the server runs. *)
Lemma submit_new s a k op ps : refines s a -> fits (log a ++ [mkSub k op ps]) ->
  exists ci, last (commits (submit (if write_only op then [materialize k op ps] else batch_ s ++ [materialize k op ps]) default_cfg)) = Some ci /\
    c_status ci = Committed /\ c_result ci = result_of op ps /\ c_writes_committed ci = writes_of (history (log a)) op ps /\
    (write_only op = false -> c_commit_version ci = Zlen (history (log a)) + 1).
Proof.
  intros Hr Hf. destruct (write_only op) eqn:Hw.
  - destruct op; try done. destruct (submit_last [] (mkSub k PutOp ps)) as (ci & E1 & H1 & _ & H3 & H4); [done|]. by exists ci.
  - destruct (submit_last (log a) (mkSub k op ps) (proj2 Hf)) as (ci & E1 & H1 & H2 & H3 & H4). exists ci.
    rewrite map_app, <- (rf_batch _ _ Hr) in E1. done.
Qed.

Lemma submit_refines s a id k op ps : refines s a -> fits (log a ++ [mkSub k op ps]) ->
  exists r a', (handle_submit id k op ps s).1 = mkResponse id r /\ steps a (Submit k op ps) r a' /\
    refines (handle_submit id k op ps s).2 a'.
Proof.
  intros Hr Hf. destruct (memo k s) as [c|] eqn:Hm.
  { exists (resp_body c), a. unfold handle_submit. rewrite Hm. split; [done|]. split; [|done]. by eapply S_again; [|eapply memo_some]. }
  set (sb := mkSub k op ps) in *.
  exists (submit_answer (history (log a)) sb), (mkAbs (log a ++ [sb]) ((k, submit_answer (history (log a)) sb) :: answers a) (sql_state a)).
  destruct (submit_new s a k op ps Hr Hf) as (ci & Hci & Hstat & Hres & Hws & Hcv).
  destruct (effect_store s a sb op Hr Hf) as (Hst & Htip & Happ). cbn [sub_op sub_params sb] in Hst, Htip, Happ.
  rewrite (handle_new _ _ _ _ _ _ Hm Hci Hstat), Hres, Hws. cbn [fst snd].
  assert (Hbody : SubmitOk 0 (if write_only op then tip_ (apply_effect op (writes_of (history (log a)) op ps) s) else c_commit_version ci)
      (result_of op ps) (writes_of (history (log a)) op ps) = submit_answer (history (log a)) sb).
  { unfold submit_answer. cbn [sub_op sub_params sb]. f_equal. destruct (write_only op); [|by apply Hcv].
    by rewrite Htip, history_length, Zlen_app. }
  rewrite Hbody. split; [done|]. split; [by apply S_submit, (memo_none s)|].
  split; cbn [db_ batch_ dedup_ sql_eng_ applied_ tip_ log answers sql_state memoize set_batch map fst snd]; try done.
  - by rewrite map_app, (rf_batch _ _ Hr).
  - by rewrite <- (rf_memo _ _ Hr).
  - apply (rf_sql _ _ Hr).
Qed.

Lemma sql_refines s a id k sql : refines s a ->
  exists r a', (handle_sql sql_exec id k sql s).1 = mkResponse id r /\ steps a (SqlExec k sql) r a' /\
    refines (handle_sql sql_exec id k sql s).2 a'.
Proof.
  intros Hr. unfold handle_sql. destruct (memo k s) as [c|] eqn:Hm.
  { exists (resp_body c), a. split; [done|]. split; [|done]. by eapply S_again; [|eapply memo_some]. }
  rewrite (rf_sql _ _ Hr). destruct (sql_exec sql (sql_state a)) as [er q] eqn:Hx. eexists _, _. split; [done|].
  split; [by apply S_sql; [eapply memo_none|done]|]. cbn [fst snd]. destruct Hr as [H1 H2 H3 H4 H5 H6].
  split; cbn [db_ batch_ dedup_ sql_eng_ applied_ tip_ log answers sql_state memoize set_batch map fst snd]; try done.
  by rewrite <- H3.
Qed.

(** The log after a request is at most one submission longer. *)
Definition room (b : RequestBody) (a : abstract) : Prop :=
  match b with Submit k op ps => fits (log a ++ [mkSub k op ps]) | _ => True end.

Lemma dispatch_refines s a req : refines s a -> request_wf req -> room (req_body req) a ->
  exists r a', (dispatch req s).1 = mkResponse (req_id req) r /\ steps a (req_body req) r a' /\ refines (dispatch req s).2 a'.
Proof.
  intros Hr [_ Hwf] Hroom. unfold Server.dispatch. destruct (req_body req) as [|k op ps|l sv ml se qs|k sql].
  - exists Pong, a. split; [done|]. split; [constructor|done].
  - by apply submit_refines.
  - destruct Hwf as ([Hsv _] & [Hml _] & _). destruct (query_refines s a (req_id req) l sv ml se qs Hr Hsv Hml) as (r & -> & Hs).
    by exists r, a.
  - by apply sql_refines.
Qed.

(** ** The receive loop *)

Definition accepted (authz : option (list byte -> bool -> bool)) (a : arrival) : option Request :=
  match decode_request (a_frame a) with
  | Some req => if refused authz (a_principal a) (req_body req) then None else Some req
  | None => None
  end.

(** How a response leaves: parked when its write waits for the shared sync. *)
Definition reply (to : Z) (req : Request) (r : ResponseBody) : effect :=
  let out := encode_response (mkResponse (req_id req) r) in
  let keyed := keyed_put (req_body req) in
  let sql := sql_write (req_body req) r in
  if keyed || sql then Parked to out keyed sql else Answered to out.

(** The replies the abstract server gives to a run of frames: none to a frame that does not
    decode, a denial to a request the policy refuses, which changes nothing, and to every
    other request the answer of a step. *)
Inductive conversation (authz : option (list byte -> bool -> bool)) : abstract -> list arrival -> list effect -> abstract -> Prop :=
| C_nil a : conversation authz a [] [] a
| C_torn a f fs out a' :
    decode_request (a_frame f) = None -> conversation authz a fs out a' -> conversation authz a (f :: fs) out a'
| C_denied a f fs out a' req :
    decode_request (a_frame f) = Some req -> refused authz (a_principal f) (req_body req) = true ->
    conversation authz a fs out a' ->
    conversation authz a (f :: fs) (Answered (a_from f) (encode_response (denied (req_id req) (a_principal f))) :: out) a'
| C_served a f fs out a1 a' req r :
    accepted authz f = Some req -> steps a (req_body req) r a1 -> conversation authz a1 fs out a' ->
    conversation authz a (f :: fs) (reply (a_from f) req r :: out) a'.

Definition is_reply (e : effect) : bool := match e with Answered _ _ | Parked _ _ _ _ => true | _ => false end.

Definition replies (l : list effect) : list effect := List.filter is_reply l.

Lemma replies_app l1 l2 : replies (l1 ++ l2) = replies l1 ++ replies l2.
Proof. apply List.filter_app. Qed.

Lemma replies_released ps : replies (map (fun p => Released p.1 p.2) ps) = [].
Proof. by induction ps. Qed.

Lemma flush_refines (l : loop E Q) a : refines (lp_server l) a ->
  refines (lp_server (flush l).1) a /\ replies (flush l).2 = [].
Proof.
  intros [H1 H2 H3 H4 H5 H6]. unfold flush. destruct (parked l) as [|p ps]; [done|]. cbn [fst snd lp_server]. split.
  - split; cbn [db_ batch_ dedup_ sql_eng_ applied_ tip_]; try done. destruct (keyed_dirty l); [by apply sync_inv|done].
  - cbn [replies List.filter is_reply]. apply replies_released.
Qed.

Lemma steps_log a b r a' : steps a b r a' -> log a' = log a \/ exists sb, log a' = log a ++ [sb].
Proof. destruct 1; cbn; eauto. Qed.

Definition room_for (n : Z) (a : abstract) : Prop := 2 * (Zlen (log a) + n) <= capacity /\ 2 * (Zlen (log a) + n) <= kCap.

Lemma room_for_one n a b : 1 <= n -> room_for n a -> room b a.
Proof. intros Hn [H1 H2]. destruct b; try done. unfold room, fits. rewrite Zlen_app. change (Zlen [_]) with 1. lia. Qed.

Lemma room_for_step n a b r a' : room_for n a -> steps a b r a' -> room_for (n - 1) a'.
Proof. intros [H1 H2] Hs%steps_log. unfold room_for. destruct Hs as [->|[sb ->]]; rewrite ?Zlen_app; change (Zlen [_]) with 1; lia. Qed.

Notation turn := (turn sql_exec).
Notation turns := (turns sql_exec).
Notation serve := (serve sql_exec).

(** One frame: what it does to the loop beyond the flush that may precede it. *)
Lemma turn_refines authz f (l : loop E Q) a : refines (lp_server l) a -> room_for 1 a ->
  exists out a', (forall fs o a2, conversation authz a' fs o a2 -> conversation authz a (f :: fs) (out ++ o) a2) /\
    (a' = a \/ exists b r, steps a b r a') /\
    replies (turn authz f l).2 = out /\ refines (lp_server (turn authz f l).1) a'.
Proof.
  intros Hr Hroom. unfold Server.turn.
  assert (Hfl : exists l1 eff, (if a_idle f then flush l else (l, [])) = (l1, eff) /\ refines (lp_server l1) a /\ replies eff = []).
  { destruct (a_idle f); [|by eexists _, _]. destruct (flush_refines l a Hr). destruct (flush l); by eexists _, _. }
  destruct Hfl as (l1 & eff & -> & Hr1 & Heff).
  destruct (decode_request (a_frame f)) as [req|] eqn:Hd.
  2: { exists [], a. split_and!; [intros; by apply C_torn|by left|done|]. destruct Hr1; by split. }
  destruct (refused authz (a_principal f) (req_body req)) eqn:Hrf.
  { eexists [_], a. split_and!; [intros; by eapply C_denied|by left|cbn [snd]; by rewrite replies_app, Heff|]. destruct Hr1; by split. }
  destruct (dispatch_refines (lp_server l1) a req Hr1) as (r & a' & Hresp & Hst & Hr2);
    [by eapply decode_request_fits|by eapply room_for_one|].
  destruct (dispatch req (lp_server l1)) as [resp s']. cbn [fst snd] in Hresp, Hr2. subst resp. cbn [resp_body].
  exists [reply (a_from f) req r], a'. split.
  { intros. eapply C_served; [|done|done]. unfold accepted. by rewrite Hd, Hrf. }
  split; [by right; eexists _, _|]. unfold reply.
  destruct (keyed_put (req_body req) || sql_write (req_body req) r); cbn [fst snd lp_server]; by rewrite replies_app, Heff.
Qed.

Lemma turns_refine authz fs : forall (l : loop E Q) a, refines (lp_server l) a -> room_for (Zlen fs) a ->
  exists a', conversation authz a fs (replies (turns authz fs l).2) a' /\ refines (lp_server (turns authz fs l).1) a'.
Proof.
  induction fs as [|f fs IH]; intros l a Hr Hroom; [by exists a; split; [constructor|]|].
  change (f :: fs) with ([f] ++ fs) in Hroom. rewrite Zlen_app in Hroom. change (Zlen [f]) with 1 in Hroom.
  pose proof (Zlen_nonneg fs) as Hn.
  destruct (turn_refines authz f l a Hr) as (out & a1 & Hconv & Hstep & Hout & Hr1); [destruct Hroom; split; lia|].
  cbn [Server.turns]. destruct (turn authz f l) as [l1 eff]. cbn [fst snd] in *.
  destruct (IH l1 a1 Hr1) as (a' & Hc & Hr2).
  { destruct Hstep as [->|(b & r & Hst)]; [destruct Hroom; split; lia|].
    replace (Zlen fs) with (1 + Zlen fs - 1) by lia. by eapply room_for_step. }
  destruct (turns authz fs l1) as [l2 eff']. cbn [fst snd] in *. exists a'. split; [|done].
  rewrite replies_app, Hout. by apply Hconv.
Qed.

Lemma serve_step authz fs s a : refines s a -> room_for (Zlen fs) a ->
  exists a', conversation authz a fs (replies (serve authz fs s).2) a' /\ refines (lp_server (serve authz fs s).1) a'.
Proof.
  intros Hr Hroom. unfold Server.serve. destruct (turns_refine authz fs (mkLoop s [] false false) a Hr Hroom) as (a' & Hc & Hr').
  destruct (turns authz fs _) as [l eff]. cbn [fst snd] in *. destruct (flush_refines l a' Hr') as [Hf Hrep].
  destruct (flush l) as [l' eff']. cbn [fst snd] in *. exists a'. split; [|done]. by rewrite replies_app, Hrep, app_nil_r.
Qed.

Definition fresh (q : Q) : abstract := mkAbs [] [] q.

Lemma new_refines net e q : repr e [] -> refines (new_server net e q) (fresh q).
Proof. intros He. split; done || by apply new_store_inv. Qed.

(** *** Exactly once *)

(** Every answered key stays answered, and no key is submitted twice. *)
Definition answered (k : Z) (a : abstract) : Prop := answer_of k a <> None.

Record once (a : abstract) : Prop := {
  on_nodup : NoDup (map sub_key (log a));
  on_answered : forall k, In k (map sub_key (log a)) -> answered k a
}.

Lemma answered_cons k k' r a l q : answered k a -> answered k (mkAbs l ((k', r) :: answers a) q).
Proof. unfold answered, answer_of. cbn. by destruct (k' =? k). Qed.

Lemma answered_here k r a l q : answered k (mkAbs l ((k, r) :: answers a) q).
Proof. unfold answered, answer_of. cbn. by rewrite Z.eqb_refl. Qed.

Lemma steps_answered a b r a' : steps a b r a' ->
  (forall k, answered k a -> answered k a') /\ (forall k, key_of b = Some k -> answered k a').
Proof.
  destruct 1 as [|b k r Hk Ha| | |]; (split; [intros k0 Hk0|intros k0 Hk0]); try done;
    try (by apply answered_cons); try (injection Hk0 as ->; apply answered_here).
  simplify_eq. unfold answered. by rewrite Ha.
Qed.

Lemma steps_once a b r a' : steps a b r a' -> once a -> once a'.
Proof.
  intros Hs [Hnd Han]. destruct Hs as [| |k op ps Hn| |]; try done; (split; cbn [log] in *; [|]); try done.
  - rewrite map_app. apply NoDup_app. split; [done|]. split; [|apply NoDup_singleton].
    intros k' Hin%list_elem_of_In [-> |[]%not_elem_of_nil]%elem_of_cons. by apply (Han k).
  - intros k'. rewrite map_app. intros [Hin|[<-|[]]]%in_app_or; [by apply answered_cons, Han|apply answered_here].
  - intros k' Hin. by apply answered_cons, Han.
Qed.

(** Where the submissions of the log come from. *)
Definition asked authz (fs : list arrival) (b : RequestBody) : Prop :=
  exists f req, In f fs /\ accepted authz f = Some req /\ req_body req = b.

Lemma asked_cons authz f fs b : asked authz fs b -> asked authz (f :: fs) b.
Proof. intros (f' & req & Hin & H1 & H2). exists f', req. split; [by right|done]. Qed.

Definition from_frames authz (fs : list arrival) (a a' : abstract) : Prop :=
  (forall sb, In sb (log a') -> In sb (log a) \/ asked authz fs (Submit (sub_key sb) (sub_op sb) (sub_params sb))) /\
  (forall k, answered k a' -> answered k a \/ In k (map sub_key (log a')) \/ exists sql, asked authz fs (SqlExec k sql)) /\
  (forall b k, asked authz fs b -> key_of b = Some k -> answered k a').

Lemma steps_from_frames authz f fs req a a1 r a' :
  accepted authz f = Some req -> steps a (req_body req) r a1 -> (forall k, answered k a1 -> answered k a') ->
  (forall sb, In sb (log a1) -> In sb (log a')) ->
  from_frames authz fs a1 a' -> from_frames authz (f :: fs) a a'.
Proof.
  intros Hacc Hst Hmono Hlog (H1 & H2 & H3).
  assert (Hf : asked authz (f :: fs) (req_body req)) by (exists f, req; split; [by left|done]).
  split; [|split].
  - intros sb Hin. destruct (H1 sb Hin) as [Hin1|Ha]; [|right; by apply asked_cons]. clear -Hin1 Hst Hf.
    remember (req_body req) as b eqn:Eb. destruct Hst as [| |k op ps Hn| |]; try (by left). cbn in Hin1.
    apply in_app_or in Hin1 as [?|[<-|[]]]; [by left|by right].
  - intros k Hk. destruct (H2 k Hk) as [Hk1|[Hk1|(sql & Hk1)]]; [|by right; left|right; right; exists sql; by apply asked_cons].
    clear -Hk1 Hst Hf Hlog. remember (req_body req) as b eqn:Eb. destruct Hst as [| |k' op ps Hn|k' sql er q Hn Hx|]; try (by left).
    + unfold answered, answer_of in Hk1. cbn in Hk1. destruct (Z.eqb_spec k' k) as [->|]; [|by left]. right. left.
      apply in_map_iff. exists (mkSub k op ps). split; [done|]. apply Hlog. cbn. apply in_or_app. right. by left.
    + unfold answered, answer_of in Hk1. cbn in Hk1. destruct (Z.eqb_spec k' k) as [->|]; [|by left]. right. right. by exists sql.
  - intros b k (f' & req' & [<-|Hin] & Hacc' & <-) Hk.
    + rewrite Hacc in Hacc'. injection Hacc' as <-. apply Hmono. eapply steps_answered; eauto.
    + eapply H3; [by exists f', req'|done].
Qed.

Lemma asked_skip authz f fs b : accepted authz f = None -> asked authz (f :: fs) b -> asked authz fs b.
Proof. intros Hn (f' & req & [<-|Hin] & Ha & Hb); [congruence|by exists f', req]. Qed.

Lemma from_frames_skip authz f fs a a' : accepted authz f = None -> from_frames authz fs a a' -> from_frames authz (f :: fs) a a'.
Proof.
  intros Hn (H1 & H2 & H3). split; [|split].
  - intros sb [?|?]%H1; [by left|right; by apply asked_cons].
  - intros k [?|[?|(sql & ?)]]%H2; [by left|by right; left|right; right; exists sql; by apply asked_cons].
  - intros b k Ha%asked_skip; eauto.
Qed.

Lemma conversation_once authz a fs out a' : conversation authz a fs out a' ->
  (once a -> once a') /\ (forall k, answered k a -> answered k a') /\ (forall sb, In sb (log a) -> In sb (log a')) /\
  from_frames authz fs a a'.
Proof.
  induction 1 as [a|a f fs out a' Hd _ (I1 & I2 & I3 & I4)|a f fs out a' req Hd Hrf _ (I1 & I2 & I3 & I4)
                 |a f fs out a1 a' req r Hacc Hst _ (I1 & I2 & I3 & I4)].
  - split_and!; try done. split; [by left|]. split; [by left|]. by intros b k (f & req & [] & _).
  - split_and!; try done. apply from_frames_skip; [|done]. unfold accepted. by rewrite Hd.
  - split_and!; try done. apply from_frames_skip; [|done]. unfold accepted. by rewrite Hd, Hrf.
  - destruct (steps_answered _ _ _ _ Hst) as [Hm _]. split_and!.
    + intros Ho. eapply I1, steps_once; eauto.
    + eauto.
    + intros sb Hin. apply I3. destruct (steps_log _ _ _ _ Hst) as [->|[sb' ->]]; [done|]. apply in_or_app. by left.
    + eapply steps_from_frames; eauto.
Qed.

Lemma conversation_length authz a fs out a' : conversation authz a fs out a' -> Zlen (log a') <= Zlen (log a) + Zlen fs.
Proof.
  induction 1 as [a|a f fs out a' _ _ IH|a f fs out a' req _ _ _ IH|a f fs out a1 a' req r _ Hst _ IH];
    [unfold Zlen; cbn; lia|rewrite Zlen_cons; lia..|]. rewrite Zlen_cons.
  destruct (steps_log _ _ _ _ Hst) as [Hl|[sb Hl]]; rewrite Hl, ?Zlen_app in IH; change (Zlen [_]) with 1 in IH; lia.
Qed.

Lemma submit_new_log s a id k op ps : refines s a -> fits (log a ++ [mkSub k op ps]) -> memo k s = None ->
  exists a', refines (handle_submit id k op ps s).2 a' /\ log a' = log a ++ [mkSub k op ps].
Proof.
  intros Hr Hf Hm. destruct (submit_refines s a id k op ps Hr Hf) as (r & a' & _ & Hst & Hr'). exists a'. split; [done|].
  pose proof (memo_none s a k Hr Hm) as Hn. inversion Hst as [|b k' r' Hk Ha| | |]; subst; [|done].
  injection Hk as ->. congruence.
Qed.

Lemma fresh_once q : once (fresh q).
Proof. split; [constructor|done]. Qed.

Lemma room_fresh q n : 2 * n <= capacity -> 2 * n <= kCap -> room_for n (fresh q).
Proof. by split. Qed.

(** *** What a client reads back *)

(** The balance a strict read of the store returns. *)
Definition stored (s : server) (k : Key) : Z :=
  parse_balance (eget k (snap_for (tip (db_ s)) (db_ s)) (engine_ (db_ s))).

Lemma stored_balance s a k : refines s a -> stored s k = balance (history (log a)) k.
Proof.
  intros Hr. unfold stored, balance. f_equal.
  rewrite (store_tip _ _ (rf_store _ _ Hr)), (get_prefix _ _ _ k (rf_store _ _ Hr) (history_sorted _))
    by (pose proof (Zlen_nonneg (history (log a))); lia).
  unfold Zlen. by rewrite Nat2Z.id, firstn_all.
Qed.

Definition total (s : server) (ks : list Key) : Z := foldr Z.add 0 (map (stored s) ks).

End refinement.

Definition in_i64 (x : Z) : Prop := - 2 ^ 63 < x < 2 ^ 63.

Lemma balance_snoc wss ws k : balance (wss ++ [ws]) k = parse_balance (write_value (value_after wss k) k ws).
Proof. unfold balance, value_after. by rewrite fold_left_app. Qed.

Lemma written_balance x : in_i64 x -> key_eqb (encode_balance (i64 x)) delete_sentinel = false /\ parse_balance (Some (encode_balance (i64 x))) = x.
Proof.
  intros Hx. rewrite i64_id by (unfold in_i64 in Hx; lia). pose proof (balance_back x Hx) as Hb. split; [|done].
  destruct (key_eqb_spec (encode_balance x) delete_sentinel) as [Heq|]; [|done]. rewrite Heq in Hb. cbn in Hb. by subst x.
Qed.

(** A transfer between two accounts moves the amount. *)
Lemma transfer_moves wss ps k :
  let a := param 0 ps in
  let b := param 1 ps in
  p_key a <> p_key b -> in_i64 (balance wss (p_key a) - p_amount a) -> in_i64 (balance wss (p_key b) + p_amount a) ->
  balance (wss ++ [writes_of wss Transfer ps]) k =
    balance wss k - (if key_eqb (p_key a) k then p_amount a else 0) + (if key_eqb (p_key b) k then p_amount a else 0).
Proof.
  intros a b Hne Ha Hb. rewrite balance_snoc. unfold write_value, writes_of. fold a b.
  rewrite assoc_map_set by repeat constructor. cbn [assoc].
  destruct (written_balance _ Ha) as [Ha1 Ha2], (written_balance _ Hb) as [Hb1 Hb2].
  destruct (key_eqb_spec (p_key b) k) as [<-|Hbk].
  - destruct (key_eqb_spec (p_key a) (p_key b)); [done|]. rewrite Hb1, Hb2. lia.
  - destruct (key_eqb_spec (p_key a) k) as [<-|Hak].
    + rewrite Ha1, Ha2. lia.
    + unfold balance. lia.
Qed.

Lemma sum_indicator ks k0 x : NoDup ks ->
  foldr Z.add 0 (map (fun k => if key_eqb k0 k then x else 0) ks) = if existsb (key_eqb k0) ks then x else 0.
Proof.
  induction ks as [|k ks IH]; intros Hnd; [done|]. apply NoDup_cons in Hnd as [Hn Hnd]. cbn. rewrite IH by done.
  destruct (key_eqb_spec k0 k) as [->|Hne]; cbn; [|lia]. destruct (existsb (key_eqb k) ks) eqn:Hex; [|lia].
  apply existsb_exists in Hex as (k' & Hin & Heq). destruct (key_eqb_spec k k') as [<-|]; [|done]. by apply list_elem_of_In in Hin.
Qed.

Lemma sum_moved (f : Key -> Z) ks ka kb x : NoDup ks -> In ka ks -> In kb ks ->
  foldr Z.add 0 (map (fun k => f k - (if key_eqb ka k then x else 0) + (if key_eqb kb k then x else 0)) ks) = foldr Z.add 0 (map f ks).
Proof.
  intros Hnd Ha Hb.
  assert (Hsplit : foldr Z.add 0 (map (fun k => f k - (if key_eqb ka k then x else 0) + (if key_eqb kb k then x else 0)) ks) =
    foldr Z.add 0 (map f ks) - foldr Z.add 0 (map (fun k => if key_eqb ka k then x else 0) ks) + foldr Z.add 0 (map (fun k => if key_eqb kb k then x else 0) ks)).
  { clear. induction ks as [|k ks IH]; [done|]. cbn. rewrite IH. lia. }
  assert (Hin : forall k, In k ks -> existsb (key_eqb k) ks = true).
  { intros k Hk. apply existsb_exists. exists k. by rewrite key_eqb_refl. }
  rewrite Hsplit, !sum_indicator, !Hin by done. lia.
Qed.

(** ** Group commit *)

(** The sends of a trace that were parked, and those released. *)
Definition parked_of (e : effect) : option (Z * list byte) := match e with Parked to b _ _ => Some (to, b) | _ => None end.
Definition released_of (e : effect) : option (Z * list byte) := match e with Released to b => Some (to, b) | _ => None end.

(** What a trace leaves open: answers waiting for a sync, answers a sync has covered, and
    the engines with unsynced writes; [None] once a rule is broken. *)
Record open_acks := mkOpen { waiting : list (Z * list byte); covered : list (Z * list byte); dirty_keyed : bool; dirty_sql : bool }.

Definition follow (st : option open_acks) (e : effect) : option open_acks :=
  match st with
  | None => None
  | Some o =>
      match e, covered o with
      | Answered _ _, [] => Some o
      | Parked to b k s, [] => Some (mkOpen (waiting o ++ [(to, b)]) [] (dirty_keyed o || k) (dirty_sql o || s))
      | Synced k s, [] => if eqb k (dirty_keyed o) && eqb s (dirty_sql o) then Some (mkOpen [] (waiting o) false false) else None
      | Released to b, p :: rest =>
          if bool_decide (p = (to, b)) then Some (mkOpen (waiting o) rest (dirty_keyed o) (dirty_sql o)) else None
      | _, _ => None
      end
  end.

Definition follows (l : list effect) (st : option open_acks) : option open_acks := fold_left follow l st.

Section group_commit.
Context {E : Type} `{EngineOps E}.
Context {Q : Type} (sql_exec : list byte -> Q -> ExecResult * Q).

Definition open_of (l : loop E Q) : open_acks := mkOpen (parked l) [] (keyed_dirty l) (sql_dirty l).

Lemma follows_release ps w k s : follows (map (fun p => Released p.1 p.2) ps) (Some (mkOpen w ps k s)) = Some (mkOpen w [] k s).
Proof.
  revert w; induction ps as [|[to b] ps IH]; intros w; [done|]. unfold follows in *. cbn [map fold_left follow covered fst snd].
  rewrite bool_decide_true by done. apply IH.
Qed.

Lemma flush_follows l : follows (flush l).2 (Some (open_of l)) = Some (open_of (flush l).1) /\ parked (flush l).1 = [].
Proof.
  unfold flush. destruct (parked l) as [|p ps] eqn:Hp; [done|]. cbn [fst snd]. split; [|done]. cbn [follows fold_left]. unfold open_of at 1.
  rewrite Hp. cbn [follow covered dirty_keyed dirty_sql waiting]. rewrite !eqb_reflx. cbn [andb]. apply follows_release.
Qed.

Lemma turn_follows authz f l : follows (turn sql_exec authz f l).2 (Some (open_of l)) = Some (open_of (turn sql_exec authz f l).1).
Proof.
  unfold turn. assert (Hfl : exists l1 eff, (if a_idle f then flush l else (l, [])) = (l1, eff) /\ follows eff (Some (open_of l)) = Some (open_of l1)).
  { destruct (a_idle f); [|by eexists _, _]. destruct (flush_follows l) as [Hf _]. destruct (flush l); by eexists _, _. }
  destruct Hfl as (l1 & eff & -> & Heff). destruct (decode_request (a_frame f)) as [req|]; [|done].
  destruct (refused _ _ _); [unfold follows in *; cbn [snd fst]; by rewrite fold_left_app, Heff|].
  destruct (dispatch sql_exec req (lp_server l1)) as [resp s'].
  destruct (keyed_put _ || sql_write _ _); unfold follows in *; cbn [snd fst]; by rewrite fold_left_app, Heff.
Qed.

Lemma turns_follow authz fs : forall l, follows (turns sql_exec authz fs l).2 (Some (open_of l)) = Some (open_of (turns sql_exec authz fs l).1).
Proof.
  induction fs as [|f fs IH]; intros l; [done|]. cbn [turns]. pose proof (turn_follows authz f l) as Ht.
  destruct (turn sql_exec authz f l) as [l1 eff]. cbn [fst snd] in Ht. specialize (IH l1).
  destruct (turns sql_exec authz fs l1) as [l2 eff']. cbn [fst snd] in *. unfold follows in *. by rewrite fold_left_app, Ht.
Qed.

Lemma serve_follows authz fs s : exists kd sd,
  follows (serve sql_exec authz fs s).2 (Some (mkOpen [] [] false false)) = Some (mkOpen [] [] kd sd).
Proof.
  unfold serve. pose proof (turns_follow authz fs (mkLoop s [] false false)) as Ht.
  destruct (turns sql_exec authz fs _) as [l eff]. cbn [fst snd] in Ht. destruct (flush_follows l) as [Hf Hp].
  destruct (flush l) as [l' eff']. cbn [fst snd] in *. unfold follows in *. rewrite fold_left_app.
  change (mkOpen [] [] false false) with (open_of (mkLoop s [] false false)). rewrite Ht, Hf. unfold open_of. rewrite Hp. by eexists _, _.
Qed.
End group_commit.

(** *** What following a trace says about it *)

(** The answer was parked in [l], and since then every sync covers the engines it dirtied. *)
Definition parked_in (l : list effect) (kd sd : bool) (p : Z * list byte) : Prop :=
  exists x y k s, l = x ++ Parked p.1 p.2 k s :: y /\ (k = true -> kd = true) /\ (s = true -> sd = true).

Definition synced_in (l : list effect) (p : Z * list byte) : Prop :=
  exists x y z k s kd sd, l = x ++ Parked p.1 p.2 k s :: y ++ Synced kd sd :: z /\ (k = true -> kd = true) /\ (s = true -> sd = true).

Lemma parked_in_snoc l e kd sd kd' sd' p : parked_in l kd sd p -> (kd = true -> kd' = true) -> (sd = true -> sd' = true) ->
  parked_in (l ++ [e]) kd' sd' p.
Proof. intros (x & y & k & s & -> & H1 & H2) Hk Hs. exists x, (y ++ [e]), k, s. rewrite <- app_assoc. cbn. auto. Qed.

Lemma synced_in_snoc l e p : synced_in l p -> synced_in (l ++ [e]) p.
Proof.
  intros (x & y & z & k & s & kd & sd & -> & H1 & H2). exists x, y, (z ++ [e]), k, s, kd, sd.
  split; [|done]. by rewrite <- app_assoc, <- app_comm_cons, <- app_assoc, <- app_comm_cons.
Qed.

Record trace_ok (l : list effect) (o : open_acks) : Prop := {
  to_fifo : omap parked_of l = omap released_of l ++ covered o ++ waiting o;
  to_waiting : Forall (parked_in l (dirty_keyed o) (dirty_sql o)) (waiting o);
  to_covered : Forall (synced_in l) (covered o);
  to_released : forall l1 to b l2, l = l1 ++ Released to b :: l2 -> synced_in l1 (to, b)
}.

Lemma not_released_split l e l1 to b l2 : released_of e = None -> l ++ [e] = l1 ++ Released to b :: l2 ->
  exists l2', l = l1 ++ Released to b :: l2'.
Proof.
  intros He Heq. destruct l2 as [|e2 l2 _] using rev_ind.
  - apply app_inj_tail in Heq as [_ ->]. done.
  - rewrite app_comm_cons, app_assoc in Heq. apply app_inj_tail in Heq as [-> _]. by exists l2.
Qed.

Lemma trace_ok_step l o e o' : trace_ok l o -> follow (Some o) e = Some o' -> trace_ok (l ++ [e]) o'.
Proof.
  intros [Hf Hw Hc Hr] He. cbn in He.
  assert (Hold : released_of e = None -> forall l1 to b l2, l ++ [e] = l1 ++ Released to b :: l2 -> synced_in l1 (to, b)).
  { intros Hn l1 to b l2 Heq. destruct (not_released_split _ _ _ _ _ _ Hn Heq) as [l2' Hl]. eauto. }
  destruct e as [to b|to b k s|k s|to b]; destruct (covered o) as [|p rest] eqn:Hco; try done; simplify_eq.
  - split; rewrite ?omap_app; cbn; rewrite ?app_nil_r, ?Hco; try done; [|by apply Hold].
    eapply Forall_impl; [exact Hw|]. intros p Hp. by eapply parked_in_snoc.
  - split; rewrite ?omap_app; cbn; rewrite ?app_nil_r; [by rewrite Hf, <- app_assoc| |done|by apply Hold].
    apply Forall_app. split.
    + eapply Forall_impl; [exact Hw|]. intros p Hp. by eapply parked_in_snoc; [exact Hp|intros ->..].
    + repeat constructor. exists l, [], k, s. split; [done|]. by split; intros ->; rewrite orb_true_r.
  - destruct (eqb k (dirty_keyed o) && eqb s (dirty_sql o)) eqn:Hks; [|done]. simplify_eq.
    apply andb_true_iff in Hks as [->%eqb_prop ->%eqb_prop].
    split; rewrite ?omap_app; cbn; rewrite ?app_nil_r; [by rewrite Hf|done| |by apply Hold].
    eapply Forall_impl; [exact Hw|]. intros p (x & y & k & s & -> & H1 & H2).
    exists x, y, [], k, s, (dirty_keyed o), (dirty_sql o). split; [|done]. by rewrite <- app_assoc, <- app_comm_cons.
  - destruct (bool_decide (p = (to, b))) eqn:Hp; [|done]. apply bool_decide_eq_true in Hp as ->. simplify_eq.
    apply Forall_cons in Hc as [Hp Hc].
    split; rewrite ?omap_app; cbn; rewrite ?app_nil_r; [by rewrite Hf, <- app_assoc| | |].
    + eapply Forall_impl; [exact Hw|]. intros p Hpi. by eapply parked_in_snoc.
    + eapply Forall_impl; [exact Hc|]. intros p Hpi. by apply synced_in_snoc.
    + intros l1 to' b' l2 Heq. destruct l2 as [|e2 l2 _] using rev_ind.
      * apply app_inj_tail in Heq as [-> [= -> ->]]. done.
      * rewrite app_comm_cons, app_assoc in Heq. apply app_inj_tail in Heq as [-> _]. eauto.
Qed.

Lemma trace_followed l o : follows l (Some (mkOpen [] [] false false)) = Some o -> trace_ok l o.
Proof.
  revert o; induction l as [|e l IH] using rev_ind; intros o Hf.
  - unfold follows in Hf. cbn in Hf. injection Hf as <-. split; try done. intros [] ? ? ?; done.
  - unfold follows in *. rewrite fold_left_app in Hf. cbn [fold_left] in Hf.
    destruct (fold_left follow l _) as [o1|] eqn:E1; [|done]. eapply trace_ok_step; [by apply IH|done].
Qed.

(** ** Properties *)

(** C6: The server refines a log of submissions and a table of answers.  Over any storage
    engine behind the interface, for any frames, any authorization policy and any SQL
    engine, [serve] gives exactly the replies of the abstract server, in the order of the
    frames: nothing to a frame that does not decode, a denial to a refused request, which
    leaves no effect, the recorded answer to a key seen before, to a new submission the
    write-set computed from the whole log, and to a query the values after the prefix its
    level promises; afterwards the store, the batch and the counters are those of the log. *)
Theorem server_refines {E} `{EngineSpec E} {Q} (sql_exec : list byte -> Q -> ExecResult * Q) authz fs net (e : E) q :
  repr e [] -> 2 * Zlen fs <= capacity -> 2 * Zlen fs <= kCap ->
  let r := serve sql_exec authz fs (new_server net e q) in
  exists a, conversation sql_exec authz (fresh q) fs (replies r.2) a /\ refines (lp_server r.1) a.
Proof. intros He Hc Hk. apply serve_step; [by apply new_refines|by apply room_fresh]. Qed.

(** C11: A submission takes effect exactly once.  After [serve] the store holds the effects
    of a log of submissions with distinct keys, in order, each the body of an accepted frame,
    and counts them; and the key of every accepted submission is in the log, however often
    the frame was repeated, unless a SQL statement used the same key. *)
Theorem serve_exactly_once {E} `{EngineSpec E} {Q} (sql_exec : list byte -> Q -> ExecResult * Q) authz fs net (e : E) q :
  repr e [] -> 2 * Zlen fs <= capacity -> 2 * Zlen fs <= kCap ->
  let s := lp_server (serve sql_exec authz fs (new_server net e q)).1 in
  exists subs, NoDup (map sub_key subs) /\ store_inv (db_ s) (history subs) /\ applied_ s = Zlen subs /\ tip_ s = Zlen subs /\
    (forall sb, In sb subs -> asked authz fs (Submit (sub_key sb) (sub_op sb) (sub_params sb))) /\
    (forall k op ps, asked authz fs (Submit k op ps) -> In k (map sub_key subs) \/ exists sql, asked authz fs (SqlExec k sql)).
Proof.
  intros He Hc Hk s.
  destruct (serve_step sql_exec authz fs (new_server net e q) (fresh q)) as (a & Hconv & Hr); [by apply new_refines|by apply room_fresh|].
  destruct (conversation_once _ _ _ _ _ _ Hconv) as (Ho & _ & _ & H1 & H2 & H3).
  exists (log a). split; [apply Ho, fresh_once|]. split; [apply Hr|]. split; [apply Hr|]. split; [apply Hr|]. split.
  - intros sb [[]|Ha]%H1. done.
  - intros k op ps Ha. specialize (H3 _ k Ha eq_refl). by destruct (H2 k H3) as [[]|].
Qed.

(** C33: A transfer between two accounts conserves the total.  In any state [serve] reaches, a
    new transfer whose two balances stay in range leaves the sum over any set of accounts
    that holds both unchanged, as strict reads of the store see it. *)
Theorem transfer_conserves {E} `{EngineSpec E} {Q} (sql_exec : list byte -> Q -> ExecResult * Q) authz fs net (e : E) q id k ps ks :
  repr e [] -> 2 * (Zlen fs + 1) <= capacity -> 2 * (Zlen fs + 1) <= kCap ->
  let s := lp_server (serve sql_exec authz fs (new_server net e q)).1 in
  let ka := p_key (param 0 ps) in
  let kb := p_key (param 1 ps) in
  memo k s = None -> ka <> kb -> NoDup ks -> In ka ks -> In kb ks ->
  in_i64 (stored s ka - p_amount (param 0 ps)) -> in_i64 (stored s kb + p_amount (param 0 ps)) ->
  total (handle_submit id k Transfer ps s).2 ks = total s ks.
Proof.
  intros He Hc Hk s ka kb Hm Hne Hnd Ha Hb Hra Hrb.
  destruct (serve_step sql_exec authz fs (new_server net e q) (fresh q)) as (a & Hconv & Hr);
    [by apply new_refines|apply room_fresh; lia|]. fold s in Hr.
  pose proof (conversation_length _ _ _ _ _ _ Hconv) as Hlen. change (Zlen (log (fresh q))) with 0 in Hlen.
  destruct (submit_new_log sql_exec s a id k Transfer ps Hr) as (a' & Hr' & Hlog); [|done|].
  { unfold fits. rewrite Zlen_app. change (Zlen [_]) with 1. lia. }
  rewrite (stored_balance sql_exec _ _ _ Hr) in Hra. rewrite (stored_balance sql_exec _ _ _ Hr) in Hrb. unfold total.
  rewrite (map_ext _ _ (fun k => stored_balance sql_exec _ _ k Hr)), (map_ext _ _ (fun k => stored_balance sql_exec _ _ k Hr')), Hlog, history_snoc.
  cbn [sub_op sub_params]. rewrite (map_ext _ _ (fun k => transfer_moves (history (log a)) ps k Hne Hra Hrb)). by apply sum_moved.
Qed.


(** ** Instances *)

Definition key_a : Key := [Byte.x61].
Definition key_b : Key := [Byte.x62].

Definition put_frame (id key : Z) (k : Key) (v : Z) : list byte :=
  encode_request (mkRequest id (Submit key PutOp [mkParam k (encode_balance v) 0])).

Definition xfer_frame (id key : Z) (a b : Key) (x : Z) : list byte :=
  encode_request (mkRequest id (Submit key Transfer [mkParam a [] x; mkParam b [] 0])).

(** Two puts, one of them repeated by the client, and a transfer. *)
Definition demo_frames : list arrival :=
  [mkArrival true 1 [] (put_frame 1 11 key_a 100); mkArrival false 1 [] (put_frame 2 11 key_a 100);
   mkArrival false 2 [] (put_frame 3 12 key_b 5); mkArrival true 1 [] (xfer_frame 4 13 key_a key_b 30)].

Definition no_sql (sql : list byte) (q : unit) : ExecResult * unit := (mkExec false [] 0 0 [], q).

Lemma server_refines_witness :
  exists a, conversation no_sql None (fresh tt) demo_frames
    (replies (serve no_sql None demo_frames (new_server true Oracle.empty tt)).2) a /\
    refines (lp_server (serve no_sql None demo_frames (new_server true Oracle.empty tt)).1) a.
Proof. apply server_refines; [apply Oracle.rep_empty|vm_compute; discriminate..]. Defined.

Lemma serve_exactly_once_witness :
  exists subs, NoDup (map sub_key subs) /\
    applied_ (lp_server (serve no_sql None demo_frames (new_server true Oracle.empty tt)).1) = Zlen subs.
Proof.
  destruct (serve_exactly_once no_sql None demo_frames true Oracle.empty tt) as (subs & H1 & _ & H2 & _);
    [apply Oracle.rep_empty|vm_compute; discriminate..|]. exists subs. exact (conj H1 H2).
Defined.

Lemma transfer_conserves_witness :
  let s := lp_server (serve no_sql None demo_frames (new_server true Oracle.empty tt)).1 in
  total (handle_submit 5 14 Transfer [mkParam key_a [] 7; mkParam key_b [] 0] s).2 [key_a; key_b] = total s [key_a; key_b].
Proof.
  apply transfer_conserves.
  - apply Oracle.rep_empty.
  - vm_compute. discriminate.
  - vm_compute. discriminate.
  - vm_compute. reflexivity.
  - discriminate.
  - repeat constructor; set_solver.
  - left. reflexivity.
  - right. left. reflexivity.
  - vm_compute. split; reflexivity.
  - vm_compute. split; reflexivity.
Defined.

(** A transfer of an account to itself adds the amount to its balance. *)
Example self_transfer_creates :
  stored (lp_server (serve no_sql None [mkArrival true 1 [] (put_frame 1 11 key_a 100); mkArrival true 1 [] (xfer_frame 2 12 key_a key_a 30)]
    (new_server true Oracle.empty tt)).1) key_a = 130.
Proof. vm_compute. reflexivity. Qed.

(** After a restart the batch is empty: an increment of a recovered balance starts from zero. *)
Example increment_after_restart :
  let s := lp_server (serve no_sql None [mkArrival true 1 [] (put_frame 1 11 key_a 100)] (new_server true Oracle.empty tt)).1 in
  let s' := restart true (engine_ (db_ s)) tt in
  stored s' key_a = 100 /\ stored (handle_submit 2 12 Increment [mkParam key_a [] 1] s').2 key_a = 1.
Proof. vm_compute. split; reflexivity. Qed.
