(* ===== verification/Auth.v ===== *)
(** Auth: the role-based policy of the production surface (prod/ProdAuth.hpp), how the
    daemon builds it from a file and flags (cli/lockstepd.cpp), and the gate it puts before
    the protocol server (prod/ProdServerNode.hpp).

    A principal is the common name the transport took from a verified certificate, empty on
    a plaintext connection; here it comes with each frame.  The bytes of the policy file are
    an argument, [None] when it cannot be opened. *)

From Stdlib Require Import ZArith Lia Sorted Strings.Byte.
From stdpp Require Import base list numbers strings.
From S2P Require Import Prelude Mvcc Oracle Txn Protocol Database Server.
#[local] Open Scope Z_scope.

(** ** Roles and permissions *)

Inductive OpClass := NoClass | ReadClass | WriteClass | AdminClass.

Definition op_bit (c : OpClass) : Z :=
  match c with NoClass => 0 | ReadClass => Z.shiftl 1 0 | WriteClass => Z.shiftl 1 1 | AdminClass => Z.shiftl 1 2 end.

Definition role_mask (role : list byte) : Z :=
  let R := op_bit ReadClass in
  let W := op_bit WriteClass in
  let A := op_bit AdminClass in
  if key_eqb role (token "reader") then R
  else if key_eqb role (token "writer") then Z.lor R W
  else if key_eqb role (token "admin") then Z.lor (Z.lor R W) A
  else 0.

Inductive PlaintextMode := Enforce | AnonymousReader | Open.

#[global] Instance plaintext_mode_eq_dec : EqDecision PlaintextMode.
Proof. solve_decision. Defined.

Record Entry := mkEntry { e_principal : list byte; e_role : list byte }.

(** The table is sorted by principal. *)
Record AuthPolicy := mkPolicy {
  table_ : list Entry;
  configured_ : bool;
  plaintext_mode_ : PlaintextMode
}.

Definition no_policy : AuthPolicy := mkPolicy [] false Enforce.

(** The slot where the scan of [set] stops: an entry of the same principal is overwritten. *)
Fixpoint set_entry (p r : list byte) (t : list Entry) : list Entry :=
  match t with
  | [] => [mkEntry p r]
  | e :: t' =>
      if key_ltb (e_principal e) p then e :: set_entry p r t'
      else if key_eqb (e_principal e) p then mkEntry (e_principal e) r :: t'
      else mkEntry p r :: t
  end.

Definition set (p r : list byte) (a : AuthPolicy) : AuthPolicy :=
  mkPolicy (set_entry p r (table_ a)) true (plaintext_mode_ a).

Definition set_plaintext_mode (m : PlaintextMode) (a : AuthPolicy) : AuthPolicy :=
  mkPolicy (table_ a) (if decide (m = Open) then configured_ a else true) m.

Definition enabled (a : AuthPolicy) : bool := configured_ a.

(** The binary search of [role_of]. *)
Fixpoint search (fuel : nat) (t : list Entry) (p : list byte) (lo hi : nat) : list byte :=
  match fuel with
  | O => []
  | S fuel' =>
      if Nat.ltb lo hi then
        let mid := (lo + (hi - lo) / 2)%nat in
        match t !! mid with
        | None => []
        | Some e =>
            if key_ltb (e_principal e) p then search fuel' t p (S mid) hi
            else if key_ltb p (e_principal e) then search fuel' t p lo mid
            else e_role e
        end
      else []
  end.

Definition role_of (p : list byte) (a : AuthPolicy) : list byte :=
  if decide (p = [] /\ plaintext_mode_ a = AnonymousReader) then token "reader"
  else search (S (length (table_ a))) (table_ a) p 0 (length (table_ a)).

(** The enforcement predicate. *)
Definition allow (p : list byte) (op : OpClass) (a : AuthPolicy) : bool :=
  if negb (configured_ a) || bool_decide (plaintext_mode_ a = Open) then true
  else match op with
       | NoClass => false
       | _ => negb (Z.land (role_mask (role_of p a)) (op_bit op) =? 0)
       end.

(** ** Policy lines *)

Definition is_space (b : byte) : bool := let v := Zb b in (v =? 32) || ((9 <=? v) && (v <=? 13)).

(** [find] of one character: what is before it, and what is after it if it is there. *)
Fixpoint cut (c : byte) (s : list byte) : list byte * option (list byte) :=
  match s with
  | [] => ([], None)
  | x :: s' => if Byte.eqb x c then ([], Some s') else let '(a, b) := cut c s' in (x :: a, b)
  end.

(** [ss >> tok] until the stream ends: [w] is the word read so far. *)
Fixpoint words (w : list byte) (s : list byte) : list (list byte) :=
  match s with
  | [] => match w with [] => [] | _ => [w] end
  | x :: s' =>
      if is_space x then match w with [] => words [] s' | _ => w :: words [] s' end
      else words (w ++ [x]) s'
  end.

Record line_vars := mkVars {
  v_principal : list byte;
  v_role : list byte;
  v_plaintext : list byte;
  v_shorthand : bool;
  v_lhs : list byte;
  v_rhs : list byte
}.

Definition parse_word (v : line_vars) (tok : list byte) : line_vars :=
  match cut "="%byte tok with
  | (_, None) => v
  | (key, Some val) =>
      if key_eqb key (token "principal") then mkVars val (v_role v) (v_plaintext v) false (v_lhs v) (v_rhs v)
      else if key_eqb key (token "role") then mkVars (v_principal v) val (v_plaintext v) false (v_lhs v) (v_rhs v)
      else if key_eqb key (token "plaintext") then mkVars (v_principal v) (v_role v) val false (v_lhs v) (v_rhs v)
      else if v_shorthand v && match v_lhs v with [] => true | _ => false end then
        mkVars (v_principal v) (v_role v) (v_plaintext v) (v_shorthand v) key val
      else v
  end.

Definition line_words (raw : list byte) : list (list byte) := words [] (cut "#"%byte raw).1.

Definition scan_line (raw : list byte) : line_vars := fold_left parse_word (line_words raw) (mkVars [] [] [] true [] []).

Definition parse_line (a : AuthPolicy) (raw : list byte) : AuthPolicy :=
  let v := scan_line raw in
  let m := v_plaintext v in
  match m with
  | _ :: _ =>
      if key_eqb m (token "enforce") then set_plaintext_mode Enforce a
      else if key_eqb m (token "anonymous-reader") || key_eqb m (token "anonymous") then set_plaintext_mode AnonymousReader a
      else if key_eqb m (token "open") then set_plaintext_mode Open a
      else a
  | [] =>
      if v_shorthand v then
        match v_lhs v, v_rhs v with _ :: _, _ :: _ => set (v_lhs v) (v_rhs v) a | _, _ => a end
      else
        match v_principal v, v_role v with _ :: _, _ :: _ => set (v_principal v) (v_role v) a | _, _ => a end
  end.

(** [std::getline] until it fails: the last line may lack its newline. *)
Fixpoint file_lines (w : list byte) (s : list byte) : list (list byte) :=
  match s with
  | [] => match w with [] => [] | _ => [w] end
  | x :: s' => if Byte.eqb x "010"%byte then w :: file_lines [] s' else file_lines (w ++ [x]) s'
  end.

Definition load_file (file : option (list byte)) (a : AuthPolicy) : option AuthPolicy :=
  match file with
  | None => None
  | Some text => let a := fold_left parse_line (file_lines [] text) a in Some (mkPolicy (table_ a) true (plaintext_mode_ a))
  end.

(** [build_auth_policy]: [path] says whether a policy file was named. *)
Definition build_auth_policy (path : bool) (file : option (list byte)) (grants : list (list byte)) (plaintext : list byte) : option AuthPolicy :=
  match (if path then load_file file no_policy else Some no_policy) with
  | None => None
  | Some a =>
      let a := fold_left parse_line grants a in
      Some (match plaintext with [] => a | _ => parse_line a (token "plaintext=" ++ plaintext) end)
  end.

(** The hook [set_auth_policy] installs in the server; none when no policy is configured. *)
Definition gate (a : AuthPolicy) : option (list byte -> bool -> bool) :=
  if enabled a then Some (fun p (is_write : bool) => allow p (if is_write then WriteClass else ReadClass) a) else None.

(** ** The table *)

Definition find_role (p : list byte) (t : list Entry) : list byte :=
  match List.find (fun e => key_eqb (e_principal e) p) t with Some e => e_role e | None => [] end.

Definition table_sorted (t : list Entry) : Prop := StronglySorted (fun a b => key_lt (e_principal a) (e_principal b)) t.

Lemma set_entry_in p r t e : In e (set_entry p r t) -> In e t \/ e = mkEntry p r.
Proof.
  induction t as [|x t IH]; cbn [set_entry]; [intros [<-|[]]; by right|].
  destruct (key_ltb (e_principal x) p); [intros [->|Hin]; [by left; left|destruct (IH Hin); [by left; right|by right]]|].
  destruct (key_eqb_spec (e_principal x) p) as [<-|Hne]; intros [<-|Hin]; [by right|by left; right|by right|by left].
Qed.

Lemma set_entry_sorted p r t : table_sorted t -> table_sorted (set_entry p r t).
Proof.
  induction 1 as [|x t Hs IH Hall]; cbn [set_entry]; [repeat constructor|].
  destruct (key_ltb (e_principal x) p) eqn:Hlt.
  - constructor; [done|]. apply List.Forall_forall. intros e He. rewrite List.Forall_forall in Hall.
    destruct (set_entry_in p r t e He) as [Hin| ->]; [by apply Hall|done].
  - destruct (key_eqb_spec (e_principal x) p) as [<-|Hne]; [by constructor|].
    assert (Hp : key_lt p (e_principal x)) by (destruct (key_trichotomy (e_principal x) p) as [?|[?|?]]; [congruence|done|done]).
    constructor; [by constructor|]. constructor; [done|]. eapply List.Forall_impl; [|exact Hall]. intros e He. by transitivity (e_principal x).
Qed.

Lemma find_role_set p r t q : table_sorted t ->
  find_role q (set_entry p r t) = if key_eqb p q then r else find_role q t.
Proof.
  unfold find_role. induction 1 as [|x t Hs IH Hall]; cbn [set_entry List.find e_principal]; [by destruct (key_eqb p q)|].
  destruct (key_ltb (e_principal x) p) eqn:Hlt.
  - cbn [List.find]. destruct (key_eqb_spec (e_principal x) q) as [Hq|Hq]; [|exact IH].
    destruct (key_eqb_spec p q) as [<-|_]; [|done]. rewrite Hq, key_ltb_irrefl in Hlt. done.
  - destruct (key_eqb_spec (e_principal x) p) as [<-|Hne]; cbn [List.find e_principal];
      by destruct (key_eqb _ q).
Qed.

Lemma table_order t i j a b : table_sorted t -> t !! i = Some a -> t !! j = Some b -> (i < j)%nat -> key_lt (e_principal a) (e_principal b).
Proof.
  intros Hs. revert i j. induction Hs as [|x t Hs IH Hall]; intros i j Hi Hj Hij; [done|].
  destruct j as [|j]; [lia|]. destruct i as [|i]; cbn in Hi, Hj.
  - injection Hi as <-. rewrite List.Forall_forall in Hall. apply Hall. apply list_elem_of_In, list_elem_of_lookup. by exists j.
  - apply (IH i j); [done|done|lia].
Qed.

Lemma find_role_at t i e : table_sorted t -> t !! i = Some e -> find_role (e_principal e) t = e_role e.
Proof.
  unfold find_role. intros Hs. revert i. induction Hs as [|x t Hs IH Hall]; intros i Hi; [done|].
  destruct i as [|i]; cbn in Hi; cbn [List.find]; [injection Hi as ->; by rewrite key_eqb_refl|].
  destruct (key_eqb_spec (e_principal x) (e_principal e)) as [Heq|_]; [|by apply (IH i)].
  rewrite List.Forall_forall in Hall. assert (Hin : In e t) by (apply list_elem_of_In, list_elem_of_lookup; by exists i).
  specialize (Hall e Hin). rewrite Heq in Hall. unfold key_lt in Hall. by rewrite key_ltb_irrefl in Hall.
Qed.

Lemma find_role_absent p t : (forall e, In e t -> e_principal e <> p) -> find_role p t = [].
Proof.
  intros H. unfold find_role. destruct (List.find _ t) as [e|] eqn:Hf; [|done].
  apply List.find_some in Hf as [Hin He%key_eqb_eq]. by destruct (H e Hin).
Qed.

(** The search keeps the slot of the principal between its bounds, so it ends on it. *)
Lemma role_search_exact t p : table_sorted t -> forall fuel lo hi, (hi - lo < fuel)%nat -> (hi <= length t)%nat ->
  (forall i e, t !! i = Some e -> e_principal e = p -> (lo <= i < hi)%nat) -> search fuel t p lo hi = find_role p t.
Proof.
  intros Hs. induction fuel as [|fuel IH]; intros lo hi Hf Hh Hin; [lia|]. cbn [search].
  destruct (Nat.ltb_spec lo hi) as [Hlt|Hge].
  2: { symmetry. apply find_role_absent. intros e He Hp. apply list_elem_of_In, list_elem_of_lookup in He as [i Hi]. specialize (Hin i e Hi Hp). lia. }
  set (mid := (lo + (hi - lo) / 2)%nat).
  assert (Hm : (lo <= mid < hi)%nat) by (unfold mid; pose proof (Nat.div_lt (hi - lo) 2); lia).
  destruct (lookup_lt_is_Some_2 t mid) as [e He]; [lia|]. rewrite He.
  destruct (key_ltb (e_principal e) p) eqn:H1; [|destruct (key_ltb p (e_principal e)) eqn:H2].
  - apply IH; [lia|lia|]. intros i x Hi Hx. specialize (Hin i x Hi Hx). split; [|lia].
    destruct (Nat.lt_trichotomy i mid) as [Hlt'|[->|Hgt]]; [|rewrite He in Hi; injection Hi as ->; rewrite Hx, key_ltb_irrefl in H1; done|lia].
    pose proof (table_order t i mid x e Hs Hi He Hlt') as Ho. rewrite Hx in Ho. by rewrite (key_ltb_asym _ _ Ho) in H1.
  - apply IH; [lia|lia|]. intros i x Hi Hx. specialize (Hin i x Hi Hx). split; [lia|].
    destruct (Nat.lt_trichotomy i mid) as [Hlt'|[->|Hgt]]; [lia|rewrite He in Hi; injection Hi as ->; rewrite Hx, key_ltb_irrefl in H2; done|].
    pose proof (table_order t mid i e x Hs He Hi Hgt) as Ho. rewrite Hx in Ho. by rewrite (key_ltb_asym _ _ Ho) in H2.
  - rewrite <- (key_ltb_total _ _ H1 H2). symmetry. by apply (find_role_at t mid).
Qed.

Lemma role_of_exact p a : table_sorted (table_ a) ->
  role_of p a = if decide (p = [] /\ plaintext_mode_ a = AnonymousReader) then token "reader" else find_role p (table_ a).
Proof.
  intros Hs. unfold role_of. case_decide; [done|]. apply role_search_exact; [done|lia|lia|].
  intros i e Hi _. apply lookup_lt_Some in Hi. lia.
Qed.

(** ** What a policy text says *)

(** The permissions of a role, and what an ordered list of directives permits: the last
    grant of a principal counts, and so does the last posture. *)
Definition can (role : list byte) (op : OpClass) : bool :=
  match op with
  | NoClass => false
  | ReadClass => key_eqb role (token "reader") || key_eqb role (token "writer") || key_eqb role (token "admin")
  | WriteClass => key_eqb role (token "writer") || key_eqb role (token "admin")
  | AdminClass => key_eqb role (token "admin")
  end.

Inductive directive := Grant (p r : list byte) | Posture (m : PlaintextMode) | Silent.

Definition last_grant (p : list byte) (ds : list directive) : list byte :=
  fold_left (fun acc d => match d with Grant q r => if key_eqb q p then r else acc | _ => acc end) ds [].

Definition last_posture (ds : list directive) : PlaintextMode :=
  fold_left (fun acc d => match d with Posture m => m | _ => acc end) ds Enforce.

Definition permits (ds : list directive) (p : list byte) (op : OpClass) : bool :=
  match last_posture ds with
  | Open => true
  | AnonymousReader => can (match p with [] => token "reader" | _ => last_grant p ds end) op
  | Enforce => can (last_grant p ds) op
  end.

Definition apply_directive (a : AuthPolicy) (d : directive) : AuthPolicy :=
  match d with Grant p r => set p r a | Posture m => set_plaintext_mode m a | Silent => a end.

(** A line of one of the documented forms, with blanks and a comment. *)
Inductive form := FGrant (p r : list byte) | FShort (p r : list byte) | FPosture (m : PlaintextMode) | FBlank.

Record policy_line := mkPL {
  pl_form : form;
  pl_before : list byte;
  pl_between : list byte;
  pl_after : list byte;
  pl_comment : option (list byte)
}.

Definition mode_name (m : PlaintextMode) : list byte :=
  match m with Enforce => token "enforce" | AnonymousReader => token "anonymous-reader" | Open => token "open" end.

Definition eq_sign : list byte := ["="%byte].

Definition form_words (f : form) : list (list byte) :=
  match f with
  | FGrant p r => [token "principal" ++ eq_sign ++ p; token "role" ++ eq_sign ++ r]
  | FShort p r => [p ++ eq_sign ++ r]
  | FPosture m => [token "plaintext" ++ eq_sign ++ mode_name m]
  | FBlank => []
  end.

Definition render_form (f : form) (between : list byte) : list byte :=
  match form_words f with [a; b] => a ++ between ++ b | [a] => a | _ => [] end.

Definition render (l : policy_line) : list byte :=
  pl_before l ++ render_form (pl_form l) (pl_between l) ++ pl_after l ++ match pl_comment l with None => [] | Some c => "#"%byte :: c end.

Definition meaning (f : form) : directive :=
  match f with FGrant p r | FShort p r => Grant p r | FPosture m => Posture m | FBlank => Silent end.

Definition text (ls : list policy_line) : list byte := ls ≫= (fun l => render l ++ ["010"%byte]).

Definition plain (w : list byte) : Prop := Forall (fun b => is_space b = false /\ Byte.eqb b "#" = false) w.
Definition word (w : list byte) : Prop := w <> [] /\ plain w.
Definition blank (w : list byte) : Prop := Forall (fun b => is_space b = true /\ Byte.eqb b "010" = false) w.
Definition reserved (p : list byte) : bool := key_eqb p (token "principal") || key_eqb p (token "role") || key_eqb p (token "plaintext").

Definition form_wf (f : form) : Prop :=
  match f with
  | FGrant p r => word p /\ word r
  | FShort p r => word p /\ word r /\ Forall (fun b => Byte.eqb b "=" = false) p /\ reserved p = false
  | _ => True
  end.

Record line_wf (l : policy_line) : Prop := {
  lw_form : form_wf (pl_form l);
  lw_before : blank (pl_before l);
  lw_between : blank (pl_between l) /\ pl_between l <> [];
  lw_after : blank (pl_after l);
  lw_comment : Forall (fun b => Byte.eqb b "010" = false) (default [] (pl_comment l))
}.

Lemma cut_absent c s : Forall (fun b => Byte.eqb b c = false) s -> cut c s = (s, None).
Proof. induction 1 as [|b s Hb _ IH]; [done|]. cbn [cut]. by rewrite Hb, IH. Qed.

Lemma cut_at c s t : Forall (fun b => Byte.eqb b c = false) s -> cut c (s ++ c :: t) = (s, Some t).
Proof.
  induction 1 as [|b s Hb _ IH]; cbn [cut app]; [by rewrite (Byte.byte_dec_lb eq_refl)|]. by rewrite Hb, IH.
Qed.

Lemma cut_some c s a b : cut c s = (a, Some b) -> s = a ++ c :: b.
Proof.
  revert a. induction s as [|x s IH]; intros a; cbn [cut]; [done|].
  destruct (Byte.eqb x c) eqn:Hx; [apply Byte.byte_dec_bl in Hx as ->; by intros [= <- <-]|].
  destruct (cut c s) as [a' b'] eqn:Hc. intros [= <- ->]. by rewrite (IH a' eq_refl).
Qed.

Lemma words_blank w s : blank w -> words [] (w ++ s) = words [] s.
Proof. induction 1 as [|b w [Hb _] _ IH]; [done|]. cbn [words app]. by rewrite Hb. Qed.

Lemma words_plain u w s : plain w -> words u (w ++ s) = words (u ++ w) s.
Proof.
  intros H. revert u. induction H as [|b w [Hb _] _ IH]; intros u; [by rewrite app_nil_r|].
  cbn [words app]. rewrite Hb, IH, <- app_assoc. done.
Qed.

Lemma words_word w s : word w -> blank s -> words [] (w ++ s) = [w].
Proof.
  intros [Hne Hw] Hs. rewrite words_plain by done. cbn [app]. destruct w as [|b w]; [done|]. destruct Hs as [|x s [Hx _] Hs]; [done|].
  cbn [words]. rewrite Hx. rewrite <- (app_nil_r s), (words_blank s) by done. done.
Qed.

Lemma words_sep w b s : word w -> blank b -> b <> [] -> words [] (w ++ b ++ s) = w :: words [] s.
Proof.
  intros [Hne Hw] Hb Hn. rewrite words_plain by done. cbn [app]. destruct w as [|x w]; [done|]. destruct Hb as [|y b [Hy _] Hb]; [done|].
  cbn [words app]. rewrite Hy. by rewrite words_blank.
Qed.

Lemma token_plain k v : forallb (fun b => negb (is_space b) && negb (Byte.eqb b "#")) k = true -> plain v -> plain (k ++ eq_sign ++ v).
Proof.
  intros Hk Hv. apply Forall_app. split; [|apply Forall_app; split; [by repeat constructor|done]].
  apply List.Forall_forall. intros b Hb. rewrite forallb_forall in Hk. specialize (Hk b Hb).
  destruct (is_space b), (Byte.eqb b "#"); done.
Qed.

Lemma mode_plain m : plain (mode_name m).
Proof. destruct m; by repeat constructor. Qed.

Lemma form_words_ok f : form_wf f -> Forall word (form_words f).
Proof.
  destruct f as [p r|p r|m|]; cbn [form_wf form_words].
  - intros [[Hp Hp'] [Hr Hr']]. repeat constructor; try done; by apply token_plain.
  - intros ([Hp Hp'] & [Hr Hr'] & _). repeat constructor; [by destruct p|]. apply Forall_app. split; [done|].
    apply Forall_app. split; [by repeat constructor|done].
  - intros _. apply List.Forall_cons; [|constructor]. split; [done|]. apply token_plain; [done|apply mode_plain].
  - constructor.
Qed.

Lemma no_hash_plain w : plain w -> Forall (fun b => Byte.eqb b "#" = false) w.
Proof. intros H. eapply Forall_impl; [exact H|]. intros b [_ Hb]. exact Hb. Qed.

Lemma space_not_hash b : is_space b = true -> Byte.eqb b "#" = false.
Proof. intros H. destruct (Byte.eqb b "#") eqn:Hb; [|done]. apply Byte.byte_dec_bl in Hb as ->. done. Qed.

Lemma no_hash_blank w : blank w -> Forall (fun b => Byte.eqb b "#" = false) w.
Proof. intros H. eapply Forall_impl; [exact H|]. intros b [Hb _]. by apply space_not_hash. Qed.

Lemma newline_is_space b : Byte.eqb b "010" = true -> is_space b = true.
Proof. intros ->%Byte.byte_dec_bl. done. Qed.

(** The words of a rendered line are those of its form. *)
Lemma rendered_words l : line_wf l -> line_words (render l) = form_words (pl_form l).
Proof.
  intros [Hf Hb [Hm Hm'] Ha _]. pose proof (form_words_ok _ Hf) as Hw.
  assert (Hbody : Forall (fun b => Byte.eqb b "#" = false) (render_form (pl_form l) (pl_between l))).
  { unfold render_form. destruct (form_words (pl_form l)) as [|a [|b [|]]]; try constructor.
    - apply Forall_cons in Hw as [[_ Hw] _]. by apply no_hash_plain.
    - apply Forall_cons in Hw as [[_ Hw] Hw2]. apply Forall_cons in Hw2 as [[_ Hw2] _].
      repeat (apply Forall_app; split); [by apply no_hash_plain|by apply no_hash_blank|by apply no_hash_plain]. }
  unfold line_words, render.
  assert (Hcut : (cut "#" (pl_before l ++ render_form (pl_form l) (pl_between l) ++ pl_after l ++ match pl_comment l with None => [] | Some c => "#"%byte :: c end)).1
    = pl_before l ++ render_form (pl_form l) (pl_between l) ++ pl_after l).
  { assert (Hall : Forall (fun b => Byte.eqb b "#" = false) (pl_before l ++ render_form (pl_form l) (pl_between l) ++ pl_after l)).
    { repeat (apply Forall_app; split); [by apply no_hash_blank|done|by apply no_hash_blank]. }
    destruct (pl_comment l) as [c|]; rewrite !app_assoc; rewrite !app_assoc in Hall;
      [by rewrite (cut_at _ _ c Hall)|by rewrite app_nil_r, (cut_absent _ _ Hall)]. }
  rewrite Hcut, words_blank by done. unfold render_form.
  assert (Hlen : (length (form_words (pl_form l)) <= 2)%nat) by (destruct (pl_form l); cbn; lia).
  destruct (form_words (pl_form l)) as [|a [|b [|]]]; cbn [length] in Hlen; [| | |lia].
  - rewrite <- (app_nil_r (pl_after l)). cbn [app]. by rewrite words_blank.
  - apply Forall_cons in Hw as [Hw1 _]. by rewrite words_word.
  - apply Forall_cons in Hw as [Hw1 Hw2]. apply Forall_cons in Hw2 as [Hw2 _]. rewrite <- !app_assoc.
    rewrite words_sep by done. by rewrite words_word.
Qed.

Lemma parse_word_kv v k x : Forall (fun b => Byte.eqb b "=" = false) k ->
  parse_word v (k ++ eq_sign ++ x) =
    if key_eqb k (token "principal") then mkVars x (v_role v) (v_plaintext v) false (v_lhs v) (v_rhs v)
    else if key_eqb k (token "role") then mkVars (v_principal v) x (v_plaintext v) false (v_lhs v) (v_rhs v)
    else if key_eqb k (token "plaintext") then mkVars (v_principal v) (v_role v) x false (v_lhs v) (v_rhs v)
    else if v_shorthand v && match v_lhs v with [] => true | _ => false end then
      mkVars (v_principal v) (v_role v) (v_plaintext v) (v_shorthand v) k x
    else v.
Proof. intros Hk. unfold parse_word. replace (cut "=" (k ++ eq_sign ++ x)) with (k, Some x) by (symmetry; by apply cut_at). done. Qed.

Lemma parse_rendered l a : line_wf l -> parse_line a (render l) = apply_directive a (meaning (pl_form l)).
Proof.
  intros Hl. unfold parse_line, scan_line. rewrite rendered_words by done. destruct Hl as [Hf _ _ _ _].
  destruct (pl_form l) as [p r|p r|m|]; cbn [form_words fold_left meaning apply_directive form_wf] in *.
  - destruct Hf as [[Hp _] [Hr _]]. rewrite !parse_word_kv by (by repeat constructor). cbn. by destruct p, r.
  - destruct Hf as ([Hp _] & [Hr _] & Heq & Hres). rewrite parse_word_kv by done.
    unfold reserved in Hres. apply orb_false_iff in Hres as [[H1 H2]%orb_false_iff H3]. rewrite H1, H2, H3. cbn. by destruct p, r.
  - rewrite parse_word_kv by (by repeat constructor). destruct m; reflexivity.
  - done.
Qed.

Lemma lines_plain u w s : Forall (fun b => Byte.eqb b "010" = false) w -> file_lines u (w ++ "010"%byte :: s) = (u ++ w) :: file_lines [] s.
Proof.
  intros H. revert u. induction H as [|b w Hb _ IH]; intros u; cbn [file_lines app]; [by rewrite app_nil_r|].
  rewrite Hb, IH, <- app_assoc. done.
Qed.

Lemma no_newline_plain w : plain w -> Forall (fun b => Byte.eqb b "010" = false) w.
Proof.
  intros H. eapply Forall_impl; [exact H|]. intros b [Hb _]. destruct (Byte.eqb b "010") eqn:Hn; [|done].
  apply newline_is_space in Hn. congruence.
Qed.

Lemma no_newline_blank w : blank w -> Forall (fun b => Byte.eqb b "010" = false) w.
Proof. intros H. eapply Forall_impl; [exact H|]. intros b [_ Hb]. exact Hb. Qed.

Lemma render_no_newline l : line_wf l -> Forall (fun b => Byte.eqb b "010" = false) (render l).
Proof.
  intros [Hf Hb [Hm _] Ha Hc]. unfold render. repeat (apply Forall_app; split); try (by apply no_newline_blank).
  - pose proof (form_words_ok _ Hf) as Hw. unfold render_form. destruct (form_words (pl_form l)) as [|a [|b [|]]]; try constructor.
    + apply Forall_cons in Hw as [[_ Hw] _]. by apply no_newline_plain.
    + apply Forall_cons in Hw as [[_ Hw] Hw2]. apply Forall_cons in Hw2 as [[_ Hw2] _].
      repeat (apply Forall_app; split); [by apply no_newline_plain|by apply no_newline_blank|by apply no_newline_plain].
  - destruct (pl_comment l); [by constructor|constructor].
Qed.

Lemma text_lines ls : Forall line_wf ls -> file_lines [] (text ls) = map render ls.
Proof.
  induction 1 as [|l ls Hl _ IH]; [done|]. unfold text in *. cbn [mbind list_bind map]. rewrite <- app_assoc. cbn [app].
  rewrite lines_plain by (by apply render_no_newline). by rewrite IH.
Qed.

Lemma parse_rendered_lines ls : forall a, Forall line_wf ls ->
  fold_left parse_line (map render ls) a = fold_left apply_directive (map (fun l => meaning (pl_form l)) ls) a.
Proof.
  induction ls as [|l ls IH]; intros a Hls; [done|]. apply Forall_cons in Hls as [Hl Hls]. cbn [map fold_left].
  by rewrite parse_rendered, IH.
Qed.

(** ** The meaning of directives *)

Lemma role_can role op : negb (Z.land (role_mask role) (op_bit op) =? 0) = can role op.
Proof.
  unfold role_mask, can. destruct (key_eqb_spec role (token "reader")) as [->|_]; [by destruct op|].
  destruct (key_eqb_spec role (token "writer")) as [->|_]; [by destruct op|]. by destruct (key_eqb role (token "admin")), op.
Qed.

Lemma allow_in_force p op a : table_sorted (table_ a) -> configured_ a = true ->
  allow p op a = match plaintext_mode_ a with
                 | Open => true
                 | AnonymousReader => can (match p with [] => token "reader" | _ => find_role p (table_ a) end) op
                 | Enforce => can (find_role p (table_ a)) op
                 end.
Proof.
  intros Hs Hc. unfold allow. rewrite Hc, role_of_exact by done. cbn [negb orb].
  destruct (plaintext_mode_ a); cbn [bool_decide decide_rel decide plaintext_mode_eq_dec]; [| |done].
  - rewrite decide_False by (by intros []). destruct op; [done|apply role_can..].
  - destruct p as [|b p]; [rewrite decide_True by done|rewrite decide_False by (by intros [])];
      (destruct op; [done|apply role_can..]).
Qed.

Record says (ds : list directive) (a : AuthPolicy) : Prop := {
  sy_sorted : table_sorted (table_ a);
  sy_role : forall p, find_role p (table_ a) = last_grant p ds;
  sy_mode : plaintext_mode_ a = last_posture ds
}.

Lemma says_directives ds : says ds (fold_left apply_directive ds no_policy).
Proof.
  induction ds as [|d ds IH] using rev_ind; [split; by constructor|]. rewrite fold_left_app. cbn [fold_left].
  destruct IH as [Hs Hr Hm].
  split; unfold last_grant, last_posture; intros; rewrite ?fold_left_app; destruct d as [q r|m|]; cbn [fold_left apply_directive set set_plaintext_mode table_ plaintext_mode_]; auto.
  - by apply set_entry_sorted.
  - rewrite find_role_set by done. destruct (key_eqb q p); [done|apply Hr].
Qed.

Lemma permits_says ds a p op : says ds a -> configured_ a = true -> allow p op a = permits ds p op.
Proof.
  intros [Hs Hr Hm] Hc. rewrite allow_in_force by done. unfold permits. rewrite Hm, !Hr. done.
Qed.

(** ** Where a grant comes from *)

Definition names (p r : list byte) (line : list byte) : Prop :=
  (In (token "principal" ++ eq_sign ++ p) (line_words line) /\ In (token "role" ++ eq_sign ++ r) (line_words line)) \/
  In (p ++ eq_sign ++ r) (line_words line).

Record read_from (ws : list (list byte)) (v : line_vars) : Prop := {
  rf_principal : v_principal v = [] \/ In (token "principal" ++ eq_sign ++ v_principal v) ws;
  rf_role : v_role v = [] \/ In (token "role" ++ eq_sign ++ v_role v) ws;
  rf_short : v_lhs v = [] \/ In (v_lhs v ++ eq_sign ++ v_rhs v) ws
}.

Lemma read_from_word ws v tok : In tok ws -> read_from ws v -> read_from ws (parse_word v tok).
Proof.
  intros Hin [H1 H2 H3]. unfold parse_word. destruct (cut "=" tok) as [key [val|]] eqn:Hc; [|done].
  apply cut_some in Hc. change (key ++ "="%byte :: val) with (key ++ eq_sign ++ val) in Hc.
  destruct (key_eqb_spec key (token "principal")) as [Hk|_]; [subst; split; cbn; auto|].
  destruct (key_eqb_spec key (token "role")) as [Hk|_]; [subst; split; cbn; auto|].
  destruct (key_eqb_spec key (token "plaintext")) as [Hk|_]; [subst; by split|].
  destruct (v_shorthand v && _); [|by split]. subst. split; cbn; auto.
Qed.

Lemma scan_line_reads raw : read_from (line_words raw) (scan_line raw).
Proof.
  unfold scan_line. set (ws := line_words raw).
  assert (H : forall l v, incl l ws -> read_from ws v -> read_from ws (fold_left parse_word l v)).
  { induction l as [|w l IH]; intros v Hi Hv; [done|]. cbn [fold_left]. apply IH; [intros x Hx; apply Hi; by right|].
    apply read_from_word; [apply Hi; by left|done]. }
  apply H; [apply incl_refl|]. split; by left.
Qed.

Lemma parse_line_table a raw e : In e (table_ (parse_line a raw)) -> In e (table_ a) \/ names (e_principal e) (e_role e) raw.
Proof.
  destruct (scan_line_reads raw) as [H1 H2 H3]. unfold parse_line. set (v := scan_line raw) in *.
  destruct (v_plaintext v); [|repeat case_match; by left].
  destruct (v_shorthand v).
  - destruct (v_lhs v) as [|b l] eqn:Hl; [by left|]. destruct (v_rhs v) as [|c r] eqn:Hr; [by left|].
    intros [Hin| ->]%set_entry_in; [by left|]. right. right. cbn [e_principal e_role]. by destruct H3.
  - destruct (v_principal v) as [|b l] eqn:Hl; [by left|]. destruct (v_role v) as [|c r] eqn:Hr; [by left|].
    intros [Hin| ->]%set_entry_in; [by left|]. right. left. cbn [e_principal e_role]. by destruct H1, H2.
Qed.

Lemma parse_lines_table ls : forall a e, In e (table_ (fold_left parse_line ls a)) ->
  In e (table_ a) \/ exists l, In l ls /\ names (e_principal e) (e_role e) l.
Proof.
  induction ls as [|l ls IH]; intros a e Hin; [by left|]. cbn [fold_left] in Hin.
  destruct (IH _ _ Hin) as [Hin'|(l' & Hl & Hn)]; [|right; exists l'; split; [by right|done]].
  destruct (parse_line_table a l e Hin'); [by left|]. right. exists l. split; [by left|done].
Qed.

Lemma parse_line_sorted a raw : table_sorted (table_ a) -> table_sorted (table_ (parse_line a raw)).
Proof. intros Hs. unfold parse_line. repeat case_match; try done; by apply set_entry_sorted. Qed.

Lemma parse_lines_sorted ls : forall a, table_sorted (table_ a) -> table_sorted (table_ (fold_left parse_line ls a)).
Proof. induction ls as [|l ls IH]; intros a Hs; [done|]. apply IH. by apply parse_line_sorted. Qed.

(** The lines the daemon reads: those of the file, then the grants and the posture flag. *)
Definition policy_lines (path : bool) (file : option (list byte)) (grants : list (list byte)) (plaintext : list byte) : list (list byte) :=
  (if path then file_lines [] (default [] file) else []) ++ grants ++
  match plaintext with [] => [] | _ => [token "plaintext=" ++ plaintext] end.


Lemma fold_parse_config ls : forall a b, table_ a = table_ b -> plaintext_mode_ a = plaintext_mode_ b ->
  table_ (fold_left parse_line ls a) = table_ (fold_left parse_line ls b) /\
  plaintext_mode_ (fold_left parse_line ls a) = plaintext_mode_ (fold_left parse_line ls b).
Proof.
  induction ls as [|l ls IH]; intros a b Ht Hm; [done|]. cbn [fold_left].
  apply IH; unfold parse_line; repeat case_match; cbn [set set_plaintext_mode table_ plaintext_mode_]; congruence.
Qed.

Lemma build_table path file grants plaintext a : build_auth_policy path file grants plaintext = Some a ->
  table_ a = table_ (fold_left parse_line (policy_lines path file grants plaintext) no_policy) /\
  plaintext_mode_ a = plaintext_mode_ (fold_left parse_line (policy_lines path file grants plaintext) no_policy).
Proof.
  intros H.
  assert (Hlast : forall x, match plaintext with [] => x | _ => parse_line x (token "plaintext=" ++ plaintext) end =
    fold_left parse_line (match plaintext with [] => [] | _ => [token "plaintext=" ++ plaintext] end) x) by (by destruct plaintext).
  unfold build_auth_policy, policy_lines, load_file in *. destruct path.
  - destruct file as [txt|]; [|done]. cbn [default] in *. rewrite Hlast in H. injection H as <-.
    rewrite <- fold_left_app, (fold_left_app _ (file_lines [] _)). by apply fold_parse_config.
  - rewrite Hlast in H. injection H as <-. cbn [app]. by rewrite fold_left_app.
Qed.

Lemma find_role_in p t : find_role p t <> [] -> exists e, In e t /\ e_principal e = p /\ e_role e = find_role p t.
Proof.
  unfold find_role. destruct (List.find _ t) as [e|] eqn:Hf; [|done]. intros _.
  apply List.find_some in Hf as [Hin He%key_eqb_eq]. by exists e.
Qed.

Lemma can_nothing op : can [] op = false.
Proof. by destruct op. Qed.

(** Whatever the file and the flags hold: a permission comes from a line that names the
    principal and a role with that permission, or from the anonymous posture. *)
Lemma allowed_named path file grants plaintext a p op : build_auth_policy path file grants plaintext = Some a ->
  configured_ a = true -> plaintext_mode_ a <> Open -> allow p op a = true ->
  (exists l r, In l (policy_lines path file grants plaintext) /\ names p r l /\ can r op = true) \/
  (p = [] /\ plaintext_mode_ a = AnonymousReader /\ op = ReadClass).
Proof.
  intros Hb Hc Ho Ha. destruct (build_table _ _ _ _ _ Hb) as [Ht Hm].
  assert (Hs : table_sorted (table_ a)) by (rewrite Ht; apply parse_lines_sorted; constructor).
  rewrite allow_in_force in Ha by done.
  assert (Hfind : can (find_role p (table_ a)) op = true -> exists l r, In l (policy_lines path file grants plaintext) /\ names p r l /\ can r op = true).
  { intros Hcan. destruct (find_role_in p (table_ a)) as (e & Hin & He & Hr).
    { intros Hn. by rewrite Hn, can_nothing in Hcan. }
    rewrite Ht in Hin. destruct (parse_lines_table _ _ _ Hin) as [[]|(l & Hl & Hn)].
    exists l, (e_role e). rewrite <- He. split; [done|]. split; [done|]. by rewrite Hr. }
  destruct (plaintext_mode_ a); [by left; apply Hfind| |done].
  destruct p; [|by left; apply Hfind]. right. destruct op; done.
Qed.

(** ** The gate before the server *)

Section gate.
Context {E : Type} `{EngineOps E} {Q : Type} (sql_exec : list byte -> Q -> ExecResult * Q).

(** What a submission can change. *)
Definition same_keyed (s s' : server E Q) : Prop :=
  db_ s' = db_ s /\ batch_ s' = batch_ s /\ tip_ s' = tip_ s /\ Server.applied_ s' = Server.applied_ s.

Definition same_state (s s' : server E Q) : Prop :=
  same_keyed s s' /\ sql_eng_ s' = sql_eng_ s /\ dedup_ s' = dedup_ s.

(** The frame of a loop: nothing parked by a submission. *)
Definition quiet (l : loop E Q) : Prop := keyed_dirty l = false.

Lemma flush_quiet l : quiet l -> quiet (flush l).1 /\ same_state (lp_server l) (lp_server (flush l).1).
Proof. unfold quiet, flush. intros Hq. destruct (parked l); [done|]. by rewrite Hq. Qed.

Lemma same_state_trans s1 s2 s3 : same_state s1 s2 -> same_state s2 s3 -> same_state s1 s3.
Proof. intros ((?&?&?&?)&?&?) ((?&?&?&?)&?&?). repeat split; congruence. Qed.

Lemma same_keyed_trans s1 s2 s3 : same_keyed s1 s2 -> same_keyed s2 s3 -> same_keyed s1 s3.
Proof. intros (?&?&?&?) (?&?&?&?). repeat split; congruence. Qed.

Lemma dispatch_keyed req (s : server E Q) : is_write (req_body req) = false -> same_keyed s (Server.dispatch sql_exec req s).2.
Proof.
  intros Hw. unfold Server.dispatch. destruct (req_body req) as [|k op ps|l sv ml se qs|k sql]; [done|done|done|].
  unfold handle_sql. destruct (memo k s); [done|]. by destruct (sql_exec sql (sql_eng_ s)).
Qed.

(** The replies to frames that are all refused: a denial to each that decodes. *)
Definition denials (fs : list arrival) : list effect :=
  omap (fun f => match decode_request (a_frame f) with
                 | Some req => Some (Answered (a_from f) (encode_response (denied (req_id req) (a_principal f))))
                 | None => None
                 end) fs.

Lemma turn_no_write g f l : g (a_principal f) true = false -> quiet l ->
  let r := Server.turn sql_exec (Some g) f l in quiet r.1 /\ same_keyed (lp_server l) (lp_server r.1).
Proof.
  intros Hg Hq. unfold Server.turn.
  assert (Hfl : exists l1 eff, (if a_idle f then flush l else (l, [])) = (l1, eff) /\ quiet l1 /\ same_keyed (lp_server l) (lp_server l1)).
  { destruct (a_idle f); [|by exists l, []]. destruct (flush_quiet l Hq) as [H1 [H2 _]]. destruct (flush l) as [l1 eff]. by exists l1, eff. }
  destruct Hfl as (l1 & eff & -> & Hq1 & Hs1). destruct (decode_request (a_frame f)) as [req|]; [|done].
  unfold refused. destruct (is_write (req_body req)) eqn:Hw; [by rewrite Hg|].
  destruct (negb _); [done|]. pose proof (dispatch_keyed req (lp_server l1) Hw) as Hk.
  assert (Hkp : keyed_put (req_body req) = false) by (by destruct (req_body req)).
  destruct (Server.dispatch sql_exec req (lp_server l1)) as [resp s']. cbn [snd] in Hk. rewrite Hkp. cbn [orb].
  unfold quiet in *. destruct (sql_write _ _); cbn [fst keyed_dirty lp_server]; rewrite ?Hq1; (split; [done|by eapply same_keyed_trans]).
Qed.

Lemma turns_no_write g fs : forall l, Forall (fun f => g (a_principal f) true = false) fs -> quiet l ->
  let r := Server.turns sql_exec (Some g) fs l in quiet r.1 /\ same_keyed (lp_server l) (lp_server r.1).
Proof.
  induction fs as [|f fs IH]; intros l Hf Hq; [done|]. apply Forall_cons in Hf as [Hg Hf]. cbn [Server.turns].
  destruct (turn_no_write g f l Hg Hq) as [Hq1 Hs1]. destruct (Server.turn sql_exec (Some g) f l) as [l1 eff]. cbn [fst] in *.
  destruct (IH l1 Hf Hq1) as [Hq2 Hs2]. destruct (Server.turns sql_exec (Some g) fs l1) as [l2 eff2]. cbn [fst] in *.
  split; [done|]. by eapply same_keyed_trans.
Qed.

Lemma turns_no_access g fs : forall l, Forall (fun f => forall w, g (a_principal f) w = false) fs -> parked l = [] ->
  let r := Server.turns sql_exec (Some g) fs l in parked r.1 = [] /\ same_state (lp_server l) (lp_server r.1) /\ r.2 = denials fs.
Proof.
  induction fs as [|f fs IH]; intros l Hf Hp; [done|]. apply Forall_cons in Hf as [Hg Hf]. cbn [Server.turns denials omap list_omap].
  assert (Ht : exists l1, Server.turn sql_exec (Some g) f l = (l1, denials [f]) /\ parked l1 = [] /\ same_state (lp_server l) (lp_server l1)).
  { unfold Server.turn. assert (Hfl : flush l = (l, [])) by (unfold flush; by rewrite Hp). rewrite Hfl.
    replace (if a_idle f then (l, []) else (l, [])) with (l, [] : list effect) by (by destruct (a_idle f)).
    cbn [denials omap list_omap]. destruct (decode_request (a_frame f)) as [req|]; [unfold refused; rewrite Hg; cbn [negb]|];
      eexists; split_and!; try reflexivity; done. }
  destruct Ht as (l1 & -> & Hp1 & Hs1). destruct (IH l1 Hf Hp1) as (Hp2 & Hs2 & He).
  destruct (Server.turns sql_exec (Some g) fs l1) as [l2 eff2]. cbn [fst snd] in *. split; [done|]. split; [by eapply same_state_trans|].
  rewrite He. cbn [denials omap list_omap]. by destruct (decode_request (a_frame f)).
Qed.
End gate.

(** A line of the policy gives a principal a role with the permission, or the posture makes
    the anonymous principal a reader. *)
Definition entitled (lines : list (list byte)) (m : PlaintextMode) (p : list byte) (op : OpClass) : Prop :=
  (exists l r, In l lines /\ names p r l /\ can r op = true) \/ (p = [] /\ m = AnonymousReader /\ op = ReadClass).

Lemma not_entitled path file grants plaintext a p op : build_auth_policy path file grants plaintext = Some a ->
  configured_ a = true -> plaintext_mode_ a <> Open ->
  ~ entitled (policy_lines path file grants plaintext) (plaintext_mode_ a) p op -> allow p op a = false.
Proof. intros Hb Hc Ho Hn. destruct (allow p op a) eqn:Ha; [|done]. exfalso. apply Hn. by eapply allowed_named. Qed.

(** ** Properties *)


(** C20: The gate fails closed.  Whatever bytes the policy file and the flags hold, while the
    policy is in force the frames of principals that no line gives a role with write permission
    never change the keyed store, its batch or its counters, and the frames of principals
    that no line gives any role have no effect at all: every request of theirs is answered
    with a denial. *)
Theorem gate_enforced {E} `{EngineOps E} {Q} (sql_exec : list byte -> Q -> ExecResult * Q) path file grants plaintext a fs (s : server E Q) :
  build_auth_policy path file grants plaintext = Some a -> enabled a = true -> plaintext_mode_ a <> Open ->
  let may := entitled (policy_lines path file grants plaintext) (plaintext_mode_ a) in
  let r := serve sql_exec (gate a) fs s in
  (Forall (fun f => ~ may (a_principal f) WriteClass) fs -> same_keyed s (lp_server r.1)) /\
  (Forall (fun f => ~ may (a_principal f) WriteClass /\ ~ may (a_principal f) ReadClass) fs ->
    same_state s (lp_server r.1) /\ r.2 = denials fs).
Proof.
  intros Hb Hc Ho may r. unfold r, serve, gate. rewrite Hc. split; intros Hf.
  - edestruct (turns_no_write sql_exec (fun p w => allow p (if w then WriteClass else ReadClass) a) fs (mkLoop s [] false false)) as [Hq Hs];
      [eapply Forall_impl; [exact Hf|]; intros f Hn; by eapply not_entitled|done|].
    destruct (Server.turns _ _ _ _) as [l eff]. cbn [fst lp_server] in *. destruct (flush_quiet l Hq) as [_ [Hs2 _]].
    destruct (flush l). cbn [fst] in *. by eapply same_keyed_trans.
  - edestruct (turns_no_access sql_exec (fun p w => allow p (if w then WriteClass else ReadClass) a) fs (mkLoop s [] false false)) as (Hp & Hs & He);
      [eapply Forall_impl; [exact Hf|]; intros f [Hw Hr] w; destruct w; by eapply not_entitled|done|].
    destruct (Server.turns _ _ _ _) as [l eff]. cbn [fst snd lp_server] in *. unfold flush. rewrite Hp. cbn [fst snd]. by rewrite app_nil_r.
Qed.

(** ** Instances *)

Definition alice : list byte := token "alice".
Definition bob : list byte := token "bob".

Definition demo_policy : list policy_line :=
  [mkPL FBlank [] (token " ") [] (Some (token " operators"));
   mkPL (FGrant alice (token "admin")) (token "  ") (token " ") [] None;
   mkPL (FShort bob (token "reader")) [] (token " ") (token " ") (Some (token "observer"))].


Definition mallory : list byte := token "mallory".

Definition forged_frames : list arrival :=
  [mkArrival true 1 mallory (encode_request (mkRequest 1 (Submit 7 PutOp [mkParam alice bob 0])));
   mkArrival false 1 mallory (encode_request (mkRequest 2 (SqlExec 8 (token "DELETE FROM t"))))].

(** An engine that records the statements it is given. *)
Definition recorder (sql : list byte) (q : list (list byte)) : ExecResult * list (list byte) := (mkExec true [] 1 0 [], q ++ [sql]).

Lemma mallory_unnamed op : ~ entitled [token "alice=writer # on call"] Enforce mallory op.
Proof.
  intros [(l & r & [<-|[]] & Hn & _)|[? _]]; [|done]. unfold names in Hn. vm_compute in Hn.
  destruct Hn as [[[?|[]] _]|[?|[]]]; discriminate.
Qed.

Lemma gate_enforced_witness :
  exists a, build_auth_policy true (Some (token "alice=writer # on call")) [] [] = Some a /\
    let r := serve recorder (gate a) forged_frames (new_server true Oracle.empty []) in
    same_state (new_server true Oracle.empty []) (lp_server r.1) /\ r.2 = denials forged_frames.
Proof.
  eexists. split; [reflexivity|].
  refine (proj2 (gate_enforced recorder true (Some (token "alice=writer # on call")) [] [] _ forged_frames (new_server true Oracle.empty []) eq_refl eq_refl _) _).
  - discriminate.
  - repeat (apply List.Forall_cons; [split; apply mallory_unnamed|]). apply List.Forall_nil.
Defined.

(** A reader may not submit, but a SQL statement of any kind is a read to the gate. *)
Example reader_deletes_by_sql :
  exists a, build_auth_policy true (Some (token "mallory=reader")) [] [] = Some a /\
    sql_eng_ (lp_server (serve recorder (gate a) forged_frames (new_server true Oracle.empty [])).1) = [token "DELETE FROM t"].
Proof. eexists. split; [reflexivity|]. vm_compute. reflexivity. Qed.

(** One line turns the policy off for every principal, while it still counts as enabled. *)
Example open_posture_allows_all :
  exists a, build_auth_policy true (Some (token "alice=reader")) [] (token "open") = Some a /\
    enabled a = true /\ allow alice AdminClass a = true /\ allow mallory AdminClass a = true.
Proof. eexists. split; [reflexivity|]. vm_compute. split_and!; reflexivity. Qed.

(** A file with a misspelt posture is accepted, and leaves the posture as it was. *)
Example misspelt_posture : build_auth_policy true (Some (token "plaintext=Open")) [] [] = Some (mkPolicy [] true Enforce).
Proof. reflexivity. Qed.
