(* ===== verification/Calendar.v ===== *)
(** Calendar: the proleptic Gregorian calendar of query/sql/Catalog.hpp: day counts since
    1970-01-01, civil dates, and month arithmetic.

    Division of signed integers truncates; the unsigned fields of a date are 32-bit words.
    A signed overflow, undefined in the source, needs a count within 719468 of the ends of
    the 64-bit range and is not modelled. *)

From Stdlib Require Import ZArith Lia.
From stdpp Require Import base list numbers.
From S2P Require Import Prelude.
#[local] Open Scope Z_scope.

Definition b2z (b : bool) : Z := if b then 1 else 0.

Definition days_from_civil (y m d : Z) : Z :=
  let y := y - b2z (m <=? 2) in
  let era := Z.quot (if 0 <=? y then y else y - 399) 400 in
  let yoe := y - era * 400 in
  let doy := Z.quot (153 * (if 2 <? m then m - 3 else m + 9) + 2) 5 + d - 1 in
  let doe := yoe * 365 + Z.quot yoe 4 - Z.quot yoe 100 + doy in
  era * 146097 + doe - 719468.

(** The same computation on unsigned fields. *)
Definition civil_to_days (y m d : Z) : Z :=
  let y := y - b2z (m <=? 2) in
  let era := Z.quot (if 0 <=? y then y else y - 399) 400 in
  let yoe := u32 (y - era * 400) in
  let doy := u32 (u32 (153 * u32 (m + (if 2 <? m then -3 else 9)) + 2) / 5 + d - 1) in
  let doe := u32 (yoe * 365 + yoe / 4 - yoe / 100 + doy) in
  era * 146097 + doe - 719468.

(** [days_to_civil] computes on 32-bit words, the copy of it in [render_date] on 64-bit
    ones: [w] wraps. *)
Definition civil_at (w : Z -> Z) (z : Z) : Z * Z * Z :=
  let z := z + 719468 in
  let era := Z.quot (if 0 <=? z then z else z - 146096) 146097 in
  let doe := w (z - era * 146097) in
  let yoe := w (doe - doe / 1460 + doe / 36524 - doe / 146096) / 365 in
  let y := yoe + era * 400 in
  let doy := w (doe - w (365 * yoe + yoe / 4 - yoe / 100)) in
  let mp := w (5 * doy + 2) / 153 in
  let d := w (doy - w (153 * mp + 2) / 5 + 1) in
  let m := w (mp + (if mp <? 10 then 3 else -9)) in
  (y + b2z (m <=? 2), m, d).

Definition days_to_civil (z : Z) : Z * Z * Z := civil_at u32 z.

Definition leap (y : Z) : bool := (Z.rem y 4 =? 0) && negb (Z.rem y 100 =? 0) || (Z.rem y 400 =? 0).

Definition month_lengths : list Z := [31; 28; 31; 30; 31; 30; 31; 31; 30; 31; 30; 31].

Definition days_in_month (y m : Z) : Z :=
  if (m =? 2) && leap y then 29 else nth (Z.to_nat (m - 1)) month_lengths 0.

Definition add_months_days (days months : Z) : Z :=
  let '(y, m, d) := days_to_civil days in
  let tot := u32 (m - 1) + months in
  let yadd := if 0 <=? tot then Z.quot tot 12 else - Z.quot (- tot + 11) 12 in
  let y := y + yadd in
  let nm := u32 (Z.rem (Z.rem tot 12 + 12) 12) + 1 in
  let dim := days_in_month y nm in
  civil_to_days y nm (if dim <? d then dim else d).

Definition add_months_secs (secs months : Z) : Z :=
  let days := if 0 <=? secs then Z.quot secs 86400 else - Z.quot (- secs + 86399) 86400 in
  let rem := secs - days * 86400 in
  add_months_days days months * 86400 + rem.

(** ** Floors *)

Lemma quot_nonneg a b : 0 <= a -> 0 < b -> Z.quot a b = a / b.
Proof. intros Ha Hb. apply Z.quot_div_nonneg; lia. Qed.

(** [(z >= 0 ? z : z - (b - 1)) / b] is the floor. *)
Lemma quot_floor z b : 0 < b -> Z.quot (if 0 <=? z then z else z - (b - 1)) b = z / b.
Proof.
  intros Hb. destruct (Z.leb_spec 0 z) as [Hz|Hz]; [by apply quot_nonneg|].
  replace (z - (b - 1)) with (- (b - 1 - z)) by lia. rewrite Z.quot_opp_l, quot_nonneg by lia.
  pose proof (Z.div_mod z b) as H1. pose proof (Z.mod_pos_bound z b) as H2.
  pose proof (Z.div_mod (b - 1 - z) b) as H3. pose proof (Z.mod_pos_bound (b - 1 - z) b) as H4. nia.
Qed.

Lemma era_floor z : Z.quot (if 0 <=? z then z else z - 146096) 146097 = z / 146097.
Proof. by apply (quot_floor z 146097). Qed.

Lemma year_era_floor y : Z.quot (if 0 <=? y then y else y - 399) 400 = y / 400.
Proof. by apply (quot_floor y 400). Qed.

(** [z >= 0 ? z / b : -((-z + b - 1) / b)] is the floor too. *)
Lemma neg_quot_floor z b : 0 < b -> (if 0 <=? z then Z.quot z b else - Z.quot (- z + (b - 1)) b) = z / b.
Proof.
  intros Hb. rewrite <- (quot_floor z b Hb). destruct (Z.leb_spec 0 z); [done|].
  rewrite <- Z.quot_opp_l by lia. f_equal. lia.
Qed.

Lemma months_floor t : (if 0 <=? t then Z.quot t 12 else - Z.quot (- t + 11) 12) = t / 12.
Proof. by apply (neg_quot_floor t 12). Qed.

Lemma days_floor t : (if 0 <=? t then Z.quot t 86400 else - Z.quot (- t + 86399) 86400) = t / 86400.
Proof. by apply (neg_quot_floor t 86400). Qed.

Lemma rem_zero a b : b <> 0 -> (Z.rem a b =? 0) = (a mod b =? 0).
Proof.
  intros Hb. destruct (Z.eqb_spec (Z.rem a b) 0) as [H1|H1], (Z.eqb_spec (a mod b) 0) as [H2|H2]; try done.
  - apply Z.rem_divide, Z.mod_divide in H1; lia.
  - apply Z.mod_divide, Z.rem_divide in H2; lia.
Qed.

Lemma leap_mod y : leap y = (y mod 4 =? 0) && negb (y mod 100 =? 0) || (y mod 400 =? 0).
Proof. unfold leap. by rewrite !rem_zero. Qed.

(** ** Years that begin in March *)

(** The days before year [yoe] of an era, and its length. *)
Definition year_start (yoe : Z) : Z := 365 * yoe + yoe / 4 - yoe / 100.
Definition year_days (yoe : Z) : Z := if leap (yoe + 1) then 366 else 365.

(** A year of an era: its century, its olympiad and the rest. *)
Lemma yoe_split yoe : 0 <= yoe < 400 -> exists c q r, 0 <= c < 4 /\ 0 <= q < 25 /\ 0 <= r < 4 /\
  yoe = 100 * c + 4 * q + r /\ year_start yoe = 36524 * c + 1461 * q + 365 * r /\
  leap (yoe + 1) = (r =? 3) && (negb (q =? 24) || (c =? 3)).
Proof.
  intros Hy. exists (yoe / 100), (yoe mod 100 / 4), (yoe mod 4). unfold year_start. rewrite leap_mod.
  assert (yoe mod 100 / 4 = yoe / 4 - 25 * (yoe / 100)) as -> by (Z.to_euclidean_division_equations; lia).
  split_and!; Z.to_euclidean_division_equations; lia.
Qed.

Definition year_of_doe (doe : Z) : Z := (doe - doe / 1460 + doe / 36524 - doe / 146096) / 365.

(** The year of a day of the era, and the days outside. *)
Lemma year_of_doe_spec yoe doy : 0 <= yoe < 400 -> 0 <= doy < year_days yoe ->
  0 <= year_start yoe + doy < 146097 /\ year_of_doe (year_start yoe + doy) = yoe.
Proof.
  intros Hy Hd. destruct (yoe_split yoe Hy) as (c & q & r & Hc & Hq & Hr & -> & -> & Hl). unfold year_days in Hd. rewrite Hl in Hd.
  assert (Hd' : 0 <= doy <= 364 \/ doy = 365 /\ r = 3 /\ (q <> 24 \/ c = 3)).
  { destruct (Z.eqb_spec r 3), (Z.eqb_spec q 24), (Z.eqb_spec c 3); cbn in Hd; lia. }
  clear Hd Hl Hy. unfold year_of_doe. split; [lia|].
  assert (c = 0 \/ c = 1 \/ c = 2 \/ c = 3) as [->|[->|[->| ->]]] by lia;
  (assert (r = 0 \/ r = 1 \/ r = 2 \/ r = 3) as [->|[->|[->| ->]]] by lia); Z.to_euclidean_division_equations; lia.
Qed.

Lemma doe_split doe : 0 <= doe < 146097 -> exists yoe doy, 0 <= yoe < 400 /\ 0 <= doy < year_days yoe /\ doe = year_start yoe + doy.
Proof.
  intros Hd. set (c := Z.min 3 (doe / 36524)). set (x := doe - 36524 * c). set (q := x / 1461). set (z := x - 1461 * q).
  set (r := Z.min 3 (z / 365)).
  assert (0 <= c <= 3 /\ 0 <= x <= 36524 /\ (x = 36524 -> c = 3)) as (Hc & Hx & Hx2) by (unfold x, c; Z.to_euclidean_division_equations; lia).
  assert (0 <= q <= 24 /\ 0 <= z <= 1460 /\ (z = 1460 -> q = 24 -> c = 3)) as (Hq & Hz & Hz2) by (unfold z, q; Z.to_euclidean_division_equations; lia).
  assert (0 <= r <= 3 /\ 0 <= z - 365 * r <= 365 /\ (z - 365 * r = 365 -> r = 3 /\ z = 1460)) as (Hr & Hy & Hy2)
    by (unfold r; Z.to_euclidean_division_equations; lia).
  assert (Hyoe : 0 <= 100 * c + 4 * q + r < 400) by lia.
  exists (100 * c + 4 * q + r), (z - 365 * r). split; [done|].
  destruct (yoe_split _ Hyoe) as (c' & q' & r' & H1 & H2 & H3 & H4 & -> & Hl).
  assert (c' = c /\ q' = q /\ r' = r) as (-> & -> & ->) by lia. unfold year_days. rewrite Hl. split; [|unfold z, x; lia].
  destruct (Z.eqb_spec r 3), (Z.eqb_spec q 24), (Z.eqb_spec c 3); cbn; lia.
Qed.

(** ** Months *)

Definition month_start (mp : Z) : Z := (153 * mp + 2) / 5.

(** The length of the [mp]-th month from March, of a year of [n] days. *)
Definition month_len (n mp : Z) : Z := (if mp =? 11 then n else month_start (mp + 1)) - month_start mp.

Definition civil_month (mp : Z) : Z := mp + (if mp <? 10 then 3 else -9).

Lemma month_cases mp : 0 <= mp < 12 -> In mp [0; 1; 2; 3; 4; 5; 6; 7; 8; 9; 10; 11].
Proof. intros H. cbn. lia. Qed.

(** Case analysis on a month. *)
Ltac each_month mp :=
  let H := fresh in
  assert (H : 0 <= mp < 12) by lia; apply month_cases in H; cbn [In] in H;
  repeat (destruct H as [H|H]; [symmetry in H; try subst mp|]); [..|destruct H].

(** Evaluate the comparisons and lookups on literals. *)
Ltac closed_tests :=
  repeat match goal with
  | |- context [?a <? ?b] => let v := eval vm_compute in (a <? b) in change (a <? b) with v
  | |- context [?a <=? ?b] => let v := eval vm_compute in (a <=? b) in change (a <=? b) with v
  | |- context [days_in_month ?y ?m] =>
      let v := eval vm_compute in m in (progress change (days_in_month y m) with (days_in_month y v)) ||
      (let l := eval vm_compute in (nth (Z.to_nat (m - 1)) month_lengths 0) in
       lazymatch m with 2 => fail | _ => change (days_in_month y m) with l end)
  end.

Lemma month_of_day n mp d : 365 <= n <= 366 -> 0 <= mp < 12 -> 1 <= d <= month_len n mp ->
  0 <= month_start mp + d - 1 < n /\ (5 * (month_start mp + d - 1) + 2) / 153 = mp.
Proof.
  intros Hn Hmp Hd. each_month mp; unfold month_len, month_start in *; cbn in *; Z.to_euclidean_division_equations; lia.
Qed.

Lemma day_split n doy : 365 <= n <= 366 -> 0 <= doy < n -> exists mp d,
  0 <= mp < 12 /\ 1 <= d <= month_len n mp /\ doy = month_start mp + d - 1.
Proof.
  intros Hn Hd. exists ((5 * doy + 2) / 153), (doy - month_start ((5 * doy + 2) / 153) + 1).
  assert (Hmp : 0 <= (5 * doy + 2) / 153 < 12) by (Z.to_euclidean_division_equations; lia).
  split; [done|]. split; [|lia]. remember ((5 * doy + 2) / 153) as mp eqn:Emp.
  assert (Hb : 153 * mp <= 5 * doy + 2 < 153 * mp + 153) by (subst mp; Z.to_euclidean_division_equations; lia). clear Emp.
  each_month mp; unfold month_len, month_start; cbn; Z.to_euclidean_division_equations; lia.
Qed.

(** A civil date: year, month and day of it. *)
Definition valid_date (y m d : Z) : Prop := 1 <= m <= 12 /\ 1 <= d <= days_in_month y m.

Lemma month_len_civil y mp : 0 <= mp < 12 ->
  month_len (year_days y) mp = days_in_month (y + b2z (civil_month mp <=? 2)) (civil_month mp).
Proof.
  intros Hmp. unfold month_len, year_days, days_in_month, month_start, civil_month.
  each_month mp; try reflexivity. change (11 + (if 11 <? 10 then 3 else -9)) with 2. change (2 <=? 2) with true. cbn [b2z].
  change (2 =? 2) with true. cbn [andb]. destruct (leap (y + 1)); reflexivity.
Qed.

Lemma leap_era y era : leap (y + era * 400) = leap y.
Proof.
  rewrite !leap_mod. replace (y + era * 400) with (y + (100 * era) * 4) at 1 by lia. rewrite Z_mod_plus_full.
  replace (y + era * 400) with (y + (4 * era) * 100) at 1 by lia. rewrite Z_mod_plus_full. by rewrite Z_mod_plus_full.
Qed.

Lemma days_in_month_era y era m : days_in_month (y + era * 400) m = days_in_month y m.
Proof. unfold days_in_month. by rewrite leap_era. Qed.

(** ** Day counts *)

(** The day count of the day [d] of the [mp]-th month of year [yoe] of an era. *)
Definition count (era yoe mp d : Z) : Z := era * 146097 + (year_start yoe + (month_start mp + d - 1)) - 719468.

Record coords (era yoe mp d : Z) : Prop := {
  co_yoe : 0 <= yoe < 400;
  co_mp : 0 <= mp < 12;
  co_day : 1 <= d <= month_len (year_days yoe) mp
}.

Lemma year_days_range yoe : 365 <= year_days yoe <= 366.
Proof. unfold year_days. destruct (leap _); lia. Qed.

Lemma coords_doy era yoe mp d : coords era yoe mp d -> 0 <= month_start mp + d - 1 < year_days yoe.
Proof. intros [H1 H2 H3]. apply month_of_day; [apply year_days_range|done..]. Qed.

Lemma count_surj z : exists era yoe mp d, coords era yoe mp d /\ z = count era yoe mp d.
Proof.
  set (w := z + 719468). destruct (doe_split (w mod 146097)) as (yoe & doy & Hy & Hd & Heq); [apply Z.mod_pos_bound; lia|].
  destruct (day_split (year_days yoe) doy) as (mp & d & Hmp & Hday & ->); [apply year_days_range|done|].
  exists (w / 146097), yoe, mp, d. split; [by split|]. unfold count. rewrite <- Heq. pose proof (Z.div_mod w 146097). unfold w in *. lia.
Qed.

Lemma era_of_count era yoe mp d : coords era yoe mp d ->
  (count era yoe mp d + 719468) / 146097 = era /\ count era yoe mp d + 719468 - era * 146097 = year_start yoe + (month_start mp + d - 1).
Proof.
  intros Hc. destruct (year_of_doe_spec yoe (month_start mp + d - 1) (co_yoe _ _ _ _ Hc) (coords_doy _ _ _ _ Hc)) as [Hr _].
  unfold count. split; [|lia]. symmetry. apply (Z.div_unique _ _ _ (year_start yoe + (month_start mp + d - 1))); lia.
Qed.

Lemma civil_at_count w era yoe mp d : (forall x, 0 <= x < 2 ^ 32 -> w x = x) -> coords era yoe mp d ->
  civil_at w (count era yoe mp d) = (yoe + era * 400 + b2z (civil_month mp <=? 2), civil_month mp, d).
Proof.
  intros Hw Hc. destruct (era_of_count _ _ _ _ Hc) as [He Hdoe]. unfold civil_at.
  rewrite !era_floor, He, Hdoe.
  pose proof (coords_doy _ _ _ _ Hc) as Hdoy. destruct Hc as [Hy Hmp Hd].
  destruct (year_of_doe_spec yoe (month_start mp + d - 1) Hy Hdoy) as [Hr Hyoe].
  destruct (month_of_day (year_days yoe) mp d (year_days_range _) Hmp Hd) as [Hd1 Hd2].
  set (doy := month_start mp + d - 1) in *. set (doe := year_start yoe + doy) in *. pose proof (year_days_range yoe).
  rewrite (Hw doe) by lia. rewrite (Hw (doe - _ + _ - _)) by (Z.to_euclidean_division_equations; lia).
  fold (year_of_doe doe). rewrite Hyoe. fold (year_start yoe). assert (0 <= year_start yoe) by (unfold year_start; Z.to_euclidean_division_equations; lia).
  rewrite (Hw (year_start yoe)), (Hw (doe - year_start yoe)) by (unfold doe in *; lia).
  replace (doe - year_start yoe) with doy by (unfold doe; lia). rewrite (Hw (5 * doy + 2)), Hd2 by lia.
  rewrite (Hw (153 * mp + 2)) by lia. fold (month_start mp).
  assert (0 <= month_start mp) by (unfold month_start; Z.to_euclidean_division_equations; lia). rewrite (Hw (doy - month_start mp + 1)) by (unfold doy; lia).
  fold (civil_month mp). rewrite (Hw (civil_month mp)) by (unfold civil_month; destruct (Z.ltb_spec mp 10); lia).
  unfold doy. f_equal; lia.
Qed.

Lemma civil_of_count era yoe mp d : coords era yoe mp d ->
  days_to_civil (count era yoe mp d) = (yoe + era * 400 + b2z (civil_month mp <=? 2), civil_month mp, d).
Proof. apply civil_at_count. apply u32_id. Qed.

Lemma civil_at_wide z : civil_at u64 z = days_to_civil z.
Proof.
  destruct (count_surj z) as (era & yoe & mp & d & Hc & ->). rewrite civil_of_count by done.
  apply civil_at_count; [|done]. intros x Hx. apply u64_id. lia.
Qed.

Lemma count_of_civil era yoe mp d : coords era yoe mp d ->
  let y := yoe + era * 400 + b2z (civil_month mp <=? 2) in
  civil_to_days y (civil_month mp) d = count era yoe mp d /\ days_from_civil y (civil_month mp) d = count era yoe mp d.
Proof.
  intros Hc y. pose proof (coords_doy _ _ _ _ Hc) as Hdoy. destruct Hc as [Hy Hmp Hd]. pose proof (year_days_range yoe) as Hyd.
  assert (Hm : civil_month mp + (if 2 <? civil_month mp then -3 else 9) = mp /\ (if 2 <? civil_month mp then civil_month mp - 3 else civil_month mp + 9) = mp).
  { clear -Hmp. each_month mp; done. }
  destruct Hm as [Hm1 Hm2]. unfold civil_to_days, days_from_civil. rewrite Hm1, Hm2, !year_era_floor.
  replace (y - b2z (civil_month mp <=? 2)) with (yoe + era * 400) by (unfold y; lia).
  replace ((yoe + era * 400) / 400) with era by (rewrite Z.div_add, Z.div_small by lia; lia).
  replace (yoe + era * 400 - era * 400) with yoe by lia.
  assert (0 <= year_start yoe) by (unfold year_start; Z.to_euclidean_division_equations; lia).
  destruct (year_of_doe_spec yoe (month_start mp + d - 1) Hy Hdoy) as [Hr _].
  rewrite !quot_nonneg by lia. rewrite (u32_id mp), (u32_id (153 * mp + 2)), (u32_id yoe) by lia. fold (month_start mp).
  rewrite (u32_id (month_start mp + d - 1)) by lia.
  replace (yoe * 365 + yoe / 4 - yoe / 100) with (year_start yoe) by (unfold year_start; lia). rewrite u32_id by lia.
  unfold count. lia.
Qed.

Lemma civil_coords y m d : valid_date y m d -> exists era yoe mp,
  coords era yoe mp d /\ y = yoe + era * 400 + b2z (civil_month mp <=? 2) /\ m = civil_month mp.
Proof.
  intros [Hm Hd]. set (mp := if 2 <? m then m - 3 else m + 9). set (y' := y - b2z (m <=? 2)).
  assert (Hmp : 0 <= mp < 12 /\ civil_month mp = m) by (unfold mp, civil_month; destruct (Z.ltb_spec 2 m), (Z.ltb_spec (m - 3) 10), (Z.ltb_spec (m + 9) 10); lia).
  destruct Hmp as [Hmp Hcm]. pose proof (Z.div_mod y' 400) as Hdm. pose proof (Z.mod_pos_bound y' 400) as Hpos.
  assert (Hy : y = y' mod 400 + y' / 400 * 400 + b2z (m <=? 2)) by (unfold y' in *; lia).
  exists (y' / 400), (y' mod 400), mp. rewrite Hcm. split; [|done].
  split; [apply Hpos; lia|done|]. rewrite month_len_civil, Hcm by done. rewrite Hy in Hd.
  replace (y' mod 400 + y' / 400 * 400 + b2z (m <=? 2)) with (y' mod 400 + b2z (m <=? 2) + y' / 400 * 400) in Hd by lia.
  by rewrite days_in_month_era in Hd.
Qed.

(** ** The calendar *)

(** The day after a date. *)
Definition next_day (y m d : Z) : Z * Z * Z :=
  if d <? days_in_month y m then (y, m, d + 1)
  else if m <? 12 then (y, m + 1, 1) else (y + 1, 1, 1).

Lemma next_day_valid y m d : valid_date y m d -> let '(y', m', d') := next_day y m d in valid_date y' m' d'.
Proof.
  intros [Hm Hd]. unfold next_day. destruct (Z.ltb_spec d (days_in_month y m)); [split; lia|].
  assert (Hl : forall y m, 1 <= m <= 12 -> 1 <= days_in_month y m).
  { intros y0 m0 H0. unfold days_in_month. destruct (_ && _); [lia|].
    assert (1 <= m0 <= 12) as Hm0 by lia. assert (0 <= m0 - 1 < 12) as H1 by lia. remember (m0 - 1) as k. clear -H1. each_month k; by vm_compute. }
  destruct (Z.ltb_spec m 12); split; try lia; split; try lia; apply Hl; lia.
Qed.

(** The count of the days before a month, without eras. *)
Definition month_count (y mp : Z) : Z := 365 * y + y / 4 - y / 100 + y / 400 + month_start mp - 719468.

Lemma civil_count y m d : valid_date y m d ->
  civil_to_days y m d = month_count (y - b2z (m <=? 2)) (if 2 <? m then m - 3 else m + 9) + d - 1 /\
  days_from_civil y m d = civil_to_days y m d /\ days_to_civil (civil_to_days y m d) = (y, m, d).
Proof.
  intros Hv. destruct (civil_coords y m d Hv) as (era & yoe & mp & Hc & -> & ->).
  destruct (count_of_civil _ _ _ _ Hc) as [-> ->]. rewrite (civil_of_count _ _ _ _ Hc). split; [|done].
  destruct Hc as [Hy Hmp _].
  assert ((if 2 <? civil_month mp then civil_month mp - 3 else civil_month mp + 9) = mp) as -> by (clear -Hmp; each_month mp; done).
  unfold count, month_count, year_start. clear -Hy. Z.to_euclidean_division_equations; lia.
Qed.

Lemma march_count y : month_count y 0 = month_count (y - 1) 11 + days_in_month y 2.
Proof.
  unfold month_count, month_start, days_in_month. change (2 =? 2) with true. cbn [andb].
  change (nth (Z.to_nat (2 - 1)) month_lengths 0) with 28. rewrite leap_mod.
  destruct (Z.eqb_spec (y mod 4) 0), (Z.eqb_spec (y mod 100) 0), (Z.eqb_spec (y mod 400) 0); cbn [andb orb negb];
    Z.to_euclidean_division_equations; lia.
Qed.

Lemma next_day_count y m d : valid_date y m d -> let '(y', m', d') := next_day y m d in civil_to_days y' m' d' = civil_to_days y m d + 1.
Proof.
  intros Hv. pose proof (next_day_valid y m d Hv) as Hn. destruct (next_day y m d) as [[y' m'] d'] eqn:En.
  rewrite (proj1 (civil_count _ _ _ Hv)), (proj1 (civil_count _ _ _ Hn)). destruct Hv as [Hm Hd]. clear Hn. unfold next_day in En.
  destruct (Z.ltb_spec d (days_in_month y m)) as [Hlt|Hge]; [injection En as <- <- <-; lia|].
  assert (d = days_in_month y m) as -> by lia. clear Hd Hge.
  assert (Hk : 0 <= m - 1 < 12) by lia. remember (m - 1) as k eqn:Ek. assert (m = k + 1) as -> by lia. clear Ek Hm.
  each_month k; injection En as <- <- <-; closed_tests; cbn [b2z andb];
    try (unfold month_count, month_start; Z.to_euclidean_division_equations; lia).
  change (1 + 1 + 1 - 3) with 0. change (1 + 1 + 9) with 11. rewrite Z.sub_0_r, march_count. lia.
Qed.

Lemma civil_spec z : exists y m d, days_to_civil z = (y, m, d) /\ valid_date y m d /\ civil_to_days y m d = z.
Proof.
  destruct (count_surj z) as (era & yoe & mp & d & Hc & Hz). pose proof (civil_of_count _ _ _ _ Hc) as E.
  destruct (count_of_civil _ _ _ _ Hc) as [E1 _]. rewrite <- Hz in E, E1. eexists _, _, _. split; [exact E|]. split; [|done].
  destruct Hc as [Hy Hmp Hd]. split; [clear -Hmp; each_month mp; done|]. rewrite month_len_civil in Hd by done.
  replace (yoe + era * 400 + b2z (civil_month mp <=? 2)) with (yoe + b2z (civil_month mp <=? 2) + era * 400) by lia.
  by rewrite days_in_month_era.
Qed.

Lemma days_in_month_range y m : 1 <= m <= 12 -> 28 <= days_in_month y m <= 31.
Proof.
  intros Hm. unfold days_in_month. destruct (_ && _); [lia|]. assert (Hk : 0 <= m - 1 < 12) by lia. remember (m - 1) as k. clear -Hk.
  each_month k; by vm_compute.
Qed.

(** C35: The day count is the proleptic Gregorian calendar.  Day zero is 1970-01-01; every count
    is a valid date, and the next count is the next day, through months, leap years and
    centuries, in both directions for ever; the three conversions of the code (the signed and
    the unsigned one to a count, and the one back) are inverse to each other on valid dates. *)
Theorem calendar_exact z :
  days_to_civil 0 = (1970, 1, 1) /\
  (let '(y, m, d) := days_to_civil z in
   valid_date y m d /\ civil_to_days y m d = z /\ days_from_civil y m d = z /\ days_to_civil (z + 1) = next_day y m d) /\
  forall y m d, valid_date y m d -> days_to_civil (civil_to_days y m d) = (y, m, d).
Proof.
  split; [reflexivity|]. split; [|intros y m d Hv; by apply civil_count].
  destruct (civil_spec z) as (y & m & d & -> & Hv & Hz). split; [done|]. split; [done|]. split; [by rewrite (proj1 (proj2 (civil_count _ _ _ Hv)))|].
  pose proof (next_day_count _ _ _ Hv) as Hn. pose proof (next_day_valid _ _ _ Hv) as Hnv.
  destruct (next_day y m d) as [[y' m'] d']. rewrite <- Hz, <- Hn. by apply civil_count.
Qed.

(** Adding months keeps the day of the month, or takes the last day of a shorter month.
    Counting months from the year zero, the result is the month that many later or earlier,
    with the day clamped to its length; on a timestamp the clock is untouched. *)
Theorem add_months_exact days secs months :
  (let '(y, m, d) := days_to_civil days in
   let t := 12 * y + (m - 1) + months in
   days_to_civil (add_months_days days months) = (t / 12, t mod 12 + 1, Z.min d (days_in_month (t / 12) (t mod 12 + 1)))) /\
  add_months_secs secs months / 86400 = add_months_days (secs / 86400) months /\ add_months_secs secs months mod 86400 = secs mod 86400.
Proof.
  split.
  - unfold add_months_days. destruct (civil_spec days) as (y & m & d & -> & [Hm Hd] & _). cbn zeta.
    set (t := 12 * y + (m - 1) + months). rewrite (u32_id (m - 1)) by lia. rewrite months_floor.
    assert (Hy : y + (m - 1 + months) / 12 = t / 12).
    { unfold t. rewrite <- Z.add_assoc, (Z.mul_comm 12), Z.div_add_l by lia. done. }
    assert (Hrem : Z.rem (Z.rem (m - 1 + months) 12 + 12) 12 = t mod 12).
    { assert (-12 < Z.rem (m - 1 + months) 12 < 12) by (Z.to_euclidean_division_equations; lia).
      rewrite Z.rem_mod_nonneg by lia. unfold t. Z.to_euclidean_division_equations; lia. }
    pose proof (Z.mod_pos_bound t 12). rewrite Hrem, Hy, (u32_id (t mod 12)) by lia.
    assert (Hnm : 1 <= t mod 12 + 1 <= 12) by lia. pose proof (days_in_month_range (t / 12) _ Hnm).
    assert ((if days_in_month (t / 12) (t mod 12 + 1) <? d then days_in_month (t / 12) (t mod 12 + 1) else d) =
      Z.min d (days_in_month (t / 12) (t mod 12 + 1))) as -> by (destruct (Z.ltb_spec (days_in_month (t / 12) (t mod 12 + 1)) d); lia).
    apply civil_count. split; [done|]. lia.
  - unfold add_months_secs. rewrite days_floor.
    replace (secs - secs / 86400 * 86400) with (secs mod 86400) by (pose proof (Z.div_mod secs 86400); lia).
    pose proof (Z.mod_pos_bound secs 86400). rewrite Z.div_add_l by lia. rewrite (Z.div_small (secs mod 86400)), Z.add_0_r by lia. split; [done|].
    by rewrite Z.add_comm, Z_mod_plus_full, Z.mod_mod by lia.
Qed.

Example month_end : days_to_civil (add_months_days (civil_to_days 2024 1 31) 1) = (2024, 2, 29).
Proof. reflexivity. Qed.
