(* ===== verification/SqlText.v ===== *)
(** SqlText: the text and storage forms of the logical SQL types (query/sql/Catalog.hpp):
    decimals, dates, timestamps, times, intervals, 128-bit integers, UUIDs and arrays.

    [std::to_string], [snprintf] with %lld and [sscanf] with %d are modelled as the C
    standard describes them; what [snprintf] cuts off at the end of its buffer is cut off
    here.  A number [sscanf] reads that does not fit an [int], and a signed overflow, both
    undefined in the source, wrap.  A [double] is its bit pattern, and its shortest decimal
    text ([std::to_chars]) a parameter. *)

From Stdlib Require Import ZArith Lia Strings.Byte.
From stdpp Require Import base list numbers strings.
From S2P Require Import Prelude Codec Mvcc BigEndian Uint256 SqlKeys SqlRow SeededRandom Protocol Json Calendar.
#[local] Open Scope Z_scope.

(** ** Numbers as text *)

(** The decimal digits of an unsigned number, least significant first; 2^128 has 39. *)
Fixpoint low_decimals (fuel : nat) (u : Z) : list byte :=
  match fuel with
  | O => []
  | S fuel' => if u =? 0 then [] else bZ (48 + u mod 10) :: low_decimals fuel' (u / 10)
  end.

(** [render_u128], and [std::to_string] of an unsigned number. *)
Definition render_u128 (u : Z) : list byte := if u =? 0 then ["0"%byte] else rev (low_decimals 40 u).

Definition to_string (z : Z) : list byte := if z <? 0 then "-"%byte :: render_u128 (- z) else render_u128 z.

(** [while (frac.size() < w) frac.insert(frac.begin(), '0')] *)
Definition pad (w : nat) (s : list byte) : list byte := replicate (w - length s) "0"%byte ++ s.

(** The conversion %0[w]lld. *)
Definition fmt (w : nat) (z : Z) : list byte := if z <? 0 then "-"%byte :: pad (w - 1) (render_u128 (- z)) else pad w (render_u128 z).

(** [sscanf]: %d, a literal, white space, and %n. *)
Inductive directive := D | Lit (c : byte) | White | N.

Definition is_space (c : byte) : bool := (Zb c =? 32) || (9 <=? Zb c) && (Zb c <=? 13).

Fixpoint skip_space (s : list byte) : list byte :=
  match s with
  | c :: s' => if is_space c then skip_space s' else s
  | [] => []
  end.

Definition sign_of (s : list byte) : bool * list byte :=
  match s with
  | c :: s' => if Byte.eqb c "-" then (true, s') else if Byte.eqb c "+" then (false, s') else (false, s)
  | [] => (false, [])
  end.

Definition i32 (z : Z) : Z := (z + 2 ^ 31) mod 2 ^ 32 - 2 ^ 31.

Definition scan_int (s : list byte) : option (Z * list byte) :=
  let '(neg, s) := sign_of (skip_space s) in
  let '(ds, s) := digits s in
  match ds with [] => None | _ => Some (i32 (if neg then - dval ds else dval ds), s) end.

(** The numbers read, and what is left at %n when it is reached. *)
Fixpoint sscanf (fmt : list directive) (s : list byte) : list Z * option (list byte) :=
  match fmt with
  | [] => ([], None)
  | D :: fmt' =>
      match scan_int s with
      | None => ([], None)
      | Some (v, s) => let '(vs, n) := sscanf fmt' s in (v :: vs, n)
      end
  | Lit c :: fmt' =>
      match s with
      | c' :: s' => if Byte.eqb c c' then sscanf fmt' s' else ([], None)
      | [] => ([], None)
      end
  | White :: fmt' => sscanf fmt' (skip_space s)
  | N :: _ => ([], Some s)
  end.

(** ** Decimals *)

(** [for (k = 0; k < scale; ++k) pow *= 10], at the width of [w]. *)
Definition pow10 (w : Z -> Z) (scale : Z) : Z := Nat.iter (Z.to_nat scale) (fun p => w (p * 10)) 1.

Definition render_decimal (v scale : Z) : list byte :=
  if scale =? 0 then to_string v
  else
    let mag := if v <? 0 then u64 (u64 (- (v + 1)) + 1) else u64 v in
    let pow := pow10 u64 scale in
    (if v <? 0 then ["-"%byte] else []) ++ render_u128 (mag / pow) ++ "."%byte :: pad (Z.to_nat scale) (render_u128 (mag mod pow)).

Definition read_digits (ds : list byte) : Z := foldl (fun a c => i64 (a * 10 + (Zb c - 48))) 0 ds.

(** The optional fraction after the integer part. *)
Definition fraction (s : list byte) : list byte * list byte :=
  match s with
  | c :: s' => if Byte.eqb c "." then digits s' else ([], s)
  | [] => ([], [])
  end.

Definition parse_decimal (input : list byte) (scale : Z) : option Z :=
  let '(neg, s) := sign_of input in
  let '(ip, s) := digits s in
  let '(fp, s) := fraction s in
  match ip ++ fp, s with
  | _ :: _, [] =>
      let used := take (Z.to_nat scale) fp in
      let frac := Nat.iter (Z.to_nat scale - length used) (fun f => i64 (f * 10)) (read_digits used) in
      let v := i64 (read_digits ip * pow10 i64 scale + frac) in
      Some (if neg then i64 (- v) else v)
  | _, _ => None
  end.

(** ** 128-bit integers and decimals *)

Definition u128 (z : Z) : Z := z mod 2 ^ 128.
Definition i128 (z : Z) : Z := (z + 2 ^ 127) mod 2 ^ 128 - 2 ^ 127.

Definition encode_i128 (v : Z) : list byte :=
  let u := Z.lxor (u128 v) (Z.shiftl 1 127) in
  map (fun k => bZ (Z.shiftr u (8 * Z.of_nat k))) (rev (seq 0 16)).

(** The loop [u = (u << 8) | byte] over the sixteen bytes. *)
Definition decode_i128 (s : list byte) : Z :=
  let u := fold_left (fun u b => Z.lor (u128 (Z.shiftl u 8)) (Zb b)) (map (fun k => nth k s Byte.x00) (seq 0 16)) 0 in
  i128 (Z.lxor u (Z.shiftl 1 127)).

Definition abs_u128 (v : Z) : Z := if v <? 0 then u128 (u128 (- (v + 1)) + 1) else u128 v.

Definition render_i128 (v : Z) : list byte := (if v <? 0 then ["-"%byte] else []) ++ render_u128 (abs_u128 v).

Definition render_decimal128 (v scale : Z) : list byte :=
  if scale =? 0 then render_i128 v
  else
    let mag := abs_u128 v in
    let pow := pow10 u128 scale in
    (if v <? 0 then ["-"%byte] else []) ++ render_u128 (mag / pow) ++ "."%byte :: pad (Z.to_nat scale) (render_u128 (mag mod pow)).

(** The greatest magnitude of a sign, and one more digit within it. *)
Definition max_mag (neg : bool) : Z := if neg then Z.shiftl 1 127 else Z.shiftl 1 127 - 1.

Definition push_digit (maxmag : Z) (v : option Z) (d : Z) : option Z :=
  v ← v; if (maxmag - d) / 10 <? v then None else Some (v * 10 + d).

Definition push_digits (maxmag : Z) (ds : list byte) (v : option Z) : option Z :=
  foldl (fun v c => push_digit maxmag v (Zb c - 48)) v ds.

Definition parse_i128 (input : list byte) : option Z :=
  let '(neg, s) := sign_of input in
  match s with
  | [] => None
  | _ =>
      let '(ds, rest) := digits s in
      v ← push_digits (max_mag neg) ds (Some 0);
      match rest with [] => Some (if neg then i128 (- i128 v) else i128 v) | _ => None end
  end.

Definition parse_decimal128 (input : list byte) (scale : Z) : option Z :=
  let '(neg, s) := sign_of input in
  let '(ip, s) := digits s in
  let '(fp, s) := fraction s in
  let used := take (Z.to_nat scale) fp in
  v ← push_digits (max_mag neg) used (push_digits (max_mag neg) ip (Some 0));
  match ip ++ fp, s with
  | _ :: _, [] =>
      v ← Nat.iter (Z.to_nat scale - length used) (fun v => push_digit (max_mag neg) v 0) (Some v);
      Some (if neg then i128 (- i128 v) else i128 v)
  | _, _ => None
  end.

(** [in.find('.')] *)
Fixpoint find_dot (s : list byte) : option nat :=
  match s with
  | [] => None
  | c :: s' => if Byte.eqb c "." then Some O else option_map S (find_dot s')
  end.

Definition parse_decimal128_infer (input : list byte) : option (Z * Z) :=
  let sc := match find_dot input with
            | Some dot => let fd := Zlen input - Z.of_nat dot - 1 in if 38 <? fd then 38 else fd
            | None => 0
            end in
  v ← parse_decimal128 input sc; Some (v, sc).

(** ** Dates and times *)

Definition render_date (days : Z) : list byte :=
  let '(y, m, d) := civil_at u64 days in
  take 15 (fmt 4 y ++ "-"%byte :: fmt 2 m ++ "-"%byte :: fmt 2 d).

Definition render_clock (secs : Z) : list byte :=
  fmt 2 (Z.quot secs 3600) ++ ":"%byte :: fmt 2 (Z.quot (Z.rem secs 3600) 60) ++ ":"%byte :: fmt 2 (Z.rem secs 60).

Definition render_timestamp (secs : Z) : list byte :=
  let days := if 0 <=? secs then Z.quot secs 86400 else Z.quot (secs - 86399) 86400 in
  let rem := secs - days * 86400 in
  take 23 (render_date days ++ " "%byte :: render_clock rem).

Definition render_time (secs : Z) : list byte := take 11 (render_clock secs).

Definition render_interval (secs : Z) : list byte :=
  let a := if secs <? 0 then - secs else secs in
  let days := Z.quot a 86400 in
  let a := Z.rem a 86400 in
  take 39 ((if secs <? 0 then ["-"%byte] else []) ++ to_string days ++ "d"%byte :: " "%byte :: render_clock a).

Definition render_month_interval (months : Z) : list byte :=
  if months =? 0 then bytes "0 mons"
  else
    let m := if months <? 0 then - months else months in
    let years := Z.quot m 12 in
    let mons := Z.rem m 12 in
    (if months <? 0 then ["-"%byte] else []) ++
    (if years =? 0 then [] else to_string years ++ bytes (if years =? 1 then " year" else " years")) ++
    (if mons =? 0 then []
     else (if years =? 0 then [] else bytes " ") ++ to_string mons ++ bytes (if mons =? 1 then " mon" else " mons")).

Definition date_fmt : list directive := [D; Lit "-"; D; Lit "-"; D; N].
Definition stamp_fmt : list directive := [D; Lit "-"; D; Lit "-"; D; White; D; Lit ":"; D; Lit ":"; D; N].
Definition clock_fmt : list directive := [D; Lit ":"; D; Lit ":"; D; N].
Definition hm_fmt : list directive := [D; Lit ":"; D; N].

Definition in_bounds (lo v hi : Z) : bool := (lo <=? v) && (v <=? hi).

Definition parse_date (input : list byte) : option Z :=
  match sscanf date_fmt input with
  | ([y; m; d], Some []) => if in_bounds 1 m 12 && in_bounds 1 d 31 then Some (days_from_civil y m d) else None
  | _ => None
  end.

Definition parse_timestamp (input : list byte) : option Z :=
  match sscanf stamp_fmt input with
  | ([_; _; _], _) => days ← parse_date input; Some (days * 86400)
  | ([y; mo; d; h; mi; s], Some []) =>
      if in_bounds 1 mo 12 && in_bounds 1 d 31 && (h <=? 23) && (mi <=? 59) && (s <=? 59)
      then Some (i64 (days_from_civil y mo d * 86400 + i32 (h * 3600) + i32 (mi * 60) + s)) else None
  | _ => None
  end.

(** 'H:M:S', or 'H:M': the numbers and what follows. *)
Definition scan_clock (s : list byte) : option (Z * Z * Z * list byte) :=
  match sscanf clock_fmt s with
  | ([h; m; s], Some rest) => Some (h, m, s, rest)
  | ([_; _], _) => match sscanf hm_fmt s with ([h; m], Some rest) => Some (h, m, 0, rest) | _ => None end
  | _ => None
  end.

Definition parse_time (input : list byte) : option Z :=
  match scan_clock input with
  | Some (h, m, s, []) => if in_bounds 0 h 23 && in_bounds 0 m 59 && in_bounds 0 s 59 then Some (h * 3600 + m * 60 + s) else None
  | _ => None
  end.

(** ** Intervals *)

Definition is_blank (c : byte) : bool := (Zb c =? 32) || (Zb c =? 9).

Fixpoint skip_blank (s : list byte) : list byte :=
  match s with
  | c :: s' => if is_blank c then skip_blank s' else s
  | [] => []
  end.

(** The letters of a case, in lower case. *)
Fixpoint letters (first : Z) (s : list byte) : list byte * list byte :=
  match s with
  | c :: s' =>
      if in_bounds first (Zb c) (first + 25) then let '(u, r) := letters first s' in (bZ (Zb c - first + 97) :: u, r) else ([], s)
  | [] => ([], [])
  end.

(** A unit: a run of small letters, then one of capitals, without a plural s. *)
Definition scan_unit (s : list byte) : list byte * list byte :=
  let '(a, s) := letters 97 s in
  let '(b, s) := letters 65 s in
  let u := a ++ b in
  ((if (1 <? length u)%nat && bool_decide (last u = Some "s"%byte) then removelast u else u), s).

Inductive span := Months (n : Z) | Seconds (n : Z).

Definition unit_span (u : list byte) : option span :=
  let named w := bool_decide (u = bytes w) in
  if named "year" || named "yr" || named "y" then Some (Months 12)
  else if named "month" || named "mon" || named "mo" then Some (Months 1)
  else if named "second" || named "sec" || named "s" then Some (Seconds 1)
  else if named "minute" || named "min" then Some (Seconds 60)
  else if named "hour" || named "hr" || named "h" then Some (Seconds 3600)
  else if named "day" || named "d" then Some (Seconds 86400)
  else if named "week" || named "w" then Some (Seconds 604800)
  else None.

(** The loop over the chunks; every turn takes at least a digit. *)
Fixpoint interval_loop (fuel : nat) (s : list byte) (mon total : Z) (any : bool) : option (Z * Z * bool) :=
  match fuel with
  | O => None
  | S fuel' =>
      match skip_blank s with
      | [] => Some (mon, total, any)
      | _ as s0 =>
          let '(ds, q) := digits s0 in
          match ds with
          | [] => None
          | _ =>
              if match q with c :: _ => Byte.eqb c ":" | [] => false end then
                match scan_clock s0 with
                | Some (h, m, sec, rest) => interval_loop fuel' rest mon (i64 (total + i32 (h * 3600 + m * 60 + sec))) true
                | None => None
                end
              else
                let num := read_digits ds in
                let '(u, rest) := scan_unit (skip_blank q) in
                match unit_span u with
                | Some (Months n) => interval_loop fuel' rest (i64 (mon + num * n)) total true
                | Some (Seconds n) => interval_loop fuel' rest mon (i64 (total + num * n)) true
                | None => None
                end
          end
      end
  end.

Definition parse_interval_my (input : list byte) : option (Z * Z) :=
  let s := skip_blank input in
  let '(neg, s) := match s with c :: s' => if Byte.eqb c "-" then (true, s') else (false, s) | [] => (false, []) end in
  '(mon, total, any) ← interval_loop (S (length s)) s 0 0 false;
  if negb any then None else Some (if neg then (i64 (- mon), i64 (- total)) else (mon, total)).

Definition parse_interval (input : list byte) : option Z :=
  '(months, s) ← parse_interval_my input; if negb (months =? 0) then None else Some s.

(** ** UUIDs *)

Definition uuid_skips (c : byte) : bool := Byte.eqb c "-" || Byte.eqb c "{" || Byte.eqb c "}" || Byte.eqb c " ".

Definition lower_hex (c : byte) : option byte :=
  let lo := if in_bounds 65 (Zb c) 70 then bZ (Zb c - 65 + 97) else c in
  if is_digit lo || in_bounds 97 (Zb lo) 102 then Some lo else None.

Fixpoint hex_chars (s : list byte) : option (list byte) :=
  match s with
  | [] => Some []
  | c :: s' => if uuid_skips c then hex_chars s' else lo ← lower_hex c; h ← hex_chars s'; Some (lo :: h)
  end.

Definition dashed (h : list byte) : list byte :=
  take 8 h ++ "-"%byte :: take 4 (drop 8 h) ++ "-"%byte :: take 4 (drop 12 h) ++ "-"%byte :: take 4 (drop 16 h) ++ "-"%byte :: drop 20 h.

Definition parse_uuid (input : list byte) : option (list byte) :=
  h ← hex_chars input; if (length h =? 32)%nat then Some (dashed h) else None.

Definition hexd (n : Z) : byte := if n <? 10 then bZ (48 + n) else bZ (97 + (n - 10)).

Definition uuid_bytes (hi lo : Z) : list Z :=
  let b := map (fun i => Z.land (Z.shiftr hi (56 - 8 * Z.of_nat i)) 0xFF) (seq 0 8) ++
           map (fun i => Z.land (Z.shiftr lo (56 - 8 * Z.of_nat i)) 0xFF) (seq 0 8) in
  alter (fun x => Z.lor (Z.land x 0x3F) 0x80) 8%nat (alter (fun x => Z.lor (Z.land x 0x0F) 0x40) 6%nat b).

Definition format_uuid (table_id counter : Z) : list byte :=
  let mix x := finalize (u64 (x + golden)) in
  let seed := Z.lxor (u64 (Z.shiftl table_id 40)) (u64 (counter + 1)) in
  let b := uuid_bytes (mix seed) (mix (Z.lxor seed 0xD1B54A32D192ED03)) in
  dashed (b ≫= fun x => [hexd (Z.shiftr x 4); hexd (Z.land x 0x0F)]).

(** ** Doubles *)

(** The eight bytes of a bit pattern, least significant first. *)
Definition encode_double (bits : Z) : list byte := map (fun k => bZ (Z.land (Z.shiftr bits (8 * Z.of_nat k)) 0xFF)) (seq 0 8).

Definition decode_double (s : list byte) : Z :=
  foldl (fun bits k => Z.lor bits (Z.shiftl (byte_at s k) (8 * Z.of_nat k))) 0 (seq 0 (Nat.min 8 (length s))).

Definition make_real (bits : Z) : Datum := mkDatum TText 0 (encode_double bits) false 14 0.

Definition is_real (d : Datum) : bool := bool_decide (d_type d = TText) && (d_logical d =? 14).

(** The parts of a pattern, and the value of a finite or infinite one up to a positive
    factor: the order of the magnitudes is that of the low 63 bits. *)
Definition exponent (bits : Z) : Z := Z.land (Z.shiftr bits 52) 0x7FF.
Definition mantissa (bits : Z) : Z := Z.land bits 0xFFFFFFFFFFFFF.
Definition is_nan (bits : Z) : bool := (exponent bits =? 0x7FF) && negb (mantissa bits =? 0).
Definition magnitude (bits : Z) : Z := bits mod 2 ^ 63.
Definition signed_magnitude (bits : Z) : Z := if Z.testbit bits 63 then - magnitude bits else magnitude bits.

(** IEEE comparison of patterns that are no NaN; the two zeros are equal. *)
Definition double_lt (a b : Z) : bool := signed_magnitude a <? signed_magnitude b.

Definition real_cmp (a b : Z) : Z :=
  if is_nan a || is_nan b then (if eqb (is_nan a) (is_nan b) then 0 else if is_nan a then 1 else -1)
  else if double_lt a b then -1 else if double_lt b a then 1 else 0.

Definition datum_eqb (a b : Datum) : bool :=
  if is_null a || is_null b then is_null a && is_null b && bool_decide (d_type a = d_type b)
  else if negb (bool_decide (d_type a = d_type b)) then false
  else if is_real a && is_real b then real_cmp (decode_double (d_s a)) (decode_double (d_s b)) =? 0
  else match d_type a with TInt => d_i a =? d_i b | TText => key_eqb (d_s a) (d_s b) end.

Definition less_than (a b : Datum) : bool :=
  if is_real a && is_real b then real_cmp (decode_double (d_s a)) (decode_double (d_s b)) <? 0
  else match d_type a with TInt => d_i a <? d_i b | TText => key_ltb (d_s a) (d_s b) end.

(** ** Arrays *)

Definition put_elem (e : Datum) : list byte :=
  if is_null e then [Byte.x00]
  else match d_type e with
       | TInt => Byte.x01 :: map (fun k => bZ (Z.shiftr (u64 (d_i e)) (8 * Z.of_nat k))) (rev (seq 0 8))
       | TText => Byte.x02 :: put_be32 (u32 (Zlen (d_s e))) ++ d_s e
       end.

Definition encode_array (elem_logical elem_scale : Z) (elems : list Datum) : list byte :=
  bZ elem_logical :: bZ elem_scale :: put_be32 (u32 (Zlen elems)) ++ (elems ≫= put_elem).

Definition retag (el es : Z) (d : Datum) : Datum := mkDatum (d_type d) (d_i d) (d_s d) (is_null d) el es.

(** An element and what follows it.  In an image [encode_array] did not write, reads past
    the end, undefined in the source, see nothing. *)
Definition get_elem (el : Z) (s : list byte) : Datum * list byte :=
  match s with
  | [] => (make_null TInt, [])
  | tag :: s =>
      if Zb tag =? 0 then (make_null (if 5 <=? el then TText else TInt), s)
      else if Zb tag =? 1 then (make_int (i64 (get_be (take 8 s))), drop 8 s)
      else let len := Z.to_nat (get_be32 s) in (make_text (take len (drop 4 s)), drop len (drop 4 s))
  end.

Fixpoint get_elems (n : nat) (el es : Z) (s : list byte) : list Datum :=
  match n, s with
  | S n', _ :: _ => let '(d, s) := get_elem el s in retag el es d :: get_elems n' el es s
  | _, _ => []
  end.

Definition decode_array (s : list byte) : list Datum :=
  if (length s <? 6)%nat then []
  else get_elems (Z.to_nat (get_be32 (drop 2 s))) (byte_at s 0) (byte_at s 1) (drop 6 s).

(** ** [Datum::render] *)

Section render.
Context (to_chars : Z -> list byte).

Definition is_inf (bits : Z) : bool := (exponent bits =? 0x7FF) && (mantissa bits =? 0).

Definition render_double (bits : Z) : list byte :=
  if is_nan bits then bytes "NaN"
  else if is_inf bits then (if Z.testbit bits 63 then bytes "-Infinity" else bytes "Infinity")
  else to_chars bits.

Fixpoint joined (l : list (list byte)) : list byte :=
  match l with [] => [] | [x] => x | x :: l' => x ++ ","%byte :: joined l' end.

(** The elements of an array are shorter than it, which bounds the recursion. *)
Fixpoint render_at (fuel : nat) (d : Datum) : list byte :=
  let plain := match d_type d with TInt => to_string (d_i d) | TText => d_s d end in
  match fuel with
  | O => plain
  | S fuel' =>
      let elements := joined (map (render_at fuel') (decode_array (d_s d))) in
      if is_null d then bytes "NULL"
      else
        let l := d_logical d in
        match d_type d with
        | TInt =>
            if l =? 1 then render_decimal (d_i d) (d_scale d)
            else if l =? 2 then render_date (d_i d)
            else if l =? 3 then render_timestamp (d_i d)
            else if l =? 8 then render_time (d_i d)
            else if l =? 9 then d_s d
            else if l =? 10 then render_interval (d_i d)
            else if l =? 12 then render_month_interval (d_i d)
            else plain
        | TText =>
            if l =? 7 then "{"%byte :: elements ++ ["}"%byte]
            else if l =? 14 then render_double (decode_double (d_s d))
            else if l =? 15 then "["%byte :: elements ++ ["]"%byte]
            else if l =? 5 then render_i128 (decode_i128 (d_s d))
            else if l =? 6 then render_decimal128 (decode_i128 (d_s d)) (d_scale d)
            else if l =? 13 then u256_to_dec (u256_decode (d_s d))
            else plain
        end
  end.

Definition render (d : Datum) : list byte := render_at (S (length (d_s d))) d.
End render.

(** ** Numbers read back *)

Definition stop (r : list byte) : Prop := match r with c :: _ => is_digit c = false | [] => True end.

Lemma digits_stop s : forall d r, digits s = (d, r) -> stop r.
Proof.
  induction s as [|c s IH]; intros d r; cbn [digits]; [by intros [= <- <-]|]. destruct (is_digit c) eqn:Hc; [|by intros [= <- <-]].
  destruct (digits s) as [d' r']. intros [= <- <-]. by eapply IH.
Qed.

Lemma bZ_digit d : 0 <= d <= 9 -> Zb (bZ (48 + d)) = 48 + d.
Proof. intros H. rewrite Zb_bZ. apply Z.mod_small. lia. Qed.

Lemma low_decimals_spec fuel : forall u, 0 <= u < 10 ^ Z.of_nat fuel ->
  is_digits (rev (low_decimals fuel u)) /\ dval (rev (low_decimals fuel u)) = u.
Proof.
  induction fuel as [|fuel IH]; intros u Hu; cbn [low_decimals].
  - change (10 ^ Z.of_nat 0) with 1 in Hu. split; [constructor|]. cbn. lia.
  - destruct (Z.eqb_spec u 0) as [->|Hne]; [split; [constructor|done]|].
    assert (0 <= u / 10 < 10 ^ Z.of_nat fuel).
    { rewrite Nat2Z.inj_succ, Z.pow_succ_r in Hu by lia. split; [apply Z.div_pos; lia|apply Z.div_lt_upper_bound; lia]. }
    destruct (IH (u / 10)) as [H1 H2]; [done|]. cbn [rev]. pose proof (Z.mod_pos_bound u 10). pose proof (Z.div_mod u 10).
    split; [apply Forall_app; split; [done|repeat constructor]|rewrite dval_snoc, H2]; rewrite ?bZ_digit by lia; [|lia].
    unfold is_digit. rewrite bZ_digit by lia. lia.
Qed.

Lemma low_decimals_length fuel : forall u n, 0 <= u < 10 ^ Z.of_nat n -> (length (low_decimals fuel u) <= n)%nat.
Proof.
  induction fuel as [|fuel IH]; intros u n Hu; cbn [low_decimals]; [cbn; lia|].
  destruct (Z.eqb_spec u 0) as [->|Hne]; [cbn; lia|]. destruct n as [|n]; [change (10 ^ Z.of_nat 0) with 1 in Hu; lia|].
  rewrite Nat2Z.inj_succ, Z.pow_succ_r in Hu by lia. cbn [length].
  enough (length (low_decimals fuel (u / 10)) <= n)%nat by lia. apply IH. split; [apply Z.div_pos; lia|apply Z.div_lt_upper_bound; lia].
Qed.

Lemma render_u128_spec u : 0 <= u < 10 ^ 40 -> is_digits (render_u128 u) /\ dval (render_u128 u) = u /\ render_u128 u <> [].
Proof.
  intros Hu. unfold render_u128. destruct (Z.eqb_spec u 0) as [->|Hne]; [by split_and!; [repeat constructor| |]|].
  destruct (low_decimals_spec 40 u) as [H1 H2]; [done|]. split_and!; [done|done|]. intros He. rewrite He in H2. cbn in H2. lia.
Qed.

Lemma render_u128_length u n : (1 <= n)%nat -> 0 <= u < 10 ^ Z.of_nat n -> (length (render_u128 u) <= n)%nat.
Proof.
  intros Hn Hu. unfold render_u128. destruct (u =? 0); [done|]. rewrite length_rev. by apply low_decimals_length.
Qed.

Lemma pad_spec w ds : is_digits ds -> is_digits (pad w ds) /\ dval (pad w ds) = dval ds.
Proof.
  intros Hd. unfold pad. split; [apply Forall_app; split; [by apply Forall_replicate|done]|].
  rewrite dval_app, dval_zeros by (by apply Forall_replicate). lia.
Qed.

Lemma pad_length w ds : (length ds <= w)%nat -> length (pad w ds) = w.
Proof. intros H. unfold pad. rewrite length_app, length_replicate. lia. Qed.

Lemma pad_length_le w n ds : (length ds <= n)%nat -> (w <= n)%nat -> (length (pad w ds) <= n)%nat.
Proof. intros H Hw. unfold pad. rewrite length_app, length_replicate. lia. Qed.

Lemma is_digits_head ds : is_digits ds -> ds <> [] -> exists c t, ds = c :: t /\ is_digit c = true.
Proof. intros Hd Hne. destruct Hd as [|c t Hc _]; [done|]. eauto. Qed.

(** A digit is no sign, no space and no blank. *)
Lemma digit_plain c : is_digit c = true ->
  Byte.eqb c "-" = false /\ Byte.eqb c "+" = false /\ is_space c = false /\ is_blank c = false.
Proof. intros H. by destruct c. Qed.

Lemma sign_of_digits ds r : is_digits ds -> ds <> [] -> sign_of (ds ++ r) = (false, ds ++ r).
Proof. intros Hd Hne. destruct (is_digits_head ds Hd Hne) as (c & t & -> & Hc). destruct (digit_plain c Hc) as (H1 & H2 & _). cbn. by rewrite H1, H2. Qed.

Lemma skip_space_digits ds r : is_digits ds -> ds <> [] -> skip_space (ds ++ r) = ds ++ r.
Proof. intros Hd Hne. destruct (is_digits_head ds Hd Hne) as (c & t & -> & Hc). destruct (digit_plain c Hc) as (_ & _ & H & _). cbn. by rewrite H. Qed.

Lemma skip_blank_digits ds r : is_digits ds -> ds <> [] -> skip_blank (ds ++ r) = ds ++ r.
Proof. intros Hd Hne. destruct (is_digits_head ds Hd Hne) as (c & t & -> & Hc). destruct (digit_plain c Hc) as (_ & _ & _ & H). cbn. by rewrite H. Qed.

Lemma i32_id z : - 2 ^ 31 <= z < 2 ^ 31 -> i32 z = z.
Proof. intros H. unfold i32. rewrite Z.mod_small by lia. lia. Qed.

Lemma i128_id z : - 2 ^ 127 <= z < 2 ^ 127 -> i128 z = z.
Proof. intros H. unfold i128. rewrite Z.mod_small by lia. lia. Qed.

Lemma scan_int_digits ds r : is_digits ds -> ds <> [] -> stop r -> dval ds < 2 ^ 31 -> scan_int (ds ++ r) = Some (dval ds, r).
Proof.
  intros Hd Hne Hs Hv. unfold scan_int. rewrite skip_space_digits, sign_of_digits, digits_app by done.
  pose proof (dval_bounds ds Hd). rewrite i32_id by lia. by destruct ds.
Qed.

Lemma pad_nonempty w ds : ds <> [] -> pad w ds <> [].
Proof. intros Hne [_ H]%app_eq_nil. done. Qed.

Lemma scan_fmt w z r : - 2 ^ 31 < z < 2 ^ 31 -> stop r -> scan_int (fmt w z ++ r) = Some (z, r).
Proof.
  intros Hz Hs. unfold fmt. destruct (Z.ltb_spec z 0) as [Hn|Hn].
  - destruct (render_u128_spec (- z)) as (Hd & Hv & Hne); [lia|]. destruct (pad_spec (w - 1) _ Hd) as [Hp Hpv].
    unfold scan_int. cbn [app skip_space]. change (is_space "-") with false. cbn iota. cbn [sign_of]. change (Byte.eqb "-" "-") with true. cbn iota.
    rewrite digits_app by done. rewrite Hpv, Hv, i32_id by lia.
    destruct (pad (w - 1) (render_u128 (- z))) eqn:E; [by apply pad_nonempty in E|]. do 2 f_equal. lia.
  - destruct (render_u128_spec z) as (Hd & Hv & Hne); [lia|]. destruct (pad_spec w _ Hd) as [Hp Hpv].
    rewrite scan_int_digits by (try done; try apply pad_nonempty; try done; lia). by rewrite Hpv, Hv.
Qed.

(** ** Dates *)

Lemma fmt_length w n z : (1 <= w <= n)%nat -> - 10 ^ (Z.of_nat n - 1) < z < 10 ^ Z.of_nat n -> (length (fmt w z) <= n)%nat.
Proof.
  intros Hw Hz. unfold fmt. destruct (Z.ltb_spec z 0).
  - cbn [length]. destruct n as [|n]; [lia|]. replace (Z.of_nat (S n) - 1) with (Z.of_nat n) in Hz by lia.
    destruct n as [|n]; [change (10 ^ Z.of_nat 0) with 1 in Hz; lia|].
    enough (length (pad (w - 1) (render_u128 (- z))) <= S n)%nat by lia. apply pad_length_le; [|lia]. apply render_u128_length; lia.
  - apply pad_length_le; [|lia]. apply render_u128_length; lia.
Qed.

Lemma fmt2_length z : 0 <= z < 100 -> length (fmt 2 z) = 2%nat.
Proof. intros Hz. unfold fmt. destruct (Z.ltb_spec z 0); [lia|]. apply pad_length, render_u128_length; [lia|done]. Qed.

Definition date_text (y m d : Z) : list byte := fmt 4 y ++ "-"%byte :: fmt 2 m ++ "-"%byte :: fmt 2 d.

Lemma date_text_length y m d n : (4 <= n)%nat -> - 10 ^ (Z.of_nat n - 1) < y < 10 ^ Z.of_nat n -> 0 <= m < 100 -> 0 <= d < 100 ->
  (length (date_text y m d) <= n + 6)%nat.
Proof.
  intros Hn Hy Hm Hd. unfold date_text. rewrite !length_app. cbn [length]. rewrite length_app. cbn [length]. rewrite !fmt2_length by lia.
  pose proof (fmt_length 4 n y). lia.
Qed.

Lemma sscanf_date_prefix f y m d r : - 2 ^ 31 < y < 2 ^ 31 -> 0 <= m < 100 -> 0 <= d < 100 -> stop r ->
  sscanf (D :: Lit "-" :: D :: Lit "-" :: D :: f) (date_text y m d ++ r) = let '(vs, n) := sscanf f r in (y :: m :: d :: vs, n).
Proof.
  intros Hy Hm Hd Hs. unfold date_text. rewrite <- app_assoc. cbn [app sscanf]. rewrite scan_fmt by (done || lia).
  change (Byte.eqb "-" "-") with true. cbn iota. rewrite <- app_assoc. cbn [app]. rewrite scan_fmt by (done || lia).
  change (Byte.eqb "-" "-") with true. cbn iota. rewrite scan_fmt by (done || lia). by destruct (sscanf f r).
Qed.

(** The years whose date fits [n] characters. *)
Definition year_fits (n : Z) (days : Z) : Prop := let '(y, _, _) := days_to_civil days in - 10 ^ (n - 1) < y < 10 ^ n.

Lemma render_date_text n days : (4 <= n <= 9)%nat -> year_fits (Z.of_nat n) days -> exists y m d,
  render_date days = date_text y m d /\ valid_date y m d /\ days_from_civil y m d = days /\ - 2 ^ 31 < y < 2 ^ 31 /\
  (length (render_date days) <= n + 6)%nat.
Proof.
  intros Hn Hy. unfold year_fits in Hy. destruct (civil_spec days) as (y & m & d & E & Hv & Hz). rewrite E in Hy.
  pose proof (days_in_month_range y m (proj1 Hv)) as Hr. pose proof Hv as [Hm Hd].
  assert (Hl : (length (date_text y m d) <= n + 6)%nat) by (apply date_text_length; lia).
  assert (Hy9 : - 2 ^ 31 < y < 2 ^ 31).
  { assert (10 ^ Z.of_nat n <= 10 ^ 9) by (apply Z.pow_le_mono_r; lia). assert (10 ^ (Z.of_nat n - 1) <= 10 ^ 8) by (apply Z.pow_le_mono_r; lia). lia. }
  exists y, m, d. unfold render_date. rewrite civil_at_wide, E. rewrite take_ge by (fold (date_text y m d); lia).
  split; [done|]. split; [done|]. split; [by rewrite (proj1 (proj2 (civil_count _ _ _ Hv)))|]. done.
Qed.

Lemma valid_bounds y m d : valid_date y m d -> in_bounds 1 m 12 = true /\ in_bounds 1 d 31 = true /\ 0 <= m < 100 /\ 0 <= d < 100.
Proof. intros [Hm Hd]. pose proof (days_in_month_range y m Hm). unfold in_bounds. lia. Qed.

Lemma date_roundtrip days : year_fits 9 days -> parse_date (render_date days) = Some days.
Proof.
  intros Hy. destruct (render_date_text 9 days) as (y & m & d & -> & Hv & Hz & Hr & _); [lia|done|].
  destruct (valid_bounds _ _ _ Hv) as (H1 & H2 & H3 & H4). unfold parse_date, date_fmt.
  rewrite <- (app_nil_r (date_text y m d)), sscanf_date_prefix by done. cbn. by rewrite H1, H2, Hz.
Qed.

(** ** Clocks *)

Definition clock_text (h m s : Z) : list byte := fmt 2 h ++ ":"%byte :: fmt 2 m ++ ":"%byte :: fmt 2 s.

Lemma render_clock_text secs : 0 <= secs < 360000 -> exists h m s, render_clock secs = clock_text h m s /\
  0 <= h < 100 /\ 0 <= m < 60 /\ 0 <= s < 60 /\ h * 3600 + m * 60 + s = secs.
Proof.
  intros Hs. exists (secs / 3600), (secs mod 3600 / 60), (secs mod 60). unfold render_clock.
  rewrite !Z.rem_mod_nonneg, !quot_nonneg by (try lia; apply Z.mod_pos_bound; lia).
  split; [done|]. split_and!; Z.to_euclidean_division_equations; lia.
Qed.

Lemma clock_text_length h m s : 0 <= h < 100 -> 0 <= m < 60 -> 0 <= s < 60 -> length (clock_text h m s) = 8%nat.
Proof. intros Hh Hm Hs. unfold clock_text. rewrite !length_app. cbn [length]. rewrite length_app. cbn [length]. rewrite !fmt2_length by lia. done. Qed.

Lemma sscanf_clock h m s : 0 <= h < 100 -> 0 <= m < 60 -> 0 <= s < 60 -> sscanf clock_fmt (clock_text h m s) = ([h; m; s], Some []).
Proof.
  intros Hh Hm Hs. unfold clock_fmt, clock_text. cbn [sscanf]. rewrite scan_fmt by (done || lia).
  change (Byte.eqb ":" ":") with true. cbn iota. rewrite scan_fmt by (done || lia).
  change (Byte.eqb ":" ":") with true. cbn iota. rewrite <- (app_nil_r (fmt 2 s)), scan_fmt by (done || lia). done.
Qed.

Lemma scan_clock_text h m s : 0 <= h < 100 -> 0 <= m < 60 -> 0 <= s < 60 -> scan_clock (clock_text h m s) = Some (h, m, s, []).
Proof. intros Hh Hm Hs. unfold scan_clock. by rewrite sscanf_clock. Qed.

Lemma time_roundtrip secs : 0 <= secs < 86400 -> parse_time (render_time secs) = Some secs.
Proof.
  intros Hs. destruct (render_clock_text secs) as (h & m & s & E & Hh & Hm & Hsec & Heq); [lia|]. unfold render_time, parse_time.
  rewrite E, take_ge by (rewrite clock_text_length by done; lia). rewrite scan_clock_text by done.
  assert (in_bounds 0 h 23 && in_bounds 0 m 59 && in_bounds 0 s 59 = true) as -> by (unfold in_bounds; lia). by rewrite Heq.
Qed.

Lemma fmt2_head z : 0 <= z < 100 -> exists c t, fmt 2 z = c :: t /\ is_digit c = true.
Proof.
  intros Hz. unfold fmt. destruct (Z.ltb_spec z 0); [lia|]. destruct (render_u128_spec z) as (H1 & _ & H2); [lia|].
  apply is_digits_head; [by apply pad_spec|by apply pad_nonempty].
Qed.

Lemma timestamp_roundtrip secs : year_fits 8 (secs / 86400) -> - 2 ^ 63 <= secs < 2 ^ 63 -> parse_timestamp (render_timestamp secs) = Some secs.
Proof.
  intros Hy Hb. unfold render_timestamp.
  assert ((if 0 <=? secs then Z.quot secs 86400 else Z.quot (secs - 86399) 86400) = secs / 86400) as ->.
  { rewrite <- (quot_floor secs 86400) by lia. by destruct (0 <=? secs). }
  destruct (render_date_text 8 (secs / 86400)) as (y & mo & d & E & Hv & Hz & Hr & Hl); [lia|done|]. rewrite E in *.
  set (rem := secs - secs / 86400 * 86400). assert (Hrem : 0 <= rem < 86400) by (unfold rem; Z.to_euclidean_division_equations; lia).
  destruct (render_clock_text rem) as (h & m & s & E2 & Hh & Hm & Hs & Heq); [lia|]. rewrite E2.
  rewrite take_ge by (rewrite length_app; cbn [length]; rewrite clock_text_length by done; lia).
  destruct (valid_bounds _ _ _ Hv) as (H1 & H2 & H3 & H4). unfold parse_timestamp, stamp_fmt.
  rewrite sscanf_date_prefix by done.
  change (sscanf [White; D; Lit ":"; D; Lit ":"; D; N] (" "%byte :: clock_text h m s)) with (sscanf clock_fmt (skip_space (clock_text h m s))).
  assert (skip_space (clock_text h m s) = clock_text h m s) as ->.
  { unfold clock_text. destruct (fmt2_head h) as (c & t & -> & Hc); [lia|]. destruct (digit_plain c Hc) as (_ & _ & Hsp & _). cbn. by rewrite Hsp. }
  rewrite sscanf_clock by done. rewrite H1, H2. cbn [andb].
  assert ((h <=? 23) && (m <=? 59) && (s <=? 59) = true) as -> by lia. rewrite Hz, !i32_id by lia. rewrite i64_id by lia. f_equal. lia.
Qed.

(** ** Intervals *)

Lemma read_digits_dval ds : is_digits ds -> dval ds < 2 ^ 63 -> read_digits ds = dval ds.
Proof.
  unfold read_digits, dval. induction ds as [|c ds IH] using rev_ind; [done|]. intros [Hd Hc]%Forall_app Hv. rewrite !foldl_app in *. cbn [foldl] in *.
  apply Forall_inv, digit_range in Hc. pose proof (dval_bounds ds Hd) as Hb. unfold dval in Hb. rewrite IH by (done || lia). rewrite i64_id by lia. lia.
Qed.

Lemma to_string_digits u : 0 <= u < 2 ^ 63 -> is_digits (to_string u) /\ dval (to_string u) = u /\ to_string u <> [].
Proof. intros Hu. unfold to_string. destruct (Z.ltb_spec u 0); [lia|]. apply render_u128_spec. lia. Qed.

(** One chunk: a number and a unit. *)
Lemma interval_chunk fuel n unit u rest mon total any : 0 <= n < 2 ^ 63 -> scan_unit (skip_blank unit) = (u, rest) ->
  match unit with c :: _ => is_digit c = false /\ Byte.eqb c ":" = false | [] => False end ->
  interval_loop (S fuel) (to_string n ++ unit) mon total any =
    match unit_span u with
    | Some (Months k) => interval_loop fuel rest (i64 (mon + n * k)) total true
    | Some (Seconds k) => interval_loop fuel rest mon (i64 (total + n * k)) true
    | None => None
    end.
Proof.
  intros Hn Hu Hc. destruct (to_string_digits n Hn) as (Hd & Hv & Hne). cbn [interval_loop].
  rewrite skip_blank_digits by done. destruct unit as [|c unit]; [done|]. destruct Hc as [Hc Hcol].
  destruct (to_string n) as [|d ds] eqn:Es; [done|]. cbn [app].
  assert (digits (d :: ds ++ c :: unit) = (d :: ds, c :: unit)) as -> by (by apply (digits_app (d :: ds))).
  rewrite read_digits_dval, Hv by (done || lia). rewrite Hu.
  by rewrite Hcol.
Qed.

Lemma interval_clock fuel h m s mon total any : 0 <= h < 100 -> 0 <= m < 60 -> 0 <= s < 60 ->
  interval_loop (S (S fuel)) (" "%byte :: clock_text h m s) mon total any = Some (mon, i64 (total + i32 (h * 3600 + m * 60 + s)), true).
Proof.
  intros Hh Hm Hs. cbn [interval_loop skip_blank]. change (is_blank " ") with true. cbn iota.
  unfold clock_text at 1. destruct (render_u128_spec h) as (Hd & Hv & Hne); [lia|]. destruct (pad_spec 2 _ Hd) as [Hp _].
  assert (Ef : fmt 2 h = pad 2 (render_u128 h)) by (unfold fmt; destruct (Z.ltb_spec h 0); [lia|done]). rewrite Ef.
  pose proof (pad_nonempty 2 _ Hne) as Hpne. rewrite skip_blank_digits by done.
  destruct (pad 2 (render_u128 h)) as [|c t] eqn:E; [done|]. cbn [app].
  assert (digits (c :: t ++ ":"%byte :: fmt 2 m ++ ":"%byte :: fmt 2 s) = (c :: t, ":"%byte :: fmt 2 m ++ ":"%byte :: fmt 2 s)) as ->
    by (by apply (digits_app (c :: t))).
  replace (c :: t ++ ":"%byte :: fmt 2 m ++ ":"%byte :: fmt 2 s) with (clock_text h m s) by (unfold clock_text; by rewrite Ef).
  by rewrite scan_clock_text.
Qed.

Lemma interval_sign neg s r : (neg = true \/ match s with c :: _ => is_digit c = true | [] => False end) ->
  interval_loop (S (length s)) s 0 0 false = Some r ->
  parse_interval_my ((if neg : bool then ["-"%byte] else []) ++ s) =
    let '(mon, total, any) := r in if negb any then None else Some (if neg then (i64 (- mon), i64 (- total)) else (mon, total)).
Proof.
  intros Hs Hl. unfold parse_interval_my. destruct neg.
  - cbn [app skip_blank]. change (is_blank "-") with false. cbn iota. change (Byte.eqb "-" "-") with true. cbn iota. rewrite Hl. by destruct r as [[? ?] ?].
  - destruct Hs as [|Hs]; [done|]. destruct s as [|c s]; [done|]. destruct (digit_plain c Hs) as (H1 & _ & _ & H4).
    cbn [app skip_blank]. rewrite H4, H1, Hl. by destruct r as [[? ?] ?].
Qed.

Lemma interval_roundtrip secs : - 2 ^ 63 < secs < 2 ^ 63 -> parse_interval (render_interval secs) = Some secs.
Proof.
  intros Hb. unfold render_interval. set (a := if secs <? 0 then - secs else secs).
  assert (Ha : 0 <= a < 2 ^ 63) by (unfold a; destruct (Z.ltb_spec secs 0); lia).
  rewrite Z.rem_mod_nonneg, quot_nonneg by lia.
  assert (Hd : 0 <= a / 86400 < 10 ^ 15) by (Z.to_euclidean_division_equations; lia).
  destruct (render_clock_text (a mod 86400)) as (h & m & s & -> & Hh & Hm & Hs & Heq); [Z.to_euclidean_division_equations; lia|].
  assert (Hlen : (length (to_string (a / 86400)) <= 15)%nat).
  { unfold to_string. destruct (Z.ltb_spec (a / 86400) 0); [lia|]. apply render_u128_length; [lia|done]. }
  rewrite take_ge by (rewrite !length_app; cbn [length]; rewrite clock_text_length by done; destruct (secs <? 0); cbn; lia).
  unfold parse_interval. rewrite (interval_sign _ _ (0, a, true)); cycle 1.
  - right. destruct (to_string_digits (a / 86400)) as (H1 & _ & H3); [lia|]. by destruct (is_digits_head _ H1 H3) as (c & t & -> & Hc).
  - rewrite length_app. cbn [length]. rewrite clock_text_length by done.
    replace (S (length (to_string (a / 86400)) + S (S 8))) with (S (S (S (length (to_string (a / 86400)) + 8)))) by lia.
    rewrite (interval_chunk _ _ _ ["d"%byte] (" "%byte :: clock_text h m s)); [|lia|done|done].
    change (unit_span ["d"%byte]) with (Some (Seconds 86400)). cbn iota. rewrite interval_clock by done.
    rewrite (i32_id (h * 3600 + m * 60 + s)) by lia. rewrite Heq, Z.add_0_l, (i64_id (a / 86400 * 86400)), i64_id
      by (Z.to_euclidean_division_equations; lia). do 3 f_equal. pose proof (Z.div_mod a 86400). lia.
  - cbn [negb mbind option_bind]. unfold a. destruct (Z.ltb_spec secs 0); [|done].
    change (i64 (- 0)) with 0. by rewrite Z.opp_involutive, i64_id by lia.
Qed.

Lemma interval_blank fuel s mon total any : interval_loop (S fuel) (" "%byte :: s) mon total any = interval_loop (S fuel) s mon total any.
Proof. reflexivity. Qed.

Lemma interval_end fuel mon total any : interval_loop (S fuel) [] mon total any = Some (mon, total, any).
Proof. reflexivity. Qed.

(** The rest of a text after a unit. *)
Definition after_unit (r : list byte) : Prop := r = [] \/ exists t, r = " "%byte :: t.

Lemma unit_year r (b : bool) : after_unit r ->
  scan_unit (skip_blank (bytes (if b then " year" else " years") ++ r)) = (bytes "year", r).
Proof. intros [->|[t ->]]; by destruct b. Qed.

Lemma unit_mon r (b : bool) : after_unit r ->
  scan_unit (skip_blank (bytes (if b then " mon" else " mons") ++ r)) = (bytes "mon", r).
Proof. intros [->|[t ->]]; by destruct b. Qed.

Lemma chunk_years fuel n r mon : 0 <= n < 2 ^ 63 -> after_unit r ->
  interval_loop (S fuel) (to_string n ++ bytes (if n =? 1 then " year" else " years") ++ r) mon 0 false = interval_loop fuel r (i64 (mon + n * 12)) 0 true.
Proof.
  intros Hn Hr. rewrite (interval_chunk _ _ _ (bytes "year") r); [done|done|by apply unit_year|by destruct (n =? 1)].
Qed.

Lemma chunk_mons fuel n r mon any : 0 <= n < 2 ^ 63 -> after_unit r ->
  interval_loop (S fuel) (to_string n ++ bytes (if n =? 1 then " mon" else " mons") ++ r) mon 0 any = interval_loop fuel r (i64 (mon + n * 1)) 0 true.
Proof.
  intros Hn Hr. rewrite (interval_chunk _ _ _ (bytes "mon") r); [done|done|by apply unit_mon|by destruct (n =? 1)].
Qed.

Lemma months_loop years mons fuel : 0 <= years -> 0 <= mons -> 12 * years + mons < 2 ^ 63 -> years <> 0 \/ mons <> 0 -> (3 <= fuel)%nat ->
  interval_loop fuel ((if years =? 0 then [] else to_string years ++ bytes (if years =? 1 then " year" else " years")) ++
    (if mons =? 0 then [] else (if years =? 0 then [] else bytes " ") ++ to_string mons ++ bytes (if mons =? 1 then " mon" else " mons"))) 0 0 false
  = Some (12 * years + mons, 0, true).
Proof.
  intros Hy Hm Hb Hne Hf. destruct fuel as [|[|[|fuel]]]; try lia.
  destruct (Z.eqb_spec years 0) as [->|Hy0].
  - destruct (Z.eqb_spec mons 0) as [->|Hm0]; [lia|]. cbn [app].
    rewrite <- (app_nil_r (bytes (if mons =? 1 then " mon" else " mons"))), chunk_mons by (lia || by left).
    rewrite interval_end, i64_id by lia. do 3 f_equal. lia.
  - rewrite <- app_assoc. destruct (Z.eqb_spec mons 0) as [->|Hm0].
    + rewrite chunk_years by (lia || by left). rewrite interval_end, i64_id by lia. do 3 f_equal. lia.
    + rewrite chunk_years by (lia || (right; eexists; done)). change (bytes " ") with [" "%byte]. cbn [app]. rewrite interval_blank.
      rewrite <- (app_nil_r (bytes (if mons =? 1 then " mon" else " mons"))), chunk_mons by (lia || by left).
      rewrite interval_end. rewrite (i64_id (0 + years * 12)), i64_id by lia. do 3 f_equal. lia.
Qed.

Lemma months_roundtrip months : - 2 ^ 63 < months < 2 ^ 63 -> parse_interval_my (render_month_interval months) = Some (months, 0).
Proof.
  intros Hb. unfold render_month_interval. destruct (Z.eqb_spec months 0) as [->|Hne]; [done|].
  set (m := if months <? 0 then - months else months). assert (Hm : 0 < m < 2 ^ 63) by (unfold m; destruct (Z.ltb_spec months 0); lia).
  rewrite Z.rem_mod_nonneg, quot_nonneg by lia. pose proof (Z.div_mod m 12) as Hdm. pose proof (Z.mod_pos_bound m 12) as Hmod.
  assert (0 <= m / 12) by (apply Z.div_pos; lia).
  set (text := (if m / 12 =? 0 then [] else _) ++ _). assert (Hhead : match text with c :: _ => is_digit c = true | [] => False end /\ (2 <= length text)%nat).
  { assert (Hd : forall n r, 0 <= n < 2 ^ 63 -> (1 <= length r)%nat -> match to_string n ++ r with c :: _ => is_digit c = true | [] => False end /\ (2 <= length (to_string n ++ r))%nat).
    { intros n r Hn Hr. destruct (to_string_digits n Hn) as (H1 & _ & H3). destruct (is_digits_head _ H1 H3) as (c & t & -> & Hc).
      split; [exact Hc|]. rewrite length_app. cbn. lia. }
    unfold text. destruct (Z.eqb_spec (m / 12) 0) as [E|E].
    - destruct (Z.eqb_spec (m mod 12) 0); [lia|]. cbn [app]. apply Hd; [lia|]. destruct (_ =? 1); cbn; lia.
    - rewrite <- app_assoc. apply Hd; [lia|]. rewrite length_app. destruct (m / 12 =? 1); cbn; lia. }
  rewrite (interval_sign _ _ (m, 0, true)); [|by right; apply Hhead|].
  - cbn [negb]. unfold m. destruct (Z.ltb_spec months 0); [|done]. rewrite Z.opp_involutive, i64_id by lia. done.
  - pose proof (proj2 Hhead) as Hlen. unfold text in Hlen |- *. rewrite months_loop by lia. do 3 f_equal. lia.
Qed.

(** ** Decimals read back *)

Lemma pow10_value (w : Z -> Z) (lim : Z) scale : (forall x, 0 <= x < lim -> w x = x) -> 0 <= scale -> 10 ^ scale < lim -> pow10 w scale = 10 ^ scale.
Proof.
  intros Hw Hs Hl. unfold pow10. rewrite <- (Z2Nat.id scale) at 2 by done. rewrite <- (Z2Nat.id scale) in Hl by done. revert Hl.
  generalize (Z.to_nat scale) as n. clear Hs scale. induction n as [|n IH]; intros Hl; [done|]. rewrite Nat.iter_succ.
  rewrite Nat2Z.inj_succ, Z.pow_succ_r in Hl |- * by lia. pose proof (Z.pow_pos_nonneg 10 (Z.of_nat n)).
  rewrite IH, Hw by lia. lia.
Qed.

(** The text of a fixed-point number. *)
Definition fixed_text (neg : bool) (mag pow scale : Z) : list byte :=
  (if neg then ["-"%byte] else []) ++ render_u128 (mag / pow) ++ "."%byte :: pad (Z.to_nat scale) (render_u128 (mag mod pow)).

Lemma sign_of_text (neg : bool) ds r : is_digits ds -> ds <> [] -> sign_of ((if neg then ["-"%byte] else []) ++ ds ++ r) = (neg, ds ++ r).
Proof. intros Hd Hne. destruct neg; [done|]. exact (sign_of_digits ds r Hd Hne). Qed.

(** What a decimal parser sees in it. *)
Lemma fixed_text_parts neg mag scale : 0 < scale -> scale <= 38 -> 0 <= mag < 10 ^ 40 -> exists ip fp,
  sign_of (fixed_text neg mag (10 ^ scale) scale) = (neg, ip ++ "."%byte :: fp) /\
  digits (ip ++ "."%byte :: fp) = (ip, "."%byte :: fp) /\ fraction ("."%byte :: fp) = (fp, []) /\
  is_digits ip /\ is_digits fp /\ ip <> [] /\ dval ip = mag / 10 ^ scale /\ dval fp = mag mod 10 ^ scale /\ length fp = Z.to_nat scale.
Proof.
  intros Hs Hs2 Hm. assert (Hpow : 0 < 10 ^ scale) by (apply Z.pow_pos_nonneg; lia).
  assert (Hpow2 : 10 ^ scale <= 10 ^ 38) by (apply Z.pow_le_mono_r; lia).
  pose proof (Z.mod_pos_bound mag (10 ^ scale) Hpow) as Hmod. assert (Hdiv : 0 <= mag / 10 ^ scale <= mag).
  { split; [apply Z.div_pos; lia|]. apply Z.div_le_upper_bound; nia. }
  destruct (render_u128_spec (mag / 10 ^ scale)) as (I1 & I2 & I3); [lia|]. destruct (render_u128_spec (mag mod 10 ^ scale)) as (F1 & F2 & F3); [lia|].
  destruct (pad_spec (Z.to_nat scale) _ F1) as [P1 P2].
  exists (render_u128 (mag / 10 ^ scale)), (pad (Z.to_nat scale) (render_u128 (mag mod 10 ^ scale))). unfold fixed_text.
  rewrite (sign_of_text neg _ _ I1 I3). split; [reflexivity|]. split; [apply (digits_app _ _ I1); reflexivity|]. split.
  { cbn [fraction]. change (Byte.eqb "." ".") with true. cbn iota. rewrite <- (app_nil_r (pad _ _)) at 1. exact (digits_app _ [] P1 I). }
  split_and!; try assumption; [by rewrite P2|]. apply pad_length, render_u128_length; [lia|]. by rewrite Z2Nat.id by lia.
Qed.

Lemma mag_u64 v : - 2 ^ 63 <= v < 2 ^ 63 -> (if v <? 0 then u64 (u64 (- (v + 1)) + 1) else u64 v) = Z.abs v.
Proof. intros Hv. destruct (Z.ltb_spec v 0); rewrite !u64_id by (rewrite ?u64_id by lia; lia); lia. Qed.

Lemma Nat_iter_0 {A} (f : A -> A) x : Nat.iter 0 f x = x.
Proof. reflexivity. Qed.

Lemma signed_i64 v : - 2 ^ 63 < v < 2 ^ 63 -> (if v <? 0 then i64 (- i64 (Z.abs v)) else i64 (Z.abs v)) = v.
Proof. intros Hv. destruct (Z.ltb_spec v 0); rewrite !i64_id by (rewrite ?i64_id by lia; lia); lia. Qed.

Lemma decimal_roundtrip v scale : - 2 ^ 63 < v < 2 ^ 63 -> 0 <= scale <= 18 -> parse_decimal (render_decimal v scale) scale = Some v.
Proof.
  intros Hv Hs. unfold render_decimal. destruct (Z.eqb_spec scale 0) as [->|Hne].
  - unfold parse_decimal, to_string. destruct (render_u128_spec (Z.abs v)) as (D1 & D2 & D3); [lia|].
    assert (Hsg : sign_of (if v <? 0 then "-"%byte :: render_u128 (- v) else render_u128 v) = (v <? 0, render_u128 (Z.abs v))).
    { destruct (Z.ltb_spec v 0); [by rewrite Z.abs_neq by lia|]. rewrite Z.abs_eq in * by lia. rewrite <- (app_nil_r (render_u128 v)). by apply sign_of_digits. }
    rewrite Hsg. rewrite <- (app_nil_r (render_u128 (Z.abs v))), digits_app by done. cbn [fraction]. rewrite app_nil_r.
    destruct (render_u128 (Z.abs v)) as [|c t] eqn:E; [done|]. rewrite read_digits_dval, D2 by (done || lia).
    change (pow10 i64 0) with 1.
    change (Nat.iter (Z.to_nat 0 - length (take (Z.to_nat 0) [])) (fun f => i64 (f * 10)) (read_digits (take (Z.to_nat 0) []))) with 0.
    rewrite Z.mul_1_r, Z.add_0_r. f_equal. by apply signed_i64.
  - rewrite mag_u64 by lia. assert (Hp : 10 ^ scale <= 10 ^ 18) by (apply Z.pow_le_mono_r; lia).
    rewrite (pow10_value u64 (2 ^ 64)) by (apply u64_id || lia). fold (fixed_text (v <? 0) (Z.abs v) (10 ^ scale) scale).
    destruct (fixed_text_parts (v <? 0) (Z.abs v) scale) as (ip & fp & H1 & H2 & H3 & I1 & F1 & I3 & I2 & F2 & F3); [lia..|].
    unfold parse_decimal. rewrite H1, H2, H3. pose proof (Z.div_mod (Z.abs v) (10 ^ scale)) as Hdm.
    pose proof (dval_bounds ip I1). pose proof (dval_bounds fp F1). assert (0 < 10 ^ scale) by (apply Z.pow_pos_nonneg; lia).
    assert (Hip : dval ip <= Z.abs v) by (rewrite I2; apply Z.div_le_upper_bound; nia).
    rewrite take_ge, F3, Nat.sub_diag by lia. rewrite Nat_iter_0.
    rewrite !read_digits_dval by (done || (rewrite ?F2; pose proof (Z.mod_pos_bound (Z.abs v) (10 ^ scale)); lia) || lia).
    rewrite (pow10_value i64 (2 ^ 63)) by (try (intros; apply i64_id); lia). rewrite I2, F2.
    replace (Z.abs v / 10 ^ scale * 10 ^ scale + Z.abs v mod 10 ^ scale) with (Z.abs v) by lia.
    destruct (ip ++ fp) eqn:E; [by apply app_eq_nil in E as [? _]|]. f_equal. by apply signed_i64.
Qed.

(** ** 128-bit numbers *)

(** Pushing digits fails exactly when the number passes the bound. *)
Lemma push_digits_exact maxmag ds : is_digits ds -> forall v, 0 <= v <= maxmag -> 9 <= maxmag ->
  push_digits maxmag ds (Some v) = let r := v * 10 ^ Zlen ds + dval ds in if r <=? maxmag then Some r else None.
Proof.
  intros Hd. induction ds as [|c ds IH] using rev_ind; intros v Hv Hm.
  - change (push_digits maxmag [] (Some v)) with (Some v). change (Zlen (A := byte) []) with 0. change (dval []) with 0.
    rewrite Z.pow_0_r, Z.mul_1_r, Z.add_0_r. cbn zeta. destruct (Z.leb_spec v maxmag); [done|lia].
  - apply Forall_app in Hd as [Hd Hc%Forall_inv%digit_range]. unfold push_digits in *. rewrite foldl_app, IH by done. cbn [foldl].
    rewrite dval_snoc, Zlen_app, Z.pow_add_r by apply Zlen_nonneg. change (10 ^ Zlen [c]) with 10.
    pose proof (dval_bounds ds Hd). pose proof (Z.pow_pos_nonneg 10 (Zlen ds) ltac:(lia) (Zlen_nonneg ds)).
    set (x := v * 10 ^ Zlen ds + dval ds). assert (0 <= x) by (unfold x; nia).
    replace (v * (10 ^ Zlen ds * 10) + (10 * dval ds + (Zb c - 48))) with (x * 10 + (Zb c - 48)) by (unfold x; lia). cbn zeta.
    destruct (Z.leb_spec x maxmag) as [Hx|Hx]; cbn [push_digit mbind option_bind].
    + destruct (Z.ltb_spec ((maxmag - (Zb c - 48)) / 10) x), (Z.leb_spec (x * 10 + (Zb c - 48)) maxmag); try done;
        exfalso; Z.to_euclidean_division_equations; lia.
    + destruct (Z.leb_spec (x * 10 + (Zb c - 48)) maxmag); [lia|done].
Qed.

Lemma max_mag_value neg : max_mag neg = if neg then 2 ^ 127 else 2 ^ 127 - 1.
Proof. by destruct neg. Qed.

(** The number a magnitude and a sign denote, when it fits. *)
Lemma signed_value (neg : bool) mag : 0 <= mag <= max_mag neg -> (if neg then i128 (- i128 mag) else i128 mag) = if neg then - mag else mag.
Proof.
  rewrite max_mag_value. intros Hm. destruct neg; [|by rewrite i128_id by lia].
  destruct (decide (mag = 2 ^ 127)) as [->|Hne]; [by vm_compute|]. by rewrite !i128_id by (rewrite ?i128_id by lia; lia).
Qed.

Lemma mag_u128 v : - 2 ^ 127 <= v < 2 ^ 127 -> abs_u128 v = Z.abs v.
Proof.
  assert (Hid : forall x, 0 <= x < 2 ^ 128 -> u128 x = x) by (intros x Hx; by apply Z.mod_small).
  intros Hv. unfold abs_u128. destruct (Z.ltb_spec v 0); rewrite !Hid by (rewrite ?Hid by lia; lia); lia.
Qed.

Lemma abs_mag v : - 2 ^ 127 <= v < 2 ^ 127 -> 0 <= Z.abs v <= max_mag (v <? 0).
Proof. rewrite max_mag_value. intros Hv. destruct (Z.ltb_spec v 0); lia. Qed.

Lemma i128_text v : - 2 ^ 127 <= v < 2 ^ 127 -> parse_i128 (render_i128 v) = Some v.
Proof.
  intros Hv. unfold render_i128, parse_i128. rewrite mag_u128 by done. destruct (render_u128_spec (Z.abs v)) as (D1 & D2 & D3); [lia|].
  rewrite <- (app_nil_r (render_u128 (Z.abs v))), (sign_of_text _ _ _ D1 D3), (digits_app _ [] D1 I).
  destruct (render_u128 (Z.abs v)) as [|c t] eqn:E; [done|]. rewrite <- E in *. cbn [app].
  rewrite push_digits_exact; [|done|rewrite max_mag_value; destruct (v <? 0); lia|rewrite max_mag_value; destruct (v <? 0); lia].
  rewrite D2, Z.mul_0_l, Z.add_0_l. cbn zeta. pose proof (abs_mag v Hv) as Hm. destruct (Z.leb_spec (Z.abs v) (max_mag (v <? 0))); [|lia].
  rewrite app_nil_r, E. cbn [mbind option_bind]. rewrite signed_value by done. f_equal. destruct (Z.ltb_spec v 0); lia.
Qed.

Lemma decimal128_roundtrip v scale : - 2 ^ 127 <= v < 2 ^ 127 -> 0 <= scale <= 38 -> parse_decimal128 (render_decimal128 v scale) scale = Some v.
Proof.
  intros Hv Hs. pose proof (abs_mag v Hv) as Hm. assert (H9 : 9 <= max_mag (v <? 0)) by (rewrite max_mag_value; destruct (v <? 0); lia).
  assert (Hsv : (if v <? 0 then - Z.abs v else Z.abs v) = v) by (destruct (Z.ltb_spec v 0); lia).
  unfold render_decimal128. destruct (Z.eqb_spec scale 0) as [->|Hne].
  - unfold render_i128, parse_decimal128. rewrite mag_u128 by done. destruct (render_u128_spec (Z.abs v)) as (D1 & D2 & D3); [lia|].
    rewrite <- (app_nil_r (render_u128 (Z.abs v))), (sign_of_text _ _ _ D1 D3), (digits_app _ [] D1 I). cbn [fraction]. rewrite app_nil_r.
    change (take (Z.to_nat 0) []) with (@nil byte). cbn [push_digits foldl]. rewrite push_digits_exact by (done || lia).
    rewrite D2, Z.mul_0_l, Z.add_0_l. cbn zeta. destruct (Z.leb_spec (Z.abs v) (max_mag (v <? 0))); [|lia].
    cbn [mbind option_bind]. destruct (render_u128 (Z.abs v)) as [|c t] eqn:E; [done|]. change (Z.to_nat 0 - length (A:=byte) [])%nat with 0%nat. rewrite Nat_iter_0.
    cbn [mbind option_bind]. rewrite signed_value by done. by rewrite Hsv.
  - rewrite mag_u128 by done. assert (Hp : 10 ^ scale <= 10 ^ 38) by (apply Z.pow_le_mono_r; lia).
    rewrite (pow10_value u128 (2 ^ 128)) by (try (intros; by apply Z.mod_small); lia). fold (fixed_text (v <? 0) (Z.abs v) (10 ^ scale) scale).
    destruct (fixed_text_parts (v <? 0) (Z.abs v) scale) as (ip & fp & H1 & H2 & H3 & I1 & F1 & I3 & I2 & F2 & F3); [lia..|].
    unfold parse_decimal128. rewrite H1, H2, H3. assert (0 < 10 ^ scale) by (apply Z.pow_pos_nonneg; lia).
    pose proof (Z.div_mod (Z.abs v) (10 ^ scale)) as Hdm. pose proof (Z.mod_pos_bound (Z.abs v) (10 ^ scale)).
    assert (Hip : 0 <= dval ip <= max_mag (v <? 0)).
    { rewrite I2. split; [apply Z.div_pos; lia|]. apply Z.le_trans with (Z.abs v); [|lia]. apply Z.div_le_upper_bound; nia. }
    rewrite take_ge, F3, Nat.sub_diag by lia. rewrite (push_digits_exact _ ip) by (done || lia). rewrite Z.mul_0_l, Z.add_0_l. cbn zeta.
    destruct (Z.leb_spec (dval ip) (max_mag (v <? 0))); [|lia]. rewrite (push_digits_exact _ fp) by (done || lia). cbn zeta.
    assert (dval ip * 10 ^ Zlen fp + dval fp = Z.abs v) as ->.
    { unfold Zlen. rewrite F3, Z2Nat.id, I2, F2 by lia. lia. }
    destruct (Z.leb_spec (Z.abs v) (max_mag (v <? 0))); [|lia]. cbn [mbind option_bind].
    destruct (ip ++ fp) eqn:E; [by apply app_eq_nil in E as [? _]|]. rewrite Nat_iter_0. cbn [mbind option_bind]. rewrite signed_value by done. by rewrite Hsv.
Qed.

(** ** Storage of 128-bit integers *)

Lemma le_bytes_map n v : le_bytes n v = map (fun k => bZ (Z.shiftr v (8 * Z.of_nat k))) (seq 0 n).
Proof.
  revert v. induction n as [|n IH]; intros v; [done|]. cbn [le_bytes seq map]. f_equal.
  rewrite IH, <- seq_shift, map_map. apply map_ext. intros k. f_equal.
  rewrite !Z.shiftr_div_pow2 by lia. rewrite Nat2Z.inj_succ, Z.mul_succ_r, Z.add_comm, Z.pow_add_r by lia.
  change (2 ^ 8) with 256. rewrite Z.div_div by lia. done.
Qed.

Lemma lxor_top x : 0 <= x < 2 ^ 127 -> Z.lxor x (Z.shiftl 1 127) = x + 2 ^ 127 /\ Z.lxor (x + 2 ^ 127) (Z.shiftl 1 127) = x.
Proof.
  intros Hx. change (Z.shiftl 1 127) with (2 ^ 127).
  assert (Z.land x (2 ^ 127) = 0) as Hl.
  { apply Z.bits_inj'. intros i Hi. rewrite Z.land_spec, Z.bits_0, Z.pow2_bits_eqb by lia.
    destruct (Z.eqb_spec 127 i) as [<-|]; [|apply andb_false_r]. rewrite andb_true_r.
    rewrite <- (Z.mod_small x (2 ^ 127)) by done. by rewrite Z.mod_pow2_bits_high. }
  rewrite <- (Z.add_nocarry_lxor _ _ Hl). split; [done|]. by rewrite Z.add_nocarry_lxor, Z.lxor_assoc, Z.lxor_nilpotent, Z.lxor_0_r by done.
Qed.

Lemma flip_top v : - 2 ^ 127 <= v < 2 ^ 127 -> Z.lxor (u128 v) (Z.shiftl 1 127) = v + 2 ^ 127.
Proof.
  intros Hv. unfold u128. destruct (decide (0 <= v)).
  - rewrite Z.mod_small by lia. apply lxor_top. lia.
  - rewrite <- (Z_mod_plus_full v 1), Z.mod_small by lia. replace (v + 1 * 2 ^ 128) with (v + 2 ^ 127 + 2 ^ 127) by lia. apply lxor_top. lia.
Qed.

Lemma unflip_top v : - 2 ^ 127 <= v < 2 ^ 127 -> i128 (Z.lxor (v + 2 ^ 127) (Z.shiftl 1 127)) = v.
Proof.
  intros Hv. destruct (decide (0 <= v)).
  - rewrite (proj2 (lxor_top v ltac:(lia))). apply i128_id. lia.
  - rewrite (proj1 (lxor_top (v + 2 ^ 127) ltac:(lia))). unfold i128.
    replace (v + 2 ^ 127 + 2 ^ 127 + 2 ^ 127) with (v + 2 ^ 127 + 1 * 2 ^ 128) by lia. rewrite Z_mod_plus_full, Z.mod_small by lia. lia.
Qed.

Lemma encode_i128_be v : - 2 ^ 127 <= v < 2 ^ 127 -> encode_i128 v = be_bytes 16 (v + 2 ^ 127).
Proof. intros Hv. unfold encode_i128, be_bytes. rewrite flip_top by done. by rewrite map_rev, <- le_bytes_map. Qed.

Lemma decode_i128_encode v : - 2 ^ 127 <= v < 2 ^ 127 -> decode_i128 (encode_i128 v) = v.
Proof.
  intros Hv. rewrite encode_i128_be by done. unfold decode_i128.
  assert (map (fun k => nth k (be_bytes 16 (v + 2 ^ 127)) Byte.x00) (seq 0 16) = be_bytes 16 (v + 2 ^ 127)) as -> by reflexivity.
  unfold u128. rewrite (fold_be 128) by (rewrite ?length_be_bytes, ?be_val_bytes; try lia; apply Z.mod_pos_bound; lia).
  rewrite be_val_bytes, Z.mul_0_l, Z.add_0_l, Z.mod_small by (change (256 ^ Z.of_nat 16) with (2 ^ 128); lia). by apply unflip_top.
Qed.

Lemma encode_i128_order a b : - 2 ^ 127 <= a < 2 ^ 127 -> - 2 ^ 127 <= b < 2 ^ 127 -> key_ltb (encode_i128 a) (encode_i128 b) = (a <? b).
Proof.
  intros Ha Hb. rewrite !encode_i128_be, key_ltb_be, !be_val_bytes by (done || by rewrite !length_be_bytes).
  change (256 ^ Z.of_nat 16) with (2 ^ 128). rewrite !Z.mod_small by lia. lia.
Qed.

(** ** UUIDs *)

(** A small hexadecimal digit, as the canonical form has it. *)
Definition canon_hex (c : byte) : Prop := uuid_skips c = false /\ lower_hex c = Some c.

Lemma lower_hex_canon c lo : lower_hex c = Some lo -> canon_hex lo.
Proof. intros H. by destruct c; vm_compute in H; simplify_eq. Qed.

Lemma hex_chars_canon s : forall h, hex_chars s = Some h -> Forall canon_hex h.
Proof.
  induction s as [|c s IH]; intros h; cbn [hex_chars]; [by intros [= <-]|]. destruct (uuid_skips c); [apply IH|].
  intros (lo & Hlo & (h' & Hh & [= <-])%bind_Some)%bind_Some. constructor; [by eapply lower_hex_canon|by apply IH].
Qed.

Lemma hex_chars_app a : forall b, Forall canon_hex a -> hex_chars (a ++ b) = h ← hex_chars b; Some (a ++ h).
Proof.
  induction a as [|c a IH]; intros b Ha; cbn [app hex_chars]; [by destruct (hex_chars b)|]. apply Forall_cons in Ha as [[H1 H2] Ha].
  rewrite H1, H2. cbn [mbind option_bind]. rewrite IH by done. by destruct (hex_chars b).
Qed.

Lemma hex_chars_dash a b : Forall canon_hex a -> hex_chars (a ++ "-"%byte :: b) = h ← hex_chars b; Some (a ++ h).
Proof. intros Ha. by rewrite hex_chars_app. Qed.

Lemma dashed_hex h : Forall canon_hex h -> hex_chars (dashed h) = Some h.
Proof.
  intros Hh. unfold dashed. rewrite !hex_chars_dash by (try apply Forall_take; try apply Forall_drop; done).
  rewrite <- (app_nil_r (drop 20 h)), hex_chars_app by (by apply Forall_drop). cbn [hex_chars mbind option_bind]. f_equal. rewrite app_nil_r.
  change 20%nat with (16 + 4)%nat. rewrite <- drop_drop, take_drop. change 16%nat with (12 + 4)%nat. rewrite <- drop_drop, take_drop.
  change 12%nat with (8 + 4)%nat. rewrite <- drop_drop, take_drop. apply take_drop.
Qed.

Lemma dashed_length h : length h = 32%nat -> length (dashed h) = 36%nat.
Proof.
  intros Hl. unfold dashed. rewrite length_app. cbn [length]. rewrite length_app. cbn [length]. rewrite length_app. cbn [length].
  rewrite length_app. cbn [length]. rewrite !length_take, !length_drop, Hl. done.
Qed.

Lemma parse_dashed h : Forall canon_hex h -> length h = 32%nat -> parse_uuid (dashed h) = Some (dashed h).
Proof. intros Hh Hl. unfold parse_uuid. rewrite dashed_hex by done. cbn [mbind option_bind]. by rewrite Hl. Qed.

(** A property of all bytes, checked on each. *)
Lemma all_bytes (P : Z -> bool) : forallb (fun n => P (Z.of_nat n)) (seq 0 256) = true -> forall x, 0 <= x < 256 -> P x = true.
Proof. intros H x Hx. rewrite forallb_forall in H. rewrite <- (Z2Nat.id x) by lia. apply H, in_seq. lia. Qed.

Lemma land_byte x : 0 <= Z.land x 0xFF < 256.
Proof. change 0xFF with (Z.ones 8). rewrite Z.land_ones by lia. by apply Z.mod_pos_bound. Qed.

Lemma uuid_bytes_range hi lo : Forall (fun x => 0 <= x < 256) (uuid_bytes hi lo) /\ length (uuid_bytes hi lo) = 16%nat.
Proof.
  unfold uuid_bytes. split; [|by rewrite !length_alter, length_app, !length_map].
  assert (Hset : forall m k, forallb (fun n => (0 <=? Z.lor (Z.land (Z.of_nat n) m) k) && (Z.lor (Z.land (Z.of_nat n) m) k <? 256)) (seq 0 256) = true ->
    forall i l, Forall (fun x => 0 <= x < 256) l -> Forall (fun x => 0 <= x < 256) (alter (fun x => Z.lor (Z.land x m) k) i l)).
  { intros m k Hall i l Hl. apply Forall_alter; [done|]. intros x _ Hx. pose proof (all_bytes (fun x => (0 <=? Z.lor (Z.land x m) k) && (Z.lor (Z.land x m) k <? 256)) Hall x Hx). lia. }
  apply Hset; [reflexivity|]. apply Hset; [reflexivity|]. apply Forall_app. split; apply Forall_forall; intros x Hx; apply list_elem_of_fmap in Hx as (i & -> & _); apply land_byte.
Qed.

Lemma hexd_canon x : 0 <= x < 256 -> Forall canon_hex [hexd (Z.shiftr x 4); hexd (Z.land x 0x0F)].
Proof.
  intros Hx. pose (ok := fun c => negb (uuid_skips c) && bool_decide (lower_hex c = Some c)).
  assert (Hok : ok (hexd (Z.shiftr x 4)) && ok (hexd (Z.land x 0x0F)) = true) by (by apply (all_bytes (fun x => ok (hexd (Z.shiftr x 4)) && ok (hexd (Z.land x 0x0F))))).
  assert (Hc : forall c, ok c = true -> canon_hex c). { intros c [H1 H2]%andb_true_iff. split; [by destruct (uuid_skips c)|by apply bool_decide_eq_true in H2]. }
  apply andb_true_iff in Hok as [H1 H2]. repeat constructor; by apply Hc.
Qed.

Lemma hex_text (l : list Z) : Forall (fun x => 0 <= x < 256) l ->
  Forall canon_hex (l ≫= fun x => [hexd (Z.shiftr x 4); hexd (Z.land x 0x0F)]) /\ length (l ≫= fun x => [hexd (Z.shiftr x 4); hexd (Z.land x 0x0F)]) = (2 * length l)%nat.
Proof.
  induction 1 as [|x l Hx Hl [IH1 IH2]]; [done|]. cbn [mbind list_bind]. split; [apply Forall_app; split; [by apply hexd_canon|done]|].
  rewrite length_app. cbn [length] in *. lia.
Qed.

(** ** Arrays *)

(** An element as [decode_array] gives it back: its payload, the tags of the array, and the
    type of a NULL derived from the tag. *)
Definition element (el es : Z) (d : Datum) : Prop :=
  d_logical d = el /\ d_scale d = es /\
  if is_null d then d = retag el es (make_null (if 5 <=? el then TText else TInt))
  else match d_type d with
       | TInt => d_s d = [] /\ int64 (d_i d)
       | TText => d_i d = 0 /\ Zlen (d_s d) < 2 ^ 32
       end.

Lemma get_put_elem el es d r : element el es d -> get_elem el (put_elem d ++ r) = (retag 0 0 d, r) /\ put_elem d <> [].
Proof.
  intros (Hl & Hs & Hd). destruct d as [t i s nl lg sc]. cbn [d_logical d_scale is_null d_type d_s d_i] in *. subst lg sc. unfold put_elem. cbn [is_null d_type d_i d_s].
  destruct nl; [split; [|done]; injection Hd as -> -> ->; done|]. destruct t.
  - destruct Hd as [-> Hi]. split; [|done].
    assert (map (fun k => bZ (Z.shiftr (u64 i) (8 * Z.of_nat k))) (rev (seq 0 8)) = put_be64 (u64 i)) as ->.
    { rewrite put_be64_be. unfold be_bytes. by rewrite map_rev, <- le_bytes_map. }
    cbn [app get_elem]. change (Zb Byte.x01 =? 0) with false. change (Zb Byte.x01 =? 1) with true. cbn iota.
    rewrite take_app_length' by (by rewrite put_be64_be, length_be_bytes). rewrite get_put_be64, drop_app_length' by (by rewrite put_be64_be, length_be_bytes).
    unfold retag, make_int. cbn. do 2 f_equal. rewrite (u64_id (u64 i)) by apply u64_range. apply i64_of_u64. unfold int64 in Hi. lia.
  - destruct Hd as [-> Hz]. split; [|done]. pose proof (Zlen_nonneg s). cbn [app get_elem]. change (Zb Byte.x02 =? 0) with false. change (Zb Byte.x02 =? 1) with false. cbn iota.
    rewrite <- app_assoc, get_put_be32, drop_be32, !u32_id by (rewrite ?u32_id by lia; lia).
    assert (Z.to_nat (Zlen s) = length s) as -> by (unfold Zlen; lia). rewrite take_app_length, drop_app_length. done.
Qed.

Lemma get_put_elems el es ds : Forall (element el es) ds -> get_elems (length ds) el es (ds ≫= put_elem) = ds.
Proof.
  induction 1 as [|d ds Hd Hds IH]; [done|]. cbn [mbind list_bind length get_elems]. destruct (get_put_elem el es d (ds ≫= put_elem) Hd) as [He Hne].
  destruct (put_elem d) as [|c t] eqn:Ep; [done|]. cbn [app]. change (c :: t ++ (ds ≫= put_elem)) with ((c :: t) ++ (ds ≫= put_elem)).
  rewrite He, IH. f_equal. destruct Hd as (<- & <- & _). by destruct d.
Qed.

Lemma array_roundtrip el es ds : 0 <= el < 256 -> 0 <= es < 256 -> Zlen ds < 2 ^ 32 -> Forall (element el es) ds -> decode_array (encode_array el es ds) = ds.
Proof.
  intros Hel Hes Hl Hds. unfold decode_array, encode_array. pose proof (Zlen_nonneg ds).
  cbn [length]. rewrite length_app. destruct (Nat.ltb_spec (S (S (length (put_be32 (u32 (Zlen ds))) + length (ds ≫= put_elem)))) 6) as [Hlt|_]; [cbn in Hlt; lia|].
  unfold byte_at. cbn [nth].
  change (drop 2 (bZ el :: bZ es :: ?l)) with l. change (drop 6 (bZ el :: bZ es :: put_be32 ?v ++ ?l)) with l.
  rewrite get_put_be32, !u32_id by (rewrite ?u32_id by lia; lia). rewrite !Zb_bZ, !Z.mod_small by done.
  replace (Z.to_nat (Zlen ds)) with (length ds) by (unfold Zlen; lia). by apply get_put_elems.
Qed.

(** ** Properties *)

(** C38: Every literal the engine prints for a logical type is one it reads back as the same
    value: dates and timestamps whose year fits the buffer, times of day, intervals of
    seconds and of months over the signed 64-bit range, decimals of up to 18 digits after
    the point, and 128-bit integers and decimals over their whole range. *)
Theorem literals_roundtrip :
  (forall days, year_fits 9 days -> parse_date (render_date days) = Some days) /\
  (forall secs, year_fits 8 (secs / 86400) -> - 2 ^ 63 <= secs < 2 ^ 63 -> parse_timestamp (render_timestamp secs) = Some secs) /\
  (forall secs, 0 <= secs < 86400 -> parse_time (render_time secs) = Some secs) /\
  (forall secs, - 2 ^ 63 < secs < 2 ^ 63 -> parse_interval (render_interval secs) = Some secs) /\
  (forall months, - 2 ^ 63 < months < 2 ^ 63 -> parse_interval_my (render_month_interval months) = Some (months, 0)) /\
  (forall v scale, - 2 ^ 63 < v < 2 ^ 63 -> 0 <= scale <= 18 -> parse_decimal (render_decimal v scale) scale = Some v) /\
  (forall v, - 2 ^ 127 <= v < 2 ^ 127 -> parse_i128 (render_i128 v) = Some v) /\
  (forall v scale, - 2 ^ 127 <= v < 2 ^ 127 -> 0 <= scale <= 38 -> parse_decimal128 (render_decimal128 v scale) scale = Some v).
Proof.
  split_and!; [exact date_roundtrip|exact timestamp_roundtrip|exact time_roundtrip|exact interval_roundtrip
              |exact months_roundtrip|exact decimal_roundtrip|exact i128_text|exact decimal128_roundtrip].
Qed.

(** 128-bit text is checked, not wrapped: a sign and digits are accepted exactly when the
    number they denote fits a signed 128-bit integer, and the result is that number; any
    other text is refused. *)
Theorem parse_i128_exact input :
  parse_i128 input =
    let '(neg, s) := sign_of input in
    let v := if neg then - dval s else dval s in
    if decide (s <> [] /\ is_digits s /\ - 2 ^ 127 <= v < 2 ^ 127) then Some v else None.
Proof.
  unfold parse_i128. destruct (sign_of input) as [neg s]. destruct (digits s) as [ds rest] eqn:E.
  destruct (digits_spec _ _ _ E) as [Es Hd]. cbn zeta. destruct s as [|c s]; [by rewrite decide_False by (by intros [? _])|].
  pose proof (dval_bounds ds Hd) as Hb. rewrite push_digits_exact by (done || (rewrite max_mag_value; destruct neg; lia)).
  rewrite Z.mul_0_l, Z.add_0_l. cbn zeta. destruct rest as [|r rest].
  - rewrite app_nil_r in Es. rewrite Es in *. destruct (Z.leb_spec (dval ds) (max_mag neg)) as [Hle|Hgt]; cbn [mbind option_bind].
    + rewrite signed_value by lia. rewrite decide_True; [done|]. split; [by rewrite <- Es|]. split; [done|].
      rewrite max_mag_value in Hle. destruct neg; lia.
    + rewrite decide_False; [done|]. intros (_ & _ & H). rewrite max_mag_value in Hgt. destruct neg; lia.
  - rewrite decide_False; [by destruct (_ <=? _)|]. intros (_ & Hall & _). rewrite Es in Hall.
    apply Forall_app in Hall as [_ [Hr _]%Forall_cons]. rewrite Es in E.
    pose proof (digits_stop _ _ _ E) as Hs. cbn in Hs. congruence.
Qed.

(** The stored forms keep what they stand for.  A 128-bit integer decodes to itself and its
    sixteen bytes compare as the integers do; an array of elements of one type decodes to the
    same elements; the canonical form of a UUID is 36 characters long and canonical itself,
    and a generated UUID is already in that form. *)
Theorem stored_forms_exact :
  (forall v, - 2 ^ 127 <= v < 2 ^ 127 -> decode_i128 (encode_i128 v) = v) /\
  (forall a b, - 2 ^ 127 <= a < 2 ^ 127 -> - 2 ^ 127 <= b < 2 ^ 127 -> key_ltb (encode_i128 a) (encode_i128 b) = (a <? b)) /\
  (forall el es ds, 0 <= el < 256 -> 0 <= es < 256 -> Zlen ds < 2 ^ 32 -> Forall (element el es) ds -> decode_array (encode_array el es ds) = ds) /\
  (forall s u, parse_uuid s = Some u -> parse_uuid u = Some u /\ length u = 36%nat) /\
  (forall table counter, parse_uuid (format_uuid table counter) = Some (format_uuid table counter)).
Proof.
  split; [exact decode_i128_encode|]. split; [exact encode_i128_order|]. split; [exact array_roundtrip|]. split.
  - intros s u Hu. unfold parse_uuid in Hu. apply bind_Some in Hu as (h & Hh & Hu). destruct (Nat.eqb_spec (length h) 32); [|done]. injection Hu as <-.
    pose proof (hex_chars_canon _ _ Hh). split; [by apply parse_dashed|by apply dashed_length].
  - intros table counter. unfold format_uuid. cbn zeta. set (b := uuid_bytes _ _).
    destruct (uuid_bytes_range (finalize (u64 (Z.lxor (u64 (Z.shiftl table 40)) (u64 (counter + 1)) + golden)))
      (finalize (u64 (Z.lxor (Z.lxor (u64 (Z.shiftl table 40)) (u64 (counter + 1))) 0xD1B54A32D192ED03 + golden)))) as [Hb Hl].
    destruct (hex_text b Hb) as [H1 H2]. apply parse_dashed; [done|]. rewrite H2. unfold b. rewrite Hl. done.
Qed.

(** ** Readings at the edge *)

(** A day past the end of its month is accepted and counted into the next one. *)
Example february_31 : parse_date (bytes "2024-02-31") = parse_date (bytes "2024-03-02").
Proof. vm_compute. reflexivity. Qed.

(** A timestamp may have a negative clock. *)
Example negative_clock : parse_timestamp (bytes "2024-02-01 -5:00:00") = parse_timestamp (bytes "2024-01-31 19:00:00").
Proof. vm_compute. reflexivity. Qed.

(** A decimal outside the 64-bit range is not refused. *)
Example decimal_wraps : parse_decimal (bytes "18446744073709551617") 0 = Some 1.
Proof. vm_compute. reflexivity. Qed.

(** A unit with one capital is unknown. *)
Example mixed_case_unit : parse_interval (bytes "1 Day") = None /\ parse_interval (bytes "1 DAYS") = Some 86400.
Proof. vm_compute. split; reflexivity. Qed.

(** A NULL element of a TIME array comes back as a NULL of text type. *)
Example null_time_element : map d_type (decode_array (encode_array 8 0 [mkDatum TInt 0 [] true 8 0])) = [TText].
Proof. vm_compute. reflexivity. Qed.
