(* ===== verification/Admin.v ===== *)
(** Admin: the administration surface of a consensus node: its metrics (prod/ProdMetrics.hpp),
    the request and reply records, and the handler that authorizes a request, runs it on the
    Raft node and answers (prod/ProdConsensusNode.hpp).

    The counters of the production disk and the function that runs a SQL query are arguments:
    the disk and the engine behind them are not part of the handler. *)

From Stdlib Require Import ZArith Lia Strings.Byte.
From stdpp Require Import base list numbers strings.
From S2P Require Import Prelude Core Consensus RaftWire RaftNode Server Auth SqlText.
#[local] Open Scope Z_scope.

(** ** Metrics *)

Record ProdMetrics := mkMetrics {
  m_shard : Z;
  m_node : Z;
  submits_accepted : Z;
  submits_committed : Z;
  client_requests : Z;
  elections_started : Z;
  leader_changes : Z;
  steps_down : Z;
  g_role : Z;
  g_current_term : Z;
  g_commit_index : Z;
  g_log_size : Z;
  g_in_flight : Z;
  g_fdatasync_calls : Z;
  g_bytes_appended : Z;
  g_append_calls : Z
}.

(** [Counter::inc] *)
Definition inc (v by_ : Z) : Z := u64 (v + by_).

Definition new_metrics (node : Z) : ProdMetrics := mkMetrics 0 node 0 0 0 0 0 0 0 0 0 0 0 0 0 0.

Definition quote : list byte := ["034"%byte].
Definition newline : list byte := ["010"%byte].

Definition emit (name type help : string) (shard node value : Z) : list byte :=
  token "# HELP lockstep_" ++ token name ++ token " " ++ token help ++ newline ++
  token "# TYPE lockstep_" ++ token name ++ token " " ++ token type ++ newline ++
  token "lockstep_" ++ token name ++ token "{shard=" ++ quote ++ to_string shard ++ quote ++ token ",node=" ++ quote ++
  to_string node ++ quote ++ token "} " ++ to_string value ++ newline.

Definition encode_prometheus (m : ProdMetrics) : list byte :=
  let s := m_shard m in
  let n := m_node m in
  emit "submits_accepted_total" "counter" "admin SUBMITs accepted by this node (it was leader)" s n (submits_accepted m) ++
  emit "submits_committed_total" "counter" "accepted entries this node observed reach commit_index" s n (submits_committed m) ++
  emit "client_requests_total" "counter" "admin requests handled (any verb)" s n (client_requests m) ++
  emit "elections_started_total" "counter" "times this node became a Candidate" s n (elections_started m) ++
  emit "leader_changes_total" "counter" "times this node became Leader" s n (leader_changes m) ++
  emit "steps_down_total" "counter" "times this node stepped down to Follower" s n (steps_down m) ++
  emit "role" "gauge" "current role (0=Follower 1=Candidate 2=Leader)" s n (g_role m) ++
  emit "current_term" "gauge" "current Raft term" s n (g_current_term m) ++
  emit "commit_index" "gauge" "committed log index (1-based, 0=none)" s n (g_commit_index m) ++
  emit "log_size" "gauge" "durable log entry count" s n (g_log_size m) ++
  emit "in_flight" "gauge" "accepted-but-not-yet-committed entries" s n (g_in_flight m) ++
  emit "fdatasync_calls_total" "counter" "fdatasync calls on the consensus WAL" s n (g_fdatasync_calls m) ++
  emit "bytes_appended_total" "counter" "bytes appended to the consensus WAL" s n (g_bytes_appended m) ++
  emit "append_calls_total" "counter" "append() calls on the consensus WAL" s n (g_append_calls m).

(** ** The records *)

Module Rec.

Definition put_u8 (v : Z) : list byte := [bZ v].

Definition put_le (n : nat) (v : Z) : list byte := map (fun i => bZ (Z.land (Z.shiftr v (8 * Z.of_nat i)) 0xFF)) (seq 0 n).

Definition put_u32 (v : Z) : list byte := put_le 4 v.
Definition put_u64 (v : Z) : list byte := put_le 8 v.
Definition put_str (s : list byte) : list byte := put_u32 (u32 (Zlen s)) ++ s.

(** The cursor, as in [RaftWire.Reader]; here the bytes of an integer are taken one by one,
    so a read past the end consumes what is left. *)
Definition u8 (r : Reader.t) : Z * Reader.t :=
  match Reader.rest r with [] => (0, Reader.fail r) | b :: p => (Zb b, Reader.mk p (Reader.good r)) end.

Fixpoint le_loop (n : nat) (i v : Z) (r : Reader.t) : Z * Reader.t :=
  match n with
  | O => (v, r)
  | S n' =>
      match Reader.rest r with
      | [] => (0, Reader.fail r)
      | b :: p => le_loop n' (i + 1) (Z.lor v (Z.shiftl (Zb b) (8 * i))) (Reader.mk p (Reader.good r))
      end
  end.

Definition u32 (r : Reader.t) : Z * Reader.t := le_loop 4 0 0 r.
Definition u64 (r : Reader.t) : Z * Reader.t := le_loop 8 0 0 r.

Definition str (r : Reader.t) : list byte * Reader.t :=
  let '(len, r) := u32 r in
  if negb (Reader.good r) || (Zlen (Reader.rest r) <? len) then ([], Reader.fail r)
  else (take (Z.to_nat len) (Reader.rest r), Reader.mk (drop (Z.to_nat len) (Reader.rest r)) (Reader.good r)).

Definition cursor (payload : list byte) : Reader.t := Reader.mk payload true.

(** *** Reading what was put *)

Lemma land_octet z : bZ (Z.land z 0xFF) = bZ z.
Proof. apply Zb_inj. rewrite !Zb_bZ. change 0xFF with (Z.ones 8). rewrite Z.land_ones by lia. by rewrite Z.mod_mod. Qed.

Lemma put_u64_wire v : put_u64 v = Wire.put_u64 v.
Proof. unfold put_u64, put_le, Wire.put_u64. apply map_ext. intros i. apply land_octet. Qed.

Lemma put_u32_wire v : put_u32 v = Wire.put_u32 v.
Proof. unfold put_u32, put_le, Wire.put_u32. cbn [map seq]. rewrite !land_octet. by rewrite Z.shiftr_0_r. Qed.

Lemma put_str_wire s : put_str s = Wire.put_str s.
Proof. unfold put_str, Wire.put_str. by rewrite put_u32_wire. Qed.

Lemma get_u32_put v p g : u32 (Reader.mk (put_u32 v ++ p) g) = (Prelude.u32 v, Reader.mk p g).
Proof. rewrite put_u32_wire, <- Reader.u32_put. reflexivity. Qed.

Lemma get_u64_put v p g : u64 (Reader.mk (put_u64 v ++ p) g) = (Prelude.u64 v, Reader.mk p g).
Proof. rewrite put_u64_wire, <- Reader.u64_put. reflexivity. Qed.

Lemma get_u8_put v p g : u8 (Reader.mk (put_u8 v ++ p) g) = (v mod 256, Reader.mk p g).
Proof. unfold u8. cbn. by rewrite Zb_bZ. Qed.

Lemma get_str_put s p : Zlen s < 2 ^ 32 -> str (Reader.mk (put_str s ++ p) true) = (s, Reader.mk p true).
Proof.
  intros Hs. unfold str, put_str. rewrite <- app_assoc, get_u32_put. pose proof (Zlen_nonneg s).
  rewrite !u32_id by (rewrite ?u32_id; lia). cbn [Reader.rest Reader.good negb orb].
  rewrite (proj2 (Z.ltb_ge _ _)) by (rewrite Zlen_app; pose proof (Zlen_nonneg p); lia).
  unfold Zlen. by rewrite Nat2Z.id, take_app_length, drop_app_length.
Qed.

Lemma strs_put (l : list (list byte)) p : Forall (fun s => Zlen s < 2 ^ 32) l ->
  Reader.many str (length l) (Reader.mk ((l ≫= put_str) ++ p) true) = (l, Reader.mk p true).
Proof.
  induction 1 as [|s l Hs _ IH]; [done|]. change ((s :: l) ≫= put_str) with (put_str s ++ (l ≫= put_str)).
  cbn [length Reader.many]. rewrite <- app_assoc, get_str_put by done. by rewrite IH.
Qed.

End Rec.

(** [AdminKind] *)
Definition kSubmit : Z := 1.
Definition kStatus : Z := 2.
Definition kSubmitOk : Z := 3.
Definition kNotLeader : Z := 4.
Definition kStatusRep : Z := 5.
Definition kStatCommit : Z := 6.
Definition kStatCommitRep : Z := 7.
Definition kMetrics : Z := 8.
Definition kMetricsRep : Z := 9.
Definition kAuthDenied : Z := 10.
Definition kForceNewCluster : Z := 11.
Definition kForceNewClusterRep : Z := 12.
Definition kSqlQuery : Z := 13.
Definition kSqlQueryRep : Z := 14.

Definition encode_submit (value : list byte) : list byte := Rec.put_u8 kSubmit ++ Rec.put_str value.
Definition encode_status : list byte := Rec.put_u8 kStatus.
Definition encode_stat_commit : list byte := Rec.put_u8 kStatCommit.
Definition encode_metrics : list byte := Rec.put_u8 kMetrics.
Definition encode_force_new_cluster (new_token : Z) : list byte := Rec.put_u8 kForceNewCluster ++ Rec.put_u64 new_token.
Definition encode_sql_query (sql : list byte) : list byte := Rec.put_u8 kSqlQuery ++ Rec.put_str sql.

Definition if_good {A} (r : Reader.t) (x : A) : option A := if Reader.good r then Some x else None.

Definition decode_force_new_cluster (payload : list byte) : option Z :=
  let '(kind, r) := Rec.u8 (Rec.cursor payload) in
  if negb (kind =? kForceNewClusterRep) then None else let '(t, r) := Rec.u64 r in if_good r t.

(** A reply that carries one string under the kind [k]: [decode_sql_query],
    [decode_auth_denied] and [decode_metrics]. *)
Definition decode_text (k : Z) (payload : list byte) : option (list byte) :=
  let '(kind, r) := Rec.u8 (Rec.cursor payload) in
  if negb (kind =? k) then None else let '(s, r) := Rec.str r in if_good r s.

Definition decode_sql_query : list byte -> option (list byte) := decode_text kSqlQueryRep.
Definition decode_auth_denied : list byte -> option (list byte) := decode_text kAuthDenied.
Definition decode_metrics : list byte -> option (list byte) := decode_text kMetricsRep.

Record AdminStatus := mkStatus { as_role : Z; as_term : Z; as_commit_index : Z; as_committed : list (list byte) }.
Record AdminCommit := mkCommit { ac_role : Z; ac_term : Z; ac_commit_index : Z }.

Definition decode_status (payload : list byte) : option AdminStatus :=
  let '(kind, r) := Rec.u8 (Rec.cursor payload) in
  if negb (kind =? kStatusRep) then None
  else
    let '(role, r) := Rec.u8 r in
    let '(term, r) := Rec.u64 r in
    let '(commit, r) := Rec.u64 r in
    let '(cnt, r) := Rec.u32 r in
    let '(vs, r) := Reader.many Rec.str (Z.to_nat cnt) r in
    if_good r (mkStatus role term commit vs).

Definition decode_stat_commit (payload : list byte) : option AdminCommit :=
  let '(kind, r) := Rec.u8 (Rec.cursor payload) in
  if negb (kind =? kStatCommitRep) then None
  else
    let '(role, r) := Rec.u8 r in
    let '(term, r) := Rec.u64 r in
    let '(commit, r) := Rec.u64 r in
    if_good r (mkCommit role term commit).

(** What the command line client reads from the reply to a submission. *)
Record SubmitOutcome := mkOutcome { so_accepted : bool; so_denied : bool; so_term : Z; so_index : Z; so_leader_hint : Z }.

Definition read_submit_reply (payload : list byte) : SubmitOutcome :=
  let '(kind, r) := Rec.u8 (Rec.cursor payload) in
  if kind =? kSubmitOk then
    let '(term, r) := Rec.u64 r in
    let '(index, r) := Rec.u64 r in
    mkOutcome true false term index 0
  else if kind =? kNotLeader then let '(hint, r) := Rec.u64 r in mkOutcome false false 0 0 hint
  else if kind =? kAuthDenied then mkOutcome false true 0 0 0
  else mkOutcome false false 0 0 0.

(** ** The node and its handler *)

Record admin := mkAdmin {
  nd : node;
  metrics_ : ProdMetrics;
  auth_ : AuthPolicy;
  last_role_ : Z;
  last_term_ : Z;
  accepted_index_ : Z;
  committed_seen_ : Z
}.

Definition role_code (r : Role) : Z := match r with Follower => 0 | Candidate => 1 | Leader => 2 end.

Record disk_counters := mkCounters { sync_calls : Z; bytes_appended : Z; append_calls : Z }.

Definition refresh_metrics (dc : disk_counters) (s : admin) : admin :=
  let m := metrics_ s in
  let role := role_code (role_ (nd s)) in
  let term := current_term_ (nd s) in
  let ci := commit_index_ (nd s) in
  let lsz := Zlen (log_ (nd s)) in
  let leader := role_code Leader in
  let candidate := role_code Candidate in
  let follower := role_code Follower in
  let elections := elections_started m in
  let elections := if (last_term_ s <? term) && (role =? candidate) then inc elections 1 else elections in
  let elections := if (role =? candidate) && negb (last_role_ s =? candidate) then inc elections 1 else elections in
  let changes := if (role =? leader) && negb (last_role_ s =? leader) then inc (leader_changes m) 1 else leader_changes m in
  let downs := if (role =? follower) && negb (last_role_ s =? follower) && ((last_role_ s =? leader) || (last_role_ s =? candidate))
               then inc (steps_down m) 1 else steps_down m in
  let up_to := if ci <? accepted_index_ s then ci else accepted_index_ s in
  let fresh := (committed_seen_ s <? ci) && (0 <? accepted_index_ s) && (committed_seen_ s <? up_to) in
  let committed := if fresh then inc (submits_committed m) (up_to - committed_seen_ s) else submits_committed m in
  let seen := if fresh then up_to else committed_seen_ s in
  let inflight := if ci <? accepted_index_ s then accepted_index_ s - ci else 0 in
  mkAdmin (nd s)
    (mkMetrics (m_shard m) (m_node m) (submits_accepted m) committed (client_requests m) elections changes downs
       role term ci lsz inflight (sync_calls dc) (bytes_appended dc) (append_calls dc))
    (auth_ s) role term (accepted_index_ s) seen.

Definition op_class_of (kind : Z) : OpClass :=
  if (kind =? kSubmit) || (kind =? kForceNewCluster) then WriteClass
  else if (kind =? kStatus) || (kind =? kStatCommit) || (kind =? kMetrics) || (kind =? kSqlQuery) then ReadClass
  else NoClass.

Definition auth_denied (reason : list byte) : list byte := Rec.put_u8 kAuthDenied ++ Rec.put_str reason.

Definition count_request (s : admin) : admin :=
  let m := metrics_ s in
  mkAdmin (nd s)
    (mkMetrics (m_shard m) (m_node m) (submits_accepted m) (submits_committed m) (inc (client_requests m) 1) (elections_started m)
       (leader_changes m) (steps_down m) (g_role m) (g_current_term m) (g_commit_index m) (g_log_size m) (g_in_flight m)
       (g_fdatasync_calls m) (g_bytes_appended m) (g_append_calls m))
    (auth_ s) (last_role_ s) (last_term_ s) (accepted_index_ s) (committed_seen_ s).

(** An accepted submission: the counter, and the high-water of accepted indexes. *)
Definition count_accepted (index : Z) (s : admin) : admin :=
  let m := metrics_ s in
  mkAdmin (nd s)
    (mkMetrics (m_shard m) (m_node m) (inc (submits_accepted m) 1) (submits_committed m) (client_requests m) (elections_started m)
       (leader_changes m) (steps_down m) (g_role m) (g_current_term m) (g_commit_index m) (g_log_size m) (g_in_flight m)
       (g_fdatasync_calls m) (g_bytes_appended m) (g_append_calls m))
    (auth_ s) (last_role_ s) (last_term_ s) (if accepted_index_ s <? index then index else accepted_index_ s) (committed_seen_ s).

Definition set_nd (n : node) (s : admin) : admin :=
  mkAdmin n (metrics_ s) (auth_ s) (last_role_ s) (last_term_ s) (accepted_index_ s) (committed_seen_ s).

Definition handle_verb (query_fn : option (list byte -> list byte)) (kind : Z) (r : Reader.t) (s : admin) : list byte * admin :=
  if kind =? kSubmit then
    let '(value, r) := Rec.str r in
    if negb (Reader.good r) then ([], s)
    else
      let '(sr, n) := submit value (nd s) in
      let s := set_nd n s in
      if sr_accepted sr then (Rec.put_u8 kSubmitOk ++ Rec.put_u64 (sr_term sr) ++ Rec.put_u64 (sr_index sr), count_accepted (sr_index sr) s)
      else (Rec.put_u8 kNotLeader ++ Rec.put_u64 (sr_leader_hint sr), s)
  else if kind =? kForceNewCluster then
    let '(new_token, r) := Rec.u64 r in
    if negb (Reader.good r) then ([], s)
    else (Rec.put_u8 kForceNewClusterRep ++ Rec.put_u64 new_token, set_nd (force_new_cluster new_token (nd s)) s)
  else if kind =? kSqlQuery then
    let '(q, r) := Rec.str r in
    if negb (Reader.good r) then ([], s)
    else (Rec.put_u8 kSqlQueryRep ++ Rec.put_str (match query_fn with Some f => f q | None => token "ERR:no SQL engine" end), s)
  else if kind =? kStatus then
    let lg := log_view (nd s) in
    (Rec.put_u8 kStatusRep ++ Rec.put_u8 (role_code (role_ (nd s))) ++ Rec.put_u64 (current_term_ (nd s)) ++
     Rec.put_u64 (commit_index_ (nd s)) ++ Rec.put_u32 (u32 (Zlen lg)) ++
     (take (Z.to_nat (u32 (Zlen lg))) lg ≫= (fun e => Rec.put_str (le_value e))), s)
  else if kind =? kStatCommit then
    (Rec.put_u8 kStatCommitRep ++ Rec.put_u8 (role_code (role_ (nd s))) ++ Rec.put_u64 (current_term_ (nd s)) ++
     Rec.put_u64 (commit_index_ (nd s)), s)
  else if kind =? kMetrics then (Rec.put_u8 kMetricsRep ++ Rec.put_str (encode_prometheus (metrics_ s)), s)
  else ([], s).

Definition handle_admin (dc : disk_counters) (query_fn : option (list byte -> list byte)) (req principal : list byte) (s : admin) : list byte * admin :=
  let '(kind, r) := Rec.u8 (Rec.cursor req) in
  let s := refresh_metrics dc (count_request s) in
  if negb (Reader.good r) then (auth_denied (token "malformed request"), s)
  else if negb (allow principal (op_class_of kind) (auth_ s)) then
    (auth_denied (token "principal '" ++ principal ++ token "' lacks permission"), s)
  else handle_verb query_fn kind r s.

(** One round of [admin_serve]: the reply is sent unless it is empty. *)
Definition admin_turn (dc : disk_counters) (query_fn : option (list byte -> list byte)) (from : Z) (req principal : list byte) (s : admin)
    : option (Z * list byte) * admin :=
  let '(reply, s) := handle_admin dc query_fn req principal s in
  (match reply with [] => None | _ => Some (from, reply) end, s).

(** ** What a request does *)

Definition word (z : Z) : Prop := 0 <= z < 2 ^ 64.

(** The fields of a reply fit their widths. *)
Record answers_fit (n : node) : Prop := {
  af_term : word (current_term_ n);
  af_commit : word (commit_index_ n);
  af_count : Zlen (log_view n) < 2 ^ 32;
  af_values : Forall (fun e => Zlen (le_value e) < 2 ^ 32) (log_view n)
}.

(** The handler up to the verb: the request is counted and the metrics are refreshed. *)
Definition observed (dc : disk_counters) (s : admin) : admin := refresh_metrics dc (count_request s).

Lemma observed_nd dc s : nd (observed dc s) = nd s /\ auth_ (observed dc s) = auth_ s.
Proof. done. Qed.

Lemma handle_kind dc qf k body p s : 0 <= k < 256 ->
  handle_admin dc qf (Rec.put_u8 k ++ body) p s =
    if allow p (op_class_of k) (auth_ s) then handle_verb qf k (Rec.cursor body) (observed dc s)
    else (auth_denied (token "principal '" ++ p ++ token "' lacks permission"), observed dc s).
Proof.
  intros Hk. unfold handle_admin, Rec.cursor. rewrite Rec.get_u8_put, Z.mod_small by done. cbn [Reader.good negb].
  change (auth_ (refresh_metrics dc (count_request s))) with (auth_ s). by destruct (allow p (op_class_of k) (auth_ s)).
Qed.

Lemma u64_word z : word z -> u64 z = z.
Proof. apply u64_id. Qed.

Lemma put_strs_map (l : list LogEntry) : (l ≫= (fun e => Rec.put_str (le_value e))) = (map le_value l ≫= Rec.put_str).
Proof. induction l as [|e l IH]; [done|]. exact (f_equal (app (Rec.put_str (le_value e))) IH). Qed.

Lemma role_code_small r : role_code r mod 256 = role_code r.
Proof. by destruct r. Qed.

Lemma status_reply dc qf p s : answers_fit (nd s) -> allow p ReadClass (auth_ s) = true ->
  let r := handle_admin dc qf encode_status p s in
  nd r.2 = nd s /\ decode_status r.1 =
    Some (mkStatus (role_code (role_ (nd s))) (current_term_ (nd s)) (commit_index_ (nd s)) (map le_value (log_view (nd s)))).
Proof.
  intros [H1 H2 H3 H4] Ha. unfold encode_status. rewrite <- (app_nil_r (Rec.put_u8 kStatus)), handle_kind by (unfold kStatus; lia).
  change (op_class_of kStatus) with ReadClass. rewrite Ha. split; [done|].
  unfold handle_verb. cbn [Z.eqb kStatus kSubmit kForceNewCluster kSqlQuery Pos.eqb fst]. destruct (observed_nd dc s) as [-> _].
  pose proof (Zlen_nonneg (log_view (nd s))). rewrite u32_id by lia. unfold Zlen at 2. rewrite Nat2Z.id, firstn_all, put_strs_map.
  unfold decode_status, Rec.cursor. rewrite Rec.get_u8_put. change (negb (kStatusRep mod 256 =? kStatusRep)) with false. cbn iota.
  rewrite Rec.get_u8_put, role_code_small, !Rec.get_u64_put, Rec.get_u32_put, !u64_word, u32_id by (done || lia).
  unfold Zlen. rewrite Nat2Z.id, <- (length_map le_value (log_view (nd s))), <- (app_nil_r (_ ≫= _)), Rec.strs_put; [done|].
  by apply List.Forall_map.
Qed.

Lemma commit_reply dc qf p s : answers_fit (nd s) -> allow p ReadClass (auth_ s) = true ->
  let r := handle_admin dc qf encode_stat_commit p s in
  nd r.2 = nd s /\ decode_stat_commit r.1 = Some (mkCommit (role_code (role_ (nd s))) (current_term_ (nd s)) (commit_index_ (nd s))).
Proof.
  intros [H1 H2 _ _] Ha. unfold encode_stat_commit. rewrite <- (app_nil_r (Rec.put_u8 kStatCommit)), handle_kind by (unfold kStatCommit; lia).
  change (op_class_of kStatCommit) with ReadClass. rewrite Ha. split; [done|].
  unfold handle_verb. cbn [Z.eqb kStatus kSubmit kForceNewCluster kSqlQuery kStatCommit Pos.eqb fst]. destruct (observed_nd dc s) as [-> _].
  unfold decode_stat_commit, Rec.cursor. rewrite Rec.get_u8_put. change (negb (kStatCommitRep mod 256 =? kStatCommitRep)) with false. cbn iota.
  rewrite <- (app_nil_r (Rec.put_u64 (commit_index_ (nd s)))), Rec.get_u8_put, role_code_small, !Rec.get_u64_put, !u64_word by done. done.
Qed.

Lemma text_back k t : 0 <= k < 256 -> Zlen t < 2 ^ 32 -> decode_text k (Rec.put_u8 k ++ Rec.put_str t) = Some t.
Proof.
  intros Hk Ht. unfold decode_text, Rec.cursor. rewrite Rec.get_u8_put, Z.mod_small, Z.eqb_refl by done. cbn [negb].
  rewrite <- (app_nil_r (Rec.put_str t)), Rec.get_str_put by done. done.
Qed.

Lemma query_reply dc qf p s f q : qf = Some f -> Zlen q < 2 ^ 32 -> Zlen (f q) < 2 ^ 32 -> allow p ReadClass (auth_ s) = true ->
  let r := handle_admin dc qf (encode_sql_query q) p s in nd r.2 = nd s /\ decode_sql_query r.1 = Some (f q).
Proof.
  intros -> Hq Hf Ha. unfold encode_sql_query. rewrite handle_kind by (unfold kSqlQuery; lia).
  change (op_class_of kSqlQuery) with ReadClass. rewrite Ha. unfold handle_verb, Rec.cursor.
  cbn [Z.eqb kSubmit kForceNewCluster kSqlQuery Pos.eqb]. rewrite <- (app_nil_r (Rec.put_str q)), Rec.get_str_put by done.
  cbn [Reader.good negb fst snd]. split; [done|]. apply text_back; [unfold kSqlQueryRep; lia|done].
Qed.

Lemma force_reply dc qf p s t : word t -> allow p WriteClass (auth_ s) = true ->
  let r := handle_admin dc qf (encode_force_new_cluster t) p s in
  nd r.2 = force_new_cluster t (nd s) /\ decode_force_new_cluster r.1 = Some t.
Proof.
  intros Ht Ha. unfold encode_force_new_cluster. rewrite handle_kind by (unfold kForceNewCluster; lia).
  change (op_class_of kForceNewCluster) with WriteClass. rewrite Ha. unfold handle_verb, Rec.cursor.
  cbn [Z.eqb kSubmit kForceNewCluster Pos.eqb]. rewrite <- (app_nil_r (Rec.put_u64 t)), Rec.get_u64_put, u64_word by done.
  cbn [Reader.good negb fst snd]. split; [done|]. unfold decode_force_new_cluster, Rec.cursor.
  rewrite Rec.get_u8_put. change (negb (kForceNewClusterRep mod 256 =? kForceNewClusterRep)) with false. cbn iota.
  rewrite <- (app_nil_r (Rec.put_u64 t)), Rec.get_u64_put, u64_word by done. done.
Qed.

(** The outcome of a submission, as the client reads it. *)
Definition outcome_of (r : SubmitResult) : SubmitOutcome :=
  if sr_accepted r then mkOutcome true false (sr_term r) (sr_index r) 0 else mkOutcome false false 0 0 (sr_leader_hint r).

Definition result_fits (r : SubmitResult) : Prop := word (sr_term r) /\ word (sr_index r) /\ word (sr_leader_hint r).

Lemma submit_reply dc qf p s v : Zlen v < 2 ^ 32 -> result_fits (submit v (nd s)).1 -> allow p WriteClass (auth_ s) = true ->
  let r := handle_admin dc qf (encode_submit v) p s in
  nd r.2 = (submit v (nd s)).2 /\ read_submit_reply r.1 = outcome_of (submit v (nd s)).1.
Proof.
  intros Hv Hr Ha. unfold encode_submit. rewrite handle_kind by (unfold kSubmit; lia).
  change (op_class_of kSubmit) with WriteClass. rewrite Ha. unfold handle_verb, Rec.cursor.
  cbn [Z.eqb kSubmit Pos.eqb]. rewrite <- (app_nil_r (Rec.put_str v)), Rec.get_str_put by done. cbn [Reader.good negb].
  destruct (observed_nd dc s) as [-> _]. destruct (submit v (nd s)) as [sr n]. cbn [fst snd] in *. destruct Hr as (H1 & H2 & H3).
  unfold outcome_of, read_submit_reply. destruct (sr_accepted sr); cbn [fst snd]; (split; [done|]); unfold Rec.cursor; rewrite Rec.get_u8_put.
  - change (kSubmitOk mod 256 =? kSubmitOk) with true. cbn iota. rewrite <- (app_nil_r (Rec.put_u64 (sr_index sr))), !Rec.get_u64_put, !u64_word by done. done.
  - change (kNotLeader mod 256 =? kSubmitOk) with false. change (kNotLeader mod 256 =? kNotLeader) with true. cbn iota.
    rewrite <- (app_nil_r (Rec.put_u64 (sr_leader_hint sr))), !Rec.get_u64_put, !u64_word by done. done.
Qed.

(** *** Metrics text *)

Lemma low_decimals_fuel fuel u : (length (low_decimals fuel u) <= fuel)%nat.
Proof. revert u. induction fuel as [|fuel IH]; intros u; [done|]. cbn [low_decimals]. destruct (u =? 0); cbn [length]; [lia|]. specialize (IH (u / 10)). lia. Qed.

Lemma to_string_length z : Zlen (to_string z) <= 41.
Proof.
  assert (H : forall u, Zlen (render_u128 u) <= 40).
  { intros u. unfold render_u128. destruct (u =? 0); [done|]. unfold Zlen. rewrite length_rev. pose proof (low_decimals_fuel 40 u). lia. }
  unfold to_string. destruct (z <? 0); [|specialize (H z); lia]. change ("-"%byte :: render_u128 (- z)) with (["-"%byte] ++ render_u128 (- z)).
  rewrite Zlen_app. change (Zlen ["-"%byte]) with 1. specialize (H (- z)). lia.
Qed.

Lemma sample_length name type help s n v :
  Zlen (token name) <= 32 -> Zlen (token type) <= 32 -> Zlen (token help) <= 128 -> Zlen (emit name type help s n v) <= 1024.
Proof.
  intros H1 H2 H3. unfold emit. rewrite !Zlen_app.
  pose proof (to_string_length s). pose proof (to_string_length n). pose proof (to_string_length v).
  change (Zlen (token "# HELP lockstep_")) with 16. change (Zlen (token "# TYPE lockstep_")) with 16. change (Zlen (token " ")) with 1.
  change (Zlen (token "lockstep_")) with 9. change (Zlen (token "{shard=")) with 7. change (Zlen (token ",node=")) with 6.
  change (Zlen (token "} ")) with 2. change (Zlen quote) with 1. change (Zlen newline) with 1. lia.
Qed.

Lemma prometheus_fits m : Zlen (encode_prometheus m) < 2 ^ 32.
Proof.
  unfold encode_prometheus. rewrite !Zlen_app.
  repeat match goal with |- context [Zlen (emit ?a ?b ?c ?x ?y ?z)] =>
    let H := fresh in assert (H : Zlen (emit a b c x y z) <= 1024) by (apply sample_length; vm_compute; discriminate);
    revert H; generalize (Zlen (emit a b c x y z)); intros ? H end.
  lia.
Qed.

Lemma metrics_reply dc qf p s : allow p ReadClass (auth_ s) = true ->
  let r := handle_admin dc qf encode_metrics p s in
  nd r.2 = nd s /\ decode_metrics r.1 = Some (encode_prometheus (metrics_ (observed dc s))).
Proof.
  intros Ha. unfold encode_metrics. rewrite <- (app_nil_r (Rec.put_u8 kMetrics)), handle_kind by (unfold kMetrics; lia).
  change (op_class_of kMetrics) with ReadClass. rewrite Ha. split; [done|].
  unfold handle_verb. cbn [Z.eqb kStatus kSubmit kForceNewCluster kSqlQuery kStatCommit kMetrics Pos.eqb fst].
  apply text_back; [unfold kMetricsRep; lia|apply prometheus_fits].
Qed.

(** *** What any bytes can do *)

Definition mutated (n n' : node) : Prop := (exists v, n' = (submit v n).2) \/ (exists t, n' = force_new_cluster t n).

Lemma verb_step qf k r s : let o := handle_verb qf k r s in nd o.2 = nd s \/ (op_class_of k = WriteClass /\ mutated (nd s) (nd o.2)).
Proof.
  unfold handle_verb. destruct (Z.eqb_spec k kSubmit) as [->|_].
  { destruct (Rec.str r) as [v r']. destruct (negb (Reader.good r')); [by left|]. right. split; [done|]. left. exists v.
    destruct (submit v (nd s)) as [sr n]. by destruct (sr_accepted sr). }
  destruct (Z.eqb_spec k kForceNewCluster) as [->|_].
  { destruct (Rec.u64 r) as [t r']. destruct (negb (Reader.good r')); [by left|]. right. split; [done|]. right. by exists t. }
  left. destruct (k =? kSqlQuery); [destruct (Rec.str r) as [q r']; by destruct (negb (Reader.good r'))|].
  by destruct (k =? kStatus), (k =? kStatCommit), (k =? kMetrics).
Qed.

Lemma denied_back reason : Zlen reason < 2 ^ 32 -> decode_auth_denied (auth_denied reason) = Some reason.
Proof. apply text_back. unfold kAuthDenied. lia. Qed.

Lemma admin_step dc qf req p s : let o := handle_admin dc qf req p s in
  nd o.2 = nd s \/ (allow p WriteClass (auth_ s) = true /\ mutated (nd s) (nd o.2)).
Proof.
  unfold handle_admin. destruct (Rec.u8 (Rec.cursor req)) as [k r]. destruct (negb (Reader.good r)); [by left|].
  change (auth_ (refresh_metrics dc (count_request s))) with (auth_ s). destruct (allow p (op_class_of k) (auth_ s)) eqn:Ha; [|by left].
  destruct (verb_step qf k r (refresh_metrics dc (count_request s))) as [H|[Hw H]]; [by left|]. right. rewrite Hw in Ha. done.
Qed.

Lemma no_access_class p a op : allow p ReadClass a = false -> allow p WriteClass a = false -> op <> AdminClass -> allow p op a = false.
Proof.
  intros H1 H2 Ho. destruct op; try done. revert H1. unfold allow. by destruct (negb (configured_ a) || _).
Qed.

(** ** Properties *)


(** No bytes get past the policy.  Whatever a request holds, the Raft node is as it was, or the
    principal has write permission and the node took one submission or one forced
    reconfiguration; and to a principal with neither permission every request is answered by
    a denial. *)
Theorem admin_gate dc qf req p s :
  let r := handle_admin dc qf req p s in
  (nd r.2 = nd s \/ (allow p WriteClass (auth_ s) = true /\ mutated (nd s) (nd r.2))) /\
  (allow p ReadClass (auth_ s) = false -> allow p WriteClass (auth_ s) = false ->
    nd r.2 = nd s /\ exists reason, r.1 = auth_denied reason).
Proof.
  intros r. split; [apply admin_step|]. intros H1 H2. split; [destruct (admin_step dc qf req p s) as [|[]]; [done|congruence]|].
  unfold r, handle_admin. destruct (Rec.u8 (Rec.cursor req)) as [k rd]. destruct (negb (Reader.good rd)); [by eexists|].
  change (auth_ (refresh_metrics dc (count_request s))) with (auth_ s).
  assert (Hc : op_class_of k <> AdminClass) by (unfold op_class_of; repeat case_match; discriminate).
  rewrite (no_access_class p (auth_ s) (op_class_of k) H1 H2 Hc). by eexists.
Qed.

(** ** Instances *)

Definition solo_conf : NodeConfig := mkNodeConfig 0 [0] [] 10 20 5 8 0.

Definition demo_admin (n : node) : admin := mkAdmin n (new_metrics 0) (set (token "ops") (token "writer") no_policy) 0 0 0 0.

Definition idle_disk : disk_counters := mkCounters 0 0 0.

Definition echo (q : list byte) : list byte := q.

Definition demo_leader : admin := demo_admin (set_role Leader (start (construct solo_conf false))).


Lemma admin_gate_witness :
  let r := handle_admin idle_disk None (encode_force_new_cluster 7) (token "mallory") demo_leader in
  nd r.2 = nd demo_leader /\ exists reason, r.1 = auth_denied reason.
Proof.
  refine (proj2 (admin_gate idle_disk None (encode_force_new_cluster 7) (token "mallory") demo_leader) _ _); vm_compute; reflexivity.
Defined.

(** A node first seen as a candidate in a new term counts two elections for the one it
    started. *)
Example election_counted_twice :
  let n := on_election_timeout (start (construct (mkNodeConfig 0 [0; 1; 2] [] 10 20 5 8 0) false)) in
  role_ n = Candidate /\ current_term_ n = 1 /\ elections_started (metrics_ (refresh_metrics idle_disk (demo_admin n))) = 2.
Proof. vm_compute. split_and!; reflexivity. Qed.

(** A leader that accepted one entry counts the earlier leaders' committed entries as its
    own: one submission accepted, four committed. *)
Example committed_overcounted :
  let old := replicate 3 (Consensus.mkEntry 1 []) in
  let n := on_raft (fun r => mkRaft Leader 2 0 old 0 [] 0 0 0 0 [0]) (start (construct solo_conf false)) in
  let s := (handle_admin idle_disk None (encode_submit (token "x")) (token "ops") (demo_admin n)).2 in
  let s := set_nd (on_raft (fun r => mkRaft Leader 2 0 (log_ r) 0 [] 0 0 4 0 [0]) (nd s)) s in
  let s := refresh_metrics idle_disk s in
  submits_accepted (metrics_ s) = 1 /\ submits_committed (metrics_ s) = 4.
Proof. vm_compute. split; reflexivity. Qed.
