(* ===== verification/PgWire.v ===== *)
(** PgWire: the PostgreSQL protocol of query/wire/PgWire.hpp: the message builders, the text
    helpers (command tags, parameter literals, statement splitting) and the session, a state
    machine over a byte stream.

    The SQL engine is a parameter: what a statement returns and the engine after it, with
    and without typed parameters; so are the authenticator, the shortest text of a double and
    the parser of one.  [None] stands for a read outside the message: a Bind parameter longer
    than its frame, and a result row without the cell the session reads; the source does not
    test either. *)

From Stdlib Require Import ZArith Lia Strings.Byte.
From stdpp Require Import base list numbers strings.
From S2P Require Import Prelude Codec Mvcc Txn SqlKeys SqlText Server.
#[local] Open Scope Z_scope.

(** ** Bytes *)

Definition pg_put_i16 (v : Z) : list byte :=
  let u := v mod 2 ^ 16 in [bZ (Z.land (Z.shiftr u 8) 0xFF); bZ (Z.land u 0xFF)].

Definition pg_put_i32 (v : Z) : list byte :=
  let u := u32 v in
  [bZ (Z.land (Z.shiftr u 24) 0xFF); bZ (Z.land (Z.shiftr u 16) 0xFF); bZ (Z.land (Z.shiftr u 8) 0xFF); bZ (Z.land u 0xFF)].

Definition at_byte (p : list byte) (k : nat) : Z := Zb (nth k p Byte.x00).

(** A [w]-bit pattern as a signed integer. *)
Definition signed (w v : Z) : Z := if v <? 2 ^ (w - 1) then v else v - 2 ^ w.

Definition pg_get_i16 (p : list byte) : Z := signed 16 (Z.lor (Z.shiftl (at_byte p 0) 8) (at_byte p 1)).

Definition pg_get_i32 (p : list byte) : Z :=
  signed 32 (Z.lor (Z.lor (Z.lor (Z.shiftl (at_byte p 0) 24) (Z.shiftl (at_byte p 1) 16)) (Z.shiftl (at_byte p 2) 8)) (at_byte p 3)).

Definition pg_put_str (s : list byte) : list byte := s ++ [Byte.x00].

(** ** Results *)

Definition ResultRow : Type := list (list byte * Datum).

Record ExecResult := mkResult { r_ok : bool; r_error : list byte; r_affected : Z; r_rows : list ResultRow }.

Definition kPgTextOid : Z := 25.
Definition kPgVectorOid : Z := 16388.

Definition pg_oid_for_datum (d : Datum) : Z :=
  match d_type d with
  | TText =>
      if d_logical d =? 4 then 2950 else if d_logical d =? 11 then 114 else if d_logical d =? 14 then 701
      else if d_logical d =? 15 then kPgVectorOid else kPgTextOid
  | TInt =>
      if d_logical d =? 1 then 1700 else if d_logical d =? 2 then 1082 else if d_logical d =? 3 then 1114
      else if d_logical d =? 8 then 1083 else 20
  end.

Definition pg_cols_of (r : ExecResult) : list (list byte * Z) :=
  match r_rows r with [] => [] | row :: _ => map (fun c => (c.1, pg_oid_for_datum c.2)) row end.

(** A float's bits as those of the double of the same value. *)
Definition widen (b : Z) : Z :=
  let s := Z.shiftl (Z.shiftr b 31) 63 in
  let e := Z.land (Z.shiftr b 23) 255 in
  let m := Z.land b (2 ^ 23 - 1) in
  if e =? 255 then s + Z.shiftl 2047 52 + Z.shiftl m 29
  else if e =? 0 then
    if m =? 0 then s
    else let k := Z.log2 m in s + Z.shiftl (k - 149 + 1023) 52 + (Z.shiftl m (52 - k) - 2 ^ 52)
  else s + Z.shiftl (e - 127 + 1023) 52 + Z.shiftl m 29.

(** The first [n] bytes from [off], most significant first. *)
Definition be_at (p : list byte) (off n : nat) : Z := fold_left (fun v k => Z.lor (Z.shiftl v 8) (at_byte p (off + k))) (seq 0 n) 0.

Section values.
Context (to_chars : Z -> list byte).

Definition vector_elem (p : list byte) (i : nat) : list byte := render_double to_chars (widen (be_at p (4 + i * 4) 4)).

Definition pg_decode_binary_param (oid : Z) (p : list byte) : option (list byte) :=
  let len := length p in
  let only (n : nat) (x : list byte) := if Nat.eqb len n then Some x else None in
  if oid =? 16 then only 1%nat (if at_byte p 0 =? 0 then token "FALSE" else token "TRUE")
  else if oid =? 21 then only 2%nat (to_string (signed 16 (be_at p 0 2)))
  else if oid =? 23 then only 4%nat (to_string (signed 32 (be_at p 0 4)))
  else if oid =? 20 then only 8%nat (to_string (signed 64 (be_at p 0 8)))
  else if oid =? 700 then only 4%nat (render_double to_chars (widen (be_at p 0 4)))
  else if oid =? 701 then only 8%nat (render_double to_chars (be_at p 0 8))
  else if oid =? kPgVectorOid then
    if Nat.ltb len 4 then None
    else
      let dim := Z.to_nat (be_at p 0 2) in
      only (4 + dim * 4)%nat (token "[" ++ joined (map (vector_elem p) (seq 0 dim)) ++ token "]")
  else if (oid =? 0) || (oid =? 25) || (oid =? 1043) then Some p
  else None.
End values.

(** ** Backend messages *)

(** One message: a type byte, a length that counts itself, the payload. *)
Definition emit (type : byte) (payload : list byte) : list byte := type :: pg_put_i32 (Zlen payload + 4) ++ payload.

Definition pg_auth_ok : list byte := emit "R" (pg_put_i32 0).
Definition pg_parameter_status (k v : list byte) : list byte := emit "S" (pg_put_str k ++ pg_put_str v).
Definition pg_ready_for_query : list byte := emit "Z" ["I"%byte].

Definition put_field (c : list byte * Z) : list byte :=
  pg_put_str c.1 ++ pg_put_i32 0 ++ pg_put_i16 0 ++ pg_put_i32 c.2 ++ pg_put_i16 (-1) ++ pg_put_i32 (-1) ++ pg_put_i16 0.

Definition pg_row_description (cols : list (list byte * Z)) : list byte := emit "T" (pg_put_i16 (Zlen cols) ++ (cols ≫= put_field)).

Definition put_cell (render : Datum -> list byte) (c : list byte * Datum) : list byte :=
  if is_null c.2 then pg_put_i32 (-1) else let s := render c.2 in pg_put_i32 (Zlen s) ++ s.

Definition pg_data_row (render : Datum -> list byte) (row : ResultRow) : list byte :=
  emit "D" (pg_put_i16 (Zlen row) ++ (row ≫= put_cell render)).

Definition pg_command_complete (tag : list byte) : list byte := emit "C" (pg_put_str tag).

Definition pg_error_response_code (code msg : list byte) : list byte :=
  emit "E" ("S"%byte :: pg_put_str (token "ERROR") ++ "C"%byte :: pg_put_str code ++ "M"%byte ::
            pg_put_str (match msg with [] => token "query failed" | _ => msg end) ++ [Byte.x00]).

Definition pg_error_response (msg : list byte) : list byte := pg_error_response_code (token "XX000") msg.

Definition pg_parse_complete : list byte := emit "1" [].
Definition pg_bind_complete : list byte := emit "2" [].
Definition pg_close_complete : list byte := emit "3" [].
Definition pg_no_data : list byte := emit "n" [].

Definition pg_parameter_description (nparams : Z) : list byte :=
  emit "t" (pg_put_i16 nparams ++ (replicate (Z.to_nat nparams) tt ≫= (fun _ => pg_put_i32 0))).

(** ** Statement text *)

Definition c_isspace (b : byte) : bool := let v := Zb b in (v =? 32) || ((9 <=? v) && (v <=? 13)).
Definition c_isdigit (b : byte) : bool := let v := Zb b in (48 <=? v) && (v <=? 57).
Definition c_isupper (b : byte) : bool := let v := Zb b in (65 <=? v) && (v <=? 90).
Definition c_islower (b : byte) : bool := let v := Zb b in (97 <=? v) && (v <=? 122).
Definition c_isalpha (b : byte) : bool := c_isupper b || c_islower b.
Definition c_isalnum (b : byte) : bool := c_isalpha b || c_isdigit b.
Definition c_tolower (b : byte) : byte := if c_isupper b then bZ (Zb b + 32) else b.
Definition c_toupper (b : byte) : byte := if c_islower b then bZ (Zb b - 32) else b.

Definition one_of (s : string) (b : byte) : bool := existsb (Byte.eqb b) (token s).

(** A blank, a tab, a line feed or a carriage return. *)
Definition is_ws (b : byte) : bool := let v := Zb b in (v =? 32) || (v =? 9) || (v =? 10) || (v =? 13).

Fixpoint drop_while (f : byte -> bool) (s : list byte) : list byte :=
  match s with [] => [] | c :: s' => if f c then drop_while f s' else s end.

Fixpoint take_while (f : byte -> bool) (s : list byte) : list byte :=
  match s with [] => [] | c :: s' => if f c then c :: take_while f s' else [] end.

Fixpoint starts_with (w s : list byte) : bool :=
  match w, s with
  | [], _ => true
  | _, [] => false
  | a :: w', b :: s' => Byte.eqb a b && starts_with w' s'
  end.

(** [find]: what follows the first occurrence. *)
Fixpoint after_first (w s : list byte) : option (list byte) :=
  if starts_with w s then Some (drop (length w) s) else match s with [] => None | _ :: s' => after_first w s' end.

Definition pg_command_tag (sql : list byte) (r : ExecResult) (is_select : bool) : list byte :=
  let s := drop_while is_ws sql in
  let word_end c := is_ws c || Byte.eqb c "(" in
  let kw0 := take_while (fun c => negb (word_end c)) s in
  let kw := map c_toupper kw0 in
  if is_select then token "SELECT " ++ to_string (Zlen (r_rows r))
  else if key_eqb kw (token "INSERT") then token "INSERT 0 " ++ to_string (r_affected r)
  else if key_eqb kw (token "UPDATE") then token "UPDATE " ++ to_string (r_affected r)
  else if key_eqb kw (token "DELETE") then token "DELETE " ++ to_string (r_affected r)
  else if key_eqb kw (token "CREATE") || key_eqb kw (token "DROP") || key_eqb kw (token "ALTER") then
    let rest := drop_while (fun c => (Zb c =? 32) || (Zb c =? 9)) (drop (length kw0) s) in
    let obj := map c_toupper (take_while (fun c => negb ((Zb c =? 32) || (Zb c =? 9) || Byte.eqb c "(" || (Zb c =? 10))) rest) in
    kw ++ match obj with [] => [] | _ => token " " ++ obj end
  else match kw with [] => token "OK" | _ => kw end.

Definition pg_is_select (sql : list byte) : bool :=
  match after_first (token " returning ") (map c_tolower sql) with
  | Some _ => true
  | None =>
      let s := map c_toupper (drop_while (fun c => is_ws c || Byte.eqb c "(") sql) in
      existsb (fun w => starts_with (token w) s) ["SELECT"; "WITH"; "VALUES"; "TABLE"; "EXPLAIN"; "SHOW"]%string
  end.

(** ** Parameters *)

(** The scan of a number after its sign: whether it is one, and whether it has a digit. *)
Fixpoint numeric_scan (s : list byte) (digit dot : bool) : bool * bool :=
  match s with
  | [] => (true, digit)
  | c :: s' =>
      if c_isdigit c then numeric_scan s' true dot
      else if Byte.eqb c "." && negb dot then numeric_scan s' digit true
      else (false, digit)
  end.

Definition is_numeric (v : list byte) : bool :=
  let body := match v with c :: v' => if Byte.eqb c "-" || Byte.eqb c "+" then v' else v | [] => [] end in
  let '(numeric, digit) := numeric_scan body false false in numeric && digit.

Definition apostrophe : byte := "'"%byte.

Definition doubled (c : byte) : list byte := if Byte.eqb c apostrophe then [apostrophe; apostrophe] else [c].

Definition quoted (v : list byte) : list byte := [apostrophe] ++ (v ≫= doubled) ++ [apostrophe].

Definition pg_param_literal (v : list byte) (null : bool) : list byte :=
  if null then token "NULL"
  else match v with [] => [apostrophe; apostrophe] | _ => if is_numeric v then v else quoted v end.

Definition digit_of (c : byte) : Z := Zb c - 48.

(** [$1] to [$9] begin a placeholder. *)
Definition starts_param (s : list byte) : bool := match s with c :: _ => c_isdigit c && negb (Byte.eqb c "0") | [] => false end.

Definition param_number (ds : list byte) : Z := fold_left (fun n c => u32 (n * 10 + digit_of c)) ds 0.

Definition param_text (lits : list (list byte)) (n : Z) : list byte :=
  if (1 <=? n) && (n <=? Zlen lits) then nth (Z.to_nat (n - 1)) lits [] else token "NULL".

Fixpoint substitute (fuel : nat) (in_str : bool) (s : list byte) (lits : list (list byte)) : list byte :=
  match fuel, s with
  | S fuel', c :: s' =>
      if Byte.eqb c apostrophe then c :: substitute fuel' (negb in_str) s' lits
      else if negb in_str && Byte.eqb c "$" && starts_param s' then
        let ds := take_while c_isdigit s' in
        param_text lits (param_number ds) ++ substitute fuel' in_str (drop (length ds) s') lits
      else c :: substitute fuel' in_str s' lits
  | _, _ => []
  end.

Definition pg_substitute_params (sql : list byte) (lits : list (list byte)) : list byte := substitute (length sql) false sql lits.

(** The largest placeholder, in 16 bits; the scan resumes after the dollar sign. *)
Fixpoint count_scan (in_str : bool) (s : list byte) (maxn : Z) : Z :=
  match s with
  | [] => maxn
  | c :: s' =>
      if Byte.eqb c apostrophe then count_scan (negb in_str) s' maxn
      else if negb in_str && Byte.eqb c "$" && starts_param s' then
        let n := fold_left (fun n c => signed 16 ((n * 10 + digit_of c) mod 2 ^ 16)) (take_while c_isdigit s') 0 in
        count_scan in_str s' (Z.max maxn n)
      else count_scan in_str s' maxn
  end.

Definition count_params (sql : list byte) : Z := count_scan false sql 0.

(** [strtoll] over the whole text: blanks, a sign, digits, in range; it stops at a NUL. *)
Definition strtoll (txt : list byte) : option Z :=
  let s := drop_while c_isspace (take_while (fun c => negb (Byte.eqb c Byte.x00)) txt) in
  let '(neg, ds) := match s with
                    | c :: s' => if Byte.eqb c "-" then (true, s') else if Byte.eqb c "+" then (false, s') else (false, s)
                    | [] => (false, [])
                    end in
  let v := fold_left (fun n c => n * 10 + digit_of c) ds 0 in
  let v := if neg then - v else v in
  match ds with
  | [] => match txt with [] => Some 0 | c :: _ => if Byte.eqb c Byte.x00 then Some 0 else None end
  | _ => if forallb c_isdigit ds && (- 2 ^ 63 <=? v) && (v <? 2 ^ 63) then Some v else None
  end.

(** A text value of a declared type; [parse_double] is [parse_double_strict]. *)
Definition pg_typed_datum (parse_double : list byte -> option Z) (oid : Z) (txt : list byte) : Datum :=
  let as_int := if (oid =? 20) || (oid =? 23) || (oid =? 21) then strtoll txt else None in
  let as_real := if (oid =? 700) || (oid =? 701) then parse_double txt else None in
  match as_int, as_real with
  | Some v, _ => make_int v
  | None, Some bits => make_real bits
  | None, None => make_text txt
  end.

(** ** Statements of a query *)

Definition is_blank (s : list byte) : bool := forallb is_ws s.

Definition keep_stmt (cur : list byte) : list (list byte) := if is_blank cur then [] else [cur].

(** [cur] is the statement read so far. *)
Fixpoint split (in_str : bool) (cur s : list byte) : list (list byte) :=
  match s with
  | [] => keep_stmt cur
  | c :: s' =>
      if Byte.eqb c apostrophe then
        match s' with
        | d :: s'' => if in_str && Byte.eqb d apostrophe then split in_str (cur ++ [c; d]) s'' else split (negb in_str) (cur ++ [c]) s'
        | [] => keep_stmt (cur ++ [c])
        end
      else if Byte.eqb c ";" && negb in_str then keep_stmt cur ++ split in_str [] s'
      else split in_str (cur ++ [c]) s'
  end.

Definition split_statements (sql : list byte) : list (list byte) := split false [] sql.

Definition trim (s : list byte) : list byte := rev (drop_while c_isspace (rev (drop_while c_isspace s))).

(** [listen_channel_of]: whether it is UNLISTEN, and the channel. *)
Definition listen_channel_of (s : list byte) : option (bool * list byte) :=
  let t := trim s in
  let head := map c_tolower (take_while (fun c => negb (c_isspace c)) t) in
  if key_eqb head (token "listen") || key_eqb head (token "unlisten") then
    let chan := drop_while c_isspace (drop (length head) t) in
    if forallb (fun c => c_isalnum c || Byte.eqb c "_") chan then Some (key_eqb head (token "unlisten"), chan) else None
  else None.

Definition statement_head (s : list byte) : list byte := map c_tolower (take_while c_isalpha (drop_while c_isspace s)).

(** ** The session *)

Record Portal := mkPortal {
  p_sql : list byte;
  p_params : list Datum;
  p_typed : bool;
  p_stmt_described : bool;
  p_cached : option ExecResult
}.

Definition map_erase {A} (k : list byte) (m : list (list byte * A)) : list (list byte * A) := List.filter (fun e => negb (key_eqb e.1 k)) m.

(** [emplace]: a key that is there keeps its value. *)
Definition map_emplace {A} (k : list byte) (v : A) (m : list (list byte * A)) : list (list byte * A) :=
  match assoc k m with Some _ => m | None => map_set k v m end.

Definition kMaxMessageBytes : Z := 64 * 1024 * 1024.

Section session.
Context {Q : Type}.
Context (to_chars : Z -> list byte) (parse_double : list byte -> option Z).
Context (exec_ : list byte -> Q -> ExecResult * Q) (auth_ : option (list byte -> list byte -> bool)).
Context (exec_prepared_ : option (list byte -> list Datum -> Q -> ExecResult * Q)).

(** The members, but for the input buffer [buf_], which is passed along; [engine] is what
    the callbacks act on. *)
Record session := mkSession {
  engine : Q;
  started_ : bool;
  awaiting_password_ : bool;
  user_ : list byte;
  closed_ : bool;
  in_txn_ : bool;
  listens_ : list (list byte * Z);
  described_stmts_ : list (list byte);
  stmts_ : list (list byte * list byte);
  portals_ : list (list byte * Portal);
  stmt_types_ : list (list byte * list Z);
  backend_pid_ : Z;
  backend_secret_ : Z;
  cancel_request_ : option (Z * Z)
}.

Definition new_session (q : Q) : session := mkSession q false false [] false false [] [] [] [] [] 0 0 None.

Definition set_backend_key (pid secret : Z) (s : session) : session := {| s with backend_pid_ := pid; backend_secret_ := secret |}.

(** Run a statement on the engine. *)
Definition run (sql : list byte) (s : session) : ExecResult * session :=
  let '(r, q) := exec_ sql (engine s) in (r, {| s with engine := q |}).

Definition run_prepared (f : list byte -> list Datum -> Q -> ExecResult * Q) (sql : list byte) (ps : list Datum) (s : session) : ExecResult * session :=
  let '(r, q) := f sql ps (engine s) in (r, {| s with engine := q |}).

Definition fetch_sql (chan : list byte) : list byte := token "FETCH " ++ chan ++ token " LIMIT 1".

(** [poll_notifications] over the listened feeds [l], in the order of the map. *)
Fixpoint poll (l : list (list byte * Z)) (s : session) : option (session * list byte) :=
  match l with
  | [] => Some (s, [])
  | (chan, announced) :: l' =>
      let '(r, s) := run (fetch_sql chan) s in
      match r_ok r, r_rows r with
      | true, row :: _ =>
          match row with
          | [] => None
          | c :: _ =>
              let seq_ := d_i c.2 in
              if seq_ =? announced then poll l' s
              else
                let s := {| s with listens_ := map_set chan seq_ (listens_ s) |} in
                let a := emit "A" (pg_put_i32 (backend_pid_ s) ++ pg_put_str chan ++ pg_put_str (to_string seq_)) in
                match poll l' s with None => None | Some (s, o) => Some (s, a ++ o) end
          end
      | _, _ => poll l' s
      end
  end.

Definition poll_notifications (s : session) : option (session * list byte) := poll (listens_ s) s.

Definition pump_notifications (s : session) : option (session * list byte) := if started_ s then poll_notifications s else Some (s, []).

Definition pg_rows (r : ExecResult) : list byte := r_rows r ≫= pg_data_row (render to_chars).

Definition pg_reply_for_statement (sql : list byte) (r : ExecResult) : list byte :=
  if negb (r_ok r) then pg_error_response (r_error r)
  else
    let is_sel := pg_is_select sql || match r_rows r with [] => false | _ => true end in
    (if is_sel then pg_row_description (pg_cols_of r) ++ pg_rows r else []) ++ pg_command_complete (pg_command_tag sql r is_sel).

(** A redundant transaction statement is absorbed: its tag instead of a result. *)
Definition run_statement (sql : list byte) (s : session) : (ExecResult + list byte) * session :=
  let head := statement_head sql in
  let begin_ := key_eqb head (token "begin") in
  let commit_ := key_eqb head (token "commit") in
  let rollback_ := key_eqb head (token "rollback") in
  if begin_ && in_txn_ s then (inr (token "BEGIN"), s)
  else if (commit_ || rollback_) && negb (in_txn_ s) then (inr (if commit_ then token "COMMIT" else token "ROLLBACK"), s)
  else
    let '(r, s) := run sql s in
    let txn := if r_ok r then (if commit_ || rollback_ then false else if begin_ then true else in_txn_ s) else in_txn_ s in
    (inl r, {| s with in_txn_ := txn |}).

(** The statements of a query, until one fails. *)
Fixpoint query_loop (stmts : list (list byte)) (s : session) : session * list byte :=
  match stmts with
  | [] => (s, [])
  | sql :: stmts' =>
      match listen_channel_of sql with
      | Some (true, chan) =>
          let s := {| s with listens_ := map_erase chan (listens_ s) |} in
          let '(s, o) := query_loop stmts' s in (s, pg_command_complete (token "UNLISTEN") ++ o)
      | Some (false, chan) =>
          let '(probe, s) := run (fetch_sql chan) s in
          if negb (r_ok probe) then (s, pg_error_response (r_error probe))
          else
            let s := {| s with listens_ := map_emplace chan (-1) (listens_ s) |} in
            let '(s, o) := query_loop stmts' s in (s, pg_command_complete (token "LISTEN") ++ o)
      | None =>
          match run_statement sql s with
          | (inr tag, s) => let '(s, o) := query_loop stmts' s in (s, pg_command_complete tag ++ o)
          | (inl r, s) =>
              if r_ok r then let '(s, o) := query_loop stmts' s in (s, pg_reply_for_statement sql r ++ o)
              else (s, pg_reply_for_statement sql r)
          end
      end
  end.

Definition handle_query (sql : list byte) (s : session) : option (session * list byte) :=
  let stmts := split_statements sql in
  let '(s, o) := query_loop stmts s in
  let o := match stmts with [] => emit "I" [] | _ => o end in
  match poll_notifications s with
  | None => None
  | Some (s, n) => Some (s, o ++ n ++ pg_ready_for_query)
  end.

(** ** Prepared statements *)

(** [read_cstring]: the text up to a NUL or the end, and what follows. *)
Fixpoint read_cstring (p : list byte) : list byte * list byte :=
  match p with
  | [] => ([], [])
  | c :: p' => if Byte.eqb c Byte.x00 then ([], p') else let '(s, r) := read_cstring p' in (c :: s, r)
  end.

(** At most [n] fields of [w] bytes. *)
Fixpoint read_fields (get : list byte -> Z) (w n : nat) (p : list byte) : list Z * list byte :=
  match n with
  | O => ([], p)
  | S n' =>
      if Nat.leb w (length p) then let '(l, r) := read_fields get w n' (drop w p) in (get p :: l, r)
      else ([], p)
  end.

(** A 16-bit count and that many fields; none when the message ends before the count. *)
Definition counted (get : list byte -> Z) (w : nat) (p : list byte) : list Z * list byte :=
  if Nat.leb 2 (length p) then read_fields get w (Z.to_nat (pg_get_i16 p)) (drop 2 p) else ([], p).

Definition handle_parse (p : list byte) (s : session) : session * list byte :=
  let '(name, p) := read_cstring p in
  let '(query, p) := read_cstring p in
  let types := (counted pg_get_i32 4 p).1 in
  ({| s with stmts_ := map_set name query (stmts_ s);
             described_stmts_ := List.filter (fun n => negb (key_eqb n name)) (described_stmts_ s);
             stmt_types_ := map_set name types (stmt_types_ s) |}, pg_parse_complete).

Definition fmt_for (fmts : list Z) (k : nat) : Z := match fmts with [] => 0 | [f] => f | _ => nth k fmts 0 end.
Definition oid_for (types : option (list Z)) (k : nat) : Z := match types with None => 0 | Some l => nth k l 0 end.

(** One bound value: [None] is NULL. *)
Inductive bound := Undefined | Undecodable | Bound (vs : list (Z * option (list byte))) (rest : list byte).

Fixpoint bind_values (fmts : list Z) (types : option (list Z)) (n k : nat) (p : list byte) : bound :=
  match n with
  | O => Bound [] p
  | S n' =>
      if Nat.leb 4 (length p) then
        let vlen := pg_get_i32 p in
        let p := drop 4 p in
        let oid := oid_for types k in
        let more v p := match bind_values fmts types n' (S k) p with Bound vs r => Bound ((oid, v) :: vs) r | b => b end in
        if vlen <? 0 then more None p
        else if Zlen p <? vlen then Undefined
        else
          let v := take (Z.to_nat vlen) p in
          let p := drop (Z.to_nat vlen) p in
          if fmt_for fmts k =? 1 then
            match pg_decode_binary_param to_chars oid v with None => Undecodable | Some txt => more (Some txt) p end
          else more (Some v) p
      else Bound [] p
  end.

Definition typed_value (v : Z * option (list byte)) : Datum :=
  match v.2 with None => make_null TText | Some txt => pg_typed_datum parse_double v.1 txt end.

Definition literal_value (v : Z * option (list byte)) : list byte :=
  match v.2 with None => pg_param_literal [] true | Some txt => pg_param_literal txt false end.

Definition handle_bind (p : list byte) (s : session) : option (session * list byte) :=
  let '(portal, p) := read_cstring p in
  let '(stmt, p) := read_cstring p in
  if Nat.ltb (length p) 2 then Some (s, [])
  else
    let '(fmts, p) := counted pg_get_i16 2 p in
    if Nat.ltb (length p) 2 then Some (s, [])
    else
      let types := assoc stmt (stmt_types_ s) in
      match bind_values fmts types (Z.to_nat (pg_get_i16 p)) 0 (drop 2 p) with
      | Undefined => None
      | Undecodable => Some (s, pg_error_response_code (token "0A000") (token "binary parameter format is not supported for this type"))
      | Bound vs p =>
          if existsb (fun f => f =? 1) (counted pg_get_i16 2 p).1 then
            Some (s, pg_error_response_code (token "0A000") (token "binary result format is not supported"))
          else
            let sdesc := existsb (key_eqb stmt) (described_stmts_ s) in
            let sql := default [] (assoc stmt (stmts_ s)) in
            let po := match exec_prepared_ with
                      | Some _ => mkPortal sql (map typed_value vs) true sdesc None
                      | None => mkPortal (match assoc stmt (stmts_ s) with
                                          | Some q => pg_substitute_params q (map literal_value vs)
                                          | None => []
                                          end) [] false sdesc None
                      end in
            Some ({| s with portals_ := map_set portal po (portals_ s) |}, pg_bind_complete)
      end.

(** The column names after RETURNING: split at commas, blanks trimmed, the part after the
    last dot. *)
Definition trim_spaces (s : list byte) : list byte :=
  let sp c := Zb c =? 32 in rev (drop_while sp (rev (drop_while sp s))).

Fixpoint after_last_dot (s : list byte) : list byte :=
  match s with
  | [] => []
  | c :: s' => if existsb (fun b => Byte.eqb b ".") s' then after_last_dot s' else if Byte.eqb c "." then s' else s
  end.

Fixpoint commas (cur s : list byte) : list (list byte) :=
  match s with
  | [] => [cur]
  | c :: s' => if Byte.eqb c "," then cur :: commas [] s' else commas (cur ++ [c]) s'
  end.

Definition returning_columns (s : list byte) : list (list byte) :=
  List.filter (fun c => match c with [] => false | _ => true end) (map (fun c => after_last_dot (trim_spaces c)) (commas [] s)).

(** The types of the columns a DESCRIBE lists; [None] when a row has fewer than two cells. *)
Fixpoint column_oids (rows : list ResultRow) (m : list (list byte * Z)) : option (list (list byte * Z)) :=
  match rows with
  | [] => Some m
  | (n :: t :: _) :: rows' =>
      let ty := render to_chars t.2 in
      let oid := if starts_with (token "INT") ty then 20 else if starts_with (token "REAL") ty then 701 else 25 in
      column_oids rows' (map_set (render to_chars n.2) oid m)
  | _ :: _ => None
  end.

Definition target_table (query : list byte) (low : list byte) : option (list byte) :=
  match after_first (token "into ") low with
  | None => None
  | Some rest =>
      Some (take_while (fun c => c_isalnum c || Byte.eqb c "_" || Byte.eqb c ".") (drop (length low - length rest) query))
  end.

Definition describe_returning (name query : list byte) (cols : list (list byte)) (s : session) : option (session * list byte) :=
  let low := map c_tolower query in
  let '(d, s) := match target_table query low with
                 | None => (mkResult false [] 0 [], s)
                 | Some t => run (token "DESCRIBE " ++ t) s
                 end in
  match (if r_ok d then column_oids (r_rows d) [] else Some []) with
  | None => None
  | Some oids =>
      Some ({| s with described_stmts_ := if existsb (key_eqb name) (described_stmts_ s) then described_stmts_ s else name :: described_stmts_ s |},
            pg_row_description (map (fun c => (c, default 25 (assoc c oids))) cols))
  end.

Definition run_portal (po : Portal) (s : session) : ExecResult * session :=
  match exec_prepared_ with
  | Some f => if p_typed po then run_prepared f (p_sql po) (p_params po) s else run (p_sql po) s
  | None => run (p_sql po) s
  end.

Definition is_select_result (po : Portal) (r : ExecResult) : bool :=
  pg_is_select (p_sql po) || match r_rows r with [] => false | _ => true end.

Definition handle_describe (p : list byte) (s : session) : option (session * list byte) :=
  match p with
  | [] => Some (s, [])
  | what :: p =>
      let name := (read_cstring p).1 in
      if Byte.eqb what "S" then
        let query := assoc name (stmts_ s) in
        let head := pg_parameter_description (match query with Some q => count_params q | None => 0 end) in
        let no_rows := Some (s, head ++ pg_no_data) in
        match query with
        | None => no_rows
        | Some q =>
            let low := map c_tolower q in
            match after_first (token " returning ") low with
            | None => no_rows
            | Some rest =>
                match returning_columns (drop (length low - length rest) q) with
                | [] => no_rows
                | cols => match describe_returning name q cols s with None => None | Some (s, o) => Some (s, head ++ o) end
                end
            end
        end
      else
        match assoc name (portals_ s) with
        | None => Some (s, pg_no_data)
        | Some po =>
            let '(r, s) := run_portal po s in
            let po := mkPortal (p_sql po) (p_params po) (p_typed po) (p_stmt_described po) (Some r) in
            Some ({| s with portals_ := map_set name po (portals_ s) |},
                  if r_ok r && is_select_result po r then pg_row_description (pg_cols_of r) else pg_no_data)
        end
  end.

Definition handle_execute (p : list byte) (s : session) : session * list byte :=
  let name := (read_cstring p).1 in
  match assoc name (portals_ s) with
  | None => (s, pg_error_response (token "unknown portal"))
  | Some po =>
      let had_describe := match p_cached po with Some _ => true | None => false end in
      let head := statement_head (p_sql po) in
      let txn_ctl := key_eqb head (token "begin") || key_eqb head (token "commit") || key_eqb head (token "rollback") in
      let '(res, s) := match p_cached po with
                       | Some r => (inl r, s)
                       | None => if negb (p_typed po) || txn_ctl then run_statement (p_sql po) s
                                 else let '(r, s) := run_portal po s in (inl r, s)
                       end in
      match res with
      | inr tag => (s, pg_command_complete tag)
      | inl r =>
          let s := {| s with portals_ := map_set name (mkPortal (p_sql po) (p_params po) (p_typed po) (p_stmt_described po) None) (portals_ s) |} in
          if negb (r_ok r) then (s, pg_error_response (r_error r))
          else
            let is_sel := is_select_result po r in
            (s, (if negb had_describe && negb (p_stmt_described po) && is_sel then pg_row_description (pg_cols_of r) else []) ++
                pg_rows r ++ pg_command_complete (pg_command_tag (p_sql po) r is_sel))
      end
  end.

Definition handle_close (p : list byte) (s : session) : session * list byte :=
  match p with
  | [] => (s, pg_close_complete)
  | what :: p =>
      let name := (read_cstring p).1 in
      (if Byte.eqb what "S" then {| s with stmts_ := map_erase name (stmts_ s); stmt_types_ := map_erase name (stmt_types_ s) |}
       else {| s with portals_ := map_erase name (portals_ s) |}, pg_close_complete)
  end.

(** ** The byte stream *)

Definition accept (s : session) : session * list byte :=
  ({| s with started_ := true |},
   pg_auth_ok ++ pg_parameter_status (token "server_version") (token "14.0 (Lockstep)") ++
   pg_parameter_status (token "client_encoding") (token "UTF8") ++
   (if (backend_pid_ s =? 0) && (backend_secret_ s =? 0) then []
    else emit "K" (pg_put_i32 (backend_pid_ s) ++ pg_put_i32 (backend_secret_ s))) ++
   pg_ready_for_query).

(** [startup_user] over the parameters; each round consumes a key and a value. *)
Fixpoint startup_user (fuel : nat) (p : list byte) : list byte :=
  match fuel with
  | O => []
  | S fuel' =>
      match p with
      | [] => []
      | _ =>
          let '(key, p) := read_cstring p in
          match key with
          | [] => []
          | _ => let '(val, p) := read_cstring p in if key_eqb key (token "user") then val else startup_user fuel' p
          end
      end
  end.

(** What one round of the loop of [feed] does: wait for more, stop, or go on, with the bytes
    left in the buffer and those to send. *)
Inductive round := Wait | Halt (buf : list byte) (s : session) (out : list byte) | Next (buf : list byte) (s : session) (out : list byte) | Overrun.

Definition close (s : session) : session := {| s with closed_ := true |}.

Definition too_large (what : string) : list byte := pg_error_response_code (token "54000") (token what ++ token "message too large (backpressure limit)").

Definition bad_password (user : list byte) : list byte :=
  pg_error_response_code (token "28P01") (token "password authentication failed for user " ++ ["034"%byte] ++ user ++ ["034"%byte]).

Definition startup_round (buf : list byte) (s : session) : round :=
  if Zlen buf <? 8 then Wait
  else
    let len := pg_get_i32 buf in
    if kMaxMessageBytes <? len then Halt buf (close s) (too_large "startup ")
    else if (len <? 8) || (Zlen buf <? len) then Wait
    else
      let frame := take (Z.to_nat len) buf in
      let rest := drop (Z.to_nat len) buf in
      let code := pg_get_i32 (drop 4 frame) in
      if code =? 80877103 then Next rest s ["N"%byte]
      else if code =? 80877102 then
        Halt rest (close (if 16 <=? len then {| s with cancel_request_ := Some (pg_get_i32 (drop 8 frame), pg_get_i32 (drop 12 frame)) |} else s)) []
      else
        let s := {| s with user_ := startup_user (length frame) (drop 8 frame) |} in
        match auth_ with
        | Some _ => Next rest {| s with awaiting_password_ := true |} (emit "R" (pg_put_i32 3))
        | None => let '(s, o) := accept s in Next rest s o
        end.

Definition password_round (check : list byte -> list byte -> bool) (buf : list byte) (s : session) : round :=
  if Zlen buf <? 5 then Wait
  else
    let plen := pg_get_i32 (drop 1 buf) in
    if (plen <? 4) || (Zlen buf <? plen + 1) then Wait
    else
      let pw := take (Z.to_nat (plen - 5)) (drop 5 buf) in
      let rest := drop (Z.to_nat (plen + 1)) buf in
      let s := {| s with awaiting_password_ := false |} in
      if check (user_ s) pw then let '(s, o) := accept s in Next rest s o
      else Halt rest (close s) (bad_password (user_ s)).

(** A message of the regular phase. *)
Definition handle_message (type : byte) (payload : list byte) (s : session) : option (session * list byte) :=
  if Byte.eqb type "Q" then handle_query (removelast payload) s
  else if Byte.eqb type "P" then Some (handle_parse payload s)
  else if Byte.eqb type "B" then handle_bind payload s
  else if Byte.eqb type "D" then handle_describe payload s
  else if Byte.eqb type "E" then Some (handle_execute payload s)
  else if Byte.eqb type "C" then Some (handle_close payload s)
  else if Byte.eqb type "S" then match poll_notifications s with None => None | Some (s, o) => Some (s, o ++ pg_ready_for_query) end
  else Some (s, []).

Definition regular_round (buf : list byte) (s : session) : round :=
  match buf with
  | [] => Wait
  | type :: _ =>
      if Zlen buf <? 5 then Wait
      else
        let len := pg_get_i32 (drop 1 buf) in
        if kMaxMessageBytes <? len then Halt buf (close s) (too_large "")
        else if (len <? 4) || (Zlen buf <? len + 1) then Wait
        else
          let payload := take (Z.to_nat (len - 4)) (drop 5 buf) in
          let rest := drop (Z.to_nat (len + 1)) buf in
          if Byte.eqb type "X" then Halt rest (close s) []
          else match handle_message type payload s with None => Overrun | Some (s, o) => Next rest s o end
  end.

Definition feed_round (buf : list byte) (s : session) : round :=
  if negb (started_ s) && negb (awaiting_password_ s) then startup_round buf s
  else if awaiting_password_ s then match auth_ with Some check => password_round check buf s | None => Wait end
  else regular_round buf s.

(** The buffer, the session and the output after the loop. *)
Fixpoint feed_loop (fuel : nat) (buf : list byte) (s : session) : option (list byte * session * list byte) :=
  match fuel with
  | O => Some (buf, s, [])
  | S fuel' =>
      match feed_round buf s with
      | Wait => Some (buf, s, [])
      | Halt buf s o => Some (buf, s, o)
      | Next buf s o => match feed_loop fuel' buf s with None => None | Some (buf, s, o') => Some (buf, s, o ++ o') end
      | Overrun => None
      end
  end.

(** Every round consumes at least five bytes. *)
Definition feed (input buf : list byte) (s : session) : option (list byte * session * list byte) :=
  let buf := buf ++ input in feed_loop (S (length buf)) buf s.

(** ** Framing *)

Lemma get_i32_app p x : (4 <= length p)%nat -> pg_get_i32 (p ++ x) = pg_get_i32 p.
Proof. intros H. unfold pg_get_i32, at_byte. rewrite !app_nth1 by lia. done. Qed.

Definition extend (x : list byte) (r : round) : round :=
  match r with
  | Wait => Wait
  | Halt b s o => Halt (b ++ x) s o
  | Next b s o => Next (b ++ x) s o
  | Overrun => Overrun
  end.

Definition waits (r : round) : bool := match r with Wait => true | _ => false end.

Lemma ltb_app {A} (b x : list A) n : (Zlen b <? n) = false -> (Zlen (b ++ x) <? n) = false.
Proof. rewrite !Z.ltb_ge, Zlen_app. pose proof (Zlen_nonneg x). lia. Qed.

Lemma drop_app_in {A} (n : nat) (b x : list A) : (n <= length b)%nat -> drop n (b ++ x) = drop n b ++ x.
Proof. intros H. rewrite drop_app. replace (n - length b)%nat with 0%nat by lia. done. Qed.

Lemma take_app_in {A} (n : nat) (b x : list A) : (n <= length b)%nat -> take n (b ++ x) = take n b.
Proof. intros H. rewrite take_app. replace (n - length b)%nat with 0%nat by lia. by rewrite take_0, app_nil_r. Qed.

(** A round that does not wait takes the same decision however many bytes follow. *)
Lemma round_extend x buf s : waits (feed_round buf s) = false -> feed_round (buf ++ x) s = extend x (feed_round buf s).
Proof.
  unfold feed_round. destruct (negb (started_ s) && negb (awaiting_password_ s)).
  { unfold startup_round. destruct (Zlen buf <? 8) eqn:H8; [done|]. rewrite (ltb_app _ x _ H8). apply Z.ltb_ge in H8. unfold Zlen in H8.
    rewrite get_i32_app by lia. set (len := pg_get_i32 buf). destruct (kMaxMessageBytes <? len); [done|].
    destruct (len <? 8) eqn:Hl; [done|]. cbn [orb]. destruct (Zlen buf <? len) eqn:Hb; [done|]. rewrite (ltb_app _ x _ Hb). cbn iota.
    apply Z.ltb_ge in Hl, Hb. unfold Zlen in Hb. rewrite take_app_in, drop_app_in by lia. intros _.
    destruct (_ =? 80877103); [done|]. destruct (_ =? 80877102); [done|]. destruct auth_; [done|]. by destruct (accept _). }
  destruct (awaiting_password_ s).
  { destruct auth_ as [check|]; [|done]. unfold password_round. destruct (Zlen buf <? 5) eqn:H5; [done|]. rewrite (ltb_app _ x _ H5).
    apply Z.ltb_ge in H5. unfold Zlen in H5. rewrite (drop_app_in 1), get_i32_app by (rewrite ?length_drop; lia).
    set (len := pg_get_i32 (drop 1 buf)). destruct (len <? 4) eqn:Hl; [done|]. cbn [orb].
    destruct (Zlen buf <? len + 1) eqn:Hb; [done|]. rewrite (ltb_app _ x _ Hb). cbn iota. apply Z.ltb_ge in Hl, Hb. unfold Zlen in Hb. intros _.
    rewrite (drop_app_in 5), take_app_in, drop_app_in by (rewrite ?length_drop; lia).
    destruct (check _ _); [by destruct (accept _)|done]. }
  unfold regular_round. destruct buf as [|type buf']; [done|]. set (buf := type :: buf') in *. change ((type :: buf') ++ x) with (type :: (buf' ++ x)).
  change (type :: (buf' ++ x)) with (buf ++ x). destruct (Zlen buf <? 5) eqn:H5; [done|]. rewrite (ltb_app _ x _ H5).
  apply Z.ltb_ge in H5. unfold Zlen in H5. rewrite (drop_app_in 1), get_i32_app by (rewrite ?length_drop; lia).
  set (len := pg_get_i32 (drop 1 buf)). destruct (kMaxMessageBytes <? len); [done|]. destruct (len <? 4) eqn:Hl; [done|]. cbn [orb].
  destruct (Zlen buf <? len + 1) eqn:Hb; [done|]. rewrite (ltb_app _ x _ Hb). cbn iota. apply Z.ltb_ge in Hl, Hb. unfold Zlen in Hb. intros _.
  rewrite (drop_app_in 5), take_app_in, drop_app_in by (rewrite ?length_drop; lia).
  unfold buf at 1. cbn [app]. destruct (Byte.eqb type "X"); [done|]. by destruct (handle_message _ _ _) as [[]|].
Qed.

(** A round that stops the loop closes the session. *)
Lemma halted buf s b' s' o : feed_round buf s = Halt b' s' o -> closed_ s' = true.
Proof.
  unfold feed_round, startup_round, password_round, regular_round.
  repeat (case_match; try done); intros [= _ <- _]; done.
Qed.

(** A round that goes on consumes bytes. *)
Lemma round_consumes buf s b' s' o : feed_round buf s = Next b' s' o -> (length b' < length buf)%nat.
Proof.
  unfold feed_round. destruct (negb (started_ s) && negb (awaiting_password_ s)).
  { unfold startup_round. destruct (Zlen buf <? 8) eqn:H8; [done|]. destruct (kMaxMessageBytes <? _); [done|].
    destruct (_ || _) eqn:Hb; [done|]. apply orb_false_iff in Hb as [Hl _]. apply Z.ltb_ge in H8, Hl. unfold Zlen in H8.
    destruct (_ =? 80877103); [intros [= <- _ _]; rewrite length_drop; lia|]. destruct (_ =? 80877102); [done|].
    destruct auth_; [|destruct (accept _)]; intros [= <- _ _]; rewrite length_drop; lia. }
  destruct (awaiting_password_ s).
  { destruct auth_ as [check|]; [|done]. unfold password_round. destruct (Zlen buf <? 5) eqn:H5; [done|].
    destruct (_ || _) eqn:Hb; [done|]. apply orb_false_iff in Hb as [Hl _]. apply Z.ltb_ge in H5, Hl. unfold Zlen in H5.
    destruct (check _ _); [|done]. destruct (accept _). intros [= <- _ _]. rewrite length_drop. lia. }
  unfold regular_round. destruct buf as [|type buf']; [done|]. set (buf := type :: buf') in *. set (len := pg_get_i32 (drop 1 buf)).
  destruct (Zlen _ <? 5) eqn:H5; [done|]. destruct (kMaxMessageBytes <? _); [done|].
  destruct (_ || _) eqn:Hb; [done|]. apply orb_false_iff in Hb as [Hl _]. apply Z.ltb_ge in H5, Hl. unfold Zlen in H5.
  destruct (Byte.eqb type "X"); [done|]. destruct (handle_message _ _ _) as [[]|]; [|done]. intros [= <- _ _]. rewrite length_drop. lia.
Qed.

(** Enough fuel is as good as any. *)
Lemma feed_loop_fuel fuel : forall fuel' buf s, (length buf < fuel)%nat -> (length buf < fuel')%nat -> feed_loop fuel buf s = feed_loop fuel' buf s.
Proof.
  induction fuel as [|fuel IH]; intros [|fuel'] buf s H1 H2; [lia..|]. cbn [feed_loop].
  destruct (feed_round buf s) as [| |b' s' o|] eqn:Hr; try done. apply round_consumes in Hr. rewrite (IH fuel'); [done|lia|lia].
Qed.

Lemma feed_loop_next f buf s b1 s1 o1 : feed_round buf s = Next b1 s1 o1 ->
  feed_loop (S f) buf s = match feed_loop f b1 s1 with None => None | Some (b, s, o) => Some (b, s, o1 ++ o) end.
Proof. intros H. cbn [feed_loop]. by rewrite H. Qed.

(** Feeding the rest after a prefix is feeding both, unless the session closed in between. *)
Lemma feed_loop_app x : forall fuel buf s b' s' o, (length buf < fuel)%nat -> feed_loop fuel buf s = Some (b', s', o) -> closed_ s' = false ->
  feed_loop (S (length (buf ++ x))) (buf ++ x) s =
    match feed_loop (S (length (b' ++ x))) (b' ++ x) s' with None => None | Some (b2, s2, o2) => Some (b2, s2, o ++ o2) end.
Proof.
  induction fuel as [|fuel IH]; intros buf s b' s' o Hf Hl Hc; [lia|]. cbn [feed_loop] in Hl.
  destruct (feed_round buf s) as [|b1 s1 o1|b1 s1 o1|] eqn:Hr.
  - injection Hl as <- <- <-. by destruct (feed_loop _ (buf ++ x) s) as [[[]]|].
  - injection Hl as <- <- <-. exfalso. revert Hc. apply halted in Hr. congruence.
  - destruct (feed_loop fuel b1 s1) as [[[b2 s2] o2]|] eqn:Hl2; [|done]. injection Hl as <- <- <-.
    pose proof (round_consumes _ _ _ _ _ Hr) as Hlen.
    pose proof (round_extend x buf s) as He. rewrite Hr in He. specialize (He eq_refl). cbn [extend] in He.
    rewrite (feed_loop_next _ _ _ _ _ _ He), (feed_loop_fuel _ (S (length (b1 ++ x)))) by (rewrite ?length_app in *; lia).
    rewrite (IH b1 s1 b2 s2 o2); [|lia|done|done]. destruct (feed_loop _ (b2 ++ x) s2) as [[[]]|]; [by rewrite app_assoc|done].
  - done.
Qed.

(** No message handler closes the session. *)
Lemma run_closed sql s : closed_ (run sql s).2 = closed_ s.
Proof. unfold run. by destruct (exec_ sql (engine s)). Qed.

Lemma poll_closed l : forall s s' o, poll l s = Some (s', o) -> closed_ s' = closed_ s.
Proof.
  induction l as [|[chan announced] l IH]; intros s s' o; cbn [poll]; [by intros [= <- _]|].
  pose proof (run_closed (fetch_sql chan) s) as Hr. destruct (run (fetch_sql chan) s) as [r s1]. cbn [snd] in Hr. rewrite <- Hr.
  destruct (r_ok r); [|apply IH]. destruct (r_rows r) as [|[|c row] rows]; [apply IH|done|].
  destruct (_ =? announced); [apply IH|]. destruct (poll l _) as [[s2 o2]|] eqn:Hp; [|done]. intros [= <- _]. by apply IH in Hp.
Qed.

Lemma run_statement_closed sql s : closed_ (run_statement sql s).2 = closed_ s.
Proof.
  unfold run_statement. destruct (_ && in_txn_ s); [done|]. destruct (_ && negb (in_txn_ s)); [done|].
  pose proof (run_closed sql s) as Hr. destruct (run sql s) as [r s1]. exact Hr.
Qed.

Lemma query_loop_closed stmts : forall s, closed_ (query_loop stmts s).1 = closed_ s.
Proof.
  induction stmts as [|sql stmts IH]; intros s; [done|]. cbn [query_loop]. destruct (listen_channel_of sql) as [[[|] chan]|].
  - specialize (IH {| s with listens_ := map_erase chan (listens_ s) |}). by destruct (query_loop stmts _).
  - pose proof (run_closed (fetch_sql chan) s) as Hr. destruct (run (fetch_sql chan) s) as [r s1]. cbn [snd] in Hr. destruct (negb (r_ok r)); [done|].
    specialize (IH {| s1 with listens_ := map_emplace chan (-1) (listens_ s1) |}). rewrite <- Hr. by destruct (query_loop stmts _).
  - pose proof (run_statement_closed sql s) as Hr. destruct (run_statement sql s) as [[r|tag] s1]; cbn [snd] in Hr; rewrite <- Hr.
    + destruct (r_ok r); [|done]. specialize (IH s1). by destruct (query_loop stmts s1).
    + specialize (IH s1). by destruct (query_loop stmts s1).
Qed.

Lemma run_portal_closed po s : closed_ (run_portal po s).2 = closed_ s.
Proof.
  unfold run_portal. destruct exec_prepared_ as [f|]; [|apply run_closed]. destruct (p_typed po); [|apply run_closed].
  unfold run_prepared. by destruct (f _ _ _).
Qed.

Lemma describe_closed p s s' o : handle_describe p s = Some (s', o) -> closed_ s' = closed_ s.
Proof.
  unfold handle_describe, describe_returning. destruct p as [|what p]; [by intros [= <- _]|]. destruct (Byte.eqb what "S").
  - destruct (assoc _ (stmts_ s)) as [q|]; [|by intros [= <- _]]. destruct (after_first _ _) as [rest|]; [|by intros [= <- _]].
    destruct (returning_columns _) as [|c cols]; [by intros [= <- _]|].
    assert (Hd : forall d s1, match target_table q (map c_tolower q) with None => (mkResult false [] 0 [], s) | Some t => run (token "DESCRIBE " ++ t) s end = (d, s1) -> closed_ s1 = closed_ s).
    { intros d s1. destruct (target_table _ _) as [t|]; [|by intros [= _ <-]]. intros Hr. by rewrite <- (run_closed (token "DESCRIBE " ++ t) s), Hr. }
    destruct (match target_table q (map c_tolower q) with None => _ | Some t => _ end) as [d s1]. specialize (Hd d s1 eq_refl).
    destruct (if r_ok d then _ else _) as [oids|]; [|done]. intros [= <- _]. exact Hd.
  - destruct (assoc _ (portals_ s)) as [po|]; [|by intros [= <- _]]. pose proof (run_portal_closed po s) as Hr.
    destruct (run_portal po s) as [r s1]. intros [= <- _]. exact Hr.
Qed.

Lemma execute_closed p s : closed_ (handle_execute p s).1 = closed_ s.
Proof.
  unfold handle_execute. destruct (assoc _ (portals_ s)) as [po|]; [|done].
  assert (Hd : forall x, match p_cached po with
      | Some r => (inl r, s)
      | None => if negb (p_typed po) || (key_eqb (statement_head (p_sql po)) (token "begin") || key_eqb (statement_head (p_sql po)) (token "commit") || key_eqb (statement_head (p_sql po)) (token "rollback"))
                then run_statement (p_sql po) s else let '(r, s) := run_portal po s in (inl r, s) end = x -> closed_ x.2 = closed_ s).
  { intros x <-. destruct (p_cached po); [done|]. destruct (_ || _); [apply run_statement_closed|].
    pose proof (run_portal_closed po s) as Hr. by destruct (run_portal po s). }
  destruct (match p_cached po with Some r => _ | None => _ end) as [[r|tag] s1]; specialize (Hd _ eq_refl); [|done].
  by destruct (negb (r_ok r)).
Qed.

Lemma message_closed type payload s s' o : handle_message type payload s = Some (s', o) -> closed_ s' = closed_ s.
Proof.
  unfold handle_message. destruct (Byte.eqb type "Q").
  { unfold handle_query. pose proof (query_loop_closed (split_statements (removelast payload)) s) as Hq. destruct (query_loop _ s) as [s1 o1]. cbn [fst] in Hq.
    unfold poll_notifications. destruct (poll _ s1) as [[s2 o2]|] eqn:Hp; [|done]. apply poll_closed in Hp. intros [= <- _]. congruence. }
  destruct (Byte.eqb type "P"); [unfold handle_parse; destruct (read_cstring payload) as [nm p1]; destruct (read_cstring p1); by intros [= <- _]|].
  destruct (Byte.eqb type "B"); [unfold handle_bind; repeat (case_match; try done); by intros [= <- _]|].
  destruct (Byte.eqb type "D"); [apply describe_closed|].
  destruct (Byte.eqb type "E"); [intros [= Hs]; pose proof (execute_closed payload s) as He; by rewrite Hs in He|].
  destruct (Byte.eqb type "C"); [unfold handle_close; destruct payload; [|destruct (Byte.eqb _ "S")]; by intros [= <- _]|].
  destruct (Byte.eqb type "S"); [unfold poll_notifications; destruct (poll _ s) as [[s2 o2]|] eqn:Hp; [|done]; apply poll_closed in Hp; by intros [= <- _]|].
  by intros [= <- _].
Qed.

Lemma next_closed buf s b' s' o : feed_round buf s = Next b' s' o -> closed_ s' = closed_ s.
Proof.
  unfold feed_round, startup_round, password_round, regular_round, accept.
  destruct (_ && _); [repeat (case_match; try done); intros [= _ <- _]; done|].
  destruct (awaiting_password_ s); [repeat (case_match; try done); intros [= _ <- _]; done|].
  destruct buf as [|type buf']; [done|]. destruct (Zlen _ <? 5); [done|]. destruct (kMaxMessageBytes <? _); [done|]. destruct (_ || _); [done|].
  destruct (Byte.eqb type "X"); [done|]. destruct (handle_message _ _ _) as [[s1 o1]|] eqn:Hm; [|done]. intros [= _ <- _]. by eapply message_closed.
Qed.

(** ** Chunks *)

(** The reads of a connection, until the session closes. *)
Fixpoint feed_all (chunks : list (list byte)) (buf : list byte) (s : session) : option (session * list byte) :=
  match chunks with
  | [] => Some (s, [])
  | c :: cs =>
      match feed c buf s with
      | None => None
      | Some (buf, s, o) =>
          if closed_ s then Some (s, o)
          else match feed_all cs buf s with None => None | Some (s, o') => Some (s, o ++ o') end
      end
  end.

Definition outcome (r : option (list byte * session * list byte)) : option (session * list byte) :=
  match r with None => None | Some (_, s, o) => Some (s, o) end.

Lemma feed_loop_waits fuel : forall buf s b' s' o, (length buf < fuel)%nat -> feed_loop fuel buf s = Some (b', s', o) ->
  closed_ s' = false -> feed_round b' s' = Wait.
Proof.
  induction fuel as [|fuel IH]; intros buf s b' s' o Hf Hl Hc; [lia|]. cbn [feed_loop] in Hl.
  destruct (feed_round buf s) as [|b1 s1 o1|b1 s1 o1|] eqn:Hr.
  - by injection Hl as <- <- _.
  - injection Hl as <- <- _. apply halted in Hr. congruence.
  - destruct (feed_loop fuel b1 s1) as [[[b2 s2] o2]|] eqn:Hl2; [|done]. injection Hl as <- <- _.
    apply round_consumes in Hr. eapply IH; [|exact Hl2|done]. lia.
  - done.
Qed.

Lemma feed_loop_stopped x fuel : forall buf s, (length buf < fuel)%nat -> closed_ s = false ->
  (forall b' s' o, feed_loop fuel buf s = Some (b', s', o) -> closed_ s' = true ->
    outcome (feed_loop (S (length (buf ++ x))) (buf ++ x) s) = Some (s', o)) /\
  (feed_loop fuel buf s = None -> feed_loop (S (length (buf ++ x))) (buf ++ x) s = None).
Proof.
  induction fuel as [|fuel IH]; intros buf s Hf Hc; [lia|]. cbn [feed_loop].
  destruct (feed_round buf s) as [|b1 s1 o1|b1 s1 o1|] eqn:Hr.
  - split; [|done]. intros b' s' o [= <- <- <-] Hc'. congruence.
  - split; [|done]. intros b' s' o [= <- <- <-] _. pose proof (round_extend x buf s) as He. rewrite Hr in He. rewrite (He eq_refl). done.
  - pose proof (round_consumes _ _ _ _ _ Hr) as Hlen. pose proof (next_closed _ _ _ _ _ Hr) as Hc1.
    pose proof (round_extend x buf s) as He. rewrite Hr in He. specialize (He eq_refl). cbn [extend] in He.
    destruct (IH b1 s1) as [IH1 IH2]; [lia|congruence|]. rewrite He.
    rewrite (feed_loop_fuel (length (buf ++ x)) (S (length (b1 ++ x)))) by (rewrite ?length_app in *; lia). split.
    + intros b' s' o Hl Hc'. destruct (feed_loop fuel b1 s1) as [[[b2 s2] o2]|]; [|done]. injection Hl as <- <- <-.
      specialize (IH1 _ _ _ eq_refl Hc'). destruct (feed_loop _ (b1 ++ x) s1) as [[[b3 s3] o3]|]; [|done]. cbn [outcome] in *. by injection IH1 as -> ->.
    + intros Hl. destruct (feed_loop fuel b1 s1) as [[[]]|]; [done|]. by rewrite (IH2 eq_refl).
  - split; [done|]. intros _. pose proof (round_extend x buf s) as He. rewrite Hr in He. by rewrite (He eq_refl).
Qed.

Lemma feed_all_concat chunks : forall buf s, closed_ s = false -> feed_round buf s = Wait ->
  feed_all chunks buf s = outcome (feed (concat chunks) buf s).
Proof.
  induction chunks as [|c cs IH]; intros buf s Hc Hw.
  { cbn [feed_all concat]. unfold feed. rewrite app_nil_r. cbn [feed_loop]. by rewrite Hw. }
  cbn [feed_all concat]. unfold feed at 2. rewrite app_assoc. unfold feed at 1. set (b := buf ++ c).
  destruct (feed_loop_stopped (concat cs) (S (length b)) b s) as [H1 H2]; [lia|done|].
  destruct (feed_loop (S (length b)) b s) as [[[b' s'] o]|] eqn:Hl; [|by rewrite (H2 eq_refl)].
  destruct (closed_ s') eqn:Hc'; [by rewrite (H1 _ _ _ eq_refl Hc')|].
  pose proof (feed_loop_waits _ _ _ _ _ _ (Nat.lt_succ_diag_r _) Hl Hc') as Hw'.
  rewrite (feed_loop_app (concat cs) _ _ _ _ _ _ (Nat.lt_succ_diag_r _) Hl Hc'), (IH b' s' Hc' Hw'). unfold feed.
  by destruct (feed_loop _ (b' ++ concat cs) s') as [[[]]|].
Qed.

(** ** Authentication *)

Definition locked (q : Q) (s : session) : Prop := engine s = q /\ started_ s = false.

Lemma round_locked q buf s : (forall check, auth_ = Some check -> forall u p, check u p = false) -> auth_ <> None -> locked q s ->
  match feed_round buf s with Next _ s' _ | Halt _ s' _ => locked q s' | Wait => True | Overrun => False end.
Proof.
  intros Hch Hn [He Hs]. unfold feed_round. rewrite Hs. cbn [negb andb]. destruct (awaiting_password_ s); cbn [negb].
  - destruct auth_ as [check|] eqn:Ha; [|done]. unfold password_round. rewrite (Hch check eq_refl).
    destruct (Zlen buf <? 5); [done|]. by destruct (_ || _).
  - unfold startup_round. destruct auth_ as [check|]; [|done]. destruct (Zlen buf <? 8); [done|]. destruct (kMaxMessageBytes <? _); [done|].
    destruct (_ || _); [done|]. destruct (_ =? 80877103); [done|]. destruct (_ =? 80877102); [by destruct (16 <=? _)|done].
Qed.

Lemma feed_loop_locked q fuel : (forall check, auth_ = Some check -> forall u p, check u p = false) -> auth_ <> None ->
  forall buf s, locked q s -> match feed_loop fuel buf s with None => False | Some (_, s', _) => locked q s' end.
Proof.
  intros Hch Hn. induction fuel as [|fuel IH]; intros buf s Hs; [done|]. cbn [feed_loop].
  pose proof (round_locked q buf s Hch Hn Hs) as Hr. destruct (feed_round buf s) as [|b1 s1 o1|b1 s1 o1|]; [done|done| |done].
  specialize (IH b1 s1 Hr). by destruct (feed_loop fuel b1 s1) as [[[]]|].
Qed.

Lemma feed_all_locked q chunks : (forall check, auth_ = Some check -> forall u p, check u p = false) -> auth_ <> None ->
  forall buf s, locked q s -> match feed_all chunks buf s with None => False | Some (s', _) => locked q s' end.
Proof.
  intros Hch Hn. induction chunks as [|c cs IH]; intros buf s Hs; [done|]. cbn [feed_all]. unfold feed.
  pose proof (feed_loop_locked q (S (length (buf ++ c))) Hch Hn (buf ++ c) s Hs) as Hl. destruct (feed_loop _ _ s) as [[[b1 s1] o1]|]; [|done].
  destruct (closed_ s1); [done|]. specialize (IH b1 s1 Hl). by destruct (feed_all cs b1 s1) as [[]|].
Qed.
End session.
Arguments session : clear implicits.
Arguments round : clear implicits.

(** ** Replies *)

Abbreviation message := (byte * list byte)%type.

Definition frames (ms : list message) : list byte := ms ≫= (fun m => emit m.1 m.2).

Lemma frames_app a b : frames (a ++ b) = frames a ++ frames b.
Proof. apply bind_app. Qed.

Lemma frames_one m : frames [m] = emit m.1 m.2.
Proof. unfold frames. cbn. by rewrite app_nil_r. Qed.

(** A client that follows the lengths. *)
Fixpoint read_frames (fuel : nat) (b : list byte) : list message :=
  match fuel, b with
  | S fuel', type :: p =>
      let len := pg_get_i32 p in
      (type, take (Z.to_nat (len - 4)) (drop 4 p)) :: read_frames fuel' (drop (Z.to_nat len) p)
  | _, _ => []
  end.

Definition small (m : message) : Prop := Zlen m.2 < 2 ^ 31 - 4.

Lemma get_put_i32 v p : 0 <= v < 2 ^ 31 -> pg_get_i32 (pg_put_i32 v ++ p) = v.
Proof.
  intros Hv. unfold pg_get_i32, pg_put_i32, at_byte. rewrite u32_id by lia. cbn [app nth]. rewrite !Zb_bZ.
  change 0xFF with (Z.ones 8). rewrite !Z.land_ones by lia. change 256 with (2 ^ 8). rewrite !Z.mod_mod by lia. unfold signed. change (32 - 1) with 31.
  assert (Hb : Z.lor (Z.lor (Z.lor (Z.shiftl (Z.shiftr v 24 mod 2 ^ 8) 24) (Z.shiftl (Z.shiftr v 16 mod 2 ^ 8) 16)) (Z.shiftl (Z.shiftr v 8 mod 2 ^ 8) 8)) (v mod 2 ^ 8) = v).
  { rewrite !Z.shiftr_div_pow2 by lia. set (a := v / 2 ^ 24 mod 2 ^ 8). set (b := v / 2 ^ 16 mod 2 ^ 8). set (c := v / 2 ^ 8 mod 2 ^ 8). set (d := v mod 2 ^ 8).
    replace (Z.lor (Z.lor (Z.lor (Z.shiftl a 24) (Z.shiftl b 16)) (Z.shiftl c 8)) d) with (Z.lor (Z.lor (Z.lor d (Z.shiftl c 8)) (Z.shiftl b 16)) (Z.shiftl a 24))
      by (apply Z.bits_inj'; intros n _; rewrite !Z.lor_spec; by destruct (Z.testbit d n), (Z.testbit (Z.shiftl c 8) n), (Z.testbit (Z.shiftl b 16) n), (Z.testbit (Z.shiftl a 24) n)).
    assert (0 <= d < 256 /\ 0 <= c < 256 /\ 0 <= b < 256) by (unfold b, c, d; change (2 ^ 8) with 256; lia).
    rewrite (lor_shiftl_add d) by lia. rewrite !(lor_shiftl_add (_ + _)) by lia. unfold a, b, c, d. lia. }
  rewrite Hb. by rewrite (proj2 (Z.ltb_lt _ _)) by lia.
Qed.

Lemma emit_length type p : length (emit type p) = (5 + length p)%nat.
Proof. done. Qed.

Lemma read_frames_back ms : Forall small ms -> read_frames (S (length (frames ms))) (frames ms) = ms.
Proof.
  assert (H : forall ms fuel, Forall small ms -> (length (frames ms) < fuel)%nat -> read_frames fuel (frames ms) = ms).
  { clear ms. induction ms as [|[type p] ms IH]; intros fuel Hs Hf; [by destruct fuel|]. apply Forall_cons in Hs as [Hp Hs].
    change (frames ((type, p) :: ms)) with (emit type p ++ frames ms) in *. rewrite length_app, emit_length in Hf.
    destruct fuel as [|fuel]; [lia|]. unfold emit. rewrite <- app_comm_cons, <- app_assoc. cbn [read_frames]. unfold small in Hp. cbn [snd] in Hp.
    pose proof (Zlen_nonneg p) as Hn. rewrite get_put_i32 by lia. replace (Zlen p + 4 - 4) with (Zlen p) by lia. f_equal.
    - f_equal. change (pg_put_i32 (Zlen p + 4) ++ p ++ frames ms) with (pg_put_i32 (Zlen p + 4) ++ (p ++ frames ms)).
      rewrite (drop_app_length' (pg_put_i32 (Zlen p + 4))) by done. unfold Zlen. by rewrite Nat2Z.id, take_app_length.
    - replace (Z.to_nat (Zlen p + 4)) with (length (pg_put_i32 (Zlen p + 4) ++ p)) by (rewrite length_app; unfold Zlen; change (length (pg_put_i32 (Z.of_nat (length p) + 4))) with 4%nat; lia).
      rewrite app_assoc, drop_app_length. apply IH; [done|lia]. }
  intros Hs. apply H; [done|lia].
Qed.

(** A reply is framed and has no ReadyForQuery in it. *)
Definition body (o : list byte) : Prop := exists ms, o = frames ms /\ Forall (fun m : message => m.1 <> "Z"%byte) ms.

Lemma body_nil : body [].
Proof. by exists []. Qed.

Lemma body_app a b : body a -> body b -> body (a ++ b).
Proof. intros (x & -> & Hx) (y & -> & Hy). exists (x ++ y). rewrite frames_app. split; [done|]. by apply Forall_app. Qed.

Lemma body_emit type p : type <> "Z"%byte -> body (emit type p).
Proof. intros H. exists [(type, p)]. rewrite frames_one. split; [done|]. by constructor. Qed.

Lemma body_rows to_chars r : body (pg_rows to_chars r).
Proof.
  unfold pg_rows. induction (r_rows r) as [|row rows IH]; [apply body_nil|].
  change ((row :: rows) ≫= pg_data_row (render to_chars)) with (pg_data_row (render to_chars) row ++ (rows ≫= pg_data_row (render to_chars))).
  apply body_app; [by apply body_emit|done].
Qed.

Create HintDb pgwire.
#[local] Hint Resolve body_nil body_app body_rows : pgwire.
#[local] Hint Extern 1 (body (pg_command_complete _)) => (by apply body_emit) : pgwire.
#[local] Hint Extern 1 (body (pg_error_response _)) => (by apply body_emit) : pgwire.
#[local] Hint Extern 1 (body (pg_row_description _)) => (by apply body_emit) : pgwire.
#[local] Hint Extern 1 (body (emit _ _)) => (by apply body_emit) : pgwire.

Lemma body_reply to_chars sql r : body (pg_reply_for_statement to_chars sql r).
Proof. unfold pg_reply_for_statement. destruct (negb (r_ok r)); [auto with pgwire|]. apply body_app; [|auto with pgwire]. destruct (_ || _); auto with pgwire. Qed.

#[local] Hint Resolve body_reply : pgwire.

Lemma body_poll {Q} (exec_ : list byte -> Q -> ExecResult * Q) l : forall s s' o, poll exec_ l s = Some (s', o) -> body o.
Proof.
  induction l as [|[chan announced] l IH]; intros s s' o; cbn [poll]; [intros [= _ <-]; auto with pgwire|].
  destruct (run exec_ (fetch_sql chan) s) as [r s1]. destruct (r_ok r); [|apply IH]. destruct (r_rows r) as [|[|c row] rows]; [apply IH|done|].
  destruct (_ =? announced); [apply IH|]. destruct (poll exec_ l _) as [[s2 o2]|] eqn:Hp; [|done]. apply IH in Hp. intros E%(f_equal (option_map snd)).
  apply (inj Some) in E. cbn [snd] in E. subst o. apply body_app; [by apply body_emit|done].
Qed.

Lemma body_query {Q} to_chars (exec_ : list byte -> Q -> ExecResult * Q) stmts : forall s, body (query_loop to_chars exec_ stmts s).2.
Proof.
  induction stmts as [|sql stmts IH]; intros s; [apply body_nil|]. cbn [query_loop]. destruct (listen_channel_of sql) as [[[|] chan]|].
  - specialize (IH {| s with listens_ := map_erase chan (listens_ s) |}). destruct (query_loop to_chars exec_ stmts _). cbn [snd] in *. auto with pgwire.
  - destruct (run exec_ (fetch_sql chan) s) as [r s1]. destruct (negb (r_ok r)); [cbn [snd]; auto with pgwire|].
    specialize (IH {| s1 with listens_ := map_emplace chan (-1) (listens_ s1) |}). destruct (query_loop to_chars exec_ stmts _). cbn [snd] in *. auto with pgwire.
  - destruct (run_statement exec_ sql s) as [[r|tag] s1].
    + destruct (r_ok r); [|cbn [snd]; auto with pgwire]. specialize (IH s1). destruct (query_loop to_chars exec_ stmts s1). cbn [snd] in *. auto with pgwire.
    + specialize (IH s1). destruct (query_loop to_chars exec_ stmts s1). cbn [snd] in *. auto with pgwire.
Qed.

(** ** Statements *)

(** A statement with its strings closed and no semicolon outside them. *)
Fixpoint closed_text (in_str : bool) (s : list byte) : bool :=
  match s with
  | [] => negb in_str
  | c :: s' =>
      if Byte.eqb c apostrophe then
        match s' with
        | d :: s'' => if in_str && Byte.eqb d apostrophe then closed_text in_str s'' else closed_text (negb in_str) s'
        | [] => in_str
        end
      else if Byte.eqb c ";" && negb in_str then false
      else closed_text in_str s'
  end.

Definition statement (s : list byte) : Prop := closed_text false s = true /\ is_blank s = false.

Definition semicolon : byte := ";"%byte.

Lemma split_closed : forall n s in_str cur rest, (length s <= n)%nat -> closed_text in_str s = true ->
  split in_str cur (s ++ semicolon :: rest) = keep_stmt (cur ++ s) ++ split false [] rest.
Proof.
  induction n as [|n IH]; intros s in_str cur rest Hn Hc.
  { destruct s; [|cbn in Hn; lia]. destruct in_str; [done|]. cbn [app split]. by rewrite app_nil_r. }
  destruct s as [|c s]; [destruct in_str; [done|]; cbn [app split]; by rewrite app_nil_r|]. cbn [length] in Hn. cbn [closed_text] in Hc. cbn [app split].
  destruct (Byte.eqb c apostrophe) eqn:Hq.
  - destruct s as [|d s]; cbn [app].
    + destruct in_str; [|done]. change (Byte.eqb semicolon apostrophe) with false. cbn [andb negb split].
      change (Byte.eqb semicolon apostrophe) with false. change (Byte.eqb semicolon ";") with true. done.
    + cbn [length] in Hn. destruct (in_str && Byte.eqb d apostrophe).
      * rewrite (IH s) by (done || lia). by rewrite <- app_assoc.
      * change (d :: s ++ semicolon :: rest) with ((d :: s) ++ semicolon :: rest). rewrite (IH (d :: s)) by (done || cbn; lia). by rewrite <- app_assoc.
  - destruct (Byte.eqb c ";" && negb in_str); [done|]. rewrite (IH s) by (done || lia). by rewrite <- app_assoc.
Qed.

Lemma split_back ss : Forall statement ss -> split_statements (ss ≫= (fun s => s ++ [semicolon])) = ss.
Proof.
  unfold split_statements. induction 1 as [|s ss [Hc Hb] _ IH]; [done|].
  change ((s :: ss) ≫= (fun s => s ++ [semicolon])) with ((s ++ [semicolon]) ++ (ss ≫= (fun s => s ++ [semicolon]))).
  rewrite <- app_assoc. change ([semicolon] ++ ?x) with (semicolon :: x). rewrite (split_closed (length s)) by done.
  cbn [app]. unfold keep_stmt. rewrite Hb, IH. done.
Qed.

(** ** Properties *)

(** C27: The session does not depend on how the stream is cut.  However the bytes of a client arrive,
    split anywhere, the session ends in the same state and sends the same bytes as if they had
    arrived at once; frames are never lost, merged or run twice, for any engine and
    authenticator. *)
Theorem feed_stream {Q} to_chars parse_double (exec_ : list byte -> Q -> ExecResult * Q) auth_ exec_prepared_ chunks q :
  feed_all to_chars parse_double exec_ auth_ exec_prepared_ chunks [] (new_session q) =
  outcome (feed to_chars parse_double exec_ auth_ exec_prepared_ (concat chunks) [] (new_session q)).
Proof. by apply feed_all_concat. Qed.

(** C34: Nothing runs before the password is accepted.  While an authenticator is configured that
    accepts no password of the client, no bytes it sends reach the engine, make the session start or
    lead to an undefined read. *)
Theorem auth_required {Q} to_chars parse_double (exec_ : list byte -> Q -> ExecResult * Q) check exec_prepared_ chunks q :
  (forall u p, check u p = false) ->
  exists s o, feed_all to_chars parse_double exec_ (Some check) exec_prepared_ chunks [] (new_session q) = Some (s, o) /\
    engine s = q /\ started_ s = false.
Proof.
  intros Hc. pose proof (feed_all_locked to_chars parse_double exec_ (Some check) exec_prepared_ q chunks) as H.
  specialize (H ltac:(intros c [= <-]; exact Hc) ltac:(done) [] (new_session q) (conj eq_refl eq_refl)).
  destruct (feed_all _ _ _ _ _ _ _ _) as [[s o]|]; [|done]. by exists s, o.
Qed.

(** Every query message gets one framed reply.  The statements of the query are those between
    the semicolons outside its strings; the bytes sent back are whole messages, of which the
    last and only the last is ReadyForQuery, and a client that follows the lengths reads them
    back, while none is too long for the length field. *)
Theorem query_answered {Q} to_chars (exec_ : list byte -> Q -> ExecResult * Q) ss s s' out :
  Forall statement ss -> handle_query to_chars exec_ (ss ≫= (fun x => x ++ [semicolon])) s = Some (s', out) ->
  split_statements (ss ≫= (fun x => x ++ [semicolon])) = ss /\
  exists ms, out = frames (ms ++ [("Z"%byte, ["I"%byte])]) /\ Forall (fun m : message => m.1 <> "Z"%byte) ms /\
    (Forall small ms -> read_frames (S (length out)) out = ms ++ [("Z"%byte, ["I"%byte])]).
Proof.
  intros Hss. unfold handle_query. rewrite (split_back _ Hss). pose proof (body_query to_chars exec_ ss s) as Hq.
  destruct (query_loop to_chars exec_ ss s) as [s1 o]. cbn [snd] in Hq. unfold poll_notifications.
  destruct (poll exec_ _ s1) as [[s2 n]|] eqn:Hp; [|done]. apply body_poll in Hp. intros E%(f_equal (option_map snd)). apply (inj Some) in E. cbn [snd] in E. subst out. split; [done|].
  assert (Ho : body (match ss with [] => emit "I" [] | _ => o end)) by (destruct ss; auto with pgwire).
  destruct (body_app _ _ Ho Hp) as (ms & Heq & Hz). exists ms. rewrite app_assoc, Heq, frames_app, frames_one. cbn [fst snd].
  split; [done|]. split; [done|]. intros Hs.
  replace (frames ms ++ pg_ready_for_query) with (frames (ms ++ [("Z"%byte, ["I"%byte])])) by (rewrite frames_app, frames_one; reflexivity).
  apply read_frames_back. apply Forall_app. split; [done|]. repeat constructor.
Qed.

(** ** Instances *)

Definition no_double (txt : list byte) : option Z := None.
Definition no_chars (bits : Z) : list byte := [].

(** An engine that counts the statements it is given and returns one row. *)
Definition counting (sql : list byte) (n : Z) : ExecResult * Z := (mkResult true [] 1 [[(token "n", make_int n)]], n + 1).

Lemma auth_required_witness :
  exists s o, feed_all no_chars no_double counting (Some (fun _ _ => false)) None
    [token "junk"; emit "Q" (pg_put_str (token "SELECT 1"))] [] (new_session 0) = Some (s, o) /\ engine s = 0 /\ started_ s = false.
Proof. apply auth_required. intros u p. reflexivity. Defined.

Lemma query_answered_witness :
  exists ms, (handle_query no_chars counting (token "SELECT 1;UPDATE t SET x=';';") (new_session 0)) =
    Some (new_session 2, frames (ms ++ [("Z"%byte, ["I"%byte])])) /\ Forall (fun m : message => m.1 <> "Z"%byte) ms.
Proof.
  destruct (query_answered no_chars counting [token "SELECT 1"; token "UPDATE t SET x=';'"] (new_session 0) (new_session 2)
    (match handle_query no_chars counting (token "SELECT 1;UPDATE t SET x=';';") (new_session 0) with Some (_, o) => o | None => [] end))
    as (_ & ms & Ho & Hz & _).
  - repeat constructor.
  - vm_compute. reflexivity.
  - exists ms. split; [|exact Hz]. rewrite <- Ho. vm_compute. reflexivity.
Defined.

Definition startup : list byte := pg_put_i32 8 ++ pg_put_i32 196608.

(** A Bind whose value is longer than its message: the source reads past the end. *)
Example bind_reads_past_message :
  feed no_chars no_double counting None None
    (startup ++ emit "P" (pg_put_str (token "s") ++ pg_put_str (token "SELECT $1") ++ pg_put_i16 0) ++
     emit "B" (pg_put_str [] ++ pg_put_str (token "s") ++ pg_put_i16 0 ++ pg_put_i16 1 ++ pg_put_i32 1000)) [] (new_session 0) = None.
Proof. vm_compute. reflexivity. Qed.

(** A length below four is waited on for ever, and every later byte is kept. *)
Lemma short_length_stalls {Q} to_chars parse_double (exec_ : list byte -> Q -> ExecResult * Q) auth_ exec_prepared_ x s :
  started_ s = true -> awaiting_password_ s = false ->
  feed_round to_chars parse_double exec_ auth_ exec_prepared_ (["Q"%byte] ++ pg_put_i32 3 ++ x) s = Wait.
Proof. intros H1 H2. unfold feed_round. rewrite H1, H2. cbn [negb andb]. unfold regular_round. cbn [app]. by destruct (Zlen _ <? 5). Qed.

(** A statement that writes counts as one that reads once the word is in it. *)
Example insert_is_select : pg_is_select (token "INSERT INTO t VALUES (1) RETURNING id") = true.
Proof. reflexivity. Qed.

Example literal_is_select : pg_is_select (token "DELETE FROM log WHERE msg = 'not returning home'") = true.
Proof. reflexivity. Qed.

(** An empty text bound to an integer parameter is the number zero. *)
Example empty_text_is_zero : pg_typed_datum no_double 23 [] = make_int 0.
Proof. reflexivity. Qed.
