(* ===== verification/PgRaft.v ===== *)
(** PgRaft: the PostgreSQL listener whose writes go through Raft
    (prod/ProdPgRaftServer.hpp), and the SQL state machine the daemon puts under it
    (cli/lockstepd.cpp).

    A connection is its buffer and its state; the sockets are the bytes that arrive and the
    bytes sent.  What the callbacks act on (the Raft node, the SQL engine, the stash of
    results) is a world [W].  SCRAM authentication, behind a build flag, is not modelled: a
    connection is trusted or sends a clear password.  [None] is a read past a message, as in
    [PgWire]. *)

From Stdlib Require Import ZArith Lia Strings.Byte.
From stdpp Require Import base list numbers strings relations.
From S2P Require Import Prelude Mvcc Txn Consensus RaftProtocol RaftNode RaftCluster Replica SqlKeys SqlText Server PgWire.
#[local] Open Scope Z_scope.

(** ** Statements *)

Definition is_write (sql : list byte) : bool := negb (pg_is_select sql).

(** Blanks, semicolons and NULs. *)
Definition is_blank_query (s : list byte) : bool := forallb (fun c => is_ws c || Byte.eqb c ";" || Byte.eqb c Byte.x00) s.

Record portal := mkPort { po_sql : list byte; po_cached : option ExecResult }.

(** A write that waits for its commit: its index, its text and whether the pump owes a
    ReadyForQuery. *)
Record waiting := mkWaiting { w_index : Z; w_sql : list byte; w_ready : bool }.

Record Conn := mkConn {
  c_started : bool;
  c_awaiting : bool;
  c_user : list byte;
  c_role : Z;
  c_pending : option waiting;
  c_stmts : list (list byte * list byte);
  c_portals : list (list byte * portal);
  c_types : list (list byte * list Z)
}.

Definition new_conn : Conn := mkConn false false [] 1 None [] [] [].

Section listener.
Context {W : Type} (to_chars : Z -> list byte).
Context (submit_ : list byte -> W -> SubmitResult * W) (exec_ : list byte -> W -> ExecResult * W).
Context (applied_ : W -> Z) (result_ : Z -> W -> option ExecResult) (is_leader_ : W -> bool).
Context (auth_ : option (list byte -> list byte -> Z)).

Definition ready_if (b : bool) : list byte := if b then pg_ready_for_query else [].

(** [reply_read] *)
Definition reply_of (sql : list byte) (r : ExecResult) (include_row_desc add_ready : bool) : list byte :=
  (if negb (r_ok r) then pg_error_response_code (token "42000") (r_error r)
   else
     let is_sel := pg_is_select sql || match r_rows r with [] => false | _ => true end in
     (if include_row_desc then pg_row_description (pg_cols_of r) else []) ++ pg_rows to_chars r ++
     pg_command_complete (pg_command_tag sql r is_sel)) ++ ready_if add_ready.

Definition read_only (user : list byte) : list byte :=
  pg_error_response_code (token "42501") (token "permission denied: user " ++ ["034"%byte] ++ user ++ ["034"%byte] ++ token " is read-only").

(** A long dash, as the source writes it. *)
Definition dash : list byte := [Byte.xe2; Byte.x80; Byte.x94].

Definition follower_refuses : list byte :=
  pg_error_response_code (token "25006") (token "cannot execute a write on a follower " ++ dash ++ token " reconnect to the leader").

Definition not_leader : list byte :=
  pg_error_response_code (token "25006") (token "not the leader " ++ dash ++ token " reconnect to the leader").

Definition defer_write (c : Conn) (sql : list byte) (add_ready : bool) (w : W) : Conn * W * list byte :=
  if c_role c <? 1 then (c, w, read_only (c_user c) ++ ready_if add_ready)
  else if negb (is_leader_ w) then (c, w, follower_refuses ++ ready_if add_ready)
  else
    let '(sr, w) := submit_ sql w in
    if negb (sr_accepted sr) then (c, w, not_leader ++ ready_if add_ready)
    else ({| c with c_pending := Some (mkWaiting (sr_index sr) sql add_ready) |}, w, []).

Definition handle_query (c : Conn) (sql : list byte) (w : W) : Conn * W * list byte :=
  if is_blank_query sql then (c, w, emit "I" [] ++ pg_ready_for_query)
  else if is_write sql then defer_write c sql true w
  else let '(r, w) := exec_ sql w in (c, w, reply_of sql r true true).

(** ** Prepared statements *)

Definition ext_parse (c : Conn) (p : list byte) : Conn * list byte :=
  let '(name, p) := read_cstring p in
  let '(query, p) := read_cstring p in
  ({| c with c_stmts := map_set name query (c_stmts c); c_types := map_set name (counted pg_get_i32 4 p).1 (c_types c) |}, pg_parse_complete).

Definition ext_bind (c : Conn) (p : list byte) : option (Conn * list byte) :=
  let '(name, p) := read_cstring p in
  let '(stmt, p) := read_cstring p in
  let '(fmts, p) := counted pg_get_i16 2 p in
  let bound := if Nat.leb 2 (length p) then bind_values to_chars fmts (assoc stmt (c_types c)) (Z.to_nat (pg_get_i16 p)) 0 (drop 2 p) else Bound [] p in
  match bound with
  | Undefined => None
  | Undecodable => Some (c, pg_error_response_code (token "0A000") (token "binary parameter format is not supported for this type"))
  | Bound vs p =>
      if existsb (fun f => f =? 1) (counted pg_get_i16 2 p).1 then
        Some (c, pg_error_response_code (token "0A000") (token "binary result format is not supported"))
      else
        let sql := match assoc stmt (c_stmts c) with Some q => pg_substitute_params q (map literal_value vs) | None => [] end in
        Some ({| c with c_portals := map_set name (mkPort sql None) (c_portals c) |}, pg_bind_complete)
  end.

Definition ext_describe (c : Conn) (p : list byte) (w : W) : Conn * W * list byte :=
  match p with
  | [] => (c, w, [])
  | what :: p =>
      let name := (read_cstring p).1 in
      if Byte.eqb what "S" then
        (c, w, pg_parameter_description (match assoc name (c_stmts c) with Some q => count_params q | None => 0 end) ++ pg_no_data)
      else
        match assoc name (c_portals c) with
        | None => (c, w, pg_no_data)
        | Some po =>
            if is_write (po_sql po) then (c, w, pg_no_data)
            else
              let '(r, w) := exec_ (po_sql po) w in
              let is_sel := pg_is_select (po_sql po) || match r_rows r with [] => false | _ => true end in
              ({| c with c_portals := map_set name (mkPort (po_sql po) (Some r)) (c_portals c) |}, w,
               if r_ok r && is_sel then pg_row_description (pg_cols_of r) else pg_no_data)
        end
  end.

Definition ext_execute (c : Conn) (p : list byte) (w : W) : Conn * W * list byte :=
  let name := (read_cstring p).1 in
  match assoc name (c_portals c) with
  | None => (c, w, pg_error_response (token "unknown portal"))
  | Some po =>
      let c := {| c with c_portals := map_set name (mkPort (po_sql po) None) (c_portals c) |} in
      if is_write (po_sql po) then defer_write c (po_sql po) false w
      else
        match po_cached po with
        | Some r => (c, w, reply_of (po_sql po) r false false)
        | None => let '(r, w) := exec_ (po_sql po) w in (c, w, reply_of (po_sql po) r true false)
        end
  end.

Definition ext_close (c : Conn) (p : list byte) : Conn * list byte :=
  match p with
  | [] => (c, pg_close_complete)
  | what :: p =>
      let name := (read_cstring p).1 in
      (if Byte.eqb what "S" then {| c with c_stmts := map_erase name (c_stmts c) |}
       else {| c with c_portals := map_erase name (c_portals c) |}, pg_close_complete)
  end.

(** ** The stream of one connection *)

Definition accept : list byte :=
  pg_auth_ok ++ pg_parameter_status (token "server_version") (token "14.0 (lockstep-raft)") ++ pg_ready_for_query.

(** What a round does: wait for bytes or for the pending write, close, or go on. *)
Inductive turn := Idle | Close (w : W) (out : list byte) | More (buf : list byte) (c : Conn) (w : W) (out : list byte) | Past.

Definition message (type : byte) (p : list byte) (c : Conn) (w : W) : option (Conn * W * list byte) :=
  let pure (r : Conn * list byte) := Some (r.1, w, r.2) in
  if Byte.eqb type "Q" then Some (handle_query c (removelast p) w)
  else if Byte.eqb type "P" then pure (ext_parse c p)
  else if Byte.eqb type "B" then match ext_bind c p with None => None | Some r => pure r end
  else if Byte.eqb type "D" then Some (ext_describe c p w)
  else if Byte.eqb type "E" then Some (ext_execute c p w)
  else if Byte.eqb type "C" then pure (ext_close c p)
  else if Byte.eqb type "S" then Some (c, w, pg_ready_for_query)
  else if Byte.eqb type "H" then Some (c, w, [])
  else Some (c, w, pg_error_response (token "unsupported message type") ++ pg_ready_for_query).

(** Without an authenticator every password is good. *)
Definition level (user pw : list byte) : Z := match auth_ with Some check => check user pw | None => 1 end.

Definition password_turn (buf : list byte) (c : Conn) (w : W) : turn :=
  match buf with
  | [] => Idle
  | type :: _ =>
      if Zlen buf <? 5 then Idle
      else
        let plen := pg_get_i32 (drop 1 buf) in
        if (plen <? 4) || (Zlen buf <? 1 + plen) then Idle
        else if negb (Byte.eqb type "p") then Close w []
        else
          let pw := take (Z.to_nat (plen - 5)) (drop 5 buf) in
          let rest := drop (Z.to_nat (1 + plen)) buf in
          let lvl := level (c_user c) pw in
          if lvl <? 0 then Close w (bad_password (c_user c))
          else More rest {| c with c_role := lvl; c_started := true; c_awaiting := false |} w accept
  end.

Definition startup_turn (buf : list byte) (c : Conn) (w : W) : turn :=
  if Zlen buf <? 4 then Idle
  else
    let len := pg_get_i32 buf in
    if (len <? 8) || (Zlen buf <? len) then Idle
    else
      let frame := take (Z.to_nat len) buf in
      let rest := drop (Z.to_nat len) buf in
      if (len =? 8) && (pg_get_i32 (drop 4 frame) =? 80877103) then More rest c w ["N"%byte]
      else
        let c := {| c with c_user := startup_user (length frame) (drop 8 frame) |} in
        match auth_ with
        | Some _ => More rest {| c with c_awaiting := true |} w (emit "R" (pg_put_i32 3))
        | None => More rest {| c with c_started := true |} w accept
        end.

Definition regular_turn (buf : list byte) (c : Conn) (w : W) : turn :=
  match buf with
  | [] => Idle
  | type :: _ =>
      if Zlen buf <? 5 then Idle
      else
        let len := pg_get_i32 (drop 1 buf) in
        if len <? 4 then Close w []
        else if Zlen buf <? 1 + len then Idle
        else if Byte.eqb type "X" then Close w []
        else
          match message type (take (Z.to_nat (len - 4)) (drop 5 buf)) c w with
          | None => Past
          | Some (c, w, o) => More (drop (Z.to_nat (1 + len)) buf) c w o
          end
  end.

Definition conn_turn (buf : list byte) (c : Conn) (w : W) : turn :=
  match c_pending c with
  | Some _ => Idle
  | None =>
      if c_awaiting c then password_turn buf c w
      else if negb (c_started c) then startup_turn buf c w
      else regular_turn buf c w
  end.

(** The connection after [process], if it is still open, the world and the bytes sent. *)
Fixpoint process (fuel : nat) (buf : list byte) (c : Conn) (w : W) : option (option (list byte * Conn) * W * list byte) :=
  match fuel with
  | O => Some (Some (buf, c), w, [])
  | S fuel' =>
      match conn_turn buf c w with
      | Idle => Some (Some (buf, c), w, [])
      | Close w o => Some (None, w, o)
      | More buf c w o => match process fuel' buf c w with None => None | Some (r, w, o') => Some (r, w, o ++ o') end
      | Past => None
      end
  end.

(** [conn_ready]: bytes arrive. *)
Definition conn_ready (input buf : list byte) (c : Conn) (w : W) : option (option (list byte * Conn) * W * list byte) :=
  let buf := buf ++ input in process (S (length buf)) buf c w.

(** The reply to a pending write, once the applied index covers it. *)
Definition completion (p : waiting) (w : W) : list byte :=
  (match result_ (w_index p) w with
   | Some r => if r_ok r then pg_command_complete (pg_command_tag (w_sql p) r false) else pg_error_response_code (token "42000") (r_error r)
   | None => pg_error_response (token "write committed but its result was unavailable")
   end) ++ ready_if (w_ready p).

(** One connection in a turn of [complete_pump]. *)
Definition complete (buf : list byte) (c : Conn) (w : W) : option (option (list byte * Conn) * W * list byte) :=
  match c_pending c with
  | Some p =>
      if w_index p <=? applied_ w then
        match process (S (length buf)) buf {| c with c_pending := None |} w with
        | None => None
        | Some (r, w', o) => Some (r, w', completion p w ++ o)
        end
      else Some (Some (buf, c), w, [])
  | None => Some (Some (buf, c), w, [])
  end.

(** ** What a connection asks of the world *)

Inductive call := Submit (sql : list byte) | Exec (sql : list byte).

Definition run_call (w : W) (k : call) : W := match k with Submit sql => (submit_ sql w).2 | Exec sql => (exec_ sql w).2 end.

(** Who makes a call: the user and its level. *)
Definition login := (list byte * Z)%type.

Definition login_of (c : Conn) : login := (c_user c, c_role c).

(** The level is the one the authenticator gave for some password. *)
Definition entitled (l : login) : Prop :=
  match auth_ with None => l.2 = 1 | Some check => exists pw, check l.1 pw = l.2 /\ 0 <= l.2 end.

(** Reads run locally, everything else is submitted, with level 1. *)
Definition allowed (l : login) (k : call) : Prop :=
  match k with Submit sql => is_write sql = true /\ 1 <= l.2 | Exec sql => is_write sql = false end.

(** The world after some calls of entitled logins. *)
Definition served (ks : list (login * call)) (w w' : W) : Prop :=
  w' = fold_left run_call ks.*2 w /\ Forall (fun k => entitled k.1 /\ allowed k.1 k.2) ks.

(** ** The state of a connection *)

(** A connection that has started is entitled; before that it has its default level. *)
Record well (c : Conn) : Prop := {
  w_started : c_started c = true -> c_awaiting c = false /\ entitled (login_of c);
  w_fresh : c_started c = false -> c_role c = 1 /\ c_pending c = None
}.

(** What the messages of a started connection leave alone. *)
Definition same_login (c c' : Conn) : Prop :=
  c_started c' = c_started c /\ c_awaiting c' = c_awaiting c /\ login_of c' = login_of c.

(** A message of a started connection: at most one call, by its login. *)
Definition proper (c : Conn) (w : W) (r : Conn * W * list byte) : Prop :=
  same_login c r.1.1 /\ exists ks, r.1.2 = fold_left run_call ks w /\ Forall (allowed (login_of c)) ks.

Lemma proper_quiet c c' w o : same_login c c' -> proper c w (c', w, o).
Proof. intros H. split; [done|]. by exists []. Qed.

Lemma proper_exec c c' sql w r w' o : same_login c c' -> is_write sql = false -> exec_ sql w = (r, w') -> proper c w (c', w', o).
Proof. intros H Hs E. split; [done|]. exists [Exec sql]. cbn. rewrite E. split; [done|]. by constructor. Qed.

Lemma proper_defer c0 c sql b w : same_login c0 c -> is_write sql = true -> proper c0 w (defer_write c sql b w).
Proof.
  intros Hl Hs. unfold defer_write. destruct (Z.ltb_spec (c_role c) 1) as [|Hr]; [by apply proper_quiet|].
  destruct (negb (is_leader_ w)); [by apply proper_quiet|]. destruct (submit_ sql w) as [sr w'] eqn:E.
  assert (Hw : w' = fold_left run_call [Submit sql] w) by (cbn; by rewrite E).
  assert (Ha : Forall (allowed (login_of c0)) [Submit sql]).
  { constructor; [|done]. split; [done|]. destruct Hl as (_ & _ & Hl). rewrite <- Hl. done. }
  destruct (negb (sr_accepted sr)); (split; [exact Hl|]; by exists [Submit sql]).
Qed.

Lemma query_proper c sql w : proper c w (handle_query c sql w).
Proof.
  unfold handle_query. destruct (is_blank_query sql); [by apply proper_quiet|]. destruct (is_write sql) eqn:E; [by apply proper_defer|].
  destruct (exec_ sql w) as [r w'] eqn:Ex. by apply (proper_exec _ _ sql w r).
Qed.

Lemma parse_login c p : same_login c (ext_parse c p).1.
Proof. unfold ext_parse. by destruct (read_cstring p) as [a p1], (read_cstring p1). Qed.

Lemma bind_login c p r : ext_bind c p = Some r -> same_login c r.1.
Proof.
  unfold ext_bind. destruct (read_cstring p) as [a p1], (read_cstring p1) as [b p2], (counted pg_get_i16 2 p2) as [fmts p3].
  destruct (if Nat.leb 2 (length p3) then _ else _) as [| |vs p4]; [done|by intros [= <-]|]. destruct (existsb _ _); by intros [= <-].
Qed.

Lemma describe_proper c p w : proper c w (ext_describe c p w).
Proof.
  destruct p as [|what p]; [by apply proper_quiet|]. cbn [ext_describe]. destruct (Byte.eqb what "S"); [by apply proper_quiet|].
  destruct (assoc _ (c_portals c)) as [po|]; [|by apply proper_quiet]. destruct (is_write (po_sql po)) eqn:E; [by apply proper_quiet|].
  destruct (exec_ (po_sql po) w) as [r w'] eqn:Ex. by apply (proper_exec _ _ (po_sql po) w r).
Qed.

Lemma execute_proper c p w : proper c w (ext_execute c p w).
Proof.
  unfold ext_execute. destruct (assoc _ (c_portals c)) as [po|]; [|by apply proper_quiet].
  destruct (is_write (po_sql po)) eqn:E; [by apply proper_defer|]. destruct (po_cached po) as [r|]; [by apply proper_quiet|].
  destruct (exec_ (po_sql po) w) as [r w'] eqn:Ex. by apply (proper_exec _ _ (po_sql po) w r).
Qed.

Lemma close_login c p : same_login c (ext_close c p).1.
Proof. destruct p as [|what p]; [done|]. cbn. by destruct (Byte.eqb what "S"). Qed.

Lemma message_proper type p c w r : message type p c w = Some r -> proper c w r.
Proof.
  unfold message. destruct (Byte.eqb type "Q"); [intros [= <-]; apply query_proper|].
  destruct (Byte.eqb type "P"); [intros [= <-]; apply proper_quiet, parse_login|].
  destruct (Byte.eqb type "B").
  { destruct (ext_bind c p) as [x|] eqn:E; [|done]. intros [= <-]. by apply proper_quiet, (bind_login c p). }
  destruct (Byte.eqb type "D"); [intros [= <-]; apply describe_proper|].
  destruct (Byte.eqb type "E"); [intros [= <-]; apply execute_proper|].
  destruct (Byte.eqb type "C"); [intros [= <-]; apply proper_quiet, close_login|].
  destruct (Byte.eqb type "S"); [intros [= <-]; by apply proper_quiet|].
  destruct (Byte.eqb type "H"); intros [= <-]; by apply proper_quiet.
Qed.

(** ** A turn, and a whole read *)

Lemma well_new : well new_conn.
Proof. by split. Qed.

(** What a turn does to a well-formed connection and to the world. *)
Definition turn_ok (c : Conn) (w : W) (t : turn) : Prop :=
  match t with
  | Close w' _ => w' = w
  | More _ c' w' _ => well c' /\ (c_started c = true -> login_of c' = login_of c /\ c_started c' = true) /\
      exists ks, served ks w w' /\ (c_started c = true -> Forall (fun k => k.1 = login_of c) ks)
  | _ => True
  end.

Lemma turn_quiet c w buf c' o : c_started c = false -> well c' -> turn_ok c w (More buf c' w o).
Proof. intros Hs Hc. split; [done|]. rewrite Hs. split; [done|]. exists []. split; [by split|done]. Qed.

Lemma conn_turn_ok buf c w : well c -> turn_ok c w (conn_turn buf c w).
Proof.
  intros Hc. destruct (Hc) as [Hs Hf]. unfold conn_turn. destruct (c_pending c) as [p|] eqn:Hp; [done|].
  destruct (c_awaiting c) eqn:Ha; [|destruct (c_started c) eqn:Hst; cbn [negb]].
  - assert (Hst : c_started c = false) by (destruct (c_started c); [by destruct (Hs eq_refl)|done]).
    unfold password_turn. destruct buf as [|type buf]; [done|]. repeat (match goal with |- turn_ok _ _ (if ?b then Idle else _) => destruct b; [done|] end).
    destruct (negb _); [done|]. destruct (Z.ltb_spec (level (c_user c) (take (Z.to_nat (pg_get_i32 (drop 1 (type :: buf)) - 5)) (drop 5 (type :: buf)))) 0) as [|Hl]; [done|].
    apply turn_quiet; [done|]. split; [|done]. intros _. split; [done|]. unfold entitled. cbn [login_of fst snd c_user c_role]. unfold level in *.
    destruct auth_; [|done]. eauto.
  - destruct (Hs eq_refl) as [_ He]. unfold regular_turn. destruct buf as [|type buf]; [done|].
    repeat (match goal with |- turn_ok _ _ (if ?b then _ else _) => destruct b; [done|] end).
    destruct (message type _ c w) as [[[c' w'] o]|] eqn:E; [|done]. apply message_proper in E as [(L1 & L2 & L3) (ks & Hw & Hk)]. cbn [fst snd] in *.
    split. { split; [|congruence]. intros _. split; [congruence|]. unfold entitled in *. by rewrite L3. }
    split; [intros _; split; congruence|]. exists (map (pair (login_of c)) ks). split.
    + split; [by rewrite <- list_fmap_compose, list_fmap_id|]. apply Forall_map. eapply Forall_impl; [exact Hk|]. by intros k Hk'.
    + intros _. apply Forall_map. apply Forall_forall. by intros k _.
  - destruct (Hf eq_refl) as [Hr _]. unfold startup_turn. destruct (Zlen buf <? 4); [done|]. destruct (_ || _); [done|].
    destruct (_ && _); [by apply turn_quiet|]. destruct auth_ eqn:Hau; (apply turn_quiet; [done|]); split; cbn; try done.
    + congruence.
    + intros _. split; [done|]. unfold entitled. by rewrite Hau.
Qed.

(** What some turns did: the connection if it is still open, and the calls made. *)
Definition held (c : Conn) (w : W) (r : option (list byte * Conn) * W * list byte) : Prop :=
  (forall buf' c', r.1.1 = Some (buf', c') -> well c') /\
  exists ks, served ks w r.1.2 /\ (c_started c = true -> Forall (fun k => k.1 = login_of c) ks).

Lemma held_quiet c w buf c' o : well c' -> held c w (Some (buf, c'), w, o).
Proof. intros Hc. split; [by intros ? ? [= <- <-]|]. exists []. split; [by split|done]. Qed.

Lemma process_held fuel : forall buf c w r, well c -> process fuel buf c w = Some r -> held c w r.
Proof.
  induction fuel as [|fuel IH]; intros buf c w r Hc; cbn [process]; [intros [= <-]; by apply held_quiet|].
  pose proof (conn_turn_ok buf c w Hc) as Ht. destruct (conn_turn buf c w) as [|w1 o1|buf1 c1 w1 o1|]; cbn in Ht; [intros [= <-]; by apply held_quiet| | |done].
  { subst w1. intros [= <-]. split; [done|]. exists []. split; [by split|done]. }
  destruct (process fuel buf1 c1 w1) as [[[r1 w2] o2]|] eqn:E; [|done]. intros [= <-].
  destruct Ht as (Hc1 & Hl & ks & [Hw Hk] & Hf). destruct (IH _ _ _ _ Hc1 E) as (H1 & ks' & [Hw' Hk'] & Hf'). cbn [fst snd] in *.
  split; [exact H1|]. exists (ks ++ ks'). split.
  { split; [by rewrite fmap_app, fold_left_app, <- Hw|by apply Forall_app]. }
  intros Hs. destruct (Hl Hs) as [L1 L2]. apply Forall_app. split; [by apply Hf|]. rewrite <- L1. by apply Hf'.
Qed.

(** Every turn takes bytes from the buffer: the fuel of [conn_ready] is enough to leave nothing
    to do. *)
Lemma turn_shrinks buf c w buf' c' w' o : conn_turn buf c w = More buf' c' w' o -> (length buf' < length buf)%nat.
Proof.
  clear applied_ result_. unfold conn_turn, password_turn, startup_turn, regular_turn, Zlen. destruct (c_pending c); [done|].
  destruct (c_awaiting c); [|destruct (c_started c); cbn [negb]].
  - destruct buf as [|ty buf]; [done|]. destruct (Z.ltb_spec (Z.of_nat (length (ty :: buf))) 5); [done|].
    set (n := pg_get_i32 _). destruct (Z.ltb_spec n 4), (Z.ltb_spec (Z.of_nat (length (ty :: buf))) (1 + n)); cbn [orb]; try done.
    destruct (negb _); [done|]. destruct (_ <? 0); [done|]. intros [= <- _ _ _]. rewrite length_drop. lia.
  - destruct buf as [|ty buf]; [done|]. destruct (Z.ltb_spec (Z.of_nat (length (ty :: buf))) 5); [done|].
    set (n := pg_get_i32 _). destruct (Z.ltb_spec n 4), (Z.ltb_spec (Z.of_nat (length (ty :: buf))) (1 + n)); try done.
    destruct (Byte.eqb ty "X"); [done|]. destruct (message ty _ c w) as [[[c1 w1] o1]|]; [|done]. intros [= <- _ _ _]. rewrite length_drop. lia.
  - destruct (Z.ltb_spec (Z.of_nat (length buf)) 4); [done|]. set (n := pg_get_i32 buf).
    destruct (Z.ltb_spec n 8), (Z.ltb_spec (Z.of_nat (length buf)) n); cbn [orb]; try done.
    destruct (_ && _); [|destruct auth_]; intros [= <- _ _ _]; rewrite length_drop; lia.
Qed.

Lemma process_drains fuel : forall buf c w buf' c' w' o, (length buf < fuel)%nat ->
  process fuel buf c w = Some (Some (buf', c'), w', o) -> conn_turn buf' c' w' = Idle.
Proof.
  clear applied_ result_. induction fuel as [|fuel IH]; intros buf c w buf' c' w' o Hf; [lia|]. cbn [process].
  destruct (conn_turn buf c w) as [| |buf1 c1 w1 o1|] eqn:E; [by intros [= <- <- <- _]|done| |done].
  apply turn_shrinks in E. destruct (process fuel buf1 c1 w1) as [[[r1 w2] o2]|] eqn:E2; [|done].
  intros [= -> -> _]. eapply IH; [|exact E2]. lia.
Qed.

(** Bytes arrive, or the pump looks at the connection. *)
Inductive stimulus := Arrive (input : list byte) | Pump.

Definition happens (e : stimulus) (buf : list byte) (c : Conn) (w : W) : option (option (list byte * Conn) * W * list byte) :=
  match e with Arrive input => conn_ready input buf c w | Pump => complete buf c w end.

Lemma happens_held e buf c w r : well c -> happens e buf c w = Some r -> held c w r.
Proof.
  intros Hc. destruct e as [input|]; [by apply process_held|]. cbn. unfold complete.
  destruct (c_pending c) as [p|]; [|intros [= <-]; by apply held_quiet]. destruct (w_index p <=? applied_ w); [|intros [= <-]; by apply held_quiet].
  destruct (process _ buf _ w) as [[[r1 w1] o1]|] eqn:E; [|done]. intros [= <-].
  apply (process_held _ _ {| c with c_pending := None |}) in E; [exact E|]. destruct Hc as [H1 H2]. split; [exact H1|]. cbn. intros H. by destruct (H2 H).
Qed.

(** The connections a client can bring about, while the world moves in any way between the
    events. *)
Inductive live : list byte -> Conn -> Prop :=
| live_new : live [] new_conn
| live_event e buf c w buf' c' w' o : live buf c -> happens e buf c w = Some (Some (buf', c'), w', o) -> live buf' c'.

Lemma live_well buf c : live buf c -> well c.
Proof. induction 1 as [|e buf c w buf' c' w' o _ IH He]; [apply well_new|]. destruct (happens_held e buf c w _ IH He) as [H _]. by eapply H. Qed.
End listener.

(** ** Properties *)



(** ** The SQL machine *)

(** The results of the statements applied, by index; at most 4096 are kept. *)
Fixpoint stash_set (k : Z) (r : ExecResult) (m : list (Z * ExecResult)) : list (Z * ExecResult) :=
  match m with
  | [] => [(k, r)]
  | (k', r') :: m' => if k <? k' then (k, r) :: m else if k =? k' then (k, r) :: m' else (k', r') :: stash_set k r m'
  end.

Fixpoint stash_find (k : Z) (m : list (Z * ExecResult)) : option ExecResult :=
  match m with [] => None | (k', r) :: m' => if k =? k' then Some r else stash_find k m' end.

(** The daemon's authenticator: a user that may write and, if named, one that may only read. *)
Definition pg_auth_fn (rw_u rw_p ro_u ro_p u p : list byte) : Z :=
  if key_eqb u rw_u && key_eqb p rw_p then 1
  else if negb (key_eqb ro_u []) && key_eqb u ro_u && key_eqb p ro_p then 0 else -1.

Section sql.
Context {E : Type} (exec : list byte -> E -> ExecResult * E) (blank : E).

(** The function the daemon hands to the pump. *)
Definition sql_apply (idx : Z) (v : list byte) (m : E * list (Z * ExecResult)) : E * list (Z * ExecResult) :=
  let '(r, e) := exec v m.1 in
  let st := stash_set idx r m.2 in
  (e, if 4096 <? Zlen st then tail st else st).

(** The engine after some statements, and their results. *)
Definition sql_run (cmds : list (list byte)) : E * list ExecResult :=
  fold_left (fun m v => let '(r, e) := exec v m.1 in (e, m.2 ++ [r])) cmds (blank, []).

Fixpoint numbered (k : Z) (rs : list ExecResult) : list (Z * ExecResult) :=
  match rs with [] => [] | r :: rs' => (k, r) :: numbered (k + 1) rs' end.

Lemma numbered_length rs : forall k, length (numbered k rs) = length rs.
Proof. induction rs as [|r rs IH]; intros k; [done|]. cbn. by rewrite IH. Qed.

Lemma numbered_drop rs : forall d k, drop d (numbered k rs) = numbered (k + Z.of_nat d) (drop d rs).
Proof.
  induction rs as [|r rs IH]; intros [|d] k; cbn [numbered drop]; [done|done|by rewrite Z.add_0_r|].
  rewrite IH. f_equal. lia.
Qed.

Lemma numbered_find rs : forall k i r, rs !! i = Some r -> stash_find (k + Z.of_nat i) (numbered k rs) = Some r.
Proof.
  induction rs as [|x rs IH]; intros k [|i] r H; cbn in *; [done|done|by rewrite Z.add_0_r, Z.eqb_refl|].
  rewrite (proj2 (Z.eqb_neq _ _)) by lia. rewrite <- (IH (k + 1) i r H). f_equal. lia.
Qed.

Lemma numbered_set rs : forall k r, stash_set (k + Z.of_nat (length rs)) r (numbered k rs) = numbered k (rs ++ [r]).
Proof.
  induction rs as [|x rs IH]; intros k r; cbn; [by rewrite Z.add_0_r|].
  rewrite (proj2 (Z.ltb_ge _ _)) by lia. rewrite (proj2 (Z.eqb_neq _ _)) by lia. f_equal. rewrite <- IH. f_equal. lia.
Qed.

Lemma sql_run_snoc cmds v : sql_run (cmds ++ [v]) =
  ((exec v (sql_run cmds).1).2, (sql_run cmds).2 ++ [(exec v (sql_run cmds).1).1]).
Proof. unfold sql_run. rewrite fold_left_app. cbn. by destruct (exec v _). Qed.

Lemma sql_run_length cmds : length (sql_run cmds).2 = length cmds.
Proof. induction cmds as [|v cmds IH] using rev_ind; [done|]. rewrite sql_run_snoc. cbn. by rewrite !length_app, IH. Qed.

(** The machine after some statements: the engine, and the results of the last 4096. *)
Lemma sql_machine cmds :
  machine (replay sql_apply (blank, []) cmds) = ((sql_run cmds).1, drop (length cmds - 4096) (numbered 1 (sql_run cmds).2)).
Proof.
  induction cmds as [|v cmds IH] using rev_ind; [done|]. rewrite replay_snoc, sql_run_snoc. cbn [machine fst snd].
  rewrite replay_applied, IH. unfold sql_apply. cbn [fst snd]. pose proof (sql_run_length cmds) as Hl. destruct (exec v (sql_run cmds).1) as [r e]. cbn [fst snd].
  rewrite !numbered_drop. set (d := (length cmds - 4096)%nat).
  replace (Zlen cmds + 1) with (1 + Z.of_nat d + Z.of_nat (length (drop d (sql_run cmds).2))) by (rewrite length_drop, Hl; unfold Zlen; lia).
  rewrite numbered_set. unfold Zlen. rewrite numbered_length, !length_app, length_drop, Hl. cbn [length].
  replace (drop d (sql_run cmds).2 ++ [r]) with (drop d ((sql_run cmds).2 ++ [r])) by (rewrite drop_app_le by lia; done).
  destruct (Z.ltb_spec 4096 (Z.of_nat (length cmds - d + 1))) as [Hb|Hb]; (f_equal; rewrite <- numbered_drop).
  - replace (length cmds + 1 - 4096)%nat with (d + 1)%nat by lia. rewrite <- numbered_drop, <- drop_drop. by destruct (drop d _).
  - rewrite <- numbered_drop. by replace (length cmds + 1 - 4096)%nat with d by lia.
Qed.

Lemma sql_result cmds k cmd : cmds !! k = Some cmd -> (length cmds < k + 4097)%nat ->
  stash_find (Z.of_nat k + 1) (machine (replay sql_apply (blank, []) cmds)).2 = Some (exec cmd (sql_run (take k cmds)).1).1.
Proof.
  intros Hk Hlen. rewrite sql_machine, numbered_drop. cbn [snd]. pose proof (lookup_lt_Some _ _ _ Hk) as Hlt.
  replace (Z.of_nat k + 1) with (1 + Z.of_nat (length cmds - 4096) + Z.of_nat (k - (length cmds - 4096))) by lia.
  apply numbered_find. rewrite lookup_drop, Nat.add_comm, Nat.sub_add by lia.
  assert (Hmore : forall more cmds, exists rs, (sql_run (cmds ++ more)).2 = (sql_run cmds).2 ++ rs).
  { clear. induction more as [|v more IH] using rev_ind; intros cmds; [exists []; by rewrite !app_nil_r|].
    destruct (IH cmds) as [rs Hrs]. rewrite app_assoc, sql_run_snoc. cbn [snd]. rewrite Hrs, <- app_assoc. by eexists. }
  destruct (Hmore (drop (S k) cmds) (take (S k) cmds)) as [rs Hrs]. rewrite take_drop in Hrs. rewrite Hrs, (take_S_r _ _ _ Hk), sql_run_snoc. cbn [snd].
  rewrite <- app_assoc, lookup_app_r; rewrite sql_run_length, length_take, Nat.min_l by lia; [|done]. by rewrite Nat.sub_diag.
Qed.
End sql.


(** ** Instances *)

(** An engine that keeps the statements it ran. *)
Definition journal (sql : list byte) (e : list (list byte)) : ExecResult * list (list byte) := (mkResult true [] 1 [], e ++ [sql]).

(** The listener on one journal: a statement that is submitted is appended to a second list. *)
Definition ledger := (list (list byte) * list (list byte))%type.

Definition ledger_submit (sql : list byte) (w : ledger) : SubmitResult * ledger :=
  (mkSubmit true 1 (Zlen w.1 + 1) 0, (w.1 ++ [sql], w.2)).

Definition ledger_exec (sql : list byte) (w : ledger) : ExecResult * ledger :=
  let '(r, e) := journal sql w.2 in (r, (w.1, e)).

(** Two users: one may write, the other only read. *)
Definition two_users : list byte -> list byte -> Z := pg_auth_fn (token "rw") (token "pw") (token "ro") (token "pr").

Definition hello (u p : list byte) : list byte :=
  let body := pg_put_i32 196608 ++ pg_put_str (token "user") ++ pg_put_str u ++ [Byte.x00] in
  pg_put_i32 (4 + Zlen body) ++ body ++ emit "p" (pg_put_str p).

Definition ask (sql : list byte) : list byte := emit "Q" (pg_put_str sql).

Definition ledger_ready (input buf : list byte) (c : Conn) (w : ledger) : option (option (list byte * Conn) * ledger * list byte) :=
  conn_ready no_chars ledger_submit ledger_exec (fun _ => true) (Some two_users) input buf c w.


(** A read-only user whose statement has the word RETURNING: it runs on the local engine, does
    not go through Raft and is not refused. *)
Example read_only_writes_locally :
  option_map (fun r => r.1.2) (ledger_ready (hello (token "ro") (token "pr") ++ ask (token "DELETE FROM t RETURNING a")) [] new_conn ([], [])) =
    Some ([], [token "DELETE FROM t RETURNING a"]) /\
  option_map (fun r => r.1.2) (ledger_ready (hello (token "ro") (token "pr") ++ ask (token "DELETE FROM t")) [] new_conn ([], [])) = Some ([], []).
Proof. by vm_compute. Qed.

Definition waiting_conn : Conn := {| new_conn with c_started := true; c_pending := Some (mkWaiting 1 (token "DELETE FROM t") true) |}.

Definition three_rows (k : Z) (w : Z) : option ExecResult := Some (mkResult true [] 3 []).


(** The run of [RaftCluster] in which the entry [B] of the leader of term 1 is lost, carried on
    until that node follows the new leader; then the three pumps take a turn. *)
Definition caught_up : world := default trio_world (execs trio [EvDeliver 0 18 702] trio_world).

Lemma events_run cl es w : rtc (wstep cl) w (default w (execs cl es w)).
Proof. destruct (execs cl es w) as [w'|] eqn:E; [exact (execs_steps cl es w w' E)|apply rtc_refl]. Qed.

Definition sql_pumped (r : replicas) (i : Z) : replicas :=
  mkReplicas (net_world r) (upd (pumps r) i (apply_turn (sql_apply journal) (machines (net_world r) i).1 (pumps r i))).

Definition sql_trio : replicas := fold_left sql_pumped trio (mkReplicas caught_up (fun _ => new_pump ([], []))).

Lemma sql_trio_reached : reached (sql_apply journal) ([], []) trio trio_conf sql_trio.
Proof.
  assert (Hstep : forall r i, In i trio -> rstep (sql_apply journal) ([], []) trio r (sql_pumped r i))
    by (intros r i Hi; exact (R_apply (sql_apply journal) ([], []) trio r i Hi)).
  unfold reached, sql_trio, initial_replicas. etrans; [apply cluster_lift; etrans; [apply trio_runs|]|].
  { apply events_run. }
  cbn [fold_left trio]. eapply rtc_l; [apply (Hstep _ 0); cbn; tauto|]. eapply rtc_l; [apply (Hstep _ 1); cbn; tauto|].
  apply rtc_once, (Hstep _ 2). cbn; tauto.
Qed.


(** A lost write is acknowledged: the leader of term 1 gave index 2 to [B], another leader
    committed [C] there, and once the first node has applied [C] its pump answers the
    client that waits for [B] with success. *)
Example lost_write_acknowledged :
  le_value <$> log_view (machines trio_world 0).1 !! 1%nat = Some [Byte.x42] /\
  applied (pumps sql_trio 0) = 2 /\ (machine (pumps sql_trio 0)).1 = [[Byte.x41]; [Byte.x43]] /\
  completion (fun k m => stash_find k (machine m).2) (mkWaiting 2 [Byte.x42] true) (pumps sql_trio 0) =
    pg_command_complete (pg_command_tag [Byte.x42] (mkResult true [] 1 []) false) ++ pg_ready_for_query.
Proof. by vm_compute. Qed.
