(* ===== verification/RaftWireB.v ===== *)
(** RaftWireB: the messages and durable records of the second Raft implementation
    (consensus/raft_b/RaftNodeB.hpp, namespaces [wire] and [durable]), their round trips, and
    the replay of a record stream.

    The fields of a message are those of [RaftWire.Body]; a frame is the body followed by its
    checksum, with lengths and counts of 64 bits.  A cursor knows its offset, because the
    bound check of a string adds a length from the input to it in 64 bits: where the sum
    wraps, the loop reads past the buffer ([OutOfBounds]). *)

From Stdlib Require Import ZArith Lia.
From stdpp Require Import base list numbers.
From S2P Require Import Prelude Codec Consensus RaftWire Protocol.
#[local] Open Scope Z_scope.

(** ** Writing *)

Definition crc32 (p : list byte) : Z := Wire.crc32 p.

Definition put_u8 (v : Z) : list byte := [bZ v].

Definition put_u64 (v : Z) : list byte := map (fun i => bZ (Z.land (Z.shiftr v (8 * Z.of_nat i)) 0xFF)) (seq 0 8).

Definition put_str (s : list byte) : list byte := put_u64 (Zlen s) ++ s.

Definition put_entry (e : LogEntry) : list byte := put_u64 (le_term e) ++ put_str (le_value e).

Definition put_counted {A} (f : A -> list byte) (l : list A) : list byte := put_u64 (Zlen l) ++ flat_map f l.

(** [Writer::finish] *)
Definition finish (buf : list byte) : list byte := buf ++ Codec.put_u32 (crc32 buf).

(** ** Reading *)

Module Cursor.

(** [at], the bytes after it, [bad], and whether a string was read past the end. *)
Record t := mk { at_ : Z; rest : list byte; bad : bool; past : bool }.

Definition fail (r : t) : t := mk (at_ r) (rest r) true (past r).

(** Past the next [k] bytes. *)
Definition skip (k : nat) (r : t) : t := mk (at_ r + Z.of_nat k) (drop k (rest r)) (bad r) (past r).

Definition u8 (r : t) : Z * t :=
  match rest r with
  | [] => (0, fail r)
  | b :: _ => (Zb b, skip 1 r)
  end.

Definition u64 (r : t) : Z * t :=
  if (length (rest r) <? 8)%nat then (0, fail r)
  else (fold_left (fun v k => Z.lor v (Z.shiftl (byte_at (rest r) k) (8 * Z.of_nat k))) (seq 0 8) 0, skip 8 r).

Definition str (r : t) : list byte * t :=
  let '(len, r) := u64 r in
  if bad r || (at_ r + Zlen (rest r) <? Prelude.u64 (at_ r + len)) then ([], fail r)
  else if Zlen (rest r) <? len then ([], mk (at_ r) (rest r) (bad r) true)
  else (take (Z.to_nat len) (rest r), skip (Z.to_nat len) r).

Definition entry (r : t) : LogEntry * t :=
  let '(term, r) := u64 r in
  let '(value, r) := str r in
  (mkEntry term value, r).

(** A counted loop that stops at the first bad read.  A round reads at least one byte, so the
    bytes left bound the rounds; reading past the buffer ends it too. *)
Fixpoint many {A} (f : t -> A * t) (fuel : nat) (count : Z) (r : t) : list A * t :=
  match fuel with
  | O => ([], r)
  | S fuel' =>
      if (0 <? count) && negb (bad r) && negb (past r) then
        let '(x, r) := f r in
        let '(xs, r) := many f fuel' (count - 1) r in (x :: xs, r)
      else ([], r)
  end.

Definition counted {A} (f : t -> A * t) (r : t) : list A * t :=
  let '(count, r) := u64 r in many f (S (length (rest r))) count r.

End Cursor.

(** ** Messages *)

Record Msg := mkMsgB { mb_term : Z; mb_from : Z; mb_body : Body }.

Definition kind_of (b : Body) : Z :=
  match b with
  | RequestVote _ _ _ => 1
  | RequestVoteResp _ => 2
  | AppendEntries _ _ _ _ => 3
  | AppendEntriesResp _ _ => 4
  | InstallSnapshot _ _ => 5
  | InstallSnapshotResp _ => 6
  | ConfigChange _ _ => 7
  | ConfigChangeResp _ => 8
  end.

Definition put_bool (b : bool) : list byte := put_u8 (if b then 1 else 0).

Definition write_body (b : Body) : list byte :=
  match b with
  | RequestVote i t c => put_u64 i ++ put_u64 t ++ put_u64 c
  | RequestVoteResp g => put_bool g
  | AppendEntries p t c es => put_u64 p ++ put_u64 t ++ put_u64 c ++ put_counted put_entry es
  | AppendEntriesResp s i => put_bool s ++ put_u64 i
  | InstallSnapshot i st => put_u64 i ++ put_counted put_entry st
  | InstallSnapshotResp i => put_u64 i
  | ConfigChange i ms => put_u64 i ++ put_counted put_u64 ms
  | ConfigChangeResp i => put_u64 i
  end.

Definition write_msg (m : Msg) : list byte :=
  put_u8 (kind_of (mb_body m)) ++ put_u64 (mb_term m) ++ put_u64 (mb_from m) ++ write_body (mb_body m).

Definition frame_msg (m : Msg) : list byte := finish (write_msg m).

Definition read_body (kind : Z) (r : Cursor.t) : option (Body * Cursor.t) :=
  if kind =? 1 then
    let '(i, r) := Cursor.u64 r in
    let '(t, r) := Cursor.u64 r in
    let '(c, r) := Cursor.u64 r in Some (RequestVote i t c, r)
  else if kind =? 2 then
    let '(g, r) := Cursor.u8 r in Some (RequestVoteResp (negb (g =? 0)), r)
  else if kind =? 4 then
    let '(s, r) := Cursor.u8 r in
    let '(i, r) := Cursor.u64 r in Some (AppendEntriesResp (negb (s =? 0)) i, r)
  else if kind =? 3 then
    let '(p, r) := Cursor.u64 r in
    let '(t, r) := Cursor.u64 r in
    let '(c, r) := Cursor.u64 r in
    let '(es, r) := Cursor.counted Cursor.entry r in Some (AppendEntries p t c es, r)
  else if kind =? 5 then
    let '(i, r) := Cursor.u64 r in
    let '(st, r) := Cursor.counted Cursor.entry r in Some (InstallSnapshot i st, r)
  else if kind =? 6 then
    let '(i, r) := Cursor.u64 r in Some (InstallSnapshotResp i, r)
  else if kind =? 7 then
    let '(i, r) := Cursor.u64 r in
    let '(ms, r) := Cursor.counted Cursor.u64 r in Some (ConfigChange i ms, r)
  else if kind =? 8 then
    let '(i, r) := Cursor.u64 r in Some (ConfigChangeResp i, r)
  else None.

Inductive decoded := Decoded (m : Msg) | Dropped | OutOfBounds.

Definition decode (payload : list byte) : decoded :=
  if (length payload <? 5)%nat then Dropped
  else
    let body_len := (length payload - 4)%nat in
    let body := take body_len payload in
    if negb (crc32 body =? get_u32 (drop body_len payload)) then Dropped
    else
      let '(kind, r) := Cursor.u8 (Cursor.mk 0 body false false) in
      let '(term, r) := Cursor.u64 r in
      let '(from, r) := Cursor.u64 r in
      match read_body kind r with
      | None => Dropped
      | Some (b, r) => if Cursor.past r then OutOfBounds else if Cursor.bad r then Dropped else Decoded (mkMsgB term from b)
      end.

(** ** Durable records *)

Inductive RecB :=
| BTerm (term : Z) (vote : option Z)
| BTruncate (new_len : Z)
| BEntry (index : Z) (e : LogEntry)
| BSnapshot (last_included_index : Z) (state : list LogEntry)
| BConfig (chain_index : Z) (members : list Z)
| BSnapshotDelta (from_base to_base : Z) (delta : list LogEntry).

Definition frame (body : list byte) : list byte := Codec.put_u32 (u32 (Zlen body)) ++ body ++ Codec.put_u32 (crc32 body).

Definition record_body (r : RecB) : list byte :=
  match r with
  | BTerm t v => put_u8 1 ++ put_u64 t ++ put_bool (match v with Some _ => true | None => false end) ++ put_u64 (default 0 v)
  | BTruncate n => put_u8 2 ++ put_u64 n
  | BEntry i e => put_u8 3 ++ put_u64 i ++ put_entry e
  | BSnapshot i st => put_u8 4 ++ put_u64 i ++ put_counted put_entry st
  | BConfig i ms => put_u8 5 ++ put_u64 i ++ put_counted put_u64 ms
  | BSnapshotDelta f t d => put_u8 6 ++ put_u64 f ++ put_u64 t ++ put_counted put_entry d
  end.

Definition record_bytes (r : RecB) : list byte := frame (record_body r).

(** ** Replay *)

Record Recovered := mkRecovered {
  rv_term : Z;
  rv_vote : option Z;
  rv_base : Z;
  rv_state : list LogEntry;
  rv_log : list LogEntry;
  rv_cfg : list (Z * list Z)
}.

Definition nothing : Recovered := mkRecovered 0 None 0 [] [] [].

(** The suffix above a new base. *)
Definition kept (base : Z) (s : Recovered) : list LogEntry :=
  if base <? rv_base s + Zlen (rv_log s) then drop (Z.to_nat (base - rv_base s)) (rv_log s) else [].

(** One record: the new locals, the end of the valid prefix, or a read past the buffer. *)
Inductive replayed := Goes (s : Recovered) | Stops | Overruns.

Definition checked (r : Cursor.t) (ok : bool) (s : Recovered) : replayed :=
  if Cursor.past r then Overruns else if Cursor.bad r || negb ok then Stops else Goes s.

Definition replay_body (body : list byte) (s : Recovered) : replayed :=
  let '(k, r) := Cursor.u8 (Cursor.mk 0 body false false) in
  if k =? 1 then
    let '(t, r) := Cursor.u64 r in
    let '(hv, r) := Cursor.u8 r in
    let '(v, r) := Cursor.u64 r in
    checked r true {| s with rv_term := t; rv_vote := if hv =? 0 then None else Some v |}
  else if k =? 2 then
    let '(nl, r) := Cursor.u64 r in
    checked r (negb ((rv_base s + Zlen (rv_log s) <? nl) || (nl <? rv_base s)))
      {| s with rv_log := take (Z.to_nat (nl - rv_base s)) (rv_log s) |}
  else if k =? 3 then
    let '(idx, r) := Cursor.u64 r in
    let '(e, r) := Cursor.entry r in
    checked r (idx =? rv_base s + Zlen (rv_log s) + 1) {| s with rv_log := rv_log s ++ [e] |}
  else if k =? 4 then
    let '(lii, r) := Cursor.u64 r in
    let '(st, r) := Cursor.counted Cursor.entry r in
    checked r (negb ((lii <? rv_base s) || negb (Zlen st =? lii))) {| s with rv_base := lii; rv_state := st; rv_log := kept lii s |}
  else if k =? 6 then
    let '(f, r) := Cursor.u64 r in
    let '(t, r) := Cursor.u64 r in
    let '(count, r) := Cursor.u64 r in
    if Cursor.bad r || negb (f =? rv_base s) || (t <? f) || negb (count =? t - f) then Stops
    else
      let '(add, r) := Cursor.many Cursor.entry (S (length (Cursor.rest r))) count r in
      checked r true {| s with rv_base := t; rv_state := rv_state s ++ add; rv_log := kept t s |}
  else if k =? 5 then
    let '(cidx, r) := Cursor.u64 r in
    let '(ms, r) := Cursor.counted Cursor.u64 r in
    checked r true {| s with rv_cfg := rv_cfg s ++ [(cidx, ms)] |}
  else Stops.

(** Each turn passes a whole frame, so the length of the image bounds the turns. *)
Fixpoint replay (fuel : nat) (img : list byte) (s : Recovered) : option Recovered :=
  match fuel with
  | O => Some s
  | S fuel' =>
      if (length img <? 4)%nat then Some s
      else
        let blen := Z.to_nat (get_u32 img) in
        if (length img <? 4 + blen + 4)%nat then Some s
        else
          let body := take blen (drop 4 img) in
          if (blen =? 0)%nat || negb (crc32 body =? get_u32 (drop (4 + blen) img)) then Some s
          else match replay_body body s with
               | Goes s => replay fuel' (drop (4 + blen + 4) img) s
               | Stops => Some s
               | Overruns => None
               end
  end.

(** ** Reading back *)

Definition word (z : Z) : Prop := 0 <= z < 2 ^ 64.
Definition entry_ok (e : LogEntry) : Prop := word (le_term e) /\ Zlen (le_value e) < 2 ^ 62.

Lemma put_u64_same v : put_u64 v = Codec.put_u64 v.
Proof. done. Qed.

Lemma put_u64_len v : length (put_u64 v) = 8%nat.
Proof. done. Qed.

(** A cursor at an offset no buffer exceeds, with nothing wrong. *)
Definition fresh (a : Z) (p : list byte) : Cursor.t := Cursor.mk a p false false.

(** [f] reads back what [p] puts, from any offset below 2^62. *)
Definition reads_b {A} (f : Cursor.t -> A * Cursor.t) (p : A -> list byte) (P : A -> Prop) : Prop :=
  forall x a rest, P x -> 0 <= a -> a + Zlen (p x ++ rest) < 2 ^ 62 -> f (fresh a (p x ++ rest)) = (x, fresh (a + Zlen (p x)) rest).

Lemma skip_app a p rest : Cursor.skip (length p) (fresh a (p ++ rest)) = fresh (a + Zlen p) rest.
Proof. unfold Cursor.skip. cbn. by rewrite drop_app_length. Qed.

Lemma reads_u64_b : reads_b Cursor.u64 put_u64 word.
Proof.
  intros x a rest Hx Ha Hl. unfold Cursor.u64. cbn [Cursor.rest fresh]. rewrite length_app, put_u64_len.
  rewrite (proj2 (Nat.ltb_ge _ _)) by lia. rewrite <- (skip_app a (put_u64 x) rest). f_equal.
  transitivity (get_u64 (Codec.put_u64 x ++ rest)); [reflexivity|]. by rewrite get_put_u64, u64_id.
Qed.

Lemma reads_bool_b b a rest : Cursor.u8 (fresh a (put_bool b ++ rest)) = (if b then 1 else 0, fresh (a + 1) rest).
Proof. unfold Cursor.u8, put_bool, put_u8. cbn. rewrite Zb_bZ. by destruct b. Qed.

Lemma Zlen_put_u64 x : Zlen (put_u64 x) = 8.
Proof. done. Qed.

Lemma Zlen_put_u8 b : Zlen (put_u8 b) = 1.
Proof. done. Qed.

(** Bounds on the length of a buffer made of parts. *)
Ltac zlen := try done; unfold put_bool in *; rewrite ?Zlen_app, ?Zlen_put_u64, ?Zlen_put_u8 in *; lia.

Lemma reads_str_b : reads_b Cursor.str put_str (fun s => Zlen s < 2 ^ 62).
Proof.
  intros s a rest Hs Ha Hl. unfold Cursor.str, put_str in *. rewrite <- app_assoc in *. pose proof (Zlen_nonneg s). pose proof (Zlen_nonneg rest).
  rewrite !Zlen_app, Zlen_put_u64 in Hl. rewrite reads_u64_b by (unfold word; rewrite ?Zlen_app, ?Zlen_put_u64; lia). cbn [Cursor.bad Cursor.at_ Cursor.rest fresh orb].
  rewrite Zlen_put_u64, u64_id, Zlen_app by lia. rewrite (proj2 (Z.ltb_ge _ _)) by lia. rewrite (proj2 (Z.ltb_ge _ _)) by lia.
  unfold Zlen at 1 2. rewrite Nat2Z.id, take_app_length. f_equal. change (Cursor.mk (a + 8) (s ++ rest) false false) with (fresh (a + 8) (s ++ rest)).
  rewrite skip_app, Zlen_app, Zlen_put_u64. f_equal. lia.
Qed.

Lemma reads_entry_b : reads_b Cursor.entry put_entry entry_ok.
Proof.
  intros [t v] a rest [Ht Hv] Ha Hl. unfold Cursor.entry, put_entry in *. cbn [le_term le_value] in *. rewrite <- app_assoc in *.
  pose proof (Zlen_nonneg (put_str v ++ rest)). rewrite Zlen_app, Zlen_put_u64 in Hl.
  rewrite reads_u64_b by zlen. rewrite reads_str_b by zlen.
  rewrite Zlen_app, Zlen_put_u64. do 2 f_equal. lia.
Qed.

Lemma reads_many_b {A} f (p : A -> list byte) P l : reads_b f p P -> (forall x, 0 < length (p x))%nat -> Forall P l ->
  forall fuel a rest, (length l < fuel)%nat -> 0 <= a -> a + Zlen (flat_map p l ++ rest) < 2 ^ 62 ->
  Cursor.many f fuel (Zlen l) (fresh a (flat_map p l ++ rest)) = (l, fresh (a + Zlen (flat_map p l)) rest).
Proof.
  intros Hf Hp. induction 1 as [|x l Hx _ IH]; intros [|fuel] a rest Hfu Ha Hl; try (cbn in Hfu; lia); cbn [flat_map] in *.
  { cbn. by rewrite Z.add_0_r. }
  rewrite <- app_assoc in *. rewrite Zlen_app in Hl. pose proof (Zlen_nonneg (p x)). cbn [Cursor.many].
  assert (Hz : Zlen (x :: l) = Zlen l + 1) by (unfold Zlen; cbn; lia). rewrite Hz. pose proof (Zlen_nonneg l).
  rewrite (proj2 (Z.ltb_lt _ _)) by lia. cbn [Cursor.bad Cursor.past fresh negb andb].
  change (Cursor.mk a (p x ++ flat_map p l ++ rest) false false) with (fresh a (p x ++ flat_map p l ++ rest)).
  rewrite Hf by zlen. replace (Zlen l + 1 - 1) with (Zlen l) by lia. cbn in Hfu.
  rewrite IH by (lia || zlen). rewrite Zlen_app. do 2 f_equal. lia.
Qed.

Lemma reads_counted_b {A} f (p : A -> list byte) P : reads_b f p P -> (forall x, 0 < length (p x))%nat ->
  reads_b (Cursor.counted f) (put_counted p) (Forall P).
Proof.
  intros Hf Hp l a rest Hl Ha Hs. unfold Cursor.counted, put_counted in *. rewrite <- app_assoc in *. rewrite Zlen_app, Zlen_put_u64 in Hs.
  pose proof (length_flat_map p l Hp) as Hc. pose proof (Zlen_nonneg (flat_map p l ++ rest)).
  rewrite reads_u64_b.
  - cbn [Cursor.rest fresh]. rewrite Zlen_put_u64. change (Cursor.mk (a + 8) (flat_map p l ++ rest) false false) with (fresh (a + 8) (flat_map p l ++ rest)).
    rewrite (reads_many_b f p P) by (done || rewrite ?length_app; lia). rewrite Zlen_app, Zlen_put_u64. do 2 f_equal. lia.
  - unfold word. rewrite Zlen_app in *. pose proof (Zlen_nonneg rest). unfold Zlen in *. lia.
  - done.
  - rewrite Zlen_app, Zlen_put_u64. lia.
Qed.

Lemma entry_bytes_b e : (0 < length (put_entry e))%nat.
Proof. unfold put_entry. rewrite length_app, put_u64_len. lia. Qed.

Lemma u64_bytes_b z : (0 < length (put_u64 z))%nat.
Proof. rewrite put_u64_len. lia. Qed.

Definition body_ok (b : Body) : Prop :=
  match b with
  | RequestVote i t c => word i /\ word t /\ word c
  | RequestVoteResp _ => True
  | AppendEntries p t c es => word p /\ word t /\ word c /\ Forall entry_ok es
  | AppendEntriesResp _ i => word i
  | InstallSnapshot i st => word i /\ Forall entry_ok st
  | InstallSnapshotResp i => word i
  | ConfigChange i ms => word i /\ Forall word ms
  | ConfigChangeResp i => word i
  end.

Definition msg_ok (m : Msg) : Prop :=
  word (mb_term m) /\ word (mb_from m) /\ body_ok (mb_body m) /\ Zlen (write_msg m) < 2 ^ 62.

Lemma reads_entries_b : reads_b (Cursor.counted Cursor.entry) (put_counted put_entry) (Forall entry_ok).
Proof. apply reads_counted_b; [apply reads_entry_b|apply entry_bytes_b]. Qed.

Lemma reads_words_b : reads_b (Cursor.counted Cursor.u64) (put_counted put_u64) (Forall word).
Proof. apply reads_counted_b; [apply reads_u64_b|apply u64_bytes_b]. Qed.

Lemma read_body_back b a : body_ok b -> 0 <= a -> a + Zlen (write_body b) < 2 ^ 62 ->
  exists a', read_body (kind_of b) (fresh a (write_body b)) = Some (b, fresh a' []).
Proof.
  intros Hb Ha Hl. rewrite <- (app_nil_r (write_body b)) in Hl |- *.
  destruct b as [i t c|g|p t c es|s i|i st|i|i ms|i]; cbn [body_ok write_body kind_of] in *; unfold read_body; cbn [Z.eqb Pos.eqb]; rewrite <- ?app_assoc in *.
  - destruct Hb as (H1 & H2 & H3). rewrite !reads_u64_b by zlen. by eexists.
  - rewrite reads_bool_b. destruct g; by eexists.
  - destruct Hb as (H1 & H2 & H3 & H4). rewrite !reads_u64_b by zlen. rewrite reads_entries_b by zlen. by eexists.
  - rewrite reads_bool_b, reads_u64_b by zlen. destruct s; by eexists.
  - destruct Hb as (H1 & H2). rewrite !reads_u64_b by zlen. rewrite reads_entries_b by zlen. by eexists.
  - rewrite reads_u64_b by zlen. by eexists.
  - destruct Hb as (H1 & H2). rewrite !reads_u64_b by zlen. rewrite reads_words_b by zlen. by eexists.
  - rewrite reads_u64_b by zlen. by eexists.
Qed.

Lemma read_kind k a rest : 0 <= k < 256 -> Cursor.u8 (fresh a (put_u8 k ++ rest)) = (k, fresh (a + 1) rest).
Proof. intros Hk. unfold Cursor.u8, put_u8. cbn. rewrite Zb_bZ, Z.mod_small by done. done. Qed.

Lemma kind_small b : 0 <= kind_of b < 256.
Proof. destruct b; cbn; lia. Qed.

(** The checksum of a finished frame holds. *)
Lemma finish_open body : let payload := finish body in
  length payload = (length body + 4)%nat /\ take (length payload - 4) payload = body /\ get_u32 (drop (length payload - 4) payload) = crc32 body.
Proof.
  cbn zeta. unfold finish. rewrite length_app, length_put_u32. split; [done|]. replace (length body + 4 - 4)%nat with (length body) by lia.
  rewrite take_app_length, drop_app_length, get_put_u32_nil. split; [done|]. apply u32_id. apply crc32_word.
Qed.

Lemma decode_back m : msg_ok m -> decode (frame_msg m) = Decoded m.
Proof.
  destruct m as [t f b]. intros (Ht & Hf & Hb & Hl). unfold decode, frame_msg. destruct (finish_open (write_msg (mkMsgB t f b))) as (L & T & G).
  rewrite T, G, Z.eqb_refl, L. cbn [negb]. rewrite (proj2 (Nat.ltb_ge _ _)) by (unfold write_msg; rewrite length_app; cbn; lia).
  unfold write_msg in *. cbn [mb_term mb_from mb_body] in *. rewrite Zlen_app in Hl. change (Zlen (put_u8 (kind_of b))) with 1 in Hl.
  change (Cursor.mk 0 ?p false false) with (fresh 0 p). rewrite read_kind by apply kind_small. rewrite !reads_u64_b by zlen.
  destruct (read_body_back b (0 + 1 + Zlen (put_u64 t) + Zlen (put_u64 f))) as [a' ->]; [done|zlen|zlen|]. done.
Qed.

(** The second implementation's frames are read back and damage is dropped.  A node decodes
    exactly the message its peer encoded, and a frame that was altered within four
    consecutive bytes, the checksum included, never reaches a handler. *)
Theorem raftb_frames m : msg_ok m ->
  decode (frame_msg m) = Decoded m /\
  forall p w v q, frame_msg m = p ++ w ++ q -> length w = length v -> (length w <= 4)%nat -> w <> v -> decode (p ++ v ++ q) = Dropped.
Proof.
  intros Hm. split; [by apply decode_back|]. intros p w v q Hf Hl H4 Hne.
  assert (Ho : open_crc (p ++ v ++ q) = None) by (by apply (damaged_closed (write_msg m) p w v q)).
  unfold decode. destruct (length (p ++ v ++ q) <? 5)%nat eqn:E; [done|]. unfold open_crc in Ho.
  rewrite (proj2 (Nat.ltb_ge _ _)) in Ho by (apply Nat.ltb_ge in E; lia). cbn zeta in Ho. unfold crc32.
  by destruct (Wire.crc32 _ =? _).
Qed.

(** ** The record stream *)

(** The effect of a record, [None] where replay stops. *)
Definition apply_record (r : RecB) (s : Recovered) : option Recovered :=
  match r with
  | BTerm t v => Some {| s with rv_term := t; rv_vote := v |}
  | BTruncate n =>
      if (rv_base s + Zlen (rv_log s) <? n) || (n <? rv_base s) then None
      else Some {| s with rv_log := take (Z.to_nat (n - rv_base s)) (rv_log s) |}
  | BEntry i e =>
      if i =? rv_base s + Zlen (rv_log s) + 1 then Some {| s with rv_log := rv_log s ++ [e] |} else None
  | BSnapshot i st =>
      if (i <? rv_base s) || negb (Zlen st =? i) then None
      else Some {| s with rv_base := i; rv_state := st; rv_log := kept i s |}
  | BConfig i ms => Some {| s with rv_cfg := rv_cfg s ++ [(i, ms)] |}
  | BSnapshotDelta f t d =>
      if negb (f =? rv_base s) || (t <? f) || negb (Zlen d =? t - f) then None
      else Some {| s with rv_base := t; rv_state := rv_state s ++ d; rv_log := kept t s |}
  end.

Fixpoint apply_records (rs : list RecB) (s : Recovered) : option Recovered :=
  match rs with
  | [] => Some s
  | r :: rs' => s' ← apply_record r s; apply_records rs' s'
  end.

Definition rec_ok (r : RecB) : Prop :=
  Zlen (record_body r) < 2 ^ 32 /\
  match r with
  | BTerm t v => word t /\ word (default 0 v)
  | BTruncate n => word n
  | BEntry i e => word i /\ entry_ok e
  | BSnapshot i st => word i /\ Forall entry_ok st
  | BConfig i ms => word i /\ Forall word ms
  | BSnapshotDelta f t d => word f /\ word t /\ Forall entry_ok d
  end.

Definition stream (rs : list RecB) : list byte := flat_map record_bytes rs.

Definition outcome_of (o : option Recovered) : replayed := match o with Some s => Goes s | None => Stops end.

Lemma checked_fresh a ok s : checked (fresh a []) ok s = outcome_of (if ok then Some s else None).
Proof. unfold checked. cbn. by destruct ok. Qed.

Lemma replay_body_back r s : rec_ok r -> replay_body (record_body r) s = outcome_of (apply_record r s).
Proof.
  intros [Hl Hr]. rewrite <- (app_nil_r (record_body r)) in Hl |- *. unfold replay_body. change (Cursor.mk 0 ?p false false) with (fresh 0 p).
  destruct r as [t v|nl|i e|i st|i ms|f t d]; cbn [record_body] in *; rewrite <- ?app_assoc in *; rewrite read_kind by lia; cbn [Z.eqb Pos.eqb apply_record].
  - destruct Hr as [Ht Hv]. rewrite reads_u64_b by zlen. rewrite reads_bool_b. rewrite reads_u64_b by zlen. rewrite checked_fresh. by destruct v.
  - rewrite reads_u64_b by zlen. rewrite checked_fresh. by destruct (_ || _).
  - destruct Hr as [Hi He]. rewrite reads_u64_b by zlen. rewrite reads_entry_b by zlen. rewrite checked_fresh. by destruct (_ =? _).
  - destruct Hr as [Hi He]. rewrite reads_u64_b by zlen. rewrite reads_entries_b by zlen. rewrite checked_fresh. by destruct (_ || _).
  - destruct Hr as [Hi He]. rewrite reads_u64_b by zlen. rewrite reads_words_b by zlen. by rewrite checked_fresh.
  - destruct Hr as (Hf & Ht & Hd). unfold put_counted in *. rewrite <- app_assoc in *. pose proof (length_flat_map put_entry d entry_bytes_b) as Hc.
    assert (Hw : word (Zlen d)) by (unfold word; pose proof (Zlen_nonneg d); rewrite !Zlen_app in Hl; unfold Zlen in *; lia).
    rewrite !reads_u64_b by zlen. cbn [Cursor.bad fresh orb]. destruct (_ || _ || _); [done|].
    change (Cursor.mk ?a ?p false false) with (fresh a p). cbn [Cursor.rest fresh].
    rewrite (reads_many_b Cursor.entry put_entry entry_ok) by (try apply reads_entry_b; try apply entry_bytes_b; rewrite ?length_app; lia || zlen).
    by rewrite checked_fresh.
Qed.

Lemma record_body_nonempty r : (0 < length (record_body r))%nat.
Proof. destruct r; cbn; lia. Qed.

Lemma length_record_bytes r : length (record_bytes r) = (length (record_body r) + 8)%nat.
Proof. unfold record_bytes, frame. rewrite !length_app, !length_put_u32. lia. Qed.

(** One turn of replay over a whole record. *)
Lemma replay_one_b fuel r rest s : rec_ok r ->
  replay (S fuel) (record_bytes r ++ rest) s = match apply_record r s with Some s' => replay fuel rest s' | None => Some s end.
Proof.
  intros Hr. pose proof (record_body_nonempty r) as Hn. cbn [replay]. rewrite length_app, length_record_bytes. rewrite (proj2 (Nat.ltb_ge _ _)) by lia.
  assert (Hb : get_u32 (record_bytes r ++ rest) = Zlen (record_body r)).
  { unfold record_bytes, frame. rewrite <- !app_assoc, get_put_u32. pose proof (Zlen_nonneg (record_body r)). destruct Hr. rewrite !u32_id; rewrite ?u32_id; lia. }
  rewrite Hb. unfold Zlen. rewrite Nat2Z.id. rewrite (proj2 (Nat.ltb_ge _ _)) by lia.
  assert (Hd : drop 4 (record_bytes r ++ rest) = record_body r ++ Codec.put_u32 (crc32 (record_body r)) ++ rest).
  { unfold record_bytes, frame. rewrite <- !app_assoc. by rewrite (drop_put_u32 4 0). }
  rewrite Hd, take_app_length, (proj2 (Nat.eqb_neq _ _)) by lia. cbn [orb].
  rewrite <- drop_drop, Hd, drop_app_length, get_put_u32, u32_id by apply crc32_word. rewrite Z.eqb_refl. cbn [negb].
  rewrite replay_body_back by done. destruct (apply_record r s) as [s'|]; [|done]. cbn [outcome_of].
  rewrite (drop_app_le _ rest) by (rewrite length_record_bytes; lia). rewrite drop_ge by (rewrite length_record_bytes; lia). done.
Qed.

(** A record cut before its end stops replay. *)
Lemma replay_cut fuel r k s : rec_ok r -> (k < length (record_bytes r))%nat -> replay (S fuel) (take k (record_bytes r)) s = Some s.
Proof.
  intros Hr Hk. cbn [replay]. rewrite length_take, Nat.min_l by lia. destruct (Nat.ltb_spec k 4); [done|].
  assert (Hb : get_u32 (take k (record_bytes r)) = Zlen (record_body r)).
  { unfold record_bytes, frame. rewrite take_app_ge by (rewrite length_put_u32; lia). rewrite get_put_u32. pose proof (Zlen_nonneg (record_body r)).
    destruct Hr. rewrite !u32_id; rewrite ?u32_id; lia. }
  rewrite Hb. unfold Zlen. rewrite Nat2Z.id. rewrite length_record_bytes in Hk. rewrite (proj2 (Nat.ltb_lt _ _)) by lia. done.
Qed.

Lemma replay_stream_b rs : forall fuel s s' r k, Forall rec_ok rs -> rec_ok r -> (k < length (record_bytes r))%nat -> (length rs < fuel)%nat ->
  apply_records rs s = Some s' -> replay fuel (stream rs ++ take k (record_bytes r)) s = Some s'.
Proof.
  induction rs as [|x rs IH]; intros [|fuel] s s' r k Hrs Hr Hk Hf Ha; try (cbn in Hf; lia); cbn [stream flat_map apply_records] in *.
  - injection Ha as <-. by apply replay_cut.
  - apply Forall_cons_1 in Hrs as [Hx Hrs]. rewrite <- app_assoc, replay_one_b by done. destruct (apply_record x s) as [s1|]; [|done]. cbn in Ha, Hf.
    apply (IH fuel s1 s' r k); [done..|lia|done].
Qed.

Lemma stream_snoc rs r : stream (rs ++ [r]) = stream rs ++ record_bytes r.
Proof. unfold stream. rewrite flat_map_app. cbn. by rewrite app_nil_r. Qed.

(** Every record has bytes. *)
Lemma stream_count rs : (length rs <= length (stream rs))%nat.
Proof. apply length_flat_map. intros r. rewrite length_record_bytes. lia. Qed.

(** Replay of a stream of whole records. *)
Lemma replay_all rs s : Forall rec_ok rs -> apply_records rs nothing = Some s -> replay (S (length (stream rs))) (stream rs) nothing = Some s.
Proof.
  intros Hrs Ha. rewrite <- (app_nil_r (stream rs)) at 2. change (@nil byte) with (take 0 (record_bytes (BTruncate 0))).
  pose proof (stream_count rs). apply replay_stream_b; [done|split; [done|cbn; unfold word; lia]|rewrite length_record_bytes; lia|lia|done].
Qed.

(** ** Instances *)

Definition sample_msg : Msg := mkMsgB 3 1 (AppendEntries 2 2 1 [mkEntry 3 [Byte.x61]]).

Lemma sample_ok : msg_ok sample_msg.
Proof. repeat split; cbn; unfold word, Zlen; cbn; try lia. repeat constructor; unfold word, Zlen; cbn; lia. Qed.

Lemma raftb_frames_witness : decode (frame_msg sample_msg) = Decoded sample_msg /\
  decode (take 20 (frame_msg sample_msg) ++ [Byte.xff] ++ drop 21 (frame_msg sample_msg)) = Dropped.
Proof.
  destruct (raftb_frames sample_msg sample_ok) as [H1 H2]. split; [exact H1|].
  apply (H2 (take 20 (frame_msg sample_msg)) [Byte.x00] [Byte.xff] (drop 21 (frame_msg sample_msg))); [by vm_compute|done|cbn; lia|done].
Defined.

(** A frame with a valid checksum whose entry announces a value of 2^64 - 1 bytes passes the
    bound check, since the sum wraps. *)
Definition long_value : list byte := put_u8 3 ++ put_u64 1 ++ put_u64 1 ++ put_u64 0 ++ put_u64 0 ++ put_u64 0 ++ put_u64 1 ++ put_u64 1 ++ put_u64 (2 ^ 64 - 1).

Example raftb_length_wraps : decode (finish long_value) = OutOfBounds.
Proof. by vm_compute. Qed.
