(* ===== verification/RaftNodeB.v ===== *)
(** RaftNodeB: the second Raft implementation, [RaftNodeB]
    (consensus/raft_b/RaftNodeB.hpp).

    As in [RaftNode]: every handler is a function on a record of the class's members, a spawned
    send is a message at the end of [outbox] with its destination, a record handed to the
    persist worker is at the end of [write_queue_], and one turn of each loop is a function
    ([recv], [tick], [persist_turn], [recover]).  Votes are flags by position in the cluster,
    the vote is an optional id, and [sync_now] is apart from queueing a record. *)

From Stdlib Require Import ZArith Lia.
From stdpp Require Import base list numbers.
From S2P Require Import Prelude Codec Core Disk Consensus RaftWire RaftWireB.
#[local] Open Scope Z_scope.

Definition kNoLeader : Z := 2 ^ 64 - 1.
Definition kMaxBatch : Z := 64.

(** ** State *)

Record raft := mkRaft {
  role_ : Role;
  current_term_ : Z;
  voted_for_ : option Z;
  log_ : list LogEntry;
  snap_base_ : Z;
  snap_state_ : list LogEntry;
  snap_persisted_base_ : Z;
  applied_index_ : Z;
  commit_index_ : Z;
  votes_granted_ : list bool
}.

Record replication := mkReplication {
  next_index_ : list Z;
  match_index_ : list Z;
  sent_index_ : list Z;
  repl_pending_ : bool;
  repl_kicked_ : bool
}.

Record membership := mkMembership {
  cfg_chain_ : list (list Z);
  cfg_idx_ : Z;
  cfg_committed_idx_ : Z;
  cfg_adopted_ : list Z
}.

Record lifecycle := mkLifecycle {
  election_deadline_ : Z;
  leader_hint_ : Z;
  running_ : bool;
  recovered_ : bool;
  loop_epoch_ : Z;
  snapshots_taken_ : Z;
  snapshots_installed_ : Z
}.

Record pipeline := mkPipeline {
  write_queue_ : list RecB;
  worker_running_ : bool;
  want_sync_ : bool
}.

Record node := mkNode {
  cfg_ : NodeConfig;
  self_ : Z;
  raft_ :> raft;
  repl_ :> replication;
  mem_ :> membership;
  life_ :> lifecycle;
  pipe_ :> pipeline;
  now : Z;
  rng_ : rng;
  outbox : list (Z * Msg)
}.

Definition on_raft (f : raft -> raft) (n : node) : node := {| n with raft_ := f (raft_ n) |}.
Definition on_repl (f : replication -> replication) (n : node) : node := {| n with repl_ := f (repl_ n) |}.
Definition on_mem (f : membership -> membership) (n : node) : node := {| n with mem_ := f (mem_ n) |}.
Definition on_life (f : lifecycle -> lifecycle) (n : node) : node := {| n with life_ := f (life_ n) |}.
Definition on_pipe (f : pipeline -> pipeline) (n : node) : node := {| n with pipe_ := f (pipe_ n) |}.

Definition set_role (x : Role) : node -> node := on_raft (fun r => {| r with role_ := x |}).
Definition set_leader_hint (x : Z) : node -> node := on_life (fun r => {| r with leader_hint_ := x |}).

(** ** Helpers *)

Definition cluster_size (n : node) : nat := length (cluster (cfg_ n)).

Definition in_config (c : list Z) (id : Z) : bool := existsb (fun m => m =? id) c.
Definition config (n : node) : list Z := nth (Z.to_nat (cfg_idx_ n)) (cfg_chain_ n) [].
Definition chain_empty (n : node) : bool := match cfg_chain_ n with [] => true | _ => false end.
Definition in_current_config (n : node) (id : Z) : bool := negb (chain_empty n) && in_config (config n) id.
Definition quorum (n : node) : nat := ((if chain_empty n then cluster_size n else length (config n)) / 2 + 1)%nat.

Fixpoint index_in (id : Z) (l : list Z) (i : nat) : nat :=
  match l with
  | [] => 0
  | x :: l' => if x =? id then i else index_in id l' (S i)
  end.
Definition index_of (n : node) (id : Z) : nat := index_in id (cluster (cfg_ n)) 0.

(** One round of the insertion sort, on the sorted part kept last element first. *)
Fixpoint sort_shift (x : Z) (sorted : list Z) : list Z :=
  match sorted with
  | y :: s => if x <? y then y :: sort_shift x s else x :: sorted
  | [] => [x]
  end.
Definition sort_ids (v : list Z) : list Z := rev (fold_left (fun s x => sort_shift x s) v []).

Definition init_config_chain (c : NodeConfig) : list (list Z) := [match init_config c with [] => cluster c | i => i end].

Definition llen (n : node) : Z := snap_base_ n + Zlen (log_ n).

Definition no_entry : LogEntry := mkEntry 0 [].

Definition entry_at (n : node) (i : Z) : LogEntry :=
  if i <=? snap_base_ n then nth (Z.to_nat i - 1) (snap_state_ n) no_entry
  else nth (Z.to_nat (i - snap_base_ n) - 1) (log_ n) no_entry.

Definition term_at (n : node) (i : Z) : Z :=
  if (i =? 0) || (llen n <? i) then 0
  else if i <=? snap_base_ n then le_term (nth (Z.to_nat i - 1) (snap_state_ n) no_entry)
  else le_term (nth (Z.to_nat (i - snap_base_ n) - 1) (log_ n) no_entry).

Definition last_log_term (n : node) : Z := if llen n =? 0 then 0 else term_at n (llen n).

Definition append_entry (e : LogEntry) : node -> node := on_raft (fun r => {| r with log_ := log_ r ++ [e] |}).

(** [log_.resize]: shorter, or padded with default entries. *)
Definition resize {A} (k : nat) (x : A) (l : list A) : list A := take k l ++ replicate (k - length l) x.

Definition truncate_to (new_len : Z) : node -> node :=
  on_raft (fun r =>
    let new_len := if new_len <? snap_base_ r then snap_base_ r else new_len in
    {| r with log_ := resize (Z.to_nat (new_len - snap_base_ r)) no_entry (log_ r) |}).

(** [log()]: the snapshot prefix and the retained suffix. *)
Definition log_view (n : node) : list LogEntry := snap_state_ n ++ log_ n.

(** ** Persistence *)

Definition ensure_persist_worker : node -> node := on_pipe (fun p => {| p with worker_running_ := true |}).

Definition enqueue_durable (rec : RecB) (n : node) : node :=
  ensure_persist_worker (on_pipe (fun p => {| p with write_queue_ := write_queue_ p ++ [rec] |}) n).

Definition sync_now (n : node) : node := ensure_persist_worker (on_pipe (fun p => {| p with want_sync_ := true |}) n).

Definition persist_term_vote (n : node) : node := enqueue_durable (BTerm (current_term_ n) (voted_for_ n)) n.
Definition persist_entry (index : Z) (e : LogEntry) : node -> node := enqueue_durable (BEntry index e).
Definition persist_truncate (new_len : Z) : node -> node := enqueue_durable (BTruncate new_len).

Definition persist_snapshot (n : node) : node :=
  if snap_base_ n <=? snap_persisted_base_ n then n
  else
    let delta := drop (Z.to_nat (snap_persisted_base_ n)) (snap_state_ n) in
    on_raft (fun r => {| r with snap_persisted_base_ := snap_base_ r |})
      (enqueue_durable (BSnapshotDelta (snap_persisted_base_ n) (snap_base_ n) delta) n).

Definition persist_snapshot_full (n : node) : node :=
  on_raft (fun r => {| r with snap_persisted_base_ := snap_base_ r |}) (enqueue_durable (BSnapshot (snap_base_ n) (snap_state_ n)) n).

Definition persist_config (chain_index : Z) (members : list Z) : node -> node := enqueue_durable (BConfig chain_index members).

(** ** Sending *)

Definition arm_election_deadline (n : node) : node :=
  let '(jitter, g) := uniform_range (election_timeout_min (cfg_ n)) (election_timeout_max (cfg_ n)) (rng_ n) in
  on_life (fun r => {| r with election_deadline_ := now n + jitter |}) {| n with rng_ := g |}.

Definition send_to (peer : Z) (b : Body) (n : node) : node :=
  if running_ n then {| n with outbox := outbox n ++ [(peer, mkMsgB (current_term_ n) (self_ n) b)] |} else n.

(** The peers, in cluster order. *)
Definition peers (n : node) : list Z := filter (fun id => id <> self_ n) (cluster (cfg_ n)).

Definition broadcast_request_vote (n : node) : node :=
  let b := RequestVote (llen n) (last_log_term n) (cfg_idx_ n) in
  fold_left (fun (n : node) d => send_to d b n) (peers n) n.

Definition send_install_snapshot (peer : Z) (n : node) : node := send_to peer (InstallSnapshot (snap_base_ n) (snap_state_ n)) n.

Definition send_append_entries (peer : Z) (n : node) : node :=
  let pi := index_of n peer in
  let next := match next_index_ n with [] => llen n + 1 | _ => nth pi (next_index_ n) 0 end in
  let next := if next <? 1 then 1 else next in
  let prev_index := next - 1 in
  if prev_index <? snap_base_ n then send_install_snapshot peer n
  else
    let prev_term := term_at n prev_index in
    let avail := u64 (llen n - prev_index) in
    let count := if avail <? kMaxBatch then avail else kMaxBatch in
    let last := prev_index + count in
    let entries := map (fun k => entry_at n (prev_index + 1 + Z.of_nat k)) (seq 0 (Z.to_nat count)) in
    let b := AppendEntries prev_index prev_term (commit_index_ n) entries in
    send_to peer b (on_repl (fun r => {| r with sent_index_ := <[pi := last]> (sent_index_ r) |}) n).

Definition broadcast_append_entries (n : node) : node :=
  if negb (bool_decide (role_ n = Leader)) then n else fold_left (fun (n : node) d => send_append_entries d n) (peers n) n.

(** ** Membership *)

Definition send_config_change_to (peer : Z) (n : node) : node := send_to peer (ConfigChange (cfg_idx_ n) (config n)) n.

Definition broadcast_config_change (n : node) : node :=
  if negb (bool_decide (role_ n = Leader)) || chain_empty n then n
  else
    let head := config n in
    let prev := if 0 <? cfg_idx_ n then nth (Z.to_nat (cfg_idx_ n - 1)) (cfg_chain_ n) [] else head in
    fold_left (fun (n : node) d => if in_config head d || in_config prev d then send_config_change_to d n else n) (peers n) n.

Definition adopters (n : node) (head : Z) (hc : list Z) : nat :=
  length (filter (fun i =>
    let id := nth i (cluster (cfg_ n)) 0 in
    in_config hc id && (if id =? self_ n then head <=? cfg_idx_ n else Nat.ltb i (length (cfg_adopted_ n)) && (head <=? nth i (cfg_adopted_ n) 0)) = true)
    (seq 0 (cluster_size n))).

Definition maybe_commit_config (n : node) : node :=
  if negb (bool_decide (role_ n = Leader)) || chain_empty n then n
  else
    let head := Zlen (cfg_chain_ n) - 1 in
    if head <=? cfg_committed_idx_ n then n
    else
      let hc := nth (Z.to_nat head) (cfg_chain_ n) [] in
      if (length hc <? adopters n head hc * 2)%nat then on_mem (fun r => {| r with cfg_committed_idx_ := head |}) n else n.

Definition on_config_change (from term idx : Z) (members : list Z) (n : node) : node :=
  if term <? current_term_ n then n
  else
    let n := arm_election_deadline (set_leader_hint from (set_role Follower n)) in
    let n :=
      if cfg_idx_ n <? idx then
        let n := on_mem (fun r =>
          let chain := if Zlen (cfg_chain_ r) <=? idx then resize (Z.to_nat (idx + 1)) [] (cfg_chain_ r) else cfg_chain_ r in
          {| r with cfg_chain_ := <[Z.to_nat idx := members]> chain; cfg_idx_ := idx |}) n in
        sync_now (persist_config (cfg_idx_ n) (config n) n)
      else n in
    send_to from (ConfigChangeResp (cfg_idx_ n)) n.

Definition on_config_change_response (from term idx : Z) (n : node) : node :=
  if negb (bool_decide (role_ n = Leader)) || negb (term =? current_term_ n) then n
  else
    let pi := index_of n from in
    let n := if Nat.ltb pi (length (cfg_adopted_ n)) && (nth pi (cfg_adopted_ n) 0 <? idx)
             then on_mem (fun r => {| r with cfg_adopted_ := <[pi := idx]> (cfg_adopted_ r) |}) n else n in
    maybe_commit_config n.

Definition propose_config_change (server : Z) (add : bool) (n : node) : bool * node :=
  if negb (running_ n) || negb (bool_decide (role_ n = Leader)) then (false, n)
  else if negb (cfg_idx_ n =? Zlen (cfg_chain_ n) - 1) || negb (cfg_committed_idx_ n =? cfg_idx_ n) then (false, n)
  else
    let cur := config n in
    let present := in_config cur server in
    if eqb add present then (false, n)
    else if add && negb (in_config (cluster (cfg_ n)) server) then (false, n)
    else if negb add && (server =? self_ n) then (false, n)
    else
      let nc := if add then cur ++ [server] else filter (fun id => id <> server) cur in
      match nc with
      | [] => (false, n)
      | _ :: _ =>
          let nc := sort_ids nc in
          let n := on_mem (fun r => {| r with cfg_chain_ := cfg_chain_ r ++ [nc]; cfg_idx_ := Zlen (cfg_chain_ r ++ [nc]) - 1 |}) n in
          (true, broadcast_config_change (sync_now (persist_config (cfg_idx_ n) nc n)))
      end.

(** ** Applying, compacting and committing *)

Definition take_snapshot (n : node) : node :=
  let i := applied_index_ n in
  if i <=? snap_base_ n then n
  else
    let k := Z.to_nat (i - snap_base_ n) in
    let n := on_raft (fun r => {| r with snap_state_ := snap_state_ r ++ take k (log_ r); log_ := drop k (log_ r); snap_base_ := i |}) n in
    let n := on_life (fun r => {| r with snapshots_taken_ := u64 (snapshots_taken_ r + 1) |}) n in
    sync_now (persist_snapshot n).

Definition apply_and_maybe_snapshot (n : node) : node :=
  let n := if applied_index_ n <? commit_index_ n then on_raft (fun r => {| r with applied_index_ := commit_index_ r |}) n else n in
  if (snap_base_ n <? applied_index_ n) && (snapshot_threshold (cfg_ n) <? Zlen (log_ n)) then take_snapshot n else n.

(** The members of the current config that store position [k]. *)
Definition agreeing (n : node) (k : Z) : nat :=
  length (filter (fun i =>
    let id := nth i (cluster (cfg_ n)) 0 in
    in_current_config n id && (if id =? self_ n then k <=? llen n else k <=? nth i (match_index_ n) 0) = true)
    (seq 0 (length (match_index_ n)))).

(** The loop over [count] positions down from [k]. *)
Fixpoint highest_committable (n : node) (count : nat) (k : Z) : option Z :=
  match count with
  | O => None
  | S c =>
      if negb (term_at n k =? current_term_ n) then highest_committable n c (k - 1)
      else if (quorum n <=? agreeing n k)%nat then Some k
      else highest_committable n c (k - 1)
  end.

Definition advance_commit_index (n : node) : node :=
  match highest_committable n (Z.to_nat (llen n - commit_index_ n)) (llen n) with
  | Some k => on_raft (fun r => {| r with commit_index_ := k |}) n
  | None => n
  end.

Definition advance_n1_self_commit (n : node) : node :=
  if negb (bool_decide (role_ n = Leader)) || negb (quorum n =? 1)%nat then n
  else apply_and_maybe_snapshot (advance_commit_index n).

(** ** Elections *)

Definition maybe_step_down (msg_term : Z) (n : node) : node :=
  if msg_term <=? current_term_ n then n
  else
    let n := on_raft (fun r => {| r with current_term_ := msg_term; role_ := Follower; voted_for_ := None; votes_granted_ := [] |}) n in
    sync_now (persist_term_vote n).

Definition become_leader (n : node) : node :=
  let n := set_leader_hint (self_ n) (set_role Leader n) in
  let k := cluster_size n in
  let last := llen n in
  let n := on_repl (fun r => {| r with
    next_index_ := replicate k (last + 1);
    match_index_ := <[index_of n (self_ n) := last]> (replicate k 0);
    sent_index_ := replicate k 0 |}) n in
  let n := on_mem (fun r => {| r with
    cfg_adopted_ := replicate k 0;
    cfg_committed_idx_ := if 0 <? cfg_idx_ r then cfg_idx_ r - 1 else 0 |}) n in
  let n := broadcast_append_entries n in
  let n := if cfg_committed_idx_ n <? cfg_idx_ n then broadcast_config_change n else n in
  maybe_commit_config n.

Definition votes_count (n : node) : nat :=
  length (filter (fun i => nth i (votes_granted_ n) false && Nat.ltb i (cluster_size n) && in_current_config n (nth i (cluster (cfg_ n)) 0) = true)
    (seq 0 (length (votes_granted_ n)))).

Definition begin_election (n : node) : node :=
  if negb (in_current_config n (self_ n)) then arm_election_deadline n
  else
    let n := on_raft (fun r => {| r with current_term_ := u64 (current_term_ r + 1); role_ := Candidate; voted_for_ := Some (self_ n);
      votes_granted_ := <[index_of n (self_ n) := true]> (replicate (cluster_size n) false) |}) n in
    let n := sync_now (persist_term_vote n) in
    if (quorum n =? 1)%nat then become_leader (arm_election_deadline n)
    else arm_election_deadline (broadcast_request_vote n).

Definition on_request_vote (from term last_log_index cand_last_term cfg_index : Z) (n : node) : node :=
  if term <? current_term_ n then send_to from (RequestVoteResp false) n
  else
    let cand_up_to_date :=
      (last_log_term n <? cand_last_term) || ((cand_last_term =? last_log_term n) && (llen n <=? last_log_index)) in
    let cand_cfg_up_to_date := cfg_idx_ n <=? cfg_index in
    let can_vote := match voted_for_ n with None => true | Some v => v =? from end in
    let grant := can_vote && cand_up_to_date && cand_cfg_up_to_date in
    let n := if grant then arm_election_deadline (sync_now (persist_term_vote (on_raft (fun r => {| r with voted_for_ := Some from |}) n))) else n in
    send_to from (RequestVoteResp grant) n.

Definition on_vote_response (from term : Z) (granted : bool) (n : node) : node :=
  if negb (bool_decide (role_ n = Candidate)) || negb (term =? current_term_ n) || negb granted then n
  else
    let n := on_raft (fun r => {| r with votes_granted_ := <[index_of n from := true]> (votes_granted_ r) |}) n in
    if (quorum n <=? votes_count n)%nat then become_leader n else n.

(** ** Appending *)

(** The first entry of [es] that conflicts; [pos] is the absolute position of its head. *)
Fixpoint scan_conflict (n : node) (pos : Z) (es : list LogEntry) : option nat :=
  match es with
  | [] => None
  | e :: es' =>
      if pos <=? snap_base_ n then option_map S (scan_conflict n (pos + 1) es')
      else if (pos <=? llen n) && negb (term_at n pos =? le_term e) then Some O
      else option_map S (scan_conflict n (pos + 1) es')
  end.

Definition append_all (es : list LogEntry) (n : node) : node :=
  fold_left (fun (n : node) e => let n := append_entry e n in persist_entry (llen n) e n) es n.

Definition sync_if (b : bool) (n : node) : node := if b then sync_now n else n.

Definition merge_entries (prev : Z) (entries : list LogEntry) (n : node) : node :=
  match scan_conflict n (prev + 1) entries with
  | None =>
      let already := llen n in
      if already <? prev + Zlen entries then
        let tail := drop (Z.to_nat (already - prev)) entries in
        sync_if (negb (bool_decide (tail = []))) (append_all tail n)
      else n
  | Some k =>
      let keep := prev + Z.of_nat k in
      let cut := keep <? llen n in
      let n := if cut then persist_truncate keep (truncate_to keep n) else n in
      let tail := drop k entries in
      sync_if (cut || negb (bool_decide (tail = []))) (append_all tail n)
  end.

Definition adopt_commit (leader_commit last_new : Z) (n : node) : node :=
  if commit_index_ n <? leader_commit then
    let nc := if leader_commit <? last_new then leader_commit else last_new in
    if commit_index_ n <? nc then on_raft (fun r => {| r with commit_index_ := nc |}) n else n
  else n.

Definition on_append_entries (from term prev prev_term leader_commit : Z) (entries : list LogEntry) (n : node) : node :=
  if term <? current_term_ n then send_to from (AppendEntriesResp false 0) n
  else
    let n := arm_election_deadline (set_leader_hint from (set_role Follower n)) in
    let log_ok := (prev =? 0) || ((prev <=? llen n) && (prev_term =? term_at n prev)) in
    if negb log_ok then send_to from (AppendEntriesResp false 0) n
    else
      let n := merge_entries prev entries n in
      let last_new := prev + Zlen entries in
      let n := apply_and_maybe_snapshot (adopt_commit leader_commit last_new n) in
      send_to from (AppendEntriesResp true last_new) n.

Definition on_append_response (from term : Z) (success : bool) (match_index : Z) (n : node) : node :=
  if negb (bool_decide (role_ n = Leader)) || negb (term =? current_term_ n) then n
  else
    let pi := index_of n from in
    if (length (next_index_ n) <=? pi)%nat then n
    else if success then
      let n := on_repl (fun r => {| r with match_index_ := <[pi := match_index]> (match_index_ r);
                                           next_index_ := <[pi := u64 (match_index + 1)]> (next_index_ r) |}) n in
      let n := apply_and_maybe_snapshot (advance_commit_index n) in
      if (nth pi (sent_index_ n) 0 <=? nth pi (match_index_ n) 0) && (nth pi (next_index_ n) 0 <=? llen n)
      then send_append_entries from n else n
    else
      let ni := nth pi (next_index_ n) 0 in
      let n := if 1 <? ni then on_repl (fun r => {| r with next_index_ := <[pi := ni - 1]> (next_index_ r) |}) n else n in
      send_append_entries from n.

(** ** Snapshots from the leader *)

Definition on_install_snapshot (from term lii : Z) (state : list LogEntry) (n : node) : node :=
  if term <? current_term_ n then n
  else
    let n := arm_election_deadline (set_leader_hint from (set_role Follower n)) in
    let n :=
      if (snap_base_ n <? lii) && (commit_index_ n <? lii) then
        let n := on_raft (fun r => {| r with snap_state_ := state; snap_base_ := lii; applied_index_ := lii;
          commit_index_ := if commit_index_ r <? lii then lii else commit_index_ r; log_ := [] |}) n in
        let n := on_life (fun r => {| r with snapshots_installed_ := u64 (snapshots_installed_ r + 1) |}) n in
        sync_now (persist_snapshot_full n)
      else n in
    send_to from (InstallSnapshotResp (if lii <? snap_base_ n then snap_base_ n else lii)) n.

Definition on_install_snapshot_response (from term match_index : Z) (n : node) : node :=
  if negb (bool_decide (role_ n = Leader)) || negb (term =? current_term_ n) then n
  else
    let pi := index_of n from in
    if (length (next_index_ n) <=? pi)%nat then n
    else
      let n := on_repl (fun r => {| r with
        match_index_ := if nth pi (match_index_ r) 0 <? match_index then <[pi := match_index]> (match_index_ r) else match_index_ r;
        next_index_ := <[pi := u64 (match_index + 1)]> (next_index_ r) |}) n in
      send_append_entries from n.

(** ** The loops *)

Definition dispatch (m : Msg) (n : node) : node :=
  let n := maybe_step_down (mb_term m) n in
  let from := mb_from m in
  let term := mb_term m in
  match mb_body m with
  | RequestVote i t c => on_request_vote from term i t c n
  | RequestVoteResp g => on_vote_response from term g n
  | AppendEntries p t c es => on_append_entries from term p t c es n
  | AppendEntriesResp s i => on_append_response from term s i n
  | InstallSnapshot i st => on_install_snapshot from term i st n
  | InstallSnapshotResp i => on_install_snapshot_response from term i n
  | ConfigChange i ms => on_config_change from term i ms n
  | ConfigChangeResp i => on_config_change_response from term i n
  end.

(** One delivery of [recv_loop]. *)
Definition recv (bytes : list byte) (n : node) : node :=
  if negb (running_ n) then n
  else if negb (recovered_ n) then n
  else match decode bytes with Decoded m => dispatch m n | _ => n end.

(** One wake of [ticker], at time [now n]. *)
Definition tick (n : node) : node :=
  if negb (running_ n) then n
  else if negb (recovered_ n) then n
  else if bool_decide (role_ n = Leader) then
    let n := on_repl (fun r => {| r with repl_kicked_ := false; repl_pending_ := false |}) n in
    let n := broadcast_append_entries n in
    if cfg_committed_idx_ n <? cfg_idx_ n then broadcast_config_change n else n
  else if election_deadline_ n <=? now n then begin_election n else n.

(** One turn of [persist_worker]. *)
Definition persist_turn (r : rng) (n : node) (d : disk) : node * disk * rng :=
  if negb (running_ n) then (on_pipe (fun p => {| p with worker_running_ := false |}) n, d, r)
  else
    match write_queue_ n with
    | rec :: q =>
        let n := on_pipe (fun p => {| p with write_queue_ := q |}) n in
        let '(_, _, d, r) := Disk.append (record_bytes rec) r d in (n, d, r)
    | [] =>
        if want_sync_ n then
          let n := on_pipe (fun p => {| p with want_sync_ := false |}) n in
          let '(_, d, r) := Disk.sync r d in (advance_n1_self_commit n, d, r)
        else (on_pipe (fun p => {| p with worker_running_ := false |}) n, d, r)
    end.

(** ** Clients *)

Definition submit (value : list byte) (n : node) : SubmitResult * node :=
  if negb (running_ n) || negb (bool_decide (role_ n = Leader)) then (mkSubmit false 0 0 (leader_hint_ n), n)
  else
    let e := mkEntry (current_term_ n) value in
    let n := append_entry e n in
    let idx := llen n in
    let n := on_repl (fun r => {| r with match_index_ := <[index_of n (self_ n) := idx]> (match_index_ r) |}) n in
    let n := sync_now (persist_entry idx e n) in
    let res := mkSubmit true (current_term_ n) idx 0 in
    let n := on_repl (fun r => {| r with repl_pending_ := true |}) n in
    if repl_kicked_ n then (res, n)
    else
      let n := on_repl (fun r => {| r with repl_kicked_ := true |}) n in
      let n := broadcast_append_entries n in
      (res, on_repl (fun r => {| r with repl_pending_ := false |}) n).

(** ** Lifecycle *)

Definition initial_raft : raft := mkRaft Follower 0 None [] 0 [] 0 0 0 [].

Definition construct (c : NodeConfig) : node :=
  mkNode c (self_id c) initial_raft (mkReplication [] [] [] false false)
    (mkMembership (init_config_chain c) 0 0 (replicate (length (cluster c)) 0))
    (mkLifecycle 0 kNoLeader false false 0 0 0) (mkPipeline [] false false) 0 [] [].

Definition start (n : node) : node :=
  if running_ n then n
  else on_life (fun r => {| r with running_ := true; recovered_ := false; loop_epoch_ := u64 (loop_epoch_ r + 1) |}) n.

Definition crash (n : node) : node :=
  let n := on_life (fun r => {| r with running_ := false; recovered_ := false; loop_epoch_ := u64 (loop_epoch_ r + 1); leader_hint_ := kNoLeader |}) n in
  let n := on_raft (fun _ => initial_raft) n in
  let n := on_repl (fun _ => mkReplication [] [] [] false false) n in
  let n := on_mem (fun _ => mkMembership (init_config_chain (cfg_ n)) 0 0 (replicate (cluster_size n) 0)) n in
  on_pipe (fun _ => mkPipeline [] false false) n.

Definition restart (n : node) : node :=
  let n := on_life (fun r => {| r with running_ := true; recovered_ := false; loop_epoch_ := u64 (loop_epoch_ r + 1); leader_hint_ := kNoLeader |}) n in
  on_raft (fun r => {| r with role_ := Follower; commit_index_ := 0; snap_base_ := 0; snap_state_ := []; snap_persisted_base_ := 0;
                              applied_index_ := 0; votes_granted_ := [] |}) n.

(** ** Recovery *)

(** The device byte by byte, up to the first error. *)
Fixpoint read_image (fuel : nat) (off : nat) (r : rng) (d : disk) : list byte * rng :=
  match fuel with
  | O => ([], r)
  | S fuel' =>
      let '(e, one, r) := Disk.read off 1 r d in
      if negb (err_ok e) then ([], r)
      else let '(img, r) := read_image fuel' (S off) r d in (one ++ img, r)
  end.

(** The recorded configurations on the initial one, up to the first gap. *)
Fixpoint fold_configs (crs : list (Z * list Z)) (chain : list (list Z)) (idx : Z) : list (list Z) * Z :=
  match crs with
  | [] => (chain, idx)
  | (cidx, members) :: crs' =>
      if (cidx =? 0) || (Zlen chain <? cidx) then (chain, idx)
      else
        let chain := if Zlen chain <=? cidx then resize (Z.to_nat (cidx + 1)) [] chain else chain in
        fold_configs crs' (<[Z.to_nat cidx := members]> chain) (if idx <? cidx then cidx else idx)
  end.

Definition adopt_recovered (s : Recovered) (n : node) : node :=
  let n := on_raft (fun r => {| r with current_term_ := rv_term s; voted_for_ := rv_vote s; snap_base_ := rv_base s;
    snap_state_ := rv_state s; snap_persisted_base_ := rv_base s; log_ := rv_log s; applied_index_ := rv_base s; role_ := Follower |}) n in
  let '(chain, idx) := fold_configs (rv_cfg s) (init_config_chain (cfg_ n)) 0 in
  let n := on_mem (fun _ => mkMembership chain idx idx (replicate (cluster_size n) 0)) n in
  on_life (fun r => {| r with recovered_ := true |}) (arm_election_deadline n).

(** [recover_task]; [None] is a read past a record. *)
Definition recover (r : rng) (d : disk) (n : node) : option (node * rng) :=
  let '(img, r) := read_image (S (logical_len d)) 0 r d in
  match replay (S (length img)) img nothing with
  | None => None
  | Some s => Some (adopt_recovered s n, r)
  end.
