(* ===== verification/RaftSimB.v ===== *)
(** RaftSimB: the handlers of [RaftNodeB] as steps of the abstract protocol, and the records
    they queue.

    As in [RaftSim], a node is related to a state of [RaftProtocol] and each handler is a
    sequence of the server's own steps; [writes] adds that the records a handler queues take
    the durable state to the new one, so that replay rebuilds it.  Votes are flags, so the
    related server's list of votes is any list of the ids whose flag is set. *)

From Stdlib Require Import ZArith Lia.
From stdpp Require Import base list numbers relations.
From S2P Require Import Prelude Codec Core Disk Consensus RaftProtocol RaftSafety RaftWire RaftSim RaftWireB RaftNodeB.
#[local] Open Scope Z_scope.

(** ** The logical log *)

Section view.
Context (n : node) (Hsnap : Zlen (snap_state_ n) = snap_base_ n).

Lemma llen_view_b : llen n = Zlen (log_view n).
Proof. unfold llen, log_view. by rewrite Zlen_app, Hsnap. Qed.

Lemma snap_nonneg_b : 0 <= snap_base_ n.
Proof. rewrite <- Hsnap. apply Zlen_nonneg. Qed.

Lemma entry_at_view_b k : 1 <= k <= llen n -> log_view n !! (Z.to_nat k - 1)%nat = Some (entry_at n k).
Proof.
  intros Hk. unfold entry_at, log_view. pose proof snap_nonneg_b. unfold llen, Zlen in *. destruct (k <=? snap_base_ n) eqn:E.
  - rewrite lookup_app_l by lia. destruct (nth_lookup_or_length (snap_state_ n) (Z.to_nat k - 1) no_entry); [done|lia].
  - rewrite lookup_app_r by lia. replace (Z.to_nat k - 1 - length (snap_state_ n))%nat with (Z.to_nat (k - snap_base_ n) - 1)%nat by lia.
    destruct (nth_lookup_or_length (log_ n) (Z.to_nat (k - snap_base_ n) - 1) no_entry); [done|lia].
Qed.

Lemma term_at_entry_b k : 1 <= k <= llen n -> term_at n k = le_term (entry_at n k).
Proof.
  intros Hk. unfold term_at, entry_at. rewrite (proj2 (Z.eqb_neq _ _)), (proj2 (Z.ltb_ge _ _)) by lia. cbn. by destruct (_ <=? _).
Qed.

Lemma term_at_view_b k : 0 <= k -> term_at n k = term_of (log_view n) (Z.to_nat k).
Proof.
  intros Hk. unfold term_of, at_pos. destruct (Z.to_nat k) as [|j] eqn:Ej.
  { assert (k = 0) as -> by lia. done. }
  destruct (decide (k <= llen n)) as [Hle|Hgt].
  - rewrite term_at_entry_b by lia. pose proof (entry_at_view_b k ltac:(lia)) as He.
    replace (Z.to_nat k - 1)%nat with j in He by lia. by rewrite He.
  - unfold term_at. rewrite (proj2 (Z.ltb_lt _ _)), orb_true_r by lia.
    rewrite (proj2 (lookup_ge_None (log_view n) j)); [done|]. rewrite llen_view_b in Hgt. unfold Zlen in Hgt. lia.
Qed.

Lemma last_log_term_view_b : last_log_term n = last_term (log_view n).
Proof.
  unfold last_log_term. pose proof llen_view_b as Hl. unfold last_term. rewrite last_lookup. unfold Zlen in Hl.
  destruct (Z.eqb_spec (llen n) 0) as [H0|Hne].
  { destruct (log_view n); [done|]. cbn in Hl. lia. }
  rewrite term_at_entry_b by lia. pose proof (entry_at_view_b (llen n) ltac:(lia)) as He.
  replace (Z.to_nat (llen n) - 1)%nat with (pred (length (log_view n))) in He by lia. by rewrite He.
Qed.

(** The entries of a batch. *)
Lemma batch_view_b prev k : 0 <= prev <= llen n ->
  map (fun j => entry_at n (prev + 1 + Z.of_nat j)) (seq 0 (Nat.min k (Z.to_nat (llen n - prev)))) = take k (drop (Z.to_nat prev) (log_view n)).
Proof.
  intros Hp. pose proof llen_view_b as Hl. unfold Zlen in Hl. apply list_eq. intros j.
  destruct (decide (j < Nat.min k (Z.to_nat (llen n - prev)))%nat) as [Hlt|Hge].
  - rewrite list_lookup_fmap, lookup_seq_lt by lia. cbn. rewrite lookup_take_lt, lookup_drop by lia.
    pose proof (entry_at_view_b (prev + 1 + Z.of_nat j) ltac:(lia)) as He.
    replace (Z.to_nat (prev + 1 + Z.of_nat j) - 1)%nat with (Z.to_nat prev + j)%nat in He by lia. by rewrite He.
  - rewrite !(proj2 (lookup_ge_None _ _)); [done|rewrite length_take, length_drop; lia|rewrite length_map, length_seq; lia].
Qed.

(** The scan looks on past the end of the log, where nothing conflicts. *)
Lemma scan_past es : forall p, llen n < p -> snap_base_ n < p -> scan_conflict n p es = None.
Proof.
  induction es as [|e es IH]; intros p Hp Hb; [done|]. cbn [scan_conflict]. rewrite !(proj2 (Z.leb_gt _ _)) by lia. cbn [andb].
  by rewrite IH by lia.
Qed.

(** The conflict scan is the protocol's. *)
Lemma scan_first_b es : forall p, scan_conflict n (Z.of_nat p + 1) es = first_conflict (Z.to_nat (snap_base_ n)) (log_view n) p es.
Proof.
  pose proof llen_view_b as Hl. unfold Zlen in Hl. pose proof snap_nonneg_b.
  induction es as [|e es IH]; intros p; [done|]. cbn [scan_conflict first_conflict].
  replace (Z.of_nat p + 1 + 1) with (Z.of_nat (S p) + 1) by lia. destruct (Z.of_nat p + 1 <=? snap_base_ n) eqn:E1.
  - rewrite IH. by rewrite (proj2 (Nat.ltb_ge _ _)) by lia.
  - rewrite (proj2 (Nat.ltb_lt _ _)) by lia. destruct (Z.of_nat p + 1 <=? llen n) eqn:E2; cbn [andb].
    + rewrite term_at_entry_b by lia. pose proof (entry_at_view_b (Z.of_nat p + 1) ltac:(lia)) as He.
      replace (Z.to_nat (Z.of_nat p + 1) - 1)%nat with p in He by lia. rewrite He. rewrite IH.
      destruct (decide _) as [->|Hne]; [by rewrite Z.eqb_refl|]. by rewrite (proj2 (Z.eqb_neq _ _)).
    + rewrite scan_past by lia. by rewrite (proj2 (lookup_ge_None (log_view n) p)) by lia.
Qed.

Lemma scan_some es : forall p k, scan_conflict n p es = Some k -> p + Z.of_nat k <= llen n /\ snap_base_ n < p + Z.of_nat k /\ (k < length es)%nat.
Proof.
  induction es as [|e es IH]; intros p k; [done|]. cbn [scan_conflict].
  destruct (p <=? snap_base_ n) eqn:E1; [|destruct (_ && _) eqn:E2].
  - destruct (scan_conflict n (p + 1) es) as [j|] eqn:E; [|done]. intros [= <-]. apply IH in E. cbn. lia.
  - intros [= <-]. cbn. lia.
  - destruct (scan_conflict n (p + 1) es) as [j|] eqn:E; [|done]. intros [= <-]. apply IH in E. cbn. lia.
Qed.
End view.

(** ** What is queued *)

(** The durable state of a node, as replay rebuilds it. *)
Definition pst (n : node) : Recovered := mkRecovered (current_term_ n) (voted_for_ n) (snap_base_ n) (snap_state_ n) (log_ n) [].

Definition plain (r : RecB) : Prop := match r with BConfig _ _ => False | _ => True end.

Definition writes (n n' : node) : Prop :=
  exists recs, write_queue_ n' = write_queue_ n ++ recs /\ apply_records recs (pst n) = Some (pst n') /\ Forall plain recs.

Lemma apply_records_app rs rs' s : apply_records (rs ++ rs') s = (s' ← apply_records rs s; apply_records rs' s').
Proof. revert s. induction rs as [|r rs IH]; intros s; [done|]. cbn. destruct (apply_record r s); cbn; [apply IH|done]. Qed.

#[global] Instance writes_refl : Reflexive writes.
Proof. intros n. exists []. by rewrite app_nil_r. Qed.

#[global] Instance writes_trans : Transitive writes.
Proof.
  intros a b c (r1 & Q1 & A1 & P1) (r2 & Q2 & A2 & P2). exists (r1 ++ r2). rewrite Q2, Q1, app_assoc. split; [done|].
  rewrite apply_records_app, A1. cbn. split; [done|]. by apply Forall_app.
Qed.

Lemma writes_none (n n' : node) : write_queue_ n' = write_queue_ n -> pst n' = pst n -> writes n n'.
Proof. intros H1 H2. exists []. by rewrite app_nil_r, H2. Qed.

Lemma writes_one (n n' : node) r : write_queue_ n' = write_queue_ n ++ [r] -> apply_record r (pst n) = Some (pst n') -> plain r -> writes n n'.
Proof. intros H1 H2 H3. exists [r]. cbn. rewrite H2. split; [done|]. split; [done|]. by constructor. Qed.

(** ** The relation *)

Definition abs (vs : list Z) (n : node) : anode :=
  mkANode (current_term_ n) (voted_for_ n) (role_ n) (log_view n) (Z.to_nat (Z.max (commit_index_ n) (snap_base_ n))) vs.

Section sim.
Context (cl : list Z) (i : Z) (conf : NodeConfig).
Hypothesis Hnodup : NoDup cl.
Hypothesis Hi : In i cl.
Hypothesis Hself : self_id conf = i.
Hypothesis Hcluster : cluster conf = cl.

Definition static (n : node) : Prop := cfg_ n = conf /\ self_ n = i.

(** The flag of a member is set. *)
Definition granted (n : node) (v : Z) : Prop := exists k, cl !! k = Some v /\ nth k (votes_granted_ n) false = true.

Definition msg_rel (g : global) (m : Z * Msg) : Prop :=
  In (mb_from m.2) cl /\ mb_from m.2 <> m.1 /\ body_rel g (mb_term m.2) (mb_from m.2) m.1 (mb_body m.2).

Record node_rel (g : global) (n : node) : Prop := {
  r_abs : exists vs, nodes g i = abs vs n /\ (role_ n = Candidate -> length (votes_granted_ n) = length cl /\ forall v, In v vs <-> granted n v);
  r_static : static n;
  r_config : cfg_chain_ n = [cl] /\ cfg_idx_ n = 0 /\ cfg_committed_idx_ n = 0;
  r_snap : Zlen (snap_state_ n) = snap_base_ n;
  r_persisted : snap_persisted_base_ n = snap_base_ n;
  r_applied : 0 <= applied_index_ n <= Z.max (commit_index_ n) (snap_base_ n);
  r_commit : 0 <= commit_index_ n <= llen n;
  r_leader : role_ n = Leader ->
    length (next_index_ n) = length cl /\ length (match_index_ n) = length cl /\
    forall k id, cl !! k = Some id ->
    1 <= nth k (next_index_ n) 0 <= llen n + 1 /\
    (id <> i -> nth k (match_index_ n) 0 <= 0 \/ acked g (current_term_ n) id (Z.to_nat (nth k (match_index_ n) 0)));
  r_out : forall m, In m (outbox n) -> msg_rel g m
}.

(** A handler from [n] to [n'], from the protocol state [g]. *)
Definition follows (g : global) (n n' : node) : Prop :=
  exists g', steps cl i g g' /\ node_rel g' n' /\ writes n n'.

Definition sim (n n' : node) : Prop := forall g, reachable cl g -> node_rel g n -> follows g n n'.

Lemma steps_reach g g' : steps cl i g g' -> reachable cl g -> reachable cl g'.
Proof. apply (steps_reachable cl i). Qed.

#[local] Instance sim_refl_b : Reflexive sim.
Proof. intros n g _ Hn. exists g. split; [apply rtc_refl|done]. Qed.

Lemma follows_sim g n n1 n2 : reachable cl g -> follows g n n1 -> sim n1 n2 -> follows g n n2.
Proof.
  intros Hg (g1 & Hs1 & H1 & W1) Hs. destruct (Hs g1 (steps_reach _ _ Hs1 Hg) H1) as (g2 & Hs2 & H2 & W2).
  exists g2. split; [by transitivity g1|]. split; [done|by transitivity n1].
Qed.

#[local] Instance sim_trans_b : Transitive sim.
Proof. intros a b c Hab Hbc g Hg Ha. eapply follows_sim; [done|by apply Hab|done]. Qed.

Lemma own_step g g' : step cl g g' -> (forall j, j <> i -> nodes g' j = nodes g j) -> steps cl i g g'.
Proof. intros Hs Ho. by apply rtc_once. Qed.

(** *** Changes the protocol does not see *)

Record unseen (n n' : node) : Prop := {
  u_raft : raft_ n' = raft_ n;
  u_mem : mem_ n' = mem_ n;
  u_repl : repl_ n' = repl_ n;
  u_out : outbox n' = outbox n;
  u_cfg : cfg_ n' = cfg_ n;
  u_self : self_ n' = self_ n;
  u_queue : write_queue_ n' = write_queue_ n
}.

#[local] Instance unseen_refl_b : Reflexive unseen.
Proof. by intros n. Qed.

#[local] Instance unseen_trans_b : Transitive unseen.
Proof. intros a b c [] []. split; congruence. Qed.

Lemma unseen_rel_b g n n' : unseen n n' -> node_rel g n -> node_rel g n'.
Proof.
  intros [U1 U2 U3 U4 U5 U6 U7] [R1 R2 R3 R4 R5 R6 R7 R8 R9].
  split; unfold abs, log_view, llen, static, granted in *; rewrite ?U1, ?U2, ?U3, ?U4, ?U5, ?U6; auto.
Qed.

Lemma unseen_writes n n' : unseen n n' -> writes n n'.
Proof. intros [U1 U2 U3 U4 U5 U6 U7]. apply writes_none; [done|]. unfold pst. by rewrite U1. Qed.

Lemma unseen_sim_b n n' : unseen n n' -> sim n n'.
Proof. intros Hu g _ Hn. exists g. split; [apply rtc_refl|]. split; [by eapply unseen_rel_b|by apply unseen_writes]. Qed.

Lemma unseen_arm_b n : unseen n (arm_election_deadline n).
Proof. unfold arm_election_deadline. by destruct (uniform_range _ _ _). Qed.

Lemma unseen_life_b f n : unseen n (on_life f n).
Proof. done. Qed.

Lemma unseen_sync n : unseen n (sync_now n).
Proof. done. Qed.

(** Sending a message the histories justify. *)
Lemma rel_send_b g n d b : node_rel g n -> d <> i -> body_rel g (current_term_ n) i d b -> node_rel g (send_to d b n).
Proof.
  intros Hn Hd Hb. unfold send_to. destruct (running_ n); [|done]. destruct Hn as [R1 R2 R3 R4 R5 R6 R7 R8 R9]. split; try done.
  cbn. intros m [Hin|[<-|[]]]%in_app_iff; [by apply R9|]. destruct R2 as [_ ->]. split; [done|]. split; [cbn; congruence|done].
Qed.

Lemma send_writes d b (n : node) : writes n (send_to d b n).
Proof. unfold send_to. destruct (running_ n); [by apply writes_none|done]. Qed.

Lemma send_raft d b (n : node) : raft_ (send_to d b n) = raft_ n /\ self_ (send_to d b n) = self_ n /\ cfg_ (send_to d b n) = cfg_ n.
Proof. unfold send_to. by destruct (running_ n). Qed.

(** After steps of the server itself. *)
Lemma rel_make_b g g' n n' vs :
  node_rel g n ->
  (forall m, In m (net g) -> In m (net g')) -> (forall b, In b (ballots g) -> In b (ballots g')) ->
  nodes g' i = abs vs n' ->
  (role_ n' = Candidate -> length (votes_granted_ n') = length cl /\ forall v, In v vs <-> granted n' v) ->
  mem_ n' = mem_ n -> repl_ n' = repl_ n -> outbox n' = outbox n -> cfg_ n' = cfg_ n -> self_ n' = self_ n ->
  Zlen (snap_state_ n') = snap_base_ n' -> snap_persisted_base_ n' = snap_base_ n' ->
  0 <= applied_index_ n' <= Z.max (commit_index_ n') (snap_base_ n') ->
  0 <= commit_index_ n' <= llen n' ->
  (role_ n' = Leader -> role_ n = Leader /\ current_term_ n' = current_term_ n /\ llen n <= llen n') ->
  node_rel g' n'.
Proof.
  intros [R1 R2 R3 R4 R5 R6 R7 R8 R9] Hn Hb Ha Hv Hm Hr Ho Hcf Hse Hs Hpe Hap Hc Hl.
  split; unfold static; rewrite ?Hm, ?Hr, ?Ho, ?Hcf, ?Hse; auto.
  - by exists vs.
  - intros Hlead. destruct (Hl Hlead) as (Hl0 & Ht & Hll). destruct (R8 Hl0) as (L1 & L2 & L3). split; [done|]. split; [done|].
    intros k id Hk. destruct (L3 k id Hk) as [H1 H2].
    rewrite Ht. split; [lia|]. intros Hne. destruct (H2 Hne) as [|Hak]; [by left|right]. by eapply acked_mono.
  - intros m Hin. destruct (R9 m Hin) as (M1 & M2 & M3). split; [done|]. split; [done|]. by eapply body_rel_mono.
Qed.

Lemma rel_term_b g n : node_rel g n -> a_term (nodes g i) = current_term_ n.
Proof. intros Hn. destruct (r_abs _ _ Hn) as (vs & -> & _). done. Qed.

(** *** Adopting a term *)

Lemma step_down_sim_b t n : sim n (maybe_step_down t n).
Proof.
  unfold maybe_step_down. destruct (_ <=? _) eqn:E; [done|]. etransitivity; [|apply unseen_sim_b, unseen_sync]. intros g Hg Hn.
  destruct (r_abs _ _ Hn) as (vs & Ha & _). pose proof (rel_term_b _ _ Hn) as Ht.
  eexists. split; [apply own_step; [apply (StepDown cl g i t); lia|intros j Hj; cbn; by apply upd_other]|]. split.
  - pose proof Hn as [R1 R2 R3 R4 R5 R6 R7 R8 R9]. apply (rel_make_b g _ n _ []); try done; cbn. by rewrite upd_same, Ha.
  - by eapply writes_one.
Qed.

(** Recognising the leader of the term. *)
Lemma demote_sim_b n : sim n (set_role Follower n).
Proof.
  intros g Hg Hn. destruct (r_abs _ _ Hn) as (vs & Ha & _).
  eexists. split; [apply own_step; [apply (Demote cl g i (a_commit (nodes g i)) (a_votes (nodes g i))); done|]|].
  - intros j Hj. cbn. by apply upd_other.
  - split; [|by apply writes_none]. pose proof Hn as [R1 R2 R3 R4 R5 R6 R7 R8 R9]. apply (rel_make_b g _ n _ vs); try done; cbn.
    by rewrite upd_same, Ha.
Qed.

Lemma recognise_sim_b src n : sim n (arm_election_deadline (set_leader_hint src (set_role Follower n))).
Proof.
  etransitivity; [apply demote_sim_b|]. etransitivity; [apply unseen_sim_b, (unseen_life_b (fun r => {| r with leader_hint_ := src |}))|].
  apply unseen_sim_b, unseen_arm_b.
Qed.

(** *** Voting *)

Lemma request_vote_sim_b from term idx lt c n :
  forall g, reachable cl g -> node_rel g n -> msg_rel g (i, mkMsgB term from (RequestVote idx lt c)) -> term <= current_term_ n ->
  follows g n (on_request_vote from term idx lt c n).
Proof.
  intros g Hg Hn (Hsrc & Hne & Hb) Hle. cbn [mb_from mb_term mb_body fst snd] in *. destruct Hb as (l & Hreq & -> & ->).
  unfold on_request_vote. destruct (term <? current_term_ n) eqn:El.
  { exists g. split; [apply rtc_refl|]. split; [by apply rel_send_b|apply send_writes]. }
  assert (Ht : term = current_term_ n) by lia. destruct (r_abs _ _ Hn) as (vs & Ha & Hvs).
  pose proof (inv_reachable _ _ Hg) as Hinv. pose proof (r_snap _ _ Hn) as Hsnap.
  destruct (_ && _ && _) eqn:Eg.
  2: { exists g. split; [apply rtc_refl|]. split; [by apply rel_send_b|apply send_writes]. }
  set (n1 := arm_election_deadline _). assert (Hraft : raft_ n1 = {| (raft_ n) with voted_for_ := Some from |})
    by (unfold n1; by rewrite (u_raft _ _ (unseen_arm_b _))).
  assert (Hw : writes n n1).
  { transitivity (persist_term_vote (on_raft (fun r => {| r with voted_for_ := Some from |}) n)); [by eapply writes_one|].
    apply unseen_writes. transitivity (sync_now (persist_term_vote (on_raft (fun r => {| r with voted_for_ := Some from |}) n))); [done|apply unseen_arm_b]. }
  rewrite !andb_true_iff in Eg. destruct Eg as [[Ev Eu] _].
  assert (Hmake : forall g1, (forall m, In m (net g) -> In m (net g1)) -> (forall b, In b (ballots g) -> In b (ballots g1)) ->
    nodes g1 i = mkANode (current_term_ n) (Some from) (role_ n) (log_view n) (Z.to_nat (Z.max (commit_index_ n) (snap_base_ n))) vs -> node_rel g1 n1).
  { intros g1 G1 G2 G3. eapply unseen_rel_b; [apply unseen_arm_b|].
    pose proof Hn as [R1 R2 R3 R4 R5 R6 R7 R8 R9]. by apply (rel_make_b g _ n _ vs). }
  destruct (voted_for_ n) as [v|] eqn:Evote.
  - assert (v = from) as -> by lia. exists g. split; [apply rtc_refl|].
    assert (H1 : node_rel g n1) by (apply Hmake; [done|done|]; rewrite Ha; unfold abs; by rewrite Evote).
    split; [|by etransitivity; [exact Hw|apply send_writes]]. apply rel_send_b; [done|done|]. cbn.
    assert (Hv : a_vote (nodes g i) = Some from) by (by rewrite Ha).
    destruct (n_vote _ _ _ _ (i_servers _ _ Hinv i) _ Hv) as [l' Hl']. exists l'. rewrite Hraft. cbn. by rewrite (rel_term_b _ _ Hn) in Hl'.
  - eexists. split; [apply own_step|split].
    + apply (Grant cl g i term from l); [done|done|by rewrite Ha|by rewrite Ha|].
      rewrite Ha. cbn. unfold up_to_date. rewrite last_log_term_view_b in Eu by done. rewrite llen_view_b in Eu by done.
      unfold Zlen in Eu. lia.
    + intros j Hj. cbn. by apply upd_other.
    + apply rel_send_b; [|done|].
      * apply Hmake; [done|intros b Hbin; by right|]. cbn. rewrite upd_same, Ha. cbn. by rewrite Ht.
      * cbn. exists (a_log (nodes g i)). left. rewrite Hraft. cbn. by rewrite Ht.
    + etransitivity; [exact Hw|apply send_writes].
Qed.

(** *** Replicating *)

Lemma index_in_lookup_b id l k0 : In id l -> exists k, l !! k = Some id /\ index_in id l k0 = (k0 + k)%nat.
Proof.
  revert k0. induction l as [|x l IH]; intros k0 [].
  - subst. exists 0%nat. cbn. rewrite Z.eqb_refl. split; [done|lia].
  - cbn. destruct (Z.eqb_spec x id) as [->|Hne]; [exists 0%nat; split; [done|lia]|].
    destruct (IH (S k0) H) as (k & Hk & He). exists (S k). split; [done|]. rewrite He. lia.
Qed.

Lemma static_idx n id : static n -> In id cl -> cl !! index_of n id = Some id.
Proof.
  intros [Hc _] Hin. unfold index_of. rewrite Hc, Hcluster. by destruct (index_in_lookup_b id cl 0 Hin) as (k & Hk & ->).
Qed.

Lemma same_idx j k id : cl !! j = Some id -> cl !! k = Some id -> j = k.
Proof. intros H1 H2. by eapply NoDup_lookup. Qed.

(** Changing the replication bookkeeping. *)
Lemma rel_repl_b g n f :
  node_rel g n ->
  (role_ n = Leader ->
    length (next_index_ (f (repl_ n))) = length cl /\ length (match_index_ (f (repl_ n))) = length cl /\
    forall k id, cl !! k = Some id ->
    1 <= nth k (next_index_ (f (repl_ n))) 0 <= llen n + 1 /\
    (id <> i -> nth k (match_index_ (f (repl_ n))) 0 <= 0 \/
                acked g (current_term_ n) id (Z.to_nat (nth k (match_index_ (f (repl_ n))) 0)))) ->
  node_rel g (on_repl f n).
Proof. intros [R1 R2 R3 R4 R5 R6 R7 R8 R9] H. by split. Qed.

Lemma repl_writes f (n : node) : writes n (on_repl f n).
Proof. by apply writes_none. Qed.

Lemma flags_sim_b f (n : node) : next_index_ (f (repl_ n)) = next_index_ n -> match_index_ (f (repl_ n)) = match_index_ n -> sim n (on_repl f n).
Proof.
  intros H1 H2 g _ Hn. exists g. split; [apply rtc_refl|]. split; [|apply repl_writes]. apply rel_repl_b; [done|].
  rewrite H1, H2. apply (r_leader _ _ Hn).
Qed.

(** The histories grow by one message. *)
Lemma rel_more g n m : node_rel g n -> node_rel (send m g) n.
Proof.
  intros Hn. destruct (r_abs _ _ Hn) as (vs & Ha & Hv). pose proof Hn as [R1 R2 R3 R4 R5 R6 R7 R8 R9].
  apply (rel_make_b g _ n _ vs); try done. intros m' Hin. by right.
Qed.

Lemma send_append_sim d (n : node) : role_ n = Leader -> In d cl -> d <> i -> llen n < 2 ^ 64 - 1 -> sim n (send_append_entries d n).
Proof.
  intros Hl Hd Hne Hsmall g Hg Hn. destruct (r_abs _ _ Hn) as (vs & Ha & _). pose proof (r_snap _ _ Hn) as Hsnap.
  destruct (r_leader _ _ Hn Hl) as (L1 & L2 & L3). pose proof (static_idx n d (r_static _ _ Hn) Hd) as Hdi.
  destruct (L3 _ _ Hdi) as [Hni _]. pose proof (r_commit _ _ Hn) as Hc.
  pose proof (snap_nonneg_b n Hsnap) as Hs0. pose proof (llen_view_b n Hsnap) as Hlen. apply lookup_lt_Some in Hdi as Hlt.
  unfold send_append_entries. set (di := index_of n d) in *.
  assert (Hnx : match next_index_ n with [] => llen n + 1 | _ => nth di (next_index_ n) 0 end = nth di (next_index_ n) 0)
    by (destruct (next_index_ n); [cbn in L1; lia|done]).
  rewrite Hnx, (proj2 (Z.ltb_ge _ 1)) by lia. set (prev := nth di (next_index_ n) 0 - 1) in *.
  destruct (prev <? snap_base_ n) eqn:Ep.
  - exists (send (Snap (a_term (nodes g i)) i (take (Z.to_nat (snap_base_ n)) (a_log (nodes g i)))) g). split.
    + apply own_step; [|done]. apply (SendSnap cl g i (Z.to_nat (snap_base_ n))); rewrite Ha; cbn; [done|lia].
    + unfold send_install_snapshot. split; [|apply send_writes]. apply rel_send_b; [by apply rel_more|done|].
      cbn. split; [done|]. left. rewrite Ha. cbn. f_equal. unfold log_view.
      rewrite <- Hsnap. unfold Zlen. by rewrite Nat2Z.id, take_app_length.
  - rewrite u64_id by lia. set (count := if llen n - prev <? kMaxBatch then llen n - prev else kMaxBatch).
    assert (Hcount : Z.to_nat count = Nat.min 64 (Z.to_nat (llen n - prev))) by (unfold count, kMaxBatch; destruct (Z.ltb_spec (llen n - prev) 64); lia).
    exists (send (Append (a_term (nodes g i)) i (Z.to_nat prev) (term_of (a_log (nodes g i)) (Z.to_nat prev))
                   (take 64 (drop (Z.to_nat prev) (a_log (nodes g i)))) (Z.to_nat (commit_index_ n))) g). split.
    + apply own_step; [|done]. apply (Replicate cl g i (Z.to_nat prev) 64); rewrite Ha; cbn; [done| |lia]. unfold Zlen in Hlen. lia.
    + split; [|etransitivity; [apply repl_writes|apply send_writes]]. apply rel_send_b; [|done|].
      * apply rel_repl_b; [by apply rel_more|]. intros _. cbn. split; [done|]. split; [done|].
        intros k id Hk. destruct (L3 k id Hk) as [H1 H2]. split; [done|]. intros Hid. destruct (H2 Hid) as [|Hak]; [by left|right].
        eapply acked_mono; [|done]. intros m Hin. by right.
      * unfold body_rel. split_and!; [lia|lia|]. left. rewrite Ha. cbn [a_term a_log abs].
        rewrite Hcount, term_at_view_b, batch_view_b by (done || lia). done.
Qed.

Lemma send_append_same d (n : node) :
  raft_ (send_append_entries d n) = raft_ n /\ peers (send_append_entries d n) = peers n /\ self_ (send_append_entries d n) = self_ n.
Proof.
  unfold send_append_entries, send_install_snapshot, peers. destruct (_ <? snap_base_ n).
  - by destruct (send_raft d (InstallSnapshot (snap_base_ n) (snap_state_ n)) n) as (-> & -> & ->).
  - match goal with |- context [send_to d ?b ?x] => destruct (send_raft d b x) as (-> & -> & ->) end. done.
Qed.

Lemma fold_append_sim l (n : node) : role_ n = Leader -> llen n < 2 ^ 64 - 1 -> (forall d, In d l -> In d cl /\ d <> i) ->
  sim n (fold_left (fun (n : node) d => send_append_entries d n) l n).
Proof.
  revert n. induction l as [|d l IH]; intros n Hl Hs Hin; [done|]. cbn [fold_left]. destruct (send_append_same d n) as (Hr & _).
  etransitivity; [apply (send_append_sim d); [done|apply Hin; by left|apply Hin; by left|done]|].
  apply IH; [by rewrite Hr|unfold llen in *; by rewrite Hr|]. intros x Hx. apply Hin. by right.
Qed.

Lemma peers_in_b n d : static n -> In d (peers n) -> In d cl /\ d <> i.
Proof.
  intros [Hc Hs] Hd. unfold peers in Hd. rewrite Hc, Hs, Hcluster in Hd. apply list_elem_of_In, list_elem_of_filter in Hd as [H1 H2].
  split; [by apply list_elem_of_In|done].
Qed.

Lemma broadcast_sim_b n : llen n < 2 ^ 64 - 1 -> sim n (broadcast_append_entries n).
Proof.
  intros Hs. unfold broadcast_append_entries. destruct (bool_decide (role_ n = Leader)) eqn:E; [|done]. cbn [negb].
  apply bool_decide_eq_true in E. intros g Hg Hn. apply (fold_append_sim (peers n) n E Hs); [|done|done].
  intros d. apply peers_in_b, (r_static _ _ Hn).
Qed.

Lemma fold_append_raft l (n : node) : raft_ (fold_left (fun (n : node) d => send_append_entries d n) l n) = raft_ n.
Proof. revert n. induction l as [|d l IH]; intros n; [done|]. cbn [fold_left]. rewrite IH. apply send_append_same. Qed.

Lemma broadcast_raft n : raft_ (broadcast_append_entries n) = raft_ n.
Proof. unfold broadcast_append_entries. destruct (negb _); [done|apply fold_append_raft]. Qed.

(** *** Winning an election *)

Lemma config_rel_b g n : node_rel g n -> config n = cl /\ chain_empty n = false.
Proof. intros Hn. unfold config, chain_empty. destruct (r_config _ _ Hn) as (-> & -> & _). done. Qed.

Lemma in_config_rel_b g n id : node_rel g n -> In id cl -> in_current_config n id = true.
Proof.
  intros Hn Hin. unfold in_current_config. destruct (config_rel_b _ _ Hn) as [-> ->]. cbn. unfold in_config.
  apply existsb_exists. exists id. split; [done|apply Z.eqb_refl].
Qed.

Lemma quorum_rel_b g n : node_rel g n -> quorum n = (length cl / 2 + 1)%nat.
Proof. intros Hn. unfold quorum. by destruct (config_rel_b _ _ Hn) as [-> ->]. Qed.

Lemma nth_cl_b j : (j < length cl)%nat -> cl !! j = Some (nth j cl 0).
Proof. intros Hj. destruct (nth_lookup_or_length cl j 0); [done|lia]. Qed.

(** Members at distinct positions are distinct. *)
Lemma members_nodup (P : nat -> bool) k : (k <= length cl)%nat -> NoDup (map (fun j => nth j cl 0) (filter (fun j => P j = true) (seq 0 k))).
Proof.
  intros Hk. apply NoDup_fmap_2_strong; [|apply NoDup_filter, NoDup_seq]. intros x y Hx Hy He.
  apply list_elem_of_filter in Hx as [_ Hx%elem_of_seq], Hy as [_ Hy%elem_of_seq].
  eapply NoDup_lookup; [exact Hnodup|apply nth_cl_b; lia|]. rewrite He. apply nth_cl_b. lia.
Qed.

Lemma votes_majority_b g n vs : reachable cl g -> node_rel g n -> role_ n = Candidate -> nodes g i = abs vs n ->
  length (votes_granted_ n) = length cl -> (forall v, In v vs <-> granted n v) -> (quorum n <= votes_count n)%nat -> majority cl vs.
Proof.
  intros Hg%inv_reachable Hn Hr Ha Hlen Hv Hq. pose proof (i_servers _ _ Hg i) as Hs. rewrite Ha in Hs.
  destruct (n_cand _ _ _ _ Hs Hr) as (Hnd & _ & _). cbn in Hnd. split_and!; [done| |].
  - intros v (k & Hk & _)%Hv. by eapply list_elem_of_In, list_elem_of_lookup_2.
  - rewrite (quorum_rel_b _ _ Hn) in Hq. apply quorum_more. etrans; [exact Hq|]. unfold votes_count. rewrite Hlen.
    rewrite <- (length_map (fun j => nth j cl 0)). apply NoDup_incl_length.
    + apply NoDup_ListNoDup, (members_nodup (fun j => _ && _ && _)). done.
    + intros v (j & <- & Hj)%in_map_iff. apply list_elem_of_In, list_elem_of_filter in Hj as [Hp Hj%elem_of_seq].
      apply Hv. exists j. split; [apply nth_cl_b; lia|]. rewrite !andb_true_iff in Hp. apply Hp.
Qed.

Lemma settled_rel_b g n : node_rel g n -> maybe_commit_config n = n.
Proof.
  intros Hn. unfold maybe_commit_config. destruct (negb _ || _); [done|]. destruct (r_config _ _ Hn) as (-> & _ & ->). done.
Qed.

Lemma become_leader_sim_b (n : node) : role_ n = Candidate -> (quorum n <= votes_count n)%nat -> llen n < 2 ^ 64 - 1 -> sim n (become_leader n).
Proof.
  intros Hr Hq Hsmall g Hg Hn. destruct (r_abs _ _ Hn) as (vs & Ha & Hvs). destruct (Hvs Hr) as [Hvl Hvg]. unfold become_leader.
  set (n1 := set_leader_hint _ _). set (n2 := on_repl _ n1). set (n3 := on_mem _ n2).
  pose proof Hn as [R1 R2 R3 R4 R5 R6 R7 R8 R9].
  set (g1 := win (a_term (nodes g i)) (mkElection i (a_log (nodes g i)) (a_votes (nodes g i)))
    (set_node i (mkANode (a_term (nodes g i)) (a_vote (nodes g i)) Leader (a_log (nodes g i)) (a_commit (nodes g i)) (a_votes (nodes g i))) g)).
  assert (Hs1 : steps cl i g g1).
  { apply own_step; [|intros j Hj; cbn; by apply upd_other]. apply (Elect cl g i); rewrite Ha; [done|]. by apply (votes_majority_b g n vs). }
  assert (Hk : cluster_size n1 = length cl) by (unfold cluster_size; destruct R2 as [Hcf _]; cbn; by rewrite Hcf, Hcluster).
  assert (Hn3 : node_rel g1 n3).
  { split; try done.
    - exists vs. split; [|done]. cbn. rewrite upd_same, Ha. done.
    - cbn. destruct R3 as (-> & -> & _). done.
    - intros _. cbn. rewrite length_insert, !length_replicate, Hk. split; [done|]. split; [done|].
      intros k id Hin. apply lookup_lt_Some in Hin as Hlt. pose proof (snap_nonneg_b n R4). pose proof (Zlen_nonneg (log_ n)).
      unfold llen in *. cbn in *. split; [rewrite nth_lookup, lookup_replicate_2 by done; cbn; lia|].
      intros Hid. left. rewrite nth_lookup, list_lookup_insert_ne; [by rewrite lookup_replicate_2|].
      intros Heq. apply Hid. pose proof R2 as [_ Hse]. rewrite Hse in Heq.
      pose proof (static_idx n1 i R2 Hi) as Hlook. rewrite Heq in Hlook. congruence. }
  assert (Hg1 : reachable cl g1) by (by eapply steps_reach).
  destruct (broadcast_sim_b n3 Hsmall g1 Hg1 Hn3) as (g2 & Hs2 & Hn4 & W).
  exists g2. split; [by transitivity g1|]. set (n4 := broadcast_append_entries n3) in *.
  destruct (r_config _ _ Hn4) as (_ & -> & ->). rewrite Z.ltb_irrefl. rewrite (settled_rel_b g2) by done. split; [done|].
  transitivity n3; [by apply writes_none|done].
Qed.

(** Setting the flag of a member. *)
Lemma granted_set (n : node) v k l : cl !! k = Some v -> length (votes_granted_ n) = length cl ->
  votes_granted_ n = l -> forall n' : node, votes_granted_ n' = <[k := true]> l -> forall u, granted n' u <-> u = v \/ granted n u.
Proof.
  intros Hk Hlen Hl n' Hn' u. unfold granted. rewrite Hn'. subst l. apply lookup_lt_Some in Hk as Hlt. split.
  - intros (j & Hj & Hf). destruct (decide (j = k)) as [->|Hne]; [left; congruence|right]. exists j. split; [done|].
    by rewrite nth_lookup, list_lookup_insert_ne, <- nth_lookup in Hf.
  - intros [->|(j & Hj & Hf)]; [exists k|exists j]; (split; [done|]).
    + by rewrite nth_lookup, list_lookup_insert_eq by lia.
    + destruct (decide (j = k)) as [->|Hne]; [by rewrite nth_lookup, list_lookup_insert_eq by lia|].
      by rewrite nth_lookup, list_lookup_insert_ne, <- nth_lookup.
Qed.

Lemma vote_response_sim_b from term gr n :
  forall g, reachable cl g -> node_rel g n -> msg_rel g (i, mkMsgB term from (RequestVoteResp gr)) -> llen n < 2 ^ 64 - 1 ->
  follows g n (on_vote_response from term gr n).
Proof.
  intros g Hg Hn (Hsrc & Hne & Hb) Hsmall. cbn [mb_from mb_term mb_body fst snd] in *. unfold on_vote_response.
  destruct (_ || _ || _) eqn:E; [by apply sim_refl_b|]. rewrite !orb_false_iff, !negb_false_iff in E.
  destruct E as [[Hr%bool_decide_eq_true Ht] ->]. destruct Hb as [l Hb]. destruct (r_abs _ _ Hn) as (vs & Ha & Hvs). destruct (Hvs Hr) as [Hvl Hvg].
  pose proof (static_idx n from (r_static _ _ Hn) Hsrc) as Hk. set (n1 := on_raft _ n).
  pose proof (granted_set n from _ _ Hk Hvl eq_refl n1 eq_refl) as Hset.
  assert (H1 : follows g n n1).
  { pose proof Hn as [R1 R2 R3 R4 R5 R6 R7 R8 R9]. destruct (in_dec Z.eq_dec from vs) as [Hin|Hnin].
    - exists g. split; [apply rtc_refl|]. split; [|by apply writes_none]. apply (rel_make_b g _ n _ vs); try done.
      intros _. split; [cbn; by rewrite length_insert|]. intros v. rewrite Hset, Hvg. split; [by right|]. intros [->|]; [by apply Hvg|done].
    - eexists. split; [apply own_step|].
      + apply (Collect cl g i from l); rewrite Ha; [done| |done]. cbn. by replace (current_term_ n) with term by lia.
      + intros j Hj. cbn. by apply upd_other.
      + split; [|by apply writes_none]. apply (rel_make_b g _ n _ (vs ++ [from])); try done.
        * cbn. rewrite upd_same, Ha. unfold abs. cbn. by rewrite Hr.
        * intros _. split; [cbn; by rewrite length_insert|]. intros v. rewrite Hset, in_app_iff, Hvg. cbn. intuition congruence. }
  destruct (_ <=? _)%nat eqn:Eq; [|done]. eapply follows_sim; [done|exact H1|]. apply become_leader_sim_b; [done|lia|done].
Qed.

(** *** Standing for election *)

(** Asking for votes after standing. *)
Lemma ask_rel g b l : (forall n : node, node_rel g n -> raft_ n = b -> forall d, In d l -> d <> i /\ body_rel g (current_term_ n) i d (RequestVote (llen n) (last_log_term n) 0)) ->
  forall (n : node) x, node_rel g n -> raft_ n = b -> x = RequestVote (llen n) (last_log_term n) 0 ->
  node_rel g (fold_left (fun (n : node) d => send_to d x n) l n) /\ writes n (fold_left (fun (n : node) d => send_to d x n) l n).
Proof.
  induction l as [|d l IH]; intros Hl n x Hn Hb Hx; [done|]. cbn [fold_left]. destruct (send_raft d x n) as (E & _).
  destruct (Hl n Hn Hb d (or_introl eq_refl)) as [Hd Hbody].
  destruct (IH (fun n' H1 H2 d' H3 => Hl n' H1 H2 d' (or_intror H3)) (send_to d x n) x) as [H1 H2].
  - apply rel_send_b; [done|done|by rewrite Hx].
  - by rewrite E.
  - unfold last_log_term, term_at, llen in *. by rewrite E.
  - split; [done|]. etransitivity; [apply send_writes|done].
Qed.

Lemma stand_follows g (n n' : node) : reachable cl g -> node_rel g n -> role_ n <> Leader -> 0 <= current_term_ n < 2 ^ 64 - 1 ->
  n' = sync_now (persist_term_vote (on_raft (fun r => {| r with current_term_ := u64 (current_term_ r + 1); role_ := Candidate; voted_for_ := Some (self_ n);
      votes_granted_ := <[index_of n (self_ n) := true]> (replicate (cluster_size n) false) |}) n)) ->
  exists g1, steps cl i g g1 /\ node_rel g1 n' /\ writes n n' /\ In (ReqVote (current_term_ n') i (log_view n')) (net g1).
Proof.
  intros Hg Hn Hr Ht ->. destruct (r_abs _ _ Hn) as (vs & Ha & _). pose proof Hn as [R1 R2 R3 R4 R5 R6 R7 R8 R9]. pose proof R2 as [Hcf Hse].
  assert (Hsize : cluster_size n = length cl) by (unfold cluster_size; by rewrite Hcf, Hcluster).
  pose proof (static_idx n i R2 Hi) as Hk. apply lookup_lt_Some in Hk as Hlt.
  eexists. split; [apply own_step|split; [|split]].
  - apply (RaftProtocol.Timeout cl g i); [done|by rewrite Ha].
  - intros j Hj. cbn. by apply upd_other.
  - eapply unseen_rel_b; [apply unseen_sync|]. apply (rel_make_b g _ n _ [i]); try done; cbn; [by right|by right| |].
    + rewrite upd_same, Ha. unfold abs. cbn. rewrite Hse. by rewrite u64_id by lia.
    + intros _. rewrite length_insert, length_replicate, Hsize. split; [done|]. intros v. unfold granted. cbn. rewrite Hse. split.
      * intros [<-|[]]. exists (index_of n i). split; [done|]. rewrite nth_lookup, list_lookup_insert_eq by (rewrite length_replicate; lia). done.
      * intros (j & Hj & Hf). left. destruct (decide (j = index_of n i)) as [->|Hne]; [congruence|].
        rewrite nth_lookup, list_lookup_insert_ne in Hf by done. apply lookup_lt_Some in Hj. by rewrite lookup_replicate_2 in Hf by lia.
  - etransitivity; [|apply unseen_writes, unseen_sync]. by eapply writes_one.
  - cbn. left. rewrite Ha. cbn. by rewrite u64_id by lia.
Qed.

Lemma begin_election_sim (n : node) : role_ n <> Leader -> 0 <= current_term_ n < 2 ^ 64 - 1 -> llen n < 2 ^ 64 - 1 -> sim n (begin_election n).
Proof.
  intros Hr Ht Hsmall. unfold begin_election. destruct (negb _); [apply unseen_sim_b, unseen_arm_b|].
  intros g Hg Hn. set (n1 := sync_now _). destruct (stand_follows g n n1 Hg Hn Hr Ht eq_refl) as (g1 & Hs1 & Hn1 & W1 & Hreq).
  assert (Hg1 : reachable cl g1) by (by eapply steps_reach). assert (F : follows g n n1) by (by exists g1).
  destruct (quorum n1 =? 1)%nat eqn:Eq.
  - eapply follows_sim; [done|exact F|]. etransitivity; [apply unseen_sim_b, unseen_arm_b|].
    pose proof (unseen_arm_b n1) as [U1 U2 U3 U4 U5 U6 U7].
    apply become_leader_sim_b; [by rewrite U1| |unfold llen; rewrite U1; done].
    unfold votes_count, quorum, in_current_config, chain_empty, config, cluster_size. rewrite U1, U2, U5. change (quorum n1 <= votes_count n1)%nat.
    apply Nat.eqb_eq in Eq. rewrite Eq. pose proof (static_idx n i (r_static _ _ Hn) Hi) as Hk. apply lookup_lt_Some in Hk as Hlt.
    assert (Hin : In (index_of n i) (filter (fun j => nth j (votes_granted_ n1) false && Nat.ltb j (cluster_size n1) && in_current_config n1 (nth j (cluster (cfg_ n1)) 0) = true)
      (seq 0 (length (votes_granted_ n1))))).
    { destruct (r_abs _ _ Hn1) as (vs & _ & Hvs). destruct (Hvs eq_refl) as [Hl _]. pose proof (r_static _ _ Hn1) as [Hcf Hse].
      apply list_elem_of_In, list_elem_of_filter. split; [|apply elem_of_seq; lia]. rewrite !andb_true_iff. split_and!.
      - pose proof (r_static _ _ Hn) as [_ Hse0]. cbn. cbn in Hl. rewrite length_insert in Hl.
        rewrite Hse0, nth_lookup, list_lookup_insert_eq by lia. done.
      - unfold cluster_size. rewrite Hcf, Hcluster. apply Nat.ltb_lt. lia.
      - apply (in_config_rel_b g1); [done|]. rewrite Hcf, Hcluster. by apply nth_In. }
    unfold votes_count. destruct (filter _ _); [done|]. cbn. lia.
  - eapply follows_sim; [done| |apply unseen_sim_b, unseen_arm_b]. exists g1. unfold broadcast_request_vote.
    destruct (r_config _ _ Hn1) as (_ & Hci & _). rewrite Hci. destruct (ask_rel g1 (raft_ n1) (peers n1)) with (n := n1) (x := RequestVote (llen n1) (last_log_term n1) 0) as [H1 H2]; try done.
    + intros n2 Hn2 Hraft d Hd. apply peers_in_b in Hd as [_ Hd]; [|apply (r_static _ _ Hn1)]. split; [done|].
      cbn. exists (log_view n2). rewrite llen_view_b, last_log_term_view_b by apply (r_snap _ _ Hn2). split; [|done].
      unfold log_view in *. by rewrite Hraft.
    + split; [done|]. split; [done|]. by transitivity n1.
Qed.

(** *** Clients *)

Lemma client_sim_b v (n : node) : role_ n = Leader ->
  let e := mkEntry (current_term_ n) v in
  let n1 := append_entry e n in
  sim n (persist_entry (llen n1) e (on_repl (fun r => {| r with match_index_ := <[index_of n1 (self_ n1) := llen n1]> (match_index_ r) |}) n1)).
Proof.
  intros E e n1 g Hg Hn. destruct (r_abs _ _ Hn) as (vs & Ha & _). pose proof Hn as [R1 R2 R3 R4 R5 R6 R7 R8 R9].
  assert (Hll : llen n1 = llen n + 1) by (unfold n1, llen; cbn; rewrite Zlen_app; unfold Zlen; cbn; lia).
  eexists. split; [apply own_step|split].
  - apply (Client cl g i v). by rewrite Ha.
  - intros j Hj. cbn. by apply upd_other.
  - assert (H1 : node_rel (extend (a_term (nodes g i)) (a_log (nodes g i) ++ [mkEntry (a_term (nodes g i)) v]) (set_node i
        (mkANode (a_term (nodes g i)) (a_vote (nodes g i)) Leader (a_log (nodes g i) ++ [mkEntry (a_term (nodes g i)) v])
           (a_commit (nodes g i)) (a_votes (nodes g i))) g)) n1).
    { apply (rel_make_b g _ n _ vs); try done.
      - cbn. rewrite upd_same, Ha. unfold abs. cbn. rewrite E. unfold log_view. cbn. by rewrite app_assoc.
      - cbn. by rewrite E.
      - rewrite Hll. cbn. lia.
      - intros _. rewrite Hll. split_and!; [done|done|lia]. }
    pose proof (rel_repl_b _ n1 (fun r => {| r with match_index_ := <[index_of n1 (self_ n1) := llen n1]> (match_index_ r) |}) H1) as H2.
    assert (H3 : node_rel _ _) by (apply H2; intros _; cbn; destruct (r_leader _ _ H1 E) as (L1 & L2 & L3); rewrite length_insert; split; [done|]; split; [done|];
      intros k id Hk; destruct (L3 k id Hk) as [Q1 Q2]; split; [done|]; intros Hid; rewrite nth_lookup, list_lookup_insert_ne, <- nth_lookup; [by apply Q2|];
      intros Heq; apply Hid; destruct R2 as [_ Hse]; rewrite Hse in Heq; pose proof (static_idx n1 i (r_static _ _ H1) Hi) as Hlook; rewrite Heq in Hlook; congruence).
    destruct H3 as [Q1 Q2 Q3 Q4 Q5 Q6 Q7 Q8 Q9]. by split.
  - eapply (writes_one _ _ (BEntry (llen n1) e)); [done| |done]. cbn [apply_record pst rv_base rv_log]. rewrite Hll. unfold llen. by rewrite Z.eqb_refl.
Qed.

Lemma submit_sim_b v n : llen n < 2 ^ 64 - 2 -> sim n (submit v n).2.
Proof.
  intros Hsmall. unfold submit. destruct (_ || _) eqn:E; [done|]. apply orb_false_iff in E as [_ E].
  apply negb_false_iff, bool_decide_eq_true in E. cbn zeta.
  etransitivity; [apply (client_sim_b v n E)|]. etransitivity; [apply unseen_sim_b, unseen_sync|].
  etransitivity; [apply (flags_sim_b (fun r => {| r with repl_pending_ := true |})); done|].
  destruct (repl_kicked_ _); [done|]. cbn [snd].
  etransitivity; [apply (flags_sim_b (fun r => {| r with repl_kicked_ := true |})); done|].
  etransitivity; [apply broadcast_sim_b|].
  - unfold llen in *. cbn. rewrite Zlen_app. unfold Zlen in *. cbn. lia.
  - match goal with |- sim ?x _ => generalize x end. intros n2. by apply (flags_sim_b (fun r => {| r with repl_pending_ := false |})).
Qed.

(** *** Committing *)

Lemma rel_take_snapshot_b g n : node_rel g n -> node_rel g (take_snapshot n) /\ writes n (take_snapshot n).
Proof.
  intros Hn. unfold take_snapshot. destruct (applied_index_ n <=? snap_base_ n) eqn:Ea; [done|].
  destruct (r_abs _ _ Hn) as (vs & Ha & Hvs). pose proof Hn as [R1 R2 R3 R4 R5 R6 R7 R8 R9]. set (k := Z.to_nat (applied_index_ n - snap_base_ n)).
  pose proof (snap_nonneg_b n R4) as Hs0. assert (Hk : (k <= length (log_ n))%nat) by (unfold k, llen, Zlen in *; lia).
  set (n1 := on_life _ _). unfold persist_snapshot. change (snap_base_ n1) with (applied_index_ n). change (snap_persisted_base_ n1) with (snap_persisted_base_ n).
  rewrite R5, Ea. set (n2 := on_raft _ _).
  assert (Hview : log_view n2 = log_view n) by (unfold log_view; cbn; by rewrite <- app_assoc, take_drop).
  assert (Hlen : llen n2 = llen n) by (unfold llen; cbn; unfold Zlen; rewrite length_drop; unfold k, llen, Zlen in *; lia).
  assert (Htake : Zlen (take k (log_ n)) = applied_index_ n - snap_base_ n) by (unfold Zlen; rewrite length_take; unfold k, llen, Zlen in *; lia).
  assert (Hdelta : drop (Z.to_nat (snap_base_ n)) (snap_state_ n1) = take k (log_ n)).
  { cbn. rewrite <- R4. unfold Zlen. by rewrite Nat2Z.id, drop_app_length. }
  split.
  - eapply unseen_rel_b; [apply unseen_sync|]. apply (rel_make_b g _ n _ vs); try done.
    + rewrite Ha. unfold abs. rewrite Hview. cbn. f_equal. lia.
    + cbn. rewrite Zlen_app, R4. lia.
    + cbn. lia.
    + by rewrite Hlen.
    + intros Hl. by rewrite Hlen.
  - etransitivity; [|apply unseen_writes, unseen_sync]. unfold n2. rewrite Hdelta. eapply writes_one; [done| |done].
    cbn [apply_record pst rv_base rv_log rv_state]. rewrite Z.eqb_refl, Htake, Z.eqb_refl, (proj2 (Z.ltb_ge _ _)) by lia. cbn [negb orb].
    unfold kept, pst. cbn [rv_base rv_log]. f_equal. cbn. f_equal. fold k. destruct (_ <? _) eqn:E; [done|]. symmetry. apply drop_ge. unfold k, Zlen in *. lia.
Qed.

Lemma apply_sim n : sim n (apply_and_maybe_snapshot n).
Proof.
  unfold apply_and_maybe_snapshot. set (n1 := if applied_index_ n <? commit_index_ n then _ else _).
  assert (H1 : sim n n1).
  { unfold n1. destruct (_ <? _); [|done]. intros g _ Hn. exists g. split; [apply rtc_refl|]. split; [|by apply writes_none].
    destruct (r_abs _ _ Hn) as (vs & Ha & Hvs). pose proof Hn as [R1 R2 R3 R4 R5 R6 R7 R8 R9]. apply (rel_make_b g _ n _ vs); try done. cbn. lia. }
  etransitivity; [exact H1|]. destruct (_ && _); [|done]. intros g _ Hn. exists g. split; [apply rtc_refl|by apply rel_take_snapshot_b].
Qed.

Lemma highest_range n count k0 k : highest_committable n count k0 = Some k ->
  k0 - Z.of_nat count < k <= k0 /\ term_at n k = current_term_ n /\ (quorum n <= agreeing n k)%nat.
Proof.
  revert k0. induction count as [|count IH]; intros k0; [done|]. cbn [highest_committable].
  destruct (term_at n k0 =? current_term_ n) eqn:Et; cbn [negb]; [|intros H%IH; lia].
  destruct (_ <=? _)%nat eqn:Eq; [|intros H%IH; lia]. intros [= <-]. lia.
Qed.

(** The members that store a position. *)
Definition holders (n : node) (k : Z) : list Z :=
  map (fun j => nth j cl 0) (filter (fun j =>
    in_current_config n (nth j cl 0) && (if nth j cl 0 =? self_ n then k <=? llen n else k <=? nth j (match_index_ n) 0) = true) (seq 0 (length cl))).

Lemma holders_majority_b g n k : node_rel g n -> role_ n = Leader -> (quorum n <= agreeing n k)%nat -> majority cl (holders n k).
Proof.
  intros Hn Hl Hq. destruct (r_leader _ _ Hn Hl) as (_ & Hlen & _). unfold holders. split_and!.
  - by apply (members_nodup (fun j => _ && _)).
  - intros v (j & <- & Hj)%in_map_iff. apply list_elem_of_In, list_elem_of_filter in Hj as [_ Hj%elem_of_seq]. apply nth_In. lia.
  - rewrite length_map. rewrite (quorum_rel_b _ _ Hn) in Hq. unfold agreeing in Hq. rewrite Hlen in Hq.
    destruct (r_static _ _ Hn) as [Hcf _]. rewrite Hcf, Hcluster in Hq. by apply quorum_more.
Qed.

Lemma holders_acked_b g n k v : node_rel g n -> role_ n = Leader -> 0 < k -> In v (holders n k) -> v = i \/ acked g (current_term_ n) v (Z.to_nat k).
Proof.
  intros Hn Hl Hk (j & <- & Hj)%in_map_iff. apply list_elem_of_In, list_elem_of_filter in Hj as [Hp Hj%elem_of_seq].
  apply andb_true_iff in Hp as [_ Hp]. destruct (r_static _ _ Hn) as [_ Hse]. rewrite Hse in Hp. destruct (Z.eqb_spec (nth j cl 0) i) as [|Hne]; [by left|].
  right. destruct (r_leader _ _ Hn Hl) as (_ & _ & L3). destruct (L3 j (nth j cl 0) (nth_cl_b j ltac:(lia))) as [_ Hm].
  destruct (Hm Hne) as [|(k' & Hk' & Hin)]; [lia|]. exists k'. split; [lia|done].
Qed.

Lemma advance_commit_sim_b (n : node) : role_ n = Leader -> sim n (advance_commit_index n).
Proof.
  intros E. unfold advance_commit_index. destruct (highest_committable _ _ _) as [k|] eqn:Eh; [|done].
  apply highest_range in Eh as (Hrange & Ht & Hq).
  intros g Hg Hn. destruct (r_abs _ _ Hn) as (vs & Ha & Hvs). pose proof Hn as [R1 R2 R3 R4 R5 R6 R7 R8 R9].
  pose proof (llen_view_b n R4) as Hlen. assert (Hk : commit_index_ n < k <= llen n) by lia. unfold Zlen in Hlen.
  set (g1 := send (Ack (a_term (nodes g i)) i (Z.to_nat k)) g).
  assert (Hs1 : steps cl i g g1).
  { apply own_step; [|done]. apply (AckSelf cl g i (Z.to_nat k)); [done|by rewrite Ha|]. rewrite Ha. cbn. lia. }
  assert (Hacks : forall v, In v (holders n k) -> acked g1 (current_term_ n) v (Z.to_nat k)).
  { intros v Hv. destruct (holders_acked_b g n k v Hn E ltac:(lia) Hv) as [->|Hak].
    - exists (Z.to_nat k). split; [done|]. left. by rewrite Ha.
    - eapply acked_mono; [|done]. intros m Hin. by right. }
  eexists. split; [transitivity g1; [done|]; apply own_step|split; [|by apply writes_none]].
  - apply (Commit cl g1 i (Z.to_nat k) (holders n k)); change (nodes g1 i) with (nodes g i) in *; rewrite ?Ha; cbn.
    + done.
    + lia.
    + by rewrite <- term_at_view_b by (done || lia).
    + by apply (holders_majority_b g).
    + done.
  - intros j Hj. cbn. by apply upd_other.
  - apply (rel_make_b g _ n _ vs); try done; cbn.
    + intros m Hin. by right.
    + rewrite upd_same. change (nodes g1 i) with (nodes g i). rewrite Ha. unfold abs. cbn. rewrite E. f_equal. lia.
    + lia.
    + unfold llen in *. cbn. lia.
Qed.

Lemma commit_apply_sim_b (n : node) : role_ n = Leader -> sim n (apply_and_maybe_snapshot (advance_commit_index n)).
Proof. intros Hl. etransitivity; [by apply advance_commit_sim_b|apply apply_sim]. Qed.

(** *** Appending *)

(** Everything but the Raft state, the queue and the timers is kept. *)
Record beside (n n' : node) : Prop := {
  b_mem : mem_ n' = mem_ n;
  b_repl : repl_ n' = repl_ n;
  b_out : outbox n' = outbox n;
  b_cfg : cfg_ n' = cfg_ n;
  b_self : self_ n' = self_ n
}.

#[local] Instance beside_refl_b : Reflexive beside.
Proof. by intros n. Qed.

#[local] Instance beside_trans_b : Transitive beside.
Proof. intros a b c [] []. split; congruence. Qed.

Lemma beside_unseen_b n n' : unseen n n' -> beside n n'.
Proof. by intros []. Qed.

Lemma append_one e (n : node) : writes n (let n := append_entry e n in persist_entry (llen n) e n).
Proof.
  eapply writes_one; [done| |done]. cbn [apply_record pst rv_base rv_log]. unfold llen. cbn. rewrite Zlen_app.
  rewrite (proj2 (Z.eqb_eq _ _)) by (unfold Zlen; cbn; lia). done.
Qed.

Lemma append_all_spec es : forall n : node,
  raft_ (append_all es n) = {| (raft_ n) with log_ := log_ n ++ es |} /\ writes n (append_all es n) /\ beside n (append_all es n).
Proof.
  unfold append_all. induction es as [|e es IH]; intros n; cbn [fold_left].
  - rewrite app_nil_r. split; [by destruct (raft_ n)|done].
  - destruct (IH (let n := append_entry e n in persist_entry (llen n) e n)) as (H1 & H2 & H3). split_and!.
    + etransitivity; [exact H1|]. cbn. by rewrite <- app_assoc.
    + etransitivity; [apply append_one|exact H2].
    + etransitivity; [|exact H3]. done.
Qed.

Lemma trunc_spec keep (n : node) : snap_base_ n <= keep <= llen n ->
  let n' := persist_truncate keep (truncate_to keep n) in
  raft_ n' = {| (raft_ n) with log_ := take (Z.to_nat (keep - snap_base_ n)) (log_ n) |} /\ writes n n' /\ beside n n'.
Proof.
  intros Hk n'. unfold llen in Hk.
  assert (Hr : raft_ n' = {| (raft_ n) with log_ := take (Z.to_nat (keep - snap_base_ n)) (log_ n) |}).
  { unfold n', truncate_to. cbn. rewrite (proj2 (Z.ltb_ge _ _)) by lia. unfold resize. unfold Zlen in Hk.
    replace (Z.to_nat _ - _)%nat with 0%nat by lia. by rewrite app_nil_r. }
  split; [done|]. split; [|done]. eapply (writes_one _ _ (BTruncate keep)); [done| |done]. unfold pst. rewrite Hr.
  cbn [apply_record rv_base rv_log]. rewrite !(proj2 (Z.ltb_ge _ _)) by lia. done.
Qed.

Lemma sync_if_unseen b n : unseen n (sync_if b n).
Proof. by destruct b. Qed.

(** The merge changes only the log, and the logical log as [splice] does. *)
Lemma merge_spec prev es (n : node) : Zlen (snap_state_ n) = snap_base_ n -> 0 <= prev <= llen n ->
  (exists l, raft_ (merge_entries prev es n) = {| (raft_ n) with log_ := l |} /\
     snap_state_ n ++ l = splice (Z.to_nat (snap_base_ n)) (log_view n) (Z.to_nat prev) es) /\
  writes n (merge_entries prev es n) /\ beside n (merge_entries prev es n).
Proof.
  intros Hs Hp. unfold merge_entries, splice. rewrite <- (scan_first_b n Hs). rewrite Z2Nat.id by lia.
  pose proof (llen_view_b n Hs) as Hl. pose proof (snap_nonneg_b n Hs).
  destruct (scan_conflict n (prev + 1) es) as [k|] eqn:E.
  - apply scan_some in E as (H1 & H2 & _). rewrite (proj2 (Z.ltb_lt _ _)) by lia.
    destruct (trunc_spec (prev + Z.of_nat k) n ltac:(lia)) as (T1 & T2 & T3). set (n1 := persist_truncate _ _) in *.
    destruct (append_all_spec (drop k es) n1) as (A1 & A2 & A3). destruct (sync_if_unseen (true || negb (bool_decide (drop k es = []))) (append_all (drop k es) n1)) as [U1 U2 U3 U4 U5 U6 U7].
    split_and!.
    + eexists. rewrite U1, A1, T1. split; [done|]. cbn. rewrite app_assoc. f_equal.
      unfold log_view. rewrite take_app_ge by (unfold Zlen in Hs; lia). do 2 f_equal. unfold Zlen in Hs. lia.
    + etransitivity; [exact T2|]. etransitivity; [exact A2|]. by apply unseen_writes.
    + etransitivity; [exact T3|]. etransitivity; [exact A3|]. by apply beside_unseen_b.
  - destruct (llen n <? prev + Zlen es) eqn:El.
    + set (tl := drop _ es). destruct (append_all_spec tl n) as (A1 & A2 & A3).
      destruct (sync_if_unseen (negb (bool_decide (tl = []))) (append_all tl n)) as [U1 U2 U3 U4 U5 U6 U7]. split_and!.
      * eexists. rewrite U1, A1. split; [done|]. cbn. rewrite app_assoc. unfold log_view at 1. f_equal. unfold tl.
        f_equal. rewrite Hl. unfold Zlen. lia.
      * etransitivity; [exact A2|]. by apply unseen_writes.
      * etransitivity; [exact A3|]. by apply beside_unseen_b.
    + split; [|done]. exists (log_ n). split; [by destruct (raft_ n)|]. rewrite drop_ge, app_nil_r; [done|].
      rewrite Hl in El, Hp. unfold Zlen in *. lia.
Qed.

Lemma adopt_commit_spec lc last (n : node) :
  raft_ (adopt_commit lc last n) = {| (raft_ n) with commit_index_ := Z.max (commit_index_ n) (Z.min lc last) |} /\
  writes n (adopt_commit lc last n) /\ beside n (adopt_commit lc last n).
Proof.
  assert (Hsame : forall z, z = commit_index_ n -> raft_ n = {| (raft_ n) with commit_index_ := z |}) by (intros z ->; by destruct (raft_ n)).
  unfold adopt_commit. destruct (commit_index_ n <? lc) eqn:E1; [|split; [apply Hsame; lia|done]].
  set (nc := if lc <? last then lc else last). assert (Hnc : nc = Z.min lc last) by (unfold nc; destruct (lc <? last) eqn:E; lia).
  destruct (commit_index_ n <? nc) eqn:E2; [|split; [apply Hsame; lia|done]]. split; [|split; [by apply writes_none|done]].
  cbn. by rewrite Z.max_r, Hnc by lia.
Qed.

Lemma recognise_spec src n : let n' := arm_election_deadline (set_leader_hint src (set_role Follower n)) in
  raft_ n' = {| (raft_ n) with role_ := Follower |} /\ writes n n' /\ beside n n'.
Proof.
  cbn zeta. destruct (unseen_arm_b (set_leader_hint src (set_role Follower n))) as [U1 U2 U3 U4 U5 U6 U7]. split; [by rewrite U1|]. split.
  - etransitivity; [|by apply unseen_writes, unseen_arm_b]. by apply writes_none.
  - etransitivity; [|by apply beside_unseen_b, unseen_arm_b]. done.
Qed.

Lemma rel_commit_len_b g n vs : reachable cl g -> nodes g i = abs vs n -> Zlen (snap_state_ n) = snap_base_ n -> commit_index_ n <= llen n.
Proof.
  intros Hg%inv_reachable Ha Hs. pose proof (n_commit _ _ _ _ (i_servers _ _ Hg i)) as [Hc _].
  rewrite Ha in Hc. cbn in Hc. rewrite (llen_view_b n Hs). unfold Zlen. lia.
Qed.

Lemma take_snapshot_term n : current_term_ (take_snapshot n) = current_term_ n /\ role_ (take_snapshot n) = role_ n.
Proof. unfold take_snapshot, persist_snapshot. destruct (_ <=? _); [done|]. by destruct (_ <=? _). Qed.

Lemma apply_term (n : node) : current_term_ (apply_and_maybe_snapshot n) = current_term_ n /\ role_ (apply_and_maybe_snapshot n) = role_ n.
Proof.
  unfold apply_and_maybe_snapshot. set (n1 := if _ <? _ then _ else _).
  assert (H : current_term_ n1 = current_term_ n /\ role_ n1 = role_ n) by (unfold n1; by destruct (_ <? _)).
  destruct H as [<- <-]. destruct (_ && _); [apply take_snapshot_term|done].
Qed.

Lemma append_entries_sim_b from term p pt c es n :
  forall g, reachable cl g -> node_rel g n -> msg_rel g (i, mkMsgB term from (AppendEntries p pt c es)) -> term <= current_term_ n ->
  follows g n (on_append_entries from term p pt c es n).
Proof.
  intros g Hg Hn (Hsrc & Hne & Hb) Hle. cbn [mb_from mb_term mb_body fst snd] in *. destruct Hb as (Hp & Hc & Hin).
  unfold on_append_entries. destruct (term <? current_term_ n) eqn:El.
  { exists g. split; [apply rtc_refl|]. split; [by apply rel_send_b|apply send_writes]. }
  assert (Ht : term = current_term_ n) by lia. rewrite Ht in Hin.
  destruct (recognise_spec from n) as (Hraft1 & W1 & B1). pose proof (recognise_sim_b from n g Hg Hn) as F1. set (n1 := arm_election_deadline _) in *.
  destruct (negb _) eqn:Eok.
  { destruct F1 as (g1 & Hs1 & Hn1 & _). exists g1. split; [done|]. split; [by apply rel_send_b|]. etransitivity; [exact W1|apply send_writes]. }
  apply negb_false_iff in Eok. destruct (r_abs _ _ Hn) as (vs & Ha & Hvs). pose proof Hn as [R1 R2 R3 R4 R5 R6 R7 R8 R9].
  pose proof (llen_view_b n R4) as Hlen. pose proof (snap_nonneg_b n R4) as Hs0.
  assert (Hll : llen n1 = llen n) by (unfold llen; by rewrite Hraft1).
  assert (Hview1 : log_view n1 = log_view n) by (unfold log_view; by rewrite Hraft1).
  assert (Hp1 : 0 <= p <= llen n1) by (rewrite Hll; unfold Zlen in Hlen; lia).
  assert (Hsn1 : Zlen (snap_state_ n1) = snap_base_ n1) by (by rewrite Hraft1).
  destruct (merge_spec p es n1 Hsn1 Hp1) as ((l & Hraft2 & Hl) & W2 & B2). rewrite Hview1 in Hl. set (n2 := merge_entries p es n1) in *.
  destruct (adopt_commit_spec c (p + Zlen es) n2) as (Hraft3 & W3 & B3). set (n3 := adopt_commit c (p + Zlen es) n2) in *.
  assert (Hraft : raft_ n3 = {| (raft_ n) with role_ := Follower; log_ := l; commit_index_ := Z.max (commit_index_ n) (Z.min c (p + Zlen es)) |})
    by (by rewrite Hraft3, Hraft2, Hraft1).
  assert (B : beside n n3) by (transitivity n1; [done|]; by transitivity n2).
  assert (W : writes n n3) by (transitivity n1; [done|]; by transitivity n2).
  set (g1 := send (Ack (a_term (nodes g i)) i (Z.to_nat p + length es))
    (set_node i (mkANode (a_term (nodes g i)) (a_vote (nodes g i)) Follower
       (splice (Z.to_nat (snap_base_ n)) (a_log (nodes g i)) (Z.to_nat p) es)
       (a_commit (nodes g i) `max` (Z.to_nat c `min` (Z.to_nat p + length es))) (a_votes (nodes g i))) g)).
  assert (Hstep : steps cl i g g1).
  { apply own_step; [|intros j Hj; cbn; by apply upd_other].
    apply (RecvAppend cl g i from (Z.to_nat p) pt es (Z.to_nat c)); rewrite ?Ha; cbn; [done|done|congruence| |lia].
    rewrite Hll in Eok. unfold Zlen in Hlen. apply orb_true_iff in Eok as [Eok|Eok]; [left; lia|right].
    apply andb_true_iff in Eok as [Eok1 Eok2]. split; [lia|].
    rewrite <- term_at_view_b by (done || lia). apply Z.eqb_eq in Eok2. rewrite Eok2. unfold term_at, llen. by rewrite Hraft1. }
  assert (Habs : nodes g1 i = abs vs n3).
  { cbn. rewrite upd_same, Ha. unfold abs, log_view. rewrite Hraft. cbn. rewrite Hraft1 in Hl. cbn in Hl. rewrite Hl.
    f_equal. clear - Hc Hp R7 Hs0. unfold Zlen. lia. }
  assert (Hn3 : node_rel g1 n3).
  { apply (rel_make_b g _ n _ vs Hn); [by right|done|done|by rewrite Hraft|apply B|apply B|apply B|apply B|apply B|..].
    - by rewrite Hraft.
    - by rewrite Hraft.
    - rewrite Hraft. cbn. lia.
    - split; [rewrite Hraft; cbn; lia|]. apply (rel_commit_len_b g1 n3 vs); [by eapply steps_reach|done|by rewrite Hraft].
    - by rewrite Hraft. }
  destruct (apply_sim n3 g1 (steps_reach _ _ Hstep Hg) Hn3) as (g2 & Hs2 & Hn4 & W4). exists g2. split; [by transitivity g1|].
  split; [|transitivity n3; [done|]; etransitivity; [exact W4|apply send_writes]].
  apply rel_send_b; [done|done|]. cbn. split; [unfold Zlen; lia|]. destruct (server_steps_grow _ _ _ _ Hs2) as (Hgrow & _). apply Hgrow.
  left. destruct (apply_term n3) as [-> _]. rewrite Hraft, Ha. cbn. f_equal. unfold Zlen. lia.
Qed.

(** *** Acknowledgements *)

Lemma ack_within_b g n src k : reachable cl g -> node_rel g n -> role_ n = Leader -> In (Ack (current_term_ n) src k) (net g) -> Z.of_nat k <= llen n.
Proof.
  intros Hg%inv_reachable Hn Hl Hin. destruct (i_msgs _ _ Hg _ Hin) as (_ & Hk & _).
  destruct (r_abs _ _ Hn) as (vs & Ha & _). pose proof (i_servers _ _ Hg i) as Hs. rewrite Ha in Hs.
  destruct (n_leader _ _ _ _ Hs Hl) as [_ Hlog]. cbn in Hlog. rewrite (llen_view_b n (r_snap _ _ Hn)), Hlog. unfold Zlen. lia.
Qed.

(** The leader records what [src] acknowledged; [nx] is the peer's new next index. *)
Lemma rel_ack_b g n src (mi : list Z) nx : node_rel g n -> role_ n = Leader -> In src cl -> 1 <= nx <= llen n + 1 ->
  let di := index_of n src in
  length mi = length cl -> (forall j, j <> di -> nth j mi 0 = nth j (match_index_ n) 0) ->
  nth di mi 0 <= 0 \/ acked g (current_term_ n) src (Z.to_nat (nth di mi 0)) ->
  node_rel g (on_repl (fun r => {| r with match_index_ := mi; next_index_ := <[di := nx]> (next_index_ r) |}) n).
Proof.
  intros Hn Hl Hsrc Hnx di Hlen Hmi Hak. destruct (r_leader _ _ Hn Hl) as (L1 & L2 & L3).
  pose proof (static_idx n src (r_static _ _ Hn) Hsrc) as Hdi. fold di in Hdi. apply lookup_lt_Some in Hdi as Hlt.
  apply rel_repl_b; [done|]. intros _. cbn. rewrite length_insert. split; [done|]. split; [done|].
  intros j id Hj. destruct (L3 j id Hj) as [H1 H2]. split.
  - rewrite nth_lookup. destruct (decide (j = di)) as [->|Hne]; [by rewrite list_lookup_insert_eq by lia|].
    by rewrite list_lookup_insert_ne, <- nth_lookup.
  - intros Hid. destruct (decide (j = di)) as [->|Hne].
    + by assert (id = src) as -> by congruence.
    + rewrite Hmi by done. by apply H2.
Qed.

Lemma advance_commit_llen (n : node) : llen (advance_commit_index n) = llen n /\ role_ (advance_commit_index n) = role_ n.
Proof. unfold advance_commit_index. by destruct (highest_committable _ _ _). Qed.

Lemma take_snapshot_llen (n : node) : applied_index_ n <= llen n -> llen (take_snapshot n) = llen n.
Proof.
  intros Ha. unfold take_snapshot. destruct (_ <=? snap_base_ n) eqn:E; [done|]. unfold persist_snapshot. set (n1 := on_life _ _).
  assert (Hl : llen n1 = llen n) by (unfold n1, llen in *; cbn; unfold Zlen in *; rewrite length_drop; lia).
  destruct (snap_base_ n1 <=? snap_persisted_base_ n1); exact Hl.
Qed.

Lemma apply_llen (n : node) : applied_index_ n <= llen n -> commit_index_ n <= llen n -> llen (apply_and_maybe_snapshot n) = llen n.
Proof.
  intros Ha Hc. unfold apply_and_maybe_snapshot. set (n1 := if _ <? _ then _ else _).
  assert (H : llen n1 = llen n /\ applied_index_ n1 <= llen n) by (unfold n1; by destruct (_ <? _)).
  destruct H as [<- H]. destruct (_ && _); [by apply take_snapshot_llen|done].
Qed.

Lemma rel_applied_len g n : node_rel g n -> applied_index_ n <= llen n.
Proof.
  intros Hn. pose proof (r_applied _ _ Hn). pose proof (r_commit _ _ Hn). pose proof (Zlen_nonneg (log_ n)). unfold llen in *. lia.
Qed.

Lemma append_response_sim_b from term ok k n :
  forall g, reachable cl g -> node_rel g n -> msg_rel g (i, mkMsgB term from (AppendEntriesResp ok k)) -> llen n < 2 ^ 64 - 1 ->
  follows g n (on_append_response from term ok k n).
Proof.
  intros g Hg Hn (Hsrc & Hne & Hb) Hsmall. cbn [mb_from mb_term mb_body fst snd] in *. unfold on_append_response.
  destruct (_ || _) eqn:E; [by apply sim_refl_b|]. apply orb_false_iff in E as [E Et].
  apply negb_false_iff in E, Et. apply bool_decide_eq_true in E. assert (Ht : term = current_term_ n) by lia.
  pose proof (static_idx n from (r_static _ _ Hn) Hsrc) as Hdi. apply lookup_lt_Some in Hdi as Hlt.
  destruct (r_leader _ _ Hn E) as (L1 & L2 & L3). destruct (_ <=? _)%nat eqn:El; [by apply sim_refl_b|]. set (di := index_of n from) in *. destruct ok.
  - destruct Hb as [Hk Hin]. rewrite Ht in Hin. pose proof (ack_within_b g n _ _ Hg Hn E Hin) as Hwithin. set (n1 := on_repl _ n).
    assert (Hn1 : node_rel g n1).
    { apply (rel_ack_b g n from (<[di := k]> (match_index_ n)) (u64 (k + 1)) Hn E Hsrc).
      - rewrite u64_id by lia. lia.
      - by rewrite length_insert.
      - intros j Hj. by rewrite nth_lookup, list_lookup_insert_ne, <- nth_lookup.
      - right. exists (Z.to_nat k). split; [|done]. fold di. rewrite nth_lookup, list_lookup_insert_eq by lia. done. }
    assert (F1 : follows g n n1) by (exists g; split; [apply rtc_refl|]; split; [done|apply repl_writes]).
    destruct (commit_apply_sim_b n1 E g Hg Hn1) as (g2 & Hs2 & Hn2 & W2).
    destruct (advance_commit_sim_b n1 E g Hg Hn1) as (g3 & _ & Hn3 & _).
    destruct (advance_commit_llen n1) as [Hl1 Hr1]. destruct (apply_term (advance_commit_index n1)) as [_ Hr2].
    assert (Hl2 : llen (apply_and_maybe_snapshot (advance_commit_index n1)) = llen n).
    { rewrite apply_llen; [exact Hl1|by apply (rel_applied_len g3)|apply (r_commit _ _ Hn3)]. }
    set (n2 := apply_and_maybe_snapshot _) in *.
    assert (F2 : follows g n n2) by (exists g2; split; [done|]; split; [done|]; transitivity n1; [apply repl_writes|done]).
    destruct (_ && _); [|done]. eapply follows_sim; [done|exact F2|]. apply send_append_sim; [by rewrite Hr2, Hr1|done|done|lia].
  - set (n1 := if _ <? _ then _ else _). assert (Hn1 : node_rel g n1 /\ role_ n1 = Leader /\ writes n n1 /\ llen n1 = llen n).
    { unfold n1. destruct (1 <? _) eqn:Eni; [|done]. split; [|split; [done|split; [apply repl_writes|done]]].
      apply rel_repl_b; [done|]. intros _. cbn. rewrite length_insert. split; [done|]. split; [done|]. intros j id Hj.
      destruct (L3 j id Hj) as [H1 H2]. split; [|done]. rewrite nth_lookup.
      destruct (decide (j = di)) as [->|Hnj]; [|by rewrite list_lookup_insert_ne, <- nth_lookup].
      rewrite list_lookup_insert_eq by lia. cbn. lia. }
    destruct Hn1 as (Hn1 & Hr1 & W1 & Hl1). apply (follows_sim g n n1); [done|exists g; split; [apply rtc_refl|done]|].
    apply send_append_sim; [done|done|done|lia].
Qed.

(** *** Snapshots *)

Lemma snapshot_response_sim_b from term k n :
  forall g, reachable cl g -> node_rel g n -> msg_rel g (i, mkMsgB term from (InstallSnapshotResp k)) -> llen n < 2 ^ 64 - 1 ->
  follows g n (on_install_snapshot_response from term k n).
Proof.
  intros g Hg Hn (Hsrc & Hne & Hb) Hsmall. cbn [mb_from mb_term mb_body fst snd] in *. unfold on_install_snapshot_response.
  destruct (_ || _) eqn:E; [by apply sim_refl_b|]. apply orb_false_iff in E as [E Et].
  apply negb_false_iff in E, Et. apply bool_decide_eq_true in E. assert (Ht : term = current_term_ n) by lia.
  destruct Hb as [Hk Hin]. rewrite Ht in Hin. pose proof (ack_within_b g n _ _ Hg Hn E Hin) as Hwithin.
  pose proof (static_idx n from (r_static _ _ Hn) Hsrc) as Hdi. apply lookup_lt_Some in Hdi as Hlt.
  destruct (r_leader _ _ Hn E) as (L1 & L2 & L3). destruct (_ <=? _)%nat eqn:El; [by apply sim_refl_b|]. set (di := index_of n from) in *.
  set (n1 := on_repl _ n).
  assert (Hn1 : node_rel g n1).
  { apply (rel_ack_b g n from (if nth di (match_index_ n) 0 <? k then <[di := k]> (match_index_ n) else match_index_ n) (u64 (k + 1)) Hn E Hsrc).
    - rewrite u64_id by lia. lia.
    - destruct (_ <? k); by rewrite ?length_insert.
    - intros j Hj. destruct (_ <? k); [|done]. by rewrite nth_lookup, list_lookup_insert_ne, <- nth_lookup.
    - fold di. destruct (_ <? k) eqn:Ek; [|by apply (L3 di from)]. right. exists (Z.to_nat k). split; [|done].
      rewrite nth_lookup, list_lookup_insert_eq by lia. done. }
  apply (follows_sim g n n1); [done|exists g; split; [apply rtc_refl|]; split; [done|apply repl_writes]|]. by apply send_append_sim.
Qed.

(** The reply to a snapshot, once the committed prefix covers it. *)
Lemma snapshot_reply_b g n src lii st k :
  reachable cl g -> node_rel g n -> In (Snap (current_term_ n) src st) (net g) -> src <> i ->
  k = (if lii <? snap_base_ n then snap_base_ n else lii) -> 0 <= lii <= Z.max (commit_index_ n) (snap_base_ n) ->
  follows g n (send_to src (InstallSnapshotResp k) n).
Proof.
  intros Hg Hn Hin Hne Hk Hlii. destruct (r_abs _ _ Hn) as (vs & Ha & Hvs). pose proof (snap_nonneg_b n (r_snap _ _ Hn)) as Hs0.
  assert (Hkb : 0 <= k <= Z.max (commit_index_ n) (snap_base_ n)) by (rewrite Hk; destruct (lii <? _) eqn:E; lia).
  eexists. split; [apply own_step|split; [|apply send_writes]].
  - apply (AckCommitted cl g i (Z.to_nat k)); [done| |rewrite Ha; cbn; lia].
    rewrite Ha. cbn. pose proof (inv_reachable _ _ Hg) as Hinv. destruct (i_msgs _ _ Hinv _ Hin) as ((e & He & _) & _). by exists e.
  - done.
  - apply rel_send_b; [by apply rel_more|done|cbn; split; [lia|left; by rewrite Ha]].
Qed.

Lemma install_snapshot_sim_b from term lii st n :
  forall g, reachable cl g -> node_rel g n -> msg_rel g (i, mkMsgB term from (InstallSnapshot lii st)) -> term <= current_term_ n ->
  (snap_base_ n < lii -> commit_index_ n < lii -> llen n <= lii) ->
  follows g n (on_install_snapshot from term lii st n).
Proof.
  intros g Hg Hn (Hsrc & Hne & Hb) Hle Hsafe. cbn [mb_from mb_term mb_body fst snd] in *. destruct Hb as [Hlii Hin].
  unfold on_install_snapshot. destruct (term <? current_term_ n) eqn:El; [by apply sim_refl_b|].
  assert (Ht : term = current_term_ n) by lia. rewrite Ht in Hin.
  destruct (recognise_spec from n) as (Hraft1 & W1 & B1). pose proof (recognise_sim_b from n g Hg Hn) as F1. set (n1 := arm_election_deadline _) in *.
  destruct (r_abs _ _ Hn) as (vs & Ha & Hvs). pose proof Hn as [R1 R2 R3 R4 R5 R6 R7 R8 R9]. pose proof (Zlen_nonneg st) as Hst0.
  set (n2 := if _ && _ then _ else _).
  assert (H2 : exists g1, steps cl i g g1 /\ node_rel g1 n2 /\ writes n n2 /\ current_term_ n2 = current_term_ n /\ lii <= Z.max (commit_index_ n2) (snap_base_ n2)).
  { unfold n2. destruct ((snap_base_ n1 <? lii) && (commit_index_ n1 <? lii)) eqn:E.
    - rewrite Hraft1 in E. cbn in E. apply andb_true_iff in E as [E1 E2]. set (n3 := sync_now _). specialize (Hsafe ltac:(lia) ltac:(lia)).
      assert (Hraft3 : raft_ n3 = {| (raft_ n) with role_ := Follower; snap_state_ := st; snap_base_ := lii; applied_index_ := lii;
          commit_index_ := lii; log_ := []; snap_persisted_base_ := lii |}) by (unfold n3; cbn; rewrite Hraft1; cbn; by rewrite E2).
      assert (Hb3 : beside n n3) by (transitivity n1; done).
      eexists. split; [apply own_step|split; [|split; [|split]]].
      + apply (RecvSnap cl g i from st); rewrite ?Ha; cbn; [done|congruence|unfold Zlen in *; lia|].
        pose proof (llen_view_b n R4) as Hl. unfold Zlen in *. lia.
      + intros j Hj. cbn. by apply upd_other.
      + apply (rel_make_b g _ n _ vs Hn); [done|done| |by rewrite Hraft3|apply Hb3|apply Hb3|apply Hb3|apply Hb3|apply Hb3|..].
        * cbn. rewrite upd_same, Ha. unfold abs, log_view. rewrite Hraft3. cbn. rewrite app_nil_r. f_equal. unfold Zlen in *. lia.
        * by rewrite Hraft3.
        * by rewrite Hraft3.
        * rewrite Hraft3. cbn. lia.
        * unfold llen. rewrite Hraft3. cbn. unfold Zlen. cbn. lia.
        * by rewrite Hraft3.
      + transitivity n1; [done|]. etransitivity; [|apply unseen_writes, unseen_sync]. eapply (writes_one _ _ (BSnapshot lii st)); [done| |done].
        unfold pst. cbn [apply_record rv_base rv_log]. rewrite Hraft1. cbn [snap_base_]. rewrite (proj2 (Z.ltb_ge lii _)), (proj2 (Z.eqb_eq (Zlen st) _)) by lia.
        cbn [negb orb]. unfold kept, llen in *. cbn [rv_base rv_log snap_base_ log_]. rewrite (proj2 (Z.ltb_ge lii _)) by lia. cbn. by rewrite Hraft1.
      + by rewrite Hraft3.
      + rewrite Hraft3. cbn. lia.
    - destruct F1 as (g1 & Hs1 & Hn1 & _). exists g1. rewrite Hraft1 in *. cbn in E. split_and!; [done|done|done|done|].
      cbn. lia. }
  destruct H2 as (g1 & Hs1 & Hn2 & W2 & Ht2 & Hcov).
  destruct (snapshot_reply_b g1 n2 from lii st (if lii <? snap_base_ n2 then snap_base_ n2 else lii) (steps_reach _ _ Hs1 Hg) Hn2) as (g2 & Hs2 & Hn3 & W3).
  - rewrite Ht2. by apply (server_steps_grow cl i g g1).
  - done.
  - done.
  - lia.
  - exists g2. split; [by transitivity g1|]. split; [done|by transitivity n2].
Qed.

(** ** Deliveries, timers and power loss *)

Lemma step_down_same t (n : node) :
  log_ (maybe_step_down t n) = log_ n /\ snap_base_ (maybe_step_down t n) = snap_base_ n /\
  commit_index_ (maybe_step_down t n) = commit_index_ n /\ t <= current_term_ (maybe_step_down t n).
Proof. unfold maybe_step_down. destruct (t <=? _) eqn:E; [split_and!; [done..|lia]|]. split_and!; [done..|cbn; lia]. Qed.

(** A snapshot that would be adopted does not shorten the log. *)
Definition safe_snapshot (m : Msg) (n : node) : Prop :=
  match mb_body m with
  | InstallSnapshot lii _ => snap_base_ n < lii -> commit_index_ n < lii -> llen n <= lii
  | _ => True
  end.

Lemma dispatch_sim_b m n :
  forall g, reachable cl g -> node_rel g n -> msg_rel g (i, m) -> llen n < 2 ^ 64 - 1 -> safe_snapshot m n -> follows g n (dispatch m n).
Proof.
  intros g Hg Hn Hm Hsmall Hsafe. destruct (step_down_sim_b (mb_term m) n g Hg Hn) as (g1 & Hs1 & Hn1 & W1).
  unfold dispatch. destruct (step_down_same (mb_term m) n) as (Hl & Hb & Hc & Ht). set (n1 := maybe_step_down (mb_term m) n) in *.
  assert (Hm1 : msg_rel g1 (i, m)).
  { destruct (server_steps_grow _ _ _ _ Hs1) as (? & ? & _). destruct Hm as (M1 & M2 & M3). split; [done|]. split; [done|]. by eapply body_rel_mono. }
  assert (Hg1 : reachable cl g1) by (by eapply steps_reach). assert (Hll : llen n1 = llen n) by (unfold llen; by rewrite Hl, Hb). rewrite <- Hll in Hsmall.
  destruct m as [t f b]. unfold safe_snapshot in Hsafe. cbn [mb_term mb_from mb_body] in *.
  match goal with |- follows g n ?x => assert (F : follows g1 n1 x) end.
  { destruct b as [idx lt c|gr|p pt c es|ok k|lii st|k|ci ms|ci].
    - by apply request_vote_sim_b.
    - by apply vote_response_sim_b.
    - by apply append_entries_sim_b.
    - by apply append_response_sim_b.
    - apply install_snapshot_sim_b; [done..|]. by rewrite Hll, Hb, Hc.
    - by apply snapshot_response_sim_b.
    - by destruct Hm1 as (_ & _ & Hbad).
    - by destruct Hm1 as (_ & _ & Hbad). }
  destruct F as (g2 & Hs2 & Hn2 & W2). exists g2. split; [by transitivity g1|]. split; [done|by transitivity n1].
Qed.

Lemma tick_sim (n : node) : 0 <= current_term_ n < 2 ^ 64 - 1 -> llen n < 2 ^ 64 - 1 -> sim n (tick n).
Proof.
  intros Ht Hsmall. unfold tick. destruct (negb (running_ n)); [done|]. destruct (negb (recovered_ n)); [done|].
  destruct (bool_decide (role_ n = Leader)) eqn:E.
  - set (n1 := on_repl _ n).
    etransitivity; [apply (flags_sim_b (fun r => {| r with repl_kicked_ := false; repl_pending_ := false |})); done|].
    etransitivity; [by apply (broadcast_sim_b n1)|]. fold n1. generalize (broadcast_append_entries n1). intros n2 g Hg Hn.
    destruct (r_config _ _ Hn) as (_ & -> & ->). rewrite Z.ltb_irrefl. by apply sim_refl_b.
  - apply bool_decide_eq_false in E. destruct (_ <=? _); [by apply begin_election_sim|done].
Qed.

(** The queue after a turn of the worker: a record gone to the device, or what a commit adds. *)
Lemma n1_commit_sim n : sim n (advance_n1_self_commit n).
Proof.
  unfold advance_n1_self_commit. destruct (_ || _) eqn:E; [done|]. apply orb_false_iff in E as [E _].
  apply negb_false_iff, bool_decide_eq_true in E. by apply commit_apply_sim_b.
Qed.

(** What recovery sets besides the persistent state. *)
Record rebooted (n0 n : node) : Prop := {
  rb_role : role_ n = Follower;
  rb_votes : votes_granted_ n = [];
  rb_commit : commit_index_ n = 0;
  rb_applied : applied_index_ n = snap_base_ n;
  rb_persisted : snap_persisted_base_ n = snap_base_ n;
  rb_config : cfg_chain_ n = init_config_chain (cfg_ n0) /\ cfg_idx_ n = 0 /\ cfg_committed_idx_ n = 0;
  rb_static : cfg_ n = cfg_ n0 /\ self_ n = self_ n0;
  rb_out : outbox n = outbox n0;
  rb_queue : write_queue_ n = write_queue_ n0
}.

Lemma adopt_rebooted_b s (n0 : node) : rv_cfg s = [] -> commit_index_ n0 = 0 -> votes_granted_ n0 = [] -> rebooted n0 (adopt_recovered s n0).
Proof.
  intros Hs Hc Hv. unfold adopt_recovered, arm_election_deadline. rewrite Hs. cbn. destruct (uniform_range _ _ _) as [j g]. by split.
Qed.

Lemma adopt_pst s (n0 : node) : rv_cfg s = [] -> pst (adopt_recovered s n0) = s.
Proof.
  intros Hs. unfold adopt_recovered, arm_election_deadline. rewrite Hs. cbn. destruct (uniform_range _ _ _) as [j g]. unfold pst. cbn. destruct s. cbn in *. by rewrite Hs.
Qed.

(** A power loss with nothing waiting to be written: the server restarts from its persistent state. *)
Lemma power_sim_b n n' g : init_config_chain conf = [cl] -> pst n' = pst n -> rebooted (restart (crash n)) n' -> reachable cl g -> node_rel g n ->
  exists g', steps cl i g g' /\ node_rel g' n'.
Proof.
  intros Hinit Hp [B1 B2 B3 B4 B5 B6 B7 B8 B9] Hg Hn. destruct (r_abs _ _ Hn) as (vs & Ha & _). pose proof Hn as [R1 R2 R3 R4 R5 R6 R7 R8 R9].
  injection Hp as P1 P2 P3 P4 P5. pose proof (snap_nonneg_b n R4) as Hs0. pose proof (Zlen_nonneg (log_ n)) as Hl0.
  eexists. split; [apply own_step|].
  - apply (Demote cl g i (Z.to_nat (snap_base_ n)) []). rewrite Ha. cbn. lia.
  - intros j Hj. cbn. by apply upd_other.
  - destruct R2 as [Hcf Hse]. split.
    + exists []. split; [|by rewrite B1]. cbn. rewrite upd_same, Ha. unfold abs, log_view. rewrite B1, B3, P1, P2, P3, P4, P5. cbn. f_equal. lia.
    + unfold static. by destruct B7 as [-> ->].
    + destruct B6 as (-> & -> & ->). cbn. by rewrite Hcf, Hinit.
    + by rewrite P3, P4.
    + done.
    + rewrite B4, B3, P3. lia.
    + unfold llen. rewrite B3, P3, P5. lia.
    + by rewrite B1.
    + rewrite B8. cbn. intros m Hin. destruct (R9 m Hin) as (M1 & M2 & M3). by split.
Qed.
End sim.
