(* ===== verification/RaftClusterB.v ===== *)
(** RaftClusterB: a cluster of [RaftNodeB] nodes, and its safety.

    As in [RaftCluster]: a world holds every node with its device and every message ever sent,
    and a step is a delivery of any sent message to its destination, a wake of the ticker at
    any time with any random draws, a client submission, a turn of the persist worker, or a
    power loss of one node.  The bounds are the same: membership does not change, devices
    inject no faults, a power loss that the run goes on from hits a node whose records are
    synced, an adopted snapshot does not shorten the log, and records, messages, terms and logs
    stay within their widths. *)

From Stdlib Require Import ZArith Lia.
From stdpp Require Import base list numbers relations.
From S2P Require Import Prelude Codec Core Disk Consensus RaftProtocol RaftSafety RaftWire RaftSim RaftWireB RaftNodeB RaftSimB.
#[local] Open Scope Z_scope.

(** ** A node and its device *)

Definition env (t : Z) (g : rng) (n : node) : node := {| n with now := t; rng_ := g |}.
Definition flush (n : node) : node := {| n with outbox := [] |}.

(** Power is lost and comes back. *)
Definition power_cycle (n : node) (d : disk) : option (node * rng) := RaftNodeB.recover [] (Disk.crash d) (restart (RaftNodeB.crash n)).

Definition boot (c : NodeConfig) : node :=
  match RaftNodeB.recover [] empty_disk (start (construct c)) with Some (n, _) => n | None => construct c end.

(** The records on the device and in the queue rebuild the node's persistent state. *)
Record history (n : node) (d : disk) (synced written : list RecB) : Prop := {
  h_ok : Forall rec_ok (synced ++ written ++ write_queue_ n);
  h_plain : Forall plain (synced ++ written ++ write_queue_ n);
  h_replay : apply_records (synced ++ written ++ write_queue_ n) nothing = Some (pst n);
  h_durable : durable d = stream synced;
  h_staged : staged d = stream written;
  h_honest : lying d = [] /\ rotted_offsets d = []
}.

Lemma apply_plain r s s' : plain r -> apply_record r s = Some s' -> rv_cfg s' = rv_cfg s.
Proof.
  destruct r as [t v|k|k e|k st|k ms|f t dl]; cbn; intros Hp.
  - by intros [= <-].
  - destruct (_ || _); [done|]. by intros [= <-].
  - destruct (_ =? _); [|done]. by intros [= <-].
  - destruct (_ || _); [done|]. by intros [= <-].
  - done.
  - destruct (_ || _ || _); [done|]. by intros [= <-].
Qed.

Lemma applies_plain rs : forall s s', Forall plain rs -> apply_records rs s = Some s' -> rv_cfg s' = rv_cfg s.
Proof.
  induction rs as [|r rs IH]; intros s s' Hp; cbn; [by intros [= <-]|]. apply Forall_cons_1 in Hp as [H1 H2].
  destruct (apply_record r s) as [s1|] eqn:E; [|done]. cbn. intros Ha. rewrite (IH _ _ H2 Ha). by eapply apply_plain.
Qed.

Lemma stream_app_b rs rs' : stream (rs ++ rs') = stream rs ++ stream rs'.
Proof. apply flat_map_app. Qed.

Lemma stream_nil_b rs : stream rs = [] -> rs = [].
Proof. intros H. pose proof (stream_count rs) as Hc. rewrite H in Hc. by destruct rs; [|cbn in Hc; lia]. Qed.

Lemma history_writes n n' d a b : writes n n' -> Forall rec_ok (write_queue_ n') -> history n d a b -> history n' d a b.
Proof.
  intros (new & Hq & Hr & Hp) Hwf [H1 H2 H3 H4 H5 H6]. split; try done.
  - apply Forall_app in H1 as [Ha [Hb _]%Forall_app]. by rewrite !Forall_app.
  - rewrite Hq, !app_assoc. apply Forall_app. split; [by rewrite <- app_assoc|done].
  - rewrite Hq, !app_assoc, apply_records_app, <- app_assoc, H3. done.
Qed.

(** The recovery reads the whole image of an honest device. *)
Lemma read_image_honest d : rotted_offsets d = [] ->
  forall fuel off, (off <= logical_len d)%nat -> (logical_len d - off < fuel)%nat -> read_image fuel off [] d = (drop off (image_of d), []).
Proof.
  intros Hr. induction fuel as [|fuel IH]; intros off Ho Hf; [lia|]. cbn [read_image]. destruct (decide (off = logical_len d)) as [->|Hne].
  - unfold Disk.read, fill_read, chance, draw_latency, uniform_range. cbn [draw negb Z.eqb].
    rewrite (proj2 (Nat.ltb_lt (logical_len d) (logical_len d + 1))), orb_true_r by lia. cbn. by rewrite drop_ge by (rewrite length_image; lia).
  - rewrite read_honest by (done || lia). cbn [err_ok ok_error negb]. rewrite IH by lia. f_equal.
    destruct (lookup_lt_is_Some_2 (image_of d) off) as [x Hx]; [rewrite length_image; lia|]. by rewrite (drop_S _ _ _ Hx).
Qed.

Lemma recover_stream_b (n : node) d rs s : Forall rec_ok rs -> apply_records rs nothing = Some s -> image_of d = stream rs -> rotted_offsets d = [] ->
  RaftNodeB.recover [] d n = Some (adopt_recovered s n, []).
Proof.
  intros Hok Ha Hi Hr. unfold RaftNodeB.recover. rewrite read_image_honest by (done || lia). rewrite drop_0, Hi, (replay_all rs s) by done. done.
Qed.

Lemma recover_flag r d (n n' : node) r' : RaftNodeB.recover r d n = Some (n', r') -> recovered_ n' = true.
Proof.
  unfold RaftNodeB.recover. destruct (read_image _ _ _ _) as [img r1]. destruct (replay _ _ _) as [s|]; [|done]. intros [= <- _].
  unfold adopt_recovered, arm_election_deadline. destruct (fold_configs _ _ _). by destruct (uniform_range _ _ _).
Qed.

(** What a power loss leaves: the state the synced records rebuild. *)
Lemma power_history_b n d a b : history n d a b -> exists s n',
  apply_records a nothing = Some s /\ power_cycle n d = Some (n', []) /\ pst n' = s /\ rebooted (restart (RaftNodeB.crash n)) n' /\ history n' (Disk.crash d) a [].
Proof.
  intros [H1 H2 H3 H4 H5 [H6 H7]]. apply Forall_app in H1 as [H1 _], H2 as [H2 _]. rewrite apply_records_app in H3.
  destruct (apply_records a nothing) as [s|] eqn:Ea; [|done]. pose proof (applies_plain _ _ _ H2 Ea) as Hc.
  set (n0 := restart (RaftNodeB.crash n)). exists s, (adopt_recovered s n0). split; [done|].
  assert (Hi : image_of (Disk.crash d) = stream a) by (unfold image_of; cbn; by rewrite app_nil_r).
  split; [by apply (recover_stream_b n0 (Disk.crash d) a s)|]. pose proof (adopt_pst s n0 Hc) as Hp.
  assert (Hb : rebooted n0 (adopt_recovered s n0)) by (by apply adopt_rebooted_b). split; [done|]. split; [done|].
  split; try done; cbn [app]; rewrite (rb_queue _ _ Hb); cbn; rewrite app_nil_r; [done|done|]. by rewrite Hp.
Qed.

(** ** Worlds *)

Record world := mkWorld { machines : Z -> node * disk; wire : list (Z * Msg) }.

Section cluster.
Context (cl : list Z) (confs : Z -> NodeConfig).

Definition initial_world : world := mkWorld (fun i => (boot (confs i), empty_disk)) [].

(** Store a machine; what it sent goes on the wire. *)
Definition put (i : Z) (n : node) (d : disk) (w : world) : world :=
  mkWorld (upd (machines w) i (flush n, d)) (wire w ++ outbox n).

(** The widths hold. *)
Definition fits (n : node) : Prop := 0 <= current_term_ n < 2 ^ 64 - 1 /\ llen n < 2 ^ 64 - 2.

Inductive wstep (w : world) : world -> Prop :=
| w_deliver i m t g :
    let n := env t g (machines w i).1 in
    let n' := recv (frame_msg m) n in
    In i cl -> In (i, m) (wire w) -> msg_ok m -> fits n -> safe_snapshot m n -> Forall rec_ok (write_queue_ n') ->
    wstep w (put i n' (machines w i).2 w)
| w_tick i t g :
    let n := env t g (machines w i).1 in
    let n' := tick n in
    In i cl -> fits n -> Forall rec_ok (write_queue_ n') -> wstep w (put i n' (machines w i).2 w)
| w_submit i v :
    let n' := (submit v (machines w i).1).2 in
    In i cl -> fits (machines w i).1 -> Forall rec_ok (write_queue_ n') -> wstep w (put i n' (machines w i).2 w)
| w_persist i n' d' :
    In i cl -> persist_turn [] (machines w i).1 (machines w i).2 = (n', d', []) -> Forall rec_ok (write_queue_ n') ->
    wstep w (put i n' d' w)
| w_power i n' :
    In i cl -> write_queue_ (machines w i).1 = [] -> staged (machines w i).2 = [] ->
    power_cycle (machines w i).1 (machines w i).2 = Some (n', []) ->
    wstep w (put i n' (Disk.crash (machines w i).2) w).

Definition runs (w : world) : Prop := rtc wstep initial_world w.

(** The deployment: distinct ids, and every node configured with its own id and the whole
    cluster. *)
Record deployed : Prop := {
  dp_nodup : NoDup cl;
  dp_self : forall j, In j cl -> self_id (confs j) = j;
  dp_cluster : forall j, In j cl -> cluster (confs j) = cl;
  dp_init : forall j, In j cl -> init_config_chain (confs j) = [cl]
}.

Section safety.
Context (Hd : deployed).

(** A protocol state explains the world. *)
Record explained (g : global) (w : world) : Prop := {
  e_reach : reachable cl g;
  e_nodes : forall i, In i cl -> node_rel cl i (confs i) g (machines w i).1;
  e_disks : forall i, In i cl -> exists a b, history (machines w i).1 (machines w i).2 a b;
  e_wire : forall m, In m (wire w) -> msg_rel cl g m
}.

Lemma msg_rel_mono_b g g' m : (forall x, In x (net g) -> In x (net g')) -> (forall b, In b (ballots g) -> In b (ballots g')) ->
  msg_rel cl g m -> msg_rel cl g' m.
Proof. intros Hn Hb (H1 & H2 & H3). split; [done|]. split; [done|]. by eapply body_rel_mono. Qed.

(** Another server's steps leave a node related. *)
Lemma node_rel_frame_b i g g' n : (forall m, In m (net g) -> In m (net g')) -> (forall b, In b (ballots g) -> In b (ballots g')) ->
  nodes g' i = nodes g i -> node_rel cl i (confs i) g n -> node_rel cl i (confs i) g' n.
Proof.
  intros Hn Hb He [R1 R2 R3 R4 R5 R6 R7 R8 R9]. split; auto.
  - by rewrite He.
  - intros Hl. destruct (R8 Hl) as (L1 & L2 & L3). split; [done|]. split; [done|]. intros k id Hk. destruct (L3 k id Hk) as [H1 H2].
    split; [done|]. intros Hid. destruct (H2 Hid) as [|Ha]; [by left|right]. by eapply acked_mono.
  - intros m Hin. eapply msg_rel_mono_b; [done..|]. by apply R9.
Qed.

Lemma flush_history n d a b : history n d a b -> history (flush n) d a b.
Proof. intros [H1 H2 H3 H4 H5 H6]. by split. Qed.

Lemma env_history_b t r n d a b : history n d a b -> history (env t r n) d a b.
Proof. intros [H1 H2 H3 H4 H5 H6]. by split. Qed.

Lemma env_rel_b i g t r n : node_rel cl i (confs i) g n -> node_rel cl i (confs i) g (env t r n).
Proof. intros [R1 R2 R3 R4 R5 R6 R7 R8 R9]. by split. Qed.

Lemma explained_put_b i n d g g' w : In i cl -> explained g w -> steps cl i g g' -> node_rel cl i (confs i) g' n ->
  (exists a b, history n d a b) -> explained g' (put i n d w).
Proof.
  intros Hi [E1 E2 E3 E4] Hs Hn Hh. destruct (server_steps_grow _ _ _ _ Hs) as (Hnet & Hbal & Hoth). split.
  - by eapply steps_reachable.
  - intros j Hj. cbn. unfold upd. destruct (decide (j = i)) as [->|Hne].
    + destruct Hn as [R1 R2 R3 R4 R5 R6 R7 R8 R9]. by split.
    + apply (node_rel_frame_b j g); [done|done|by apply Hoth|by apply E2].
  - intros j Hj. cbn. unfold upd. destruct (decide (j = i)) as [->|Hne]; [|by apply E3]. destruct Hh as (a & b & Hh).
    exists a, b. by apply flush_history.
  - intros m Hin. cbn in Hin. apply in_app_iff in Hin as [Hin|Hin].
    + eapply msg_rel_mono_b; [done..|by apply E4].
    + by apply (r_out _ _ _ _ _ Hn).
Qed.

Lemma recv_frame m n : msg_ok m -> recv (frame_msg m) n = n \/ recv (frame_msg m) n = dispatch m n.
Proof.
  intros Hm. unfold recv. destruct (negb (running_ n)); [by left|]. destruct (negb (recovered_ n)); [by left|].
  rewrite decode_back by done. by right.
Qed.

Lemma steps_run i g g' : steps cl i g g' -> rtc (step cl) g g'.
Proof. induction 1 as [|g1 g2 g3 [Hst _] _ IH]; [done|]. by eapply rtc_l. Qed.

(** A handler that follows the protocol keeps the world explained. *)
Lemma explained_follows i n n' d g w a b : In i cl -> explained g w -> follows cl i (confs i) g n n' -> history n d a b ->
  Forall rec_ok (write_queue_ n') -> exists g', rtc (step cl) g g' /\ explained g' (put i n' d w).
Proof.
  intros Hi He (g' & Hs & Hn' & W) Hh Hrec. exists g'. split; [|apply (explained_put_b i n' d g g'); [done|done|done|done|]].
  - by eapply steps_run.
  - exists a, b. by apply (history_writes n).
Qed.

Lemma persist_follows i n d n' d' g a b : In i cl -> reachable cl g -> node_rel cl i (confs i) g n -> history n d a b ->
  persist_turn [] n d = (n', d', []) -> Forall rec_ok (write_queue_ n') ->
  exists g', steps cl i g g' /\ node_rel cl i (confs i) g' n' /\ exists a' b', history n' d' a' b'.
Proof.
  intros Hi Hg Hn Hh Hp Hrec. pose proof Hh as [H1 H2 H3 H4 H5 [H6 H7]]. destruct Hd as [D1 D2 D3 D4]. unfold persist_turn in Hp.
  assert (Hpipe : forall f, node_rel cl i (confs i) g (on_pipe f n)) by (intros f; destruct Hn as [R1 R2 R3 R4 R5 R6 R7 R8 R9]; by split).
  destruct (negb (running_ n)); [|destruct (write_queue_ n) as [|rec q] eqn:Eq; [destruct (want_sync_ n)|]].
  - injection Hp as <- <-. exists g. split; [apply rtc_refl|]. split; [apply Hpipe|]. exists a, b. by split.
  - rewrite sync_honest in Hp. injection Hp as <- <-. set (n1 := on_pipe _ n) in *.
    destruct (n1_commit_sim cl i (confs i) D1 Hi (D3 i Hi) n1 g Hg (Hpipe _)) as (g' & Hs & Hn' & W). exists g'. split; [done|]. split; [done|].
    exists (a ++ b), []. apply (history_writes n1); [done|done|].
    split; cbn; rewrite ?Eq, ?app_nil_r in *; [done|done|exact H3|by rewrite stream_app_b, H4, H5|done|done].
  - injection Hp as <- <-. exists g. split; [apply rtc_refl|]. split; [apply Hpipe|]. exists a, b. split; cbn; by rewrite ?Eq.
  - rewrite append_honest in Hp. injection Hp as <- <-. exists g. split; [apply rtc_refl|]. split; [apply Hpipe|]. exists a, (b ++ [rec]).
    split; cbn; rewrite <- ?app_assoc; try done. by rewrite stream_snoc, H5.
Qed.

Lemma explained_step_b g w w' : explained g w -> wstep w w' -> exists g', rtc (step cl) g g' /\ explained g' w'.
Proof.
  intros He Hw. pose proof (e_reach _ _ He) as Hg. pose proof Hd as [D1 D2 D3 D4].
  destruct Hw as [i m t r n n' Hi Hin Hok Hf Hsafe Hrec|i t r n n' Hi Hf Hrec|i v n' Hi Hf Hrec|i n' d' Hi Hp Hrec|i n' Hi Hq Hst Hp];
    pose proof (e_nodes _ _ He i Hi) as Hn; destruct (e_disks _ _ He i Hi) as (a & b & Hh).
  - apply (env_rel_b i g t r) in Hn. apply (env_history_b t r) in Hh. fold n in Hn, Hh. apply (explained_follows i n n' _ g w a b); try done.
    destruct (recv_frame m n Hok) as [E|E]; unfold n'; rewrite E; [by exists g; split; [apply rtc_refl|]|].
    apply dispatch_sim_b; [done|done|by apply D2|by apply D3|done|done|by apply (e_wire _ _ He)|destruct Hf; lia|done].
  - apply (env_rel_b i g t r) in Hn. apply (env_history_b t r) in Hh. fold n in Hn, Hh. apply (explained_follows i n n' _ g w a b); try done.
    destruct Hf as [F1 F2]. apply (tick_sim cl i (confs i) D1 Hi (D2 i Hi) (D3 i Hi) n F1 ltac:(lia) g Hg Hn).
  - apply (explained_follows i (machines w i).1 n' _ g w a b); try done. destruct Hf as [F1 F2].
    apply (submit_sim_b cl i (confs i) D1 Hi (D2 i Hi) (D3 i Hi) v _ F2 g Hg Hn).
  - destruct (persist_follows i _ _ n' d' g a b Hi Hg Hn Hh Hp Hrec) as (g' & Hs & Hn' & Hh'). exists g'.
    split; [by eapply steps_run|]. by apply (explained_put_b i n' d' g g').
  - destruct (power_history_b _ _ a b Hh) as (s & n1 & Ha & Hc & Hpst & Hb & Hh'). rewrite Hc in Hp. injection Hp as <-.
    assert (Hsame : pst n1 = pst (machines w i).1).
    { destruct Hh as [H1 H2 H3 H4 H5 H6]. rewrite Hst in H5. symmetry in H5. apply stream_nil_b in H5 as ->. rewrite Hq in H3.
      cbn [app] in H3. rewrite app_nil_r in H3. congruence. }
    destruct (power_sim_b cl i (confs i) _ n1 g (D4 i Hi) Hsame Hb Hg Hn) as (g' & Hs & Hn'). exists g'.
    split; [by eapply steps_run|]. apply (explained_put_b i n1 _ g g'); [done..|by exists a, []].
Qed.

Lemma boot_eq c : boot c = adopt_recovered nothing (start (construct c)).
Proof. unfold boot. by rewrite (recover_stream_b (start (construct c)) empty_disk [] nothing). Qed.

Lemma boot_history c : history (boot c) empty_disk [] [].
Proof.
  rewrite boot_eq. pose proof (adopt_rebooted_b nothing (start (construct c)) eq_refl eq_refl eq_refl) as Hb.
  by split; try done; cbn [app]; rewrite (rb_queue _ _ Hb).
Qed.

Lemma boot_rel_b i : In i cl -> node_rel cl i (confs i) initial (boot (confs i)).
Proof.
  intros Hi. pose proof Hd as [D1 D2 D3 D4]. rewrite boot_eq.
  pose proof (adopt_rebooted_b nothing (start (construct (confs i))) eq_refl eq_refl eq_refl) as [B1 B2 B3 B4 B5 B6 B7 B8 B9].
  pose proof (adopt_pst nothing (start (construct (confs i))) eq_refl) as Hp. revert B1 B2 B3 B4 B5 B6 B7 B8 B9 Hp.
  generalize (adopt_recovered nothing (start (construct (confs i)))). intros n B1 B2 B3 B4 B5 B6 B7 B8 B9 Hp. injection Hp as P1 P2 P3 P4 P5. split.
  - exists []. split; [|by rewrite B1]. unfold abs, log_view. by rewrite B1, B3, P1, P2, P3, P4, P5.
  - unfold static. destruct B7 as [-> ->]. split; [done|]. by apply D2.
  - destruct B6 as (-> & -> & ->). cbn. by rewrite D4.
  - by rewrite P3, P4.
  - done.
  - rewrite B4, B3, P3. lia.
  - unfold llen. rewrite B3, P3, P5. done.
  - by rewrite B1.
  - by rewrite B8.
Qed.

Lemma runs_explained_b w : runs w -> exists g, explained g w.
Proof.
  intros Hr. assert (Hgen : forall w0 w1, rtc wstep w0 w1 -> forall g, explained g w0 -> exists g', explained g' w1).
  { induction 1 as [w1|w1 w2 w3 Hs _ IH]; intros g He; [by exists g|]. destruct (explained_step_b _ _ _ He Hs) as (g1 & _ & He1). by apply (IH g1). }
  apply (Hgen _ _ Hr initial). split; [apply rtc_refl|apply boot_rel_b|intros i Hi; exists [], []; apply boot_history|done].
Qed.
End safety.

(** What a world shows of a node. *)
Definition shows (n : node) (a : anode) : Prop :=
  a_role a = role_ n /\ a_term a = current_term_ n /\ a_vote a = voted_for_ n /\ a_log a = log_view n /\
  a_commit a = Z.to_nat (Z.max (commit_index_ n) (snap_base_ n)).

Lemma runs_shown w : deployed -> runs w -> exists g, reachable cl g /\ forall i, In i cl ->
  shows (machines w i).1 (nodes g i) /\ 0 <= commit_index_ (machines w i).1 <= Zlen (log_view (machines w i).1).
Proof.
  intros Hd Hr. destruct (runs_explained_b Hd w Hr) as (g & [E1 E2 _ _]). exists g. split; [done|]. intros i Hi. pose proof (E2 i Hi) as Hn.
  destruct (r_abs _ _ _ _ _ Hn) as (vs & -> & _). rewrite <- (llen_view_b _ (r_snap _ _ _ _ _ Hn)). split; [done|apply (r_commit _ _ _ _ _ Hn)].
Qed.



End cluster.

(** ** Executing a schedule *)

#[local] Instance word_dec z : Decision (word z) := ltac:(unfold word; apply _).
#[local] Instance entry_ok_dec e : Decision (entry_ok e) := ltac:(unfold entry_ok; apply _).
#[local] Instance body_ok_dec b : Decision (body_ok b) := ltac:(destruct b; cbn; apply _).
#[local] Instance msg_ok_dec m : Decision (msg_ok m) := ltac:(unfold msg_ok; apply _).
#[local] Instance rec_ok_dec r : Decision (rec_ok r) := ltac:(unfold rec_ok; destruct r; apply _).
#[local] Instance fits_dec n : Decision (fits n) := ltac:(unfold fits; apply _).
#[local] Instance safe_dec m n : Decision (safe_snapshot m n) := ltac:(unfold safe_snapshot; destruct (mb_body m); apply _).
#[local] Instance member_dec (i : Z) cl : Decision (In i cl) := in_dec Z.eq_dec i cl.

Inductive event :=
| EvDeliver (k : nat) (t : Z)
| EvTick (i t : Z)
| EvSubmit (i : Z) (v : list byte)
| EvPersist (i : Z)
| EvPower (i : Z).

(** The world after an event, if the event is within the bounds. *)
Definition exec (cl : list Z) (e : event) (w : world) : option world :=
  match e with
  | EvDeliver k t =>
      '(i, m) ← wire w !! k;
      let n := env t [] (machines w i).1 in
      let n' := recv (frame_msg m) n in
      if decide (In i cl /\ msg_ok m /\ fits n /\ safe_snapshot m n /\ Forall rec_ok (write_queue_ n')) then Some (put i n' (machines w i).2 w) else None
  | EvTick i t =>
      let n := env t [] (machines w i).1 in
      let n' := tick n in
      if decide (In i cl /\ fits n /\ Forall rec_ok (write_queue_ n')) then Some (put i n' (machines w i).2 w) else None
  | EvSubmit i v =>
      let n' := (submit v (machines w i).1).2 in
      if decide (In i cl /\ fits (machines w i).1 /\ Forall rec_ok (write_queue_ n')) then Some (put i n' (machines w i).2 w) else None
  | EvPersist i =>
      match persist_turn [] (machines w i).1 (machines w i).2 with
      | (n', d', []) => if decide (In i cl /\ Forall rec_ok (write_queue_ n')) then Some (put i n' d' w) else None
      | _ => None
      end
  | EvPower i =>
      match power_cycle (machines w i).1 (machines w i).2, write_queue_ (machines w i).1, staged (machines w i).2 with
      | Some (n', []), [], [] => if decide (In i cl) then Some (put i n' (Disk.crash (machines w i).2) w) else None
      | _, _, _ => None
      end
  end.

Fixpoint execs (cl : list Z) (es : list event) (w : world) : option world :=
  match es with
  | [] => Some w
  | e :: es' => w' ← exec cl e w; execs cl es' w'
  end.

Lemma exec_step_b cl e w w' : exec cl e w = Some w' -> wstep cl w w'.
Proof.
  destruct e as [k t|i t|i v|i|i]; cbn [exec].
  - destruct (wire w !! k) as [[i m]|] eqn:Ek; [|done]. cbn. destruct (decide _) as [(H1 & H2 & H3 & H4 & H5)|]; [|done].
    intros [= <-]. apply w_deliver; [done|by eapply list_elem_of_In, list_elem_of_lookup_2|done..].
  - destruct (decide _) as [(H1 & H2 & H3)|]; [|done]. intros [= <-]. by apply w_tick.
  - destruct (decide _) as [(H1 & H2 & H3)|]; [|done]. intros [= <-]. by apply w_submit.
  - destruct (persist_turn _ _ _) as [[n' d'] r] eqn:Ep. destruct r; [|done]. destruct (decide _) as [(H1 & H2)|]; [|done].
    intros [= <-]. by apply w_persist.
  - destruct (power_cycle _ _) as [[n' r]|] eqn:Ep; [|done]. destruct r; [|done]. destruct (write_queue_ _) eqn:Eq; [|done].
    destruct (staged _) eqn:Es; [|done]. destruct (decide _); [|done]. intros [= <-]. by apply w_power.
Qed.

Lemma execs_steps_b cl es : forall w w', execs cl es w = Some w' -> rtc (wstep cl) w w'.
Proof.
  induction es as [|e es IH]; intros w w'; cbn; [intros [= <-]; apply rtc_refl|].
  destruct (exec cl e w) as [w1|] eqn:E; [|done]. cbn. intros H. eapply rtc_l; [by eapply exec_step_b|by apply IH].
Qed.

(** ** A run of three nodes

    Node 0 wins term 1 and commits an entry; a second entry stays on it alone.  Node 1
    persists, loses power, recovers, wins term 2 and commits another entry at the position of
    the lost one; node 2 learns the new commit index. *)
Definition trio : list Z := [0; 1; 2].

Definition trio_conf (i : Z) : NodeConfig := mkNodeConfig i trio [] 10 20 5 8 0.

Definition first_term : list event :=
  [EvTick 0 100; EvDeliver 0 100; EvDeliver 1 100; EvDeliver 2 101; EvSubmit 0 [Byte.x41]; EvDeliver 6 103; EvDeliver 7 103; EvDeliver 8 104;
   EvSubmit 0 [Byte.x42]] ++ repeat (EvPersist 1) 5.

Definition second_term : list event :=
  [EvPower 1; EvTick 1 500; EvDeliver 11 505; EvDeliver 12 506; EvSubmit 1 [Byte.x43]; EvDeliver 16 602; EvDeliver 17 603; EvTick 1 700; EvDeliver 19 701].

Definition after (es : list event) : world := default (initial_world trio_conf) (execs trio es (initial_world trio_conf)).

Lemma after_runs es : runs trio trio_conf (after es).
Proof. unfold after, runs. destruct (execs trio es (initial_world trio_conf)) eqn:E; [by eapply execs_steps_b|apply rtc_refl]. Qed.

Lemma trio_deployed_b : deployed trio trio_conf.
Proof.
  split.
  - by apply (bool_decide_unpack _).
  - done.
  - done.
  - intros j [<-|[<-|[<-|[]]]]; reflexivity.
Qed.

Definition trio_world : world := after (first_term ++ second_term).

Lemma trio_world_state_b :
  map (fun i => let n := (machines trio_world i).1 in (role_ n, current_term_ n, commit_index_ n, map le_value (log_view n))) trio =
  [(Leader, 1, 1, [[Byte.x41]; [Byte.x42]]); (Leader, 2, 2, [[Byte.x41]; [Byte.x43]]); (Follower, 2, 2, [[Byte.x41]; [Byte.x43]])].
Proof. by vm_compute. Qed.

Ltac in_trio_b := vm_compute; tauto.



