(* ===== verification/RaftHazardsB.v ===== *)
(** RaftHazardsB: runs of [RaftNodeB] outside the bounds of [RaftClusterB], in which the
    safety properties fail. *)

From Stdlib Require Import ZArith.
From stdpp Require Import base list numbers.
From S2P Require Import Prelude Codec Core Disk Consensus RaftProtocol RaftWire RaftWireB RaftNodeB RaftSimB RaftClusterB.
#[local] Open Scope Z_scope.

(** Perform an event whatever the state it finds. *)
Definition perform (w : world) (e : event) : world :=
  match e with
  | EvDeliver k t =>
      match wire w !! k with
      | Some (i, m) => put i (recv (frame_msg m) (env t [] (machines w i).1)) (machines w i).2 w
      | None => w
      end
  | EvTick i t => put i (tick (env t [] (machines w i).1)) (machines w i).2 w
  | EvSubmit i v => put i (submit v (machines w i).1).2 (machines w i).2 w
  | EvPersist i => let '(n, d, _) := persist_turn [] (machines w i).1 (machines w i).2 in put i n d w
  | EvPower i =>
      match power_cycle (machines w i).1 (machines w i).2 with
      | Some (n, _) => put i n (Disk.crash (machines w i).2) w
      | None => w
      end
  end.

Definition performs (conf : Z -> NodeConfig) (es : list event) : world := fold_left perform es (initial_world conf).

(** What an observer sees of each node: role, term, commit index and log values. *)
Definition observe (w : world) : list (Role * Z * Z * list (list byte)) :=
  map (fun i => let n := (machines w i).1 in (role_ n, current_term_ n, commit_index_ n, map le_value (log_view n))) trio.

(** Node 2 votes for node 0 and answers, loses power before its persist worker has written the
    vote, recovers without it and votes for node 1 in the same term. *)
Definition forgotten_vote : list event :=
  [EvTick 0 100; EvTick 1 100; EvDeliver 1 101; EvDeliver 4 102; EvPower 2; EvDeliver 3 103; EvDeliver 7 104].

Lemma unsynced_vote_elects_two_b :
  observe (performs trio_conf forgotten_vote) = [(Leader, 1, 0, []); (Leader, 1, 0, []); (Follower, 1, 0, [])].
Proof. by vm_compute. Qed.

(** A node that compacts as soon as two entries are retained. *)
Definition eager_conf (i : Z) : NodeConfig := mkNodeConfig i trio [] 10 20 5 1 0.

(** Node 0 ships both its entries to node 2, commits the first with node 1, compacts, and ships
    the snapshot to node 2 before the acknowledgement of the entries arrives.  Node 2
    acknowledges both entries, node 0 commits the second, and the snapshot then clears it from
    node 2.  Nodes 1 and 2 elect a leader without it and commit another in its place. *)
Definition late_snapshot : list event :=
  [EvTick 0 100; EvDeliver 0 100; EvDeliver 2 101; EvSubmit 0 [Byte.x41]; EvSubmit 0 [Byte.x42]; EvTick 0 102;
   EvDeliver 5 103; EvDeliver 9 104; EvTick 0 200; EvDeliver 8 201; EvDeliver 12 202; EvDeliver 11 203; EvTick 1 500; EvDeliver 15 501;
   EvDeliver 16 502; EvSubmit 1 [Byte.x43]; EvDeliver 20 503; EvDeliver 21 504].

Lemma snapshot_loses_commit_b :
  observe (performs eager_conf late_snapshot) =
  [(Leader, 1, 2, [[Byte.x41]; [Byte.x42]]); (Leader, 2, 2, [[Byte.x41]; [Byte.x43]]); (Follower, 2, 1, [[Byte.x41]; [Byte.x43]])].
Proof. by vm_compute. Qed.

(** A record that a torn append left behind stops every later recovery: what is written after
    the restart is not reached. *)
Definition torn_then_more : disk :=
  mkDisk (take 5 (record_bytes (BTerm 1 (Some 0))) ++ stream [BTerm 2 (Some 1); BEntry 1 (mkEntry 2 [Byte.x41])]) [] [] [] false.

Lemma torn_tail_hides_records :
  option_map (fun p => pst p.1) (RaftNodeB.recover [] torn_then_more (start (construct (trio_conf 0)))) = Some nothing.
Proof. by vm_compute. Qed.
